(* ===== verification/_CoqProject ===== *)
-Q . S2P
Prelude.v
Coding.v
Crc32cTables.v
Crc32c.v
Status.v
Env.v
LogFormat.v
DbFormat.v
Block.v
TableFormat.v
LruCache.v
Iterators.v
Table.v
SkipList.v
MemTable.v
WriteBatch.v
VersionEdit.v
DbIter.v
FileName.v
FileIO.v
Version.v
TableCache.v
VersionBuilder.v
VersionSet.v
Compaction.v
CompactionWork.v
Database.v
Flush.v
Recovery.v
Serialize.v
Glob.v
KvStore.v
RedisHash.v
RedisString.v
RedisKeys.v
RedisValue.v
RedisSet.v
RedisList.v
DbIterators.v
DbStore.v
CompactionInstall.v
DoCompaction.v
