(* ===== verification/Prelude.v ===== *)
(** * The storage engine of redisdb

    This library models the core of the repository, the storage engine in
    src/redisdb/db: a log-structured key/value store (a port of LevelDB) on which a
    layer of Redis data types is built.  A write is encoded as a write batch, appended to
    the write-ahead log and inserted into a memtable; full memtables are written out as
    sorted tables; a read consults the memtable and then tables; the log is replayed on
    recovery.

    ** The parts, from the bottom up

    - [Prelude]: bytes as [Byte.byte], machine integers as [Z] with their wrap-around
      ([u32], [u64], [i32]), little-endian strings, the [let?] notation of fallible code,
      the hint databases.
    - [Coding] (coding.h, coding.cc): fixed-width and variable-length integers and
      length-prefixed slices.  A pair of pointers is the list of bytes between them.
    - [Crc32cTables], [Crc32c] (crc32c.h, crc32c.cc): the five lookup tables, [Extend] with
      its four interleaved strides, masking; the bit-at-a-time definition of CRC-32C.
    - [Status] (status.h, status.cc): a status is the array the code allocates.
    - [Env] (env.h): the buffered writable file over a kernel that is a script of answers
      to [write], sequential and mapped files, and the limiter on open files.
    - [LogFormat] (logwriter, logreader): the log's writer, over the file interface, and
      its reader, over a sequential file.
    - [DbFormat] (dbformat.h, dbformat.cc): comparators as records of operations with the
      class [ComparatorOk] of their laws, the bytewise comparator, internal keys, their
      comparator, separators, lookup keys.
    - [Block] (blockbuilder, block): prefix-compressed blocks with restart points and the
      block iterator, whose [current] and [restarts] are offsets into the block.
    - [TableFormat] (format, tablebuilder): block handles, the footer, [ReadBlock], and
      [TableBuilder] writing to a file.  Random-access files are the class
      [RandomFile] with laws [RandomFileOk]; Snappy, which is not in the repository, is a
      pair of functions with the law [SnappyOk].
    - [LruCache] (cache.h, cache.cc): the sharded cache behind the class [Cache], whose
      laws [CacheOk] the implementation discharges.
    - [Iterators] (iterator.h, iterator.cc, merger.cc): the virtual interface as the class
      [Iter], its contract [iter_refines], and the wrapper, merging and two-level
      iterators, each proved against that contract from the same contract of its parts.
    - [Table] (table.h, table.cc): opening a table, reading blocks through the cache,
      [InternalGet], the table's iterator, [ApproximateOffsetOf].
    - [SkipList] (skiplist.h): nodes in a heap with explicit links per level.
    - [MemTable] (memtable.h, memtable.cc): encoded entries in a skip list.
    - [WriteBatch] (writebatch.h, writebatch.cc): building batches and applying them to a
      memtable.
    - [VersionEdit] (versionedit.h, versionedit.cc): changes of the set of files and their
      encoding as tagged fields.
    - [DbIter] (dbiter.cc): the iterator that shows users the newest value of each key at a
      snapshot, over any internal iterator.
    - [FileName] (filename.cc, logging.cc): the names of the files and the numbers in them.
    - [FileIO] (logging.cc, filename.cc): reading and writing whole files over the class
      [FileEnv] of directory operations; [MemDir] is a directory in memory.
    - [Version] (versionset.cc): the files of a version by level, [Version_Get] over the
      class [TableSource] of table reads, overlap queries, the output level of a memtable.
    - [TableCache] (tablecache.cc): tables by file number, opened on demand and cached; it
      implements [TableSource].
    - [VersionBuilder] (versionset.cc): applying edits to a version.
    - [VersionSet] (versionset.cc, db.cc): counters, [LogAndApply], the manifest, [Recover]
      and the creation of a new database.
    - [Compaction] (versionset.cc): choosing the inputs of a compaction.
    - [CompactionWork] (db.cc): which entries the loop of a compaction drops.
    - [Database] (db.cc): the class [DB]: the write queue and its groups, room for a write,
      [Get], scheduling.
    - [Flush] (db.cc): writing a memtable to a table file, installing it, deleting obsolete
      files; the class [TableOpener] of what a flush asks of the table cache.
    - [Recovery] (db.cc): [DB::Open]: recovery of the version, replay of the logs.
    - [DbIterators] (merger.cc, versionset.cc, memtable.cc, db.cc, tablecache.cc): the
      iterators over a whole database and over the inputs of a compaction, put together
      from those of memtables, of files and of levels; the class [FileIterators] of the
      iterators over files, which the table cache implements.
    - [CompactionInstall], [DoCompaction] (db.cc, snapshot.h): running a compaction, cutting its
      output into tables, installing them; background work.
    - [Serialize] (serialize.h): the stored keys and values of the Redis types.
    - [Glob] (util.cc): glob-style patterns and their matcher.
    - [KvStore]: what the Redis types ask of a database, as the class [KVStore] with the
      laws [KVStoreOk]; a map in memory implements it, and [DbStore] proves that the database does.
    - [RedisHash], [RedisString], [RedisValue], [RedisList], [RedisSet] (redishash.cc,
      redistring.cc, redislist.cc, redisset.cc): the commands of Redis over that interface.
    - [RedisKeys] (redistring.cc, redishash.cc, redisset.cc): finding keys by a pattern, all at
      once and a few at a time.
    - [DbStore] (db.cc): [DB::Write] of a caller that finds the queue empty and does not wait,
      the walk of an iterator, and the database as a [KVStore].

    ** How the parts meet

    Interfaces are classes: a client's theorems assume the laws, and the implementation's
    file proves them.  [AppendFile], [ReadFile], [RandomFile] and [FileEnv] are met by the
    files of [Env] and the directory of [FileIO]; [Cache] by [LruCache]; [Iter] by the iterators of
    blocks, tables, memtables, levels and mergers; [TableSource], [TableOpener] and
    [FileIterators] by the table cache.  [db_holds] ([Database]) is the invariant the operations of
    the database share: the memtables, the version and the counters agree with what was
    written.

    ** How the code is read

    A [bool] result with out-parameters is an option; a failed [assert], or a read outside
    the object, is [None] of the outer option, so a theorem that gives [Some] shows the
    code's asserts too.  A mutated object is passed in and returned.  Objects that are
    shared and mutated through pointers have explicit stores: the nodes of a skip list, the
    shards of a cache, the bytes of a file.  Loops that are not structural take fuel,
    a bound taken from the data (the number of remaining bytes, of nodes, of entries; for a
    two-level iterator two more than the entries of its index, which are no more than the index has bytes; for
    the iterator over the database two more than the files of the largest level), and
    the theorems give the result, so the fuel is shown to be enough; fuel that runs out
    is [None], which the theorems exclude.

    The mutex of a database: the functions of [Database] are the code between two waits.
    Where it is released while a flush or a compaction does its work, a parameter [others]
    stands for what the other threads make of the database; the theorems hold for every
    [others] that keeps what the background thread relies on.

    ** What the theorems show

    - Encodings: [varint32_roundtrip], [varint64_roundtrip], [internal_key_roundtrip],
      [handles_and_footer], [block_write_read], [log_recovery] are round trips that also
      settle truncated or damaged input; [Unmask_inverts_Mask].
    - Equivalence: [Extend_is_crc32c] proves the strided table-driven loop equal to the
      definition of the checksum by bits.
    - Refinement: [Insert_refines], [search_refines], [memtable_iterator], [block_refines], [merging_refines], [two_level_refines], [table_refines] and
      [cache_refines] relate each component to the abstract object it stands for, a
      sorted list of entries or a bounded first-in first-out map.
    - What a reader sees: [Get_finds_newest], [write_then_read], [table_cache_serves] and
      [version_get] state that lookups in a memtable, a table and a version return the
      newest entry at or below the snapshot; [snapshot_iterator] that [DBIter]
      moves over exactly the keys live at its snapshot, with their newest values, and
      [database_iterator] that [DB::NewIterator] makes it over everything in the database.
    - Orders: [internal_order] and [internal_separator] prove the internal comparator an
      order and its separators correct.
    - Invariants, bounds and termination: [Add_holds], [WritableFile_in_order],
      [Limiter_bounds], [reader_total], [status_keeps_message].
    - The set of files: [edit_roundtrip], [decoded_edit_ok] and [edit_truncated] for the
      encoding of edits, [replay_edits] for their effect (one
      builder for a log of edits gives what installing them one by one gives), and
      [manifest_recovery]: from any prefix of the manifest that a crash leaves, [Recover]
      gives the state after the last [LogAndApply] whose record is complete, so nothing
      synced is lost.
    - Choosing files: [overlapping_inputs] (the restart loop ends with the least closed
      set), [memtable_output_level], [file_names_roundtrip]; [pick_compaction] and
      [manual_compaction] (the inputs chosen are such that replacing them is sound);
      [base_level] (the cursors of [isBaseLevelForKey] answer as a scan of the levels).
    - The database: [write_queue] (whatever groups the queue makes, writes take effect one after
      another in order, and reads agree); [flush_keeps_contents] and [obsolete_files];
      [open_recovers] (after a crash, [DB::Open] gives back what the log and the manifest
      hold); [compaction_keeps_answers] (what the loop drops, no reader can see) and
      [compaction_runs] (a compaction ends, with its outputs installed and the answers
      unchanged, or with nothing changed and the error recorded).
    - Redis: [redis_hash], [redis_string], [redis_strings_together], [redis_list] and [redis_set]: the
      commands act on abstract maps, byte strings with an expiry time, sequences and sets as
      their names say, but where the code does not: the statements tell.  They assume the laws
      of a store, which [database_is_store] proves of the database with the bytewise comparator
      (hashes, strings, sets); [redis_keys] finds keys by pattern, and [glob_match] proves the
      matcher equal to the meaning of patterns; lists use a comparator that is an order on list keys only, so their store
      is an assumption.

    ** What is not modelled

    Threads and mutexes but for the waits and [others] above: [LogAndApply] is atomic, though
    the code releases the mutex while it writes the manifest, and no memtable becomes immutable
    while a compaction runs.  The waiting of [TESTCompactRange] and of the writers is not a loop:
    a waiting writer is its place in the queue.
    The skip list's memory barriers are plain loads and stores.  Memory itself is not
    bounded and allocation does not fail; destructors and reference counts appear where an operation's result
    depends on them.  An iterator over a file is made with the cache as it is; that it puts
    the table into the cache is left out, as the answers of the cache do not depend on it.  The
    Redis commands read the clock once per operation, and the version of a stored value, a
    32-bit time, is assumed not to overflow.

    Left out of src/redisdb/db: [GetProperty], [DebugString], [LevelSummary], the histogram and the
    statistics of compactions, which only report; [VersionSet::ApproximateOffsetOf] and
    [GetApproximateSizes]; of the Redis layer the sorted sets (every command of
    which makes a string view from a null pointer), [SIsmember] (which returns nothing), [LInsert], the
    scan of the keys of lists and the floating-point increment.  The other directories of the repository are
    network servers and clients (whose behaviour is that of sockets, event loops and the libraries they
    call), wrappers of third-party libraries, and small examples and tests; they keep little
    state of their own. *)
From Stdlib Require Export ZArith Lia List Strings.Byte String.
From stdpp Require Export base list numbers option decidable tactics.
From stdpp Require Export strings.
Export ListNotations.
#[global] Open Scope Z_scope.
#[global] Open Scope list_scope.

(** ** Bytes and byte strings *)

Abbreviation byte := Byte.byte.
Abbreviation bytes := (list Byte.byte).

#[export] Instance byte_eq_decision : EqDecision Byte.byte := Byte.byte_eq_dec.

(** The value of a [char] read as [unsigned char]. *)
Definition b2z (b : byte) : Z := Z.of_N (Byte.to_N b).

(** Truncation of an integer to one byte ([static_cast<unsigned char>]). *)
Definition z2b (z : Z) : byte :=
  match Byte.of_N (Z.to_N (z mod 256)) with
  | Some b => b
  | None => Byte.x00
  end.

Lemma b2z_range b : 0 <= b2z b < 256.
Proof. unfold b2z. pose proof (Byte.to_N_bounded b). lia. Qed.

Lemma b2z_inj a b : b2z a = b2z b -> a = b.
Proof.
  unfold b2z. intros H%N2Z.inj.
  pose proof (Byte.of_to_N a) as Ha. pose proof (Byte.of_to_N b) as Hb. congruence.
Qed.

Lemma b2z_z2b z : b2z (z2b z) = z mod 256.
Proof.
  unfold z2b, b2z. pose proof (Z.mod_pos_bound z 256 eq_refl) as Hz.
  destruct (Byte.of_N _) as [b|] eqn:E.
  - apply Byte.to_of_N in E. lia.
  - apply Byte.of_N_None_iff in E. lia.
Qed.

Lemma z2b_b2z b : z2b (b2z b) = b.
Proof. apply b2z_inj. rewrite b2z_z2b. apply Z.mod_small, b2z_range. Qed.

Lemma b2z_z2b_small z : 0 <= z < 256 -> b2z (z2b z) = z.
Proof. intros. rewrite b2z_z2b. by apply Z.mod_small. Qed.

(** A string literal of the source as the bytes it holds. *)
Definition str (s : string) : bytes := list_byte_of_string s.

(** ** Machine integers

    An unsigned [w]-bit integer is a [Z] kept in [0, 2^w); each operation of the
    source that can leave the range is wrapped where the source wraps. *)

Definition u8 (z : Z) : Z := z mod 2 ^ 8.
Definition u32 (z : Z) : Z := z mod 2 ^ 32.
Definition u64 (z : Z) : Z := z mod 2 ^ 64.

(** Two's-complement reading of the low 32 bits ([int32_t]). *)
Definition i32 (z : Z) : Z := (z + 2 ^ 31) mod 2 ^ 32 - 2 ^ 31.
Definition i64 (z : Z) : Z := (z + 2 ^ 63) mod 2 ^ 64 - 2 ^ 63.

Abbreviation is_u32 z := (0 <= z < 2 ^ 32).
Abbreviation is_u64 z := (0 <= z < 2 ^ 64).

Lemma u32_range z : is_u32 (u32 z).
Proof. by apply Z.mod_pos_bound. Qed.

Lemma u64_range z : is_u64 (u64 z).
Proof. by apply Z.mod_pos_bound. Qed.

Lemma u32_small z : is_u32 z -> u32 z = z.
Proof. apply Z.mod_small. Qed.

Lemma u64_small z : is_u64 z -> u64 z = z.
Proof. apply Z.mod_small. Qed.

Lemma i32_small z : - 2 ^ 31 <= z < 2 ^ 31 -> i32 z = z.
Proof. intros. unfold i32. rewrite Z.mod_small; lia. Qed.

(** ** Little-endian words: the memory image of an integer on the host *)

Fixpoint le_bytes (n : nat) (v : Z) : bytes :=
  match n with
  | O => []
  | S n' => z2b v :: le_bytes n' (v / 256)
  end.

Fixpoint le_value (bs : bytes) : Z :=
  match bs with
  | [] => 0
  | b :: bs' => b2z b + 256 * le_value bs'
  end.

Lemma length_le_bytes n v : length (le_bytes n v) = n.
Proof. revert v. induction n as [|n IH]; intros v; simpl; [done|]. by rewrite IH. Qed.

Lemma le_value_range bs : 0 <= le_value bs < 256 ^ Z.of_nat (length bs).
Proof.
  induction bs as [|b bs IH]; cbn [le_value length]; [done|].
  rewrite Nat2Z.inj_succ, Z.pow_succ_r by lia. pose proof (b2z_range b). nia.
Qed.

Lemma le_value_le_bytes n v : le_value (le_bytes n v) = v mod 256 ^ Z.of_nat n.
Proof.
  revert v. induction n as [|n IH]; intros v; cbn [le_bytes le_value].
  { by rewrite Z.mod_1_r. }
  rewrite IH, b2z_z2b, Nat2Z.inj_succ, Z.pow_succ_r by lia.
  rewrite Z.rem_mul_r by lia. lia.
Qed.

Lemma le_bytes_le_value bs : le_bytes (length bs) (le_value bs) = bs.
Proof.
  induction bs as [|b bs IH]; cbn [le_value length le_bytes]; [done|].
  pose proof (b2z_range b). f_equal.
  - apply b2z_inj. rewrite b2z_z2b, Z.mul_comm, Z.mod_add by lia. by apply Z.mod_small.
  - rewrite Z.mul_comm, Z.div_add, Z.div_small by lia. by rewrite Z.add_0_l.
Qed.

Lemma le_value_inj a b : length a = length b -> le_value a = le_value b -> a = b.
Proof.
  intros Hl Hv. rewrite <- (le_bytes_le_value a), <- (le_bytes_le_value b). congruence.
Qed.

Lemma le_bytes_app m n v :
  le_bytes (m + n) v = le_bytes m v ++ le_bytes n (v / 256 ^ Z.of_nat m).
Proof.
  revert v. induction m as [|m IH]; intros v; cbn [Nat.add le_bytes app].
  { by rewrite Z.div_1_r. }
  rewrite IH, Nat2Z.inj_succ, Z.pow_succ_r, Z.div_div by lia. done.
Qed.

(** ** [printf("%llu")]: the decimal digits of a 64-bit value *)

Definition digit (d : Z) : byte := z2b (48 + d).

Fixpoint decimal_loop (fuel : nat) (n : Z) (acc : bytes) : bytes :=
  match fuel with
  | O => acc
  | S fuel' =>
      let acc := digit (n mod 10) :: acc in
      if n <? 10 then acc else decimal_loop fuel' (n / 10) acc
  end.

(** Twenty digits are enough for [2^64 - 1]. *)
Definition decimal (n : Z) : bytes := decimal_loop 20 n [].

(** ** Control flow of fallible code *)

(** A call whose failure ([nullptr], [false]) ends the caller with failure. *)
Notation "'let?' p ':=' e 'in' k" :=
  (match e with Some p => k | None => None end)
  (at level 200, p pattern, e at level 200, k at level 200, right associativity).

(** ** Lists *)

Section Lists.
Context {A : Type}.
Implicit Types l k : list A.

Lemma take_app_exact l k n : n = length l -> take n (l ++ k) = l.
Proof. intros ->. apply take_app_length. Qed.

Lemma drop_app_exact l k n : n = length l -> drop n (l ++ k) = k.
Proof. intros ->. apply drop_app_length. Qed.

Lemma take_drop_split l n : l = take n l ++ drop n l.
Proof. symmetry. apply take_drop. Qed.

Lemma find_app (f : A -> bool) l k :
  List.find f (l ++ k) =
    match List.find f l with Some x => Some x | None => List.find f k end.
Proof. induction l as [|x l IH]; [done|]. cbn. by destruct (f x). Qed.
(** A strict prefix of encoded items is whole items and a strict prefix of the next. *)
Lemma concat_map_take {B} (f : B -> list A) (xs : list B) (k : nat) :
  (k < length (concat (map f xs)))%nat ->
  exists xs1 x xs2 j, xs = xs1 ++ x :: xs2 /\ (j < length (f x))%nat /\
    take k (concat (map f xs)) = concat (map f xs1) ++ take j (f x).
Proof.
  revert k. induction xs as [|x xs IH]; intros k Hk; cbn [map concat] in *; [cbn in Hk; lia|].
  rewrite length_app in Hk. destruct (decide (k < length (f x))%nat) as [Hlt|Hge].
  - exists [], x, xs, k. split_and!; [done..|]. by rewrite take_app_le by lia.
  - destruct (IH (k - length (f x))%nat) as (xs1 & x' & xs2 & j & -> & Hj & Ht); [lia|].
    exists (x :: xs1), x', xs2, j. split_and!; [done..|].
    rewrite take_app_ge, Ht by lia. cbn [map concat]. by rewrite <- app_assoc.
Qed.

Lemma filter_length_le (P Q : A -> bool) l :
  (forall x, x ∈ l -> P x = true -> Q x = true) ->
  (length (List.filter P l) <= length (List.filter Q l))%nat.
Proof.
  induction l as [|x l IH]; intros HPQ; [done|]. cbn.
  assert (length (List.filter P l) <= length (List.filter Q l))%nat
    by (apply IH; intros y Hy; apply HPQ, elem_of_cons; by right).
  pose proof (HPQ x ltac:(apply elem_of_cons; by left)).
  destruct (P x), (Q x); cbn; first [lia|naive_solver].
Qed.

Lemma filter_length_lt (P Q : A -> bool) l x :
  (forall x, x ∈ l -> P x = true -> Q x = true) -> x ∈ l -> P x = false -> Q x = true ->
  (length (List.filter P l) < length (List.filter Q l))%nat.
Proof.
  intros HPQ (l1 & l2 & ->)%list_elem_of_split HP HQ. rewrite !List.filter_app, !length_app. cbn.
  rewrite HP, HQ. cbn.
  pose proof (filter_length_le P Q l1 ltac:(intros y Hy; apply HPQ, elem_of_app; by left)).
  pose proof (filter_length_le P Q l2 ltac:(intros y Hy; apply HPQ, elem_of_app; right; apply elem_of_cons; by right)). lia.
Qed.
Lemma filter_all (P : A -> Prop) `{forall x, Decision (P x)} l : Forall P l -> base.filter P l = l.
Proof. induction 1; [done|]. rewrite filter_cons_True by done. by f_equal. Qed.

Lemma filter_none (P : A -> Prop) `{forall x, Decision (P x)} l : Forall (fun x => ~ P x) l -> base.filter P l = [].
Proof. induction 1; [done|]. by rewrite filter_cons_False. Qed.

Lemma filter_prefix (P : A -> Prop) `{forall x, Decision (P x)} l :
  (forall i j x y, (i < j)%nat -> l !! i = Some x -> l !! j = Some y -> P y -> P x) ->
  exists post, l = base.filter P l ++ post /\ Forall (fun x => ~ P x) post.
Proof.
  induction l as [|x l IH]; intros HP; [by exists []|]. destruct (decide (P x)) as [Hx|Hx].
  - rewrite filter_cons_True by done. destruct IH as (post & Hp & Hn); [|exists post; split; [cbn; by f_equal|done]].
    intros i j a b Hij Ha Hb. by apply (HP (S i) (S j)); [lia|..].
  - assert (Forall (fun x => ~ P x) (x :: l)) as Hn; [|exists (x :: l); by rewrite (filter_none P (x :: l) Hn)].
    apply Forall_cons. split; [done|]. apply Forall_forall. intros y [j Hj]%list_elem_of_lookup Hy.
    by apply Hx, (HP 0%nat (S j) x y); [lia|..].
Qed.

(** A filter whose predicate has no gaps takes a stretch of the list. *)
Lemma filter_stretch (P : A -> Prop) `{forall x, Decision (P x)} l :
  (forall (i j k : nat) x y z, (i < j < k)%nat -> l !! i = Some x -> l !! j = Some y -> l !! k = Some z -> P x -> P z -> P y) ->
  exists pre post, l = pre ++ base.filter P l ++ post.
Proof.
  induction l as [|x l IH]; intros HP; [by exists [], []|]. destruct (decide (P x)) as [Hx|Hx].
  - rewrite filter_cons_True by done. exists []. destruct (filter_prefix P l) as (post & Hp & _); [|exists post; cbn; by f_equal].
    intros i j a b Hij Ha Hb Hpb. by apply (HP 0%nat (S i) (S j) x a b); [lia|..].
  - rewrite filter_cons_False by done. destruct IH as (pre & post & Hp); [|exists (x :: pre), post; cbn; by f_equal].
    intros i j k a b d Hijk Ha Hb Hd. by apply (HP (S i) (S j) (S k)); [lia|..].
Qed.
End Lists.

(** ** [std::set]: a list in increasing order, with the set's comparison *)

Section StdSet.
Context {A : Type} (lt : A -> A -> bool).

Fixpoint set_insert (x : A) (l : list A) : list A :=
  match l with
  | [] => [x]
  | y :: l' =>
      if lt x y then x :: l else if lt y x then y :: set_insert x l' else l
  end.

Lemma set_insert_snoc x l :
  Forall (fun y => lt y x = true /\ lt x y = false) l -> set_insert x l = l ++ [x].
Proof.
  induction 1 as [|y l [H1 H2] _ IH]; [done|]. cbn. by rewrite H2, H1, IH.
Qed.

Lemma set_insert_elem x y l : y ∈ set_insert x l -> y = x \/ y ∈ l.
Proof.
  induction l as [|z l IH]; cbn; [by intros ->%list_elem_of_singleton; left|].
  destruct (lt x z); [|destruct (lt z x)]; rewrite ?elem_of_cons; naive_solver.
Qed.

Lemma set_insert_old x y l : y ∈ l -> y ∈ set_insert x l.
Proof.
  induction l as [|z l IH]; cbn; [by intros ?%not_elem_of_nil|].
  destruct (lt x z); [|destruct (lt z x)]; rewrite ?elem_of_cons; naive_solver.
Qed.
End StdSet.

(** ** Automation *)

(** Equations on byte strings, integers and lengths that always simplify. *)
Create HintDb bytes.
#[export] Hint Rewrite @length_app @length_take @length_drop @length_replicate
  length_le_bytes b2z_z2b z2b_b2z : bytes.

Ltac lens := autorewrite with bytes in *; cbn [length] in *.

(** Arithmetic that may need the range of the bytes in sight. *)
Ltac byte_ranges :=
  repeat match goal with
  | |- context [b2z ?b] =>
      lazymatch goal with
      | _ : 0 <= b2z b < 256 |- _ => fail
      | _ => pose proof (b2z_range b)
      end
  | _ : context [b2z ?b] |- _ =>
      lazymatch goal with
      | _ : 0 <= b2z b < 256 |- _ => fail
      | _ => pose proof (b2z_range b)
      end
  end.
Ltac blia := byte_ranges; lens; lia.
