(* ===== verification/Coding.v ===== *)
(** Integer and string encodings (redisdb/db/coding.h and coding.cc).

    A pair of pointers [p, limit) is the list of bytes between them, and a
    returned pointer is the list of the bytes from it to the limit; a null
    pointer or [false] is [None].  [dst->append] is list append, so each
    [Put...] is given by the bytes it appends. *)
From S2P Require Import Prelude.

(** ** Fixed-width integers *)

(** [kLittleEndian] is the constant of coding.h; it selects the [memcpy] branch,
    which copies the host representation (little-endian here). *)
Definition kLittleEndian : bool := false.

Definition EncodeFixed32 (value : Z) : bytes :=
  if negb kLittleEndian then le_bytes 4 value
  else [z2b (Z.land value 255);
        z2b (Z.land (Z.shiftr value 8) 255);
        z2b (Z.land (Z.shiftr value 16) 255);
        z2b (Z.land (Z.shiftr value 24) 255)].

Definition EncodeFixed64 (value : Z) : bytes :=
  if negb kLittleEndian then le_bytes 8 value
  else [z2b (Z.land value 255);
        z2b (Z.land (Z.shiftr value 8) 255);
        z2b (Z.land (Z.shiftr value 16) 255);
        z2b (Z.land (Z.shiftr value 24) 255);
        z2b (Z.land (Z.shiftr value 32) 255);
        z2b (Z.land (Z.shiftr value 40) 255);
        z2b (Z.land (Z.shiftr value 48) 255);
        z2b (Z.land (Z.shiftr value 56) 255)].

Definition PutFixed32 (dst : bytes) (value : Z) : bytes := dst ++ EncodeFixed32 value.
Definition PutFixed64 (dst : bytes) (value : Z) : bytes := dst ++ EncodeFixed64 value.

Definition byte_at (ptr : bytes) (i : nat) : Z := default 0 (b2z <$> ptr !! i).

Lemma byte_at_range ptr i : 0 <= byte_at ptr i < 256.
Proof. unfold byte_at. destruct (ptr !! i); [apply b2z_range|done]. Qed.

(** REQUIRES: four readable bytes at [ptr]. *)
Definition DecodeFixed32 (ptr : bytes) : Z :=
  if negb kLittleEndian then le_value (take 4 ptr)
  else Z.lor (Z.lor (Z.lor (byte_at ptr 0)
                           (Z.shiftl (byte_at ptr 1) 8))
                    (Z.shiftl (byte_at ptr 2) 16))
             (Z.shiftl (byte_at ptr 3) 24).

(** REQUIRES: eight readable bytes at [ptr]. *)
Definition DecodeFixed64 (ptr : bytes) : Z :=
  if negb kLittleEndian then le_value (take 8 ptr)
  else let lo := DecodeFixed32 ptr in
       let hi := DecodeFixed32 (drop 4 ptr) in
       Z.lor (u64 (Z.shiftl hi 32)) lo.

(** ** Variable-length integers *)

Definition EncodeVarint32 (v : Z) : bytes :=
  let B := 128 in
  if v <? 2 ^ 7 then [z2b v]
  else if v <? 2 ^ 14 then [z2b (Z.lor v B); z2b (Z.shiftr v 7)]
  else if v <? 2 ^ 21 then
    [z2b (Z.lor v B); z2b (Z.lor (Z.shiftr v 7) B); z2b (Z.shiftr v 14)]
  else if v <? 2 ^ 28 then
    [z2b (Z.lor v B); z2b (Z.lor (Z.shiftr v 7) B); z2b (Z.lor (Z.shiftr v 14) B);
     z2b (Z.shiftr v 21)]
  else
    [z2b (Z.lor v B); z2b (Z.lor (Z.shiftr v 7) B); z2b (Z.lor (Z.shiftr v 14) B);
     z2b (Z.lor (Z.shiftr v 21) B); z2b (Z.shiftr v 28)].

Definition PutVarint32 (dst : bytes) (v : Z) : bytes := dst ++ EncodeVarint32 v.

(** The [while (v >= B)] loop of [EncodeVarint64]; the fuel bounds its
    iterations, nine for a 64-bit value ([EncodeVarint64_unfold]). *)
Fixpoint EncodeVarint64_loop (fuel : nat) (v : Z) : bytes :=
  match fuel with
  | O => [z2b v]
  | S fuel' =>
      if 128 <=? v then
        z2b (Z.lor (Z.land v (128 - 1)) 128) :: EncodeVarint64_loop fuel' (Z.shiftr v 7)
      else [z2b v]
  end.

Definition EncodeVarint64 (v : Z) : bytes := EncodeVarint64_loop 9 v.

Definition PutVarint64 (dst : bytes) (v : Z) : bytes := dst ++ EncodeVarint64 v.

Fixpoint VarintLength_loop (fuel : nat) (v len : Z) : Z :=
  match fuel with
  | O => len
  | S fuel' => if 128 <=? v then VarintLength_loop fuel' (Z.shiftr v 7) (len + 1) else len
  end.

Definition VarintLength (v : Z) : Z := VarintLength_loop 9 v 1.

(** The decoding loop, with the width [w] of the accumulator and the largest
    shift [lim] the [for] condition lets in: 32 and 28 in
    [GetVarint32PtrFallback], 64 and 63 in [GetVarint64Ptr]. *)
Fixpoint GetVarint_loop (w lim shift result : Z) (p : bytes) : option (Z * bytes) :=
  match p with
  | [] => None
  | b :: p' =>
      if shift <=? lim then
        let byte := b2z b in
        if Z.land byte 128 =? 0 then
          Some (Z.lor result (Z.shiftl byte shift mod 2 ^ w), p')
        else
          GetVarint_loop w lim (shift + 7)
            (Z.lor result (Z.shiftl (Z.land byte 127) shift mod 2 ^ w)) p'
      else None
  end.

Definition GetVarint32PtrFallback (p : bytes) : option (Z * bytes) :=
  GetVarint_loop 32 28 0 0 p.

Definition GetVarint32Ptr (p : bytes) : option (Z * bytes) :=
  match p with
  | b :: p' =>
      let result := b2z b in
      if Z.land result 128 =? 0 then Some (result, p') else GetVarint32PtrFallback p
  | [] => GetVarint32PtrFallback p
  end.

Definition GetVarint64Ptr (p : bytes) : option (Z * bytes) := GetVarint_loop 64 63 0 0 p.

Definition GetVarint32 (input : bytes) : option (Z * bytes) :=
  let? (value, q) := GetVarint32Ptr input in Some (value, q).

Definition GetVarint64 (input : bytes) : option (Z * bytes) :=
  let? (value, q) := GetVarint64Ptr input in Some (value, q).

(** ** Length-prefixed slices *)

Definition PutLengthPrefixedSlice (dst value : bytes) : bytes :=
  PutVarint32 dst (u32 (Z.of_nat (length value))) ++ value.

(** [GetLengthPrefixedSlice(p, limit, result)]. *)
Definition GetLengthPrefixedSlicePtr (p : bytes) : option (bytes * bytes) :=
  let? (len, p) := GetVarint32Ptr p in
  if Z.of_nat (length p) <? len then None
  else Some (take (Z.to_nat len) p, drop (Z.to_nat len) p).

(** [GetLengthPrefixedSlice(data)]: no limit is known; the varint is looked for
    in the next five bytes and assumed to be there ([None] where the source
    would use an uninitialised length). *)
Definition GetLengthPrefixedSliceData (data : bytes) : option bytes :=
  let? (len, rest) := GetVarint32Ptr (take 5 data) in
  let used := (length (take 5 data) - length rest)%nat in
  Some (take (Z.to_nat len) (drop used data)).

(** [GetLengthPrefixedSlice(input, result)]. *)
Definition GetLengthPrefixedSlice (input : bytes) : option (bytes * bytes) :=
  let? (len, input) := GetVarint32 input in
  if len <=? Z.of_nat (length input) then
    Some (take (Z.to_nat len) input, drop (Z.to_nat len) input)
  else None.

(** ** Fixed-width integers: facts *)

Lemma EncodeFixed32_le v : EncodeFixed32 v = le_bytes 4 v.
Proof. done. Qed.

Lemma EncodeFixed64_le v : EncodeFixed64 v = le_bytes 8 v.
Proof. done. Qed.

Lemma length_EncodeFixed32 v : length (EncodeFixed32 v) = 4%nat.
Proof. done. Qed.

Lemma length_EncodeFixed64 v : length (EncodeFixed64 v) = 8%nat.
Proof. done. Qed.

Lemma DecodeFixed32_app v rest : DecodeFixed32 (EncodeFixed32 v ++ rest) = u32 v.
Proof.
  unfold DecodeFixed32. cbn [kLittleEndian negb].
  rewrite take_app_exact by done. apply (le_value_le_bytes 4).
Qed.

Lemma DecodeFixed64_app v rest : DecodeFixed64 (EncodeFixed64 v ++ rest) = u64 v.
Proof.
  unfold DecodeFixed64. cbn [kLittleEndian negb].
  rewrite take_app_exact by done. apply (le_value_le_bytes 8).
Qed.

Lemma DecodeFixed32_range p : is_u32 (DecodeFixed32 p).
Proof.
  unfold DecodeFixed32. cbn [kLittleEndian negb].
  pose proof (le_value_range (take 4 p)) as H.
  assert (256 ^ Z.of_nat (length (take 4 p)) <= 256 ^ 4)
    by (apply Z.pow_le_mono_r; lens; lia).
  change (2 ^ 32) with (256 ^ 4). lia.
Qed.

Lemma DecodeFixed64_range p : is_u64 (DecodeFixed64 p).
Proof.
  unfold DecodeFixed64. cbn [kLittleEndian negb].
  pose proof (le_value_range (take 8 p)) as H.
  assert (256 ^ Z.of_nat (length (take 8 p)) <= 256 ^ 8)
    by (apply Z.pow_le_mono_r; lens; lia).
  change (2 ^ 64) with (256 ^ 8). lia.
Qed.

Lemma DecodeFixed64_take p : DecodeFixed64 (take 8 p) = DecodeFixed64 p.
Proof. unfold DecodeFixed64. cbn [kLittleEndian negb]. by rewrite take_take. Qed.

Lemma EncodeFixed64_DecodeFixed64 p :
  length p = 8%nat -> EncodeFixed64 (DecodeFixed64 p) = p.
Proof.
  intros Hp. unfold EncodeFixed64, DecodeFixed64. cbn [kLittleEndian negb].
  rewrite take_ge by lia. rewrite <- Hp. apply le_bytes_le_value.
Qed.

#[export] Hint Rewrite length_EncodeFixed32 length_EncodeFixed64 : bytes.

(** ** Bits of a varint byte *)

Section VarintBits.
Implicit Types v r c s : Z.

Lemma lor_shiftl_add r c s :
  0 <= s -> 0 <= r < 2 ^ s -> Z.lor r (Z.shiftl c s) = r + c * 2 ^ s.
Proof.
  intros Hs Hr. rewrite <- Z.add_lor_land, <- (Z.shiftl_mul_pow2 c s) by done.
  replace (Z.land r (Z.shiftl c s)) with 0; [lia|].
  symmetry. apply Z.bits_inj'. intros i Hi.
  rewrite Z.land_spec, Z.bits_0, Z.shiftl_spec by done.
  destruct (decide (s <= i)) as [Hle|Hlt].
  - destruct (decide (r = 0)) as [->|]; [by rewrite Z.testbit_0_l|].
    rewrite (Z.bits_above_log2 r i); [done|lia|].
    apply Z.log2_lt_pow2; [lia|]. apply (Z.lt_le_trans _ (2 ^ s)); [lia|].
    apply Z.pow_le_mono_r; lia.
  - rewrite (Z.testbit_neg_r c (i - s)) by lia. apply andb_false_r.
Qed.

Lemma lor_128_mod v : Z.lor v 128 mod 256 = v mod 128 + 128.
Proof.
  replace (v mod 128 + 128) with (Z.lor (Z.land v (Z.ones 7)) (Z.shiftl 1 7)).
  2:{ rewrite Z.land_ones by done. apply (lor_shiftl_add _ 1 7); [done|].
      by apply Z.mod_pos_bound. }
  change 256 with (2 ^ 8). rewrite <- Z.land_ones, Z.land_lor_distr_l by done.
  change 128 with (2 ^ 7). change (Z.shiftl 1 7) with (2 ^ 7).
  apply Z.bits_inj'. intros i Hi. rewrite !Z.lor_spec, !Z.land_spec.
  destruct (Z.lt_trichotomy i 7) as [?|[->|?]].
  - by rewrite Z.pow2_bits_false, !Z.ones_spec_low by lia.
  - rewrite Z.pow2_bits_true, (Z.ones_spec_low 8) by lia. by rewrite !orb_true_r.
  - by rewrite Z.pow2_bits_false, !Z.ones_spec_high, !andb_false_r by lia.
Qed.

Lemma land_127 b : 0 <= b -> Z.land b 127 = b mod 128.
Proof. intros. change 127 with (Z.ones 7). by rewrite Z.land_ones. Qed.

Lemma land_128 b : 0 <= b < 256 -> (Z.land b 128 =? 0) = (b <? 128).
Proof.
  intros Hb.
  assert (forallb (fun n => Bool.eqb (Z.land (Z.of_nat n) 128 =? 0) (Z.of_nat n <? 128))
            (List.seq 0 256) = true) as H by (vm_compute; done).
  rewrite forallb_forall in H. specialize (H (Z.to_nat b)).
  rewrite in_seq, Z2Nat.id in H by lia. apply Bool.eqb_prop, H. lia.
Qed.

Lemma shiftr_7 v : Z.shiftr v 7 = v / 128.
Proof. by rewrite Z.shiftr_div_pow2. Qed.
End VarintBits.

(** ** Varints: the encoder *)

Lemma EncodeVarint64_loop_S fuel v :
  0 <= v < 128 ^ Z.of_nat (S fuel) ->
  EncodeVarint64_loop (S fuel) v = EncodeVarint64_loop fuel v.
Proof.
  revert v. induction fuel as [|fuel IH]; intros v Hv.
  { cbn. case (Z.leb_spec 128 v); [lia|done]. }
  change (EncodeVarint64_loop (S (S fuel)) v) with
    (if 128 <=? v then
       z2b (Z.lor (Z.land v 127) 128) :: EncodeVarint64_loop (S fuel) (Z.shiftr v 7)
     else [z2b v]).
  rewrite shiftr_7, IH; [by rewrite <- shiftr_7|].
  rewrite Nat2Z.inj_succ, Z.pow_succ_r in Hv by lia.
  split; [apply Z.div_pos; lia|]. apply Z.div_lt_upper_bound; lia.
Qed.

(** The loop of [EncodeVarint64] ends by its own test: its nine steps of fuel
    are never used up on a 64-bit value. *)
Lemma EncodeVarint64_unfold v :
  is_u64 v ->
  EncodeVarint64 v =
    if 128 <=? v then
      z2b (Z.lor (Z.land v (128 - 1)) 128) :: EncodeVarint64 (Z.shiftr v 7)
    else [z2b v].
Proof.
  intros Hv. unfold EncodeVarint64. rewrite <- (EncodeVarint64_loop_S 9 v) at 1.
  { done. }
  change (128 ^ Z.of_nat 10) with (2 ^ 70). lia.
Qed.

Lemma z2b_lor_128 v : z2b (Z.lor (Z.land v (128 - 1)) 128) = z2b (Z.lor v 128).
Proof.
  apply b2z_inj. rewrite !b2z_z2b, !lor_128_mod. change (128 - 1) with (Z.ones 7).
  rewrite Z.land_ones by done. by rewrite Z.mod_mod.
Qed.

(** The unrolled 32-bit encoder is the loop. *)
Lemma EncodeVarint32_loop v : is_u32 v -> EncodeVarint32 v = EncodeVarint64_loop 4 v.
Proof.
  intros Hv. unfold EncodeVarint32. cbn [EncodeVarint64_loop].
  rewrite !z2b_lor_128, !Z.shiftr_shiftr, !Z.shiftr_div_pow2 by done.
  change (7 + 7) with 14. change (14 + 7) with 21. change (21 + 7) with 28.
  repeat match goal with
  | |- context [if ?a <? ?b then _ else _] => case (Z.ltb_spec a b); intros ?
  | |- context [if ?a <=? ?b then _ else _] => case (Z.leb_spec a b); intros ?
  end; first [done | exfalso]; Z.div_mod_to_equations; lia.
Qed.

Lemma EncodeVarint64_loop_length fuel v :
  (1 <= length (EncodeVarint64_loop fuel v) <= S fuel)%nat.
Proof.
  revert v. induction fuel as [|fuel IH]; intros v; cbn; [lia|].
  case (128 <=? v); cbn; [specialize (IH (Z.shiftr v 7))|]; lia.
Qed.

Lemma length_EncodeVarint32 v : (1 <= length (EncodeVarint32 v) <= 5)%nat.
Proof. unfold EncodeVarint32. repeat case_match; cbn; lia. Qed.

Lemma length_EncodeVarint64 v : (1 <= length (EncodeVarint64 v) <= 10)%nat.
Proof. apply (EncodeVarint64_loop_length 9). Qed.

Lemma VarintLength_loop_length fuel v len :
  VarintLength_loop fuel v len = len - 1 + Z.of_nat (length (EncodeVarint64_loop fuel v)).
Proof.
  revert v len. induction fuel as [|fuel IH]; intros v len; cbn [VarintLength_loop EncodeVarint64_loop].
  { cbn. lia. }
  case (128 <=? v); cbn [length]; [rewrite IH|]; lia.
Qed.

(** ** Varints: the decoder *)

Lemma VarintLength_32 v : is_u32 v -> VarintLength v = Z.of_nat (length (EncodeVarint32 v)).
Proof.
  intros Hv. unfold VarintLength. rewrite VarintLength_loop_length, EncodeVarint32_loop by done.
  rewrite !EncodeVarint64_loop_S by (cbn; lia).
  lia.
Qed.

Lemma GetVarint_loop_encode w lim fuel v s r rest :
  (forall s, 0 <= s -> s mod 7 = 0 -> s < w -> s <= lim) ->
  0 <= v < 128 ^ Z.of_nat (S fuel) ->
  0 <= s -> s mod 7 = 0 -> s < w -> 0 <= r < 2 ^ s -> v * 2 ^ s < 2 ^ w ->
  GetVarint_loop w lim s r (EncodeVarint64_loop fuel v ++ rest) = Some (r + v * 2 ^ s, rest).
Proof.
  intros Hlim. revert v s r.
  induction fuel as [|fuel IH]; intros v s r Hv Hs Hs7 Hsw Hr Hvw.
  all: assert (s <=? lim = true) as Hle by (apply Z.leb_le, Hlim; done).
  all: assert (forall c, 0 <= c <= v -> Z.lor r (Z.shiftl c s mod 2 ^ w) = r + c * 2 ^ s) as Hacc
    by (intros c Hc; rewrite Z.mod_small by (rewrite Z.shiftl_mul_pow2 by lia; nia);
        by apply lor_shiftl_add).
  - cbn [EncodeVarint64_loop app GetVarint_loop]. change (128 ^ Z.of_nat 1) with 128 in Hv.
    rewrite Hle, b2z_z2b_small, land_128 by lia.
    rewrite (proj2 (Z.ltb_lt _ _)) by lia. by rewrite Hacc by lia.
  - cbn [EncodeVarint64_loop]. case (Z.leb_spec 128 v); intros Hv128.
    + cbn [app GetVarint_loop]. rewrite z2b_lor_128, Hle, b2z_z2b, lor_128_mod.
      pose proof (Z.mod_pos_bound v 128 eq_refl) as Hm.
      rewrite land_128, (proj2 (Z.ltb_ge _ _)), land_127 by lia.
      replace ((v mod 128 + 128) mod 128) with (v mod 128)
        by (rewrite <- Z.add_mod_idemp_r, Z.add_0_r, Z.mod_mod; done).
      rewrite Hacc, shiftr_7 by (split; [|apply Z.mod_le]; lia).
      assert (v * 2 ^ s = v mod 128 * 2 ^ s + v / 128 * 2 ^ (s + 7)) as Hsplit.
      { rewrite Z.pow_add_r by lia. change (2 ^ 7) with 128. pose proof (Z.div_mod v 128). nia. }
      assert (2 ^ (s + 7) < 2 ^ w) as Hlt.
      { rewrite Z.pow_add_r by lia. change (2 ^ 7) with 128. nia. }
      apply Z.pow_lt_mono_r_iff in Hlt; [|lia..].
      rewrite Nat2Z.inj_succ, Z.pow_succ_r in Hv by lia.
      rewrite IH; [f_equal; f_equal; lia|..]; try lia.
      * split; [apply Z.div_pos|apply Z.div_lt_upper_bound]; lia.
      * rewrite Z.add_mod, Hs7; done.
      * rewrite Z.pow_add_r by lia. change (2 ^ 7) with 128. nia.
    + cbn [app GetVarint_loop]. rewrite Hle, b2z_z2b_small, land_128 by lia.
      rewrite (proj2 (Z.ltb_lt _ _)) by lia. by rewrite Hacc by lia.
Qed.

Lemma GetVarint32Ptr_fallback p : GetVarint32Ptr p = GetVarint32PtrFallback p.
Proof.
  destruct p as [|b p]; [done|]. unfold GetVarint32Ptr.
  destruct (Z.land (b2z b) 128 =? 0) eqn:E; [|done].
  unfold GetVarint32PtrFallback. cbn [GetVarint_loop]. rewrite E.
  cbn [Z.leb Z.compare]. rewrite Z.shiftl_0_r, Z.lor_0_l, Z.mod_small; [done|].
  pose proof (b2z_range b). lia.
Qed.

Lemma GetVarint32Ptr_Put v rest :
  is_u32 v -> GetVarint32Ptr (EncodeVarint32 v ++ rest) = Some (v, rest).
Proof.
  intros Hv. rewrite GetVarint32Ptr_fallback. unfold GetVarint32PtrFallback.
  rewrite EncodeVarint32_loop by done.
  rewrite GetVarint_loop_encode; [f_equal; f_equal; lia|..]; try done; try lia.
  intros s ???. Z.div_mod_to_equations. lia.
Qed.

Lemma GetVarint64Ptr_Put v rest :
  is_u64 v -> GetVarint64Ptr (EncodeVarint64 v ++ rest) = Some (v, rest).
Proof.
  intros Hv. unfold GetVarint64Ptr, EncodeVarint64.
  rewrite GetVarint_loop_encode; [f_equal; f_equal; lia|..]; try done; try lia.
Qed.

(** What a successful decode returns is in range and is a proper suffix, at
    most [1 + lim / 7] bytes in. *)
Lemma GetVarint_loop_bounds w lim p s r v rest :
  0 <= w -> 0 <= s -> 0 <= r < 2 ^ w ->
  GetVarint_loop w lim s r p = Some (v, rest) ->
  0 <= v < 2 ^ w /\
  exists used, p = used ++ rest /\ used <> [] /\ 7 * Z.of_nat (length used) <= lim - s + 7.
Proof.
  intros Hw. revert s r. induction p as [|b p IH]; intros s r Hs Hr H; cbn in H; [done|].
  case_match eqn:Hle; [|done]. apply Z.leb_le in Hle.
  assert (forall x, 0 <= Z.lor r (x mod 2 ^ w) < 2 ^ w) as Hlor.
  { intros x. pose proof (Z.mod_pos_bound x (2 ^ w)) as Hx. rewrite <- (Z.mod_small r (2 ^ w)) by done.
    rewrite <- !Z.land_ones, <- Z.land_lor_distr_l, Z.land_ones by done.
    apply Z.mod_pos_bound. lia. }
  case_match.
  - simplify_eq. split; [done|]. exists [b]. cbn. split_and!; [done..|lia].
  - apply IH in H as (Hv & used & -> & Hne & Hlen); [|lia|done].
    split; [done|]. exists (b :: used). cbn [length app]. split_and!; [done..|lia].
Qed.

Lemma GetVarint32Ptr_suffix p v rest :
  GetVarint32Ptr p = Some (v, rest) ->
  is_u32 v /\ exists used, p = used ++ rest /\ (1 <= length used <= 5)%nat.
Proof.
  rewrite GetVarint32Ptr_fallback. intros H. apply GetVarint_loop_bounds in H; [|done..].
  destruct H as (? & used & -> & Hne & ?). split; [done|]. exists used. split; [done|].
  destruct used; [done|]. cbn [length] in *. lia.
Qed.

Lemma GetVarint64Ptr_suffix p v rest :
  GetVarint64Ptr p = Some (v, rest) ->
  is_u64 v /\ exists used, p = used ++ rest /\ (1 <= length used <= 10)%nat.
Proof.
  intros H. apply GetVarint_loop_bounds in H; [|done..].
  destruct H as (? & used & -> & Hne & ?). split; [done|]. exists used. split; [done|].
  destruct used; [done|]. cbn [length] in *. lia.
Qed.

(** ** Length-prefixed slices: facts *)

Lemma GetLengthPrefixedSlicePtr_Put value rest :
  is_u32 (Z.of_nat (length value)) ->
  GetLengthPrefixedSlicePtr (PutLengthPrefixedSlice [] value ++ rest) = Some (value, rest).
Proof.
  intros Hv. unfold GetLengthPrefixedSlicePtr, PutLengthPrefixedSlice, PutVarint32.
  rewrite u32_small, app_nil_l, <- app_assoc, GetVarint32Ptr_Put by done.
  rewrite (proj2 (Z.ltb_ge _ _)) by (lens; lia).
  by rewrite Nat2Z.id, take_app_exact, drop_app_exact.
Qed.

Lemma GetLengthPrefixedSlice_Put value rest :
  is_u32 (Z.of_nat (length value)) ->
  GetLengthPrefixedSlice (PutLengthPrefixedSlice [] value ++ rest) = Some (value, rest).
Proof.
  intros Hv. unfold GetLengthPrefixedSlice, GetVarint32, PutLengthPrefixedSlice, PutVarint32.
  rewrite u32_small, app_nil_l, <- app_assoc, GetVarint32Ptr_Put by done.
  rewrite (proj2 (Z.leb_le _ _)) by (lens; lia).
  by rewrite Nat2Z.id, take_app_exact, drop_app_exact.
Qed.

(** Stepping over the length in front of a slice, five readable bytes at most. *)
Lemma slice_start value rest :
  is_u32 (Z.of_nat (length value)) ->
  let p := PutLengthPrefixedSlice [] value ++ rest in
  exists r, GetVarint32Ptr (take 5 p) = Some (Z.of_nat (length value), r) /\
    drop (length (take 5 p) - length r) p = value ++ rest.
Proof.
  intros Hv p. subst p. unfold PutLengthPrefixedSlice, PutVarint32.
  rewrite u32_small, app_nil_l, <- app_assoc by done.
  set (e := EncodeVarint32 _). pose proof (length_EncodeVarint32 (Z.of_nat (length value))) as He.
  fold e in He. rewrite take_app_ge by lia. eexists. unfold e at 1.
  rewrite GetVarint32Ptr_Put by done. split; [done|]. by rewrite drop_app_exact by (lens; lia).
Qed.

Lemma GetLengthPrefixedSliceData_Put value rest :
  is_u32 (Z.of_nat (length value)) ->
  GetLengthPrefixedSliceData (PutLengthPrefixedSlice [] value ++ rest) = Some value.
Proof.
  intros Hv. unfold GetLengthPrefixedSliceData.
  destruct (slice_start value rest Hv) as (r & -> & ->).
  by rewrite Nat2Z.id, take_app_exact.
Qed.

Lemma PutLengthPrefixedSlice_app dst value :
  PutLengthPrefixedSlice dst value = dst ++ PutLengthPrefixedSlice [] value.
Proof. unfold PutLengthPrefixedSlice, PutVarint32. by rewrite app_nil_l, app_assoc. Qed.

Lemma GetLengthPrefixedSlice_suffix p value rest :
  GetLengthPrefixedSlice p = Some (value, rest) -> (length rest < length p)%nat.
Proof.
  unfold GetLengthPrefixedSlice, GetVarint32. intros H.
  destruct (GetVarint32Ptr p) as [[len q]|] eqn:E; [|done]. case_match; [|done].
  apply GetVarint32Ptr_suffix in E as (_ & used & -> & ?). simplify_eq. lens. lia.
Qed.

(** Decoding looks at no byte past the varint. *)
Lemma GetVarint_loop_more w lim s r p v rest more :
  GetVarint_loop w lim s r p = Some (v, rest) ->
  GetVarint_loop w lim s r (p ++ more) = Some (v, rest ++ more).
Proof.
  revert s r. induction p as [|b p IH]; intros s r H; cbn in H |- *; [done|].
  repeat case_match; try done; [by simplify_eq|]. by apply IH.
Qed.

Lemma GetVarint_loop_truncated w lim s r e v k :
  (k < length e)%nat ->
  GetVarint_loop w lim s r e = Some (v, []) ->
  GetVarint_loop w lim s r (take k e) = None.
Proof.
  intros Hk He. destruct (GetVarint_loop w lim s r (take k e)) as [[v' rest]|] eqn:E; [|done].
  apply (GetVarint_loop_more _ _ _ _ _ _ _ (drop k e)) in E.
  rewrite take_drop, He in E. injection E as _ E. symmetry in E.
  apply app_eq_nil in E as [_ E].
  apply (f_equal length) in E. lens. lia.
Qed.

Lemma GetVarint32Ptr_truncated v k :
  is_u32 v -> (k < length (EncodeVarint32 v))%nat ->
  GetVarint32Ptr (take k (EncodeVarint32 v)) = None.
Proof.
  intros Hv Hk. rewrite GetVarint32Ptr_fallback.
  apply GetVarint_loop_truncated with v; [done|].
  pose proof (GetVarint32Ptr_Put v [] Hv) as H.
  by rewrite app_nil_r, GetVarint32Ptr_fallback in H.
Qed.

Lemma GetVarint64Ptr_truncated v k :
  is_u64 v -> (k < length (EncodeVarint64 v))%nat ->
  GetVarint64Ptr (take k (EncodeVarint64 v)) = None.
Proof.
  intros Hv Hk. apply GetVarint_loop_truncated with v; [done|].
  pose proof (GetVarint64Ptr_Put v [] Hv) as H. by rewrite app_nil_r in H.
Qed.

(** ** Properties *)

Lemma GetLengthPrefixedSlice_truncated v k :
  is_u32 (Z.of_nat (length v)) -> (k < length (PutLengthPrefixedSlice [] v))%nat ->
  GetLengthPrefixedSlice (take k (PutLengthPrefixedSlice [] v)) = None.
Proof.
  intros Hv. unfold PutLengthPrefixedSlice, PutVarint32, GetLengthPrefixedSlice, GetVarint32.
  rewrite u32_small, app_nil_l, length_app by done. intros Hk.
  destruct (decide (k < length (EncodeVarint32 (Z.of_nat (length v))))%nat) as [Hlt|Hge].
  - rewrite take_app_le, GetVarint32Ptr_truncated by (done || lia). done.
  - rewrite take_app_ge, GetVarint32Ptr_Put by (done || lia).
    rewrite (proj2 (Z.leb_gt _ _)); [done|]. lens. lia.
Qed.

(** [GetVarint32] reads back what [PutVarint32] wrote and leaves the input at
    the byte after it, whatever follows; on an encoding cut short it fails; and
    whatever it accepts is a 32-bit value taken from one to five bytes. *)
Theorem varint32_roundtrip v :
  is_u32 v ->
  (forall rest, GetVarint32 (PutVarint32 [] v ++ rest) = Some (v, rest)) /\
  (forall k, (k < length (PutVarint32 [] v))%nat ->
     GetVarint32 (take k (PutVarint32 [] v)) = None) /\
  (forall input x rest, GetVarint32 input = Some (x, rest) ->
     is_u32 x /\ exists used, input = used ++ rest /\ (1 <= length used <= 5)%nat).
Proof.
  unfold GetVarint32, PutVarint32. intros Hv. split_and!.
  - intros rest. by rewrite app_nil_l, GetVarint32Ptr_Put.
  - intros k Hk. by rewrite app_nil_l, GetVarint32Ptr_truncated.
  - intros input x rest H. apply GetVarint32Ptr_suffix.
    by destruct (GetVarint32Ptr input) as [[? ?]|]; simplify_eq.
Qed.

Lemma varint32_roundtrip_witness :
  GetVarint32 (PutVarint32 [] 624485 ++ [x05]) = Some (624485, [x05]).
Proof. apply (varint32_roundtrip 624485). lia. Defined.

(** the 64-bit varints: [GetVarint64] inverts [PutVarint64], fails on a strict
    prefix of an encoding, and [VarintLength] is the number of bytes written, at
    most ten. *)
Theorem varint64_roundtrip v :
  is_u64 v ->
  (forall rest, GetVarint64 (PutVarint64 [] v ++ rest) = Some (v, rest)) /\
  (forall k, (k < length (PutVarint64 [] v))%nat ->
     GetVarint64 (take k (PutVarint64 [] v)) = None) /\
  VarintLength v = Z.of_nat (length (PutVarint64 [] v)) /\ 1 <= VarintLength v <= 10.
Proof.
  unfold GetVarint64, PutVarint64. intros Hv.
  assert (VarintLength v = Z.of_nat (length (EncodeVarint64 v))) as Hl.
  { unfold VarintLength, EncodeVarint64. rewrite VarintLength_loop_length. lia. }
  pose proof (length_EncodeVarint64 v). split_and!; try lia.
  - intros rest. by rewrite app_nil_l, GetVarint64Ptr_Put.
  - intros k Hk. by rewrite app_nil_l, GetVarint64Ptr_truncated.
  - done.
Qed.

Lemma varint64_roundtrip_witness :
  GetVarint64 (PutVarint64 [] (2 ^ 64 - 1) ++ [x05]) = Some (2 ^ 64 - 1, [x05]).
Proof. apply (varint64_roundtrip (2 ^ 64 - 1)). lia. Defined.
