(* ===== verification/Crc32c.v ===== *)
(** CRC-32C (redisdb/db/crc32c.h and crc32c.cc): the striding table-driven
    [Extend], the masking of stored checksums, and the bit-at-a-time definition
    of the checksum that [Extend] is proved to compute. *)
From S2P Require Import Prelude Coding Crc32cTables.
From Stdlib Require Import Btauto.

(** ** The code *)

Definition kCRC32Xor : Z := 0xffffffff.
Definition kMaskDelta : Z := 0xa282ead8.

Definition entry (t : list Z) (i : Z) : Z := nth (Z.to_nat i) t 0.

Definition readUint32LE (buffer : bytes) : Z := DecodeFixed32 buffer.

(** [roundUp<N>(pointer)] on the numeric value of the pointer. *)
Definition roundUp (N pointer : Z) : Z := Z.land (pointer + (N - 1)) (Z.lnot (N - 1)).

(** The macros of [Extend].  Each takes the variables it updates and the bytes
    at the pointers it reads, and returns the new values. *)
Definition STEP1 (l : Z) (b : byte) : Z :=
  let c := Z.lxor (Z.land l 255) (b2z b) in
  Z.lxor (entry kByteExtensionTable c) (Z.shiftr l 8).

Definition STEP4 (crc : Z) (p : bytes) : Z :=
  Z.lxor (Z.lxor (Z.lxor (Z.lxor (readUint32LE p)
    (entry kStrideExtensionTable3 (Z.land crc 255)))
    (entry kStrideExtensionTable2 (Z.land (Z.shiftr crc 8) 255)))
    (entry kStrideExtensionTable1 (Z.land (Z.shiftr crc 16) 255)))
    (entry kStrideExtensionTable0 (Z.shiftr crc 24)).

(** The four partial results [crc0] .. [crc3]. *)
Record strides := Strides { crc0 : Z; crc1 : Z; crc2 : Z; crc3 : Z }.

Definition STEP16 (c : strides) (p : bytes) : strides :=
  Strides (STEP4 (crc0 c) p) (STEP4 (crc1 c) (drop 4 p))
          (STEP4 (crc2 c) (drop 8 p)) (STEP4 (crc3 c) (drop 12 p)).

Fixpoint STEP4W_loop (n : nat) (w : Z) : Z :=
  match n with
  | O => w
  | S n' => STEP4W_loop n' (Z.lxor (Z.shiftr w 8) (entry kByteExtensionTable (Z.land w 255)))
  end.

Definition STEP4W (l w : Z) : Z := STEP4W_loop 4 (Z.lxor w l).

(** [while (e - p >= 16) STEP16] and the word-at-a-time loop after it; the fuel
    is the number of bytes left, and each step consumes some. *)
Fixpoint swath_loop (fuel : nat) (c : strides) (p : bytes) : strides * bytes :=
  match fuel with
  | O => (c, p)
  | S fuel' =>
      if (16 <=? length p)%nat then swath_loop fuel' (STEP16 c p) (drop 16 p) else (c, p)
  end.

Fixpoint word_loop (fuel : nat) (c : strides) (p : bytes) : strides * bytes :=
  match fuel with
  | O => (c, p)
  | S fuel' =>
      if (4 <=? length p)%nat then
        word_loop fuel' (Strides (crc1 c) (crc2 c) (crc3 c) (STEP4 (crc0 c) p)) (drop 4 p)
      else (c, p)
  end.

(** [Extend(crc, buf, size)] for a buffer at address [addr]. *)
Definition Extend (addr crc : Z) (buf : bytes) : Z :=
  let size := Z.of_nat (length buf) in
  let e := addr + size in
  let l := Z.lxor crc kCRC32Xor in
  let x := roundUp 4 addr in
  let pre := if x <=? e then Z.to_nat (x - addr) else O in
  let l := fold_left STEP1 (take pre buf) l in
  let p := drop pre buf in
  let '(l, p) :=
    if (16 <=? length p)%nat then
      let c := Strides (Z.lxor (readUint32LE p) l) (readUint32LE (drop 4 p))
                       (readUint32LE (drop 8 p)) (readUint32LE (drop 12 p)) in
      let '(c, p) := swath_loop (length p) c (drop 16 p) in
      let '(c, p) := word_loop (length p) c p in
      let l := 0 in
      let l := STEP4W l (crc0 c) in
      let l := STEP4W l (crc1 c) in
      let l := STEP4W l (crc2 c) in
      let l := STEP4W l (crc3 c) in
      (l, p)
    else (l, p) in
  Z.lxor (fold_left STEP1 p l) kCRC32Xor.

Definition Value (addr : Z) (data : bytes) : Z := Extend addr 0 data.

Definition Mask (crc : Z) : Z :=
  u32 (Z.lor (Z.shiftr crc 15) (u32 (Z.shiftl crc 17)) + kMaskDelta).

Definition Unmask (maskedcrc : Z) : Z :=
  let rot := u32 (maskedcrc - kMaskDelta) in
  Z.lor (Z.shiftr rot 17) (u32 (Z.shiftl rot 15)).

(** ** The checksum, one bit at a time

    Division by the reflected Castagnoli polynomial: a step shifts one bit out
    and subtracts the polynomial when that bit was set. *)

Definition poly : Z := 0x82f63b78.

Definition bit_step (l : Z) : Z :=
  if Z.odd l then Z.lxor (Z.shiftr l 1) poly else Z.shiftr l 1.

Definition advance (n : nat) (l : Z) : Z := Nat.iter n bit_step l.

Definition byte_step (l : Z) (b : byte) : Z := advance 8 (Z.lxor l (b2z b)).

Definition crc32c (crc : Z) (data : bytes) : Z :=
  Z.lxor (fold_left byte_step data (Z.lxor crc kCRC32Xor)) kCRC32Xor.

Example crc32c_check : crc32c 0 (str "123456789") = 0xe3069283.
Proof. vm_compute. reflexivity. Qed.

Example Extend_check : Extend 3 0 (str "abcdefghijklmnopqrstuvwxyz0123456789ABCDEFGHIJ")
  = crc32c 0 (str "abcdefghijklmnopqrstuvwxyz0123456789ABCDEFGHIJ").
Proof. vm_compute. reflexivity. Qed.

(** ** [advance] is linear *)

Ltac xor_solve :=
  apply Z.bits_inj'; intros; rewrite ?Z.lxor_spec, ?Z.bits_0; btauto.

Lemma bit_step_lxor a b : bit_step (Z.lxor a b) = Z.lxor (bit_step a) (bit_step b).
Proof.
  unfold bit_step. rewrite Z.shiftr_lxor, <- !Z.bit0_odd, Z.lxor_spec.
  destruct (Z.testbit a 0), (Z.testbit b 0); cbn [xorb]; xor_solve.
Qed.

Lemma advance_lxor n a b : advance n (Z.lxor a b) = Z.lxor (advance n a) (advance n b).
Proof.
  unfold advance. induction n as [|n IH]; [done|]. by rewrite !Nat.iter_succ, IH, bit_step_lxor.
Qed.

Lemma advance_advance m n l : advance m (advance n l) = advance (m + n) l.
Proof. unfold advance. by rewrite Nat.iter_add. Qed.

Lemma advance_0 n : advance n 0 = 0.
Proof. unfold advance. induction n as [|n IH]; [done|]. by rewrite Nat.iter_succ, IH. Qed.

(** Shifting zero bits out costs nothing. *)
Lemma bit_step_shiftl x n : 0 <= n -> bit_step (Z.shiftl x (Z.succ n)) = Z.shiftl x n.
Proof.
  intros Hn. unfold bit_step. rewrite <- Z.bit0_odd, Z.shiftl_spec_low by lia.
  rewrite Z.shiftr_shiftl_l by lia. f_equal. lia.
Qed.

Lemma advance_shiftl n x : advance n (Z.shiftl x (Z.of_nat n)) = x.
Proof.
  induction n as [|n IH]; [apply Z.shiftl_0_r|].
  unfold advance. rewrite Nat.iter_succ_r, Nat2Z.inj_succ, bit_step_shiftl by lia. apply IH.
Qed.

Lemma lxor_range w a b : 0 <= w -> 0 <= a < 2 ^ w -> 0 <= b < 2 ^ w -> 0 <= Z.lxor a b < 2 ^ w.
Proof.
  intros Hw Ha Hb. rewrite <- (Z.mod_small a (2 ^ w)), <- (Z.mod_small b (2 ^ w)) by done.
  rewrite <- !Z.land_ones by done.
  replace (Z.lxor _ _) with (Z.land (Z.lxor a b) (Z.ones w)).
  { rewrite Z.land_ones by done. apply Z.mod_pos_bound. lia. }
  apply Z.bits_inj'. intros. rewrite !Z.land_spec, !Z.lxor_spec, !Z.land_spec. btauto.
Qed.

Lemma bit_step_range l : is_u32 l -> is_u32 (bit_step l).
Proof.
  intros Hl. assert (is_u32 (Z.shiftr l 1)).
  { rewrite Z.shiftr_div_pow2 by done. change (2 ^ 1) with 2. Z.div_mod_to_equations. lia. }
  unfold bit_step. case_match; [apply lxor_range|]; done.
Qed.

Lemma advance_range n l : is_u32 l -> is_u32 (advance n l).
Proof. intros Hl. unfold advance. induction n; [done|]. rewrite Nat.iter_succ. by apply bit_step_range. Qed.

(** The polynomial has its top bit: no 32-bit remainder but zero is stepped to zero. *)
Lemma bit_step_0 l : is_u32 l -> bit_step l = 0 -> l = 0.
Proof.
  intros Hl. unfold bit_step. rewrite Z.shiftr_div_pow2 by done. change (2 ^ 1) with 2.
  pose proof (Zdiv2_odd_eqn l) as Hd. rewrite Z.div2_div in Hd.
  destruct (Z.odd l); [|intros Hz; lia].
  intros Hx%Z.lxor_eq. unfold poly in Hx. Z.div_mod_to_equations. lia.
Qed.

Lemma advance_inj n a b : is_u32 a -> is_u32 b -> advance n a = advance n b -> a = b.
Proof.
  intros Ha Hb He. apply Z.lxor_eq.
  assert (forall l, is_u32 l -> advance n l = 0 -> l = 0) as Hk.
  { clear. intros l Hl. unfold advance. revert l Hl. induction n as [|n IH]; intros l Hl; [done|].
    rewrite Nat.iter_succ_r. intros Hz. apply bit_step_0; [done|]. apply IH; [by apply bit_step_range|done]. }
  apply Hk; [by apply lxor_range|]. rewrite advance_lxor, He. apply Z.lxor_nilpotent.
Qed.

(** A number is its low [n] bits and the rest, as an exclusive or. *)
Lemma split_bits l n : 0 <= n -> l = Z.lxor (Z.land l (Z.ones n)) (Z.shiftl (Z.shiftr l n) n).
Proof.
  intros Hn. apply Z.bits_inj'. intros i Hi. rewrite Z.lxor_spec, Z.land_spec.
  destruct (decide (i < n)).
  - rewrite Z.ones_spec_low, Z.shiftl_spec_low by lia. btauto.
  - rewrite Z.ones_spec_high, Z.shiftl_spec, Z.shiftr_spec by lia.
    replace (i - n + n) with i by lia. btauto.
Qed.

(** ** The tables are powers of [bit_step] *)

Definition table_ok (t : list Z) (n : nat) (sh : Z) : bool :=
  forallb (fun i => entry t (Z.of_nat i) =? advance n (Z.shiftl (Z.of_nat i) sh)) (seq 0 256).

Lemma table_ok_spec t n sh i :
  table_ok t n sh = true -> 0 <= i < 256 -> entry t i = advance n (Z.shiftl i sh).
Proof.
  unfold table_ok. rewrite forallb_forall. intros H Hi. specialize (H (Z.to_nat i)).
  rewrite in_seq, Z2Nat.id in H by lia. apply Z.eqb_eq, H. lia.
Qed.

Lemma kByteExtensionTable_ok i : 0 <= i < 256 -> entry kByteExtensionTable i = advance 8 i.
Proof.
  intros. rewrite <- (Z.shiftl_0_r i) at 2. by apply table_ok_spec; [vm_compute|].
Qed.

Lemma kStrideExtensionTables_ok i :
  0 <= i < 256 ->
  entry kStrideExtensionTable3 i = advance 128 i /\
  entry kStrideExtensionTable2 i = advance 128 (Z.shiftl i 8) /\
  entry kStrideExtensionTable1 i = advance 128 (Z.shiftl i 16) /\
  entry kStrideExtensionTable0 i = advance 128 (Z.shiftl i 24).
Proof.
  intros. rewrite <- (Z.shiftl_0_r i) at 2.
  split_and!; (apply table_ok_spec; [vm_compute; reflexivity|done]).
Qed.

#[global] Opaque advance.

(** ** The steps of [Extend] in terms of [advance] *)

Lemma land_255 x : Z.land x 255 = x mod 256.
Proof. change 255 with (Z.ones 8). by rewrite Z.land_ones. Qed.

Lemma land_255_range x : 0 <= Z.land x 255 < 256.
Proof. rewrite land_255. by apply Z.mod_pos_bound. Qed.

Lemma advance_8_split l : advance 8 l = Z.lxor (advance 8 (Z.land l 255)) (Z.shiftr l 8).
Proof.
  rewrite (split_bits l 8) at 1 by done. rewrite advance_lxor. change (Z.ones 8) with 255.
  f_equal. apply (advance_shiftl 8).
Qed.

Lemma land_255_b2z b : Z.land (b2z b) 255 = b2z b.
Proof. rewrite land_255. apply Z.mod_small, b2z_range. Qed.

Lemma shiftr_8_b2z b : Z.shiftr (b2z b) 8 = 0.
Proof. rewrite Z.shiftr_div_pow2 by done. apply Z.div_small, b2z_range. Qed.

Lemma STEP1_spec l b : STEP1 l b = byte_step l b.
Proof.
  unfold STEP1, byte_step.
  rewrite kByteExtensionTable_ok
    by (apply (lxor_range 8); [done|apply land_255_range|apply b2z_range]).
  rewrite (advance_8_split (Z.lxor l (b2z b))), Z.shiftr_lxor, shiftr_8_b2z, Z.lxor_0_r.
  do 2 f_equal. rewrite <- (land_255_b2z b) at 1.
  apply Z.bits_inj'. intros. rewrite ?Z.lxor_spec, ?Z.land_spec, ?Z.lxor_spec. btauto.
Qed.

Lemma STEP4W_loop_spec n w : STEP4W_loop n w = advance (8 * n) w.
Proof.
  revert w. induction n as [|n IH]; intros w; cbn [STEP4W_loop]; [done|].
  rewrite IH, kByteExtensionTable_ok, Z.lxor_comm, <- advance_8_split by apply land_255_range.
  rewrite advance_advance. f_equal. lia.
Qed.

Lemma STEP4W_spec l w : STEP4W l w = advance 32 (Z.lxor w l).
Proof. apply (STEP4W_loop_spec 4). Qed.

Lemma quarters crc :
  crc = Z.lxor (Z.land crc 255) (Z.lxor (Z.shiftl (Z.land (Z.shiftr crc 8) 255) 8)
          (Z.lxor (Z.shiftl (Z.land (Z.shiftr crc 16) 255) 16)
                  (Z.shiftl (Z.shiftr crc 24) 24))).
Proof.
  change 255 with (Z.ones 8).
  rewrite (split_bits crc 8) at 1 by done. f_equal.
  rewrite (split_bits (Z.shiftr crc 8) 8) at 1 by done.
  rewrite Z.shiftl_lxor, Z.shiftl_shiftl, Z.shiftr_shiftr by done. f_equal.
  rewrite (split_bits (Z.shiftr crc (8 + 8)) 8) at 1 by done.
  by rewrite Z.shiftl_lxor, Z.shiftl_shiftl, Z.shiftr_shiftr by done.
Qed.

Lemma STEP4_spec crc p :
  is_u32 crc -> STEP4 crc p = Z.lxor (readUint32LE p) (advance 128 crc).
Proof.
  intros Hc. unfold STEP4.
  assert (0 <= Z.shiftr crc 24 < 256) as H24.
  { rewrite Z.shiftr_div_pow2 by done. split; [apply Z.div_pos|apply Z.div_lt_upper_bound]; lia. }
  destruct (kStrideExtensionTables_ok _ (land_255_range crc)) as (-> & _).
  destruct (kStrideExtensionTables_ok _ (land_255_range (Z.shiftr crc 8))) as (_ & -> & _).
  destruct (kStrideExtensionTables_ok _ (land_255_range (Z.shiftr crc 16))) as (_ & _ & -> & _).
  destruct (kStrideExtensionTables_ok _ H24) as (_ & _ & _ & ->).
  rewrite !Z.lxor_assoc, <- !advance_lxor. do 2 f_equal. symmetry. apply quarters.
Qed.

Lemma STEP4_range crc p : is_u32 crc -> is_u32 (STEP4 crc p).
Proof.
  intros Hc. rewrite STEP4_spec by done.
  apply lxor_range; [done|apply DecodeFixed32_range|by apply advance_range].
Qed.

(** A run of bytes is one exclusive or and one [advance]. *)
Lemma byte_steps_word l bs :
  fold_left byte_step bs l = advance (8 * length bs) (Z.lxor l (le_value bs)).
Proof.
  revert l. induction bs as [|b bs IH]; intros l; cbn [fold_left le_value length].
  { by rewrite Z.lxor_0_r. }
  rewrite IH. unfold byte_step.
  rewrite <- (advance_shiftl 8 (le_value bs)) at 1. rewrite <- advance_lxor, advance_advance.
  replace (8 * length bs + 8)%nat with (8 * S (length bs))%nat by lia. f_equal.
  rewrite Z.lxor_assoc. f_equal. rewrite Z.lxor_lor.
  - change (Z.of_nat 8) with 8. rewrite lor_shiftl_add by (try apply b2z_range; lia). lia.
  - apply Z.bits_inj'. intros i Hi. rewrite Z.land_spec, Z.bits_0.
    destruct (decide (i < 8)); [rewrite (Z.shiftl_spec_low (le_value bs)) by lia; btauto|].
    rewrite <- (land_255_b2z b), Z.land_spec. change 255 with (Z.ones 8).
    rewrite Z.ones_spec_high by lia. btauto.
Qed.

Lemma byte_steps_4 l p :
  (4 <= length p)%nat ->
  fold_left byte_step (take 4 p) l = advance 32 (Z.lxor l (readUint32LE p)).
Proof. intros Hp. rewrite byte_steps_word. rewrite length_take_le by done. done. Qed.

(** ** The four strides *)

(** What the strides add up to: the checksum register they stand for. *)
Definition combine (c : strides) : Z :=
  Z.lxor (advance 32 (crc3 c)) (Z.lxor (advance 64 (crc2 c))
    (Z.lxor (advance 96 (crc1 c)) (advance 128 (crc0 c)))).

Definition strides_ok (c : strides) : Prop :=
  is_u32 (crc0 c) /\ is_u32 (crc1 c) /\ is_u32 (crc2 c) /\ is_u32 (crc3 c).

(** Normalises nested [advance]s of exclusive ors, then compares bitwise. *)
Ltac advance_solve :=
  rewrite ?advance_lxor, ?advance_advance, ?advance_0; cbn [Nat.add]; xor_solve.

Lemma combine_code c :
  STEP4W (STEP4W (STEP4W (STEP4W 0 (crc0 c)) (crc1 c)) (crc2 c)) (crc3 c) = combine c.
Proof. unfold combine. rewrite !STEP4W_spec. advance_solve. Qed.

Lemma byte_steps_16 l p :
  (16 <= length p)%nat ->
  fold_left byte_step (take 16 p) l =
    Z.lxor (advance 128 l)
      (combine (Strides (readUint32LE p) (readUint32LE (drop 4 p))
                        (readUint32LE (drop 8 p)) (readUint32LE (drop 12 p)))).
Proof.
  intros Hp.
  replace (take 16 p) with
    (take 4 p ++ take 4 (drop 4 p) ++ take 4 (drop 8 p) ++ take 4 (drop 12 p)).
  2:{ rewrite <- (take_drop 4 (take 16 p)), take_take, skipn_firstn_comm.
      rewrite <- (take_drop 4 (take (16 - 4) (drop 4 p))), take_take, skipn_firstn_comm, drop_drop.
      rewrite <- (take_drop 4 (take (16 - 4 - 4) (drop (4 + 4) p))), take_take.
      by rewrite skipn_firstn_comm, drop_drop. }
  rewrite !fold_left_app, !byte_steps_4 by (lens; lia).
  unfold combine. cbn [crc0 crc1 crc2 crc3]. advance_solve.
Qed.

Lemma combine_STEP16 c p :
  strides_ok c -> (16 <= length p)%nat ->
  strides_ok (STEP16 c p) /\ combine (STEP16 c p) = fold_left byte_step (take 16 p) (combine c).
Proof.
  intros (H0 & H1 & H2 & H3) Hp. split; [split_and!; by apply STEP4_range|].
  rewrite byte_steps_16 by done. unfold STEP16, combine. cbn [crc0 crc1 crc2 crc3].
  rewrite !STEP4_spec by done. advance_solve.
Qed.

Lemma combine_word c p :
  strides_ok c -> (4 <= length p)%nat ->
  let c' := Strides (crc1 c) (crc2 c) (crc3 c) (STEP4 (crc0 c) p) in
  strides_ok c' /\ combine c' = fold_left byte_step (take 4 p) (combine c).
Proof.
  intros (H0 & H1 & H2 & H3) Hp. split.
  { pose proof (STEP4_range (crc0 c) p H0). by refine (conj _ (conj _ (conj _ _))). }
  rewrite byte_steps_4 by done. unfold combine. cbn [crc0 crc1 crc2 crc3].
  rewrite !STEP4_spec by done. advance_solve.
Qed.

(** Each loop ends by its own test and absorbs exactly the bytes it consumes. *)
Lemma swath_loop_spec fuel c p c' p' :
  strides_ok c -> (length p <= fuel)%nat -> swath_loop fuel c p = (c', p') ->
  strides_ok c' /\ (length p' < 16)%nat /\
  exists used, p = used ++ p' /\ combine c' = fold_left byte_step used (combine c).
Proof.
  revert c p. induction fuel as [|fuel IH]; intros c p Hc Hf H; cbn [swath_loop word_loop] in H.
  { simplify_eq. split_and!; [done|lia|]. by exists []. }
  case_match eqn:E.
  - apply Nat.leb_le in E. destruct (combine_STEP16 c p Hc E) as [Hok Heq].
    apply IH in H as (? & ? & used & Hp & Hcomb); [|done|lens; lia].
    split_and!; [done..|]. exists (take 16 p ++ used).
    by rewrite <- app_assoc, <- Hp, take_drop, fold_left_app, <- Heq.
  - apply Nat.leb_gt in E. simplify_eq. split_and!; [done..|]. by exists [].
Qed.

Lemma word_loop_spec fuel c p c' p' :
  strides_ok c -> (length p <= fuel)%nat -> word_loop fuel c p = (c', p') ->
  strides_ok c' /\ (length p' < 4)%nat /\
  exists used, p = used ++ p' /\ combine c' = fold_left byte_step used (combine c).
Proof.
  revert c p. induction fuel as [|fuel IH]; intros c p Hc Hf H; cbn [swath_loop word_loop] in H.
  { simplify_eq. split_and!; [done|lia|]. by exists []. }
  case_match eqn:E.
  - apply Nat.leb_le in E. destruct (combine_word c p Hc E) as [Hok Heq].
    apply IH in H as (? & ? & used & Hp & Hcomb); [|done|lens; lia].
    split_and!; [done..|]. exists (take 4 p ++ used).
    by rewrite <- app_assoc, <- Hp, take_drop, fold_left_app, <- Heq.
  - apply Nat.leb_gt in E. simplify_eq. split_and!; [done..|]. by exists [].
Qed.

Lemma STEP1_fold l bs : fold_left STEP1 bs l = fold_left byte_step bs l.
Proof. revert l. induction bs as [|b bs IH]; intros l; cbn; [done|]. by rewrite IH, STEP1_spec. Qed.

Lemma byte_step_range l b : is_u32 l -> is_u32 (byte_step l b).
Proof.
  intros Hl. apply advance_range, lxor_range; [done..|]. pose proof (b2z_range b). lia.
Qed.

Lemma byte_steps_range l bs : is_u32 l -> is_u32 (fold_left byte_step bs l).
Proof.
  revert l. induction bs as [|b bs IH]; intros l Hl; cbn; [done|].
  apply IH. by apply byte_step_range.
Qed.

Lemma Extend_crc32c addr crc buf : is_u32 crc -> Extend addr crc buf = crc32c crc buf.
Proof.
  intros Hcrc. unfold Extend, crc32c. cbv zeta.
  set (pre := if roundUp 4 addr <=? _ then _ else _). clearbody pre.
  set (l := Z.lxor crc kCRC32Xor).
  replace (fold_left byte_step buf l)
    with (fold_left byte_step (drop pre buf) (fold_left byte_step (take pre buf) l))
    by (by rewrite <- fold_left_app, take_drop).
  rewrite STEP1_fold.
  assert (is_u32 (fold_left byte_step (take pre buf) l)) as Hl1
    by (apply byte_steps_range, lxor_range; done).
  generalize dependent (fold_left byte_step (take pre buf) l). intros l1 Hl1.
  generalize (drop pre buf). intros p.
  destruct (16 <=? length p)%nat eqn:E; [|by rewrite STEP1_fold]. apply Nat.leb_le in E.
  set (c := Strides _ _ _ _).
  assert (strides_ok c) as Hc.
  { refine (conj _ (conj _ (conj _ _))); try apply DecodeFixed32_range.
    apply lxor_range; [done|apply DecodeFixed32_range|done]. }
  assert (combine c = fold_left byte_step (take 16 p) l1) as Hcomb.
  { rewrite byte_steps_16 by done. subst c. unfold combine. cbn [crc0 crc1 crc2 crc3].
    advance_solve. }
  destruct (swath_loop _ _ _) as [c' p'] eqn:Hs.
  apply swath_loop_spec in Hs as (Hc' & _ & u1 & Hp1 & Hcomb'); [|done|lens; lia].
  destruct (word_loop _ _ _) as [c'' p''] eqn:Hw.
  apply word_loop_spec in Hw as (_ & _ & u2 & Hp2 & Hcomb''); [|done|lia].
  rewrite STEP1_fold, combine_code, Hcomb'', Hcomb', Hcomb, <- !fold_left_app. do 2 f_equal.
  by rewrite <- Hp2, <- Hp1, take_drop.
Qed.

(** ** Masking *)

Lemma Unmask_Mask crc : is_u32 crc -> Unmask (Mask crc) = crc.
Proof.
  intros Hc. unfold Unmask, Mask.
  pose proof (Z.mod_pos_bound crc (2 ^ 15) eq_refl) as Hlo.
  assert (0 <= crc / 2 ^ 15 < 2 ^ 17) as Hhi.
  { split; [apply Z.div_pos; lia|]. apply Z.div_lt_upper_bound; lia. }
  assert (u32 (Z.shiftl crc 17) = Z.shiftl (crc mod 2 ^ 15) 17) as ->.
  { unfold u32. rewrite !Z.shiftl_mul_pow2 by done. change (2 ^ 32) with (2 ^ 15 * 2 ^ 17).
    by rewrite Z.mul_mod_distr_r. }
  rewrite (Z.shiftr_div_pow2 crc 15), lor_shiftl_add by done.
  set (rot := crc / 2 ^ 15 + crc mod 2 ^ 15 * 2 ^ 17).
  assert (is_u32 rot) as Hrot by (subst rot; lia).
  replace (u32 (u32 (rot + kMaskDelta) - kMaskDelta)) with rot.
  2:{ unfold u32. rewrite Zminus_mod_idemp_l, Z.add_simpl_r. by rewrite Z.mod_small. }
  rewrite Z.shiftr_div_pow2 by done.
  assert (rot / 2 ^ 17 = crc mod 2 ^ 15) as ->.
  { subst rot. rewrite Z.div_add by done. rewrite Z.div_small; lia. }
  assert (u32 (Z.shiftl rot 15) = Z.shiftl (crc / 2 ^ 15) 15) as ->.
  { unfold u32. rewrite !Z.shiftl_mul_pow2 by done. change (2 ^ 32) with (2 ^ 17 * 2 ^ 15).
    rewrite Z.mul_mod_distr_r by done. f_equal. subst rot.
    rewrite Z.mod_add by done. by apply Z.mod_small. }
  rewrite lor_shiftl_add by done. pose proof (Z.div_mod crc (2 ^ 15)). lia.
Qed.

Lemma crc32c_range crc buf : is_u32 crc -> is_u32 (crc32c crc buf).
Proof.
  intros Hc. apply lxor_range; [done| |done]. apply byte_steps_range, lxor_range; done.
Qed.

Lemma crc32c_app crc a b : crc32c (crc32c crc a) b = crc32c crc (a ++ b).
Proof.
  unfold crc32c. rewrite fold_left_app, Z.lxor_assoc, Z.lxor_nilpotent, Z.lxor_0_r. done.
Qed.

(** A burst of at most four changed bytes changes the checksum. *)
Lemma byte_steps_inj bs a b :
  is_u32 a -> is_u32 b -> fold_left byte_step bs a = fold_left byte_step bs b -> a = b.
Proof.
  revert a b. induction bs as [|x bs IH]; intros a b Ha Hb; cbn [fold_left]; [done|].
  intros He%IH; [|by apply byte_step_range..].
  pose proof (b2z_range x). apply advance_inj in He; [|apply lxor_range; lia..].
  rewrite <- (Z.lxor_0_r a), <- (Z.lxor_0_r b), <- (Z.lxor_nilpotent (b2z x)), <- !Z.lxor_assoc.
  by rewrite He.
Qed.

Lemma crc32c_burst crc a x y b :
  is_u32 crc -> length x = length y -> (length x <= 4)%nat ->
  crc32c crc (a ++ x ++ b) = crc32c crc (a ++ y ++ b) -> x = y.
Proof.
  intros Hc Hxy Hx He. unfold crc32c in He.
  assert (forall u v, Z.lxor u kCRC32Xor = Z.lxor v kCRC32Xor -> u = v) as Hcan.
  { intros u v Huv. rewrite <- (Z.lxor_0_r u), <- (Z.lxor_0_r v), <- (Z.lxor_nilpotent kCRC32Xor).
    by rewrite <- !Z.lxor_assoc, Huv. }
  apply Hcan in He. rewrite !fold_left_app in He.
  set (l := fold_left byte_step a (Z.lxor crc kCRC32Xor)) in He.
  assert (is_u32 l) as Hl by (apply byte_steps_range, lxor_range; done).
  apply byte_steps_inj in He; [|by apply byte_steps_range..].
  rewrite !byte_steps_word, Hxy in He.
  assert (forall z, (length z <= 4)%nat -> is_u32 (le_value z)) as Hle.
  { intros z Hz. pose proof (le_value_range z). assert (256 ^ Z.of_nat (length z) <= 256 ^ 4); [|lia].
    apply Z.pow_le_mono_r; lia. }
  apply advance_inj in He; [|apply lxor_range; [done..|apply Hle; lia]..].
  apply le_value_inj; [done|].
  rewrite <- (Z.lxor_0_l (le_value x)), <- (Z.lxor_0_l (le_value y)), <- (Z.lxor_nilpotent l), !Z.lxor_assoc.
  by rewrite He.
Qed.

Lemma Mask_range crc : is_u32 (Mask crc).
Proof. apply u32_range. Qed.

(** ** Properties *)

(** C40: the striding, table-driven [Extend] computes the CRC-32C of the data for
    every buffer address and length: it equals the bit-at-a-time division by the
    Castagnoli polynomial, whichever of the alignment, 16-byte and 4-byte loops
    the buffer goes through; hence it does not depend on the address, and
    extending a checksum by [b] is the checksum of the concatenation. *)
Theorem Extend_is_crc32c addr crc buf :
  is_u32 crc ->
  Extend addr crc buf = crc32c crc buf /\
  (forall addr' b, Extend addr' (Extend addr crc buf) b = Extend addr crc (buf ++ b)).
Proof.
  intros Hc. split; [by apply Extend_crc32c|]. intros addr' b.
  rewrite !Extend_crc32c by (rewrite ?Extend_crc32c; auto using crc32c_range).
  apply crc32c_app.
Qed.

Lemma Extend_is_crc32c_witness :
  Extend 7 0 (str "123456789123456789123456789123456789")
  = crc32c 0 (str "123456789123456789123456789123456789").
Proof. refine (proj1 (Extend_is_crc32c 7 0 _ _)). lia. Defined.

(** [Unmask] undoes [Mask] on every 32-bit checksum, so a checksum stored
    masked is recovered exactly. *)
Theorem Unmask_inverts_Mask crc :
  is_u32 crc -> Unmask (Mask crc) = crc /\ is_u32 (Mask crc).
Proof. intros Hc. split; [by apply Unmask_Mask|apply u32_range]. Qed.

Lemma Unmask_inverts_Mask_witness : Unmask (Mask 0xdeadbeef) = 0xdeadbeef.
Proof. refine (proj1 (Unmask_inverts_Mask 0xdeadbeef _)). lia. Defined.
