(* ===== verification/Status.v ===== *)
(** [Status]: the error values every fallible operation returns
    (redisdb/db/status.h and status.cc).

    A status is the pointer [state]: null for success, otherwise a heap array
    holding a 32-bit message length, a one-byte code and the message. *)
From S2P Require Import Prelude Coding.

Inductive Code :=
  kOk | kNotFound | kCorruption | kNotSupported | kInvalidArgument | kIOError.

#[export] Instance Code_eq_dec : EqDecision Code.
Proof. solve_decision. Defined.

(** The enumerator's value. *)
Definition code_value (c : Code) : Z :=
  match c with
  | kOk => 0 | kNotFound => 1 | kCorruption => 2
  | kNotSupported => 3 | kInvalidArgument => 4 | kIOError => 5
  end.

(** [const char* state]: [None] is the null pointer. *)
Definition Status : Type := option bytes.

#[export] Instance Status_eq_dec : EqDecision Status.
Proof. unfold Status. solve_decision. Defined.

Definition OK : Status := None.
Definition ok (s : Status) : bool := match s with None => true | Some _ => false end.

(** [Status::Status(Code, msg, msg2)]: the lengths are truncated to 32 bits, and
    the separator is written only when the second message is not empty. *)
Definition make (code : Code) (msg msg2 : bytes) : Status :=
  let len1 := u32 (Z.of_nat (length msg)) in
  let len2 := u32 (Z.of_nat (length msg2)) in
  let size := u32 (len1 + (if decide (len2 = 0) then 0 else 2 + len2)) in
  Some (EncodeFixed32 size ++ [z2b (code_value code)] ++
        take (Z.to_nat len1) msg ++
        (if decide (len2 = 0) then [] else str ": " ++ take (Z.to_nat len2) msg2)).

Definition NotFound := make kNotFound.
Definition Corruption := make kCorruption.
Definition NotSupported := make kNotSupported.
Definition InvalidArgument := make kInvalidArgument.
Definition IOError := make kIOError.

(** [Status::code]: the byte [state[4]], or [kOk] for the null pointer. *)
Definition code (s : Status) : Z :=
  match s with
  | None => code_value kOk
  | Some st => match st !! 4%nat with Some b => b2z b | None => 0 end
  end.

Definition IsNotFound (s : Status) : bool := code s =? code_value kNotFound.
Definition IsCorruption (s : Status) : bool := code s =? code_value kCorruption.
Definition IsIOError (s : Status) : bool := code s =? code_value kIOError.
Definition IsNotSupportedError (s : Status) : bool := code s =? code_value kNotSupported.
Definition IsInvalidArgument (s : Status) : bool := code s =? code_value kInvalidArgument.

(** [Status::CopyState]: duplicates the array, [size + 5] bytes of it. *)
Definition CopyState (st : bytes) : bytes :=
  take (Z.to_nat (DecodeFixed32 st) + 5) st.

Definition type_name (c : Z) : bytes :=
  if c =? code_value kOk then str "OK"
  else if c =? code_value kNotFound then str "NotFound: "
  else if c =? code_value kCorruption then str "Corruption: "
  else if c =? code_value kNotSupported then str "Not implemented: "
  else if c =? code_value kInvalidArgument then str "Invalid argument: "
  else if c =? code_value kIOError then str "IO error: "
  else str "Unknown code(" ++ decimal c ++ str "): ".

Definition ToString (s : Status) : bytes :=
  match s with
  | None => str "OK"
  | Some st =>
      type_name (code s) ++ take (Z.to_nat (DecodeFixed32 st)) (drop 5 st)
  end.

(** [operator==]. *)
Definition equal (a b : Status) : bool := bool_decide (ToString a = ToString b).

(** The copy constructor. *)
Definition copy (s : Status) : Status :=
  match s with None => None | Some st => Some (CopyState st) end.

(** ** What a status keeps of its arguments *)

(** The message as it is stored. *)
Definition message (msg msg2 : bytes) : bytes :=
  msg ++ (if decide (msg2 = []) then [] else str ": " ++ msg2).

Lemma make_layout c msg msg2 :
  Z.of_nat (length msg) + Z.of_nat (length msg2) + 2 < 2 ^ 32 ->
  make c msg msg2 = Some (EncodeFixed32 (Z.of_nat (length (message msg msg2))) ++
                          z2b (code_value c) :: message msg msg2).
Proof.
  intros Hl. unfold make, message. cbv zeta. rewrite !(u32_small (Z.of_nat _)) by lia.
  rewrite !Nat2Z.id, !take_ge by lia.
  destruct msg2 as [|b msg2]; cbn [length].
  - rewrite !decide_True by done. rewrite Z.add_0_r, app_nil_r, u32_small by lia. done.
  - rewrite !decide_False by (done || lia).
    rewrite u32_small by (cbn [length] in Hl; lia). lens.
    do 3 f_equal. change (length (str ": ")) with 2%nat. lia.
Qed.

Lemma length_message msg msg2 :
  (length (message msg msg2) <= length msg + length msg2 + 2)%nat.
Proof. unfold message. case_decide; lens; change (length (str ": ")) with 2%nat; lia. Qed.

(** a status remembers what it was made of: its code, and the message of its
    arguments as [ToString] prints them after the name of the code; a copy is
    byte-for-byte the same array; and the status is never [ok]. *)
Theorem status_keeps_message c msg msg2 :
  c <> kOk -> Z.of_nat (length msg) + Z.of_nat (length msg2) + 2 < 2 ^ 32 ->
  ok (make c msg msg2) = false /\ code (make c msg msg2) = code_value c /\
  ToString (make c msg msg2) = type_name (code_value c) ++ message msg msg2 /\
  copy (make c msg msg2) = make c msg msg2 /\
  (forall c' msg' , equal (make c msg msg2) (make c' msg' []) = true ->
     c' <> kOk -> Z.of_nat (length msg') + 2 < 2 ^ 32 ->
     type_name (code_value c) ++ message msg msg2 = type_name (code_value c') ++ msg').
Proof.
  intros Hc Hl. pose proof (length_message msg msg2) as Hm.
  assert (forall d m, Z.of_nat (length m) < 2 ^ 32 ->
    let st := Some (EncodeFixed32 (Z.of_nat (length m)) ++ z2b (code_value d) :: m) in
    code st = code_value d /\ ToString st = type_name (code_value d) ++ m) as Hview.
  { intros d m Hm' st. assert (code st = code_value d) as Hcode.
    { subst st. unfold code. rewrite lookup_app_r by done. cbn. by destruct d. }
    split; [done|]. unfold ToString. rewrite Hcode. subst st. cbv beta iota.
    rewrite DecodeFixed32_app, u32_small, Nat2Z.id by lia.
    rewrite (app_assoc (EncodeFixed32 _) [z2b (code_value d)] m : _ ++ _ :: m = _).
    by rewrite drop_app_exact, take_ge by (lens; done). }
  rewrite make_layout by done. destruct (Hview c (message msg msg2)) as [H1 H2]; [lia|].
  split_and!; [done..| |].
  - unfold copy, CopyState. rewrite DecodeFixed32_app, u32_small by lia.
    rewrite take_ge; [done|]. rewrite length_app, length_EncodeFixed32. cbn [length]. lia.
  - intros c' msg' He Hc' Hl'. unfold equal in He. apply bool_decide_eq_true in He.
    rewrite make_layout, H2 in He by (cbn [length]; lia).
    destruct (Hview c' (message msg' [])) as [_ H3].
    { pose proof (length_message msg' []) as Hm'. cbn [length] in Hm'. lia. }
    rewrite H3 in He. unfold message in He at 2. by rewrite decide_True, app_nil_r in He by done.
Qed.

Lemma status_keeps_message_witness :
  ToString (make kCorruption (str "bad block") (str "7.ldb")) = str "Corruption: bad block: 7.ldb".
Proof.
  rewrite (proj1 (proj2 (proj2 (status_keeps_message kCorruption (str "bad block") (str "7.ldb")
    ltac:(discriminate) ltac:(vm_compute; reflexivity))))).
  vm_compute. reflexivity.
Defined.
