(* ===== verification/Env.v ===== *)
(** Files, as the rest of the store uses them (redisdb/db/env.h).

    The kernel is a script: each system call takes the next answer, and past the end
    of the script calls succeed in full.  An answer can write less than asked, be
    interrupted, or fail with an [errno].  [strerror] is the C library's. *)
From S2P Require Import Prelude Status.
Local Open Scope Z_scope.

Definition kWritableFileBufferSize : nat := Z.to_nat 65536.
#[global] Opaque kWritableFileBufferSize.
Definition ENOENT : Z := 2.
Definition EINVAL : Z := 22.

(** What the log and the tables ask of a file they append to. *)
Class AppendFile (F : Type) := {
  fappend : F -> bytes -> Status * F;
  fflush : F -> Status * F;
  contents : F -> bytes;       (* everything appended so far *)
  healthy : F -> Prop;         (* no system call will fail *)
}.

Class AppendFileOk (F : Type) `{AppendFile F} : Prop := {
  fappend_ok f data : healthy f ->
    exists f', fappend f data = (OK, f') /\ healthy f' /\ contents f' = contents f ++ data;
  fflush_ok f : healthy f ->
    exists f', fflush f = (OK, f') /\ healthy f' /\ contents f' = contents f;
}.

(** What a log reader asks: reads in sequence. *)
Class ReadFile (F : Type) := {
  fread : F -> nat -> Status * bytes * F;
  fskip : F -> Z -> Status * F;
  remaining : F -> bytes;
}.

Class ReadFileOk (F : Type) `{ReadFile F} (good : F -> Prop) : Prop := {
  fread_ok f n : good f ->
    exists f', fread f n = (OK, take n (remaining f), f') /\ good f' /\
      remaining f' = drop n (remaining f);
}.

(** What holds of every file: a read takes no more than was asked for, and what it gives is the
    front of what remains when it succeeds; nothing comes back. *)
Class ReadFileSafe (F : Type) `{ReadFile F} : Prop := {
  fread_safe f n s b f' : fread f n = (s, b, f') ->
    (length b <= n)%nat /\ (length (remaining f') <= length (remaining f))%nat /\ (ok s = true -> b ++ remaining f' = remaining f);
  fskip_safe f n s f' : fskip f n = (s, f') ->
    (length (remaining f') <= length (remaining f))%nat /\ (ok s = true -> remaining f' = drop (Z.to_nat n) (remaining f));
}.

Section Env.
Context (strerror : Z -> bytes).

Definition PosixError (context : bytes) (error : Z) : Status :=
  if error =? ENOENT then NotFound context (strerror error)
  else IOError context (strerror error).

(** ** [WritableFile] *)

Inductive os_write := Wrote (n : nat) | WInterrupted | WFailed (error : Z).

(** [buf[0, pos)] is [wbuf]; [written] is what the kernel took. *)
Record WritableFile := MkWritableFile {
  written : bytes;
  wbuf : bytes;
  wscript : list os_write;
  wname : bytes;
}.

(** The loop [while (size > 0)] of [WriteUnbuffered]: the status, what reached the
    file and the rest of the script. *)
Fixpoint WriteUnbuffered_loop (name : bytes) (script : list os_write) (out data : bytes)
    : Status * bytes * list os_write :=
  match data with
  | [] => (OK, out, script)
  | _ =>
      match script with
      | [] => (OK, out ++ data, [])
      | Wrote n :: script =>
          WriteUnbuffered_loop name script (out ++ take n data) (drop n data)
      | WInterrupted :: script => WriteUnbuffered_loop name script out data
      | WFailed e :: script => (PosixError name e, out, script)
      end
  end.

Definition WriteUnbuffered (f : WritableFile) (data : bytes) : Status * WritableFile :=
  let '(s, out, script) := WriteUnbuffered_loop (wname f) (wscript f) (written f) data in
  (s, MkWritableFile out (wbuf f) script (wname f)).

Definition set_buf (f : WritableFile) (b : bytes) : WritableFile :=
  MkWritableFile (written f) b (wscript f) (wname f).

Definition FlushBuffer (f : WritableFile) : Status * WritableFile :=
  let '(s, f) := WriteUnbuffered f (wbuf f) in (s, set_buf f []).

Definition wappend (f : WritableFile) (data : bytes) : Status * WritableFile :=
  let copySize := Nat.min (length data) (kWritableFileBufferSize - length (wbuf f)) in
  let f := set_buf f (wbuf f ++ take copySize data) in
  let data := drop copySize data in
  if (length data =? 0)%nat then (OK, f)
  else
    let '(status, f) := FlushBuffer f in
    if negb (ok status) then (status, f)
    else if (length data <? kWritableFileBufferSize)%nat then (OK, set_buf f data)
    else WriteUnbuffered f data.

Definition wflush (f : WritableFile) : Status * WritableFile := FlushBuffer f.

(** [close()]: [closed] is what the system call answers. *)
Definition wclose (f : WritableFile) (closed : option Z) : Status * WritableFile :=
  let '(status, f) := FlushBuffer f in
  match closed with
  | Some e => (if ok status then PosixError (wname f) e else status, f)
  | None => (status, f)
  end.

(** The last ['/'] of a path: what precedes it and what follows. *)
Fixpoint rfind_slash (s : bytes) : option (bytes * bytes) :=
  match s with
  | [] => None
  | b :: s' =>
      match rfind_slash s' with
      | Some (dir, base) => Some (b :: dir, base)
      | None => if decide (b = "/"%byte) then Some ([], s') else None
      end
  end.

Definition DirName (filename : bytes) : bytes :=
  match rfind_slash filename with None => str "." | Some (dir, _) => dir end.
Definition Basename (filename : bytes) : bytes :=
  match rfind_slash filename with None => filename | Some (_, base) => base end.
Definition isManifest (filename : bytes) : bool :=
  bool_decide (take 8 (Basename filename) = str "MANIFEST").

(** [sync()]: the directory first, when this is a manifest ([dirsync] is what opening
    and syncing it comes to), then the buffer, then the file. *)
Definition wsync (f : WritableFile) (dirsync filesync : Status) : Status * WritableFile :=
  let status := if isManifest (wname f) then dirsync else OK in
  if negb (ok status) then (status, f)
  else
    let '(status, f) := FlushBuffer f in
    if negb (ok status) then (status, f) else (filesync, f).

(** ** [SequentialFile] *)

Inductive os_read := ReadUpTo (n : nat) | RInterrupted | RFailed (error : Z).

Record SequentialFile := MkSequentialFile {
  rest : bytes;
  rscript : list os_read;
  rname : bytes;
}.

(** The retry loop of [read]: an interrupted call is made again. *)
Fixpoint sread_loop (name : bytes) (script : list os_read) (data : bytes) (n : nat)
    : Status * bytes * SequentialFile :=
  match script with
  | [] => (OK, take n data, MkSequentialFile (drop n data) [] name)
  | ReadUpTo k :: script =>
      (OK, take (Nat.min k n) data, MkSequentialFile (drop (Nat.min k n) data) script name)
  | RInterrupted :: script => sread_loop name script data n
  | RFailed e :: script => (PosixError name e, [], MkSequentialFile data script name)
  end.

Definition sread (f : SequentialFile) (n : nat) : Status * bytes * SequentialFile :=
  sread_loop (rname f) (rscript f) (rest f) n.

Definition sskip (f : SequentialFile) (n : Z) : Status * SequentialFile :=
  (OK, MkSequentialFile (drop (Z.to_nat n) (rest f)) (rscript f) (rname f)).

(** ** Random access: [PosixMmapReadableFile] *)

Definition mmap_read (filename base : bytes) (offset n : Z) : Status * bytes :=
  if Z.of_nat (length base) <? u64 (offset + n) then (PosixError filename EINVAL, [])
  else (OK, take (Z.to_nat n) (drop (Z.to_nat offset) base)).

(** ** [Limiter] and [LockTable] *)

Definition Acquire (acquiresAllowed : Z) : bool * Z :=
  let old := acquiresAllowed in
  let acquiresAllowed := acquiresAllowed - 1 in
  if 0 <? old then (true, acquiresAllowed) else (false, acquiresAllowed + 1).

Definition Release (acquiresAllowed : Z) : Z := acquiresAllowed + 1.

(** ** The file contract *)

#[export] Instance WritableFile_append : AppendFile WritableFile := {
  fappend := wappend;
  fflush := wflush;
  contents f := written f ++ wbuf f;
  healthy f := Forall (fun a => match a with WFailed _ => False | _ => True end) (wscript f);
}.

#[export] Instance SequentialFile_read : ReadFile SequentialFile := {
  fread := sread;
  fskip := sskip;
  remaining := rest;
}.

Lemma WriteUnbuffered_loop_ok name script : forall out data,
  Forall (fun a => match a with WFailed _ => False | _ => True end) script ->
  exists script', WriteUnbuffered_loop name script out data = (OK, out ++ data, script') /\
    Forall (fun a => match a with WFailed _ => False | _ => True end) script'.
Proof.
  induction script as [|a script IH]; intros out data Hs.
  { exists []. cbn. destruct data; [by rewrite app_nil_r|done]. }
  apply Forall_cons in Hs as [Ha Hs].
  destruct data as [|b data]; [exists (a :: script); cbn; rewrite app_nil_r; split; [done|by constructor]|].
  destruct a as [n| |e]; cbn [WriteUnbuffered_loop].
  - destruct (IH (out ++ take n (b :: data)) (drop n (b :: data)) Hs) as (s' & -> & Hs').
    exists s'. by rewrite <- app_assoc, take_drop.
  - by apply IH.
  - done.
Qed.

Lemma FlushBuffer_ok f :
  healthy f -> exists f', FlushBuffer f = (OK, f') /\ healthy f' /\
    written f' = written f ++ wbuf f /\ wbuf f' = [].
Proof.
  intros Hf. unfold FlushBuffer, WriteUnbuffered.
  destruct (WriteUnbuffered_loop_ok (wname f) (wscript f) (written f) (wbuf f) Hf) as (s' & -> & Hs').
  by eexists.
Qed.

#[export] Instance WritableFile_ok : AppendFileOk WritableFile.
Proof.
  split.
  - intros f data Hf. cbn [fappend contents WritableFile_append]. unfold wappend. cbv zeta.
    set (n := Nat.min _ _). set (f1 := set_buf f (wbuf f ++ take n data)).
    assert (healthy f1) as Hf1 by exact Hf.
    destruct (length (drop n data) =? 0)%nat eqn:E.
    { exists f1. split_and!; [done..|]. subst f1. cbn.
      apply Nat.eqb_eq, length_zero_iff_nil in E.
      assert (take n data = data) as ->; [|by rewrite app_assoc].
      rewrite <- (take_drop n data) at 2. by rewrite E, app_nil_r. }
    destruct (FlushBuffer_ok f1 Hf1) as (f2 & -> & Hf2 & Hw & Hb). cbn [ok OK negb].
    assert (written f2 = written f ++ wbuf f ++ take n data) as Hw2 by exact Hw.
    destruct (_ <? _)%nat.
    + eexists. split_and!; [done|exact Hf2|]. cbn.
      by rewrite Hw2, <- !app_assoc, take_drop.
    + unfold WriteUnbuffered.
      destruct (WriteUnbuffered_loop_ok (wname f2) (wscript f2) (written f2) (drop n data) Hf2)
        as (s' & -> & Hs').
      eexists. split_and!; [done|exact Hs'|]. cbn.
      rewrite Hb, app_nil_r, Hw2, <- !app_assoc. by rewrite take_drop.
  - intros f Hf. destruct (FlushBuffer_ok f Hf) as (f' & Hfl & Hf' & Hw & Hb).
    exists f'. split_and!; [done..|]. cbn. by rewrite Hw, Hb, app_nil_r.
Qed.

(** A file whose reads are not cut short. *)
Definition full_reads (f : SequentialFile) : Prop :=
  Forall (fun a => a = RInterrupted) (rscript f).

#[export] Instance SequentialFile_ok : ReadFileOk SequentialFile full_reads.
Proof.
  split. intros [data script name] n Hf. unfold full_reads in Hf. cbn in Hf.
  cbn [fread remaining SequentialFile_read]. unfold sread. cbn [rest rscript rname].
  induction Hf as [|a script -> Hf IH]; cbn [sread_loop].
  - eexists. split; [done|]. by split; [constructor|].
  - exact IH.
Qed.

Lemma PosixError_not_ok context e : ok (PosixError context e) = false.
Proof. unfold PosixError. by case_match. Qed.

#[export] Instance SequentialFile_safe : ReadFileSafe SequentialFile.
Proof.
  split.
  - intros [data script name] n s b f'. cbn [fread remaining SequentialFile_read]. unfold sread. cbn [rest rscript rname].
    assert (forall k, (k <= n)%nat -> (length (take k data) <= n)%nat /\ (length (drop k data) <= length data)%nat) as Hk
      by (intros k Hk; rewrite length_take, length_drop; lia).
    induction script as [|[k| |e] script IH]; cbn [sread_loop]; [intros [= <- <- <-]|intros [= <- <- <-]|exact IH|intros [= <- <- <-]]; cbn [rest].
    + destruct (Hk n ltac:(done)). split_and!; [done..|]. intros _. apply take_drop.
    + destruct (Hk (Nat.min k n) ltac:(lia)). split_and!; [done..|]. intros _. apply take_drop.
    + split; [cbn; lia|]. split; [done|]. by rewrite PosixError_not_ok.
  - intros f n s f' [= <- <-]. cbn. rewrite length_drop. split; [lia|done].
Qed.

Lemma WriteUnbuffered_loop_prefix name script : forall out data,
  let '(s, out', _) := WriteUnbuffered_loop name script out data in
  exists k, out' = out ++ take k data /\ (ok s = true -> out' = out ++ data).
Proof.
  induction script as [|a script IH]; intros out data.
  { destruct data as [|b data]; cbn [WriteUnbuffered_loop].
    - exists O. by rewrite take_0, app_nil_r.
    - exists (length (b :: data)). by rewrite firstn_all. }
  destruct data as [|b data]; [exists O; by rewrite take_0, app_nil_r|].
  destruct a as [n| |e]; cbn [WriteUnbuffered_loop].
  - specialize (IH (out ++ take n (b :: data)) (drop n (b :: data))).
    destruct (WriteUnbuffered_loop _ _ _ _) as [[s out'] sc]. destruct IH as (k & -> & Hok).
    exists (n + k)%nat. rewrite <- app_assoc, take_take_drop. split; [done|].
    intros Hs. specialize (Hok Hs). rewrite <- !app_assoc in Hok.
    by rewrite take_take_drop, take_drop in Hok.
  - apply IH.
  - exists O. rewrite take_0, app_nil_r, PosixError_not_ok. done.
Qed.

Lemma FlushBuffer_prefix f :
  let '(s, f') := FlushBuffer f in
  exists k, written f' = written f ++ take k (wbuf f) /\ wbuf f' = [] /\
    (ok s = true -> written f' = written f ++ wbuf f).
Proof.
  unfold FlushBuffer, WriteUnbuffered.
  pose proof (WriteUnbuffered_loop_prefix (wname f) (wscript f) (written f) (wbuf f)) as H.
  destruct (WriteUnbuffered_loop _ _ _ _) as [[s out] sc]. destruct H as (k & -> & Hok).
  by exists k.
Qed.

(** what a [WritableFile] lets through.  Whatever the kernel answers, the file is
    extended by a prefix of what was buffered and appended, in order - bytes are never
    reordered, duplicated or invented - the buffer never outgrows its array, and when
    [append] and [flush] return [OK] all of it has been accepted: buffered or written
    after [append], in the file after [flush]. *)
Theorem WritableFile_in_order f data :
  (length (wbuf f) <= kWritableFileBufferSize)%nat ->
  let '(s, f') := wappend f data in
  (exists out, written f' = written f ++ out /\ out `prefix_of` wbuf f ++ data) /\
  (length (wbuf f') <= kWritableFileBufferSize)%nat /\
  (ok s = true -> written f' ++ wbuf f' = written f ++ wbuf f ++ data) /\
  (let '(s', f'') := wflush f' in
   wbuf f'' = [] /\ (ok s = true -> ok s' = true -> written f'' = written f ++ wbuf f ++ data)).
Proof.
  intros Hb. assert (forall f1 s, written f1 ++ wbuf f1 = written f ++ wbuf f ++ data \/ ok s = false ->
    let '(s', f'') := wflush f1 in wbuf f'' = [] /\
    (ok s = true -> ok s' = true -> written f'' = written f ++ wbuf f ++ data)) as Hfl.
  { intros f1 s Hc. unfold wflush. pose proof (FlushBuffer_prefix f1) as H.
    destruct (FlushBuffer f1) as [s' f2]. destruct H as (k & _ & -> & Hok). split; [done|].
    intros Hs Hs'. rewrite Hok by done. destruct Hc; congruence. }
  unfold wappend. cbv zeta. set (n := Nat.min _ _).
  set (f1 := set_buf f (wbuf f ++ take n data)).
  assert (length (wbuf f1) <= kWritableFileBufferSize)%nat as Hb1 by (subst f1 n; cbn; lens; lia).
  destruct (length (drop n data) =? 0)%nat eqn:E.
  { apply Nat.eqb_eq, length_zero_iff_nil in E.
    assert (take n data = data) as Ht by (rewrite <- (take_drop n data) at 2; by rewrite E, app_nil_r).
    assert (written f1 ++ wbuf f1 = written f ++ wbuf f ++ data) as Hc by (subst f1; cbn; by rewrite Ht).
    split; [exists []; rewrite app_nil_r; split; [done|apply prefix_nil]|].
    split; [done|]. split; [done|]. by apply (Hfl f1 OK); left. }
  pose proof (FlushBuffer_prefix f1) as Hfb. destruct (FlushBuffer f1) as [s f2].
  destruct Hfb as (k & Hw & Hb2 & Hok). subst f1. cbn [written wbuf set_buf] in Hw, Hok.
  destruct (ok s) eqn:Hs; cbn [negb].
  - rewrite Hok in * by done. clear Hw.
    assert (wbuf f ++ data = (wbuf f ++ take n data) ++ drop n data) as Hsplit
      by (by rewrite <- app_assoc, take_drop).
    destruct (Nat.ltb_spec (length (drop n data)) kWritableFileBufferSize) as [Hlt|Hge].
    + assert (written (set_buf f2 (drop n data)) ++ wbuf (set_buf f2 (drop n data)) =
        written f ++ wbuf f ++ data) as Hc
        by (cbn; rewrite Hok, Hsplit by done; by rewrite <- !app_assoc).
      split; [|split; [cbn; lia|split; [done|by apply (Hfl _ OK); left]]].
      exists (wbuf f ++ take n data). cbn. split; [by rewrite Hok|]. rewrite Hsplit. by eexists.
    + unfold WriteUnbuffered.
      pose proof (WriteUnbuffered_loop_prefix (wname f2) (wscript f2) (written f2) (drop n data)) as Hl.
      destruct (WriteUnbuffered_loop _ _ _ _) as [[s' out] sc]. destruct Hl as (j & -> & Hok').
      assert (ok s' = true -> (written f2 ++ take j (drop n data)) ++ wbuf f2 = written f ++ wbuf f ++ data) as Hc
        by (intros Hs'; rewrite Hok', Hb2, Hok, Hsplit, app_nil_r by done; by rewrite <- !app_assoc).
      cbn [written wbuf]. split; [|split; [rewrite Hb2; cbn; lia|split; [done|]]].
      * exists ((wbuf f ++ take n data) ++ take j (drop n data)). rewrite Hok by done.
        rewrite <- app_assoc. split; [done|]. rewrite Hsplit. apply prefix_app, prefix_take.
      * apply Hfl. destruct (ok s'); [left; by apply Hc|by right].
  - split; [|split; [rewrite Hb2; cbn; lia|split; [congruence|]]].
    + exists (take k (wbuf f ++ take n data)). split; [done|].
      trans (wbuf f ++ take n data); [apply prefix_take|]. apply prefix_app, prefix_take.
    + apply Hfl. by right.
Qed.

(** opening counts.  [Acquire] hands out a resource exactly while the counter is
    positive and leaves the counter alone when it refuses, so acquiring and releasing
    keep it between zero and where it started. *)
Theorem Limiter_bounds (n : Z) (calls : list bool) :
  0 <= n ->
  let step '(avail, held) (acquire : bool) :=
    if acquire then let '(got, a) := Acquire avail in (a, if got then held + 1 else held)
    else if 0 <? held then (Release avail, held - 1) else (avail, held) in
  let '(avail, held) := fold_left step calls (n, 0) in
  0 <= avail <= n /\ 0 <= held /\ avail + held = n.
Proof.
  intros Hn step. assert (forall calls a h, 0 <= a -> 0 <= h -> a + h = n ->
    let '(avail, held) := fold_left step calls (a, h) in
    0 <= avail <= n /\ 0 <= held /\ avail + held = n) as H; [|apply H; lia].
  clear calls. induction calls as [|c calls IH]; intros a h Ha Hh Hs; cbn [fold_left]; [lia|].
  subst step. cbn beta iota. unfold Acquire, Release.
  destruct c.
  - destruct (Z.ltb_spec 0 a); apply IH; lia.
  - destruct (Z.ltb_spec 0 h); apply IH; lia.
Qed.
End Env.

Lemma WritableFile_in_order_witness :
  let f := MkWritableFile [] (str "ab") [Wrote 1; WInterrupted; WFailed 28] (str "x") in
  written (wappend (fun _ => []) f (str "cd")).2 = [] /\
  (length (wbuf (wappend (fun _ => []) f (str "cd")).2) <= kWritableFileBufferSize)%nat.
Proof.
  split; [vm_compute; reflexivity|].
  refine (proj1 (proj2 (WritableFile_in_order (fun _ => [])
    (MkWritableFile [] (str "ab") [Wrote 1; WInterrupted; WFailed 28] (str "x")) (str "cd") _))).
  apply Nat.leb_le. vm_compute. reflexivity.
Defined.

Lemma Limiter_bounds_witness :
  let step '(avail, held) (acquire : bool) :=
    if acquire then let '(got, a) := Acquire avail in (a, if got then held + 1 else held)
    else if 0 <? held then (Release avail, held - 1) else (avail, held) in
  let '(avail, held) := fold_left step [true; true; true; false] (2, 0) in
  0 <= avail <= 2 /\ 0 <= held /\ avail + held = 2.
Proof. exact (Limiter_bounds 2 [true; true; true; false] ltac:(lia)). Defined.
