(* ===== verification/LogFormat.v ===== *)
(** The write-ahead log (redisdb/db/logwriter.h, logwriter.cc, logreader.h,
    logreader.cc; the record types of option.h).

    A log is a sequence of 32 KiB blocks; a record is split into fragments, each a
    physical record of a 7-byte header and a payload that stays within one block.
    The writer and the reader are stated over the file interfaces of [Env]. *)
From S2P Require Import Prelude Coding Crc32c Status Env.
Local Open Scope Z_scope.

Inductive RecordType := kZeroType | kFullType | kFirstType | kMiddleType | kLastType.

Definition record_value (t : RecordType) : Z :=
  match t with
  | kZeroType => 0 | kFullType => 1 | kFirstType => 2 | kMiddleType => 3 | kLastType => 4
  end.

Definition kMaxRecordType : Z := record_value kLastType.
Definition kBlockSize : Z := 32768.
Definition kHeaderSize : Z := 7.

Abbreviation len l := (Z.of_nat (length l)).

(** ** The writer *)

Section Writer.
Context {F : Type} `{AppendFile F}.

Record LogWriter := MkLogWriter { dest : F; blockoffset : Z }.

(** Both constructors; the first is [destlength = 0]. *)
Definition LogWriter_make (dest : F) (destlength : Z) : LogWriter :=
  MkLogWriter dest (destlength mod kBlockSize).

(** [initTypeCrc]: the crc of the type byte, at stack address [taddr]. *)
Definition typecrc (taddr : Z) (t : RecordType) : Z := Value taddr [z2b (record_value t)].

(** [EmitPhysicalRecord]; [None] is a failed assert, [ptr] the payload's address. *)
Definition EmitPhysicalRecord (taddr : Z) (w : LogWriter) (t : RecordType) (ptr : Z) (data : bytes)
    : option (Status * LogWriter) :=
  let n := len data in
  if decide (n <= 0xffff /\ blockoffset w + kHeaderSize + n <= kBlockSize) then
    let crc := Mask (Extend ptr (typecrc taddr t) data) in
    let buf := EncodeFixed32 crc ++
      [z2b (Z.land n 0xff); z2b (Z.shiftr n 8); z2b (record_value t)] in
    let '(s, d) := fappend (dest w) buf in
    let '(s, d) :=
      if ok s then
        let '(s, d) := fappend d data in
        if ok s then fflush d else (s, d)
      else (s, d) in
    Some (s, MkLogWriter d (blockoffset w + (kHeaderSize + n)))
  else None.

(** Filling the trailer of a block that cannot hold another header. *)
Definition switch_block (w : LogWriter) : LogWriter :=
  let leftover := kBlockSize - blockoffset w in
  if leftover <? kHeaderSize then
    let d := if 0 <? leftover
             then (fappend (dest w) (replicate (Z.to_nat leftover) x00)).2 else dest w in
    MkLogWriter d 0
  else w.

Definition fragment_type (begin end_ : bool) : RecordType :=
  if begin && end_ then kFullType
  else if begin then kFirstType
  else if end_ then kLastType
  else kMiddleType.

(** The [do ... while] loop of [AddRecord]; a turn that emits nothing fills its block,
    so two turns more than there are bytes are enough. *)
Fixpoint AddRecord_loop (fuel : nat) (taddr : Z) (w : LogWriter) (ptr : Z) (data : bytes) (begin : bool)
    : option (Status * LogWriter) :=
  match fuel with
  | O => None
  | S fuel' =>
      if kBlockSize - blockoffset w <? 0 then None else
      let w := switch_block w in
      if kBlockSize - blockoffset w - kHeaderSize <? 0 then None else
      let avail := kBlockSize - blockoffset w - kHeaderSize in
      let left := len data in
      let fragmentlength := if left <? avail then left else avail in
      let type := fragment_type begin (left =? fragmentlength) in
      let n := Z.to_nat fragmentlength in
      let? (s, w) := EmitPhysicalRecord taddr w type ptr (take n data) in
      let data := drop n data in
      if ok s && (0 <? len data)
      then AddRecord_loop fuel' taddr w (ptr + fragmentlength) data false
      else Some (s, w)
  end.

Definition AddRecord (taddr : Z) (w : LogWriter) (ptr : Z) (slice : bytes) : option (Status * LogWriter) :=
  AddRecord_loop (length slice + 2) taddr w ptr slice true.
End Writer.

(** ** The reader *)

Definition kEof : Z := kMaxRecordType + 1.
Definition kBadRecord : Z := kMaxRecordType + 2.

Section Reader.
Context {G : Type} `{ReadFile G}.

(** [drops] collects the calls of [reporter->Corruption]. *)
Record LogReader := MkLogReader {
  file : G;
  reporter : bool;
  checksum : bool;
  rbuffer : bytes;
  eof : bool;
  lastrecordoffset : Z;
  endofbufferoffset : Z;
  initialoffset : Z;
  resyncing : bool;
  drops : list (Z * Status);
}.

Definition LogReader_make (file : G) (reporter checksum : bool) (initialoffset : Z) : LogReader :=
  MkLogReader file reporter checksum [] false 0 0 initialoffset (0 <? initialoffset) [].

Definition set_buffer (r : LogReader) (b : bytes) : LogReader :=
  MkLogReader (file r) (reporter r) (checksum r) b (eof r) (lastrecordoffset r)
    (endofbufferoffset r) (initialoffset r) (resyncing r) (drops r).
Definition set_eof (r : LogReader) : LogReader :=
  MkLogReader (file r) (reporter r) (checksum r) (rbuffer r) true (lastrecordoffset r)
    (endofbufferoffset r) (initialoffset r) (resyncing r) (drops r).
Definition set_last (r : LogReader) (o : Z) : LogReader :=
  MkLogReader (file r) (reporter r) (checksum r) (rbuffer r) (eof r) o
    (endofbufferoffset r) (initialoffset r) (resyncing r) (drops r).
Definition set_resyncing (r : LogReader) (b : bool) : LogReader :=
  MkLogReader (file r) (reporter r) (checksum r) (rbuffer r) (eof r) (lastrecordoffset r)
    (endofbufferoffset r) (initialoffset r) b (drops r).
Definition set_file (r : LogReader) (f : G) (buffer : bytes) (endoff : Z) : LogReader :=
  MkLogReader f (reporter r) (checksum r) buffer (eof r) (lastrecordoffset r)
    endoff (initialoffset r) (resyncing r) (drops r).

Definition ReportDrop (r : LogReader) (bytes : Z) (reason : Status) : LogReader :=
  if reporter r && (initialoffset r <=? u64 (endofbufferoffset r - len (rbuffer r) - bytes)) then
    MkLogReader (file r) (reporter r) (checksum r) (rbuffer r) (eof r) (lastrecordoffset r)
      (endofbufferoffset r) (initialoffset r) (resyncing r) (drops r ++ [(bytes, reason)])
  else r.

Definition ReportCorruption (r : LogReader) (bytes : Z) (reason : Datatypes.list byte) : LogReader :=
  ReportDrop r bytes (Corruption reason []).

Definition SkipToInitialBlock (r : LogReader) : bool * LogReader :=
  let offsetInblock := initialoffset r mod kBlockSize in
  let blockstartlocation := initialoffset r - offsetInblock in
  let blockstartlocation :=
    if kBlockSize - 6 <? offsetInblock then u64 (blockstartlocation + kBlockSize)
    else blockstartlocation in
  let r := set_file r (file r) (rbuffer r) blockstartlocation in
  if 0 <? blockstartlocation then
    let '(skipStatus, f) := fskip (file r) blockstartlocation in
    let r := set_file r f (rbuffer r) (endofbufferoffset r) in
    if negb (ok skipStatus) then (false, ReportDrop r blockstartlocation skipStatus)
    else (true, r)
  else (true, r).

(** A [char] converted to [unsigned int]. *)
Definition char_to_uint (b : byte) : Z := if b2z b <? 128 then b2z b else u32 (b2z b - 256).

(** The loop of [ReadPhysicalRecord]: the type and [*result].  It reads at most once
    before it returns: past a read either a header is there or [eof] is set. *)
Fixpoint ReadPhysicalRecord_loop (fuel : nat) (addr : Z) (r : LogReader) (result : bytes)
    : option (Z * bytes * LogReader) :=
  match fuel with
  | O => None
  | S fuel' =>
      if len (rbuffer r) <? kHeaderSize then
        if negb (eof r) then
          let '(status, b, f) := fread (file r) (Z.to_nat kBlockSize) in
          let r := set_file r f b (u64 (endofbufferoffset r + len b)) in
          if negb (ok status) then
            Some (kEof, result, set_eof (ReportDrop (set_buffer r []) kBlockSize status))
          else
            let r := if len (rbuffer r) <? kBlockSize then set_eof r else r in
            ReadPhysicalRecord_loop fuel' addr r result
        else Some (kEof, result, set_buffer r [])
      else
        let header := rbuffer r in
        let a := Z.land (byte_at header 4) 0xff in
        let b := Z.land (byte_at header 5) 0xff in
        let type := char_to_uint (default x00 (header !! 6%nat)) in
        let length := Z.lor a (Z.shiftl b 8) in
        if len (rbuffer r) <? kHeaderSize + length then
          let dropSize := len (rbuffer r) in
          let r := set_buffer r [] in
          if negb (eof r) then
            Some (kBadRecord, result, ReportCorruption r dropSize (str "bad record length"))
          else Some (kEof, result, r)
        else if (type =? record_value kZeroType) && (length =? 0) then
          Some (kBadRecord, result, set_buffer r [])
        else
          let expectedCrc := Unmask (DecodeFixed32 header) in
          let actualCrc := Value addr (take (Z.to_nat (1 + length)) (drop 6 header)) in
          if checksum r && negb (actualCrc =? expectedCrc) then
            let dropSize := len (rbuffer r) in
            Some (kBadRecord, result,
              ReportCorruption (set_buffer r []) dropSize (str "checksum mismatch"))
          else
            let r := set_buffer r (drop (Z.to_nat (kHeaderSize + length)) (rbuffer r)) in
            if u64 (endofbufferoffset r - len (rbuffer r) - kHeaderSize - length) <? initialoffset r
            then Some (kBadRecord, [], r)
            else Some (type, take (Z.to_nat length) (drop (Z.to_nat kHeaderSize) header), r)
  end.

Definition ReadPhysicalRecord (addr : Z) (r : LogReader) (result : bytes) :=
  ReadPhysicalRecord_loop 2 addr r result.

(** The loop of [ReadRecord]: the result, [*record], [*scratch].  Each turn but the
    last takes at least a byte from the buffer or the file. *)
Fixpoint ReadRecord_loop (fuel : nat) (addr : Z) (r : LogReader) (scratch fragment : bytes)
    (infragmentedrecord : bool) (prospective : Z) : option (bool * bytes * LogReader) :=
  match fuel with
  | O => None
  | S fuel' =>
      let? (recordType, fragment, r) := ReadPhysicalRecord addr r fragment in
      let physicalrecordoffset :=
        u64 (endofbufferoffset r - len (rbuffer r) - kHeaderSize - len fragment) in
      if resyncing r && (recordType =? record_value kMiddleType) then
        ReadRecord_loop fuel' addr r scratch fragment infragmentedrecord prospective
      else if resyncing r && (recordType =? record_value kLastType) then
        ReadRecord_loop fuel' addr (set_resyncing r false) scratch fragment infragmentedrecord prospective
      else
        let r := if resyncing r then set_resyncing r false else r in
        let partial msg r :=
          if infragmentedrecord && negb (bool_decide (scratch = []))
          then ReportCorruption r (len scratch) (str msg) else r in
        if recordType =? record_value kFullType then
          let r := partial "partial record without end(1)" r in
          Some (true, fragment, set_last r physicalrecordoffset)
        else if recordType =? record_value kFirstType then
          let r := partial "partial record without end(2)" r in
          ReadRecord_loop fuel' addr r fragment fragment true physicalrecordoffset
        else if recordType =? record_value kMiddleType then
          if negb infragmentedrecord then
            let r := ReportCorruption r (len fragment) (str "missing start of fragmented record(1)") in
            ReadRecord_loop fuel' addr r scratch fragment infragmentedrecord prospective
          else ReadRecord_loop fuel' addr r (scratch ++ fragment) fragment infragmentedrecord prospective
        else if recordType =? record_value kLastType then
          if negb infragmentedrecord then
            let r := ReportCorruption r (len fragment) (str "missing start of fragmented record(2)") in
            ReadRecord_loop fuel' addr r scratch fragment infragmentedrecord prospective
          else Some (true, scratch ++ fragment, set_last r prospective)
        else if recordType =? kEof then Some (false, [], r)
        else if recordType =? kBadRecord then
          if infragmentedrecord then
            let r := ReportCorruption r (len scratch) (str "error in middle of record") in
            ReadRecord_loop fuel' addr r [] fragment false prospective
          else ReadRecord_loop fuel' addr r scratch fragment infragmentedrecord prospective
        else
          let r := ReportCorruption r (len fragment + (if infragmentedrecord then len scratch else 0))
                     (str "unknown record type " ++ decimal recordType) in
          ReadRecord_loop fuel' addr r [] fragment false prospective
  end.

Definition read_fuel (r : LogReader) : nat :=
  S (length (rbuffer r) + length (remaining (file r))).

(** The result and the final [*record]; with result [false] callers do not look at it. *)
Definition ReadRecord (addr : Z) (r : LogReader) : option (bool * bytes * LogReader) :=
  let '(go, r) :=
    if lastrecordoffset r <? initialoffset r then SkipToInitialBlock r else (true, r) in
  if negb go then Some (false, [], r)
  else ReadRecord_loop (read_fuel r) addr r [] [] false 0.

Definition GetLastRecordOffset (r : LogReader) : Z := lastrecordoffset r.
End Reader.

(** ** The format: fragments and their layout *)

Abbreviation fragment := (RecordType * bytes)%type.

Definition physical (t : RecordType) (p : bytes) : bytes :=
  EncodeFixed32 (Mask (crc32c 0 (z2b (record_value t) :: p))) ++
  [z2b (Z.land (len p) 0xff); z2b (Z.shiftr (len p) 8); z2b (record_value t)] ++ p.

(** From block offset [o]: the trailer to skip, and where the next header goes. *)
Definition pad (o : Z) : bytes :=
  if kBlockSize - o <? kHeaderSize then replicate (Z.to_nat (kBlockSize - o)) x00 else [].
Definition start (o : Z) : Z := if kBlockSize - o <? kHeaderSize then 0 else o.
Definition after (o : Z) (f : fragment) : Z := start o + (kHeaderSize + len f.2).

Fixpoint layout (o : Z) (frags : list fragment) : bytes :=
  match frags with
  | [] => []
  | f :: frags => pad o ++ physical f.1 f.2 ++ layout (after o f) frags
  end.

Definition end_offset (o : Z) (frags : list fragment) : Z := fold_left after frags o.

(** Every fragment stays in its block and has a type the writer uses. *)
Fixpoint frags_fit (o : Z) (frags : list fragment) : Prop :=
  match frags with
  | [] => True
  | f :: frags => after o f <= kBlockSize /\ f.1 <> kZeroType /\ frags_fit (after o f) frags
  end.

(** The fragments of the rest of a record ([begin] at its first fragment). *)
Inductive pieces : bool -> bytes -> list fragment -> Prop :=
  | pieces_end b p : pieces b p [(fragment_type b true, p)]
  | pieces_more b p d frags :
      pieces false d frags -> pieces b (p ++ d) ((fragment_type b false, p) :: frags).

Lemma length_physical t p : len (physical t p) = kHeaderSize + len p.
Proof. unfold physical. rewrite !length_app, length_EncodeFixed32. cbn [length]. unfold kHeaderSize. lia. Qed.

Lemma layout_app o fs gs : layout o (fs ++ gs) = layout o fs ++ layout (end_offset o fs) gs.
Proof.
  unfold end_offset. revert o. induction fs as [|f fs IH]; intros o; [done|].
  cbn [app layout fold_left]. by rewrite IH, <- !app_assoc.
Qed.

Lemma frags_fit_app o fs gs :
  frags_fit o (fs ++ gs) <-> frags_fit o fs /\ frags_fit (end_offset o fs) gs.
Proof.
  unfold end_offset. revert o. induction fs as [|f fs IH]; intros o; cbn [app frags_fit fold_left].
  - tauto.
  - rewrite IH. tauto.
Qed.

Lemma start_range o : 0 <= o <= kBlockSize -> 0 <= start o <= kBlockSize - kHeaderSize.
Proof. unfold start, kBlockSize, kHeaderSize. intros. destruct (Z.ltb_spec (32768 - o) 7); lia. Qed.

Lemma after_range o f :
  0 <= o <= kBlockSize -> after o f <= kBlockSize -> 0 <= after o f <= kBlockSize.
Proof. intros Ho Ha. pose proof (start_range o Ho). unfold after, kHeaderSize in *. lia. Qed.

(** ** What the writer writes *)

Section WriterProofs.
Context {F : Type} `{AppendFileOk F}.
Implicit Types (w : @LogWriter F) (data : bytes).

Lemma EmitPhysicalRecord_ok taddr w t ptr data :
  healthy (dest w) -> 0 <= blockoffset w -> blockoffset w + kHeaderSize + len data <= kBlockSize ->
  exists w', EmitPhysicalRecord taddr w t ptr data = Some (OK, w') /\ healthy (dest w') /\
    contents (dest w') = contents (dest w) ++ physical t data /\
    blockoffset w' = blockoffset w + (kHeaderSize + len data).
Proof.
  intros Hh Hpos Hfit. unfold EmitPhysicalRecord. cbv zeta.
  rewrite decide_True by (unfold kHeaderSize, kBlockSize in *; lia).
  unfold typecrc, Value. rewrite (Extend_crc32c taddr), (Extend_crc32c ptr), crc32c_app by (done || by apply crc32c_range).
  destruct (fappend_ok (dest w) (EncodeFixed32 (Mask (crc32c 0 ([z2b (record_value t)] ++ data))) ++
      [z2b (Z.land (len data) 255); z2b (Z.shiftr (len data) 8); z2b (record_value t)]) Hh)
    as (d1 & -> & Hh1 & Hc1). cbn [ok OK].
  destruct (fappend_ok d1 data Hh1) as (d2 & -> & Hh2 & Hc2). cbn [ok OK].
  destruct (fflush_ok d2 Hh2) as (d3 & -> & Hh3 & Hc3).
  eexists. split; [done|]. cbn [dest blockoffset]. split_and!; [done| |done].
  rewrite Hc3, Hc2, Hc1. unfold physical. by rewrite <- !app_assoc.
Qed.

Lemma switch_block_ok w :
  healthy (dest w) -> 0 <= blockoffset w <= kBlockSize ->
  healthy (dest (switch_block w)) /\ blockoffset (switch_block w) = start (blockoffset w) /\
  contents (dest (switch_block w)) = contents (dest w) ++ pad (blockoffset w).
Proof.
  intros Hh Ho. unfold switch_block, start, pad. cbv zeta.
  destruct (Z.ltb_spec (kBlockSize - blockoffset w) kHeaderSize); [|by rewrite app_nil_r].
  destruct (Z.ltb_spec 0 (kBlockSize - blockoffset w)) as [Hp|Hp]; cbn [dest blockoffset].
  - destruct (fappend_ok (dest w) (replicate (Z.to_nat (kBlockSize - blockoffset w)) x00) Hh)
      as (d & -> & Hd & Hc). done.
  - replace (kBlockSize - blockoffset w) with 0 by lia. by rewrite app_nil_r.
Qed.

Lemma fragment_type_nonzero b e : fragment_type b e <> kZeroType.
Proof. by destruct b, e. Qed.

Lemma AddRecord_loop_ok fuel : forall taddr w ptr data begin,
  healthy (dest w) -> 0 <= blockoffset w <= kBlockSize ->
  (length data < fuel)%nat ->
  (kBlockSize - blockoffset w = kHeaderSize -> (length data + 1 < fuel)%nat) ->
  exists w' frags, AddRecord_loop fuel taddr w ptr data begin = Some (OK, w') /\
    healthy (dest w') /\ 0 <= blockoffset w' <= kBlockSize /\
    contents (dest w') = contents (dest w) ++ layout (blockoffset w) frags /\
    blockoffset w' = end_offset (blockoffset w) frags /\
    frags_fit (blockoffset w) frags /\ pieces begin data frags.
Proof.
  induction fuel as [|fuel IH]; intros taddr w ptr data begin Hh Ho Hf Hf7; [lia|].
  cbn [AddRecord_loop]. cbv zeta.
  rewrite (proj2 (Z.ltb_ge _ _)) by lia.
  destruct (switch_block_ok w Hh Ho) as (Hh1 & Ho1 & Hc1). pose proof (start_range _ Ho) as Hs.
  rewrite Ho1. rewrite (proj2 (Z.ltb_ge _ _)) by lia.
  set (avail := kBlockSize - start (blockoffset w) - kHeaderSize).
  set (fl := if len data <? avail then len data else avail).
  assert (0 <= fl <= len data /\ fl <= avail /\ (fl < len data -> fl = avail)) as (Hfl & Hfa & Hfull)
    by (subst fl; destruct (Z.ltb_spec (len data) avail); lia).
  set (t := fragment_type begin (len data =? fl)). set (p := take (Z.to_nat fl) data).
  assert (len p = fl) as Hp by (subst p; lens; lia).
  destruct (EmitPhysicalRecord_ok taddr (switch_block w) t ptr p Hh1) as (w1 & -> & Hh2 & Hc2 & Ho2);
    [lia|rewrite Ho1, Hp; lia|]. cbn [ok OK andb].
  rewrite Ho1 in Ho2. rewrite Hc1, <- app_assoc in Hc2.
  assert (blockoffset w1 = after (blockoffset w) (t, p)) as Ha by exact Ho2.
  assert (after (blockoffset w) (t, p) <= kBlockSize) as Hfit by (rewrite <- Ha, Ho2, Hp; lia).
  pose proof (after_range _ _ Ho Hfit) as Har.
  pose proof (fragment_type_nonzero begin (len data =? fl)) as Ht.
  destruct (Z.ltb_spec 0 (len (drop (Z.to_nat fl) data))) as [Hmore|Hdone]; rewrite length_drop in *.
  - assert (fl = avail) as Hav by (apply Hfull; lia).
    assert (blockoffset w1 = kBlockSize) as Hend by lia.
    destruct (IH taddr w1 (ptr + fl) (drop (Z.to_nat fl) data) false)
      as (w' & frags & -> & Hh' & Ho' & Hc' & He' & Hfit' & Hpc); [done|lia| | |].
    { rewrite length_drop. destruct (decide (fl = 0)) as [Hz|]; [|lia].
      assert (start (blockoffset w) = kBlockSize - kHeaderSize) as Hst by lia.
      unfold start in Hst. destruct (Z.ltb_spec (kBlockSize - blockoffset w) kHeaderSize);
        [unfold kBlockSize, kHeaderSize in *; lia|]. specialize (Hf7 ltac:(lia)). lia. }
    { rewrite Hend. unfold kHeaderSize. lia. }
    exists w', ((t, p) :: frags).
    refine (conj eq_refl (conj Hh' (conj Ho' (conj _ (conj _ (conj _ _)))))).
    + rewrite Hc', Hc2, Ha. cbn [layout fst snd]. by rewrite <- !app_assoc.
    + by rewrite He', Ha.
    + cbn [frags_fit]. split; [done|]. split; [done|]. by rewrite <- Ha.
    + rewrite <- (take_drop (Z.to_nat fl) data) at 1. subst t.
      rewrite (proj2 (Z.eqb_neq _ _)) by lia. by constructor.
  - exists w1, [(t, p)].
    assert (0 <= blockoffset w1 <= kBlockSize) as Hr1 by (rewrite Ha; exact Har).
    refine (conj eq_refl (conj Hh2 (conj Hr1 (conj _ (conj Ha (conj (conj Hfit (conj Ht I)) _)))))).
    + rewrite Hc2. cbn [layout fst snd]. by rewrite app_nil_r.
    + assert (len data = fl) as Hall by lia. subst t p. rewrite take_ge by lia.
      rewrite <- Hall, Z.eqb_refl. constructor.
Qed.

Lemma AddRecord_ok taddr w ptr data :
  healthy (dest w) -> 0 <= blockoffset w <= kBlockSize ->
  exists w' frags, AddRecord taddr w ptr data = Some (OK, w') /\
    healthy (dest w') /\ 0 <= blockoffset w' <= kBlockSize /\
    contents (dest w') = contents (dest w) ++ layout (blockoffset w) frags /\
    blockoffset w' = end_offset (blockoffset w) frags /\
    frags_fit (blockoffset w) frags /\ pieces true data frags.
Proof. intros Hh Ho. apply AddRecord_loop_ok; [done..|lia|lia]. Qed.
End WriterProofs.

(** ** What the reader reads *)

Definition header7 (t : RecordType) (p : bytes) : bytes :=
  EncodeFixed32 (Mask (crc32c 0 (z2b (record_value t) :: p))) ++
  [z2b (Z.land (len p) 0xff); z2b (Z.shiftr (len p) 8); z2b (record_value t)].

Lemma physical_header t p : physical t p = header7 t p ++ p.
Proof. unfold physical, header7. by rewrite <- app_assoc. Qed.

Lemma length_header7 t p : len (header7 t p) = kHeaderSize.
Proof. done. Qed.

Lemma header_fields t p q :
  len p <= 0xffff ->
  let h := header7 t p ++ q in
  Z.lor (Z.land (byte_at h 4) 0xff) (Z.shiftl (Z.land (byte_at h 5) 0xff) 8) = len p /\
  char_to_uint (default x00 (h !! 6%nat)) = record_value t /\
  Unmask (DecodeFixed32 h) = crc32c 0 (z2b (record_value t) :: p) /\
  drop 6 h = z2b (record_value t) :: q.
Proof.
  intros Hp h. split_and!.
  - change (byte_at h 4) with (b2z (z2b (Z.land (len p) 0xff))).
    change (byte_at h 5) with (b2z (z2b (Z.shiftr (len p) 8))).
    rewrite !b2z_z2b. change 255 with (Z.ones 8). rewrite !Z.land_ones, Z.shiftr_div_pow2 by done.
    change 256 with (2 ^ 8). rewrite !Z.mod_mod by done.
    rewrite lor_shiftl_add by (done || by apply Z.mod_pos_bound).
    rewrite (Z.mod_small (len p / 2 ^ 8)).
    + pose proof (Z.div_mod (len p) (2 ^ 8)). lia.
    + split; [apply Z.div_pos; lia|]. apply Z.div_lt_upper_bound; lia.
  - by destruct t.
  - subst h. unfold header7. rewrite <- app_assoc, DecodeFixed32_app, u32_small by apply Mask_range.
    apply Unmask_Mask. by apply crc32c_range.
  - done.
Qed.

Lemma record_value_range t : 0 <= record_value t <= 4.
Proof. by destruct t. Qed.

Section ReaderProofs.
Context {G : Type} {good : G -> Prop} `{HG : ReadFileOk G good}.
Implicit Types (r : @LogReader G) (S X : bytes).

(** The reader stands at block offset [o] with [S] still to parse. *)
Record rinv r (o : Z) S : Prop := {
  ri_good : good (file r);
  ri_init : initialoffset r = 0;
  ri_last : 0 <= lastrecordoffset r;
  ri_res : resyncing r = false;
  ri_drops : drops r = [];
  ri_data : rbuffer r ++ remaining (file r) = S;
  ri_off : 0 <= o <= kBlockSize;
  ri_len : len (rbuffer r) <= kBlockSize - o;
  ri_eof : eof r = true -> remaining (file r) = [];
  ri_full : eof r = false -> len (rbuffer r) = kBlockSize - o;
}.

(** A whole physical record at the front of the buffer is returned. *)
Lemma parse_whole fuel addr r res t p B :
  rbuffer r = physical t p ++ B -> t <> kZeroType -> len p <= 0xffff -> initialoffset r = 0 ->
  ReadPhysicalRecord_loop (Datatypes.S fuel) addr r res = Some (record_value t, p, set_buffer r B).
Proof.
  intros Hb Ht Hp Hi. cbn [ReadPhysicalRecord_loop]. rewrite Hb, physical_header, <- app_assoc.
  destruct (header_fields t p (p ++ B) Hp) as (Hlen & Htype & Hcrc & Hdrop). cbv zeta.
  rewrite (proj2 (Z.ltb_ge _ _)) by (rewrite length_app, Nat2Z.inj_add, length_header7; lia).
  rewrite Hlen, Htype, Hcrc, Hdrop.
  rewrite (proj2 (Z.ltb_ge _ _)) by (rewrite !length_app, !Nat2Z.inj_add, length_header7; lia).
  replace (record_value t =? record_value kZeroType) with false by (by destruct t). cbn [andb].
  rewrite (take_app_exact (z2b (record_value t) :: p) B (Z.to_nat (1 + len p)) ltac:(cbn [length]; lia)
    : take (Z.to_nat (1 + len p)) (z2b (record_value t) :: p ++ B) = _).
  unfold Value. rewrite Extend_crc32c, Z.eqb_refl, andb_false_r by done.
  change (initialoffset (set_buffer r _)) with (initialoffset r).
  rewrite Hi, (proj2 (Z.ltb_ge _ _)) by apply u64_range.
  rewrite (app_assoc (header7 t p) p B), (drop_app_exact _ _ (Z.to_nat (kHeaderSize + len p)))
    by (rewrite length_app; pose proof (length_header7 t p); unfold kHeaderSize in *; lia).
  rewrite <- app_assoc, (drop_app_exact (header7 t p)) by done.
  by rewrite take_app_exact by lia.
Qed.

(** A physical record cut short at the end of the file ends the log. *)
Lemma parse_cut fuel addr r res t p k :
  physical t p = rbuffer r ++ k -> k <> [] -> eof r = true -> len p <= 0xffff ->
  ReadPhysicalRecord_loop (Datatypes.S fuel) addr r res = Some (kEof, res, set_buffer r []).
Proof.
  intros Hph Hk He Hp. cbn [ReadPhysicalRecord_loop]. cbv zeta. rewrite He. cbn [negb].
  destruct (Z.ltb_spec (len (rbuffer r)) kHeaderSize) as [|Hge]; [done|].
  rewrite physical_header in Hph. pose proof (length_header7 t p) as Hh.
  apply app_eq_inv in Hph as [(q & Hq & Hkp)|(q & Hq & Hpq)].
  - apply (f_equal length) in Hq as Hl. rewrite length_app in Hl.
    destruct q as [|b q]; [|cbn [length] in Hl; lia]. rewrite app_nil_r in Hq. cbn [app] in *. subst k.
    destruct (header_fields t p [] Hp) as (Hlen & _).
    rewrite app_nil_r, Hq in Hlen. rewrite Hlen, <- Hq.
    rewrite (proj2 (Z.ltb_lt _ _)); [cbn [eof set_buffer]; by rewrite He|].
    destruct p; [done|cbn [length]; lia].
  - destruct (header_fields t p q Hp) as (Hlen & _). rewrite Hq, Hlen.
    rewrite (proj2 (Z.ltb_lt _ _)); [cbn [eof set_buffer]; by rewrite He|].
    apply (f_equal length) in Hpq as Hpl. rewrite length_app in Hpl |- *.
    destruct k; [done|]. cbn [length] in Hpl. lia.
Qed.

Lemma rinv_set_buffer r o S B o' :
  rinv r o S -> 0 <= o' <= kBlockSize -> len B <= kBlockSize - o' ->
  (eof r = false -> len B = kBlockSize - o') ->
  rinv (set_buffer r B) o' (B ++ remaining (file r)).
Proof. intros [] ???. by constructor. Qed.

(** With a header to look at, or the end of the file in the buffer. *)
Lemma parse_spec fuel addr r res s S t p X :
  rinv r s S -> eof r = true \/ kHeaderSize <= len (rbuffer r) ->
  S `prefix_of` physical t p ++ X -> s + (kHeaderSize + len p) <= kBlockSize -> t <> kZeroType ->
  (exists r' S', ReadPhysicalRecord_loop (Datatypes.S fuel) addr r res = Some (record_value t, p, r') /\
     S = physical t p ++ S' /\ rinv r' (s + (kHeaderSize + len p)) S' /\ S' `prefix_of` X) \/
  (exists r', ReadPhysicalRecord_loop (Datatypes.S fuel) addr r res = Some (kEof, res, r') /\
     rinv r' kBlockSize [] /\ eof r' = true /\ len S < len (physical t p)).
Proof.
  intros Hr Hready [k Hk] Hfit Ht. pose proof Hr as [_ Hi _ _ _ Hd Ho Hl He Hf].
  assert (len p <= 0xffff) as Hp by (unfold kHeaderSize, kBlockSize in *; lia).
  pose proof (length_physical t p) as Hlp.
  assert (forall S', S = physical t p ++ S' -> S' `prefix_of` X -> exists r' S',
    ReadPhysicalRecord_loop (Datatypes.S fuel) addr r res = Some (record_value t, p, r') /\
    S = physical t p ++ S' /\ rinv r' (s + (kHeaderSize + len p)) S' /\ S' `prefix_of` X) as Hwhole.
  { intros S' -> HX. assert (exists B, rbuffer r = physical t p ++ B /\ S' = B ++ remaining (file r))
      as (B & HB & ->).
    { apply app_eq_inv in Hd as [(B & HB & HS)|(q & Hq & Hrem)]; [by exists B|].
      destruct (eof r).
      - specialize (He eq_refl). rewrite He in Hrem. symmetry in Hrem.
        apply app_eq_nil in Hrem as [-> ->]. rewrite app_nil_r in Hq. exists [].
        by rewrite app_nil_r, He.
      - specialize (Hf eq_refl). rewrite Hq, length_app in Hlp. destruct q as [|b q]; [|cbn [length] in Hlp; lia].
        rewrite app_nil_r in Hq. exists []. by rewrite app_nil_r. }
    exists (set_buffer r B), (B ++ remaining (file r)).
    rewrite HB, length_app in Hl. rewrite HB, length_app in Hf.
    split_and!; [by apply parse_whole|done| |done].
    eapply rinv_set_buffer; [done|unfold kHeaderSize in *; lia|lia|intros Hf0; specialize (Hf Hf0); lia]. }
  apply app_eq_inv in Hk as [(k' & Hph & HX)|(S' & HS & HX)]; [|left; apply (Hwhole S'); [done|by eexists]].
  destruct k' as [|b k']; [left; apply (Hwhole []); [|apply prefix_nil]; by rewrite app_nil_r in *|right].
  assert (len S < len (physical t p)) as Hlt by (rewrite Hph, length_app; cbn [length]; lia).
  assert (eof r = true) as Heof.
  { destruct (eof r); [done|]. specialize (Hf eq_refl). rewrite <- Hd, length_app in Hlt. lia. }
  specialize (He Heof). rewrite He, app_nil_r in Hd. subst S.
  exists (set_buffer r []). split_and!; [by eapply parse_cut| |done|done].
  pose proof (rinv_set_buffer r s (rbuffer r) [] kBlockSize Hr) as Hinv. rewrite He in Hinv.
  apply Hinv; [unfold kBlockSize; lia|done|by rewrite Heof].
Qed.

Lemma rinv_eof_set r o S : rinv r o S -> remaining (file r) = [] -> rinv (set_eof r) o S.
Proof. intros [] ?. by constructor. Qed.

(** A read at the end of a block brings in the next one. *)
Lemma read_block addr r res o S fuel :
  rinv r o S -> eof r = false -> len (rbuffer r) < kHeaderSize ->
  exists r1, ReadPhysicalRecord_loop (Datatypes.S fuel) addr r res =
      ReadPhysicalRecord_loop fuel addr r1 res /\
    rinv r1 0 (remaining (file r)) /\ (eof r1 = true \/ kHeaderSize <= len (rbuffer r1)).
Proof.
  intros Hr Heof Hlt. pose proof Hr as [Hg Hi Hla Hre Hdr Hd Ho Hl He Hf].
  cbn [ReadPhysicalRecord_loop]. cbv zeta.
  rewrite (proj2 (Z.ltb_lt _ _)), Heof by done. cbn [negb].
  destruct (fread_ok (file r) (Z.to_nat kBlockSize) Hg) as (f & -> & Hg' & Hrem). cbn [ok OK negb].
  set (b := take (Z.to_nat kBlockSize) (remaining (file r))) in *.
  change (rbuffer (set_file r f b _)) with b.
  assert (len b <= kBlockSize) as Hb by (subst b; rewrite length_take; unfold kBlockSize; lia).
  assert (b ++ remaining f = remaining (file r)) as Hsplit by (rewrite Hrem; apply take_drop).
  destruct (Z.ltb_spec (len b) kBlockSize) as [Hs|Hs]; eexists; (split; [reflexivity|]).
  - assert (remaining f = []) as Hn.
    { rewrite Hrem. apply drop_ge. subst b. rewrite length_take in Hs. lia. }
    split; [|by left]. constructor; cbn [set_eof set_file file rbuffer eof initialoffset lastrecordoffset
      resyncing drops]; try done; unfold kBlockSize in *; lia.
  - split; [|right; cbn [set_file rbuffer]; unfold kHeaderSize, kBlockSize in *; lia].
    constructor; cbn [set_eof set_file file rbuffer eof initialoffset lastrecordoffset resyncing drops];
      try done; [by rewrite Heof|lia].
Qed.

Lemma ReadPhysical_spec addr r res o S f frs :
  rinv r o S -> S `prefix_of` layout o (f :: frs) -> after o f <= kBlockSize -> f.1 <> kZeroType ->
  (exists r' S', ReadPhysicalRecord addr r res = Some (record_value f.1, f.2, r') /\
     S = pad o ++ physical f.1 f.2 ++ S' /\ rinv r' (after o f) S' /\
     S' `prefix_of` layout (after o f) frs) \/
  (exists r', ReadPhysicalRecord addr r res = Some (kEof, res, r') /\
     rinv r' kBlockSize [] /\ eof r' = true /\ len S < len (pad o ++ physical f.1 f.2)).
Proof.
  destruct f as [t p]. cbn [fst snd layout]. intros Hr Hpre Hfit Ht.
  pose proof Hr as [_ _ _ _ _ Hd Ho Hl He Hf]. unfold ReadPhysicalRecord.
  unfold after in *. cbn [snd] in *. unfold start, pad in *.
  destruct (Z.ltb_spec (kBlockSize - o) kHeaderSize) as [Hpad|Hpad].
  - destruct (eof r) eqn:Heof.
    + right. specialize (He eq_refl). rewrite He, app_nil_r in Hd. subst S.
      exists (set_buffer r []). split_and!.
      * cbn [ReadPhysicalRecord_loop]. by rewrite (proj2 (Z.ltb_lt _ _)), Heof by lia.
      * pose proof (rinv_set_buffer r o _ [] kBlockSize Hr) as Hinv. rewrite He in Hinv.
        apply Hinv; [unfold kBlockSize; lia|done|by rewrite Heof].
      * done.
      * rewrite length_app, length_replicate. pose proof (length_physical t p).
        unfold kHeaderSize in *. lia.
    + specialize (Hf eq_refl).
      destruct (read_block addr r res o S 1 Hr Heof) as (r1 & -> & Hr1 & Hready); [lia|].
      assert (rbuffer r = replicate (Z.to_nat (kBlockSize - o)) x00 /\
        remaining (file r) `prefix_of` physical t p ++ layout (0 + (kHeaderSize + len p)) frs) as [Hb Hpre'].
      { rewrite <- Hd in Hpre. destruct Hpre as [k Hk]. rewrite <- app_assoc in Hk.
        apply app_inj_1 in Hk as [Hb Hk]; [|rewrite length_replicate; lia]. split; [done|]. by exists k. }
      rewrite <- Hd, Hb.
      destruct (parse_spec 0 addr r1 res 0 _ t p _ Hr1 Hready Hpre' Hfit Ht)
        as [(r' & S' & Heq & HS & Hr' & HX)|(r' & Heq & Hr' & Heof' & Hlen)]; [left|right].
      * exists r', S'. by rewrite HS.
      * exists r'. rewrite !length_app. split_and!; [done..|lia].
  - cbn [app] in *. assert (eof r = true \/ kHeaderSize <= len (rbuffer r)) as Hready.
    { destruct (eof r); [by left|right]. specialize (Hf eq_refl). lia. }
    apply (parse_spec 1 addr r res o S t p _ Hr Hready Hpre Hfit Ht).
Qed.

Lemma ReadPhysical_end addr r res o :
  rinv r o [] -> exists r', ReadPhysicalRecord addr r res = Some (kEof, res, r') /\
    rinv r' kBlockSize [] /\ eof r' = true.
Proof.
  intros Hr. pose proof Hr as [_ _ _ _ _ Hd Ho Hl He Hf]. unfold ReadPhysicalRecord.
  apply app_eq_nil in Hd as [Hb Hrem].
  assert (forall fuel r1 o1, rinv r1 o1 [] -> eof r1 = true ->
    ReadPhysicalRecord_loop (Datatypes.S fuel) addr r1 res = Some (kEof, res, set_buffer r1 []) /\
    rinv (set_buffer r1 []) kBlockSize [] /\ eof (set_buffer r1 []) = true) as Hend.
  { intros fuel r1 o1 Hr1 He1. pose proof Hr1 as [_ _ _ _ _ Hd1 _ _ _ _].
    apply app_eq_nil in Hd1 as [Hb1 Hrem1]. cbn [ReadPhysicalRecord_loop].
    rewrite Hb1, He1. split; [done|]. split; [|done].
    pose proof (rinv_set_buffer r1 o1 _ [] kBlockSize Hr1) as Hinv. rewrite Hrem1 in Hinv.
    apply Hinv; [unfold kBlockSize; lia|done|by rewrite He1]. }
  destruct (eof r) eqn:Heof; [eexists; by apply (Hend 1%nat r o)|].
  destruct (read_block addr r res o [] 1 Hr Heof) as (r1 & -> & Hr1 & Hready); [rewrite Hb; done|].
  rewrite Hrem in Hr1. eexists. apply (Hend 0%nat r1 0); [done|].
  destruct Hready as [|Hlen]; [done|]. pose proof (ri_data _ _ _ Hr1) as Hd1.
  apply app_eq_nil in Hd1 as [Hb1 _]. by rewrite Hb1 in Hlen.
Qed.

Lemma rinv_set_last r o S l : rinv r o S -> 0 <= l -> rinv (set_last r l) o S.
Proof. intros [] ?. by constructor. Qed.

(** Reading a record, whole or cut short by the end of the file. *)
Lemma ReadRecord_loop_spec addr begin data frags :
  pieces begin data frags ->
  forall fuel r o S more scratch fragment infrag prosp,
  rinv r o S -> S `prefix_of` layout o (frags ++ more) -> frags_fit o frags ->
  (if begin : bool then infrag = false /\ scratch = [] else infrag = true) ->
  0 <= prosp -> (length S < fuel)%nat ->
  (exists r' S', ReadRecord_loop fuel addr r scratch fragment infrag prosp =
       Some (true, scratch ++ data, r') /\
     S = layout o frags ++ S' /\ rinv r' (end_offset o frags) S' /\
     S' `prefix_of` layout (end_offset o frags) more) \/
  (exists r', ReadRecord_loop fuel addr r scratch fragment infrag prosp = Some (false, [], r') /\
     rinv r' kBlockSize [] /\ len S < len (layout o frags)).
Proof.
  induction 1 as [b p|b p d frags Hp IH];
    intros fuel r o S more scratch fragment infrag prosp Hr Hpre Hfit Hb Hpr Hfuel;
    (destruct fuel as [|fuel]; [lia|]); cbn [app] in Hpre; cbn [frags_fit fst] in Hfit;
    destruct Hfit as (Hfit & Ht & Hrest); cbn [ReadRecord_loop]; cbv zeta.
  all: destruct (ReadPhysical_spec addr r fragment o S _ _ Hr Hpre Hfit Ht)
    as [(r' & S' & -> & -> & Hr' & HX)|(r' & -> & Hr' & _ & Hlen)]; cbn [fst snd] in *;
    rewrite (ri_res _ _ _ Hr'); cbn [andb].
  2: { right. exists r'. split_and!; [done..|]. cbn [layout fst snd]. rewrite app_nil_r. exact Hlen. }
  3: { right. exists r'. split_and!; [done..|]. cbn [layout fst snd].
       rewrite app_assoc, length_app. lia. }
  - left. cbn [layout fst snd]. rewrite app_nil_r.
    destruct b; [destruct Hb as [-> ->]|subst infrag]; cbn [fragment_type andb negb record_value Z.eqb Pos.eqb];
      eexists _, S'; (split; [reflexivity|]); rewrite <- app_assoc; split_and!; try done;
      apply rinv_set_last; try done; apply u64_range.
  - assert (length S' < fuel)%nat as Hf'.
    { rewrite !length_app in Hfuel. pose proof (length_physical (fragment_type b false) p).
      unfold kHeaderSize in *. lia. }
    destruct b; [destruct Hb as [-> ->]|subst infrag];
      cbn [fragment_type andb negb record_value Z.eqb Pos.eqb].
    + destruct (IH fuel r' _ S' more p p true
        (u64 (endofbufferoffset r' - len (rbuffer r') - kHeaderSize - len p)) Hr' HX Hrest eq_refl)
        as [(r2 & S2 & -> & -> & Hr2 & HX2)|(r2 & -> & Hr2 & Hlen)]; [apply u64_range|done|left|right].
      * exists r2, S2. cbn [layout fst snd app]. rewrite <- !app_assoc. done.
      * exists r2. cbn [layout fst snd]. rewrite !length_app. split_and!; [done..|]. cbn [fragment_type andb] in Hlen. lia.
    + destruct (IH fuel r' _ S' more (scratch ++ p) p true prosp Hr' HX Hrest eq_refl)
        as [(r2 & S2 & -> & -> & Hr2 & HX2)|(r2 & -> & Hr2 & Hlen)]; [done|done|left|right].
      * exists r2, S2. cbn [layout fst snd]. rewrite <- !app_assoc. done.
      * exists r2. cbn [layout fst snd]. rewrite !length_app. split_and!; [done..|]. cbn [fragment_type andb] in Hlen. lia.
Qed.

Lemma ReadRecord_spec addr r o S data frags more :
  pieces true data frags -> rinv r o S -> S `prefix_of` layout o (frags ++ more) -> frags_fit o frags ->
  (exists r' S', ReadRecord addr r = Some (true, data, r') /\
     S = layout o frags ++ S' /\ rinv r' (end_offset o frags) S' /\
     S' `prefix_of` layout (end_offset o frags) more) \/
  (exists r', ReadRecord addr r = Some (false, [], r') /\
     rinv r' kBlockSize [] /\ len S < len (layout o frags)).
Proof.
  intros Hp Hr Hpre Hfit. unfold ReadRecord. pose proof Hr as [_ Hi Hla _ _ Hd _ _ _ _].
  rewrite Hi, (proj2 (Z.ltb_ge _ _)) by done. cbn [negb].
  apply (ReadRecord_loop_spec addr true data frags Hp (read_fuel r) r o S more [] [] false 0); try done.
  unfold read_fuel. rewrite <- Hd, length_app. lia.
Qed.

Lemma ReadRecord_end addr r o :
  rinv r o [] -> exists r', ReadRecord addr r = Some (false, [], r') /\ rinv r' kBlockSize [].
Proof.
  intros Hr. unfold ReadRecord. pose proof Hr as [_ Hi Hla _ _ Hd _ _ _ _].
  rewrite Hi, (proj2 (Z.ltb_ge _ _)) by done. cbn [negb]. unfold read_fuel. cbn [ReadRecord_loop].
  destruct (ReadPhysical_end addr r [] o Hr) as (r' & -> & Hr' & _).
  rewrite (ri_res _ _ _ Hr'). cbn [andb]. by exists r'.
Qed.

(** Reading until [ReadRecord] returns false. *)
Fixpoint read_all (fuel : nat) (addr : Z) r : option (list bytes * LogReader) :=
  match fuel with
  | O => None
  | S fuel' =>
      let? (go, record, r) := ReadRecord addr r in
      if go : bool then let? (rs, r) := read_all fuel' addr r in Some (record :: rs, r)
      else Some ([], r)
  end.

Lemma read_all_S fuel addr r :
  read_all (Datatypes.S fuel) addr r =
    let? (go, record, r) := ReadRecord addr r in
    if go : bool then let? (rs, r) := read_all fuel addr r in Some (record :: rs, r)
    else Some ([], r).
Proof. done. Qed.

Lemma read_all_spec addr rs fragss :
  Forall2 (pieces true) rs fragss -> forall r o S,
  rinv r o S -> S `prefix_of` layout o (concat fragss) -> frags_fit o (concat fragss) ->
  exists k r', (k <= length rs)%nat /\
    read_all (Datatypes.S (length rs)) addr r = Some (take k rs, r') /\ drops r' = [] /\
    forall j, (j <= length rs)%nat -> (len (layout o (concat (take j fragss))) <= len S <-> (j <= k)%nat).
Proof.
  induction 1 as [|data frags rs fragss Hp HF IH]; intros r o S Hr Hpre Hfit.
  { apply prefix_nil_inv in Hpre as ->. destruct (ReadRecord_end addr r o Hr) as (r' & Heq & Hr').
    exists O, r'. cbn [read_all length]. rewrite Heq. split_and!; [done|done|apply Hr'|].
    intros j Hj. assert (j = O) as -> by lia. done. }
  cbn [concat] in *. apply frags_fit_app in Hfit as [Hfit1 Hfit2].
  rewrite read_all_S.
  destruct (ReadRecord_spec addr r o S data frags (concat fragss) Hp Hr Hpre Hfit1)
    as [(r1 & S' & -> & -> & Hr1 & HX)|(r' & -> & Hr' & Hlen)].
  - destruct (IH r1 _ S' Hr1 HX Hfit2) as (k & r' & Hk & Hall & Hdr & Hj).
    cbn [length]. rewrite Hall. exists (Datatypes.S k), r'.
    split_and!; [lia|done|done|]. intros [|j] Hj'; [cbn; lia|].
    cbn [take concat]. rewrite layout_app, !length_app. specialize (Hj j ltac:(lia)). lia.
  - exists O, r'. split_and!; [lia|done|apply Hr'|]. intros [|j] Hj'; [cbn; lia|].
    cbn [take concat]. rewrite layout_app, length_app. lia.
Qed.

Lemma layout_block_end frags : layout kBlockSize frags = layout 0 frags.
Proof. by destruct frags. Qed.

Lemma frags_fit_block_end frags : frags_fit kBlockSize frags <-> frags_fit 0 frags.
Proof. by destruct frags. Qed.

Lemma LogReader_make_inv g rep ck :
  good g -> rinv (LogReader_make g rep ck 0) kBlockSize (remaining g).
Proof. intros Hg. by constructor. Qed.

End ReaderProofs.

(** *** Any contents, any file *)

Section AnyFile.
Context {G : Type} `{HG : ReadFileSafe G}.
Implicit Types (r : @LogReader G) (data : bytes).

Definition unread r : nat := (length (rbuffer r) + length (remaining (file r)))%nat.

(** The fragment whose header is at offset [o]: its type and payload. *)
Definition fragment_at data (o : Z) : option (Z * bytes) :=
  let h := drop (Z.to_nat o) data in
  let length := Z.lor (Z.land (byte_at h 4) 0xff) (Z.shiftl (Z.land (byte_at h 5) 0xff) 8) in
  if (0 <=? o) && (kHeaderSize + length <=? len h)
  then Some (char_to_uint (default x00 (h !! 6%nat)), take (Z.to_nat length) (drop (Z.to_nat kHeaderSize) h))
  else None.

(** A record whose first fragment is at [o]. *)
Definition record_starts data (o : Z) (record : bytes) : Prop :=
  fragment_at data o = Some (record_value kFullType, record) \/
  exists p, fragment_at data o = Some (record_value kFirstType, p) /\ p `prefix_of` record.

(** The buffer is the stretch of [data] that ends at [endofbufferoffset], and the file goes
    on behind it; after a failed read nothing is left. *)
Definition placed data r : Prop :=
  (eof r = true /\ rbuffer r = []) \/
  (len (rbuffer r) <= endofbufferoffset r <= 2 ^ 63 /\
   rbuffer r ++ remaining (file r) = drop (Z.to_nat (endofbufferoffset r - len (rbuffer r))) data).

(** A reader of [data] that has not begun, or has returned a record. *)
Definition located data r : Prop :=
  len data < 2 ^ 62 /\ initialoffset r < 2 ^ 62 /\
  ((rbuffer r = [] /\ endofbufferoffset r = 0 /\ remaining (file r) = data) \/
   (initialoffset r <= lastrecordoffset r /\ placed data r)).

Lemma located_make g rep ck off data :
  remaining g = data -> len data < 2 ^ 62 -> off < 2 ^ 62 -> located data (LogReader_make g rep ck off).
Proof. intros Hd Hl Ho. split; [done|]. split; [done|]. by left. Qed.

(** What a turn keeps: the offsets asked for, and where the buffer lies. *)
Definition keeps r r' : Prop :=
  initialoffset r' = initialoffset r /\ lastrecordoffset r' = lastrecordoffset r /\
  forall data, len data < 2 ^ 62 -> placed data r -> placed data r'.

Lemma keeps_refl r : keeps r r.
Proof. done. Qed.

Lemma keeps_trans r1 r2 r3 : keeps r1 r2 -> keeps r2 r3 -> keeps r1 r3.
Proof. intros (A1 & A2 & A3) (B1 & B2 & B3). split; [congruence|]. split; [congruence|]. auto. Qed.

Lemma unread_ReportDrop r n s : unread (ReportDrop r n s) = unread r.
Proof. unfold unread, ReportDrop. by case_match. Qed.

Lemma keeps_ReportDrop r n s : keeps r (ReportDrop r n s).
Proof. unfold ReportDrop. case_match; [|apply keeps_refl]. by split. Qed.

Lemma keeps_resyncing r b : keeps r (set_resyncing r b).
Proof. by split. Qed.

(** Dropping the front of the buffer. *)
Lemma keeps_drop r n : keeps r (set_buffer r (drop n (rbuffer r))).
Proof.
  split; [done|]. split; [done|]. intros data Hd [[He Hb]|[Hr Hb]]; [left; cbn; by rewrite Hb, drop_nil|right].
  cbn [set_buffer rbuffer endofbufferoffset file eof]. rewrite length_drop. split; [lia|].
  destruct (decide (n <= length (rbuffer r))%nat) as [Hn|Hn].
  - rewrite <- (drop_app_le (rbuffer r) (remaining (file r))) by done. rewrite Hb, drop_drop. f_equal. lia.
  - rewrite (drop_ge (rbuffer r)) by lia. cbn [app].
    assert (remaining (file r) = drop (length (rbuffer r)) (rbuffer r ++ remaining (file r))) as -> by (by rewrite drop_app_length).
    rewrite Hb, drop_drop. f_equal. lia.
Qed.

Lemma keeps_empty r : keeps r (set_buffer r []).
Proof.
  pose proof (keeps_drop r (length (rbuffer r))) as Hk. by rewrite drop_all in Hk.
Qed.

(** The fragment at the front of the buffer. *)
Lemma front_fragment r data (h := rbuffer r) (n := Z.lor (Z.land (byte_at h 4) 0xff) (Z.shiftl (Z.land (byte_at h 5) 0xff) 8)) :
  len data < 2 ^ 62 -> placed data r -> kHeaderSize + n <= len h -> 0 <= n ->
  let B := drop (Z.to_nat (kHeaderSize + n)) h in
  let o := u64 (endofbufferoffset r - len B - kHeaderSize - n) in
  fragment_at data o = Some (char_to_uint (default x00 (h !! 6%nat)), take (Z.to_nat n) (drop (Z.to_nat kHeaderSize) h)).
Proof.
  intros Hd Hp Hn H0 B o. destruct Hp as [[_ Hb]|[Hr Hb]]; [subst h; rewrite Hb in Hn; cbn [length] in Hn; unfold kHeaderSize in Hn; lia|].
  fold h in Hb. assert (o = endofbufferoffset r - len h) as ->.
  { unfold o, B. rewrite length_drop. unfold kHeaderSize in *. rewrite u64_small; [lia|]. subst h. lia. }
  unfold fragment_at. rewrite <- Hb. assert (7 <= len h) as H7 by (unfold kHeaderSize in *; lia).
  assert (forall i, (i < 7)%nat -> (h ++ remaining (file r)) !! i = h !! i) as Hi by (intros i Hi; apply lookup_app_l; lia).
  unfold byte_at in *. rewrite !Hi by lia. fold n.
  rewrite (proj2 (Z.leb_le 0 _)) by (subst h; lia).
  rewrite (proj2 (Z.leb_le _ _)) by (rewrite length_app; lia). cbn [andb]. do 2 f_equal.
  rewrite drop_app_le by (unfold kHeaderSize; lia). apply take_app_le. rewrite length_drop. unfold kHeaderSize in *. lia.
Qed.

(** What a physical record is: the end, one to skip, or a fragment of the file that begins
    at or after the initial offset. *)
Definition physical_ok r (t : Z) (res : bytes) r' : Prop :=
  keeps r r' /\ (t = kEof \/ (unread r' < unread r)%nat) /\
  (t < kEof -> let o := u64 (endofbufferoffset r' - len (rbuffer r') - kHeaderSize - len res) in
     initialoffset r <= o /\ forall data, len data < 2 ^ 62 -> placed data r -> fragment_at data o = Some (t, res)).

(** With a full header in the buffer, or nothing more to read, one turn is enough. *)
Lemma parse_total fuel addr r res :
  eof r = true \/ kHeaderSize <= len (rbuffer r) ->
  exists t res' r', ReadPhysicalRecord_loop (S fuel) addr r res = Some (t, res', r') /\ physical_ok r t res' r'.
Proof.
  intros Hready. cbn [ReadPhysicalRecord_loop]. cbv zeta.
  destruct (Z.ltb_spec (len (rbuffer r)) kHeaderSize) as [Hlt|Hge].
  { destruct Hready as [->|]; [|lia]. cbn [negb]. do 3 eexists. split; [done|].
    split; [apply keeps_empty|]. split; [by left|]. unfold kEof. lia. }
  assert (forall b, (length b < length (rbuffer r))%nat -> (unread (set_buffer r b) < unread r)%nat) as Hun
    by (intros b; unfold unread; cbn [set_buffer rbuffer file]; lia).
  assert (0 < length (rbuffer r))%nat as Hpos by (unfold kHeaderSize in Hge; lia).
  set (n := Z.lor _ _).
  assert (0 <= n) as Hl.
  { apply Z.lor_nonneg. split; [|apply Z.shiftl_nonneg]; apply Z.land_nonneg; by right. }
  assert (forall m s, physical_ok r kBadRecord res (ReportCorruption (set_buffer r []) m s)) as Hbad.
  { intros m s. unfold ReportCorruption. split; [eapply keeps_trans; [apply keeps_empty|apply keeps_ReportDrop]|].
    split; [right; rewrite unread_ReportDrop; by apply Hun|]. unfold kBadRecord, kEof. lia. }
  destruct (Z.ltb_spec (len (rbuffer r)) (kHeaderSize + n)) as [Hcut|Hfull].
  { change (eof (set_buffer r [])) with (eof r). destruct (negb (eof r)).
    - do 3 eexists. split; [done|]. apply Hbad.
    - do 3 eexists. split; [done|]. split; [apply keeps_empty|]. split; [by left|]. unfold kEof. lia. }
  destruct (_ && (n =? 0)).
  { do 3 eexists. split; [done|]. split; [apply keeps_empty|]. split; [right; by apply Hun|]. unfold kBadRecord, kEof. lia. }
  destruct (checksum r && _); [do 3 eexists; split; [done|]; apply Hbad|].
  pose proof (keeps_drop r (Z.to_nat (kHeaderSize + n))) as Hk. set (r' := set_buffer r (drop _ _)) in *.
  assert (unread r' < unread r)%nat as Hless by (unfold r'; apply Hun; rewrite length_drop; unfold kHeaderSize in *; lia).
  change (endofbufferoffset r) with (endofbufferoffset r'). change (initialoffset r') with (initialoffset r).
  destruct (Z.ltb_spec (u64 (endofbufferoffset r' - len (rbuffer r') - kHeaderSize - n)) (initialoffset r)) as [Hb|Hb].
  { do 3 eexists. split; [done|]. split; [done|]. split; [by right|]. unfold kBadRecord, kEof. lia. }
  do 3 eexists. split; [done|]. split; [done|]. split; [by right|]. intros _ o.
  assert (o = u64 (endofbufferoffset r' - len (rbuffer r') - kHeaderSize - n)) as ->.
  { unfold o. rewrite length_take, length_drop. do 2 f_equal. unfold kHeaderSize in *. lia. }
  split; [done|]. intros data Hd Hp. exact (front_fragment r data Hd Hp Hfull Hl).
Qed.

Lemma ReadPhysical_total addr r res :
  exists t res' r', ReadPhysicalRecord addr r res = Some (t, res', r') /\ physical_ok r t res' r'.
Proof.
  unfold ReadPhysicalRecord.
  destruct (decide (eof r = true \/ kHeaderSize <= len (rbuffer r))) as [Hready|Hno]; [by apply parse_total|].
  destruct (eof r) eqn:Heof; [naive_solver|].
  assert (len (rbuffer r) < kHeaderSize) as Hlt by lia. clear Hno.
  remember 1%nat as one eqn:Hone.
  cbn [ReadPhysicalRecord_loop]. cbv zeta. rewrite (proj2 (Z.ltb_lt _ _)), Heof by done. cbn [negb].
  destruct (fread (file r) (Z.to_nat kBlockSize)) as [[s b] f] eqn:Hread.
  destruct (fread_safe _ _ _ _ _ Hread) as (Hn & Hlen & Hsplit).
  set (r1 := set_file r f b (u64 (endofbufferoffset r + len b))).
  change (file r1) with f. change (rbuffer r1) with b. change (eof r1) with (eof r).
  destruct (ok s) eqn:Hs; cbn [negb].
  2:{ do 3 eexists. split; [done|]. split; [|split; [by left|unfold kEof; lia]].
      unfold ReportDrop. split; [by case_match|]. split; [by case_match|]. intros data _ _. left. by case_match. }
  specialize (Hsplit eq_refl). change (eof r1 = false) in Heof.
  set (r2 := if len b <? kBlockSize then set_eof r1 else r1).
  assert (keeps r r2) as Hk.
  { assert (keeps r r1) as Hk1; [|subst r2; case_match; [|done]].
    - split; [done|]. split; [done|]. intros data Hd [[He _]|[Hr Hb]]; [by change (eof r1) with (eof r) in Heof; rewrite He in Heof|right].
      cbn [r1 set_file rbuffer endofbufferoffset file]. 
      assert (remaining (file r) = drop (Z.to_nat (endofbufferoffset r)) data) as Hrem.
      { assert (remaining (file r) = drop (length (rbuffer r)) (rbuffer r ++ remaining (file r))) as -> by (by rewrite drop_app_length).
        rewrite Hb, drop_drop. f_equal. lia. }
      assert (len b <= len data) as Hbd.
      { apply (f_equal length) in Hrem. rewrite <- Hsplit, length_app, length_drop in Hrem. lia. }
      assert (len b = 0 \/ endofbufferoffset r <= len data) as Hin.
      { apply (f_equal length) in Hrem. rewrite <- Hsplit, length_app, length_drop in Hrem. lia. }
      assert (endofbufferoffset r + len b <= 2 ^ 63) as Hbound.
      { apply (f_equal length) in Hrem. rewrite <- Hsplit, length_app, length_drop in Hrem. lia. }
      rewrite u64_small by lia. split; [lia|]. rewrite Hsplit, Hrem. f_equal. lia.
    - destruct Hk1 as (K1 & K2 & K3). split; [done|]. split; [done|]. intros data Hd Hp. destruct (K3 data Hd Hp) as [[He Hb]|Hp']; [by left|by right]. }
  assert (eof r2 = true \/ kHeaderSize <= len (rbuffer r2)) as Hready.
  { subst r2. destruct (Z.ltb_spec (len b) kBlockSize) as [Hsh|Hsh]; [by left|right].
    change (rbuffer r1) with b. unfold kHeaderSize, kBlockSize in *. lia. }
  assert (unread r2 = length (b ++ remaining f)) as Hu by (rewrite length_app; subst r2; unfold unread; by case_match).
  subst one. destruct (parse_total 0 addr r2 res Hready) as (t & res' & r' & Heq & Hk' & Hm & Hfr).
  exists t, res', r'. split; [exact Heq|]. split; [by eapply keeps_trans|]. split.
  - destruct Hm as [Hm|Hm]; [by left|right]. rewrite Hu, Hsplit in Hm. unfold unread at 2. lia.
  - intros Ht. destruct (Hfr Ht) as [Ho Hf]. split; [destruct Hk as [<- _]; exact Ho|]. intros data Hd Hp. apply Hf; [done|]. by apply Hk.
Qed.

(** What is known of the record being put together: its first fragment. *)
Definition begun r (data : bytes) (infrag : bool) (scratch : bytes) (prosp : Z) : Prop :=
  infrag = true -> initialoffset r <= prosp /\
    (placed data r -> exists p, fragment_at data prosp = Some (record_value kFirstType, p) /\ p `prefix_of` scratch).

Lemma ReadRecord_loop_total addr : forall fuel r scratch fragment infrag prosp,
  (unread r < fuel)%nat -> (infrag = true -> initialoffset r <= prosp) ->
  exists b rec r', ReadRecord_loop fuel addr r scratch fragment infrag prosp = Some (b, rec, r') /\
    initialoffset r' = initialoffset r /\
    (b = true -> (unread r' < unread r)%nat /\ initialoffset r <= lastrecordoffset r' /\
       forall data, len data < 2 ^ 62 -> placed data r ->
         (infrag = true -> exists p, fragment_at data prosp = Some (record_value kFirstType, p) /\ p `prefix_of` scratch) ->
         placed data r' /\ record_starts data (lastrecordoffset r') rec).
Proof.
  induction fuel as [|fuel IH]; intros r scratch fragment infrag prosp Hf Hp; [lia|].
  cbn [ReadRecord_loop]. destruct (ReadPhysical_total addr r fragment) as (t & frag & r1 & -> & Hk1 & Hm & Hfr).
  assert (forall r2 sc inf pr, keeps r1 r2 -> unread r2 = unread r1 -> t <> kEof -> (inf = true -> initialoffset r <= pr) ->
    (forall data, len data < 2 ^ 62 -> placed data r ->
      (infrag = true -> exists p, fragment_at data prosp = Some (record_value kFirstType, p) /\ p `prefix_of` scratch) ->
      inf = true -> exists p, fragment_at data pr = Some (record_value kFirstType, p) /\ p `prefix_of` sc) ->
    exists b rec r', ReadRecord_loop fuel addr r2 sc frag inf pr = Some (b, rec, r') /\
      initialoffset r' = initialoffset r /\
      (b = true -> (unread r' < unread r)%nat /\ initialoffset r <= lastrecordoffset r' /\
       forall data, len data < 2 ^ 62 -> placed data r ->
         (infrag = true -> exists p, fragment_at data prosp = Some (record_value kFirstType, p) /\ p `prefix_of` scratch) ->
         placed data r' /\ record_starts data (lastrecordoffset r') rec)) as Hgo.
  { intros r2 sc inf pr Hk2 Hu2 Ht Hpr Hinf. destruct Hm as [|Hm]; [done|].
    pose proof (keeps_trans _ _ _ Hk1 Hk2) as Hk. destruct Hk as (K1 & K2 & K3).
    destruct (IH r2 sc frag inf pr) as (b & rec & r' & Heq & Hi & Hdec); [lia|by rewrite K1|].
    exists b, rec, r'. split; [done|]. split; [congruence|]. intros Hb. destruct (Hdec Hb) as (D1 & D2 & D3). rewrite K1 in D2.
    split; [lia|]. split; [done|]. intros data Hd Hpl Hst. apply D3; [done|by apply K3|by apply Hinf]. }
  assert (forall (rec : bytes) r2 l, keeps r1 r2 -> unread r2 = unread r1 -> t <> kEof -> initialoffset r <= l ->
    (forall data, len data < 2 ^ 62 -> placed data r ->
      (infrag = true -> exists p, fragment_at data prosp = Some (record_value kFirstType, p) /\ p `prefix_of` scratch) ->
      record_starts data l rec) ->
    exists b (rec' : bytes) (r' : @LogReader G), Some (true, rec, set_last r2 l) = Some (b, rec', r') /\
      initialoffset r' = initialoffset r /\
      (b = true -> (unread r' < unread r)%nat /\ initialoffset r <= lastrecordoffset r' /\
       forall data, len data < 2 ^ 62 -> placed data r ->
         (infrag = true -> exists p, fragment_at data prosp = Some (record_value kFirstType, p) /\ p `prefix_of` scratch) ->
         placed data r' /\ record_starts data (lastrecordoffset r') rec')) as Hdone.
  { intros rec r2 l Hk2 Hu2 Ht Hl Hst. destruct Hm as [|Hm]; [done|]. destruct (keeps_trans _ _ _ Hk1 Hk2) as (K1 & K2 & K3).
    do 3 eexists. split; [done|]. split; [done|]. intros _. change (unread (set_last r2 l)) with (unread r2).
    split; [lia|]. split; [done|]. intros data Hd Hpl Hsc. split; [by apply (K3 data)|by apply Hst]. }
  cbv zeta. change kEof with 5 in *. cbn [record_value] in *.
  set (o := u64 (endofbufferoffset r1 - len (rbuffer r1) - kHeaderSize - len frag)) in *.
  set (r2 := if resyncing r1 then set_resyncing r1 false else r1) in *.
  assert (keeps r1 r2 /\ unread r2 = unread r1) as [Hk2 Hu2] by (subst r2; by destruct (resyncing r1)).
  assert (forall n s, keeps r1 (ReportCorruption r2 n s) /\ unread (ReportCorruption r2 n s) = unread r1) as Hrc
    by (intros n s; unfold ReportCorruption; rewrite unread_ReportDrop; split; [eapply keeps_trans; [done|apply keeps_ReportDrop]|done]).
  assert (forall c n s, keeps r1 (if c : bool then ReportCorruption r2 n s else r2) /\
    unread (if c : bool then ReportCorruption r2 n s else r2) = unread r1) as Hif by (by intros []).
  clearbody r2.
  destruct (resyncing r1 && (t =? 3)) eqn:E1; [apply andb_true_iff in E1 as [_ E1%Z.eqb_eq]; apply Hgo; (done || lia || auto)|].
  destruct (resyncing r1 && (t =? 4)) eqn:E2; [apply andb_true_iff in E2 as [_ E2%Z.eqb_eq]; apply Hgo; (done || lia || auto)|].
  destruct (Z.eqb_spec t 1) as [->|].
  { destruct (Hfr ltac:(lia)) as [Ho Hat]. apply Hdone; try apply Hif; [lia|done|]. intros data Hd Hpl _. left. by apply Hat. }
  destruct (Z.eqb_spec t 2) as [->|].
  { destruct (Hfr ltac:(lia)) as [Ho Hat]. apply Hgo; try apply Hif; [lia|done|]. intros data Hd Hpl _ _. exists frag. split; [by apply Hat|done]. }
  destruct (Z.eqb_spec t 3).
  { destruct infrag; cbn [negb]; apply Hgo; try (done || apply Hrc || lia || auto).
    intros data Hd Hpl Hst _. destruct (Hst eq_refl) as (p & Hat & Hpre). exists p. split; [done|]. by apply prefix_app_r. }
  destruct (Z.eqb_spec t 4).
  { destruct infrag; cbn [negb].
    - apply Hdone; [done|done|lia|by apply Hp|]. intros data Hd Hpl Hst. destruct (Hst eq_refl) as (p & Hat & Hpre).
      right. exists p. split; [done|]. by apply prefix_app_r.
    - apply Hgo; try (done || apply Hrc || lia); auto. }
  destruct (Z.eqb_spec t 5).
  { do 3 eexists. split; [done|]. split; [|done]. destruct (keeps_trans _ _ _ Hk1 Hk2) as [K1 _]. exact K1. }
  destruct (t =? kBadRecord); [destruct infrag; apply Hgo; try (done || apply Hrc || lia); auto|].
  apply Hgo; (done || apply Hrc || lia).
Qed.

(** Skipping goes to the block of the initial offset, or past a trailer that cannot hold a
    header. *)
Lemma SkipToInitialBlock_ok r :
  exists go r', SkipToInitialBlock r = (go, r') /\ initialoffset r' = initialoffset r /\ (unread r' <= unread r)%nat /\
    forall data, go = true -> 0 <= initialoffset r < 2 ^ 62 -> rbuffer r = [] -> remaining (file r) = data -> placed data r'.
Proof.
  unfold SkipToInitialBlock. cbv zeta. match goal with |- context [0 <? ?x] => set (start := x) end.
  assert (0 <= initialoffset r < 2 ^ 62 -> 0 <= start <= 2 ^ 63) as Hstart.
  { intros Hi. pose proof (Z.mod_pos_bound (initialoffset r) kBlockSize ltac:(done)) as Hm.
    pose proof (Z.mod_le (initialoffset r) kBlockSize ltac:(lia) ltac:(done)) as Hle. unfold start, kBlockSize in *.
    case_match; [rewrite u64_small by lia|]; lia. }
  destruct (Z.ltb_spec 0 start) as [Hpos|Hzero].
  2:{ do 2 eexists. split; [done|]. split; [done|]. split; [done|]. intros data _ Hi Hb Hd. specialize (Hstart Hi).
      right. cbn [set_file rbuffer endofbufferoffset file]. rewrite Hb. cbn. split; [lia|]. by replace start with 0 by lia. }
  change (file (set_file r (file r) (rbuffer r) start)) with (file r).
  destruct (fskip (file r) start) as [s f] eqn:Hsk. destruct (fskip_safe _ _ _ _ Hsk) as [Hle Hok].
  destruct (ok s) eqn:Hs; cbn [negb].
  - do 2 eexists. split; [done|]. split; [done|]. split; [unfold unread; cbn; lia|]. intros data _ Hi Hb Hd. specialize (Hstart Hi).
    right. cbn [set_file rbuffer endofbufferoffset file]. rewrite Hb. cbn. split; [lia|]. rewrite Hok, Hd by done. f_equal. lia.
  - do 2 eexists. split; [done|]. unfold ReportDrop. split; [by case_match|]. split; [|done]. unfold unread. case_match; cbn; lia.
Qed.
End AnyFile.

(** ** Theorems *)

Section Theorems.
Context {F : Type} `{HF : AppendFileOk F} {G : Type} {good : G -> Prop} `{HG : ReadFileOk G good}.

(** Adding records, each with the address of its bytes, as long as all goes well. *)
Fixpoint write_all (taddr : Z) (w : @LogWriter F) (rs : list (Z * bytes)) : option LogWriter :=
  match rs with
  | [] => Some w
  | (ptr, data) :: rs =>
      let? (s, w) := AddRecord taddr w ptr data in
      if ok s then write_all taddr w rs else None
  end.

Lemma write_all_spec taddr rs : forall w,
  healthy (dest w) -> 0 <= blockoffset w <= kBlockSize ->
  exists fragss, Forall2 (pieces true) (map snd rs) fragss /\
    frags_fit (blockoffset w) (concat fragss) /\
    forall j, (j <= length rs)%nat -> exists wj, write_all taddr w (take j rs) = Some wj /\
      contents (dest wj) = contents (dest w) ++ layout (blockoffset w) (concat (take j fragss)).
Proof.
  induction rs as [|[ptr data] rs IH]; intros w Hh Ho.
  { exists []. split_and!; [constructor|done|]. intros j _. exists w. by rewrite !take_nil, app_nil_r. }
  destruct (AddRecord_ok taddr w ptr data Hh Ho) as (w1 & frags & HA & Hh1 & Ho1 & Hc1 & He1 & Hf1 & Hp1).
  destruct (IH w1 Hh1 Ho1) as (fragss & HF2 & Hf2 & Hj). rewrite He1 in Hf2, Hj.
  exists (frags :: fragss). cbn [map snd concat]. split; [by constructor|].
  split; [by apply frags_fit_app|]. intros [|j] Hj'.
  { exists w. by rewrite !take_0, app_nil_r. }
  cbn [length] in Hj'. destruct (Hj j ltac:(lia)) as (wj & Hw & Hc). exists wj.
  cbn [take write_all concat]. rewrite HA. cbn [ok OK]. split; [done|].
  by rewrite Hc, Hc1, layout_app, <- app_assoc.
Qed.

(** C2: the log survives a crash at any byte.  Records of any size written to an empty
    log succeed, no assert failing; and whatever prefix of the file is left, reading
    returns exactly the records that lie wholly within it, in order and unchanged,
    then stops, with nothing reported as corruption.  Uncut, it returns them all. *)
Theorem log_recovery taddr addr (f : F) (rs : list (Z * bytes)) :
  healthy f -> contents f = [] ->
  exists w, write_all taddr (LogWriter_make f 0) rs = Some w /\
    forall (g : G) n rep ck, good g -> remaining g = take n (contents (dest w)) ->
    exists k r', read_all (S (length rs)) addr (LogReader_make g rep ck 0) =
        Some (take k (map snd rs), r') /\
      drops r' = [] /\ (k <= length rs)%nat /\
      forall j wj, (j <= length rs)%nat -> (n <= length (contents (dest w)))%nat ->
        write_all taddr (LogWriter_make f 0) (take j rs) = Some wj ->
        ((length (contents (dest wj)) <= n)%nat <-> (j <= k)%nat).
Proof.
  intros Hh Hc. destruct (write_all_spec taddr rs (LogWriter_make f 0) Hh ltac:(done))
    as (fragss & HF2 & Hfit & Hj).
  change (blockoffset (LogWriter_make f 0)) with 0 in *. cbn [dest LogWriter_make] in Hj.
  rewrite Hc in Hj. cbn [app] in Hj.
  pose proof (Forall2_length _ _ _ HF2) as Hlen. rewrite length_map in Hlen.
  destruct (Hj (length rs) ltac:(lia)) as (w & Hw & Hcw). rewrite take_ge in Hw by lia.
  rewrite take_ge in Hcw by lia. exists w. split; [done|]. intros g n rep ck Hg Hrem.
  rewrite Hcw in Hrem. pose proof (LogReader_make_inv g rep ck Hg) as Hr.
  destruct (read_all_spec addr (map snd rs) fragss HF2 _ kBlockSize (remaining g) Hr)
    as (k & r' & Hk & Hall & Hdr & Hkj).
  - rewrite layout_block_end, Hrem. apply prefix_take.
  - by apply frags_fit_block_end.
  - rewrite length_map in *. exists k, r'. split_and!; [done..|].
    intros j wj Hjl Hn Hwj. destruct (Hj j Hjl) as (wj' & Hwj' & Hcj).
    rewrite Hwj in Hwj'. injection Hwj' as <-. rewrite <- (Hkj j Hjl), layout_block_end, <- Hcj.
    rewrite Hrem, length_take. rewrite Hcw in Hn. lia.
Qed.

End Theorems.

(** C34: the log reader on anything.  Whatever the file holds and however its reads and
    skips fail or fall short, and wherever the reader stands, each [ReadRecord] returns,
    within the bound on its loop; a record it returns leaves less to read, and never begins
    before the initial offset.  When the reader is new, or has just returned a record, what
    it returns is a record of the file: the bytes at [GetLastRecordOffset], counted from the
    beginning of the file also after [SkipToInitialBlock], are the header of a fragment that
    is the whole record or its first part - and so it is for the next call. *)
Theorem reader_total {G : Type} `{HG : ReadFileSafe G} addr (r : @LogReader G) :
  0 <= initialoffset r ->
  exists more record r', ReadRecord addr r = Some (more, record, r') /\ initialoffset r' = initialoffset r /\
    (more = true ->
       (length (rbuffer r') + length (remaining (file r')) < length (rbuffer r) + length (remaining (file r)))%nat /\
       initialoffset r <= GetLastRecordOffset r' /\
       forall data, located data r -> located data r' /\ record_starts data (GetLastRecordOffset r') record).
Proof.
  intros H0. unfold ReadRecord, GetLastRecordOffset.
  assert (exists go r1, (if lastrecordoffset r <? initialoffset r then SkipToInitialBlock r else (true, r)) = (go, r1) /\
    initialoffset r1 = initialoffset r /\ (unread r1 <= unread r)%nat /\
    forall data, go = true -> located data r -> placed data r1) as (go & r1 & -> & Hi & Hu & Hpl).
  { destruct (Z.ltb_spec (lastrecordoffset r) (initialoffset r)) as [Hlt|Hge].
    - destruct (SkipToInitialBlock_ok r) as (go & r1 & -> & K1 & K2 & K3). exists go, r1. do 3 (split; [done|]).
      intros data Hgo (Hd & Hio & [(Hb & He & Hr)|[Hl _]]); [|lia]. by apply K3.
    - exists true, r. do 3 (split; [done|]). intros data _ (Hd & Hio & [(Hb & He & Hr)|[_ Hp]]); [|done].
      right. rewrite Hb, He. cbn. split; [lia|]. by rewrite Hr. }
  destruct go; cbn [negb].
  - destruct (ReadRecord_loop_total addr (read_fuel r1) r1 [] [] false 0) as (b & rec & r' & Heq & Hi' & Hdec);
      [unfold read_fuel, unread; lia|done|].
    exists b, rec, r'. split; [exact Heq|]. split; [congruence|]. intros Hb. destruct (Hdec Hb) as (D1 & D2 & D3).
    rewrite Hi in D2. split; [unfold unread in *; lia|]. split; [done|]. intros data Hloc.
    destruct (D3 data ltac:(apply Hloc) ltac:(by apply Hpl) ltac:(done)) as [Hp' Hst]. split; [|done].
    destruct Hloc as (L1 & L2 & _). split; [done|]. rewrite Hi', Hi. split; [done|]. by right.
  - exists false, [], r1. by split_and!.
Qed.

(** ** Witnesses: a file with a slow, interrupted kernel *)

Definition demo_strerror (e : Z) : bytes := str "error".

Definition demo_log : list (Z * bytes) := [(3, str "first"); (0, []); (8, str "third record")].

Lemma log_recovery_witness :
  exists (w : @LogWriter WritableFile) k r',
    (let _ := WritableFile_append demo_strerror in
     write_all 1 (LogWriter_make (MkWritableFile [] [] [Wrote 2; WInterrupted] (str "000003.log")) 0) demo_log)
      = Some w /\
    (let _ := SequentialFile_read demo_strerror in
     read_all 4 0 (LogReader_make (MkSequentialFile (take 25 (written (dest w) ++ wbuf (dest w))) [RInterrupted] (str "000003.log")) true true 0))
      = Some (take k (map snd demo_log), r') /\ drops r' = [].
Proof.
  pose proof (WritableFile_ok demo_strerror) as HW. pose proof (SequentialFile_ok demo_strerror) as HS.
  destruct (log_recovery (HF := HW) (HG := HS) 1 0
    (MkWritableFile [] [] [Wrote 2; WInterrupted] (str "000003.log")) demo_log) as (w & Hw & Hr).
  - repeat constructor.
  - reflexivity.
  - destruct (Hr (MkSequentialFile (take 25 (written (dest w) ++ wbuf (dest w))) [RInterrupted] (str "000003.log"))
      25%nat true true) as (k & r' & Hread & Hd & _).
    + repeat constructor.
    + reflexivity.
    + exists w, k, r'. split; [exact Hw|]. split; [exact Hread|exact Hd].
Defined.

(** Three records, read from the offset of the second. *)
Definition demo_logged : bytes :=
  match (let _ := WritableFile_append demo_strerror in write_all 1 (LogWriter_make (MkWritableFile [] [] [] (str "000003.log")) 0) demo_log) with
  | Some w => written (dest w) ++ wbuf (dest w)
  | None => []
  end.

Lemma reader_total_witness :
  let _ := SequentialFile_read demo_strerror in
  exists r', ReadRecord 0 (LogReader_make (MkSequentialFile demo_logged [RInterrupted] (str "x")) true true 5)
      = Some (true, [], r') /\ GetLastRecordOffset r' = 12 /\ record_starts demo_logged 12 [].
Proof.
  destruct (reader_total (HG := SequentialFile_safe demo_strerror) 0
    (LogReader_make (MkSequentialFile demo_logged [RInterrupted] (str "x")) true true 5)) as (more & record & r' & Heq & _ & Hm).
  - discriminate.
  - match type of Heq with ?run = _ =>
      assert (option_map (fun x => (x.1.1, x.1.2, GetLastRecordOffset x.2)) run = Some (true, [], 12)) as Hrun by (vm_compute; reflexivity) end.
    rewrite Heq in Hrun. cbn [option_map fst snd] in Hrun. injection Hrun as -> -> Hlast.
    destruct (Hm eq_refl) as (_ & _ & Hloc). exists r'. split; [exact Heq|]. split; [exact Hlast|]. rewrite <- Hlast.
    apply (Hloc demo_logged). apply located_make; [reflexivity|vm_compute; reflexivity|vm_compute; reflexivity].
Defined.
