(* ===== verification/DbFormat.v ===== *)
(** Comparators and internal keys (redisdb/db/dbformat.h and dbformat.cc).

    An internal key is a user key followed by eight bytes holding
    [sequence << 8 | type].  The sign of an [int] comparison result is a
    [comparison]. *)
From S2P Require Import Prelude Coding.

(** ** Comparators *)

(** [class Comparator]: its virtual operations. *)
Record Comparator := MkComparator {
  Name : bytes;
  Compare : bytes -> bytes -> comparison;
  FindShortestSeparator : bytes -> bytes -> bytes;   (* new value of *start *)
  FindShortSuccessor : bytes -> bytes;               (* new value of *key *)
}.

(** [Comparator::Equal]. *)
Definition Equal (c : Comparator) (a b : bytes) : bool :=
  match Compare c a b with Eq => true | _ => false end.

(** What the users of a comparator rely on, for the keys in [dom]: a total
    preorder, a separator in [start, limit) and a successor at or after the key.
    [separator_same] is what [InternalKeyComparator] needs on top of the comments
    of the class, since it calls the separator on user keys that may be equal. *)
Class ComparatorOk (c : Comparator) (dom : bytes -> Prop) : Prop := {
  Compare_opp a b : dom a -> dom b -> Compare c a b = CompOpp (Compare c b a);
  Compare_lt_trans a b d : dom a -> dom b -> dom d ->
    Compare c a b = Lt -> Compare c b d = Lt -> Compare c a d = Lt;
  Compare_eq_l a b d : dom a -> dom b -> dom d ->
    Compare c a b = Eq -> Compare c a d = Compare c b d;
  separator_ok start limit : dom start -> dom limit -> Compare c start limit = Lt ->
    let sep := FindShortestSeparator c start limit in
    dom sep /\ Compare c start sep <> Gt /\ Compare c sep limit = Lt;
  separator_same start limit : dom start -> dom limit -> Compare c start limit = Eq ->
    FindShortestSeparator c start limit = start;
  successor_ok key : dom key ->
    let succ := FindShortSuccessor c key in
    dom succ /\ Compare c key succ <> Gt;
}.

(** [std::string_view::compare]. *)
Fixpoint compare (a b : bytes) : comparison :=
  match a, b with
  | [], [] => Eq
  | [], _ :: _ => Lt
  | _ :: _, [] => Gt
  | x :: a', y :: b' =>
      match Z.compare (b2z x) (b2z y) with
      | Eq => compare a' b'
      | r => r
      end
  end.

(** The loop [while (i < minLength && a[i] == b[i]) i++]. *)
Fixpoint common_prefix (a b : bytes) : nat :=
  match a, b with
  | x :: a', y :: b' => if decide (x = y) then S (common_prefix a' b') else O
  | _, _ => O
  end.

(** [BytewiseComparatorImpl::FindShortestSeparator]. *)
Definition Bytewise_FindShortestSeparator (start limit : bytes) : bytes :=
  let minLength := (if length start <? length limit then length start else length limit)%nat in
  let diffIndex := common_prefix start limit in
  if (minLength <=? diffIndex)%nat then start
  else
    let diffByte := byte_at start diffIndex in
    if (diffByte <? 255) && (diffByte + 1 <? byte_at limit diffIndex) then
      take (diffIndex + 1) (<[diffIndex := z2b (diffByte + 1)]> start)
    else start.

(** [BytewiseComparatorImpl::FindShortSuccessor]: the scan for a byte that can be
    incremented. *)
Fixpoint Bytewise_FindShortSuccessor (key : bytes) : bytes :=
  match key with
  | [] => []
  | byte :: key' =>
      if decide (b2z byte = 255) then byte :: Bytewise_FindShortSuccessor key'
      else [z2b (b2z byte + 1)]
  end.

Definition BytewiseComparatorImpl : Comparator :=
  MkComparator (str "leveldb.BytewiseComparator") compare
    Bytewise_FindShortestSeparator Bytewise_FindShortSuccessor.

(** ** Internal keys *)

Inductive ValueType := kTypeDeletion | kTypeValue.

#[export] Instance ValueType_eq_dec : EqDecision ValueType.
Proof. solve_decision. Defined.

Definition type_value (t : ValueType) : Z :=
  match t with kTypeDeletion => 0 | kTypeValue => 1 end.

Definition kValueTypeForSeek : ValueType := kTypeValue.
Definition kMaxSequenceNumber : Z := 2 ^ 56 - 1.

Record ParsedInternalKey := MkParsedInternalKey {
  userkey : bytes;
  sequence : Z;
  type : ValueType;
}.

Definition InternalKeyEncodingLength (key : ParsedInternalKey) : Z :=
  Z.of_nat (length (userkey key)) + 8.

(** REQUIRES: [seq <= kMaxSequenceNumber]. *)
Definition packSequenceAndType (seq : Z) (t : ValueType) : Z :=
  Z.lor (u64 (Z.shiftl seq 8)) (type_value t).

Definition AppendInternalKey (result : bytes) (key : ParsedInternalKey) : bytes :=
  PutFixed64 (result ++ userkey key) (packSequenceAndType (sequence key) (type key)).

(** [None] is the result [false]. *)
Definition ParseInternalKey (internalKey : bytes) : option ParsedInternalKey :=
  let n := length internalKey in
  if (n <? 8)%nat then None
  else
    let num := DecodeFixed64 (drop (n - 8) internalKey) in
    let c := Z.land num 255 in
    let mk t := Some (MkParsedInternalKey (take (n - 8) internalKey) (Z.shiftr num 8) t) in
    if c =? type_value kTypeDeletion then mk kTypeDeletion
    else if c =? type_value kTypeValue then mk kTypeValue
    else None.

(** REQUIRES: [internalKey.size() >= 8]. *)
Definition ExtractUserKey (internalKey : bytes) : bytes :=
  take (length internalKey - 8) internalKey.

(** The last eight bytes of an internal key. *)
Definition ExtractTag (internalKey : bytes) : Z :=
  DecodeFixed64 (drop (length internalKey - 8) internalKey).

(** [class InternalKeyComparator], for the user comparator [c]. *)
Definition Internal_Compare (c : Comparator) (akey bkey : bytes) : comparison :=
  let r := Compare c (ExtractUserKey akey) (ExtractUserKey bkey) in
  match r with
  | Eq =>
      let anum := ExtractTag akey in
      let bnum := ExtractTag bkey in
      if bnum <? anum then Lt else if anum <? bnum then Gt else r
  | _ => r
  end.

Definition Internal_FindShortestSeparator (c : Comparator) (start limit : bytes) : bytes :=
  let userstart := ExtractUserKey start in
  let userlimit := ExtractUserKey limit in
  let tmp := FindShortestSeparator c userstart userlimit in
  if (length tmp <? length userstart)%nat &&
     match Compare c userstart tmp with Lt => true | _ => false end
  then PutFixed64 tmp (packSequenceAndType kMaxSequenceNumber kValueTypeForSeek)
  else start.

Definition Internal_FindShortSuccessor (c : Comparator) (key : bytes) : bytes :=
  let userkey := ExtractUserKey key in
  let tmp := FindShortSuccessor c userkey in
  if (length tmp <? length userkey)%nat &&
     match Compare c userkey tmp with Lt => true | _ => false end
  then PutFixed64 tmp (packSequenceAndType kMaxSequenceNumber kValueTypeForSeek)
  else key.

Definition InternalKeyComparator (c : Comparator) : Comparator :=
  MkComparator (str "leveldb.InternalKeyComparator") (Internal_Compare c)
    (Internal_FindShortestSeparator c) (Internal_FindShortSuccessor c).

(** ** [class InternalKey]

    An internal key as a value: its bytes, empty when it is not set.  [Encode] asserts
    that it is set. *)
Definition InternalKey := bytes.

Definition InternalKey_make (userkey : bytes) (s : Z) (t : ValueType) : InternalKey :=
  AppendInternalKey [] (MkParsedInternalKey userkey s t).

Definition InternalKey_Encode (k : InternalKey) : option bytes :=
  match k with [] => None | _ => Some k end.

(** The number of levels of the tree, and the last one a memtable is pushed to. *)
Definition kNumLevels : Z := 7.
Definition kMaxMemCompactLevel : Z := 2.
Definition kL0_CompactionTrigger : Z := 4.

(** ** Lookup keys

    [class LookupKey]: one buffer, [start] at its first byte, [kstart] at the
    user key and [end] past its last byte. *)
Record LookupKey := MkLookupKey { space : bytes; kstart : nat }.

Definition LookupKey_make (userkey : bytes) (s : Z) : LookupKey :=
  let usize := Z.of_nat (length userkey) in
  let klength := EncodeVarint32 (u32 (usize + 8)) in
  MkLookupKey (klength ++ userkey ++ EncodeFixed64 (packSequenceAndType s kValueTypeForSeek))
              (length klength).

Definition MemtableKey (k : LookupKey) : bytes := space k.
Definition LookupKey_InternalKey (k : LookupKey) : bytes := drop (kstart k) (space k).
Definition UserKey (k : LookupKey) : bytes :=
  take (length (space k) - kstart k - 8) (drop (kstart k) (space k)).

(** ** The byte-wise order *)

Lemma compare_refl a : compare a a = Eq.
Proof. induction a as [|x a IH]; cbn; [done|]. by rewrite Z.compare_refl. Qed.

Lemma compare_eq a b : compare a b = Eq <-> a = b.
Proof.
  split; [|intros ->; apply compare_refl].
  revert b. induction a as [|x a IH]; intros [|y b]; cbn; try done.
  destruct (Z.compare_spec (b2z x) (b2z y)) as [H|H|H]; try done.
  apply b2z_inj in H as ->. intros H. f_equal. by apply IH.
Qed.

Lemma compare_opp a b : compare a b = CompOpp (compare b a).
Proof.
  revert b. induction a as [|x a IH]; intros [|y b]; cbn; try done.
  rewrite (Z.compare_antisym (b2z y)). destruct (b2z y ?= b2z x); cbn; auto.
Qed.

Lemma compare_lt_trans a b d : compare a b = Lt -> compare b d = Lt -> compare a d = Lt.
Proof.
  revert b d. induction a as [|x a IH]; intros [|y b] [|z d]; cbn; try done.
  destruct (Z.compare_spec (b2z x) (b2z y)), (Z.compare_spec (b2z y) (b2z z));
    intros; try done; destruct (Z.compare_spec (b2z x) (b2z z)); try done; try lia; eauto.
Qed.

Lemma compare_prefix p a b : compare (p ++ a) (p ++ b) = compare a b.
Proof. induction p as [|x p IH]; cbn; [done|]. by rewrite Z.compare_refl. Qed.

Lemma compare_heads x y a b :
  b2z x < b2z y -> compare (x :: a) (y :: b) = Lt.
Proof. intros H. cbn. by rewrite (proj2 (Z.compare_lt_iff _ _) H). Qed.

Lemma common_prefix_spec a b :
  exists p a' b', a = p ++ a' /\ b = p ++ b' /\ length p = common_prefix a b /\
    (forall x y a'' b'', a' = x :: a'' -> b' = y :: b'' -> x <> y).
Proof.
  revert b. induction a as [|x a IH]; intros b.
  { exists [], [], b. split_and!; [done..|]. by intros. }
  destruct b as [|y b].
  { exists [], (x :: a), []. split_and!; [done..|]. by intros. }
  cbn. destruct (decide (x = y)) as [->|Hne].
  - destruct (IH b) as (p & a' & b' & -> & -> & Hl & Hh).
    exists (y :: p), a', b'. cbn. rewrite Hl. split_and!; done.
  - exists [], (x :: a), (y :: b). split_and!; [done..|]. by intros; simplify_eq.
Qed.

Lemma common_prefix_le a b :
  (common_prefix a b <= length a)%nat /\ (common_prefix a b <= length b)%nat.
Proof.
  destruct (common_prefix_spec a b) as (p & a' & b' & Ha & Hb & <- & _).
  subst. lens. lia.
Qed.

Lemma common_prefix_take a b : take (common_prefix a b) a = take (common_prefix a b) b.
Proof.
  destruct (common_prefix_spec a b) as (p & a' & b' & Ha & Hb & <- & _).
  rewrite Ha, Hb. by rewrite !take_app_length.
Qed.

Lemma byte_at_app p x a : byte_at (p ++ x :: a) (length p) = b2z x.
Proof. unfold byte_at. by rewrite list_lookup_middle. Qed.

(** What the separator is when it differs from [start]: the common prefix and one
    byte strictly between the bytes that follow it. *)
Lemma Bytewise_separator_cases start limit :
  let sep := Bytewise_FindShortestSeparator start limit in
  sep = start \/
  exists p x y s l, start = p ++ x :: s /\ limit = p ++ y :: l /\
    b2z x + 1 < b2z y /\ sep = p ++ [z2b (b2z x + 1)].
Proof.
  unfold Bytewise_FindShortestSeparator. cbv zeta.
  destruct (common_prefix_spec start limit) as (p & s & l & -> & -> & <- & Hne).
  destruct (_ <=? _)%nat eqn:Hmin; [by left|]. apply Nat.leb_gt in Hmin.
  destruct s as [|x s]; [exfalso; revert Hmin; case Nat.ltb_spec; intros; lens; lia|].
  destruct l as [|y l]; [exfalso; revert Hmin; case Nat.ltb_spec; intros; lens; lia|].
  rewrite !byte_at_app. destruct (_ && _) eqn:E; [|by left].
  apply andb_true_iff in E as [_ E]. apply Z.ltb_lt in E. right.
  exists p, x, y, s, l. split_and!; [done..|].
  rewrite insert_app_r_alt by done. rewrite Nat.sub_diag. cbn.
  rewrite (app_assoc p [z2b (b2z x + 1)] s : p ++ _ :: s = _).
  by rewrite take_app_exact by (lens; lia).
Qed.

Lemma Bytewise_separator_refl key : Bytewise_FindShortestSeparator key key = key.
Proof.
  destruct (Bytewise_separator_cases key key) as [?|(p & x & y & s & l & Hs & Hl & ? & _)]; [done|].
  rewrite Hs in Hl. simplify_list_eq. lia.
Qed.

Lemma Bytewise_separator_ok start limit :
  compare start limit = Lt ->
  let sep := Bytewise_FindShortestSeparator start limit in
  compare start sep <> Gt /\ compare sep limit = Lt /\ (length sep <= length start)%nat.
Proof.
  intros Hlt. cbv zeta.
  destruct (Bytewise_separator_cases start limit) as [->|(p & x & y & s & l & -> & -> & Hxy & ->)].
  { rewrite compare_refl. done. }
  byte_ranges. rewrite !compare_prefix. split_and!.
  - rewrite compare_heads; [done|]. rewrite b2z_z2b_small; lia.
  - apply compare_heads. rewrite b2z_z2b_small; lia.
  - lens. lia.
Qed.

Lemma Bytewise_successor_ok key :
  let succ := Bytewise_FindShortSuccessor key in
  compare key succ <> Gt /\ (length succ <= length key)%nat.
Proof.
  induction key as [|b key IH]; [done|]. cbn [Bytewise_FindShortSuccessor].
  destruct (decide (b2z b = 255)).
  - destruct IH as [IH1 IH2]. split; [|cbn; lia].
    by rewrite (compare_prefix [b] key _ : compare (b :: key) (b :: _) = _).
  - split; [|cbn; lia]. pose proof (b2z_range b).
    rewrite compare_heads; [done|]. rewrite b2z_z2b_small; lia.
Qed.

#[export] Instance Bytewise_ok : ComparatorOk BytewiseComparatorImpl (fun _ => True).
Proof.
  constructor; cbn; intros.
  - apply compare_opp.
  - by apply (compare_lt_trans a b d).
  - by apply compare_eq in H2 as ->.
  - pose proof (Bytewise_separator_ok start limit H1). naive_solver.
  - apply compare_eq in H1 as ->. apply Bytewise_separator_refl.
  - pose proof (Bytewise_successor_ok key). naive_solver.
Qed.

(** ** Consequences of the comparator laws *)

Section ComparatorFacts.
Context {c : Comparator} {dom : bytes -> Prop} {Hok : ComparatorOk c dom}.
Implicit Types a b d : bytes.

Lemma Compare_refl a : dom a -> Compare c a a = Eq.
Proof. intros Ha. pose proof (Compare_opp a a Ha Ha). by destruct (Compare c a a). Qed.

Lemma Compare_gt_lt a b : dom a -> dom b -> Compare c a b = Gt <-> Compare c b a = Lt.
Proof. intros Ha Hb. rewrite (Compare_opp a b Ha Hb). by destruct (Compare c b a). Qed.

Lemma Compare_eq_sym a b : dom a -> dom b -> Compare c a b = Eq -> Compare c b a = Eq.
Proof. intros Ha Hb H. by rewrite (Compare_opp b a Hb Ha), H. Qed.

Lemma Compare_eq_r a b d :
  dom a -> dom b -> dom d -> Compare c a b = Eq -> Compare c d a = Compare c d b.
Proof.
  intros Ha Hb Hd H. rewrite (Compare_opp d a), (Compare_opp d b) by done.
  by rewrite (Compare_eq_l a b d).
Qed.

Lemma Compare_le_lt_trans a b d :
  dom a -> dom b -> dom d -> Compare c a b <> Gt -> Compare c b d = Lt -> Compare c a d = Lt.
Proof.
  intros Ha Hb Hd H1 H2. destruct (Compare c a b) eqn:E; [|by apply (Compare_lt_trans a b d)|done].
  by rewrite (Compare_eq_l a b d).
Qed.

Lemma Compare_lt_le_trans a b d :
  dom a -> dom b -> dom d -> Compare c a b = Lt -> Compare c b d <> Gt -> Compare c a d = Lt.
Proof.
  intros Ha Hb Hd H1 H2. destruct (Compare c b d) eqn:E; [|by apply (Compare_lt_trans a b d)|done].
  by rewrite <- (Compare_eq_r b d a).
Qed.

Lemma Compare_le_trans a b d :
  dom a -> dom b -> dom d -> Compare c a b <> Gt -> Compare c b d <> Gt -> Compare c a d <> Gt.
Proof.
  intros Ha Hb Hd H1 H2. destruct (Compare c b d) eqn:E; [| |done].
  - by rewrite <- (Compare_eq_r b d a).
  - by rewrite (Compare_le_lt_trans a b d).
Qed.
End ComparatorFacts.

(** ** Internal keys: facts *)

Lemma packSequenceAndType_value seq t :
  0 <= seq <= kMaxSequenceNumber -> packSequenceAndType seq t = type_value t + seq * 2 ^ 8.
Proof.
  unfold kMaxSequenceNumber. intros H. unfold packSequenceAndType.
  rewrite u64_small by (rewrite Z.shiftl_mul_pow2 by done; lia).
  rewrite Z.lor_comm. apply lor_shiftl_add; [done|]. by destruct t.
Qed.

Lemma packSequenceAndType_range seq t :
  0 <= seq <= kMaxSequenceNumber -> is_u64 (packSequenceAndType seq t).
Proof.
  intros H. rewrite packSequenceAndType_value by done. unfold kMaxSequenceNumber in H.
  destruct t; cbn [type_value]; lia.
Qed.

Lemma length_AppendInternalKey k :
  length (AppendInternalKey [] k) = (length (userkey k) + 8)%nat.
Proof. unfold AppendInternalKey, PutFixed64. lens. lia. Qed.

Lemma ExtractUserKey_app u t : length t = 8%nat -> ExtractUserKey (u ++ t) = u.
Proof. intros Ht. unfold ExtractUserKey. apply take_app_exact. lens. lia. Qed.

Lemma ExtractTag_app u t : length t = 8%nat -> ExtractTag (u ++ t) = DecodeFixed64 t.
Proof. intros Ht. unfold ExtractTag. rewrite drop_app_exact; [done|]. lens. lia. Qed.

Lemma ExtractUserKey_Append k : ExtractUserKey (AppendInternalKey [] k) = userkey k.
Proof. by apply ExtractUserKey_app. Qed.

Lemma ExtractTag_Append k :
  0 <= sequence k <= kMaxSequenceNumber ->
  ExtractTag (AppendInternalKey [] k) = packSequenceAndType (sequence k) (type k).
Proof.
  intros Hk. unfold AppendInternalKey, PutFixed64. rewrite ExtractTag_app by done.
  pose proof (DecodeFixed64_app (packSequenceAndType (sequence k) (type k)) []) as H.
  rewrite app_nil_r in H. rewrite H. by apply u64_small, packSequenceAndType_range.
Qed.

(** An internal key is determined by its user key and its tag. *)
Lemma internal_key_split k :
  (8 <= length k)%nat -> k = ExtractUserKey k ++ EncodeFixed64 (ExtractTag k).
Proof.
  intros Hk. unfold ExtractUserKey, ExtractTag.
  rewrite EncodeFixed64_DecodeFixed64 by (lens; lia). symmetry. apply take_drop.
Qed.

Lemma ParseInternalKey_Append k :
  0 <= sequence k <= kMaxSequenceNumber -> ParseInternalKey (AppendInternalKey [] k) = Some k.
Proof.
  intros Hk. unfold ParseInternalKey. cbv zeta.
  rewrite length_AppendInternalKey, (proj2 (Nat.ltb_ge _ _)) by lia.
  pose proof (ExtractTag_Append k Hk) as Htag. pose proof (ExtractUserKey_Append k) as Hu.
  unfold ExtractTag, ExtractUserKey in Htag, Hu. rewrite length_AppendInternalKey in Htag, Hu.
  rewrite Htag, Hu, packSequenceAndType_value by done.
  rewrite Z.shiftr_div_pow2, Z.div_add by done. change 255 with (Z.ones 8).
  rewrite Z.land_ones, Z.mod_add by done. by destruct k as [u s []].
Qed.

Lemma ParseInternalKey_Some ik k :
  ParseInternalKey ik = Some k ->
  (8 <= length ik)%nat /\ userkey k = ExtractUserKey ik /\
  ExtractTag ik = type_value (type k) + sequence k * 2 ^ 8 /\
  0 <= sequence k <= kMaxSequenceNumber.
Proof.
  unfold ParseInternalKey. cbv zeta. destruct (_ <? _)%nat eqn:Hn; [done|].
  apply Nat.ltb_ge in Hn. fold (ExtractTag ik) (ExtractUserKey ik).
  pose proof (DecodeFixed64_range (drop (length ik - 8) ik)) as Hr. fold (ExtractTag ik) in Hr.
  change 255 with (Z.ones 8). rewrite Z.land_ones, Z.shiftr_div_pow2 by done. intros H.
  pose proof (Z.div_mod (ExtractTag ik) (2 ^ 8) ltac:(done)) as Hdm.
  assert (0 <= ExtractTag ik / 2 ^ 8 <= kMaxSequenceNumber).
  { unfold kMaxSequenceNumber. split; [apply Z.div_pos; lia|].
    apply Z.lt_succ_r, Z.div_lt_upper_bound; lia. }
  repeat case_match; simplify_eq; cbn [userkey sequence type type_value] in *;
    rewrite ?Z.eqb_eq in *; split_and!; done || lia.
Qed.

Lemma Append_ParseInternalKey ik k :
  ParseInternalKey ik = Some k -> AppendInternalKey [] k = ik.
Proof.
  intros H. apply ParseInternalKey_Some in H as (Hl & Hu & Ht & Hs).
  rewrite (internal_key_split ik Hl). unfold AppendInternalKey, PutFixed64.
  rewrite Hu. cbn [app]. do 2 f_equal. by rewrite packSequenceAndType_value, Ht.
Qed.

(** ** The internal order *)

Abbreviation internal_dom := (fun k : bytes => (8 <= length k)%nat).

Lemma Internal_Compare_alt c a b :
  Internal_Compare c a b =
    match Compare c (ExtractUserKey a) (ExtractUserKey b) with
    | Eq => Z.compare (ExtractTag b) (ExtractTag a)
    | r => r
    end.
Proof.
  unfold Internal_Compare. destruct (Compare c _ _); try done.
  destruct (Z.ltb_spec (ExtractTag b) (ExtractTag a)) as [H|H].
  { symmetry. by apply Z.compare_lt_iff. }
  destruct (Z.ltb_spec (ExtractTag a) (ExtractTag b)) as [H'|H'].
  { symmetry. by apply Z.compare_gt_iff. }
  symmetry. apply Z.compare_eq_iff. lia.
Qed.

Section InternalOrder.
Context {c : Comparator} {Hok : ComparatorOk c (fun _ => True)}.

(** The tag of a shortened key: the largest, so it sorts before every entry of
    its user key. *)
Lemma length_PutFixed64 k v : length (PutFixed64 k v) = (length k + 8)%nat.
Proof. unfold PutFixed64. lens. lia. Qed.

Lemma Internal_Compare_put a u v :
  Compare c (ExtractUserKey a) u = Lt -> Internal_Compare c a (PutFixed64 u v) = Lt.
Proof.
  intros H. rewrite Internal_Compare_alt. unfold PutFixed64.
  by rewrite ExtractUserKey_app, H.
Qed.

Lemma Internal_put_Compare a u v :
  Compare c u (ExtractUserKey a) = Lt -> Internal_Compare c (PutFixed64 u v) a = Lt.
Proof.
  intros H. rewrite Internal_Compare_alt. unfold PutFixed64.
  by rewrite ExtractUserKey_app, H.
Qed.

Lemma Internal_lt_trans a b d :
  Internal_Compare c a b = Lt -> Internal_Compare c b d = Lt -> Internal_Compare c a d = Lt.
Proof.
  rewrite !Internal_Compare_alt.
  set (u := ExtractUserKey a). set (v := ExtractUserKey b). set (w := ExtractUserKey d).
  destruct (Compare c u v) eqn:E1; try done.
  - rewrite (Compare_eq_l u v w) by done. destruct (Compare c v w); try done.
    rewrite !Z.compare_lt_iff. lia.
  - intros _. destruct (Compare c v w) eqn:E2; try done; intros _.
    + by rewrite <- (Compare_eq_r v w u), E1.
    + by rewrite (Compare_lt_trans u v w).
Qed.

Lemma Internal_eq_l a b d :
  Internal_Compare c a b = Eq -> Internal_Compare c a d = Internal_Compare c b d.
Proof.
  rewrite !Internal_Compare_alt.
  set (u := ExtractUserKey a). set (v := ExtractUserKey b). set (w := ExtractUserKey d).
  destruct (Compare c u v) eqn:E1; try done. rewrite Z.compare_eq_iff. intros Ht.
  by rewrite (Compare_eq_l u v w), Ht.
Qed.

Lemma Internal_opp a b : Internal_Compare c a b = CompOpp (Internal_Compare c b a).
Proof.
  rewrite !Internal_Compare_alt, (Compare_opp (ExtractUserKey a)) by done.
  destruct (Compare c _ _); cbn [CompOpp]; try done. apply Z.compare_antisym.
Qed.

Lemma Internal_refl a : Internal_Compare c a a = Eq.
Proof. pose proof (Internal_opp a a). by destruct (Internal_Compare c a a). Qed.

Lemma Internal_separator_ok start limit :
  internal_dom start -> Internal_Compare c start limit = Lt ->
  let sep := Internal_FindShortestSeparator c start limit in
  internal_dom sep /\ Internal_Compare c start sep <> Gt /\
  Internal_Compare c sep limit = Lt /\ (length sep <= length start)%nat.
Proof.
  intros Hs Hlt. cbv zeta. unfold Internal_FindShortestSeparator. cbv zeta.
  set (tmp := FindShortestSeparator c _ _).
  destruct (_ && _) eqn:E; [|by rewrite Internal_refl].
  apply andb_true_iff in E as [Hlen%Nat.ltb_lt Hcmp].
  destruct (Compare c (ExtractUserKey start) tmp) eqn:Htmp; try done.
  rewrite length_PutFixed64. split_and!.
  - lia.
  - by rewrite Internal_Compare_put.
  - apply Internal_put_Compare. subst tmp.
    rewrite Internal_Compare_alt in Hlt.
    destruct (Compare c (ExtractUserKey start) (ExtractUserKey limit)) eqn:E; try done.
    + rewrite separator_same in Htmp by done. by rewrite Compare_refl in Htmp.
    + by apply separator_ok.
  - unfold ExtractUserKey in Hlen. rewrite length_take in Hlen. lia.
Qed.

Lemma Internal_successor_ok key :
  internal_dom key ->
  let succ := Internal_FindShortSuccessor c key in
  internal_dom succ /\ Internal_Compare c key succ <> Gt /\ (length succ <= length key)%nat.
Proof.
  intros Hk. cbv zeta. unfold Internal_FindShortSuccessor. cbv zeta.
  set (tmp := FindShortSuccessor c _).
  destruct (_ && _) eqn:E; [|by rewrite Internal_refl].
  apply andb_true_iff in E as [Hlen%Nat.ltb_lt Hcmp].
  destruct (Compare c (ExtractUserKey key) tmp) eqn:Htmp; try done.
  rewrite length_PutFixed64. split_and!.
  - lia.
  - by rewrite Internal_Compare_put.
  - unfold ExtractUserKey in Hlen. rewrite length_take in Hlen. lia.
Qed.

Lemma Internal_separator_same start limit :
  Internal_Compare c start limit = Eq -> Internal_FindShortestSeparator c start limit = start.
Proof.
  rewrite Internal_Compare_alt. intros H. unfold Internal_FindShortestSeparator. cbv zeta.
  destruct (Compare c (ExtractUserKey start) (ExtractUserKey limit)) eqn:E; try done.
  rewrite separator_same by done. by rewrite Nat.ltb_irrefl.
Qed.

#[export] Instance InternalKeyComparator_ok :
  ComparatorOk (InternalKeyComparator c) internal_dom.
Proof.
  constructor; cbn; intros.
  - apply Internal_opp.
  - by apply (Internal_lt_trans a b d).
  - by apply Internal_eq_l.
  - pose proof (Internal_separator_ok start limit). naive_solver.
  - by apply Internal_separator_same.
  - pose proof (Internal_successor_ok key). naive_solver.
Qed.
End InternalOrder.

(** The order of two entries: by user key, then newest first. *)
Definition entry_compare (c : Comparator) (a b : ParsedInternalKey) : comparison :=
  match Compare c (userkey a) (userkey b) with
  | Eq =>
      match Z.compare (sequence b) (sequence a) with
      | Eq => Z.compare (type_value (type b)) (type_value (type a))
      | r => r
      end
  | r => r
  end.

Lemma Internal_Compare_Append c a b :
  0 <= sequence a <= kMaxSequenceNumber -> 0 <= sequence b <= kMaxSequenceNumber ->
  Internal_Compare c (AppendInternalKey [] a) (AppendInternalKey [] b) = entry_compare c a b.
Proof.
  intros Ha Hb. rewrite Internal_Compare_alt, !ExtractUserKey_Append, !ExtractTag_Append by done.
  unfold entry_compare. destruct (Compare c _ _); try done.
  rewrite !packSequenceAndType_value by done.
  assert (0 <= type_value (type a) <= 1) by (destruct (type a); done).
  assert (0 <= type_value (type b) <= 1) by (destruct (type b); done).
  destruct (Z.compare_spec (sequence b) (sequence a)) as [He|Hl|Hg].
  - rewrite He. by rewrite !(Z.add_comm _ (sequence a * _)), Z.add_compare_mono_l.
  - apply Z.compare_lt_iff. lia.
  - apply Z.compare_gt_iff. lia.
Qed.

(** The key [LookupKey] builds, and its three views. *)
Lemma LookupKey_views u s :
  is_u32 (Z.of_nat (length u) + 8) ->
  let k := LookupKey_make u s in
  let ik := AppendInternalKey [] (MkParsedInternalKey u s kValueTypeForSeek) in
  MemtableKey k = PutLengthPrefixedSlice [] ik /\
  LookupKey_InternalKey k = ik /\ UserKey k = u.
Proof.
  intros Hu. cbv zeta.
  unfold MemtableKey, LookupKey_InternalKey, UserKey, LookupKey_make. cbn [space kstart].
  unfold PutLengthPrefixedSlice, PutVarint32. rewrite length_AppendInternalKey.
  unfold AppendInternalKey, PutFixed64. cbn [userkey sequence type app].
  rewrite drop_app_length. split_and!.
  - do 2 f_equal. f_equal. lia.
  - done.
  - apply take_app_exact. lens. lia.
Qed.

(** ** Properties *)

(** an internal key parses back to the user key, sequence number and type it
    was built from; and [ParseInternalKey] accepts exactly the strings
    [AppendInternalKey] builds, so anything shorter than eight bytes or with
    another type byte is rejected. *)
Theorem internal_key_roundtrip k :
  0 <= sequence k <= kMaxSequenceNumber ->
  ParseInternalKey (AppendInternalKey [] k) = Some k /\
  Z.of_nat (length (AppendInternalKey [] k)) = InternalKeyEncodingLength k /\
  (forall ik k', ParseInternalKey ik = Some k' <->
     0 <= sequence k' <= kMaxSequenceNumber /\ ik = AppendInternalKey [] k').
Proof.
  intros Hk. split_and!.
  - by apply ParseInternalKey_Append.
  - rewrite length_AppendInternalKey. unfold InternalKeyEncodingLength. lia.
  - intros ik k'. split.
    + intros H. split; [by destruct (ParseInternalKey_Some ik k' H) as (?&?&?&?)|].
      by rewrite (Append_ParseInternalKey ik k' H).
    + intros [Hs ->]. by apply ParseInternalKey_Append.
Qed.

Lemma internal_key_roundtrip_witness :
  ParseInternalKey (AppendInternalKey [] (MkParsedInternalKey (str "foo") 42 kTypeDeletion))
  = Some (MkParsedInternalKey (str "foo") 42 kTypeDeletion).
Proof. refine (proj1 (internal_key_roundtrip _ _)). unfold kMaxSequenceNumber; cbn; lia. Defined.

(** C36: [InternalKeyComparator] orders entries by user key under the user's
    comparator, then by decreasing sequence number, then by decreasing type, and
    over any lawful user comparator it is a total order on keys of eight bytes or
    more whose separators and successors meet the same contract. *)
Theorem internal_order c :
  ComparatorOk c (fun _ => True) ->
  ComparatorOk (InternalKeyComparator c) internal_dom /\
  (forall a b, 0 <= sequence a <= kMaxSequenceNumber -> 0 <= sequence b <= kMaxSequenceNumber ->
     Compare (InternalKeyComparator c) (AppendInternalKey [] a) (AppendInternalKey [] b)
     = entry_compare c a b).
Proof.
  intros Hc. split; [apply InternalKeyComparator_ok|]. intros. by apply Internal_Compare_Append.
Qed.

Lemma internal_order_witness :
  Compare (InternalKeyComparator BytewiseComparatorImpl)
    (AppendInternalKey [] (MkParsedInternalKey (str "k") 9 kTypeValue))
    (AppendInternalKey [] (MkParsedInternalKey (str "k") 8 kTypeValue)) = Lt.
Proof.
  rewrite (proj2 (internal_order _ Bytewise_ok)); [reflexivity|..];
    unfold kMaxSequenceNumber; cbn; lia.
Defined.

(** C39: for two internal keys in order, [FindShortestSeparator] returns a key in
    [start, limit) no longer than [start], and [FindShortSuccessor] a key at or
    after its argument and no longer: the two asserts of the source hold. *)
Theorem internal_separator c start limit :
  ComparatorOk c (fun _ => True) ->
  internal_dom start -> Internal_Compare c start limit = Lt ->
  let sep := FindShortestSeparator (InternalKeyComparator c) start limit in
  let succ := FindShortSuccessor (InternalKeyComparator c) start in
  (Internal_Compare c start sep <> Gt /\ Internal_Compare c sep limit = Lt /\
   (length sep <= length start)%nat) /\
  (Internal_Compare c start succ <> Gt /\ (length succ <= length start)%nat) /\
  (sep <> start -> Internal_Compare c start sep = Lt) /\
  (succ <> start -> Internal_Compare c start succ = Lt).
Proof.
  intros Hc Hs Hlt sep succ.
  pose proof (Internal_separator_ok start limit Hs Hlt) as H1.
  pose proof (Internal_successor_ok start Hs) as H2. cbv zeta in H1, H2.
  subst sep succ. cbn [FindShortestSeparator FindShortSuccessor InternalKeyComparator].
  split; [tauto|]. split; [tauto|].
  unfold Internal_FindShortestSeparator, Internal_FindShortSuccessor. cbv zeta.
  split; destruct (_ && _) eqn:E; try done; intros _; apply Internal_Compare_put;
    apply andb_true_iff in E as [_ E]; by destruct (Compare c _ _).
Qed.

Lemma internal_separator_witness :
  let start := AppendInternalKey [] (MkParsedInternalKey (str "abcdefghij") 7 kTypeValue) in
  let limit := AppendInternalKey [] (MkParsedInternalKey (str "abzz") 9 kTypeValue) in
  let sep := FindShortestSeparator (InternalKeyComparator BytewiseComparatorImpl) start limit in
  ExtractUserKey sep = str "abd" /\
  Internal_Compare BytewiseComparatorImpl sep limit = Lt.
Proof.
  split; [vm_compute; reflexivity|].
  refine (proj1 (proj2 (proj1 (internal_separator _ _ _ Bytewise_ok _ _)))).
  - vm_compute. lia.
  - vm_compute. reflexivity.
Defined.
