(* ===== verification/Block.v ===== *)
(** Table blocks (redisdb/db/blockbuilder.h, blockbuilder.cc, block.h, block.cc).

    A block is a run of prefix-compressed entries followed by an array of restart
    points.  The refinement theorems say that a block built from a sorted list of
    entries iterates over exactly that list, forwards, backwards and by [Seek]. *)
From Stdlib Require Import Sorted.
From stdpp Require Import sorting.
From S2P Require Import Prelude Coding Status DbFormat.
Local Open Scope Z_scope.

Abbreviation len l := (Z.of_nat (length l)).

(** ** [BlockBuilder] *)

Section BlockBuilder.
(** [options->comparator] and [options->blockrestartinterval]. *)
Context (c : Comparator) (blockrestartinterval : Z).

Record BlockBuilder := MkBlockBuilder {
  buffer : bytes;
  restarts : list Z;
  counter : Z;
  finished : bool;
  lastkey : bytes;
}.

(** The constructor and [reset()]. *)
Definition BlockBuilder_make : BlockBuilder := MkBlockBuilder [] [0] 0 false [].

Definition CurrentSizeEstimate (b : BlockBuilder) : Z :=
  len (buffer b) + len (restarts b) * 4 + 4.

Definition BlockBuilder_empty (b : BlockBuilder) : bool := bool_decide (buffer b = []).

Definition Finish (b : BlockBuilder) : bytes * BlockBuilder :=
  let buf := fold_left PutFixed32 (restarts b) (buffer b) in
  let buf := PutFixed32 buf (len (restarts b)) in
  (buf, MkBlockBuilder buf (restarts b) (counter b) true (lastkey b)).

(** [None] is a failed assert. *)
Definition BlockBuilder_Add (b : BlockBuilder) (key value : bytes) : option BlockBuilder :=
  if negb (finished b) && (counter b <=? blockrestartinterval) &&
     (bool_decide (buffer b = []) || bool_decide (Compare c key (lastkey b) = Gt)) then
    let '(shared, restarts, counter) :=
      if counter b <? blockrestartinterval
      then (common_prefix (lastkey b) key, restarts b, counter b)
      else (O, restarts b ++ [u32 (len (buffer b))], 0) in
    let nonShared := (length key - shared)%nat in
    let buffer := PutVarint32 (buffer b) (u32 (Z.of_nat shared)) in
    let buffer := PutVarint32 buffer (u32 (Z.of_nat nonShared)) in
    let buffer := PutVarint32 buffer (u32 (len value)) in
    let buffer := buffer ++ drop shared key ++ value in
    let lastkey := take shared (lastkey b) ++ drop shared key in
    if decide (lastkey = key) then
      Some (MkBlockBuilder buffer restarts (counter + 1) false lastkey)
    else None
  else None.
End BlockBuilder.

(** ** [Block] *)

(** [data], [size] and [restartoffset]. *)
Record Block := MkBlock { data : bytes; size : Z; restartoffset : Z }.

Definition numrestarts_of (data : bytes) (size : Z) : Z :=
  DecodeFixed32 (drop (Z.to_nat (size - 4)) data).

Definition Block_make (contents : bytes) : Block :=
  let size := len contents in
  if size <? 4 then MkBlock contents 0 0
  else
    let maxRestartsAllowed := (size - 4) / 4 in
    let n := numrestarts_of contents size in
    if maxRestartsAllowed <? n then MkBlock contents 0 0
    else MkBlock contents size (u32 (size - (1 + n) * 4)).

(** [decodeEntry(p, limit, ...)] on the bytes from [p] to [limit]: the three lengths
    and how many bytes they took. *)
Definition decodeEntry (p : bytes) : option (Z * Z * Z * nat) :=
  if len p <? 3 then None
  else
    let shared := byte_at p 0 in
    let nonShared := byte_at p 1 in
    let valueLength := byte_at p 2 in
    let? (shared, nonShared, valueLength, q) :=
      if Z.lor (Z.lor shared nonShared) valueLength <? 128 then
        Some (shared, nonShared, valueLength, drop 3 p)
      else
        let? (shared, q) := GetVarint32Ptr p in
        let? (nonShared, q) := GetVarint32Ptr q in
        let? (valueLength, q) := GetVarint32Ptr q in
        Some (shared, nonShared, valueLength, q) in
    if u32 (len q) <? u32 (nonShared + valueLength) then None
    else Some (shared, nonShared, valueLength, (length p - length q)%nat).

(** ** [BlockIterator] *)

Section BlockIterator.
Context (c : Comparator) (data : bytes) (restarts numrestarts : Z).

(** [v] is the offset and the length of the value in [data]. *)
Record BlockIterator := MkBlockIterator {
  current : Z;
  restartIndex : Z;
  k : bytes;
  v : Z * Z;
  s : Status;
}.

Definition BlockIterator_make : BlockIterator :=
  MkBlockIterator restarts numrestarts [] (0, 0) OK.

Definition it_Valid (it : BlockIterator) : bool := current it <? restarts.
Definition it_status (it : BlockIterator) : Status := s it.
Definition it_key (it : BlockIterator) : bytes := k it.
Definition it_value (it : BlockIterator) : bytes :=
  take (Z.to_nat (v it).2) (drop (Z.to_nat (v it).1) data).

Definition nextEntryOffset (it : BlockIterator) : Z := u32 ((v it).1 + (v it).2).

Definition getRestartPoint (index : Z) : Z :=
  DecodeFixed32 (drop (Z.to_nat (restarts + index * 4)) data).

Definition seekToRestartPoint (it : BlockIterator) (index : Z) : BlockIterator :=
  MkBlockIterator (current it) index [] (getRestartPoint index, 0) (s it).

Definition corruptionError (it : BlockIterator) : BlockIterator :=
  MkBlockIterator restarts numrestarts [] (0, 0) (Corruption (str "bad entry in block") []).

(** The bytes from offset [off] to the restart array. *)
Definition region (off : Z) : bytes := take (Z.to_nat (restarts - off)) (drop (Z.to_nat off) data).

(** [while (restartIndex + 1 < numrestarts && getRestartPoint(restartIndex + 1) < current)]. *)
Fixpoint advance_restart (fuel : nat) (index cur : Z) : Z :=
  match fuel with
  | O => index
  | S fuel' =>
      if (index + 1 <? numrestarts) && (getRestartPoint (index + 1) <? cur)
      then advance_restart fuel' (index + 1) cur else index
  end.

(** The result and the state; [None] is a read past the end of [data]. *)
Definition parseNextKey (it : BlockIterator) : option (bool * BlockIterator) :=
  let cur := nextEntryOffset it in
  if restarts <=? cur then
    Some (false, MkBlockIterator restarts numrestarts (k it) (v it) (s it))
  else
    match decodeEntry (region cur) with
    | None => Some (false, corruptionError it)
    | Some (shared, nonShared, valueLength, used) =>
        if len (k it) <? shared then Some (false, corruptionError it)
        else
          let p := cur + Z.of_nat used in
          if len data <? p + nonShared + valueLength then None
          else
            let key := take (Z.to_nat shared) (k it) ++
                       take (Z.to_nat nonShared) (drop (Z.to_nat p) data) in
            Some (true, MkBlockIterator cur
              (advance_restart (Z.to_nat numrestarts) (restartIndex it) cur)
              key (p + nonShared, valueLength) (s it))
    end.

(** REQUIRES: [Valid()]. *)
Definition it_Next (it : BlockIterator) : option BlockIterator :=
  let? (_, it) := parseNextKey it in Some it.

(** [while (parseNextKey() && nextEntryOffset() < bound)], the scans of [Prev] and
    [SeekToLast]; each turn moves [current] forward. *)
Fixpoint scan_to (fuel : nat) (bound : Z) (it : BlockIterator) : option BlockIterator :=
  match fuel with
  | O => None
  | S fuel' =>
      let? (more, it) := parseNextKey it in
      if more && (nextEntryOffset it <? bound) then scan_to fuel' bound it else Some it
  end.

Definition scan_fuel : nat := S (Z.to_nat restarts).

(** The search of [Prev] for a restart point before [original]. *)
Fixpoint back_restart (fuel : nat) (index original : Z) : option Z :=
  match fuel with
  | O => None
  | S fuel' =>
      if original <=? getRestartPoint index then
        if index =? 0 then None else back_restart fuel' (index - 1) original
      else Some index
  end.

(** REQUIRES: [Valid()]. *)
Definition it_Prev (it : BlockIterator) : option BlockIterator :=
  let original := current it in
  match back_restart (S (Z.to_nat (restartIndex it))) (restartIndex it) original with
  | None => Some (MkBlockIterator restarts numrestarts (k it) (v it) (s it))
  | Some index => scan_to scan_fuel original (seekToRestartPoint it index)
  end.

(** The binary search of [Seek]; [None] inside is a corrupted restart entry. *)
Fixpoint seek_restart (fuel : nat) (target : bytes) (left right : Z) : option (option Z) :=
  match fuel with
  | O => None
  | S fuel' =>
      if left <? right then
        let mid := u32 (left + right + 1) / 2 in
        let regionOffset := getRestartPoint mid in
        match decodeEntry (region regionOffset) with
        | None => Some None
        | Some (shared, nonShared, valueLength, used) =>
            if negb (shared =? 0) then Some None
            else
              let midKey := take (Z.to_nat nonShared)
                              (drop (Z.to_nat (regionOffset + Z.of_nat used)) data) in
              match Compare c midKey target with
              | Lt => seek_restart fuel' target mid right
              | _ => seek_restart fuel' target left (mid - 1)
              end
        end
      else Some (Some left)
  end.

(** The linear search of [Seek]. *)
Fixpoint seek_scan (fuel : nat) (target : bytes) (it : BlockIterator) : option BlockIterator :=
  match fuel with
  | O => None
  | S fuel' =>
      let? (more, it) := parseNextKey it in
      if negb more then Some it
      else match Compare c (k it) target with
           | Lt => seek_scan fuel' target it
           | _ => Some it
           end
  end.

Definition it_Seek (it : BlockIterator) (target : bytes) : option BlockIterator :=
  let? r := seek_restart (S (Z.to_nat numrestarts)) target 0 (numrestarts - 1) in
  match r with
  | None => Some (corruptionError it)
  | Some index => seek_scan scan_fuel target (seekToRestartPoint it index)
  end.

Definition it_SeekToFirst (it : BlockIterator) : option BlockIterator :=
  let? (_, it) := parseNextKey (seekToRestartPoint it 0) in Some it.

Definition it_SeekToLast (it : BlockIterator) : option BlockIterator :=
  scan_to scan_fuel restarts (seekToRestartPoint it (numrestarts - 1)).
End BlockIterator.

(** [Block::NewIterator]: an iterator over the entries, an empty one or an error. *)
Inductive NewIteratorResult := ErrorIterator (st : Status) | EmptyIterator
  | EntryIterator (restarts numrestarts : Z) (it : BlockIterator).

Definition Block_NewIterator (b : Block) : NewIteratorResult :=
  if size b <? 4 then ErrorIterator (Corruption (str "bad block contents") [])
  else
    let n := numrestarts_of (data b) (size b) in
    if n =? 0 then EmptyIterator
    else EntryIterator (restartoffset b) n (BlockIterator_make (restartoffset b) n).

(** ** The layout of a block *)

(** An entry with the number of key bytes it shares with the one before. *)
Record item := Item { shared : nat; ikey : bytes; ival : bytes }.

Definition suffix (e : item) : bytes := drop (shared e) (ikey e).

Definition header (e : item) : bytes :=
  EncodeVarint32 (Z.of_nat (shared e)) ++ EncodeVarint32 (len (suffix e)) ++
  EncodeVarint32 (len (ival e)).

Definition enc (e : item) : bytes := header e ++ suffix e ++ ival e.

Definition encs (es : list item) : bytes := concat (map enc es).

(** Where item [i] starts. *)
Definition off (es : list item) (i : nat) : Z := len (encs (take i es)).

(** [prev] is the key before: what is shared is shared. *)
Fixpoint chain (prev : bytes) (es : list item) : Prop :=
  match es with
  | [] => True
  | e :: es =>
      (shared e <= length prev)%nat /\ (shared e <= length (ikey e))%nat /\
      take (shared e) prev = take (shared e) (ikey e) /\ chain (ikey e) es
  end.

Lemma encs_app a b : encs (a ++ b) = encs a ++ encs b.
Proof. unfold encs. by rewrite map_app, concat_app. Qed.

Lemma encs_one e : encs [e] = enc e.
Proof. apply app_nil_r. Qed.

Lemma encs_cons e es : encs (e :: es) = enc e ++ encs es.
Proof. done. Qed.

Lemma length_enc e : (length (header e) + length (suffix e) + length (ival e) = length (enc e))%nat.
Proof. unfold enc. rewrite !length_app. lia. Qed.

Lemma length_header e : (3 <= length (header e) <= 15)%nat.
Proof.
  unfold header. rewrite !length_app.
  pose proof (length_EncodeVarint32 (Z.of_nat (shared e))).
  pose proof (length_EncodeVarint32 (len (suffix e))).
  pose proof (length_EncodeVarint32 (len (ival e))). lia.
Qed.

Lemma off_S es i e : es !! i = Some e -> off es (S i) = off es i + len (enc e).
Proof.
  intros He. unfold off. rewrite (take_S_r es i e He), encs_app, length_app, encs_one. lia.
Qed.

Lemma off_0 es : off es 0 = 0.
Proof. done. Qed.

Lemma off_app es es' i : (i <= length es)%nat -> off (es ++ es') i = off es i.
Proof. intros Hi. unfold off. by rewrite take_app_le. Qed.

Lemma off_end es i : (length es <= i)%nat -> off es i = len (encs es).
Proof. intros. unfold off. by rewrite take_ge. Qed.

Lemma off_lt es i j : (i < j)%nat -> (j <= length es)%nat -> off es i < off es j.
Proof.
  intros Hij Hj. induction Hij as [|j Hij IH].
  - destruct (proj2 (lookup_lt_is_Some es i)) as [e He]; [lia|].
    rewrite (off_S es i e He). pose proof (length_header e). pose proof (length_enc e). lia.
  - destruct (proj2 (lookup_lt_is_Some es j)) as [e He]; [lia|].
    rewrite (off_S es j e He). specialize (IH ltac:(lia)). lia.
Qed.

Lemma off_le es i j : (i <= j)%nat -> (j <= length es)%nat -> off es i <= off es j.
Proof.
  intros Hij Hj. destruct (decide (i = j)) as [->|]; [lia|].
  pose proof (off_lt es i j ltac:(lia) Hj). lia.
Qed.

Lemma off_lt_iff es i j :
  (i <= length es)%nat -> (j <= length es)%nat -> off es i < off es j <-> (i < j)%nat.
Proof.
  intros Hi Hj. split; [|by intros; apply off_lt].
  intros H. destruct (decide (i < j)%nat); [done|]. pose proof (off_le es j i). lia.
Qed.

Lemma off_length es : Z.of_nat (length es) <= len (encs es).
Proof.
  induction es as [|e es IH]; [done|]. rewrite encs_cons, length_app. cbn [length].
  pose proof (length_header e). pose proof (length_enc e). lia.
Qed.

(** The bytes from item [i] on. *)
Lemma encs_at es i e rest :
  es !! i = Some e -> drop (Z.to_nat (off es i)) (encs es ++ rest) =
    enc e ++ encs (drop (S i) es) ++ rest.
Proof.
  intros He. unfold off. rewrite Nat2Z.id.
  rewrite <- (take_drop_middle es i e He) at 2.
  rewrite encs_app, encs_cons, <- !app_assoc. by rewrite drop_app_length.
Qed.

(** ** Decoding an entry *)

Lemma EncodeVarint32_head v :
  is_u32 v -> exists b t, EncodeVarint32 v = b :: t /\
    (v < 128 -> b2z b = v /\ t = []) /\ (128 <= v -> 128 <= b2z b).
Proof.
  intros Hv. rewrite EncodeVarint32_loop by done. cbn [EncodeVarint64_loop].
  destruct (Z.leb_spec 128 v) as [Hge|Hlt].
  - eexists _, _. split; [done|]. split; [lia|]. intros _. rewrite b2z_z2b, lor_128_mod.
    pose proof (Z.mod_pos_bound (Z.land v (128 - 1)) 128). lia.
  - eexists _, _. split; [done|]. split; [|lia]. intros _. rewrite b2z_z2b_small by lia. done.
Qed.

Lemma lor_lt_128 a b : 0 <= a -> 0 <= b -> Z.lor a b < 128 -> a < 128 /\ b < 128.
Proof.
  intros Ha Hb Hl. assert (forall x, 0 <= x -> x < 128 <-> Z.log2 x < 7) as Hlog.
  { intros x Hx. destruct (decide (x = 0)) as [->|]; [done|].
    rewrite <- (Z.log2_lt_pow2 x 7) by lia. done. }
  apply Hlog in Hl; [|by apply Z.lor_nonneg]. rewrite Z.log2_lor in Hl by done.
  rewrite (Hlog a Ha), (Hlog b Hb). lia.
Qed.

(** Sizes the 32-bit fields hold. *)
Definition item_fits (e : item) : Prop :=
  Z.of_nat (shared e) < 2 ^ 32 /\ len (suffix e) + len (ival e) < 2 ^ 32.

Lemma decodeEntry_enc e rest :
  item_fits e -> len (enc e ++ rest) < 2 ^ 32 ->
  decodeEntry (enc e ++ rest) =
    Some (Z.of_nat (shared e), len (suffix e), len (ival e), length (header e)).
Proof.
  intros [Hs Hsv] Hl. unfold decodeEntry. pose proof (length_header e) as Hh. pose proof (length_enc e) as He.
  rewrite (proj2 (Z.ltb_ge _ _)) by (rewrite length_app; lia).
  set (q := suffix e ++ ival e ++ rest).
  assert (enc e ++ rest = header e ++ q) as Hp by (unfold enc, q; by rewrite <- !app_assoc).
  assert (len q < 2 ^ 32) as Hq by (rewrite Hp, length_app in Hl; lia).
  rewrite Hp. clear Hp.
  assert ((if Z.lor (Z.lor (byte_at (header e ++ q) 0) (byte_at (header e ++ q) 1)) (byte_at (header e ++ q) 2) <? 128
    then Some (byte_at (header e ++ q) 0, byte_at (header e ++ q) 1, byte_at (header e ++ q) 2, drop 3 (header e ++ q))
    else let? (shared, q) := GetVarint32Ptr (header e ++ q) in
         let? (nonShared, q) := GetVarint32Ptr q in
         let? (valueLength, q) := GetVarint32Ptr q in
         Some (shared, nonShared, valueLength, q))
    = Some (Z.of_nat (shared e), len (suffix e), len (ival e), q)) as ->.
  { unfold header. destruct (EncodeVarint32_head (Z.of_nat (shared e))) as (b1 & t1 & E1 & S1 & L1); [lia|].
    destruct (EncodeVarint32_head (len (suffix e))) as (b2 & t2 & E2 & S2 & L2); [lia|].
    destruct (EncodeVarint32_head (len (ival e))) as (b3 & t3 & E3 & S3 & L3); [lia|].
    destruct (_ <? 128) eqn:Efast.
    - apply Z.ltb_lt, lor_lt_128 in Efast as [Efast F3];
        [|apply Z.lor_nonneg; split; apply byte_at_range|apply byte_at_range].
      apply lor_lt_128 in Efast as [F1 F2]; [|apply byte_at_range..].
      rewrite E1, E2, E3 in *. change (b2z b1 < 128) in F1.
      destruct S1 as [V1 ->]; [destruct (decide (128 <= Z.of_nat (shared e))); lia|].
      change (b2z b2 < 128) in F2.
      destruct S2 as [V2 ->]; [destruct (decide (128 <= len (suffix e))); lia|].
      change (b2z b3 < 128) in F3.
      destruct S3 as [V3 ->]; [destruct (decide (128 <= len (ival e))); lia|].
      by rewrite <- V1, <- V2, <- V3.
    - rewrite <- !app_assoc, !GetVarint32Ptr_Put by lia. done. }
  rewrite !u32_small by lia. rewrite (proj2 (Z.ltb_ge _ _)) by (unfold q; rewrite !length_app; lia).
  do 2 f_equal. rewrite length_app. lia.
Qed.

(** ** A block as the iterator sees it *)

(** Items [es] with restart points at the positions [rs]. *)
Record block_of (es : list item) (rs : list nat) (data : bytes) : Prop := {
  bo_data : data = encs es ++ concat (map EncodeFixed32 (map (off es) rs)) ++ EncodeFixed32 (len rs);
  bo_size : len data < 2 ^ 32;
  bo_chain : chain [] es;
  bo_fits : Forall item_fits es;
  bo_first : rs !! 0%nat = Some 0%nat;
  bo_rs j i : rs !! j = Some i -> (i < length es)%nat \/ j = 0%nat;
  bo_shared j i e : rs !! j = Some i -> es !! i = Some e -> shared e = 0%nat;
}.

Lemma chain_next prev es i e e' :
  chain prev es -> es !! i = Some e -> es !! S i = Some e' ->
  (shared e' <= length (ikey e))%nat /\ take (shared e') (ikey e) = take (shared e') (ikey e').
Proof.
  revert prev i. induction es as [|x es IH]; intros prev i Hc He He'; [done|].
  destruct Hc as (_ & _ & _ & Hc). destruct i as [|i]; cbn in He, He'.
  - simplify_eq. destruct es as [|y es]; [done|]. cbn in He'. simplify_eq.
    destruct Hc as (? & _ & ? & _). done.
  - by eapply IH.
Qed.

Lemma chain_suffix prev es i e :
  chain prev es -> es !! i = Some e ->
  (shared e <= length (ikey e))%nat /\ ikey e = take (shared e) (ikey e) ++ suffix e.
Proof.
  intros Hc He. split; [|symmetry; apply take_drop].
  revert prev i Hc He. induction es as [|x es IH]; intros prev i Hc He; [done|].
  destruct Hc as (_ & Hl & _ & Hc). destruct i as [|i]; cbn in He; [by simplify_eq|]. by eapply IH.
Qed.

Lemma fixed32_array xs j x rest :
  xs !! j = Some x -> is_u32 x ->
  DecodeFixed32 (drop (4 * j) (concat (map EncodeFixed32 xs) ++ rest)) = x.
Proof.
  revert j. induction xs as [|y xs IH]; intros j Hj Hx; [done|]. destruct j as [|j].
  - cbn in Hj. injection Hj as ->. cbn [map concat]. rewrite Nat.mul_0_r, drop_0, <- app_assoc.
    rewrite DecodeFixed32_app. by apply u32_small.
  - cbn in Hj. cbn [map concat]. replace (4 * S j)%nat with (4 + 4 * j)%nat by lia.
    rewrite <- drop_drop, <- app_assoc, (drop_app_exact (EncodeFixed32 y)) by done. by apply IH.
Qed.

Section Iteration.
Context (es : list item) (rs : list nat) (data : bytes) (Hb : block_of es rs data).

Let n := length es.
Let R := len (encs es).
Let N := len rs.

(** The iterator is at item [i]; past the last when [i] is [n]. *)
Record at_item (i : nat) (it : BlockIterator) : Prop := {
  at_le : (i <= n)%nat;
  at_s : s it = OK;
  at_end : i = n -> current it = R;
  at_here e : es !! i = Some e ->
    current it = off es i /\ k it = ikey e /\
    v it = (off es i + len (header e) + len (suffix e), len (ival e)) /\
    0 <= restartIndex it < N;
}.

(** The next parse reads item [i]. *)
Record ready (i : nat) (it : BlockIterator) : Prop := {
  rd_le : (i <= n)%nat;
  rd_off : nextEntryOffset it = off es i;
  rd_key e : es !! i = Some e ->
    (shared e <= length (k it))%nat /\ take (shared e) (k it) = take (shared e) (ikey e);
  rd_index : 0 <= restartIndex it < N;
  rd_s : s it = OK;
}.

Lemma R_small : 0 <= R < 2 ^ 32 /\ R <= len data.
Proof.
  pose proof (bo_size _ _ _ Hb) as Hs. rewrite (bo_data _ _ _ Hb), length_app in *. subst R. lia.
Qed.

Lemma off_range i : 0 <= off es i <= R.
Proof.
  subst R. destruct (decide (i <= length es)%nat) as [Hi|Hi].
  - pose proof (off_le es 0 i ltac:(lia) Hi). pose proof (off_le es i (length es) Hi ltac:(lia)).
    rewrite (off_end es (length es)) in * by lia. rewrite off_0 in *. lia.
  - rewrite off_end by lia. lia.
Qed.

Lemma off_n : off es n = R.
Proof. by apply off_end. Qed.

Lemma getRestartPoint_at j i : rs !! j = Some i -> getRestartPoint data R (Z.of_nat j) = off es i.
Proof.
  intros Hj. unfold getRestartPoint. rewrite (bo_data _ _ _ Hb).
  replace (Z.to_nat (R + Z.of_nat j * 4)) with (length (encs es) + 4 * j)%nat by (subst R; lia).
  rewrite <- drop_drop, drop_app_length. pose proof (off_range i). pose proof R_small.
  apply fixed32_array; [|lia]. by rewrite list_lookup_fmap, Hj.
Qed.

Lemma region_at i e :
  es !! i = Some e -> region data R (off es i) = enc e ++ encs (drop (S i) es).
Proof.
  intros He. unfold region. rewrite (bo_data _ _ _ Hb), (encs_at es i e _ He), app_assoc.
  apply take_app_exact. pose proof (off_range i).
  pose proof (f_equal length (encs_at es i e [] He)) as Hl.
  rewrite !app_nil_r, length_drop in Hl. rewrite <- Hl. subst R. lia.
Qed.

Lemma decodeEntry_at i e :
  es !! i = Some e -> decodeEntry (region data R (off es i)) =
    Some (Z.of_nat (shared e), len (suffix e), len (ival e), length (header e)).
Proof.
  intros He. rewrite (region_at i e He). apply decodeEntry_enc.
  - pose proof (bo_fits _ _ _ Hb) as Hf. rewrite Forall_lookup in Hf. by eapply Hf.
  - pose proof R_small. rewrite <- (region_at i e He). unfold region.
    rewrite length_take. pose proof (off_range i). lia.
Qed.

(** The parts of item [i] inside the block. *)
Lemma item_at i e :
  es !! i = Some e ->
  take (length (suffix e)) (drop (Z.to_nat (off es i + len (header e))) data) = suffix e /\
  take (length (ival e)) (drop (Z.to_nat (off es i + len (header e) + len (suffix e))) data) = ival e /\
  off es i + len (header e) + len (suffix e) + len (ival e) = off es (S i) /\ off es (S i) <= R.
Proof.
  intros He. pose proof (off_range i). pose proof (off_range (S i)). pose proof (length_enc e).
  pose proof (encs_at es i e (concat (map EncodeFixed32 (map (off es) rs)) ++ EncodeFixed32 (len rs)) He) as Hd.
  rewrite <- (bo_data _ _ _ Hb) in Hd. split_and!.
  - replace (Z.to_nat (off es i + len (header e))) with (Z.to_nat (off es i) + length (header e))%nat by lia.
    rewrite <- drop_drop, Hd. unfold enc. rewrite <- !app_assoc, drop_app_length. by rewrite take_app_length.
  - replace (Z.to_nat (off es i + len (header e) + len (suffix e)))
      with (Z.to_nat (off es i) + (length (header e) + length (suffix e)))%nat by lia.
    rewrite <- drop_drop, Hd. unfold enc. rewrite <- !app_assoc, (app_assoc (header e)).
    rewrite <- length_app, drop_app_length. by rewrite take_app_length.
  - rewrite (off_S es i e He). lia.
  - lia.
Qed.

Lemma advance_restart_range fuel index cur :
  0 <= index < N -> 0 <= advance_restart data R N fuel index cur < N.
Proof.
  revert index. induction fuel as [|fuel IH]; intros index Hi; cbn [advance_restart]; [done|].
  destruct (Z.ltb_spec (index + 1) N); cbn [andb]; [|done].
  destruct (_ <? _); [apply IH; lia|done].
Qed.

Lemma parse_item i it :
  ready i it -> (i < n)%nat -> exists it', parseNextKey data R N it = Some (true, it') /\ at_item i it'.
Proof.
  intros [_ Hoff Hkey Hidx Hs] Hi. destruct (proj2 (lookup_lt_is_Some es i)) as [e He]; [done|].
  destruct (Hkey e He) as [Hsh Hpre]. destruct (item_at i e He) as (Hsuf & Hval & Hnext & HR).
  pose proof R_small. pose proof (off_range i).
  unfold parseNextKey. cbv zeta. rewrite Hoff.
  rewrite (proj2 (Z.leb_gt _ _)) by (rewrite <- off_n; apply off_lt; lia).
  rewrite (decodeEntry_at i e He). rewrite (proj2 (Z.ltb_ge _ _)) by lia.
  rewrite (proj2 (Z.ltb_ge _ _)) by lia.
  eexists. split; [done|]. constructor; cbn [current restartIndex k v s]; [lia|done|intros ->; lia|].
  intros e' He'. rewrite He in He'. injection He' as <-.
  rewrite !Nat2Z.id, Hsuf, Hpre. split_and!; [done| |done|..].
  - symmetry. eapply chain_suffix; [apply (bo_chain _ _ _ Hb)|done].
  - by apply advance_restart_range.
  - by apply advance_restart_range.
Qed.

Lemma parse_end it :
  ready n it -> exists it', parseNextKey data R N it = Some (false, it') /\ at_item n it'.
Proof.
  intros [_ Hoff _ _ Hs]. unfold parseNextKey. cbv zeta. rewrite Hoff, off_n, Z.leb_refl.
  eexists. split; [done|]. constructor; cbn [current s]; [done..|].
  intros e He. apply lookup_lt_Some in He. subst n. lia.
Qed.

Lemma at_ready i it : at_item i it -> (i < n)%nat -> ready (S i) it.
Proof.
  intros [Hle Hs _ Hhere] Hi. destruct (proj2 (lookup_lt_is_Some es i)) as [e He]; [done|].
  destruct (Hhere e He) as (Hc & Hk & Hv & Hidx). destruct (item_at i e He) as (_ & _ & Hnext & HR).
  pose proof R_small. pose proof (off_range (S i)).
  constructor; [lia| | |done|done].
  - unfold nextEntryOffset. rewrite Hv. cbn [fst snd]. rewrite Hnext. apply u32_small. lia.
  - intros e' He'. rewrite Hk. eapply chain_next; [apply (bo_chain _ _ _ Hb)|done..].
Qed.

Lemma seekToRestartPoint_ready j i it :
  rs !! j = Some i -> s it = OK -> ready i (seekToRestartPoint data R it (Z.of_nat j)).
Proof.
  intros Hj Hs. pose proof (lookup_lt_Some _ _ _ Hj) as Hjl. pose proof R_small. pose proof (off_range i).
  constructor; [| | |cbn; subst N; lia|done].
  - destruct (bo_rs _ _ _ Hb j i Hj) as [| ->]; [subst n; lia|].
    rewrite (bo_first _ _ _ Hb) in Hj. injection Hj as <-. subst n. lia.
  - unfold nextEntryOffset. cbn [seekToRestartPoint v fst snd].
    rewrite (getRestartPoint_at j i Hj), Z.add_0_r. apply u32_small. lia.
  - intros e He. rewrite (bo_shared _ _ _ Hb j i e Hj He). cbn. split; [lia|done].
Qed.

Lemma n_eq : n = length es.
Proof. done. Qed.

Lemma N_eq : N = len rs.
Proof. done. Qed.

Ltac sizes := pose proof n_eq; pose proof N_eq; lia.

Lemma scan_spec b : (b <= n)%nat -> forall d fuel m it,
  (b - m = S d)%nat -> (d < fuel)%nat -> ready m it ->
  exists it', scan_to data R N fuel (off es b) it = Some it' /\ at_item (b - 1) it'.
Proof.
  intros Hbn. induction d as [|d IH]; intros fuel m it Hd Hf Hr;
    (destruct fuel as [|fuel]; [lia|]); cbn [scan_to];
    destruct (parse_item m it Hr ltac:(lia)) as (it1 & -> & Hat);
    pose proof (at_ready m it1 Hat ltac:(lia)) as Hr1; rewrite (rd_off _ _ Hr1); cbn [andb].
  - replace (S m) with b by lia. rewrite Z.ltb_irrefl. exists it1. split; [done|].
    by replace (b - 1)%nat with m by lia.
  - rewrite (proj2 (Z.ltb_lt _ _)) by (apply off_lt; sizes). by apply (IH fuel (S m)); [lia|lia|].
Qed.

Lemma n_le_R : Z.of_nat n <= R.
Proof. apply off_length. Qed.

Lemma back_restart_spec i j fuel :
  (j < fuel)%nat -> (j < length rs)%nat -> (i < n)%nat ->
  (exists j' m, back_restart data R fuel (Z.of_nat j) (off es i) = Some (Z.of_nat j') /\
     rs !! j' = Some m /\ (m < i)%nat) \/
  (back_restart data R fuel (Z.of_nat j) (off es i) = None /\ i = 0%nat).
Proof.
  revert fuel. induction j as [|j IH]; intros fuel Hf Hj Hi; (destruct fuel as [|fuel]; [lia|]);
    destruct (proj2 (lookup_lt_is_Some rs _) Hj) as [m Hm]; cbn [back_restart];
    rewrite (getRestartPoint_at _ m Hm); destruct (Z.leb_spec (off es i) (off es m)) as [Hle|Hlt].
  1: { right. split; [done|]. rewrite (bo_first _ _ _ Hb) in Hm. injection Hm as <-.
       destruct i as [|i]; [done|]. pose proof (off_lt es 0 (S i) ltac:(lia) ltac:(sizes)). lia. }
  2: { replace (Z.of_nat (S j) =? 0) with false by (symmetry; apply Z.eqb_neq; lia).
       replace (Z.of_nat (S j) - 1) with (Z.of_nat j) by lia. apply IH; lia. }
  all: left; eexists _, m; split_and!; [done..|].
  all: assert (m <= length es)%nat by (destruct (bo_rs _ _ _ Hb _ m Hm) as [|Hz]; [lia|];
    first [discriminate Hz|rewrite (bo_first _ _ _ Hb) in Hm; injection Hm as <-; lia]).
  all: by apply (off_lt_iff es m i); [|sizes|].
Qed.

Section Seek.
Context (c : Comparator) (dom : bytes -> Prop) {Hok : ComparatorOk c dom}.
Hypothesis Hdom : forall i e, es !! i = Some e -> dom (ikey e).
Hypothesis Hsorted : forall i j e e', (i < j)%nat -> es !! i = Some e -> es !! j = Some e' ->
  Compare c (ikey e) (ikey e') = Lt.

(** Every item in front of [i] is below [target]. *)
Definition below_until (target : bytes) (i : nat) : Prop :=
  forall m e, (m < i)%nat -> es !! m = Some e -> Compare c (ikey e) target = Lt.

Lemma seek_restart_spec target : dom target -> forall d fuel lo hi i,
  (hi - lo <= d)%nat -> (d < fuel)%nat -> (lo <= hi)%nat -> (hi < length rs)%nat ->
  rs !! lo = Some i -> below_until target i ->
  exists j i', seek_restart c data R fuel target (Z.of_nat lo) (Z.of_nat hi) = Some (Some (Z.of_nat j)) /\
    rs !! j = Some i' /\ below_until target i'.
Proof.
  intros Ht. induction d as [|d IH]; intros fuel lo hi i Hd Hf Hlh Hhi Hlo Hbel;
    (destruct fuel as [|fuel]; [lia|]); cbn [seek_restart].
  { rewrite (proj2 (Z.ltb_ge _ _)) by lia. by exists lo, i. }
  destruct (Z.ltb_spec (Z.of_nat lo) (Z.of_nat hi)) as [Hlt|]; [|by exists lo, i].
  set (mid := ((lo + hi + 1) / 2)%nat).
  assert (lo < mid <= hi)%nat as Hmid.
  { subst mid. pose proof (Nat.div_mod_eq (lo + hi + 1) 2). pose proof (Nat.mod_upper_bound (lo + hi + 1) 2). lia. }
  assert (u32 (Z.of_nat lo + Z.of_nat hi + 1) / 2 = Z.of_nat mid) as ->.
  { rewrite u32_small.
    - subst mid. rewrite Nat2Z.inj_div. f_equal. lia.
    - pose proof (bo_size _ _ _ Hb) as Hs. rewrite (bo_data _ _ _ Hb), !length_app in Hs.
      assert (length (concat (map EncodeFixed32 (map (off es) rs))) = 4 * length rs)%nat as Hc; [|lia].
      clear. induction rs as [|x l IH]; [done|]. cbn [map concat length]. rewrite length_app, IH.
      rewrite length_EncodeFixed32. lia. }
  destruct (proj2 (lookup_lt_is_Some rs mid)) as [im Him]; [lia|].
  destruct (bo_rs _ _ _ Hb mid im Him) as [Hin|]; [|lia].
  destruct (proj2 (lookup_lt_is_Some es im) Hin) as [e He].
  cbv zeta. rewrite (getRestartPoint_at mid im Him), (decodeEntry_at im e He).
  pose proof (bo_shared _ _ _ Hb mid im e Him He) as Hz. rewrite Hz. cbn [Z.of_nat Z.eqb negb].
  destruct (item_at im e He) as (Hsuf & _). rewrite Nat2Z.id, Hsuf.
  assert (suffix e = ikey e) as -> by (unfold suffix; by rewrite Hz).
  destruct (Compare c (ikey e) target) eqn:Ecmp.
  2: { apply (IH fuel mid hi im); try lia; [done|]. intros m e' Hm He'.
       apply (Compare_lt_trans (ikey e') (ikey e) target); eauto. }
  all: replace (Z.of_nat mid - 1) with (Z.of_nat (mid - 1)) by lia;
    apply (IH fuel lo (mid - 1)%nat i); (done || lia).
Qed.

Lemma seek_scan_spec target : forall d fuel m it,
  (n - m = d)%nat -> (d < fuel)%nat -> ready m it -> below_until target m ->
  exists it' j, seek_scan c data R N fuel target it = Some it' /\ at_item j it' /\
    below_until target j /\ forall e, es !! j = Some e -> Compare c (ikey e) target <> Lt.
Proof.
  induction d as [|d IH]; intros fuel m it Hd Hf Hr Hbel; (destruct fuel as [|fuel]; [lia|]);
    cbn [seek_scan]; pose proof (rd_le _ _ Hr) as Hle.
  { assert (m = n) as -> by lia. destruct (parse_end it Hr) as (it' & -> & Hat). cbn [negb].
    exists it', n. split_and!; [done..|]. intros e He. apply lookup_lt_Some in He. sizes. }
  destruct (parse_item m it Hr ltac:(lia)) as (it1 & -> & Hat). cbn [negb].
  destruct (proj2 (lookup_lt_is_Some es m)) as [e He]; [sizes|].
  destruct (at_here _ _ Hat e He) as (_ & -> & _).
  destruct (Compare c (ikey e) target) eqn:Ecmp.
  2: { apply (IH fuel (S m)); [lia|lia|apply at_ready; [done|lia]|].
       intros j e' Hj He'. destruct (decide (j = m)) as [->|]; [by rewrite He in He'; simplify_eq|].
       apply (Hbel j); [lia|done]. }
  all: exists it1, m; split_and!; [done..|]; intros e' He'; rewrite He in He'; simplify_eq; congruence.
Qed.

Lemma Seek_spec target i it :
  dom target -> at_item i it ->
  exists it' j, it_Seek c data R N it target = Some it' /\ at_item j it' /\
    below_until target j /\ forall e, es !! j = Some e -> Compare c (ikey e) target <> Lt.
Proof.
  intros Ht Hat. pose proof (lookup_lt_Some _ _ _ (bo_first _ _ _ Hb)) as Hpos.
  unfold it_Seek. destruct (seek_restart_spec target Ht (length rs) (S (Z.to_nat N)) 0 (length rs - 1) 0)
    as (j & i' & Heq & Hj & Hbel); [lia|sizes|lia|lia|apply Hb|intros m e Hm; lia|].
  replace (Z.of_nat (length rs - 1)) with (N - 1) in Heq by sizes. change (Z.of_nat 0) with 0 in Heq.
  rewrite Heq. apply (seek_scan_spec target (n - i')%nat _ i').
  - done.
  - unfold scan_fuel. pose proof n_le_R. lia.
  - by apply seekToRestartPoint_ready; [|apply Hat].
  - done.
Qed.
End Seek.

Lemma SeekToFirst_spec i it :
  at_item i it -> exists it', it_SeekToFirst data R N it = Some it' /\ at_item 0 it'.
Proof.
  intros Hat. unfold it_SeekToFirst.
  pose proof (seekToRestartPoint_ready 0 0 it (bo_first _ _ _ Hb) (at_s _ _ Hat)) as Hr.
  change (Z.of_nat 0) with 0 in Hr. destruct (decide (n = 0%nat)) as [Hn|Hn].
  - rewrite <- Hn in Hr at 1. destruct (parse_end _ Hr) as (it' & -> & Hat'). rewrite Hn in Hat'. by exists it'.
  - destruct (parse_item 0 _ Hr ltac:(lia)) as (it' & -> & Hat'). by exists it'.
Qed.

Lemma SeekToLast_spec i it :
  at_item i it -> exists it', it_SeekToLast data R N it = Some it' /\ at_item (n - 1) it'.
Proof.
  intros Hat. unfold it_SeekToLast. pose proof (lookup_lt_Some _ _ _ (bo_first _ _ _ Hb)) as Hpos.
  destruct (proj2 (lookup_lt_is_Some rs (length rs - 1))) as [m Hm]; [lia|].
  pose proof (seekToRestartPoint_ready _ m it Hm (at_s _ _ Hat)) as Hr.
  replace (Z.of_nat (length rs - 1)) with (N - 1) in Hr by (sizes).
  destruct (decide (m = n)) as [->|Hmn].
  - destruct (bo_rs _ _ _ Hb _ n Hm) as [|Hz]; [sizes|].
    rewrite Hz, (bo_first _ _ _ Hb) in Hm. injection Hm as Hn. unfold scan_fuel. cbn [scan_to].
    destruct (parse_end _ Hr) as (it' & -> & Hat'). exists it'. by rewrite <- Hn in *.
  - pose proof (rd_le _ _ Hr). pose proof n_le_R.
    pose proof (scan_spec n ltac:(lia) (n - m - 1)%nat (scan_fuel R) m _ ltac:(lia)
      ltac:(unfold scan_fuel; lia) Hr) as Hsc. rewrite off_n in Hsc. exact Hsc.
Qed.

Lemma Prev_spec i it :
  at_item i it -> (i < n)%nat ->
  exists it', it_Prev data R N it = Some it' /\
    at_item (match i with O => n | S j => j end) it'.
Proof.
  intros Hat Hi. unfold it_Prev. destruct (proj2 (lookup_lt_is_Some es i)) as [e He]; [done|].
  destruct (at_here _ _ Hat e He) as (Hc & _ & _ & Hidx). cbv zeta. rewrite Hc.
  destruct (back_restart_spec i (Z.to_nat (restartIndex it)) (S (Z.to_nat (restartIndex it))))
    as [(j & m & Hbr & Hj & Hm)|[Hbr Hz]]; [lia|sizes|done| |];
    rewrite Z2Nat.id in Hbr by lia; rewrite Hbr.
  - pose proof (seekToRestartPoint_ready j m it Hj (at_s _ _ Hat)) as Hr.
    destruct (scan_spec i ltac:(lia) (i - m - 1)%nat (scan_fuel R) m _ ltac:(lia)
      ltac:(unfold scan_fuel; pose proof n_le_R; lia) Hr) as (it' & Heq & Hat').
    exists it'. split; [done|]. destruct i as [|i]; [lia|]. by rewrite Nat.sub_1_r in Hat'.
  - subst i. eexists. split; [done|]. constructor; cbn [current s]; [done|apply Hat|done|].
    intros e' He'. apply lookup_lt_Some in He'. sizes.
Qed.

Lemma Next_spec i it :
  at_item i it -> (i < n)%nat -> exists it', it_Next data R N it = Some it' /\ at_item (S i) it'.
Proof.
  intros Hat Hi. unfold it_Next. pose proof (at_ready i it Hat Hi) as Hr.
  destruct (decide (S i = n)) as [Hn|Hn].
  - rewrite Hn in *. destruct (parse_end it Hr) as (it' & -> & Hat'). by exists it'.
  - destruct (parse_item (S i) it Hr ltac:(lia)) as (it' & -> & Hat'). by exists it'.
Qed.

Lemma at_shows i it :
  at_item i it -> it_Valid R it = (i <? n)%nat /\ it_status it = OK /\
    forall e, es !! i = Some e -> it_key it = ikey e /\ it_value data it = ival e.
Proof.
  intros [Hle Hs Hend Hhere]. split_and!; [|done|].
  - unfold it_Valid. destruct (Nat.ltb_spec i n) as [Hi|Hi].
    + destruct (proj2 (lookup_lt_is_Some es i)) as [e He]; [done|].
      destruct (Hhere e He) as (-> & _). apply Z.ltb_lt. rewrite <- off_n. apply off_lt; sizes.
    + rewrite Hend by lia. apply Z.ltb_irrefl.
  - intros e He. destruct (Hhere e He) as (_ & Hk & Hv & _). split; [done|].
    unfold it_value. rewrite Hv. cbn [fst snd]. rewrite Nat2Z.id. apply (item_at i e He).
Qed.
End Iteration.

(** ** What the builder builds *)

Section Building.
Context {c : Comparator} {dom : bytes -> Prop} {Hok : ComparatorOk c dom} (interval : Z).
Hypothesis Hinterval : 1 <= interval.

Definition pair_of (e : item) : bytes * bytes := (ikey e, ival e).

Definition last_key (es : list item) : bytes := from_option ikey [] (last es).

Record built (b : BlockBuilder) (its : list item) (rs : list nat) : Prop := {
  bu_buffer : buffer b = encs its;
  bu_restarts : restarts b = map (off its) rs;
  bu_lastkey : lastkey b = last_key its;
  bu_finished : finished b = false;
  bu_counter : 0 <= counter b <= interval;
  bu_start : its = [] -> counter b = 0;
  bu_chain : chain [] its;
  bu_fits : Forall item_fits its;
  bu_first : rs !! 0%nat = Some 0%nat;
  bu_rs j i : rs !! j = Some i -> (i < length its)%nat \/ j = 0%nat;
  bu_shared j i e : rs !! j = Some i -> its !! i = Some e -> shared e = 0%nat;
  bu_count : (length rs <= S (length its))%nat;
}.

Lemma built_make : built BlockBuilder_make [] [0%nat].
Proof. constructor; cbn; try done; [lia|]. intros [|j] i H; [by right|done]. Qed.

Lemma chain_snoc prev es e :
  chain prev (es ++ [e]) <-> chain prev es /\
    (shared e <= length (from_option ikey prev (last es)))%nat /\ (shared e <= length (ikey e))%nat /\
    take (shared e) (from_option ikey prev (last es)) = take (shared e) (ikey e).
Proof.
  revert prev. induction es as [|x es IH]; intros prev; cbn [chain app].
  - cbn. tauto.
  - rewrite IH. destruct es as [|y es]; cbn [last chain from_option]; [cbn; tauto|].
    assert (from_option ikey (ikey x) (last (y :: es)) = from_option ikey prev (last (y :: es))) as ->.
    { destruct (last (y :: es)) eqn:E; [done|]. by apply last_None in E. }
    cbn [chain]. tauto.
Qed.

Lemma rs_le its rs j i b : built b its rs -> rs !! j = Some i -> (i <= length its)%nat.
Proof.
  intros Hbu Hj. destruct (bu_rs _ _ _ Hbu j i Hj) as [| ->]; [lia|].
  rewrite (bu_first _ _ _ Hbu) in Hj. injection Hj as <-. lia.
Qed.

Lemma restarts_snoc b its rs e :
  built b its rs -> map (off (its ++ [e])) rs = map (off its) rs.
Proof.
  intros Hbu. apply map_ext_in. intros i [j Hj]%list_elem_of_In%list_elem_of_lookup.
  apply off_app. by eapply rs_le.
Qed.

Lemma length_encs its e : encs (its ++ [e]) = encs its ++ enc e.
Proof. by rewrite encs_app, encs_one. Qed.

Lemma Builder_Add_step b its rs key value :
  built b its rs -> its = [] \/ Compare c key (last_key its) = Gt ->
  len key + len value < 2 ^ 32 -> len (encs its) < 2 ^ 32 ->
  exists b' e rs', BlockBuilder_Add c interval b key value = Some b' /\
    built b' (its ++ [e]) rs' /\ pair_of e = (key, value) /\ (length rs' <= S (length rs))%nat.
Proof.
  intros Hbu Hord Hkv Hsz. pose proof Hbu as [Hbuf Hrs Hlk Hfin Hcnt Hst Hch Hft Hf0 Hrsr Hsh Hct].
  unfold BlockBuilder_Add. rewrite Hfin, Hlk. cbn [negb andb].
  rewrite (proj2 (Z.leb_le _ _)) by lia. cbn [andb].
  assert (bool_decide (buffer b = []) || bool_decide (Compare c key (last_key its) = Gt) = true) as ->.
  { destruct Hord as [->|Hgt]; [by rewrite Hbuf|]. rewrite (bool_decide_eq_true_2 _ Hgt). apply orb_true_r. }
  pose proof (common_prefix_le (last_key its) key) as [Hp1 Hp2].
  assert (forall sh rs' restarts' cnt,
    (sh <= length (last_key its))%nat -> (sh <= length key)%nat ->
    take sh (last_key its) = take sh key -> 0 <= cnt < interval ->
    let e := Item sh key value in
    restarts' = map (off (its ++ [e])) rs' -> rs' !! 0%nat = Some 0%nat ->
    (forall j i, rs' !! j = Some i -> (i < length (its ++ [e]))%nat \/ j = 0%nat) ->
    (forall j i e', rs' !! j = Some i -> (its ++ [e]) !! i = Some e' -> shared e' = 0%nat) ->
    (length rs' <= S (length (its ++ [e])))%nat -> (length rs' <= S (length rs))%nat ->
    exists b' e rs', (if decide (take sh (last_key its) ++ drop sh key = key) then
      Some (MkBlockBuilder
        (PutVarint32 (PutVarint32 (PutVarint32 (buffer b) (u32 (Z.of_nat sh)))
           (u32 (Z.of_nat (length key - sh)))) (u32 (len value)) ++ drop sh key ++ value)
        restarts' (cnt + 1) false (take sh (last_key its) ++ drop sh key)) else None) = Some b' /\
      built b' (its ++ [e]) rs' /\ pair_of e = (key, value) /\ (length rs' <= S (length rs))%nat) as Hgo.
  { intros sh rs' restarts' cnt Hs1 Hs2 Htk Hc e Hr' H0 Hrs' Hsh' Hct' Hct2.
    assert (take sh (last_key its) ++ drop sh key = key) as Hkey by (rewrite Htk; apply take_drop).
    rewrite decide_True by done. eexists _, e, rs'. split; [done|].
    assert (len (suffix e) = Z.of_nat (length key - sh)) as Hsuf
      by (unfold suffix; cbn [shared ikey e]; by rewrite length_drop).
    split; [|done]. constructor; cbn [buffer restarts lastkey finished counter];
      [|done|by rewrite Hkey; unfold last_key; rewrite last_snoc|done|lia|by destruct its|
       by apply chain_snoc|apply Forall_app; split; [done|apply Forall_singleton]|done..].
    - unfold PutVarint32. rewrite !u32_small by lia.
      rewrite Hbuf, length_encs. unfold enc, header. rewrite Hsuf. subst e. cbn [shared ival suffix ikey].
      by rewrite <- !app_assoc.
    - unfold item_fits. rewrite Hsuf. subst e. cbn [shared ival]. lia. }
  destruct (Z.ltb_spec (counter b) interval) as [Hlt|Hge].
  - apply (Hgo _ rs); [done|done|apply common_prefix_take|lia|by rewrite Hrs, (restarts_snoc b)|done| | |lens; lia|lia].
    + intros j i Hj. rewrite length_app. destruct (Hrsr j i Hj); [left; lia|by right].
    + intros j i e' Hj He'. apply lookup_snoc_Some in He' as [[_ He']|[Hi <-]]; [by eapply Hsh|].
      cbn [shared]. destruct (Hrsr j i Hj) as [| ->]; [lia|].
      rewrite Hf0 in Hj. injection Hj as <-. destruct its; [done|]. cbn in Hi. lia.
  - assert (its <> []) as Hne by (intros ->; specialize (Hst eq_refl); lia).
    apply (Hgo O (rs ++ [length its]) _ 0); [lia|lia|done|lia| | | | |lens; lia|lens; lia].
    + rewrite map_app, (restarts_snoc b), Hrs by done. cbn [map]. do 2 f_equal.
      rewrite off_app, off_end by lia. rewrite Hbuf. apply u32_small. lia.
    + by rewrite lookup_app_l by (by eapply lookup_lt_Some).
    + intros j i Hj. rewrite length_app. cbn [length].
      apply lookup_snoc_Some in Hj as [[_ Hj]|[_ <-]]; [|left; lia].
      destruct (Hrsr j i Hj); [left; lia|by right].
    + intros j i e' Hj He'. apply lookup_snoc_Some in He' as [[Hi He']|[_ <-]]; [|done].
      apply lookup_snoc_Some in Hj as [[_ Hj]|[_ <-]]; [by eapply Hsh|lia].
Qed.

(** Adding all of [es]. *)
Fixpoint build (b : BlockBuilder) (es : list (bytes * bytes)) : option BlockBuilder :=
  match es with
  | [] => Some b
  | (key, value) :: es => let? b := BlockBuilder_Add c interval b key value in build b es
  end.

(** An upper bound on the size of the block. *)
Definition size_bound (es : list (bytes * bytes)) : Z :=
  foldr (fun e z => 19 + len e.1 + len e.2 + z) 12 es.

Definition key_lt (a b : bytes * bytes) : Prop := Compare c a.1 b.1 = Lt.

Lemma length_enc_le e : len (enc e) <= 15 + len (ikey e) + len (ival e).
Proof.
  pose proof (length_enc e). pose proof (length_header e). unfold suffix in *.
  rewrite length_drop in *. lia.
Qed.

Lemma size_bound_12 es : 12 <= size_bound es.
Proof. induction es as [|e es IH]; cbn [size_bound foldr] in *; [lia|]. unfold size_bound in IH. lia. Qed.

Lemma build_spec es : forall b its rs,
  built b its rs -> StronglySorted key_lt (map pair_of its ++ es) ->
  Forall (fun e => dom e.1) (map pair_of its ++ es) ->
  len (encs its) + 4 * len rs - 4 + size_bound es < 2 ^ 32 ->
  exists b' its' rs', build b es = Some b' /\ built b' its' rs' /\
    map pair_of its' = map pair_of its ++ es /\ len (encs its') + 4 * len rs' + 8 < 2 ^ 32.
Proof.
  induction es as [|[key value] es IH]; intros b its rs Hbu Hs Hd Hsz; cbn [build].
  { exists b, its, rs. rewrite app_nil_r. cbn in Hsz. split_and!; done || lia. }
  cbn [size_bound foldr fst snd] in Hsz. fold (size_bound es) in Hsz. pose proof (size_bound_12 es).
  destruct (Builder_Add_step b its rs key value Hbu) as (b1 & e & rs1 & -> & Hbu1 & Hpe & Hrs1); [|lia|lia|].
  { destruct its as [|x its _] using rev_ind; [by left|right].
    unfold last_key. rewrite last_snoc. cbn [from_option].
    rewrite map_app, <- app_assoc in Hs, Hd. apply StronglySorted_app_1_r in Hs.
    cbn [map app] in Hs, Hd. apply StronglySorted_cons in Hs as [Hall _].
    apply Forall_cons in Hall as [Hlt _]. unfold key_lt in Hlt. cbn in Hlt.
    apply Forall_app in Hd as [_ Hd]. rewrite !Forall_cons in Hd. destruct Hd as (Hd1 & Hd2 & _).
    by apply Compare_gt_lt. }
  injection Hpe as Hke Hve. pose proof (length_enc_le e) as Hle. rewrite Hke, Hve in Hle.
  destruct (IH b1 (its ++ [e]) rs1 Hbu1) as (b' & its' & rs' & -> & Hbu' & Hmap & Hsz').
  - rewrite map_app, <- app_assoc. cbn [map app]. unfold pair_of at 2. by rewrite Hke, Hve.
  - rewrite map_app, <- app_assoc. cbn [map app]. unfold pair_of at 2. by rewrite Hke, Hve.
  - rewrite length_encs, length_app. lia.
  - exists b', its', rs'. split_and!; [done..| |done].
    rewrite Hmap, map_app, <- app_assoc. cbn [map app]. unfold pair_of at 2. by rewrite Hke, Hve.
Qed.

Lemma Finish_bytes b : (Finish b).1 = buffer b ++ concat (map EncodeFixed32 (restarts b)) ++ EncodeFixed32 (len (restarts b)).
Proof.
  unfold Finish. cbn [fst]. unfold PutFixed32 at 1. rewrite app_assoc. f_equal.
  generalize (buffer b). induction (restarts b) as [|x xs IH]; intros buf; cbn [fold_left map concat].
  - by rewrite app_nil_r.
  - rewrite IH. unfold PutFixed32. by rewrite <- app_assoc.
Qed.

Lemma length_fixed32_array xs : length (concat (map EncodeFixed32 xs)) = (4 * length xs)%nat.
Proof.
  induction xs as [|x xs IH]; [done|]. cbn [map concat length]. rewrite length_app, IH, length_EncodeFixed32. lia.
Qed.

Lemma built_block b its rs :
  built b its rs -> len (encs its) + 4 * len rs + 8 < 2 ^ 32 ->
  let contents := (Finish b).1 in
  block_of its rs contents /\ len contents = len (encs its) + 4 * len rs + 4 /\
  Block_NewIterator (Block_make contents) =
    EntryIterator (len (encs its)) (len rs) (BlockIterator_make (len (encs its)) (len rs)).
Proof.
  intros Hbu Hsz contents. pose proof (lookup_lt_Some _ _ _ (bu_first _ _ _ Hbu)) as Hpos.
  assert (contents = encs its ++ concat (map EncodeFixed32 (map (off its) rs)) ++ EncodeFixed32 (len rs)) as Hc.
  { subst contents. rewrite Finish_bytes. rewrite (bu_buffer _ _ _ Hbu), (bu_restarts _ _ _ Hbu).
    by rewrite length_map. }
  assert (len contents = len (encs its) + 4 * len rs + 4) as Hlen.
  { rewrite Hc, !length_app, length_fixed32_array, length_map, length_EncodeFixed32. lia. }
  clearbody contents. split_and!; [|done|].
  - destruct Hbu. constructor; try done. lia.
  - assert (numrestarts_of contents (len contents) = len rs) as Hn.
    { unfold numrestarts_of. rewrite Hlen, Hc, app_assoc, drop_app_exact.
      - pose proof (DecodeFixed32_app (len rs) []) as Hdec. rewrite app_nil_r in Hdec. rewrite Hdec.
        apply u32_small. lia.
      - rewrite length_app, length_fixed32_array, length_map. lia. }
    unfold Block_make. cbv zeta. rewrite (proj2 (Z.ltb_ge _ _)) by lia. rewrite Hn.
    rewrite (proj2 (Z.ltb_ge _ _)).
    2:{ rewrite Hlen. apply Z.div_le_lower_bound; lia. }
    unfold Block_NewIterator. cbn [size Block.data restartoffset].
    rewrite (proj2 (Z.ltb_ge _ _)), Hn by lia. rewrite (proj2 (Z.eqb_neq _ _)) by lia.
    replace (u32 (len contents - (1 + len rs) * 4)) with (len (encs its)); [done|].
    rewrite Hlen. symmetry. rewrite u32_small; lia.
Qed.
End Building.

(** ** Theorems *)

Lemma map_pair_lookup (its : list item) (es : list (bytes * bytes)) i e :
  map pair_of its = es -> its !! i = Some e -> es !! i = Some (ikey e, ival e).
Proof. intros <- He. rewrite list_lookup_fmap, He. done. Qed.

Lemma sorted_lookup {A} (R : A -> A -> Prop) l i j a b :
  StronglySorted R l -> (i < j)%nat -> l !! i = Some a -> l !! j = Some b -> R a b.
Proof.
  intros Hs Hij Ha Hb. rewrite <- (take_drop_middle l i a Ha) in Hs.
  apply StronglySorted_app_1_r, StronglySorted_cons in Hs as [Hall _].
  rewrite Forall_lookup in Hall. apply (Hall (j - S i)%nat).
  rewrite lookup_drop. by replace (S i + (j - S i))%nat with j by lia.
Qed.

(** C27: a block refines the list of entries it was built from.  Adding entries with
    increasing keys succeeds - no assert of [Add] fails - and [CurrentSizeEstimate] is
    the exact size of the finished block.  The block opens without error, and for an
    iterator anywhere in it: it is valid, with the right key and value and an [OK]
    status, exactly at the entries; [SeekToFirst], [SeekToLast], [Next] and [Prev] move
    to the first, the last and the neighbouring entry; and [Seek] - binary search over
    the restart points, then a scan - stops at the first entry not below its target.
    Every search returns within its fuel and no read leaves the block. *)
Theorem block_refines (c : Comparator) (dom : bytes -> Prop) (interval : Z) es :
  ComparatorOk c dom -> 1 <= interval -> StronglySorted (key_lt (c := c)) es ->
  Forall (fun e => dom e.1) es -> size_bound es < 2 ^ 32 ->
  exists b, build (c := c) interval BlockBuilder_make es = Some b /\
    let contents := (Finish b).1 in
    CurrentSizeEstimate b = len contents /\
    exists R N it0 (at_ : nat -> BlockIterator -> Prop),
      Block_NewIterator (Block_make contents) = EntryIterator R N it0 /\ at_ (length es) it0 /\
      forall i it, at_ i it ->
        (it_Valid R it = (i <? length es)%nat /\ it_status it = OK /\
         forall e, es !! i = Some e -> it_key it = e.1 /\ it_value contents it = e.2) /\
        (exists it', it_SeekToFirst contents R N it = Some it' /\ at_ 0%nat it') /\
        (exists it', it_SeekToLast contents R N it = Some it' /\ at_ (length es - 1)%nat it') /\
        ((i < length es)%nat ->
           (exists it', it_Next contents R N it = Some it' /\ at_ (S i) it') /\
           (exists it', it_Prev contents R N it = Some it' /\
              at_ (match i with O => length es | S j => j end) it')) /\
        (forall target, dom target -> exists it' j, it_Seek c contents R N it target = Some it' /\
           at_ j it' /\
           (forall m e, (m < j)%nat -> es !! m = Some e -> Compare c e.1 target = Lt) /\
           (forall e, es !! j = Some e -> Compare c e.1 target <> Lt)).
Proof.
  intros Hok Hint Hs Hd Hsz.
  destruct (build_spec (c := c) (dom := dom) interval Hint es BlockBuilder_make [] [0%nat])
    as (b & its & rs & Hb & Hbu & Hmap & Hsz'); [apply built_make; lia|done|done|cbn; lia|].
  cbn [map app] in Hmap. exists b. split; [done|]. intros contents.
  destruct (built_block interval b its rs Hbu Hsz') as (Hblk & Hlen & Hnew). fold contents in Hblk, Hlen, Hnew.
  assert (length its = length es) as Hn by (rewrite <- Hmap; by rewrite length_map).
  assert (forall i e, its !! i = Some e -> es !! i = Some (ikey e, ival e)) as Hlk
    by (intros i e; by apply map_pair_lookup).
  assert (forall i e, es !! i = Some e -> exists x, its !! i = Some x /\ e = (ikey x, ival x)) as Hlk'.
  { intros i e He. rewrite <- Hmap, list_lookup_fmap in He.
    apply fmap_Some in He as (x & Hx & ->). by exists x. }
  split.
  { rewrite Hlen. unfold CurrentSizeEstimate. rewrite (bu_buffer _ _ _ _ Hbu), (bu_restarts _ _ _ _ Hbu).
    rewrite length_map. lia. }
  exists (len (encs its)), (len rs), (BlockIterator_make (len (encs its)) (len rs)), (at_item its rs).
  split; [done|]. rewrite <- Hn. split.
  { constructor; cbn [current s BlockIterator_make]; [done..|].
    intros e He. apply lookup_lt_Some in He. lia. }
  intros i it Hat. refine (conj _ (conj _ (conj _ (conj _ _)))).
  - destruct (at_shows its rs contents Hblk i it Hat) as (Hv & Hst & Hkv).
    refine (conj Hv (conj Hst _)). intros e (x & Hx & ->)%Hlk'. by apply Hkv.
  - by apply (SeekToFirst_spec its rs contents Hblk i).
  - by apply (SeekToLast_spec its rs contents Hblk i).
  - intros Hi. split; [by apply (Next_spec its rs contents Hblk i)|by apply (Prev_spec its rs contents Hblk i)].
  - intros target Ht.
    destruct (Seek_spec its rs contents Hblk c dom
      ltac:(intros j e He; apply Hlk in He; rewrite Forall_lookup in Hd; by apply Hd in He)
      ltac:(intros j k e e' Hjk He He'; by apply (sorted_lookup _ _ _ _ _ _ Hs Hjk (Hlk _ _ He) (Hlk _ _ He')))
      target i it Ht Hat) as (it' & j & Heq & Hat' & Hbel & Hge).
    exists it', j. refine (conj Heq (conj Hat' (conj _ _))).
    + intros m e Hm (x & Hx & ->)%Hlk'. by apply (Hbel m).
    + intros e (x & Hx & ->)%Hlk'. by apply Hge.
Qed.

Definition demo_entries : list (bytes * bytes) :=
  [(str "apple", str "1"); (str "applet", str "2"); (str "apply", []); (str "bat", str "4")].

Lemma block_refines_witness :
  exists b, build (c := BytewiseComparatorImpl) 2 BlockBuilder_make demo_entries = Some b /\
    CurrentSizeEstimate b = len (Finish b).1.
Proof.
  destruct (block_refines BytewiseComparatorImpl (fun _ => True) 2 demo_entries Bytewise_ok)
    as (b & Hb & Hsz & _).
  - lia.
  - repeat constructor.
  - repeat constructor.
  - vm_compute. reflexivity.
  - exists b. split; [exact Hb|exact Hsz].
Defined.

Example demo_block_Seek :
  (let? b := build (c := BytewiseComparatorImpl) 2 BlockBuilder_make demo_entries in
   let contents := (Finish b).1 in
   match Block_NewIterator (Block_make contents) with
   | EntryIterator R N it =>
       let? it := it_Seek BytewiseComparatorImpl contents R N it (str "applz") in
       let? it' := it_Prev contents R N it in Some (it_key it, it_key it')
   | _ => None
   end) = Some (str "bat", str "apply").
Proof. vm_compute. reflexivity. Qed.
