(* ===== verification/TableFormat.v ===== *)
(** The parts of a table file (redisdb/db/format.h, format.cc) and the builder that
    writes one (redisdb/db/tablebuilder.h, tablebuilder.cc).

    A table is a run of blocks, each followed by a type byte and a checksum, then the
    metaindex and index blocks and a footer.  Snappy is a third-party library: its
    functions are parameters. *)
From S2P Require Import Prelude Coding Crc32c Status Env DbFormat Block.
Local Open Scope Z_scope.

(** ** Block handles and the footer *)

Record BlockHandle := MkBlockHandle { offset : Z; hsize : Z }.

Definition BlockHandle_make : BlockHandle := MkBlockHandle (2 ^ 64 - 1) (2 ^ 64 - 1).
Definition GetOffset (h : BlockHandle) : Z := offset h.
Definition GetSize (h : BlockHandle) : Z := hsize h.
Definition SetOffset (h : BlockHandle) (o : Z) : BlockHandle := MkBlockHandle o (hsize h).
Definition SetSize (h : BlockHandle) (n : Z) : BlockHandle := MkBlockHandle (offset h) n.

Definition kMaxEncodedLength : nat := 20.
Definition kEncodedLength : nat := 48.
Definition kTableMagicNumber : Z := 0xdb4775248b80fb57.
Definition kBlockTrailerSize : Z := 5.

(** [None] is a failed assert: the handle was never set. *)
Definition BlockHandle_EncodeTo (h : BlockHandle) (dst : bytes) : option bytes :=
  if decide (offset h <> 2 ^ 64 - 1 /\ hsize h <> 2 ^ 64 - 1) then
    Some (PutVarint64 (PutVarint64 dst (offset h)) (hsize h))
  else None.

(** The status, the handle as far as it was read and the rest of the input. *)
Definition BlockHandle_DecodeFrom (h : BlockHandle) (input : bytes) : Status * BlockHandle * bytes :=
  match GetVarint64 input with
  | Some (o, input) =>
      match GetVarint64 input with
      | Some (n, input) => (OK, MkBlockHandle o n, input)
      | None => (Corruption (str "bad block handle") [], MkBlockHandle o (hsize h), input)
      end
  | None => (Corruption (str "bad block handle") [], h, input)
  end.

Record Footer := MkFooter { metaindexhandle : BlockHandle; indexHandle : BlockHandle }.

Definition Footer_make : Footer := MkFooter BlockHandle_make BlockHandle_make.

(** [std::string::resize]. *)
Definition resize (n : nat) (b : bytes) : bytes := take n b ++ replicate (n - length b) x00.

Definition Footer_EncodeTo (f : Footer) (dst : bytes) : option bytes :=
  let originalSize := length dst in
  let? dst := BlockHandle_EncodeTo (metaindexhandle f) dst in
  let? dst := BlockHandle_EncodeTo (indexHandle f) dst in
  let dst := resize (2 * kMaxEncodedLength) dst in
  let dst := PutFixed32 dst (Z.land kTableMagicNumber 0xffffffff) in
  let dst := PutFixed32 dst (Z.shiftr kTableMagicNumber 32) in
  if decide (length dst = originalSize + kEncodedLength)%nat then Some dst else None.

(** REQUIRES: [input] holds at least [kEncodedLength] bytes. *)
Definition Footer_DecodeFrom (f : Footer) (input : bytes) : Status * Footer * bytes :=
  let magicPtr := drop (kEncodedLength - 8) input in
  let magicLo := DecodeFixed32 magicPtr in
  let magicHi := DecodeFixed32 (drop 4 magicPtr) in
  let magic := Z.lor (Z.shiftl magicHi 32) magicLo in
  if negb (magic =? kTableMagicNumber) then
    (Corruption (str "not an sstable (bad magic number)") [], f, input)
  else
    let '(result, m, rest) := BlockHandle_DecodeFrom (metaindexhandle f) input in
    if ok result then
      let '(result, i, rest) := BlockHandle_DecodeFrom (indexHandle f) rest in
      if ok result then (result, MkFooter m i, drop kEncodedLength input)
      else (result, MkFooter m i, rest)
    else (result, MkFooter m (indexHandle f), rest).

(** ** Reading a block *)

Inductive CompressionType := kNoCompression | kSnappyCompression.

Definition compression_value (t : CompressionType) : Z :=
  match t with kNoCompression => 0 | kSnappyCompression => 1 end.

(** What tables ask of the file they are read from: [direct] files hand out pointers
    into their own memory. *)
Class RandomFile (G : Type) := {
  rread : G -> Z -> Z -> Status * bytes;
  direct : G -> bool;
  rcontents : G -> bytes;
}.

Class RandomFileOk (G : Type) `{RandomFile G} : Prop := {
  rread_ok g off n : 0 <= off -> 0 <= n -> off + n <= len (rcontents g) -> len (rcontents g) < 2 ^ 64 ->
    rread g off n = (OK, take (Z.to_nat n) (drop (Z.to_nat off) (rcontents g)));
}.

(** A file mapped into memory. *)
Record MmapFile := MkMmapFile { mmname : bytes; mmbase : bytes }.

#[export] Instance MmapFile_random (strerror : Z -> bytes) : RandomFile MmapFile := {
  rread g off n := mmap_read strerror (mmname g) (mmbase g) off n;
  direct _ := true;
  rcontents := mmbase;
}.

#[export] Instance MmapFile_ok strerror : @RandomFileOk MmapFile (MmapFile_random strerror).
Proof.
  constructor. intros g o n Ho Hn Hl Hs. cbn in *. unfold mmap_read.
  rewrite u64_small by lia. by rewrite (proj2 (Z.ltb_ge _ _)) by lia.
Qed.

Record BlockContents := MkBlockContents { bdata : bytes; cachable : bool; heapallocated : bool }.

Section Format.
Context (snappy_compress : bytes -> option bytes).
Context (snappy_length : bytes -> option Z) (snappy_uncompress : bytes -> option bytes).

Definition ReadBlock {G} `{RandomFile G} (addr : Z) (file : G) (verifychecksums : bool) (handle : BlockHandle)
    : Status * BlockContents :=
  let none := MkBlockContents [] false false in
  let n := GetSize handle in
  let '(s, contents) := rread file (GetOffset handle) (u64 (n + kBlockTrailerSize)) in
  if negb (ok s) then (s, none)
  else if negb (len contents =? u64 (n + kBlockTrailerSize)) then
    (Corruption (str "truncated block read") [], none)
  else
    let n' := Z.to_nat n in
    let crc := Unmask (DecodeFixed32 (drop (n' + 1) contents)) in
    let actual := Value addr (take (n' + 1) contents) in
    if verifychecksums && negb (actual =? crc) then
      (Corruption (str "block checksum mismatch") [], none)
    else
      let type := byte_at contents n' in
      if type =? compression_value kNoCompression then
        (OK, MkBlockContents (take n' contents) (negb (direct file)) (negb (direct file)))
      else if type =? compression_value kSnappyCompression then
        match snappy_length (take n' contents), snappy_uncompress (take n' contents) with
        | Some _, Some u => (OK, MkBlockContents u true true)
        | _, _ => (Corruption (str "corrupted compressed block contents") [], none)
        end
      else (Corruption (str "bad block type") [], none).

(** ** [TableBuilder] *)

Section TableBuilder.
Context {F : Type} `{AppendFile F}.
Context (c : Comparator) (blockrestartinterval blocksize : Z) (compression : CompressionType).

Record TableBuilder := MkTableBuilder {
  tfile : F;
  toffset : Z;
  tstatus : Status;
  datablock : BlockBuilder;
  indexblock : BlockBuilder;
  tlastkey : bytes;
  pendinghandle : Z;
  closed : bool;
  pendingindexentry : bool;
  blockhandle : BlockHandle;
}.

Definition TableBuilder_make (file : F) : TableBuilder :=
  MkTableBuilder file 0 OK BlockBuilder_make BlockBuilder_make [] 0 false false BlockHandle_make.

Definition set_io (b : TableBuilder) (f : F) (off : Z) (s : Status) : TableBuilder :=
  MkTableBuilder f off s (datablock b) (indexblock b) (tlastkey b) (pendinghandle b) (closed b)
    (pendingindexentry b) (blockhandle b).
Definition set_data (b : TableBuilder) (d : BlockBuilder) : TableBuilder :=
  MkTableBuilder (tfile b) (toffset b) (tstatus b) d (indexblock b) (tlastkey b) (pendinghandle b)
    (closed b) (pendingindexentry b) (blockhandle b).
Definition set_index (b : TableBuilder) (i : BlockBuilder) (pending : bool) : TableBuilder :=
  MkTableBuilder (tfile b) (toffset b) (tstatus b) (datablock b) i (tlastkey b) (pendinghandle b)
    (closed b) pending (blockhandle b).
Definition set_key (b : TableBuilder) (k : bytes) (n : Z) : TableBuilder :=
  MkTableBuilder (tfile b) (toffset b) (tstatus b) (datablock b) (indexblock b) k n (closed b)
    (pendingindexentry b) (blockhandle b).
Definition set_pending (b : TableBuilder) (h : BlockHandle) (pending : bool) : TableBuilder :=
  MkTableBuilder (tfile b) (toffset b) (tstatus b) (datablock b) (indexblock b) (tlastkey b)
    (pendinghandle b) (closed b) pending h.
Definition set_closed (b : TableBuilder) : TableBuilder :=
  MkTableBuilder (tfile b) (toffset b) (tstatus b) (datablock b) (indexblock b) (tlastkey b)
    (pendinghandle b) true (pendingindexentry b) (blockhandle b).

Definition filesize (b : TableBuilder) : Z := toffset b.
Definition status (b : TableBuilder) : Status := tstatus b.

(** The five bytes behind a block. *)
Definition trailer (addr : Z) (blockContents : bytes) (type : CompressionType) : bytes :=
  let t := z2b (compression_value type) in
  t :: EncodeFixed32 (Mask (Extend addr (Value addr blockContents) [t])).

Definition WriteRawBlock (addr : Z) (b : TableBuilder) (blockContents : bytes) (type : CompressionType)
    : TableBuilder * BlockHandle :=
  let handle := MkBlockHandle (toffset b) (len blockContents) in
  let '(s, f) := fappend (tfile b) blockContents in
  if ok s then
    let '(s, f) := fappend f (trailer addr blockContents type) in
    let off := if ok s then u64 (toffset b + len blockContents + kBlockTrailerSize) else toffset b in
    (set_io b f off s, handle)
  else (set_io b f (toffset b) s, handle).

(** [WriteBlock]: the block is finished, written and reset (left to the caller). *)
Definition WriteBlock (addr : Z) (b : TableBuilder) (block : BlockBuilder) : TableBuilder * BlockHandle :=
  let raw := (Block.Finish block).1 in
  let '(blockcontents, type) :=
    match compression with
    | kNoCompression => (raw, kNoCompression)
    | kSnappyCompression =>
        match snappy_compress raw with
        | Some z => if len z <? len raw - len raw / 8 then (z, kSnappyCompression)
                    else (raw, kNoCompression)
        | None => (raw, kNoCompression)
        end
    end in
  WriteRawBlock addr b blockcontents type.

(** [None] is a failed assert. *)
Definition tflush (addr : Z) (b : TableBuilder) : option TableBuilder :=
  if closed b then None
  else if BlockBuilder_empty (datablock b) then Some b
  else if pendingindexentry b then None
  else
    let '(b, h) := WriteBlock addr b (datablock b) in
    let b := set_data b BlockBuilder_make in
    let b := set_pending b h true in
    let '(s, f) := fflush (tfile b) in
    Some (set_io b f (toffset b) s).

(** The index entry for the block before, under the key [key]. *)
Definition add_index (b : TableBuilder) (key : bytes) : option TableBuilder :=
  let? handleencoding := BlockHandle_EncodeTo (blockhandle b) [] in
  let? i := BlockBuilder_Add c 1 (indexblock b) key handleencoding in
  Some (set_index (set_key b key (pendinghandle b)) i false).

Definition TableBuilder_Add (addr : Z) (b : TableBuilder) (key value : bytes) : option TableBuilder :=
  if closed b then None
  else if negb (ok (tstatus b)) then Some b
  else if (0 <? pendinghandle b) && negb (bool_decide (Compare c key (tlastkey b) = Gt)) then None
  else
    let? b :=
      if pendingindexentry b then
        if BlockBuilder_empty (datablock b) then add_index b (FindShortestSeparator c (tlastkey b) key)
        else None
      else Some b in
    let b := set_key b key (pendinghandle b + 1) in
    let? d := BlockBuilder_Add c blockrestartinterval (datablock b) key value in
    let b := set_data b d in
    if blocksize <=? CurrentSizeEstimate d then tflush addr b else Some b.

Definition TableBuilder_Finish (addr : Z) (b : TableBuilder) : option TableBuilder :=
  let? b := tflush addr b in
  if closed b then None
  else
    let b := set_closed b in
    let '(b, meta) :=
      if ok (tstatus b) then WriteBlock addr b BlockBuilder_make else (b, BlockHandle_make) in
    let? (b, idx) :=
      if ok (tstatus b) then
        let? b := if pendingindexentry b
                  then add_index b (FindShortSuccessor c (tlastkey b)) else Some b in
        let '(b, idx) := WriteBlock addr b (indexblock b) in
        Some (set_index b BlockBuilder_make (pendingindexentry b), idx)
      else Some (b, BlockHandle_make) in
    if ok (tstatus b) then
      let? footerEncoding := Footer_EncodeTo (MkFooter meta idx) [] in
      let '(s, f) := fappend (tfile b) footerEncoding in
      let off := if ok s then u64 (toffset b + len footerEncoding) else toffset b in
      Some (set_io b f off s)
    else Some b.

Definition Abandon (b : TableBuilder) : option TableBuilder :=
  if closed b then None else Some (set_closed b).
End TableBuilder.
End Format.

(** ** Handles *)

Definition handle_ok (h : BlockHandle) : Prop :=
  0 <= offset h < 2 ^ 64 - 1 /\ 0 <= hsize h < 2 ^ 64 - 1.

Definition handle_bytes (h : BlockHandle) : bytes :=
  EncodeVarint64 (offset h) ++ EncodeVarint64 (hsize h).

Lemma BlockHandle_EncodeTo_ok h dst :
  handle_ok h -> BlockHandle_EncodeTo h dst = Some (dst ++ handle_bytes h).
Proof.
  intros [Ho Hs]. unfold BlockHandle_EncodeTo. rewrite decide_True by lia.
  unfold PutVarint64, handle_bytes. by rewrite app_assoc.
Qed.

Lemma length_handle_bytes h : (2 <= length (handle_bytes h) <= 20)%nat.
Proof.
  unfold handle_bytes. rewrite length_app.
  pose proof (length_EncodeVarint64 (offset h)). pose proof (length_EncodeVarint64 (hsize h)). lia.
Qed.

Lemma BlockHandle_DecodeFrom_bytes h0 h rest :
  handle_ok h -> BlockHandle_DecodeFrom h0 (handle_bytes h ++ rest) = (OK, h, rest).
Proof.
  intros [Ho Hs]. unfold BlockHandle_DecodeFrom, handle_bytes, GetVarint64. rewrite <- app_assoc.
  rewrite !GetVarint64Ptr_Put by lia. by destruct h.
Qed.

Definition footer_bytes (f : Footer) : bytes :=
  resize 40 (handle_bytes (metaindexhandle f) ++ handle_bytes (indexHandle f)) ++
  EncodeFixed32 (Z.land kTableMagicNumber 0xffffffff) ++ EncodeFixed32 (Z.shiftr kTableMagicNumber 32).

Lemma length_resize n b : length (resize n b) = n.
Proof. unfold resize. rewrite length_app, length_take, length_replicate. lia. Qed.

Lemma length_footer_bytes f : length (footer_bytes f) = 48%nat.
Proof. unfold footer_bytes. by rewrite !length_app, length_resize, !length_EncodeFixed32. Qed.

Lemma Footer_EncodeTo_ok f :
  handle_ok (metaindexhandle f) -> handle_ok (indexHandle f) ->
  Footer_EncodeTo f [] = Some (footer_bytes f).
Proof.
  intros Hm Hi. unfold Footer_EncodeTo.
  rewrite BlockHandle_EncodeTo_ok, app_nil_l, BlockHandle_EncodeTo_ok by done.
  unfold PutFixed32. change (2 * kMaxEncodedLength)%nat with 40%nat. rewrite <- app_assoc.
  fold (footer_bytes f). by rewrite decide_True by (by rewrite length_footer_bytes).
Qed.

Lemma resize_short n b : (length b <= n)%nat -> resize n b = b ++ replicate (n - length b) x00.
Proof. intros. unfold resize. by rewrite take_ge. Qed.

Lemma magic_roundtrip :
  Z.lor (Z.shiftl (u32 (Z.shiftr kTableMagicNumber 32)) 32)
        (u32 (Z.land kTableMagicNumber 0xffffffff)) = kTableMagicNumber.
Proof. reflexivity. Qed.

Lemma Footer_DecodeFrom_bytes f0 f rest :
  handle_ok (metaindexhandle f) -> handle_ok (indexHandle f) ->
  Footer_DecodeFrom f0 (footer_bytes f ++ rest) = (OK, f, rest).
Proof.
  intros Hm Hi. unfold Footer_DecodeFrom. cbv zeta.
  assert (drop (kEncodedLength - 8) (footer_bytes f ++ rest) =
    EncodeFixed32 (Z.land kTableMagicNumber 0xffffffff) ++
    EncodeFixed32 (Z.shiftr kTableMagicNumber 32) ++ rest) as ->.
  { unfold footer_bytes. rewrite <- !app_assoc. rewrite drop_app_exact; [done|]. by rewrite length_resize. }
  rewrite DecodeFixed32_app.
  rewrite (drop_app_exact (EncodeFixed32 (Z.land kTableMagicNumber 0xffffffff)) _ 4) by done.
  rewrite DecodeFixed32_app, magic_roundtrip, Z.eqb_refl. cbn [negb].
  assert (footer_bytes f ++ rest = handle_bytes (metaindexhandle f) ++ handle_bytes (indexHandle f) ++
    drop (length (handle_bytes (metaindexhandle f) ++ handle_bytes (indexHandle f))) (footer_bytes f ++ rest)) as E.
  { unfold footer_bytes. pose proof (length_handle_bytes (metaindexhandle f)).
    pose proof (length_handle_bytes (indexHandle f)).
    rewrite resize_short by (rewrite length_app; lia). rewrite <- !app_assoc.
    rewrite (app_assoc (handle_bytes _) (handle_bytes _)), drop_app_length, <- app_assoc. done. }
  rewrite E at 1. rewrite BlockHandle_DecodeFrom_bytes by done. cbn [ok OK].
  rewrite BlockHandle_DecodeFrom_bytes by done. cbn [ok OK].
  rewrite drop_app_exact by (by rewrite length_footer_bytes). by destruct f.
Qed.

Lemma le_value_app a b : le_value (a ++ b) = le_value a + 256 ^ len a * le_value b.
Proof.
  induction a as [|x a IH]; cbn [app le_value length]; [lia|].
  rewrite IH, Nat2Z.inj_succ, Z.pow_succ_r by lia. lia.
Qed.

Lemma DecodeFixed64_halves p :
  (8 <= length p)%nat ->
  Z.lor (Z.shiftl (DecodeFixed32 (drop 4 p)) 32) (DecodeFixed32 p) = DecodeFixed64 p.
Proof.
  intros Hp. rewrite Z.lor_comm, lor_shiftl_add by (try apply DecodeFixed32_range; lia).
  unfold DecodeFixed32, DecodeFixed64. cbn [kLittleEndian negb].
  rewrite <- (take_drop 4 (take 8 p)), le_value_app, take_take, skipn_firstn_comm, length_take.
  replace (Nat.min (Nat.min 4 8) (length p)) with 4%nat by lia.
  change (Nat.min 4 8) with 4%nat. change (8 - 4)%nat with 4%nat. change (256 ^ Z.of_nat 4) with (2 ^ 32). lia.
Qed.

(** the pointers of a table file read back.  A handle that was set encodes - in at
    most 20 bytes - to bytes that decode to it and leave the rest of the input; a handle
    never set trips the assert; the footer takes exactly 48 bytes and decodes to both
    handles; and 48 bytes that do not end in the magic number are refused. *)
Theorem handles_and_footer h f h0 f0 rest :
  handle_ok h -> handle_ok (metaindexhandle f) -> handle_ok (indexHandle f) ->
  (exists enc, BlockHandle_EncodeTo h [] = Some enc /\ (length enc <= kMaxEncodedLength)%nat /\
     BlockHandle_DecodeFrom h0 (enc ++ rest) = (OK, h, rest)) /\
  BlockHandle_EncodeTo BlockHandle_make [] = None /\
  (exists enc, Footer_EncodeTo f [] = Some enc /\ length enc = kEncodedLength /\
     Footer_DecodeFrom f0 (enc ++ rest) = (OK, f, rest)) /\
  (forall input, (48 <= length input)%nat -> DecodeFixed64 (drop 40 input) <> kTableMagicNumber ->
     Footer_DecodeFrom f0 input = (Corruption (str "not an sstable (bad magic number)") [], f0, input)).
Proof.
  intros Hh Hm Hi. split; [|split; [done|split]].
  - exists (handle_bytes h). split; [by apply BlockHandle_EncodeTo_ok|].
    split; [apply length_handle_bytes|by apply BlockHandle_DecodeFrom_bytes].
  - exists (footer_bytes f). split; [by apply Footer_EncodeTo_ok|].
    split; [apply length_footer_bytes|by apply Footer_DecodeFrom_bytes].
  - intros input Hl Hmagic. unfold Footer_DecodeFrom. cbv zeta.
    change (kEncodedLength - 8)%nat with 40%nat.
    rewrite DecodeFixed64_halves by (rewrite length_drop; lia). by rewrite (proj2 (Z.eqb_neq _ _)).
Qed.

Lemma handles_and_footer_witness :
  Footer_DecodeFrom Footer_make (footer_bytes (MkFooter (MkBlockHandle 3 5) (MkBlockHandle 300 70)) ++ str "x")
  = (OK, MkFooter (MkBlockHandle 3 5) (MkBlockHandle 300 70), str "x").
Proof.
  destruct (proj1 (proj2 (proj2 (handles_and_footer (MkBlockHandle 3 5)
    (MkFooter (MkBlockHandle 3 5) (MkBlockHandle 300 70)) BlockHandle_make Footer_make (str "x")
    ltac:(unfold handle_ok; cbn; lia) ltac:(unfold handle_ok; cbn; lia) ltac:(unfold handle_ok; cbn; lia)))))
    as (e & He & _ & Hd).
  replace (footer_bytes (MkFooter (MkBlockHandle 3 5) (MkBlockHandle 300 70))) with e; [exact Hd|].
  apply (inj Some). rewrite <- He. vm_compute. reflexivity.
Defined.

(** ** Blocks in the file *)

(** What the two Snappy calls of the reader owe the one of the writer. *)
Class SnappyOk (compress : bytes -> option bytes) (length_of : bytes -> option Z)
    (uncompress : bytes -> option bytes) : Prop := {
  snappy_inverse raw z : compress raw = Some z -> uncompress z = Some raw /\ is_Some (length_of z);
}.

Definition trailer_of (z : bytes) (t : CompressionType) : bytes :=
  let t := z2b (compression_value t) in t :: EncodeFixed32 (Mask (crc32c 0 (z ++ [t]))).

Lemma trailer_eq addr z t : trailer addr z t = trailer_of z t.
Proof.
  unfold trailer, trailer_of, Value. cbv zeta.
  rewrite !Extend_crc32c by (rewrite ?Extend_crc32c by done; try apply crc32c_range; done).
  by rewrite crc32c_app.
Qed.

Lemma length_trailer_of z t : length (trailer_of z t) = 5%nat.
Proof. unfold trailer_of. cbn [length]. by rewrite length_EncodeFixed32. Qed.

Section Stored.
Context {compress : bytes -> option bytes} {length_of : bytes -> option Z} {uncompress : bytes -> option bytes}.
Context {Hsnappy : SnappyOk compress length_of uncompress}.

(** [z], stored with type [t], stands for [raw]. *)
Definition stands_for (z : bytes) (t : CompressionType) (raw : bytes) : Prop :=
  match t with
  | kNoCompression => z = raw
  | kSnappyCompression => uncompress z = Some raw /\ is_Some (length_of z)
  end.

(** The file holds [raw] behind the handle [h]. *)
Definition block_at (file : bytes) (h : BlockHandle) (raw : bytes) : Prop :=
  exists pre z t post, file = pre ++ z ++ trailer_of z t ++ post /\
    offset h = len pre /\ hsize h = len z /\ stands_for z t raw.

Lemma block_at_more file more h raw : block_at file h raw -> block_at (file ++ more) h raw.
Proof.
  intros (pre & z & t & post & -> & ? & ? & ?). exists pre, z, t, (post ++ more).
  split_and!; [|done..]. by rewrite <- !app_assoc.
Qed.

Lemma block_at_handle file h raw :
  block_at file h raw -> offset h + hsize h + 5 <= len file /\ 0 <= offset h /\ 0 <= hsize h.
Proof.
  intros (pre & z & t & post & -> & -> & -> & _).
  rewrite !length_app, length_trailer_of. lia.
Qed.

Lemma byte_at_exact z b rest : byte_at (z ++ b :: rest) (length z) = b2z b.
Proof. unfold byte_at. by rewrite list_lookup_middle. Qed.

Section Read.
Context {G : Type} `{RandomFileOk G}.

(** What reading the handle's bytes comes to. *)
Lemma ReadBlock_bytes addr g verify h z b crc :
  0 <= offset h -> hsize h = len z -> length crc = 4%nat ->
  take (length z + 5) (drop (Z.to_nat (offset h)) (rcontents g)) = z ++ b :: crc ->
  offset h + len z + 5 <= len (rcontents g) -> len (rcontents g) < 2 ^ 64 ->
  ReadBlock length_of uncompress addr g verify h =
    if verify && negb (crc32c 0 (z ++ [b]) =? Unmask (DecodeFixed32 crc)) then
      (Corruption (str "block checksum mismatch") [], MkBlockContents [] false false)
    else if b2z b =? 0 then (OK, MkBlockContents z (negb (direct g)) (negb (direct g)))
    else if b2z b =? 1 then
      match length_of z, uncompress z with
      | Some _, Some u => (OK, MkBlockContents u true true)
      | _, _ => (Corruption (str "corrupted compressed block contents") [], MkBlockContents [] false false)
      end
    else (Corruption (str "bad block type") [], MkBlockContents [] false false).
Proof.
  intros Ho Hs Hc Ht Hl Hf. unfold ReadBlock, GetSize, GetOffset. cbv zeta.
  rewrite Hs, u64_small by (unfold kBlockTrailerSize; lia).
  rewrite rread_ok by (unfold kBlockTrailerSize; lia).
  replace (Z.to_nat (len z + kBlockTrailerSize)) with (length z + 5)%nat by (unfold kBlockTrailerSize; lia).
  rewrite Ht. cbn [ok OK negb].
  assert (len (z ++ b :: crc) = len z + kBlockTrailerSize) as ->
    by (rewrite length_app; cbn [length]; unfold kBlockTrailerSize; lia).
  rewrite Z.eqb_refl. cbn [negb]. rewrite Nat2Z.id.
  assert (take (length z + 1) (z ++ b :: crc) = z ++ [b]) as ->.
  { rewrite (app_assoc z [b] crc : z ++ b :: crc = _), take_app_exact; [done|]. rewrite length_app. done. }
  assert (drop (length z + 1) (z ++ b :: crc) = crc) as ->.
  { rewrite (app_assoc z [b] crc : z ++ b :: crc = _), drop_app_exact; [done|]. rewrite length_app. done. }
  unfold Value. rewrite Extend_crc32c by done.
  rewrite byte_at_exact, take_app_length. reflexivity.
Qed.

Lemma ReadBlock_at addr g verify h raw :
  block_at (rcontents g) h raw -> len (rcontents g) < 2 ^ 64 ->
  exists contents, ReadBlock length_of uncompress addr g verify h = (OK, contents) /\ bdata contents = raw.
Proof.
  intros Hat Hf. destruct (block_at_handle _ _ _ Hat) as (Hsz & Ho & _).
  destruct Hat as (pre & z & t & post & E & Hpre & Hz & Hst).
  assert (forall v, Unmask (DecodeFixed32 (EncodeFixed32 (Mask (crc32c 0 v)))) = crc32c 0 v) as Hcrc.
  { intros v. pose proof (DecodeFixed32_app (Mask (crc32c 0 v)) []) as Hd. rewrite app_nil_r in Hd.
    rewrite Hd, u32_small by apply Mask_range. apply Unmask_Mask, crc32c_range. done. }
  rewrite (ReadBlock_bytes addr g verify h z (z2b (compression_value t))
    (EncodeFixed32 (Mask (crc32c 0 (z ++ [z2b (compression_value t)]))))); [|lia|lia|done| |lia|lia].
  2:{ rewrite E, Hpre, Nat2Z.id, drop_app_length, app_assoc.
      apply (take_app_exact (z ++ trailer_of z t)). by rewrite length_app, length_trailer_of. }
  rewrite Hcrc, Z.eqb_refl, andb_false_r.
  destruct t; cbn [compression_value stands_for] in *.
  - rewrite b2z_z2b. cbn. eexists. split; [done|]. done.
  - destruct Hst as [Hu [n Hn]]. rewrite b2z_z2b. cbn. rewrite Hu, Hn. by eexists.
Qed.

Lemma take_block (z : bytes) b crc post n :
  length z = n -> length crc = 4%nat -> take (n + 5) ((z ++ [b]) ++ crc ++ post) = z ++ b :: crc.
Proof.
  intros <- Hc. rewrite app_assoc, take_app_exact; [by rewrite <- app_assoc|].
  rewrite !length_app. cbn [length]. lia.
Qed.

(** A burst of at most four changed bytes in the block or its type byte is detected. *)
Lemma ReadBlock_burst addr g h z t pre post a x y b :
  rcontents g = pre ++ (a ++ y ++ b) ++ drop 1 (trailer_of z t) ++ post ->
  offset h = len pre -> hsize h = len z -> z ++ take 1 (trailer_of z t) = a ++ x ++ b ->
  length x = length y -> (length x <= 4)%nat -> x <> y -> len (rcontents g) < 2 ^ 64 ->
  ReadBlock length_of uncompress addr g true h =
    (Corruption (str "block checksum mismatch") [], MkBlockContents [] false false).
Proof.
  intros E Hpre Hz Hsplit Hxy Hx Hne Hf.
  assert (length (a ++ y ++ b) = S (length z)) as Hlen.
  { pose proof (f_equal length Hsplit) as Hl. rewrite !length_app in *.
    rewrite length_take, length_trailer_of in Hl. lia. }
  assert (exists z' b', a ++ y ++ b = z' ++ [b'] /\ length z' = length z) as (z' & b' & Hsn & Hz').
  { destruct (a ++ y ++ b) as [|u l _] using rev_ind; [done|]. exists l, u. split; [done|].
    rewrite length_app in Hlen. cbn in Hlen. lia. }
  assert (len (rcontents g) = len pre + len z + 5 + len post) as Hlg.
  { rewrite E, (length_app pre), (length_app (a ++ y ++ b)), Hlen, length_app, length_drop, length_trailer_of. lia. }
  erewrite (ReadBlock_bytes addr g true h z' b' (drop 1 (trailer_of z t)));
    [|lia|lia|by rewrite length_drop, length_trailer_of| |lia|lia].
  2:{ rewrite E, Hpre, Nat2Z.id, drop_app_length, Hsn. apply take_block; [done|].
      by rewrite length_drop, length_trailer_of. }
  assert (drop 1 (trailer_of z t) = EncodeFixed32 (Mask (crc32c 0 (z ++ take 1 (trailer_of z t))))) as -> by done.
  pose proof (DecodeFixed32_app (Mask (crc32c 0 (z ++ take 1 (trailer_of z t)))) []) as Hd.
  rewrite app_nil_r in Hd. rewrite Hd, u32_small, Unmask_Mask by (try apply Mask_range; apply crc32c_range; done).
  rewrite Hsplit, <- Hsn. rewrite (proj2 (Z.eqb_neq _ _)); [done|].
  intros Hc. symmetry in Hc. by apply crc32c_burst in Hc.
Qed.
End Read.

Section Write.
Context {F : Type} `{AppendFileOk F} (compression : CompressionType).

Lemma WriteRawBlock_ok addr (b : TableBuilder (F := F)) z t :
  healthy (tfile b) -> 0 <= toffset b -> toffset b + len z + 5 < 2 ^ 64 ->
  exists f, WriteRawBlock addr b z t =
      (set_io b f (toffset b + len z + 5) OK, MkBlockHandle (toffset b) (len z)) /\
    healthy f /\ contents f = contents (tfile b) ++ z ++ trailer_of z t.
Proof.
  intros Hh Ho Hsz. unfold WriteRawBlock.
  destruct (fappend_ok (tfile b) z Hh) as (f1 & -> & Hh1 & Hc1). cbn [ok OK].
  destruct (fappend_ok f1 (trailer addr z t) Hh1) as (f2 & -> & Hh2 & Hc2). cbn [ok OK].
  exists f2. rewrite u64_small by (unfold kBlockTrailerSize; lia). split; [done|]. split; [done|].
  by rewrite Hc2, Hc1, trailer_eq, <- app_assoc.
Qed.

Lemma WriteBlock_ok addr (b : TableBuilder (F := F)) block :
  let raw := (Block.Finish block).1 in
  healthy (tfile b) -> 0 <= toffset b -> toffset b + len raw + 5 < 2 ^ 64 ->
  exists f z t, WriteBlock compress compression addr b block =
      (set_io b f (toffset b + len z + 5) OK, MkBlockHandle (toffset b) (len z)) /\
    healthy f /\ contents f = contents (tfile b) ++ z ++ trailer_of z t /\
    stands_for z t raw /\ len z <= len raw.
Proof.
  intros raw Hh Ho Hsz. unfold WriteBlock. fold raw. cbv zeta.
  assert (exists z t, (match compression with
    | kNoCompression => (raw, kNoCompression)
    | kSnappyCompression =>
        match compress raw with
        | Some z => if len z <? len raw - len raw / 8 then (z, kSnappyCompression)
                    else (raw, kNoCompression)
        | None => (raw, kNoCompression)
        end
    end) = (z, t) /\ stands_for z t raw /\ len z <= len raw) as (z & t & -> & Hst & Hz).
  { destruct compression; [by exists raw, kNoCompression|].
    destruct (compress raw) as [z|] eqn:E; [|by exists raw, kNoCompression].
    destruct (Z.ltb_spec (len z) (len raw - len raw / 8)); [|by exists raw, kNoCompression].
    exists z, kSnappyCompression. split; [done|]. split; [by apply snappy_inverse|].
    pose proof (Z.div_pos (len raw) 8). lia. }
  destruct (WriteRawBlock_ok addr b z t Hh Ho ltac:(lia)) as (f & -> & Hf & Hc).
  by exists f, z, t.
Qed.
End Write.

(** C29: a block written is the block read.  On a healthy file [WriteBlock] appends the
    finished block - compressed when that saves an eighth - with its type and masked
    checksum, moves the offset past them and answers with the handle; whatever is
    appended afterwards, [ReadBlock] at that handle returns exactly the finished block,
    from any file and at any buffer address.  And if up to four adjacent bytes of the
    stored block or of its type are changed, a reader that verifies checksums gets
    "block checksum mismatch" and no data. *)
Theorem block_write_read {F} `{AppendFileOk F} {G} `{RandomFileOk G} compression addr addr'
    (b : TableBuilder (F := F)) block (g : G) :
  let raw := (Block.Finish block).1 in
  healthy (tfile b) -> toffset b = len (contents (tfile b)) -> toffset b + len raw + 5 < 2 ^ 64 ->
  let '(b', h) := WriteBlock compress compression addr b block in
  tstatus b' = OK /\ toffset b' = len (contents (tfile b')) /\
  (contents (tfile b) `prefix_of` contents (tfile b')) /\ len (contents (tfile b')) <= toffset b + len raw + 5 /\
  (forall verify, contents (tfile b') `prefix_of` rcontents g -> len (rcontents g) < 2 ^ 64 ->
     exists r, ReadBlock length_of uncompress addr' g verify h = (OK, r) /\ bdata r = raw) /\
  (forall pre a x y c post, contents (tfile b') = pre ++ (a ++ x ++ c) ++ post ->
     pre = contents (tfile b) -> length post = 4%nat ->
     length x = length y -> (length x <= 4)%nat -> x <> y ->
     rcontents g = pre ++ (a ++ y ++ c) ++ post ->
     ReadBlock length_of uncompress addr' g true h =
       (Corruption (str "block checksum mismatch") [], MkBlockContents [] false false)).
Proof.
  intros raw Hh Ho Hsz.
  destruct (WriteBlock_ok compression addr b block Hh ltac:(lia) Hsz) as (f & z & t & -> & Hf & Hc & Hst & Hz).
  fold raw in Hst, Hz. cbn [tstatus toffset tfile set_io].
  assert (len (contents f) = toffset b + len z + 5) as Hl
    by (rewrite Hc, !length_app, length_trailer_of; lia).
  refine (conj eq_refl (conj _ (conj _ (conj _ (conj _ _))))); [lia|rewrite Hc; by eexists|lia| |].
  - intros verify [post Hg] Hlg. apply ReadBlock_at; [|done]. rewrite Hg. apply block_at_more.
    exists (contents (tfile b)), z, t, []. by rewrite app_nil_r.
  - intros pre a x y c post Hcc -> Hp Hxy Hx Hne Hg.
    rewrite Hc in Hcc. apply app_inv_head in Hcc.
    rewrite <- (take_drop 1 (trailer_of z t)), app_assoc in Hcc.
    apply app_inj_2 in Hcc as [Hsplit Hpost]; [|by rewrite Hp, length_drop, length_trailer_of].
    apply (ReadBlock_burst addr' g _ z t (contents (tfile b)) [] a x y c); try done.
    + rewrite Hg. by rewrite app_nil_r, Hpost.
    + rewrite Hg. rewrite Hc in Hl. rewrite <- Hpost. pose proof (f_equal length Hsplit) as Hs.
      rewrite !length_app in *. rewrite length_drop, length_take, !length_trailer_of in *. lia.
Qed.
End Stored.

(** *** A concrete compression: a run of one byte value becomes the byte and a count *)

Definition run_compress (raw : bytes) : option bytes :=
  match raw with
  | b :: _ => if decide (raw = replicate (length raw) b /\ len raw < 2 ^ 32)
              then Some (b :: EncodeFixed32 (len raw)) else None
  | [] => None
  end.
Definition run_uncompress (z : bytes) : option bytes :=
  match z with b :: n => Some (replicate (Z.to_nat (DecodeFixed32 n)) b) | [] => None end.
Definition run_length (z : bytes) : option Z :=
  match z with _ :: n => Some (DecodeFixed32 n) | [] => None end.

#[export] Instance run_ok : SnappyOk run_compress run_length run_uncompress.
Proof.
  constructor. intros [|b raw] z; [done|]. unfold run_compress. case_decide as Hd; [|done].
  destruct Hd as [Hr Hl]. remember (b :: raw) as l. intros Hz. apply (inj Some) in Hz as <-.
  split; [|by eexists]. unfold run_uncompress.
  pose proof (DecodeFixed32_app (len l) []) as Hdec. rewrite app_nil_r in Hdec.
  rewrite Hdec, u32_small, Nat2Z.id by lia. by rewrite <- Hr.
Qed.

Lemma block_write_read_witness :
  let w := MkWritableFile (str "head") [] [] (str "f") in
  let b := set_io (TableBuilder_make (F := WritableFile) w) w 4 OK in
  let blk := MkBlockBuilder (replicate 300 x00) [] 0 false [] in
  let strerror := fun _ => [] in
  let '(b', h) := WriteBlock (H := WritableFile_append strerror) run_compress kSnappyCompression 0 b blk in
  hsize h = 5 /\ tstatus b' = OK.
Proof.
  pose proof (block_write_read (F := WritableFile) (H := WritableFile_append (fun _ => []))
    (G := MmapFile) (H1 := MmapFile_random (fun _ => [])) kSnappyCompression 0 0
    (set_io (TableBuilder_make (F := WritableFile) (MkWritableFile (str "head") [] [] (str "f")))
      (MkWritableFile (str "head") [] [] (str "f")) 4 OK)
    (MkBlockBuilder (replicate 300 x00) [] 0 false []) (MkMmapFile [] []) ltac:(constructor) eq_refl
    ltac:(vm_compute; reflexivity)) as Hw.
  cbn zeta. destruct (WriteBlock _ _ _ _ _) as [b' h] eqn:E. split; [|exact (proj1 Hw)].
  vm_compute in E. injection E as <- <-. reflexivity.
Defined.
