(* ===== verification/LruCache.v ===== *)
(** The cache of open tables and of blocks (redisdb/db/cache.h, cache.cc).

    A shard keeps its handles twice: in [lru], in insertion order, and in the hash set
    [tables].  [hash] is [std::hash] truncated to 32 bits, a parameter.  A failed assert
    is [None]. *)
From Stdlib Require Import Permutation.
From S2P Require Import Prelude Coding.
Local Open Scope Z_scope.
Abbreviation len l := (Z.of_nat (length l)).

(** What a client may rely on. *)
Class Cache (K V : Type) := {
  clookup : K -> bytes -> option V;
  cinsert : K -> bytes -> V -> Z -> option K;
  crelease : K -> bytes -> option K;      (* the handle of this key is given back *)
  cerase : K -> bytes -> option K;
}.

Class CacheOk (K V : Type) `{Cache K V} (valid : K -> Prop) : Prop := {
  cinsert_ok c key v charge : valid c -> length key = 8%nat -> 0 <= charge -> clookup c key = None ->
    exists c', cinsert c key v charge = Some c' /\ valid c' /\
      forall key' v', length key' = 8%nat -> clookup c' key' = Some v' ->
        (key' = key /\ v' = v) \/ clookup c key' = Some v';
  crelease_ok c key : valid c -> length key = 8%nat ->
    exists c', crelease c key = Some c' /\ valid c' /\ clookup c' key = None /\
      forall key' v', length key' = 8%nat -> clookup c' key' = Some v' -> clookup c key' = Some v';
  cerase_ok c key : valid c -> length key = 8%nat ->
    exists c', cerase c key = Some c' /\ valid c' /\ clookup c' key = None /\
      forall key' v', length key' = 8%nat -> clookup c' key' = Some v' -> clookup c key' = Some v';
}.

Section Cache.
Context {V : Type} (hash_of : bytes -> Z).

Record LRUHandle := MkLRUHandle { hkey : bytes; hhash : Z; hvalue : V; hcharge : Z }.

Record LRUCache := MkLRUCache {
  capacity : Z;
  usage : Z;
  lru : list LRUHandle;
  tables : list LRUHandle;
}.

Definition LRUCache_make (cap : Z) : LRUCache := MkLRUCache cap 0 [] [].

(** [struct Equal]: compares as many bytes as [y] has.  REQUIRES: [x] is as long. *)
Definition LRU_Equal (x y : bytes) : bool := bool_decide (take (length y) x = y).

(** [tables.find] of a handle with this key and hash. *)
Definition tables_find (t : list LRUHandle) (key : bytes) (hash : Z) : option LRUHandle :=
  List.find (fun h => (hhash h =? hash) && LRU_Equal key (hkey h)) t.

(** [tables.erase] of the handle found. *)
Fixpoint tables_erase (t : list LRUHandle) (key : bytes) (hash : Z) : list LRUHandle * nat :=
  match t with
  | [] => ([], O)
  | h :: t =>
      if (hhash h =? hash) && LRU_Equal key (hkey h) then (t, 1%nat)
      else let '(t', n) := tables_erase t key hash in (h :: t', n)
  end.

Definition sizes_agree (c : LRUCache) : bool := (length (tables c) =? length (lru c))%nat.

Definition LRU_Lookup (c : LRUCache) (key : bytes) (hash : Z) : option LRUHandle :=
  tables_find (tables c) key hash.

(** The loop at the end of [Insert]: it leaves after one round. *)
Definition evict_one (c : LRUCache) : option LRUCache :=
  if capacity c <? usage c then
    match lru c with
    | [] => Some c
    | front :: lru =>
        let '(t, n) := tables_erase (tables c) (hkey front) (hhash front) in
        if (n =? 1)%nat then Some (MkLRUCache (capacity c) (u64 (usage c - hcharge front)) lru t) else None
    end
  else Some c.

Definition LRU_Insert (c : LRUCache) (key : bytes) (hash : Z) (value : V) (charge : Z)
    : option (LRUHandle * LRUCache) :=
  if negb (sizes_agree c) then None
  else
    let e := MkLRUHandle key hash value charge in
    let usage := u64 (usage c + charge) in
    let t := match tables_find (tables c) key hash with Some _ => tables c | None => tables c ++ [e] end in
    let c := MkLRUCache (capacity c) usage (lru c ++ [e]) t in
    if negb (sizes_agree c) then None
    else
      let? c := evict_one c in
      if sizes_agree c then Some (e, c) else None.

(** The scan of [Release] and of [Erase] for the key: the entry and the list without it. *)
Fixpoint lru_take (l : list LRUHandle) (key : bytes) : option (LRUHandle * list LRUHandle) :=
  match l with
  | [] => None
  | h :: l =>
      if decide (hkey h = key) then Some (h, l)
      else let? (e, l') := lru_take l key in Some (e, h :: l')
  end.

(** [Erase(key)]; [Release(handle)] does the same with the handle's key.  The deleter of
    every entry in the program is empty. *)
Definition LRU_Erase (c : LRUCache) (key : bytes) : option LRUCache :=
  if negb (sizes_agree c) then None
  else
    let c' :=
      match lru_take (lru c) key with
      | None => Some c
      | Some (e, l) =>
          match tables_find (tables c) (hkey e) (hhash e) with
          | None => None
          | Some _ =>
              let '(t, _) := tables_erase (tables c) (hkey e) (hhash e) in
              Some (MkLRUCache (capacity c) (u64 (usage c - hcharge e)) l t)
          end
      end in
    let? c' := c' in
    if sizes_agree c' then Some c' else None.

Definition LRU_Release (c : LRUCache) (handle : LRUHandle) : option LRUCache := LRU_Erase c (hkey handle).

Definition TotalCharge_shard (c : LRUCache) : Z := usage c.

(** ** The sharded cache *)

Definition kNumShardBits : Z := 4.
Definition kNumShards : nat := 16.

Definition HashView (s : bytes) : Z := u32 (hash_of s).
Definition Shard (hash : Z) : nat := Z.to_nat (Z.shiftr hash (32 - kNumShardBits)).

Record ShardedLRUCache := MkShardedLRUCache { shards : list LRUCache; lastId : Z }.

Definition ShardedLRUCache_make (cap : Z) : ShardedLRUCache :=
  let perShard := u64 (cap + (Z.of_nat kNumShards - 1)) / Z.of_nat kNumShards in
  MkShardedLRUCache (replicate kNumShards (LRUCache_make perShard)) 0.

Definition Lookup (c : ShardedLRUCache) (key : bytes) : option LRUHandle :=
  let hash := HashView key in
  let? s := shards c !! Shard hash in LRU_Lookup s key hash.

Definition Insert (c : ShardedLRUCache) (key : bytes) (value : V) (charge : Z)
    : option (LRUHandle * ShardedLRUCache) :=
  let hash := HashView key in
  let? s := shards c !! Shard hash in
  let? (e, s) := LRU_Insert s key hash value charge in
  Some (e, MkShardedLRUCache (<[Shard hash := s]> (shards c)) (lastId c)).

Definition Erase (c : ShardedLRUCache) (key : bytes) : option ShardedLRUCache :=
  let hash := HashView key in
  let? s := shards c !! Shard hash in
  let? s := LRU_Erase s key in
  Some (MkShardedLRUCache (<[Shard hash := s]> (shards c)) (lastId c)).

Definition Release (c : ShardedLRUCache) (handle : LRUHandle) : option ShardedLRUCache :=
  let? s := shards c !! Shard (hhash handle) in
  let? s := LRU_Release s handle in
  Some (MkShardedLRUCache (<[Shard (hhash handle) := s]> (shards c)) (lastId c)).

Definition NewId (c : ShardedLRUCache) : Z * ShardedLRUCache :=
  (u64 (lastId c + 1), MkShardedLRUCache (shards c) (u64 (lastId c + 1))).

Definition TotalCharge (c : ShardedLRUCache) : Z :=
  fold_left (fun total s => u64 (total + TotalCharge_shard s)) (shards c) 0.

#[export] Instance Sharded_cache : Cache ShardedLRUCache V := {
  clookup c key := hvalue <$> Lookup c key;
  cinsert c key v charge := snd <$> Insert c key v charge;
  crelease c key := Erase c key;
  cerase c key := Erase c key;
}.

(** ** The invariant of a shard *)

Definition charges (l : list LRUHandle) : Z := foldr (fun h z => hcharge h + z) 0 l.

(** Keys are eight bytes and come with their own hash; both structures hold the same
    handles in the same order, no key twice, and [usage] is their total charge. *)
Record shard_ok (s : LRUCache) : Prop := {
  so_same : tables s = lru s;
  so_keys : Forall (fun h => length (hkey h) = 8%nat /\ hhash h = HashView (hkey h) /\ 0 <= hcharge h) (lru s);
  so_nodup : NoDup (map hkey (lru s));
  so_usage : usage s = u64 (charges (lru s));
}.

Definition handle_fits (h : LRUHandle) : Prop :=
  length (hkey h) = 8%nat /\ hhash h = HashView (hkey h) /\ 0 <= hcharge h.

(** The handles without those of [key]. *)
Definition without (key : bytes) (l : list LRUHandle) : list LRUHandle :=
  filter (fun h => hkey h <> key) l.

Definition find_key (l : list LRUHandle) (key : bytes) : option LRUHandle :=
  List.find (fun h => bool_decide (hkey h = key)) l.

Lemma match_handle h key :
  handle_fits h -> length key = 8%nat ->
  (hhash h =? HashView key) && LRU_Equal key (hkey h) = bool_decide (hkey h = key).
Proof.
  intros (Hl & Hh & _) Hk. unfold LRU_Equal. rewrite Hl, take_ge by lia.
  destruct (decide (hkey h = key)) as [<-|Hne].
  - by rewrite Hh, Z.eqb_refl, !bool_decide_eq_true_2.
  - rewrite (bool_decide_eq_false_2 (key = hkey h)), andb_false_r by congruence.
    by rewrite bool_decide_eq_false_2.
Qed.

Lemma tables_find_key l key :
  Forall handle_fits l -> length key = 8%nat -> tables_find l key (HashView key) = find_key l key.
Proof.
  intros Hl Hk. unfold tables_find, find_key.
  induction Hl as [|h l Hh Hl IH]; cbn [List.find]; [done|]. by rewrite match_handle, IH.
Qed.

Lemma find_key_None l key : find_key l key = None <-> key ∉ map hkey l.
Proof.
  unfold find_key. induction l as [|h l IH]; cbn [List.find map]; [split; [intros _; apply not_elem_of_nil|done]|].
  rewrite not_elem_of_cons, <- IH. destruct (decide (hkey h = key)) as [->|Hne].
  - rewrite bool_decide_eq_true_2 by done. split; [done|]. by intros [? _].
  - rewrite bool_decide_eq_false_2 by done. split; [intros; split; [congruence|done]|by intros [_ ?]].
Qed.

Lemma find_key_Some l key h : find_key l key = Some h -> h ∈ l /\ hkey h = key.
Proof.
  unfold find_key. intros H. apply find_some in H as [Hin Hk].
  split; [by apply list_elem_of_In|by apply bool_decide_eq_true_1 in Hk].
Qed.

Lemma find_key_app a b key :
  find_key (a ++ b) key = match find_key a key with Some h => Some h | None => find_key b key end.
Proof.
  unfold find_key. induction a as [|h a IH]; cbn [app List.find]; [done|]. by case_bool_decide.
Qed.

Lemma without_absent key l : key ∉ map hkey l -> without key l = l.
Proof.
  unfold without. induction l as [|h l IH]; cbn [map]; [done|].
  rewrite not_elem_of_cons. intros [Hne Hni]. rewrite filter_cons_True by congruence. by rewrite IH.
Qed.

Lemma tables_erase_key l key :
  Forall handle_fits l -> NoDup (map hkey l) -> length key = 8%nat ->
  tables_erase l key (HashView key) =
    (without key l, if decide (key ∈ map hkey l) then 1%nat else 0%nat).
Proof.
  intros Hl Hnd Hk. induction Hl as [|h l Hh Hl IH]; cbn [tables_erase map].
  { rewrite decide_False by apply not_elem_of_nil. done. }
  cbn [map] in Hnd. apply NoDup_cons in Hnd as [Hni Hnd]. rewrite match_handle, IH by done.
  destruct (decide (hkey h = key)) as [<-|Hne].
  - rewrite bool_decide_eq_true_2 by done. rewrite decide_True by (left; done).
    unfold without. rewrite filter_cons_False by (intros H; by apply H).
    fold (without (hkey h) l). by rewrite without_absent.
  - rewrite bool_decide_eq_false_2 by done. unfold without. rewrite filter_cons_True by done.
    f_equal. destruct (decide (key ∈ map hkey l)); [rewrite decide_True by (by right)|rewrite decide_False]; try done.
    rewrite not_elem_of_cons. split; congruence.
Qed.

Lemma lru_take_key l key :
  NoDup (map hkey l) ->
  lru_take l key = match find_key l key with Some h => Some (h, without key l) | None => None end.
Proof.
  unfold find_key. induction l as [|h l IH]; cbn [lru_take map List.find]; [done|].
  rewrite NoDup_cons. intros [Hni Hnd]. destruct (decide (hkey h = key)) as [<-|Hne].
  - rewrite bool_decide_eq_true_2 by done. unfold without.
    rewrite filter_cons_False by (intros H; by apply H).
    fold (without (hkey h) l). by rewrite without_absent.
  - rewrite bool_decide_eq_false_2, IH by done. unfold without. rewrite filter_cons_True by done.
    by destruct (List.find _ l).
Qed.

Lemma charges_app a b : charges (a ++ b) = charges a + charges b.
Proof. unfold charges. induction a as [|h a IH]; cbn [app foldr]; lia. Qed.

Lemma charges_nonneg l : Forall handle_fits l -> 0 <= charges l.
Proof.
  unfold charges. induction 1 as [|h l (_ & _ & Hc) Hl IH]; cbn [foldr]; lia.
Qed.

Lemma charges_without l key h :
  NoDup (map hkey l) -> find_key l key = Some h -> charges (without key l) = charges l - hcharge h.
Proof.
  unfold find_key, charges. induction l as [|x l IH]; cbn [map List.find]; [done|].
  rewrite NoDup_cons. intros [Hni Hnd]. destruct (decide (hkey x = key)) as [<-|Hne].
  - rewrite bool_decide_eq_true_2 by done. intros [= ->]. unfold without.
    rewrite filter_cons_False by (intros H; by apply H).
    fold (without (hkey h) l). rewrite without_absent by done. cbn [foldr]. lia.
  - rewrite bool_decide_eq_false_2 by done. intros Hf. unfold without. rewrite filter_cons_True by done.
    cbn [foldr]. unfold without in IH. rewrite IH by done. lia.
Qed.

Lemma find_without l key key' h : find_key (without key l) key' = Some h -> find_key l key' = Some h.
Proof.
  unfold find_key, without. induction l as [|x l IH]; [done|]. rewrite filter_cons. case_decide as Hd; cbn [List.find].
  - case_bool_decide; [done|apply IH].
  - intros Hf. assert (hkey x <> key') as Hne.
    { intros Hx. apply find_some in Hf as [Hin Hk]. apply bool_decide_eq_true_1 in Hk.
      apply list_elem_of_In, list_elem_of_filter in Hin as [Hn _].
      apply Hn. rewrite Hk, <- Hx. destruct (decide (hkey x = key)); [done|by destruct Hd]. }
    rewrite bool_decide_eq_false_2 by done. by apply IH.
Qed.

Lemma without_ok key l :
  Forall handle_fits l -> NoDup (map hkey l) ->
  Forall handle_fits (without key l) /\ NoDup (map hkey (without key l)) /\ key ∉ map hkey (without key l).
Proof.
  intros Hl Hnd. unfold without. split; [rewrite Forall_forall in *; intros h [_ Hin]%list_elem_of_filter; by apply Hl|]. split.
  - eapply sublist_NoDup; [exact Hnd|]. apply (fmap_sublist hkey), sublist_filter.
  - intros (h & Hk & Hin)%list_elem_of_fmap. apply list_elem_of_filter in Hin as [Hne _]. congruence.
Qed.

(** What [Insert] makes of the list: the new handle behind, and the oldest one dropped
    when the total is over the capacity. *)
Definition fifo_insert (cap : Z) (l : list LRUHandle) (e : LRUHandle) : list LRUHandle :=
  if cap <? u64 (charges (l ++ [e])) then tail (l ++ [e]) else l ++ [e].

Lemma u64_add a b : u64 (u64 a + b) = u64 (a + b).
Proof. unfold u64. apply Zplus_mod_idemp_l. Qed.
Lemma u64_sub a b : u64 (u64 a - b) = u64 (a - b).
Proof. unfold u64. apply Zminus_mod_idemp_l. Qed.

Lemma shard_insert s key v charge :
  shard_ok s -> length key = 8%nat -> 0 <= charge -> find_key (lru s) key = None ->
  let e := MkLRUHandle key (HashView key) v charge in
  exists s', LRU_Insert s key (HashView key) v charge = Some (e, s') /\ shard_ok s' /\
    capacity s' = capacity s /\ lru s' = fifo_insert (capacity s) (lru s) e.
Proof.
  intros [Hsame Hfit Hnd Hus] Hk Hc Hf e. unfold LRU_Insert, sizes_agree.
  rewrite Hsame, Nat.eqb_refl. cbn [negb].
  rewrite tables_find_key, Hf by done. cbn [tables lru]. rewrite Nat.eqb_refl. cbn [negb].
  assert (Forall handle_fits (lru s ++ [e])) as Hfit' by (apply Forall_app; split; [done|]; by repeat constructor).
  assert (NoDup (map hkey (lru s ++ [e]))) as Hnd'.
  { rewrite map_app. apply NoDup_app. split; [done|]. split; [|apply NoDup_singleton].
    intros k Hk1 Hk2. apply list_elem_of_singleton in Hk2. subst k. by apply find_key_None in Hf. }
  assert (u64 (usage s + charge) = u64 (charges (lru s ++ [e]))) as Hus'.
  { rewrite charges_app, Hus, u64_add. cbn. by rewrite Z.add_0_r. }
  unfold evict_one. cbn [capacity usage lru tables]. unfold fifo_insert. fold e. rewrite Hus'.
  destruct (_ <? _) eqn:Eo.
  - destruct (lru s ++ [e]) as [|front l] eqn:El; [by destruct (lru s)|].
    pose proof Hfit' as Hall. apply Forall_cons in Hfit' as [(Hfk & Hfh & Hfc) Hfit'].
    pose proof Hnd' as Hnd''. cbn [map] in Hnd''. apply NoDup_cons in Hnd'' as [Hni Hndl].
    rewrite Hfh, tables_erase_key by done.
    rewrite decide_True by (left; done). cbn [Nat.eqb].
    unfold without. rewrite filter_cons_False by (intros H; by apply H).
    fold (without (hkey front) l). rewrite without_absent by done.
    cbn [tables lru]. rewrite Nat.eqb_refl. eexists. split; [done|].
    split; [|done]. constructor; cbn [tables lru usage]; try done.
    rewrite u64_sub. f_equal. unfold charges. cbn [foldr]. lia.
  - cbn [tables lru]. rewrite Nat.eqb_refl. eexists. split; [done|]. split; [|done].
    by constructor.
Qed.

Lemma shard_erase s key :
  shard_ok s -> length key = 8%nat ->
  exists s', LRU_Erase s key = Some s' /\ shard_ok s' /\ capacity s' = capacity s /\
    lru s' = without key (lru s).
Proof.
  intros Hs Hk. pose proof Hs as [Hsame Hfit Hnd Hus]. unfold LRU_Erase, sizes_agree.
  rewrite Hsame, Nat.eqb_refl. cbn [negb]. rewrite lru_take_key by done.
  destruct (find_key (lru s) key) as [h|] eqn:Ef.
  - pose proof (find_key_Some _ _ _ Ef) as [Hin Hkey]. pose proof Hfit as Hfit'.
    rewrite Forall_forall in Hfit'. destruct (Hfit' h Hin) as (Hl & Hh & _).
    rewrite Hh, Hkey, tables_find_key, Ef, tables_erase_key by done.
    cbn [tables lru]. rewrite Nat.eqb_refl. eexists. split; [done|]. split; [|done].
    destruct (without_ok key (lru s) Hfit Hnd) as (? & ? & _).
    constructor; cbn [tables lru usage]; try done.
    by rewrite Hus, u64_sub, (charges_without _ key h).
  - rewrite Hsame, Nat.eqb_refl. exists s. split; [done|]. split; [done|]. split; [done|].
    symmetry. apply without_absent. by apply find_key_None.
Qed.

(** The cache: sixteen well-formed shards. *)
Definition cache_ok (c : ShardedLRUCache) : Prop :=
  length (shards c) = kNumShards /\ Forall shard_ok (shards c).

Lemma Shard_range hash : 0 <= hash < 2 ^ 32 -> (Shard hash < 16)%nat.
Proof.
  intros Hh. unfold Shard, kNumShardBits. rewrite Z.shiftr_div_pow2 by done.
  assert (hash / 2 ^ (32 - 4) < 16); [|lia]. apply Z.div_lt_upper_bound; lia.
Qed.

(** The handles a key can be among. *)
Definition shard_of (c : ShardedLRUCache) (key : bytes) : LRUCache :=
  nth (Shard (HashView key)) (shards c) (LRUCache_make 0).

Lemma shard_at c key :
  cache_ok c -> shards c !! Shard (HashView key) = Some (shard_of c key) /\ shard_ok (shard_of c key).
Proof.
  intros [Hl Hf]. destruct (lookup_lt_is_Some_2 (shards c) (Shard (HashView key))) as [s Hs].
  { rewrite Hl. apply Shard_range, u32_range. }
  assert (shard_of c key = s) as -> by (by apply nth_lookup_Some). split; [done|].
  rewrite Forall_lookup in Hf. by eapply Hf.
Qed.

Lemma Lookup_key c key :
  cache_ok c -> length key = 8%nat -> Lookup c key = find_key (lru (shard_of c key)) key.
Proof.
  intros Hc Hk. destruct (shard_at c key Hc) as [Hs [Hsame Hfit _ _]].
  unfold Lookup. rewrite Hs. unfold LRU_Lookup. by rewrite Hsame, tables_find_key.
Qed.

(** Replacing the shard of [key]. *)
Definition with_shard (c : ShardedLRUCache) (key : bytes) (s : LRUCache) : ShardedLRUCache :=
  MkShardedLRUCache (<[Shard (HashView key) := s]> (shards c)) (lastId c).

Lemma with_shard_ok c key s : cache_ok c -> shard_ok s -> cache_ok (with_shard c key s).
Proof.
  intros [Hl Hf] Hs. split; cbn [shards with_shard]; [by rewrite length_insert|]. by apply Forall_insert.
Qed.

Lemma shard_of_with c key s key' :
  cache_ok c -> shard_of (with_shard c key s) key' =
    if decide (Shard (HashView key') = Shard (HashView key)) then s else shard_of c key'.
Proof.
  intros [Hl _]. unfold shard_of, with_shard. cbn [shards].
  pose proof (Shard_range _ (u32_range (hash_of key))) as Hr.
  case_decide as Hd.
  - rewrite Hd. apply nth_lookup_Some. apply list_lookup_insert_eq. rewrite Hl. exact Hr.
  - rewrite !nth_lookup, list_lookup_insert_ne by congruence. done.
Qed.

Lemma Insert_step c key v charge :
  cache_ok c -> length key = 8%nat -> 0 <= charge -> Lookup c key = None ->
  exists e s', e = MkLRUHandle key (HashView key) v charge /\
    Insert c key v charge = Some (e, with_shard c key s') /\ shard_ok s' /\
    lru s' = fifo_insert (capacity (shard_of c key)) (lru (shard_of c key)) e /\
    capacity s' = capacity (shard_of c key).
Proof.
  intros Hc Hk Hch Hf. rewrite Lookup_key in Hf by done. destruct (shard_at c key Hc) as [Hs Hok].
  destruct (shard_insert _ key v charge Hok Hk Hch Hf) as (s' & Hi & Hok' & Hcap & Hl).
  eexists _, s'. split; [done|]. unfold Insert. rewrite Hs, Hi. by split_and!.
Qed.

Lemma Erase_step c key :
  cache_ok c -> length key = 8%nat ->
  exists s', Erase c key = Some (with_shard c key s') /\ shard_ok s' /\
    lru s' = without key (lru (shard_of c key)) /\ capacity s' = capacity (shard_of c key).
Proof.
  intros Hc Hk. destruct (shard_at c key Hc) as [Hs Hok].
  destruct (shard_erase _ key Hok Hk) as (s' & Hi & Hok' & Hcap & Hl).
  exists s'. unfold Erase. rewrite Hs, Hi. by split_and!.
Qed.

Lemma fifo_insert_find cap l e key h :
  find_key (fifo_insert cap l e) key = Some h -> NoDup (map hkey (l ++ [e])) ->
  h = e /\ hkey e = key \/ find_key l key = Some h.
Proof.
  unfold fifo_insert. intros Hf Hnd.
  assert (find_key (l ++ [e]) key = Some h) as Hf'.
  { destruct (_ <? _); [|done]. destruct (l ++ [e]) as [|x t]; [done|]. cbn [tail] in Hf.
    cbn [map] in Hnd. apply NoDup_cons in Hnd as [Hni _].
    unfold find_key. cbn [List.find]. rewrite bool_decide_eq_false_2; [done|].
    intros Hx. apply find_key_Some in Hf as [Hin Hk]. apply Hni. rewrite Hx, <- Hk.
    by apply list_elem_of_fmap_2. }
  rewrite find_key_app in Hf'. destruct (find_key l key) as [h'|]; [right; congruence|left].
  apply find_key_Some in Hf' as [Hin Hk]. apply list_elem_of_singleton in Hin. by subst.
Qed.

Lemma shard_make_ok cap : shard_ok (LRUCache_make cap).
Proof. constructor; [done|constructor|apply NoDup_nil_2|done]. Qed.

Lemma Sharded_make_empty cap key : Lookup (ShardedLRUCache_make cap) key = None.
Proof.
  unfold Lookup, ShardedLRUCache_make. cbn [shards]. destruct (replicate _ _ !! _) as [s|] eqn:Hs; [|done].
  by apply lookup_replicate in Hs as [-> _].
Qed.

Lemma Sharded_make_ok cap : cache_ok (ShardedLRUCache_make cap).
Proof. split; [done|]. apply Forall_replicate, shard_make_ok. Qed.

Lemma Insert_new c key v charge e c' :
  cache_ok c -> length key = 8%nat -> 0 <= charge -> Lookup c key = None ->
  Insert c key v charge = Some (e, c') ->
  forall key' h, length key' = 8%nat -> Lookup c' key' = Some h ->
    (h = e /\ key' = key) \/ Lookup c key' = Some h.
Proof.
  intros Hc Hk Hch Hf Hi key' h Hk' Hl.
  destruct (Insert_step c key v charge Hc Hk Hch Hf) as (e' & s' & He & Hi' & Hok & Hlru & _).
  rewrite Hi' in Hi. simplify_eq. rewrite Lookup_key in Hl by (by try apply with_shard_ok).
  rewrite Lookup_key by done. rewrite shard_of_with in Hl by done. case_decide as Hd; [|by right].
  rewrite Hlru in Hl. pose proof (shard_at c key Hc) as [_ [Hsame Hfit Hnd _]].
  apply fifo_insert_find in Hl as [[-> <-]|Hl]; [by left| |].
  - right. unfold shard_of. by rewrite Hd.
  - rewrite map_app. apply NoDup_app. split; [done|]. split; [|apply NoDup_singleton].
    intros k Hk1 Hk2. apply list_elem_of_singleton in Hk2. subst k. cbn in Hk1.
    rewrite Lookup_key in Hf by done. by apply find_key_None in Hf.
Qed.

Lemma Erase_less c key :
  cache_ok c -> length key = 8%nat ->
  exists c', Erase c key = Some c' /\ cache_ok c' /\ hvalue <$> Lookup c' key = None /\
    forall key' v', length key' = 8%nat -> hvalue <$> Lookup c' key' = Some v' -> hvalue <$> Lookup c key' = Some v'.
Proof.
  intros Hc Hk. destruct (Erase_step c key Hc Hk) as (s' & -> & Hok & Hlru & _).
  eexists. split; [done|]. split; [by apply with_shard_ok|]. split.
  - rewrite Lookup_key by (by try apply with_shard_ok). rewrite shard_of_with, decide_True, Hlru by done.
    apply fmap_None, find_key_None. destruct (shard_at c key Hc) as [_ [Hsame Hfit Hnd _]]. by apply without_ok.
  - intros key' v' Hk' (h & Hl & Hv)%fmap_Some. rewrite Lookup_key in Hl by (by try apply with_shard_ok).
    rewrite shard_of_with in Hl by done. rewrite Lookup_key by done. case_decide as Hd; [|by rewrite Hl, Hv].
    rewrite Hlru in Hl. assert (shard_of c key' = shard_of c key) as -> by (unfold shard_of; by rewrite Hd).
    rewrite Hv. by rewrite (find_without _ _ _ _ Hl).
Qed.

#[export] Instance Sharded_ok : CacheOk ShardedLRUCache V cache_ok.
Proof.
  constructor; [|exact Erase_less|exact Erase_less].
  intros c key v charge Hc Hk Hch Hf. cbn in *. apply fmap_None in Hf.
  destruct (Insert_step c key v charge Hc Hk Hch Hf) as (e & s' & -> & Hi & Hok & _).
  rewrite Hi. eexists. split; [done|]. split; [by apply with_shard_ok|].
  intros key' v' Hk' (h & Hl & Hv)%fmap_Some.
  destruct (Insert_new c key v charge _ _ Hc Hk Hch Hf Hi key' h Hk' Hl) as [[-> ->]|Hl'].
  - by left.
  - right. by rewrite Hl', Hv.
Qed.

(** C35: the cache refines sixteen first-in-first-out lists of handles.  An empty cache is
    well formed, and on a well-formed cache with eight-byte keys: [Lookup] finds the
    handle of its key and no other; [Insert] of an absent key and [Erase] trip no assert
    and keep the cache well formed; [Insert] appends to the key's shard and drops that
    shard's oldest handle when it is over capacity - never more than one, and no other
    shard changes; after [Insert] a lookup gives the new handle under its key, if the
    handle itself was not the one dropped, and otherwise what it gave before or nothing;
    [Erase] removes exactly the handle of its key.  While every charge is one, no shard
    grows past its capacity. *)
Theorem cache_refines c key v charge cap :
  cache_ok (ShardedLRUCache_make cap) /\
  (cache_ok c -> length key = 8%nat -> 0 <= charge ->
   (Lookup c key = find_key (lru (shard_of c key)) key) /\
   (Lookup c key = None ->
      exists e c', Insert c key v charge = Some (e, c') /\ cache_ok c' /\
        e = MkLRUHandle key (HashView key) v charge /\
        lru (shard_of c' key) = fifo_insert (capacity (shard_of c key)) (lru (shard_of c key)) e /\
        (forall key', Shard (HashView key') <> Shard (HashView key) -> shard_of c' key' = shard_of c key') /\
        (forall key' h, length key' = 8%nat -> Lookup c' key' = Some h ->
           (h = e /\ key' = key) \/ Lookup c key' = Some h) /\
        (lru (shard_of c key) <> [] -> Lookup c' key = Some e) /\
        (Forall (fun h => hcharge h = 1) (lru (shard_of c' key)) -> 0 <= capacity (shard_of c key) < 2 ^ 63 ->
           len (lru (shard_of c key)) <= capacity (shard_of c key) ->
           len (lru (shard_of c' key)) <= capacity (shard_of c' key))) /\
   (exists c', Erase c key = Some c' /\ cache_ok c' /\
      lru (shard_of c' key) = without key (lru (shard_of c key)) /\ Lookup c' key = None /\
      (forall key', Shard (HashView key') <> Shard (HashView key) -> shard_of c' key' = shard_of c key'))).
Proof.
  split; [apply Sharded_make_ok|]. intros Hc Hk Hch. split; [by apply Lookup_key|]. split.
  - intros Hf. destruct (Insert_step c key v charge Hc Hk Hch Hf) as (e & s' & He & Hi & Hok & Hlru & Hcap).
    assert (shard_of (with_shard c key s') key = s') as Hsk by (rewrite shard_of_with by done; by rewrite decide_True).
    exists e, (with_shard c key s'). rewrite Hsk.
    split; [done|]. split; [by apply with_shard_ok|]. split; [done|]. split; [done|].
    split; [intros key' Hne; rewrite shard_of_with by done; by rewrite decide_False|].
    split; [by apply (Insert_new c key v charge e)|]. split.
    + intros Hne. rewrite Lookup_key by (by try apply with_shard_ok). rewrite Hsk, Hlru.
      rewrite Lookup_key in Hf by done. unfold fifo_insert. subst e.
      assert (forall l, find_key l key = None ->
        find_key (l ++ [MkLRUHandle key (HashView key) v charge]) key = Some (MkLRUHandle key (HashView key) v charge)) as Hfe.
      { intros l Hl. rewrite find_key_app, Hl. unfold find_key. cbn. by rewrite bool_decide_eq_true_2. }
      destruct (_ <? _); [|by apply Hfe].
      destruct (lru (shard_of c key)) as [|x t]; [done|]. cbn [app tail]. apply Hfe.
      unfold find_key in *. cbn [List.find] in Hf. by case_bool_decide.
    + intros Hone Hcr Hle. rewrite Hcap, Hlru in *. unfold fifo_insert in *.
      destruct (Z.ltb_spec (capacity (shard_of c key)) (u64 (charges (lru (shard_of c key) ++ [e])))) as [Hlt|Hge].
      * destruct (lru (shard_of c key)) as [|x t]; cbn [app tail length] in *; [lia|].
        rewrite length_app. cbn [length]. lia.
      * assert (charges (lru (shard_of c key) ++ [e]) = len (lru (shard_of c key) ++ [e])) as Hch1.
        { revert Hone. generalize (lru (shard_of c key) ++ [e]). clear. unfold charges.
          induction 1 as [|h l Hh Hl IH]; cbn [foldr length]; lia. }
        rewrite Hch1, u64_small in Hge; [done|]. rewrite length_app. cbn [length]. lia.
  - destruct (Erase_step c key Hc Hk) as (s' & Hi & Hok & Hlru & Hcap).
    assert (shard_of (with_shard c key s') key = s') as Hsk by (rewrite shard_of_with by done; by rewrite decide_True).
    exists (with_shard c key s'). rewrite Hsk. split; [done|]. split; [by apply with_shard_ok|].
    split; [done|]. split; [|intros key' Hne; rewrite shard_of_with by done; by rewrite decide_False].
    rewrite Lookup_key by (by try apply with_shard_ok). rewrite Hsk, Hlru. apply find_key_None.
    destruct (shard_at c key Hc) as [_ [Hsame Hfit Hnd _]]. by apply without_ok.
Qed.

(** Inserting a key that is already there trips the assert that compares the sizes. *)
Lemma Insert_duplicate c key v charge h :
  cache_ok c -> length key = 8%nat -> Lookup c key = Some h -> Insert c key v charge = None.
Proof.
  intros Hc Hk Hf. rewrite Lookup_key in Hf by done. destruct (shard_at c key Hc) as [Hs [Hsame Hfit Hnd Hus]].
  unfold Insert. rewrite Hs. unfold LRU_Insert, sizes_agree. rewrite Hsame, Nat.eqb_refl. cbn [negb].
  rewrite tables_find_key, Hf by done. cbn [tables lru]. rewrite length_app, (proj2 (Nat.eqb_neq _ _)); [done|].
  cbn. lia.
Qed.
End Cache.

(** A lookup does not move its handle: the entry read last is the one dropped, and one
    round of eviction can leave a shard over its capacity. *)
Example lookup_does_not_refresh :
  let k n := EncodeFixed64 n in
  (let? (_, c) := Insert (fun _ => 0) (ShardedLRUCache_make 32) (k 1) 10 1 in
   let? (_, c) := Insert (fun _ => 0) c (k 2) 20 1 in
   let? _ := Lookup (fun _ => 0) c (k 1) in
   let? (_, c) := Insert (fun _ => 0) c (k 3) 30 1 in
   Some (hvalue <$> Lookup (fun _ => 0) c (k 1), hvalue <$> Lookup (fun _ => 0) c (k 2)))
  = Some (None, Some 20).
Proof. vm_compute. reflexivity. Qed.

Example shard_over_capacity :
  let k n := EncodeFixed64 n in
  (let? (_, c) := Insert (fun _ => 0) (ShardedLRUCache_make 32) (k 1) 10 1 in
   let? (_, c) := Insert (fun _ => 0) c (k 2) 20 7 in
   Some (TotalCharge c)) = Some 7.
Proof. vm_compute. reflexivity. Qed.

Lemma cache_refines_witness :
  let c := ShardedLRUCache_make (V := Z) 32 in
  exists e c', Insert (fun _ => 0) c (EncodeFixed64 1) 10 1 = Some (e, c') /\ cache_ok (fun _ => 0) c'.
Proof.
  destruct (proj2 (cache_refines (fun _ => 0) (ShardedLRUCache_make 32) (EncodeFixed64 1) 10 1 32))
    as (_ & Hi & _).
  - split; [reflexivity|]. apply Forall_replicate. apply shard_make_ok.
  - reflexivity.
  - lia.
  - destruct (Hi eq_refl) as (e & c' & H1 & H2 & _). exists e, c'. split; [exact H1|exact H2].
Defined.
