(* ===== verification/Iterators.v ===== *)
(** Iterators (redisdb/db/iterator.h, iterator.cc, merger.cc).

    The virtual interface is a class; [iter_refines] is its contract: the iterator walks
    a sorted list of entries.  Block iterators meet it, and so do the wrapper, the
    merging iterator and the two-level iterator when what they are built from does. *)
From Stdlib Require Import Sorted Permutation.
From stdpp Require Import sorting.
From S2P Require Import Prelude Coding Status DbFormat Block.
Local Open Scope Z_scope.

(** [class Iterator].  [None] is a failed assert or a read outside the data. *)
Class Iter (I : Type) := {
  iterValid : I -> bool;
  iterSeekToFirst : I -> option I;
  iterSeekToLast : I -> option I;
  iterSeek : I -> bytes -> option I;
  iterNext : I -> option I;
  iterPrev : I -> option I;
  iterkey : I -> bytes;
  itervalue : I -> bytes;
  iterstatus : I -> Status;
}.

Abbreviation entry := (bytes * bytes)%type.

(** [j] is the place of the first entry not below [target]. *)
Definition lower_bound (c : Comparator) (es : list entry) (target : bytes) (j : nat) : Prop :=
  (forall m e, (m < j)%nat -> es !! m = Some e -> Compare c e.1 target = Lt) /\
  (forall e, es !! j = Some e -> Compare c e.1 target <> Lt).

(** [at_ i it]: the iterator is at entry [i], or invalid when [i] is the length. *)
Record iter_refines {I : Type} `{Iter I} (c : Comparator) (dom : bytes -> Prop)
    (es : list entry) (at_ : nat -> I -> Prop) : Prop := {
  ir_le i it : at_ i it -> (i <= length es)%nat;
  ir_valid i it : at_ i it -> iterValid it = (i <? length es)%nat;
  ir_status i it : at_ i it -> iterstatus it = OK;
  ir_entry i it e : at_ i it -> es !! i = Some e -> iterkey it = e.1 /\ itervalue it = e.2;
  ir_first i it : at_ i it -> exists it', iterSeekToFirst it = Some it' /\ at_ 0%nat it';
  ir_last i it : at_ i it -> exists it', iterSeekToLast it = Some it' /\ at_ (length es - 1)%nat it';
  ir_next i it : at_ i it -> (i < length es)%nat -> exists it', iterNext it = Some it' /\ at_ (S i) it';
  ir_prev i it : at_ i it -> (i < length es)%nat -> exists it', iterPrev it = Some it' /\
    at_ (match i with O => length es | S j => j end) it';
  ir_seek i it target : at_ i it -> dom target ->
    exists it' j, iterSeek it target = Some it' /\ at_ j it' /\ lower_bound c es target j;
}.

(** ** The iterators of a block *)

(** [EmptyIterator], or an iterator over the entries of [data]. *)
Inductive BIter :=
  | BEmpty (st : Status)
  | BEntries (c : Comparator) (data : bytes) (R N : Z) (it : BlockIterator).

Definition NewErrorIterator (st : Status) : BIter := BEmpty st.
Definition NewEmptyIterator : BIter := BEmpty OK.

Definition NewIterator (c : Comparator) (b : Block) : BIter :=
  match Block_NewIterator b with
  | ErrorIterator st => NewErrorIterator st
  | Block.EmptyIterator => NewEmptyIterator
  | EntryIterator R N it => BEntries c (data b) R N it
  end.

Definition on_entries (b : BIter) (f : Comparator -> bytes -> Z -> Z -> BlockIterator -> option BlockIterator)
    (empty : option BIter) : option BIter :=
  match b with
  | BEmpty _ => empty
  | BEntries c data R N it => let? it := f c data R N it in Some (BEntries c data R N it)
  end.

#[export] Instance BIter_iter : Iter BIter := {
  iterValid b := match b with BEmpty _ => false | BEntries _ _ R _ it => it_Valid R it end;
  iterSeekToFirst b := on_entries b (fun _ => it_SeekToFirst) (Some b);
  iterSeekToLast b := on_entries b (fun _ => it_SeekToLast) (Some b);
  iterSeek b target := on_entries b (fun c data R N it => it_Seek c data R N it target) (Some b);
  iterNext b := on_entries b (fun _ => it_Next) None;
  iterPrev b := on_entries b (fun _ => it_Prev) None;
  iterkey b := match b with BEmpty _ => [] | BEntries _ _ _ _ it => it_key it end;
  itervalue b := match b with BEmpty _ => [] | BEntries _ data _ _ it => it_value data it end;
  iterstatus b := match b with BEmpty st => st | BEntries _ _ _ _ it => it_status it end;
}.

(** [contents] is a block of the entries [es]. *)
Definition block_holds (es : list entry) (contents : bytes) : Prop :=
  exists its rs, map pair_of its = es /\ block_of its rs contents /\
    Block_NewIterator (Block_make contents) =
      EntryIterator (len (encs its)) (len rs) (BlockIterator_make (len (encs its)) (len rs)).

Definition block_at_entry (c : Comparator) (es : list entry) (contents : bytes) (i : nat) (b : BIter) : Prop :=
  exists its rs it, map pair_of its = es /\ block_of its rs contents /\ at_item its rs i it /\
    b = BEntries c contents (len (encs its)) (len rs) it.

Lemma NewIterator_at c es contents :
  block_holds es contents -> block_at_entry c es contents (length es) (NewIterator c (Block_make contents)).
Proof.
  intros (its & rs & Hmap & Hb & Hn).
  assert (data (Block_make contents) = contents) as Hd by (unfold Block_make; by repeat case_match).
  unfold NewIterator. rewrite Hn, Hd. eexists its, rs, _. split_and!; [done..| |done].
  rewrite <- Hmap, length_map. constructor; cbn [current s BlockIterator_make]; [done..|].
  intros e He. apply lookup_lt_Some in He. lia.
Qed.

Lemma block_iter_refines c dom es contents :
  ComparatorOk c dom -> StronglySorted (key_lt (c := c)) es -> Forall (fun e => dom e.1) es ->
  iter_refines c dom es (block_at_entry c es contents).
Proof.
  intros Hok Hs Hd.
  assert (forall its i e, map pair_of its = es -> its !! i = Some e -> es !! i = Some (ikey e, ival e)) as Hlk
    by (intros its i e; apply map_pair_lookup).
  assert (forall its i e, map pair_of its = es -> es !! i = Some e ->
    exists x, its !! i = Some x /\ e = (ikey x, ival x)) as Hlk'.
  { intros its i e <- He. rewrite list_lookup_fmap in He. apply fmap_Some in He as (x & Hx & ->). by exists x. }
  assert (forall its, map pair_of its = es -> length its = length es) as Hn by (intros its <-; by rewrite length_map).
  constructor.
  - intros i it (its & rs & b & Hm & Hb & Hat & ->). rewrite <- (Hn its Hm). apply (at_le _ _ _ _ Hat).
  - intros i it (its & rs & b & Hm & Hb & Hat & ->). rewrite <- (Hn its Hm). by apply (at_shows its rs contents Hb i).
  - intros i it (its & rs & b & Hm & Hb & Hat & ->). by apply (at_shows its rs contents Hb i).
  - intros i it e (its & rs & b & Hm & Hb & Hat & ->) (x & Hx & ->)%(Hlk' its); [|done].
    by apply (at_shows its rs contents Hb i).
  - intros i it (its & rs & b & Hm & Hb & Hat & ->). cbn [iterSeekToFirst BIter_iter on_entries].
    destruct (SeekToFirst_spec its rs contents Hb i b Hat) as (b' & -> & Hat').
    eexists. split; [done|]. by exists its, rs, b'.
  - intros i it (its & rs & b & Hm & Hb & Hat & ->). cbn [iterSeekToLast BIter_iter on_entries].
    destruct (SeekToLast_spec its rs contents Hb i b Hat) as (b' & -> & Hat').
    eexists. split; [done|]. exists its, rs, b'. by rewrite <- (Hn its Hm).
  - intros i it (its & rs & b & Hm & Hb & Hat & ->) Hi. rewrite <- (Hn its Hm) in Hi.
    cbn [iterNext BIter_iter on_entries].
    destruct (Next_spec its rs contents Hb i b Hat Hi) as (b' & -> & Hat').
    eexists. split; [done|]. by exists its, rs, b'.
  - intros i it (its & rs & b & Hm & Hb & Hat & ->) Hi. rewrite <- (Hn its Hm) in *.
    cbn [iterPrev BIter_iter on_entries].
    destruct (Prev_spec its rs contents Hb i b Hat Hi) as (b' & -> & Hat').
    eexists. split; [done|]. by exists its, rs, b'.
  - intros i it target (its & rs & b & Hm & Hb & Hat & ->) Ht. cbn [iterSeek BIter_iter on_entries].
    destruct (Seek_spec its rs contents Hb c dom
      ltac:(intros j e He; apply (Hlk its) in He; [|done]; rewrite Forall_lookup in Hd; by apply Hd in He)
      ltac:(intros j k e e' Hjk He He'; by apply (sorted_lookup _ _ _ _ _ _ Hs Hjk (Hlk _ _ _ Hm He) (Hlk _ _ _ Hm He')))
      target i b Ht Hat) as (b' & j & -> & Hat' & Hbel & Hge).
    eexists _, j. split; [done|]. split; [by exists its, rs, b'|]. split.
    + intros m e Hlt (x & Hx & ->)%(Hlk' its); [|done]. by apply (Hbel m).
    + intros e (x & Hx & ->)%(Hlk' its); [|done]. by apply Hge.
Qed.

(** ** [IteratorWrapper] *)

Section Wrapper.
Context {I : Type} `{Iter I}.

(** [vali] and [k] cache what the iterator last said. *)
Record IteratorWrapper := MkWrapper { iter : option I; vali : bool; wk : bytes }.

Definition Update (w : IteratorWrapper) : option IteratorWrapper :=
  let? it := iter w in
  let vali := iterValid it in
  Some (MkWrapper (Some it) vali (if vali then iterkey it else wk w)).

Definition Wrapper_make : IteratorWrapper := MkWrapper None false [].

Definition Set_iter (w : IteratorWrapper) (it : option I) : option IteratorWrapper :=
  match it with
  | None => Some (MkWrapper None false (wk w))
  | Some _ => Update (MkWrapper it (vali w) (wk w))
  end.

Definition w_call (f : I -> option I) (w : IteratorWrapper) : option IteratorWrapper :=
  let? it := iter w in
  let? it := f it in
  Update (MkWrapper (Some it) (vali w) (wk w)).

Definition w_value (w : IteratorWrapper) : bytes :=
  match iter w with Some it => itervalue it | None => [] end.
Definition w_status (w : IteratorWrapper) : Status :=
  match iter w with Some it => iterstatus it | None => OK end.

#[export] Instance Wrapper_iter : Iter IteratorWrapper := {
  iterValid := vali;
  iterSeekToFirst := w_call iterSeekToFirst;
  iterSeekToLast := w_call iterSeekToLast;
  iterSeek w target := w_call (fun it => iterSeek it target) w;
  iterNext := w_call iterNext;
  iterPrev := w_call iterPrev;
  iterkey := wk;
  itervalue := w_value;
  iterstatus := w_status;
}.

(** The wrapper around an iterator at [i]. *)
Definition wrapped (at_ : nat -> I -> Prop) (i : nat) (w : IteratorWrapper) : Prop :=
  exists it, at_ i it /\ iter w = Some it /\ vali w = iterValid it /\
    (vali w = true -> wk w = iterkey it).

Lemma Update_wrapped (at_ : nat -> I -> Prop) i it v k :
  at_ i it -> exists w, Update (MkWrapper (Some it) v k) = Some w /\ wrapped at_ i w.
Proof.
  intros Hat. eexists. split; [done|]. exists it. cbn. split_and!; [done..|].
  by intros ->.
Qed.

Lemma Set_iter_wrapped (at_ : nat -> I -> Prop) i it w :
  at_ i it -> exists w', Set_iter w (Some it) = Some w' /\ wrapped at_ i w'.
Proof. apply Update_wrapped. Qed.

Lemma w_call_wrapped (at_ : nat -> I -> Prop) f w it j :
  iter w = Some it -> (exists it', f it = Some it' /\ at_ j it') ->
  exists w', w_call f w = Some w' /\ wrapped at_ j w'.
Proof.
  intros Hw (it' & Hf & Hat). unfold w_call. rewrite Hw, Hf. by apply Update_wrapped.
Qed.

Lemma wrapper_refines c dom es at_ :
  iter_refines c dom es at_ -> iter_refines c dom es (wrapped at_).
Proof.
  intros Hr. constructor.
  - intros i w (it & Hat & _). by apply (ir_le _ _ _ _ Hr i it).
  - intros i w (it & Hat & _ & Hv & _). cbn. rewrite Hv. by apply (ir_valid _ _ _ _ Hr i it).
  - intros i w (it & Hat & Hw & _). cbn. unfold w_status. rewrite Hw. by apply (ir_status _ _ _ _ Hr i it).
  - intros i w e (it & Hat & Hw & Hv & Hk) He. cbn. unfold w_value. rewrite Hw.
    rewrite Hk; [by apply (ir_entry _ _ _ _ Hr i)|]. rewrite Hv, (ir_valid _ _ _ _ Hr i it Hat).
    apply Nat.ltb_lt. by eapply lookup_lt_Some.
  - intros i w (it & Hat & Hw & _). eapply w_call_wrapped; [done|]. by apply (ir_first _ _ _ _ Hr i).
  - intros i w (it & Hat & Hw & _). eapply w_call_wrapped; [done|]. by apply (ir_last _ _ _ _ Hr i).
  - intros i w (it & Hat & Hw & _) Hi. eapply w_call_wrapped; [done|]. by apply (ir_next _ _ _ _ Hr i).
  - intros i w (it & Hat & Hw & _) Hi. eapply w_call_wrapped; [done|]. by apply (ir_prev _ _ _ _ Hr i).
  - intros i w target (it & Hat & Hw & _) Ht.
    destruct (ir_seek _ _ _ _ Hr i it target Hat Ht) as (it' & j & Hs & Hat' & Hlb).
    destruct (w_call_wrapped at_ (fun it => iterSeek it target) w it j Hw) as (w' & Hc & Hw'); [by exists it'|].
    by exists w', j.
Qed.
End Wrapper.
Arguments IteratorWrapper : clear implicits.

(** ** [MergingIterator] *)

Inductive Direction := kForward | kReverse.

Section Merging.
Context {I : Type} `{Iter I} (c : Comparator).

(** [current] is the place of the child. *)
Record MergingIterator := MkMerging {
  children : list (IteratorWrapper I);
  mcurrent : option nat;
  direction : Direction;
}.

(** The loops over the children; [f] is given the place. *)
Fixpoint on_children (f : nat -> IteratorWrapper I -> option (IteratorWrapper I)) (i : nat)
    (l : list (IteratorWrapper I)) : option (list (IteratorWrapper I)) :=
  match l with
  | [] => Some []
  | w :: l => let? w := f i w in let? l := on_children f (S i) l in Some (w :: l)
  end.

(** The constructor; [n] is the number of children. *)
Definition MergingIterator_make (child : list I) : option MergingIterator :=
  let? l := on_children (fun _ w => Set_iter w (iter w)) 0 (map (fun it => MkWrapper (Some it) false []) child) in
  Some (MkMerging l None kForward).

Fixpoint findSmallest_loop (l : list (IteratorWrapper I)) (i : nat) (smallest : option (nat * bytes))
    : option (nat * bytes) :=
  match l with
  | [] => smallest
  | child :: l =>
      let smallest :=
        if iterValid child then
          match smallest with
          | None => Some (i, iterkey child)
          | Some (_, key) =>
              match Compare c (iterkey child) key with Lt => Some (i, iterkey child) | _ => smallest end
          end
        else smallest in
      findSmallest_loop l (S i) smallest
  end.

Definition findSmallest (l : list (IteratorWrapper I)) : option nat :=
  fst <$> findSmallest_loop l 0 None.

(** From the last child to the first. *)
Fixpoint findLargest_loop (l : list (IteratorWrapper I)) (i : nat) : option (nat * bytes) :=
  match l with
  | [] => None
  | child :: l =>
      let largest := findLargest_loop l (S i) in
      if iterValid child then
        match largest with
        | None => Some (i, iterkey child)
        | Some (_, key) =>
            match Compare c (iterkey child) key with Gt => Some (i, iterkey child) | _ => largest end
        end
      else largest
  end.

Definition findLargest (l : list (IteratorWrapper I)) : option nat := fst <$> findLargest_loop l 0.

Definition m_Valid (m : MergingIterator) : bool :=
  match mcurrent m with Some _ => true | None => false end.

Definition m_child (m : MergingIterator) : option (IteratorWrapper I) :=
  let? i := mcurrent m in children m !! i.

Definition m_key (m : MergingIterator) : bytes :=
  match m_child m with Some w => iterkey w | None => [] end.
Definition m_value (m : MergingIterator) : bytes :=
  match m_child m with Some w => itervalue w | None => [] end.

Definition m_SeekToFirst (m : MergingIterator) : option MergingIterator :=
  let? l := on_children (fun _ => iterSeekToFirst) 0 (children m) in
  Some (MkMerging l (findSmallest l) kForward).

Definition m_SeekToLast (m : MergingIterator) : option MergingIterator :=
  let? l := on_children (fun _ => iterSeekToLast) 0 (children m) in
  Some (MkMerging l (findLargest l) kReverse).

Definition m_Seek (m : MergingIterator) (target : bytes) : option MergingIterator :=
  let? l := on_children (fun _ w => iterSeek w target) 0 (children m) in
  Some (MkMerging l (findSmallest l) kForward).

(** The child that is not current, moved after the current key. *)
Definition skip_after (key : bytes) (child : IteratorWrapper I) : option (IteratorWrapper I) :=
  let? child := iterSeek child key in
  if iterValid child then
    match Compare c key (iterkey child) with Eq => iterNext child | _ => Some child end
  else Some child.

(** The child that is not current, moved before the current key. *)
Definition skip_before (key : bytes) (child : IteratorWrapper I) : option (IteratorWrapper I) :=
  let? child := iterSeek child key in
  if iterValid child then iterPrev child else iterSeekToLast child.

Definition others (cur : nat) (f : IteratorWrapper I -> option (IteratorWrapper I)) (i : nat)
    (w : IteratorWrapper I) : option (IteratorWrapper I) :=
  if decide (i = cur) then Some w else f w.

Definition on_current (cur : nat) (f : IteratorWrapper I -> option (IteratorWrapper I)) (i : nat)
    (w : IteratorWrapper I) : option (IteratorWrapper I) :=
  if decide (i = cur) then f w else Some w.

Definition m_Next (m : MergingIterator) : option MergingIterator :=
  let? cur := mcurrent m in
  let? l := match direction m with
            | kForward => Some (children m)
            | kReverse => on_children (others cur (skip_after (m_key m))) 0 (children m)
            end in
  let? l := on_children (on_current cur iterNext) 0 l in
  Some (MkMerging l (findSmallest l) kForward).

Definition m_Prev (m : MergingIterator) : option MergingIterator :=
  let? cur := mcurrent m in
  let? l := match direction m with
            | kReverse => Some (children m)
            | kForward => on_children (others cur (skip_before (m_key m))) 0 (children m)
            end in
  let? l := on_children (on_current cur iterPrev) 0 l in
  Some (MkMerging l (findLargest l) kReverse).

(** The first status that is not [OK]. *)
Fixpoint m_status_loop (l : list (IteratorWrapper I)) (status : Status) : Status :=
  match l with
  | [] => status
  | w :: l => if negb (ok (iterstatus w)) then iterstatus w else m_status_loop l (iterstatus w)
  end.

#[export] Instance Merging_iter : Iter MergingIterator := {
  iterValid := m_Valid;
  iterSeekToFirst := m_SeekToFirst;
  iterSeekToLast := m_SeekToLast;
  iterSeek := m_Seek;
  iterNext := m_Next;
  iterPrev := m_Prev;
  iterkey := m_key;
  itervalue := m_value;
  iterstatus m := m_status_loop (children m) OK;
}.

(** *** The merged list *)

Section Refinement.
Context (dom : bytes -> Prop) {Hok : ComparatorOk c dom}.
Context (ls : list (list entry)) (ats : nat -> nat -> I -> Prop) (es : list entry).
Hypothesis Hchild : forall k l, ls !! k = Some l -> iter_refines c dom l (ats k).
Hypothesis Hsl : Forall (StronglySorted (key_lt (c := c))) ls.
Hypothesis Hse : StronglySorted (key_lt (c := c)) es.
Hypothesis Hperm : Permutation es (concat ls).
Hypothesis Hdom : Forall (fun e => dom e.1) es.

Let n := length es.

Lemma es_dom i e : es !! i = Some e -> dom e.1.
Proof. rewrite Forall_lookup in Hdom. apply Hdom. Qed.

Lemma es_lt i j a b : es !! i = Some a -> es !! j = Some b -> (i < j)%nat <-> Compare c a.1 b.1 = Lt.
Proof.
  intros Ha Hb. split; [intros Hij; by apply (sorted_lookup _ es i j a b Hse)|].
  intros Hlt. destruct (Nat.lt_trichotomy i j) as [?|[->|Hji]]; [done| |].
  - simplify_eq. rewrite (Compare_refl (dom := dom)) in Hlt by (by eapply es_dom). done.
  - pose proof (sorted_lookup _ es j i b a Hse Hji Hb Ha) as Hgt. unfold key_lt in Hgt.
    apply (Compare_gt_lt (dom := dom)) in Hgt; [congruence|by eapply es_dom..].
Qed.

Lemma es_inj i j e : es !! i = Some e -> es !! j = Some e -> i = j.
Proof.
  intros Hi Hj. destruct (Nat.lt_trichotomy i j) as [Hl|[?|Hl]]; [|done|];
    apply (es_lt _ _ e e) in Hl; try done;
    rewrite (Compare_refl (dom := dom)) in Hl; try done; by eapply es_dom.
Qed.

Lemma child_in k l m e : ls !! k = Some l -> l !! m = Some e -> exists q, es !! q = Some e.
Proof.
  intros Hk Hm. apply list_elem_of_lookup. rewrite Hperm.
  apply list_elem_of_In, in_concat. exists l. split; apply list_elem_of_In; by eapply list_elem_of_lookup_2.
Qed.

Lemma es_in q e : es !! q = Some e -> exists k l, ls !! k = Some l /\ e ∈ l.
Proof.
  intros Hq%list_elem_of_lookup_2. rewrite Hperm in Hq.
  apply list_elem_of_In, in_concat in Hq as (l & Hl & He).
  apply list_elem_of_In, list_elem_of_lookup in Hl as [k Hk]. exists k, l. split; [done|]. by apply list_elem_of_In.
Qed.

Lemma es_NoDup : NoDup es.
Proof.
  apply NoDup_alt. intros i j e Hi Hj. by eapply es_inj.
Qed.

Lemma concat_owner {A} (xs : list (list A)) k k' l l' x :
  NoDup (concat xs) -> xs !! k = Some l -> xs !! k' = Some l' -> x ∈ l -> x ∈ l' -> k = k'.
Proof.
  revert k k'. induction xs as [|y xs IH]; intros k k' Hnd Hk Hk' Hx Hx'; [done|].
  cbn [concat] in Hnd. apply NoDup_app in Hnd as (_ & Hdis & Hnd).
  assert (forall j z, xs !! j = Some z -> x ∈ z -> x ∈ concat xs) as Hin.
  { intros j z Hj Hz. apply list_elem_of_In, in_concat. exists z.
    split; apply list_elem_of_In; [by eapply list_elem_of_lookup_2|done]. }
  destruct k as [|k], k' as [|k']; cbn in Hk, Hk'; simplify_eq; [done|exfalso|exfalso|].
  - by apply (Hdis x); [|eapply Hin].
  - by apply (Hdis x); [|eapply Hin].
  - f_equal. by eapply IH.
Qed.

Lemma owner_unique k k' l l' x :
  ls !! k = Some l -> ls !! k' = Some l' -> x ∈ l -> x ∈ l' -> k = k'.
Proof. apply concat_owner. rewrite <- Hperm. apply es_NoDup. Qed.

Lemma child_sorted k l i j a b :
  ls !! k = Some l -> l !! i = Some a -> l !! j = Some b -> (i < j)%nat -> Compare c a.1 b.1 = Lt.
Proof.
  intros Hk Ha Hb Hij. rewrite Forall_lookup in Hsl. by apply (sorted_lookup _ l i j a b (Hsl k l Hk)).
Qed.

(** The first [p] entries of the child are those among the first [i] of the merge. *)
Definition cut (i : nat) (l : list entry) (p : nat) : Prop :=
  (p <= length l)%nat /\
  forall m e, l !! m = Some e -> (m < p)%nat <-> exists q, (q < i)%nat /\ es !! q = Some e.

Lemma cut_0 l : cut 0 l 0.
Proof. split; [lia|]. intros m e _. split; [lia|]. intros (q & ? & _). lia. Qed.

Lemma cut_n k l : ls !! k = Some l -> cut n l (length l).
Proof.
  intros Hk. split; [done|]. intros m e Hm. split; [|intros _; by eapply lookup_lt_Some].
  intros _. destruct (child_in k l m e Hk Hm) as [q Hq]. exists q. split; [by eapply lookup_lt_Some|done].
Qed.

Lemma lower_bound_iff l target p m e :
  dom target -> StronglySorted (key_lt (c := c)) l -> Forall (fun e => dom e.1) l ->
  lower_bound c l target p -> l !! m = Some e -> (m < p)%nat <-> Compare c e.1 target = Lt.
Proof.
  intros Ht Hs Hd [Hlo Hhi] Hm. split; [intros Hlt; by apply (Hlo m)|]. intros Hlt.
  destruct (decide (m < p)%nat) as [?|Hge]; [done|exfalso].
  destruct (lookup_lt_is_Some_2 l p) as [e' He']; [apply lookup_lt_Some in Hm; lia|].
  apply (Hhi e' He'). destruct (decide (p = m)) as [->|]; [congruence|].
  pose proof (sorted_lookup _ l p m e' e Hs ltac:(lia) He' Hm) as Hlt'. unfold key_lt in Hlt'.
  rewrite Forall_lookup in Hd. apply (Compare_lt_trans (dom := dom) e'.1 e.1 target); try done; by eapply Hd.
Qed.

Lemma child_dom k l : ls !! k = Some l -> Forall (fun e => dom e.1) l.
Proof.
  intros Hk. apply Forall_lookup. intros m e Hm. destruct (child_in k l m e Hk Hm) as [q Hq]. by eapply es_dom.
Qed.

Lemma cut_lower k l target i p :
  ls !! k = Some l -> dom target -> (p <= length l)%nat ->
  lower_bound c es target i -> lower_bound c l target p -> cut i l p.
Proof.
  intros Hk Ht Hp Hi Hl. split; [done|]. intros m e Hm. pose proof Hsl as Hsl'. rewrite Forall_lookup in Hsl'.
  rewrite (lower_bound_iff l target p m e Ht (Hsl' k l Hk) (child_dom k l Hk) Hl Hm).
  destruct (child_in k l m e Hk Hm) as [q Hq].
  rewrite <- (lower_bound_iff es target i q e Ht Hse Hdom Hi Hq). split; [intros; by exists q|].
  intros (q' & Hq' & He'). by rewrite (es_inj q q' e).
Qed.

Lemma lower_bound_self i e : es !! i = Some e -> lower_bound c es e.1 i.
Proof.
  intros He. split; [intros m e' Hm He'; by apply (es_lt m i)|].
  intros e' He'. simplify_eq. rewrite (Compare_refl (dom := dom)); [done|]. by eapply es_dom.
Qed.

(** Cuts around an entry of the merge. *)
Lemma cut_owner k i l p e : ls !! k = Some l -> cut i l p -> es !! i = Some e -> e ∈ l -> l !! p = Some e.
Proof.
  intros Hk [Hp Hc] He [m Hm]%list_elem_of_lookup.
  assert (~ (m < p)%nat) as Hge.
  { intros Hlt. apply (Hc m e Hm) in Hlt as (q & Hq & Hq'). rewrite (es_inj q i e) in Hq by done. lia. }
  destruct (decide (m = p)) as [->|Hne]; [done|exfalso].
  destruct (lookup_lt_is_Some_2 l p) as [e' He']; [apply lookup_lt_Some in Hm; lia|].
  pose proof (child_sorted k l p m e' e Hk He' Hm ltac:(lia)) as Hlt.
  destruct (child_in k l p e' Hk He') as [q Hq]. apply (es_lt q i e' e Hq He) in Hlt.
  assert (p < p)%nat; [|lia]. apply (Hc p e' He'). by exists q.
Qed.

Lemma cut_other i l p e : cut i l p -> es !! i = Some e -> e ∉ l -> cut (S i) l p.
Proof.
  intros [Hp Hc] He Hni. split; [done|]. intros m e' Hm. rewrite (Hc m e' Hm).
  split; intros (q & Hq & Hq'); [exists q; split; [lia|done]|].
  destruct (decide (q = i)) as [->|]; [|exists q; split; [lia|done]].
  simplify_eq. exfalso. apply Hni. by eapply list_elem_of_lookup_2.
Qed.

Lemma cut_current k i l p e :
  ls !! k = Some l -> cut i l p -> es !! i = Some e -> l !! p = Some e -> cut (S i) l (S p).
Proof.
  intros Hk [Hp Hc] He Hlp. split; [apply lookup_lt_Some in Hlp; lia|]. intros m e' Hm.
  assert ((m < S p)%nat <-> (m < p)%nat \/ m = p) as -> by lia. rewrite (Hc m e' Hm). split.
  - intros [(q & Hq & Hq')| ->]; [exists q; split; [lia|done]|]. simplify_eq. exists i. split; [lia|done].
  - intros (q & Hq & Hq'). destruct (decide (q = i)) as [->|]; [|left; exists q; split; [lia|done]].
    simplify_eq. right. destruct (Nat.lt_trichotomy m p) as [Hl|[?|Hl]]; [exfalso|done|exfalso].
    + pose proof (child_sorted k l m p e e Hk Hm Hlp Hl) as Hx.
      rewrite (Compare_refl (dom := dom)) in Hx; [done|by eapply es_dom].
    + pose proof (child_sorted k l p m e e Hk Hlp Hm Hl) as Hx.
      rewrite (Compare_refl (dom := dom)) in Hx; [done|by eapply es_dom].
Qed.

(** *** The states of the children *)

Definition child_ok (Q : list entry -> nat -> Prop) (ws : list (IteratorWrapper I)) : Prop :=
  length ws = length ls /\
  forall k w, ws !! k = Some w -> exists l p, ls !! k = Some l /\ Q l p /\ wrapped (ats k) p w.

(** Where a child stands when it is one entry before its cut. *)
Definition back (l : list entry) (q : nat) : nat := match q with O => length l | S q' => q' end.

Definition fwd (i : nat) : list (IteratorWrapper I) -> Prop := child_ok (cut i).
Definition rev (i : nat) : list (IteratorWrapper I) -> Prop :=
  child_ok (fun l p => exists q, cut i l q /\ p = back l q).

Lemma on_children_spec f (P : nat -> IteratorWrapper I -> IteratorWrapper I -> Prop) ws : forall i,
  (forall k w, ws !! k = Some w -> exists w', f (i + k)%nat w = Some w' /\ P (i + k)%nat w w') ->
  exists ws', on_children f i ws = Some ws' /\ length ws' = length ws /\
    forall k w', ws' !! k = Some w' -> exists w, ws !! k = Some w /\ P (i + k)%nat w w'.
Proof.
  induction ws as [|w ws IH]; intros i Hf; cbn [on_children].
  { exists []. split_and!; [done..|]. intros k w'. by rewrite lookup_nil. }
  destruct (Hf 0%nat w eq_refl) as (w' & Hw & HP). rewrite Nat.add_0_r in Hw, HP. rewrite Hw.
  destruct (IH (S i)) as (ws' & -> & Hl & Hws).
  { intros k w1 Hk. rewrite Nat.add_succ_comm. by apply (Hf (S k)). }
  exists (w' :: ws'). split; [done|]. split; [cbn; lia|]. intros [|k] w1 Hk; cbn in Hk.
  - injection Hk as <-. exists w. by rewrite Nat.add_0_r.
  - rewrite <- Nat.add_succ_comm. by apply Hws.
Qed.

Lemma on_child_ok (f : nat -> IteratorWrapper I -> option (IteratorWrapper I)) Q Q' ws :
  child_ok Q ws ->
  (forall k l p w, ls !! k = Some l -> Q l p -> wrapped (ats k) p w ->
     exists w' p', f k w = Some w' /\ Q' l p' /\ wrapped (ats k) p' w') ->
  exists ws', on_children f 0 ws = Some ws' /\ child_ok Q' ws'.
Proof.
  intros [Hl Hws] Hf.
  destruct (on_children_spec f (fun k _ w' => exists l p', ls !! k = Some l /\ Q' l p' /\ wrapped (ats k) p' w') ws 0)
    as (ws' & Ho & Hl' & Hws').
  { intros k w Hk. destruct (Hws k w Hk) as (l & p & Hlk & HQ & Hw).
    destruct (Hf k l p w Hlk HQ Hw) as (w' & p' & Hfw & HQ' & Hw'). exists w'. split; [done|]. by exists l, p'. }
  exists ws'. split; [done|]. split; [congruence|]. intros k w' Hk.
  destruct (Hws' k w' Hk) as (_ & _ & Hx). exact Hx.
Qed.

(** What the choosing loops choose. *)
Definition keyed (l : list (IteratorWrapper I)) : Prop :=
  Forall (fun w => iterValid w = true -> dom (iterkey w)) l.

Lemma findSmallest_loop_spec l : forall i acc,
  keyed l -> (forall k key, acc = Some (k, key) -> dom key) ->
  match findSmallest_loop l i acc with
  | None => acc = None /\ Forall (fun w => iterValid w = false) l
  | Some (k, key) => dom key /\
      (acc = Some (k, key) \/
       exists j w, k = (i + j)%nat /\ l !! j = Some w /\ iterValid w = true /\ iterkey w = key) /\
      (forall k0 key0, acc = Some (k0, key0) -> Compare c key0 key <> Lt) /\
      Forall (fun w => iterValid w = true -> Compare c (iterkey w) key <> Lt) l
  end.
Proof.
  induction l as [|w l IH]; intros i acc Hkey Hacc; cbn [findSmallest_loop].
  { destruct acc as [[k key]|]; [|done]. pose proof (Hacc k key eq_refl) as Hk.
    split_and!; [done|by left| |constructor]. intros k0 key0 [= <- <-].
    by rewrite (Compare_refl (dom := dom)). }
  apply Forall_cons in Hkey as [Hw Hkey].
  set (acc' := if iterValid w then _ else acc).
  assert (acc' = acc /\ iterValid w = false \/
    acc' = acc /\ iterValid w = true /\ (exists k0 key0, acc = Some (k0, key0) /\ Compare c (iterkey w) key0 <> Lt) \/
    acc' = Some (i, iterkey w) /\ iterValid w = true /\
      (forall k0 key0, acc = Some (k0, key0) -> Compare c (iterkey w) key0 = Lt)) as Hcase.
  { subst acc'. destruct (iterValid w); [right|by left].
    destruct acc as [[k0 key0]|]; [|by right].
    destruct (Compare c (iterkey w) key0) eqn:E; [left|right|left]; (split; [done|split; [done|]]).
    - exists k0, key0. by rewrite E.
    - intros ? ? [= <- <-]. done.
    - exists k0, key0. by rewrite E. }
  clearbody acc'. specialize (IH (S i) acc' Hkey).
  assert (forall k key, acc' = Some (k, key) -> dom key) as Hacc'.
  { intros k key E. destruct Hcase as [[-> _]|[(-> & _)|(-> & Hv & _)]]; [by eapply Hacc..|].
    injection E as <- <-. by apply Hw. }
  specialize (IH Hacc'). destruct (findSmallest_loop l (S i) acc') as [[k key]|].
  - destruct IH as (Hd & Hfrom & Hleacc & Hall). split; [done|]. split; [|split].
    + destruct Hfrom as [E|(j & w' & -> & Hj & Hv & Hkw)].
      * destruct Hcase as [[-> _]|[(-> & _)|(-> & Hv & _)]]; [by left..|]. injection E as <- <-.
        right. exists 0%nat, w. split; [lia|done].
      * right. exists (S j), w'. split; [lia|done].
    + intros k0 key0 E. destruct Hcase as [[-> _]|[(-> & _)|(-> & Hv & Hlt)]]; [by eapply Hleacc..|].
      specialize (Hlt k0 key0 E). specialize (Hleacc i (iterkey w) eq_refl). intros Hc.
      apply Hleacc. apply (Compare_lt_trans (dom := dom) (iterkey w) key0 key); try done; [by apply Hw|by eapply Hacc].
    + apply Forall_cons. split; [|done]. intros Hv.
      destruct Hcase as [[_ Hf]|[(-> & _ & k0 & key0 & E & Hge)|(-> & _)]]; [congruence| |by eapply Hleacc].
      specialize (Hleacc k0 key0 E). intros Hc.
      apply Hge. pose proof (Hacc k0 key0 E) as Hd0.
      destruct (Compare c key0 key) eqn:E0; [| done |].
      * rewrite (Compare_eq_r (dom := dom) key0 key (iterkey w)); auto.
      * apply (Compare_gt_lt (dom := dom)) in E0; [|done..].
        apply (Compare_lt_trans (dom := dom) (iterkey w) key key0); auto.
  - destruct IH as [-> Hall]. destruct Hcase as [[<- Hv]|[(<- & Hv & ? & ? & ? & _)|(? & _)]]; [|done..].
    split; [done|]. by constructor.
Qed.

Lemma findLargest_loop_spec l : forall i,
  keyed l ->
  match findLargest_loop l i with
  | None => Forall (fun w => iterValid w = false) l
  | Some (k, key) => dom key /\
      (exists j w, k = (i + j)%nat /\ l !! j = Some w /\ iterValid w = true /\ iterkey w = key) /\
      Forall (fun w => iterValid w = true -> Compare c key (iterkey w) <> Lt) l
  end.
Proof.
  induction l as [|w l IH]; intros i Hkey; cbn [findLargest_loop]; [constructor|].
  apply Forall_cons in Hkey as [Hw Hkey]. specialize (IH (S i) Hkey).
  destruct (iterValid w) eqn:Hv.
  2:{ destruct (findLargest_loop l (S i)) as [[k key]|]; [|by constructor].
      destruct IH as (Hd & (j & w' & -> & Hj & Hx) & Hall).
      split; [done|]. split; [exists (S j), w'; split; [lia|done]|].
      constructor; [congruence|done]. }
  destruct (findLargest_loop l (S i)) as [[k key]|].
  2:{ split; [auto|]. split; [exists 0%nat, w; split; [lia|done]|]. constructor.
      - intros _. rewrite (Compare_refl (dom := dom)); auto.
      - eapply Forall_impl; [exact IH|]. cbn. congruence. }
  destruct IH as (Hd & (j & w' & -> & Hj & Hx) & Hall).
  destruct (Compare c (iterkey w) key) eqn:E.
  1,2: split; [done|]; split; [exists (S j), w'; split; [lia|done]|]; constructor; [|done];
    intros _ Hc; apply (Compare_gt_lt (dom := dom)) in Hc; auto; congruence.
  split; [auto|]. split; [exists 0%nat, w; split; [lia|done]|]. constructor.
  { intros _. rewrite (Compare_refl (dom := dom)); auto. }
  apply Forall_forall. intros w1 Hin Hv1 Hc. rewrite Forall_forall in Hall, Hkey.
  apply (Compare_gt_lt (dom := dom)) in E; auto.
  apply (Hall w1 Hin Hv1). apply (Compare_lt_trans (dom := dom) key (iterkey w) (iterkey w1)); auto.
Qed.

Lemma child_view k l p w :
  ls !! k = Some l -> wrapped (ats k) p w ->
  iterValid w = (p <? length l)%nat /\ (p <= length l)%nat /\ iterstatus w = OK /\
  forall e, l !! p = Some e -> iterkey w = e.1 /\ itervalue w = e.2.
Proof.
  intros Hk Hw. pose proof (wrapper_refines _ _ _ _ (Hchild k l Hk)) as Hr.
  split; [by apply (ir_valid _ _ _ _ Hr p)|]. split; [by apply (ir_le _ _ _ _ Hr p w)|].
  split; [by apply (ir_status _ _ _ _ Hr p)|]. intros e He. by apply (ir_entry _ _ _ _ Hr p).
Qed.

(** A valid child shows an entry of the merge. *)
Lemma child_entry k l p w :
  ls !! k = Some l -> wrapped (ats k) p w -> iterValid w = true ->
  exists e q, l !! p = Some e /\ es !! q = Some e /\ iterkey w = e.1.
Proof.
  intros Hk Hw Hv. destruct (child_view k l p w Hk Hw) as (Hv' & _ & _ & He).
  rewrite Hv' in Hv. apply Nat.ltb_lt in Hv. destruct (lookup_lt_is_Some_2 l p Hv) as [e Hp].
  destruct (child_in k l p e Hk Hp) as [q Hq]. exists e, q. split; [done|]. split; [done|]. by apply He.
Qed.

Lemma child_ok_keyed Q ws : child_ok Q ws -> keyed ws.
Proof.
  intros [_ Hws]. apply Forall_lookup. intros k w Hk Hv. destruct (Hws k w Hk) as (l & p & Hl & _ & Hw).
  destruct (child_entry k l p w Hl Hw Hv) as (e & q & _ & Hq & ->). by eapply es_dom.
Qed.

Definition owns (k i : nat) : Prop := exists l e, ls !! k = Some l /\ es !! i = Some e /\ e ∈ l.

Lemma settled_fwd i ws :
  (i <= n)%nat -> fwd i ws -> match findSmallest ws with None => i = n | Some k => owns k i end.
Proof.
  intros Hi Hf. pose proof (child_ok_keyed _ _ Hf) as Hkey. destruct Hf as [Hlen Hws].
  pose proof (findSmallest_loop_spec ws 0 None Hkey ltac:(done)) as Hspec. unfold findSmallest.
  assert (forall e, es !! i = Some e -> exists k l p w, ls !! k = Some l /\ e ∈ l /\ ws !! k = Some w /\
    iterValid w = true /\ iterkey w = e.1 /\ l !! p = Some e) as Howner.
  { intros e He. destruct (es_in i e He) as (k & l & Hk & Hin).
    destruct (lookup_lt_is_Some_2 ws k) as [w Hw]; [rewrite Hlen; by eapply lookup_lt_Some|].
    destruct (Hws k w Hw) as (l' & p & Hl & Hcut & Hat). simplify_eq.
    pose proof (cut_owner k i l p e Hk Hcut He Hin) as Hp. exists k, l, p, w.
    destruct (child_view k l p w Hk Hat) as (Hv & _ & _ & Hkv). rewrite Hv. destruct (Hkv e Hp).
    split_and!; try done. apply Nat.ltb_lt. by eapply lookup_lt_Some. }
  destruct (findSmallest_loop ws 0 None) as [[k key]|]; cbn [fmap option_fmap option_map fst].
  - destruct Hspec as (_ & [?|(j & w & -> & Hj & Hv & Hkw)] & _ & Hall); [done|]. cbn [Nat.add].
    destruct (Hws j w Hj) as (l & p & Hl & [Hp Hcut] & Hat).
    destruct (child_entry j l p w Hl Hat Hv) as (e & q & Hpe & Hq & Hke).
    assert (i <= q)%nat as Hiq.
    { destruct (decide (q < i)%nat) as [Hlt|]; [|lia]. assert (p < p)%nat; [|lia].
      apply (Hcut p e Hpe). by exists q. }
    exists l, e. split; [done|]. split; [|by eapply list_elem_of_lookup_2].
    destruct (decide (q = i)) as [->|Hne]; [done|exfalso].
    destruct (lookup_lt_is_Some_2 es i) as [e0 He0]; [apply lookup_lt_Some in Hq; lia|].
    destruct (Howner e0 He0) as (k0 & l0 & p0 & w0 & _ & _ & Hw0 & Hv0 & Hk0 & _).
    rewrite Forall_lookup in Hall. apply (Hall k0 w0 Hw0 Hv0). rewrite Hk0, <- Hkw, Hke.
    apply (es_lt i q e0 e He0 Hq). lia.
  - destruct Hspec as [_ Hall]. destruct (decide (i = n)) as [|Hne]; [done|exfalso].
    destruct (lookup_lt_is_Some_2 es i) as [e0 He0]; [subst n; lia|].
    destruct (Howner e0 He0) as (k0 & l0 & p0 & w0 & _ & _ & Hw0 & Hv0 & _).
    rewrite Forall_lookup in Hall. rewrite (Hall k0 w0 Hw0) in Hv0. done.
Qed.

Lemma settled_rev i ws :
  (i <= n)%nat -> rev i ws ->
  match findLargest ws, i with None, O => True | Some k, S j => owns k j | _, _ => False end.
Proof.
  intros Hi Hf. pose proof (child_ok_keyed _ _ Hf) as Hkey. destruct Hf as [Hlen Hws].
  pose proof (findLargest_loop_spec ws 0 Hkey) as Hspec. unfold findLargest.
  (* a valid child shows an entry before the cut *)
  assert (forall k w, ws !! k = Some w -> iterValid w = true -> exists l p e q,
    ls !! k = Some l /\ l !! p = Some e /\ es !! q = Some e /\ (q < i)%nat /\ iterkey w = e.1) as Hshow.
  { intros k w Hk Hv. destruct (Hws k w Hk) as (l & p & Hl & (q & [Hq Hcut] & ->) & Hat).
    destruct (child_entry k l _ w Hl Hat Hv) as (e & q' & Hpe & Hq' & Hke). destruct q as [|q]; cbn [back] in Hpe.
    { apply lookup_lt_Some in Hpe. lia. }
    exists l, q, e, q'. split_and!; try done. destruct (proj1 (Hcut q e Hpe) ltac:(lia)) as (q2 & Hq2 & He2).
    by rewrite (es_inj q' q2 e). }
  assert (forall j e, i = S j -> es !! j = Some e -> exists k w, ws !! k = Some w /\ iterValid w = true /\
    iterkey w = e.1) as Howner.
  { intros j e -> He. destruct (es_in j e He) as (k & l & Hk & [m Hm]%list_elem_of_lookup).
    destruct (lookup_lt_is_Some_2 ws k) as [w Hw]; [rewrite Hlen; by eapply lookup_lt_Some|].
    destruct (Hws k w Hw) as (l' & p & Hl & (q & [Hq Hcut] & ->) & Hat). simplify_eq.
    assert (m < q)%nat as Hmq by (apply (Hcut m e Hm); exists j; split; [lia|done]).
    destruct q as [|q]; [lia|]. cbn [back] in Hat.
    destruct (lookup_lt_is_Some_2 l q ltac:(lia)) as [e' He'].
    assert (e' = e) as ->.
    { destruct (decide (m = q)) as [->|]; [congruence|exfalso].
      pose proof (child_sorted k l m q e e' Hk Hm He' ltac:(lia)) as Hlt.
      destruct (proj1 (Hcut q e' He') ltac:(lia)) as (q2 & Hq2 & He2).
      apply (es_lt j q2 e e' He He2) in Hlt. lia. }
    destruct (child_view k l q w Hk Hat) as (Hv & _ & _ & Hkv). destruct (Hkv e He').
    exists k, w. rewrite Hv. split_and!; try done. apply Nat.ltb_lt. lia. }
  destruct (findLargest_loop ws 0) as [[k key]|]; cbn [fmap option_fmap option_map fst].
  - destruct Hspec as (_ & (j & w & -> & Hj & Hv & Hkw) & Hall). cbn [Nat.add].
    destruct (Hshow j w Hj Hv) as (l & p & e & q & Hl & Hpe & Hq & Hqi & Hke).
    destruct i as [|i]; [lia|]. exists l, e. split; [done|]. split; [|by eapply list_elem_of_lookup_2].
    destruct (decide (q = i)) as [->|Hne]; [done|exfalso].
    destruct (lookup_lt_is_Some_2 es i) as [e0 He0]; [subst n; lia|].
    destruct (Howner i e0 eq_refl He0) as (k0 & w0 & Hw0 & Hv0 & Hk0).
    rewrite Forall_lookup in Hall. apply (Hall k0 w0 Hw0 Hv0). rewrite Hk0, <- Hkw, Hke.
    apply (es_lt q i e e0 Hq He0). lia.
  - destruct i as [|i]; [done|].
    destruct (lookup_lt_is_Some_2 es i) as [e0 He0]; [subst n; lia|].
    destruct (Howner i e0 eq_refl He0) as (k0 & w0 & Hw0 & Hv0 & _).
    rewrite Forall_lookup in Hspec. rewrite (Hspec k0 w0 Hw0) in Hv0. done.
Qed.

(** The merging iterator at entry [i] of the merge. *)
Definition merging_at (i : nat) (m : MergingIterator) : Prop :=
  (i <= n)%nat /\ child_ok (fun _ _ => True) (children m) /\
  ((i = n /\ mcurrent m = None) \/
   (exists k, mcurrent m = Some k /\ owns k i /\
     ((direction m = kForward /\ fwd i (children m)) \/ (direction m = kReverse /\ rev (S i) (children m))))).

Lemma child_ok_any Q ws : child_ok Q ws -> child_ok (fun _ _ => True) ws.
Proof.
  intros [Hl Hws]. split; [done|]. intros k w Hk. destruct (Hws k w Hk) as (l & p & ? & _ & ?). by exists l, p.
Qed.

Lemma owns_lt k i : owns k i -> (i < n)%nat.
Proof. intros (l & e & _ & He & _). by eapply lookup_lt_Some. Qed.

Lemma smallest_at i ws :
  (i <= n)%nat -> fwd i ws -> merging_at i (MkMerging ws (findSmallest ws) kForward).
Proof.
  intros Hi Hf. pose proof (settled_fwd i ws Hi Hf) as Hs. split; [done|]. split; [by eapply child_ok_any|].
  cbn [mcurrent direction children]. destruct (findSmallest ws) as [k|]; [right|by left]. exists k. auto.
Qed.

Lemma largest_at i ws :
  (i <= n)%nat -> rev i ws ->
  merging_at (match i with O => n | S j => j end) (MkMerging ws (findLargest ws) kReverse).
Proof.
  intros Hi Hf. pose proof (settled_rev i ws Hi Hf) as Hs.
  split; [destruct i; lia|]. split; [by eapply child_ok_any|].
  cbn [mcurrent direction children]. destruct (findLargest ws) as [k|], i as [|i]; try done.
  - right. exists k. auto.
  - by left.
Qed.

(** Moving every child. *)
Lemma children_first ws :
  child_ok (fun _ _ => True) ws ->
  exists ws', on_children (fun _ => iterSeekToFirst) 0 ws = Some ws' /\ fwd 0 ws'.
Proof.
  intros Hws. apply (on_child_ok _ _ (cut 0) _ Hws). intros k l p w Hk _ Hw.
  pose proof (wrapper_refines _ _ _ _ (Hchild k l Hk)) as Hr.
  destruct (ir_first _ _ _ _ Hr p w Hw) as (w' & Hs & Hw'). exists w', 0%nat. by split; [|split; [apply cut_0|]].
Qed.

Lemma children_last ws :
  child_ok (fun _ _ => True) ws ->
  exists ws', on_children (fun _ => iterSeekToLast) 0 ws = Some ws' /\ rev n ws'.
Proof.
  intros Hws. apply (on_child_ok _ _ (fun l p => exists q, cut n l q /\ p = back l q) _ Hws).
  intros k l p w Hk _ Hw. pose proof (wrapper_refines _ _ _ _ (Hchild k l Hk)) as Hr.
  destruct (ir_last _ _ _ _ Hr p w Hw) as (w' & Hs & Hw'). exists w', (length l - 1)%nat.
  split; [done|]. split; [|done]. exists (length l). split; [by eapply cut_n|].
  destruct (length l) eqn:El; cbn [back]; lia.
Qed.

Lemma child_seek k l p w target :
  ls !! k = Some l -> dom target -> wrapped (ats k) p w ->
  exists w' p', iterSeek w target = Some w' /\ wrapped (ats k) p' w' /\ (p' <= length l)%nat /\
    lower_bound c l target p'.
Proof.
  intros Hk Ht Hw. pose proof (wrapper_refines _ _ _ _ (Hchild k l Hk)) as Hr.
  destruct (ir_seek _ _ _ _ Hr p w target Hw Ht) as (w' & p' & Hs & Hw' & Hlb). exists w', p'.
  split; [done|]. split; [done|]. split; [|done]. by apply (ir_le _ _ _ _ Hr p' w').
Qed.

Lemma children_seek ws target i :
  dom target -> lower_bound c es target i -> child_ok (fun _ _ => True) ws ->
  exists ws', on_children (fun _ w => iterSeek w target) 0 ws = Some ws' /\ fwd i ws'.
Proof.
  intros Ht Hi Hws. apply (on_child_ok _ _ (cut i) _ Hws). intros k l p w Hk _ Hw.
  destruct (child_seek k l p w target Hk Ht Hw) as (w' & p' & Hs & Hw' & Hp & Hlb). exists w', p'.
  split; [done|]. split; [by eapply cut_lower|done].
Qed.

(** Where the search ends exists. *)
Lemma lower_bound_exists target (l : list entry) :
  exists i, (i <= length l)%nat /\ lower_bound c l target i.
Proof.
  induction l as [|e l (i & Hi & Hlo & Hhi)].
  { exists 0%nat. split; [done|]. split; [intros; lia|done]. }
  destruct (Compare c e.1 target) eqn:E.
  2:{ exists (S i). split; [cbn; lia|]. split; [|done]. intros [|m] x Hm Hx; cbn in Hx; [congruence|].
      apply (Hlo m); [lia|done]. }
  all: exists 0%nat; split; [lia|]; split; [intros; lia|]; intros x [= <-]; by rewrite E.
Qed.

Lemma current_entry k i ws Q :
  owns k i -> child_ok Q ws -> (forall l p e, Q l p -> ls !! k = Some l -> es !! i = Some e -> e ∈ l -> l !! p = Some e) ->
  exists e w, es !! i = Some e /\ ws !! k = Some w /\ iterkey w = e.1 /\ itervalue w = e.2.
Proof.
  intros (l & e & Hl & He & Hin) [Hlen Hws] HQ.
  destruct (lookup_lt_is_Some_2 ws k) as [w Hw]; [rewrite Hlen; by eapply lookup_lt_Some|].
  destruct (Hws k w Hw) as (l' & p & Hl' & HQp & Hat). simplify_eq. exists e, w. split; [done|]. split; [done|].
  destruct (child_view k l p w Hl Hat) as (_ & _ & _ & Hkv). apply Hkv. by eapply HQ.
Qed.

Lemma rev_owner k i l p e :
  (exists q, cut (S i) l q /\ p = back l q) -> ls !! k = Some l -> es !! i = Some e -> e ∈ l ->
  l !! p = Some e /\ cut i l p.
Proof.
  intros (q & [Hq Hcut] & ->) Hk He [m Hm]%list_elem_of_lookup.
  assert (m < q)%nat as Hmq by (apply (Hcut m e Hm); exists i; split; [lia|done]).
  destruct q as [|q]; [lia|]. cbn [back]. destruct (lookup_lt_is_Some_2 l q ltac:(lia)) as [e' He'].
  assert (m = q) as ->.
  { destruct (decide (m = q)) as [|Hne]; [done|exfalso].
    pose proof (child_sorted k l m q e e' Hk Hm He' ltac:(lia)) as Hlt.
    destruct (proj1 (Hcut q e' He') ltac:(lia)) as (q2 & Hq2 & He2). apply (es_lt i q2 e e' He He2) in Hlt. lia. }
  split; [done|]. split; [lia|]. intros m x Hx. split.
  - intros Hlt. pose proof (child_sorted k l m q x e Hk Hx Hm Hlt) as Hc.
    destruct (child_in k l m x Hk Hx) as [q2 Hq2]. exists q2. split; [|done]. by apply (es_lt q2 i x e).
  - intros (q2 & Hq2 & Hx2). destruct (decide (m < q)%nat) as [|Hge]; [done|exfalso].
    assert (m <> q) by (intros ->; simplify_eq; rewrite (es_inj q2 i e) in Hq2 by done; lia).
    pose proof (child_sorted k l q m e x Hk Hm Hx ltac:(lia)) as Hc. apply (es_lt i q2 e x He Hx2) in Hc. lia.
Qed.

Lemma merging_key i m e :
  merging_at i m -> es !! i = Some e -> m_key m = e.1 /\ m_value m = e.2.
Proof.
  intros (Hi & _ & [[-> _]|(k & Hcur & Hown & Hst)]) He; [apply lookup_lt_Some in He; subst n; lia|].
  unfold m_key, m_value, m_child. rewrite Hcur.
  destruct Hst as [[_ Hf]|[_ Hf]]; (edestruct current_entry as (e' & w & He' & -> & Hkv); [exact Hown|exact Hf| |by simplify_eq]).
  - intros l p x HQ Hl Hx Hin. by eapply cut_owner.
  - intros l p x HQ Hl Hx Hin. by destruct (rev_owner k i l p x HQ Hl Hx Hin).
Qed.

(** The other children, moved to the far side of the current key. *)
Lemma others_after k i ws e :
  es !! i = Some e -> owns k i -> rev (S i) ws ->
  exists ws', on_children (others k (skip_after e.1)) 0 ws = Some ws' /\ fwd i ws'.
Proof.
  intros He (lk & e' & Hlk & He' & Hin) Hws. simplify_eq.
  apply (on_child_ok _ _ (cut i) _ Hws). intros k' l p w Hk HQ Hw. unfold others. case_decide as Hd.
  { subst k'. simplify_eq. exists w, p. split; [done|]. split; [|done]. by apply (rev_owner k i lk p e). }
  destruct (child_seek k' l p w e.1 Hk (es_dom i e He) Hw) as (w' & p' & Hs & Hw' & Hp' & Hlb).
  unfold skip_after. rewrite Hs.
  assert (cut i l p') as Hcut by (eapply cut_lower; [done|by eapply es_dom|done|by apply lower_bound_self|done]).
  destruct (iterValid w') eqn:Hv; [|by exists w', p'].
  destruct (child_entry k' l p' w' Hk Hw' Hv) as (x & q & Hx & Hq & ->).
  assert (Compare c e.1 x.1 <> Eq) as Hne.
  { intros Heq. assert (q <> i) as Hqi.
    { intros ->. simplify_eq. apply Hd. apply (owner_unique _ _ l lk e); try done. by eapply list_elem_of_lookup_2. }
    pose proof (Compare_eq_sym (dom := dom) _ _ (es_dom _ _ He) (es_dom _ _ Hq) Heq) as Heq'.
    destruct (Nat.lt_total q i) as [Hl|[?|Hl]]; [|done|]; eapply es_lt in Hl; try done; congruence. }
  destruct (Compare c e.1 x.1); [done| |]; by exists w', p'.
Qed.

Lemma others_before k i ws e :
  es !! i = Some e -> owns k i -> fwd i ws ->
  exists ws', on_children (others k (skip_before e.1)) 0 ws = Some ws' /\
    child_ok (fun l p => exists q, cut i l q /\ p = if decide (e ∈ l) then q else back l q) ws'.
Proof.
  intros He (lk & e' & Hlk & He' & Hin) Hws. simplify_eq.
  apply (on_child_ok _ _ _ _ Hws). intros k' l p w Hk Hcut Hw. unfold others. case_decide as Hd.
  { subst k'. simplify_eq. exists w, p. split; [done|]. split; [|done]. exists p. by rewrite decide_True. }
  assert (e ∉ l) as Hni by (intros Hel; apply Hd; by apply (owner_unique _ _ l lk e)).
  destruct (child_seek k' l p w e.1 Hk (es_dom i e He) Hw) as (w' & p' & Hs & Hw' & Hp' & Hlb).
  unfold skip_before. rewrite Hs.
  assert (cut i l p') as Hcut' by (eapply cut_lower; [done|by eapply es_dom|done|by apply lower_bound_self|done]).
  pose proof (wrapper_refines _ _ _ _ (Hchild k' l Hk)) as Hr.
  destruct (child_view k' l p' w' Hk Hw') as (Hv & _). rewrite Hv.
  destruct (Nat.ltb_spec p' (length l)) as [Hlt|Hge].
  - destruct (ir_prev _ _ _ _ Hr p' w' Hw' Hlt) as (w2 & -> & Hw2). exists w2, (back l p').
    split; [done|]. split; [|by destruct p']. exists p'. by rewrite decide_False.
  - destruct (ir_last _ _ _ _ Hr p' w' Hw') as (w2 & -> & Hw2). exists w2, (length l - 1)%nat.
    split; [done|]. split; [|done]. exists p'. rewrite decide_False by done. split; [done|].
    replace p' with (length l) by lia. destruct (length l) eqn:El; cbn [back]; lia.
Qed.

(** The current child, moved past its entry. *)
Lemma current_next k i ws e :
  es !! i = Some e -> owns k i -> fwd i ws ->
  exists ws', on_children (on_current k iterNext) 0 ws = Some ws' /\ fwd (S i) ws'.
Proof.
  intros He (lk & e' & Hlk & He' & Hin) Hws. simplify_eq.
  apply (on_child_ok _ _ (cut (S i)) _ Hws). intros k' l p w Hk Hcut Hw. unfold on_current. case_decide as Hd.
  - subst k'. simplify_eq. pose proof (cut_owner k i lk p e Hlk Hcut He Hin) as Hp.
    destruct (ir_next _ _ _ _ (wrapper_refines _ _ _ _ (Hchild k lk Hlk)) p w Hw) as (w' & Hn & Hw');
      [by eapply lookup_lt_Some|].
    exists w', (S p). split; [done|]. split; [by eapply cut_current|done].
  - exists w, p. split; [done|]. split; [|done]. eapply cut_other; [done..|].
    intros Hel. apply Hd. by apply (owner_unique _ _ l lk e).
Qed.

Lemma current_prev k i ws e Q :
  es !! i = Some e -> owns k i -> child_ok Q ws ->
  (forall l p, Q l p -> exists q, cut i l q /\ p = if decide (e ∈ l) then q else back l q) ->
  exists ws', on_children (on_current k iterPrev) 0 ws = Some ws' /\ rev i ws'.
Proof.
  intros He (lk & e' & Hlk & He' & Hin) Hws HQ. simplify_eq.
  apply (on_child_ok _ _ (fun l p => exists q, cut i l q /\ p = back l q) _ Hws).
  intros k' l p w Hk (q & Hcut & ->)%HQ Hw. unfold on_current.
  destruct (decide (k' = k)) as [->|Hd].
  - simplify_eq. rewrite decide_True in Hw by done.
    pose proof (cut_owner k i lk q e Hlk Hcut He Hin) as Hp.
    destruct (ir_prev _ _ _ _ (wrapper_refines _ _ _ _ (Hchild k lk Hlk)) q w Hw) as (w' & Hn & Hw');
      [by eapply lookup_lt_Some|].
    exists w', (back lk q). split; [done|]. split; [by exists q|]. by destruct q.
  - rewrite decide_False in Hw by (intros Hel; apply Hd; by apply (owner_unique _ _ l lk e)).
    exists w, (back l q). split; [done|]. split; [by exists q|done].
Qed.

Lemma rev_before i ws e :
  es !! i = Some e -> rev (S i) ws ->
  child_ok (fun l p => exists q, cut i l q /\ p = if decide (e ∈ l) then q else back l q) ws.
Proof.
  intros He [Hlen Hws]. split; [done|]. intros k w Hk. destruct (Hws k w Hk) as (l & p & Hl & HQ & Hat).
  exists l, p. split; [done|]. split; [|done]. case_decide as Hin.
  - exists p. split; [|done]. by apply (rev_owner k i l p e).
  - destruct HQ as (q & [Hq Hcut] & ->). exists q. split; [|done]. split; [done|].
    intros m x Hx. rewrite (Hcut m x Hx). split; intros (r & Hr & Hrx); exists r; (split; [|done]); [|lia].
    destruct (decide (r = i)) as [->|]; [|lia]. simplify_eq. exfalso. apply Hin. by eapply list_elem_of_lookup_2.
Qed.

Lemma merging_status l : Forall (fun w => iterstatus w = OK) l -> m_status_loop l OK = OK.
Proof. induction 1 as [|w l Hw Hl IH]; cbn [m_status_loop]; [done|]. by rewrite Hw. Qed.

Lemma merging_iter : iter_refines c dom es merging_at.
Proof.
  constructor.
  - by intros i m (Hi & _).
  - intros i m (Hi & _ & Hst). cbn. unfold m_Valid. destruct Hst as [[-> ->]|(k & -> & Hown & _)].
    + symmetry. apply Nat.ltb_ge. done.
    + symmetry. apply Nat.ltb_lt. by eapply owns_lt.
  - intros i m (_ & [_ Hws] & _). cbn. apply merging_status, Forall_lookup. intros k w Hk.
    destruct (Hws k w Hk) as (l & p & Hl & _ & Hw). by apply (child_view k l p w).
  - intros i m e. apply merging_key.
  - intros i m (_ & Hany & _). cbn. unfold m_SeekToFirst.
    destruct (children_first _ Hany) as (ws & -> & Hws). eexists. split; [done|]. apply smallest_at; [lia|done].
  - intros i m (_ & Hany & _). cbn. unfold m_SeekToLast.
    destruct (children_last _ Hany) as (ws & -> & Hws). eexists. split; [done|].
    pose proof (largest_at n ws ltac:(lia) Hws) as Hl. replace (length es - 1)%nat with (match n with O => n | S j => j end); [done|].
    assert (forall x, match x with O => x | S j => j end = (x - 1)%nat) as Hx by (intros []; lia). apply Hx.
  - intros i m Hat Hi. destruct (lookup_lt_is_Some_2 es i Hi) as [e He].
    destruct (merging_key i m e Hat He) as [Hkey _]. destruct Hat as (_ & Hany & [[-> _]|(k & Hcur & Hown & Hst)]); [unfold n in *; lia|].
    cbn [iterNext Merging_iter]. unfold m_Next. rewrite Hcur.
    assert (exists ws, match direction m with
      | kForward => Some (children m)
      | kReverse => on_children (others k (skip_after (m_key m))) 0 (children m)
      end = Some ws /\ fwd i ws) as (ws & -> & Hws).
    { destruct Hst as [[-> Hf]|[-> Hf]]; [by exists (children m)|]. rewrite Hkey. by apply others_after. }
    destruct (current_next k i ws e He Hown Hws) as (ws' & -> & Hws'). eexists. split; [done|].
    apply smallest_at; [unfold n in *; lia|done].
  - intros i m Hat Hi. destruct (lookup_lt_is_Some_2 es i Hi) as [e He].
    destruct (merging_key i m e Hat He) as [Hkey _]. destruct Hat as (_ & Hany & [[-> _]|(k & Hcur & Hown & Hst)]); [unfold n in *; lia|].
    cbn [iterPrev Merging_iter]. unfold m_Prev. rewrite Hcur.
    assert (exists ws, match direction m with
      | kReverse => Some (children m)
      | kForward => on_children (others k (skip_before (m_key m))) 0 (children m)
      end = Some ws /\ child_ok (fun l p => exists q, cut i l q /\ p = if decide (e ∈ l) then q else back l q) ws)
      as (ws & -> & Hws).
    { destruct Hst as [[-> Hf]|[-> Hf]]; [rewrite Hkey; by apply others_before|].
      exists (children m). split; [done|]. by apply rev_before. }
    destruct (current_prev k i ws e _ He Hown Hws ltac:(done)) as (ws' & -> & Hws'). eexists. split; [done|].
    apply largest_at; [unfold n in *; lia|done].
  - intros i m target (_ & Hany & _) Ht. cbn [iterSeek Merging_iter]. unfold m_Seek.
    destruct (lower_bound_exists target es) as (j & Hj & Hlb).
    destruct (children_seek _ target j Ht Hlb Hany) as (ws & -> & Hws).
    eexists _, j. split; [done|]. split; [|done]. by apply smallest_at.
Qed.

Lemma merging_make child :
  length child = length ls -> (forall k it, child !! k = Some it -> exists p, ats k p it) ->
  exists m, MergingIterator_make child = Some m /\ merging_at n m.
Proof.
  intros Hlen Hat. unfold MergingIterator_make.
  destruct (on_children_spec (fun _ w => Set_iter w (iter w))
    (fun k _ w' => exists p, wrapped (ats k) p w') (map (fun it => MkWrapper (Some it) false []) child) 0)
    as (ws & -> & Hl & Hws).
  { intros k w Hk. rewrite list_lookup_fmap in Hk. apply fmap_Some in Hk as (it & Hk & ->).
    destruct (Hat k it Hk) as [p Hp]. cbn [iter Nat.add].
    destruct (Set_iter_wrapped (ats k) p it (MkWrapper (Some it) false []) Hp) as (w' & Hs & Hw').
    exists w'. split; [done|]. by exists p. }
  eexists. split; [done|]. rewrite length_map in Hl. split; [done|]. split; [|by left].
  cbn [children]. split; [congruence|]. intros k w Hk.
  destruct (lookup_lt_is_Some_2 ls k) as [l Hlk]; [rewrite <- Hlen, <- Hl; by eapply lookup_lt_Some|].
  destruct (Hws k w Hk) as (_ & _ & p & Hp). by exists l, p.
Qed.
End Refinement.
End Merging.

(** ** [TwoLevelIterator] *)

Section TwoLevel.
Context {I1 I2 W : Type} `{Iter I1} `{Iter I2}.
(** [callback(options, handle)] and the cleanup of the iterators it made act on what they
    share, the block cache; and a bound on the turns of the skipping loops. *)
Context (callback : W -> bytes -> option (I2 * W)) (cleanup : W -> I2 -> option W) (fuel : nat).

Record TwoLevelIterator := MkTwoLevel {
  indexIter : IteratorWrapper I1;
  dataIter : IteratorWrapper I2;
  datablockhandle : bytes;
  tl_s : Status;
  world : W;
}.

Definition TwoLevelIterator_make (index : I1) (shared : W) : option TwoLevelIterator :=
  let? w := Set_iter Wrapper_make (Some index) in
  Some (MkTwoLevel w Wrapper_make [] OK shared).

(** What becomes of the shared state when the data iterator is destroyed. *)
Definition forget_data (t : TwoLevelIterator) : option W :=
  match iter (dataIter t) with Some it => cleanup (world t) it | None => Some (world t) end.

(** The parameter hides the member: both tests read the argument. *)
Definition SaveError (member s : Status) : Status :=
  if ok s && negb (ok s) then s else member.

Definition SetDataIterator (t : TwoLevelIterator) (it : option I2) : option TwoLevelIterator :=
  let s := match iter (dataIter t) with
           | Some _ => SaveError (tl_s t) (iterstatus (dataIter t))
           | None => tl_s t
           end in
  let? d := Set_iter (dataIter t) it in
  let? w := forget_data t in
  Some (MkTwoLevel (indexIter t) d (datablockhandle t) s w).

Definition has_data (t : TwoLevelIterator) : bool :=
  match iter (dataIter t) with Some _ => true | None => false end.

Definition InitDataBlock (t : TwoLevelIterator) : option TwoLevelIterator :=
  if negb (iterValid (indexIter t)) then SetDataIterator t None
  else
    let handle := itervalue (indexIter t) in
    if has_data t && bool_decide (handle = datablockhandle t) then Some t
    else
      let? (it, w) := callback (world t) handle in
      SetDataIterator (MkTwoLevel (indexIter t) (dataIter t) handle (tl_s t) w) (Some it).

(** [if (dataIter.GetIter() != nullptr) dataIter.f()]. *)
Definition on_data (f : IteratorWrapper I2 -> option (IteratorWrapper I2)) (t : TwoLevelIterator)
    : option TwoLevelIterator :=
  if has_data t then
    let? d := f (dataIter t) in Some (MkTwoLevel (indexIter t) d (datablockhandle t) (tl_s t) (world t))
  else Some t.

Definition on_index (f : IteratorWrapper I1 -> option (IteratorWrapper I1)) (t : TwoLevelIterator)
    : option TwoLevelIterator :=
  let? i := f (indexIter t) in Some (MkTwoLevel i (dataIter t) (datablockhandle t) (tl_s t) (world t)).

Fixpoint SkipEmptyDataBlocks (fuel : nat) (move : IteratorWrapper I1 -> option (IteratorWrapper I1))
    (enter : IteratorWrapper I2 -> option (IteratorWrapper I2)) (t : TwoLevelIterator)
    : option TwoLevelIterator :=
  match fuel with
  | O => None
  | S fuel' =>
      if negb (has_data t) || negb (iterValid (dataIter t)) then
        if negb (iterValid (indexIter t)) then SetDataIterator t None
        else
          let? t := on_index move t in
          let? t := InitDataBlock t in
          let? t := on_data enter t in
          SkipEmptyDataBlocks fuel' move enter t
      else Some t
  end.

Definition SkipEmptyDataBlocksForward := SkipEmptyDataBlocks fuel iterNext iterSeekToFirst.
Definition SkipEmptyDataBlocksBackward := SkipEmptyDataBlocks fuel iterPrev iterSeekToLast.

Definition tl_Seek (t : TwoLevelIterator) (target : bytes) : option TwoLevelIterator :=
  let? t := on_index (fun w => iterSeek w target) t in
  let? t := InitDataBlock t in
  let? t := on_data (fun w => iterSeek w target) t in
  SkipEmptyDataBlocksForward t.

Definition tl_SeekToFirst (t : TwoLevelIterator) : option TwoLevelIterator :=
  let? t := on_index iterSeekToFirst t in
  let? t := InitDataBlock t in
  let? t := on_data iterSeekToFirst t in
  SkipEmptyDataBlocksForward t.

Definition tl_SeekToLast (t : TwoLevelIterator) : option TwoLevelIterator :=
  let? t := on_index iterSeekToLast t in
  let? t := InitDataBlock t in
  let? t := on_data iterSeekToLast t in
  SkipEmptyDataBlocksBackward t.

Definition tl_Next (t : TwoLevelIterator) : option TwoLevelIterator :=
  if iterValid (dataIter t) then
    let? d := iterNext (dataIter t) in
    SkipEmptyDataBlocksForward (MkTwoLevel (indexIter t) d (datablockhandle t) (tl_s t) (world t))
  else None.

Definition tl_Prev (t : TwoLevelIterator) : option TwoLevelIterator :=
  if iterValid (dataIter t) then
    let? d := iterPrev (dataIter t) in
    SkipEmptyDataBlocksBackward (MkTwoLevel (indexIter t) d (datablockhandle t) (tl_s t) (world t))
  else None.

Definition tl_status (t : TwoLevelIterator) : Status :=
  if negb (ok (iterstatus (indexIter t))) then iterstatus (indexIter t)
  else if has_data t && negb (ok (iterstatus (dataIter t))) then iterstatus (dataIter t)
  else tl_s t.

#[export] Instance TwoLevel_iter : Iter TwoLevelIterator := {
  iterValid t := iterValid (dataIter t);
  iterSeekToFirst := tl_SeekToFirst;
  iterSeekToLast := tl_SeekToLast;
  iterSeek := tl_Seek;
  iterNext := tl_Next;
  iterPrev := tl_Prev;
  iterkey t := iterkey (dataIter t);
  itervalue t := itervalue (dataIter t);
  iterstatus := tl_status;
}.

(** *** The concatenation *)

Section Refinement.
Context (c : Comparator) (dom : bytes -> Prop) {Hok : ComparatorOk c dom}.
(** The index, and the entries behind each of its handles. *)
Context (idx : list entry) (index_at : nat -> I1 -> Prop).
Context (dl : bytes -> list entry) (data_at : bytes -> nat -> I2 -> Prop).
(** What holds of the shared state; it is kept by the callback and by the cleanups. *)
Context (shared_ok : W -> Prop).
Hypothesis Hindex : iter_refines c dom idx index_at.
Hypothesis Hdata : forall i e, idx !! i = Some e -> iter_refines c dom (dl e.2) (data_at e.2).
Hypothesis Hcall : forall i e w, idx !! i = Some e -> shared_ok w ->
  exists it w' o, callback w e.2 = Some (it, w') /\ shared_ok w' /\ data_at e.2 o it.
Hypothesis Hclean : forall i e o it w, idx !! i = Some e -> data_at e.2 o it -> shared_ok w ->
  exists w', cleanup w it = Some w' /\ shared_ok w'.
Hypothesis Hidom : Forall (fun e => dom e.1) idx.
Hypothesis Hddom : forall i e x, idx !! i = Some e -> x ∈ dl e.2 -> dom x.1.
(** Separators: at or after the entries of their block, before those of the later ones. *)
Hypothesis Hbelow : forall i e x, idx !! i = Some e -> x ∈ dl e.2 -> Compare c x.1 e.1 <> Gt.
Hypothesis Habove : forall i j e e' x, (i < j)%nat -> idx !! i = Some e -> idx !! j = Some e' ->
  x ∈ dl e'.2 -> Compare c e.1 x.1 = Lt.
Hypothesis Hfuel : (length idx + 2 <= fuel)%nat.

Definition concatenated : list entry := concat (map (fun e => dl e.2) idx).
Definition start (i : nat) : nat := length (concat (map (fun e => dl e.2) (take i idx))).

Lemma start_S i e : idx !! i = Some e -> start (S i) = (start i + length (dl e.2))%nat.
Proof.
  intros He. unfold start. rewrite (take_S_r idx i e He), map_app, concat_app, length_app.
  cbn [map concat]. by rewrite app_nil_r.
Qed.

Lemma start_end : start (length idx) = length concatenated.
Proof. unfold start. by rewrite take_ge. Qed.

Lemma start_le i : (start i <= length concatenated)%nat.
Proof.
  unfold start, concatenated. rewrite <- (take_drop i idx) at 2. rewrite map_app, concat_app, length_app. lia.
Qed.

Lemma concatenated_at i e o x :
  idx !! i = Some e -> dl e.2 !! o = Some x -> concatenated !! (start i + o)%nat = Some x.
Proof.
  intros He Hx.
  assert (concatenated = concat (map (fun e => dl e.2) (take i idx)) ++ dl e.2 ++
    concat (map (fun e => dl e.2) (drop (S i) idx))) as ->.
  { unfold concatenated. rewrite <- (take_drop_middle idx i e He) at 1. by rewrite map_app, concat_app. }
  unfold start. rewrite lookup_app_r by lia.
  match goal with |- _ !! ?a = _ => replace a with o by lia end.
  by apply lookup_app_l_Some.
Qed.

Lemma concatenated_in g x :
  concatenated !! g = Some x ->
  exists i e o, idx !! i = Some e /\ dl e.2 !! o = Some x /\ g = (start i + o)%nat.
Proof.
  assert (forall l, concat (map (fun e : entry => dl e.2) l) !! g = Some x ->
    exists i e o, l !! i = Some e /\ dl e.2 !! o = Some x /\
      g = (length (concat (map (fun e : entry => dl e.2) (take i l))) + o)%nat) as Hgen; [|apply Hgen].
  intros l. revert g. induction l as [|e l IH]; intros g Hg; cbn [map concat] in Hg; [done|].
  apply lookup_app_Some in Hg as [Hg|[Hge Hg]].
  - exists 0%nat, e, g. by split_and!.
  - destruct (IH _ Hg) as (i & e' & o & He' & Hx & Ho). exists (S i), e', o. split; [done|]. split; [done|].
    cbn [take map concat]. rewrite length_app. lia.
Qed.

(** The data iterator is over the block of its handle. *)
Definition data_ok (t : TwoLevelIterator) : Prop :=
  (iter (dataIter t) = None /\ vali (dataIter t) = false) \/
  (exists i e o, idx !! i = Some e /\ wrapped (data_at e.2) o (dataIter t) /\ datablockhandle t = e.2).

(** The index at [i] and the data iterator at [o] of its block. *)
Definition placed (i o : nat) (t : TwoLevelIterator) : Prop :=
  (tl_s t = OK /\ shared_ok (world t)) /\ wrapped index_at i (indexIter t) /\
  ((i = length idx /\ o = 0%nat /\ iter (dataIter t) = None /\ vali (dataIter t) = false) \/
   (exists e, idx !! i = Some e /\ wrapped (data_at e.2) o (dataIter t) /\ datablockhandle t = e.2)).

Definition loose (t : TwoLevelIterator) : Prop :=
  (tl_s t = OK /\ shared_ok (world t)) /\ (exists i, wrapped index_at i (indexIter t)) /\ data_ok t.

Definition two_level_at (g : nat) (t : TwoLevelIterator) : Prop :=
  (exists i e o, g = (start i + o)%nat /\ idx !! i = Some e /\ (o < length (dl e.2))%nat /\ placed i o t) \/
  (g = length concatenated /\ loose t /\ iter (dataIter t) = None /\ vali (dataIter t) = false).

Lemma SaveError_same m s : SaveError m s = m.
Proof. unfold SaveError. by destruct (ok s). Qed.

Lemma forget_data_ok t : data_ok t -> shared_ok (world t) -> exists w, forget_data t = Some w /\ shared_ok w.
Proof.
  intros Hd Hw. unfold forget_data. destruct Hd as [[-> _]|(i & e & o & He & (it & Hat & Hit & _) & _)]; [by exists (world t)|].
  rewrite Hit. by apply (Hclean i e o it).
Qed.

Lemma SetDataIterator_none t : data_ok t -> shared_ok (world t) ->
  exists d w, SetDataIterator t None = Some (MkTwoLevel (indexIter t) d (datablockhandle t) (tl_s t) w) /\
    iter d = None /\ vali d = false /\ shared_ok w.
Proof.
  intros Hd Hw. destruct (forget_data_ok t Hd Hw) as (w & Hf & Hw'). unfold SetDataIterator. rewrite SaveError_same, Hf.
  by destruct (iter (dataIter t)); eexists _, w.
Qed.

Lemma index_valid i t :
  wrapped index_at i (indexIter t) -> iterValid (indexIter t) = (i <? length idx)%nat /\ (i <= length idx)%nat /\
    iterstatus (indexIter t) = OK /\ forall e, idx !! i = Some e -> itervalue (indexIter t) = e.2.
Proof.
  intros Hw. pose proof (wrapper_refines _ _ _ _ Hindex) as Hr.
  split; [by apply (ir_valid _ _ _ _ Hr i)|]. split; [by apply (ir_le _ _ _ _ Hr i _ Hw)|].
  split; [by apply (ir_status _ _ _ _ Hr i)|]. intros e He. by apply (ir_entry _ _ _ _ Hr i _ e Hw He).
Qed.

Lemma data_refines i e : idx !! i = Some e -> iter_refines c dom (dl e.2) (wrapped (data_at e.2)).
Proof. intros He. apply wrapper_refines. by apply (Hdata i). Qed.

Lemma InitDataBlock_placed i t :
  (tl_s t = OK /\ shared_ok (world t)) -> data_ok t -> wrapped index_at i (indexIter t) ->
  exists t' o, InitDataBlock t = Some t' /\ placed i o t'.
Proof.
  intros [Hs Hsh] Hd Hw. destruct (index_valid i t Hw) as (Hv & Hi & _ & Hval). unfold InitDataBlock. rewrite Hv.
  destruct (Nat.ltb_spec i (length idx)) as [Hlt|Hge]; cbn [negb].
  2:{ destruct (SetDataIterator_none t Hd Hsh) as (d & w & -> & Hn & Hv' & Hsh'). eexists _, 0%nat. split; [done|].
      split; [done|]. split; [done|]. left. split; [lia|done]. }
  destruct (lookup_lt_is_Some_2 idx i Hlt) as [e He]. rewrite (Hval e He).
  destruct (has_data t && bool_decide (e.2 = datablockhandle t)) eqn:E.
  - apply andb_true_iff in E as [Hhas Heq%bool_decide_eq_true_1]. unfold has_data in Hhas.
    destruct Hd as [[Hn _]|(i' & e' & o & He' & Hw' & Hh)]; [by rewrite Hn in Hhas|].
    exists t, o. split; [done|]. split; [done|]. split; [done|]. right. exists e. split; [done|]. split; [|done].
    by rewrite Heq, Hh.
  - destruct (Hcall i e (world t) He Hsh) as (it & w & o & -> & Hsh' & Ho).
    set (t1 := MkTwoLevel (indexIter t) (dataIter t) e.2 (tl_s t) w).
    assert (exists w', forget_data t1 = Some w' /\ shared_ok w') as (w' & Hf & Hsh'').
    { unfold forget_data. destruct Hd as [[Hn _]|(j & e' & o' & He' & (it' & Hat & Hit & _) & _)]; cbn [t1 dataIter world].
      - rewrite Hn. by exists w.
      - rewrite Hit. by apply (Hclean j e' o' it'). }
    unfold SetDataIterator. rewrite SaveError_same, Hf.
    destruct (Set_iter_wrapped (data_at e.2) o it (dataIter t) Ho) as (d & Hset & Hw').
    change (dataIter t1) with (dataIter t). rewrite Hset.
    eexists _, o. split; [done|]. split; [by destruct (iter (dataIter t))|]. split; [done|]. right. by exists e.
Qed.

Lemma on_data_placed f (Q : entry -> nat -> Prop) i o t :
  placed i o t ->
  (forall e w, idx !! i = Some e -> wrapped (data_at e.2) o w ->
     exists w' o', f w = Some w' /\ wrapped (data_at e.2) o' w' /\ Q e o') ->
  exists t' o', on_data f t = Some t' /\ placed i o' t' /\ forall e, idx !! i = Some e -> Q e o'.
Proof.
  intros (Hs & Hw & Hp) Hf. unfold on_data, has_data.
  destruct Hp as [(-> & -> & Hn & Hv)|(e & He & Hwd & Hh)].
  - rewrite Hn. exists t, 0%nat. split; [done|]. split; [|intros e He; by apply lookup_lt_Some, Nat.lt_irrefl in He].
    split; [done|]. split; [done|]. by left.
  - destruct (Hf e (dataIter t) He Hwd) as (w' & o' & Hfw & Hw' & HQ).
    destruct Hwd as (it & _ & Hit & _). rewrite Hit, Hfw. eexists _, o'. split; [done|].
    split; [|intros e' He'; by simplify_eq]. split; [done|]. split; [done|]. right. by exists e.
Qed.

Lemma placed_data_ok i o t : placed i o t -> data_ok t.
Proof. intros (_ & _ & [(_ & _ & Hn & Hv)|(e & He & Hw & Hh)]); [by left|right]. by exists i, e, o. Qed.

Lemma placed_loose i o t : placed i o t -> loose t.
Proof.
  intros Hp. pose proof (placed_data_ok i o t Hp). destruct Hp as (Hs & Hw & _). split; [done|]. split; [by exists i|done].
Qed.

Lemma placed_le i o t : placed i o t -> (i <= length idx)%nat.
Proof. intros (_ & Hw & _). by apply (index_valid i t Hw). Qed.

(** Whether the loops stop here. *)
Lemma placed_stops i o t :
  placed i o t ->
  negb (has_data t) || negb (iterValid (dataIter t)) =
    match idx !! i with Some e => negb (o <? length (dl e.2))%nat | None => true end.
Proof.
  intros (_ & _ & [(-> & -> & Hn & Hv)|(e & He & Hw & Hh)]); unfold has_data.
  - by rewrite Hn, lookup_ge_None_2.
  - rewrite He. pose proof (ir_valid _ _ _ _ (data_refines i e He) o _ Hw) as ->.
    destruct Hw as (it & _ & -> & _). done.
Qed.

(** The end, reached with the index past its last entry. *)
Lemma stop_at_end t o : placed (length idx) o t ->
  exists t', SetDataIterator t None = Some t' /\ two_level_at (length concatenated) t'.
Proof.
  intros Hp. pose proof (placed_data_ok _ _ _ Hp) as Hd. destruct Hp as ([Hs Hsh] & Hw & _).
  destruct (SetDataIterator_none t Hd Hsh) as (d & w & -> & Hn & Hv & Hsh'). eexists. split; [done|].
  right. split; [done|]. split; [|done]. split; [done|]. split; [by exists (length idx)|by left].
Qed.

Lemma step_into move enter i j t (Q : entry -> nat -> Prop) o :
  placed i o t ->
  (forall w, wrapped index_at i w -> exists w', move w = Some w' /\ wrapped index_at j w') ->
  (forall e w o, idx !! j = Some e -> wrapped (data_at e.2) o w ->
     exists w' o', enter w = Some w' /\ wrapped (data_at e.2) o' w' /\ Q e o') ->
  exists t' o', (let? t := on_index move t in let? t := InitDataBlock t in on_data enter t) = Some t' /\
    placed j o' t' /\ forall e, idx !! j = Some e -> Q e o'.
Proof.
  intros Hp Hmove Henter. pose proof (placed_data_ok i o t Hp) as Hd. destruct Hp as (Hs & Hw & _).
  destruct (Hmove _ Hw) as (w' & Hm & Hw'). unfold on_index. rewrite Hm.
  destruct (InitDataBlock_placed j (MkTwoLevel w' (dataIter t) (datablockhandle t) (tl_s t) (world t)) Hs Hd Hw')
    as (t' & o' & -> & Hp').
  apply (on_data_placed _ Q _ o'); [done|]. intros e w He Hwd. by apply (Henter e w o').
Qed.

Lemma Skip_unfold f move enter t :
  SkipEmptyDataBlocks (S f) move enter t =
    if negb (has_data t) || negb (iterValid (dataIter t)) then
      if negb (iterValid (indexIter t)) then SetDataIterator t None
      else let? t := (let? t := on_index move t in let? t := InitDataBlock t in on_data enter t) in
           SkipEmptyDataBlocks f move enter t
    else Some t.
Proof.
  cbn [SkipEmptyDataBlocks].
  destruct (on_index move t) as [t1|]; [|done]. by destruct (InitDataBlock t1).
Qed.

Lemma forward_spec : forall d f i o t,
  (length idx - i = d)%nat -> (d < f)%nat -> placed i o t ->
  (forall e, idx !! i = Some e -> (o <= length (dl e.2))%nat) -> (i = length idx -> o = 0%nat) ->
  exists t', SkipEmptyDataBlocks f iterNext iterSeekToFirst t = Some t' /\ two_level_at (start i + o) t'.
Proof.
  induction d as [|d IH]; intros f i o t Hd Hf Hp Ho Ho'; (destruct f as [|f]; [lia|]);
    rewrite Skip_unfold, (placed_stops i o t Hp); pose proof (placed_le i o t Hp) as Hi;
    pose proof Hp as (_ & Hw & _); destruct (index_valid i t Hw) as (-> & _ & _ & _).
  - assert (i = length idx) as -> by lia. rewrite lookup_ge_None_2, Nat.ltb_irrefl by done. cbn [negb].
    rewrite Ho', Nat.add_0_r, start_end by done. by eapply stop_at_end.
  - destruct (lookup_lt_is_Some_2 idx i ltac:(lia)) as [e He]. rewrite He.
    destruct (Nat.ltb_spec o (length (dl e.2))) as [Hlt|Hge]; cbn [negb].
    { exists t. split; [done|]. left. by exists i, e, o. }
    rewrite (proj2 (Nat.ltb_lt _ _)) by lia. cbn [negb].
    destruct (step_into iterNext iterSeekToFirst i (S i) t (fun _ o => o = 0%nat) o Hp) as (t' & o' & -> & Hp' & Hq).
    { intros w Hw'. apply (ir_next _ _ _ _ (wrapper_refines _ _ _ _ Hindex) i w Hw'). lia. }
    { intros e' w o' He' Hw'. destruct (ir_first _ _ _ _ (data_refines _ _ He') o' w Hw') as (w' & ? & ?). by exists w', 0%nat. }
    assert (o' = 0%nat) as ->.
    { destruct (idx !! S i) as [e'|] eqn:E; [by eapply Hq|]. destruct Hp' as (_ & _ & [(_ & -> & _)|(e' & He' & _)]); [done|].
      by rewrite E in He'. }
    replace (start i + o)%nat with (start (S i) + 0)%nat.
    + apply IH; [lia|lia|done|intros; lia|done].
    + rewrite (start_S i e He). specialize (Ho e He). lia.
Qed.

Lemma backward_spec : forall i f o t,
  (i + 1 < f)%nat -> placed i o t -> (forall e, idx !! i = Some e -> (length (dl e.2) <= o)%nat) -> (i < length idx)%nat ->
  exists t', SkipEmptyDataBlocks f iterPrev iterSeekToLast t = Some t' /\
    two_level_at (match start i with O => length concatenated | S j => j end) t'.
Proof.
  induction i as [|i IH]; intros f o t Hf Hp Ho Hi; (destruct f as [|f]; [lia|]);
    rewrite Skip_unfold, (placed_stops _ o t Hp);
    pose proof Hp as (_ & Hw & _); destruct (index_valid _ t Hw) as (-> & _ & _ & _);
    (destruct (lookup_lt_is_Some_2 idx _ Hi) as [e He]; rewrite He);
    rewrite (proj2 (Nat.ltb_ge o _)), (proj2 (Nat.ltb_lt _ (length idx))) by (by try apply Ho); cbn [negb].
  - destruct (step_into iterPrev iterSeekToLast 0 (length idx) t (fun _ _ => True) o Hp) as (t' & o' & -> & Hp' & _).
    { intros w Hw'. by apply (ir_prev _ _ _ _ (wrapper_refines _ _ _ _ Hindex) 0%nat w Hw'). }
    { intros e' w o' He' _. apply lookup_lt_Some in He'. lia. }
    destruct f as [|f]; [lia|]. rewrite Skip_unfold, (placed_stops _ _ _ Hp'), lookup_ge_None_2 by done.
    pose proof Hp' as (_ & Hw' & _). destruct (index_valid _ t' Hw') as (-> & _ & _ & _).
    rewrite Nat.ltb_irrefl. cbn [negb]. by eapply stop_at_end.
  - destruct (step_into iterPrev iterSeekToLast (S i) i t (fun e o => o = length (dl e.2) - 1)%nat o Hp)
      as (t' & o' & -> & Hp' & Hq).
    { intros w Hw'. by apply (ir_prev _ _ _ _ (wrapper_refines _ _ _ _ Hindex) (S i) w Hw'). }
    { intros e' w o' He' Hw'. destruct (ir_last _ _ _ _ (data_refines _ _ He') o' w Hw') as (w' & ? & ?).
      by exists w', (length (dl e'.2) - 1)%nat. }
    destruct (lookup_lt_is_Some_2 idx i ltac:(lia)) as [e' He']. specialize (Hq e' He'). subst o'.
    rewrite (start_S i e' He'). destruct (decide (length (dl e'.2) = 0%nat)) as [Hz|Hnz].
    + rewrite Hz, Nat.add_0_r. apply (IH _ (length (dl e'.2) - 1)%nat); [lia|done| |lia]. intros x Hx. simplify_eq. lia.
    + destruct f as [|f]; [lia|]. rewrite Skip_unfold, (placed_stops _ _ _ Hp'), He'.
      rewrite (proj2 (Nat.ltb_lt _ _)) by lia. cbn [negb]. exists t'. split; [done|]. left.
      exists i, e', (length (dl e'.2) - 1)%nat. split; [|split; [done|split; [lia|done]]].
      destruct (start i + length (dl e'.2))%nat eqn:Es; lia.
Qed.

Lemma two_level_loose g t : two_level_at g t -> loose t.
Proof. intros [(i & e & o & _ & _ & _ & Hp)|(_ & Hl & _)]; [by eapply placed_loose|done]. Qed.

(** Entering a block anew from any state. *)
Lemma enter_from move enter j t (Q : entry -> nat -> Prop) :
  loose t ->
  (forall i w, wrapped index_at i w -> exists w', move w = Some w' /\ wrapped index_at j w') ->
  (forall e w o, idx !! j = Some e -> wrapped (data_at e.2) o w ->
     exists w' o', enter w = Some w' /\ wrapped (data_at e.2) o' w' /\ Q e o') ->
  exists t' o', (let? t := on_index move t in let? t := InitDataBlock t in on_data enter t) = Some t' /\
    placed j o' t' /\ forall e, idx !! j = Some e -> Q e o'.
Proof.
  intros (Hs & [i Hw] & Hd) Hmove Henter. destruct (Hmove i _ Hw) as (w' & Hm & Hw'). unfold on_index. rewrite Hm.
  destruct (InitDataBlock_placed j (MkTwoLevel w' (dataIter t) (datablockhandle t) (tl_s t) (world t)) Hs Hd Hw')
    as (t' & o' & -> & Hp').
  apply (on_data_placed _ Q _ o'); [done|]. intros e w He Hwd. by apply (Henter e w o').
Qed.

Lemma placed_end_0 o t : placed (length idx) o t -> o = 0%nat.
Proof. intros (_ & _ & [(_ & -> & _)|(e & He & _)]); [done|]. by apply lookup_lt_Some, Nat.lt_irrefl in He. Qed.

Lemma let_assoc {A B C D} (x : option A) (f : A -> option B) (g : B -> option C) (h : C -> option D) :
  (let? a := x in let? b := f a in let? d := g b in h d) =
  (let? d := (let? a := x in let? b := f a in g b) in h d).
Proof. destruct x as [a|]; [|done]. by destruct (f a). Qed.

Lemma concatenated_lower_bound target i o :
  dom target -> lower_bound c idx target i -> (i <= length idx)%nat ->
  (forall e, idx !! i = Some e -> lower_bound c (dl e.2) target o /\ (o <= length (dl e.2))%nat) ->
  (i = length idx -> o = 0%nat) ->
  lower_bound c concatenated target (start i + o).
Proof.
  intros Ht [Hlo Hhi] Hi Ho Ho0.
  assert (forall j k, (j <= k)%nat -> (start j <= start k)%nat) as Hmono.
  { intros j k Hjk. unfold start. replace k with (j + (k - j))%nat by lia.
    rewrite <- take_take_drop, map_app, concat_app, length_app. lia. }
  assert (forall j e, idx !! j = Some e -> (start (S j) = start j + length (dl e.2))%nat) as HS by (intros; by apply start_S).
  split.
  - intros m x Hm Hx. destruct (concatenated_in m x Hx) as (j & e & p & He & Hp & ->).
    pose proof (lookup_lt_Some _ _ _ Hp) as Hpl.
    destruct (Nat.lt_trichotomy j i) as [Hj|[->|Hj]].
    + pose proof (Hlo j e Hj He) as Hlt. pose proof (list_elem_of_lookup_2 _ _ _ Hp) as Hin.
      pose proof (Hbelow j e x He Hin) as Hle. rewrite Forall_lookup in Hidom.
      by apply (Compare_le_lt_trans (dom := dom) x.1 e.1 target); [eapply Hddom|eapply Hidom| | |].
    + destruct (Ho e He) as [[Hlo' _] _]. apply (Hlo' p); [lia|done].
    + specialize (Hmono (S i) j Hj). destruct (lookup_lt_is_Some_2 idx i) as [e' He']; [apply lookup_lt_Some in He; lia|].
      rewrite (HS i e' He') in Hmono. destruct (Ho e' He') as [_ ?]. lia.
  - intros x Hx. destruct (concatenated_in _ x Hx) as (j & e & p & He & Hp & Hg).
    pose proof (lookup_lt_Some _ _ _ Hp) as Hpl.
    destruct (Nat.lt_trichotomy j i) as [Hj|[->|Hj]].
    + specialize (Hmono (S j) i Hj). rewrite (HS j e He) in Hmono. lia.
    + destruct (Ho e He) as [[_ Hhi'] _]. apply Hhi'. replace o with p by lia. done.
    + destruct (lookup_lt_is_Some_2 idx i) as [e' He']; [apply lookup_lt_Some in He; lia|].
      pose proof (Habove i j e' e x Hj He' He (list_elem_of_lookup_2 _ _ _ Hp)) as Hlt.
      intros Hlt'. apply (Hhi e' He'). rewrite Forall_lookup in Hidom.
      apply (Compare_lt_trans (dom := dom) e'.1 x.1 target); try done;
        [by eapply Hidom|eapply Hddom; [exact He|by eapply list_elem_of_lookup_2]].
Qed.

Lemma two_level_iter : iter_refines c dom concatenated two_level_at.
Proof.
  assert (forall i o t, placed i o t -> (forall e, idx !! i = Some e -> (o <= length (dl e.2))%nat) ->
    exists t', SkipEmptyDataBlocksForward t = Some t' /\ two_level_at (start i + o) t') as Hforward.
  { intros i o t Hp Ho. pose proof (placed_le i o t Hp).
    apply (forward_spec (length idx - i)); [done|lia|done|done|]. intros ->. by eapply placed_end_0. }
  constructor.
  - intros g t [(i & e & o & -> & He & Ho & _)|(-> & _)]; [|done].
    pose proof (start_le (S i)). rewrite (start_S i e He) in *. lia.
  - intros g t [(i & e & o & -> & He & Ho & Hp)|(-> & _ & _ & Hv)]; cbn [iterValid TwoLevel_iter].
    + pose proof (start_le (S i)) as Hle. rewrite (start_S i e He) in Hle.
      rewrite (proj2 (Nat.ltb_lt _ _)) by lia. pose proof (placed_stops i o t Hp) as Hst. rewrite He in Hst.
      rewrite (proj2 (Nat.ltb_lt _ _)) in Hst by done. apply orb_false_iff in Hst as [_ Hst].
      by apply negb_false_iff in Hst.
    + rewrite Nat.ltb_irrefl. exact Hv.
  - intros g t Hat. pose proof (two_level_loose g t Hat) as ([Hs Hsh] & [i Hw] & Hd).
    cbn [iterstatus TwoLevel_iter]. unfold tl_status. destruct (index_valid i t Hw) as (_ & _ & -> & _).
    cbn [ok OK negb]. unfold has_data. destruct Hd as [[-> _]|(j & e & o & He & Hwd & _)]; [exact Hs|].
    rewrite (ir_status _ _ _ _ (data_refines j e He) o _ Hwd), andb_false_r. exact Hs.
  - intros g t x [(i & e & o & -> & He & Ho & Hp)|(-> & _)] Hx.
    + destruct (lookup_lt_is_Some_2 (dl e.2) o Ho) as [y Hy].
      rewrite (concatenated_at i e o y He Hy) in Hx. injection Hx as ->.
      destruct Hp as (_ & _ & [(-> & _)|(e' & He' & Hwd & _)]); [by apply lookup_lt_Some, Nat.lt_irrefl in He|].
      simplify_eq. by apply (ir_entry _ _ _ _ (data_refines i e He) o).
    + by apply lookup_lt_Some, Nat.lt_irrefl in Hx.
  - intros g t Hl%two_level_loose. cbn [iterSeekToFirst TwoLevel_iter]. unfold tl_SeekToFirst. rewrite let_assoc.
    destruct (enter_from iterSeekToFirst iterSeekToFirst 0 t (fun _ o => o = 0%nat) Hl) as (t' & o & -> & Hp & Hq).
    { intros i w Hw. by apply (ir_first _ _ _ _ (wrapper_refines _ _ _ _ Hindex) i). }
    { intros e w o He Hw. destruct (ir_first _ _ _ _ (data_refines _ _ He) o w Hw) as (w' & ? & ?). by exists w', 0%nat. }
    assert (o = 0%nat) as ->.
    { destruct (idx !! 0%nat) as [e'|] eqn:E; [by eapply Hq|]. apply lookup_ge_None in E.
      pose proof (placed_le _ _ _ Hp). eapply placed_end_0. by replace (length idx) with 0%nat by lia. }
    apply (Hforward 0%nat 0%nat); [done|intros; lia].
  - intros g t Hl%two_level_loose. cbn [iterSeekToLast TwoLevel_iter]. unfold tl_SeekToLast. rewrite let_assoc.
    destruct (enter_from iterSeekToLast iterSeekToLast (length idx - 1) t (fun e o => o = length (dl e.2) - 1)%nat Hl)
      as (t' & o & -> & Hp & Hq).
    { intros i w Hw. by apply (ir_last _ _ _ _ (wrapper_refines _ _ _ _ Hindex) i). }
    { intros e w o He Hw. destruct (ir_last _ _ _ _ (data_refines _ _ He) o w Hw) as (w' & ? & ?).
      by exists w', (length (dl e.2) - 1)%nat. }
    unfold SkipEmptyDataBlocksBackward. destruct (idx !! (length idx - 1)%nat) as [e|] eqn:He.
    + pose proof (lookup_lt_Some _ _ _ He) as Hlt. specialize (Hq e eq_refl). subst o.
      pose proof (start_S _ e He) as HS. replace (S (length idx - 1)) with (length idx) in HS by lia. rewrite start_end in HS.
      destruct (decide (length (dl e.2) = 0%nat)) as [Hz|Hnz].
      * destruct (backward_spec (length idx - 1) fuel _ t' ltac:(lia) Hp) as (t2 & -> & Hat); [|done|].
        { intros e' He'. simplify_eq. lia. }
        exists t2. split; [done|]. replace (length concatenated - 1)%nat
          with (match start (length idx - 1) with O => length concatenated | S j => j end); [done|].
        destruct (start (length idx - 1)) eqn:E; lia.
      * exists t'. destruct fuel as [|f]; [lia|]. rewrite Skip_unfold, (placed_stops _ _ _ Hp), He.
        rewrite (proj2 (Nat.ltb_lt _ _)) by lia. split; [done|]. left.
        exists (length idx - 1)%nat, e, (length (dl e.2) - 1)%nat. split; [lia|]. split; [done|]. split; [lia|done].
    + apply lookup_ge_None in He. assert (length idx = 0%nat) as Hz by lia.
      assert (length concatenated = 0%nat) as Hcz by (rewrite <- start_end, Hz; done).
      replace (length idx - 1)%nat with (length idx) in Hp by lia.
      destruct fuel as [|f]; [lia|]. rewrite Skip_unfold, (placed_stops _ _ _ Hp), lookup_ge_None_2 by done.
      pose proof Hp as (_ & Hw & _). destruct (index_valid _ _ Hw) as (-> & _). rewrite Nat.ltb_irrefl. cbn [negb].
      destruct (stop_at_end t' o Hp) as (t2 & -> & Hat). exists t2. split; [done|]. by rewrite Hcz in *.
  - intros g t [(i & e & o & -> & He & Ho & Hp)|(-> & _)] Hg; [|lia].
    cbn [iterNext TwoLevel_iter]. unfold tl_Next. pose proof (placed_stops i o t Hp) as Hst. rewrite He in Hst.
    rewrite (proj2 (Nat.ltb_lt _ _)) in Hst by done. apply orb_false_iff in Hst as [_ Hst]. apply negb_false_iff in Hst.
    rewrite Hst. destruct Hp as (Hs & Hw & [(-> & _)|(e' & He' & Hwd & Hh)]); [by apply lookup_lt_Some, Nat.lt_irrefl in He|].
    simplify_eq. destruct (ir_next _ _ _ _ (data_refines i e He) o _ Hwd Ho) as (w' & -> & Hw').
    replace (S (start i + o)) with (start i + S o)%nat by lia. apply Hforward.
    + split; [done|]. split; [done|]. right. by exists e.
    + intros e2 He2. simplify_eq. lia.
  - intros g t [(i & e & o & -> & He & Ho & Hp)|(-> & _)] Hg; [|lia].
    cbn [iterPrev TwoLevel_iter]. unfold tl_Prev, SkipEmptyDataBlocksBackward.
    pose proof (placed_stops i o t Hp) as Hst. rewrite He in Hst.
    rewrite (proj2 (Nat.ltb_lt _ _)) in Hst by done. apply orb_false_iff in Hst as [_ Hst]. apply negb_false_iff in Hst.
    rewrite Hst. destruct Hp as (Hs & Hw & [(-> & _)|(e' & He' & Hwd & Hh)]); [by apply lookup_lt_Some, Nat.lt_irrefl in He|].
    simplify_eq. destruct (ir_prev _ _ _ _ (data_refines i e He) o _ Hwd Ho) as (w' & -> & Hw').
    set (o' := match o with O => length (dl e.2) | S j => j end) in Hw'.
    assert (placed i o' (MkTwoLevel (indexIter t) w' (datablockhandle t) (tl_s t) (world t))) as Hp'.
    { split; [done|]. split; [done|]. right. by exists e. }
    pose proof (lookup_lt_Some _ _ _ He) as Hi. destruct o as [|o].
    + rewrite Nat.add_0_r. apply (backward_spec i fuel o'); [lia|done| |done]. intros x Hx. simplify_eq. done.
    + destruct fuel as [|f]; [lia|]. rewrite Skip_unfold, (placed_stops _ _ _ Hp'), He.
      rewrite (proj2 (Nat.ltb_lt _ _)) by (subst o'; lia). cbn [negb]. eexists. split; [done|].
      rewrite Nat.add_succ_r. left. exists i, e, o. split; [done|]. split; [done|]. split; [lia|done].
  - intros g t target (Hs & [i0 Hw] & Hd)%two_level_loose Ht. cbn [iterSeek TwoLevel_iter]. unfold tl_Seek.
    destruct (ir_seek _ _ _ _ (wrapper_refines _ _ _ _ Hindex) i0 _ target Hw Ht) as (wi & i & Hsk & Hwi & Hlb).
    unfold on_index. rewrite Hsk.
    destruct (InitDataBlock_placed i (MkTwoLevel wi (dataIter t) (datablockhandle t) (tl_s t) (world t)) Hs Hd Hwi)
      as (t1 & o1 & -> & Hp1).
    destruct (on_data_placed (fun w => iterSeek w target)
      (fun e o => lower_bound c (dl e.2) target o /\ (o <= length (dl e.2))%nat) i o1 t1 Hp1) as (t' & o & -> & Hp & Hq).
    { intros e w He Hwd. pose proof (data_refines i e He) as Hr.
      destruct (ir_seek _ _ _ _ Hr o1 w target Hwd Ht) as (w' & o' & Hsk' & Hw' & Hlb'). exists w', o'.
      split; [done|]. split; [done|]. split; [done|]. by apply (ir_le _ _ _ _ Hr o' w'). }
    destruct (Hforward i o t' Hp) as (t2 & -> & Hat); [intros e He; by apply Hq|].
    exists t2, (start i + o)%nat. split; [done|]. split; [done|].
    apply concatenated_lower_bound; [done|done|by apply (placed_le i o t')|done|]. intros ->. by eapply placed_end_0.
Qed.

Lemma two_level_make index i w : shared_ok w ->
  index_at i index -> exists t, TwoLevelIterator_make index w = Some t /\ two_level_at (length concatenated) t.
Proof.
  intros Hsh Hi. unfold TwoLevelIterator_make.
  destruct (Set_iter_wrapped index_at i index Wrapper_make Hi) as (iw & -> & Hiw). eexists. split; [done|].
  right. split; [done|]. split; [|done]. split; [done|]. split; [by exists i|by left].
Qed.

(** Destroyed anywhere, the iterator leaves the shared state as it should be. *)
Lemma two_level_forget g t : two_level_at g t -> exists w, forget_data t = Some w /\ shared_ok w.
Proof. intros ([_ Hsh] & _ & Hd)%two_level_loose. by apply forget_data_ok. Qed.
End Refinement.
End TwoLevel.

(** ** Theorems *)

Lemma build_holds c dom interval es :
  ComparatorOk c dom -> 1 <= interval -> StronglySorted (key_lt (c := c)) es ->
  Forall (fun e => dom e.1) es -> size_bound es < 2 ^ 32 ->
  exists b, build (c := c) interval BlockBuilder_make es = Some b /\ block_holds es (Finish b).1.
Proof.
  intros Hok Hint Hs Hd Hsz.
  destruct (build_spec (c := c) (dom := dom) interval Hint es BlockBuilder_make [] [0%nat])
    as (b & its & rs & Hb & Hbu & Hmap & Hsz'); [apply built_make; lia|done|done|cbn; lia|].
  destruct (built_block interval b its rs Hbu Hsz') as (Hblk & _ & Hnew).
  exists b. split; [done|]. by exists its, rs.
Qed.

(** C25: the merging iterator is the ordered merge of its children.  When the children
    walk sorted lists whose entries together are [es], no two of them with equal keys,
    the iterator made of them walks [es] - [SeekToFirst], [SeekToLast], [Seek], [Next]
    and [Prev] in any order and with changes of direction in the middle, each on the key
    and value of its place, with status [OK]. *)
Theorem merging_refines {I} `{Iter I} c dom (ls : list (list entry)) ats es child :
  ComparatorOk c dom -> (forall k l, ls !! k = Some l -> iter_refines c dom l (ats k)) ->
  Forall (StronglySorted (key_lt (c := c))) ls -> StronglySorted (key_lt (c := c)) es ->
  Permutation es (concat ls) -> Forall (fun e => dom e.1) es ->
  length child = length ls -> (forall k it, child !! k = Some it -> exists p, ats k p it) ->
  exists m (at_ : nat -> MergingIterator -> Prop), MergingIterator_make child = Some m /\
    at_ (length es) m /\ @iter_refines _ (Merging_iter c) c dom es at_.
Proof.
  intros Hok Hch Hsl Hse Hp Hd Hl Hat.
  destruct (merging_make ls ats es child Hl Hat) as (m & Hm & Hma).
  exists m, (merging_at ls ats es). split; [done|]. split; [done|]. by apply merging_iter.
Qed.

Definition evens : list entry := [(str "a", str "1"); (str "c", str "3")].
Definition odds : list entry := [(str "b", str "2"); (str "d", str "4")].
Definition merged : list entry := [(str "a", str "1"); (str "b", str "2"); (str "c", str "3"); (str "d", str "4")].

Definition block_bytes (es : list entry) : bytes :=
  match build (c := BytewiseComparatorImpl) 2 BlockBuilder_make es with
  | Some b => (Finish b).1
  | None => []
  end.

Definition block_iter (es : list entry) : BIter :=
  NewIterator BytewiseComparatorImpl (Block_make (block_bytes es)).

Lemma block_bytes_hold es :
  StronglySorted (key_lt (c := BytewiseComparatorImpl)) es -> size_bound es < 2 ^ 32 ->
  block_holds es (block_bytes es).
Proof.
  intros Hs Hsz. unfold block_bytes.
  destruct (build_holds BytewiseComparatorImpl (fun _ => True) 2 es Bytewise_ok ltac:(lia) Hs
    ltac:(by apply Forall_true) Hsz) as (b & -> & Hb). done.
Qed.

Lemma merging_refines_witness :
  exists m (at_ : nat -> MergingIterator -> Prop),
    MergingIterator_make [block_iter evens; block_iter odds] = Some m /\ at_ 4%nat m /\
    @iter_refines _ (Merging_iter BytewiseComparatorImpl) BytewiseComparatorImpl (fun _ => True) merged at_.
Proof.
  refine (merging_refines BytewiseComparatorImpl (fun _ => True) [evens; odds]
    (fun k => block_at_entry BytewiseComparatorImpl (nth k [evens; odds] [])
                (block_bytes (nth k [evens; odds] []))) merged [block_iter evens; block_iter odds]
    Bytewise_ok _ _ _ _ _ eq_refl _).
  - intros [|[|k]] l Hl; [injection Hl as <-|injection Hl as <-|done];
      apply block_iter_refines; [exact Bytewise_ok|repeat constructor|repeat constructor|
        exact Bytewise_ok|repeat constructor|repeat constructor].
  - repeat constructor.
  - repeat constructor.
  - cbn. apply perm_skip. etrans; [apply perm_swap|]. reflexivity.
  - repeat constructor.
  - intros [|[|k]] it Hit; [injection Hit as <-|injection Hit as <-|done]; eexists;
      apply NewIterator_at, block_bytes_hold; [repeat constructor|vm_compute; reflexivity|
        repeat constructor|vm_compute; reflexivity].
Defined.

(** C26: the two-level iterator is the concatenation of the blocks its index names.  When
    the index walks a list of separators - each at or after the keys of its own block
    and before those of the later ones - and the callback gives for each handle an
    iterator over that block, the iterator walks all the entries in order, empty blocks
    included, and [Seek] stops at the first entry of all not below the target.  The
    skipping loops end within the number of index entries.  What the callback and the
    cleanups of its iterators do to the state they share, a cache, keeps what they rely
    on, and so does destroying the iterator at any place. *)
Theorem two_level_refines {I1 I2 W} `{Iter I1} `{Iter I2} (callback : W -> bytes -> option (I2 * W)) (cleanup : W -> I2 -> option W)
    fuel c dom (idx : list entry) (index_at : nat -> I1 -> Prop) dl data_at (shared_ok : W -> Prop) index i w :
  ComparatorOk c dom -> iter_refines c dom idx index_at ->
  (forall i e, idx !! i = Some e -> iter_refines c dom (dl e.2) (data_at e.2)) ->
  (forall i e w, idx !! i = Some e -> shared_ok w ->
     exists it w' o, callback w e.2 = Some (it, w') /\ shared_ok w' /\ data_at e.2 o it) ->
  (forall i e o it w, idx !! i = Some e -> data_at e.2 o it -> shared_ok w -> exists w', cleanup w it = Some w' /\ shared_ok w') ->
  Forall (fun e => dom e.1) idx -> (forall i e x, idx !! i = Some e -> x ∈ dl e.2 -> dom x.1) ->
  (forall i e x, idx !! i = Some e -> x ∈ dl e.2 -> Compare c x.1 e.1 <> Gt) ->
  (forall i j e e' x, (i < j)%nat -> idx !! i = Some e -> idx !! j = Some e' -> x ∈ dl e'.2 ->
     Compare c e.1 x.1 = Lt) ->
  (length idx + 2 <= fuel)%nat -> index_at i index -> shared_ok w ->
  let es := concat (map (fun e => dl e.2) idx) in
  exists t (at_ : nat -> TwoLevelIterator -> Prop), TwoLevelIterator_make (I2 := I2) index w = Some t /\
    at_ (length es) t /\ @iter_refines _ (TwoLevel_iter callback cleanup fuel) c dom es at_ /\
    forall g t, at_ g t -> exists w', forget_data cleanup t = Some w' /\ shared_ok w'.
Proof.
  intros Hok Hi Hd Hcall Hclean Hidom Hdd Hb Ha Hf Hat Hw es.
  destruct (two_level_make (I2 := I2) idx index_at dl data_at shared_ok index i w Hw Hat) as (t & Ht & Hta).
  exists t, (two_level_at idx index_at dl data_at shared_ok). split; [done|]. split; [done|]. split; [by apply two_level_iter|].
  intros g t'. by apply two_level_forget.
Qed.

(** A handle for each block is its first key here. *)
Definition demo_index : list entry := [(str "c", str "lo"); (str "x", str "hi")].
Definition demo_block (h : bytes) : list entry :=
  if decide (h = str "lo") then evens else [(str "m", str "5"); (str "n", str "6")].

(** The shared state counts the blocks that are in use. *)
Definition demo_callback (w : nat) (h : bytes) : option (BIter * nat) := Some (block_iter (demo_block h), S w).
Definition demo_cleanup (w : nat) (it : BIter) : option nat := Some (pred w).

Lemma two_level_refines_witness :
  exists t (at_ : nat -> TwoLevelIterator -> Prop), TwoLevelIterator_make (I2 := BIter) (block_iter demo_index) 0%nat = Some t /\
    at_ 4%nat t /\ @iter_refines _ (TwoLevel_iter demo_callback demo_cleanup 4) BytewiseComparatorImpl
      (fun _ => True) (evens ++ [(str "m", str "5"); (str "n", str "6")]) at_.
Proof.
  destruct (two_level_refines demo_callback demo_cleanup 4 BytewiseComparatorImpl (fun _ => True) demo_index
    (block_at_entry BytewiseComparatorImpl demo_index (block_bytes demo_index)) demo_block
    (fun h => block_at_entry BytewiseComparatorImpl (demo_block h) (block_bytes (demo_block h))) (fun _ => True)
    (block_iter demo_index) 2 0%nat Bytewise_ok) as (t & at_ & H1 & H2 & H3 & _).
  - apply block_iter_refines; [exact Bytewise_ok|repeat constructor|repeat constructor].
  - intros [|[|k]] e He; [injection He as <-|injection He as <-|done];
      apply block_iter_refines; [exact Bytewise_ok|repeat constructor|repeat constructor|
        exact Bytewise_ok|repeat constructor|repeat constructor].
  - intros [|[|k]] e w He _; [injection He as <-|injection He as <-|done]; do 3 eexists; (split; [reflexivity|]); (split; [exact I|]);
      apply NewIterator_at, block_bytes_hold; [repeat constructor|vm_compute; reflexivity|repeat constructor|vm_compute; reflexivity].
  - intros k e o it w _ _ _. by eexists.
  - repeat constructor.
  - done.
  - intros [|[|k]] e x He Hx; [injection He as <-|injection He as <-|done]; revert x Hx; apply Forall_forall;
      repeat (constructor; [vm_compute; discriminate|]); constructor.
  - intros [|[|i]] [|[|j]] e e' x Hij He He' Hx; try lia; try done. injection He as <-. injection He' as <-.
    revert x Hx. apply Forall_forall. repeat (constructor; [reflexivity|]). constructor.
  - cbn. lia.
  - apply NewIterator_at, block_bytes_hold; [repeat constructor|vm_compute; reflexivity].
  - exact I.
  - exists t, at_. split; [exact H1|]. split; [exact H2|exact H3].
Defined.

(** A block that cannot be read is skipped, and its error is lost: the walk goes on with
    the next block and the status is [OK]. *)
Definition half_broken (w : unit) (h : bytes) : option (BIter * unit) :=
  Some (if decide (h = str "lo") then NewErrorIterator (Corruption (str "block checksum mismatch") [])
        else block_iter (demo_block h), w).

Example two_level_loses_error :
  (let? t := TwoLevelIterator_make (block_iter demo_index) tt in
   let? t := tl_SeekToFirst half_broken (fun w _ => Some w) 4 t in
   Some (iterkey (dataIter t), tl_status t)) = Some (str "m", OK).
Proof. vm_compute. reflexivity. Qed.
