(* ===== verification/Table.v ===== *)
(** Tables (redisdb/db/table.h, table.cc) and the builder's contract.

    A table opened from a finished file serves [InternalGet], iterators and offset
    estimates from its index block; data blocks come from the block cache or the file. *)
From Stdlib Require Import Sorted Permutation.
From stdpp Require Import sorting.
From S2P Require Import Prelude Coding Crc32c Status Env DbFormat Block TableFormat LruCache Iterators.
Local Open Scope Z_scope.

(** [ReadOptions]. *)
Record ReadOptions := MkReadOptions { verifychecksums : bool; fillcache : bool }.
Definition ReadOptions_make : ReadOptions := MkReadOptions true true.

(** What [BlockReader] returns: the iterator over a block and, when the block came from
    the cache, the key that the cleanup registered with it gives back. *)
Record BlockIter := MkBlockIter { blockiter : BIter; registered : option bytes }.

Definition on_blockiter (f : BIter -> option BIter) (x : BlockIter) : option BlockIter :=
  let? it := f (blockiter x) in Some (MkBlockIter it (registered x)).

#[export] Instance BlockIter_iter : Iter BlockIter := {
  iterValid x := iterValid (blockiter x);
  iterSeekToFirst := on_blockiter iterSeekToFirst;
  iterSeekToLast := on_blockiter iterSeekToLast;
  iterSeek x target := on_blockiter (fun it => iterSeek it target) x;
  iterNext := on_blockiter iterNext;
  iterPrev := on_blockiter iterPrev;
  iterkey x := iterkey (blockiter x);
  itervalue x := itervalue (blockiter x);
  iterstatus x := iterstatus (blockiter x);
}.

(** [ReleaseBlock], or [DeleteBlock] where no handle is held: what destroying the
    iterator runs. *)
Definition run_cleanup {K} `{Cache K Block} (blockcache : option K) (x : BlockIter) : option (option K) :=
  match registered x, blockcache with
  | Some k, Some cache => let? cache := crelease cache k in Some (Some cache)
  | _, _ => Some blockcache
  end.

Abbreviation TableIterator := (TwoLevelIterator (I1 := BIter) (I2 := BlockIter) (W := option _)).

Section Table.
Context (snappy_length : bytes -> option Z) (snappy_uncompress : bytes -> option bytes).
Context {G : Type} `{RandomFile G} (addr : Z).
(** [rep->options]: the comparator and [paranoidchecks]. *)
Context (c : Comparator) (paranoidchecks : bool).

(** [struct Rep]. *)
Record Table := MkTable {
  tblfile : G;
  tblmeta : BlockHandle;
  tblindex : Block;
}.

Definition Table_Open (file : G) (size : Z) : Status * option Table :=
  if size <? Z.of_nat kEncodedLength then
    (Corruption (str "file is too short to be an sstable") [], None)
  else
    let '(s, footerinput) := rread file (size - Z.of_nat kEncodedLength) (Z.of_nat kEncodedLength) in
    if negb (ok s) then (s, None)
    else
      let '(s, footer, _) := Footer_DecodeFrom Footer_make footerinput in
      if negb (ok s) then (s, None)
      else
        let opt := if paranoidchecks then MkReadOptions true (fillcache ReadOptions_make)
                   else ReadOptions_make in
        let '(s, contents) :=
          ReadBlock snappy_length snappy_uncompress addr file (verifychecksums opt) (indexHandle footer) in
        if ok s then (s, Some (MkTable file (metaindexhandle footer) (Block_make (bdata contents))))
        else (s, None).

(** [BlockReader]: the iterator over the block with its cleanup, and the cache.  [None]
    is an assert of the cache. *)
Definition BlockReader {K} `{Cache K Block} (blockcache : option K) (t : Table) (options : ReadOptions)
    (indexvalue : bytes) : option (BlockIter * option K) :=
  let '(s, handle, _) := BlockHandle_DecodeFrom BlockHandle_make indexvalue in
  if ok s then
    match blockcache with
    | Some cache =>
        let key := EncodeFixed64 (GetOffset handle) in
        match clookup cache key with
        | Some block => Some (MkBlockIter (NewIterator c block) (Some key), Some cache)
        | None =>
            let '(s, contents) :=
              ReadBlock snappy_length snappy_uncompress addr (tblfile t) (verifychecksums options) handle in
            if ok s then
              let block := Block_make (bdata contents) in
              if cachable contents && fillcache options then
                let? cache := cinsert cache key block (Block.size block) in
                Some (MkBlockIter (NewIterator c block) (Some key), Some cache)
              else Some (MkBlockIter (NewIterator c block) None, Some cache)
            else Some (MkBlockIter (NewErrorIterator s) None, Some cache)
        end
    | None =>
        let '(s, contents) :=
          ReadBlock snappy_length snappy_uncompress addr (tblfile t) (verifychecksums options) handle in
        if ok s then Some (MkBlockIter (NewIterator c (Block_make (bdata contents))) None, None)
        else Some (MkBlockIter (NewErrorIterator s) None, None)
    end
  else Some (MkBlockIter (NewErrorIterator s) None, blockcache).

(** [InternalGet]: the status, the entry given to the callback and the cache.  The
    block iterator dies before the return and its cleanup releases the handle. *)
Definition InternalGet {K} `{Cache K Block} (blockcache : option K)
    (t : Table) (options : ReadOptions) (key : bytes) : option (Status * option entry * option K) :=
  let? iter := iterSeek (NewIterator c (tblindex t)) key in
  if iterValid iter then
    let? (blockIter, blockcache) := BlockReader blockcache t options (itervalue iter) in
    let? blockIter := iterSeek blockIter key in
    let found := if iterValid blockIter then Some (iterkey blockIter, itervalue blockIter) else None in
    let s := iterstatus blockIter in
    let? blockcache := run_cleanup blockcache blockIter in
    Some (if ok s then iterstatus iter else s, found, blockcache)
  else Some (iterstatus iter, None, blockcache).

(** [Table::NewIterator]: two levels, the second by [BlockReader] over the block cache. *)
Definition Table_NewIterator {K} (t : Table) (blockcache : option K) : option TableIterator :=
  TwoLevelIterator_make (NewIterator c (tblindex t)) blockcache.

(** The operations of that iterator; [fuel] bounds the blocks it skips. *)
Definition Table_iter {K} `{Cache K Block} (t : Table) (options : ReadOptions) (fuel : nat) : Iter TableIterator :=
  TwoLevel_iter (fun blockcache v => BlockReader blockcache t options v) run_cleanup fuel.

Definition ApproximateOffsetOf (t : Table) (key : bytes) : option Z :=
  let? indexIter := iterSeek (NewIterator c (tblindex t)) key in
  if iterValid indexIter then
    let '(s, handle, _) := BlockHandle_DecodeFrom BlockHandle_make (itervalue indexIter) in
    if ok s then Some (GetOffset handle) else Some (GetOffset (tblmeta t))
  else Some (GetOffset (tblmeta t)).
End Table.
Arguments Table : clear implicits.

(** ** Building block by block *)

Section BlockBuilt.
Context {c : Comparator} {dom : bytes -> Prop} {Hok : ComparatorOk c dom} (interval : Z).
Hypothesis Hinterval : 1 <= interval.

Definition dsize (l : list entry) : Z := foldr (fun e z => 19 + len e.1 + len e.2 + z) 0 l.

Lemma dsize_app a b : dsize (a ++ b) = dsize a + dsize b.
Proof. unfold dsize. induction a as [|e a IH]; cbn [app foldr]; lia. Qed.

Lemma dsize_nonneg l : 0 <= dsize l.
Proof. unfold dsize. induction l as [|e l IH]; cbn [foldr]; lia. Qed.

(** The builder holds the entries [l]. *)
Definition block_built (bb : BlockBuilder) (l : list entry) : Prop :=
  exists its rs, built interval bb its rs /\ map pair_of its = l /\
    len (encs its) + 4 * len rs <= 4 + dsize l.

Lemma block_built_make : block_built BlockBuilder_make [].
Proof. exists [], [0%nat]. split; [apply built_make; lia|]. done. Qed.

Lemma block_built_add bb l key value :
  block_built bb l -> (forall p, last l = Some p -> Compare c key p.1 = Gt) ->
  dsize (l ++ [(key, value)]) + 8 < 2 ^ 32 ->
  exists bb', BlockBuilder_Add c interval bb key value = Some bb' /\ block_built bb' (l ++ [(key, value)]).
Proof.
  intros (its & rs & Hbu & Hm & Hsz) Hlast Hd. rewrite dsize_app in Hd. cbn in Hd.
  pose proof (dsize_nonneg l).
  destruct (Builder_Add_step (c := c) interval Hinterval bb its rs key value Hbu) as (bb' & e & rs' & Ha & Hbu' & Hpe & Hrs).
  - destruct its as [|x its _] using rev_ind; [by left|right]. unfold last_key. rewrite last_snoc. cbn.
    rewrite map_app in Hm. apply (Hlast (ikey x, ival x)). rewrite <- Hm. apply last_snoc.
  - lia.
  - lia.
  - exists bb'. split; [done|]. exists (its ++ [e]), rs'. split; [done|].
    rewrite map_app, Hm. cbn [map]. rewrite Hpe. split; [done|].
    injection Hpe as Hke Hve. pose proof (length_enc_le e) as Hle. rewrite Hke, Hve in Hle.
    rewrite length_encs, length_app, dsize_app. cbn. lia.
Qed.

Lemma block_built_finish bb l :
  block_built bb l -> dsize l + 12 < 2 ^ 32 ->
  block_holds l (Finish bb).1 /\ len (Finish bb).1 <= dsize l + 8.
Proof.
  intros (its & rs & Hbu & Hm & Hsz) Hd.
  destruct (built_block interval bb its rs Hbu) as (Hb & Hl & Hn); [lia|].
  split; [by exists its, rs|]. cbv zeta in Hl. rewrite Hl. lia.
Qed.

Lemma block_built_empty bb l : block_built bb l -> BlockBuilder_empty bb = bool_decide (l = []).
Proof.
  intros (its & rs & Hbu & <- & _). unfold BlockBuilder_empty. rewrite (bu_buffer _ _ _ _ Hbu).
  destruct its as [|e its]; [done|]. rewrite encs_cons. rewrite !bool_decide_eq_false_2; [done|done|].
  intros Hz. pose proof (length_header e). pose proof (length_enc e). apply app_eq_nil in Hz as [Hz _].
  rewrite Hz in *. cbn in *. lia.
Qed.
End BlockBuilt.

(** ** What the table builder builds *)

(** Separators no longer than the keys they come from. *)
Class ComparatorShort (c : Comparator) (dom : bytes -> Prop) : Prop := {
  separator_short a b : dom a -> dom b -> Compare c a b = Lt ->
    (length (FindShortestSeparator c a b) <= length a)%nat;
  successor_short a : dom a -> (length (FindShortSuccessor c a) <= length a)%nat;
}.

#[export] Instance Bytewise_short : ComparatorShort BytewiseComparatorImpl (fun _ => True).
Proof.
  constructor.
  - intros a b _ _ Hlt. apply (Bytewise_separator_ok a b Hlt).
  - intros a _. apply (Bytewise_successor_ok a).
Qed.

#[export] Instance Internal_short : ComparatorShort (InternalKeyComparator BytewiseComparatorImpl) internal_dom.
Proof.
  constructor; cbn.
  - intros a b Ha Hb Hlt. apply (Internal_separator_ok a b Ha Hlt).
  - intros a Ha. apply (Internal_successor_ok a Ha).
Qed.

(** A bound on the file: keys, values and what is spent on an entry at most. *)
Definition weight (l : list entry) : Z := foldr (fun e z => 40 + len e.1 + len e.2 + z) 0 l.

Lemma weight_app a b : weight (a ++ b) = weight a + weight b.
Proof. unfold weight. induction a as [|e a IH]; cbn [app foldr]; lia. Qed.

Lemma weight_dsize l : dsize l + 21 * len l = weight l.
Proof. unfold dsize, weight. induction l as [|e l IH]; cbn [foldr length]; lia. Qed.

Lemma weight_nonneg l : 0 <= weight l.
Proof. pose proof (weight_dsize l). pose proof (dsize_nonneg l). lia. Qed.

Section Separators.
Context {c : Comparator} {dom : bytes -> Prop} {Hok : ComparatorOk c dom} {Hshort : ComparatorShort c dom}.

(** The index key between [pre] and [post]. *)
Definition sep_entry (pre post : list entry) (s : bytes) : Prop :=
  exists p q, last pre = Some p /\ head post = Some q /\ s = FindShortestSeparator c p.1 q.1.

(** The index key after everything. *)
Definition succ_entry (pre : list entry) (s : bytes) : Prop :=
  exists p, last pre = Some p /\ s = FindShortSuccessor c p.1.

Lemma sep_entry_more pre post more s : sep_entry pre post s -> sep_entry pre (post ++ more) s.
Proof. intros (p & q & Hp & Hq & ->). exists p, q. split; [done|]. split; [|done]. by destruct post. Qed.

Lemma sorted_last_le pre p x :
  StronglySorted (key_lt (c := c)) pre -> Forall (fun e => dom e.1) pre -> last pre = Some p -> x ∈ pre ->
  Compare c x.1 p.1 <> Gt.
Proof.
  intros Hs Hd Hp Hx. destruct pre as [|y pre _] using rev_ind; [done|].
  rewrite last_snoc in Hp. injection Hp as ->. apply elem_of_app in Hx as [Hx|Hx%list_elem_of_singleton].
  - apply list_elem_of_lookup in Hx as [i Hi]. pose proof (lookup_lt_Some _ _ _ Hi).
    pose proof (sorted_lookup _ (pre ++ [p]) i (length pre) x p Hs) as Hlt. unfold key_lt in Hlt.
    rewrite Hlt; [done|lia| |apply list_lookup_middle; done]. by rewrite lookup_app_l.
  - subst x. apply Forall_app in Hd as [_ Hd]. apply Forall_cons in Hd as [Hd _].
    by rewrite (Compare_refl (dom := dom)).
Qed.

Lemma sorted_head_le post q x :
  StronglySorted (key_lt (c := c)) post -> Forall (fun e => dom e.1) post -> head post = Some q -> x ∈ post ->
  Compare c q.1 x.1 <> Gt.
Proof.
  intros Hs Hd Hq Hx. destruct post as [|y post]; [done|]. injection Hq as ->.
  apply StronglySorted_cons in Hs as [Hall _]. apply Forall_cons in Hd as [Hd _].
  apply elem_of_cons in Hx as [->|Hx]; [by rewrite (Compare_refl (dom := dom))|].
  rewrite Forall_forall in Hall. specialize (Hall x Hx). unfold key_lt in Hall. by rewrite Hall.
Qed.

Lemma sorted_split pre post p q :
  StronglySorted (key_lt (c := c)) (pre ++ post) -> last pre = Some p -> head post = Some q ->
  Compare c p.1 q.1 = Lt.
Proof.
  intros Hs Hp Hq. destruct pre as [|y pre _] using rev_ind; [done|]. rewrite last_snoc in Hp. injection Hp as ->.
  destruct post as [|z post]; [done|]. injection Hq as ->. rewrite <- app_assoc in Hs.
  apply StronglySorted_app_1_r in Hs. apply StronglySorted_cons in Hs as [Hall _].
  by apply Forall_cons in Hall as [? _].
Qed.

Lemma sep_order pre post s :
  StronglySorted (key_lt (c := c)) (pre ++ post) -> Forall (fun e => dom e.1) (pre ++ post) ->
  sep_entry pre post s ->
  dom s /\ (forall x, x ∈ pre -> Compare c x.1 s <> Gt) /\ (forall x, x ∈ post -> Compare c s x.1 = Lt) /\
  (exists p, last pre = Some p /\ (length s <= length p.1)%nat).
Proof.
  intros Hs Hd (p & q & Hp & Hq & ->). pose proof (sorted_split pre post p q Hs Hp Hq) as Hlt.
  apply Forall_app in Hd as [Hd1 Hd2]. pose proof Hd1 as Hf1. pose proof Hd2 as Hf2.
  rewrite Forall_forall in Hf1, Hf2.
  assert (dom p.1) as Hdp by (apply Hf1; by apply last_Some_elem_of).
  assert (dom q.1) as Hdq by (apply Hf2; destruct post; [done|]; injection Hq as ->; by left).
  destruct (separator_ok p.1 q.1 Hdp Hdq Hlt) as (Hds & Hle & Hlq).
  split; [done|]. split; [|split].
  - intros x Hx. apply (Compare_le_trans (dom := dom) x.1 p.1); auto.
    apply (sorted_last_le pre); try done. by apply StronglySorted_app_1_l in Hs.
  - intros x Hx. apply (Compare_lt_le_trans (dom := dom) _ q.1); auto.
    apply (sorted_head_le post); try done. by apply StronglySorted_app_1_r in Hs.
  - exists p. split; [done|]. by apply separator_short.
Qed.

Lemma succ_order pre s :
  StronglySorted (key_lt (c := c)) pre -> Forall (fun e => dom e.1) pre -> succ_entry pre s ->
  dom s /\ (forall x, x ∈ pre -> Compare c x.1 s <> Gt) /\
  (exists p, last pre = Some p /\ (length s <= length p.1)%nat).
Proof.
  intros Hs Hd (p & Hp & ->). pose proof Hd as Hf. rewrite Forall_forall in Hf.
  assert (dom p.1) as Hdp by (apply Hf; by apply last_Some_elem_of).
  destruct (successor_ok p.1 Hdp) as [Hds Hle]. split; [done|]. split.
  - intros x Hx. apply (Compare_le_trans (dom := dom) x.1 p.1); auto. by apply (sorted_last_le pre).
  - exists p. split; [done|]. by apply successor_short.
Qed.
End Separators.

Section TableBuilt.
Context {c : Comparator} {dom : bytes -> Prop} {Hok : ComparatorOk c dom} {Hshort : ComparatorShort c dom}.
Context {F : Type} `{AppendFileOk F}.
Context {compress : bytes -> option bytes} {length_of : bytes -> option Z} {uncompress : bytes -> option bytes}.
Context {Hsnappy : SnappyOk compress length_of uncompress}.
Context (interval blocksize : Z) (compression : CompressionType) (addr : Z).
Hypothesis Hinterval : 1 <= interval.

Abbreviation block := (list entry * BlockHandle)%type.

Definition stored (file : bytes) (b : block) : Prop :=
  b.1 <> [] /\ handle_ok b.2 /\
  exists raw, block_at (length_of := length_of) (uncompress := uncompress) file b.2 raw /\ block_holds b.1 raw.

(** The entries up to block [i], and those after it. *)
Definition upto (blocks : list block) (i : nat) : list entry := concat (take (S i) blocks.*1).
Definition beyond (blocks : list block) (i : nat) (cur : list entry) : list entry :=
  concat (drop (S i) blocks.*1) ++ cur.

Lemma upto_beyond blocks i cur : upto blocks i ++ beyond blocks i cur = concat blocks.*1 ++ cur.
Proof. unfold upto, beyond. by rewrite app_assoc, <- concat_app, take_drop. Qed.

Lemma upto_snoc blocks b i : (i < length blocks)%nat -> upto (blocks ++ [b]) i = upto blocks i.
Proof. intros Hi. unfold upto. rewrite fmap_app, take_app_le; [done|]. rewrite length_fmap. lia. Qed.

Lemma beyond_snoc blocks cur h i :
  (i < length blocks)%nat -> beyond (blocks ++ [(cur, h)]) i [] = beyond blocks i cur.
Proof.
  intros Hi. unfold beyond. rewrite fmap_app, drop_app_le by (rewrite length_fmap; lia).
  rewrite concat_app, app_nil_r. cbn. by rewrite app_nil_r.
Qed.

Lemma beyond_more blocks i cur more : beyond blocks i (cur ++ more) = beyond blocks i cur ++ more.
Proof. unfold beyond. by rewrite app_assoc. Qed.

(** The state of the builder: [blocks] written, [idx] in the index block, [cur] in the
    data block; when the index entry is pending the last block has none yet. *)
Record tb_inv (b : TableBuilder (F := F)) (blocks : list block) (idx cur : list entry) : Prop := {
  ti_healthy : healthy (tfile b);
  ti_offset : toffset b = len (contents (tfile b));
  ti_status : tstatus b = OK;
  ti_open : closed b = false;
  ti_blocks : Forall (stored (contents (tfile b))) blocks;
  ti_offsets i j x y : (i < j)%nat -> blocks !! i = Some x -> blocks !! j = Some y -> offset x.2 < offset y.2;
  ti_count : length blocks = (length idx + if pendingindexentry b then 1 else 0)%nat;
  ti_idx i e : idx !! i = Some e -> exists l h, blocks !! i = Some (l, h) /\ e.2 = handle_bytes h /\
    sep_entry (c := c) (upto blocks i) (beyond blocks i cur) e.1;
  ti_pending : pendingindexentry b = true -> cur = [] /\ exists l, last blocks = Some (l, blockhandle b);
  ti_index : block_built 1 (indexblock b) idx;
  ti_data : block_built interval (datablock b) cur;
  ti_lastkey p : last (concat blocks.*1 ++ cur) = Some p -> tlastkey b = p.1;
  ti_entries : pendinghandle b = len (concat blocks.*1 ++ cur);
  ti_fsize : len (contents (tfile b)) <= weight (concat blocks.*1);
  ti_isize : dsize idx <= weight (concat (take (length idx) blocks.*1));
}.

Lemma tb_inv_make f : healthy f -> contents f = [] -> tb_inv (TableBuilder_make f) [] [] [].
Proof.
  intros Hf Hc. constructor; cbn; try done; try (by rewrite Hc); apply block_built_make; lia.
Qed.

Lemma weight_elem l p : p ∈ l -> 40 + len p.1 + len p.2 <= weight l.
Proof.
  intros (a & b & ->)%list_elem_of_split. rewrite weight_app. cbn. fold (weight b).
  pose proof (weight_nonneg a). pose proof (weight_nonneg b). lia.
Qed.

Lemma weight_take_drop n l : weight (concat (take n l)) + weight (concat (drop n l)) = weight (concat l).
Proof. by rewrite <- weight_app, <- concat_app, take_drop. Qed.

Lemma flush_step b blocks idx cur :
  tb_inv b blocks idx cur -> cur <> [] -> weight (concat blocks.*1 ++ cur) + 300 < 2 ^ 32 ->
  exists b' h, tflush compress compression addr b = Some b' /\
    tb_inv b' (blocks ++ [(cur, h)]) idx [] /\ pendingindexentry b' = true.
Proof.
  intros Hinv Hcur Hw. pose proof Hinv as []. rewrite weight_app in Hw.
  pose proof (weight_nonneg (concat blocks.*1)) as Hw0. pose proof (weight_dsize cur) as Hd.
  assert (1 <= len cur) as Hc1 by (destruct cur; [done|cbn; lia]).
  assert (pendingindexentry b = false) as Hp.
  { destruct (pendingindexentry b); [|done]. by destruct ti_pending0 as [-> _]. }
  unfold tflush. rewrite ti_open0, (block_built_empty _ _ _ ti_data0), bool_decide_eq_false_2, Hp by done.
  destruct (block_built_finish _ _ _ ti_data0) as [Hholds Hlen]; [lia|].
  destruct (WriteBlock_ok (compress := compress) (length_of := length_of) (uncompress := uncompress) compression addr b
    (datablock b) ti_healthy0) as (f & z & t & -> & Hf & Hcf & Hst & Hz); [lia|lia|].
  cbn [set_data set_pending set_io tfile toffset tstatus].
  destruct (fflush_ok f Hf) as (f' & -> & Hf' & Hcf').
  rewrite Hcf in Hcf'. eexists _, _. split; [done|]. split; [|done].
  assert (stored (contents f') (cur, MkBlockHandle (toffset b) (len z))) as Hstored.
  { split; [done|]. split; [unfold handle_ok; cbn [snd offset hsize]; lia|].
    exists (Finish (datablock b)).1. split; [|done].
    exists (contents (tfile b)), z, t, []. cbn [snd offset hsize]. by rewrite app_nil_r. }
  constructor; cbn [set_io set_pending set_data tfile toffset tstatus closed pendingindexentry blockhandle
    indexblock datablock tlastkey pendinghandle]; try done.
  - rewrite Hcf', !length_app, length_trailer_of. lia.
  - apply Forall_app. split; [|by apply Forall_singleton]. rewrite Hcf'.
    eapply Forall_impl; [exact ti_blocks0|]. intros [l h] (Hl & Hh & raw & Hat & Hb).
    split; [done|]. split; [done|]. exists raw. split; [by apply block_at_more|done].
  - intros i j x y Hij Hx [[Hj Hy]|[-> <-]]%lookup_snoc_Some.
    { rewrite lookup_app_l in Hx by lia. by apply (ti_offsets0 i j). }
    rewrite lookup_app_l in Hx by lia. rewrite Forall_lookup in ti_blocks0.
    destruct (ti_blocks0 i x Hx) as (_ & _ & raw & Hat & _). apply block_at_handle in Hat. cbn [snd offset]. lia.
  - rewrite length_app, ti_count0, Hp. cbn. lia.
  - intros i e He. destruct (ti_idx0 i e He) as (l & h & Hb & Hv & Hs). pose proof (lookup_lt_Some _ _ _ Hb).
    exists l, h. rewrite upto_snoc, beyond_snoc by done. split; [by apply lookup_app_l_Some|done].
  - intros _. split; [done|]. exists cur. by rewrite last_snoc.
  - apply block_built_make; lia.
  - rewrite fmap_app, concat_app. cbn. rewrite !app_nil_r. done.
  - rewrite fmap_app, concat_app. cbn. rewrite !app_nil_r. done.
  - rewrite fmap_app, concat_app, Hcf', !length_app, length_trailer_of, weight_app.
    cbn [fmap list_fmap fst concat]. rewrite app_nil_r. lia.
  - rewrite fmap_app, take_app_le; [done|]. rewrite length_fmap, ti_count0. lia.
Qed.

(** Writing the pending index entry under the key [s]. *)
Lemma add_index_step b blocks idx l s p :
  tb_inv b blocks idx [] -> pendingindexentry b = true -> last blocks = Some (l, blockhandle b) ->
  last l = Some p -> (length s <= length p.1)%nat -> (forall e, last idx = Some e -> Compare c s e.1 = Gt) ->
  weight (concat blocks.*1) + 300 < 2 ^ 32 ->
  exists i, add_index c b s = Some (set_index (set_key b s (pendinghandle b)) i false) /\
    block_built 1 i (idx ++ [(s, handle_bytes (blockhandle b))]) /\
    dsize (idx ++ [(s, handle_bytes (blockhandle b))]) <= weight (concat blocks.*1).
Proof.
  intros [] Hp Hl Hlast Hs Hgt Hw. pose proof (last_Some_elem_of _ _ Hl) as Hin.
  rewrite Forall_forall in ti_blocks0. destruct (ti_blocks0 _ Hin) as (_ & Hh & _). cbn in Hh.
  unfold add_index. rewrite (BlockHandle_EncodeTo_ok _ [] Hh), app_nil_l.
  assert (dsize (idx ++ [(s, handle_bytes (blockhandle b))]) <= weight (concat blocks.*1)) as Hd.
  { rewrite Hp in ti_count0. apply last_Some in Hl as [bs ->]. rewrite length_app in ti_count0. cbn in ti_count0.
    rewrite fmap_app, take_app_le in ti_isize0 by (rewrite length_fmap; lia).
    rewrite (take_ge bs.*1) in ti_isize0 by (rewrite length_fmap; lia).
    rewrite dsize_app, fmap_app, concat_app, weight_app. cbn [fmap list_fmap fst concat dsize foldr snd].
    rewrite app_nil_r. pose proof (weight_elem l p (last_Some_elem_of _ _ Hlast)).
    pose proof (length_handle_bytes (blockhandle b)). lia. }
  destruct (block_built_add (c := c) 1 ltac:(lia) (indexblock b) idx s (handle_bytes (blockhandle b)) ti_index0)
    as (i & Ha & Hb); [done|lia|].
  rewrite Ha. exists i. done.
Qed.

Definition all_sorted (l : list entry) : Prop :=
  StronglySorted (key_lt (c := c)) l /\ Forall (fun e => dom e.1) l.

Lemma last_index_lt b blocks idx l s p :
  tb_inv b blocks idx [] -> pendingindexentry b = true -> last blocks = Some (l, blockhandle b) ->
  last l = Some p -> all_sorted (concat blocks.*1) -> dom s -> Compare c p.1 s <> Gt ->
  forall e, last idx = Some e -> Compare c s e.1 = Gt.
Proof.
  intros [] Hp Hl Hlast [Hs Hd] Hds Hle e He. rewrite last_lookup in He.
  destruct (ti_idx0 _ _ He) as (l' & h' & Hb & _ & Hsep).
  assert (upto blocks (pred (length idx)) ++ beyond blocks (pred (length idx)) [] = concat blocks.*1) as Happ
    by (by rewrite upto_beyond, app_nil_r).
  destruct (sep_order (dom := dom) _ _ _ ltac:(by rewrite Happ) ltac:(by rewrite Happ) Hsep) as (Hde & _ & Hlt & _).
  rewrite Forall_forall in Hd.
  assert (p ∈ concat blocks.*1) as Hpin.
  { apply list_elem_of_In, in_concat. exists l. split; apply list_elem_of_In; [|by apply last_Some_elem_of].
    apply list_elem_of_fmap. exists (l, blockhandle b). split; [done|]. by apply last_Some_elem_of. }
  apply (Compare_gt_lt (dom := dom)); [done..|].
  apply (Compare_lt_le_trans (dom := dom) _ p.1); auto.
  apply Hlt. unfold beyond. rewrite app_nil_r. apply list_elem_of_In, in_concat. exists l.
  split; apply list_elem_of_In; [|by apply last_Some_elem_of].
  rewrite Hp in ti_count0. apply last_Some in Hl as [bs ->]. rewrite length_app in ti_count0. cbn in ti_count0.
  pose proof (lookup_lt_Some _ _ _ He) as Hi.
  rewrite fmap_app, drop_app_le by (rewrite length_fmap; lia). apply elem_of_app. right. by left.
Qed.

Lemma last_all_pending b blocks idx l p :
  tb_inv b blocks idx [] -> last blocks = Some (l, blockhandle b) -> last l = Some p ->
  last (concat blocks.*1) = Some p.
Proof.
  intros _ [bs ->]%last_Some [l0 ->]%last_Some. rewrite fmap_app, concat_app. cbn. rewrite app_nil_r, app_assoc.
  apply last_snoc.
Qed.

Lemma pending_last b blocks idx cur :
  tb_inv b blocks idx cur -> pendingindexentry b = true ->
  cur = [] /\ exists l p, last blocks = Some (l, blockhandle b) /\ last l = Some p /\
    last (concat blocks.*1) = Some p /\ tlastkey b = p.1.
Proof.
  intros Hinv Hp. destruct (ti_pending _ _ _ _ Hinv Hp) as [-> [l Hl]]. split; [done|].
  pose proof (ti_blocks _ _ _ _ Hinv) as Hf. rewrite Forall_forall in Hf.
  destruct (Hf _ (last_Some_elem_of _ _ Hl)) as (Hne & _). cbn in Hne.
  destruct (last l) as [p|] eqn:El; [|by apply last_None in El].
  exists l, p. pose proof (last_all_pending b blocks idx l p Hinv Hl El) as Hlast.
  split; [done|]. split; [done|]. split; [done|]. apply (ti_lastkey _ _ _ _ Hinv). by rewrite app_nil_r.
Qed.

(** After the pending entry, if any, under the separator before [key]. *)
Lemma resolve_step b blocks idx cur key value :
  tb_inv b blocks idx cur -> all_sorted (concat blocks.*1 ++ cur ++ [(key, value)]) ->
  weight (concat blocks.*1 ++ cur) + 300 < 2 ^ 32 ->
  exists b1 idx1, (if pendingindexentry b then
      if BlockBuilder_empty (datablock b) then add_index c b (FindShortestSeparator c (tlastkey b) key) else None
    else Some b) = Some b1 /\
    healthy (tfile b1) /\ toffset b1 = len (contents (tfile b1)) /\ contents (tfile b1) = contents (tfile b) /\
    tstatus b1 = OK /\ closed b1 = false /\ pendingindexentry b1 = false /\
    length blocks = length idx1 /\ block_built 1 (indexblock b1) idx1 /\ block_built interval (datablock b1) cur /\
    pendinghandle b1 = pendinghandle b /\ dsize idx1 <= weight (concat (take (length idx1) blocks.*1)) /\
    forall i e, idx1 !! i = Some e -> exists l h, blocks !! i = Some (l, h) /\ e.2 = handle_bytes h /\
      sep_entry (c := c) (upto blocks i) (beyond blocks i (cur ++ [(key, value)])) e.1.
Proof.
  intros Hinv [Hs Hd] Hw. destruct (pendingindexentry b) eqn:Hp.
  2:{ pose proof Hinv as []. rewrite Hp in ti_count0. exists b, idx. split_and!; try done; [lia|].
      intros i e He. destruct (ti_idx0 i e He) as (l & h & Hb & Hv & Hse). exists l, h. split; [done|]. split; [done|].
      rewrite beyond_more. by apply sep_entry_more. }
  destruct (pending_last _ _ _ _ Hinv Hp) as (-> & l & p & Hl & Hlast & Hlastall & Hkey).
  pose proof Hinv as []. rewrite (block_built_empty _ _ _ ti_data0), bool_decide_eq_true_2, Hkey by done.
  cbn [app] in *. rewrite app_nil_r in *.
  assert (sep_entry (c := c) (concat blocks.*1) [(key, value)] (FindShortestSeparator c p.1 key)) as Hsep
    by (exists p, (key, value); done).
  destruct (sep_order (dom := dom) _ _ _ Hs Hd Hsep) as (Hds & Hle & _ & (p' & Hp' & Hlen)).
  simplify_eq.
  destruct (add_index_step b blocks idx l (FindShortestSeparator c p.1 key) p Hinv Hp Hl Hlast Hlen) as (i & -> & Hbi & Hsz).
  { apply (last_index_lt b blocks idx l _ p); try done; [split|].
    - by apply StronglySorted_app_1_l in Hs.
    - by apply Forall_app in Hd as [? _].
    - apply Hle. by apply last_Some_elem_of. }
  { done. }
  eexists _, (idx ++ [(_, handle_bytes (blockhandle b))]). split; [done|].
  rewrite Hp in ti_count0.
  assert (length blocks = length (idx ++ [(FindShortestSeparator c p.1 key, handle_bytes (blockhandle b))])) as Hlb
    by (rewrite length_app; cbn; lia).
  split_and!; try done.
  { rewrite take_ge; [done|]. rewrite length_fmap. lia. }
  intros j e [He|[-> <-]]%lookup_snoc_Some.
  - destruct He as [Hj He]. destruct (ti_idx0 j e He) as (l' & h & Hb & Hv & Hse). exists l', h. split; [done|].
    split; [done|]. pose proof (beyond_more blocks j [] [(key, value)]) as Hm. cbn [app] in Hm. rewrite Hm.
    by apply sep_entry_more.
  - exists l, (blockhandle b). rewrite last_lookup in Hl. rewrite ti_count0 in Hl.
    replace (pred (length idx + 1)) with (length idx) in Hl by lia. split; [done|]. split; [done|].
    unfold upto, beyond. rewrite take_ge, drop_ge by (rewrite length_fmap; lia). exact Hsep.
Qed.

Lemma all_sorted_r a b : all_sorted (a ++ b) -> all_sorted b.
Proof. intros [Hs Hd]. split; [by apply StronglySorted_app_1_r in Hs|by apply Forall_app in Hd as [_ ?]]. Qed.

Lemma last_snoc_gt (l : list entry) key value p :
  all_sorted (l ++ [(key, value)]) -> last l = Some p -> Compare c key p.1 = Gt.
Proof.
  intros [Hs Hd] Hl. pose proof (sorted_split l [(key, value)] p (key, value) Hs Hl eq_refl) as Hlt.
  apply Forall_app in Hd as [Hd1 Hd2]. apply Forall_cons in Hd2 as [Hk _]. rewrite Forall_forall in Hd1.
  apply (Compare_gt_lt (dom := dom)); [done|apply Hd1; by apply last_Some_elem_of|done].
Qed.

Lemma Add_tb b blocks idx cur key value :
  tb_inv b blocks idx cur -> all_sorted (concat blocks.*1 ++ cur ++ [(key, value)]) ->
  weight (concat blocks.*1 ++ cur ++ [(key, value)]) + 300 < 2 ^ 32 ->
  exists b' blocks' idx' cur', TableBuilder_Add compress c interval blocksize compression addr b key value = Some b' /\
    tb_inv b' blocks' idx' cur' /\
    concat blocks'.*1 ++ cur' = concat blocks.*1 ++ cur ++ [(key, value)].
Proof.
  intros Hinv Hall Hw. rewrite app_assoc, weight_app in Hw. cbn in Hw.
  destruct (resolve_step b blocks idx cur key value Hinv Hall) as
    (b1 & idx1 & Hres & Hh & Ho & Hc & Hst & Hcl & Hp & Hlen & Hbi & Hbd & Hpe & Hsz & Hidx); [lia|].
  pose proof Hinv as []. unfold TableBuilder_Add. rewrite ti_open0, ti_status0. cbn [ok OK negb].
  assert ((0 <? pendinghandle b) && negb (bool_decide (Compare c key (tlastkey b) = Gt)) = false) as ->.
  { destruct (last (concat blocks.*1 ++ cur)) as [p|] eqn:El.
    - rewrite (ti_lastkey0 p eq_refl), bool_decide_eq_true_2; [by rewrite andb_false_r|].
      eapply last_snoc_gt; [|exact El]. by rewrite <- app_assoc.
    - apply last_None in El. by rewrite ti_entries0, El. }
  rewrite Hres. cbn [set_key datablock].
  destruct (block_built_add (c := c) interval Hinterval (datablock b1) cur key value Hbd) as (d & -> & Hd).
  { intros p. apply (last_snoc_gt cur key value). by apply all_sorted_r in Hall. }
  { rewrite dsize_app. cbn. pose proof (weight_app (concat blocks.*1) cur). pose proof (weight_nonneg (concat blocks.*1)).
    pose proof (weight_dsize cur). lia. }
  set (b2 := set_data _ d).
  assert (tb_inv b2 blocks idx1 (cur ++ [(key, value)])) as Hinv2.
  { constructor; cbn [b2 set_data set_key tfile toffset tstatus closed pendingindexentry blockhandle indexblock
      datablock tlastkey pendinghandle]; try done.
    - by rewrite Hc.
    - rewrite Hp. lia.
    - by rewrite Hp.
    - intros p. rewrite app_assoc, last_snoc. by intros [= <-].
    - rewrite Hpe, ti_entries0, app_assoc, (length_app _ [(key, value)]). cbn. lia.
    - by rewrite Hc. }
  destruct (blocksize <=? CurrentSizeEstimate d).
  - destruct (flush_step b2 blocks idx1 (cur ++ [(key, value)]) Hinv2) as (b' & h & Hf & Hinv' & _).
    { by destruct cur. }
    { rewrite app_assoc, weight_app. cbn. lia. }
    exists b', (blocks ++ [(cur ++ [(key, value)], h)]), idx1, []. split; [done|]. split; [done|].
    rewrite fmap_app, concat_app. cbn. by rewrite !app_nil_r.
  - exists b2, blocks, idx1, (cur ++ [(key, value)]). done.
Qed.

(** The finished file. *)
Record table_file (es : list entry) (file : bytes) (blocks : list block) (idx : list entry)
    (meta ih : BlockHandle) : Prop := {
  tf_footer : exists body, file = body ++ footer_bytes (MkFooter meta ih);
  tf_meta : handle_ok meta /\ 0 <= offset meta < len file;
  tf_index : handle_ok ih /\ exists raw,
    block_at (length_of := length_of) (uncompress := uncompress) file ih raw /\ block_holds idx raw;
  tf_blocks : Forall (stored file) blocks;
  tf_offsets i j x y : (i < j)%nat -> blocks !! i = Some x -> blocks !! j = Some y -> offset x.2 < offset y.2;
  tf_count : length idx = length blocks;
  tf_es : concat blocks.*1 = es;
  tf_idx i e : idx !! i = Some e -> exists l h, blocks !! i = Some (l, h) /\ e.2 = handle_bytes h /\
    (sep_entry (c := c) (upto blocks i) (beyond blocks i []) e.1 \/
     (S i = length blocks /\ succ_entry (c := c) (upto blocks i) e.1));
  tf_size : len file < 2 ^ 33;
}.

Fixpoint Add_all (b : TableBuilder (F := F)) (es : list entry) : option (TableBuilder (F := F)) :=
  match es with
  | [] => Some b
  | (key, value) :: es =>
      let? b := TableBuilder_Add compress c interval blocksize compression addr b key value in Add_all b es
  end.

Lemma Add_all_tb es : forall b blocks idx cur,
  tb_inv b blocks idx cur -> all_sorted (concat blocks.*1 ++ cur ++ es) ->
  weight (concat blocks.*1 ++ cur ++ es) + 300 < 2 ^ 32 ->
  exists b' blocks' idx' cur', Add_all b es = Some b' /\ tb_inv b' blocks' idx' cur' /\
    concat blocks'.*1 ++ cur' = concat blocks.*1 ++ cur ++ es.
Proof.
  induction es as [|[key value] es IH]; intros b blocks idx cur Hinv Hs Hw; cbn [Add_all].
  { exists b, blocks, idx, cur. by rewrite app_nil_r. }
  assert (concat blocks.*1 ++ cur ++ (key, value) :: es = (concat blocks.*1 ++ cur ++ [(key, value)]) ++ es) as E
    by (by rewrite <- !app_assoc).
  rewrite E in Hs, Hw.
  destruct (Add_tb b blocks idx cur key value Hinv) as (b1 & blocks1 & idx1 & cur1 & -> & Hinv1 & Hc1).
  - destruct Hs as [Hs Hd]. split; [by apply StronglySorted_app_1_l in Hs|by apply Forall_app in Hd as [? _]].
  - rewrite weight_app in Hw. pose proof (weight_nonneg es). lia.
  - rewrite <- Hc1, <- app_assoc in Hs, Hw.
    destruct (IH b1 blocks1 idx1 cur1 Hinv1 Hs Hw) as (b' & blocks' & idx' & cur' & -> & Hinv' & Hc').
    exists b', blocks', idx', cur'. split; [done|]. split; [done|]. by rewrite Hc', E, <- Hc1, <- app_assoc.
Qed.

Lemma flush_any b blocks idx cur :
  tb_inv b blocks idx cur -> weight (concat blocks.*1 ++ cur) + 300 < 2 ^ 32 ->
  exists b' blocks', tflush compress compression addr b = Some b' /\ tb_inv b' blocks' idx [] /\
    concat blocks'.*1 = concat blocks.*1 ++ cur /\ (pendingindexentry b' = false -> blocks' = []).
Proof.
  intros Hinv Hw. destruct (decide (cur = [])) as [->|Hne].
  - pose proof Hinv as []. unfold tflush.
    rewrite ti_open0, (block_built_empty _ _ _ ti_data0), bool_decide_eq_true_2 by done.
    exists b, blocks. rewrite app_nil_r. split; [done|]. split; [done|]. split; [done|]. intros Hp.
    rewrite Hp in ti_count0. destruct idx as [|e idx _] using rev_ind; [by destruct blocks|exfalso].
    destruct (ti_idx0 (length idx) e) as (l & h & Hb & _ & p & q & _ & Hq & _); [by rewrite list_lookup_middle|].
    unfold beyond in Hq. rewrite length_app in ti_count0. cbn in ti_count0.
    by rewrite drop_ge in Hq by (rewrite length_fmap; lia).
  - destruct (flush_step b blocks idx cur Hinv Hne Hw) as (b' & h & Hf & Hinv' & Hp).
    exists b', (blocks ++ [(cur, h)]). split; [done|]. split; [done|]. split; [|congruence].
    rewrite fmap_app, concat_app. cbn. by rewrite app_nil_r.
Qed.

(** The last index entry, under the successor of the last key. *)
Lemma resolve_last b blocks idx :
  tb_inv b blocks idx [] -> all_sorted (concat blocks.*1) -> weight (concat blocks.*1) + 300 < 2 ^ 32 ->
  (pendingindexentry b = false -> blocks = []) ->
  exists i s pending idx1, (forall b2 : TableBuilder (F := F), pendingindexentry b2 = pendingindexentry b -> indexblock b2 = indexblock b ->
      blockhandle b2 = blockhandle b -> tlastkey b2 = tlastkey b ->
      (if pendingindexentry b2 then add_index c b2 (FindShortSuccessor c (tlastkey b2)) else Some b2) =
        Some (set_index (set_key b2 s (pendinghandle b2)) i pending)) /\
    block_built 1 i idx1 /\ dsize idx1 <= weight (concat blocks.*1) /\ length idx1 = length blocks /\
    forall j e, idx1 !! j = Some e -> exists l h, blocks !! j = Some (l, h) /\ e.2 = handle_bytes h /\
      (sep_entry (c := c) (upto blocks j) (beyond blocks j []) e.1 \/
       (S j = length blocks /\ succ_entry (c := c) (upto blocks j) e.1)).
Proof.
  intros Hinv Hall Hw Hnp. destruct (pendingindexentry b) eqn:Hp.
  2:{ rewrite (Hnp eq_refl) in *. pose proof Hinv as []. exists (indexblock b), (tlastkey b), false, idx.
      rewrite Hp in ti_count0. destruct idx; [|cbn in ti_count0; lia]. split; [|split; [done|split; [done|split; [done|]]]].
      - intros b2 H1 H2 _ H3. rewrite H1, <- H2, <- H3. destruct b2. cbn in H1. by subst.
      - intros j e. by rewrite lookup_nil. }
  destruct (pending_last _ _ _ _ Hinv Hp) as (_ & l & p & Hl & Hlast & Hlastall & Hkey).
  pose proof Hinv as []. destruct Hall as [Hs Hd].
  assert (succ_entry (c := c) (concat blocks.*1) (FindShortSuccessor c p.1)) as Hsucc by (by exists p).
  destruct (succ_order (dom := dom) _ _ Hs Hd Hsucc) as (Hds & Hle & (p' & Hp' & Hlen)). simplify_eq.
  destruct (add_index_step b blocks idx l (FindShortSuccessor c p.1) p Hinv Hp Hl Hlast Hlen) as (i & Ha & Hbi & Hsz).
  { apply (last_index_lt b blocks idx l _ p); try done. apply Hle. by apply last_Some_elem_of. }
  { done. }
  exists i, (FindShortSuccessor c p.1), false, (idx ++ [(FindShortSuccessor c p.1, handle_bytes (blockhandle b))]).
  rewrite Hp in ti_count0.
  split; [|split; [done|split; [done|split; [rewrite length_app; cbn; lia|]]]].
  - intros b2 H1 H2 H3 H4. rewrite H1, H4, Hkey. unfold add_index in *. rewrite H3, H2.
    destruct (BlockHandle_EncodeTo (blockhandle b) []) as [he|]; [|done].
    destruct (BlockBuilder_Add c 1 (indexblock b) _ he) as [i'|]; [|done].
    injection Ha as Ha. destruct b, b2; cbn in *. by simplify_eq.
  - intros j e [[Hj He]|[-> <-]]%lookup_snoc_Some.
    + destruct (ti_idx0 j e He) as (l' & h & Hb & Hv & Hse). exists l', h. auto.
    + exists l, (blockhandle b). rewrite last_lookup, ti_count0 in Hl.
      replace (pred (length idx + 1)) with (length idx) in Hl by lia. split; [done|]. split; [done|]. right.
      split; [lia|]. unfold upto. rewrite take_ge by (rewrite length_fmap; lia). exact Hsucc.
Qed.

Lemma stored_more file more b : stored file b -> stored (file ++ more) b.
Proof. intros (Hl & Hh & raw & Hat & Hb). split; [done|]. split; [done|]. exists raw. split; [by apply block_at_more|done]. Qed.

Lemma Finish_tb b blocks idx cur es :
  tb_inv b blocks idx cur -> all_sorted es -> concat blocks.*1 ++ cur = es -> weight es + 300 < 2 ^ 32 ->
  exists b' blocks' idx' meta ih, TableBuilder_Finish compress c compression addr b = Some b' /\
    tstatus b' = OK /\ closed b' = true /\ healthy (tfile b') /\ filesize b' = len (contents (tfile b')) /\
    table_file es (contents (tfile b')) blocks' idx' meta ih.
Proof.
  intros Hinv Hall Hes Hw. unfold TableBuilder_Finish.
  destruct (flush_any b blocks idx cur Hinv) as (b1 & blocks1 & -> & Hinv1 & Hc1 & Hnp); [by rewrite Hes|].
  rewrite Hes in Hc1. subst es. rewrite <- Hc1 in Hall, Hw |- *. clear Hinv Hc1 b blocks cur.
  destruct (resolve_last b1 blocks1 idx Hinv1 Hall Hw Hnp) as (i & s & pd & idx1 & Hlast & Hbi & Hsz & Hcnt & Hidx).
  pose proof Hinv1 as []. rewrite ti_open0. pose proof (weight_nonneg (concat blocks1.*1)) as Hw0.
  set (b2 := set_closed b1). assert (ok (tstatus b2) = true) as -> by (by cbn; rewrite ti_status0).
  (* the metaindex block *)
  destruct (block_built_finish 1 BlockBuilder_make [] (block_built_make 1 ltac:(lia)))
    as [_ Hmlen]; [done|].
  destruct (WriteBlock_ok (compress := compress) (length_of := length_of) (uncompress := uncompress) compression addr b2
    BlockBuilder_make ti_healthy0) as (f1 & z1 & t1 & -> & Hf1 & Hcf1 & Hst1 & Hz1); [cbn; lia|cbn [b2 set_closed toffset]; cbn in Hmlen |- *; lia|].
  cbn [set_io tstatus ok OK]. set (b3 := set_io b2 f1 _ OK).
  specialize (Hlast b3 eq_refl eq_refl eq_refl eq_refl).
  rewrite Hlast. clear Hlast. set (b4 := set_index _ i pd).
  assert (dsize [] + 8 = 8) as Hd8 by done. rewrite Hd8 in Hmlen. clear Hd8.
  cbn [b2 set_closed toffset tfile] in *.
  assert (len (contents f1) = toffset b1 + len z1 + 5) as Hlf1
    by (rewrite Hcf1, !length_app, length_trailer_of; lia).
  (* the index block *)
  assert (indexblock b4 = i) as Hib by done. rewrite Hib. clear Hib.
  destruct (block_built_finish 1 i idx1 Hbi) as [Hholds Hilen]; [lia|].
  destruct (WriteBlock_ok (compress := compress) (length_of := length_of) (uncompress := uncompress) compression addr b4
    i Hf1) as (f2 & z2 & t2 & -> & Hf2 & Hcf2 & Hst2 & Hz2); [cbn [b4 b3 set_io set_index set_key toffset]; lia..|].
  cbn [set_io set_index set_key tstatus ok OK b4 b3 tfile toffset pendingindexentry closed] in *.
  set (meta := MkBlockHandle (toffset b1) (len z1)). set (ih := MkBlockHandle (toffset b1 + len z1 + 5) (len z2)).
  assert (handle_ok meta /\ handle_ok ih) as [Hom Hoi] by (unfold handle_ok; cbn [meta ih offset hsize]; lia).
  rewrite Footer_EncodeTo_ok by done.
  destruct (fappend_ok f2 (footer_bytes (MkFooter meta ih)) Hf2) as (f3 & -> & Hf3 & Hcf3).
  assert (len (contents f2) = toffset b1 + len z1 + 5 + len z2 + 5) as Hlf2
    by (rewrite Hcf2, !length_app, length_trailer_of; lia).
  eexists _, blocks1, idx1, meta, ih. split; [done|]. cbn [set_io tstatus tfile filesize toffset closed ok OK].
  split; [done|]. split; [done|]. split; [done|].
  assert (len (contents f3) = toffset b1 + len z1 + 5 + len z2 + 5 + 48) as Hlf3
    by (rewrite Hcf3, length_app, length_footer_bytes; lia).
  split; [unfold filesize; cbn [toffset]; rewrite length_footer_bytes, u64_small by lia; lia|].
  assert (exists more, contents f3 = contents (tfile b1) ++ more) as [more Hmore]
    by (rewrite Hcf3, Hcf2, Hcf1; eexists; by rewrite <- !app_assoc).
  constructor; try done.
  - by exists (contents f2).
  - split; [done|]. cbn [meta offset]. lia.
  - split; [done|]. exists (Finish i).1. split; [|done].
    exists (contents f1), z2, t2, (footer_bytes (MkFooter meta ih)). rewrite Hcf3, Hcf2, <- !app_assoc.
    split; [done|]. cbn [ih offset hsize]. split; [lia|done].
  - rewrite Hmore. eapply Forall_impl; [exact ti_blocks0|]. intros x. apply stored_more.
  - lia.
Qed.

Lemma table_built f es :
  healthy f -> contents f = [] -> all_sorted es -> weight es + 300 < 2 ^ 32 ->
  exists b b' blocks idx meta ih, Add_all (TableBuilder_make f) es = Some b /\
    TableBuilder_Finish compress c compression addr b = Some b' /\
    tstatus b' = OK /\ closed b' = true /\ healthy (tfile b') /\ filesize b' = len (contents (tfile b')) /\
    table_file es (contents (tfile b')) blocks idx meta ih.
Proof.
  intros Hf Hc Hs Hw.
  destruct (Add_all_tb es _ [] [] [] (tb_inv_make f Hf Hc)) as (b & blocks & idx & cur & -> & Hinv & Hcat); [done..|].
  destruct (Finish_tb b blocks idx cur es Hinv Hs Hcat Hw) as (b' & blocks' & idx' & meta & ih & Hfin & Hst & Hcl & Hhe & Hsz & Htf).
  by exists b, b', blocks', idx', meta, ih.
Qed.
End TableBuilt.

(** ** Reading the file back *)

Lemma StronglySorted_pairs {A} (R : A -> A -> Prop) l :
  (forall i j a b, (i < j)%nat -> l !! i = Some a -> l !! j = Some b -> R a b) -> StronglySorted R l.
Proof.
  induction l as [|x l IH]; intros Hp; constructor.
  - apply IH. intros i j a b Hij Ha Hb. apply (Hp (S i) (S j)); [lia|done..].
  - apply Forall_lookup. intros j y Hj. apply (Hp 0%nat (S j)); [lia|done..].
Qed.

Section TableRead.
Context {c : Comparator} {dom : bytes -> Prop} {Hok : ComparatorOk c dom} {Hshort : ComparatorShort c dom}.
Context {compress : bytes -> option bytes} {length_of : bytes -> option Z} {uncompress : bytes -> option bytes}.
Context {Hsnappy : SnappyOk compress length_of uncompress}.
Context {G : Type} `{RandomFileOk G} (addr : Z) (options : ReadOptions) (paranoid : bool).
Context (es : list entry) (g : G) (blocks : list (list entry * BlockHandle)) (idx : list entry) (meta ih : BlockHandle).
Hypothesis Htf : table_file (c := c) (length_of := length_of) (uncompress := uncompress) es (rcontents g) blocks idx meta ih.
Hypothesis Hall : all_sorted (c := c) (dom := dom) es.

Lemma file_small : len (rcontents g) < 2 ^ 64.
Proof. pose proof (tf_size _ _ _ _ _ _ Htf). lia. Qed.

(** Blocks hold at least one entry. *)
Lemma index_le_entries : (length idx <= length es)%nat.
Proof.
  rewrite (tf_count _ _ _ _ _ _ Htf), <- (tf_es _ _ _ _ _ _ Htf).
  pose proof (tf_blocks _ _ _ _ _ _ Htf) as Hb. clear -Hb.
  induction Hb as [|x l (Hx & _) Hl IH]; cbn; [done|]. rewrite length_app. destruct (x.1); [done|]. cbn. lia.
Qed.

Lemma block_all i b : blocks !! i = Some b -> stored (length_of := length_of) (uncompress := uncompress) (rcontents g) b.
Proof. pose proof (tf_blocks _ _ _ _ _ _ Htf) as Hf. rewrite Forall_lookup in Hf. apply Hf. Qed.

Lemma all_split i : upto blocks i ++ beyond blocks i [] = es.
Proof. rewrite upto_beyond, app_nil_r. apply Htf. Qed.

Lemma block_in_upto i j b x : blocks !! j = Some b -> (j <= i)%nat -> x ∈ b.1 -> x ∈ upto blocks i.
Proof.
  intros Hb Hj Hx. apply list_elem_of_In, in_concat. exists b.1. split; apply list_elem_of_In; [|done].
  apply list_elem_of_lookup. exists j. rewrite lookup_take_lt by lia. by rewrite list_lookup_fmap, Hb.
Qed.

Lemma block_in_beyond i j b x : blocks !! j = Some b -> (i < j)%nat -> x ∈ b.1 -> x ∈ beyond blocks i [].
Proof.
  intros Hb Hj Hx. unfold beyond. rewrite app_nil_r. apply list_elem_of_In, in_concat. exists b.1.
  split; apply list_elem_of_In; [|done]. apply list_elem_of_lookup. exists (j - S i)%nat.
  rewrite lookup_drop, list_lookup_fmap. replace (S i + (j - S i))%nat with j by lia. by rewrite Hb.
Qed.

(** The index key of block [i] lies between its entries and the later ones. *)
Lemma index_key i e :
  idx !! i = Some e ->
  dom e.1 /\ (forall x, x ∈ upto blocks i -> Compare c x.1 e.1 <> Gt) /\
  (forall x, x ∈ beyond blocks i [] -> Compare c e.1 x.1 = Lt).
Proof.
  intros He. destruct (tf_idx _ _ _ _ _ _ Htf i e He) as (l & h & Hb & _ & Hs). destruct Hall as [Hso Hd].
  rewrite <- (all_split i) in Hso, Hd. destruct Hs as [Hs|[Hi Hs]].
  - destruct (sep_order (dom := dom) _ _ _ Hso Hd Hs) as (Hde & Hle & Hlt & _). done.
  - assert (beyond blocks i [] = []) as Hbe.
    { unfold beyond. by rewrite drop_ge by (rewrite length_fmap; lia). }
    rewrite Hbe, app_nil_r in Hso, Hd. destruct (succ_order (dom := dom) _ _ Hso Hd Hs) as (Hde & Hle & _).
    split; [done|]. split; [done|]. rewrite Hbe. intros x Hx. by apply not_elem_of_nil in Hx.
Qed.

Lemma es_all_dom x : x ∈ es -> dom x.1.
Proof. destruct Hall as [_ Hd]. rewrite Forall_forall in Hd. apply Hd. Qed.

Lemma upto_es i x : x ∈ upto blocks i -> x ∈ es.
Proof. intros Hx. rewrite <- (all_split i). apply elem_of_app. by left. Qed.
Lemma beyond_es i x : x ∈ beyond blocks i [] -> x ∈ es.
Proof. intros Hx. rewrite <- (all_split i). apply elem_of_app. by right. Qed.

Lemma index_sorted : all_sorted (c := c) (dom := dom) idx.
Proof.
  split.
  - apply StronglySorted_pairs. intros i j a b Hij Ha Hb.
    destruct (index_key i a Ha) as (Hda & _ & Hlt). destruct (index_key j b Hb) as (Hdb & Hle & _).
    destruct (tf_idx _ _ _ _ _ _ Htf j b Hb) as (l & h & Hbl & _ & _).
    destruct (block_all j (l, h) Hbl) as (Hne & _). cbn in Hne. destruct l as [|x l]; [done|].
    assert (x ∈ beyond blocks i []) as Hx by (apply (block_in_beyond i j (x :: l, h)); [done|done|by left]).
    apply (Compare_lt_le_trans (dom := dom) a.1 x.1 b.1); [done| |done|by apply Hlt|].
    + apply es_all_dom. by apply (beyond_es i).
    + apply Hle. apply (block_in_upto j j (x :: l, h)); [done|done|by left].
  - apply Forall_lookup. intros i e He. by apply (index_key i e He).
Qed.

(** The list and the bytes behind an index value. *)
Definition data_list (hb : bytes) : list entry :=
  match List.find (fun b => bool_decide (handle_bytes b.2 = hb)) blocks with Some b => b.1 | None => [] end.

Definition data_bytes (hb : bytes) : bytes :=
  let '(_, h, _) := BlockHandle_DecodeFrom BlockHandle_make hb in
  bdata (ReadBlock length_of uncompress addr g (verifychecksums options) h).2.

Lemma handle_decode h : handle_ok h -> BlockHandle_DecodeFrom BlockHandle_make (handle_bytes h) = (OK, h, []).
Proof. intros Hh. rewrite <- (app_nil_r (handle_bytes h)). by apply BlockHandle_DecodeFrom_bytes. Qed.

Lemma block_unique i j b b' :
  blocks !! i = Some b -> blocks !! j = Some b' -> offset b.2 = offset b'.2 -> i = j.
Proof.
  intros Hi Hj Ho. destruct (Nat.lt_total i j) as [Hl|[?|Hl]]; [|done|].
  - pose proof (tf_offsets _ _ _ _ _ _ Htf i j b b' Hl Hi Hj). lia.
  - pose proof (tf_offsets _ _ _ _ _ _ Htf j i b' b Hl Hj Hi). lia.
Qed.

Lemma data_list_at i l h : blocks !! i = Some (l, h) -> data_list (handle_bytes h) = l.
Proof.
  intros Hi. destruct (block_all i (l, h) Hi) as (_ & Hh & _). unfold data_list.
  destruct (List.find _ blocks) as [b|] eqn:E.
  - apply find_some in E as [Hin He]. apply bool_decide_eq_true_1 in He.
    apply list_elem_of_In, list_elem_of_lookup in Hin as [j Hj]. destruct (block_all j b Hj) as (_ & Hh' & _).
    pose proof (handle_decode _ Hh') as Hd. cbn [snd] in *. rewrite He, (handle_decode h Hh) in Hd. injection Hd as Hd.
    assert (j = i) as -> by (apply (block_unique j i b (l, h)); [done|done|by rewrite <- Hd]).
    rewrite Hi in Hj. by injection Hj as <-.
  - pose proof (find_none _ _ E (l, h) (proj1 (list_elem_of_In _ _) (list_elem_of_lookup_2 _ _ _ Hi))) as Hx.
    by apply bool_decide_eq_false_1 in Hx.
Qed.

Lemma read_stored verify b :
  stored (length_of := length_of) (uncompress := uncompress) (rcontents g) b ->
  exists r, ReadBlock length_of uncompress addr g verify b.2 = (OK, r) /\ block_holds b.1 (bdata r) /\
    (forall v, bdata (ReadBlock length_of uncompress addr g v b.2).2 = bdata r).
Proof.
  intros (_ & _ & raw & Hat & Hb).
  destruct (ReadBlock_at addr g verify b.2 raw Hat file_small) as (r & Hr & Hd). exists r. split; [done|].
  rewrite Hd. split; [done|]. intros v. destruct (ReadBlock_at addr g v b.2 raw Hat file_small) as (r' & -> & Hd'). done.
Qed.

Lemma data_bytes_at i l h :
  blocks !! i = Some (l, h) -> block_holds l (data_bytes (handle_bytes h)).
Proof.
  intros Hi. pose proof (block_all i (l, h) Hi) as Hst. pose proof Hst as (_ & Hh & _).
  unfold data_bytes. rewrite (handle_decode h Hh).
  destruct (read_stored (verifychecksums options) (l, h) Hst) as (r & Hr & Hb & Hv). cbn in *.
  by rewrite (Hv (verifychecksums options)).
Qed.

(** *** Opening *)

Lemma Table_Open_ok :
  exists t raw, Table_Open length_of uncompress addr paranoid g (len (rcontents g)) = (OK, Some t) /\
    tblfile t = g /\ tblmeta t = meta /\ tblindex t = Block_make raw /\ block_holds idx raw.
Proof.
  destruct (tf_footer _ _ _ _ _ _ Htf) as [body Hbody]. pose proof file_small as Hsm.
  destruct (tf_meta _ _ _ _ _ _ Htf) as [Hm _]. destruct (tf_index _ _ _ _ _ _ Htf) as (Hi & raw & Hat & Hb).
  assert (len (rcontents g) = len body + 48) as Hl by (rewrite Hbody, length_app, length_footer_bytes; lia).
  unfold Table_Open. change (Z.of_nat kEncodedLength) with 48. rewrite (proj2 (Z.ltb_ge _ _)) by lia.
  rewrite rread_ok by lia. cbn [ok OK negb].
  assert (take (Z.to_nat 48) (drop (Z.to_nat (len (rcontents g) - 48)) (rcontents g)) =
    footer_bytes (MkFooter meta ih) ++ []) as ->.
  { rewrite Hl, Hbody, app_nil_r. replace (Z.to_nat (len body + 48 - 48)) with (length body) by lia.
    rewrite drop_app_length. apply take_ge. by rewrite length_footer_bytes. }
  rewrite Footer_DecodeFrom_bytes by done. cbn [ok OK negb indexHandle metaindexhandle].
  destruct (ReadBlock_at addr g (verifychecksums (if paranoid then MkReadOptions true (fillcache ReadOptions_make) else ReadOptions_make))
    ih raw Hat file_small) as (r & -> & Hd). cbn [ok OK].
  eexists _, raw. split; [done|]. cbn [tblfile tblmeta tblindex]. by rewrite Hd.
Qed.

Definition is_table (t : Table G) : Prop :=
  tblfile t = g /\ tblmeta t = meta /\ exists raw, tblindex t = Block_make raw /\ block_holds idx raw.

(** *** The two levels *)

Lemma index_refines raw :
  block_holds idx raw -> iter_refines c dom idx (block_at_entry c idx raw) /\
    block_at_entry c idx raw (length idx) (NewIterator c (Block_make raw)).
Proof.
  intros Hb. destruct index_sorted as [Hs Hd]. split; [by apply block_iter_refines|by apply NewIterator_at].
Qed.

Lemma block_sorted i b : blocks !! i = Some b -> all_sorted (c := c) (dom := dom) b.1.
Proof.
  intros Hi. destruct Hall as [Hs Hd].
  assert (es = concat (take i blocks.*1) ++ b.1 ++ concat (drop (S i) blocks.*1)) as E.
  { rewrite <- (tf_es _ _ _ _ _ _ Htf), <- (take_drop_middle blocks.*1 i b.1) at 1;
      [|by rewrite list_lookup_fmap, Hi]. rewrite concat_app. done. }
  rewrite E in Hs, Hd. split.
  - apply StronglySorted_app_1_r in Hs. by apply StronglySorted_app_1_l in Hs.
  - apply Forall_app in Hd as [_ Hd]. by apply Forall_app in Hd as [Hd _].
Qed.

Definition data_at (hb : bytes) : nat -> BIter -> Prop := block_at_entry c (data_list hb) (data_bytes hb).

Lemma data_refines_at i e :
  idx !! i = Some e -> iter_refines c dom (data_list e.2) (data_at e.2) /\
    data_at e.2 (length (data_list e.2)) (NewIterator c (Block_make (data_bytes e.2))).
Proof.
  intros He. destruct (tf_idx _ _ _ _ _ _ Htf i e He) as (l & h & Hb & -> & _).
  rewrite (data_list_at i l h Hb). destruct (block_sorted i (l, h) Hb) as [Hs Hd].
  unfold data_at. rewrite (data_list_at i l h Hb). split; [by apply block_iter_refines|].
  apply NewIterator_at. by eapply data_bytes_at.
Qed.

Lemma data_lists : concat (map (fun e => data_list e.2) idx) = es.
Proof.
  rewrite <- (tf_es _ _ _ _ _ _ Htf). f_equal. apply list_eq. intros i. rewrite !list_lookup_fmap.
  destruct (idx !! i) as [e|] eqn:He.
  - destruct (tf_idx _ _ _ _ _ _ Htf i e He) as (l & h & Hb & Hv & _).
    rewrite Hb. cbn. by rewrite Hv, (data_list_at i l h).
  - rewrite lookup_ge_None_2; [done|]. apply lookup_ge_None in He. by rewrite <- (tf_count _ _ _ _ _ _ Htf).
Qed.

(** *** Point lookups *)

Lemma EncodeFixed64_inj a b : is_u64 a -> is_u64 b -> EncodeFixed64 a = EncodeFixed64 b -> a = b.
Proof.
  intros Ha Hb He. pose proof (DecodeFixed64_app a []) as H1. pose proof (DecodeFixed64_app b []) as H2.
  rewrite He, H2, !u64_small in H1 by done. done.
Qed.

(** The answer to [target]: the first entry not below it; or nothing, when every entry
    is below it or it falls between two neighbours, at or before their separator. *)
Definition get_spec (target : bytes) (found : option entry) : Prop :=
  match found with
  | Some e => exists j, es !! j = Some e /\ lower_bound c es target j
  | None =>
      (forall x, x ∈ es -> Compare c x.1 target = Lt) \/
      (exists i p q, es !! i = Some p /\ es !! S i = Some q /\ Compare c p.1 target = Lt /\
         Compare c target (FindShortestSeparator c p.1 q.1) <> Gt)
  end.

Lemma past_the_index target :
  dom target -> lower_bound c idx target (length idx) ->
  forall x, x ∈ es -> Compare c x.1 target = Lt.
Proof.
  intros Ht [Hlo _] x Hx. destruct (decide (length idx = 0%nat)) as [Hz|Hnz].
  - rewrite <- data_lists in Hx. destruct idx; [|done]. by apply not_elem_of_nil in Hx.
  - destruct (lookup_lt_is_Some_2 idx (length idx - 1) ltac:(lia)) as [e He].
    destruct (index_key _ e He) as (Hde & Hle & _). pose proof (tf_count _ _ _ _ _ _ Htf) as Hc.
    rewrite <- (all_split (length idx - 1)) in Hx.
    assert (beyond blocks (length idx - 1) [] = []) as Hb by (unfold beyond; by rewrite drop_ge by (rewrite length_fmap; lia)).
    rewrite Hb, app_nil_r in Hx.
    apply (Compare_le_lt_trans (dom := dom) _ e.1); auto; [|apply (Hlo (length idx - 1)%nat); [lia|done]].
    apply es_all_dom. by apply (upto_es (length idx - 1)).
Qed.

Section Cached.
Context {K : Type} `{CacheOk K Block valid}.

(** What the cache holds under the offsets of this file's blocks are those blocks. *)
Definition cache_agrees (bc : option K) : Prop :=
  match bc with
  | None => True
  | Some cache => valid cache /\ forall i l h b, blocks !! i = Some (l, h) ->
      clookup cache (EncodeFixed64 (offset h)) = Some b -> b = Block_make (data_bytes (handle_bytes h))
  end.

Lemma Block_size_nonneg contents : 0 <= size (Block_make contents).
Proof. unfold Block_make. cbv zeta. repeat case_match; cbn [size]; lia. Qed.

Lemma stored_offset i l h : blocks !! i = Some (l, h) -> is_u64 (offset h).
Proof. intros Hi. destruct (block_all i (l, h) Hi) as (_ & [Ho _] & _). cbn in Ho. lia. Qed.

Lemma BlockReader_ok bc t i l h :
  cache_agrees bc -> tblfile t = g -> blocks !! i = Some (l, h) ->
  exists reg bc', BlockReader length_of uncompress addr c bc t options (handle_bytes h) =
      Some (MkBlockIter (NewIterator c (Block_make (data_bytes (handle_bytes h)))) reg, bc') /\
    cache_agrees bc' /\ (forall k, reg = Some k -> length k = 8%nat).
Proof.
  intros Hbc Ht Hi. pose proof (block_all i (l, h) Hi) as Hst. pose proof Hst as (_ & Hh & _). cbn [snd] in Hh.
  destruct (read_stored (verifychecksums options) (l, h) Hst) as (r & Hr & _ & Hv). cbn [snd] in Hr, Hv.
  assert (bdata r = data_bytes (handle_bytes h)) as Hd
    by (unfold data_bytes; rewrite (handle_decode h Hh); by rewrite Hv).
  unfold BlockReader. rewrite (handle_decode h Hh), Ht, Hr. cbn [ok OK].
  destruct bc as [cache|]; [|rewrite Hd; exists None, None; by split_and!].
  destruct Hbc as [Hvalid Hag]. unfold GetOffset.
  destruct (clookup cache (EncodeFixed64 (offset h))) as [b|] eqn:El.
  { rewrite (Hag i l h b Hi El). eexists _, _. split; [done|]. split; [done|].
    intros k [= <-]. apply length_EncodeFixed64. }
  rewrite Hd. destruct (cachable r && fillcache options).
  2:{ exists None, (Some cache). by split_and!. }
  destruct (cinsert_ok cache (EncodeFixed64 (offset h)) (Block_make (data_bytes (handle_bytes h)))
    (size (Block_make (data_bytes (handle_bytes h)))) Hvalid) as (cache' & -> & Hvalid' & Hnew);
    [apply length_EncodeFixed64|apply Block_size_nonneg|done|].
  eexists _, (Some cache'). split; [done|]. split; [|intros k [= <-]; apply length_EncodeFixed64].
  split; [done|]. intros j l' h' b Hj Hl'. destruct (Hnew _ _ (length_EncodeFixed64 _) Hl') as [[He ->]|Hold].
  - apply EncodeFixed64_inj in He; [|by eapply stored_offset..].
    pose proof (block_unique j i (l', h') (l, h) Hj Hi He) as ->. by simplify_eq.
  - by eapply Hag.
Qed.

Lemma cleanup_ok (it : BlockIter) (bc : option K) :
  cache_agrees bc -> (forall k, registered it = Some k -> length k = 8%nat) ->
  exists bc', run_cleanup bc it = Some bc' /\ cache_agrees bc'.
Proof.
  intros Hbc Hk. unfold run_cleanup. destruct (registered it) as [k|]; [|by exists bc]. destruct bc as [cache|]; [|by exists None].
  destruct Hbc as [Hvalid Hag].
  destruct (crelease_ok cache k Hvalid (Hk k eq_refl)) as (cache' & -> & Hvalid' & _ & Hless).
  exists (Some cache'). split; [done|]. split; [done|]. intros i l h b Hi Hl.
  apply (Hag i l h b Hi). by apply Hless; [apply length_EncodeFixed64|].
Qed.

(** The block found is the one whose separators enclose the target. *)
Lemma found_in_block i e l h target o :
  dom target -> idx !! i = Some e -> lower_bound c idx target i -> blocks !! i = Some (l, h) ->
  e.2 = handle_bytes h -> lower_bound c l target o -> (o <= length l)%nat -> get_spec target (l !! o).
Proof.
  intros Ht He Hlb Hb Hv Hlo Hol.
  pose proof (concatenated_lower_bound (length idx + 2) c dom idx data_list) as Hcl.
  assert (lower_bound c es target (start idx data_list i + o)) as Hes.
  { rewrite <- data_lists. apply Hcl; try done.
    - destruct index_sorted as [_ Hd]. exact Hd.
    - intros j x y Hx Hy. destruct (tf_idx _ _ _ _ _ _ Htf j x Hx) as (l' & h' & Hb' & Hv' & _).
      rewrite Hv', (data_list_at j l' h' Hb') in Hy. apply es_all_dom, (upto_es j).
      by apply (block_in_upto j j (l', h')).
    - intros j x y Hx Hy. destruct (tf_idx _ _ _ _ _ _ Htf j x Hx) as (l' & h' & Hb' & Hv' & _).
      rewrite Hv', (data_list_at j l' h' Hb') in Hy. apply (index_key j x Hx). by apply (block_in_upto j j (l', h')).
    - intros j k x x' y Hjk Hx Hx' Hy. destruct (tf_idx _ _ _ _ _ _ Htf k x' Hx') as (l' & h' & Hb' & Hv' & _).
      rewrite Hv', (data_list_at k l' h' Hb') in Hy. apply (index_key j x Hx). by apply (block_in_beyond j k (l', h')).
    - apply lookup_lt_Some in He. lia.
    - intros x Hx. simplify_eq. by rewrite Hv, (data_list_at i l h Hb).
    - intros ->. by apply lookup_lt_Some, Nat.lt_irrefl in He. }
  assert (e.2 = handle_bytes h) as Hv2 by done.
  destruct (l !! o) as [x|] eqn:Ex.
  { exists (start idx data_list i + o)%nat. split; [|done]. rewrite <- data_lists.
    apply (concatenated_at (length idx + 2) idx data_list ltac:(lia) i e o x He). by rewrite Hv, (data_list_at i l h Hb). }
  assert (o = length l) as -> by (apply lookup_ge_None in Ex; lia).
  assert (forall x, x ∈ upto blocks i -> Compare c x.1 target = Lt) as Hup.
  { intros x Hx. unfold upto in Hx. pose proof Hx as [j Hj]%list_elem_of_lookup.
    assert (es !! j = Some x) as Hjx by (rewrite <- (all_split i); by apply lookup_app_l_Some).
    destruct Hes as [Hes _]. apply (Hes j); [|done]. apply lookup_lt_Some in Hj.
    assert (start idx data_list i + length l = length (upto blocks i))%nat as ->; [|done].
    unfold upto. pose proof (start_S idx data_list i e He) as HS. rewrite Hv, (data_list_at i l h Hb) in HS.
    rewrite <- HS. unfold start. f_equal. f_equal. apply list_eq. intros m. rewrite list_lookup_fmap.
    destruct (decide (m < S i)%nat) as [Hm|Hm].
    - rewrite !lookup_take_lt, list_lookup_fmap by lia. destruct (idx !! m) as [y|] eqn:Ey.
      + destruct (tf_idx _ _ _ _ _ _ Htf m y Ey) as (l' & h' & Hb' & Hv' & _). rewrite Hb'. cbn.
        by rewrite Hv', (data_list_at m l' h' Hb').
      + apply lookup_ge_None in Ey. apply lookup_lt_Some in He. lia.
    - by rewrite !lookup_take_ge by lia. }
  destruct (tf_idx _ _ _ _ _ _ Htf i e He) as (l' & h' & Hb' & _ & Hsep). simplify_eq.
  assert (Compare c target e.1 <> Gt) as Hle.
  { destruct Hlb as [_ Hge]. specialize (Hge e He). destruct (index_key i e He) as (Hde & _).
    intros Hgt. apply Hge. by apply (Compare_gt_lt (dom := dom)). }
  cbn. destruct Hsep as [(p & q & Hp & Hq & Hs)|[Hlast (p & Hp & _)]].
  - right. exists (pred (length (upto blocks i))), p, q. rewrite last_lookup in Hp.
    assert (0 < length (upto blocks i))%nat as Hpos by (apply lookup_lt_Some in Hp; lia).
    rewrite <- (all_split i). split; [by apply lookup_app_l_Some|].
    split; [rewrite lookup_app_r by lia; replace (S (pred (length (upto blocks i))) - length (upto blocks i))%nat with 0%nat by lia; by destruct (beyond blocks i [])|].
    split; [apply Hup; by eapply list_elem_of_lookup_2|]. by rewrite <- Hs.
  - left. intros x Hx. apply Hup. rewrite <- (all_split i) in Hx.
    assert (beyond blocks i [] = []) as Hbe by (unfold beyond; by rewrite drop_ge by (rewrite length_fmap; lia)).
    by rewrite Hbe, app_nil_r in Hx.
Qed.

Lemma InternalGet_ok t (bc : option K) target :
  is_table t -> cache_agrees bc -> dom target ->
  exists found bc', InternalGet length_of uncompress addr c bc t options target = Some (OK, found, bc') /\
    get_spec target found /\ cache_agrees bc'.
Proof.
  intros (Htg & Htm & raw & Hti & Hraw) Hbc Ht. unfold InternalGet. rewrite Hti.
  destruct (index_refines raw Hraw) as [Hir Hat0].
  destruct (ir_seek _ _ _ _ Hir _ _ target Hat0 Ht) as (it & i & -> & Hit & Hlb).
  rewrite (ir_valid _ _ _ _ Hir i it Hit), (ir_status _ _ _ _ Hir i it Hit).
  pose proof (ir_le _ _ _ _ Hir i it Hit) as Hile.
  destruct (Nat.ltb_spec i (length idx)) as [Hi|Hi].
  2:{ assert (i = length idx) as -> by lia. exists None, bc. split; [done|]. split; [left; by apply past_the_index|done]. }
  destruct (lookup_lt_is_Some_2 idx i Hi) as [e He].
  destruct (ir_entry _ _ _ _ Hir i it e Hit He) as [_ ->].
  destruct (tf_idx _ _ _ _ _ _ Htf i e He) as (l & h & Hb & Hv & _).
  destruct (BlockReader_ok bc t i l h Hbc Htg Hb) as (reg & bc1 & Hbr & Hbc1 & Hreg). rewrite Hv, Hbr.
  destruct (data_refines_at i e He) as [Hdr Hd0]. rewrite Hv in Hdr, Hd0. rewrite (data_list_at i l h Hb) in Hdr, Hd0.
  destruct (ir_seek _ _ _ _ Hdr _ _ target Hd0 Ht) as (bi & o & Hseek & Hbi & Hlo).
  cbn [iterSeek BlockIter_iter]. unfold on_blockiter. cbn [blockiter registered mbind option_bind]. rewrite Hseek.
  cbn [mbind option_bind iterValid iterkey itervalue iterstatus BlockIter_iter blockiter].
  rewrite (ir_valid _ _ _ _ Hdr o bi Hbi), (ir_status _ _ _ _ Hdr o bi Hbi).
  pose proof (ir_le _ _ _ _ Hdr o bi Hbi) as Hol.
  destruct (cleanup_ok (MkBlockIter bi reg) bc1 Hbc1 Hreg) as (bc2 & -> & Hbc2). cbn [ok OK].
  exists (l !! o), bc2. split; [|split; [by apply (found_in_block i e l h target o)|done]].
  destruct (Nat.ltb_spec o (length l)) as [Ho|Ho].
  - destruct (lookup_lt_is_Some_2 l o Ho) as [x Hx]. rewrite Hx.
    destruct (ir_entry _ _ _ _ Hdr o bi x Hbi Hx) as [-> ->]. by destruct x.
  - by rewrite lookup_ge_None_2.
Qed.
(** *** Iteration *)

(** A block iterator with its cleanup walks what the block iterator walks. *)
Lemma block_iter_walks (P : option bytes -> Prop) l at_ :
  iter_refines c dom l at_ -> iter_refines c dom l (fun o x => at_ o (blockiter x) /\ P (registered x)).
Proof.
  intros Hr.
  assert (forall f x it' o, f (blockiter x) = Some it' -> at_ o it' -> P (registered x) ->
    exists x', on_blockiter f x = Some x' /\ at_ o (blockiter x') /\ P (registered x')) as Hon.
  { intros f x it' o Hf Ho Hp. exists (MkBlockIter it' (registered x)). unfold on_blockiter. by rewrite Hf. }
  constructor.
  - intros i x [Ha _]. by apply (ir_le _ _ _ _ Hr i (blockiter x)).
  - intros i x [Ha _]. by apply (ir_valid _ _ _ _ Hr).
  - intros i x [Ha _]. by apply (ir_status _ _ _ _ Hr i (blockiter x)).
  - intros i x e [Ha _] He. by apply (ir_entry _ _ _ _ Hr i (blockiter x)).
  - intros i x [Ha Hp]. destruct (ir_first _ _ _ _ Hr i _ Ha) as (it' & Hf & Ha'). by apply (Hon _ x it').
  - intros i x [Ha Hp]. destruct (ir_last _ _ _ _ Hr i _ Ha) as (it' & Hf & Ha'). by apply (Hon _ x it').
  - intros i x [Ha Hp] Hi. destruct (ir_next _ _ _ _ Hr i _ Ha Hi) as (it' & Hf & Ha'). by apply (Hon _ x it').
  - intros i x [Ha Hp] Hi. destruct (ir_prev _ _ _ _ Hr i _ Ha Hi) as (it' & Hf & Ha'). by apply (Hon _ x it').
  - intros i x target [Ha Hp] Ht. destruct (ir_seek _ _ _ _ Hr i _ target Ha Ht) as (it' & j & Hf & Ha' & Hj).
    destruct (Hon (fun it => iterSeek it target) x it' j Hf Ha' Hp) as (x' & Hx & Hax). by exists x', j.
Qed.

(** The iterator of the table, over a block cache of which [shared_ok] holds: [P] is what
    holds of the keys that its cleanups give back. *)
Lemma table_iter_walks (shared_ok : option K -> Prop) (P : option bytes -> Prop) t fuel bc :
  (forall i l h w, blocks !! i = Some (l, h) -> shared_ok w ->
     exists reg w', BlockReader length_of uncompress addr c w t options (handle_bytes h) =
         Some (MkBlockIter (NewIterator c (Block_make (data_bytes (handle_bytes h)))) reg, w') /\ shared_ok w' /\ P reg) ->
  (forall it w, P (registered it) -> shared_ok w -> exists w', run_cleanup w it = Some w' /\ shared_ok w') ->
  is_table t -> (length idx + 2 <= fuel)%nat -> shared_ok bc ->
  exists ti (at_ : nat -> TableIterator -> Prop), Table_NewIterator c t bc = Some ti /\ at_ (length es) ti /\
    @iter_refines _ (Table_iter length_of uncompress addr c t options fuel) c dom es at_ /\
    forall i x, at_ i x -> shared_ok (world x) /\ exists w, forget_data run_cleanup x = Some w /\ shared_ok w.
Proof.
  intros Hread Hclean (Htg & Htm & raw & Hti & Hraw) Hf Hbc. unfold Table_NewIterator. rewrite Hti.
  destruct (index_refines raw Hraw) as [Hir Hat0].
  set (block_at hb o (x : BlockIter) := data_at hb o (blockiter x) /\ P (registered x)).
  destruct (two_level_make (I2 := BlockIter) idx (block_at_entry c idx raw) data_list block_at shared_ok _ _ bc Hbc Hat0) as (ti & -> & Hti').
  exists ti, (two_level_at idx (block_at_entry c idx raw) data_list block_at shared_ok).
  unfold concatenated in Hti'. rewrite data_lists in Hti'. split; [done|]. split; [done|].
  assert (forall i e o (it : BlockIter) w, idx !! i = Some e -> block_at e.2 o it -> shared_ok w ->
    exists w', run_cleanup w it = Some w' /\ shared_ok w') as Hcl by (intros i e o it w _ [_ Hp]; by apply Hclean).
  split; [|intros i x Hx; split; [by apply two_level_loose in Hx as ([_ Hw] & _)|by eapply two_level_forget]].
  pose proof (two_level_iter (fun w v => BlockReader length_of uncompress addr c w t options v) run_cleanup fuel c dom idx
    (block_at_entry c idx raw) data_list block_at shared_ok Hir) as Htl.
  unfold concatenated in Htl. rewrite data_lists in Htl. apply Htl; try done.
  - intros i e He. apply block_iter_walks, (data_refines_at i e He).
  - intros i e w He Hw. destruct (data_refines_at i e He) as [_ Hd0].
    destruct (tf_idx _ _ _ _ _ _ Htf i e He) as (l & h & Hb & Hv & _). rewrite Hv in Hd0 |- *.
    destruct (Hread i l h w Hb Hw) as (reg & w' & -> & Hw' & Hp). eexists _, w', _. split; [done|]. split; [done|]. by split; [apply Hd0|].
  - apply index_sorted.
  - intros j x y Hx Hy. destruct (tf_idx _ _ _ _ _ _ Htf j x Hx) as (l' & h' & Hb' & Hv' & _).
    rewrite Hv', (data_list_at j l' h' Hb') in Hy. apply es_all_dom, (upto_es j). by apply (block_in_upto j j (l', h')).
  - intros j x y Hx Hy. destruct (tf_idx _ _ _ _ _ _ Htf j x Hx) as (l' & h' & Hb' & Hv' & _).
    rewrite Hv', (data_list_at j l' h' Hb') in Hy. apply (index_key j x Hx). by apply (block_in_upto j j (l', h')).
  - intros j k x x' y Hjk Hx Hx' Hy. destruct (tf_idx _ _ _ _ _ _ Htf k x' Hx') as (l' & h' & Hb' & Hv' & _).
    rewrite Hv', (data_list_at k l' h' Hb') in Hy. apply (index_key j x Hx). by apply (block_in_beyond j k (l', h')).
Qed.

(** No data block of the file is put in the cache: blocks of mapped files that are not
    compressed are not, and none is when the caller does not want the cache filled. *)
Definition keeps_out : Prop := forall i l h, blocks !! i = Some (l, h) ->
  cachable (ReadBlock length_of uncompress addr g (verifychecksums options) h).2 && fillcache options = false.

Lemma not_filled : fillcache options = false -> keeps_out.
Proof. intros Hno i l h _. by rewrite Hno, andb_false_r. Qed.

(** So it is for a mapped file in a program built without Snappy. *)
Lemma mapped_not_kept : direct g = true -> (forall x, length_of x = None) -> keeps_out.
Proof.
  intros Hg Hno i l h _. apply andb_false_iff. left. unfold ReadBlock. rewrite Hg.
  repeat (case_match; simplify_eq; try done). all: rewrite Hno in *; done.
Qed.

(** The cache [w] holds nothing that [bc] does not hold. *)
Definition holds_no_more (bc w : option K) : Prop :=
  match bc, w with
  | None, None => True
  | Some k, Some k' => valid k' /\ forall key v, length key = 8%nat -> clookup k' key = Some v -> clookup k key = Some v
  | _, _ => False
  end.

Lemma holds_no_more_agrees bc w : cache_agrees bc -> holds_no_more bc w -> cache_agrees w.
Proof.
  destruct bc as [k|], w as [k'|]; try done. intros [_ Hag] [Hv Hless]. split; [done|]. intros i l h b Hi Hl.
  apply (Hag i l h b Hi). by apply Hless; [apply length_EncodeFixed64|].
Qed.

Lemma cleanup_less bc (it : BlockIter) w :
  holds_no_more bc w -> (forall k, registered it = Some k -> length k = 8%nat) ->
  exists w', run_cleanup w it = Some w' /\ holds_no_more bc w'.
Proof.
  intros Hw Hk. unfold run_cleanup. destruct (registered it) as [k|]; [|by exists w]. destruct w as [cache|]; [|by exists None].
  destruct bc as [c0|]; [|done]. destruct Hw as [Hvalid Hle].
  destruct (crelease_ok cache k Hvalid (Hk k eq_refl)) as (cache' & -> & Hvalid' & _ & Hless).
  exists (Some cache'). split; [done|]. split; [done|]. intros key v Hkey Hv. apply Hle; [done|]. by apply Hless.
Qed.

(** Over any cache that agrees with the file, which goes on agreeing; it holds nothing
    more when the blocks are not kept in it. *)
Lemma table_iter_agrees t fuel bc :
  is_table t -> (length idx + 2 <= fuel)%nat -> cache_agrees bc ->
  exists ti (at_ : nat -> TableIterator -> Prop), Table_NewIterator c t bc = Some ti /\ at_ (length es) ti /\
    @iter_refines _ (Table_iter length_of uncompress addr c t options fuel) c dom es at_ /\
    forall i x, at_ i x -> cache_agrees (world x) /\
      exists w, forget_data run_cleanup x = Some w /\ cache_agrees w /\ (keeps_out -> holds_no_more bc w).
Proof.
  intros Ht Hf Hbc.
  destruct (table_iter_walks (fun w => cache_agrees w /\ (keeps_out -> holds_no_more bc w))
    (fun reg => forall k, reg = Some k -> length k = 8%nat) t fuel bc) as (ti & at_ & Hn & Ha & Hr & Hw); try done.
  - intros i l h w Hb [Hw Hless]. destruct (BlockReader_ok w t i l h Hw (proj1 Ht) Hb) as (reg & w' & Hread & Hw' & Hreg).
    exists reg, w'. split; [done|]. split; [|done]. split; [done|]. intros Hout. specialize (Hless Hout).
    pose proof (block_all i (l, h) Hb) as Hst. pose proof Hst as (_ & Hh & _). cbn [snd] in Hh.
    specialize (Hout i l h Hb). revert Hread. unfold BlockReader. destruct Ht as [Htg _]. rewrite (handle_decode h Hh), Htg. cbn [ok OK].
    destruct w as [cache|]; [|repeat case_match; congruence]. destruct (clookup cache _); [congruence|].
    destruct (ReadBlock _ _ _ _ _ _) as [s contents]. cbn [snd] in Hout. rewrite Hout. destruct (ok s); congruence.
  - intros it w Hp [Hw Hless]. destruct (cleanup_ok it w Hw Hp) as (w' & Hc & Hw'). exists w'. split; [done|]. split; [done|].
    intros Hout. destruct (cleanup_less bc it w (Hless Hout) Hp) as (w2 & Hc2 & Hl2). congruence.
  - split; [done|]. intros _. destruct bc as [k|]; [|done]. by split; [apply Hbc|].
  - exists ti, at_. split; [done|]. split; [done|]. split; [done|]. intros i x Hx. destruct (Hw i x Hx) as ([H1' _] & w & Hfw & Hw').
    split; [done|]. by exists w.
Qed.

(** A cache that holds nothing. *)
Definition no_blocks (bc : option K) : Prop :=
  match bc with
  | None => True
  | Some k => valid k /\ forall key, length key = 8%nat -> clookup k key = None
  end.

Lemma no_blocks_agree bc : no_blocks bc -> cache_agrees bc.
Proof.
  destruct bc as [k|]; [|done]. intros [Hv Hempty]. split; [done|]. intros i l h b _ Hl.
  by rewrite Hempty in Hl by apply length_EncodeFixed64.
Qed.

(** Then an iterator over a cache that holds nothing leaves it as it is. *)
Lemma table_iter_apart t fuel bc :
  is_table t -> (length idx + 2 <= fuel)%nat -> no_blocks bc -> keeps_out ->
  exists ti (at_ : nat -> TableIterator -> Prop), Table_NewIterator c t bc = Some ti /\ at_ (length es) ti /\
    @iter_refines _ (Table_iter length_of uncompress addr c t options fuel) c dom es at_ /\
    forall i x, at_ i x -> world x = bc /\ forget_data run_cleanup x = Some bc.
Proof.
  intros Ht Hf Hbc Hout.
  destruct (table_iter_walks (fun w => w = bc) (fun reg => reg = None) t fuel bc) as (ti & at_ & Hn & Ha & Hr & Hw); try done.
  - intros i l h w Hb ->. pose proof (block_all i (l, h) Hb) as Hst. pose proof Hst as (_ & Hh & _). cbn [snd] in Hh.
    destruct (read_stored (verifychecksums options) (l, h) Hst) as (r & Hr & _ & Hv). cbn [snd] in Hr, Hv.
    assert (bdata r = data_bytes (handle_bytes h)) as Hd
      by (unfold data_bytes; rewrite (handle_decode h Hh); by rewrite Hv).
    specialize (Hout i l h Hb). rewrite Hr in Hout. cbn [snd] in Hout.
    exists None, bc. split; [|done]. unfold BlockReader. destruct Ht as [Htg _].
    rewrite (handle_decode h Hh), Htg, Hr. cbn [ok OK]. destruct bc as [cache|]; [|by rewrite Hd].
    destruct Hbc as [_ Hempty]. unfold GetOffset. rewrite Hempty by apply length_EncodeFixed64. by rewrite Hout, Hd.
  - intros it w Hp ->. exists bc. unfold run_cleanup. by rewrite Hp.
  - exists ti, at_. split; [done|]. split; [done|]. split; [done|]. intros i x Hx. destruct (Hw i x Hx) as (H1' & w & H2' & ->). done.
Qed.
End Cached.

(** *** Offsets *)

Lemma approximate_ok t target :
  is_table t -> dom target ->
  exists off, ApproximateOffsetOf c t target = Some off /\ 0 <= off < len (rcontents g) /\
    ((exists i b, blocks !! i = Some b /\ off = offset b.2 /\
       (forall x, x ∈ concat (take i blocks.*1) -> Compare c x.1 target = Lt) /\
       forall x, x ∈ beyond blocks i [] -> Compare c target x.1 = Lt) \/
     (off = offset meta /\ forall x, x ∈ es -> Compare c x.1 target = Lt)).
Proof.
  intros (Htg & Htm & raw & Hti & Hraw) Ht. unfold ApproximateOffsetOf. rewrite Hti, Htm.
  destruct (index_refines raw Hraw) as [Hir Hat0].
  destruct (ir_seek _ _ _ _ Hir _ _ target Hat0 Ht) as (it & i & -> & Hit & Hlb).
  rewrite (ir_valid _ _ _ _ Hir i it Hit). pose proof (ir_le _ _ _ _ Hir i it Hit) as Hile.
  destruct (tf_meta _ _ _ _ _ _ Htf) as [_ Hmo].
  destruct (Nat.ltb_spec i (length idx)) as [Hi|Hi].
  2:{ assert (i = length idx) as -> by lia. eexists. split; [done|]. split; [done|]. right. split; [done|].
      by apply past_the_index. }
  destruct (lookup_lt_is_Some_2 idx i Hi) as [e He].
  destruct (ir_entry _ _ _ _ Hir i it e Hit He) as [_ ->].
  destruct (tf_idx _ _ _ _ _ _ Htf i e He) as (l & h & Hb & Hv & _).
  pose proof (block_all i (l, h) Hb) as (_ & Hh & rw & Hat & _). cbn [snd] in Hh, Hat.
  rewrite Hv, (handle_decode h Hh). cbn [ok OK]. unfold GetOffset. eexists. split; [done|].
  split; [apply block_at_handle in Hat; lia|]. left. exists i, (l, h). split; [done|]. split; [done|].
  destruct (index_key i e He) as (Hde & _ & Hlt). split.
  - intros x Hx. destruct i as [|i]; [by apply not_elem_of_nil in Hx|].
    destruct (lookup_lt_is_Some_2 idx i ltac:(lia)) as [e' He']. destruct (index_key i e' He') as (Hde' & Hle' & _).
    apply (Compare_le_lt_trans (dom := dom) _ e'.1); auto; [by apply es_all_dom, (upto_es i)|].
    destruct Hlb as [Hlo _]. apply (Hlo i); [lia|done].
  - intros x Hx. apply (Compare_le_lt_trans (dom := dom) _ e.1); auto; [by apply es_all_dom, (beyond_es i)|].
    destruct Hlb as [_ Hge]. specialize (Hge e He). intros Hgt. apply Hge. by apply (Compare_gt_lt (dom := dom)).
Qed.
End TableRead.

(** ** Theorems *)

(** C1: a table is the sorted list it was built from.  Entries with increasing keys go
    through [Add] and [Finish] with no assert failing and status [OK], when the file is
    healthy (its appends and flushes succeed); the file is as long as [filesize] says; and
    any file with those bytes whose reads succeed opens as a table, whose data blocks hold
    the entries one after the other, that
    - answers [InternalGet] of every key with the first entry not below it, or with
      nothing when all entries are below it or it falls between two neighbours at or
      before their separator;
    - iterates, reading its blocks with [BlockReader], over exactly the entries, in both
      directions and by [Seek], and can be destroyed at any point;
    - estimates for every key an offset inside the file.
    The lookups and the iterator run with no block cache, or over any lawful one that
    agrees with the file - whatever it holds under the offset of a data block of this file
    is that block, as when it is empty - and such a cache goes on agreeing.  (The cache is
    keyed by the offset alone, so that a cache shared with other tables agrees only while
    it holds none of their blocks at these offsets.)  For all block sizes, restart
    intervals and with or without compression. *)
Theorem table_refines {c dom} {Hok : ComparatorOk c dom} {Hshort : ComparatorShort c dom}
    {F} `{AppendFileOk F} {G} `{RandomFileOk G} {K} `{CacheOk K Block valid}
    {compress length_of uncompress} {Hsnappy : SnappyOk compress length_of uncompress}
    interval blocksize compression addr addr' paranoid (f : F) es :
  1 <= interval -> healthy f -> contents f = [] -> StronglySorted (key_lt (c := c)) es ->
  Forall (fun e => dom e.1) es -> weight es + 300 < 2 ^ 32 ->
  exists b b', Add_all (c := c) (compress := compress) interval blocksize compression addr (TableBuilder_make f) es = Some b /\
    TableBuilder_Finish compress c compression addr b = Some b' /\
    tstatus b' = OK /\ filesize b' = len (contents (tfile b')) /\
    forall (g : G) options, rcontents g = contents (tfile b') ->
    exists t blocks,
      Table_Open length_of uncompress addr' paranoid g (filesize b') = (OK, Some t) /\
      concat blocks.*1 = es /\ Forall (stored (length_of := length_of) (uncompress := uncompress) (rcontents g)) blocks /\
      let agrees := cache_agrees (length_of := length_of) (uncompress := uncompress) (valid := valid) addr' options g blocks in
      (forall bc, no_blocks (valid := valid) bc -> agrees bc) /\
      (forall bc target, agrees bc -> dom target ->
         exists found bc', InternalGet length_of uncompress addr' c bc t options target = Some (OK, found, bc') /\
           get_spec (c := c) es target found /\ agrees bc') /\
      (forall bc fuel, agrees bc -> (length es + 2 <= fuel)%nat ->
         exists ti (at_ : nat -> TableIterator -> Prop), Table_NewIterator c t bc = Some ti /\ at_ (length es) ti /\
           @iter_refines _ (Table_iter length_of uncompress addr' c t options fuel) c dom es at_ /\
           forall i x, at_ i x -> agrees (world x) /\ exists bc', forget_data run_cleanup x = Some bc' /\ agrees bc') /\
      (forall target, dom target -> exists off, ApproximateOffsetOf c t target = Some off /\ 0 <= off < filesize b').
Proof.
  intros Hint Hf Hc Hs Hd Hw.
  destruct (table_built (c := c) (compress := compress) interval blocksize compression addr Hint f es Hf Hc (conj Hs Hd) Hw)
    as (b & b' & blocks & idx & meta & ih & Hadd & Hfin & Hst & Hcl & _ & Hsz & Htf).
  exists b, b'. split; [done|]. split; [done|]. split; [done|]. split; [done|]. intros g options Hg.
  rewrite <- Hg in Htf.
  destruct (Table_Open_ok addr' paranoid es g blocks idx meta ih Htf) as (t & raw & Ho & Ht1 & Ht2 & Ht3 & Hraw).
  assert (is_table g idx meta t) as Hist by (split; [done|]; split; [done|]; by exists raw).
  pose proof (index_le_entries es g blocks idx meta ih Htf) as Hidx.
  exists t, blocks. rewrite Hsz, <- Hg. split; [done|]. split; [apply Htf|]. split; [apply Htf|]. split; [|split; [|split]].
  - intros bc Hbc. by eapply no_blocks_agree.
  - intros bc target Hbc Ht. by eapply (InternalGet_ok (dom := dom)).
  - intros bc fuel Hbc Hfuel. destruct (table_iter_agrees (dom := dom) addr' options es g blocks idx meta ih Htf (conj Hs Hd) t fuel bc Hist)
      as (ti & at_ & Hn & Ha & Hr & Hleft); [lia|done|]. exists ti, at_. split; [done|]. split; [done|]. split; [done|].
    intros i x Hx. destruct (Hleft i x Hx) as (Hwx & w & Hfw & Hag & _). split; [done|]. by exists w.
  - intros target Ht. destruct (approximate_ok (dom := dom) es g blocks idx meta ih Htf (conj Hs Hd) t target Hist Ht)
      as (off & Ha & Hr & _). by exists off.
Qed.

Definition demo_table : list entry := [(str "apple", str "1"); (str "banana", str "2"); (str "cherry", str "3")].

Definition empty_file : WritableFile := MkWritableFile [] [] [] (str "000005.ldb").

Lemma table_refines_witness :
  exists b b', Add_all (c := BytewiseComparatorImpl) (H := WritableFile_append (fun _ => [])) (compress := run_compress)
      2 16 kSnappyCompression 0 (TableBuilder_make empty_file) demo_table = Some b /\
    TableBuilder_Finish (H := WritableFile_append (fun _ => [])) run_compress BytewiseComparatorImpl kSnappyCompression 0 b = Some b' /\
    tstatus b' = OK.
Proof.
  destruct (table_refines (c := BytewiseComparatorImpl) (dom := fun _ => True) (F := WritableFile)
    (H := WritableFile_append (fun _ => [])) (G := MmapFile) (H1 := MmapFile_random (fun _ => []))
    (K := ShardedLRUCache) (H3 := Sharded_cache (fun _ => 0)) (H4 := Sharded_ok (fun _ => 0)) (compress := run_compress)
    (length_of := run_length) (uncompress := run_uncompress)
    2 16 kSnappyCompression 0 0 true empty_file demo_table) as (b & b' & H1 & H2 & H3 & _).
  - lia.
  - constructor.
  - reflexivity.
  - repeat constructor.
  - repeat constructor.
  - vm_compute. reflexivity.
  - exists b, b'. split; [exact H1|]. split; [exact H2|exact H3].
Defined.

(** Looking up internal keys, as the database does: the newest entry of [u] with a
    sequence number at most [s]. *)
Definition seek_key (u : bytes) (s : Z) : bytes :=
  AppendInternalKey [] (MkParsedInternalKey u s kValueTypeForSeek).

Definition entry_of (e : ParsedInternalKey * bytes) : entry := (AppendInternalKey [] e.1, e.2).

Lemma seek_key_order u s k :
  0 <= s <= kMaxSequenceNumber -> 0 <= sequence k <= kMaxSequenceNumber ->
  userkey k = u -> sequence k <= s ->
  Internal_Compare BytewiseComparatorImpl (seek_key u s) (AppendInternalKey [] k) <> Gt.
Proof.
  intros Hs Hk Hu Hle. unfold seek_key. rewrite Internal_Compare_Append by done.
  unfold entry_compare. cbn [userkey sequence type Compare BytewiseComparatorImpl]. rewrite Hu, compare_refl.
  destruct (Z.compare_spec (sequence k) s); [|done|lia]. by destruct (type k).
Qed.

(** A separator that the seek key does not pass parts it from all that follows. *)
Lemma separator_parts u s p q :
  0 <= s <= kMaxSequenceNumber -> internal_dom p -> internal_dom q ->
  Internal_Compare BytewiseComparatorImpl p q = Lt ->
  Internal_Compare BytewiseComparatorImpl p (seek_key u s) = Lt ->
  Internal_Compare BytewiseComparatorImpl (seek_key u s) (Internal_FindShortestSeparator BytewiseComparatorImpl p q) <> Gt ->
  compare u (ExtractUserKey q) = Lt.
Proof.
  intros Hs Hp Hq Hpq Hpt Hle. revert Hle. unfold Internal_FindShortestSeparator. cbv zeta.
  set (tmp := FindShortestSeparator _ _ _). destruct (_ && _) eqn:E.
  2:{ intros Hle. exfalso. apply Hle. rewrite Internal_opp, Hpt. done. }
  apply andb_true_iff in E as [_ E]. intros Hle.
  destruct (Compare BytewiseComparatorImpl (ExtractUserKey p) tmp) eqn:Htmp; try done.
  assert (compare tmp (ExtractUserKey q) = Lt) as Hlt.
  { rewrite Internal_Compare_alt in Hpq.
    destruct (Compare BytewiseComparatorImpl (ExtractUserKey p) (ExtractUserKey q)) eqn:Epq; try done.
    - subst tmp. rewrite (separator_same (dom := fun _ => True)) in Htmp by done. cbn in Htmp. by rewrite compare_refl in Htmp.
    - apply (separator_ok (c := BytewiseComparatorImpl) (dom := fun _ => True) (ExtractUserKey p) (ExtractUserKey q) I I Epq). }
  rewrite Internal_Compare_alt in Hle. unfold seek_key in Hle. rewrite ExtractUserKey_Append in Hle.
  unfold PutFixed64 in Hle. rewrite ExtractUserKey_app in Hle by apply length_EncodeFixed64.
  cbn [userkey Compare BytewiseComparatorImpl] in Hle.
  destruct (compare u tmp) eqn:Eu; [apply compare_eq in Eu; by subst|by apply (compare_lt_trans u tmp)|done].
Qed.

(** A table of internal keys answers for a snapshot.  In a sorted table of internal
    keys, what a lookup of ([u], [s]) may be told by [get_spec] is: when the entry found
    has the user key [u], it is the newest entry of [u] not newer than [s]; otherwise,
    and when nothing is found, the table has no entry of [u] visible at [s] - the
    shortened separators of the index hide nothing. *)
Lemma table_newest (es : list (ParsedInternalKey * bytes)) u s found :
  Forall (fun e => 0 <= sequence e.1 <= kMaxSequenceNumber) es -> 0 <= s <= kMaxSequenceNumber ->
  StronglySorted (key_lt (c := InternalKeyComparator BytewiseComparatorImpl)) (map entry_of es) ->
  get_spec (c := InternalKeyComparator BytewiseComparatorImpl) (map entry_of es) (seek_key u s) found ->
  let visible e := e ∈ es /\ userkey e.1 = u /\ sequence e.1 <= s in
  match found with
  | Some x => exists e, x = entry_of e /\ e ∈ es /\
      (if decide (userkey e.1 = u) then
         sequence e.1 <= s /\ forall e', visible e' -> sequence e'.1 <= sequence e.1
       else forall e', ~ visible e')
  | None => forall e', ~ visible e'
  end.
Proof.
  intros Hseq Hs Hso Hget visible. rewrite Forall_forall in Hseq.
  assert (forall j x, map entry_of es !! j = Some x -> exists e, es !! j = Some e /\ x = entry_of e) as Hlk.
  { intros j x Hx. rewrite list_lookup_fmap in Hx. apply fmap_Some in Hx as (e & He & ->). by exists e. }
  assert (forall e', visible e' -> Internal_Compare BytewiseComparatorImpl (entry_of e').1 (seek_key u s) <> Lt) as Hvis.
  { intros e' (Hin & Hu & Hle) Hlt. apply (seek_key_order u s e'.1); auto. unfold entry_of in Hlt. cbn [fst] in Hlt.
    by rewrite Internal_opp, Hlt. }
  assert (forall j e e', es !! j = Some e -> (forall m x, (m < j)%nat -> map entry_of es !! m = Some x ->
      Internal_Compare BytewiseComparatorImpl x.1 (seek_key u s) = Lt) -> visible e' ->
      entry_compare BytewiseComparatorImpl e.1 e'.1 <> Gt) as Hfirst.
  { intros j e e' He Hlo Hv. pose proof Hv as (Hin & Hu & Hle). apply list_elem_of_lookup in Hin as [m Hm].
    assert (map entry_of es !! m = Some (entry_of e')) as Hm' by (by rewrite list_lookup_fmap, Hm).
    assert (map entry_of es !! j = Some (entry_of e)) as Hj' by (by rewrite list_lookup_fmap, He).
    rewrite <- Internal_Compare_Append by (by apply Hseq; eapply list_elem_of_lookup_2).
    destruct (Nat.lt_total m j) as [Hl|[->|Hl]].
    - exfalso. apply (Hvis e' Hv). by apply (Hlo m).
    - simplify_eq. by rewrite Internal_refl.
    - pose proof (sorted_lookup _ _ j m _ _ Hso Hl Hj' Hm') as Hlt.
      change (Internal_Compare BytewiseComparatorImpl (AppendInternalKey [] e.1) (AppendInternalKey [] e'.1) = Lt) in Hlt.
      by rewrite Hlt. }
  destruct found as [x|]; [destruct Hget as (j & Hx & Hlo & Hhi)|destruct Hget as [Hall|(i & p & q & Hp & Hq & Hpt & Hle)]].
  - destruct (Hlk j x Hx) as (e & He & ->). exists e. split; [done|]. split; [by eapply list_elem_of_lookup_2|].
    pose proof (Hseq e (list_elem_of_lookup_2 _ _ _ He)) as Hse. specialize (Hhi _ Hx).
    unfold entry_of, seek_key in Hhi. cbn [fst Compare InternalKeyComparator] in Hhi.
    rewrite Internal_Compare_Append in Hhi by done. unfold entry_compare in Hhi. cbn [userkey sequence] in Hhi.
    case_decide as Hu.
    + rewrite Hu in Hhi. cbn [Compare BytewiseComparatorImpl] in Hhi. rewrite compare_refl in Hhi.
      destruct (Z.compare_spec s (sequence e.1)); try done.
      all: split; [lia|]; intros e' Hv; pose proof (Hfirst j e e' He Hlo Hv) as Hf; destruct Hv as (Hin & Hu' & Hle);
        unfold entry_compare in Hf; cbn [Compare BytewiseComparatorImpl] in Hf; rewrite Hu, Hu', compare_refl in Hf;
        destruct (Z.compare_spec (sequence e'.1) (sequence e.1)); [lia|lia|done].
    + intros e' Hv. pose proof (Hfirst j e e' He Hlo Hv) as Hf. destruct Hv as (Hin & Hu' & Hle).
      unfold entry_compare in Hf. rewrite Hu' in Hf. cbn [Compare BytewiseComparatorImpl] in Hf, Hhi.
      destruct (compare (userkey e.1) u) eqn:E; try done. by apply compare_eq in E.
  - intros e' Hv. apply (Hvis e' Hv). apply (Hall (entry_of e')). destruct Hv as (Hin & _).
    apply list_elem_of_fmap. by exists e'.
  - intros e' Hv. destruct (Hlk _ _ Hp) as (ep & Hep & ->). destruct (Hlk _ _ Hq) as (eq & Heq & ->).
    assert (internal_dom (entry_of ep).1 /\ internal_dom (entry_of eq).1) as [Hd1 Hd2]
      by (unfold entry_of; cbn [fst]; rewrite !length_AppendInternalKey; lia).
    pose proof (sorted_lookup _ _ i (S i) _ _ Hso ltac:(lia) Hp Hq) as Hpq.
    pose proof (separator_parts u s _ _ Hs Hd1 Hd2 Hpq Hpt Hle) as Hlt.
    unfold entry_of in Hlt. cbn [fst] in Hlt. rewrite ExtractUserKey_Append in Hlt.
    pose proof (Hfirst (S i) eq e' Heq) as Hf. pose proof Hv as (Hin & Hu & _).
    assert (entry_compare BytewiseComparatorImpl eq.1 e'.1 <> Gt) as Hle'.
    { apply Hf; [|done]. intros m x Hm Hx. destruct (decide (m = i)) as [->|]; [by simplify_eq|].
      pose proof (sorted_lookup _ _ m i _ _ Hso ltac:(lia) Hx Hp) as Hlt'.
      by apply (Internal_lt_trans _ (entry_of ep).1). }
    unfold entry_compare in Hle'. cbn [Compare BytewiseComparatorImpl] in Hle'. rewrite Hu in Hle'.
    rewrite compare_opp, Hlt in Hle'. by apply Hle'.
Qed.

Definition demo_internal : list (ParsedInternalKey * bytes) :=
  [(MkParsedInternalKey (str "ant") 7 kTypeValue, str "new");
   (MkParsedInternalKey (str "ant") 3 kTypeValue, str "old");
   (MkParsedInternalKey (str "bee") 5 kTypeDeletion, [])].

Lemma table_newest_demo :
  exists e, entry_of (MkParsedInternalKey (str "ant") 3 kTypeValue, str "old") = entry_of e /\ e ∈ demo_internal.
Proof.
  destruct (table_newest demo_internal (str "ant") 6
    (Some (entry_of (MkParsedInternalKey (str "ant") 3 kTypeValue, str "old")))) as (e & He & Hin & _).
  - repeat constructor; vm_compute; discriminate.
  - vm_compute. split; discriminate.
  - repeat constructor.
  - exists 1%nat. split; [reflexivity|]. split.
    + intros [|m] x Hm Hx; [injection Hx as <-; vm_compute; reflexivity|lia].
    + intros x Hx. injection Hx as <-. vm_compute. discriminate.
  - exists e. split; [exact He|exact Hin].
Defined.

(** *** Two defects, on concrete runs *)

(** A file whose appends fail as scripted and whose flushes succeed. *)
Record FlakyFile := MkFlaky { fdata : bytes; answers : list bool }.

#[export] Instance Flaky_append : AppendFile FlakyFile := {
  fappend f data :=
    match answers f with
    | false :: rest => (IOError (str "append") [], MkFlaky (fdata f) rest)
    | true :: rest => (OK, MkFlaky (fdata f ++ data) rest)
    | [] => (OK, MkFlaky (fdata f ++ data) [])
    end;
  fflush f := (OK, f);
  contents := fdata;
  healthy f := Forall (fun b => b = true) (answers f);
}.

(** [flush] overwrites the status of a failed block write: the table loses the block and
    [Finish] still reports success. *)
Example flush_masks_write_error :
  (let? b := Add_all (c := BytewiseComparatorImpl) (compress := fun _ => None) 16 16 kNoCompression 0
               (TableBuilder_make (MkFlaky [] [false])) [(str "k1", str "some value"); (str "k2", str "other value")] in
   let? b := TableBuilder_Finish (fun _ => None) BytewiseComparatorImpl kNoCompression 0 b in
   let g := MkMmapFile [] (fdata (tfile b)) in
   let '(s, t) := Table_Open (H := MmapFile_random (fun _ => [])) (fun _ => None) (fun _ => None) 0 false g (filesize b) in
   let? t := t in
   let? r := InternalGet (H := MmapFile_random (fun _ => [])) (H0 := Sharded_cache (fun _ => 0)) (fun _ => None) (fun _ => None) 0
     BytewiseComparatorImpl None t ReadOptions_make (str "k1") in
   Some (tstatus b, s, r.1.2))
  = Some (OK, OK, None).
Proof. vm_compute. reflexivity. Qed.

(** A file read into the caller's buffer, whose blocks are cached. *)
Record CopyFile := MkCopyFile { cbytes : bytes }.

#[export] Instance CopyFile_random : RandomFile CopyFile := {
  rread g off n := (OK, take (Z.to_nat n) (drop (Z.to_nat off) (cbytes g)));
  direct _ := false;
  rcontents := cbytes;
}.

Definition one_entry_table (k v : bytes) : option (Table CopyFile) :=
  let? b := Add_all (c := BytewiseComparatorImpl) (H := Flaky_append) (compress := fun _ => None) 16 4096 kNoCompression 0
              (TableBuilder_make (MkFlaky [] [])) [(k, v)] in
  let? b := TableBuilder_Finish (fun _ => None) BytewiseComparatorImpl kNoCompression 0 b in
  (Table_Open (fun _ => None) (fun _ => None) 0 false (MkCopyFile (fdata (tfile b))) (filesize b)).2.

(** While an iterator holds a block of a table, a lookup in the table is answered from the
    cache, and the entry is forgotten with the handle that the lookup gives back. *)
Example cached_block_found :
  (let? t := one_entry_table (str "k") (str "a value") in
   let? index := iterSeek (NewIterator BytewiseComparatorImpl (tblindex t)) (str "k") in
   let? (_, bc) := BlockReader (H0 := Sharded_cache (fun _ => 0)) (fun _ => None) (fun _ => None) 0 BytewiseComparatorImpl
     (Some (ShardedLRUCache_make 65536)) t ReadOptions_make (itervalue index) in
   let held k := match bc with Some cache => bool_decide (is_Some (clookup (Cache := Sharded_cache (fun _ => 0)) cache k)) | None => false end in
   let? r := InternalGet (H0 := Sharded_cache (fun _ => 0)) (fun _ => None) (fun _ => None) 0 BytewiseComparatorImpl
     bc t ReadOptions_make (str "k") in
   let held' k := match r.2 with Some cache => bool_decide (is_Some (clookup (Cache := Sharded_cache (fun _ => 0)) cache k)) | None => false end in
   Some (r.1.1, snd <$> r.1.2, held (EncodeFixed64 0), held' (EncodeFixed64 0))) = Some (OK, Some (str "a value"), true, false).
Proof. vm_compute. reflexivity. Qed.

(** The cache key is the offset alone: while an iterator holds the first block of one
    table, a lookup in another table that shares the cache is answered from it. *)
Example shared_cache_collision :
  (let? t1 := one_entry_table (str "k") (str "first table") in
   let? t2 := one_entry_table (str "k") (str "second table") in
   let? index := iterSeek (NewIterator BytewiseComparatorImpl (tblindex t1)) (str "k") in
   let? (_, bc) := BlockReader (H0 := Sharded_cache (fun _ => 0)) (fun _ => None) (fun _ => None) 0 BytewiseComparatorImpl
     (Some (ShardedLRUCache_make 65536)) t1 ReadOptions_make (itervalue index) in
   let? r := InternalGet (H0 := Sharded_cache (fun _ => 0)) (fun _ => None) (fun _ => None) 0 BytewiseComparatorImpl
     bc t2 ReadOptions_make (str "k") in
   Some (r.1.1, snd <$> r.1.2)) = Some (OK, Some (str "first table")).
Proof. vm_compute. reflexivity. Qed.
