(* ===== verification/SkipList.v ===== *)
(** The skip list (redisdb/db/skiplist.h).

    Nodes live in a heap from addresses to [Node]s; a [Node*] is an
    [option nat], null being [None].  The refinement theorem says that the
    linked structure always represents one strictly sorted list of keys. *)
From S2P Require Import Prelude.
From stdpp Require Import gmap sorting.
From Stdlib Require Import Sorted.
Local Open Scope nat_scope.

(** What the list asks of the comparator, on the keys in [dom]. *)
Class KeyOrder {K} (compare : K -> K -> comparison) (dom : K -> Prop) : Prop := {
  key_opp a b : dom a -> dom b -> compare a b = CompOpp (compare b a);
  key_lt_trans a b c : dom a -> dom b -> dom c ->
    compare a b = Lt -> compare b c = Lt -> compare a c = Lt;
  key_eq_l a b c : dom a -> dom b -> dom c ->
    compare a b = Eq -> compare a c = compare b c;
}.

Section SkipList.
Context {K : Type} (compare : K -> K -> comparison).

(** ** State *)

Definition kMaxHeight : nat := 12.

(** [struct Node]: [key] ([None] in the head, whose key is never looked at) and
    [nextnode], an array as long as the node's height. *)
Record Node := MkNode { key : option K; nextnode : list (option nat) }.

Record SkipList := MkSkipList {
  heap : gmap nat Node;
  maxheight : nat;
  rndpos : nat;        (* how many numbers [rnd] has produced *)
}.

Definition head : nat := 0.

(** [Node::Next(n)] and [Node::setNext(n, x)] (with their no-barrier variants). *)
Definition Next (h : gmap nat Node) (x n : nat) : option nat :=
  match h !! x with Some nd => default None (nextnode nd !! n) | None => None end.

Definition setNext (h : gmap nat Node) (x n : nat) (v : option nat) : gmap nat Node :=
  alter (fun nd => MkNode (key nd) (<[n := v]> (nextnode nd))) x h.

Definition node_key (h : gmap nat Node) (x : nat) : option K := h !! x ≫= key.

(** [SkipList::SkipList]: a head of full height with null links. *)
Definition SkipList_make (pos : nat) : SkipList :=
  MkSkipList {[ head := MkNode None (replicate kMaxHeight None) ]} 1 pos.

(** ** Searches *)

Definition KeyIsAfterNode (h : gmap nat Node) (k : K) (n : option nat) : bool :=
  match n with
  | None => false   (* null is considered infinite *)
  | Some a =>
      match node_key h a with
      | Some ka => bool_decide (compare ka k = Lt)
      | None => false
      end
  end.

(** The [while (true)] loop of [FindGreaterOrEqual]; the result carries the array
    [prev] the caller may have passed.  Each step moves right or goes down a
    level, so nodes plus levels bound the steps. *)
Fixpoint FindGreaterOrEqual_loop (fuel : nat) (h : gmap nat Node) (k : K)
    (x level : nat) (prev : list nat) : option (option nat * list nat) :=
  match fuel with
  | O => None
  | S fuel' =>
      let next := Next h x level in
      if KeyIsAfterNode h k next then
        let? n := next in FindGreaterOrEqual_loop fuel' h k n level prev
      else
        let prev := <[level := x]> prev in
        match level with
        | O => Some (next, prev)
        | S level' => FindGreaterOrEqual_loop fuel' h k x level' prev
        end
  end.

Definition search_fuel (s : SkipList) : nat := size (heap s) + maxheight s.

Definition FindGreaterOrEqual (s : SkipList) (k : K) : option (option nat * list nat) :=
  FindGreaterOrEqual_loop (search_fuel s) (heap s) k head (maxheight s - 1)
    (replicate kMaxHeight head).

(** [Next == nullptr || compare(Next->key, key) >= 0]. *)
Definition at_or_after (h : gmap nat Node) (k : K) (n : option nat) : bool :=
  match n with
  | None => true
  | Some a =>
      match node_key h a with
      | Some ka => bool_decide (compare ka k <> Lt)
      | None => true
      end
  end.

Fixpoint FindLessThan_loop (fuel : nat) (h : gmap nat Node) (k : K) (x level : nat)
    : option nat :=
  match fuel with
  | O => None
  | S fuel' =>
      let next := Next h x level in
      if at_or_after h k next then
        match level with
        | O => Some x
        | S level' => FindLessThan_loop fuel' h k x level'
        end
      else let? n := next in FindLessThan_loop fuel' h k n level
  end.

Definition FindLessThan (s : SkipList) (k : K) : option nat :=
  FindLessThan_loop (search_fuel s) (heap s) k head (maxheight s - 1).

Fixpoint FindLast_loop (fuel : nat) (h : gmap nat Node) (x level : nat) : option nat :=
  match fuel with
  | O => None
  | S fuel' =>
      match Next h x level with
      | None =>
          match level with
          | O => Some x
          | S level' => FindLast_loop fuel' h x level'
          end
      | Some n => FindLast_loop fuel' h n level
      end
  end.

Definition FindLast (s : SkipList) : option nat :=
  FindLast_loop (search_fuel s) (heap s) head (maxheight s - 1).

(** ** Insertion *)

(** [RandomHeight]: one more level for every multiple of [kBranching] the
    generator yields, up to [kMaxHeight].  [rnd i] is its [i]-th output. *)
Context (rnd : nat -> Z).

Fixpoint RandomHeight_loop (fuel height pos : nat) : nat * nat :=
  match fuel with
  | O => (height, pos)
  | S fuel' =>
      if height <? kMaxHeight then
        if (rnd pos mod 4 =? 0)%Z then RandomHeight_loop fuel' (height + 1) (pos + 1)
        else (height, pos + 1)
      else (height, pos)
  end.

Definition RandomHeight (pos : nat) : nat * nat := RandomHeight_loop kMaxHeight 1 pos.

(** The loop that splices node [x] in at levels [i], [i + 1], ... below [height]. *)
Fixpoint Insert_loop (n i : nat) (prev : list nat) (x : nat) (h : gmap nat Node)
    : gmap nat Node :=
  match n with
  | O => h
  | S n' =>
      let p := default head (prev !! i) in
      let h := setNext h x i (Next h p i) in
      let h := setNext h p i (Some x) in
      Insert_loop n' (i + 1) prev x h
  end.

(** [for (i = lo; i < hi; i++) Prev[i] = head]. *)
Fixpoint fill_head (n i : nat) (prev : list nat) : list nat :=
  match n with
  | O => prev
  | S n' => fill_head n' (i + 1) (<[i := head]> prev)
  end.

(** [Insert(key)].  REQUIRES: nothing that compares equal to [key] is in the list. *)
Definition Insert (s : SkipList) (k : K) : option SkipList :=
  let? (_, prev) := FindGreaterOrEqual s k in
  let '(height, pos) := RandomHeight (rndpos s) in
  let '(prev, mh) :=
    if maxheight s <? height
    then (fill_head (height - maxheight s) (maxheight s) prev, height)
    else (prev, maxheight s) in
  let x := fresh (dom (heap s)) in
  let h := <[x := MkNode (Some k) (replicate height None)]> (heap s) in
  Some (MkSkipList (Insert_loop height 0 prev x h) mh pos).

Definition Contains (s : SkipList) (k : K) : option bool :=
  let? (x, _) := FindGreaterOrEqual s k in
  match x with
  | Some a =>
      match node_key (heap s) a with
      | Some ka => Some (bool_decide (compare k ka = Eq))
      | None => None
      end
  | None => Some false
  end.

(** ** Iterators: the pointer [node] *)

Definition Valid (node : option nat) : bool := bool_decide (node <> None).

Definition iter_key (s : SkipList) (node : option nat) : option K := node ≫= node_key (heap s).

(** REQUIRES: [Valid()], for [Next] and [Prev]. *)
Definition iter_Next (s : SkipList) (node : option nat) : option nat :=
  node ≫= (fun a => Next (heap s) a 0).

Definition not_head (x : nat) : option nat := if decide (x = head) then None else Some x.

Definition iter_Prev (s : SkipList) (node : option nat) : option (option nat) :=
  let? k := iter_key s node in
  let? x := FindLessThan s k in
  Some (not_head x).

Definition iter_Seek (s : SkipList) (target : K) : option (option nat) :=
  let? (x, _) := FindGreaterOrEqual s target in Some x.

Definition iter_SeekToFirst (s : SkipList) : option nat := Next (heap s) head 0.

Definition iter_SeekToLast (s : SkipList) : option (option nat) :=
  let? x := FindLast s in Some (not_head x).

(** ** The sorted list a skip list represents *)

(** A key with the node that holds it. *)
Record entry := Entry { addr : nat; ekey : K; height : nat }.

Definition keys (L : list entry) : list K := map ekey L.

Definition above (i : nat) (e : entry) : bool := i <? height e.

(** The first node of [L] that is linked at level [i]. *)
Definition link (i : nat) (L : list entry) : option nat := addr <$> List.find (above i) L.

(** The node in front of the entries that follow [pre], and its height. *)
Definition last_addr (pre : list entry) : nat := from_option addr head (last pre).
Definition node_height (pre : list entry) : nat := from_option height kMaxHeight (last pre).

Definition last_above (i : nat) (pre : list entry) : nat := last_addr (List.filter (above i) pre).

Definition shape (h : gmap nat Node) (a : nat) : option (option K * nat) :=
  (fun nd => (key nd, length (nextnode nd))) <$> h !! a.

Context (domK : K -> Prop).

Definition lt_entry (a b : entry) : Prop := compare (ekey a) (ekey b) = Lt.

(** The invariant: at every level the links skip exactly the nodes too low for
    it, and the keys are strictly sorted. *)
Record represents (s : SkipList) (L : list entry) : Prop := {
  rep_max : 1 <= maxheight s <= kMaxHeight;
  rep_heights : Forall (fun e => 1 <= height e <= maxheight s) L;
  rep_head : shape (heap s) head = Some (None, kMaxHeight);
  rep_shape : Forall (fun e => shape (heap s) (addr e) = Some (Some (ekey e), height e)) L;
  rep_next pre post i : L = pre ++ post -> i < node_height pre ->
    Next (heap s) (last_addr pre) i = link i post;
  rep_nodup : NoDup (head :: map addr L);
  rep_sorted : StronglySorted lt_entry L;
  rep_dom : Forall (fun e => domK (ekey e)) L;
  rep_size : size (heap s) = S (length L);
}.

(** The abstract insertion. *)
Fixpoint sorted_insert (k : K) (ks : list K) : list K :=
  match ks with
  | [] => [k]
  | k' :: ks' =>
      match compare k' k with
      | Lt => k' :: sorted_insert k ks'
      | _ => k :: ks
      end
  end.
End SkipList.

Arguments represents {K} compare domK s L.
Arguments above {K} i e /.

(** ** Lists of entries *)

Section Entries.
Context {K : Type}.
Implicit Types (e : @entry K) (L pre post : list (@entry K)).

Lemma last_addr_snoc pre e : last_addr (pre ++ [e]) = addr e.
Proof. unfold last_addr. by rewrite last_snoc. Qed.

Lemma node_height_snoc pre e : node_height (pre ++ [e]) = height e.
Proof. unfold node_height. by rewrite last_snoc. Qed.

Lemma link_app i L1 L2 :
  link i (L1 ++ L2) = match List.find (above i) L1 with Some e => Some (addr e) | None => link i L2 end.
Proof. unfold link. rewrite find_app. by destruct (List.find _ L1). Qed.

Lemma find_split i L e :
  List.find (above i) L = Some e ->
  exists L1 L2, L = L1 ++ e :: L2 /\ List.find (above i) L1 = None /\ i < height e.
Proof.
  induction L as [|e' L IH]; [done|]. cbn [List.find above]. destruct (i <? height e') eqn:E.
  - intros. simplify_eq. apply Nat.ltb_lt in E. by exists [], L.
  - intros (L1 & L2 & -> & ? & ?)%IH. exists (e' :: L1), L2. split_and!; try done.
    cbn [List.find above]. by rewrite E.
Qed.

Lemma find_none_app i L1 L2 :
  List.find (above i) (L1 ++ L2) = None <->
  List.find (above i) L1 = None /\ List.find (above i) L2 = None.
Proof. rewrite find_app. destruct (List.find _ L1); naive_solver. Qed.

(** [pre] up to its last node that is linked at level [i]. *)
Lemma last_above_split i pre :
  i < kMaxHeight ->
  exists p q, pre = p ++ q /\ last_addr p = last_above i pre /\ i < node_height p /\
    List.find (above i) q = None.
Proof.
  intros Hi. unfold last_above. induction pre as [|e pre IH] using rev_ind.
  { by exists [], []. }
  rewrite List.filter_app. cbn [List.filter]. destruct (above i e) eqn:E.
  - exists (pre ++ [e]), []. rewrite !last_addr_snoc, node_height_snoc, app_nil_r.
    split_and!; try done. by apply Nat.ltb_lt.
  - destruct IH as (p & q & -> & Hl & Hh & Hf). exists p, (q ++ [e]).
    rewrite app_nil_r, app_assoc. split_and!; try done.
    apply find_none_app. split; [done|]. cbn [List.find]. by rewrite E.
Qed.

Lemma filter_find_none i L : List.find (above i) L = None -> List.filter (above i) L = [].
Proof.
  induction L as [|e L IH]; [done|]. cbn [List.find List.filter]. by destruct (above i e).
Qed.

(** Entries too low for level [i] do not move its last node. *)
Lemma last_above_low i pre mid :
  i < node_height pre -> List.find (above i) mid = None ->
  last_above i (pre ++ mid) = last_addr pre.
Proof.
  intros Hi Hm. unfold last_above. rewrite List.filter_app, (filter_find_none i mid Hm), app_nil_r.
  destruct pre as [|e pre _] using rev_ind; [done|]. rewrite node_height_snoc in Hi.
  rewrite List.filter_app. cbn [List.filter above]. rewrite (proj2 (Nat.ltb_lt _ _) Hi).
  by rewrite !last_addr_snoc.
Qed.

Lemma elem_addr e L : e ∈ L -> addr e ∈ map addr L.
Proof. rewrite !list_elem_of_In. apply in_map. Qed.

Lemma last_addr_elem pre : last_addr pre = head \/ last_addr pre ∈ map addr pre.
Proof.
  destruct pre as [|e pre _] using rev_ind; [by left|right].
  rewrite last_addr_snoc, map_app. apply elem_of_app. right. by apply list_elem_of_singleton.
Qed.

Lemma last_above_elem i pre : last_above i pre = head \/ last_above i pre ∈ map addr pre.
Proof.
  destruct (last_addr_elem (List.filter (above i) pre)) as [|H]; [by left|right].
  unfold last_above. revert H. rewrite !list_elem_of_In, !in_map_iff.
  intros (e & <- & [He _]%filter_In). by exists e.
Qed.

Lemma last_above_snoc i pre e :
  last_above i (pre ++ [e]) = if i <? height e then addr e else last_above i pre.
Proof.
  unfold last_above. rewrite List.filter_app. cbn [List.filter above].
  destruct (i <? height e); [by rewrite last_addr_snoc|by rewrite app_nil_r].
Qed.

(** With a node of [mid] at level [i], the last one is in [mid]. *)
Lemma last_above_mid i pre mid e :
  List.find (above i) mid = Some e -> last_above i (pre ++ mid) ∈ map addr mid.
Proof.
  induction mid as [|x mid IH] using rev_ind; [done|]. intros Hf.
  rewrite app_assoc, last_above_snoc, map_app, elem_of_app.
  destruct (i <? height x) eqn:Hx; [right; by apply list_elem_of_singleton|left].
  apply IH. rewrite find_app in Hf. cbn [List.find above] in Hf. rewrite Hx in Hf.
  by destruct (List.find _ mid).
Qed.
End Entries.

(** ** Searches find the position of the key *)

Section SearchProofs.
Context {K : Type} {compare : K -> K -> comparison} {domK : K -> Prop}.
Context {HO : KeyOrder compare domK}.
Implicit Types (s : @SkipList K) (L lt ge pre mid post : list (@entry K)) (k : K).

Definition below k (e : @entry K) : Prop := compare (ekey e) k = Lt.

#[local] Instance below_dec k e : Decision (below k e).
Proof. unfold below. solve_decision. Defined.

(** A key splits a sorted list into what is below it and the rest. *)
Lemma split_at s L k :
  represents compare domK s L -> domK k ->
  exists lt ge, L = lt ++ ge /\ Forall (below k) lt /\ Forall (fun e => ~ below k e) ge.
Proof.
  intros [_ _ _ _ _ _ Hsort Hdom _] Hk. induction L as [|e L IH].
  { by exists [], []. }
  apply StronglySorted_inv in Hsort as [Hsort Hall]. apply Forall_cons in Hdom as [He Hdom].
  destruct (IH Hsort Hdom) as (lt & ge & -> & Hlt & Hge).
  destruct (compare (ekey e) k) eqn:E.
  2:{ exists (e :: lt), ge. split_and!; [done| |done]. by constructor. }
  all: exists [], (e :: lt ++ ge); split_and!; [done..|]; constructor;
    [unfold below; congruence|].
  all: apply Forall_forall; intros x Hx Hb; rewrite Forall_forall in Hall, Hdom.
  all: specialize (Hall x Hx); specialize (Hdom x Hx); unfold lt_entry, below in *.
  all: by rewrite (key_lt_trans _ (ekey x) k) in E.
Qed.

Lemma shape_node_key h a k n : shape h a = Some (Some k, n) -> node_key h a = Some k.
Proof. unfold shape, node_key. destruct (h !! a); cbn; [|done]. intros. by simplify_eq. Qed.

Lemma represents_key s L e :
  represents compare domK s L -> e ∈ L -> node_key (heap s) (addr e) = Some (ekey e).
Proof.
  intros H He. pose proof (rep_shape _ _ _ _ H) as Hs. rewrite Forall_forall in Hs.
  eapply shape_node_key. by apply Hs.
Qed.

Lemma KeyIsAfterNode_entry s L e k :
  represents compare domK s L -> e ∈ L ->
  KeyIsAfterNode compare (heap s) k (Some (addr e)) = bool_decide (below k e).
Proof. intros H He. cbn. by rewrite (represents_key s L e H He). Qed.

(** What lies right of a node at a level: a node of [mid], or the first of [ge]. *)
Lemma Next_right s L lt ge pre mid level k :
  represents compare domK s L -> L = lt ++ ge -> lt = pre ++ mid ->
  Forall (below k) lt -> Forall (fun e => ~ below k e) ge -> level < node_height pre ->
  (exists m1 e m2, mid = m1 ++ e :: m2 /\ level < height e /\
     Next (heap s) (last_addr pre) level = Some (addr e) /\
     KeyIsAfterNode compare (heap s) k (Some (addr e)) = true) \/
  (List.find (above level) mid = None /\
     Next (heap s) (last_addr pre) level = link level ge /\
     KeyIsAfterNode compare (heap s) k (link level ge) = false).
Proof.
  intros H -> -> Hlt Hge Hl.
  assert (Next (heap s) (last_addr pre) level = link level (mid ++ ge)) as HN
    by (apply (rep_next _ _ _ _ H); [by rewrite app_assoc|done]).
  rewrite link_app in HN. destruct (List.find (above level) mid) as [e|] eqn:Ef; [left|right].
  - apply find_split in Ef as (m1 & m2 & -> & _ & He). exists m1, e, m2. split_and!; try done.
    rewrite KeyIsAfterNode_entry with (L := (pre ++ m1 ++ e :: m2) ++ ge); [|done|set_solver].
    apply bool_decide_eq_true. rewrite !Forall_app, Forall_cons in Hlt. tauto.
  - split_and!; [done..|]. unfold link. destruct (List.find _ ge) as [e|] eqn:Eg; [|done].
    apply find_split in Eg as (g1 & g2 & -> & _ & _). cbn [fmap option_fmap option_map].
    rewrite KeyIsAfterNode_entry with (L := (pre ++ mid) ++ g1 ++ e :: g2); [|done|set_solver].
    apply bool_decide_eq_false. rewrite Forall_app, Forall_cons in Hge. tauto.
Qed.

Lemma low_is_empty s L pre mid post :
  represents compare domK s L -> L = pre ++ mid ++ post ->
  List.find (above 0) mid = None -> mid = [].
Proof.
  intros H -> Hf. destruct mid as [|e mid]; [done|]. exfalso.
  pose proof (rep_heights _ _ _ _ H) as Hh. rewrite !Forall_app, Forall_cons in Hh.
  destruct Hh as (_ & (He & _) & _). cbn [List.find above] in Hf.
  by rewrite (proj2 (Nat.ltb_lt 0 (height e))) in Hf by lia.
Qed.

Lemma FindGreaterOrEqual_loop_spec s L lt ge k :
  represents compare domK s L -> L = lt ++ ge ->
  Forall (below k) lt -> Forall (fun e => ~ below k e) ge ->
  forall fuel pre mid level prev,
  lt = pre ++ mid -> level < node_height pre -> length mid + level < fuel ->
  exists prev', FindGreaterOrEqual_loop compare fuel (heap s) k (last_addr pre) level prev
      = Some (link 0 ge, prev') /\ length prev' = length prev /\
    (forall i, i <= level -> i < length prev -> prev' !! i = Some (last_above i lt)) /\
    (forall i, level < i -> prev' !! i = prev !! i).
Proof.
  intros H HL Hlt Hge. induction fuel as [|fuel IH]; intros pre mid level prev Hp Hl Hf; [lia|].
  cbn [FindGreaterOrEqual_loop]. cbv zeta.
  destruct (Next_right s L lt ge pre mid level k H HL Hp Hlt Hge Hl)
    as [(m1 & e & m2 & Hm & Hhe & -> & ->)|(Hfind & -> & ->)].
  - subst mid. destruct (IH (pre ++ m1 ++ [e]) m2 level prev) as (prev' & Heq & Hrest).
    { by rewrite Hp, <- !app_assoc. }
    { by rewrite app_assoc, node_height_snoc. }
    { lens. lia. }
    rewrite app_assoc, last_addr_snoc in Heq. by exists prev'.
  - assert (last_above level lt = last_addr pre) as Hla by (rewrite Hp; by apply last_above_low).
    set (prev1 := <[level := last_addr pre]> prev).
    assert (forall i, i = level -> i < length prev -> prev1 !! i = Some (last_above i lt)) as H1.
    { intros i -> Hi. subst prev1. by rewrite list_lookup_insert_eq, Hla by lia. }
    assert (forall i, i <> level -> prev1 !! i = prev !! i) as H2
      by (intros; by apply list_lookup_insert_ne).
    assert (length prev1 = length prev) as Hlen1 by apply length_insert.
    clearbody prev1. destruct level as [|level].
    + exists prev1. split_and!; [done..| |]; intros i ?; [intros|]; [apply H1|apply H2]; lia.
    + destruct (IH pre mid level prev1 Hp) as (prev' & Heq & Hlen & Hle & Hgt); [lia..|].
      exists prev'. rewrite Hlen1 in Hlen, Hle. split_and!; [done..| |].
      * intros i Hi Hi'. destruct (decide (i = S level)) as [->|]; [|apply Hle; lia].
        rewrite Hgt by lia. by apply H1.
      * intros i Hi. rewrite Hgt, H2 by lia. done.
Qed.

Lemma FindGreaterOrEqual_spec s L lt ge k :
  represents compare domK s L -> L = lt ++ ge ->
  Forall (below k) lt -> Forall (fun e => ~ below k e) ge ->
  exists prev, FindGreaterOrEqual compare s k = Some (link 0 ge, prev) /\
    length prev = kMaxHeight /\
    (forall i, i < maxheight s -> prev !! i = Some (last_above i lt)).
Proof.
  intros H HL Hlt Hge. pose proof (rep_max _ _ _ _ H) as Hm. unfold kMaxHeight in *.
  destruct (FindGreaterOrEqual_loop_spec s L lt ge k H HL Hlt Hge (search_fuel s) [] lt
    (maxheight s - 1) (replicate kMaxHeight head)) as (prev & Heq & Hlen & Hle & _).
  - done.
  - cbn. unfold kMaxHeight. lia.
  - unfold search_fuel. rewrite (rep_size _ _ _ _ H), HL. lens. lia.
  - rewrite length_replicate in Hlen, Hle. exists prev. split_and!; [done..|].
    intros i Hi. apply Hle; unfold kMaxHeight; lia.
Qed.

Lemma at_or_after_negb h k n : at_or_after compare h k n = negb (KeyIsAfterNode compare h k n).
Proof.
  destruct n as [a|]; [|done]. cbn. destruct (node_key h a) as [ka|]; [|done].
  by destruct (compare ka k).
Qed.

Lemma FindLessThan_loop_spec s L lt ge k :
  represents compare domK s L -> L = lt ++ ge ->
  Forall (below k) lt -> Forall (fun e => ~ below k e) ge ->
  forall fuel pre mid level,
  lt = pre ++ mid -> level < node_height pre -> length mid + level < fuel ->
  FindLessThan_loop compare fuel (heap s) k (last_addr pre) level = Some (last_addr lt).
Proof.
  intros H HL Hlt Hge. induction fuel as [|fuel IH]; intros pre mid level Hp Hl Hf; [lia|].
  cbn [FindLessThan_loop]. cbv zeta. rewrite at_or_after_negb.
  destruct (Next_right s L lt ge pre mid level k H HL Hp Hlt Hge Hl)
    as [(m1 & e & m2 & Hm & Hhe & -> & ->)|(Hfind & -> & ->)]; cbn [negb].
  - subst mid. rewrite <- (last_addr_snoc (pre ++ m1) e), <- app_assoc.
    apply (IH _ m2); [by rewrite Hp, <- !app_assoc| |lens; lia].
    by rewrite app_assoc, node_height_snoc.
  - destruct level as [|level]; [|by apply (IH pre mid); [|lia|lia]].
    rewrite (low_is_empty s L pre mid ge H) in Hp; [|by rewrite HL, Hp, app_assoc|done].
    by rewrite Hp, app_nil_r.
Qed.

Lemma FindLessThan_spec s L lt ge k :
  represents compare domK s L -> L = lt ++ ge ->
  Forall (below k) lt -> Forall (fun e => ~ below k e) ge ->
  FindLessThan compare s k = Some (last_addr lt).
Proof.
  intros H HL Hlt Hge. pose proof (rep_max _ _ _ _ H) as Hm.
  apply (FindLessThan_loop_spec s L lt ge k H HL Hlt Hge (search_fuel s) [] lt); [done|cbn; lia|].
  unfold search_fuel. rewrite (rep_size _ _ _ _ H), HL. lens. lia.
Qed.

Lemma FindLast_loop_spec s L :
  represents compare domK s L ->
  forall fuel pre mid level,
  L = pre ++ mid -> level < node_height pre -> length mid + level < fuel ->
  FindLast_loop fuel (heap s) (last_addr pre) level = Some (last_addr L).
Proof.
  intros H. induction fuel as [|fuel IH]; intros pre mid level Hp Hl Hf; [lia|].
  cbn [FindLast_loop]. rewrite (rep_next _ _ _ _ H pre mid level) by done.
  unfold link. destruct (List.find (above level) mid) as [e|] eqn:Ef; cbn [fmap option_fmap option_map].
  - apply find_split in Ef as (m1 & m2 & -> & _ & He).
    rewrite <- (last_addr_snoc (pre ++ m1) e), <- app_assoc.
    apply (IH _ m2); [by rewrite Hp, <- !app_assoc| |lens; lia].
    by rewrite app_assoc, node_height_snoc.
  - destruct level as [|level]; [|by apply (IH pre mid); [|lia|lia]].
    rewrite (low_is_empty s L pre mid [] H) in Hp; [|by rewrite app_nil_r|done].
    by rewrite Hp, app_nil_r.
Qed.

Lemma FindLast_spec s L : represents compare domK s L -> FindLast s = Some (last_addr L).
Proof.
  intros H. pose proof (rep_max _ _ _ _ H) as Hm.
  apply (FindLast_loop_spec s L H (search_fuel s) [] L); [done|cbn; lia|].
  unfold search_fuel. rewrite (rep_size _ _ _ _ H). lia.
Qed.
End SearchProofs.

(** ** Writes to the heap *)

Section HeapFacts.
Context {K : Type}.
Implicit Types (h : gmap nat (@Node K)) (a x : nat) (prev : list nat).

(** [x] is a node with a slot for level [i]. *)
Definition has_level h x i : Prop := exists ko n, shape h x = Some (ko, n) /\ i < n.

Lemma shape_setNext h x i v a : shape (setNext h x i v) a = shape h a.
Proof.
  unfold shape, setNext. rewrite lookup_alter. case_decide as E; [subst|done].
  destruct (h !! a); cbn; [|done]. by rewrite length_insert.
Qed.

Lemma Next_setNext h x i v a j :
  has_level h x i ->
  Next (setNext h x i v) a j = if decide (a = x /\ j = i) then v else Next h a j.
Proof.
  intros (ko & n & Hs & Hi). unfold shape in Hs. unfold Next, setNext.
  rewrite lookup_alter. destruct (h !! x) as [nd|] eqn:Ex; cbn in Hs; [|done]. simplify_eq.
  destruct (decide (x = a)) as [->|Hne].
  - rewrite Ex. cbn. destruct (decide (j = i)) as [->|Hji].
    + rewrite list_lookup_insert_eq by lia. by rewrite decide_True.
    + rewrite list_lookup_insert_ne by done. rewrite decide_False by naive_solver. done.
  - rewrite decide_False by naive_solver. done.
Qed.

Lemma has_level_setNext h x i v a j : has_level (setNext h x i v) a j <-> has_level h a j.
Proof. unfold has_level. by rewrite shape_setNext. Qed.

Definition prev_at prev i : nat := default head (prev !! i).

(** The splice: level by level, the new node takes over its predecessor's link. *)
Lemma Insert_loop_spec n i prev x h :
  (forall j, i <= j < i + n -> has_level h x j /\ has_level h (prev_at prev j) j /\
     prev_at prev j <> x) ->
  (forall a, shape (Insert_loop n i prev x h) a = shape h a) /\
  (forall a j, Next (Insert_loop n i prev x h) a j =
     if decide (i <= j < i + n) then
       if decide (a = x) then Next h (prev_at prev j) j
       else if decide (a = prev_at prev j) then Some x else Next h a j
     else Next h a j).
Proof.
  revert i h. induction n as [|n IH]; intros i h Hok; cbn [Insert_loop]; cbv zeta.
  { split; [done|]. intros. rewrite decide_False by lia. done. }
  fold (prev_at prev i). set (h1 := setNext h x i _). set (h2 := setNext h1 _ i _).
  destruct (Hok i ltac:(lia)) as (Hx & Hp & Hne).
  assert (forall a, shape h2 a = shape h a) as Hsh
    by (intros; subst h2 h1; by rewrite !shape_setNext).
  assert (forall a j, Next h2 a j = if decide (j = i) then
     if decide (a = x) then Next h (prev_at prev i) i
     else if decide (a = prev_at prev i) then Some x else Next h a j else Next h a j) as HN2.
  { intros a j. subst h2 h1. rewrite !Next_setNext by (rewrite ?has_level_setNext; done).
    repeat case_decide; naive_solver. }
  destruct (IH (i + 1) h2) as [IHs IHn].
  { intros j Hj. destruct (Hok j ltac:(lia)) as (? & ? & ?). subst h2 h1.
    rewrite !has_level_setNext. done. }
  split; [intros; by rewrite IHs|]. intros a j. rewrite IHn, !HN2.
  repeat case_decide; subst; done || lia || congruence.
Qed.

Lemma Insert_loop_dom n i prev x h : dom (Insert_loop n i prev x h) = dom h.
Proof.
  revert i h. induction n as [|n IH]; intros i h; cbn [Insert_loop]; cbv zeta; [done|].
  rewrite IH. unfold setNext. by rewrite !dom_alter_L.
Qed.

Lemma fill_head_spec n i prev j :
  fill_head n i prev !! j =
    if decide (i <= j < i + n /\ j < length prev) then Some head else prev !! j.
Proof.
  revert i prev. induction n as [|n IH]; intros i prev; cbn [fill_head].
  { rewrite decide_False by lia. done. }
  rewrite IH, length_insert. destruct (decide (j = i)) as [->|].
  - rewrite decide_False by lia. destruct (decide (i < length prev)).
    + rewrite list_lookup_insert_eq, decide_True by lia. done.
    + rewrite decide_False, list_insert_ge by lia. done.
  - rewrite list_lookup_insert_ne by done.
    destruct (decide (i <= j < i + S n /\ j < length prev)).
    + rewrite decide_True by lia. done.
    + rewrite decide_False by lia. done.
Qed.

Lemma Next_insert_ne h x nd a j : a <> x -> Next (<[x := nd]> h) a j = Next h a j.
Proof. intros. unfold Next. by rewrite lookup_insert_ne. Qed.

Lemma shape_insert h x nd a :
  shape (<[x := nd]> h) a = if decide (x = a) then Some (key nd, length (nextnode nd)) else shape h a.
Proof. unfold shape. rewrite lookup_insert. by case_decide. Qed.
End HeapFacts.

Lemma RandomHeight_loop_range rnd fuel ht pos :
  1 <= ht <= kMaxHeight -> 1 <= (RandomHeight_loop rnd fuel ht pos).1 <= kMaxHeight.
Proof.
  revert ht pos. induction fuel as [|fuel IH]; intros ht pos H; cbn [RandomHeight_loop]; [done|].
  destruct (ht <? kMaxHeight) eqn:E; [|done]. apply Nat.ltb_lt in E.
  case_match; [|done]. apply IH. lia.
Qed.

Lemma RandomHeight_range rnd pos : 1 <= (RandomHeight rnd pos).1 <= kMaxHeight.
Proof. apply RandomHeight_loop_range. unfold kMaxHeight. lia. Qed.

(** ** Insertion keeps the representation *)

Section InsertProofs.
Context {K : Type} {compare : K -> K -> comparison} {domK : K -> Prop}.
Context {HO : KeyOrder compare domK}.
Context (rnd : nat -> Z).
Implicit Types (s : @SkipList K) (L lt ge pre mid post : list (@entry K)) (k : K).

Lemma represents_empty pos : represents compare domK (@SkipList_make K pos) [].
Proof.
  constructor; unfold SkipList_make; cbn [heap maxheight].
  - unfold kMaxHeight. lia.
  - constructor.
  - done.
  - constructor.
  - intros pre post i H Hi. symmetry in H. apply app_eq_nil in H as [-> ->].
    unfold node_height in Hi. cbn in Hi. unfold Next, last_addr, link. cbn [last from_option].
    rewrite lookup_singleton_eq. cbn [nextnode]. by rewrite lookup_replicate_2.
  - apply NoDup_singleton.
  - constructor.
  - constructor.
  - apply map_size_singleton.
Qed.

Lemma shape_last_addr s pre post :
  represents compare domK s (pre ++ post) ->
  exists ko, shape (heap s) (last_addr pre) = Some (ko, node_height pre).
Proof.
  intros H. destruct pre as [|e pre _] using rev_ind.
  { exists None. apply H. }
  exists (Some (ekey e)). rewrite last_addr_snoc, node_height_snoc.
  pose proof (rep_shape _ _ _ _ H) as Hs. rewrite Forall_forall in Hs. apply Hs. set_solver.
Qed.

Lemma shape_in_dom (h : gmap nat (@Node K)) a z : shape h a = Some z -> a ∈ dom h.
Proof. unfold shape. intros H. apply elem_of_dom. destruct (h !! a); [done|by cbn in H]. Qed.

Lemma represents_in_dom s L a :
  represents compare domK s L -> a ∈ head :: map addr L -> a ∈ dom (heap s).
Proof.
  intros H Ha. apply elem_of_cons in Ha as [->|Ha].
  { eapply shape_in_dom, H. }
  apply list_elem_of_In, in_map_iff in Ha as (e & <- & He).
  pose proof (rep_shape _ _ _ _ H) as Hs. rewrite Forall_forall in Hs.
  eapply shape_in_dom, Hs. by apply list_elem_of_In.
Qed.

Lemma last_above_high i pre :
  Forall (fun e => height e <= i) pre -> last_above i pre = head.
Proof.
  unfold last_above. induction 1 as [|e pre He _ IH]; [done|]. cbn [List.filter above].
  by rewrite (proj2 (Nat.ltb_ge _ _) He).
Qed.

(** The link of the predecessor recorded for level [i] skips to [ge]. *)
Lemma Next_last_above s lt ge i :
  represents compare domK s (lt ++ ge) -> i < kMaxHeight ->
  Next (heap s) (last_above i lt) i = link i ge /\ has_level (heap s) (last_above i lt) i.
Proof.
  intros H Hi. destruct (last_above_split i lt Hi) as (p & q & -> & <- & Hp & Hq).
  rewrite <- app_assoc in H. split.
  - rewrite (rep_next _ _ _ _ H p (q ++ ge)), link_app, Hq by done. done.
  - destruct (shape_last_addr s p _ H) as (ko & Hs). by exists ko, (node_height p).
Qed.

(** The heap after the splice, at every node and level. *)
Section Spliced.
Context (s : @SkipList K) (lt ge : list (@entry K)) (k : K) (x ht : nat) (prev : list nat).
Hypothesis (H : represents compare domK s (lt ++ ge)).
Hypothesis (Hht : 1 <= ht <= kMaxHeight).
Hypothesis (Hx : x ∉ dom (heap s)).
Hypothesis (Hprev : forall i, i < ht -> prev_at prev i = last_above i lt).

Let h0 := <[x := MkNode (Some k) (replicate ht None)]> (heap s).
Let h' := Insert_loop ht 0 prev x h0.
Let new := Entry x k ht.

Lemma fresh_ne a : a ∈ head :: map addr (lt ++ ge) -> a <> x.
Proof. intros Ha ->. by apply Hx, (represents_in_dom s (lt ++ ge)). Qed.

Lemma last_above_ne i : last_above i lt <> x.
Proof.
  apply fresh_ne. rewrite map_app. destruct (last_above_elem i lt) as [->|]; set_solver.
Qed.

Lemma spliced :
  (forall a, shape h' a = if decide (x = a) then Some (Some k, ht) else shape (heap s) a) /\
  (forall a j, j < ht -> Next h' a j =
     if decide (a = x) then link j ge
     else if decide (a = last_above j lt) then Some x else Next (heap s) a j) /\
  (forall a j, ht <= j -> a <> x -> Next h' a j = Next (heap s) a j).
Proof.
  destruct (Insert_loop_spec ht 0 prev x h0) as [Hs Hn].
  { intros j Hj. rewrite Hprev by lia. split_and!; [| |apply last_above_ne].
    - exists (Some k), ht. unfold h0. rewrite shape_insert, decide_True by done. cbn.
      rewrite length_replicate. split; [done|lia].
    - destruct (Next_last_above s lt ge j H) as [_ (ko & n & Hsh & Hn)]; [lia|].
      exists ko, n. unfold h0. rewrite shape_insert, decide_False; [done|].
      pose proof (last_above_ne j). congruence. }
  subst h'. split_and!.
  - intros a. rewrite Hs. unfold h0. rewrite shape_insert. cbn. by rewrite length_replicate.
  - intros a j Hj. rewrite Hn, Hprev, decide_True by lia. unfold h0 at 1.
    rewrite Next_insert_ne by apply last_above_ne.
    destruct (Next_last_above s lt ge j H ltac:(lia)) as [-> _].
    destruct (decide (a = x)); [done|]. case_decide; [done|].
    unfold h0. by rewrite Next_insert_ne.
  - intros a j Hj Ha. rewrite Hn, decide_False by lia. unfold h0. by rewrite Next_insert_ne.
Qed.

Lemma nodup_last_addr pre mid : lt = pre ++ mid -> last_addr pre ∉ map addr mid.
Proof.
  intros ->. pose proof (rep_nodup _ _ _ _ H) as Hnd. rewrite !map_app in Hnd.
  apply NoDup_cons in Hnd as [Hh Hnd]. rewrite !not_elem_of_app in Hh.
  apply NoDup_app in Hnd as [Hnd _]. apply NoDup_app in Hnd as (_ & Hnd & _).
  destruct (last_addr_elem pre) as [->|Hl]; [tauto|by apply Hnd].
Qed.

Lemma spliced_left p q i :
  lt = p ++ q -> i < node_height p -> i < kMaxHeight ->
  Next h' (last_addr p) i = link i (q ++ new :: ge).
Proof.
  destruct spliced as (_ & Hlow & Hhigh). intros Hpq Hp Hi.
  assert (last_addr p <> x) as Hpx.
  { apply fresh_ne. rewrite Hpq, !map_app. destruct (last_addr_elem p) as [->|]; set_solver. }
  assert (Next (heap s) (last_addr p) i = link i (q ++ ge)) as Hold
    by (apply (rep_next _ _ _ _ H); [by rewrite Hpq, app_assoc|done]).
  rewrite link_app in Hold |- *.
  assert (link i (new :: ge) = if i <? ht then Some x else link i ge) as Hnew.
  { unfold link. subst new. cbn [List.find above height]. by destruct (i <? ht). }
  destruct (Nat.ltb_spec i ht) as [Hiht|Hiht].
  - rewrite Hlow, decide_False by done.
    destruct (List.find (above i) q) as [e|] eqn:Eq.
    + rewrite decide_False; [done|]. intros Hl. apply (nodup_last_addr p q Hpq).
      rewrite Hl, Hpq. by eapply last_above_mid.
    + rewrite decide_True, Hnew; [done|]. rewrite Hpq. symmetry. by apply last_above_low.
  - rewrite Hhigh, Hold by done. by destruct (List.find (above i) q).
Qed.

Lemma spliced_right m e post i :
  ge = (m ++ [e]) ++ post -> i < height e ->
  Next h' (addr e) i = link i post.
Proof.
  destruct spliced as (_ & Hlow & Hhigh). intros Hge Hi.
  assert (Next (heap s) (addr e) i = link i post) as Hold.
  { rewrite <- (last_addr_snoc (lt ++ m) e). apply (rep_next _ _ _ _ H).
    - by rewrite Hge, <- !app_assoc.
    - by rewrite node_height_snoc. }
  assert (addr e <> x).
  { apply fresh_ne, elem_of_cons. right. apply elem_addr.
    rewrite Hge, !elem_of_app, list_elem_of_singleton. tauto. }
  destruct (decide (i < ht)) as [Hiht|Hiht]; [|rewrite Hhigh by (lia || done); done].
  rewrite Hlow, decide_False, decide_False; [done| |done|done].
  assert (e ∈ ge) as He by (rewrite Hge, !elem_of_app, list_elem_of_singleton; tauto).
  pose proof (rep_nodup _ _ _ _ H) as Hnd. rewrite map_app in Hnd.
  apply NoDup_cons in Hnd as [Hh Hnd]. apply NoDup_app in Hnd as (_ & Hnd & _).
  apply elem_addr in He. rewrite not_elem_of_app in Hh.
  intros Hl. destruct (last_above_elem i lt) as [Hz|Hz]; [naive_solver congruence|].
  apply (Hnd (addr e)); [by rewrite Hl|done].
Qed.

Lemma spliced_next pre post i :
  lt ++ new :: ge = pre ++ post -> i < node_height pre -> i < kMaxHeight ->
  Next h' (last_addr pre) i = link i post.
Proof.
  intros [(m & Hlt & ->)|(m & -> & Hge)]%app_eq_inv Hi HM.
  { by apply spliced_left. }
  destruct m as [|e m]; cbn in Hge.
  { subst post. rewrite app_nil_r in *. apply (spliced_left lt []); [by rewrite app_nil_r|done..]. }
  injection Hge as <- Hge. destruct m as [|e m _] using rev_ind.
  - rewrite last_addr_snoc, node_height_snoc in *. cbn in Hi, Hge. subst post.
    destruct spliced as (_ & Hlow & _). by rewrite Hlow, decide_True.
  - rewrite (app_assoc lt (new :: m) [e] : lt ++ new :: m ++ [e] = _) in *.
    rewrite last_addr_snoc, node_height_snoc in *. by apply (spliced_right m).
Qed.
End Spliced.

Lemma node_height_le s pre post :
  represents compare domK s (pre ++ post) -> node_height pre <= kMaxHeight.
Proof.
  intros H. destruct pre as [|e pre _] using rev_ind; [done|]. rewrite node_height_snoc.
  pose proof (rep_heights _ _ _ _ H) as Hh. pose proof (rep_max _ _ _ _ H).
  rewrite !Forall_app, Forall_singleton in Hh. lia.
Qed.

Lemma sorted_with k x ht lt ge :
  StronglySorted (lt_entry compare) (lt ++ ge) -> domK k ->
  Forall (fun e => domK (ekey e)) (lt ++ ge) ->
  Forall (fun e => compare (ekey e) k <> Eq) (lt ++ ge) ->
  Forall (@below _ compare k) lt -> Forall (fun e => ~ @below _ compare k e) ge ->
  StronglySorted (lt_entry compare) (lt ++ Entry x k ht :: ge).
Proof.
  rewrite !StronglySorted_app, !Forall_app. intros (Hlg & Hlt & Hge) Hk [Hd1 Hd2] [_ Hne] Hb Hnb.
  assert (forall e, e ∈ ge -> compare k (ekey e) = Lt) as Hkge.
  { intros e He. rewrite !Forall_forall in *. rewrite (key_opp k) by auto.
    specialize (Hne e He). specialize (Hnb e He). unfold below in Hnb.
    destruct (compare (ekey e) k); done. }
  rewrite Forall_forall in Hb. split_and!; [|done|].
  - intros a b Ha [->|Hb']%elem_of_cons; [by apply Hb|by apply Hlg].
  - constructor; [done|]. by apply Forall_forall.
Qed.

(** What the new tower's array [prev] holds once [Insert] has filled it. *)
Lemma prev_filled s lt ge ht prev :
  represents compare domK s (lt ++ ge) -> ht <= kMaxHeight -> length prev = kMaxHeight ->
  (forall i, i < maxheight s -> prev !! i = Some (last_above i lt)) ->
  let prev' := if maxheight s <? ht then fill_head (ht - maxheight s) (maxheight s) prev else prev in
  forall i, i < ht -> prev_at prev' i = last_above i lt.
Proof.
  intros H Hht Hlen Hprev prev' i Hi. unfold prev_at. subst prev'.
  destruct (Nat.ltb_spec (maxheight s) ht) as [Hm|Hm]; [|by rewrite Hprev by lia].
  rewrite fill_head_spec. destruct (decide (maxheight s <= i)) as [Hs|Hs].
  - rewrite decide_True by lia. cbn. symmetry. apply last_above_high.
    pose proof (rep_heights _ _ _ _ H) as Hh. rewrite Forall_app in Hh.
    eapply Forall_impl; [apply Hh|]. cbn. lia.
  - rewrite decide_False by lia. by rewrite Hprev by lia.
Qed.

Lemma splice_represents s lt ge k x ht prev mh pos :
  represents compare domK s (lt ++ ge) -> domK k -> 1 <= ht <= kMaxHeight ->
  Forall (fun e => compare (ekey e) k <> Eq) (lt ++ ge) ->
  Forall (@below _ compare k) lt -> Forall (fun e => ~ @below _ compare k e) ge ->
  x ∉ dom (heap s) -> (forall i, i < ht -> prev_at prev i = last_above i lt) ->
  mh = Nat.max (maxheight s) ht ->
  represents compare domK
    (MkSkipList (Insert_loop ht 0 prev x (<[x := MkNode (Some k) (replicate ht None)]> (heap s)))
       mh pos) (lt ++ Entry x k ht :: ge).
Proof.
  intros H Hk Hht Hne Hlt Hge Hx Hprev ->.
  destruct (spliced s lt ge k x ht prev H Hht Hx Hprev) as (Hshape & _ & _).
  pose proof (rep_max _ _ _ _ H). pose proof (rep_heights _ _ _ _ H) as Hh.
  assert (Forall (fun e => x <> addr e) (lt ++ ge)) as Hfresh.
  { apply Forall_forall. intros e He Hxe. apply Hx, (represents_in_dom s (lt ++ ge)); [done|].
    rewrite Hxe, elem_of_cons. right. by apply elem_addr. }
  pose proof (rep_shape _ _ _ _ H) as Hsh. pose proof (rep_dom _ _ _ _ H) as Hd.
  constructor; cbn [heap maxheight].
  - lia.
  - rewrite Forall_app in Hh |- *. rewrite Forall_cons. cbn [height]. destruct Hh as [Hh1 Hh2].
    split_and!; [|lia..|]; eapply Forall_impl; try done; cbn; lia.
  - rewrite Hshape, decide_False; [apply H|]. intros ->. apply Hx.
    eapply shape_in_dom, H.
  - pose proof (conj Hsh Hfresh) as Hs. rewrite <- Forall_and in Hs.
    rewrite Forall_app in Hs |- *. rewrite Forall_cons. cbn [addr ekey height].
    rewrite Hshape, decide_True by done. destruct Hs as [Hs1 Hs2].
    refine (conj _ (conj eq_refl _));
      (eapply Forall_impl; [eassumption|]); cbn; intros e [? ?]; by rewrite Hshape, decide_False.
  - intros pre post i Heq Hi. eapply spliced_next; [done..|].
    eapply Nat.lt_le_trans; [done|]. destruct pre as [|e pre _] using rev_ind; [done|].
    rewrite node_height_snoc. assert (e ∈ lt ++ Entry x k ht :: ge) as He
      by (rewrite Heq, !elem_of_app, list_elem_of_singleton; tauto).
    rewrite Forall_forall in Hh. specialize (Hh e). revert He Hh.
    rewrite !elem_of_app, elem_of_cons. intros [?|[->|?]] Hh; [|cbn|]; naive_solver lia.
  - pose proof (rep_nodup _ _ _ _ H) as Hnd. rewrite map_app in Hnd |- *. cbn [map addr].
    rewrite app_comm_cons, <- Permutation_middle. rewrite NoDup_cons.
    split; [|done]. rewrite <- app_comm_cons, <- map_app.
    intros Hin. by apply Hx, (represents_in_dom s (lt ++ ge)).
  - apply sorted_with; [apply H|done..].
  - rewrite Forall_app in Hd |- *. rewrite Forall_cons. naive_solver.
  - rewrite <- size_dom, Insert_loop_dom, dom_insert_L, size_union, size_singleton, size_dom
      by set_solver.
    rewrite (rep_size _ _ _ _ H), !length_app. cbn. lia.
Qed.

Lemma Insert_represents s L k :
  represents compare domK s L -> domK k -> Forall (fun e => compare (ekey e) k <> Eq) L ->
  exists s' lt ge x ht, Insert compare rnd s k = Some s' /\ L = lt ++ ge /\
    Forall (@below _ compare k) lt /\ Forall (fun e => ~ @below _ compare k e) ge /\
    represents compare domK s' (lt ++ Entry x k ht :: ge).
Proof.
  intros H Hk Hne. destruct (split_at s L k H Hk) as (lt & ge & -> & Hlt & Hge).
  destruct (FindGreaterOrEqual_spec s _ lt ge k H eq_refl Hlt Hge) as (prev & Hfind & Hlen & Hprev).
  unfold Insert. rewrite Hfind. pose proof (RandomHeight_range rnd (rndpos s)) as Hht.
  destruct (RandomHeight rnd (rndpos s)) as [ht pos]. cbn [fst] in Hht.
  pose proof (prev_filled s lt ge ht prev H ltac:(lia) Hlen Hprev) as Hprev'. cbv zeta in Hprev'.
  pose proof (is_fresh (dom (heap s))) as Hx.
  destruct (Nat.ltb_spec (maxheight s) ht); eexists _, lt, ge, (fresh (dom (heap s))), ht;
    (split_and!; [reflexivity|done..|]); eapply splice_represents; try done; lia.
Qed.

Lemma keys_sorted_insert k lt ge x ht :
  Forall (@below _ compare k) lt -> Forall (fun e => ~ @below _ compare k e) ge ->
  keys (lt ++ Entry x k ht :: ge) = sorted_insert compare k (keys (lt ++ ge)).
Proof.
  intros Hlt Hge. unfold keys. induction Hlt as [|e lt He Hlt IH]; cbn.
  - destruct Hge as [|e ge He _]; [done|]. unfold below in He. cbn.
    by destruct (compare (ekey e) k).
  - unfold below in He. rewrite He. by f_equal.
Qed.
End InsertProofs.

(** ** Theorems *)

Section Theorems.
Context {K : Type} {compare : K -> K -> comparison} {domK : K -> Prop}.
Context {HO : KeyOrder compare domK}.
Implicit Types (s : @SkipList K) (L lt ge : list (@entry K)) (k : K).

(** The node at position [i] of the list; null past its end. *)
Definition node_at L (i : nat) : option nat := addr <$> L !! i.

Lemma node_at_app lt ge j : node_at (lt ++ ge) (length lt + j) = node_at ge j.
Proof. unfold node_at. by rewrite lookup_app_r, Nat.add_sub' by lia. Qed.

Lemma link_0 s pre post :
  represents compare domK s (pre ++ post) -> link 0 post = node_at post 0.
Proof.
  intros H. unfold link, node_at. destruct post as [|e post]; [done|].
  pose proof (rep_heights _ _ _ _ H) as Hh. rewrite Forall_app, Forall_cons in Hh.
  cbn [List.find above]. by rewrite (proj2 (Nat.ltb_lt 0 (height e))) by lia.
Qed.

Lemma iter_key_at s L i : represents compare domK s L -> iter_key s (node_at L i) = keys L !! i.
Proof.
  intros H. unfold node_at, iter_key, keys. rewrite list_lookup_fmap.
  destruct (L !! i) as [e|] eqn:E; [|done]. cbn.
  apply (represents_key s L e H). by eapply list_elem_of_lookup_2.
Qed.

Lemma iter_Next_at s L i :
  represents compare domK s L -> i < length L -> iter_Next s (node_at L i) = node_at L (i + 1).
Proof.
  intros H [e He]%lookup_lt_is_Some. pose proof He as Hs. apply take_drop_middle in Hs.
  unfold node_at at 1. rewrite He. cbn. rewrite <- Hs in H.
  rewrite (cons_middle e), app_assoc in H.
  rewrite <- (last_addr_snoc (take i L) e), (rep_next _ _ _ _ H _ _ 0 eq_refl), (link_0 s _ _ H).
  - unfold node_at. rewrite lookup_drop. do 2 f_equal. lia.
  - rewrite node_height_snoc. pose proof (rep_heights _ _ _ _ H) as Hh.
    rewrite !Forall_app, Forall_singleton in Hh. lia.
Qed.

Lemma not_head_last s L pre post :
  represents compare domK s L -> L = pre ++ post -> not_head (last_addr pre) = addr <$> last pre.
Proof.
  intros H ->. destruct pre as [|e pre _] using rev_ind; [done|].
  rewrite last_addr_snoc, last_snoc. unfold not_head. rewrite decide_False; [done|].
  pose proof (rep_nodup _ _ _ _ H) as Hnd. apply NoDup_cons in Hnd as [Hh _].
  rewrite !map_app, !not_elem_of_app in Hh. cbn in Hh. set_solver.
Qed.

(** Everything in front of a list element is below its key, nothing after it is. *)
Lemma split_around s pre e post :
  represents compare domK s (pre ++ e :: post) ->
  Forall (@below _ compare (ekey e)) pre /\
  Forall (fun e' => ~ @below _ compare (ekey e) e') (e :: post).
Proof.
  intros H. pose proof (rep_sorted _ _ _ _ H) as Hs. pose proof (rep_dom _ _ _ _ H) as Hd.
  rewrite StronglySorted_app, StronglySorted_cons in Hs. destruct Hs as (Hx & _ & Ha & _).
  rewrite Forall_app, Forall_cons in Hd. destruct Hd as (_ & He & Hp). split.
  { apply Forall_forall. intros e' He'. apply (Hx e' e); [done|]. apply elem_of_cons. by left. }
  assert (compare (ekey e) (ekey e) = Eq) as Hrefl.
  { pose proof (key_opp (ekey e) (ekey e) He He). by destruct (compare (ekey e) (ekey e)). }
  apply Forall_cons. unfold below. split; [by rewrite Hrefl|].
  rewrite Forall_forall in Ha, Hp |- *. intros e' He'. rewrite (key_opp (ekey e')) by auto.
  unfold lt_entry in Ha. by rewrite (Ha e').
Qed.

Lemma iter_Prev_at s L i :
  represents compare domK s L -> i < length L ->
  iter_Prev compare s (node_at L i) = Some (match i with O => None | S j => node_at L j end).
Proof.
  intros H Hi. unfold iter_Prev. rewrite (iter_key_at s L i H). unfold keys. rewrite list_lookup_fmap.
  destruct (proj2 (lookup_lt_is_Some L i) Hi) as [e He]. rewrite He. cbn [fmap option_fmap option_map].
  pose proof He as Hs. apply take_drop_middle in Hs. rewrite <- Hs in H.
  destruct (split_around s _ _ _ H) as [Hlt Hge].
  rewrite (FindLessThan_spec s _ _ _ _ H eq_refl Hlt Hge). f_equal.
  rewrite (not_head_last s _ _ _ H eq_refl). destruct i as [|j]; [done|].
  unfold node_at. rewrite last_lookup, length_take, Nat.min_l, Nat.pred_succ by lia.
  by rewrite lookup_take_lt by lia.
Qed.

Lemma iter_Seek_at s lt ge k :
  represents compare domK s (lt ++ ge) ->
  Forall (@below _ compare k) lt -> Forall (fun e => ~ @below _ compare k e) ge ->
  iter_Seek compare s k = Some (node_at (lt ++ ge) (length lt)).
Proof.
  intros H Hlt Hge. unfold iter_Seek.
  destruct (FindGreaterOrEqual_spec s _ lt ge k H eq_refl Hlt Hge) as (prev & -> & _ & _).
  by rewrite (link_0 s lt ge H), <- (Nat.add_0_r (length lt)), node_at_app.
Qed.

Lemma Contains_spec s L k :
  represents compare domK s L -> domK k ->
  Contains compare s k = Some (existsb (fun k' => bool_decide (compare k k' = Eq)) (keys L)).
Proof.
  intros H Hk. destruct (split_at s L k H Hk) as (lt & ge & -> & Hlt & Hge).
  unfold Contains.
  destruct (FindGreaterOrEqual_spec s _ lt ge k H eq_refl Hlt Hge) as (prev & -> & _ & _).
  pose proof (rep_dom _ _ _ _ H) as Hd. rewrite Forall_app in Hd. destruct Hd as [Hd1 Hd2].
  rewrite (link_0 s lt ge H). unfold keys. rewrite map_app, existsb_app.
  replace (existsb _ (map ekey lt)) with false; cbn [orb].
  2:{ symmetry. apply not_true_iff_false. rewrite existsb_exists.
      intros (k' & (e & <- & He%list_elem_of_In)%in_map_iff & Heq%bool_decide_eq_true).
      rewrite Forall_forall in Hlt, Hd1. specialize (Hlt e He). unfold below in Hlt.
      by rewrite (key_opp k), Hlt in Heq by auto. }
  unfold node_at. destruct ge as [|e ge]; [done|]. cbn [lookup list_lookup fmap option_fmap option_map].
  rewrite (represents_key s _ e H) by set_solver. cbn [map existsb].
  case_bool_decide as Heq; [done|]. cbn [orb]. symmetry. f_equal.
  apply not_true_iff_false. rewrite existsb_exists.
  intros (k' & (e' & <- & He'%list_elem_of_In)%in_map_iff & Heq'%bool_decide_eq_true).
  pose proof (rep_sorted _ _ _ _ H) as Hs.
  apply StronglySorted_app_1_r in Hs. apply StronglySorted_cons in Hs as [Ha _].
  apply Forall_cons in Hd2 as [Hde Hd2]. apply Forall_cons in Hge as [Hbe _]. unfold below in Hbe.
  rewrite Forall_forall in Ha, Hd2. specialize (Ha e' He'). unfold lt_entry in Ha.
  rewrite (key_eq_l k (ekey e') (ekey e)), (key_opp (ekey e')), Ha in Heq by auto.
  rewrite (key_opp (ekey e) k), (key_eq_l k (ekey e') (ekey e)), (key_opp (ekey e')), Ha in Hbe by auto.
  done.
Qed.

(** C24: Insertion refines insertion into a sorted list.  Started from a skip list that
    represents the strictly sorted keys [keys L], [Insert] returns - the search loops
    end within their fuel - and the new heap represents the keys with [k] put in its
    place, at every level of the towers and whatever heights the random generator
    chooses. *)
Theorem Insert_refines (rnd : nat -> Z) s L k :
  represents compare domK s L -> domK k -> Forall (fun e => compare (ekey e) k <> Eq) L ->
  exists s' L', Insert compare rnd s k = Some s' /\ represents compare domK s' L' /\
    keys L' = sorted_insert compare k (keys L).
Proof.
  intros H Hk Hne.
  destruct (Insert_represents rnd s L k H Hk Hne) as (s' & lt & ge & x & ht & HI & -> & Hlt & Hge & H').
  exists s', (lt ++ Entry x k ht :: ge). split_and!; [done..|]. by apply keys_sorted_insert.
Qed.

(** Searches and iterators refine the sorted list: [Contains] is membership,
    [Seek] stops at the first key that is not below its target, [SeekToFirst] and
    [SeekToLast] at the ends, [Next] and [Prev] step to the neighbours (null past the
    ends), and [key] is the key at that position. *)
Theorem search_refines s L k :
  represents compare domK s L -> domK k ->
  Contains compare s k = Some (existsb (fun k' => bool_decide (compare k k' = Eq)) (keys L)) /\
  (exists i, iter_Seek compare s k = Some (node_at L i) /\
     forall j k', keys L !! j = Some k' -> (compare k' k = Lt <-> j < i)) /\
  iter_SeekToFirst s = node_at L 0 /\
  iter_SeekToLast s = Some (addr <$> last L) /\
  (forall i, iter_key s (node_at L i) = keys L !! i) /\
  (forall i, i < length L -> iter_Next s (node_at L i) = node_at L (i + 1) /\
     iter_Prev compare s (node_at L i) = Some (match i with O => None | S j => node_at L j end)).
Proof.
  intros H Hk. split; [by apply Contains_spec|]. split.
  { destruct (split_at s L k H Hk) as (lt & ge & -> & Hlt & Hge). exists (length lt).
    split; [by apply iter_Seek_at|]. intros j k'. unfold keys. setoid_rewrite list_lookup_fmap.
    intros (e & He & ->)%fmap_Some. apply lookup_app_Some in He as [He|[Hj He]].
    - pose proof (lookup_lt_Some _ _ _ He). rewrite Forall_lookup in Hlt.
      split; [done|]. intros _. by apply (Hlt j).
    - rewrite Forall_lookup in Hge. split; [|lia]. intros Hb. by apply Hge in He. }
  split; [|split; [|split]].
  - unfold iter_SeekToFirst. rewrite <- (link_0 s [] L H).
    apply (rep_next _ _ _ _ H [] L 0 eq_refl). unfold node_height, kMaxHeight. cbn. lia.
  - unfold iter_SeekToLast. rewrite (FindLast_spec s L H). f_equal.
    apply (not_head_last s L L [] H). by rewrite app_nil_r.
  - intros i. by apply iter_key_at.
  - intros i Hi. split; [by apply iter_Next_at|by apply iter_Prev_at].
Qed.
End Theorems.

(** ** Witnesses: integer keys *)

#[export] Instance Z_KeyOrder : KeyOrder Z.compare (fun _ => True).
Proof.
  split; intros.
  - apply Z.compare_antisym.
  - rewrite Z.compare_lt_iff in *. lia.
  - by rewrite (proj1 (Z.compare_eq_iff a b)).
Qed.

(** A generator whose first towers are 2, 1 and 3 high. *)
Definition demo_rnd (i : nat) : Z := nth i [4; 1; 3; 8; 12; 5]%Z 1%Z.

Definition demo_list : option SkipList :=
  let? s := Insert Z.compare demo_rnd (SkipList_make 0) 20%Z in
  let? s := Insert Z.compare demo_rnd s 10%Z in
  Insert Z.compare demo_rnd s 30%Z.

Lemma Insert_refines_witness :
  exists s' L', Insert Z.compare demo_rnd (SkipList_make 0) 20%Z = Some s' /\
    represents Z.compare (fun _ => True) s' L' /\ keys L' = [20%Z].
Proof.
  exact (Insert_refines demo_rnd (SkipList_make 0) [] 20%Z (represents_empty 0) I (List.Forall_nil _)).
Defined.

Lemma search_refines_witness :
  exists s L, Insert Z.compare demo_rnd (SkipList_make 0) 20%Z = Some s /\
    Contains Z.compare s 20%Z = Some (existsb (fun k' => bool_decide (Z.compare 20 k' = Eq)) (keys L)).
Proof.
  destruct (Insert_represents demo_rnd (SkipList_make 0) [] 20%Z (represents_empty 0) I (List.Forall_nil _))
    as (s & lt & ge & x & ht & HI & _ & _ & _ & H).
  exists s, (lt ++ Entry x 20%Z ht :: ge). split; [exact HI|].
  exact (proj1 (search_refines s _ 20%Z H I)).
Defined.

Example demo_Seek :
  (let? s := demo_list in let? p := iter_Seek Z.compare s 11%Z in iter_key s p) = Some 20%Z.
Proof. vm_compute. reflexivity. Qed.
