(* ===== verification/MemTable.v ===== *)
(** The memtable (redisdb/db/memtable.h and memtable.cc): encoded entries in a
    skip list ordered by internal key.

    The contract: a memtable is the set of entries added to it, and [Get] finds the
    newest of them that its lookup key may see. *)
From Stdlib Require Import Sorted.
From stdpp Require Import gmap sorting.
From S2P Require Import Prelude Coding Status DbFormat SkipList.
Local Open Scope Z_scope.

Section MemTable.
Context (c : Comparator) (rnd : nat -> Z).

(** ** Operations *)

(** [MemTable::KeyComparator]: internal keys are stored length-prefixed. *)
Definition KeyComparator (a b : bytes) : comparison :=
  Internal_Compare c (default [] (GetLengthPrefixedSliceData a))
    (default [] (GetLengthPrefixedSliceData b)).

Record MemTable := MkMemTable { table : @SkipList bytes; memoryusage : Z }.

Definition MemTable_make : MemTable := MkMemTable (SkipList_make 0) 0.

Definition GetMemoryUsage (m : MemTable) : Z := memoryusage m.

(** The buffer [Add] fills. *)
Definition Add_buf (seq : Z) (type : ValueType) (key value : bytes) : bytes :=
  let internalkeysize := Z.of_nat (length key) + 8 in
  let valsize := Z.of_nat (length value) in
  EncodeVarint32 (u32 internalkeysize) ++ key ++
  EncodeFixed64 (Z.lor (u64 (Z.shiftl seq 8)) (type_value type)) ++
  EncodeVarint32 (u32 valsize) ++ value.

Definition encodedlen (key value : bytes) : Z :=
  let internalkeysize := Z.of_nat (length key) + 8 in
  let valsize := Z.of_nat (length value) in
  VarintLength internalkeysize + internalkeysize + VarintLength valsize + valsize.

(** The source asserts that the buffer is exactly full. *)
Definition Add (m : MemTable) (seq : Z) (type : ValueType) (key value : bytes)
    : option MemTable :=
  let buf := Add_buf seq type key value in
  if decide (Z.of_nat (length buf) = encodedlen key value) then
    let? table := Insert KeyComparator rnd (table m) buf in
    Some (MkMemTable table (memoryusage m + encodedlen key value))
  else None.

(** The body of [if (iter.Valid())] in [Get]. *)
Definition Get_entry (entry : bytes) (key : LookupKey) (value : bytes) (s : Status)
    : option (bool * bytes * Status) :=
  let? (keylength, rest) := GetVarint32Ptr (take 5 entry) in
  let keyptr := drop (length (take 5 entry) - length rest) entry in
  let n := Z.to_nat keylength in
  match Compare c (take (n - 8) keyptr) (UserKey key) with
  | Eq =>
      let tag := DecodeFixed64 (drop (n - 8) keyptr) in
      let type := Z.land tag 255 in
      if type =? type_value kTypeValue then
        let? v := GetLengthPrefixedSliceData (drop n keyptr) in Some (true, v, s)
      else if type =? type_value kTypeDeletion then Some (true, value, NotFound [] [])
      else Some (false, value, s)
  | _ => Some (false, value, s)
  end.

(** [Get(key, value, s)]: the result and the final [*value] and [*s]. *)
Definition Get (m : MemTable) (key : LookupKey) (value : bytes) (s : Status)
    : option (bool * bytes * Status) :=
  let memkey := MemtableKey key in
  let? iter := iter_Seek KeyComparator (table m) memkey in
  if Valid iter then
    let? entry := iter_key (table m) iter in Get_entry entry key value s
  else Some (false, value, s).

(** The loop of [ClearTable] over the list, with the keys it frees. *)
Fixpoint ClearTable_loop (fuel : nat) (s : @SkipList bytes) (iter : option nat)
    : option (list bytes) :=
  match fuel with
  | O => None
  | S fuel' =>
      if Valid iter then
        let? k := iter_key s iter in
        let? ks := ClearTable_loop fuel' s (iter_Next s iter) in Some (k :: ks)
      else Some []
  end.

Definition ClearTable (m : MemTable) : option (list bytes * MemTable) :=
  let? freed := ClearTable_loop (size (heap (table m))) (table m) (iter_SeekToFirst (table m)) in
  Some (freed, MkMemTable (table m) 0).

(** ** [MemTableIterator] *)

Definition EncodeKey (target : bytes) : bytes :=
  PutVarint32 [] (u32 (Z.of_nat (length target))) ++ target.

Definition mem_Seek (m : MemTable) (k : bytes) : option (option nat) :=
  iter_Seek KeyComparator (table m) (EncodeKey k).
Definition mem_SeekToFirst (m : MemTable) : option nat := iter_SeekToFirst (table m).
Definition mem_SeekToLast (m : MemTable) : option (option nat) := iter_SeekToLast (table m).
Definition mem_Next (m : MemTable) (it : option nat) : option nat := iter_Next (table m) it.
Definition mem_Prev (m : MemTable) (it : option nat) : option (option nat) :=
  iter_Prev KeyComparator (table m) it.

Definition mem_key (m : MemTable) (it : option nat) : option bytes :=
  let? e := iter_key (table m) it in GetLengthPrefixedSliceData e.

(** [keyview.data() + keyview.size()] points behind the key inside the entry. *)
Definition mem_value (m : MemTable) (it : option nat) : option bytes :=
  let? e := iter_key (table m) it in
  let? (len, rest) := GetVarint32Ptr (take 5 e) in
  let keyview := drop (length (take 5 e) - length rest) e in
  GetLengthPrefixedSliceData (drop (Z.to_nat len) keyview).

(** ** The contract *)

Record MemEntry := MkMemEntry { mkey : ParsedInternalKey; mvalue : bytes }.

Definition encode (e : MemEntry) : bytes :=
  PutLengthPrefixedSlice [] (AppendInternalKey [] (mkey e)) ++
  PutLengthPrefixedSlice [] (mvalue e).

(** Sizes and sequence numbers the format can hold. *)
Definition fits (e : MemEntry) : Prop :=
  0 <= sequence (mkey e) <= kMaxSequenceNumber /\
  Z.of_nat (length (userkey (mkey e))) + 8 < 2 ^ 32 /\
  Z.of_nat (length (mvalue e)) < 2 ^ 32.

Definition usage (es : list MemEntry) : Z :=
  foldr (fun e u => encodedlen (userkey (mkey e)) (mvalue e) + u) 0 es.

(** [m] holds the entries [es], in the order they were added. *)
Definition holds (m : MemTable) (es : list MemEntry) : Prop :=
  Forall fits es /\ memoryusage m = usage es /\
  exists L, represents KeyComparator (fun _ => True) (table m) L /\
    keys L ≡ₚ map encode es.

(** [e] is the newest entry for user key [u] that sequence number [s] sees. *)
Definition newest (es : list MemEntry) (u : bytes) (s : Z) (e : MemEntry) : Prop :=
  e ∈ es /\ Compare c (userkey (mkey e)) u = Eq /\ sequence (mkey e) <= s /\
  forall e', e' ∈ es -> Compare c (userkey (mkey e')) u = Eq -> sequence (mkey e') <= s ->
    e' = e \/ sequence (mkey e') < sequence (mkey e).
End MemTable.

(** ** Encoded entries *)

Section Encoding.
Context {c : Comparator} {Hok : ComparatorOk c (fun _ => True)}.

#[export] Instance KeyComparator_order : KeyOrder (KeyComparator c) (fun _ => True).
Proof.
  constructor; unfold KeyComparator; intros.
  - apply Internal_opp.
  - by eapply Internal_lt_trans.
  - by apply Internal_eq_l.
Qed.

Lemma type_mod t n : (type_value t + n * 2 ^ 8) mod 2 ^ 8 = type_value t.
Proof. rewrite Z.mod_add by done. by destruct t. Qed.

Lemma KeyComparator_slices x y r r' : Z.of_nat (length x) < 2 ^ 32 -> Z.of_nat (length y) < 2 ^ 32 ->
  KeyComparator c (PutLengthPrefixedSlice [] x ++ r) (PutLengthPrefixedSlice [] y ++ r') = Internal_Compare c x y.
Proof. intros Hx Hy. unfold KeyComparator. by rewrite !GetLengthPrefixedSliceData_Put by lia. Qed.

Lemma KeyComparator_prefixed a b r r' :
  0 <= sequence a <= kMaxSequenceNumber -> 0 <= sequence b <= kMaxSequenceNumber ->
  Z.of_nat (length (userkey a)) + 8 < 2 ^ 32 -> Z.of_nat (length (userkey b)) + 8 < 2 ^ 32 ->
  KeyComparator c (PutLengthPrefixedSlice [] (AppendInternalKey [] a) ++ r)
    (PutLengthPrefixedSlice [] (AppendInternalKey [] b) ++ r') = entry_compare c a b.
Proof.
  intros Ha Hb Hla Hlb. rewrite KeyComparator_slices by (rewrite length_AppendInternalKey; lia).
  by apply Internal_Compare_Append.
Qed.

Lemma Add_buf_encode e :
  fits e -> Add_buf (sequence (mkey e)) (type (mkey e)) (userkey (mkey e)) (mvalue e) = encode e.
Proof.
  destruct e as [[u q t] v]. intros (Hs & Hu & Hv). unfold Add_buf, encode. cbn [mkey mvalue userkey sequence type] in *.
  unfold PutLengthPrefixedSlice, PutVarint32. rewrite length_AppendInternalKey.
  rewrite Nat2Z.inj_add. unfold AppendInternalKey, PutFixed64. by rewrite !app_nil_l, <- !app_assoc.
Qed.

Lemma length_encode e : fits e -> Z.of_nat (length (encode e)) = encodedlen (userkey (mkey e)) (mvalue e).
Proof.
  destruct e as [[u q t] v]. intros (Hs & Hu & Hv). cbn [mkey mvalue userkey sequence type] in *.
  unfold encodedlen, encode, PutLengthPrefixedSlice, PutVarint32. cbn [mkey mvalue].
  cbn [userkey]. rewrite !VarintLength_32 by lia. lens. rewrite length_AppendInternalKey. cbn [userkey].
  replace (Z.of_nat (length u + 8)) with (Z.of_nat (length u) + 8) by lia.
  rewrite !u32_small by lia. lia.
Qed.

Lemma Get_entry_encode e k u s value st :
  fits e -> Z.of_nat (length u) + 8 < 2 ^ 32 -> k = LookupKey_make u s ->
  Get_entry c (encode e) k value st =
    Some (match Compare c (userkey (mkey e)) u with
          | Eq => match type (mkey e) with
                  | kTypeValue => (true, mvalue e, st)
                  | kTypeDeletion => (true, value, NotFound [] [])
                  end
          | _ => (false, value, st)
          end).
Proof.
  intros (Hs & Hu & Hv) Hlu ->. pose proof (LookupKey_views u s ltac:(lia)) as (_ & _ & HU).
  unfold Get_entry. rewrite HU. unfold encode.
  destruct (slice_start (AppendInternalKey [] (mkey e)) (PutLengthPrefixedSlice [] (mvalue e)))
    as (r & -> & ->); [rewrite length_AppendInternalKey; lia|].
  cbv zeta. rewrite Nat2Z.id, length_AppendInternalKey, Nat.add_sub.
  rewrite (drop_app_exact (AppendInternalKey [] (mkey e)) _ (length (userkey (mkey e)) + 8)) by (by rewrite length_AppendInternalKey).
  unfold AppendInternalKey, PutFixed64. cbn [app]. rewrite <- app_assoc.
  rewrite take_app_length, drop_app_length, DecodeFixed64_app.
  rewrite u64_small by (by apply packSequenceAndType_range).
  change 255 with (Z.ones 8). rewrite packSequenceAndType_value, Z.land_ones, type_mod by done.
  rewrite <- (app_nil_r (PutLengthPrefixedSlice [] (mvalue e))), GetLengthPrefixedSliceData_Put by lia.
  by destruct (Compare c _ _), (type (mkey e)).
Qed.
End Encoding.

(** ** Theorems *)

Lemma sorted_insert_perm {K} (compare : K -> K -> comparison) k ks :
  sorted_insert compare k ks ≡ₚ k :: ks.
Proof.
  induction ks as [|k' ks IH]; cbn; [done|]. destruct (compare k' k); [done| |done].
  rewrite IH. apply Permutation_swap.
Qed.

Section Theorems.
Context {c : Comparator} {Hok : ComparatorOk c (fun _ => True)}.
Implicit Types (m : MemTable) (es : list MemEntry) (e : MemEntry).

Abbreviation mem_represents := (represents (KeyComparator c) (fun _ : bytes => True)).

Lemma holds_make : holds c MemTable_make [].
Proof. split_and!; [constructor|done|]. exists []. split; [apply represents_empty|done]. Qed.

Lemma usage_snoc es e : usage (es ++ [e]) = usage es + encodedlen (userkey (mkey e)) (mvalue e).
Proof. unfold usage. induction es as [|x es IH]; cbn in *; lia. Qed.

Lemma KeyComparator_encode a b :
  fits a -> fits b -> KeyComparator c (encode a) (encode b) = entry_compare c (mkey a) (mkey b).
Proof. intros (?&?&?) (?&?&?). by apply KeyComparator_prefixed. Qed.

Lemma Add_step rnd m es e :
  holds c m es -> fits e ->
  Forall (fun e' => entry_compare c (mkey e') (mkey e) <> Eq) es ->
  exists m', Add c rnd m (sequence (mkey e)) (type (mkey e)) (userkey (mkey e)) (mvalue e) = Some m' /\
    holds c m' (es ++ [e]).
Proof.
  intros (Hf & Hu & L & HL & Hk) He Hne. unfold Add. cbv zeta.
  rewrite Add_buf_encode, decide_True by (done || by apply length_encode).
  destruct (Insert_represents rnd (table m) L (encode e) HL I)
    as (s' & lt & ge & x & ht & -> & -> & Hlt & Hge & HL').
  { apply Forall_forall. intros y Hy. assert (ekey y ∈ map encode es) as Hin.
    { rewrite <- Hk. unfold keys. rewrite !list_elem_of_In in *. by apply in_map. }
    apply list_elem_of_In, in_map_iff in Hin as (e' & <- & He'%list_elem_of_In).
    rewrite Forall_forall in Hne, Hf. rewrite KeyComparator_encode by auto. by apply Hne. }
  eexists. split; [done|]. split_and!.
  - by apply Forall_app, conj, List.Forall_cons.
  - cbn. rewrite usage_snoc. lia.
  - exists (lt ++ Entry x (encode e) ht :: ge). split; [done|].
    rewrite (keys_sorted_insert (compare := KeyComparator c)), sorted_insert_perm, Hk by done.
    rewrite map_app. cbn [map]. by rewrite Permutation_cons_append.
Qed.

(** The list entry that stores [e], and the entry stored at a node. *)
Lemma stored m es L e :
  keys L ≡ₚ map encode es -> e ∈ es -> exists x, x ∈ L /\ ekey x = encode e.
Proof.
  intros Hk He. assert (encode e ∈ keys L) as Hin.
  { rewrite Hk, list_elem_of_In in *. by apply in_map, list_elem_of_In. }
  apply list_elem_of_In, in_map_iff in Hin as (x & Hx & HxL%list_elem_of_In). by exists x.
Qed.

Lemma stored_inv es L x :
  keys L ≡ₚ map encode es -> x ∈ L -> exists e, e ∈ es /\ ekey x = encode e.
Proof.
  intros Hk Hx. assert (ekey x ∈ map encode es) as Hin.
  { rewrite <- Hk, list_elem_of_In in *. by apply in_map, list_elem_of_In. }
  apply list_elem_of_In, in_map_iff in Hin as (e & He & Hin%list_elem_of_In). by exists e.
Qed.

Definition seek_key (u : bytes) (s : Z) : ParsedInternalKey := MkParsedInternalKey u s kTypeValue.

Lemma KeyComparator_lookup e u s :
  fits e -> Z.of_nat (length u) + 8 < 2 ^ 32 -> 0 <= s <= kMaxSequenceNumber ->
  KeyComparator c (encode e) (MemtableKey (LookupKey_make u s)) = entry_compare c (mkey e) (seek_key u s).
Proof.
  intros (?&?&?) Hu Hs. destruct (LookupKey_views u s ltac:(lia)) as (-> & _ & _).
  rewrite <- (app_nil_r (PutLengthPrefixedSlice _ _)). by apply KeyComparator_prefixed.
Qed.

(** An entry is at or after the seek key of [u] and [s] exactly when its user key
    is larger, or the same with a sequence number [s] can see. *)
Lemma entry_compare_seek e u s :
  entry_compare c (mkey e) (seek_key u s) <> Lt <->
  Compare c (userkey (mkey e)) u = Gt \/
  (Compare c (userkey (mkey e)) u = Eq /\ sequence (mkey e) <= s).
Proof.
  unfold entry_compare. cbn [userkey sequence type seek_key].
  destruct (Compare c (userkey (mkey e)) u); [|naive_solver|naive_solver].
  destruct (Z.compare_spec s (sequence (mkey e))); [|naive_solver lia|naive_solver lia].
  destruct (type (mkey e)); cbn; naive_solver lia.
Qed.

(** What [Get] does in terms of where the list splits. *)
Lemma Get_split m es L u s value st :
  Forall fits es -> mem_represents (table m) L -> keys L ≡ₚ map encode es ->
  Z.of_nat (length u) + 8 < 2 ^ 32 -> 0 <= s <= kMaxSequenceNumber ->
  exists lt ge, L = lt ++ ge /\
    Forall (@below _ (KeyComparator c) (MemtableKey (LookupKey_make u s))) lt /\
    Forall (fun y => ~ @below _ (KeyComparator c) (MemtableKey (LookupKey_make u s)) y) ge /\
    Get c m (LookupKey_make u s) value st =
      match ge with
      | [] => Some (false, value, st)
      | y :: _ => Get_entry c (ekey y) (LookupKey_make u s) value st
      end.
Proof.
  intros Hf HL Hk Hu Hs. set (lk := LookupKey_make u s).
  destruct (split_at (table m) L (MemtableKey lk) HL I) as (lt & ge & -> & Hlt & Hge).
  exists lt, ge. split_and!; [done..|]. unfold Get. cbv zeta.
  rewrite (iter_Seek_at (table m) lt ge) by done.
  rewrite <- (Nat.add_0_r (length lt)), node_at_app. unfold node_at.
  destruct ge as [|y ge]; [done|]. cbn. unfold iter_key. cbn [mbind option_bind].
  by rewrite (represents_key (table m) (lt ++ y :: ge) y HL) by set_solver.
Qed.

(** C33: adding an entry whose internal key is new succeeds: the buffer is exactly
    [encodedlen] bytes (the assert of the source), the skip list accepts it, and the
    table then holds the entry after all earlier ones, its memory usage grown by the
    encoded length. *)
Theorem Add_holds rnd m es e :
  holds c m es -> fits e ->
  Forall (fun e' => entry_compare c (mkey e') (mkey e) <> Eq) es ->
  exists m', Add c rnd m (sequence (mkey e)) (type (mkey e)) (userkey (mkey e)) (mvalue e) = Some m' /\
    holds c m' (es ++ [e]) /\
    GetMemoryUsage m' = GetMemoryUsage m + Z.of_nat (length (encode e)).
Proof.
  intros Hm He Hne. destruct (Add_step rnd m es e Hm He Hne) as (m' & HA & Hm').
  exists m'. split; [done|]. split; [done|]. rewrite length_encode by done.
  destruct Hm as (_ & Hu & _), Hm' as (_ & Hu' & _). unfold GetMemoryUsage.
  by rewrite Hu', Hu, usage_snoc.
Qed.

(** Of two visible entries of a user key, the one met first is not older. *)
Lemma seek_first_newest e1 e es u s :
  newest c es u s e -> e1 ∈ es ->
  entry_compare c (mkey e1) (seek_key u s) <> Lt -> entry_compare c (mkey e1) (mkey e) <> Lt.
Proof.
  intros (He & Heq & Hes & Hmax) He1 Hseek Hlt. revert Hlt. unfold entry_compare.
  rewrite (Compare_eq_r (userkey (mkey e)) u (userkey (mkey e1))) by done.
  apply entry_compare_seek in Hseek as [->|[Heq1 Hle]]; [done|]. rewrite Heq1.
  destruct (Hmax e1 He1 Heq1 Hle) as [->|Hlt].
  - by rewrite !Z.compare_refl.
  - by rewrite (proj2 (Z.compare_gt_iff _ _) Hlt).
Qed.

Lemma Get_newest m es u s value st :
  holds c m es -> Z.of_nat (length u) + 8 < 2 ^ 32 -> 0 <= s <= kMaxSequenceNumber ->
  forall e, newest c es u s e ->
  Get c m (LookupKey_make u s) value st =
    Some (match type (mkey e) with
          | kTypeValue => (true, mvalue e, st)
          | kTypeDeletion => (true, value, NotFound [] [])
          end).
Proof.
  intros (Hf & _ & L & HL & Hk) Hu Hs e (He & Heq & Hes & Hmax).
  destruct (Get_split m es L u s value st Hf HL Hk Hu Hs) as (lt & ge & -> & Hlt & Hge & ->).
  destruct (stored m es _ e Hk He) as (x & Hx & Hxe). rewrite Forall_forall in Hf.
  assert (forall y e', y ∈ lt ++ ge -> e' ∈ es -> ekey y = encode e' ->
    @below _ (KeyComparator c) (MemtableKey (LookupKey_make u s)) y <->
    entry_compare c (mkey e') (seek_key u s) = Lt) as Hbelow.
  { intros y e' _ He' Hy. unfold below. rewrite Hy, KeyComparator_lookup by auto. done. }
  assert (x ∈ ge) as Hxg.
  { apply elem_of_app in Hx as [Hxl|]; [|done]. exfalso.
    rewrite Forall_forall in Hlt. specialize (Hlt x Hxl).
    apply (Hbelow x e) in Hlt; [|set_solver|done|done].
    by eapply entry_compare_seek; [right|]. }
  destruct ge as [|y ge]; [by apply not_elem_of_nil in Hxg|].
  destruct (stored_inv es _ y Hk ltac:(set_solver)) as (e1 & He1 & Hy).
  apply Forall_cons in Hge as [Hyb _]. rewrite (Hbelow y e1) in Hyb by (done || set_solver).
  assert (ekey y = encode e) as ->.
  { apply elem_of_cons in Hxg as [->|Hxg]; [done|]. exfalso.
    pose proof (rep_sorted _ _ _ _ HL) as Hsort.
    apply StronglySorted_app_1_r, StronglySorted_cons in Hsort as [Hall _].
    rewrite Forall_forall in Hall. specialize (Hall x Hxg). unfold lt_entry in Hall.
    rewrite Hy, Hxe, KeyComparator_encode in Hall by auto.
    by apply (seek_first_newest e1 e es u s). }
  rewrite (Get_entry_encode e _ u s) by auto. by rewrite Heq.
Qed.

Lemma Get_absent m es u s value st :
  holds c m es -> Z.of_nat (length u) + 8 < 2 ^ 32 -> 0 <= s <= kMaxSequenceNumber ->
  (forall e, e ∈ es -> Compare c (userkey (mkey e)) u = Eq -> s < sequence (mkey e)) ->
  Get c m (LookupKey_make u s) value st = Some (false, value, st).
Proof.
  intros (Hf & _ & L & HL & Hk) Hu Hs Hno.
  destruct (Get_split m es L u s value st Hf HL Hk Hu Hs) as (lt & ge & -> & Hlt & Hge & ->).
  destruct ge as [|y ge]; [done|].
  destruct (stored_inv es _ y Hk ltac:(set_solver)) as (e1 & He1 & Hy). rewrite Forall_forall in Hf.
  apply Forall_cons in Hge as [Hyb _]. unfold below in Hyb.
  rewrite Hy, KeyComparator_lookup in Hyb by auto. apply entry_compare_seek in Hyb.
  rewrite Hy, (Get_entry_encode e1 _ u s) by auto.
  destruct Hyb as [->|[Heq Hle]]; [done|]. specialize (Hno e1 He1 Heq). lia.
Qed.

(** C22: [Get] finds the newest visible entry.  Whatever was added and in whatever
    order, looking up user key [u] at sequence number [s] returns the value of the
    entry of [u] with the largest sequence number not above [s]; it reports
    [NotFound] when that entry is a deletion, leaving [value] alone; and with no such
    entry it returns [false] and changes nothing. *)
Theorem Get_finds_newest m es u s value st :
  holds c m es -> Z.of_nat (length u) + 8 < 2 ^ 32 -> 0 <= s <= kMaxSequenceNumber ->
  (forall e, newest c es u s e ->
     Get c m (LookupKey_make u s) value st =
       Some (match type (mkey e) with
             | kTypeValue => (true, mvalue e, st)
             | kTypeDeletion => (true, value, NotFound [] [])
             end)) /\
  ((forall e, e ∈ es -> Compare c (userkey (mkey e)) u = Eq -> s < sequence (mkey e)) ->
     Get c m (LookupKey_make u s) value st = Some (false, value, st)).
Proof.
  intros Hm Hu Hs. split.
  - intros e He. by apply (Get_newest m es).
  - by apply Get_absent.
Qed.

(** The entries in the order of the list. *)
Lemma holds_sorted m es L :
  Forall fits es -> mem_represents (table m) L -> keys L ≡ₚ map encode es ->
  exists sorted, sorted ≡ₚ es /\ keys L = map encode sorted /\
    StronglySorted (fun a b => entry_compare c (mkey a) (mkey b) = Lt) sorted.
Proof.
  intros Hf HL (sorted & Hk & Hp)%Permutation_map_inv. exists sorted.
  split; [by symmetry|]. split; [done|]. rewrite Hp in Hf. clear Hp.
  pose proof (rep_sorted _ _ _ _ HL) as Hs. unfold keys in Hk. clear HL.
  revert L Hk Hs. induction Hf as [|e sorted He Hf IH]; intros L Hk Hs; [constructor|].
  destruct L as [|x L]; [done|]. cbn [map] in Hk. injection Hk as Hx Hk.
  apply StronglySorted_cons in Hs as [Hall Hs]. constructor; [by eapply IH|].
  apply Forall_forall. intros e' He'. rewrite Forall_forall in Hall. rewrite Forall_forall in Hf.
  assert (encode e' ∈ map ekey L) as Hin.
  { rewrite Hk. apply list_elem_of_In, in_map. by apply list_elem_of_In. }
  apply list_elem_of_In, in_map_iff in Hin as (y & Hy & Hin%list_elem_of_In).
  specialize (Hall y Hin). unfold lt_entry in Hall. rewrite Hx, Hy in Hall.
  by rewrite KeyComparator_encode in Hall by auto.
Qed.

Lemma mem_at_entry m it e :
  fits e -> iter_key (table m) it = Some (encode e) ->
  mem_key m it = Some (AppendInternalKey [] (mkey e)) /\ mem_value m it = Some (mvalue e).
Proof.
  intros (Hs & Hu & Hv) Hit. unfold mem_key, mem_value. rewrite Hit. unfold encode. split.
  - apply GetLengthPrefixedSliceData_Put. rewrite length_AppendInternalKey. lia.
  - destruct (slice_start (AppendInternalKey [] (mkey e)) (PutLengthPrefixedSlice [] (mvalue e)))
      as (r & -> & ->); [rewrite length_AppendInternalKey; lia|].
    rewrite Nat2Z.id, drop_app_length, <- (app_nil_r (PutLengthPrefixedSlice _ _)).
    apply GetLengthPrefixedSliceData_Put. lia.
Qed.

Lemma Valid_node_at (L : list (@entry bytes)) i : Valid (node_at L i) = (i <? length L)%nat.
Proof.
  unfold Valid, node_at. destruct (L !! i) as [x|] eqn:E; cbn [fmap option_fmap option_map].
  - apply lookup_lt_Some in E. rewrite (proj2 (Nat.ltb_lt _ _)) by lia. by apply bool_decide_eq_true.
  - apply lookup_ge_None in E. by rewrite (proj2 (Nat.ltb_ge _ _)) by lia.
Qed.

Lemma ClearTable_loop_keys (s : @SkipList bytes) L :
  mem_represents s L -> forall n fuel i, (length L - i = n)%nat -> (n < fuel)%nat ->
  ClearTable_loop fuel s (node_at L i) = Some (drop i (keys L)).
Proof.
  intros HL. induction n as [|n IH]; intros fuel i Hn Hf;
    (destruct fuel as [|fuel]; [lia|]); cbn [ClearTable_loop]; rewrite Valid_node_at.
  - rewrite (proj2 (Nat.ltb_ge _ _)) by lia. unfold keys. by rewrite drop_ge by (rewrite length_map; lia).
  - rewrite (proj2 (Nat.ltb_lt _ _)) by lia. rewrite (iter_key_at s L i HL).
    destruct (proj2 (lookup_lt_is_Some (keys L) i)) as [k Hk]; [unfold keys; rewrite length_map; lia|].
    rewrite Hk, (iter_Next_at s L i HL) by lia.
    rewrite (IH fuel (i + 1)%nat) by lia. by rewrite (drop_S _ k i), Nat.add_1_r by done.
Qed.

(** The entries in the order of the iterator, and its positions. *)
Lemma mem_walk m es :
  holds c m es ->
  exists sorted pos, sorted ≡ₚ es /\
    StronglySorted (fun a b => entry_compare c (mkey a) (mkey b) = Lt) sorted /\
    mem_SeekToFirst m = pos O /\
    mem_SeekToLast m = Some (match length sorted with O => None | S j => pos j end) /\
    (forall i, Valid (pos i) = (i <? length sorted)%nat) /\
    (forall i e, sorted !! i = Some e ->
       mem_key m (pos i) = Some (AppendInternalKey [] (mkey e)) /\
       mem_value m (pos i) = Some (mvalue e) /\
       mem_Next m (pos i) = pos (S i) /\
       mem_Prev c m (pos i) = Some (match i with O => None | S j => pos j end)) /\
    ClearTable m = Some (map encode sorted, MkMemTable (table m) 0) /\
    (length sorted < size (heap (table m)))%nat /\
    pos (length sorted) = None /\
    forall target, Z.of_nat (length target) < 2 ^ 32 -> exists i, mem_Seek c m target = Some (pos i) /\ (i <= length sorted)%nat /\
      forall j e, sorted !! j = Some e -> (Internal_Compare c (AppendInternalKey [] (mkey e)) target = Lt <-> (j < i)%nat).
Proof.
  intros (Hf & _ & L & HL & Hk).
  destruct (holds_sorted m es L Hf HL Hk) as (sorted & Hp & HkL & Hs).
  assert (length L = length sorted) as Hlen.
  { apply (f_equal length) in HkL. unfold keys in HkL. by rewrite !length_map in HkL. }
  assert (iter_SeekToFirst (table m) = node_at L 0) as Hfirst.
  { unfold iter_SeekToFirst. rewrite <- (link_0 (table m) [] L HL).
    apply (rep_next _ _ _ _ HL [] L 0 eq_refl). unfold node_height, kMaxHeight. cbn. lia. }
  exists sorted, (node_at L). refine (conj Hp (conj Hs (conj Hfirst (conj _ (conj _ (conj _ (conj _ (conj _ (conj _ _))))))))).
  - unfold mem_SeekToLast, iter_SeekToLast. rewrite (FindLast_spec (table m) L HL). f_equal.
    rewrite (not_head_last (table m) L L [] HL) by (by rewrite app_nil_r).
    unfold node_at. rewrite last_lookup, <- Hlen. by destruct L.
  - intros i. by rewrite Valid_node_at, Hlen.
  - intros i e He. pose proof (lookup_lt_Some _ _ _ He) as Hi. rewrite <- Hlen in Hi.
    assert (e ∈ es) as Hin by (rewrite <- Hp; by eapply list_elem_of_lookup_2).
    destruct (mem_at_entry m (node_at L i) e) as [H1 H2]; [by eapply (proj1 (Forall_forall _ _) Hf)| |].
    { rewrite (iter_key_at (table m) L i HL), HkL. rewrite list_lookup_fmap. by rewrite He. }
    split_and!; [done..| |].
    + unfold mem_Next. rewrite (iter_Next_at (table m) L i HL Hi). by rewrite Nat.add_1_r.
    + unfold mem_Prev. by apply iter_Prev_at.
  - unfold ClearTable. rewrite Hfirst, (ClearTable_loop_keys (table m) L HL (length L)).
    + cbn. by rewrite HkL.
    + lia.
    + rewrite (rep_size _ _ _ _ HL). lia.
  - rewrite (rep_size _ _ _ _ HL), <- Hlen. lia.
  - unfold node_at. by rewrite <- Hlen, lookup_ge_None_2.
  - intros target Ht. destruct (split_at (table m) L (EncodeKey target) HL Logic.I) as (lt & ge & -> & Hlt & Hge).
    exists (length lt). split; [by apply iter_Seek_at|]. rewrite length_app in Hlen. split; [lia|]. intros j e He.
    assert (keys (lt ++ ge) !! j = Some (encode e)) as Hj by (rewrite HkL, list_lookup_fmap; by rewrite He).
    assert (e ∈ es) as Hin by (rewrite <- Hp; by eapply list_elem_of_lookup_2).
    pose proof (proj1 (Forall_forall _ _) Hf e Hin) as (_ & Hu & _).
    assert (KeyComparator c (encode e) (EncodeKey target) = Internal_Compare c (AppendInternalKey [] (mkey e)) target) as Hcmp.
    { unfold encode. change (EncodeKey target) with (PutLengthPrefixedSlice [] target).
      rewrite <- (app_nil_r (PutLengthPrefixedSlice [] target)).
      apply (KeyComparator_slices _ target); [rewrite length_AppendInternalKey; lia|done]. }
    rewrite <- Hcmp. unfold keys in Hj. rewrite list_lookup_fmap in Hj. apply fmap_Some in Hj as (x & Hx & Hex).
    apply lookup_app_Some in Hx as [Hx|[Hge' Hx]].
    + pose proof (lookup_lt_Some _ _ _ Hx). rewrite Forall_lookup in Hlt. split; [done|]. intros _.
      specialize (Hlt j x Hx). unfold below in Hlt. by rewrite <- Hex in Hlt.
    + rewrite Forall_lookup in Hge. split; [|lia]. intros Hb. exfalso. apply (Hge _ x Hx). unfold below. by rewrite <- Hex.
Qed.

(** the memtable iterator walks the entries in internal-key order: there is an
    ordering [sorted] of what was added, strictly increasing, with a position for each
    entry that shows its internal key and value; [SeekToFirst] and [SeekToLast] go to
    the ends, [Next] and [Prev] to the neighbours, [Seek] to the first entry that is not
    below its target, and the iterator is valid exactly at these positions.  [ClearTable] frees every entry exactly once. *)
Theorem memtable_iterator m es :
  holds c m es ->
  exists sorted pos, sorted ≡ₚ es /\
    StronglySorted (fun a b => entry_compare c (mkey a) (mkey b) = Lt) sorted /\
    mem_SeekToFirst m = pos O /\
    mem_SeekToLast m = Some (match length sorted with O => None | S j => pos j end) /\
    (forall i, Valid (pos i) = (i <? length sorted)%nat) /\
    (forall i e, sorted !! i = Some e ->
       mem_key m (pos i) = Some (AppendInternalKey [] (mkey e)) /\
       mem_value m (pos i) = Some (mvalue e) /\
       mem_Next m (pos i) = pos (S i) /\
       mem_Prev c m (pos i) = Some (match i with O => None | S j => pos j end)) /\
    (forall target, Z.of_nat (length target) < 2 ^ 32 -> exists i, mem_Seek c m target = Some (pos i) /\ (i <= length sorted)%nat /\
       forall j e, sorted !! j = Some e -> (Internal_Compare c (AppendInternalKey [] (mkey e)) target = Lt <-> (j < i)%nat)) /\
    ClearTable m = Some (map encode sorted, MkMemTable (table m) 0).
Proof.
  intros Hm. destruct (mem_walk m es Hm) as (sorted & pos & Hw). exists sorted, pos.
  destruct Hw as (? & ? & ? & ? & ? & ? & ? & _ & _ & ?). by split_and!.
Qed.
End Theorems.

(** ** Witnesses *)

Definition demo_entry : MemEntry :=
  MkMemEntry (MkParsedInternalKey (str "user7") 5 kTypeValue) (str "v5").

Lemma demo_fits : fits demo_entry.
Proof. unfold fits. vm_compute. intuition discriminate. Qed.

Lemma Add_holds_witness :
  exists m', Add BytewiseComparatorImpl demo_rnd MemTable_make 5 kTypeValue (str "user7") (str "v5")
    = Some m' /\ GetMemoryUsage m' = 17.
Proof.
  destruct (Add_holds demo_rnd _ [] demo_entry holds_make demo_fits (List.Forall_nil _))
    as (m' & HA & _ & Hu).
  exists m'. split; [exact HA|]. rewrite Hu. vm_compute. reflexivity.
Defined.

Lemma Get_finds_newest_witness :
  exists m', Add BytewiseComparatorImpl demo_rnd MemTable_make 5 kTypeValue (str "user7") (str "v5")
    = Some m' /\
    Get BytewiseComparatorImpl m' (LookupKey_make (str "user7") 9) [] OK = Some (true, str "v5", OK).
Proof.
  destruct (Add_step demo_rnd _ [] demo_entry holds_make demo_fits (List.Forall_nil _))
    as (m' & HA & Hm).
  exists m'. split; [exact HA|].
  refine (proj1 (Get_finds_newest m' ([] ++ [demo_entry]) (str "user7") 9 [] OK Hm _ _) demo_entry _).
  - vm_compute. reflexivity.
  - vm_compute. split; discriminate.
  - split; [apply elem_of_cons; by left|]. split; [vm_compute; reflexivity|]. split; [vm_compute; discriminate|].
    intros e' He' _ _. left. by apply list_elem_of_singleton in He'.
Defined.

Lemma memtable_iterator_witness :
  exists m' sorted pos,
    Add BytewiseComparatorImpl demo_rnd MemTable_make 5 kTypeValue (str "user7") (str "v5") = Some m' /\
    sorted ≡ₚ [demo_entry] /\ mem_SeekToFirst m' = pos O.
Proof.
  destruct (Add_step demo_rnd _ [] demo_entry holds_make demo_fits (List.Forall_nil _))
    as (m' & HA & Hm).
  destruct (memtable_iterator m' ([] ++ [demo_entry]) Hm) as (sorted & pos & Hp & _ & Hf & _).
  exists m', sorted, pos. split; [exact HA|]. split; [exact Hp|exact Hf].
Defined.
