(* ===== verification/WriteBatch.v ===== *)
(** Write batches (redisdb/db/writebatch.h and writebatch.cc).

    A batch is one byte string: an 8-byte sequence number, a 4-byte count and the
    records.  Applied to a memtable it adds its operations in order, each one
    sequence number after the one before. *)
From stdpp Require Import gmap sorting.
From S2P Require Import Prelude Coding Status DbFormat SkipList MemTable.
Local Open Scope Z_scope.

(** ** Operations *)

Definition kHeader : nat := 12.

Record WriteBatch := MkWriteBatch { rep : bytes }.

(** [WriteBatch::clear], which the constructor calls. *)
Definition clear : WriteBatch := MkWriteBatch (replicate kHeader x00).

(** [n] is an [int]: the 32 bits are read back as signed. *)
Definition Count (b : WriteBatch) : Z := i32 (DecodeFixed32 (drop 8 (rep b))).
Definition SetCount (b : WriteBatch) (n : Z) : WriteBatch :=
  MkWriteBatch (take 8 (rep b) ++ EncodeFixed32 n ++ drop 12 (rep b)).

Definition GetSequence (b : WriteBatch) : Z := DecodeFixed64 (rep b).
Definition SetSequence (b : WriteBatch) (seq : Z) : WriteBatch :=
  MkWriteBatch (EncodeFixed64 seq ++ drop 8 (rep b)).

Definition Contents (b : WriteBatch) : bytes := rep b.
Definition ByteSize (b : WriteBatch) : Z := Z.of_nat (length (rep b)).
Definition ApproximateSize (b : WriteBatch) : Z := Z.of_nat (length (rep b)).

(** REQUIRES (assert): [Contents.size() >= kHeader]. *)
Definition SetContents (contents : bytes) : WriteBatch := MkWriteBatch contents.

Definition type_byte (t : ValueType) : byte := z2b (type_value t).

Definition Delete (b : WriteBatch) (key : bytes) : WriteBatch :=
  let b := SetCount b (i32 (Count b + 1)) in
  MkWriteBatch (PutLengthPrefixedSlice (rep b ++ [type_byte kTypeDeletion]) key).

Definition Put (b : WriteBatch) (key value : bytes) : WriteBatch :=
  let b := SetCount b (i32 (Count b + 1)) in
  MkWriteBatch (PutLengthPrefixedSlice
    (PutLengthPrefixedSlice (rep b ++ [type_byte kTypeValue]) key) value).

Definition append (dst src : WriteBatch) : WriteBatch :=
  let dst := SetCount dst (i32 (Count dst + Count src)) in
  MkWriteBatch (rep dst ++ drop kHeader (rep src)).

Section Iterate.
Context (c : Comparator) (rnd : nat -> Z).

(** The [while (!input.empty())] loop of [Iterate]: the status it ended with, the
    operations it found and the memtable.  Each record is at least one byte, so the
    length of the input is enough fuel. *)
Fixpoint Iterate_loop (fuel : nat) (input : bytes) (found sequence : Z) (mem : MemTable)
    : option (Status * Z * MemTable) :=
  match fuel with
  | O => None
  | S fuel' =>
      match input with
      | [] => Some (OK, found, mem)
      | tag :: input =>
          let found := i32 (found + 1) in
          if b2z tag =? type_value kTypeValue then
            match GetLengthPrefixedSlice input with
            | Some (key, input) =>
                match GetLengthPrefixedSlice input with
                | Some (value, input) =>
                    let? mem := Add c rnd mem sequence kTypeValue key value in
                    Iterate_loop fuel' input found (u64 (sequence + 1)) mem
                | None => Some (Corruption (str "bad WriteBatch Put") [], found, mem)
                end
            | None => Some (Corruption (str "bad WriteBatch Put") [], found, mem)
            end
          else if b2z tag =? type_value kTypeDeletion then
            match GetLengthPrefixedSlice input with
            | Some (key, input) =>
                let? mem := Add c rnd mem sequence kTypeDeletion key [] in
                Iterate_loop fuel' input found (u64 (sequence + 1)) mem
            | None => Some (Corruption (str "bad WriteBatch Delete") [], found, mem)
            end
          else Some (Corruption (str "unknown WriteBatch tag") [], found, mem)
      end
  end.

Definition Iterate (b : WriteBatch) (sequence : Z) (mem : MemTable) : option (Status * MemTable) :=
  let input := rep b in
  if (length input <? kHeader)%nat then
    Some (Corruption (str "malformed WriteBatch (too small)") [], mem)
  else
    let input := drop kHeader input in
    let? (s, found, mem) := Iterate_loop (S (length input)) input 0 sequence mem in
    if negb (ok s) then Some (s, mem)
    else if negb (found =? Count b) then Some (Corruption (str "WriteBatch has wrong Count") [], mem)
    else Some (OK, mem).

Definition InsertInto (b : WriteBatch) (mem : MemTable) : option (Status * MemTable) :=
  Iterate b (GetSequence b) mem.
End Iterate.

(** ** The contract: a batch is a list of operations *)

Inductive Op := OpPut (key value : bytes) | OpDelete (key : bytes).

Definition apply_op (b : WriteBatch) (o : Op) : WriteBatch :=
  match o with OpPut k v => Put b k v | OpDelete k => Delete b k end.

Definition op_bytes (o : Op) : bytes :=
  match o with
  | OpPut k v => type_byte kTypeValue ::
      PutLengthPrefixedSlice [] k ++ PutLengthPrefixedSlice [] v
  | OpDelete k => type_byte kTypeDeletion :: PutLengthPrefixedSlice [] k
  end.

Definition ops_bytes (ops : list Op) : bytes := concat (map op_bytes ops).

(** [b] carries sequence number [seq] and the operations [ops]. *)
Definition batch (b : WriteBatch) (seq : Z) (ops : list Op) : Prop :=
  rep b = EncodeFixed64 seq ++ EncodeFixed32 (Z.of_nat (length ops)) ++ ops_bytes ops.

Definition op_entry (seq : Z) (o : Op) : MemEntry :=
  match o with
  | OpPut k v => MkMemEntry (MkParsedInternalKey k seq kTypeValue) v
  | OpDelete k => MkMemEntry (MkParsedInternalKey k seq kTypeDeletion) []
  end.

(** The entries a batch adds, the first at [seq]. *)
Fixpoint entries (seq : Z) (ops : list Op) : list MemEntry :=
  match ops with
  | [] => []
  | o :: ops => op_entry seq o :: entries (seq + 1) ops
  end.

Definition op_key (o : Op) : bytes := match o with OpPut k _ => k | OpDelete k => k end.

(** Sizes the encoding can hold. *)
Definition op_fits (o : Op) : Prop :=
  Z.of_nat (length (op_key o)) + 8 < 2 ^ 32 /\
  match o with OpPut _ v => Z.of_nat (length v) < 2 ^ 32 | OpDelete _ => True end.

(** ** Building batches *)

Lemma type_byte_value t : b2z (type_byte t) = type_value t.
Proof. by destruct t. Qed.

Lemma batch_clear : batch clear 0 [].
Proof. done. Qed.

Lemma batch_Count b seq ops :
  batch b seq ops -> Z.of_nat (length ops) < 2 ^ 31 -> Count b = Z.of_nat (length ops).
Proof.
  intros H Hl. unfold Count. rewrite H, drop_app_exact, DecodeFixed32_app by done.
  rewrite u32_small, i32_small by lia. done.
Qed.

Lemma SetCount_rep b seq ops n :
  batch b seq ops ->
  rep (SetCount b n) = EncodeFixed64 seq ++ EncodeFixed32 n ++ ops_bytes ops.
Proof.
  intros H. unfold SetCount. cbn [rep]. rewrite H.
  by rewrite take_app_exact.
Qed.

Lemma ops_bytes_snoc ops o : ops_bytes (ops ++ [o]) = ops_bytes ops ++ op_bytes o.
Proof. unfold ops_bytes. rewrite map_app, concat_app. cbn [map concat]. by rewrite app_nil_r. Qed.

Lemma ops_bytes_app ops ops' : ops_bytes (ops ++ ops') = ops_bytes ops ++ ops_bytes ops'.
Proof. unfold ops_bytes. by rewrite map_app, concat_app. Qed.

Lemma batch_op b seq ops o :
  batch b seq ops -> Z.of_nat (length ops) + 1 < 2 ^ 31 -> batch (apply_op b o) seq (ops ++ [o]).
Proof.
  intros H Hl. pose proof (batch_Count b seq ops H ltac:(lia)) as Hc.
  unfold batch. rewrite ops_bytes_snoc, length_app. cbn [length].
  replace (Z.of_nat (length ops + 1)) with (i32 (Count b + 1)) by (rewrite Hc, i32_small; lia).
  destruct o as [k v|k]; cbn [apply_op op_bytes]; unfold Put, Delete; cbn [rep];
    rewrite (SetCount_rep b seq ops) by done;
    repeat (rewrite (PutLengthPrefixedSlice_app (_ ++ _)), <- ?app_assoc); done.
Qed.

Lemma batch_SetSequence b seq ops seq' : batch b seq ops -> batch (SetSequence b seq') seq' ops.
Proof.
  unfold batch, SetSequence. cbn [rep]. intros ->. by rewrite drop_app_exact.
Qed.

Lemma batch_append dst src sd ss ops ops' :
  batch dst sd ops -> batch src ss ops' -> Z.of_nat (length (ops ++ ops')) < 2 ^ 31 ->
  batch (append dst src) sd (ops ++ ops').
Proof.
  intros Hd Hs Hl. rewrite length_app in Hl. unfold batch, append. cbn [rep].
  rewrite (SetCount_rep dst sd ops) by done.
  rewrite (batch_Count dst sd ops Hd), (batch_Count src ss ops' Hs), i32_small by lia.
  rewrite Hs, (app_assoc (EncodeFixed64 ss)), drop_app_exact, ops_bytes_app by done.
  rewrite length_app, Nat2Z.inj_add. by rewrite <- !app_assoc.
Qed.

(** ** Applying batches *)

Section Applying.
Context {c : Comparator} {Hok : ComparatorOk c (fun _ => True)} (rnd : nat -> Z).
Implicit Types (m : MemTable) (es : list MemEntry) (ops : list Op).

Lemma op_entry_fits seq o : op_fits o -> 0 <= seq <= kMaxSequenceNumber -> fits (op_entry seq o).
Proof. destruct o; unfold op_fits, fits; cbn; intros; split_and!; lia. Qed.

Lemma sequence_op_entry seq o : sequence (mkey (op_entry seq o)) = seq.
Proof. by destruct o. Qed.

(** What the entries already in the table must look like for the next operation. *)
Definition older (seq : Z) (es : list MemEntry) : Prop :=
  Forall (fun e => sequence (mkey e) < seq) es.

Lemma older_new seq es o :
  older seq es ->
  Forall (fun e => entry_compare c (mkey e) (mkey (op_entry seq o)) <> Eq) es.
Proof.
  intros Ho. eapply Forall_impl; [exact Ho|]. cbn. intros e He. unfold entry_compare.
  rewrite sequence_op_entry. destruct (Compare c _ _); [|done..].
  by rewrite (proj2 (Z.compare_gt_iff _ _) He).
Qed.

Lemma older_snoc seq es o : older seq es -> older (seq + 1) (es ++ [op_entry seq o]).
Proof.
  intros Ho. apply Forall_app. split.
  - eapply Forall_impl; [exact Ho|]. cbn. lia.
  - apply Forall_singleton. rewrite sequence_op_entry. lia.
Qed.

Lemma Iterate_loop_ops ops rest : forall fuel found seq m es,
  Forall op_fits ops -> 0 <= seq -> seq + Z.of_nat (length ops) <= kMaxSequenceNumber + 1 ->
  0 <= found -> found + Z.of_nat (length ops) < 2 ^ 31 ->
  (length (ops_bytes ops ++ rest) < fuel)%nat -> holds c m es -> older seq es ->
  exists fuel' m', Iterate_loop c rnd fuel (ops_bytes ops ++ rest) found seq m =
      Iterate_loop c rnd fuel' rest (found + Z.of_nat (length ops)) (seq + Z.of_nat (length ops)) m' /\
    (length rest < fuel')%nat /\ holds c m' (es ++ entries seq ops).
Proof.
  induction ops as [|o ops IH]; intros fuel found seq m es Hf Hs Hmax H0 Hl Hfuel Hm Hold.
  { exists fuel, m. cbn. by rewrite !Z.add_0_r, app_nil_r. }
  apply Forall_cons in Hf as [Ho Hf]. cbn [length] in *.
  assert (0 <= seq <= kMaxSequenceNumber) as Hseq by lia.
  destruct (Add_step (c := c) rnd m es (op_entry seq o) Hm) as (m1 & HA & Hm1).
  { by apply op_entry_fits. }
  { by apply older_new. }
  change (ops_bytes (o :: ops)) with (op_bytes o ++ ops_bytes ops) in *.
  rewrite <- app_assoc in Hfuel |- *. rewrite length_app in Hfuel.
  assert (1 <= length (op_bytes o))%nat by (destruct o; cbn; lia).
  destruct fuel as [|fuel]; [lia|].
  destruct (IH fuel (found + 1) (seq + 1) m1 (es ++ [op_entry seq o])) as (fuel' & m' & HI & Hr & Hm');
    [done|lia..|done|by apply older_snoc|].
  exists fuel', m'. split; [|split; [done|by rewrite <- app_assoc in Hm'; exact Hm']].
  replace (found + Z.of_nat (S (length ops))) with (found + 1 + Z.of_nat (length ops)) by lia.
  replace (seq + Z.of_nat (S (length ops))) with (seq + 1 + Z.of_nat (length ops)) by lia.
  rewrite <- HI.
  assert (u64 (seq + 1) = seq + 1) as Hu by (apply u64_small; unfold kMaxSequenceNumber in *; lia).
  destruct o as [k v|k]; destruct Ho as [Hk Hv]; cbn [op_key op_bytes op_entry mkey mvalue sequence type userkey] in *;
    cbn [app Iterate_loop]; rewrite type_byte_value; cbn [type_value Z.eqb Pos.eqb];
    rewrite i32_small by lia; rewrite <- ?app_assoc;
    rewrite !GetLengthPrefixedSlice_Put by lia; by rewrite HA, Hu.
Qed.

Lemma batch_header b seq ops :
  batch b seq ops -> 0 <= seq <= kMaxSequenceNumber + 1 ->
  GetSequence b = seq /\ drop kHeader (rep b) = ops_bytes ops /\ (kHeader <= length (rep b))%nat.
Proof.
  intros Hb Hs. unfold GetSequence. rewrite Hb. split_and!.
  - rewrite DecodeFixed64_app. apply u64_small. unfold kMaxSequenceNumber in *. lia.
  - by rewrite app_assoc, drop_app_exact.
  - unfold kHeader. cbn. lia.
Qed.

Lemma InsertInto_step b seq ops m es :
  batch b seq ops -> Forall op_fits ops -> Z.of_nat (length ops) < 2 ^ 31 ->
  0 <= seq -> seq + Z.of_nat (length ops) <= kMaxSequenceNumber + 1 ->
  holds c m es -> older seq es ->
  exists m', InsertInto c rnd b m = Some (OK, m') /\ holds c m' (es ++ entries seq ops).
Proof.
  intros Hb Hf Hl Hs Hmax Hm Hold. unfold InsertInto, Iterate.
  destruct (batch_header b seq ops Hb) as (-> & -> & Hlen); [lia|].
  rewrite (proj2 (Nat.ltb_ge _ _)) by done.
  destruct (Iterate_loop_ops ops [] (S (length (ops_bytes ops))) 0 seq m es)
    as ([|fuel'] & m' & HI & Hr & Hm'); [done|lia..|rewrite app_nil_r; lia|done|done|cbn in Hr; lia|].
  rewrite app_nil_r in HI. rewrite HI. cbn [Iterate_loop ok OK negb].
  exists m'. by rewrite Z.add_0_l, (batch_Count b seq ops Hb), Z.eqb_refl by done.
Qed.

(** The entry a batch leaves newest for a key: that of the last operation on it. *)
Fixpoint last_op (u : bytes) (ops : list Op) : option Op :=
  match ops with
  | [] => None
  | o :: ops =>
      match last_op u ops with
      | Some o' => Some o'
      | None => if bool_decide (Compare c (op_key o) u = Eq) then Some o else None
      end
  end.

Lemma userkey_op_entry seq o : userkey (mkey (op_entry seq o)) = op_key o.
Proof. by destruct o. Qed.

Lemma entries_sequence seq ops e :
  e ∈ entries seq ops -> seq <= sequence (mkey e) < seq + Z.of_nat (length ops).
Proof.
  revert seq. induction ops as [|o ops IH]; intros seq; cbn [entries length]; [by intros ?%not_elem_of_nil|].
  intros [->|He]%elem_of_cons; [rewrite sequence_op_entry; lia|]. apply IH in He. lia.
Qed.

Lemma last_op_None u seq ops e :
  last_op u ops = None -> e ∈ entries seq ops -> Compare c (userkey (mkey e)) u <> Eq.
Proof.
  revert seq. induction ops as [|o ops IH]; intros seq Hl; cbn [entries]; [by intros ?%not_elem_of_nil|].
  cbn [last_op] in Hl. destruct (last_op u ops); [done|]. case_bool_decide as Hc; [done|].
  intros [->|He]%elem_of_cons; [by rewrite userkey_op_entry|]. by eapply IH.
Qed.

Lemma last_op_Some u seq ops o :
  last_op u ops = Some o ->
  exists q, op_entry q o ∈ entries seq ops /\ Compare c (op_key o) u = Eq /\
    forall e, e ∈ entries seq ops -> Compare c (userkey (mkey e)) u = Eq ->
      e = op_entry q o \/ sequence (mkey e) < q.
Proof.
  revert seq. induction ops as [|o' ops IH]; intros seq Hl; [done|]. cbn [last_op entries] in *.
  destruct (last_op u ops) as [o''|] eqn:E.
  - injection Hl as ->. destruct (IH (seq + 1) eq_refl) as (q & Hq & Hc & Hmax).
    exists q. split_and!; [apply elem_of_cons; by right|done|].
    intros e [->|He]%elem_of_cons; [|by apply Hmax]. intros _. right.
    apply entries_sequence in Hq. rewrite sequence_op_entry in *. lia.
  - case_bool_decide as Hc; [|done]. injection Hl as ->.
    exists seq. split_and!; [apply elem_of_cons; by left|done|].
    intros e [->|He]%elem_of_cons Heq; [by left|]. by apply (last_op_None u _ ops e E) in He.
Qed.

(** A record cut short is an error that leaves the table alone. *)
Lemma Iterate_loop_cut o k fuel found seq m :
  op_fits o -> (0 < k < length (op_bytes o))%nat -> (0 < fuel)%nat -> is_u32 found ->
  exists msg found' m', Iterate_loop c rnd fuel (take k (op_bytes o)) found seq m =
    Some (Corruption msg [], found', m') /\ m' = m.
Proof.
  intros [Hk Hv] [H0 Hlen] Hfuel Hfound. destruct fuel as [|fuel]; [lia|].
  destruct k as [|k]; [lia|]. destruct o as [key v|key]; cbn [op_key op_bytes] in *;
    cbn [length] in Hlen; cbn [take Iterate_loop]; rewrite type_byte_value; cbn [type_value Z.eqb Pos.eqb].
  - destruct (decide (k < length (PutLengthPrefixedSlice [] key))%nat) as [Hlt|Hge].
    + rewrite take_app_le, GetLengthPrefixedSlice_truncated by lia. eauto.
    + rewrite length_app in Hlen. rewrite take_app_ge, GetLengthPrefixedSlice_Put by lia.
      rewrite GetLengthPrefixedSlice_truncated by lia. eauto.
  - rewrite GetLengthPrefixedSlice_truncated by lia. eauto.
Qed.

(** A strict prefix of the records is whole records and a strict prefix of the next. *)
Lemma ops_bytes_take k ops :
  (k < length (ops_bytes ops))%nat ->
  exists ops1 o ops2 j, ops = ops1 ++ o :: ops2 /\ (j < length (op_bytes o))%nat /\
    take k (ops_bytes ops) = ops_bytes ops1 ++ take j (op_bytes o).
Proof. apply concat_map_take. Qed.

(** batches are sequences of operations.  A batch filled by any mixture of [Put]
    and [Delete] has their number as its count and its sequence number unchanged by
    them; and [append] makes the batch that the concatenated operations would have
    made, byte for byte. *)
Theorem batch_building seq ops ops' :
  Z.of_nat (length (ops ++ ops')) < 2 ^ 31 -> 0 <= seq <= kMaxSequenceNumber ->
  let built ops := fold_left apply_op ops clear in
  Count (built ops) = Z.of_nat (length ops) /\
  GetSequence (SetSequence (built ops) seq) = seq /\
  rep (SetSequence (built ops) seq) =
    EncodeFixed64 seq ++ EncodeFixed32 (Z.of_nat (length ops)) ++ ops_bytes ops /\
  append (built ops) (SetSequence (built ops') seq) = built (ops ++ ops').
Proof.
  intros Hl Hs built.
  assert (forall l, Z.of_nat (length l) < 2 ^ 31 -> batch (built l) 0 l) as Hbuilt.
  { induction l as [|o l IH] using rev_ind; intros Hlen; [apply batch_clear|].
    rewrite length_app in Hlen. cbn in Hlen. subst built. cbv beta. rewrite fold_left_app.
    apply batch_op; [apply IH|]; lia. }
  pose proof Hl as Hl'. rewrite length_app in Hl'.
  pose proof (batch_SetSequence _ _ _ seq (Hbuilt ops ltac:(lia))) as H1.
  pose proof (batch_SetSequence _ _ _ seq (Hbuilt ops' ltac:(lia))) as H2. split_and!.
  - apply (batch_Count _ 0); [apply Hbuilt|]; lia.
  - eapply (batch_header _ seq ops H1). lia.
  - exact H1.
  - pose proof (batch_append _ _ _ _ _ _ (Hbuilt ops ltac:(lia)) H2 Hl) as H3.
    pose proof (Hbuilt (ops ++ ops') Hl) as H4. unfold batch in H3, H4.
    destruct (append _ _), (built (ops ++ ops')). cbn [rep] in *. congruence.
Qed.

(** C28: writing a batch and reading it back.  Applying a well-formed batch to a
    memtable whose entries are all older returns [OK] and leaves exactly the batch's
    operations, numbered consecutively from its sequence number, after what was
    there.  A lookup that sees the whole batch then finds the last operation of the
    batch on its key, and, where the batch has none, the newest entry of before. *)
Theorem write_then_read b seq ops m es u s value st :
  batch b seq ops -> Forall op_fits ops -> Z.of_nat (length ops) < 2 ^ 31 ->
  0 <= seq -> seq + Z.of_nat (length ops) <= s + 1 -> s <= kMaxSequenceNumber ->
  holds c m es -> older seq es -> Z.of_nat (length u) + 8 < 2 ^ 32 ->
  exists m', InsertInto c rnd b m = Some (OK, m') /\ holds c m' (es ++ entries seq ops) /\
    match last_op u ops with
    | Some (OpPut _ v) => Get c m' (LookupKey_make u s) value st = Some (true, v, st)
    | Some (OpDelete _) => Get c m' (LookupKey_make u s) value st = Some (true, value, NotFound [] [])
    | None => forall e, newest c es u s e ->
        Get c m' (LookupKey_make u s) value st = Get c m (LookupKey_make u s) value st
    end.
Proof.
  intros Hb Hf Hl Hs Hseq Hmax Hm Hold Hu.
  destruct (InsertInto_step b seq ops m es) as (m' & HI & Hm'); [done..|lia|done|done|].
  exists m'. split; [done|]. split; [done|]. unfold older in Hold. rewrite Forall_forall in Hold.
  destruct (last_op u ops) as [o|] eqn:Hlast.
  - destruct (last_op_Some u seq ops o Hlast) as (q & Hq & Hc & Hnew).
    pose proof (entries_sequence seq ops _ Hq) as Hqs. rewrite sequence_op_entry in Hqs.
    assert (newest c (es ++ entries seq ops) u s (op_entry q o)) as Hn.
    { split; [apply elem_of_app; by right|]. rewrite userkey_op_entry, sequence_op_entry.
      split; [done|]. split; [lia|]. intros e' [He'|He']%elem_of_app Hce _; [right|by apply Hnew].
      specialize (Hold e' He'). lia. }
    destruct o; by rewrite (Get_newest m' _ u s value st Hm' Hu ltac:(lia) _ Hn).
  - intros e He. assert (0 <= s <= kMaxSequenceNumber) as Hsr.
    { destruct Hm as (Hfit & _ & _), He as (Hin & _ & Hle & _). rewrite Forall_forall in Hfit.
      specialize (Hfit e Hin). unfold fits in Hfit. lia. }
    rewrite (Get_newest m _ u s value st Hm Hu Hsr e He). apply (Get_newest m' _ u s _ _ Hm' Hu Hsr).
    destruct He as (Hin & Hce & Hle & Hnew). split; [apply elem_of_app; by left|].
    split; [done|]. split; [done|]. intros e' [He'|He']%elem_of_app Hce' Hle'; [by apply Hnew|].
    by apply (last_op_None u seq ops e' Hlast) in He'.
Qed.

(** a batch cut short anywhere is reported.  For every strict prefix of a
    well-formed batch, [Iterate] returns a corruption and never [OK]; what it has
    added are the operations before the cut. *)
Theorem batch_truncated b seq ops k m es :
  batch b seq ops -> Forall op_fits ops -> Z.of_nat (length ops) < 2 ^ 31 ->
  0 <= seq -> seq + Z.of_nat (length ops) <= kMaxSequenceNumber + 1 ->
  holds c m es -> older seq es -> (k < length (rep b))%nat ->
  exists msg m' ops1 ops2,
    Iterate c rnd (MkWriteBatch (take k (rep b))) seq m = Some (Corruption msg [], m') /\
    ops = ops1 ++ ops2 /\ holds c m' (es ++ entries seq ops1).
Proof.
  intros Hb Hf Hl Hs Hmax Hm Hold Hk. unfold Iterate. cbn [rep]. rewrite length_take, Nat.min_l by lia.
  destruct (batch_header b seq ops Hb) as (_ & Hd & Hlen); [lia|].
  destruct (Nat.ltb_spec k kHeader) as [Hk'|Hk'].
  { exists (str "malformed WriteBatch (too small)"), m, [], ops. cbn [entries]. by rewrite app_nil_r. }
  assert (length (rep b) = kHeader + length (ops_bytes ops))%nat as Hlr
    by (rewrite <- Hd, length_drop; lia).
  rewrite <- (take_drop kHeader (rep b)), Hd, take_app_ge by (rewrite length_take; lia).
  rewrite length_take, Nat.min_l by lia. rewrite drop_app_exact by (rewrite length_take; lia).
  destruct (ops_bytes_take (k - kHeader) ops) as (ops1 & o & ops2 & j & Hops & Hj & ->); [lia|].
  rewrite Hops, length_app in Hl, Hmax. cbn [length] in Hl, Hmax.
  rewrite Hops in Hf. apply Forall_app in Hf as [Hf1 [Ho _]%Forall_cons].
  set (rest := take j (op_bytes o)).
  destruct (Iterate_loop_ops ops1 rest (S (length (ops_bytes ops1 ++ rest))) 0 seq m es)
    as (fuel' & m' & -> & Hr & Hm'); [done|lia..|done|done|].
  destruct (decide (j = 0)%nat) as [->|Hj0].
  - exists (str "WriteBatch has wrong Count"), m', ops1, (o :: ops2). split; [|done].
    destruct fuel' as [|fuel']; [lia|]. subst rest. rewrite take_0. cbn [Iterate_loop ok OK negb].
    assert (Count (MkWriteBatch (take kHeader (rep b) ++ ops_bytes ops1 ++ [])) = Z.of_nat (length ops)) as ->.
    { rewrite <- (batch_Count b seq ops Hb) by (rewrite Hops, length_app; cbn [length]; lia).
      unfold Count. cbn [rep]. rewrite Hb. done. }
    rewrite (proj2 (Z.eqb_neq _ _)); [done|]. rewrite Hops, length_app. cbn [length]. lia.
  - destruct (Iterate_loop_cut o j fuel' (0 + Z.of_nat (length ops1)) (seq + Z.of_nat (length ops1)) m')
      as (msg & f' & m'' & HI & ->); [done|lia..|].
    exists msg, m', ops1, (o :: ops2). subst rest. by rewrite HI.
Qed.
End Applying.

(** ** Witnesses *)

Definition demo_ops : list Op := [OpPut (str "a") (str "1"); OpDelete (str "b"); OpPut (str "a") (str "2")].
Definition demo_batch : WriteBatch := SetSequence (fold_left apply_op demo_ops clear) 7.

Lemma demo_batch_ok : batch demo_batch 7 demo_ops /\ Forall op_fits demo_ops.
Proof.
  split; [vm_compute; reflexivity|]. repeat constructor; vm_compute; reflexivity || exact I.
Qed.

Lemma batch_building_witness :
  append (fold_left apply_op demo_ops clear) (SetSequence (fold_left apply_op demo_ops clear) 3)
  = fold_left apply_op (demo_ops ++ demo_ops) clear.
Proof.
  refine (proj2 (proj2 (proj2 (batch_building 3 demo_ops demo_ops _ _)))).
  - vm_compute. reflexivity.
  - vm_compute. split; discriminate.
Defined.

Lemma write_then_read_witness :
  exists m', InsertInto BytewiseComparatorImpl demo_rnd demo_batch MemTable_make = Some (OK, m') /\
    Get BytewiseComparatorImpl m' (LookupKey_make (str "a") 9) [] OK = Some (true, str "2", OK).
Proof.
  destruct (write_then_read demo_rnd demo_batch 7 demo_ops MemTable_make [] (str "a") 9 [] OK
    (proj1 demo_batch_ok) (proj2 demo_batch_ok)) as (m' & HI & _ & HG).
  - vm_compute. reflexivity.
  - lia.
  - vm_compute. discriminate.
  - vm_compute. discriminate.
  - apply holds_make.
  - constructor.
  - vm_compute. reflexivity.
  - exists m'. split; [exact HI|exact HG].
Defined.

Lemma batch_truncated_witness :
  exists msg m', Iterate BytewiseComparatorImpl demo_rnd (MkWriteBatch (take 20 (rep demo_batch))) 7 MemTable_make
    = Some (Corruption msg [], m').
Proof.
  destruct (batch_truncated demo_rnd demo_batch 7 demo_ops 20 MemTable_make []
    (proj1 demo_batch_ok) (proj2 demo_batch_ok)) as (msg & m' & ops1 & ops2 & HI & _).
  - vm_compute. reflexivity.
  - lia.
  - vm_compute. discriminate.
  - apply holds_make.
  - constructor.
  - vm_compute. lia.
  - exists msg, m'. exact HI.
Defined.
