(* ===== verification/VersionEdit.v ===== *)
(** Version edits (redisdb/db/versionedit.h and versionedit.cc).

    An edit is one record of the manifest: which files were added to and deleted from
    which levels, and the counters of the store.  [DecodeFrom] works in place, so it
    takes the edit it is called on; the [std::set] of deleted files is a list in the
    order of its elements. *)
From stdpp Require Import sorting.
From Stdlib Require Import Sorted.
From S2P Require Import Prelude Coding Status DbFormat.
Local Open Scope Z_scope.

Record FileMetaData := MkFileMetaData {
  allowedseeks : Z;
  number : Z;
  filesize : Z;
  smallest : InternalKey;
  largest : InternalKey
}.

#[export] Instance FileMetaData_eq_dec : EqDecision FileMetaData.
Proof. solve_decision. Defined.

(** The constructor's [allowedseeks]; [AddFile] and [DecodeFrom] set the other fields. *)
Definition FileMetaData_make (number filesize : Z) (smallest largest : InternalKey) : FileMetaData :=
  MkFileMetaData (Z.shiftl 1 30) number filesize smallest largest.

Record VersionEdit := MkVersionEdit {
  comparator : bytes;
  lognumber : Z;
  prevlognumber : Z;
  nextfilenumber : Z;
  lastsequence : Z;
  hascomparator : bool;
  haslognumber : bool;
  hasprevlognumber : bool;
  hasnextfilenumber : bool;
  haslastsequence : bool;
  compactpointers : list (Z * InternalKey);
  deletedfiles : list (Z * Z);
  newfiles : list (Z * FileMetaData)
}.

(** [operator<] of [std::pair<int, uint64_t>]. *)
Definition pair_lt (a b : Z * Z) : bool := (a.1 <? b.1) || ((a.1 =? b.1) && (a.2 <? b.2)).

(** [clear] leaves [compactpointers] as they are. *)
Definition clear (e : VersionEdit) : VersionEdit :=
  MkVersionEdit [] 0 0 0 0 false false false false false (compactpointers e) [] [].

Definition VersionEdit_make : VersionEdit :=
  MkVersionEdit [] 0 0 0 0 false false false false false [] [] [].

Definition SetComparatorName (e : VersionEdit) (name : bytes) : VersionEdit :=
  MkVersionEdit name (lognumber e) (prevlognumber e) (nextfilenumber e) (lastsequence e)
    true (haslognumber e) (hasprevlognumber e) (hasnextfilenumber e) (haslastsequence e)
    (compactpointers e) (deletedfiles e) (newfiles e).

Definition SetLogNumber (e : VersionEdit) (num : Z) : VersionEdit :=
  MkVersionEdit (comparator e) num (prevlognumber e) (nextfilenumber e) (lastsequence e)
    (hascomparator e) true (hasprevlognumber e) (hasnextfilenumber e) (haslastsequence e)
    (compactpointers e) (deletedfiles e) (newfiles e).

Definition SetPrevLogNumber (e : VersionEdit) (num : Z) : VersionEdit :=
  MkVersionEdit (comparator e) (lognumber e) num (nextfilenumber e) (lastsequence e)
    (hascomparator e) (haslognumber e) true (hasnextfilenumber e) (haslastsequence e)
    (compactpointers e) (deletedfiles e) (newfiles e).

Definition SetNextFile (e : VersionEdit) (num : Z) : VersionEdit :=
  MkVersionEdit (comparator e) (lognumber e) (prevlognumber e) num (lastsequence e)
    (hascomparator e) (haslognumber e) (hasprevlognumber e) true (haslastsequence e)
    (compactpointers e) (deletedfiles e) (newfiles e).

Definition SetLastSequence (e : VersionEdit) (seq : Z) : VersionEdit :=
  MkVersionEdit (comparator e) (lognumber e) (prevlognumber e) (nextfilenumber e) seq
    (hascomparator e) (haslognumber e) (hasprevlognumber e) (hasnextfilenumber e) true
    (compactpointers e) (deletedfiles e) (newfiles e).

Definition SetCompactPointer (e : VersionEdit) (level : Z) (key : InternalKey) : VersionEdit :=
  MkVersionEdit (comparator e) (lognumber e) (prevlognumber e) (nextfilenumber e) (lastsequence e)
    (hascomparator e) (haslognumber e) (hasprevlognumber e) (hasnextfilenumber e) (haslastsequence e)
    (compactpointers e ++ [(level, key)]) (deletedfiles e) (newfiles e).

Definition DeleteFile (e : VersionEdit) (level file : Z) : VersionEdit :=
  MkVersionEdit (comparator e) (lognumber e) (prevlognumber e) (nextfilenumber e) (lastsequence e)
    (hascomparator e) (haslognumber e) (hasprevlognumber e) (hasnextfilenumber e) (haslastsequence e)
    (compactpointers e) (set_insert pair_lt (level, file) (deletedfiles e)) (newfiles e).

Definition add_newfile (e : VersionEdit) (level : Z) (f : FileMetaData) : VersionEdit :=
  MkVersionEdit (comparator e) (lognumber e) (prevlognumber e) (nextfilenumber e) (lastsequence e)
    (hascomparator e) (haslognumber e) (hasprevlognumber e) (hasnextfilenumber e) (haslastsequence e)
    (compactpointers e) (deletedfiles e) (newfiles e ++ [(level, f)]).

Definition AddFile (e : VersionEdit) (level file filesize : Z) (smallest largest : InternalKey)
    : VersionEdit :=
  add_newfile e level (FileMetaData_make file filesize smallest largest).

(** ** The encoding *)

Definition kComparator : Z := 1.
Definition kLogNumber : Z := 2.
Definition kNextFileNumber : Z := 3.
Definition kLastSequence : Z := 4.
Definition kCompactPointer : Z := 5.
Definition kDeletedFile : Z := 6.
Definition kNewFile : Z := 7.
Definition kPrevLogNumber : Z := 9.

(** The loops of [EncodeTo]; [Encode] asserts that a key is set. *)
Fixpoint encode_compactpointers (dst : bytes) (l : list (Z * InternalKey)) : option bytes :=
  match l with
  | [] => Some dst
  | (level, k) :: l =>
      let dst := PutVarint32 dst kCompactPointer in
      let dst := PutVarint32 dst (u32 level) in
      let? key := InternalKey_Encode k in
      encode_compactpointers (PutLengthPrefixedSlice dst key) l
  end.

Fixpoint encode_deletedfiles (dst : bytes) (l : list (Z * Z)) : bytes :=
  match l with
  | [] => dst
  | (level, file) :: l =>
      let dst := PutVarint32 dst kDeletedFile in
      let dst := PutVarint32 dst (u32 level) in
      encode_deletedfiles (PutVarint64 dst file) l
  end.

Fixpoint encode_newfiles (dst : bytes) (l : list (Z * FileMetaData)) : option bytes :=
  match l with
  | [] => Some dst
  | (level, f) :: l =>
      let dst := PutVarint32 dst kNewFile in
      let dst := PutVarint32 dst (u32 level) in
      let dst := PutVarint64 dst (number f) in
      let dst := PutVarint64 dst (filesize f) in
      let? s := InternalKey_Encode (smallest f) in
      let dst := PutLengthPrefixedSlice dst s in
      let? l' := InternalKey_Encode (largest f) in
      encode_newfiles (PutLengthPrefixedSlice dst l') l
  end.

Definition EncodeTo (e : VersionEdit) (dst : bytes) : option bytes :=
  let dst := if hascomparator e
             then PutLengthPrefixedSlice (PutVarint32 dst kComparator) (comparator e) else dst in
  let dst := if haslognumber e
             then PutVarint64 (PutVarint32 dst kLogNumber) (lognumber e) else dst in
  let dst := if hasprevlognumber e
             then PutVarint64 (PutVarint32 dst kPrevLogNumber) (prevlognumber e) else dst in
  let dst := if hasnextfilenumber e
             then PutVarint64 (PutVarint32 dst kNextFileNumber) (nextfilenumber e) else dst in
  let dst := if haslastsequence e
             then PutVarint64 (PutVarint32 dst kLastSequence) (lastsequence e) else dst in
  let? dst := encode_compactpointers dst (compactpointers e) in
  let dst := encode_deletedfiles dst (deletedfiles e) in
  encode_newfiles dst (newfiles e).

Definition getInternalKey (input : bytes) : option (InternalKey * bytes) :=
  GetLengthPrefixedSlice input.

Definition getLevel (input : bytes) : option (Z * bytes) :=
  let? (v, input) := GetVarint32 input in
  if v <? kNumLevels then Some (v, input) else None.

(** One round of the [switch]: the edit and the rest of the input, or the message of
    the record that does not parse. *)
Definition decode_field (tag : Z) (e : VersionEdit) (input : bytes) : (VersionEdit * bytes) + bytes :=
  let number_field set msg :=
    match GetVarint64 input with
    | Some (v, input) => inl (set e v, input)
    | None => inr (str msg)
    end in
  if tag =? kComparator then
    match GetLengthPrefixedSlice input with
    | Some (s, input) => inl (SetComparatorName e s, input)
    | None => inr (str "comparator name")
    end
  else if tag =? kLogNumber then number_field SetLogNumber "log number"
  else if tag =? kPrevLogNumber then number_field SetPrevLogNumber "previous log number"
  else if tag =? kNextFileNumber then number_field SetNextFile "Next file number"
  else if tag =? kLastSequence then number_field SetLastSequence "last sequence number"
  else if tag =? kCompactPointer then
    match (let? (level, input) := getLevel input in
           let? (key, input) := getInternalKey input in Some (level, key, input)) with
    | Some (level, key, input) => inl (SetCompactPointer e level key, input)
    | None => inr (str "compaction pointer")
    end
  else if tag =? kDeletedFile then
    match (let? (level, input) := getLevel input in
           let? (file, input) := GetVarint64 input in Some (level, file, input)) with
    | Some (level, file, input) => inl (DeleteFile e level file, input)
    | None => inr (str "deleted file")
    end
  else if tag =? kNewFile then
    match (let? (level, input) := getLevel input in
           let? (file, input) := GetVarint64 input in
           let? (size, input) := GetVarint64 input in
           let? (s, input) := getInternalKey input in
           let? (l, input) := getInternalKey input in
           Some (level, FileMetaData_make file size s l, input)) with
    | Some (level, f, input) => inl (add_newfile e level f, input)
    | None => inr (str "new-file entry")
    end
  else inr (str "unknown tag").

(** The [while] loop; every round consumes a byte or sets [msg]. *)
Fixpoint DecodeFrom_loop (fuel : nat) (e : VersionEdit) (input : bytes)
    : option (VersionEdit * bytes * option bytes) :=
  match fuel with
  | O => None
  | S fuel' =>
      match GetVarint32 input with
      | None => Some (e, input, None)
      | Some (tag, input) =>
          match decode_field tag e input with
          | inl (e, input) => DecodeFrom_loop fuel' e input
          | inr msg => Some (e, input, Some msg)
          end
      end
  end.

Definition DecodeFrom (e : VersionEdit) (src : bytes) : option (Status * VersionEdit) :=
  let? (e, input, msg) := DecodeFrom_loop (S (length src)) (clear e) src in
  let msg := match msg with
             | Some msg => Some msg
             | None => match input with [] => None | _ => Some (str "invalid tag") end
             end in
  match msg with
  | Some msg => Some (Corruption (str "VersionEdit") msg, e)
  | None => Some (OK, e)
  end.

(** ** The contract: an edit is a sequence of fields *)

Inductive Field :=
  | FComparator (name : bytes)
  | FLogNumber (n : Z)
  | FPrevLogNumber (n : Z)
  | FNextFile (n : Z)
  | FLastSequence (n : Z)
  | FCompactPointer (level : Z) (key : InternalKey)
  | FDeletedFile (level n : Z)
  | FNewFile (level : Z) (f : FileMetaData).

Definition slice (s : bytes) : bytes := PutLengthPrefixedSlice [] s.

Definition field_tag (f : Field) : Z :=
  match f with
  | FComparator _ => kComparator
  | FLogNumber _ => kLogNumber
  | FPrevLogNumber _ => kPrevLogNumber
  | FNextFile _ => kNextFileNumber
  | FLastSequence _ => kLastSequence
  | FCompactPointer _ _ => kCompactPointer
  | FDeletedFile _ _ => kDeletedFile
  | FNewFile _ _ => kNewFile
  end.

Definition field_payload (f : Field) : bytes :=
  match f with
  | FComparator s => slice s
  | FLogNumber n | FPrevLogNumber n | FNextFile n | FLastSequence n => EncodeVarint64 n
  | FCompactPointer l k => EncodeVarint32 l ++ slice k
  | FDeletedFile l n => EncodeVarint32 l ++ EncodeVarint64 n
  | FNewFile l f => EncodeVarint32 l ++ EncodeVarint64 (number f) ++ EncodeVarint64 (filesize f) ++
      slice (smallest f) ++ slice (largest f)
  end.

Definition field_bytes (f : Field) : bytes := EncodeVarint32 (field_tag f) ++ field_payload f.

Definition apply_field (e : VersionEdit) (f : Field) : VersionEdit :=
  match f with
  | FComparator s => SetComparatorName e s
  | FLogNumber n => SetLogNumber e n
  | FPrevLogNumber n => SetPrevLogNumber e n
  | FNextFile n => SetNextFile e n
  | FLastSequence n => SetLastSequence e n
  | FCompactPointer l k => SetCompactPointer e l k
  | FDeletedFile l n => DeleteFile e l n
  | FNewFile l f => AddFile e l (number f) (filesize f) (smallest f) (largest f)
  end.

Definition is_level (l : Z) : Prop := 0 <= l < kNumLevels.
Definition key_fits (k : InternalKey) : Prop := is_u32 (Z.of_nat (length k)).

Definition file_fits (f : FileMetaData) : Prop :=
  is_u64 (number f) /\ is_u64 (filesize f) /\ key_fits (smallest f) /\ key_fits (largest f).

Definition field_fits (f : Field) : Prop :=
  match f with
  | FComparator s => key_fits s
  | FLogNumber n | FPrevLogNumber n | FNextFile n | FLastSequence n => is_u64 n
  | FCompactPointer l k => is_level l /\ key_fits k
  | FDeletedFile l n => is_level l /\ is_u64 n
  | FNewFile l f => is_level l /\ file_fits f
  end.

Definition when {A} (b : bool) (x : A) : list A := if b then [x] else [].

(** The fields of an edit, in the order [EncodeTo] writes them. *)
Definition fields (e : VersionEdit) : list Field :=
  when (hascomparator e) (FComparator (comparator e)) ++
  when (haslognumber e) (FLogNumber (lognumber e)) ++
  when (hasprevlognumber e) (FPrevLogNumber (prevlognumber e)) ++
  when (hasnextfilenumber e) (FNextFile (nextfilenumber e)) ++
  when (haslastsequence e) (FLastSequence (lastsequence e)) ++
  map (uncurry FCompactPointer) (compactpointers e) ++
  map (uncurry FDeletedFile) (deletedfiles e) ++
  map (uncurry FNewFile) (newfiles e).

Definition fields_bytes (fs : list Field) : bytes := concat (map field_bytes fs).

(** The values an edit may hold: what its C++ types and [getLevel] allow. *)
Record edit_ok (e : VersionEdit) : Prop := {
  ok_comparator : key_fits (comparator e);
  ok_log : is_u64 (lognumber e);
  ok_prevlog : is_u64 (prevlognumber e);
  ok_next : is_u64 (nextfilenumber e);
  ok_last : is_u64 (lastsequence e);
  ok_pointers : Forall (fun p => is_level p.1 /\ key_fits p.2) (compactpointers e);
  ok_deleted : Forall (fun p => is_level p.1 /\ is_u64 p.2) (deletedfiles e);
  ok_sorted : StronglySorted (fun a b => pair_lt a b = true) (deletedfiles e);
  ok_new : Forall (fun p => is_level p.1 /\ file_fits p.2) (newfiles e)
}.

(** The keys of the edit are set, as [Encode] asserts. *)
Definition keys_set (e : VersionEdit) : Prop :=
  Forall (fun p => p.2 <> []) (compactpointers e) /\
  Forall (fun p => smallest p.2 <> [] /\ largest p.2 <> []) (newfiles e).

(** What is left of [e] after it is written and read back into [v]: counters that are
    not marked present become zero, and [v] keeps its compaction pointers. *)
Definition read_back (v e : VersionEdit) : VersionEdit :=
  MkVersionEdit
    (if hascomparator e then comparator e else [])
    (if haslognumber e then lognumber e else 0)
    (if hasprevlognumber e then prevlognumber e else 0)
    (if hasnextfilenumber e then nextfilenumber e else 0)
    (if haslastsequence e then lastsequence e else 0)
    (hascomparator e) (haslognumber e) (hasprevlognumber e) (hasnextfilenumber e)
    (haslastsequence e) (compactpointers v ++ compactpointers e) (deletedfiles e)
    (map (fun p => (p.1, FileMetaData_make (number p.2) (filesize p.2) (smallest p.2) (largest p.2)))
       (newfiles e)).

(** ** Encoding *)

Lemma InternalKey_Encode_set k : k <> [] -> InternalKey_Encode k = Some k.
Proof. by destruct k. Qed.

Lemma fields_bytes_app fs fs' : fields_bytes (fs ++ fs') = fields_bytes fs ++ fields_bytes fs'.
Proof. unfold fields_bytes. by rewrite map_app, concat_app. Qed.

Lemma fields_bytes_cons f fs : fields_bytes (f :: fs) = field_bytes f ++ fields_bytes fs.
Proof. done. Qed.

Lemma fields_bytes_when (b : bool) f dst x :
  x = dst ++ field_bytes f -> (if b then x else dst) = dst ++ fields_bytes (when b f).
Proof. intros ->. destruct b; cbn; by rewrite ?app_nil_r. Qed.

Lemma number_bytes dst tag n :
  PutVarint64 (PutVarint32 dst tag) n = dst ++ EncodeVarint32 tag ++ EncodeVarint64 n.
Proof. unfold PutVarint64, PutVarint32. by rewrite <- app_assoc. Qed.

Lemma level_u32 l : is_level l -> u32 l = l.
Proof. unfold is_level, kNumLevels. intros H. apply u32_small. lia. Qed.

Lemma encode_compactpointers_ok l dst :
  Forall (fun p => is_level p.1 /\ key_fits p.2) l -> Forall (fun p => p.2 <> []) l ->
  encode_compactpointers dst l = Some (dst ++ fields_bytes (map (uncurry FCompactPointer) l)).
Proof.
  intros Hl Hk. revert dst. induction l as [|[level k] l IH]; intros dst; cbn [encode_compactpointers map uncurry];
    [by rewrite app_nil_r|].
  apply Forall_cons in Hl as [[Hlv _] Hl], Hk as [Hk0 Hk]. cbn [fst snd] in *.
  rewrite InternalKey_Encode_set, (IH Hl Hk), level_u32 by done.
  rewrite fields_bytes_cons, PutLengthPrefixedSlice_app.
  unfold PutVarint32, field_bytes. cbn [field_tag field_payload]. unfold slice. by rewrite <- !app_assoc.
Qed.

Lemma encode_deletedfiles_ok l dst :
  Forall (fun p => is_level p.1 /\ is_u64 p.2) l ->
  encode_deletedfiles dst l = dst ++ fields_bytes (map (uncurry FDeletedFile) l).
Proof.
  intros Hl. revert dst. induction l as [|[level n] l IH]; intros dst; cbn [encode_deletedfiles map uncurry];
    [by rewrite app_nil_r|].
  apply Forall_cons in Hl as [[Hlv _] Hl]. cbn [fst snd] in *. rewrite (IH Hl), level_u32 by done.
  rewrite fields_bytes_cons. unfold PutVarint64, PutVarint32, field_bytes. cbn [field_tag field_payload].
  by rewrite <- !app_assoc.
Qed.

Lemma encode_newfiles_ok l dst :
  Forall (fun p => is_level p.1 /\ file_fits p.2) l ->
  Forall (fun p => smallest p.2 <> [] /\ largest p.2 <> []) l ->
  encode_newfiles dst l = Some (dst ++ fields_bytes (map (uncurry FNewFile) l)).
Proof.
  intros Hl Hk. revert dst. induction l as [|[level f] l IH]; intros dst; cbn [encode_newfiles map uncurry];
    [by rewrite app_nil_r|].
  apply Forall_cons in Hl as [[Hlv _] Hl], Hk as [[Hs Hg] Hk]. cbn [fst snd] in *.
  rewrite !InternalKey_Encode_set by done. rewrite (IH Hl Hk), level_u32 by done.
  rewrite fields_bytes_cons, PutLengthPrefixedSlice_app, (PutLengthPrefixedSlice_app (PutVarint64 _ _)).
  unfold PutVarint64, PutVarint32, field_bytes. cbn [field_tag field_payload]. unfold slice.
  by rewrite <- !app_assoc.
Qed.

Lemma EncodeTo_ok e dst :
  edit_ok e -> keys_set e -> EncodeTo e dst = Some (dst ++ fields_bytes (fields e)).
Proof.
  intros [] [Hk1 Hk2]. unfold EncodeTo. cbv zeta.
  rewrite encode_compactpointers_ok, encode_deletedfiles_ok, encode_newfiles_ok by done. f_equal.
  rewrite (fields_bytes_when (hascomparator e) (FComparator (comparator e)) dst)
    by (rewrite PutLengthPrefixedSlice_app; unfold PutVarint32; by rewrite <- app_assoc).
  rewrite (fields_bytes_when (haslognumber e) (FLogNumber (lognumber e))) by apply number_bytes.
  rewrite (fields_bytes_when (hasprevlognumber e) (FPrevLogNumber (prevlognumber e))) by apply number_bytes.
  rewrite (fields_bytes_when (hasnextfilenumber e) (FNextFile (nextfilenumber e))) by apply number_bytes.
  rewrite (fields_bytes_when (haslastsequence e) (FLastSequence (lastsequence e))) by apply number_bytes.
  unfold fields. by rewrite !fields_bytes_app, <- !app_assoc.
Qed.

(** ** Decoding *)

Lemma GetVarint32_Put v rest : is_u32 v -> GetVarint32 (EncodeVarint32 v ++ rest) = Some (v, rest).
Proof. intros Hv. unfold GetVarint32. by rewrite GetVarint32Ptr_Put. Qed.

Lemma GetVarint64_Put v rest : is_u64 v -> GetVarint64 (EncodeVarint64 v ++ rest) = Some (v, rest).
Proof. intros Hv. unfold GetVarint64. by rewrite GetVarint64Ptr_Put. Qed.

Lemma getLevel_Put l rest : is_level l -> getLevel (EncodeVarint32 l ++ rest) = Some (l, rest).
Proof.
  unfold is_level, kNumLevels. intros Hl. unfold getLevel. rewrite GetVarint32_Put by lia.
  by rewrite (proj2 (Z.ltb_lt _ _)) by (unfold kNumLevels; lia).
Qed.

Lemma slice_Put s rest : key_fits s -> GetLengthPrefixedSlice (slice s ++ rest) = Some (s, rest).
Proof. apply GetLengthPrefixedSlice_Put. Qed.

Lemma field_tag_u32 f : is_u32 (field_tag f).
Proof. by destruct f. Qed.

Lemma decode_field_ok f e rest :
  field_fits f -> decode_field (field_tag f) e (field_payload f ++ rest) = inl (apply_field e f, rest).
Proof.
  destruct f; cbn [field_fits field_tag field_payload]; intros Hf; unfold decode_field; cbv zeta;
    cbn [Z.eqb Pos.eqb kComparator kLogNumber kPrevLogNumber kNextFileNumber kLastSequence
         kCompactPointer kDeletedFile kNewFile]; unfold getInternalKey.
  1: by rewrite slice_Put.
  1-4: by rewrite GetVarint64_Put.
  - destruct Hf. rewrite <- app_assoc, getLevel_Put, slice_Put by done. done.
  - destruct Hf. rewrite <- app_assoc, getLevel_Put, GetVarint64_Put by done. done.
  - destruct Hf as (? & ? & ? & ? & ?). rewrite <- !app_assoc, getLevel_Put by done.
    rewrite !GetVarint64_Put by done. by rewrite !slice_Put.
Qed.

Lemma DecodeFrom_loop_fields fs fuel e rest :
  Forall field_fits fs ->
  DecodeFrom_loop (length fs + fuel) e (fields_bytes fs ++ rest) =
  DecodeFrom_loop fuel (fold_left apply_field fs e) rest.
Proof.
  intros Hfs. revert e. induction Hfs as [|f fs Hf _ IH]; intros e; [done|].
  cbn [length Nat.add DecodeFrom_loop fold_left]. rewrite fields_bytes_cons. unfold field_bytes.
  rewrite <- !app_assoc, GetVarint32_Put by apply field_tag_u32.
  by rewrite decode_field_ok.
Qed.

(** A field cut short does not parse. *)
Ltac cut_payload :=
  match goal with
  | |- context [take ?k (?a ++ ?b)] =>
      destruct (decide (k < length a)%nat);
      [rewrite (take_app_le a b k) by lia
      |rewrite (take_app_ge a b k) by lia; rewrite length_app in *]
  end.

Lemma getLevel_truncated l k :
  is_level l -> (k < length (EncodeVarint32 l))%nat -> getLevel (take k (EncodeVarint32 l)) = None.
Proof.
  unfold is_level, kNumLevels. intros Hl Hk. unfold getLevel, GetVarint32.
  by rewrite GetVarint32Ptr_truncated by lia.
Qed.

Lemma GetVarint64_truncated v k :
  is_u64 v -> (k < length (EncodeVarint64 v))%nat -> GetVarint64 (take k (EncodeVarint64 v)) = None.
Proof. intros Hv Hk. unfold GetVarint64. by rewrite GetVarint64Ptr_truncated. Qed.

Lemma slice_truncated s k :
  key_fits s -> (k < length (slice s))%nat -> GetLengthPrefixedSlice (take k (slice s)) = None.
Proof. apply GetLengthPrefixedSlice_truncated. Qed.

Lemma decode_field_cut f e k :
  field_fits f -> (k < length (field_payload f))%nat ->
  exists msg, decode_field (field_tag f) e (take k (field_payload f)) = inr msg.
Proof.
  destruct f; cbn [field_fits field_tag field_payload]; intros Hf Hk; unfold decode_field; cbv zeta;
    cbn [Z.eqb Pos.eqb kComparator kLogNumber kPrevLogNumber kNextFileNumber kLastSequence
         kCompactPointer kDeletedFile kNewFile]; unfold getInternalKey.
  1: rewrite slice_truncated by done; eauto.
  1-4: rewrite GetVarint64_truncated by done; eauto.
  - destruct Hf. cut_payload; [rewrite getLevel_truncated by done; eauto|].
    rewrite getLevel_Put, slice_truncated by (done || lia). eauto.
  - destruct Hf. cut_payload; [rewrite getLevel_truncated by done; eauto|].
    rewrite getLevel_Put, GetVarint64_truncated by (done || lia). eauto.
  - destruct Hf as (? & ? & ? & ? & ?).
    cut_payload; [rewrite getLevel_truncated by done; eauto|]. rewrite getLevel_Put by done.
    cut_payload; [rewrite GetVarint64_truncated by done; eauto|]. rewrite GetVarint64_Put by done.
    cut_payload; [rewrite GetVarint64_truncated by done; eauto|]. rewrite GetVarint64_Put by done.
    cut_payload; [rewrite slice_truncated by done; eauto|]. rewrite slice_Put by done.
    rewrite slice_truncated by (done || lia). eauto.
Qed.

Lemma DecodeFrom_loop_cut f e fuel k :
  field_fits f -> (0 < k < length (field_bytes f))%nat ->
  exists rest msg, DecodeFrom_loop (S fuel) e (take k (field_bytes f)) = Some (e, rest, msg) /\
    (msg <> None \/ rest <> []).
Proof.
  intros Hf Hk. cbn [DecodeFrom_loop]. pose proof (field_tag_u32 f) as Ht. unfold field_bytes in *.
  cut_payload.
  - unfold GetVarint32. rewrite GetVarint32Ptr_truncated by (done || lia).
    eexists _, _. split; [done|]. right. intros Hn%(f_equal length). revert Hn. lens. lia.
  - rewrite GetVarint32_Put by done. destruct (decode_field_cut f e (k - length (EncodeVarint32 (field_tag f))))
      as [msg ->]; [done|lia|]. eexists _, _. split; [done|]. by left.
Qed.

(** Reading the fields of [e] into a cleared edit. *)
Lemma pair_lt_trans a b c : pair_lt a b = true -> pair_lt b c = true -> pair_lt a c = true.
Proof. unfold pair_lt. destruct a, b, c; cbn. lia. Qed.

Lemma pair_lt_asym a b : pair_lt a b = true -> pair_lt b a = false.
Proof. unfold pair_lt. destruct a, b; cbn. lia. Qed.

Lemma fold_compactpointers l e :
  fold_left apply_field (map (uncurry FCompactPointer) l) e =
  MkVersionEdit (comparator e) (lognumber e) (prevlognumber e) (nextfilenumber e) (lastsequence e)
    (hascomparator e) (haslognumber e) (hasprevlognumber e) (hasnextfilenumber e) (haslastsequence e)
    (compactpointers e ++ l) (deletedfiles e) (newfiles e).
Proof.
  revert e. induction l as [|[n k] l IH]; intros e; cbn [map fold_left uncurry apply_field].
  - rewrite app_nil_r. by destruct e.
  - rewrite IH. unfold SetCompactPointer. cbn. by rewrite <- app_assoc.
Qed.

Lemma fold_deletedfiles l e :
  StronglySorted (fun a b => pair_lt a b = true) (deletedfiles e ++ l) ->
  fold_left apply_field (map (uncurry FDeletedFile) l) e =
  MkVersionEdit (comparator e) (lognumber e) (prevlognumber e) (nextfilenumber e) (lastsequence e)
    (hascomparator e) (haslognumber e) (hasprevlognumber e) (hasnextfilenumber e) (haslastsequence e)
    (compactpointers e) (deletedfiles e ++ l) (newfiles e).
Proof.
  revert e. induction l as [|[n k] l IH]; intros e Hs; cbn [map fold_left uncurry apply_field].
  - rewrite app_nil_r. by destruct e.
  - assert (set_insert pair_lt (n, k) (deletedfiles e) = deletedfiles e ++ [(n, k)]) as Hi.
    { apply set_insert_snoc. apply Forall_forall. intros x Hx.
      assert (pair_lt x (n, k) = true) as Hlt
        by (apply (StronglySorted_app_1_elem_of _ _ _ _ _ Hs Hx); apply elem_of_cons; by left).
      split; [done|by apply pair_lt_asym]. }
    rewrite IH; unfold DeleteFile; cbn [deletedfiles]; rewrite Hi, <- app_assoc; done.
Qed.

Lemma fold_newfiles l e :
  fold_left apply_field (map (uncurry FNewFile) l) e =
  MkVersionEdit (comparator e) (lognumber e) (prevlognumber e) (nextfilenumber e) (lastsequence e)
    (hascomparator e) (haslognumber e) (hasprevlognumber e) (hasnextfilenumber e) (haslastsequence e)
    (compactpointers e) (deletedfiles e)
    (newfiles e ++ map (fun p => (p.1, FileMetaData_make (number p.2) (filesize p.2)
       (smallest p.2) (largest p.2))) l).
Proof.
  revert e. induction l as [|[n f] l IH]; intros e; cbn [map fold_left uncurry apply_field].
  - rewrite app_nil_r. by destruct e.
  - rewrite IH. unfold AddFile, add_newfile. cbn. by rewrite <- app_assoc.
Qed.

Lemma fold_fields v e :
  StronglySorted (fun a b => pair_lt a b = true) (deletedfiles e) ->
  fold_left apply_field (fields e) (clear v) = read_back v e.
Proof.
  intros Hs. set (counters := when (hascomparator e) (FComparator (comparator e)) ++
    when (haslognumber e) (FLogNumber (lognumber e)) ++
    when (hasprevlognumber e) (FPrevLogNumber (prevlognumber e)) ++
    when (hasnextfilenumber e) (FNextFile (nextfilenumber e)) ++
    when (haslastsequence e) (FLastSequence (lastsequence e))).
  assert (fields e = counters ++ map (uncurry FCompactPointer) (compactpointers e) ++
    map (uncurry FDeletedFile) (deletedfiles e) ++ map (uncurry FNewFile) (newfiles e)) as ->
    by (unfold fields, counters; by rewrite <- !app_assoc).
  rewrite !fold_left_app. set (e0 := fold_left apply_field counters (clear v)).
  assert (e0 = MkVersionEdit
    (if hascomparator e then comparator e else []) (if haslognumber e then lognumber e else 0)
    (if hasprevlognumber e then prevlognumber e else 0)
    (if hasnextfilenumber e then nextfilenumber e else 0)
    (if haslastsequence e then lastsequence e else 0)
    (hascomparator e) (haslognumber e) (hasprevlognumber e) (hasnextfilenumber e)
    (haslastsequence e) (compactpointers v) [] []) as ->.
  { subst e0 counters. destruct (hascomparator e), (haslognumber e), (hasprevlognumber e),
      (hasnextfilenumber e), (haslastsequence e); reflexivity. }
  rewrite fold_compactpointers, fold_deletedfiles, fold_newfiles by done. reflexivity.
Qed.

Lemma Forall_when {A} (P : A -> Prop) b x : P x -> Forall P (when b x).
Proof. intros Hx. destruct b; by constructor. Qed.

Lemma fields_fit e : edit_ok e -> Forall field_fits (fields e).
Proof.
  intros []. unfold fields. rewrite !Forall_app, !Forall_map.
  split_and!; try by apply Forall_when.
  all: eapply Forall_impl; [eassumption|]; intros [l x] [Hl Hx]; split; assumption.
Qed.

(** ** What decoding yields *)

Lemma set_insert_sorted x l :
  StronglySorted (fun a b => pair_lt a b = true) l ->
  StronglySorted (fun a b => pair_lt a b = true) (set_insert pair_lt x l).
Proof.
  induction 1 as [|y l Hs IH Hy]; cbn; [repeat constructor|].
  destruct (pair_lt x y) eqn:E1.
  { constructor; [by constructor|]. constructor; [done|]. eapply Forall_impl; [exact Hy|].
    intros z Hz. by eapply pair_lt_trans. }
  destruct (pair_lt y x) eqn:E2; [|by constructor]. constructor; [done|].
  apply Forall_forall. intros z [->|Hz]%set_insert_elem; [done|].
  rewrite Forall_forall in Hy. by apply Hy.
Qed.

Lemma set_insert_Forall {P : Z * Z -> Prop} x l :
  P x -> Forall P l -> Forall P (set_insert pair_lt x l).
Proof.
  rewrite !Forall_forall. intros Hx Hl y [->|Hy]%set_insert_elem; [done|by apply Hl].
Qed.

Lemma edit_ok_clear v : edit_ok v -> edit_ok (clear v).
Proof. intros []. split; cbn; try done; try constructor; unfold key_fits; cbn; lia. Qed.

Lemma edit_ok_apply e f : field_fits f -> edit_ok e -> edit_ok (apply_field e f).
Proof.
  intros Hf []. destruct f; cbn [apply_field field_fits] in *; split; cbn; try done; try lia.
  - apply Forall_app. split; [done|]. by constructor.
  - by apply set_insert_Forall.
  - by apply set_insert_sorted.
  - apply Forall_app. split; [done|]. constructor; [|done]. destruct Hf as [? Hf]. by split.
Qed.

Lemma slice_range p s rest :
  GetLengthPrefixedSlice p = Some (s, rest) -> key_fits s /\ (length rest < length p)%nat.
Proof.
  intros H. split; [|by eapply GetLengthPrefixedSlice_suffix].
  unfold GetLengthPrefixedSlice, GetVarint32 in H.
  destruct (GetVarint32Ptr p) as [[n q]|] eqn:E; [|done]. case_match; [|done].
  apply GetVarint32Ptr_suffix in E as (Hn & _). simplify_eq. unfold key_fits. lens. lia.
Qed.

Lemma varint64_range p v rest :
  GetVarint64 p = Some (v, rest) -> is_u64 v /\ (length rest < length p)%nat.
Proof.
  unfold GetVarint64. intros H. destruct (GetVarint64Ptr p) as [[? ?]|] eqn:E; [|done].
  apply GetVarint64Ptr_suffix in E as (? & used & -> & ?). simplify_eq. split; [done|]. lens. lia.
Qed.

Lemma varint32_range p v rest :
  GetVarint32 p = Some (v, rest) -> is_u32 v /\ (length rest < length p)%nat.
Proof.
  unfold GetVarint32. intros H. destruct (GetVarint32Ptr p) as [[? ?]|] eqn:E; [|done].
  apply GetVarint32Ptr_suffix in E as (? & used & -> & ?). simplify_eq. split; [done|]. lens. lia.
Qed.

Lemma level_range p l rest :
  getLevel p = Some (l, rest) -> is_level l /\ (length rest < length p)%nat.
Proof.
  unfold getLevel. intros H. destruct (GetVarint32 p) as [[v q]|] eqn:E; [|done].
  apply varint32_range in E. case_match; [|done]. simplify_eq. unfold is_level. lia.
Qed.

(** What a round of the [switch] accepts is a field that fits. *)
Lemma decode_field_inv tag e input e' rest :
  decode_field tag e input = inl (e', rest) ->
  (length rest <= length input)%nat /\ exists f, field_fits f /\ e' = apply_field e f.
Proof.
  unfold decode_field, getInternalKey. cbv zeta. intros H.
  repeat match type of H with
  | context [match ?x with _ => _ end] =>
      lazymatch x with
      | GetVarint64 ?p => let E := fresh "E" in destruct x as [[? ?]|] eqn:E; [apply varint64_range in E|]
      | GetLengthPrefixedSlice ?p =>
          let E := fresh "E" in destruct x as [[? ?]|] eqn:E; [apply slice_range in E|]
      | getLevel ?p => let E := fresh "E" in destruct x as [[? ?]|] eqn:E; [apply level_range in E|]
      | _ =? _ => destruct x
      end
  end; simplify_eq; (split; [lia|]).
  - eexists (FComparator _). naive_solver.
  - eexists (FLogNumber _). naive_solver.
  - eexists (FPrevLogNumber _). naive_solver.
  - eexists (FNextFile _). naive_solver.
  - eexists (FLastSequence _). naive_solver.
  - eexists (FCompactPointer _ _). naive_solver.
  - eexists (FDeletedFile _ _). naive_solver.
  - eexists (FNewFile _ (FileMetaData_make _ _ _ _)). split; [|done]. cbn. unfold file_fits. naive_solver.
Qed.

Lemma DecodeFrom_loop_total fuel e input :
  (length input < fuel)%nat -> edit_ok e ->
  exists e' rest msg, DecodeFrom_loop fuel e input = Some (e', rest, msg) /\ edit_ok e'.
Proof.
  revert e input. induction fuel as [|fuel IH]; intros e input Hl He; [lia|].
  cbn [DecodeFrom_loop]. destruct (GetVarint32 input) as [[tag input']|] eqn:E; [|eauto 6].
  apply varint32_range in E as [_ E]. destruct (decode_field tag e input') as [[e' rest]|msg] eqn:E'; [|eauto 6].
  apply decode_field_inv in E' as (Hr & f & Hf & ->). apply IH; [lia|]. by apply edit_ok_apply.
Qed.

(** Whole fields, then whatever [rest] makes of the edit they give. *)
Lemma DecodeFrom_fields fs v rest :
  Forall field_fits fs ->
  exists fuel, (length rest < fuel)%nat /\
  DecodeFrom_loop (S (length (fields_bytes fs ++ rest))) (clear v) (fields_bytes fs ++ rest) =
  DecodeFrom_loop fuel (fold_left apply_field fs (clear v)) rest.
Proof.
  intros Hfs. exists (S (length (fields_bytes fs ++ rest)) - length fs)%nat.
  assert (length fs <= length (fields_bytes fs))%nat as Hl.
  { clear. induction fs as [|f fs IH]; [cbn; lia|]. rewrite fields_bytes_cons. cbn [length].
    unfold field_bytes. pose proof (length_EncodeVarint32 (field_tag f)). lens. lia. }
  split; [lens; lia|].
  rewrite <- DecodeFrom_loop_fields by done. f_equal. lens. lia.
Qed.

(** What is written decodes. *)
Lemma DecodeFrom_written v e : edit_ok e -> DecodeFrom v (fields_bytes (fields e)) = Some (OK, read_back v e).
Proof.
  intros He. unfold DecodeFrom. destruct (DecodeFrom_fields (fields e) v [] (fields_fit e He)) as (fuel & Hfuel & Hd).
  rewrite app_nil_r in Hd. rewrite Hd. destruct fuel as [|fuel]; [lia|]. cbn.
  by rewrite fold_fields by apply He.
Qed.

(** ** Properties *)

(** C30: an edit that is written and read back is the edit.  For every edit whose fields
    are in range and whose keys are set, [EncodeTo] trips no assert and appends the
    edit's fields, and [DecodeFrom] of those bytes returns [OK] and the same edit, in
    which the counters that were not marked present are zero, on top of the compaction
    pointers the target object already had. *)
Theorem edit_roundtrip v e dst :
  edit_ok e -> keys_set e ->
  exists b, EncodeTo e dst = Some (dst ++ b) /\ DecodeFrom v b = Some (OK, read_back v e).
Proof.
  intros He Hk. exists (fields_bytes (fields e)). split; [by apply EncodeTo_ok|by apply DecodeFrom_written].
Qed.

(** C37: whatever bytes it is given, [DecodeFrom] returns, and the edit it leaves behind
    satisfies the invariant of edits: every level indexes the arrays of levels, every
    number fits its type, the deleted files are a set. *)
Theorem decoded_edit_ok v src :
  edit_ok v -> exists st e, DecodeFrom v src = Some (st, e) /\ edit_ok e.
Proof.
  intros Hv. unfold DecodeFrom.
  destruct (DecodeFrom_loop_total (S (length src)) (clear v) src) as (e & rest & msg & -> & He);
    [lia|by apply edit_ok_clear|].
  destruct msg; [eauto|]. destruct rest; eauto.
Qed.

(** C38: a manifest record cut short is detected.  Decoding a strict prefix of a written
    edit fails with a corruption unless the cut falls between two fields, and in either
    case what has been read are exactly the fields before the cut. *)
Theorem edit_truncated v e b k :
  edit_ok e -> keys_set e -> EncodeTo e [] = Some b -> (k < length b)%nat ->
  exists fs1 f fs2 st, fields e = fs1 ++ f :: fs2 /\
    DecodeFrom v (take k b) = Some (st, fold_left apply_field fs1 (clear v)) /\
    ((k = length (fields_bytes fs1) /\ st = OK) \/
     (length (fields_bytes fs1) < k < length (fields_bytes fs1) + length (field_bytes f))%nat /\
     exists msg, st = Corruption (str "VersionEdit") msg).
Proof.
  intros He Hk Hb Hlen. rewrite EncodeTo_ok in Hb by done. injection Hb as <-.
  pose proof (fields_fit e He) as Hfit.
  destruct (concat_map_take field_bytes (fields e) k Hlen) as (fs1 & f & fs2 & j & Hfs & Hj & Ht).
  cbn [app]. unfold fields_bytes at 1. rewrite Ht. change (concat (map field_bytes fs1)) with (fields_bytes fs1).
  rewrite Hfs in Hfit. apply Forall_app in Hfit as [Hfit1 [Hf _]%Forall_cons].
  assert (k = length (fields_bytes fs1) + j)%nat as ->.
  { apply (f_equal length) in Ht. change (length (concat (map field_bytes (fields e))))
      with (length (fields_bytes (fields e))) in *. cbn [app] in Hlen.
    rewrite length_take, length_app, length_take in Ht.
    change (concat (map field_bytes (fields e))) with (fields_bytes (fields e)) in Ht.
    change (concat (map field_bytes fs1)) with (fields_bytes fs1) in Ht. lia. }
  destruct (DecodeFrom_fields fs1 v (take j (field_bytes f)) Hfit1) as (fuel & Hfuel & Hd).
  unfold DecodeFrom. rewrite Hd. destruct fuel as [|fuel]; [lia|].
  destruct (decide (j = 0)%nat) as [->|Hj0].
  - exists fs1, f, fs2, OK. split; [done|]. split; [done|]. left. split; [lia|done].
  - destruct (DecodeFrom_loop_cut f (fold_left apply_field fs1 (clear v)) fuel j) as (rest & msg & -> & Hm);
      [done|lia|].
    assert (exists m, (match msg with Some m => Some m
      | None => match rest with [] => None | _ => Some (str "invalid tag") end end) = Some m) as [m Hmsg].
    { destruct msg; [eauto|]. destruct Hm as [?|?]; [done|]. destruct rest; [done|]. eauto. }
    exists fs1, f, fs2, (Corruption (str "VersionEdit") m). rewrite Hmsg.
    split; [done|]. split; [done|]. right. split; [lia|]. eauto.
Qed.

(** ** Witnesses *)

Definition demo_key (u : bytes) (s : Z) : InternalKey := InternalKey_make u s kTypeValue.

Definition demo_fields : list Field := [
  FComparator (str "leveldb.BytewiseComparator"); FLogNumber 5; FNextFile 9;
  FCompactPointer 2 (demo_key (str "m") 4); FDeletedFile 1 300; FDeletedFile 0 7;
  FNewFile 1 (FileMetaData_make 8 4096 (demo_key (str "a") 3) (demo_key (str "q") 2))].

Definition demo_edit : VersionEdit := fold_left apply_field demo_fields VersionEdit_make.

Lemma VersionEdit_make_ok : edit_ok VersionEdit_make.
Proof. split; cbn; try constructor; try lia; unfold key_fits; cbn; lia. Qed.

Lemma fold_fields_ok fs e : Forall field_fits fs -> edit_ok e -> edit_ok (fold_left apply_field fs e).
Proof.
  intros Hfs. revert e. induction Hfs as [|f fs Hf _ IH]; intros e He; [done|].
  cbn [fold_left]. by apply IH, edit_ok_apply.
Qed.

Lemma demo_fields_fit : Forall field_fits demo_fields.
Proof.
  unfold demo_fields. rewrite !Forall_cons. cbn [field_fits]. unfold file_fits, is_level, key_fits.
  split_and!; try constructor; vm_compute; congruence.
Qed.

Lemma demo_edit_ok : edit_ok demo_edit /\ keys_set demo_edit.
Proof.
  split; [apply fold_fields_ok; [apply demo_fields_fit|apply VersionEdit_make_ok]|].
  split; (apply Forall_cons; split; [|by apply Forall_nil]); [|split]; vm_compute; discriminate.
Qed.

Lemma edit_roundtrip_witness :
  exists b, EncodeTo demo_edit [] = Some b /\
    DecodeFrom VersionEdit_make b = Some (OK, read_back VersionEdit_make demo_edit).
Proof.
  destruct demo_edit_ok as [H1 H2].
  destruct (edit_roundtrip VersionEdit_make demo_edit [] H1 H2) as (b & Hb & Hd).
  exists b. split; [exact Hb|exact Hd].
Defined.

Lemma decoded_edit_ok_witness :
  exists st e, DecodeFrom VersionEdit_make (str "junk") = Some (st, e) /\ edit_ok e.
Proof. exact (decoded_edit_ok VersionEdit_make (str "junk") VersionEdit_make_ok). Defined.

Lemma edit_truncated_witness :
  exists st e, DecodeFrom VersionEdit_make (take 40 (default [] (EncodeTo demo_edit []))) = Some (st, e).
Proof.
  destruct demo_edit_ok as [H1 H2].
  destruct (edit_truncated VersionEdit_make demo_edit (default [] (EncodeTo demo_edit [])) 40 H1 H2)
    as (fs1 & f & fs2 & st & _ & Hd & _).
  - vm_compute. reflexivity.
  - vm_compute. lia.
  - eexists _, _. exact Hd.
Defined.
