(* ===== verification/DbIter.v ===== *)
(** The user's iterator (redisdb/db/dbiter.h, dbiter.cc).

    [DBIter] walks an iterator over internal keys and shows, for one sequence number,
    the user keys that are live there.  The contract: it refines the list [view] of the
    entries, and [view] is what a snapshot means. *)
From Stdlib Require Import Sorted.
From stdpp Require Import sorting.
From S2P Require Import Prelude Coding Status DbFormat Block Iterators Table.
Local Open Scope Z_scope.

Inductive DbDirection := kForward | kReverse.

Section DBIter.
Context {I : Type} `{Iter I} (comparator : Comparator).

Record DBIter := MkDBIter {
  iter : I;
  dsequence : Z;
  ds : Status;
  savedkey : bytes;
  savedvalue : bytes;
  direction : DbDirection;
  vali : bool
}.

Definition DBIter_make (it : I) (sequence : Z) : DBIter :=
  MkDBIter it sequence OK [] [] kForward false.

Definition set_iter (d : DBIter) (it : I) : DBIter :=
  MkDBIter it (dsequence d) (ds d) (savedkey d) (savedvalue d) (direction d) (vali d).
Definition set_ds (d : DBIter) (st : Status) : DBIter :=
  MkDBIter (iter d) (dsequence d) st (savedkey d) (savedvalue d) (direction d) (vali d).
Definition SaveKey (d : DBIter) (k : bytes) : DBIter :=
  MkDBIter (iter d) (dsequence d) (ds d) k (savedvalue d) (direction d) (vali d).
Definition set_savedvalue (d : DBIter) (v : bytes) : DBIter :=
  MkDBIter (iter d) (dsequence d) (ds d) (savedkey d) v (direction d) (vali d).
Definition set_direction (d : DBIter) (dir : DbDirection) : DBIter :=
  MkDBIter (iter d) (dsequence d) (ds d) (savedkey d) (savedvalue d) dir (vali d).
Definition set_vali (d : DBIter) (b : bool) : DBIter :=
  MkDBIter (iter d) (dsequence d) (ds d) (savedkey d) (savedvalue d) (direction d) b.
Definition ClearSavedValue (d : DBIter) : DBIter := set_savedvalue d [].

Definition db_key (d : DBIter) : bytes :=
  match direction d with kForward => ExtractUserKey (iterkey (iter d)) | kReverse => savedkey d end.
Definition db_value (d : DBIter) : bytes :=
  match direction d with kForward => itervalue (iter d) | kReverse => savedvalue d end.
Definition db_status (d : DBIter) : Status := if ok (ds d) then iterstatus (iter d) else ds d.

Definition ParseKey (d : DBIter) : option ParsedInternalKey * DBIter :=
  match ParseInternalKey (iterkey (iter d)) with
  | Some ikey => (Some ikey, d)
  | None => (None, set_ds d (Corruption (str "corrupted internal key in DBIter") []))
  end.

(** The [do ... while] loop of [FindNextUserEntry]; [skip] is always [&savedkey].  Each
    round moves the internal iterator one entry on. *)
Fixpoint FindNext_loop (fuel : nat) (skipping : bool) (d : DBIter) : option DBIter :=
  match fuel with
  | O => None
  | S fuel' =>
      let next skipping d :=
        let? it := iterNext (iter d) in
        let d := set_iter d it in
        if iterValid it then FindNext_loop fuel' skipping d
        else Some (set_vali (SaveKey d []) false) in
      let '(parsed, d) := ParseKey d in
      match parsed with
      | Some ikey =>
          if sequence ikey <=? dsequence d then
            match type ikey with
            | kTypeDeletion => next true (SaveKey d (userkey ikey))
            | kTypeValue =>
                if skipping && negb (bool_decide (Compare comparator (userkey ikey) (savedkey d) = Gt))
                then next skipping d
                else Some (SaveKey (set_vali d true) [])
            end
          else next skipping d
      | None => next skipping d
      end
  end.

Definition FindNextUserEntry (fuel : nat) (skipping : bool) (d : DBIter) : option DBIter :=
  match iterValid (iter d), direction d with
  | true, kForward => FindNext_loop fuel skipping d
  | _, _ => None
  end.

Definition db_Next (fuel : nat) (d : DBIter) : option DBIter :=
  if negb (vali d) then None
  else
    let? d :=
      match direction d with
      | kReverse =>
          let d := set_direction d kForward in
          let? it := if iterValid (iter d) then iterNext (iter d) else iterSeekToFirst (iter d) in
          Some (set_iter d it)
      | kForward =>
          let d := SaveKey d (ExtractUserKey (iterkey (iter d))) in
          let? it := iterNext (iter d) in
          Some (set_iter d it)
      end in
    if negb (iterValid (iter d)) then Some (SaveKey (set_vali d false) [])
    else FindNextUserEntry fuel true d.

(** The [do ... while] loop of [FindPrevUserEntry]. *)
Fixpoint FindPrev_loop (fuel : nat) (valueType : ValueType) (d : DBIter) : option (ValueType * DBIter) :=
  match fuel with
  | O => None
  | S fuel' =>
      let prev valueType d :=
        let? it := iterPrev (iter d) in
        let d := set_iter d it in
        if iterValid it then FindPrev_loop fuel' valueType d else Some (valueType, d) in
      let '(parsed, d) := ParseKey d in
      match parsed with
      | Some ikey =>
          if sequence ikey <=? dsequence d then
            if negb (bool_decide (valueType = kTypeDeletion)) &&
               bool_decide (Compare comparator (userkey ikey) (savedkey d) = Lt)
            then Some (valueType, d)
            else
              match type ikey with
              | kTypeDeletion => prev kTypeDeletion (ClearSavedValue (SaveKey d []))
              | kTypeValue =>
                  prev kTypeValue
                    (set_savedvalue (SaveKey d (ExtractUserKey (iterkey (iter d)))) (itervalue (iter d)))
              end
          else prev valueType d
      | None => prev valueType d
      end
  end.

Definition FindPrevUserEntry (fuel : nat) (d : DBIter) : option DBIter :=
  match direction d with
  | kForward => None
  | kReverse =>
      let? (valueType, d) :=
        if iterValid (iter d) then FindPrev_loop fuel kTypeDeletion d else Some (kTypeDeletion, d) in
      match valueType with
      | kTypeDeletion => Some (set_direction (ClearSavedValue (SaveKey (set_vali d false) [])) kForward)
      | kTypeValue => Some (set_vali d true)
      end
  end.

(** The [while (true)] loop of [Prev]: back to a smaller user key; [false] at the front. *)
Fixpoint back_to_smaller (fuel : nat) (d : DBIter) : option (bool * DBIter) :=
  match fuel with
  | O => None
  | S fuel' =>
      let? it := iterPrev (iter d) in
      let d := set_iter d it in
      if negb (iterValid it) then Some (false, ClearSavedValue (SaveKey (set_vali d false) []))
      else if bool_decide (Compare comparator (ExtractUserKey (iterkey it)) (savedkey d) = Lt)
      then Some (true, d)
      else back_to_smaller fuel' d
  end.

Definition db_Prev (fuel : nat) (d : DBIter) : option DBIter :=
  if negb (vali d) then None
  else
    match direction d with
    | kForward =>
        if negb (iterValid (iter d)) then None
        else
          let d := SaveKey d (ExtractUserKey (iterkey (iter d))) in
          let? (found, d) := back_to_smaller fuel d in
          if negb found then Some d else FindPrevUserEntry fuel (set_direction d kReverse)
    | kReverse => FindPrevUserEntry fuel d
    end.

Definition db_Seek (fuel : nat) (d : DBIter) (target : bytes) : option DBIter :=
  let d := ClearSavedValue (set_direction d kForward) in
  let d := SaveKey d (AppendInternalKey [] (MkParsedInternalKey target (dsequence d) kValueTypeForSeek)) in
  let? it := iterSeek (iter d) (savedkey d) in
  let d := set_iter d it in
  if iterValid it then FindNextUserEntry fuel false d else Some (set_vali d false).

Definition db_SeekToFirst (fuel : nat) (d : DBIter) : option DBIter :=
  let d := ClearSavedValue (set_direction d kForward) in
  let? it := iterSeekToFirst (iter d) in
  let d := set_iter d it in
  if iterValid it then FindNextUserEntry fuel false d else Some (set_vali d false).

Definition db_SeekToLast (fuel : nat) (d : DBIter) : option DBIter :=
  let d := ClearSavedValue (set_direction d kReverse) in
  let? it := iterSeekToLast (iter d) in
  FindPrevUserEntry fuel (set_iter d it).

(** The virtual interface; [fuel] bounds the internal entries one call may pass over. *)
Definition DB_iter (fuel : nat) : Iter DBIter := {|
  iterValid := vali;
  iterSeekToFirst := db_SeekToFirst fuel;
  iterSeekToLast := db_SeekToLast fuel;
  iterSeek := db_Seek fuel;
  iterNext := db_Next fuel;
  iterPrev := db_Prev fuel;
  iterkey := db_key;
  itervalue := db_value;
  iterstatus := db_status
|}.
End DBIter.
Arguments DBIter : clear implicits.

(** ** What a snapshot sees *)

Section View.
Context (c : Comparator) (s : Z).

Abbreviation ientry := (ParsedInternalKey * bytes)%type.

Definition seen (e : ientry) : bool := sequence e.1 <=? s.
Definition same_key (e e' : ientry) : bool := bool_decide (Compare c (userkey e.1) (userkey e'.1) = Eq).

(** [e] is live after the entries [pre]: a visible value that no visible entry hides. *)
Definition is_live (pre : list ientry) (e : ientry) : bool :=
  seen e && bool_decide (type e.1 = kTypeValue) && negb (existsb (fun e' => seen e' && same_key e' e) pre).

Fixpoint view_from (pre es : list ientry) : list entry :=
  match es with
  | [] => []
  | e :: es =>
      (if is_live pre e then [(userkey e.1, e.2)] else []) ++ view_from (pre ++ [e]) es
  end.

Definition view (es : list ientry) : list entry := view_from [] es.

Lemma view_from_app pre a b : view_from pre (a ++ b) = view_from pre a ++ view_from (pre ++ a) b.
Proof.
  revert pre. induction a as [|e a IH]; intros pre; cbn [app view_from]; [by rewrite app_nil_r|].
  by rewrite IH, <- !app_assoc.
Qed.

Lemma view_snoc a e : view (a ++ [e]) = view a ++ if is_live a e then [(userkey e.1, e.2)] else [].
Proof. unfold view. rewrite view_from_app. cbn. by rewrite app_nil_r. Qed.

Lemma is_live_spec pre e :
  is_live pre e = true <->
  seen e = true /\ type e.1 = kTypeValue /\ forall e', e' ∈ pre -> seen e' = true -> same_key e' e = false.
Proof.
  unfold is_live. rewrite !andb_true_iff, bool_decide_eq_true, negb_true_iff. split.
  - intros [[Hs Ht] He]. split_and!; [done..|]. intros e' Hin Hs'.
    destruct (same_key e' e) eqn:Hk; [|done]. rewrite <- He. symmetry. apply existsb_exists.
    exists e'. split; [by apply list_elem_of_In|]. by rewrite Hs', Hk.
  - intros (Hs & Ht & Hn). split; [done|]. apply not_true_iff_false. intros He.
    apply existsb_exists in He as (e' & Hin & [Hs' Hk]%andb_true_iff).
    rewrite Hn in Hk; [done|by apply list_elem_of_In|done].
Qed.
End View.

Section Positions.
Context {c : Comparator} {Hok : ComparatorOk c (fun _ => True)} (s : Z).
Context (es : list (ParsedInternalKey * bytes)).
Hypothesis Hsorted : StronglySorted (fun a b => entry_compare c a.1 b.1 = Lt) es.

Definition rank (p : nat) : nat := length (view c s (take p es)).

Definition live (p : nat) (e : ParsedInternalKey * bytes) : Prop :=
  es !! p = Some e /\ is_live c s (take p es) e = true.

Lemma rank_S p e :
  es !! p = Some e -> rank (S p) = (rank p + if is_live c s (take p es) e then 1 else 0)%nat.
Proof.
  intros He. unfold rank. rewrite (take_S_r _ _ e He), view_snoc, length_app. by case_match.
Qed.

Lemma rank_end : rank (length es) = length (view c s es).
Proof. unfold rank. by rewrite take_ge. Qed.

Lemma rank_skip p q :
  (p <= q <= length es)%nat -> (forall m e, (p <= m < q)%nat -> ~ live m e) -> rank q = rank p.
Proof.
  induction q as [|q IH]; intros Hq Hn; [f_equal; lia|].
  destruct (decide (p = S q)) as [->|Hne]; [done|].
  destruct (proj2 (lookup_lt_is_Some es q)) as [e He]; [lia|].
  rewrite (rank_S q e He), IH; [|lia|intros; apply Hn; lia].
  destruct (is_live c s (take q es) e) eqn:El; [|lia]. exfalso. by apply (Hn q e); [lia|].
Qed.

Lemma live_lt p e : live p e -> (p < length es)%nat.
Proof. intros [He _]. by eapply lookup_lt_Some. Qed.

Lemma rank_live p e : live p e -> rank (S p) = S (rank p).
Proof. intros [He Hl]. rewrite (rank_S p e He), Hl. apply Nat.add_1_r. Qed.

Lemma view_rank p e : live p e -> view c s es !! rank p = Some (userkey e.1, e.2).
Proof.
  intros [He Hl]. rewrite <- (take_drop_middle es p e He) at 1.
  rewrite cons_middle, app_assoc. unfold view. rewrite view_from_app. change (view_from c s []) with (view c s).
  rewrite view_snoc, Hl, <- app_assoc, lookup_app_r by done. unfold rank. by rewrite Nat.sub_diag.
Qed.

Lemma view_at i x :
  view c s es !! i = Some x -> exists p e, live p e /\ rank p = i /\ x = (userkey e.1, e.2).
Proof.
  assert (forall n, (n <= length es)%nat -> (i < rank n)%nat -> exists p e, live p e /\ rank p = i) as Hn.
  { induction n as [|n IH]; intros Hle Hi; [unfold rank in Hi; rewrite take_0 in Hi; cbn in Hi; lia|].
    destruct (proj2 (lookup_lt_is_Some es n)) as [e He]; [lia|].
    destruct (decide (i < rank n)%nat) as [Hlt|Hge]; [apply IH; lia|].
    rewrite (rank_S n e He) in Hi. destruct (is_live c s (take n es) e) eqn:El; [|lia].
    exists n, e. split; [done|lia]. }
  intros Hx. destruct (Hn (length es)) as (p & e & Hl & Hr); [lia|rewrite rank_end; by eapply lookup_lt_Some|].
  exists p, e. split_and!; [done..|]. rewrite <- Hr, (view_rank p e Hl) in Hx. congruence.
Qed.

Lemma live_spec p e :
  live p e <-> es !! p = Some e /\ seen s e = true /\ type e.1 = kTypeValue /\
    forall q e', (q < p)%nat -> es !! q = Some e' -> seen s e' = true ->
      Compare c (userkey e'.1) (userkey e.1) <> Eq.
Proof.
  unfold live. rewrite is_live_spec. split; intros (He & Hs & Ht & Hn); split_and!; try done.
  - intros q e' Hq He' Hs' Heq. specialize (Hn e').
    assert (same_key c e' e = false) as Hf; [|unfold same_key in Hf; by apply bool_decide_eq_false in Hf].
    apply Hn; [|done]. apply list_elem_of_lookup. exists q. by rewrite lookup_take_lt.
  - intros e' (q & Hq)%list_elem_of_lookup Hs'. apply bool_decide_eq_false.
    apply lookup_take_Some in Hq as [He' Hq]. by apply (Hn q).
Qed.

(** User keys never decrease along the entries. *)
Lemma keys_mono p q e e' :
  (p <= q)%nat -> es !! p = Some e -> es !! q = Some e' ->
  Compare c (userkey e.1) (userkey e'.1) <> Gt.
Proof.
  intros Hpq He He'. destruct (decide (p = q)) as [->|Hne].
  { simplify_eq. by rewrite (Compare_refl (dom := fun _ => True)). }
  assert (p < q)%nat as Hlt by lia. apply (sorted_lookup _ _ _ _ _ _ Hsorted) with (1 := Hlt) (2 := He) in He'.
  rename He' into Hc. cbn beta in Hc.
  unfold entry_compare in Hc. by destruct (Compare c (userkey e.1) (userkey e'.1)).
Qed.

Lemma live_unique p q e e' :
  live p e -> live q e' -> Compare c (userkey e.1) (userkey e'.1) = Eq -> p = q.
Proof.
  rewrite !live_spec. intros (He & Hs & _ & Hn) (He' & Hs' & _ & Hn') Heq.
  destruct (lt_eq_lt_dec p q) as [[Hlt|?]|Hlt]; [|done|].
  - by destruct (Hn' p e Hlt He Hs).
  - destruct (Hn q e' Hlt He' Hs'). by apply (Compare_eq_sym (dom := fun _ => True)).
Qed.

(** Of two live entries the later has the greater user key. *)
Lemma live_mono p q e e' :
  (p < q)%nat -> live p e -> live q e' -> Compare c (userkey e.1) (userkey e'.1) = Lt.
Proof.
  intros Hpq Hp Hq. pose proof (keys_mono p q e e' ltac:(lia) (proj1 Hp) (proj1 Hq)) as Hle.
  destruct (Compare c _ _) eqn:E; [|done|done]. pose proof (live_unique p q e e' Hp Hq E). lia.
Qed.

Lemma rank_mono p q : (p <= q)%nat -> (rank p <= rank q)%nat.
Proof.
  intros Hpq. unfold rank, view. rewrite <- (take_drop p (take q es)), take_take, Nat.min_l by done.
  rewrite view_from_app, length_app. lia.
Qed.

Lemma rank_lt p q e : live p e -> (p < q)%nat -> (rank p < rank q)%nat.
Proof. intros Hl Hpq. pose proof (rank_mono (S p) q Hpq). rewrite (rank_live p e Hl) in *. lia. Qed.

(** The view is a map: one entry per user key, in order. *)
Lemma view_sorted : StronglySorted (key_lt (c := c)) (view c s es).
Proof.
  apply StronglySorted_pairs. intros i j x y Hij Hx Hy.
  apply view_at in Hx as (p & e & Hp & <- & ->), Hy as (q & e' & Hq & <- & ->).
  apply (live_mono p q); [|done..]. destruct (decide (p < q)%nat) as [|Hge]; [done|].
  apply Nat.nlt_ge in Hge. pose proof (rank_mono q p Hge). lia.
Qed.

End Positions.

(** ** The iterator follows the view *)

Section Refine.
Context {I : Type} `{Iter I} {c : Comparator} {Hok : ComparatorOk c (fun _ => True)}.
(** The targets that the internal iterator and its user seek. *)
Context (dom udom : bytes -> Prop).
Context (s : Z) (es : list (ParsedInternalKey * bytes)) (at_ : nat -> I -> Prop) (fuel : nat).
Hypothesis Hs : 0 <= s <= kMaxSequenceNumber.
Hypothesis Hseq : Forall (fun e => 0 <= sequence e.1 <= kMaxSequenceNumber) es.
Hypothesis Hsorted : StronglySorted (fun a b => entry_compare c a.1 b.1 = Lt) es.
Hypothesis Hr : iter_refines (InternalKeyComparator c) dom (map entry_of es) at_.
Hypothesis Hudom : forall u, udom u -> dom (seek_key u s).
Hypothesis Hfuel : (length es <= fuel)%nat.

Abbreviation n := (length es).
Abbreviation live := (live (c := c) s es).
Abbreviation rank := (rank (c := c) s es).
Abbreviation view := (view c s es).
Abbreviation uk e := (userkey e.1).

Definition calm (d : DBIter I) : Prop := dsequence d = s /\ ds d = OK.

(** At the value of a live entry, going forwards. *)
Definition at_forward (p : nat) (d : DBIter I) : Prop :=
  calm d /\ at_ p (iter d) /\ direction d = kForward /\ vali d = true.

Definition before (b : nat) : nat := match b with O => n | S j => j end.

(** At live entry [p], going backwards: the internal iterator is just before [b], and
    nothing visible is between [b] and [p]. *)
Definition at_reverse (p b : nat) (e : ParsedInternalKey * bytes) (d : DBIter I) : Prop :=
  calm d /\ at_ (before b) (iter d) /\ direction d = kReverse /\ vali d = true /\
  savedkey d = uk e /\ savedvalue d = e.2 /\ (b <= p)%nat /\
  (forall m e', (b <= m < p)%nat -> es !! m = Some e' -> seen s e' = false) /\
  (forall j e', b = S j -> es !! j = Some e' -> Compare c (uk e') (uk e) = Lt).

Definition at_none (d : DBIter I) : Prop := calm d /\ (exists j, at_ j (iter d)) /\ vali d = false.

Definition db_at (i : nat) (d : DBIter I) : Prop :=
  (exists p e, live p e /\ rank p = i /\ at_forward p d) \/
  (exists p e b, live p e /\ rank p = i /\ at_reverse p b e d) \/
  (i = length view /\ at_none d).

Lemma at_valid p it : at_ p it -> iterValid it = (p <? n)%nat.
Proof. intros Ha. by rewrite (ir_valid _ _ _ _ Hr p it Ha), length_map. Qed.

Lemma at_entry p it e :
  at_ p it -> es !! p = Some e ->
  iterkey it = AppendInternalKey [] e.1 /\ itervalue it = e.2 /\
  ParseInternalKey (iterkey it) = Some e.1 /\ ExtractUserKey (iterkey it) = uk e.
Proof.
  intros Ha He. destruct (ir_entry _ _ _ _ Hr p it (entry_of e) Ha) as [Hk Hv].
  { rewrite list_lookup_fmap. by rewrite He. }
  rewrite Hk. split_and!; [done..| |].
  - apply ParseInternalKey_Append. rewrite Forall_lookup in Hseq. by apply (Hseq p).
  - apply ExtractUserKey_Append.
Qed.

Lemma at_parse d p e : at_ p (iter d) -> es !! p = Some e -> ParseKey d = (Some e.1, d).
Proof.
  intros Ha He. unfold ParseKey. by destruct (at_entry p (iter d) e Ha He) as (_ & _ & -> & _).
Qed.

Lemma at_next d p : at_ p (iter d) -> (p < n)%nat -> exists it, iterNext (iter d) = Some it /\ at_ (S p) it.
Proof. intros Ha Hp. apply (ir_next _ _ _ _ Hr p); [done|by rewrite length_map]. Qed.

Lemma at_prev d p : at_ p (iter d) -> (p < n)%nat -> exists it, iterPrev (iter d) = Some it /\ at_ (before p) it.
Proof.
  intros Ha Hp. destruct (ir_prev _ _ _ _ Hr p (iter d) Ha) as (it & Hi & Ha'); [by rewrite length_map|].
  exists it. split; [done|]. unfold before. rewrite length_map in Ha'. by destruct p.
Qed.

Lemma entry_exists p : (p < n)%nat -> exists e, es !! p = Some e.
Proof. intros Hp. by apply lookup_lt_is_Some. Qed.

Lemma order_refl a : Compare c a a = Eq.
Proof. by apply (Compare_refl (dom := fun _ => True)). Qed.

(** ** Forwards *)

(** Whether the loop passes over a live entry. *)
Definition passes (skipping : bool) (skip : bytes) (e : ParsedInternalKey * bytes) : Prop :=
  skipping = true /\ Compare c (uk e) skip <> Gt.

(** The loop's state before entry [p]: what is hidden by entries before [p] is what is
    skipped, and no visible entry from [p] on is below the key to skip. *)
Record skip_inv (p : nat) (skipping : bool) (skip : bytes) : Prop := {
  sk_hidden q e q' e' : (q' < p <= q)%nat -> es !! q = Some e -> es !! q' = Some e' ->
    seen s e = true -> seen s e' = true -> Compare c (uk e') (uk e) = Eq -> passes skipping skip e;
  sk_above q e : skipping = true -> (p <= q)%nat -> es !! q = Some e -> seen s e = true ->
    Compare c (uk e) skip <> Lt
}.

Lemma skip_inv_unseen p skipping skip e :
  es !! p = Some e -> seen s e = false -> skip_inv p skipping skip -> skip_inv (S p) skipping skip.
Proof.
  intros He Hse [Hh Ha]. split.
  - intros q e1 q' e2 Hq He1 He2 Hs1 Hs2 Heq. destruct (decide (q' = p)) as [->|]; [congruence|].
    apply (Hh q e1 q' e2); [lia|done..].
  - intros q e1 Hsk Hq. apply Ha; [done|lia].
Qed.

(** After a visible entry of key [uk e], the later entries of the key are hidden. *)
Lemma skip_inv_key p e : es !! p = Some e -> seen s e = true -> skip_inv (S p) true (uk e).
Proof.
  intros He Hse. split.
  - intros q e1 q' e2 Hq He1 He2 Hs1 Hs2 Heq. split; [done|].
    pose proof (keys_mono es Hsorted q' p e2 e ltac:(lia) He2 He) as H1.
    rewrite (Compare_eq_l (dom := fun _ => True) (uk e2) (uk e1)) in H1 by done. done.
  - intros q e1 _ Hq He1 _ Hlt. apply (keys_mono es Hsorted p q e e1); [lia|done..|].
    by apply (Compare_gt_lt (dom := fun _ => True)).
Qed.

Lemma skip_inv_hidden p skipping skip e :
  es !! p = Some e -> passes skipping skip e ->
  skip_inv p skipping skip -> skip_inv (S p) skipping skip.
Proof.
  intros He [-> Hle] [Hh Ha]. split.
  - intros q e1 q' e2 Hq He1 He2 Hs1 Hs2 Heq. destruct (decide (q' = p)) as [->|].
    + simplify_eq. split; [done|].
      by rewrite <- (Compare_eq_l (dom := fun _ => True) (uk e) (uk e1)).
    + apply (Hh q e1 q' e2); [lia|done..].
  - intros q e1 Hsk Hq. apply Ha; [done|lia].
Qed.

(** Where the loop stops: at the first live entry it does not pass over. *)
Definition stops (p : nat) (skipping : bool) (skip : bytes) (d' : DBIter I) : Prop :=
  (exists q e, (p <= q)%nat /\ live q e /\ ~ passes skipping skip e /\ at_forward q d' /\
    forall m e', (p <= m < q)%nat -> live m e' -> passes skipping skip e') \/
  (at_none d' /\ forall m e', (p <= m)%nat -> live m e' -> passes skipping skip e').

Lemma FindNext_spec k : forall p skipping d,
  (n - p <= k)%nat -> (p < n)%nat -> calm d -> direction d = kForward -> at_ p (iter d) ->
  skip_inv p skipping (savedkey d) ->
  exists d', FindNext_loop c k skipping d = Some d' /\ stops p skipping (savedkey d) d'.
Proof.
  induction k as [|k IH]; intros p skipping d Hk Hp Hc Hd Ha Hinv; [lia|].
  destruct (entry_exists p Hp) as [e He]. cbn [FindNext_loop]. rewrite (at_parse d p e Ha He).
  (* moving on past [p], with the state of the next round *)
  assert (forall skipping' d1, calm d1 -> direction d1 = kForward -> at_ p (iter d1) ->
    skip_inv (S p) skipping' (savedkey d1) ->
    exists d', (let? it := iterNext (iter d1) in
      if iterValid it then FindNext_loop c k skipping' (set_iter d1 it)
      else Some (set_vali (SaveKey (set_iter d1 it) []) false)) = Some d' /\
      stops (S p) skipping' (savedkey d1) d') as Hnext.
  { intros skipping' d1 Hc1 Hd1 Ha1 Hinv1. destruct (at_next d1 p Ha1 Hp) as (it & -> & Hit).
    rewrite (at_valid _ _ Hit). destruct (Nat.ltb_spec (S p) n) as [Hlt|Hge].
    - apply (IH (S p) skipping' (set_iter d1 it)); try done. lia.
    - eexists. split; [done|]. right. split; [split; [exact Hc1|by eauto]|].
      intros m e' Hm Hl. apply live_lt in Hl. lia. }
  (* what stops at [S p] stops at [p], when [p] is passed over or not live *)
  assert (forall d', (forall e', live p e' -> passes skipping (savedkey d) e') ->
    stops (S p) skipping (savedkey d) d' -> stops p skipping (savedkey d) d') as Hwiden.
  { intros d' Hpass [(q & e1 & Hq & Hl & Hnp & Hf & Hm)|[Hno Hm]].
    - left. exists q, e1. split_and!; [lia|done..|]. intros m e' Hmq Hlm.
      destruct (decide (m = p)) as [->|]; [by apply Hpass|]. apply (Hm m); [lia|done].
    - right. split; [done|]. intros m e' Hmp Hlm.
      destruct (decide (m = p)) as [->|]; [by apply Hpass|]. apply (Hm m); [lia|done]. }
  destruct Hc as [Hcs Hco]. rewrite Hcs. change (sequence e.1 <=? s) with (seen s e).
  destruct (seen s e) eqn:Hse.
  2: { destruct (Hnext skipping d) as (d' & -> & Hst); [done..|by apply (skip_inv_unseen p _ _ e)|].
       exists d'. split; [done|]. apply Hwiden; [|done]. intros e' (He' & Hse' & _)%live_spec. congruence. }
  destruct (type e.1) eqn:Ht.
  - destruct (Hnext true (SaveKey d (uk e))) as (d' & -> & Hst); [done..|by apply (skip_inv_key p)|].
    exists d'. split; [done|]. cbn [savedkey SaveKey] in Hst.
    assert (forall q e', live q e' -> (S p <= q)%nat -> passes true (uk e) e' -> False) as Hno.
    { intros q e' Hl Hq [_ Hng]. apply live_spec in Hl as (He' & Hs' & _ & Hhid).
      apply (Hhid p e ltac:(lia) He Hse). pose proof (keys_mono es Hsorted p q e e' ltac:(lia) He He') as Hle.
      destruct (Compare c (uk e) (uk e')) eqn:E; [done| |done]. destruct Hng.
      by apply (Compare_gt_lt (dom := fun _ => True)). }
    assert (forall q e', live q e' -> (S p <= q)%nat -> passes skipping (savedkey d) e' -> False) as Hno'.
    { intros q e' Hl Hq [Hsk Hng]. apply (Hno q e' Hl Hq). split; [done|].
      apply live_spec in Hl as (He' & _). pose proof (sk_above _ _ _ Hinv p e Hsk ltac:(lia) He Hse) as Hge.
      intros Hgt%(Compare_gt_lt (dom := fun _ => True)); [|done..]. destruct Hng.
      apply (Compare_gt_lt (dom := fun _ => True)); [done..|].
      apply (Compare_le_lt_trans (dom := fun _ => True) _ (uk e)); try done.
      by intros ?%(Compare_gt_lt (dom := fun _ => True)). }
    assert (forall e', ~ live p e') as Hnp by (intros e' (? & _ & ? & _)%live_spec; congruence).
    destruct Hst as [(q & e1 & Hq & Hl & Hnpass & Hf & Hm)|[Hnone Hm]].
    + left. exists q, e1. split_and!; [lia|done|by intros ?; eapply Hno'|done|].
      intros m e' Hmq Hlm. destruct (decide (m = p)) as [->|]; [by destruct (Hnp e')|].
      exfalso. apply (Hno m e' Hlm); [lia|]. apply (Hm m); [lia|done].
    + right. split; [done|]. intros m e' Hmp Hlm.
      destruct (decide (m = p)) as [->|]; [by destruct (Hnp e')|].
      exfalso. apply (Hno m e' Hlm); [lia|]. apply (Hm m); [lia|done].
  - destruct (skipping && _) eqn:Hskip.
    + apply andb_true_iff in Hskip as [Hsk Hng%negb_true_iff%bool_decide_eq_false].
      destruct (Hnext skipping d) as (d' & -> & Hst); [done..|by apply (skip_inv_hidden p _ _ e)|].
      exists d'. split; [done|]. apply Hwiden; [|done]. intros e' [He' _]. by simplify_eq.
    + assert (~ passes skipping (savedkey d) e) as Hnp.
      { intros [-> Hng]. cbn in Hskip. apply negb_false_iff, bool_decide_eq_true in Hskip. done. }
      eexists. split; [done|]. left. exists p, e. split_and!; [done| |done|done|lia].
      apply live_spec. split_and!; [done..|]. intros q e' Hq He' Hs' Heq. destruct Hnp.
      eapply (sk_hidden _ _ _ Hinv p e q e'); [lia|done..].
Qed.

(** ** Backwards *)

(** Live as far as the entries from [b] on tell. *)
Definition live_from (b q : nat) (e : ParsedInternalKey * bytes) : Prop :=
  es !! q = Some e /\ seen s e = true /\ type e.1 = kTypeValue /\
  forall m e', (b <= m < q)%nat -> es !! m = Some e' -> seen s e' = true -> Compare c (uk e') (uk e) <> Eq.

Lemma live_from_0 q e : live_from 0 q e <-> live q e.
Proof.
  rewrite live_spec. unfold live_from. split; intros (He & Hse & Ht & Hn); split_and!; try done.
  all: intros m e' Hm; apply (Hn m e'); lia.
Qed.

Lemma live_from_mono b b' q e : (b <= b')%nat -> live_from b q e -> live_from b' q e.
Proof.
  intros Hb (He & Hse & Ht & Hn). split_and!; try done. intros m e' Hm. apply (Hn m e'). lia.
Qed.

(** The loop's state when the entries in [[b, J]] have been looked at. *)
Definition prev_inv (b J : nat) (v : ValueType) (d : DBIter I) : Prop :=
  match v with
  | kTypeDeletion => forall q e, (b <= q <= J)%nat -> ~ live_from b q e
  | kTypeValue => exists p e, (b <= p <= J)%nat /\ live_from b p e /\ savedkey d = uk e /\ savedvalue d = e.2 /\
      (forall m e', (b <= m < p)%nat -> es !! m = Some e' -> seen s e' = false) /\
      forall q e', (b <= q <= J)%nat -> live_from b q e' -> q = p
  end.

Definition backed (d : DBIter I) (b : nat) : Prop :=
  calm d /\ direction d = kReverse /\ at_ (before b) (iter d).

(** What the loop finds: the last live entry up to [J], if there is one. *)
Definition last_live (J : nat) (v : ValueType) (d : DBIter I) : Prop :=
  exists b, backed d b /\
  match v with
  | kTypeDeletion => forall q e, (q <= J)%nat -> ~ live q e
  | kTypeValue => exists p e, (b <= p <= J)%nat /\ live p e /\ savedkey d = uk e /\ savedvalue d = e.2 /\
      (forall m e', (b <= m < p)%nat -> es !! m = Some e' -> seen s e' = false) /\
      (forall j e', b = S j -> es !! j = Some e' -> Compare c (uk e') (uk e) = Lt) /\
      forall q e', (q <= J)%nat -> live q e' -> (q <= p)%nat
  end.

Lemma prev_inv_front J v d : backed d 0 -> prev_inv 0 J v d -> last_live J v d.
Proof.
  intros Hb Hi. exists 0%nat. split; [done|]. destruct v.
  - intros q e Hq. rewrite <- live_from_0. apply Hi. lia.
  - destruct Hi as (p & e & Hp & Hl & Hk & Hv & Hu & Ho). exists p, e.
    rewrite <- live_from_0. refine (conj Hp (conj Hl (conj Hk (conj Hv (conj Hu (conj _ _)))))); [done|].
    intros q e' Hq Hlq. rewrite <- live_from_0 in Hlq. rewrite (Ho q e' ltac:(lia) Hlq). done.
Qed.

Lemma prev_inv_unseen j J v d e :
  es !! j = Some e -> seen s e = false -> prev_inv (S j) J v d -> prev_inv j J v d.
Proof.
  intros He Hse Hi. destruct v.
  - intros q e' Hq Hl. destruct (decide (q = j)) as [->|].
    + destruct Hl as (? & ? & _). congruence.
    + apply (Hi q e'); [lia|]. apply (live_from_mono j); [lia|done].
  - destruct Hi as (p & e1 & Hp & Hl & Hk & Hv & Hu & Ho). exists p, e1. refine (conj _ (conj _ (conj Hk (conj Hv (conj _ _))))); [lia|..].
    + destruct Hl as (He1 & Hs1 & Ht1 & Hn). split_and!; try done. intros m e' Hm He' Hs'.
      destruct (decide (m = j)) as [->|]; [congruence|]. apply (Hn m e'); [lia|done..].
    + intros m e' Hm He'. destruct (decide (m = j)) as [->|]; [congruence|]. apply (Hu m); [lia|done].
    + intros q e' Hq Hlq. destruct (decide (q = j)) as [->|].
      * destruct Hlq as (? & ? & _). congruence.
      * apply (Ho q e'); [lia|]. apply (live_from_mono j); [lia|done].
Qed.

(** A visible entry of the key being collected, or of a new one, takes its place. *)
Lemma prev_inv_seen j J v d e :
  es !! j = Some e -> seen s e = true -> (j <= J)%nat -> prev_inv (S j) J v d ->
  (v = kTypeValue -> Compare c (uk e) (savedkey d) <> Lt) ->
  forall d', (type e.1 = kTypeValue -> savedkey d' = uk e /\ savedvalue d' = e.2) ->
  prev_inv j J (type e.1) d'.
Proof.
  intros He Hse Hj Hi Hnlt d' Hd'.
  assert (forall q e', (S j <= q <= J)%nat -> live_from j q e' -> False) as Hno.
  { intros q e' Hq Hl. pose proof (live_from_mono j (S j) q e' ltac:(lia) Hl) as Hl'. destruct v.
    - by apply (Hi q e').
    - destruct Hi as (p & e1 & Hp & Hlp & Hk & _ & _ & Ho). specialize (Ho q e' Hq Hl') as ->.
      assert (e1 = e') as -> by (destruct Hlp as (? & _), Hl as (? & _); congruence).
      destruct Hl as (He' & _ & _ & Hn). apply (Hn j e ltac:(lia) He Hse).
      pose proof (keys_mono es Hsorted j p e e' ltac:(lia) He He') as Hle. specialize (Hnlt eq_refl).
      rewrite Hk in Hnlt. by destruct (Compare c (uk e) (uk e')). }
  destruct (type e.1) eqn:Ht; cbn [prev_inv].
  - intros q e' Hq Hl. destruct (decide (q = j)) as [->|].
    + destruct Hl as (? & _ & ? & _). congruence.
    + apply (Hno q e'); [lia|done].
  - exists j, e. destruct (Hd' eq_refl) as [Hk Hv].
    refine (conj _ (conj _ (conj Hk (conj Hv (conj _ _))))); [lia|..].
    + split_and!; try done. intros m e' Hm. lia.
    + intros m e' Hm. lia.
    + intros q e' Hq Hl. destruct (decide (q = j)) as [|]; [done|]. exfalso. apply (Hno q e'); [lia|done].
Qed.

Lemma FindPrev_spec k : forall j J v d,
  (j < k)%nat -> (j <= J < n)%nat -> backed d (S j) -> prev_inv (S j) J v d ->
  exists v' d', FindPrev_loop c k v d = Some (v', d') /\ last_live J v' d'.
Proof.
  induction k as [|k IH]; intros j J v d Hk HJ (Hc & Hd & Ha) Hinv; [lia|]. cbn [before] in Ha.
  destruct (entry_exists j) as [e He]; [lia|]. cbn [FindPrev_loop]. rewrite (at_parse d j e Ha He).
  destruct (at_entry j _ e Ha He) as (_ & Hval & _ & Huk).
  assert (forall v1 d1, calm d1 -> direction d1 = kReverse -> at_ j (iter d1) -> prev_inv j J v1 d1 ->
    exists v' d', (let? it := iterPrev (iter d1) in
      if iterValid it then FindPrev_loop c k v1 (set_iter d1 it) else Some (v1, set_iter d1 it)) = Some (v', d') /\
      last_live J v' d') as Hprev.
  { intros v1 d1 Hc1 Hd1 Ha1 Hi1. destruct (at_prev d1 j Ha1 ltac:(lia)) as (it & -> & Hit).
    rewrite (at_valid _ _ Hit). destruct j as [|j]; cbn [before] in *.
    - rewrite Nat.ltb_irrefl. eexists _, _. split; [done|]. by apply prev_inv_front.
    - rewrite (proj2 (Nat.ltb_lt _ _)) by lia. apply (IH j); [lia|lia|done|by destruct v1]. }
  destruct Hc as [Hcs Hco]. rewrite Hcs. change (sequence e.1 <=? s) with (seen s e).
  destruct (seen s e) eqn:Hse; [|apply Hprev; try done; by apply (prev_inv_unseen j J v d e)].
  destruct (negb _ && _) eqn:Hbreak.
  - apply andb_true_iff in Hbreak as [Hv%negb_true_iff%bool_decide_eq_false Hlt%bool_decide_eq_true].
    destruct v; [done|]. eexists _, _. split; [done|]. exists (S j). split; [done|].
    destruct Hinv as (p & e1 & Hp & Hl & Hks & Hvs & Hu & Ho). exists p, e1. rewrite Hks in Hlt.
    refine (conj Hp (conj _ (conj Hks (conj Hvs (conj Hu (conj _ _)))))).
    + apply live_spec. destruct Hl as (He1 & Hs1 & Ht1 & Hn). split_and!; try done.
      intros m e' Hm He' Hs' Heq. destruct (decide (S j <= m)%nat); [by apply (Hn m e' ltac:(lia) He' Hs')|].
      pose proof (keys_mono es Hsorted m j e' e ltac:(lia) He' He) as Hle.
      rewrite (Compare_eq_l (dom := fun _ => True) _ (uk e1)) in Hle by done.
      by destruct Hle; apply (Compare_gt_lt (dom := fun _ => True)).
    + intros j' e' [= <-] He'. by simplify_eq.
    + intros q e' Hq Hlq. destruct (decide (S j <= q)%nat); [|lia].
      apply live_from_0, (live_from_mono 0 (S j)) in Hlq; [|lia]. by rewrite (Ho q e' ltac:(lia) Hlq).
  - assert (v = kTypeValue -> Compare c (uk e) (savedkey d) <> Lt) as Hge.
    { intros -> Hlt. cbn in Hbreak. by apply bool_decide_eq_false in Hbreak. }
    pose proof (prev_inv_seen j J v d e He Hse ltac:(lia) Hinv Hge) as Hnew.
    rewrite Huk, Hval. destruct (type e.1) eqn:Ht; apply Hprev; try done; by apply Hnew.
Qed.

(** The place in the view of the last live entry before [b]. *)
Definition prev_rank (b : nat) : nat := match rank b with O => length view | S i => i end.

Lemma FindPrevUser_spec b d :
  (b <= n)%nat -> backed d b -> exists d', FindPrevUserEntry c fuel d = Some d' /\ db_at (prev_rank b) d'.
Proof.
  intros Hb Hbk. pose proof Hbk as (Hc & Hd & Ha). unfold FindPrevUserEntry. rewrite Hd, (at_valid _ _ Ha).
  assert (exists v d1, (if (before b <? n)%nat then FindPrev_loop c fuel kTypeDeletion d
      else Some (kTypeDeletion, d)) = Some (v, d1) /\
    exists b1, backed d1 b1 /\ match v with
    | kTypeDeletion => forall q e, (q < b)%nat -> ~ live q e
    | kTypeValue => exists p e, (p < b)%nat /\ live p e /\ rank b = S (rank p) /\
        forall d2, iter d2 = iter d1 -> dsequence d2 = dsequence d1 -> ds d2 = ds d1 ->
          direction d2 = direction d1 -> savedkey d2 = savedkey d1 -> savedvalue d2 = savedvalue d1 ->
          vali d2 = true -> at_reverse p b1 e d2
    end) as (v & d1 & -> & b1 & (Hc1 & Hd1 & Ha1) & Hres).
  { destruct b as [|j]; cbn [before].
    { rewrite Nat.ltb_irrefl. eexists _, _. split; [done|]. exists 0%nat. split; [done|]. intros q e Hq. lia. }
    rewrite (proj2 (Nat.ltb_lt _ _)) by lia.
    destruct (FindPrev_spec fuel j j kTypeDeletion d) as (v & d1 & -> & b1 & Hb1 & Hlast);
      [lia|lia|done|intros q e Hq; lia|].
    eexists _, _. split; [done|]. exists b1. split; [done|]. destruct v.
    - intros q e Hq. apply Hlast. lia.
    - destruct Hlast as (p & e & Hp & Hl & Hk & Hv & Hu & Hlt & Hmax). exists p, e.
      split; [lia|]. split; [done|]. split.
      + rewrite <- (rank_live s es p e Hl). apply rank_skip; [lia|].
        intros m e' Hm Hlm. specialize (Hmax m e' ltac:(lia) Hlm). lia.
      + destruct Hb1 as (Hc1 & Hd1 & Ha1). intros d2 E1 E2 E3 E4 E5 E6 E7.
        unfold at_reverse, calm. rewrite E1, E2, E3, E4, E5, E6, E7.
        refine (conj Hc1 (conj Ha1 (conj Hd1 (conj eq_refl (conj Hk (conj Hv (conj _ (conj Hu Hlt)))))))). lia. }
  destruct v.
  - eexists. split; [done|]. right; right. split.
    + unfold prev_rank. rewrite (rank_skip s es 0 b) by (lia || (intros m e Hm; apply Hres; lia)). done.
    + split; [done|]. split; [|done]. by exists (before b1).
  - destruct Hres as (p & e & Hp & Hl & Hrk & Hat). eexists. split; [done|]. right; left. exists p, e, b1.
    split; [done|]. split; [unfold prev_rank; by rewrite Hrk|]. by apply Hat.
Qed.

(** [Prev] walks back out of the entries of the current key. *)
Lemma back_to_smaller_spec k : forall q d key,
  (q < k)%nat -> (q < n)%nat -> at_ q (iter d) -> savedkey d = key ->
  exists b found d', back_to_smaller c k d = Some (found, d') /\ (b <= q)%nat /\
    at_ (before b) (iter d') /\ dsequence d' = dsequence d /\ ds d' = ds d /\
    (forall m e, (b <= m < q)%nat -> es !! m = Some e -> Compare c (uk e) key <> Lt) /\
    (if found then True else vali d' = false /\ b = 0%nat).
Proof.
  induction k as [|k IH]; intros q d key Hk Hq Ha Hkey; [lia|]. cbn [back_to_smaller].
  destruct (at_prev d q Ha Hq) as (it & -> & Hit). rewrite (at_valid _ _ Hit).
  destruct q as [|q]; cbn [before] in Hit.
  { rewrite Nat.ltb_irrefl. cbn [negb]. exists 0%nat. eexists _, _. split_and!; try done. intros m e Hm. lia. }
  change (before (S q)) with q. rewrite (proj2 (Nat.ltb_lt q n)) by lia. cbn [negb].
  destruct (entry_exists q) as [e He]; [lia|]. destruct (at_entry q it e Hit He) as (_ & _ & _ & ->).
  cbn [savedkey set_iter]. rewrite Hkey. destruct (bool_decide_reflect (Compare c (uk e) key = Lt)) as [Hlt|Hge].
  - exists (S q). eexists _, _. split_and!; try done. intros m e' Hm. lia.
  - destruct (IH q (set_iter d it) key) as (b & found & d' & -> & Hb & Ha' & Hsq & Hds & Hno & Hf);
      [lia|lia|done|done|].
    exists b, found, d'. split_and!; try done; [lia|]. intros m e' Hm He'.
    destruct (decide (m = q)) as [->|]; [by simplify_eq|]. apply (Hno m); [lia|done].
Qed.

(** Where a forward search from [p] ends. *)
Lemma stops_at p skip d' :
  (p <= n)%nat -> stops p false skip d' -> db_at (rank p) d' /\
    (forall q e, (p <= q)%nat -> live q e -> exists q' e', (p <= q' <= q)%nat /\ live q' e' /\ rank q' = rank p).
Proof.
  intros Hp [(q & e & Hq & Hl & _ & Hf & Hm)|[Hno Hm]].
  - assert (rank q = rank p) as Hrk.
    { apply rank_skip; [apply live_lt in Hl; lia|]. intros m e' Hmq Hlm. by destruct (Hm m e' Hmq Hlm). }
    split; [left; by exists q, e|]. intros q' e' Hq' Hl'. exists q, e. split_and!; try done.
    destruct (decide (q <= q')%nat); [done|]. destruct (Hm q' e'); [lia|done|done].
  - split.
    + right; right. split; [|done]. rewrite <- rank_end. symmetry. apply rank_skip; [lia|].
      intros m e Hmq Hlm. by destruct (Hm m e ltac:(lia) Hlm).
    + intros q e Hq Hl. by destruct (Hm q e Hq Hl).
Qed.

(** Searching on from [p] past the key of the live entry [q]. *)
Lemma stops_after p q e d' :
  (p <= n)%nat -> live q e ->
  (forall m e', (p <= m)%nat -> live m e' -> (q < m)%nat <-> Compare c (uk e') (uk e) = Gt) ->
  (forall m e', (p <= m <= q)%nat \/ (q < m < p)%nat -> live m e' -> m = q) ->
  stops p true (uk e) d' -> db_at (S (rank q)) d'.
Proof.
  intros Hp Hlq Hgt Hbet Hst. rewrite <- (rank_live s es q e Hlq). pose proof (live_lt s es q e Hlq) as Hqn.
  assert (forall m e', (p <= m)%nat -> live m e' -> passes true (uk e) e' -> (m <= q)%nat) as Hpass.
  { intros m e' Hm Hl [_ Hng]. destruct (decide (q < m)%nat) as [Hlt|]; [|lia]. by apply (Hgt m e') in Hlt. }
  destruct Hst as [(m & e1 & Hm & Hl & Hnp & Hf & Hmin)|[Hno Hmin]].
  - assert (q < m)%nat as Hqm.
    { apply (Hgt m e1 Hm Hl). destruct (Compare c (uk e1) (uk e)) eqn:E; [| |done]; destruct Hnp;
        split; try done; by rewrite E. }
    left. exists m, e1. split; [done|]. split; [|done]. apply rank_skip; [apply live_lt in Hl; lia|].
    intros m' e' Hm' Hl'. destruct (decide (p <= m')%nat).
    + specialize (Hpass m' e' ltac:(lia) Hl' (Hmin m' e' ltac:(lia) Hl')). lia.
    + specialize (Hbet m' e' ltac:(lia) Hl'). lia.
  - right; right. split; [|done]. rewrite <- rank_end. symmetry. apply rank_skip; [lia|].
    intros m' e' Hm' Hl'. destruct (decide (p <= m')%nat).
    + specialize (Hpass m' e' ltac:(lia) Hl' (Hmin m' e' ltac:(lia) Hl')). lia.
    + specialize (Hbet m' e' ltac:(lia) Hl'). lia.
Qed.

Lemma skip_inv_start p skip :
  (forall q e q' e', (q' < p <= q)%nat -> es !! q = Some e -> es !! q' = Some e' -> seen s e' = true ->
     Compare c (uk e') (uk e) <> Eq) -> skip_inv p false skip.
Proof.
  intros Hne. split; [|done]. intros q e q' e' Hq He He' _ Hs' Heq. by destruct (Hne q e q' e' Hq He He' Hs').
Qed.

Lemma db_at_base i d : db_at i d -> calm d /\ exists j, at_ j (iter d).
Proof.
  intros [(p & e & _ & _ & Hf)|[(p & e & b & _ & _ & Hrv)|[_ Hn]]].
  - destruct Hf as (? & ? & _). eauto.
  - destruct Hrv as (? & ? & _). eauto.
  - destruct Hn as (? & ? & _). eauto.
Qed.

(** A search from the start of the entries, or from [p]. *)
Lemma find_from p d :
  (p <= n)%nat -> calm d -> direction d = kForward -> at_ p (iter d) ->
  skip_inv p false (savedkey d) ->
  exists d', (if iterValid (iter d) then FindNextUserEntry c fuel false d else Some (set_vali d false)) = Some d' /\
    db_at (rank p) d'.
Proof.
  intros Hp Hc Hd Ha Hinv. rewrite (at_valid _ _ Ha). destruct (Nat.ltb_spec p n) as [Hlt|Hge].
  - unfold FindNextUserEntry. rewrite (at_valid _ _ Ha), (proj2 (Nat.ltb_lt _ _)), Hd by done.
    destruct (FindNext_spec fuel p false d) as (d' & -> & Hst); [lia|done..|].
    exists d'. split; [done|]. by apply (stops_at p (savedkey d)).
  - eexists. split; [done|]. right; right. split; [|split; [done|]; split; [by exists p|done]].
    rewrite <- rank_end. f_equal. lia.
Qed.

Lemma seek_split target j :
  lower_bound (InternalKeyComparator c) (map entry_of es) (seek_key target s) j ->
  (forall q e, (q < j)%nat -> es !! q = Some e -> seen s e = true -> Compare c (uk e) target = Lt) /\
  (forall q e, (j <= q)%nat -> es !! q = Some e -> Compare c (uk e) target <> Lt).
Proof.
  intros [Hlo Hhi]. rewrite Forall_lookup in Hseq. cbn [Compare InternalKeyComparator] in *. split.
  - intros q e Hq He Hse. specialize (Hlo q (entry_of e) Hq ltac:(rewrite list_lookup_fmap; by rewrite He)).
    unfold seek_key, entry_of in Hlo. cbn [fst] in Hlo. rewrite Internal_Compare_Append in Hlo by (done || by apply (Hseq q)).
    unfold entry_compare in Hlo. cbn [userkey sequence type] in Hlo. unfold seen in Hse. apply Z.leb_le in Hse.
    destruct (Compare c (uk e) target); [|done|done].
    destruct (Z.compare_spec s (sequence e.1)); [|lia|done]. by destruct (type e.1).
  - intros q e Hq He Hlt. destruct (entry_exists j) as [e0 He0]; [apply lookup_lt_Some in He; lia|].
    specialize (Hhi (entry_of e0) ltac:(rewrite list_lookup_fmap; by rewrite He0)).
    unfold seek_key, entry_of in Hhi. cbn [fst] in Hhi. rewrite Internal_Compare_Append in Hhi by (done || by apply (Hseq j)).
    destruct Hhi. unfold entry_compare. cbn [userkey].
    by rewrite (Compare_le_lt_trans (dom := fun _ => True) _ (uk e)) by (done || by apply (keys_mono es Hsorted j q)).
Qed.

Lemma db_seek_ok i d target :
  db_at i d -> udom target -> exists d' j, db_Seek c fuel d target = Some d' /\ db_at j d' /\ lower_bound c view target j.
Proof.
  intros Hat Ht. revert Hat. intros ([Hcs Hco] & j0 & Ha0)%db_at_base. unfold db_Seek. cbn [dsequence set_direction ClearSavedValue set_savedvalue].
  rewrite Hcs. cbn [iter savedkey SaveKey]. fold (seek_key target s).
  destruct (ir_seek _ _ _ _ Hr j0 (iter d) (seek_key target s) Ha0 (Hudom target Ht)) as (it & j & Hsk & Ha & Hlb).
  cbn [iter SaveKey ClearSavedValue set_savedvalue set_direction]. rewrite Hsk.
  pose proof (ir_le _ _ _ _ Hr _ _ Ha) as Hj. rewrite length_map in Hj.
  destruct (seek_split target j Hlb) as [Hlo Hhi].
  destruct (find_from j (set_iter (SaveKey (ClearSavedValue (set_direction d kForward)) (seek_key target s)) it))
    as (d' & Hd' & Hat); [done|done|done|done| |].
  { apply skip_inv_start. intros q e q' e' Hq He He' Hse Heq.
    apply (Hhi q e ltac:(lia) He). rewrite <- (Compare_eq_l (dom := fun _ => True) (uk e')) by done.
    by apply (Hlo q'); [lia|..]. }
  exists d', (rank j). split; [exact Hd'|]. split; [done|]. split.
  - intros m x Hm (p & e & Hl & Hrk & ->)%view_at. cbn [fst]. destruct (decide (p < j)%nat) as [Hpj|Hge].
    + pose proof Hl as (He & Hse & _)%live_spec. by apply (Hlo p).
    + pose proof (rank_mono (c := c) s es j p ltac:(lia)). lia.
  - intros x (p & e & Hl & Hrk & ->)%view_at. cbn [fst]. destruct (decide (p < j)%nat) as [Hpj|Hge].
    + pose proof (rank_lt s es p j e Hl Hpj). lia.
    + destruct Hl as [He _]. apply (Hhi p); [lia|done].
Qed.

Lemma db_next_ok i d :
  db_at i d -> (i < length view)%nat -> exists d', db_Next c fuel d = Some d' /\ db_at (S i) d'.
Proof.
  intros [(p & e & Hl & <- & (Hc & Ha & Hd & Hv))|[(p & e & b & Hl & <- & Hrv)|[-> _]]] Hi; [| |lia];
    pose proof (live_lt s es p e Hl) as Hp; pose proof Hl as (He & Hse & _)%live_spec; unfold db_Next.
  - rewrite Hv, Hd. cbn [negb]. destruct (at_entry p _ e Ha He) as (_ & _ & _ & ->).
    destruct (at_next (SaveKey d (uk e)) p Ha Hp) as (it & -> & Hit). cbn [iter set_iter].
    rewrite (at_valid _ _ Hit). destruct (Nat.ltb_spec (S p) n) as [Hlt|Hge]; cbn [negb].
    + unfold FindNextUserEntry. cbn [iter set_iter direction SaveKey].
      rewrite (at_valid _ _ Hit), (proj2 (Nat.ltb_lt _ _)), Hd by done.
      destruct (FindNext_spec fuel (S p) true (set_iter (SaveKey d (uk e)) it)) as (d' & -> & Hst);
        [lia|done..|by apply (skip_inv_key p)|].
      exists d'. split; [done|]. apply (stops_after (S p) p e); [lia|done| |lia|done].
      intros m e' Hm Hlm. split; [|lia]. intros _. apply (Compare_gt_lt (dom := fun _ => True)); [done..|].
      by apply (live_mono s es Hsorted p m); [lia|..].
    + eexists. split; [done|]. right; right. split; [|split; [done|]; split; [by exists (S p)|done]].
      rewrite <- (rank_live s es p e Hl), <- rank_end. f_equal. lia.
  - destruct Hrv as (Hc & Ha & Hd & Hv & Hk & Hsv & Hb & Hu & Hlow). rewrite Hv, Hd. cbn [negb].
    cbn [iter set_direction].
    assert (exists it, (if iterValid (iter d) then iterNext (iter d) else iterSeekToFirst (iter d)) = Some it /\ at_ b it)
      as (it & -> & Hit).
    { rewrite (at_valid _ _ Ha). destruct b as [|j]; cbn [before] in *.
      - rewrite Nat.ltb_irrefl. by apply (ir_first _ _ _ _ Hr n).
      - rewrite (proj2 (Nat.ltb_lt _ _)) by lia. apply at_next; [done|lia]. }
    cbn [iter set_iter]. rewrite (at_valid _ _ Hit), (proj2 (Nat.ltb_lt _ _)) by lia. cbn [negb].
    unfold FindNextUserEntry. cbn [iter set_iter direction set_direction].
    rewrite (at_valid _ _ Hit), (proj2 (Nat.ltb_lt _ _)) by lia.
    assert (forall m e', (b <= m < p)%nat -> ~ live m e') as Hnol.
    { intros m e' Hm (He' & Hs' & _)%live_spec. by rewrite (Hu m e' Hm He') in Hs'. }
    assert (forall m e', (b <= m)%nat -> es !! m = Some e' -> seen s e' = true -> Compare c (uk e') (uk e) <> Lt) as Habove.
    { intros m e' Hm He' Hs' Hlt. destruct (decide (m < p)%nat) as [Hmp|Hmp].
      - by rewrite (Hu m e') in Hs'.
      - apply (keys_mono es Hsorted p m e e'); [lia|done..|]. by apply (Compare_gt_lt (dom := fun _ => True)). }
    destruct (FindNext_spec fuel b true (set_iter (set_direction d kForward) it)) as (d' & -> & Hst);
      [lia|lia|done..| |].
    { cbn [savedkey set_iter set_direction]. rewrite Hk. split.
      - intros q e1 q' e2 Hq He1 He2 Hs1 Hs2 Heq. destruct b as [|j]; [lia|].
        destruct (entry_exists j) as [ej Hej]; [lia|]. exfalso.
        apply (Habove q e1 ltac:(lia) He1 Hs1). rewrite <- (Compare_eq_l (dom := fun _ => True) (uk e2)) by done.
        apply (Compare_le_lt_trans (dom := fun _ => True) _ (uk ej)); [done..| |by apply (Hlow j)].
        apply (keys_mono es Hsorted q' j); [lia|done..].
      - intros q e1 _. apply Habove. }
    cbn [savedkey set_iter set_direction] in Hst. rewrite Hk in Hst.
    exists d'. split; [done|]. apply (stops_after b p e); [lia|done| | |done].
    + intros m e' Hm Hlm. split.
      * intros Hpm. apply (Compare_gt_lt (dom := fun _ => True)); [done..|]. by apply (live_mono s es Hsorted p m).
      * intros Hgt. destruct (decide (p < m)%nat); [done|]. exfalso.
        by apply (keys_mono es Hsorted m p e' e); [lia|apply Hlm|apply Hl|].
    + intros m e' [Hm|Hm] Hlm; [|lia]. destruct (decide (m = p)); [done|]. by destruct (Hnol m e' ltac:(lia)).
Qed.

Lemma db_prev_ok i d :
  db_at i d -> (i < length view)%nat ->
  exists d', db_Prev c fuel d = Some d' /\ db_at (match i with O => length view | S j => j end) d'.
Proof.
  intros [(p & e & Hl & <- & (Hc & Ha & Hd & Hv))|[(p & e & b & Hl & <- & Hrv)|[-> _]]] Hi; [| |lia];
    pose proof (live_lt s es p e Hl) as Hp; unfold db_Prev.
  - destruct Hl as [He Hil]. pose proof (conj He Hil : live p e) as Hl.
    rewrite Hv, Hd, (at_valid _ _ Ha), (proj2 (Nat.ltb_lt _ _)) by done. cbn [negb].
    destruct (at_entry p _ e Ha He) as (_ & _ & _ & ->).
    destruct (back_to_smaller_spec fuel p (SaveKey d (uk e)) (uk e)) as (b & found & d' & -> & Hb & Ha' & Hsq & Hds & Hno & Hf);
      [lia|done..|].
    assert (rank p = rank b) as Hrk.
    { apply rank_skip; [lia|]. intros m e' Hm Hlm. apply (Hno m e' Hm (proj1 Hlm)).
      by apply (live_mono s es Hsorted m p); [lia|..]. }
    assert (calm d') as Hc' by (destruct Hc; split; [by rewrite Hsq|by rewrite Hds]).
    destruct found; cbn [negb].
    + destruct (FindPrevUser_spec b (set_direction d' kReverse)) as (d2 & -> & Hat); [lia|done|].
      exists d2. split; [done|]. unfold prev_rank in Hat. by rewrite Hrk.
    + destruct Hf as [Hf ->]. exists d'. split; [done|]. right; right.
      split; [by rewrite Hrk|]. split; [done|]. split; [by exists (before 0)|done].
  - destruct Hrv as (Hc & Ha & Hd & Hv & Hk & Hsv & Hb & Hu & Hlow). rewrite Hv, Hd. cbn [negb].
    destruct (FindPrevUser_spec b d) as (d2 & -> & Hat); [lia|done|]. exists d2. split; [done|].
    unfold prev_rank in Hat. rewrite (rank_skip s es b p); [done|lia|].
    intros m e' Hm (He' & Hs' & _)%live_spec. by rewrite (Hu m e' Hm He') in Hs'.
Qed.

Lemma db_iter_refines :
  @iter_refines _ (DB_iter c fuel) c udom view db_at.
Proof.
  constructor; cbn [iterValid iterSeekToFirst iterSeekToLast iterSeek iterNext iterPrev iterkey itervalue iterstatus DB_iter].
  - intros i d [(p & e & Hl & <- & _)|[(p & e & b & Hl & <- & _)|[-> _]]]; [| |done];
      by apply Nat.lt_le_incl; eapply lookup_lt_Some, view_rank.
  - intros i d [(p & e & Hl & <- & Hf)|[(p & e & b & Hl & <- & Hrv)|[-> Hn]]].
    + destruct Hf as (_ & _ & _ & ->). symmetry. apply Nat.ltb_lt. by eapply lookup_lt_Some, view_rank.
    + destruct Hrv as (_ & _ & _ & -> & _). symmetry. apply Nat.ltb_lt. by eapply lookup_lt_Some, view_rank.
    + destruct Hn as (_ & _ & ->). by rewrite Nat.ltb_irrefl.
  - intros i d ([_ Hco] & j & Ha)%db_at_base. unfold db_status. rewrite Hco. cbn. by apply (ir_status _ _ _ _ Hr j).
  - intros i d x [(p & e & Hl & <- & Hf)|[(p & e & b & Hl & <- & Hrv)|[-> Hn]]] Hx.
    + rewrite (view_rank s es p e Hl) in Hx. injection Hx as <-. destruct Hf as (_ & Ha & Hd & _).
      unfold db_key, db_value. rewrite Hd. by destruct (at_entry p _ e Ha (proj1 Hl)) as (_ & -> & _ & ->).
    + rewrite (view_rank s es p e Hl) in Hx. injection Hx as <-. destruct Hrv as (_ & _ & Hd & _ & Hk & Hv & _).
      unfold db_key, db_value. by rewrite Hd, Hk, Hv.
    + apply lookup_lt_Some in Hx. lia.
  - intros i d (Hc & j & Ha)%db_at_base. unfold db_SeekToFirst. cbn [iter ClearSavedValue set_savedvalue set_direction].
    destruct (ir_first _ _ _ _ Hr j (iter d) Ha) as (it & -> & Hit).
    apply (find_from 0 (set_iter (ClearSavedValue (set_direction d kForward)) it)); try done; [lia|].
    apply skip_inv_start. lia.
  - intros i d (Hc & j & Ha)%db_at_base. unfold db_SeekToLast. cbn [iter ClearSavedValue set_savedvalue set_direction].
    destruct (ir_last _ _ _ _ Hr j (iter d) Ha) as (it & -> & Hit). rewrite length_map in Hit.
    destruct (FindPrevUser_spec n (set_iter (ClearSavedValue (set_direction d kReverse)) it)) as (d' & -> & Hat); [done| |].
    { split; [done|]. split; [done|]. unfold before. by destruct n; rewrite ?Nat.sub_1_r in Hit. }
    exists d'. split; [done|]. unfold prev_rank in Hat. rewrite rank_end in Hat.
    by destruct (length view); rewrite ?Nat.sub_1_r.
  - apply db_next_ok.
  - apply db_prev_ok.
  - intros i d target Hat Ht. by apply (db_seek_ok i).
Qed.

Lemma db_iter_make it j : at_ j it -> db_at (length view) (DBIter_make it s).
Proof. intros Ha. right; right. split; [done|]. split; [done|]. split; [by exists j|done]. Qed.
End Refine.

(** ** Theorems *)

(** The map a snapshot means. *)
Lemma view_elem {c} `{!ComparatorOk c (fun _ => True)} s (es : list (ParsedInternalKey * bytes)) u v :
  StronglySorted (fun a b => entry_compare c a.1 b.1 = Lt) es ->
  (u, v) ∈ view c s es <->
    exists e, e ∈ es /\ userkey e.1 = u /\ e.2 = v /\ type e.1 = kTypeValue /\ sequence e.1 <= s /\
      forall e', e' ∈ es -> Compare c (userkey e'.1) u = Eq -> sequence e'.1 <= s -> sequence e'.1 <= sequence e.1.
Proof.
  intros Hso. split.
  - intros (i & Hi)%list_elem_of_lookup. apply (view_at (c := c)) in Hi as (p & e & Hl & _ & [= -> ->]).
    apply live_spec in Hl as (He & Hse & Ht & Hn). exists e.
    split; [by eapply list_elem_of_lookup_2|]. split_and!; [done..|by apply Z.leb_le|].
    intros e' (q & He')%list_elem_of_lookup Heq Hle.
    destruct (decide (q < p)%nat) as [Hq|Hq]; [by destruct (Hn q e' Hq He' (proj2 (Z.leb_le _ _) Hle))|].
    destruct (decide (q = p)) as [->|Hne]; [by simplify_eq|]. assert (p < q)%nat as Hpq by lia.
    pose proof (sorted_lookup _ _ _ _ _ _ Hso Hpq He He') as Hlt. cbn in Hlt. unfold entry_compare in Hlt.
    rewrite (Compare_eq_sym (dom := fun _ => True) _ _ Logic.I Logic.I Heq) in Hlt.
    destruct (Z.compare_spec (sequence e'.1) (sequence e.1)); [lia|lia|done].
  - intros (e & (p & He)%list_elem_of_lookup & <- & <- & Ht & Hle & Hmax).
    assert (live (c := c) s es p e) as Hl.
    { apply live_spec. split_and!; [done|by apply Z.leb_le|done|].
      intros q e' Hq He' Hs' Heq. apply Z.leb_le in Hs'.
      pose proof (Hmax e' ltac:(by eapply list_elem_of_lookup_2) Heq Hs') as Hn.
      pose proof (sorted_lookup _ _ _ _ _ _ Hso Hq He' He) as Hlt. cbn in Hlt. unfold entry_compare in Hlt.
      rewrite Heq, Ht in Hlt. destruct (Z.compare_spec (sequence e.1) (sequence e'.1)); [|lia|done].
      by destruct (type e'.1). }
    eapply list_elem_of_lookup_2, (view_rank s es p e Hl).
Qed.

(** C13: the user's iterator shows a snapshot.  Over any iterator that walks internal
    keys in order, [DBIter] made for sequence number [s] refines [view s]: [SeekToFirst],
    [SeekToLast], [Seek], [Next] and [Prev], in any order and with changes of direction,
    move over exactly its entries and end in status [OK], no call passing over more
    internal entries than there are; [Seek] is to targets whose seek keys the iterator
    below takes.  And [view s] is the map a snapshot means: strictly
    increasing user keys, each with the value of its newest entry not newer than [s],
    and none of the keys whose newest such entry is a deletion. *)
Theorem snapshot_iterator {I} `{Iter I} {c} `{!ComparatorOk c (fun _ => True)} (dom udom : bytes -> Prop) s
    (es : list (ParsedInternalKey * bytes)) (at_ : nat -> I -> Prop) fuel it j :
  0 <= s <= kMaxSequenceNumber -> Forall (fun e => 0 <= sequence e.1 <= kMaxSequenceNumber) es ->
  StronglySorted (fun a b => entry_compare c a.1 b.1 = Lt) es ->
  iter_refines (InternalKeyComparator c) dom (map entry_of es) at_ -> (forall u, udom u -> dom (seek_key u s)) -> at_ j it ->
  (length es <= fuel)%nat ->
  (exists db_at : nat -> DBIter I -> Prop, db_at (length (view c s es)) (DBIter_make it s) /\
     @iter_refines _ (DB_iter c fuel) c udom (view c s es) db_at) /\
  StronglySorted (key_lt (c := c)) (view c s es) /\
  forall u v, (u, v) ∈ view c s es <->
    exists e, e ∈ es /\ userkey e.1 = u /\ e.2 = v /\ type e.1 = kTypeValue /\ sequence e.1 <= s /\
      forall e', e' ∈ es -> Compare c (userkey e'.1) u = Eq -> sequence e'.1 <= s -> sequence e'.1 <= sequence e.1.
Proof.
  intros Hs Hseq Hso Hr Hu Hat Hf. split.
  { exists (db_at (c := c) s es at_). split; [by apply (db_iter_make s es at_ it j)|by apply (db_iter_refines dom)]. }
  split; [by apply view_sorted|]. intros u v. by apply view_elem.
Qed.

Lemma snapshot_iterator_witness :
  exists (it : BIter) (at_ : nat -> DBIter BIter -> Prop),
    at_ 1%nat (DBIter_make it 6) /\
    @iter_refines _ (DB_iter BytewiseComparatorImpl 3) BytewiseComparatorImpl (fun _ => True)
      [(str "ant", str "old")] at_.
Proof.
  destruct (build_holds (InternalKeyComparator BytewiseComparatorImpl) internal_dom 2 (map entry_of demo_internal))
    as (b & _ & Hb).
  - apply InternalKeyComparator_ok.
  - lia.
  - repeat constructor.
  - repeat constructor; vm_compute; lia.
  - vm_compute. reflexivity.
  - destruct (snapshot_iterator (c := BytewiseComparatorImpl) internal_dom (fun _ => True) 6 demo_internal
      (block_at_entry (InternalKeyComparator BytewiseComparatorImpl) (map entry_of demo_internal) (Finish b).1) 3
      (NewIterator (InternalKeyComparator BytewiseComparatorImpl) (Block_make (Finish b).1)) 3) as [(at_ & H1 & H2) _].
    + vm_compute. split; discriminate.
    + repeat constructor; vm_compute; discriminate.
    + repeat constructor.
    + apply block_iter_refines; [apply InternalKeyComparator_ok|repeat constructor|repeat constructor; vm_compute; lia].
    + intros u _. unfold seek_key. rewrite length_AppendInternalKey. lia.
    + apply (NewIterator_at _ _ _ Hb).
    + cbn. lia.
    + eexists _, at_. split; [exact H1|exact H2].
Defined.
