(* ===== verification/FileName.v ===== *)
(** File names (redisdb/db/filename.h, filename.cc) and the number parsing of
    logging.h and logging.cc.

    [printf]'s ["%llu"] is [decimal]; ["%06llu"] pads it with zeros. *)
From S2P Require Import Prelude.
Local Open Scope Z_scope.

(** ** Numbers *)

Definition kMaxUint64 : Z := 2 ^ 64 - 1.
Definition kLastDigitOfMaxUint64 : Z := 48 + kMaxUint64 mod 10.

(** The [for] loop of [ConsumeDecimalNumber]: the value and what follows the digits, or
    [None] where it returns false because the value does not fit. *)
Fixpoint consume_loop (value : Z) (s : bytes) : option (Z * bytes) :=
  match s with
  | [] => Some (value, [])
  | b :: s' =>
      let ch := b2z b in
      if (ch <? 48) || (57 <? ch) then Some (value, s)
      else if (kMaxUint64 / 10 <? value) ||
              ((value =? kMaxUint64 / 10) && (kLastDigitOfMaxUint64 <? ch)) then None
      else consume_loop (u64 (u64 (value * 10) + (ch - 48))) s'
  end.

Definition ConsumeDecimalNumber (input : bytes) : option (Z * bytes) :=
  let? (value, rest) := consume_loop 0 input in
  let digitsConsumed := (length input - length rest)%nat in
  if (digitsConsumed =? 0)%nat then None else Some (value, rest).

Definition AppendNumberTo (dst : bytes) (num : Z) : bytes := dst ++ decimal num.
Definition NumberToString (num : Z) : bytes := AppendNumberTo [] num.

Definition hex_digit (d : Z) : byte := z2b (if d <? 10 then 48 + d else 87 + d).

(** [EscapeString]; [c >= ' '] compares a [char], which is signed here. *)
Definition escape_char (b : byte) : bytes :=
  let c := b2z b in
  if (32 <=? c) && (c <=? 126) then [b]
  else str "\x" ++ [hex_digit (c / 16); hex_digit (c mod 16)].
Definition EscapeString (value : bytes) : bytes := concat (map escape_char value).

(** ** Names *)

Inductive FileType :=
  | kLogFile | kDBLockFile | kTableFile | kDescriptorFile | kCurrentFile | kTempFile | kInfoLogFile.

#[export] Instance FileType_eq_dec : EqDecision FileType.
Proof. solve_decision. Defined.

Definition padded (number : Z) : bytes :=
  replicate (6 - length (decimal number)) (digit 0) ++ decimal number.

Definition makeFileName (dbname : bytes) (number : Z) (suffix : bytes) : bytes :=
  dbname ++ str "/" ++ padded number ++ str "." ++ suffix.

(** [assert(number > 0)]. *)
Definition numbered (number : Z) (name : bytes) : option bytes :=
  if 0 <? number then Some name else None.

Definition LogFileName (dbname : bytes) (number : Z) : option bytes :=
  numbered number (makeFileName dbname number (str "log")).
Definition TableFileName (dbname : bytes) (number : Z) : option bytes :=
  numbered number (makeFileName dbname number (str "ldb")).
Definition SSTableFileName (dbname : bytes) (number : Z) : option bytes :=
  numbered number (makeFileName dbname number (str "sst")).
Definition TempFileName (dbname : bytes) (number : Z) : option bytes :=
  numbered number (makeFileName dbname number (str "dbtmp")).
Definition DescriptorFileName (dbname : bytes) (number : Z) : option bytes :=
  numbered number (dbname ++ str "/MANIFEST-" ++ padded number).

Definition CurrentFileName (dbname : bytes) : bytes := dbname ++ str "/CURRENT".
Definition LockFileName (dbname : bytes) : bytes := dbname ++ str "/LOCK".
Definition InfoLogFileName (dbname : bytes) : bytes := dbname ++ str "/LOG".
Definition OldInfoLogFileName (dbname : bytes) : bytes := dbname ++ str "/LOG.old".

Definition starts_with (s prefix : bytes) : bool := bool_decide (take (length prefix) s = prefix).

Definition ParseFileName (filename : bytes) : option (Z * FileType) :=
  let rest := filename in
  if bool_decide (rest = str "CURRENT") then Some (0, kCurrentFile)
  else if bool_decide (rest = str "LOCK") then Some (0, kDBLockFile)
  else if bool_decide (rest = str "LOG") || bool_decide (rest = str "LOG.old") then Some (0, kInfoLogFile)
  else if starts_with rest (str "MANIFEST-") then
    let rest := drop (length (str "MANIFEST-")) rest in
    let? (num, rest) := ConsumeDecimalNumber rest in
    match rest with [] => Some (num, kDescriptorFile) | _ => None end
  else
    let? (num, suffix) := ConsumeDecimalNumber rest in
    if bool_decide (suffix = str ".log") then Some (num, kLogFile)
    else if bool_decide (suffix = str ".sst") || bool_decide (suffix = str ".ldb") then Some (num, kTableFile)
    else if bool_decide (suffix = str ".dbtmp") then Some (num, kTempFile)
    else None.

(** ** Decimal numbers *)

Definition is_digit (b : byte) : Prop := 48 <= b2z b <= 57.

(** The number a string of digits stands for. *)
Definition digits_value (s : bytes) : Z := fold_left (fun v b => v * 10 + (b2z b - 48)) s 0.

Lemma digits_value_snoc s b : digits_value (s ++ [b]) = digits_value s * 10 + (b2z b - 48).
Proof. unfold digits_value. by rewrite fold_left_app. Qed.

Lemma digit_value d : 0 <= d < 10 -> is_digit (digit d) /\ b2z (digit d) = 48 + d.
Proof. intros Hd. unfold is_digit, digit. rewrite b2z_z2b_small by lia. lia. Qed.

Lemma decimal_loop_app fuel n acc : decimal_loop fuel n acc = decimal_loop fuel n [] ++ acc.
Proof.
  revert n acc. induction fuel as [|fuel IH]; intros n acc; cbn [decimal_loop]; [done|].
  case_match; [done|]. rewrite IH, (IH _ [digit _]), <- app_assoc. done.
Qed.

Lemma decimal_loop_ok fuel n :
  0 <= n < 10 ^ Z.of_nat fuel -> (0 < fuel)%nat ->
  Forall is_digit (decimal_loop fuel n []) /\ digits_value (decimal_loop fuel n []) = n /\
  decimal_loop fuel n [] <> [].
Proof.
  revert n. induction fuel as [|fuel IH]; intros n Hn Hf; [lia|]. cbn [decimal_loop].
  assert (0 <= n mod 10 < 10) as Hm by (apply Z.mod_pos_bound; lia).
  destruct (digit_value (n mod 10) Hm) as [Hd Hv].
  destruct (Z.ltb_spec n 10) as [Hlt|Hge].
  - split; [by constructor|]. split; [|done]. unfold digits_value. cbn [fold_left]. rewrite Hv, Z.mod_small by lia. lia.
  - rewrite decimal_loop_app. rewrite Nat2Z.inj_succ, Z.pow_succ_r in Hn by lia.
    destruct fuel as [|fuel]; [cbn in Hn; lia|].
    destruct (IH (n / 10)) as (H1 & H2 & H3); [|lia|].
    { split; [apply Z.div_pos; lia|apply Z.div_lt_upper_bound; lia]. }
    split; [|split; [|by destruct (decimal_loop _ _ _)]].
    + apply Forall_app. split; [done|by constructor].
    + rewrite digits_value_snoc, H2, Hv. pose proof (Z.div_mod n 10). lia.
Qed.

Lemma decimal_ok n : is_u64 n -> Forall is_digit (decimal n) /\ digits_value (decimal n) = n /\ decimal n <> [].
Proof.
  intros Hn. apply decimal_loop_ok; [|lia]. change (10 ^ Z.of_nat 20) with 100000000000000000000. lia.
Qed.

Lemma digits_value_zeros k s : digits_value (replicate k (digit 0) ++ s) = digits_value s.
Proof. unfold digits_value. induction k as [|k IH]; [done|]. exact IH. Qed.

Lemma padded_ok n : is_u64 n -> Forall is_digit (padded n) /\ digits_value (padded n) = n /\ padded n <> [].
Proof.
  intros Hn. destruct (decimal_ok n Hn) as (H1 & H2 & H3). unfold padded.
  rewrite digits_value_zeros. split; [|split; [done|]].
  - apply Forall_app. split; [|done]. apply Forall_replicate. by apply digit_value.
  - intros [_ ?]%app_eq_nil. done.
Qed.

(** The loop reads the digits from the left, with the value read so far. *)
Definition value_from (v : Z) (s : bytes) : Z := fold_left (fun v b => v * 10 + (b2z b - 48)) s v.

Lemma value_from_ge s v : Forall is_digit s -> 0 <= v -> v <= value_from v s.
Proof.
  intros Hs. revert v. induction Hs as [|b s Hb _ IH]; intros v Hv; [unfold value_from; cbn; lia|].
  cbn [value_from fold_left]. unfold is_digit in Hb. specialize (IH (v * 10 + (b2z b - 48)) ltac:(lia)).
  unfold value_from in IH. lia.
Qed.

Definition no_digit (s : bytes) : Prop := forall b s', s = b :: s' -> ~ is_digit b.

Lemma consume_loop_spec ds rest v :
  Forall is_digit ds -> no_digit rest -> 0 <= v < 2 ^ 64 ->
  consume_loop v (ds ++ rest) =
    if value_from v ds <? 2 ^ 64 then Some (value_from v ds, rest) else None.
Proof.
  intros Hds Hrest. revert v. induction Hds as [|b ds Hb Hds IH]; intros v Hv.
  - cbn [app value_from fold_left]. rewrite (proj2 (Z.ltb_lt v _)) by lia.
    destruct rest as [|b rest]; [done|]. cbn [consume_loop].
    destruct ((b2z b <? 48) || (57 <? b2z b)) eqn:E; [done|]. destruct (Hrest b rest eq_refl).
    unfold is_digit. lia.
  - cbn [app consume_loop]. unfold is_digit in Hb.
    rewrite (proj2 (orb_false_iff _ _)) by lia. change (kMaxUint64 / 10) with 1844674407370955161.
    change kLastDigitOfMaxUint64 with 53. change (2 ^ 64) with 18446744073709551616 in *.
    pose proof (value_from_ge ds (v * 10 + (b2z b - 48)) Hds ltac:(lia)) as Hge.
    destruct ((1844674407370955161 <? v) || _) eqn:E.
    + rewrite (proj2 (Z.ltb_ge _ _)); [done|]. cbn [value_from fold_left]. unfold value_from in Hge. lia.
    + rewrite !(u64_small (v * 10)), u64_small by (change (2 ^ 64) with 18446744073709551616; lia).
      rewrite IH by lia. done.
Qed.

Lemma ConsumeDecimalNumber_spec ds rest :
  Forall is_digit ds -> no_digit rest ->
  ConsumeDecimalNumber (ds ++ rest) =
    if bool_decide (ds = []) then None
    else if digits_value ds <? 2 ^ 64 then Some (digits_value ds, rest) else None.
Proof.
  intros Hds Hrest. unfold ConsumeDecimalNumber. rewrite (consume_loop_spec ds rest 0) by (done || lia).
  change (value_from 0 ds) with (digits_value ds).
  destruct (Z.ltb_spec (digits_value ds) (2 ^ 64)) as [Hlt|Hge]; [|by case_bool_decide].
  rewrite length_app. replace (length ds + length rest - length rest)%nat with (length ds) by lia.
  by destruct ds.
Qed.

Lemma ConsumeDecimalNumber_padded n rest :
  is_u64 n -> no_digit rest -> ConsumeDecimalNumber (padded n ++ rest) = Some (n, rest).
Proof.
  intros Hn Hrest. destruct (padded_ok n Hn) as (H1 & H2 & H3).
  rewrite ConsumeDecimalNumber_spec, bool_decide_false, H2 by done.
  by rewrite (proj2 (Z.ltb_lt _ _)) by lia.
Qed.

(** A name that starts with a digit is none of the fixed names. *)
Lemma digit_head_ne b t (name : bytes) :
  is_digit b -> (forall x, head name = Some x -> 57 < b2z x) -> name <> [] -> b :: t <> name.
Proof.
  intros Hb Hn Hne <-. specialize (Hn b eq_refl). unfold is_digit in Hb. lia.
Qed.

Lemma ParseFileName_number n suffix :
  is_u64 n -> no_digit suffix ->
  ParseFileName (padded n ++ suffix) =
    if bool_decide (suffix = str ".log") then Some (n, kLogFile)
    else if bool_decide (suffix = str ".sst") || bool_decide (suffix = str ".ldb") then Some (n, kTableFile)
    else if bool_decide (suffix = str ".dbtmp") then Some (n, kTempFile) else None.
Proof.
  intros Hn Hs. unfold ParseFileName. cbv zeta. rewrite ConsumeDecimalNumber_padded by done.
  destruct (padded_ok n Hn) as (Hd & _ & Hne). destruct (padded n) as [|b t]; [done|].
  apply Forall_cons in Hd as [Hb _]. cbn [app].
  assert (forall name, (forall x, head name = Some x -> 57 < b2z x) -> name <> [] ->
    bool_decide (b :: t ++ suffix = name) = false) as Hno.
  { intros name H1 H2. apply bool_decide_eq_false. by apply digit_head_ne. }
  rewrite !Hno by (done || (intros x [= <-]; done)). cbn [orb].
  replace (starts_with _ _) with false; [done|]. symmetry. apply bool_decide_eq_false.
  cbn [str length take]. apply digit_head_ne; [done|intros x [= <-]; done|done].
Qed.

Lemma ParseFileName_descriptor n : is_u64 n ->
  ParseFileName (str "MANIFEST-" ++ padded n) = Some (n, kDescriptorFile).
Proof.
  intros Hn. unfold ParseFileName. cbv zeta.
  assert (forall name x, head name = Some x -> x <> x4d -> bool_decide (str "MANIFEST-" ++ padded n = name) = false) as Hno.
  { intros name x Hx Hne. apply bool_decide_eq_false. intros <-. cbn in Hx. congruence. }
  rewrite (Hno (str "CURRENT") x43), (Hno (str "LOCK") x4c), (Hno (str "LOG") x4c), (Hno (str "LOG.old") x4c) by done.
  cbn [orb]. unfold starts_with. rewrite take_app_exact, bool_decide_true, drop_app_exact by done.
  pose proof (ConsumeDecimalNumber_padded n [] Hn) as Hc. rewrite app_nil_r in Hc. rewrite Hc; [done|].
  intros b s' ?. done.
Qed.

(** ** Properties *)

(** file names are read back.  The part after the directory of every name the
    functions build from a number parses as that number and kind, for every 64-bit
    number; the fixed names parse as their kinds; and [ConsumeDecimalNumber] reads the
    longest run of digits and fails exactly on an empty run or a value that does not fit
    in 64 bits, without ever wrapping. *)
Theorem file_names_roundtrip dbname n :
  0 < n < 2 ^ 64 ->
  let parsed (name : option bytes) := let? name := name in ParseFileName (drop (length dbname + 1) name) in
  parsed (LogFileName dbname n) = Some (n, kLogFile) /\
  parsed (TableFileName dbname n) = Some (n, kTableFile) /\
  parsed (SSTableFileName dbname n) = Some (n, kTableFile) /\
  parsed (TempFileName dbname n) = Some (n, kTempFile) /\
  parsed (DescriptorFileName dbname n) = Some (n, kDescriptorFile) /\
  parsed (Some (CurrentFileName dbname)) = Some (0, kCurrentFile) /\
  parsed (Some (LockFileName dbname)) = Some (0, kDBLockFile) /\
  parsed (Some (InfoLogFileName dbname)) = Some (0, kInfoLogFile) /\
  parsed (Some (OldInfoLogFileName dbname)) = Some (0, kInfoLogFile) /\
  forall ds rest, Forall is_digit ds -> no_digit rest ->
    ConsumeDecimalNumber (ds ++ rest) =
      if bool_decide (ds = []) then None
      else if digits_value ds <? 2 ^ 64 then Some (digits_value ds, rest) else None.
Proof.
  intros Hn parsed.
  assert (forall name, drop (length dbname + 1) (dbname ++ str "/" ++ name) = name) as Hd.
  { intros name. rewrite drop_app_ge by lia. by replace (length dbname + 1 - length dbname)%nat with 1%nat by lia. }
  assert (forall suffix, no_digit (str "." ++ suffix)) as Hdot.
  { intros suffix b s' [= <- _]. unfold is_digit. change (b2z x2e) with 46. lia. }
  assert (forall suffix, parsed (numbered n (makeFileName dbname n suffix)) = ParseFileName (padded n ++ str "." ++ suffix)) as Hm.
  { intros suffix. unfold parsed, numbered, makeFileName. rewrite (proj2 (Z.ltb_lt _ _)) by lia. by rewrite Hd. }
  unfold LogFileName, TableFileName, SSTableFileName, TempFileName. rewrite !Hm, !ParseFileName_number by (done || lia).
  split_and!; try done.
  - unfold parsed, DescriptorFileName, numbered. rewrite (proj2 (Z.ltb_lt _ _)) by lia.
    change (str "/MANIFEST-" ++ padded n) with (str "/" ++ str "MANIFEST-" ++ padded n). rewrite Hd. apply ParseFileName_descriptor. lia.
  - unfold parsed, CurrentFileName. by change (str "/CURRENT") with (str "/" ++ str "CURRENT"); rewrite Hd.
  - unfold parsed, LockFileName. by change (str "/LOCK") with (str "/" ++ str "LOCK"); rewrite Hd.
  - unfold parsed, InfoLogFileName. by change (str "/LOG") with (str "/" ++ str "LOG"); rewrite Hd.
  - unfold parsed, OldInfoLogFileName. by change (str "/LOG.old") with (str "/" ++ str "LOG.old"); rewrite Hd.
  - apply ConsumeDecimalNumber_spec.
Qed.

Lemma file_names_roundtrip_witness :
  (let? name := TableFileName (str "/data/db") 42 in ParseFileName (drop 9 name)) = Some (42, kTableFile).
Proof. exact (proj1 (proj2 (file_names_roundtrip (str "/data/db") 42 ltac:(vm_compute; split; congruence)))). Defined.
