(* ===== verification/FileIO.v ===== *)
(** Whole files and the CURRENT file (the I/O of redisdb/db/logging.cc and filename.cc).

    The environment is a class of its system calls: opening, renaming and deleting names,
    and the two calls on an open file that [AppendFile] lacks. *)
From S2P Require Import Prelude Status Env FileName.
Local Open Scope Z_scope.

(** [E] is the environment, [F] a writable file, [G] a sequential file. *)
Class FileEnv (E F G : Type) := {
  NewWritableFile : E -> bytes -> Status * option F * E;
  NewAppendableFile : E -> bytes -> Status * option F * E;
  NewSequentialFile : E -> bytes -> Status * option G;
  GetFileSize : E -> bytes -> Status * Z;
  FileExists : E -> bytes -> bool;
  RenameFile : E -> bytes -> bytes -> Status * E;
  RemoveFile : E -> bytes -> Status * E;          (* [Env::DeleteFile] *)
  GetChildren : E -> bytes -> Status * list bytes;
  CreateDir : E -> bytes -> Status * E;
  LockFile : E -> bytes -> Status * E;
  fsync : F -> Status * F;
  fclose : F -> Status * F;
}.

(** When no system call fails: a new file is healthy and empty, and syncing and
    closing keep what was written. *)
Class FileEnvOk (E F G : Type) `{FileEnv E F G} `{AppendFile F} : Prop := {
  new_file_ok env name s f env' :
    NewWritableFile (G := G) env name = (s, Some f, env') -> ok s = true -> healthy f /\ contents f = [];
  fsync_ok f : healthy f ->
    exists f', fsync (E := E) (G := G) f = (OK, f') /\ healthy f' /\ contents f' = contents f;
  fclose_ok f : healthy f ->
    exists f', fclose (E := E) (G := G) f = (OK, f') /\ contents f' = contents f;
}.

Definition kBufferSize : nat := Z.to_nat 8192.

Section FileIO.
Context {E F G : Type} `{FileEnv E F G} `{AppendFile F} `{ReadFile G}.

Definition doWriteStringToFile (env : E) (data fname : bytes) (shouldSync : bool) : option (Status * E) :=
  let '(s, file, env) := NewWritableFile (G := G) env fname in
  if negb (ok s) then Some (s, env)
  else
    let? file := file in
    let '(s, file) := fappend file data in
    let '(s, file) := if ok s && shouldSync then fsync (E := E) (G := G) file else (s, file) in
    let '(s, file) := if ok s then fclose (E := E) (G := G) file else (s, file) in
    let env := if negb (ok s) then snd (RemoveFile (F := F) (G := G) env fname) else env in
    Some (s, env).

Definition WriteStringToFile (env : E) (data fname : bytes) : option (Status * E) :=
  doWriteStringToFile env data fname false.
Definition WriteStringToFileSync (env : E) (data fname : bytes) : option (Status * E) :=
  doWriteStringToFile env data fname true.

(** The [while (true)] loop; each turn but the last reads at least a byte. *)
Fixpoint read_loop (fuel : nat) (file : G) (data : bytes) : option (Status * bytes) :=
  match fuel with
  | O => None
  | S fuel' =>
      let '(s, fragment, file) := fread file kBufferSize in
      if negb (ok s) then Some (s, data)
      else
        let data := data ++ fragment in
        if bool_decide (fragment = []) then Some (s, data) else read_loop fuel' file data
  end.

Definition ReadFileToString (env : E) (fname : bytes) : option (Status * bytes) :=
  let '(s, file) := NewSequentialFile (F := F) env fname in
  if negb (ok s) then Some (s, [])
  else let? file := file in read_loop (S (length (remaining file))) file [].

Definition StartsWith (x prefix : bytes) : bool := bool_decide (take (length prefix) x = prefix).

Definition SetCurrentFile (env : E) (dbname : bytes) (descriptorNumber : Z) : option (Status * E) :=
  let? manifest := DescriptorFileName dbname descriptorNumber in
  if negb (StartsWith manifest (dbname ++ str "/")) then None
  else
    let contents := drop (length dbname + 1) manifest in
    let? tmp := TempFileName dbname descriptorNumber in
    let? (s, env) := WriteStringToFileSync env (contents ++ [x0a]) tmp in
    let '(s, env) :=
      if ok s then RenameFile (F := F) (G := G) env tmp (CurrentFileName dbname) else (s, env) in
    let env := if negb (ok s) then snd (RemoveFile (F := F) (G := G) env tmp) else env in
    Some (s, env).

(** Reading a whole file gives its contents. *)
Lemma read_loop_ok {good : G -> Prop} {Hok : ReadFileOk G good} fuel : forall g data,
  good g -> (length (remaining g) < fuel)%nat -> read_loop fuel g data = Some (OK, data ++ remaining g).
Proof.
  induction fuel as [|fuel IH]; intros g data Hg Hf; [lia|]. cbn [read_loop].
  destruct (fread_ok g kBufferSize Hg) as (g' & -> & Hg' & Hr). cbn [ok OK negb].
  destruct (remaining g) as [|b rest] eqn:Hrem.
  { by rewrite take_nil, app_nil_r. }
  rewrite bool_decide_eq_false_2 by (unfold kBufferSize; by destruct (Z.to_nat 8192) eqn:Hz; [lia|]).
  rewrite IH; [|done|rewrite Hr, length_drop; cbn [length] in *; unfold kBufferSize; lia].
  by rewrite Hr, <- app_assoc, take_drop.
Qed.

Lemma ReadFileToString_ok {good : G -> Prop} {Hok : ReadFileOk G good} env fname g :
  NewSequentialFile (F := F) env fname = (OK, Some g) -> good g ->
  ReadFileToString env fname = Some (OK, remaining g).
Proof.
  intros Ho Hg. unfold ReadFileToString. rewrite Ho. cbn [ok OK negb].
  rewrite (read_loop_ok _ g []) by (done || lia). done.
Qed.

(** The manifest's name in CURRENT. *)
Definition current_contents (n : Z) : bytes := str "MANIFEST-" ++ padded n ++ [x0a].

Lemma SetCurrentFile_eq env dbname n :
  0 < n -> SetCurrentFile env dbname n =
    let? tmp := TempFileName dbname n in
    let? (s, env) := WriteStringToFileSync env (current_contents n) tmp in
    let '(s, env) :=
      if ok s then RenameFile (F := F) (G := G) env tmp (CurrentFileName dbname) else (s, env) in
    Some (s, if negb (ok s) then snd (RemoveFile (F := F) (G := G) env tmp) else env).
Proof.
  intros Hn. unfold SetCurrentFile, DescriptorFileName, numbered. rewrite (proj2 (Z.ltb_lt _ _)) by done.
  unfold StartsWith. change (str "/MANIFEST-") with (str "/" ++ str "MANIFEST-").
  rewrite <- !app_assoc, (app_assoc dbname (str "/")), take_app_length, bool_decide_eq_true_2 by done. cbn [negb].
  rewrite drop_app_length' by (rewrite length_app; done). done.
Qed.
End FileIO.

(** ** A directory in memory, whose calls succeed *)

Definition MemDir := list (bytes * bytes).

Definition mem_find (d : MemDir) (name : bytes) : option bytes :=
  snd <$> List.find (fun p => bool_decide (p.1 = name)) d.

(** The name of a file inside a directory. *)
Definition strip_dir (dir name : bytes) : option bytes :=
  if StartsWith name (dir ++ str "/") then Some (drop (length dir + 1) name) else None.

Section MemDir.
Context (strerror : Z -> bytes).

#[export] Instance MemDir_env : FileEnv MemDir WritableFile SequentialFile := {|
  NewWritableFile d name := (OK, Some (MkWritableFile [] [] [] name), d);
  NewAppendableFile d name := (OK, Some (MkWritableFile [] [] [] name), d);
  NewSequentialFile d name :=
    match mem_find d name with
    | Some data => (OK, Some (MkSequentialFile data [] name))
    | None => (PosixError strerror name ENOENT, None)
    end;
  GetFileSize d name :=
    match mem_find d name with
    | Some data => (OK, Z.of_nat (length data))
    | None => (PosixError strerror name ENOENT, 0)
    end;
  FileExists d name := match mem_find d name with Some _ => true | None => false end;
  RenameFile d from to :=
    match mem_find d from with
    | Some data => (OK, (to, data) :: filter (fun p => p.1 <> from) d)
    | None => (PosixError strerror from ENOENT, d)
    end;
  RemoveFile d name := (OK, filter (fun p => p.1 <> name) d);
  GetChildren d dir := (OK, omap (fun p => strip_dir dir p.1) d);
  CreateDir d _ := (OK, d);
  LockFile d _ := (OK, d);
  fsync f := wsync strerror f OK OK;
  fclose f := wclose strerror f None
|}.

#[export] Instance MemDir_ok :
  @FileEnvOk MemDir WritableFile SequentialFile MemDir_env (WritableFile_append strerror).
Proof.
  split.
  - intros d name s f d' [= <- <- _] _. split; [constructor|done].
  - intros f Hf. cbn [fsync MemDir_env]. unfold wsync. destruct (FlushBuffer_ok strerror f Hf) as (f' & -> & Hf' & Hw & Hb).
    exists f'. destruct (isManifest (wname f)); cbn [ok OK negb]; (split; [done|]); (split; [done|]); cbn; by rewrite Hw, Hb, app_nil_r.
  - intros f Hf. cbn [fclose MemDir_env]. unfold wclose. destruct (FlushBuffer_ok strerror f Hf) as (f' & -> & Hf' & Hw & Hb).
    exists f'. split; [done|]. cbn. by rewrite Hw, Hb, app_nil_r.
Qed.
End MemDir.
