(* ===== verification/Version.v ===== *)
(** Versions (the classes [Version] and [Version::LevelFileNumIterator] of
    redisdb/db/versionset.h and versionset.cc, and the searches over lists of files).

    A version is the files of each level.  A file is a value: the one field that is
    written through the shared pointer, [allowedseeks], is written by [UpdateStats] alone,
    on the current version. *)
From Stdlib Require Import Sorted Permutation SpecFloat.
From stdpp Require Import sorting sets.
From S2P Require Import Prelude Coding Status DbFormat Block Iterators Table VersionEdit.
Local Open Scope Z_scope.

Abbreviation file := FileMetaData.
Abbreviation len l := (Z.of_nat (length l)).

(** What a version asks of the table cache: the entry [Get] hands to its callback. *)
Class TableSource (T : Type) := {
  tget : T -> Z -> Z -> bytes -> option (Status * option entry * T)
}.

Section Files.
Context (ucmp : Comparator).

Definition FUserKey (k : InternalKey) : bytes := ExtractUserKey k.

(** A null user key is [None]. *)
Definition AfterFile (userkey : option bytes) (f : file) : bool :=
  match userkey with
  | Some u => bool_decide (Compare ucmp u (FUserKey (largest f)) = Gt)
  | None => false
  end.

Definition BeforeFile (userkey : option bytes) (f : file) : bool :=
  match userkey with
  | Some u => bool_decide (Compare ucmp u (FUserKey (smallest f)) = Lt)
  | None => false
  end.

(** [TotalFileSize]: the sum is an [int64_t]. *)
Definition TotalFileSize (files : list file) : Z :=
  fold_left (fun sum f => i64 (sum + filesize f)) files 0.

(** The [while (left < right)] loop; each round halves the range. *)
Fixpoint FindFile_loop (fuel : nat) (files : list file) (key : bytes) (left right : Z) : option Z :=
  match fuel with
  | O => None
  | S fuel' =>
      if left <? right then
        let mid := u32 (left + right) / 2 in
        let? f := files !! Z.to_nat mid in
        let? l := InternalKey_Encode (largest f) in
        match Internal_Compare ucmp l key with
        | Lt => FindFile_loop fuel' files key (u32 (mid + 1)) right
        | _ => FindFile_loop fuel' files key left mid
        end
      else Some right
  end.

Definition FindFile (files : list file) (key : bytes) : option Z :=
  FindFile_loop (S (length files)) files key 0 (u32 (len files)).

Definition SomeFileOverlapsRange (disjointSortedFiles : bool) (files : list file)
    (smallestuserkey largestuserkey : option bytes) : option bool :=
  if negb disjointSortedFiles then
    Some (existsb (fun f => negb (AfterFile smallestuserkey f || BeforeFile largestuserkey f)) files)
  else
    let? index :=
      match smallestuserkey with
      | Some u => FindFile files (InternalKey_make u kMaxSequenceNumber kValueTypeForSeek)
      | None => Some 0
      end in
    match files !! Z.to_nat index with
    | None => Some false
    | Some f => Some (negb (BeforeFile largestuserkey f))
    end.
End Files.

(** ** [LevelFileNumIterator] *)

Section LevelIterator.
Context (ucmp : Comparator).

Record LevelFileNumIterator := MkLevelIter { flist : list file; findex : Z }.

Definition LevelIter_make (l : list file) : LevelFileNumIterator := MkLevelIter l (u32 (len l)).

Definition level_Valid (it : LevelFileNumIterator) : bool := findex it <? len (flist it).

Definition level_move (it : LevelFileNumIterator) (i : Z) : LevelFileNumIterator := MkLevelIter (flist it) i.

Definition level_key (it : LevelFileNumIterator) : bytes :=
  match flist it !! Z.to_nat (findex it) with Some f => largest f | None => [] end.

Definition file_value (f : file) : bytes := EncodeFixed64 (number f) ++ EncodeFixed64 (filesize f).

Definition level_value (it : LevelFileNumIterator) : bytes :=
  match flist it !! Z.to_nat (findex it) with Some f => file_value f | None => [] end.

Definition Level_iter : Iter LevelFileNumIterator := {|
  iterValid := level_Valid;
  iterSeekToFirst it := Some (level_move it 0);
  iterSeekToLast it :=
    Some (level_move it (match flist it with [] => 0 | _ => u32 (len (flist it) - 1) end));
  iterSeek it target := let? i := FindFile ucmp (flist it) target in Some (level_move it (u32 i));
  iterNext it := if level_Valid it then Some (level_move it (u32 (findex it + 1))) else None;
  iterPrev it :=
    if level_Valid it then
      Some (level_move it (if findex it =? 0 then u32 (len (flist it)) else u32 (findex it - 1)))
    else None;
  iterkey := level_key;
  itervalue := level_value;
  iterstatus _ := OK
|}.
End LevelIterator.

(** ** [Version] *)

Record Version := MkVersion {
  vfiles : list (list file);            (* one list per level *)
  filetocompact : option (Z * nat);     (* the file's level and place in the level *)
  filetocompactlevel : Z;
  compactionscore : spec_float;         (* a double; set by [Finalize] *)
  compactionlevel : Z
}.

(** The constructor leaves the integers and the score unset. *)
Definition Version_make : Version := MkVersion (replicate (Z.to_nat kNumLevels) []) None 0 (S754_zero false) 0.

Definition set_files (v : Version) (files : list (list file)) : Version :=
  MkVersion files (filetocompact v) (filetocompactlevel v) (compactionscore v) (compactionlevel v).
Definition set_filetocompact (v : Version) (f : Z * nat) (level : Z) : Version :=
  MkVersion (vfiles v) (Some f) level (compactionscore v) (compactionlevel v).

(** [files[level]]; [level] is below [kNumLevels]. *)
Definition level_files (v : Version) (level : Z) : list file := vfiles v !!! Z.to_nat level.

(** [GetStats]: the file that missed, as its level and place in the level. *)
Record GetStats := MkGetStats { seekFile : option (Z * nat); seekFileLevel : Z }.

Inductive SaverState := sNotFound | sFound | sDeleted | sCorrupt.

Section Version.
Context (ucmp : Comparator).

Definition OverlapInLevel (v : Version) (level : Z) (s l : option bytes) : option bool :=
  SomeFileOverlapsRange ucmp (0 <? level) (level_files v level) s l.

(** [SaveValue]: the state of the [Saver] and the value after the entry found. *)
Definition SaveValue (userkey : bytes) (found : entry) (value : bytes) : SaverState * bytes :=
  match ParseInternalKey found.1 with
  | None => (sCorrupt, value)
  | Some parsed =>
      if bool_decide (Compare ucmp (DbFormat.userkey parsed) userkey = Eq) then
        match type parsed with
        | kTypeValue => (sFound, found.2)
        | kTypeDeletion => (sDeleted, value)
        end
      else (sNotFound, value)
  end.

(** The newest file first. *)
Definition NewestFirst (a b : nat * file) : Prop := number b.2 <= number a.2.
#[export] Instance NewestFirst_dec : RelDecision NewestFirst.
Proof. intros a b. unfold NewestFirst. apply _. Defined.

(** The files of a level that [Get] searches, with their places, in the order it does. *)
Definition files_to_search (v : Version) (level : Z) (ikey userkey : bytes) : option (list (nat * file)) :=
  let fs := level_files v level in
  if level =? 0 then
    Some (merge_sort NewestFirst
      (filter (fun p => Compare ucmp userkey (FUserKey (smallest p.2)) <> Lt /\
                        Compare ucmp userkey (FUserKey (largest p.2)) <> Gt) (imap pair fs)))
  else
    let? index := FindFile ucmp fs ikey in
    match fs !! Z.to_nat index with
    | None => Some []
    | Some f =>
        if bool_decide (Compare ucmp userkey (FUserKey (smallest f)) = Lt) then Some []
        else Some [(Z.to_nat index, f)]
    end.

Section Get.
Context {T : Type} `{TableSource T}.

(** One pass over the files of a level: the result, if there is one. *)
Fixpoint search_files (level : Z) (ikey userkey : bytes) (fs : list (nat * file)) (value : bytes)
    (stats : GetStats) (last : option (Z * nat)) (t : T)
    : option (option Status * bytes * GetStats * option (Z * nat) * T) :=
  match fs with
  | [] => Some (None, value, stats, last, t)
  | (i, f) :: fs =>
      let stats :=
        match last, seekFile stats with
        | Some (l, j), None => MkGetStats last l
        | _, _ => stats
        end in
      let last := Some (level, i) in
      let? (s, found, t) := tget t (number f) (filesize f) ikey in
      if negb (ok s) then Some (Some s, value, stats, last, t)
      else
        let '(state, value) :=
          match found with Some e => SaveValue userkey e value | None => (sNotFound, value) end in
        match state with
        | sNotFound => search_files level ikey userkey fs value stats last t
        | sFound => Some (Some s, value, stats, last, t)
        | sDeleted => Some (Some (NotFound [] []), value, stats, last, t)
        | sCorrupt => Some (Some (Corruption (str "corrupted key for ") userkey), value, stats, last, t)
        end
  end.

Fixpoint search_levels (v : Version) (levels : list Z) (ikey userkey value : bytes)
    (stats : GetStats) (last : option (Z * nat)) (t : T) : option (Status * bytes * GetStats * T) :=
  match levels with
  | [] => Some (NotFound [] [], value, stats, t)
  | level :: levels =>
      match level_files v level with
      | [] => search_levels v levels ikey userkey value stats last t
      | _ =>
          let? fs := files_to_search v level ikey userkey in
          let? (r, value, stats, last, t) := search_files level ikey userkey fs value stats last t in
          match r with
          | Some s => Some (s, value, stats, t)
          | None => search_levels v levels ikey userkey value stats last t
          end
      end
  end.

Definition all_levels : list Z := seqZ 0 kNumLevels.

Definition Version_Get (v : Version) (key : LookupKey) (value : bytes) (t : T)
    : option (Status * bytes * GetStats * T) :=
  search_levels v all_levels (LookupKey_InternalKey key) (UserKey key) value (MkGetStats None (-1)) None t.
End Get.

(** [UpdateStats]: the file's [allowedseeks] is decremented in place. *)
Definition set_allowedseeks (f : file) (n : Z) : file :=
  MkFileMetaData n (number f) (filesize f) (smallest f) (largest f).

Definition UpdateStats (v : Version) (stats : GetStats) : bool * Version :=
  match seekFile stats with
  | None => (false, v)
  | Some (level, i) =>
      match level_files v level !! i with
      | None => (false, v)
      | Some f =>
          let f := set_allowedseeks f (i32 (allowedseeks f - 1)) in
          let v := set_files v (alter <[i := f]> (Z.to_nat level) (vfiles v)) in
          match filetocompact v with
          | None =>
              if allowedseeks f <=? 0 then (true, set_filetocompact v (level, i) (seekFileLevel stats)) else (false, v)
          | Some _ => (false, v)
          end
      end
  end.

(** The [for] loop of [GetOverlappingInputs]: [rest] is the part of the level not looked
    at yet, and a file of level 0 that widens the range starts the search again. *)
Fixpoint overlap_loop (fuel : nat) (restart : bool) (files rest : list file) (userBegin userEnd : option bytes)
    (inputs : list file) : option (list file) :=
  match fuel with
  | O => None
  | S fuel' =>
      match rest with
      | [] => Some inputs
      | f :: rest =>
          let fileStart := FUserKey (smallest f) in
          let fileLimit := FUserKey (largest f) in
          let before := match userBegin with
            | Some b => bool_decide (Compare ucmp fileLimit b = Lt) | None => false end in
          let after := match userEnd with
            | Some e => bool_decide (Compare ucmp fileStart e = Gt) | None => false end in
          if before then overlap_loop fuel' restart files rest userBegin userEnd inputs
          else if after then overlap_loop fuel' restart files rest userBegin userEnd inputs
          else
            let inputs := inputs ++ [f] in
            let widens_begin := match userBegin with
              | Some b => bool_decide (Compare ucmp fileStart b = Lt) | None => false end in
            let widens_end := match userEnd with
              | Some e => bool_decide (Compare ucmp fileLimit e = Gt) | None => false end in
            if restart && widens_begin
            then overlap_loop fuel' restart files files (Some fileStart) userEnd []
            else if restart && widens_end
            then overlap_loop fuel' restart files files userBegin (Some fileLimit) []
            else overlap_loop fuel' restart files rest userBegin userEnd inputs
      end
  end.

(** The range grows at most twice for each file, so this many rounds are enough. *)
Definition overlap_fuel (files : list file) : nat := S (S (2 * length files)) * S (length files).

Definition GetOverlappingInputs (v : Version) (level : Z) (begin end_ : option InternalKey)
    : option (list file) :=
  if (0 <=? level) && (level <? kNumLevels) then
    let files := level_files v level in
    overlap_loop (overlap_fuel files) (level =? 0) files files (FUserKey <$> begin) (FUserKey <$> end_) []
  else None.

(** [10 * TargetFileSize(options)]. *)
Definition MaxGrandParentOverlapBytes (maxfilesize : Z) : Z := i64 (10 * maxfilesize).
Definition ExpandedCompactionByteSizeLimit (maxfilesize : Z) : Z := i64 (25 * maxfilesize).

(** The [while (level < kMaxMemCompactLevel)] loop. *)
Fixpoint pick_level_loop (fuel : nat) (v : Version) (maxfilesize : Z) (s l : bytes) (level : Z) : option Z :=
  match fuel with
  | O => Some level
  | S fuel' =>
      if level <? kMaxMemCompactLevel then
        let? overlaps := OverlapInLevel v (level + 1) (Some s) (Some l) in
        if overlaps then Some level
        else
          let? far :=
            if level + 2 <? kNumLevels then
              let? inputs := GetOverlappingInputs v (level + 2)
                (Some (InternalKey_make s kMaxSequenceNumber kValueTypeForSeek))
                (Some (InternalKey_make l 0 kTypeDeletion)) in
              Some (MaxGrandParentOverlapBytes maxfilesize <? TotalFileSize inputs)
            else Some false in
          if (far : bool) then Some level else pick_level_loop fuel' v maxfilesize s l (level + 1)
      else Some level
  end.

Definition PickLevelForMemTableOutput (v : Version) (maxfilesize : Z) (s l : bytes) : option Z :=
  let? overlaps := OverlapInLevel v 0 (Some s) (Some l) in
  if overlaps then Some 0 else pick_level_loop (Z.to_nat kMaxMemCompactLevel) v maxfilesize s l 0.
End Version.

(** ** Searching the files of a level *)

Definition ikey_ok (k : InternalKey) : Prop :=
  exists p, 0 <= sequence p <= kMaxSequenceNumber /\ k = AppendInternalKey [] p.

Definition level_entry (f : file) : entry := (largest f, file_value f).

Section Searching.
Context {ucmp : Comparator} {Hok : ComparatorOk ucmp (fun _ => True)}.

Abbreviation icmp := (InternalKeyComparator ucmp).
Abbreviation su f := (FUserKey (smallest f)).
Abbreviation lu f := (FUserKey (largest f)).

(** A file covers a range of keys. *)
Record file_ok (f : file) : Prop := {
  fk_smallest : ikey_ok (smallest f);
  fk_largest : ikey_ok (largest f);
  fk_order : Internal_Compare ucmp (smallest f) (largest f) <> Gt
}.

(** The invariant of a level: disjoint files in order. *)
Definition disjoint (files : list file) : Prop :=
  StronglySorted (fun a b => Internal_Compare ucmp (largest a) (smallest b) = Lt) files.

Record level_ok (files : list file) : Prop := {
  lv_files : Forall file_ok files;
  lv_disjoint : disjoint files;
  lv_size : len files < 2 ^ 31
}.

Lemma ikey_ok_dom k : ikey_ok k -> internal_dom k.
Proof. intros (p & _ & ->). rewrite length_AppendInternalKey. lia. Qed.

Lemma ikey_ok_Encode k : ikey_ok k -> InternalKey_Encode k = Some k.
Proof. intros H%ikey_ok_dom. destruct k; [cbn in H; lia|done]. Qed.

Lemma icmp_le_lt_trans a b d :
  Internal_Compare ucmp a b <> Gt -> Internal_Compare ucmp b d = Lt -> internal_dom a -> internal_dom b ->
  internal_dom d -> Internal_Compare ucmp a d = Lt.
Proof. intros H1 H2 Ha Hb Hd. by apply (Compare_le_lt_trans (c := icmp) (dom := internal_dom) a b d). Qed.

Lemma icmp_lt_le_trans a b d :
  Internal_Compare ucmp a b = Lt -> Internal_Compare ucmp b d <> Gt -> internal_dom a -> internal_dom b ->
  internal_dom d -> Internal_Compare ucmp a d = Lt.
Proof. intros H1 H2 Ha Hb Hd. by apply (Compare_lt_le_trans (c := icmp) (dom := internal_dom) a b d). Qed.

(** Largest and smallest keys follow the files. *)
Lemma disjoint_largest files i j a b :
  Forall file_ok files -> disjoint files -> (i < j)%nat -> files !! i = Some a -> files !! j = Some b ->
  Internal_Compare ucmp (largest a) (largest b) = Lt.
Proof.
  intros Hf Hd Hij Ha Hb. rewrite Forall_lookup in Hf. destruct (Hf i a Ha), (Hf j b Hb).
  pose proof (sorted_lookup _ _ _ _ _ _ Hd Hij Ha Hb) as Hlt. cbn in Hlt.
  apply (Compare_lt_le_trans (c := icmp) (dom := internal_dom) _ (smallest b)); try done; by apply ikey_ok_dom.
Qed.

Lemma su_lu f : file_ok f -> Compare ucmp (su f) (lu f) <> Gt.
Proof.
  intros [_ _ H] Hgt. apply H. rewrite Internal_Compare_alt. unfold FUserKey in Hgt. by rewrite Hgt.
Qed.

Lemma disjoint_users files i j a b :
  disjoint files -> (i < j)%nat -> files !! i = Some a -> files !! j = Some b ->
  Compare ucmp (lu a) (su b) <> Gt.
Proof.
  intros Hd Hij Ha Hb Hgt. pose proof (sorted_lookup _ _ _ _ _ _ Hd Hij Ha Hb) as Hlt. cbn in Hlt.
  rewrite Internal_Compare_alt in Hlt. unfold FUserKey in Hgt. by rewrite Hgt in Hlt.
Qed.

Lemma user_le_trans a b d : Compare ucmp a b <> Gt -> Compare ucmp b d <> Gt -> Compare ucmp a d <> Gt.
Proof. intros. by apply (Compare_le_trans (dom := fun _ => True) a b d). Qed.

Lemma smallest_users files i j a b :
  Forall file_ok files -> disjoint files -> (i <= j)%nat -> files !! i = Some a -> files !! j = Some b ->
  Compare ucmp (su a) (su b) <> Gt.
Proof.
  intros Hf Hd Hij Ha Hb. destruct (decide (i = j)) as [->|Hne].
  { simplify_eq. by rewrite (Compare_refl (dom := fun _ => True)). }
  rewrite Forall_lookup in Hf. apply (user_le_trans _ (lu a)); [by apply su_lu, (Hf i)|].
  by apply (disjoint_users files i j); [|lia|..].
Qed.

Lemma FindFile_loop_spec files key fuel : forall left right,
  Forall file_ok files -> disjoint files -> internal_dom key -> len files < 2 ^ 31 ->
  (left <= right <= length files)%nat -> (right - left < fuel)%nat ->
  (forall m f, (m < left)%nat -> files !! m = Some f -> Internal_Compare ucmp (largest f) key = Lt) ->
  (forall m f, (right <= m)%nat -> files !! m = Some f -> Internal_Compare ucmp (largest f) key <> Lt) ->
  exists j, FindFile_loop ucmp fuel files key (Z.of_nat left) (Z.of_nat right) = Some (Z.of_nat j) /\
    (j <= length files)%nat /\ lower_bound icmp (map level_entry files) key j.
Proof.
  induction fuel as [|fuel IH]; intros left right Hf Hd Hkey Hlen Hlr Hfuel Hlo Hhi; [lia|].
  cbn [FindFile_loop]. destruct (Z.ltb_spec (Z.of_nat left) (Z.of_nat right)) as [Hlt|Hge].
  - rewrite u32_small by lia.
    assert ((Z.of_nat left + Z.of_nat right) / 2 = Z.of_nat ((left + right) / 2)) as Hmid
      by (rewrite Nat2Z.inj_div; by rewrite Nat2Z.inj_add).
    set (mid := ((left + right) / 2)%nat) in *.
    assert (left <= mid < right)%nat as Hm.
    { unfold mid. split; [apply Nat.div_le_lower_bound; lia|apply Nat.div_lt_upper_bound; lia]. }
    rewrite Hmid, Nat2Z.id. destruct (proj2 (lookup_lt_is_Some files mid)) as [f Hfm]; [lia|]. rewrite Hfm.
    pose proof Hf as Hf'. rewrite Forall_lookup in Hf'. pose proof (Hf' mid f Hfm) as Hfok.
    rewrite ikey_ok_Encode by apply Hfok.
    assert (Internal_Compare ucmp (largest f) key <> Lt -> forall m g, (mid <= m)%nat -> files !! m = Some g ->
      Internal_Compare ucmp (largest g) key <> Lt) as Hright.
    { intros Hge m g Hmg Hg. destruct (decide (m = mid)) as [->|]; [by simplify_eq|]. intros Hlt'. apply Hge.
      pose proof (disjoint_largest files mid m f g Hf Hd ltac:(lia) Hfm Hg) as Hfg.
      apply (Compare_lt_trans (c := icmp) (dom := internal_dom) _ (largest g)); try done; apply ikey_ok_dom;
        [apply Hfok|apply (Hf' m g Hg)]. }
    destruct (Internal_Compare ucmp (largest f) key) eqn:Hc.
    + apply (IH left mid); try done; [lia|lia|]. by apply Hright.
    + rewrite u32_small by lia. replace (Z.of_nat mid + 1) with (Z.of_nat (S mid)) by lia.
      apply (IH (S mid) right); try done; [lia|lia|]. intros m g Hmg Hg.
      destruct (decide (m = mid)) as [->|]; [by simplify_eq|].
      pose proof (disjoint_largest files m mid g f Hf Hd ltac:(lia) Hg Hfm) as Hgf.
      apply (Compare_lt_trans (c := icmp) (dom := internal_dom) _ (largest f)); try done.
      * apply ikey_ok_dom, (fk_largest _ (Hf' m g Hg)).
      * by apply ikey_ok_dom, fk_largest.
    + apply (IH left mid); try done; [lia|lia|]. by apply Hright.
  - assert (left = right) as -> by lia. exists right. split; [done|]. split; [lia|]. split.
    + intros m e Hm He. rewrite list_lookup_fmap in He. apply fmap_Some in He as (f & Hfm & ->). by apply (Hlo m).
    + intros e He. rewrite list_lookup_fmap in He. apply fmap_Some in He as (f & Hfm & ->). by apply (Hhi right).
Qed.

Lemma FindFile_spec files key :
  level_ok files -> internal_dom key ->
  exists j, FindFile ucmp files key = Some (Z.of_nat j) /\ (j <= length files)%nat /\
    lower_bound icmp (map level_entry files) key j.
Proof.
  intros [Hf Hd Hl] Hkey. unfold FindFile. rewrite u32_small by lia.
  apply (FindFile_loop_spec files key (S (length files)) 0 (length files)); try done; [lia|lia|lia|].
  intros m f Hm Hfm. apply lookup_lt_Some in Hfm. lia.
Qed.

Lemma lower_bound_files files key j :
  lower_bound icmp (map level_entry files) key j ->
  (forall m f, (m < j)%nat -> files !! m = Some f -> Internal_Compare ucmp (largest f) key = Lt) /\
  (forall f, files !! j = Some f -> Internal_Compare ucmp (largest f) key <> Lt).
Proof.
  intros [Hlo Hhi]. split.
  - intros m f Hm Hf. apply (Hlo m (level_entry f) Hm). rewrite list_lookup_fmap. by rewrite Hf.
  - intros f Hf. apply (Hhi (level_entry f)). rewrite list_lookup_fmap. by rewrite Hf.
Qed.

(** ** The iterator over the files of a level *)

Definition level_at (files : list file) (i : nat) (it : LevelFileNumIterator) : Prop :=
  flist it = files /\ findex it = Z.of_nat i /\ (i <= length files)%nat.

Lemma level_iter_refines files :
  level_ok files ->
  @iter_refines _ (Level_iter ucmp) icmp internal_dom (map level_entry files) (level_at files).
Proof.
  intros Hok'. pose proof Hok' as [Hf Hd Hl].
  assert (forall i it, level_at files i it -> level_Valid it = (i <? length files)%nat) as Hv.
  { intros i it (Hfl & Hi & Hle). unfold level_Valid. rewrite Hfl, Hi.
    destruct (Nat.ltb_spec i (length files)); [apply Z.ltb_lt|apply Z.ltb_ge]; lia. }
  constructor; cbn [iterValid iterSeekToFirst iterSeekToLast iterSeek iterNext iterPrev iterkey itervalue iterstatus Level_iter];
    rewrite ?length_map; try done.
  - by intros i it (_ & _ & Hle).
  - intros i it e (Hfl & Hi & _) He. rewrite list_lookup_fmap in He. apply fmap_Some in He as (f & Hfi & ->).
    unfold level_key, level_value. by rewrite Hfl, Hi, Nat2Z.id, Hfi.
  - intros i it (Hfl & _ & _). eexists. split; [done|]. split; [done|]. split; [done|cbn; lia].
  - intros i it (Hfl & _ & _). eexists. split; [done|]. rewrite Hfl. split; [done|]. cbn [findex level_move].
    destruct files; [split; [done|cbn; lia]|]. rewrite u32_small by (cbn [length] in *; lia).
    split; cbn [length] in *; lia.
  - intros i it Hat Hi. rewrite (Hv i it Hat), (proj2 (Nat.ltb_lt _ _)) by done. destruct Hat as (Hfl & Hfi & _).
    eexists. split; [done|]. split; [done|]. cbn [findex level_move]. rewrite Hfi, u32_small by lia. lia.
  - intros i it Hat Hi. rewrite (Hv i it Hat), (proj2 (Nat.ltb_lt _ _)) by done. destruct Hat as (Hfl & Hfi & _).
    eexists. split; [done|]. split; [done|]. cbn [findex level_move]. rewrite Hfi.
    destruct i as [|i].
    + rewrite Hfl, u32_small by lia. split; [done|lia].
    + rewrite (proj2 (Z.eqb_neq _ _)), u32_small by lia. lia.
  - intros i it target (Hfl & _ & _) Ht. destruct (FindFile_spec files target Hok' Ht) as (j & Hj & Hle & Hlb).
    rewrite Hfl, Hj. eexists _, j. split; [done|]. split; [|done]. split; [done|]. cbn [findex level_move].
    rewrite u32_small by lia. done.
Qed.

(** ** Overlap *)

Definition overlaps (s l : option bytes) (f : file) : Prop :=
  AfterFile ucmp s f = false /\ BeforeFile ucmp l f = false.

#[export] Instance overlaps_dec s l f : Decision (overlaps s l f).
Proof. unfold overlaps. apply _. Defined.

(** The seek key of [u] is the first key of [u]. *)
Lemma below_seek_key u k :
  ikey_ok k -> Internal_Compare ucmp k (InternalKey_make u kMaxSequenceNumber kValueTypeForSeek) = Lt <->
  Compare ucmp (FUserKey k) u = Lt.
Proof.
  intros (p & Hp & ->). unfold InternalKey_make, FUserKey.
  rewrite Internal_Compare_Append, ExtractUserKey_Append by (cbn; unfold kMaxSequenceNumber in *; lia || done).
  unfold entry_compare. cbn [userkey sequence type]. destruct (Compare ucmp (userkey p) u); try done.
  split; [|done]. destruct (Z.compare_spec kMaxSequenceNumber (sequence p)); [|lia|done]. by destruct (type p).
Qed.

Lemma SomeFileOverlapsRange_spec (disj : bool) files s l :
  (disj = true -> level_ok files) ->
  SomeFileOverlapsRange ucmp disj files s l = Some (bool_decide (Exists (overlaps s l) files)).
Proof.
  intros Hf. unfold SomeFileOverlapsRange. destruct disj; cbn [negb].
  2: { f_equal. apply eq_bool_prop_intro. rewrite bool_decide_spec, Is_true_true, existsb_exists, List.Exists_exists.
       unfold overlaps. setoid_rewrite negb_true_iff. by setoid_rewrite orb_false_iff. }
  specialize (Hf eq_refl).
  assert (exists j, (match s with
      | Some u => FindFile ucmp files (InternalKey_make u kMaxSequenceNumber kValueTypeForSeek)
      | None => Some 0 end) = Some (Z.of_nat j) /\
    (forall m f, (m < j)%nat -> files !! m = Some f -> AfterFile ucmp s f = true) /\
    (forall m f, (j <= m)%nat -> files !! m = Some f -> AfterFile ucmp s f = false)) as (j & -> & Hlo & Hhi).
  { destruct s as [u|]; [|exists 0%nat; split_and!; [done|lia|done]].
    destruct (FindFile_spec files (InternalKey_make u kMaxSequenceNumber kValueTypeForSeek) Hf) as (j & -> & Hle & Hlb).
    { unfold InternalKey_make. rewrite length_AppendInternalKey. lia. }
    apply lower_bound_files in Hlb as [Hlo Hhi]. destruct Hf as [Hfo Hd _]. pose proof Hfo as Hf'. rewrite Forall_lookup in Hf'.
    exists j. split; [done|]. cbn [AfterFile]. split.
    - intros m f Hm Hfm. specialize (Hlo m f Hm Hfm). rewrite below_seek_key in Hlo by apply (Hf' m f Hfm).
      apply bool_decide_eq_true. by apply (Compare_gt_lt (dom := fun _ => True)).
    - intros m f Hm Hfm. apply bool_decide_eq_false. intros Hgt%(Compare_gt_lt (dom := fun _ => True)); [|done..].
      destruct (proj2 (lookup_lt_is_Some files j)) as [g Hg]; [apply lookup_lt_Some in Hfm; lia|].
      apply (Hhi g Hg). apply below_seek_key; [apply (Hf' j g Hg)|].
      destruct (decide (j = m)) as [->|Hne]; [by simplify_eq|].
      apply (Compare_le_lt_trans (dom := fun _ => True) _ (lu f)); try done.
      apply (user_le_trans _ (su f)); [apply (disjoint_users files j m); [done|lia|done..]|by apply su_lu, (Hf' m)]. }
  rewrite Nat2Z.id. destruct (files !! j) as [g|] eqn:Hg; f_equal.
  - apply eq_bool_prop_intro. rewrite bool_decide_spec, Is_true_true, negb_true_iff, Exists_exists. split.
    + intros Hb. exists g. split; [by eapply list_elem_of_lookup_2|]. split; [by apply (Hhi j)|done].
    + intros (f & (m & Hm)%list_elem_of_lookup & Ha & Hb).
      destruct (decide (m < j)%nat) as [Hlt|Hge]; [by rewrite (Hlo m f Hlt Hm) in Ha|].
      destruct l as [u|]; [|done]. cbn [BeforeFile] in *. apply bool_decide_eq_false in Hb. apply bool_decide_eq_false.
      intros Hlt. apply Hb. destruct Hf as [Hfo Hd _].
      apply (Compare_lt_le_trans (dom := fun _ => True) _ (su g)); try done.
      by apply (smallest_users files j m); [..|lia| |].
  - symmetry. apply bool_decide_eq_false. intros (f & (m & Hm)%list_elem_of_lookup & Ha & _)%Exists_exists.
    apply lookup_ge_None in Hg. pose proof (lookup_lt_Some _ _ _ Hm). by rewrite (Hlo m f) in Ha by (lia || done).
Qed.

(** ** [GetOverlappingInputs] *)

(** [f] is neither before [b] nor after [e], as the loop tests it. *)
Definition meets (b e : option bytes) (f : file) : Prop :=
  match b with Some b => Compare ucmp (lu f) b <> Lt | None => True end /\
  match e with Some e => Compare ucmp (su f) e <> Gt | None => True end.

#[export] Instance meets_dec b e f : Decision (meets b e f).
Proof. unfold meets. destruct b, e; apply _. Defined.

(** [f] lies in the range. *)
Definition within (b e : option bytes) (f : file) : Prop :=
  match b with Some b => Compare ucmp (su f) b <> Lt | None => True end /\
  match e with Some e => Compare ucmp (lu f) e <> Gt | None => True end.

(** The range ([b'], [e']) contains the range ([b], [e]). *)
Definition widens (b e b' e' : option bytes) : Prop :=
  match b', b with Some b', Some b => Compare ucmp b' b <> Gt | None, _ => True | Some _, None => False end /\
  match e', e with Some e', Some e => Compare ucmp e e' <> Gt | None, _ => True | Some _, None => False end.

(** A range is closed under overlap with [files]. *)
Definition closed_range (files : list file) (b e : option bytes) : Prop :=
  forall f, f ∈ files -> meets b e f -> within b e f.

Definition below (b : option bytes) (f : file) : bool :=
  match b with Some b => bool_decide (Compare ucmp (su f) b = Lt) | None => false end.
Definition above (e : option bytes) (f : file) : bool :=
  match e with Some e => bool_decide (Compare ucmp (lu f) e = Gt) | None => false end.

(** How far a range can still grow. *)
Definition growth (files : list file) (b e : option bytes) : nat :=
  length (List.filter (below b) files) + length (List.filter (above e) files).

Lemma growth_begin files b e f :
  f ∈ files -> below b f = true -> (growth files (Some (su f)) e < growth files b e)%nat.
Proof.
  intros Hin Hb. unfold growth. destruct b as [b|]; [|done]. apply bool_decide_eq_true in Hb.
  pose proof (filter_length_lt (below (Some (su f))) (below (Some b)) files f) as Hlt.
  enough (length (List.filter (below (Some (su f))) files) < length (List.filter (below (Some b)) files))%nat by lia.
  apply Hlt; [|done| |by apply bool_decide_eq_true].
  - intros g _ Hg. apply bool_decide_eq_true in Hg. apply bool_decide_eq_true.
    by apply (Compare_lt_trans (dom := fun _ => True) _ (su f)).
  - apply bool_decide_eq_false. by rewrite (Compare_refl (dom := fun _ => True)).
Qed.

Lemma growth_end files b e f :
  f ∈ files -> above e f = true -> (growth files b (Some (lu f)) < growth files b e)%nat.
Proof.
  intros Hin Hb. unfold growth. destruct e as [e|]; [|done]. apply bool_decide_eq_true in Hb.
  pose proof (filter_length_lt (above (Some (lu f))) (above (Some e)) files f) as Hlt.
  enough (length (List.filter (above (Some (lu f))) files) < length (List.filter (above (Some e)) files))%nat by lia.
  apply Hlt; [|done| |by apply bool_decide_eq_true].
  - intros g _ Hg. apply bool_decide_eq_true in Hg. apply bool_decide_eq_true.
    apply (Compare_gt_lt (dom := fun _ => True)); [done..|]. apply (Compare_gt_lt (dom := fun _ => True)) in Hb, Hg; try done.
    by apply (Compare_lt_trans (dom := fun _ => True) _ (lu f)).
  - apply bool_decide_eq_false. by rewrite (Compare_refl (dom := fun _ => True)).
Qed.

Lemma growth_le files b e : (growth files b e <= 2 * length files)%nat.
Proof.
  unfold growth. pose proof (List.filter_length_le (below b) files). pose proof (List.filter_length_le (above e) files). lia.
Qed.

Lemma widens_refl b e : widens b e b e.
Proof. unfold widens. destruct b, e; rewrite ?(Compare_refl (dom := fun _ => True)); done. Qed.

Lemma widens_trans b e b1 e1 b2 e2 : widens b e b1 e1 -> widens b1 e1 b2 e2 -> widens b e b2 e2.
Proof.
  unfold widens. intros [H1 H2] [H3 H4]. split.
  - destruct b2 as [b2|], b1 as [b1|], b as [b|]; try done. by apply (user_le_trans _ b1).
  - destruct e2 as [e2|], e1 as [e1|], e as [e|]; try done. by apply (user_le_trans _ e1).
Qed.

Lemma below_widens b e f : below b f = true -> widens b e (Some (su f)) e.
Proof.
  intros Hb. destruct (widens_refl b e) as [_ He]. split; [|done].
  destruct b; [|done]. apply bool_decide_eq_true in Hb. by rewrite Hb.
Qed.

Lemma above_widens b e f : above e f = true -> widens b e b (Some (lu f)).
Proof.
  intros He. destruct (widens_refl b e) as [Hb _]. split; [done|].
  destruct e; [|done]. apply bool_decide_eq_true, (Compare_gt_lt (dom := fun _ => True)) in He; [|done..]. by rewrite He.
Qed.

(** A file that meets a range lies within every closed range around it. *)
Lemma meets_widens b e b2 e2 f : widens b e b2 e2 -> meets b e f -> meets b2 e2 f.
Proof.
  intros [H1 H2] [H3 H4]. split.
  - destruct b2 as [b2|]; [|done]. destruct b as [b|]; [|done]. intros Hlt. apply H3.
    by apply (Compare_lt_le_trans (dom := fun _ => True) _ b2).
  - destruct e2 as [e2|]; [|done]. destruct e as [e|]; [|done]. by apply (user_le_trans _ e).
Qed.

Lemma within_widens_begin b e b2 e2 f :
  widens b e b2 e2 -> within b2 e2 f -> widens (Some (su f)) e b2 e2.
Proof.
  intros [H1 H2] [H3 _]. split; [|done]. destruct b2 as [b2|]; [|done].
  intros Hgt. apply H3. by apply (Compare_gt_lt (dom := fun _ => True)).
Qed.

Lemma within_widens_end b e b2 e2 f :
  widens b e b2 e2 -> within b2 e2 f -> widens b (Some (lu f)) b2 e2.
Proof. intros [H1 H2] [_ H4]. split; [done|]. by destruct e2. Qed.

(** What the loop returns: the files that meet the least closed range around the given
    one, or around the given range itself in a level whose files do not overlap. *)
Definition least_closed (files : list file) (b e b' e' : option bytes) : Prop :=
  closed_range files b' e' /\ widens b e b' e' /\
  forall b2 e2, closed_range files b2 e2 -> widens b e b2 e2 -> widens b' e' b2 e2.

Lemma least_closed_step files b e b1 e1 b' e' :
  widens b e b1 e1 -> (forall b2 e2, closed_range files b2 e2 -> widens b e b2 e2 -> widens b1 e1 b2 e2) ->
  least_closed files b1 e1 b' e' -> least_closed files b e b' e'.
Proof.
  intros Hw Hmin (H1 & H2 & H3). split; [done|]. split; [by apply (widens_trans _ _ b1 e1)|]. auto.
Qed.

Lemma overlap_loop_spec (restart : bool) files fuel : forall seen_ rest b e,
  files = seen_ ++ rest -> (restart = true -> forall f, f ∈ seen_ -> meets b e f -> within b e f) ->
  (growth files b e * S (length files) + length rest < fuel)%nat ->
  exists b' e', overlap_loop ucmp fuel restart files rest b e (filter (meets b e) seen_) =
      Some (filter (meets b' e') files) /\
    if restart then least_closed files b e b' e' else b' = b /\ e' = e.
Proof.
  induction fuel as [|fuel IH]; intros seen_ rest b e Hfiles Hin Hfuel; [lia|].
  destruct rest as [|f rest]; cbn [overlap_loop].
  { rewrite app_nil_r in Hfiles. subst seen_. exists b, e. split; [done|].
    destruct restart; [|done]. split; [by intros f; apply Hin|]. split; [apply widens_refl|done]. }
  assert (files = (seen_ ++ [f]) ++ rest) as Hfiles' by (by rewrite <- app_assoc).
  assert (f ∈ files) as Hf by (rewrite Hfiles; set_solver).
  cbn [length] in Hfuel.
  assert (~ meets b e f -> filter (meets b e) (seen_ ++ [f]) = filter (meets b e) seen_) as Hskip
    by (intros Hn; rewrite filter_app, filter_cons_False by done; by rewrite app_nil_r).
  assert (~ meets b e f -> exists b' e', overlap_loop ucmp fuel restart files rest b e (filter (meets b e) seen_) =
      Some (filter (meets b' e') files) /\ if restart then least_closed files b e b' e' else b' = b /\ e' = e) as Hnext.
  { intros Hn. rewrite <- Hskip by done. apply (IH (seen_ ++ [f]) rest); [done| |lia].
    intros Hr g [Hg| ->%list_elem_of_singleton]%elem_of_app; [by apply Hin|done]. }
  destruct (match b with Some b => _ | None => false end) eqn:Hbef.
  { apply Hnext. intros [Hb _]. destruct b; [|done]. by apply bool_decide_eq_true in Hbef. }
  destruct (match e with Some e => _ | None => false end) eqn:Haft.
  { apply Hnext. intros [_ He]. destruct e; [|done]. by apply bool_decide_eq_true in Haft. }
  assert (meets b e f) as Hm.
  { split; [destruct b; [|done]; by apply bool_decide_eq_false in Hbef|destruct e; [|done]; by apply bool_decide_eq_false in Haft]. }
  change (match b with Some b => bool_decide (Compare ucmp (su f) b = Lt) | None => false end) with (below b f).
  change (match e with Some e => bool_decide (Compare ucmp (lu f) e = Gt) | None => false end) with (above e f).
  destruct (restart && below b f) eqn:Hlow.
  { apply andb_true_iff in Hlow as [-> Hlow]. pose proof (growth_begin files b e f Hf Hlow) as Hg.
    destruct (IH [] files (Some (su f)) e) as (b' & e' & Hl & Hc); [done|set_solver|nia|].
    exists b', e'. split; [exact Hl|]. apply (least_closed_step files b e (Some (su f)) e); [by apply below_widens| |done].
    intros b2 e2 Hcl Hw. apply (within_widens_begin b e); [done|apply Hcl; [done|by apply (meets_widens b e)]]. }
  destruct (restart && above e f) eqn:Hhigh.
  { apply andb_true_iff in Hhigh as [-> Hhigh]. pose proof (growth_end files b e f Hf Hhigh) as Hg.
    destruct (IH [] files b (Some (lu f))) as (b' & e' & Hl & Hc); [done|set_solver|nia|].
    exists b', e'. split; [exact Hl|]. apply (least_closed_step files b e b (Some (lu f))); [by apply above_widens| |done].
    intros b2 e2 Hcl Hw. apply (within_widens_end b e); [done|apply Hcl; [done|by apply (meets_widens b e)]]. }
  rewrite <- (filter_cons_True (meets b e) f []), <- filter_app by done.
  apply (IH (seen_ ++ [f]) rest); [done| |lia].
  intros -> g [Hg| ->%list_elem_of_singleton]%elem_of_app Hmg; [by apply Hin|]. cbn in Hlow, Hhigh.
  split; [destruct b; [|done]; by apply bool_decide_eq_false in Hlow|destruct e; [|done]; by apply bool_decide_eq_false in Hhigh].
Qed.

Lemma GetOverlappingInputs_ok v level begin end_ :
  0 <= level < kNumLevels ->
  let files := level_files v level in
  exists b' e', GetOverlappingInputs ucmp v level begin end_ = Some (filter (meets b' e') files) /\
    if level =? 0 then least_closed files (FUserKey <$> begin) (FUserKey <$> end_) b' e'
    else b' = FUserKey <$> begin /\ e' = FUserKey <$> end_.
Proof.
  intros Hlv files. unfold GetOverlappingInputs.
  rewrite (proj2 (andb_true_iff _ _)) by (split; [apply Z.leb_le|apply Z.ltb_lt]; lia). fold files.
  apply (overlap_loop_spec (level =? 0) files (overlap_fuel files) [] files); [done|set_solver|].
  pose proof (growth_le files (FUserKey <$> begin) (FUserKey <$> end_)). unfold overlap_fuel. nia.
Qed.
End Searching.

(** ** Where a memtable's output goes *)

Section PickLevel.
Context {ucmp : Comparator} {Hok : ComparatorOk ucmp (fun _ => True)}.

Lemma OverlapInLevel_ok v level s l :
  (0 < level -> level_ok (ucmp := ucmp) (level_files v level)) ->
  OverlapInLevel ucmp v level s l = Some (bool_decide (Exists (overlaps (ucmp := ucmp) s l) (level_files v level))).
Proof. intros Hl. apply SomeFileOverlapsRange_spec. intros H%Z.ltb_lt. by apply Hl. Qed.

Lemma pick_level_loop_ok v m s l fuel : forall level,
  (forall j, 0 < j < kNumLevels -> level_ok (ucmp := ucmp) (level_files v j)) ->
  0 <= level -> level + Z.of_nat fuel = kMaxMemCompactLevel ->
  (forall j, 0 <= j <= level -> ~ Exists (overlaps (ucmp := ucmp) (Some s) (Some l)) (level_files v j)) ->
  exists L, pick_level_loop ucmp fuel v m s l level = Some L /\ level <= L <= kMaxMemCompactLevel /\
    forall j, 0 <= j <= L -> ~ Exists (overlaps (ucmp := ucmp) (Some s) (Some l)) (level_files v j).
Proof.
  unfold kMaxMemCompactLevel, kNumLevels. induction fuel as [|fuel IH]; intros level Hv H0 Hf Hno.
  { exists level. split_and!; [done|lia|lia|done]. }
  cbn [pick_level_loop]. rewrite (proj2 (Z.ltb_lt _ _)) by (unfold kMaxMemCompactLevel; lia).
  rewrite OverlapInLevel_ok by (intros; apply Hv; lia).
  case_bool_decide as Hov; [exists level; split_and!; [done|lia|lia|done]|].
  rewrite (proj2 (Z.ltb_lt (level + 2) _)) by (unfold kNumLevels; lia).
  destruct (GetOverlappingInputs_ok v (level + 2) (Some (InternalKey_make s kMaxSequenceNumber kValueTypeForSeek))
    (Some (InternalKey_make l 0 kTypeDeletion))) as (b' & e' & -> & _); [unfold kNumLevels; lia|].
  destruct (_ <? _); [exists level; split_and!; [done|lia|lia|done]|].
  destruct (IH (level + 1)) as (L & -> & HL & Hno'); [done|lia|lia| |].
  - intros j Hj. destruct (decide (j = level + 1)) as [->|]; [done|]. apply Hno. lia.
  - exists L. split; [done|]. split; [lia|done].
Qed.

Lemma PickLevel_ok v m s l :
  (forall j, 0 < j < kNumLevels -> level_ok (ucmp := ucmp) (level_files v j)) ->
  exists L, PickLevelForMemTableOutput ucmp v m s l = Some L /\ 0 <= L <= kMaxMemCompactLevel /\
    (0 < L -> forall j, 0 <= j <= L -> ~ Exists (overlaps (ucmp := ucmp) (Some s) (Some l)) (level_files v j)).
Proof.
  intros Hv. unfold PickLevelForMemTableOutput. rewrite OverlapInLevel_ok by lia.
  case_bool_decide as Hov; [exists 0; split_and!; [done|done|done|lia]|].
  destruct (pick_level_loop_ok v m s l (Z.to_nat kMaxMemCompactLevel) 0 Hv) as (L & -> & HL & Hno); [done|done| |].
  - intros j Hj. by replace j with 0 by lia.
  - exists L. split_and!; [done|lia|lia|done].
Qed.
End PickLevel.

(** ** Lookups *)

Abbreviation ientry := (ParsedInternalKey * bytes)%type.

(** The entries of [u] that a reader at [s] may see. *)
Definition visible (c : Comparator) (u : bytes) (s : Z) (e : ientry) : Prop :=
  Compare c (userkey e.1) u = Eq /\ sequence e.1 <= s.

#[export] Instance visible_dec c u s e : Decision (visible c u s e).
Proof. unfold visible. apply _. Defined.

(** What a table with the entries [es] may answer to a lookup of [u] at [s]. *)
Definition answers (c : Comparator) (es : list ientry) (u : bytes) (s : Z) (found : option entry) : Prop :=
  (exists e, found = Some (entry_of e) /\ e ∈ es /\ visible c u s e /\
     forall e', e' ∈ es -> visible c u s e' -> sequence e'.1 <= sequence e.1) \/
  ((forall e', e' ∈ es -> ~ visible c u s e') /\
   forall x, found = Some x -> exists e, x = entry_of e /\ e ∈ es /\ Compare c (userkey e.1) u <> Eq).

(** The contract of the table cache: [serves num size es] says that file [num] of [size]
    bytes is a table of the entries [es]. *)
Class TableSourceOk (T : Type) `{TableSource T} (c : Comparator) (good : T -> Prop)
    (serves : Z -> Z -> list ientry -> Prop) : Prop := {
  tget_ok t num size es u s : good t -> serves num size es -> 0 <= s <= kMaxSequenceNumber ->
    exists found t', tget t num size (seek_key u s) = Some (OK, found, t') /\ good t' /\ answers c es u s found
}.

Section Lookups.
Context {ucmp : Comparator} {Hok : ComparatorOk ucmp (fun _ => True)}.
Context {T : Type} `{TableSourceOk T ucmp good serves}.
Context (v : Version) (data : file -> list ientry).

(** Entries of [A] are newer than those of [B] on the same user key. *)
Definition newer (A B : list ientry) : Prop :=
  forall a b, a ∈ A -> b ∈ B -> Compare ucmp (userkey a.1) (userkey b.1) = Eq -> sequence b.1 < sequence a.1.

(** File [f] holds the entries [data f], from its smallest to its largest key. *)
Record file_holds (f : file) : Prop := {
  fh_ok : file_ok (ucmp := ucmp) f;
  fh_serves : serves (number f) (filesize f) (data f);
  fh_range e : e ∈ data f -> 0 <= sequence e.1 <= kMaxSequenceNumber /\
    Internal_Compare ucmp (smallest f) (AppendInternalKey [] e.1) <> Gt /\
    Internal_Compare ucmp (AppendInternalKey [] e.1) (largest f) <> Gt;
  fh_last : exists e, e ∈ data f /\ largest f = AppendInternalKey [] e.1
}.

(** The invariant of versions: the levels above 0 are disjoint and in order, and what is
    found first on the way of a lookup is the newest. *)
Record version_ok : Prop := {
  vo_file level f : 0 <= level < kNumLevels -> f ∈ level_files v level -> file_holds f;
  vo_level level : 0 < level < kNumLevels -> level_ok (ucmp := ucmp) (level_files v level);
  vo_numbers : NoDup (number <$> level_files v 0);
  vo_newer0 f g : f ∈ level_files v 0 -> g ∈ level_files v 0 -> number g < number f -> newer (data f) (data g);
  vo_newer level level' f g : 0 <= level < level' -> level' < kNumLevels ->
    f ∈ level_files v level -> g ∈ level_files v level' -> newer (data f) (data g)
}.

Hypothesis Hv : version_ok.
Context (u : bytes) (s : Z).
Hypothesis Hs : 0 <= s <= kMaxSequenceNumber.

Abbreviation su f := (FUserKey (smallest f)).
Abbreviation lu f := (FUserKey (largest f)).
Abbreviation vis := (visible ucmp u s).
Abbreviation hidden l := (forall e, e ∈ l -> ~ vis e).

(** [e] is the newest visible entry of [l]. *)
Definition newest_of (l : list ientry) (e : ientry) : Prop :=
  e ∈ l /\ vis e /\ forall e', e' ∈ l -> vis e' -> sequence e'.1 <= sequence e.1.

(** What [Get] makes of the newest entry. *)
Definition outcome (e : ientry) (value : bytes) (st : Status) (value' : bytes) : Prop :=
  match type e.1 with
  | kTypeValue => st = OK /\ value' = e.2
  | kTypeDeletion => st = NotFound [] [] /\ value' = value
  end.

Lemma SaveValue_entry e value :
  0 <= sequence e.1 <= kMaxSequenceNumber ->
  SaveValue ucmp u (entry_of e) value =
    if bool_decide (Compare ucmp (userkey e.1) u = Eq) then
      match type e.1 with kTypeValue => (sFound, e.2) | kTypeDeletion => (sDeleted, value) end
    else (sNotFound, value).
Proof. intros He. unfold SaveValue, entry_of. cbn [fst snd]. by rewrite ParseInternalKey_Append. Qed.

Lemma search_files_ok level fs : forall value stats last t,
  good t -> Forall (fun p => file_holds p.2) fs ->
  exists r value' stats' last' t',
    search_files ucmp level (seek_key u s) u fs value stats last t = Some (r, value', stats', last', t') /\ good t' /\
    match r with
    | None => value' = value /\ forall p, p ∈ fs -> hidden (data p.2)
    | Some st => exists pre p post e, fs = pre ++ p :: post /\ (forall q, q ∈ pre -> hidden (data q.2)) /\
        newest_of (data p.2) e /\ outcome e value st value'
    end.
Proof.
  induction fs as [|[i f] fs IH]; intros value stats last t Ht Hfs; cbn [search_files].
  { eexists None, _, _, _, _. split; [done|]. split; [done|]. split; [done|]. intros p Hp. by apply not_elem_of_nil in Hp. }
  apply Forall_cons in Hfs as [Hf Hfs]. cbn [snd] in Hf.
  destruct (tget_ok t (number f) (filesize f) (data f) u s Ht (fh_serves _ Hf) Hs) as (found & t1 & -> & Ht1 & Hans).
  cbn [ok OK negb]. set (stats1 := match last with Some _ => _ | None => _ end).
  assert (hidden (data f) -> exists r value' stats' last' t',
    search_files ucmp level (seek_key u s) u fs value stats1 (Some (level, i)) t1 = Some (r, value', stats', last', t') /\
    good t' /\ match r with
    | None => value' = value /\ forall p, p ∈ (i, f) :: fs -> hidden (data p.2)
    | Some st => exists pre p post e, (i, f) :: fs = pre ++ p :: post /\ (forall q, q ∈ pre -> hidden (data q.2)) /\
        newest_of (data p.2) e /\ outcome e value st value'
    end) as Hgo.
  { intros Hhid. destruct (IH value stats1 (Some (level, i)) t1 Ht1 Hfs) as (r & value' & stats' & last' & t' & -> & Ht' & Hr).
    eexists _, _, _, _, _. split; [done|]. split; [done|]. destruct r as [st|].
    - destruct Hr as (pre & p & post & e & -> & Hpre & Hn & Ho). exists ((i, f) :: pre), p, post, e.
      split_and!; [done| |done|done]. intros q [->|Hq]%elem_of_cons; [done|by apply Hpre].
    - destruct Hr as [-> Hr]. split; [done|]. intros p [->|Hp]%elem_of_cons; [done|by apply Hr]. }
  destruct Hans as [(e & -> & He & Hvis & Hmax)|[Hhid Hx]].
  - rewrite SaveValue_entry, bool_decide_true by (apply Hvis || by apply (fh_range f Hf e He)).
    destruct (type e.1) eqn:Hty; eexists (Some _), _, _, _, _; (split; [done|]); (split; [done|]);
      exists [], (i, f), fs, e; (split; [done|]); (split; [intros q Hq; by apply not_elem_of_nil in Hq|]);
      (split; [done|]); unfold outcome; by rewrite Hty.
  - destruct found as [x|]; [|by apply Hgo]. destruct (Hx x eq_refl) as (e & -> & He & Hne).
    rewrite SaveValue_entry, bool_decide_false by (done || by apply (fh_range f Hf e He)). by apply Hgo.
Qed.

(** A visible entry is at or after the seek key, and shows the user key of its file. *)
Lemma visible_seek e :
  0 <= sequence e.1 <= kMaxSequenceNumber -> vis e ->
  Internal_Compare ucmp (AppendInternalKey [] e.1) (seek_key u s) <> Lt.
Proof.
  intros He [Hc Hle]. unfold seek_key. rewrite Internal_Compare_Append by done. unfold entry_compare.
  cbn [userkey sequence type]. rewrite Hc. destruct (Z.compare_spec s (sequence e.1)); [|lia|done].
  by destruct (type e.1).
Qed.

Lemma visible_in_range f e :
  file_holds f -> e ∈ data f -> vis e ->
  Compare ucmp u (FUserKey (smallest f)) <> Lt /\ Compare ucmp u (FUserKey (largest f)) <> Gt.
Proof.
  intros Hf He [Hc _]. destruct (fh_range f Hf e He) as (_ & H1 & H2).
  rewrite Internal_Compare_alt, ExtractUserKey_Append in H1, H2. unfold FUserKey. split.
  - intros Hlt. apply (Compare_gt_lt (dom := fun _ => True)) in Hlt; [|done..].
    rewrite (Compare_eq_r (dom := fun _ => True) (userkey e.1) u) in H1 by done. by rewrite Hlt in H1.
  - intros Hgt. rewrite (Compare_eq_l (dom := fun _ => True) (userkey e.1) u) in H2 by done. by rewrite Hgt in H2.
Qed.

(** What the files searched in one level have to cover. *)
Record search_ok (level : Z) (fs : list (nat * file)) : Prop := {
  so_files p : p ∈ fs -> p.2 ∈ level_files v level;
  so_none : (forall p, p ∈ fs -> hidden (data p.2)) -> forall f, f ∈ level_files v level -> hidden (data f);
  so_first pre p post e : fs = pre ++ p :: post -> (forall q, q ∈ pre -> hidden (data q.2)) ->
    newest_of (data p.2) e ->
    forall f e', f ∈ level_files v level -> e' ∈ data f -> vis e' -> sequence e'.1 <= sequence e.1
}.

#[local] Instance NewestFirst_trans : Transitive NewestFirst.
Proof. intros a b d. unfold NewestFirst. lia. Qed.
#[local] Instance NewestFirst_total : Total NewestFirst.
Proof. intros a b. unfold NewestFirst. lia. Qed.

Lemma search_level0 :
  exists fs, files_to_search ucmp v 0 (seek_key u s) u = Some fs /\ search_ok 0 fs.
Proof.
  unfold files_to_search. cbn [Z.eqb]. eexists. split; [done|].
  set (keep := filter _ (imap pair (level_files v 0))).
  assert (forall p, p ∈ merge_sort NewestFirst keep <-> p ∈ keep) as Hin
    by (intros p; by rewrite (merge_sort_Permutation NewestFirst keep)).
  assert (forall p, p ∈ keep -> level_files v 0 !! p.1 = Some p.2) as Hkeep.
  { intros p [_ (i & f & -> & Hf)%elem_of_lookup_imap_1]%list_elem_of_filter. done. }
  assert (forall f, f ∈ level_files v 0 -> forall e, e ∈ data f -> vis e -> exists i, (i, f) ∈ keep) as Hcover.
  { intros f Hf e He Hvis. pose proof Hf as [i Hi]%list_elem_of_lookup. exists i.
    apply list_elem_of_filter. split; [|by apply (elem_of_lookup_imap_2 pair)].
    apply (visible_in_range f e); [by apply (vo_file Hv 0)|done..]. }
  split.
  - intros p Hp%Hin%Hkeep. by eapply list_elem_of_lookup_2.
  - intros Hno f Hf e He Hvis. destruct (Hcover f Hf e He Hvis) as [i Hi%Hin]. by apply (Hno (i, f) Hi e).
  - intros pre p post e Hfs Hpre (He & Hve & Hmax) f e' Hf He' Hvis'.
    destruct (Hcover f Hf e' He' Hvis') as [i Hi]. pose proof (proj2 (Hin _) Hi) as Hi'. rewrite Hfs in Hi'.
    assert (p ∈ keep) as Hp by (apply Hin; rewrite Hfs; set_solver). pose proof (Hkeep p Hp) as Hlp.
    apply elem_of_app in Hi' as [Hi'|[<-|Hi']%elem_of_cons]; [by destruct (Hpre _ Hi' e')|by apply Hmax|].
    pose proof (StronglySorted_merge_sort NewestFirst keep) as Hsort. rewrite Hfs in Hsort.
    apply StronglySorted_app_1_r, StronglySorted_cons in Hsort as [Hall _].
    rewrite Forall_forall in Hall. specialize (Hall _ Hi'). unfold NewestFirst in Hall. cbn [snd] in Hall.
    destruct (decide (number f = number p.2)) as [Heq|Hne].
    + assert (f = p.2) as ->; [|by apply Hmax].
      pose proof (Hkeep _ Hi) as Hlf. cbn [fst snd] in Hlf.
      assert (i = p.1) as ->; [|congruence].
      apply (NoDup_lookup _ i p.1 (number f) (vo_numbers Hv)); rewrite list_lookup_fmap; [by rewrite Hlf|by rewrite Hlp, Heq].
    + apply Z.lt_le_incl. apply (vo_newer0 Hv p.2 f); [by eapply list_elem_of_lookup_2|done|lia|done|done|].
      destruct Hve as [Hve _], Hvis' as [Hv' _].
      rewrite (Compare_eq_l (dom := fun _ => True) _ u) by done. by apply (Compare_eq_sym (dom := fun _ => True)).
Qed.

(** ** The levels above 0 *)

Section Level.
Context (level : Z).
Hypothesis Hlevel : 0 < level < kNumLevels.
Abbreviation fs := (level_files v level).

Lemma level_file_holds f : f ∈ fs -> file_holds f.
Proof. apply (vo_file Hv). lia. Qed.

Lemma hidden_before f e :
  f ∈ fs -> Internal_Compare ucmp (largest f) (seek_key u s) = Lt -> e ∈ data f -> ~ vis e.
Proof.
  intros Hf Hlt He Hvis. destruct (fh_range f (level_file_holds f Hf) e He) as (Hse & _ & Hle).
  apply (visible_seek e Hse Hvis). destruct (fk_largest f (fh_ok f (level_file_holds f Hf))) as (p & Hp & Hpe).
  rewrite Hpe in *. by apply (icmp_le_lt_trans _ (AppendInternalKey [] p)); try apply ikey_ok_dom; try (eexists; split; [|done]).
Qed.

(** A visible entry of a later file is older than every entry of the file with the same user key. *)
Lemma later_older m k f g e e' :
  (m < k)%nat -> fs !! m = Some f -> fs !! k = Some g -> e ∈ data f -> e' ∈ data g ->
  Compare ucmp (userkey e.1) (userkey e'.1) = Eq -> sequence e'.1 <= sequence e.1.
Proof.
  intros Hmk Hf Hg He He' Heq.
  destruct (fh_range f (level_file_holds f (list_elem_of_lookup_2 _ _ _ Hf)) e He) as (Hse & _ & Hle).
  pose proof (level_file_holds g (list_elem_of_lookup_2 _ _ _ Hg)) as Hgh.
  destruct (fh_range g Hgh e' He') as (Hse' & Hge & _).
  pose proof (sorted_lookup _ _ _ _ _ _ (lv_disjoint _ (vo_level Hv level Hlevel)) Hmk Hf Hg) as Hlt. cbn in Hlt.
  assert (Internal_Compare ucmp (AppendInternalKey [] e.1) (AppendInternalKey [] e'.1) = Lt) as Hord.
  { assert (ikey_ok (largest f)) as Hl by apply (fk_largest _ (fh_ok _ (level_file_holds f (list_elem_of_lookup_2 _ _ _ Hf)))).
    assert (ikey_ok (smallest g)) as Hsg by apply (fk_smallest _ (fh_ok _ Hgh)).
    assert (ikey_ok (AppendInternalKey [] e.1)) as He1 by (by exists e.1).
    assert (ikey_ok (AppendInternalKey [] e'.1)) as He2 by (by exists e'.1).
    apply (icmp_lt_le_trans _ (smallest g)); try (by apply ikey_ok_dom); [|done].
    by apply (icmp_le_lt_trans _ (largest f)); try apply ikey_ok_dom. }
  rewrite Internal_Compare_Append in Hord by done. unfold entry_compare in Hord. rewrite Heq in Hord.
  destruct (Z.compare_spec (sequence e'.1) (sequence e.1)); [lia|lia|done].
Qed.

(** When the file found shows nothing of the user key, no later file does. *)
Lemma hidden_after j m f g e :
  fs !! j = Some f -> Internal_Compare ucmp (largest f) (seek_key u s) <> Lt -> (j < m)%nat ->
  fs !! m = Some g -> e ∈ data g -> vis e -> hidden (data f) -> False.
Proof.
  intros Hf Hhi Hm Hg He Hvis Hhid. pose proof (list_elem_of_lookup_2 _ _ _ Hf) as Hf'.
  destruct (fh_last _ (level_file_holds f Hf')) as (e0 & He0 & Hlast). apply (Hhid e0 He0).
  destruct (fh_range f (level_file_holds f Hf') e0 He0) as (Hs0 & _).
  destruct (visible_in_range g e (level_file_holds g (list_elem_of_lookup_2 _ _ _ Hg)) He Hvis) as [Hsg _].
  pose proof (disjoint_users fs j m f g (lv_disjoint _ (vo_level Hv level Hlevel)) Hm Hf Hg) as Hfg.
  rewrite Hlast in Hhi, Hfg. unfold FUserKey in *. rewrite ExtractUserKey_Append in Hfg.
  unfold seek_key in Hhi. rewrite Internal_Compare_Append in Hhi by done. unfold entry_compare in Hhi. cbn [userkey sequence type] in Hhi.
  assert (Compare ucmp (userkey e0.1) u <> Gt) as Hle0.
  { apply (user_le_trans _ (su g)); [done|]. intros Hgt. apply Hsg. by apply (Compare_gt_lt (dom := fun _ => True)). }
  destruct (Compare ucmp (userkey e0.1) u) eqn:Hc; [|done|done]. split; [done|].
  destruct (Z.compare_spec s (sequence e0.1)); [lia|done|lia].
Qed.

Lemma search_level_pos :
  exists fl, files_to_search ucmp v level (seek_key u s) u = Some fl /\ search_ok level fl.
Proof.
  unfold files_to_search. rewrite (proj2 (Z.eqb_neq _ _)) by lia.
  pose proof (vo_level Hv level Hlevel) as Hlv. pose proof (lv_files _ Hlv) as Hfs.
  destruct (FindFile_spec fs (seek_key u s) Hlv) as (j & -> & Hj & Hlb).
  { unfold seek_key. rewrite length_AppendInternalKey. lia. }
  apply lower_bound_files in Hlb as [Hlo Hhi]. rewrite Nat2Z.id.
  assert (forall m f, (m < j)%nat -> fs !! m = Some f -> hidden (data f)) as Hbefore.
  { intros m f Hm Hf e He. apply (hidden_before f); [by eapply list_elem_of_lookup_2|by apply (Hlo m)|done]. }
  destruct (fs !! j) as [f|] eqn:Hf; cycle 1.
  { eexists. split; [done|]. split; [set_solver| |by intros [] ? ? ? ?].
    intros _ g [m Hg]%list_elem_of_lookup. apply (Hbefore m g); [|done].
    apply lookup_ge_None in Hf. apply lookup_lt_Some in Hg. lia. }
  case_bool_decide as Hsm.
  - exists []. split; [done|]. split; [set_solver| |by intros [] ? ? ? ?].
    intros _ g [m Hg]%list_elem_of_lookup e He Hvis. destruct (decide (m < j)%nat) as [Hm|Hmj]; [by apply (Hbefore m g Hm Hg e)|].
    destruct (visible_in_range g e (level_file_holds g (list_elem_of_lookup_2 _ _ _ Hg)) He Hvis) as [Hsg _].
    apply Hsg. apply (Compare_lt_le_trans (dom := fun _ => True) _ (su f)); [done..|].
    apply (smallest_users fs j m); [done|apply Hlv|lia|done|done].
  - exists [(j, f)]. split; [done|]. split.
    + intros p ->%list_elem_of_singleton. by eapply list_elem_of_lookup_2.
    + intros Hno g [m Hg]%list_elem_of_lookup e He Hvis. assert (hidden (data f)) as Hhid by (apply (Hno (j, f)); set_solver).
      destruct (Nat.lt_trichotomy m j) as [Hm|[->|Hm]]; [by apply (Hbefore m g Hm Hg e)| |by apply (hidden_after j m f g e Hf (Hhi f eq_refl) Hm)].
      simplify_eq. by apply (Hhid e).
    + intros pre p post e Hpre _ (He & Hve & Hmax) g e' [m Hg]%list_elem_of_lookup He' Hvis'.
      assert (p = (j, f)) as ->. { destruct pre as [|? []]; cbn in Hpre; congruence. }
      destruct (Nat.lt_trichotomy m j) as [Hm|[->|Hm]]; [by destruct (Hbefore m g Hm Hg e')|simplify_eq; by apply Hmax|].
      apply (later_older j m f g); try done. destruct Hve as [Hve _], Hvis' as [Hv' _].
      rewrite (Compare_eq_l (dom := fun _ => True) _ u) by done. by apply (Compare_eq_sym (dom := fun _ => True)).
Qed.
End Level.

(** ** [Get] *)

(** [e] is an entry of a file of the version. *)
Definition in_version (e : ientry) : Prop :=
  exists level f, 0 <= level < kNumLevels /\ f ∈ level_files v level /\ e ∈ data f.

Definition newest_in_version (e : ientry) : Prop :=
  in_version e /\ vis e /\ forall e', in_version e' -> vis e' -> sequence e'.1 <= sequence e.1.

(** The result of [Get]: what its newest visible entry says, or nothing. *)
Definition get_result (value : bytes) (st : Status) (value' : bytes) : Prop :=
  (exists e, newest_in_version e /\ outcome e value st value') \/
  (st = NotFound [] [] /\ value' = value /\ forall e, in_version e -> ~ vis e).

Lemma search_level level : 0 <= level < kNumLevels ->
  exists fl, files_to_search ucmp v level (seek_key u s) u = Some fl /\ search_ok level fl.
Proof.
  intros Hl. destruct (decide (level = 0)) as [->|]; [apply search_level0|apply search_level_pos; lia].
Qed.

Lemma newest_found level fl pre p post e :
  0 <= level < kNumLevels -> search_ok level fl ->
  (forall l f, 0 <= l < level -> f ∈ level_files v l -> hidden (data f)) ->
  fl = pre ++ p :: post -> (forall q, q ∈ pre -> hidden (data q.2)) -> newest_of (data p.2) e ->
  newest_in_version e.
Proof.
  intros Hl Hso Hup Hfl Hpre Hn. pose proof Hn as (He & Hve & Hmax).
  assert (p.2 ∈ level_files v level) as Hp by (apply (so_files _ _ Hso); rewrite Hfl; set_solver).
  split; [by exists level, p.2|]. split; [done|]. intros e' (l & f & Hlr & Hf & He') Hvis'.
  destruct (Z.lt_trichotomy l level) as [Hlt|[->|Hgt]].
  - by destruct (Hup l f ltac:(lia) Hf e' He').
  - by apply (so_first _ _ Hso pre p post e Hfl Hpre Hn f e').
  - apply Z.lt_le_incl. apply (vo_newer Hv level l p.2 f); try done; try lia.
    destruct Hve as [Hve _], Hvis' as [Hv' _]. rewrite (Compare_eq_l (dom := fun _ => True) _ u) by done.
    by apply (Compare_eq_sym (dom := fun _ => True)).
Qed.

Lemma search_levels_ok n : forall k value stats last t,
  0 <= k -> k + Z.of_nat n = kNumLevels -> good t ->
  (forall l f, 0 <= l < k -> f ∈ level_files v l -> hidden (data f)) ->
  exists st value' stats' t',
    search_levels ucmp v (seqZ k (Z.of_nat n)) (seek_key u s) u value stats last t = Some (st, value', stats', t') /\
    good t' /\ get_result value st value'.
Proof.
  induction n as [|n IH]; intros k value stats last t Hk Hn Ht Hup.
  { cbn. eexists _, _, _, _. split; [done|]. split; [done|]. right. split; [done|]. split; [done|].
    intros e (l & f & Hl & Hf & He). apply (Hup l f); [lia|done|done]. }
  rewrite seqZ_cons by lia. replace (Z.pred (Z.of_nat (S n))) with (Z.of_nat n) by lia. cbn [search_levels].
  assert ((forall f, f ∈ level_files v k -> hidden (data f)) ->
    forall l f, 0 <= l < Z.succ k -> f ∈ level_files v l -> hidden (data f)) as Hdown.
  { intros Hno l f Hl Hf. destruct (decide (l = k)) as [->|]; [by apply Hno|]. apply (Hup l f); [lia|done]. }
  destruct (level_files v k) as [|f0 fs0] eqn:Hfs.
  { apply IH; [lia|lia|done|]. apply Hdown. set_solver. }
  rewrite <- Hfs in *. destruct (search_level k ltac:(lia)) as (fl & -> & Hso).
  assert (Forall (fun p : nat * file => file_holds p.2) fl) as Hall.
  { apply Forall_forall. intros p Hp. apply (vo_file Hv k); [lia|by apply (so_files _ _ Hso)]. }
  destruct (search_files_ok k fl value stats last t Ht Hall) as (r & value' & stats' & last' & t' & -> & Ht' & Hr).
  destruct r as [st|].
  - destruct Hr as (pre & p & post & e & Hfl & Hpre & Hnew & Ho). eexists _, _, _, _. split; [done|]. split; [done|].
    left. exists e. split; [|done]. apply (newest_found k fl pre p post e); [lia|done..].
  - destruct Hr as [-> Hr]. apply IH; [lia|lia|done|]. apply Hdown. by apply (so_none _ _ Hso).
Qed.

(** C8: A lookup in a version finds the newest entry.  Over a table cache that keeps its
    contract, in a version whose levels keep theirs, [Get] of [u] at sequence number [s]
    returns: if some file has an entry of [u] that [s] may see, the result is the value of
    the newest such entry of all files of all levels, or not-found if it is a deletion;
    otherwise it is not-found and the value is unchanged.  The search of overlapping files
    of level 0 by file number, and of one file of each other level by binary search,
    never misses it. *)
Theorem version_get value t :
  is_u32 (Z.of_nat (length u) + 8) -> good t ->
  exists st value' stats t',
    Version_Get ucmp v (LookupKey_make u s) value t = Some (st, value', stats, t') /\
    good t' /\ get_result value st value'.
Proof.
  intros Hu Ht. unfold Version_Get, all_levels. destruct (LookupKey_views u s Hu) as (_ & -> & ->).
  apply (search_levels_ok (Z.to_nat kNumLevels)); [done|done|done|]. intros l f Hl. lia.
Qed.
End Lookups.

(** ** Concrete versions *)

(** A table cache over files of one entry each. *)
Definition demo_entries : list (Z * ientry) :=
  [(5, (MkParsedInternalKey (str "ant") 9 kTypeDeletion, str ""));
   (4, (MkParsedInternalKey (str "ant") 7 kTypeValue, str "new"));
   (3, (MkParsedInternalKey (str "ant") 2 kTypeValue, str "old"));
   (2, (MkParsedInternalKey (str "bee") 3 kTypeValue, str "b"))].

Definition demo_entry (num : Z) : option ientry := snd <$> find (fun p => p.1 =? num) demo_entries.

Definition demo_get (num : Z) (k : bytes) : option entry :=
  match demo_entry num with
  | Some e => if bool_decide (Internal_Compare BytewiseComparatorImpl (AppendInternalKey [] e.1) k = Lt)
              then None else Some (entry_of e)
  | None => None
  end.

#[export] Instance demo_source : TableSource unit := {|
  tget t num size k := Some (OK, demo_get num k, t)
|}.

Definition demo_serves (num size : Z) (es : list ientry) : Prop :=
  exists e, demo_entry num = Some e /\ es = [e] /\ 0 <= sequence e.1 <= kMaxSequenceNumber.

#[export] Instance demo_source_ok :
  TableSourceOk unit BytewiseComparatorImpl (fun _ => True) demo_serves.
Proof.
  split. intros t num size es u s _ (e & He & -> & Hse) Hs. eexists _, t. split; [done|]. split; [done|].
  unfold demo_get. rewrite He. case_bool_decide as Hc.
  - right. split; [|done]. intros e' ->%list_elem_of_singleton Hvis. by apply (visible_seek (ucmp := BytewiseComparatorImpl) u s Hs e).
  - unfold seek_key in Hc. rewrite Internal_Compare_Append in Hc by done. unfold entry_compare in Hc.
    cbn [userkey sequence type] in Hc.
    destruct (Compare BytewiseComparatorImpl (userkey e.1) u) eqn:Hu; [|done|].
    + left. exists e. split; [done|]. split; [set_solver|]. split; [|by intros e' ->%list_elem_of_singleton].
      split; [done|]. destruct (Z.compare_spec s (sequence e.1)); [lia|done|lia].
    + right. split; [by intros e' ->%list_elem_of_singleton [Hv _]; rewrite Hu in Hv|].
      intros x [= <-]. exists e. rewrite Hu. split; [done|]. split; [set_solver|done].
Qed.

Definition demo_file (num : Z) : file :=
  match demo_entry num with
  | Some e => let k := AppendInternalKey [] e.1 in MkFileMetaData 100 num 1000 k k
  | None => FileMetaData_make 0 0 [] []
  end.

Definition demo_data (f : file) : list ientry := option_list (demo_entry (number f)).

Definition demo_version : Version :=
  set_files Version_make [[demo_file 4; demo_file 5]; [demo_file 3; demo_file 2]; []; []; []; []; []].

Lemma demo_file_holds num e :
  demo_entry num = Some e -> 0 <= sequence e.1 <= kMaxSequenceNumber ->
  file_holds (ucmp := BytewiseComparatorImpl) (serves := demo_serves) demo_data (demo_file num).
Proof.
  intros He Hse. assert (demo_data (demo_file num) = [e]) as Hd by (unfold demo_data, demo_file; rewrite He; cbn [number]; by rewrite He).
  assert (ikey_ok (AppendInternalKey [] e.1)) as Hk by (by exists e.1).
  assert (Internal_Compare BytewiseComparatorImpl (AppendInternalKey [] e.1) (AppendInternalKey [] e.1) <> Gt) as Hrefl
    by (by rewrite Internal_refl).
  split.
  - unfold demo_file. rewrite He. by split.
  - rewrite Hd. unfold demo_file. rewrite He. by exists e.
  - intros e'. rewrite Hd. intros ->%list_elem_of_singleton. unfold demo_file. by rewrite He.
  - exists e. rewrite Hd. split; [set_solver|]. unfold demo_file. by rewrite He.
Qed.

Lemma demo_level level f : 0 <= level < kNumLevels -> f ∈ level_files demo_version level ->
  (level = 0 /\ (f = demo_file 4 \/ f = demo_file 5)) \/ (level = 1 /\ (f = demo_file 3 \/ f = demo_file 2)).
Proof.
  unfold kNumLevels. intros Hl Hf.
  assert (level = 0 \/ level = 1 \/ 2 <= level <= 6) as [->|[->|Hhi]] by lia.
  - left. split; [done|]. change (f ∈ [demo_file 4; demo_file 5]) in Hf. set_solver.
  - right. split; [done|]. change (f ∈ [demo_file 3; demo_file 2]) in Hf. set_solver.
  - exfalso. assert (level_files demo_version level = []) as Hn; [|rewrite Hn in Hf; set_solver].
    assert (level = 2 \/ level = 3 \/ level = 4 \/ level = 5 \/ level = 6) as [->|[->|[->|[->| ->]]]] by lia; done.
Qed.

Lemma demo_level_ok level :
  0 < level < kNumLevels -> level_ok (ucmp := BytewiseComparatorImpl) (level_files demo_version level).
Proof.
  unfold kNumLevels. intros Hl. assert (level = 1 \/ level = 2 \/ level = 3 \/ level = 4 \/ level = 5 \/ level = 6)
    as [->|[->|[->|[->|[->| ->]]]]] by lia;
    [|split; [constructor|constructor|done]..].
  change (level_files demo_version 1) with [demo_file 3; demo_file 2]. split; [|by repeat constructor|done].
  repeat constructor; try done; eexists; (split; [|reflexivity]); vm_compute; split; discriminate.
Qed.

Lemma demo_version_ok :
  version_ok (ucmp := BytewiseComparatorImpl) (serves := demo_serves) demo_version demo_data.
Proof.
  split.
  - intros level f Hl Hf.
    destruct (demo_level level f Hl Hf) as [[_ [-> | ->]]|[_ [-> | ->]]]; eapply demo_file_holds;
      (reflexivity || (vm_compute; split; discriminate)).
  - apply demo_level_ok.
  - apply (NoDup_ListNoDup [4; 5]). repeat constructor; cbn; lia.
  - intros f g Hf Hg. destruct (demo_level 0 f) as [[_ [-> | ->]]|[? _]]; [done|done| | |done];
      (destruct (demo_level 0 g) as [[_ [-> | ->]]|[? _]]; [done|done| | |done]);
      intros Hn; cbn in Hn; try lia;
      intros a b ->%list_elem_of_singleton ->%list_elem_of_singleton _; cbn; lia.
  - intros level level' f g Hlt Hl' Hf Hg.
    destruct (demo_level level f) as [[-> Hf']|[-> Hf']]; [lia|done| |];
      (destruct (demo_level level' g) as [[-> Hg']|[-> Hg']]; [lia|done| |]); try lia.
    intros a b Ha Hb Heq. destruct Hf' as [-> | ->], Hg' as [-> | ->];
      apply list_elem_of_singleton in Ha as ->; apply list_elem_of_singleton in Hb as ->; (lia || (cbn; lia) || done).
Qed.

(** At sequence number 8 the newer of the two values in level 0 and level 1 is found. *)
Lemma version_get_witness :
  exists st value' stats t',
    Version_Get BytewiseComparatorImpl demo_version (LookupKey_make (str "ant") 8) [] tt = Some (st, value', stats, t') /\
    (st, value') = (OK, str "new") /\
    get_result (ucmp := BytewiseComparatorImpl) demo_version demo_data (str "ant") 8 [] st value'.
Proof.
  destruct (version_get (ucmp := BytewiseComparatorImpl) (good := fun _ : unit => True) (serves := demo_serves)
    demo_version demo_data demo_version_ok (str "ant") 8) with (value := @nil Byte.byte) (t := tt)
    as (st & value' & stats & t' & Hget & _ & Hr).
  - vm_compute. split; discriminate.
  - vm_compute. split; [discriminate|reflexivity].
  - done.
  - exists st, value', stats, t'. split; [exact Hget|]. split; [|exact Hr].
    vm_compute in Hget. injection Hget as <- <- _ _. reflexivity.
Defined.

(** The four files of a level 0 that chain into each other are all found from the first. *)
Definition chain_file (num : Z) (a b : string) : file :=
  FileMetaData_make num 10 (InternalKey_make (str a) 5 kTypeValue) (InternalKey_make (str b) 5 kTypeValue).
Definition chain_version : Version :=
  set_files Version_make ([chain_file 1 "a" "c"; chain_file 2 "m" "p"; chain_file 3 "b" "e"; chain_file 4 "x" "z"]
                          :: replicate 6 []).

(** ** What a compaction and a flush take from these searches *)

(** C31: Collecting overlapping inputs terminates and is right.  For every level, range and
    version, [GetOverlappingInputs] ends with the files that meet a range: in a level above
    0 the given range of user keys; in level 0, where files overlap and each one that
    sticks out starts the search again, the least range around the given one that
    contains every file it meets. *)
Theorem overlapping_inputs {ucmp} {Hok : ComparatorOk ucmp (fun _ => True)} v level begin end_ :
  0 <= level < kNumLevels ->
  let b := FUserKey <$> begin in
  let e := FUserKey <$> end_ in
  exists b' e' inputs, GetOverlappingInputs ucmp v level begin end_ = Some inputs /\
    inputs = filter (meets (ucmp := ucmp) b' e') (level_files v level) /\
    if level =? 0 then least_closed (ucmp := ucmp) (level_files v level) b e b' e' else b' = b /\ e' = e.
Proof.
  intros Hl b e. destruct (GetOverlappingInputs_ok v level begin end_ Hl) as (b' & e' & Hg & Hc).
  by eexists b', e', _.
Qed.

Lemma overlapping_inputs_witness :
  exists inputs, GetOverlappingInputs BytewiseComparatorImpl chain_version 0
      (Some (InternalKey_make (str "a") 1 kTypeValue)) (Some (InternalKey_make (str "a") 1 kTypeValue)) = Some inputs /\
    map number inputs = [1; 3].
Proof.
  destruct (overlapping_inputs (ucmp := BytewiseComparatorImpl) chain_version 0
    (Some (InternalKey_make (str "a") 1 kTypeValue)) (Some (InternalKey_make (str "a") 1 kTypeValue)))
    as (b' & e' & inputs & Hg & _); [done|].
  exists inputs. split; [exact Hg|]. vm_compute in Hg. injection Hg as <-. reflexivity.
Defined.

(** A flushed memtable never goes below files that overlap it.  When the levels above
    0 are disjoint and in order, [PickLevelForMemTableOutput] returns a level of at most
    [kMaxMemCompactLevel], and if it is not level 0, no file of that level or of a level
    above it on the way of a lookup has a user key in the memtable's range: putting the
    new file there keeps a lookup from finding an older entry first. *)
Theorem memtable_output_level {ucmp} {Hok : ComparatorOk ucmp (fun _ => True)} v maxfilesize s l :
  (forall j, 0 < j < kNumLevels -> level_ok (ucmp := ucmp) (level_files v j)) ->
  exists L, PickLevelForMemTableOutput ucmp v maxfilesize s l = Some L /\ 0 <= L <= kMaxMemCompactLevel /\
    (0 < L -> forall j f, 0 <= j <= L -> f ∈ level_files v j -> ~ overlaps (ucmp := ucmp) (Some s) (Some l) f).
Proof.
  intros Hv. destruct (PickLevel_ok v maxfilesize s l Hv) as (L & HL & Hr & Hno). exists L. split; [done|]. split; [done|].
  intros Hpos j f Hj Hf Hov. apply (Hno Hpos j Hj). apply Exists_exists. eauto.
Qed.

Lemma memtable_output_level_witness :
  (exists L, PickLevelForMemTableOutput BytewiseComparatorImpl demo_version 1000 (str "bat") (str "bug") = Some L /\ L = 0) /\
  (exists L, PickLevelForMemTableOutput BytewiseComparatorImpl demo_version 1000 (str "cat") (str "dog") = Some L /\ L = 2).
Proof.
  split.
  - destruct (memtable_output_level (ucmp := BytewiseComparatorImpl) demo_version 1000 (str "bat") (str "bug") demo_level_ok)
      as (L & HL & _). exists L. split; [exact HL|]. vm_compute in HL. injection HL as <-. reflexivity.
  - destruct (memtable_output_level (ucmp := BytewiseComparatorImpl) demo_version 1000 (str "cat") (str "dog") demo_level_ok)
      as (L & HL & _). exists L. split; [exact HL|]. vm_compute in HL. injection HL as <-. reflexivity.
Defined.
