(* ===== verification/TableCache.v ===== *)
(** The table cache (redisdb/db/tablecache.h, tablecache.cc).

    [NewRandomAccessFile] of the environment is a parameter: what a name opens to.  A
    cached [TableAndFile] is its table, which holds the file. *)
From Stdlib Require Import Sorted.
From stdpp Require Import sorting sets.
From S2P Require Import Prelude Coding Status Env DbFormat Block TableFormat LruCache Iterators Table VersionEdit FileName Version.
Local Open Scope Z_scope.

Section TableCache.
Context (snappy_length : bytes -> option Z) (snappy_uncompress : bytes -> option bytes).
Context {G : Type} `{RandomFile G} (addr : Z).
(** [options] and [dbname] of the class. *)
Context (c : Comparator) (paranoidchecks : bool) (dbname : bytes).
Context (NewRandomAccessFile : bytes -> Status * option G).
Context {C : Type} `{Cache C (Table G)} {K : Type} `{Cache K Block}.

Record TableCache := MkTableCache { tcache : C; blockcache : option K }.

(** The handle found or inserted is given as its table. *)
Definition FindTable (fileNumber filesize : Z) (tc : TableCache) : option (Status * option (Table G) * TableCache) :=
  let key := EncodeFixed64 fileNumber in
  match clookup (tcache tc) key with
  | Some table => Some (OK, Some table, tc)
  | None =>
      let? fname := TableFileName dbname fileNumber in
      let '(s, file) := NewRandomAccessFile fname in
      let? (s, table) :=
        if ok s then
          let? file := file in
          Some (Table_Open snappy_length snappy_uncompress addr paranoidchecks file filesize)
        else Some (s, None) in
      if negb (ok s) then
        match table with Some _ => None | None => Some (s, None, tc) end
      else
        let? table := table in
        let? cache := cinsert (tcache tc) key table 1 in
        Some (s, Some table, MkTableCache cache (blockcache tc))
  end.

Definition evict (fileNumber : Z) (tc : TableCache) : option TableCache :=
  let? cache := cerase (tcache tc) (EncodeFixed64 fileNumber) in Some (MkTableCache cache (blockcache tc)).

(** [TableCache::Get]: the entry given to the callback.  The handle is not released. *)
Definition cache_Get (options : ReadOptions) (filenumber filesize : Z) (k : bytes) (tc : TableCache)
    : option (Status * option entry * TableCache) :=
  let? (s, table, tc) := FindTable filenumber filesize tc in
  if ok s then
    let? table := table in
    let? (s, found, bc) :=
      InternalGet snappy_length snappy_uncompress addr c (blockcache tc) table options k in
    Some (s, found, MkTableCache (tcache tc) bc)
  else Some (s, None, tc).

(** The iterator, over the block cache, with its table and the key its cleanup gives back,
    or the status of an error iterator.  The parameter [tableptr] of the code is passed by value and its
    assignment has no effect. *)
Definition cache_NewIterator (filenumber filesize : Z) (tc : TableCache)
    : option ((TableIterator * Table G * bytes + Status) * TableCache) :=
  let? (s, table, tc) := FindTable filenumber filesize tc in
  if negb (ok s) then Some (inr s, tc)
  else
    let? table := table in
    let? result := Table_NewIterator c table (blockcache tc) in
    Some (inl (result, table, EncodeFixed64 filenumber), tc).

(** [UnrefEntry]: the cleanup of the iterator. *)
Definition UnrefEntry (key : bytes) (tc : TableCache) : option TableCache :=
  let? cache := crelease (tcache tc) key in Some (MkTableCache cache (blockcache tc)).

Definition GetFileIterator (filevalue : bytes) (tc : TableCache)
    : option ((TableIterator * Table G * bytes + Status) * TableCache) :=
  if negb (length filevalue =? 16)%nat
  then Some (inr (Corruption (str "FileReader invoked with unexpected value") []), tc)
  else cache_NewIterator (DecodeFixed64 filevalue) (DecodeFixed64 (drop 8 filevalue)) tc.
End TableCache.
Arguments TableCache : clear implicits.

(** ** The contract *)

Section Contract.
Context {length_of : bytes -> option Z} {uncompress : bytes -> option bytes}.
Context {G : Type} `{RandomFileOk G} (addr : Z) (paranoid : bool) (dbname : bytes).
Context (open_file : bytes -> Status * option G).
Context {C : Type} `{CacheOk C (Table G) cvalid} {K : Type} `{CacheOk K Block kvalid}.

Abbreviation icmp := (InternalKeyComparator BytewiseComparatorImpl).
Abbreviation Find := (FindTable length_of uncompress addr paranoid dbname open_file (C := C) (K := K)).

(** What [num] opens to: [g], a finished table of the entries [es]. *)
Record file_of (num : Z) (es : list ientry) (g : G) blocks idx meta ih : Prop := {
  fo_number : 0 < num < 2 ^ 64;
  fo_open name : TableFileName dbname num = Some name -> open_file name = (OK, Some g);
  fo_table : table_file (c := icmp) (length_of := length_of) (uncompress := uncompress)
    (map entry_of es) (rcontents g) blocks idx meta ih;
  fo_sorted : StronglySorted (key_lt (c := icmp)) (map entry_of es);
  fo_sequences : Forall (fun e => 0 <= sequence e.1 <= kMaxSequenceNumber) es
}.

Definition serves (num size : Z) (es : list ientry) : Prop :=
  exists g blocks idx meta ih, file_of num es g blocks idx meta ih /\ size = len (rcontents g).

(** Whatever the block cache holds under the offset of a data block of a file that can be
    read is that block. *)
Definition blocks_agree (bc : option K) : Prop := forall options num es g blocks idx meta ih,
  file_of num es g blocks idx meta ih ->
  cache_agrees (length_of := length_of) (uncompress := uncompress) (valid := kvalid) addr options g blocks bc.

Definition blocks_valid (bc : option K) : Prop := match bc with Some k => kvalid k | None => True end.

(** [t] is what opening file [num] gives. *)
Definition opened (num : Z) (t : Table G) : Prop :=
  exists name g, TableFileName dbname num = Some name /\ open_file name = (OK, Some g) /\
    Table_Open length_of uncompress addr paranoid g (len (rcontents g)) = (OK, Some t).

Record cache_good (tc : TableCache C K) : Prop := {
  cg_valid : cvalid (tcache tc);
  cg_tables num t : 0 < num < 2 ^ 64 -> clookup (tcache tc) (EncodeFixed64 num) = Some t -> opened num t;
  cg_valid_blocks : blocks_valid (blockcache tc);
  cg_blocks : blocks_agree (blockcache tc)
}.

Lemma no_blocks_good bc : no_blocks (valid := kvalid) bc -> blocks_valid bc /\ blocks_agree bc.
Proof. intros Hbc. split; [by destruct bc; [apply Hbc|]|]. intros options num es g blocks idx meta ih _. by apply no_blocks_agree. Qed.

Lemma no_more_agree bc w : blocks_agree bc -> holds_no_more (valid := kvalid) bc w -> blocks_valid w /\ blocks_agree w.
Proof.
  intros Hbc Hw. split; [by destruct bc, w; [apply Hw|..]|]. intros options num es g blocks idx meta ih Hf.
  apply (holds_no_more_agrees addr options g blocks bc w); [|done]. by eapply Hbc.
Qed.

Lemma TableFileName_Some num : 0 < num -> TableFileName dbname num = Some (makeFileName dbname num (str "ldb")).
Proof. intros Hn. unfold TableFileName, numbered. by rewrite (proj2 (Z.ltb_lt _ _)). Qed.

Lemma entry_of_sorted num es g blocks idx meta ih :
  file_of num es g blocks idx meta ih -> all_sorted (c := icmp) (dom := internal_dom) (map entry_of es).
Proof.
  intros Hf. split; [apply Hf|]. apply Forall_forall. intros x [e [<- _]]%list_elem_of_In%in_map_iff.
  unfold entry_of. cbn [fst]. rewrite length_AppendInternalKey. lia.
Qed.

(** Opening a served file gives its table. *)
Lemma opened_table num es g blocks idx meta ih :
  file_of num es g blocks idx meta ih ->
  exists t, Table_Open length_of uncompress addr paranoid g (len (rcontents g)) = (OK, Some t) /\
    is_table g idx meta t /\ forall t', opened num t' -> t' = t.
Proof.
  intros Hf. destruct (Table_Open_ok (c := icmp) addr paranoid _ g blocks idx meta ih (fo_table _ _ _ _ _ _ _ Hf))
    as (t & raw & Ho & H1' & H2' & H3' & Hraw).
  exists t. split; [done|]. split; [split; [done|]; split; [done|]; by exists raw|].
  intros t' (name & g' & Hn & Hg & Ho'). rewrite (fo_open _ _ _ _ _ _ _ Hf name Hn) in Hg. injection Hg as <-.
  congruence.
Qed.

(** A served file is found, and the cache keeps its invariant. *)
Lemma FindTable_ok num es g blocks idx meta ih tc :
  cache_good tc -> file_of num es g blocks idx meta ih ->
  exists t tc', Find num (len (rcontents g)) tc = Some (OK, Some t, tc') /\ cache_good tc' /\
    blockcache tc' = blockcache tc /\ is_table g idx meta t.
Proof.
  intros Hg Hf. destruct (opened_table _ _ _ _ _ _ _ Hf) as (t & Ho & Ht & Huniq). pose proof (fo_number _ _ _ _ _ _ _ Hf) as Hnum.
  unfold FindTable. destruct (clookup (tcache tc) (EncodeFixed64 num)) as [t'|] eqn:Hl.
  { rewrite (Huniq t' (cg_tables _ Hg num t' Hnum Hl)). by exists t, tc. }
  rewrite TableFileName_Some by lia. pose proof (TableFileName_Some num ltac:(lia)) as Hname.
  rewrite (fo_open _ _ _ _ _ _ _ Hf _ Hname). cbn [ok OK negb]. rewrite Ho. cbn [ok OK negb].
  destruct (cinsert_ok (tcache tc) (EncodeFixed64 num) t 1 (cg_valid _ Hg) (length_EncodeFixed64 _) ltac:(lia) Hl)
    as (c' & -> & Hv & Hnew).
  eexists t, _. split; [done|]. split; [|done]. split; [done| |apply Hg|apply Hg].
  intros num' t' Hnum' Hl'. destruct (Hnew _ _ (length_EncodeFixed64 _) Hl') as [[He ->]|Hold].
  - apply EncodeFixed64_inj in He as ->; [|lia..]. by exists (makeFileName dbname num (str "ldb")), g; rewrite (fo_open _ _ _ _ _ _ _ Hf _ Hname).
  - by apply (cg_tables _ Hg).
Qed.

(** A lookup in a table gives back the block it read. *)
Lemma InternalGet_blocks t bc options k s found bc' :
  blocks_valid bc -> InternalGet length_of uncompress addr icmp bc t options k = Some (s, found, bc') ->
  holds_no_more (valid := kvalid) bc bc'.
Proof.
  intros Hbc. assert (holds_no_more (valid := kvalid) bc bc) as Hsame by (by destruct bc).
  unfold InternalGet. destruct (iterSeek _ k) as [it|]; [|done]. cbn [mbind option_bind].
  destruct (iterValid it); [|by intros [= _ _ <-]].
  destruct (BlockReader _ _ _ _ _ _ _ _) as [[x w]|] eqn:Hread; [|done]. cbn [mbind option_bind].
  destruct (iterSeek x k) as [y|] eqn:Hy; [|done]. cbn [mbind option_bind].
  assert (registered y = registered x) as Hreg.
  { cbn [iterSeek BlockIter_iter] in Hy. unfold on_blockiter in Hy. destruct (iterSeek (blockiter x) k); [|done]. by injection Hy as <-. }
  assert ((w = bc /\ (forall key, registered x = Some key -> length key = 8%nat)) \/
    exists c0 cache key, bc = Some c0 /\ w = Some cache /\ registered x = Some key /\ length key = 8%nat /\ kvalid cache /\
      forall key' v', length key' = 8%nat -> clookup cache key' = Some v' -> key' = key \/ clookup c0 key' = Some v') as Hw.
  { revert Hread. unfold BlockReader. destruct (BlockHandle_DecodeFrom _ _) as [[s1 h] ?].
    destruct (ok s1); [|intros [= <- <-]; by left].
    destruct bc as [c0|]; [|destruct (ReadBlock _ _ _ _ _ _) as [s2 ?]; destruct (ok s2); intros [= <- <-]; by left].
    destruct (clookup c0 _) as [b|] eqn:Hb.
    { intros [= <- <-]. left. split; [done|]. intros key [= <-]. apply length_EncodeFixed64. }
    destruct (ReadBlock _ _ _ _ _ _) as [s2 contents]. destruct (ok s2); [|intros [= <- <-]; by left].
    destruct (_ && _); [|intros [= <- <-]; by left].
    destruct (cinsert_ok c0 (EncodeFixed64 (GetOffset h)) (Block_make (bdata contents)) (Block.size (Block_make (bdata contents)))
      Hbc (length_EncodeFixed64 _)) as (k1 & -> & Hv1 & Hnew); [apply Block_size_nonneg|done|].
    intros [= <- <-]. right. exists c0, k1, (EncodeFixed64 (GetOffset h)). split_and!; [done..|apply length_EncodeFixed64|done|].
    intros key' v' Hk' Hl'. destruct (Hnew _ _ Hk' Hl') as [[-> _]|Hold]; [by left|by right]. }
  unfold run_cleanup. rewrite Hreg. destruct Hw as [[-> Hkey]|(c0 & cache & key & -> & -> & Hx & Hkey & Hvc & Hnew)].
  - destruct (registered x) as [key|]; [|by intros [= _ _ <-]]. destruct bc as [c0|]; [|by intros [= _ _ <-]].
    destruct (crelease_ok c0 key Hbc (Hkey key eq_refl)) as (k2 & -> & Hv2 & _ & Hless). by intros [= _ _ <-].
  - rewrite Hx. destruct (crelease_ok cache key Hvc Hkey) as (k2 & -> & Hv2 & Hgone & Hless). intros [= _ _ <-].
    split; [done|]. intros key' v' Hk' Hl'. destruct (Hnew _ _ Hk' (Hless _ _ Hk' Hl')) as [->|Hold]; [by rewrite Hgone in Hl'|done].
Qed.

(** What the table says of a seek key is an answer. *)
Lemma get_spec_answers num es g blocks idx meta ih u s found :
  file_of num es g blocks idx meta ih -> 0 <= s <= kMaxSequenceNumber ->
  get_spec (c := icmp) (map entry_of es) (seek_key u s) found -> answers BytewiseComparatorImpl es u s found.
Proof.
  intros Hf Hs Hget. pose proof (table_newest es u s found (fo_sequences _ _ _ _ _ _ _ Hf) Hs (fo_sorted _ _ _ _ _ _ _ Hf) Hget) as Hn.
  assert (forall e, visible BytewiseComparatorImpl u s e <-> userkey e.1 = u /\ sequence e.1 <= s) as Hvis.
  { intros e. unfold visible. cbn [Compare BytewiseComparatorImpl]. split; intros [Hc Hle]; (split; [|done]).
    - by apply compare_eq.
    - rewrite Hc. apply compare_refl. }
  cbn in Hn. destruct found as [x|].
  - destruct Hn as (e & -> & He & Hn). case_decide as Hu.
    + destruct Hn as [Hle Hmax]. left. exists e. split; [done|]. split; [done|]. split; [by apply Hvis|].
      intros e' He' [Hu' Hle']%Hvis. by apply Hmax.
    + right. split; [intros e' He' [Hu' Hle']%Hvis; by apply (Hn e')|].
      intros x [= <-]. exists e. split; [done|]. split; [done|]. by intros Hc%compare_eq.
  - right. split; [intros e' He' [Hu' Hle']%Hvis; by apply (Hn e')|done].
Qed.

#[export] Instance cache_source options : TableSource (TableCache C K) := {|
  tget tc num size k := cache_Get length_of uncompress addr icmp paranoid dbname open_file options num size k tc
|}.

Lemma cache_Get_ok options tc num size es u s :
  cache_good tc -> serves num size es -> 0 <= s <= kMaxSequenceNumber ->
  exists found tc', cache_Get length_of uncompress addr icmp paranoid dbname open_file options num size (seek_key u s) tc =
    Some (OK, found, tc') /\ cache_good tc' /\ answers BytewiseComparatorImpl es u s found.
Proof.
  intros Hg (g & blocks & idx & meta & ih & Hf & ->) Hs. unfold cache_Get.
  destruct (FindTable_ok _ _ _ _ _ _ _ tc Hg Hf) as (t & tc1 & -> & Hg1 & Hb1 & Ht). cbn [ok OK].
  destruct (InternalGet_ok (c := icmp) (dom := internal_dom) (valid := kvalid) addr options (map entry_of es) g blocks idx meta ih
    (fo_table _ _ _ _ _ _ _ Hf) (entry_of_sorted _ _ _ _ _ _ _ Hf) t (blockcache tc1) (seek_key u s)) as (found & bc' & Hi & Hget & _).
  - done.
  - by eapply (cg_blocks _ Hg1).
  - unfold seek_key. rewrite length_AppendInternalKey. lia.
  - rewrite Hi. eexists _, _. split; [done|]. split; [|by apply (get_spec_answers num es g blocks idx meta ih)].
    destruct (no_more_agree (blockcache tc1) bc' (cg_blocks _ Hg1)) as [Hv Hag]; [|by split; [apply Hg1..| |]].
    eapply InternalGet_blocks; [apply Hg1|done].
Qed.

#[export] Instance cache_source_ok options :
  @TableSourceOk (TableCache C K) (cache_source options) BytewiseComparatorImpl cache_good serves.
Proof. constructor. apply cache_Get_ok. Qed.
(** An iterator that has not moved holds nothing of the block cache. *)
Lemma new_iterator_forgets t bc c (ti : TableIterator) :
  Table_NewIterator (G := G) c t bc = Some ti -> forget_data (run_cleanup (K := K)) ti = Some bc.
Proof. unfold Table_NewIterator, TwoLevelIterator_make, Set_iter, Update. cbn. by intros [= <-]. Qed.

(** No data block of the file goes into the block cache. *)
Definition kept_out (options : ReadOptions) (num : Z) (es : list ientry) : Prop := forall g blocks idx meta ih,
  file_of num es g blocks idx meta ih ->
  keeps_out (length_of := length_of) (uncompress := uncompress) addr options g blocks.

(** The iterator of a served file. *)
Lemma GetFileIterator_ok options tc num size es fuel :
  cache_good tc -> serves num size es -> (length es + 2 <= fuel)%nat ->
  exists it table tc' (at_ : nat -> TableIterator -> Prop),
    GetFileIterator length_of uncompress addr icmp paranoid dbname open_file (EncodeFixed64 num ++ EncodeFixed64 size) tc =
      Some (inl (it, table, EncodeFixed64 num), tc') /\ cache_good tc' /\ at_ (length es) it /\
    @iter_refines _ (Table_iter length_of uncompress addr icmp table options fuel) icmp internal_dom
      (map entry_of es) at_ /\
    forall i x, at_ i x -> exists bc, forget_data run_cleanup x = Some bc /\
      (kept_out options num es -> holds_no_more (valid := kvalid) (blockcache tc') bc).
Proof.
  intros Hg (g & blocks & idx & meta & ih & Hf & ->) Hfuel. unfold GetFileIterator.
  pose proof (fo_number _ _ _ _ _ _ _ Hf) as Hnum. pose proof (tf_size _ _ _ _ _ _ (fo_table _ _ _ _ _ _ _ Hf)) as Hsz.
  rewrite length_app, !length_EncodeFixed64. cbn [Nat.add Nat.eqb negb].
  rewrite DecodeFixed64_app, drop_app_length' by (by rewrite length_EncodeFixed64).
  rewrite <- (app_nil_r (EncodeFixed64 (len _))), DecodeFixed64_app, !u64_small by lia.
  unfold cache_NewIterator. destruct (FindTable_ok _ _ _ _ _ _ _ tc Hg Hf) as (t & tc1 & -> & Hg1 & Hb1 & Ht). cbn [ok OK negb].
  pose proof (index_le_entries (c := icmp) _ g blocks idx meta ih (fo_table _ _ _ _ _ _ _ Hf)) as Hidx. rewrite length_map in Hidx.
  destruct (table_iter_agrees (c := icmp) (dom := internal_dom) (valid := kvalid) addr options (map entry_of es) g blocks idx meta ih
    (fo_table _ _ _ _ _ _ _ Hf) (entry_of_sorted _ _ _ _ _ _ _ Hf) t fuel (blockcache tc1) Ht) as (ti & at_ & -> & Hat & Hir & Hleft);
    [lia|by eapply (cg_blocks _ Hg1)|].
  rewrite length_map in Hat. exists ti, t, tc1, at_. do 4 (split; [done|]). intros i x Hx.
  destruct (Hleft i x Hx) as (_ & w & Hfw & _ & Hw). exists w. split; [done|]. intros Hout. by eapply Hw, Hout.
Qed.

Lemma forget_ok tc num (del : C -> bytes -> option C) :
  (forall c key, cvalid c -> length key = 8%nat ->
    exists c', del c key = Some c' /\ cvalid c' /\ clookup c' key = None /\
      forall key' v', length key' = 8%nat -> clookup c' key' = Some v' -> clookup c key' = Some v') ->
  cache_good tc ->
  exists c', del (tcache tc) (EncodeFixed64 num) = Some c' /\ cache_good (MkTableCache c' (blockcache tc)) /\
    clookup c' (EncodeFixed64 num) = None.
Proof.
  intros Hdel Hg. destruct (Hdel (tcache tc) (EncodeFixed64 num) (cg_valid _ Hg) (length_EncodeFixed64 _))
    as (c' & -> & Hv & Hn & Hless).
  exists c'. split; [done|]. split; [|done]. split; [done| |apply Hg..].
  intros n t Hr Hl. apply (cg_tables _ Hg n t Hr). by apply Hless; [apply length_EncodeFixed64|].
Qed.

(** C20: The table cache keeps the contract that versions and iterators rely on.  In a
    cache whose tables are what their files open to, with a block cache that agrees with
    the files (it is empty, or whatever it holds under an offset at which a readable file
    has a data block is that block; the files share it, keyed by offset alone), and for a
    file that opens to a finished table and whose reads succeed: a lookup of any user key
    at any sequence number succeeds with an answer of the file's entries, and keeps all
    that; the iterator made from the file's 16-byte value reads its blocks through the
    block cache and walks exactly the file's entries, and destroying it at any point and
    releasing the table is safe, and keeps all that when the file's blocks are not put in
    the block cache (the file is mapped and not compressed, or [fillcache] is off);
    evicting the file forgets its table.  When the environment cannot open a file, its
    status is returned and nothing is cached. *)
Theorem table_cache_serves options tc num size es :
  cache_good tc -> serves num size es ->
  (forall u s, 0 <= s <= kMaxSequenceNumber ->
     exists found tc', cache_Get length_of uncompress addr icmp paranoid dbname open_file options num size (seek_key u s) tc =
       Some (OK, found, tc') /\ cache_good tc' /\ answers BytewiseComparatorImpl es u s found) /\
  (forall fuel, (length es + 2 <= fuel)%nat ->
     exists it table tc' (at_ : nat -> TableIterator -> Prop),
       GetFileIterator length_of uncompress addr icmp paranoid dbname open_file (EncodeFixed64 num ++ EncodeFixed64 size) tc =
         Some (inl (it, table, EncodeFixed64 num), tc') /\ cache_good tc' /\ at_ (length es) it /\
       @iter_refines _ (Table_iter length_of uncompress addr icmp table options fuel) icmp internal_dom
         (map entry_of es) at_ /\
       forall i x, at_ i x -> exists bc tc'', forget_data run_cleanup x = Some bc /\
         UnrefEntry (G := G) (EncodeFixed64 num) (MkTableCache (tcache tc') bc) = Some tc'' /\
         (kept_out options num es -> cache_good tc'')) /\
  (exists tc', evict (G := G) num tc = Some tc' /\ cache_good tc' /\ clookup (tcache tc') (EncodeFixed64 num) = None) /\
  (forall n sz name s o, clookup (tcache tc) (EncodeFixed64 n) = None -> TableFileName dbname n = Some name ->
     open_file name = (s, o) -> ok s = false -> Find n sz tc = Some (s, None, tc)).
Proof.
  intros Hg Hs. split; [intros; by apply cache_Get_ok|]. split; [|split].
  - intros fuel Hfuel. destruct (GetFileIterator_ok options tc num size es fuel Hg Hs Hfuel)
      as (it & table & tc' & at_ & Hi & Hg' & Hat & Hir & Hleft).
    exists it, table, tc', at_. do 4 (split; [done|]). intros i x Hx. destruct (Hleft i x Hx) as (bc & Hfd & Hbc).
    destruct (forget_ok tc' num crelease crelease_ok Hg') as (c' & Hr & Hg'' & _).
    exists bc, (MkTableCache c' bc). split; [done|]. unfold UnrefEntry. cbn [tcache blockcache]. rewrite Hr. split; [done|].
    intros Hout. destruct (no_more_agree (blockcache tc') bc (cg_blocks _ Hg') (Hbc Hout)) as [Hv Hag]. by split; [apply Hg''..| |].
  - destruct (forget_ok tc num cerase cerase_ok Hg) as (c' & Hr & Hg' & Hn). unfold evict. rewrite Hr. by eexists.
  - intros n sz name s o Hl Hname Ho Hs'. unfold FindTable. by rewrite Hl, Hname, Ho, Hs'; cbn; rewrite Hs'.
Qed.
End Contract.

(** ** A concrete cache: one table in a file *)

#[local] Instance demo_append : AppendFile WritableFile := WritableFile_append (fun _ => []).

Definition demo_built : option bytes :=
  let? b := Add_all (c := InternalKeyComparator BytewiseComparatorImpl)
    (compress := run_compress) 2 16 kSnappyCompression 0 (TableBuilder_make empty_file) (map entry_of demo_internal) in
  let? b := TableBuilder_Finish run_compress
    (InternalKeyComparator BytewiseComparatorImpl) kSnappyCompression 0 b in
  Some (contents (tfile b)).

Definition demo_bytes : bytes := default [] demo_built.
Definition demo_fs (data name : bytes) : Status * option MmapFile := (OK, Some (MkMmapFile name data)).
Definition demo_open : bytes -> Status * option MmapFile := demo_fs demo_bytes.

Abbreviation DemoCache := (TableCache (ShardedLRUCache (V := Table MmapFile)) (ShardedLRUCache (V := Block))).
Definition demo_cache : DemoCache :=
  MkTableCache (ShardedLRUCache_make 990) (Some (ShardedLRUCache_make (8 * 2 ^ 20))).

#[local] Instance demo_random : RandomFile MmapFile := MmapFile_random (fun _ => []).
#[local] Instance demo_random_ok : RandomFileOk MmapFile := MmapFile_ok (fun _ => []).
#[local] Instance demo_tables : Cache (ShardedLRUCache (V := Table MmapFile)) (Table MmapFile) := Sharded_cache (fun _ => 0).
#[local] Instance demo_tables_ok : CacheOk _ (Table MmapFile) (cache_ok (fun _ => 0)) := Sharded_ok (fun _ => 0).
#[local] Instance demo_block_cache : Cache (ShardedLRUCache (V := Block)) Block := Sharded_cache (fun _ => 0).
#[local] Instance demo_blocks_ok : CacheOk _ Block (cache_ok (fun _ => 0)) := Sharded_ok (fun _ => 0).

Abbreviation demo_serving := (serves (length_of := run_length) (uncompress := run_uncompress) (str "/db") demo_open).
Abbreviation demo_good := (cache_good (length_of := run_length) (uncompress := run_uncompress) (cvalid := cache_ok (fun _ => 0))
  (kvalid := cache_ok (fun _ => 0)) 0 true (str "/db") demo_open).

Lemma demo_file_of data blocks idx meta ih :
  table_file (c := InternalKeyComparator BytewiseComparatorImpl) (length_of := run_length) (uncompress := run_uncompress)
    (map entry_of demo_internal) data blocks idx meta ih ->
  file_of (length_of := run_length) (uncompress := run_uncompress) (str "/db") (demo_fs data) 7 demo_internal
    (MkMmapFile (str "/db/000007.ldb") data) blocks idx meta ih.
Proof.
  intros Htf. split; [done| |exact Htf|repeat constructor|repeat constructor; vm_compute; discriminate].
  intros name Hn. vm_compute in Hn. injection Hn as <-. reflexivity.
Qed.

Lemma demo_served : demo_serving 7 (len demo_bytes) demo_internal.
Proof.
  destruct (table_built (c := InternalKeyComparator BytewiseComparatorImpl) (dom := internal_dom) (F := WritableFile)
    (compress := run_compress) (length_of := run_length) (uncompress := run_uncompress)
    2 16 kSnappyCompression 0 ltac:(lia) empty_file (map entry_of demo_internal)) as
    (b & b' & blocks & idx & meta & ih & Hadd & Hfin & _ & _ & _ & _ & Htf).
  - constructor.
  - reflexivity.
  - split; repeat constructor; vm_compute; lia.
  - vm_compute. reflexivity.
  - assert (demo_bytes = contents (tfile b')) as Hb by (unfold demo_bytes, demo_built; by rewrite Hadd, Hfin).
    rewrite <- Hb in Htf. exists (MkMmapFile (str "/db/000007.ldb") demo_bytes), blocks, idx, meta, ih.
    split; [by apply demo_file_of|reflexivity].
Qed.

Lemma demo_no_blocks : no_blocks (valid := cache_ok (fun _ => 0)) (blockcache demo_cache).
Proof.
  split; [apply Sharded_make_ok|]. intros key _. unfold demo_block_cache, Sharded_cache. cbn [clookup].
  by rewrite Sharded_make_empty.
Qed.

Lemma demo_cache_good : demo_good demo_cache.
Proof.
  destruct (no_blocks_good (length_of := run_length) (uncompress := run_uncompress) (kvalid := cache_ok (fun _ => 0)) 0 (str "/db") demo_open
    (blockcache demo_cache) demo_no_blocks) as [Hv Hag].
  split; [apply Sharded_make_ok| |exact Hv|exact Hag].
  intros num t _ Hl. unfold demo_cache, demo_tables, Sharded_cache in Hl. cbn [clookup tcache] in Hl.
  by rewrite Sharded_make_empty in Hl.
Qed.

Lemma table_cache_serves_witness :
  exists found tc', cache_Get run_length run_uncompress 0 (InternalKeyComparator BytewiseComparatorImpl) true (str "/db") demo_open
      ReadOptions_make 7 (len demo_bytes) (seek_key (str "ant") 5) demo_cache = Some (OK, found, tc') /\
    answers BytewiseComparatorImpl demo_internal (str "ant") 5 found.
Proof.
  destruct (table_cache_serves (length_of := run_length) (uncompress := run_uncompress) 0 true (str "/db") demo_open ReadOptions_make demo_cache 7 (len demo_bytes) demo_internal
    demo_cache_good demo_served) as (Hget & _).
  destruct (Hget (str "ant") 5) as (found & tc' & H1 & _ & H2).
  - vm_compute. split; discriminate.
  - exists found, tc'. split; [exact H1|exact H2].
Defined.

(** A lookup runs: the entry at sequence number 3 is found in the file. *)
Example cache_Get_runs :
  (let? (s, found, tc) := cache_Get run_length run_uncompress 0 (InternalKeyComparator BytewiseComparatorImpl) true (str "/db")
     demo_open ReadOptions_make 7 (len demo_bytes) (seek_key (str "ant") 5) demo_cache in
   Some (s, snd <$> found)) = Some (OK, Some (str "old")).
Proof. vm_compute. reflexivity. Qed.
