(* ===== verification/VersionBuilder.v ===== *)
(** The class [Builder] (redisdb/db/versionset.h and versionset.cc): applying edits to a
    version.

    A builder collects, level by level, the files that edits delete and add, and merges
    the result with its base version in [SaveTo].  The [std::set]s are lists in the order
    of their elements. *)
From Stdlib Require Import Sorted Permutation.
From stdpp Require Import sorting sets.
From S2P Require Import Prelude Coding Status DbFormat Block Iterators Table VersionEdit Version.
Local Open Scope Z_scope.

Section Builder.
Context (ucmp : Comparator).

Definition BySmallestKey (f1 f2 : file) : bool :=
  match Internal_Compare ucmp (smallest f1) (smallest f2) with
  | Lt => true
  | Gt => false
  | Eq => number f1 <? number f2
  end.

Record LevelState := MkLevelState { deletedset : list Z; addedFiles : list file }.

Record Builder := MkBuilder { base : Version; levels : list LevelState }.

Definition Builder_make (base : Version) : Builder :=
  MkBuilder base (replicate (Z.to_nat kNumLevels) (MkLevelState [] [])).

Definition level_state (b : Builder) (level : Z) : LevelState :=
  default (MkLevelState [] []) (levels b !! Z.to_nat level).
Definition alter_level (f : LevelState -> LevelState) (level : Z) (b : Builder) : Builder :=
  MkBuilder (base b) (alter f (Z.to_nat level) (levels b)).

(** [(filesize / 16384)] as an [int], at least 100. *)
Definition allowed_seeks (filesize : Z) : Z :=
  let n := i32 (filesize / 16384) in if n <? 100 then 100 else n.

Definition delete_step (p : Z * Z) (b : Builder) : Builder :=
  alter_level (fun l => MkLevelState (set_insert Z.ltb p.2 (deletedset l)) (addedFiles l)) p.1 b.

Definition add_step (p : Z * file) (b : Builder) : Builder :=
  let f := set_allowedseeks p.2 (allowed_seeks (filesize p.2)) in
  alter_level (fun l => MkLevelState (filter (fun n => n <> number f) (deletedset l))
                                     (set_insert BySmallestKey f (addedFiles l))) p.1 b.

(** [vset->compactPointer] is the caller's and is returned. *)
Fixpoint apply_pointers (l : list (Z * InternalKey)) (compactPointer : list bytes) : option (list bytes) :=
  match l with
  | [] => Some compactPointer
  | (level, key) :: l =>
      let? view := InternalKey_Encode key in apply_pointers l (<[Z.to_nat level := view]> compactPointer)
  end.

Definition Apply (edit : VersionEdit) (b : Builder) (compactPointer : list bytes) : option (Builder * list bytes) :=
  let? compactPointer := apply_pointers (compactpointers edit) compactPointer in
  let b := fold_left (fun b p => delete_step p b) (deletedfiles edit) b in
  let b := fold_left (fun b p => add_step p b) (newfiles edit) b in
  Some (b, compactPointer).

(** [MaybeAddFile]: [files] is [v->files[level]]. *)
Definition MaybeAddFile (ls : LevelState) (level : Z) (f : file) (files : list file) : option (list file) :=
  if bool_decide (number f ∈ deletedset ls) then Some files
  else
    match last files with
    | Some g =>
        if (0 <? level) && bool_decide (Internal_Compare ucmp (largest g) (smallest f) <> Lt) then None
        else Some (files ++ [f])
    | None => Some (files ++ [f])
    end.

Fixpoint maybe_add_all (ls : LevelState) (level : Z) (l files : list file) : option (list file) :=
  match l with
  | [] => Some files
  | f :: l => let? files := MaybeAddFile ls level f files in maybe_add_all ls level l files
  end.

(** [std::upper_bound] in a sorted range: what precedes the bound, and the rest. *)
Fixpoint upper_bound (x : file) (l : list file) : list file * list file :=
  match l with
  | [] => ([], [])
  | y :: l' =>
      if BySmallestKey x y then ([], l) else let '(pre, post) := upper_bound x l' in (y :: pre, post)
  end.

(** The body of the loop of [SaveTo] for one level. *)
Fixpoint save_level (ls : LevelState) (level : Z) (added baseFiles files : list file) : option (list file) :=
  match added with
  | [] => maybe_add_all ls level baseFiles files
  | a :: added =>
      let '(pre, post) := upper_bound a baseFiles in
      let? files := maybe_add_all ls level pre files in
      let? files := MaybeAddFile ls level a files in
      save_level ls level added post files
  end.

Fixpoint save_levels (b : Builder) (ls : list Z) : option (list (list file)) :=
  match ls with
  | [] => Some []
  | level :: ls =>
      let st := level_state b level in
      let? files := save_level st level (addedFiles st) (level_files (base b) level) [] in
      let? rest := save_levels b ls in
      Some (files :: rest)
  end.

(** [SaveTo] of a new version. *)
Definition SaveTo (b : Builder) (v : Version) : option Version :=
  let? files := save_levels b all_levels in Some (set_files v files).
End Builder.

(** ** The order of files *)

Section Order.
Context {ucmp : Comparator} {Hok : ComparatorOk ucmp (fun _ => True)}.

Abbreviation lt := (BySmallestKey ucmp).
Abbreviation set_ordered := (StronglySorted (fun a b => lt a b = true)).

Definition key_set (f : file) : Prop := internal_dom (smallest f).

Lemma lt_irrefl a : lt a a = false.
Proof. unfold BySmallestKey. rewrite Internal_refl. lia. Qed.

Lemma lt_spec a b : lt a b = true <->
  Internal_Compare ucmp (smallest a) (smallest b) = Lt \/
  (Internal_Compare ucmp (smallest a) (smallest b) = Eq /\ number a < number b).
Proof.
  unfold BySmallestKey. destruct (Internal_Compare _ _ _); [|naive_solver..].
  rewrite Z.ltb_lt. naive_solver.
Qed.

Lemma lt_trans a b d : lt a b = true -> lt b d = true -> lt a d = true.
Proof.
  rewrite !lt_spec. intros [H1|[H1 H1']] [H2|[H2 H2']].
  - left. by apply (Internal_lt_trans _ (smallest b)).
  - left. rewrite Internal_opp, (Internal_eq_l _ (smallest b)); [by rewrite <- Internal_opp|]. by rewrite Internal_opp, H2.
  - left. by rewrite (Internal_eq_l _ (smallest b)).
  - right. split; [|lia]. by rewrite (Internal_eq_l _ (smallest b)).
Qed.

Lemma lt_total a b : number a <> number b -> lt a b = true \/ lt b a = true.
Proof.
  intros Hn. rewrite !lt_spec. rewrite (Internal_opp (smallest b)).
  destruct (Internal_Compare ucmp (smallest a) (smallest b)); cbn; [|by left; left|by right; left].
  destruct (Z.lt_total (number a) (number b)) as [?|[?|?]]; [by left; right|done|by right; right].
Qed.

Lemma lt_neq a b : lt a b = true -> a <> b.
Proof. intros H ->. by rewrite lt_irrefl in H. Qed.

(** Two lists in strict order with the same elements are the same. *)
Lemma set_ordered_unique l1 l2 :
  set_ordered l1 -> set_ordered l2 -> (forall x, x ∈ l1 <-> x ∈ l2) -> l1 = l2.
Proof.
  revert l2. induction l1 as [|a l1 IH]; intros [|b l2] H1 H2 He; [done| | |].
  - exfalso. apply (not_elem_of_nil b), He. set_solver.
  - exfalso. apply (not_elem_of_nil a), He. set_solver.
  - inversion_clear H1 as [|? ? Hs1 Hf1]. inversion_clear H2 as [|? ? Hs2 Hf2]. rewrite Forall_forall in Hf1, Hf2.
    assert (a = b) as ->.
    { pose proof (proj1 (He a) ltac:(set_solver)) as [Ha|Ha]%elem_of_cons; [done|].
      pose proof (proj2 (He b) ltac:(set_solver)) as [|Hb]%elem_of_cons; [done|].
      pose proof (lt_trans _ _ _ (Hf1 b Hb) (Hf2 a Ha)) as Hx. by rewrite lt_irrefl in Hx. }
    f_equal. apply IH; [done|done|]. intros x. split; intros Hx.
    + pose proof (proj1 (He x) ltac:(set_solver)) as [->|]%elem_of_cons; [|done]. pose proof (Hf1 _ Hx) as Hb. by rewrite lt_irrefl in Hb.
    + pose proof (proj2 (He x) ltac:(set_solver)) as [->|]%elem_of_cons; [|done]. pose proof (Hf2 _ Hx) as Hb. by rewrite lt_irrefl in Hb.
Qed.

(** ** Merging *)

Lemma upper_bound_app x l pre post : upper_bound ucmp x l = (pre, post) -> l = pre ++ post.
Proof.
  revert pre post. induction l as [|y l IH]; cbn; intros pre post; [by intros [= <- <-]|].
  destruct (lt x y); [by intros [= <- <-]|]. destruct (upper_bound ucmp x l) as [pre' post'] eqn:E.
  intros [= <- <-]. by rewrite (IH _ _ eq_refl).
Qed.

Lemma upper_bound_spec x l pre post :
  set_ordered l -> upper_bound ucmp x l = (pre, post) ->
  (forall y, y ∈ pre -> lt x y = false) /\ (forall y, y ∈ post -> lt x y = true).
Proof.
  revert pre post. induction l as [|y l IH]; cbn; intros pre post Hl; [by intros [= <- <-]; split; intros ? ?%not_elem_of_nil|].
  inversion_clear Hl as [|? ? Hs Hf]. rewrite Forall_forall in Hf. destruct (lt x y) eqn:Hxy.
  { intros [= <- <-]. split; [by intros ? ?%not_elem_of_nil|]. intros z [->|Hz]%elem_of_cons; [done|].
    by apply (lt_trans _ y); [|apply Hf]. }
  destruct (upper_bound ucmp x l) as [pre' post'] eqn:E. intros [= <- <-].
  destruct (IH _ _ Hs eq_refl) as [H1 H2]. split; [|done]. intros z [->|Hz]%elem_of_cons; [done|by apply H1].
Qed.

(** What [SaveTo] runs through in one level. *)
Fixpoint merged (added baseFiles : list file) : list file :=
  match added with
  | [] => baseFiles
  | a :: added => let '(pre, post) := upper_bound ucmp a baseFiles in pre ++ a :: merged added post
  end.

Lemma maybe_add_all_app ls level l1 l2 files :
  maybe_add_all ucmp ls level (l1 ++ l2) files =
    let? files := maybe_add_all ucmp ls level l1 files in maybe_add_all ucmp ls level l2 files.
Proof.
  revert files. induction l1 as [|f l1 IH]; intros files; [done|]. cbn.
  destruct (MaybeAddFile _ _ _ _ _); [apply IH|done].
Qed.

Lemma save_level_merged ls level added baseFiles files :
  save_level ucmp ls level added baseFiles files = maybe_add_all ucmp ls level (merged added baseFiles) files.
Proof.
  revert baseFiles files. induction added as [|a added IH]; intros baseFiles files; [done|]. cbn.
  destruct (upper_bound ucmp a baseFiles) as [pre post]. rewrite maybe_add_all_app.
  destruct (maybe_add_all _ _ _ pre files) as [f1|]; [|done]. cbn.
  destruct (MaybeAddFile _ _ _ _ _); [apply IH|done].
Qed.

Lemma merged_elem x added baseFiles : x ∈ merged added baseFiles <-> x ∈ baseFiles \/ x ∈ added.
Proof.
  revert baseFiles. induction added as [|a added IH]; intros baseFiles; cbn; [set_solver|].
  destruct (upper_bound ucmp a baseFiles) as [pre post] eqn:E. pose proof (upper_bound_app _ _ _ _ E) as ->.
  rewrite elem_of_app, elem_of_cons, IH. set_solver.
Qed.

Lemma set_ordered_app l1 l2 :
  set_ordered l1 -> set_ordered l2 -> (forall x y, x ∈ l1 -> y ∈ l2 -> lt x y = true) -> set_ordered (l1 ++ l2).
Proof.
  intros H1 H2 H12. induction H1 as [|x l1 H1 IH Hx]; [done|]. cbn. constructor.
  - apply IH. intros a b Ha. apply H12. set_solver.
  - rewrite Forall_forall in Hx |- *. intros y [Hy|Hy]%elem_of_app; [by apply Hx|]. apply H12; [set_solver|done].
Qed.

Lemma set_ordered_app_inv l1 l2 :
  set_ordered (l1 ++ l2) -> set_ordered l1 /\ set_ordered l2 /\ (forall x y, x ∈ l1 -> y ∈ l2 -> lt x y = true).
Proof.
  induction l1 as [|a l1 IH]; cbn; intros H.
  - split; [constructor|]. split; [done|]. by intros ? ? ?%not_elem_of_nil.
  - inversion_clear H as [|? ? Hs Hf]. destruct (IH Hs) as (H1 & H2 & H12). rewrite Forall_forall in Hf.
    split; [|split; [done|]].
    + constructor; [done|]. apply Forall_forall. intros x Hx. apply Hf. set_solver.
    + intros x y [->|Hx]%elem_of_cons Hy; [apply Hf; set_solver|by apply H12].
Qed.

Lemma merged_ordered added : forall baseFiles,
  set_ordered added -> set_ordered baseFiles ->
  (forall f g, f ∈ baseFiles -> g ∈ added -> number f <> number g) -> set_ordered (merged added baseFiles).
Proof.
  induction added as [|a added IH]; intros baseFiles Ha Hb Hd; [done|]. cbn.
  destruct (upper_bound ucmp a baseFiles) as [pre post] eqn:E.
  destruct (upper_bound_spec _ _ _ _ Hb E) as [Hpre Hpost]. pose proof (upper_bound_app _ _ _ _ E) as ->.
  apply set_ordered_app_inv in Hb as (Hb1 & Hb2 & Hb12). inversion_clear Ha as [|? ? Hsa Hfa]. rewrite Forall_forall in Hfa.
  assert (forall y, y ∈ pre -> lt y a = true) as Hlow.
  { intros y Hy. destruct (lt_total y a) as [|Hx]; [apply Hd; set_solver|done|]. by rewrite Hpre in Hx. }
  assert (forall y, y ∈ merged added post -> lt a y = true) as Hhigh.
  { intros y [Hy|Hy]%merged_elem; [by apply Hpost|by apply Hfa]. }
  apply set_ordered_app; [done| |].
  - constructor; [|by apply Forall_forall]. apply IH; [done|done|]. intros f g Hf Hg. apply Hd; set_solver.
  - intros x y Hx [->|Hy]%elem_of_cons; [by apply Hlow|]. apply (lt_trans _ a); [by apply Hlow|by apply Hhigh].
Qed.

(** ** Which files are kept *)

Definition kept (ls : LevelState) (l : list file) : list file := filter (fun f => number f ∉ deletedset ls) l.

Lemma kept_ordered ls l : set_ordered l -> set_ordered (kept ls l).
Proof.
  induction 1 as [|x l Hl IH Hx]; [constructor|]. unfold kept in *. rewrite filter_cons. destruct (decide _); [|done].
  constructor; [done|]. rewrite Forall_forall in Hx |- *. intros y [_ Hy]%list_elem_of_filter. by apply Hx.
Qed.

(** Neighbours above level 0 do not overlap: what the assert checks. *)
Definition chained (level : Z) (l : list file) : Prop :=
  forall i a b, l !! i = Some a -> l !! S i = Some b -> 0 < level -> Internal_Compare ucmp (largest a) (smallest b) = Lt.

Lemma chained_nil level : chained level [].
Proof. by intros i a b. Qed.

Lemma chained_prefix level l1 l2 : chained level (l1 ++ l2) -> chained level l1.
Proof. intros H i a b Ha Hb. by apply (H i); apply lookup_app_l_Some. Qed.

Lemma chained_snoc level l f :
  chained level l -> (forall g, last l = Some g -> 0 < level -> Internal_Compare ucmp (largest g) (smallest f) = Lt) ->
  chained level (l ++ [f]).
Proof.
  intros Hl Hg i a b Ha Hb. apply lookup_app_Some in Hb as [Hb|[Hle Hb]].
  - apply (Hl i); [|done]. rewrite lookup_app_l in Ha; [done|]. apply lookup_lt_Some in Hb. lia.
  - apply list_lookup_singleton_Some in Hb as [Hi <-]. apply Hg. rewrite last_lookup. rewrite lookup_app_l in Ha by lia.
    by replace (pred (length l)) with i by lia.
Qed.

Lemma chained_last level l f g :
  chained level (l ++ [f]) -> last l = Some g -> 0 < level -> Internal_Compare ucmp (largest g) (smallest f) = Lt.
Proof.
  intros H Hl Hpos. rewrite last_lookup in Hl. pose proof (lookup_lt_Some _ _ _ Hl) as Hlt.
  apply (H (pred (length l))); [by apply lookup_app_l_Some| |done].
  rewrite lookup_app_r by lia. by replace (S (pred (length l)) - length l)%nat with 0%nat by lia.
Qed.

Lemma maybe_add_all_iff ls level l : forall files out,
  chained level files -> (maybe_add_all ucmp ls level l files = Some out <->
    out = files ++ kept ls l /\ chained level out).
Proof.
  induction l as [|f l IH]; intros files out Hc; unfold kept; cbn [maybe_add_all].
  { rewrite filter_nil, app_nil_r. naive_solver. }
  unfold MaybeAddFile. rewrite filter_cons. case_bool_decide as Hdel.
  { rewrite decide_False by naive_solver. by apply IH. }
  rewrite decide_True by done. change (f :: filter _ l) with ([f] ++ kept ls l). rewrite app_assoc.
  destruct (last files) as [g|] eqn:Hl.
  2:{ apply IH, chained_snoc; [done|]. by rewrite Hl. }
  destruct (0 <? level) eqn:Hpos; cbn [andb].
  2:{ apply IH, chained_snoc; [done|]. lia. }
  case_bool_decide as Hov.
  - split; [done|]. intros [-> Hch]. exfalso. apply Hov. apply chained_prefix in Hch. eapply chained_last; [done|done|lia].
  - apply IH, chained_snoc; [done|]. intros g' Hg' _. rewrite Hl in Hg'. injection Hg' as <-.
    by destruct (Internal_Compare ucmp (largest g) (smallest f)).
Qed.

Lemma save_level_iff ls level added baseFiles out :
  save_level ucmp ls level added baseFiles [] = Some out <->
  out = kept ls (merged added baseFiles) /\ chained level out.
Proof. rewrite save_level_merged, maybe_add_all_iff by apply chained_nil. done. Qed.
End Order.

(** ** Applying edits *)

Section Apply.
Context {ucmp : Comparator} {Hok : ComparatorOk ucmp (fun _ => True)}.

Abbreviation lt := (BySmallestKey ucmp).
Abbreviation set_ordered := (StronglySorted (fun a b => lt a b = true)).

(** A file as [Apply] adds it. *)
Definition norm (f : file) : file := set_allowedseeks f (allowed_seeks (filesize f)).

Lemma norm_idem f : norm (norm f) = norm f.
Proof. done. Qed.

Lemma set_insert_Z x y l : y ∈ set_insert Z.ltb x l <-> y = x \/ y ∈ l.
Proof.
  induction l as [|z l IH]; cbn; [set_solver|].
  destruct (Z.ltb_spec x z); [set_solver|]. destruct (Z.ltb_spec z x); [set_solver|].
  assert (x = z) by lia. set_solver.
Qed.

Lemma set_insert_ordered x l :
  set_ordered l -> (forall y, y ∈ l -> number y <> number x) ->
  set_ordered (set_insert lt x l) /\ forall y, y ∈ set_insert lt x l <-> y = x \/ y ∈ l.
Proof.
  induction 1 as [|z l Hl IH Hz]; intros Hn; cbn; [split; [by repeat constructor|set_solver]|].
  rewrite Forall_forall in Hz. destruct (lt x z) eqn:Hxz.
  { split; [|set_solver]. constructor; [by constructor; [|apply Forall_forall]|]. apply Forall_forall.
    intros y [->|Hy]%elem_of_cons; [done|]. by apply (lt_trans _ z); [|apply Hz]. }
  destruct (lt_total (ucmp := ucmp) x z) as [?|Hzx]; [intros He; by apply (Hn z); [set_solver|]|congruence|]. rewrite Hzx.
  destruct IH as [H1 H2]; [intros y Hy; apply Hn; set_solver|]. split; [|set_solver].
  constructor; [done|]. apply Forall_forall. intros y [->|Hy]%H2; [done|by apply Hz].
Qed.

(** Levels of a builder. *)
Definition builder_ok (b : Builder) : Prop := length (levels b) = Z.to_nat kNumLevels.

Lemma alter_level_state f l b L :
  builder_ok b -> is_level l -> is_level L ->
  level_state (alter_level f l b) L = if decide (L = l) then f (level_state b L) else level_state b L.
Proof.
  unfold builder_ok, is_level, level_state, alter_level, kNumLevels. cbn [levels]. intros Hb Hl HL. case_decide as He.
  - subst l. rewrite list_lookup_alter_eq. destruct (lookup_lt_is_Some_2 (levels b) (Z.to_nat L)) as [x Hx]; [lia|].
    by rewrite Hx.
  - rewrite list_lookup_alter_ne by lia. done.
Qed.

Lemma alter_level_ok f l b : builder_ok b -> builder_ok (alter_level f l b).
Proof. unfold builder_ok, alter_level. cbn. by rewrite length_alter. Qed.

Lemma delete_steps l : forall b L,
  builder_ok b -> is_level L -> Forall (fun p => is_level p.1) l ->
  let b' := fold_left (fun b p => delete_step p b) l b in
  builder_ok b' /\ base b' = base b /\ addedFiles (level_state b' L) = addedFiles (level_state b L) /\
  forall n, n ∈ deletedset (level_state b' L) <-> n ∈ deletedset (level_state b L) \/ (L, n) ∈ l.
Proof.
  induction l as [|[l0 n0] l IH]; intros b L Hb HL Hl; cbn [fold_left]; [set_solver|].
  apply Forall_cons in Hl as [Hl0 Hl]. cbn [fst] in Hl0.
  destruct (IH (delete_step (l0, n0) b) L) as (H1 & H2 & H3 & H4); [by apply alter_level_ok|done|done|].
  split; [done|]. split; [done|].
  assert (level_state (delete_step (l0, n0) b) L = if decide (L = l0) then MkLevelState (set_insert Z.ltb n0 (deletedset (level_state b L)))
      (addedFiles (level_state b L)) else level_state b L) as Hls by (unfold delete_step; cbn [fst snd]; by rewrite alter_level_state).
  rewrite Hls in H3, H4. split.
  - rewrite H3. by case_decide.
  - intros n. rewrite H4. case_decide as HLl; cbn [deletedset].
    + subst l0. rewrite set_insert_Z. set_solver.
    + set_solver.
Qed.

(** The files that [l] adds to level [L]. *)
Definition adds (L : Z) (l : list (Z * file)) : list file := map (fun p => norm p.2) (filter (fun p => p.1 = L) l).

Lemma elem_of_adds L l f : f ∈ adds L l <-> exists g, (L, g) ∈ l /\ f = norm g.
Proof.
  unfold adds. rewrite list_elem_of_fmap. split.
  - intros ([L' g] & -> & [He Hin]%list_elem_of_filter). cbn in *. subst L'. by exists g.
  - intros (g & Hin & ->). exists (L, g). split; [done|]. by apply list_elem_of_filter.
Qed.

Abbreviation pairs l := (map (fun p => (p.1, number p.2)) l).

Lemma add_steps l : forall b L,
  builder_ok b -> is_level L -> Forall (fun p => is_level p.1) l -> NoDup (pairs l) ->
  set_ordered (addedFiles (level_state b L)) ->
  (forall f, f ∈ addedFiles (level_state b L) -> (L, number f) ∉ pairs l) ->
  let b' := fold_left (fun b p => add_step ucmp p b) l b in
  builder_ok b' /\ base b' = base b /\ set_ordered (addedFiles (level_state b' L)) /\
  (forall f, f ∈ addedFiles (level_state b' L) <-> f ∈ addedFiles (level_state b L) \/ f ∈ adds L l) /\
  forall n, n ∈ deletedset (level_state b' L) <-> n ∈ deletedset (level_state b L) /\ (L, n) ∉ pairs l.
Proof.
  induction l as [|[l0 f0] l IH]; intros b L Hb HL Hl Hnd Hso Hfr; cbn [fold_left map].
  { unfold adds. rewrite filter_nil. set_solver. }
  apply Forall_cons in Hl as [Hl0 Hl]. cbn [fst] in Hl0. cbn [map fst snd] in Hnd, Hfr. apply NoDup_cons in Hnd as [Hnew Hnd].
  set (b1 := add_step ucmp (l0, f0) b).
  assert (level_state b1 L = if decide (L = l0) then MkLevelState (filter (fun n => n <> number f0) (deletedset (level_state b L)))
      (set_insert lt (norm f0) (addedFiles (level_state b L))) else level_state b L) as Hb1
    by (unfold b1, add_step; cbn [fst snd]; by rewrite alter_level_state).
  assert (forall f, f ∈ adds L ((l0, f0) :: l) <-> (L = l0 /\ f = norm f0) \/ f ∈ adds L l) as Hadds.
  { intros f. rewrite !elem_of_adds. set_solver. }
  assert (set_ordered (addedFiles (level_state b1 L)) /\
    forall f, f ∈ addedFiles (level_state b1 L) <-> (L = l0 /\ f = norm f0) \/ f ∈ addedFiles (level_state b L)) as [Hso1 Hin1].
  { rewrite Hb1. case_decide as HLl; [|split; [done|naive_solver]]. subst l0. cbn [addedFiles].
    destruct (set_insert_ordered (norm f0) _ Hso) as [H1 H2]; [|split; [done|intros f; rewrite H2; naive_solver]].
    intros y Hy He. apply (Hfr y Hy). rewrite He. cbn. apply elem_of_cons. by left. }
  destruct (IH b1 L) as (H1 & H2 & H3 & H4 & H5); [by apply alter_level_ok|done|done|done|done| |].
  { intros f [[-> ->]|Hf]%Hin1; [done|]. by destruct (proj1 (not_elem_of_cons _ _ _) (Hfr f Hf)). }
  split; [done|]. split; [done|]. split; [done|]. split.
  - intros f. rewrite H4, Hin1, Hadds. tauto.
  - intros n. rewrite H5, Hb1. case_decide as HLl; cbn [deletedset].
    + subst l0. rewrite list_elem_of_filter, not_elem_of_cons. naive_solver.
    + rewrite not_elem_of_cons. naive_solver.
Qed.

(** The levels an edit names are levels, and it adds no file twice. *)
Record edit_levels (e : VersionEdit) : Prop := {
  el_deleted : Forall (fun p => is_level p.1) (deletedfiles e);
  el_new : Forall (fun p => is_level p.1) (newfiles e);
  el_nodup : NoDup (pairs (newfiles e))
}.

Lemma Apply_pointers e b cp : snd <$> Apply ucmp e b cp = apply_pointers (compactpointers e) cp.
Proof. unfold Apply. by destruct (apply_pointers _ _). Qed.

(** One level of a builder after an edit whose new files it has not seen. *)
Lemma Apply_spec e b cp b' cp' :
  builder_ok b -> edit_levels e -> Apply ucmp e b cp = Some (b', cp') ->
  (forall L f, is_level L -> f ∈ addedFiles (level_state b L) -> (L, number f) ∉ pairs (newfiles e)) ->
  (forall L, is_level L -> set_ordered (addedFiles (level_state b L))) ->
  builder_ok b' /\ base b' = base b /\
  forall L, is_level L -> set_ordered (addedFiles (level_state b' L)) /\
    (forall f, f ∈ addedFiles (level_state b' L) <-> f ∈ addedFiles (level_state b L) \/ f ∈ adds L (newfiles e)) /\
    forall n, n ∈ deletedset (level_state b' L) <->
      (n ∈ deletedset (level_state b L) \/ (L, n) ∈ deletedfiles e) /\ (L, n) ∉ pairs (newfiles e).
Proof.
  intros Hb [Hd Hn Hnd] Ha Hfr Hso. unfold Apply in Ha. destruct (apply_pointers _ _) as [cp1|]; [|done].
  cbn in Ha. injection Ha as <- <-. set (b1 := fold_left (fun b p => delete_step p b) (deletedfiles e) b).
  assert (forall L, is_level L -> builder_ok (fold_left (fun b p => add_step ucmp p b) (newfiles e) b1) /\
    base (fold_left (fun b p => add_step ucmp p b) (newfiles e) b1) = base b /\
    set_ordered (addedFiles (level_state (fold_left (fun b p => add_step ucmp p b) (newfiles e) b1) L)) /\
    (forall f, f ∈ addedFiles (level_state (fold_left (fun b p => add_step ucmp p b) (newfiles e) b1) L) <->
       f ∈ addedFiles (level_state b L) \/ f ∈ adds L (newfiles e)) /\
    forall n, n ∈ deletedset (level_state (fold_left (fun b p => add_step ucmp p b) (newfiles e) b1) L) <->
      (n ∈ deletedset (level_state b L) \/ (L, n) ∈ deletedfiles e) /\ (L, n) ∉ pairs (newfiles e)) as Hall.
  { intros L HL. destruct (delete_steps (deletedfiles e) b L Hb HL Hd) as (H1 & H2 & H3 & H4). fold b1 in H1, H2, H3, H4.
    destruct (add_steps (newfiles e) b1 L H1 HL Hn Hnd) as (K1 & K2 & K3 & K4 & K5).
    - rewrite H3. by apply Hso.
    - intros f Hf. rewrite H3 in Hf. by apply Hfr.
    - split; [done|]. split; [by rewrite K2|]. split; [done|]. split; [intros f; by rewrite K4, H3|].
      intros n. by rewrite K5, H4. }
  destruct (Hall 0) as (H1 & H2 & _); [done|]. split; [done|]. split; [done|]. intros L HL. by apply Hall.
Qed.

(** ** Saving *)

Definition saved (b : Builder) (L : Z) : list file :=
  kept (level_state b L) (merged (ucmp := ucmp) (addedFiles (level_state b L)) (level_files (base b) L)).

Lemma save_levels_iff b ls : forall out,
  save_levels ucmp b ls = Some out <->
  out = map (saved b) ls /\ forall L, L ∈ ls -> chained (ucmp := ucmp) L (saved b L).
Proof.
  induction ls as [|L ls IH]; intros out; cbn [save_levels map]; [set_solver|].
  destruct (save_level ucmp _ _ _ _ _) as [files|] eqn:Hf.
  - apply save_level_iff in Hf as [-> Hc]. fold (saved b L) in Hc. fold (saved b L). cbn. destruct (save_levels ucmp b ls) as [rest|].
    + destruct (proj1 (IH rest) eq_refl) as [-> Hr]. cbn. split.
      * intros [= <-]. split; [done|]. intros L' [->|HL]%elem_of_cons; [done|by apply Hr].
      * by intros [-> _].
    + cbn. split; [done|]. intros [-> Hr]. assert (None = Some (map (saved b) ls)) as Hx; [|done].
      apply IH. split; [done|]. intros L' HL. apply Hr. set_solver.
  - split; [done|]. intros [-> Hr]. exfalso.
    assert (save_level ucmp (level_state b L) L (addedFiles (level_state b L)) (level_files (base b) L) [] = Some (saved b L)) as Hx; [|by rewrite Hx in Hf].
    apply save_level_iff. split; [done|]. apply Hr. set_solver.
Qed.

Lemma elem_of_all_levels L : L ∈ all_levels <-> is_level L.
Proof. unfold all_levels, is_level. rewrite elem_of_seqZ. unfold kNumLevels. lia. Qed.

Lemma level_files_map v (f : Z -> list file) L : is_level L -> level_files (set_files v (map f all_levels)) L = f L.
Proof.
  intros HL. unfold level_files, set_files. cbn [vfiles]. apply list_lookup_total_correct.
  rewrite list_lookup_fmap. unfold all_levels. rewrite lookup_seqZ_lt by (unfold is_level, kNumLevels in *; lia). cbn. f_equal. f_equal.
  unfold is_level in HL. lia.
Qed.

Lemma vfiles_levels v : length (vfiles v) = Z.to_nat kNumLevels -> vfiles v = map (level_files v) all_levels.
Proof.
  intros Hl. apply list_eq. intros i. rewrite list_lookup_fmap. destruct (decide (i < Z.to_nat kNumLevels)%nat) as [Hi|Hi].
  - unfold all_levels. rewrite lookup_seqZ_lt by lia. cbn [fmap option_fmap option_map]. unfold level_files.
    rewrite Z.add_0_l, Nat2Z.id. destruct (lookup_lt_is_Some_2 (vfiles v) i) as [x Hx]; [lia|].
    by rewrite (list_lookup_total_correct _ _ _ Hx).
  - rewrite lookup_ge_None_2 by lia. unfold all_levels. rewrite lookup_seqZ_ge by lia. done.
Qed.

Lemma SaveTo_iff b v v' :
  SaveTo ucmp b v = Some v' <->
  v' = set_files v (map (saved b) all_levels) /\ forall L, is_level L -> chained (ucmp := ucmp) L (saved b L).
Proof.
  unfold SaveTo. destruct (save_levels ucmp b all_levels) as [files|] eqn:Hf.
  - apply save_levels_iff in Hf as [-> Hc]. cbn. split; [|by intros [-> _]].
    intros [= <-]. split; [done|]. intros L HL. by apply Hc, elem_of_all_levels.
  - split; [done|]. intros [-> Hc]. exfalso.
    assert (save_levels ucmp b all_levels = Some (map (saved b) all_levels)) as Hx; [|by rewrite Hx in Hf].
    apply save_levels_iff. split; [done|]. intros L HL. by apply Hc, elem_of_all_levels.
Qed.
End Apply.

(** ** Replaying edits *)

Section Replay.
Context {ucmp : Comparator} {Hok : ComparatorOk ucmp (fun _ => True)}.

Abbreviation lt := (BySmallestKey ucmp).
Abbreviation set_ordered := (StronglySorted (fun a b => lt a b = true)).
Abbreviation pairs l := (map (fun p => (p.1, number p.2)) l).
Abbreviation chain := (chained (ucmp := ucmp)).
Abbreviation saved_ := (saved (ucmp := ucmp)).

(** The invariant of versions: every level in the builder's order, and above level 0
    without overlap. *)
Record version_wf (v : Version) : Prop := {
  wf_levels : length (vfiles v) = Z.to_nat kNumLevels;
  wf_ordered L : is_level L -> set_ordered (level_files v L);
  wf_chained L : is_level L -> chain L (level_files v L)
}.

Definition known_of (v : Version) (known : list (Z * Z)) : Prop :=
  forall L f, is_level L -> f ∈ level_files v L -> (L, number f) ∈ known.

(** No edit adds a file to a level where a file of its number has been. *)
Fixpoint fresh (known : list (Z * Z)) (edits : list VersionEdit) : Prop :=
  match edits with
  | [] => True
  | e :: edits =>
      (forall p, p ∈ pairs (newfiles e) -> p ∉ known) /\ fresh (known ++ pairs (newfiles e)) edits
  end.

(** All edits in one builder, as recovery does. *)
Fixpoint apply_all (edits : list VersionEdit) (b : Builder) (cp : list bytes) : option (Builder * list bytes) :=
  match edits with
  | [] => Some (b, cp)
  | e :: edits => let? (b, cp) := Apply ucmp e b cp in apply_all edits b cp
  end.

(** Each edit in a builder of its own, as the running store does. *)
Fixpoint install_all (edits : list VersionEdit) (v : Version) (cp : list bytes) : option (Version * list bytes) :=
  match edits with
  | [] => Some (v, cp)
  | e :: edits =>
      let? (b, cp) := Apply ucmp e (Builder_make v) cp in
      let? v := SaveTo ucmp b Version_make in
      install_all edits v cp
  end.

(** [b] describes the files of [cur]. *)
Record describes (b : Builder) (cur : Version) (known : list (Z * Z)) : Prop := {
  ds_builder : builder_ok b;
  ds_base : version_wf (base b);
  ds_cur : version_wf cur;
  ds_known : known_of (base b) known;
  ds_added L f : is_level L -> f ∈ addedFiles (level_state b L) -> (L, number f) ∈ known;
  ds_ordered L : is_level L -> set_ordered (addedFiles (level_state b L));
  ds_apart L f g : is_level L -> f ∈ level_files (base b) L -> g ∈ addedFiles (level_state b L) -> number f <> number g;
  ds_files L f : is_level L -> f ∈ level_files cur L <->
    (f ∈ level_files (base b) L \/ f ∈ addedFiles (level_state b L)) /\ number f ∉ deletedset (level_state b L)
}.

Lemma saved_ordered b L :
  set_ordered (addedFiles (level_state b L)) -> set_ordered (level_files (base b) L) ->
  (forall f g, f ∈ level_files (base b) L -> g ∈ addedFiles (level_state b L) -> number f <> number g) ->
  set_ordered (saved_ b L) /\ forall f, f ∈ saved_ b L <->
    (f ∈ level_files (base b) L \/ f ∈ addedFiles (level_state b L)) /\ number f ∉ deletedset (level_state b L).
Proof.
  intros H1 H2 H3. unfold saved. split; [by apply kept_ordered, merged_ordered|].
  intros f. unfold kept. rewrite list_elem_of_filter, merged_elem. tauto.
Qed.

(** The builder saves the version it describes. *)
Lemma describes_saved b cur known : describes b cur known -> SaveTo ucmp b Version_make = Some (set_files Version_make (vfiles cur)).
Proof.
  intros Hd. assert (forall L, is_level L -> saved_ b L = level_files cur L) as Heq.
  { intros L HL. destruct (saved_ordered b L) as [H1 H2]; [by apply Hd|by apply (wf_ordered _ (ds_base _ _ _ Hd))|by intros; eapply (ds_apart _ _ _ Hd)|].
    apply (set_ordered_unique (ucmp := ucmp)); [done|by apply (wf_ordered _ (ds_cur _ _ _ Hd))|].
    intros f. rewrite H2. symmetry. by apply (ds_files _ _ _ Hd). }
  apply SaveTo_iff. split.
  - f_equal. rewrite (vfiles_levels cur) by apply (wf_levels _ (ds_cur _ _ _ Hd)). apply list_fmap_ext. intros i L HL.
    symmetry. by apply Heq, elem_of_all_levels, (list_elem_of_lookup_2 _ i).
  - intros L HL. rewrite Heq by done. by apply (wf_chained _ (ds_cur _ _ _ Hd)).
Qed.

Lemma Builder_make_level v L : level_state (Builder_make v) L = MkLevelState [] [].
Proof.
  unfold level_state, Builder_make. cbn [levels]. destruct (replicate _ _ !! _) as [x|] eqn:Hx; [|done].
  by apply lookup_replicate in Hx as [-> _].
Qed.

Lemma Version_make_level L : is_level L -> level_files Version_make L = [].
Proof.
  intros HL. unfold level_files, Version_make. cbn [vfiles]. apply list_lookup_total_correct, lookup_replicate.
  unfold is_level in HL. split; [done|lia].
Qed.

Lemma ordered_norm l : set_ordered l -> set_ordered (map norm l).
Proof.
  induction 1 as [|a l Hl IH Ha]; cbn [map]; constructor; [done|]. rewrite Forall_forall in Ha |- *.
  intros x (y & -> & Hy)%list_elem_of_fmap. by apply (Ha y).
Qed.

Lemma Version_make_wf : version_wf Version_make.
Proof.
  split; [done| |]; intros L HL; rewrite Version_make_level by done; [constructor|apply chained_nil].
Qed.

Lemma Version_make_known {known} : known_of Version_make known.
Proof.
  intros L f HL Hf. exfalso. unfold level_files, Version_make in Hf. cbn [vfiles] in Hf. rewrite list_lookup_total_alt in Hf.
  destruct (replicate _ _ !! _) as [x|] eqn:Hx; [apply lookup_replicate in Hx as [-> _]|]; by apply not_elem_of_nil in Hf.
Qed.

Lemma describes_make v known : version_wf v -> known_of v known -> describes (Builder_make v) v known.
Proof.
  intros Hv Hk. split; try done; intros L; rewrite Builder_make_level; cbn; try set_solver. intros _. constructor.
Qed.

Lemma version_wf_saved b v :
  SaveTo ucmp b Version_make = Some v -> (forall L, is_level L -> set_ordered (saved_ b L)) -> version_wf v.
Proof.
  intros [-> Hc]%SaveTo_iff Hs. split.
  - done.
  - intros L HL. rewrite level_files_map by done. by apply Hs.
  - intros L HL. rewrite level_files_map by done. by apply Hc.
Qed.

(** One more edit, in the shared builder and in a builder of its own. *)
Lemma describes_step b cur known e cp b1 cp1 cur1 :
  describes b cur known -> edit_levels e -> (forall p, p ∈ pairs (newfiles e) -> p ∉ known) ->
  Apply ucmp e (Builder_make cur) cp = Some (b1, cp1) -> SaveTo ucmp b1 Version_make = Some cur1 ->
  exists b', Apply ucmp e b cp = Some (b', cp1) /\ describes b' cur1 (known ++ pairs (newfiles e)).
Proof.
  intros Hd He Hfr Ha Hs.
  assert (exists b', Apply ucmp e b cp = Some (b', cp1)) as [b' Hb'].
  { pose proof (Apply_pointers (ucmp := ucmp) e b cp) as H1. pose proof (Apply_pointers (ucmp := ucmp) e (Builder_make cur) cp) as H2.
    rewrite Ha in H2. rewrite <- H2 in H1. destruct (Apply ucmp e b cp) as [[b' cp']|]; cbn in H1; [|done]. injection H1 as ->. by exists b'. }
  exists b'. split; [done|].
  assert (known_of cur known) as Hkc.
  { intros L f HL [[Hf|Hf] _]%(ds_files _ _ _ Hd L f HL); [by apply (ds_known _ _ _ Hd)|by apply (ds_added _ _ _ Hd)]. }
  destruct (Apply_spec e (Builder_make cur) cp b1 cp1) as (K1 & K2 & K3); [done|done|done| | |].
  { intros L f _. rewrite Builder_make_level. set_solver. }
  { intros L _. rewrite Builder_make_level. constructor. }
  destruct (Apply_spec e b cp b' cp1) as (J1 & J2 & J3); [apply Hd|done|done| |apply Hd|].
  { intros L f HL Hf Hp. apply (Hfr _ Hp). by apply (ds_added _ _ _ Hd). }
  assert (forall L f, is_level L -> f ∈ adds L (newfiles e) -> (L, number f) ∈ pairs (newfiles e)) as Hadds.
  { intros L f HL (g & Hg & ->)%elem_of_adds. apply list_elem_of_fmap. by exists (L, g). }
  assert (forall L, is_level L -> set_ordered (saved_ b1 L) /\ forall f, f ∈ saved_ b1 L <->
    (f ∈ level_files cur L \/ f ∈ adds L (newfiles e)) /\ ~ ((L, number f) ∈ deletedfiles e /\ (L, number f) ∉ pairs (newfiles e))) as Hsaved.
  { intros L HL. destruct (K3 L HL) as (M1 & M2 & M3). rewrite Builder_make_level in M2, M3. cbn [addedFiles deletedset] in M2, M3.
    destruct (saved_ordered b1 L M1) as [N1 N2].
    - rewrite K2. by apply (wf_ordered _ (ds_cur _ _ _ Hd)).
    - intros f g Hf [Hg|Hg]%M2 Heq; [by apply not_elem_of_nil in Hg|]. rewrite K2 in Hf.
      apply (Hfr (L, number g)); [by apply Hadds|]. rewrite <- Heq. by apply Hkc.
    - split; [done|]. intros f. rewrite N2, M2, M3, K2. cbn. rewrite !elem_of_nil. tauto. }
  split.
  - done.
  - rewrite J2. apply Hd.
  - apply (version_wf_saved b1); [done|]. intros L HL. by apply Hsaved.
  - rewrite J2. intros L f HL Hf. apply elem_of_app. left. by apply (ds_known _ _ _ Hd).
  - intros L f HL [Hf|Hf]%(J3 L HL); apply elem_of_app; [left; by apply (ds_added _ _ _ Hd)|right; by apply Hadds].
  - intros L HL. by apply (J3 L HL).
  - rewrite J2. intros L f g HL Hf [Hg|Hg]%(J3 L HL); [by apply (ds_apart _ _ _ Hd L)|].
    intros Heq. apply (Hfr (L, number g)); [by apply Hadds|]. rewrite <- Heq. by apply (ds_known _ _ _ Hd).
  - intros L f HL. apply SaveTo_iff in Hs as [-> _]. rewrite level_files_map, (proj2 (Hsaved L HL)) by done.
    destruct (J3 L HL) as (_ & M2 & M3). rewrite M2, M3, J2, (ds_files _ _ _ Hd L f HL).
    pose proof (Hadds L f HL). destruct (decide (f ∈ adds L (newfiles e))); [tauto|].
    assert (f ∈ level_files (base b) L \/ f ∈ addedFiles (level_state b L) -> (L, number f) ∉ pairs (newfiles e)) as Hold.
    { intros [Hf|Hf] Hp; apply (Hfr _ Hp); [by apply (ds_known _ _ _ Hd)|by apply (ds_added _ _ _ Hd)]. }
    tauto.
Qed.

Lemma replay_describes edits : forall b cur known cp cur' cp',
  describes b cur known -> Forall edit_levels edits -> fresh known edits ->
  install_all edits cur cp = Some (cur', cp') ->
  exists b' known', apply_all edits b cp = Some (b', cp') /\ describes b' cur' known'.
Proof.
  induction edits as [|e edits IH]; intros b cur known cp cur' cp' Hd He Hfr Hi; cbn [install_all apply_all] in *.
  { injection Hi as <- <-. by exists b, known. }
  apply Forall_cons in He as [He Hes]. destruct Hfr as [Hf Hfr].
  destruct (Apply ucmp e (Builder_make cur) cp) as [[b1 cp1]|] eqn:Ha; [|done]. cbn in Hi.
  destruct (SaveTo ucmp b1 Version_make) as [cur1|] eqn:Hs; [|done]. cbn in Hi.
  destruct (describes_step b cur known e cp b1 cp1 cur1 Hd He Hf Ha Hs) as (b' & -> & Hd'). cbn.
  by apply (IH b' cur1 (known ++ pairs (newfiles e))).
Qed.

(** *** Snapshots: the allowed seeks of a file are not in the manifest *)

Definition norm_version (v : Version) : Version := set_files Version_make (map (map norm) (vfiles v)).

Lemma level_files_norm v L : level_files (norm_version v) L = map norm (level_files v L).
Proof.
  unfold level_files, norm_version. cbn [vfiles set_files]. rewrite !list_lookup_total_alt, list_lookup_fmap.
  by destruct (vfiles v !! Z.to_nat L).
Qed.

Lemma upper_bound_norm x l pre post :
  upper_bound ucmp x l = (pre, post) -> upper_bound ucmp x (map norm l) = (map norm pre, map norm post).
Proof.
  revert pre post. induction l as [|y l IH]; cbn; intros pre post; [by intros [= <- <-]|].
  change (lt x (norm y)) with (lt x y). destruct (lt x y); [by intros [= <- <-]|].
  destruct (upper_bound ucmp x l) as [pre' post']. intros [= <- <-]. by rewrite (IH _ _ eq_refl).
Qed.

Lemma merged_norm added : forall l,
  (forall f, f ∈ added -> norm f = f) -> merged (ucmp := ucmp) added (map norm l) = map norm (merged (ucmp := ucmp) added l).
Proof.
  induction added as [|a added IH]; intros l Ha; [done|]. cbn [merged].
  destruct (upper_bound ucmp a l) as [pre post] eqn:E. rewrite (upper_bound_norm _ _ _ _ E), map_app. cbn [map].
  rewrite IH by (intros; apply Ha; set_solver). by rewrite (Ha a) by set_solver.
Qed.

Lemma kept_norm ls l : kept ls (map norm l) = map norm (kept ls l).
Proof.
  unfold kept. induction l as [|f l IH]; [done|]. cbn [map]. rewrite !filter_cons. cbn [norm set_allowedseeks number].
  destruct (decide _); cbn [map]; by rewrite IH.
Qed.

Lemma chained_norm L l : chain L (map norm l) <-> chain L l.
Proof.
  unfold chained. setoid_rewrite list_lookup_fmap. split.
  - intros H i a b Ha Hb. specialize (H i (norm a) (norm b)). rewrite Ha, Hb in H. by apply H.
  - intros H i a b (a' & Ha & ->)%fmap_Some (b' & Hb & ->)%fmap_Some. by apply (H i a' b').
Qed.

Lemma delete_steps_base l : forall v v' ls,
  fold_left (fun b p => delete_step p b) l (MkBuilder v ls) =
    MkBuilder v (levels (fold_left (fun b p => delete_step p b) l (MkBuilder v' ls))).
Proof. induction l as [|p l IH]; intros v v' ls; [done|]. apply IH. Qed.

Lemma add_steps_base l : forall v v' ls,
  fold_left (fun b p => add_step ucmp p b) l (MkBuilder v ls) =
    MkBuilder v (levels (fold_left (fun b p => add_step ucmp p b) l (MkBuilder v' ls))).
Proof. induction l as [|p l IH]; intros v v' ls; [done|]. apply IH. Qed.

(** What is collected does not depend on the base. *)
Lemma Apply_base e v v' b cp cp' :
  Apply ucmp e (Builder_make v) cp = Some (b, cp') ->
  Apply ucmp e (Builder_make v') cp = Some (MkBuilder v' (levels b), cp').
Proof.
  unfold Apply, Builder_make. destruct (apply_pointers _ _) as [cp1|]; [|done].
  generalize (replicate (Z.to_nat kNumLevels) (MkLevelState [] [])). intros ls [= <- <-].
  rewrite (delete_steps_base _ v' v), (add_steps_base _ v' v). by rewrite <- (delete_steps_base _ v v).
Qed.

Lemma saved_norm b v' L :
  is_level L -> (forall f, f ∈ addedFiles (level_state b L) -> norm f = f) -> vfiles v' = map (map norm) (vfiles (base b)) ->
  saved_ (MkBuilder v' (levels b)) L = map norm (saved_ b L).
Proof.
  intros HL Ha Hv. unfold saved. change (level_state (MkBuilder v' (levels b)) L) with (level_state b L).
  rewrite <- kept_norm, <- merged_norm by done. do 2 f_equal. rewrite <- level_files_norm.
  unfold level_files, norm_version. cbn [base vfiles set_files]. by rewrite Hv.
Qed.

Lemma added_norm e v cp b cp' L f :
  edit_levels e -> Apply ucmp e (Builder_make v) cp = Some (b, cp') -> is_level L ->
  f ∈ addedFiles (level_state b L) -> norm f = f.
Proof.
  intros He Ha HL Hf. destruct (Apply_spec e (Builder_make v) cp b cp') as (_ & _ & K3); [done|done|done| | |].
  { intros l g _. rewrite Builder_make_level. set_solver. }
  { intros l _. rewrite Builder_make_level. constructor. }
  apply (K3 L HL) in Hf as [Hf|Hf]; [by rewrite Builder_make_level in Hf; apply not_elem_of_nil in Hf|].
  by apply elem_of_adds in Hf as (g & _ & ->).
Qed.

(** Installing edits commutes with forgetting the seeks. *)
Lemma install_norm edits : forall v v' cp cp',
  Forall edit_levels edits -> install_all edits v cp = Some (v', cp') ->
  install_all edits (norm_version v) cp = Some (norm_version v', cp').
Proof.
  induction edits as [|e edits IH]; intros v v' cp cp' He Hi; cbn [install_all] in *; [by injection Hi as <- <-|].
  apply Forall_cons in He as [He Hes].
  destruct (Apply ucmp e (Builder_make v) cp) as [[b cp1]|] eqn:Ha; [|done]. cbn in Hi.
  destruct (SaveTo ucmp b Version_make) as [v1|] eqn:Hs; [|done]. cbn in Hi.
  rewrite (Apply_base _ _ (norm_version v) _ _ _ Ha). cbn.
  assert (base b = v) as Hbase.
  { unfold Apply in Ha. destruct (apply_pointers _ _); [|done]. cbn in Ha. injection Ha as <- _.
    unfold Builder_make. generalize (replicate (Z.to_nat kNumLevels) (MkLevelState [] [])). intros ls.
    by rewrite (delete_steps_base _ v v), (add_steps_base _ v v). }
  apply SaveTo_iff in Hs as [-> Hc].
  assert (forall L, is_level L -> saved_ (MkBuilder (norm_version v) (levels b)) L = map norm (saved_ b L)) as Hn.
  { intros L HL. apply saved_norm; [done| |by rewrite Hbase]. intros f. by apply (added_norm e v cp b cp1). }
  assert (SaveTo ucmp (MkBuilder (norm_version v) (levels b)) Version_make =
    Some (norm_version (set_files Version_make (map (saved_ b) all_levels)))) as ->.
  { apply SaveTo_iff. split.
    - unfold norm_version. cbn [vfiles set_files]. unfold set_files. f_equal. rewrite map_map. apply list_fmap_ext.
      intros i L HL. symmetry. apply Hn, elem_of_all_levels. by apply (list_elem_of_lookup_2 _ i).
    - intros L HL. rewrite Hn by done. by apply chained_norm, Hc. }
  cbn. by rewrite (IH _ _ _ _ Hes Hi).
Qed.

(** What the builder of a version and an edit saves. *)
Lemma saved_levels v e cp b cp' :
  version_wf v -> edit_levels e -> (forall L f, is_level L -> f ∈ level_files v L -> (L, number f) ∉ pairs (newfiles e)) ->
  Apply ucmp e (Builder_make v) cp = Some (b, cp') ->
  forall L, is_level L -> set_ordered (saved_ b L) /\ forall f, f ∈ saved_ b L <->
    (f ∈ level_files v L /\ (L, number f) ∉ deletedfiles e) \/ f ∈ adds L (newfiles e).
Proof.
  intros Hv He Hfr Ha.
  destruct (Apply_spec e (Builder_make v) cp b cp') as (K1 & K2 & K3); [done|done|done| | |].
  { intros L f _. rewrite Builder_make_level. set_solver. }
  { intros L _. rewrite Builder_make_level. constructor. }
  assert (forall L f, is_level L -> f ∈ adds L (newfiles e) -> (L, number f) ∈ pairs (newfiles e)) as Hadds.
  { intros L f HL (g & Hg & ->)%elem_of_adds. apply list_elem_of_fmap. by exists (L, g). }
  intros L HL. destruct (K3 L HL) as (M1 & M2 & M3). rewrite Builder_make_level in M2, M3. cbn [addedFiles deletedset] in M2, M3.
  destruct (saved_ordered b L M1) as [N1 N2].
  - rewrite K2. by apply (wf_ordered _ Hv).
  - intros f g Hf [Hg|Hg]%M2 Heq; [by apply not_elem_of_nil in Hg|]. rewrite K2 in Hf.
    apply (Hfr L f HL Hf). rewrite Heq. by apply Hadds.
  - split; [done|]. intros f. rewrite N2, M2, M3, K2. cbn. rewrite !elem_of_nil. pose proof (Hadds L f HL) as Hp.
    pose proof (Hfr L f HL) as Hff.
    destruct (decide ((L, number f) ∈ deletedfiles e)), (decide ((L, number f) ∈ pairs (newfiles e))); tauto.
Qed.

(** Files of which one ends before the other begins, in the builder's order, are chained. *)
Definition apart (f g : file) : Prop :=
  Internal_Compare ucmp (largest f) (smallest g) = Lt \/ Internal_Compare ucmp (largest g) (smallest f) = Lt.

Lemma apart_chained L l : set_ordered l ->
  (0 < L -> forall f, f ∈ l -> Internal_Compare ucmp (smallest f) (largest f) <> Gt) ->
  (0 < L -> forall f g, f ∈ l -> g ∈ l -> f <> g -> apart f g) -> chain L l.
Proof.
  intros Hs Hf Hap i a b Ha Hb HL.
  assert (lt a b = true) as Hlt by (apply (sorted_lookup _ l i (S i) a b Hs); [lia|done..]).
  pose proof (list_elem_of_lookup_2 _ _ _ Ha) as Hain. pose proof (list_elem_of_lookup_2 _ _ _ Hb) as Hbin.
  destruct (Hap HL a b Hain Hbin (lt_neq a b Hlt)) as [?|Hba]; [done|]. exfalso.
  (* largest b < smallest a <= smallest b <= largest b *)
  assert (Internal_Compare ucmp (largest b) (smallest b) = Lt) as Hbb.
  { apply lt_spec in Hlt as [Hlt|[Heq _]]; [by apply (Internal_lt_trans _ (smallest a))|].
    rewrite Internal_opp, <- (Internal_eq_l _ _ _ Heq), <- Internal_opp. done. }
  apply (Hf HL b Hbin). by rewrite Internal_opp, Hbb.
Qed.

(** Installing an edit whose files are apart above level 0. *)
Lemma edit_installs v e cp b cp' :
  version_wf v -> edit_levels e -> (forall L f, is_level L -> f ∈ level_files v L -> (L, number f) ∉ pairs (newfiles e)) ->
  Apply ucmp e (Builder_make v) cp = Some (b, cp') ->
  (forall L f, 0 < L -> is_level L -> f ∈ saved_ b L -> Internal_Compare ucmp (smallest f) (largest f) <> Gt) ->
  (forall L f g, 0 < L -> is_level L -> f ∈ saved_ b L -> g ∈ saved_ b L -> f <> g -> apart f g) ->
  exists v', SaveTo ucmp b Version_make = Some v' /\ version_wf v' /\ forall L f, is_level L -> f ∈ level_files v' L <->
    (f ∈ level_files v L /\ (L, number f) ∉ deletedfiles e) \/ f ∈ adds L (newfiles e).
Proof.
  intros Hv He Hfr Ha Hk Hap. pose proof (saved_levels v e cp b cp' Hv He Hfr Ha) as Hs.
  assert (forall L, is_level L -> chain L (saved_ b L)) as Hc.
  { intros L HL. apply apart_chained; [by apply Hs|intros ? f; by apply (Hk L)|intros ? f g; by apply (Hap L)]. }
  eexists. split; [by apply SaveTo_iff|]. split.
  - apply (version_wf_saved b); [by apply SaveTo_iff|]. intros L HL. by apply Hs.
  - intros L f HL. rewrite level_files_map by done. by apply Hs.
Qed.

(** ** Properties *)

(** A builder applies an edit.  On a well-formed version, with an edit of new files
    whose numbers the version does not have in their levels: [SaveTo] of the builder
    trips no assert exactly when no two neighbours of a level above 0 overlap; then it
    saves a well-formed version whose level [L] has the files of the old
    level that the edit does not delete there and the files it adds there, each with its
    allowed seeks computed from its size. *)
Theorem builder_applies_edit v known e cp b cp' :
  version_wf v -> known_of v known -> edit_levels e -> fresh known [e] ->
  Apply ucmp e (Builder_make v) cp = Some (b, cp') ->
  (forall L f, is_level L -> f ∈ saved_ b L <->
     (f ∈ level_files v L /\ (L, number f) ∉ deletedfiles e) \/ f ∈ adds L (newfiles e)) /\
  ((exists v', SaveTo ucmp b Version_make = Some v') <-> forall L, is_level L -> chain L (saved_ b L)) /\
  forall v', SaveTo ucmp b Version_make = Some v' ->
    version_wf v' /\ forall L, is_level L -> level_files v' L = saved_ b L.
Proof.
  intros Hv Hk He [Hfr _] Ha.
  assert (forall L f, is_level L -> f ∈ level_files v L -> (L, number f) ∉ pairs (newfiles e)) as Hnew.
  { intros L f HL Hf Hp. apply (Hfr _ Hp). by apply Hk. }
  pose proof (saved_levels v e cp b cp' Hv He Hnew Ha) as Hs.
  split; [intros L f HL; by apply Hs|]. split.
  - split.
    + by intros [v' [_ Hc]%SaveTo_iff].
    + intros Hc. eexists. by apply SaveTo_iff.
  - intros v' Hv'. split; [apply (version_wf_saved b v' Hv'); intros L HL; by apply Hs|].
    apply SaveTo_iff in Hv' as [-> _]. intros L HL. by rewrite level_files_map.
Qed.

(** C21: Replaying the edits of a manifest gives the version the running store had.
    Starting from a well-formed version, when every edit adds only files with numbers
    new to their levels: if installing the edits one at a time, each through a builder of
    its own, ends in version [v'], then applying all of them to one builder, as recovery
    does, trips no assert and saves exactly the files of [v'], level by level and in
    order, with the same compaction pointers. *)
Theorem replay_edits v known edits cp v' cp' :
  version_wf v -> known_of v known -> Forall edit_levels edits -> fresh known edits ->
  install_all edits v cp = Some (v', cp') ->
  version_wf v' /\
  exists b, apply_all edits (Builder_make v) cp = Some (b, cp') /\
    SaveTo ucmp b Version_make = Some (set_files Version_make (vfiles v')).
Proof.
  intros Hv Hk He Hfr Hi.
  destruct (replay_describes edits (Builder_make v) v known cp v' cp') as (b & known' & Ha & Hd); [by apply describes_make|done..|].
  split; [apply Hd|]. exists b. split; [done|]. by apply (describes_saved b v' known').
Qed.
End Replay.

(** ** A concrete run *)

Definition demo_meta (num : Z) (a b : string) : file :=
  FileMetaData_make num 40000 (InternalKey_make (str a) 9 kTypeValue) (InternalKey_make (str b) 3 kTypeValue).

(** Two files flushed to level 0, the first moved to level 1, then the second compacted. *)
Definition demo_edits : list VersionEdit :=
  [add_newfile (add_newfile VersionEdit_make 0 (demo_meta 10 "a" "f")) 0 (demo_meta 11 "k" "p");
   add_newfile (DeleteFile VersionEdit_make 0 10) 1 (demo_meta 10 "a" "f");
   add_newfile (SetCompactPointer (DeleteFile VersionEdit_make 0 11) 0 (InternalKey_make (str "p") 3 kTypeValue))
     1 (demo_meta 12 "k" "p")].

Lemma demo_edits_levels : Forall edit_levels demo_edits.
Proof.
  repeat (apply Forall_cons; split); try apply Forall_nil.
  all: split; unfold is_level; apply (bool_decide_unpack _); vm_compute; exact I.
Qed.

Lemma demo_edits_fresh : fresh [] demo_edits.
Proof.
  repeat split; apply Forall_forall; apply (bool_decide_unpack _); vm_compute; exact I.
Qed.

Lemma replay_edits_witness :
  exists v' cp' b, install_all (ucmp := BytewiseComparatorImpl) demo_edits Version_make (replicate 7 []) = Some (v', cp') /\
    map (map number) (vfiles v') = [[]; [10; 12]; []; []; []; []; []] /\
    apply_all (ucmp := BytewiseComparatorImpl) demo_edits (Builder_make Version_make) (replicate 7 []) = Some (b, cp') /\
    SaveTo BytewiseComparatorImpl b Version_make = Some (set_files Version_make (vfiles v')).
Proof.
  destruct (install_all (ucmp := BytewiseComparatorImpl) demo_edits Version_make (replicate 7 [])) as [[v' cp']|] eqn:Hi;
    [|vm_compute in Hi; discriminate].
  destruct (replay_edits (ucmp := BytewiseComparatorImpl) Version_make [] demo_edits (replicate 7 []) v' cp'
    Version_make_wf Version_make_known demo_edits_levels demo_edits_fresh Hi) as [_ (b & Ha & Hs)].
  exists v', cp', b. split; [reflexivity|]. split; [|split; [exact Ha|exact Hs]].
  vm_compute in Hi. injection Hi as <- _. reflexivity.
Defined.

Lemma builder_applies_edit_witness :
  let e := default VersionEdit_make (head demo_edits) in
  exists b cp', Apply BytewiseComparatorImpl e (Builder_make Version_make) (replicate 7 []) = Some (b, cp') /\
    forall L f, is_level L -> f ∈ saved (ucmp := BytewiseComparatorImpl) b L <->
     (f ∈ level_files Version_make L /\ (L, number f) ∉ deletedfiles e) \/ f ∈ adds L (newfiles e).
Proof.
  intros e. destruct (Apply BytewiseComparatorImpl e (Builder_make Version_make) (replicate 7 [])) as [[b cp']|] eqn:Ha;
    [|vm_compute in Ha; discriminate].
  exists b, cp'. split; [reflexivity|].
  destruct (builder_applies_edit (ucmp := BytewiseComparatorImpl) Version_make [] e (replicate 7 []) b cp') as [Hf _].
  - exact Version_make_wf.
  - exact Version_make_known.
  - exact (Forall_inv demo_edits_levels).
  - split; [exact (proj1 demo_edits_fresh)|exact I].
  - exact Ha.
  - exact Hf.
Defined.
