(* ===== verification/VersionSet.v ===== *)
(** The set of versions and its manifest (the class [VersionSet] of
    redisdb/db/versionset.h and versionset.cc; [DB::NewDB] of db.cc).

    The manifest is the log of [LogFormat] whose records are encoded edits.  [dummyversions]
    is the list the code keeps; its last element is the current version. *)
From Stdlib Require Import Sorted SpecFloat.
From stdpp Require Import sorting sets.
From S2P Require Import Prelude Coding Status Env LogFormat DbFormat Block Iterators Table VersionEdit FileName FileIO Version VersionBuilder.
Local Open Scope Z_scope.

(** ** Scores: doubles *)

Definition double_of (z : Z) : spec_float := binary_normalize 53 1024 z 0 false.
Definition ddiv (a b : spec_float) : spec_float := SFdiv 53 1024 a b.
Definition dmul (a b : spec_float) : spec_float := SFmul 53 1024 a b.
Definition dgt (a b : spec_float) : bool := match SFcompare a b with Some Gt => true | _ => false end.
Definition dge (a b : spec_float) : bool :=
  match SFcompare a b with Some Gt => true | Some Eq => true | _ => false end.

(** [MaxBytesForLevel]: the [while (level > 1)] loop. *)
Fixpoint max_bytes_loop (n : nat) (result : spec_float) : spec_float :=
  match n with O => result | S n => max_bytes_loop n (dmul result (double_of 10)) end.
Definition MaxBytesForLevel (level : Z) : spec_float :=
  max_bytes_loop (Z.to_nat (level - 1)) (dmul (double_of 10) (double_of 1048576)).

Definition level_score (v : Version) (level : Z) : spec_float :=
  let files := level_files v level in
  if level =? 0 then ddiv (double_of (len files)) (double_of kL0_CompactionTrigger)
  else ddiv (double_of (u64 (TotalFileSize files))) (MaxBytesForLevel level).

(** [Finalize]: the level with the best score. *)
Definition Finalize (v : Version) : Version :=
  let '(bestLevel, bestScore) :=
    fold_left (fun best level =>
      let score := level_score v level in
      if dgt score best.2 then (level, score) else best)
      (seqZ 0 (kNumLevels - 1)) (-1, double_of (-1)) in
  MkVersion (vfiles v) (filetocompact v) (filetocompactlevel v) bestScore bestLevel.

(** ** The state *)

Section VersionSet.
Context (ucmp : Comparator) (taddr recordaddr readaddr : Z).
Context {E F G : Type} `{FileEnv E F G} `{AppendFile F} `{ReadFile G}.
(** [dbname] and the options used. *)
Context (dbname : bytes) (reuselogs : bool) (maxfilesize : Z).

Record VersionSet := MkVersionSet {
  dummyversions : list Version;
  vs_nextfilenumber : Z;
  manifestfilenumber : Z;
  vs_lastsequence : Z;
  vs_lognumber : Z;
  vs_prevlognumber : Z;
  compactPointer : list bytes;
  descriptorlog : option (LogWriter (F := F))    (* with [descriptorfile] as its file *)
}.

Definition current (vs : VersionSet) : option Version := last (dummyversions vs).

Definition AppendVersion (v : Version) (vs : VersionSet) : VersionSet :=
  MkVersionSet (tail (dummyversions vs) ++ [v]) (vs_nextfilenumber vs) (manifestfilenumber vs)
    (vs_lastsequence vs) (vs_lognumber vs) (vs_prevlognumber vs) (compactPointer vs) (descriptorlog vs).

Definition VersionSet_make : VersionSet :=
  AppendVersion Version_make (MkVersionSet [] 2 0 0 0 0 (replicate (Z.to_nat kNumLevels) []) None).

Definition set_next (n : Z) (vs : VersionSet) : VersionSet :=
  MkVersionSet (dummyversions vs) n (manifestfilenumber vs) (vs_lastsequence vs) (vs_lognumber vs)
    (vs_prevlognumber vs) (compactPointer vs) (descriptorlog vs).
Definition set_logs (log prevlog : Z) (vs : VersionSet) : VersionSet :=
  MkVersionSet (dummyversions vs) (vs_nextfilenumber vs) (manifestfilenumber vs) (vs_lastsequence vs) log
    prevlog (compactPointer vs) (descriptorlog vs).
Definition set_pointers (cp : list bytes) (vs : VersionSet) : VersionSet :=
  MkVersionSet (dummyversions vs) (vs_nextfilenumber vs) (manifestfilenumber vs) (vs_lastsequence vs)
    (vs_lognumber vs) (vs_prevlognumber vs) cp (descriptorlog vs).
Definition set_log (l : option LogWriter) (vs : VersionSet) : VersionSet :=
  MkVersionSet (dummyversions vs) (vs_nextfilenumber vs) (manifestfilenumber vs) (vs_lastsequence vs)
    (vs_lognumber vs) (vs_prevlognumber vs) (compactPointer vs) l.

Definition GetLastSequence (vs : VersionSet) : Z := vs_lastsequence vs.
Definition vs_SetLastSequence (s : Z) (vs : VersionSet) : option VersionSet :=
  if s <? vs_lastsequence vs then None
  else Some (MkVersionSet (dummyversions vs) (vs_nextfilenumber vs) (manifestfilenumber vs) s
    (vs_lognumber vs) (vs_prevlognumber vs) (compactPointer vs) (descriptorlog vs)).

Definition NeedsCompaction (vs : VersionSet) : option bool :=
  let? v := current vs in
  Some (dge (compactionscore v) (double_of 1) || match filetocompact v with Some _ => true | None => false end).

Definition NewFileNumber (vs : VersionSet) : Z * VersionSet :=
  (vs_nextfilenumber vs, set_next (u64 (vs_nextfilenumber vs + 1)) vs).
Definition ReuseFileNumber (n : Z) (vs : VersionSet) : VersionSet :=
  if vs_nextfilenumber vs =? u64 (n + 1) then set_next n vs else vs.
Definition MarkFileNumberUsed (n : Z) (vs : VersionSet) : VersionSet :=
  if vs_nextfilenumber vs <=? n then set_next (u64 (n + 1)) vs else vs.

Definition NumLevelFiles (vs : VersionSet) (level : Z) : option Z :=
  if (0 <=? level) && (level <? kNumLevels) then let? v := current vs in Some (len (level_files v level)) else None.
Definition NumLevelBytes (vs : VersionSet) (level : Z) : option Z :=
  if (0 <=? level) && (level <? kNumLevels) then let? v := current vs in Some (TotalFileSize (level_files v level)) else None.

(** [AddLiveFiles] over [live], a set of numbers. *)
Definition AddLiveFiles (vs : VersionSet) (live : list Z) : list Z :=
  fold_left (fun live v =>
    fold_left (fun live level => fold_left (fun live f => set_insert Z.ltb (number f) live) (level_files v level) live)
      all_levels live) (dummyversions vs) live.

(** ** Writing the manifest *)

(** The edit of [WriteSnapshot]. *)
Definition snapshot_edit (v : Version) (cp : list bytes) : VersionEdit :=
  let edit := SetComparatorName VersionEdit_make (Name ucmp) in
  let edit := fold_left (fun edit level =>
    match cp !!! Z.to_nat level with
    | [] => edit
    | key => SetCompactPointer edit level key
    end) all_levels edit in
  fold_left (fun edit level =>
    fold_left (fun edit f => AddFile edit level (number f) (filesize f) (smallest f) (largest f))
      (level_files v level) edit) all_levels edit.

(** [descriptorlog->AddRecord] of an encoded edit. *)
Definition add_edit (edit : VersionEdit) (log : LogWriter (F := F)) : option (Status * LogWriter) :=
  let? record := EncodeTo edit [] in AddRecord taddr log recordaddr record.

Definition WriteSnapshot (vs : VersionSet) (log : LogWriter (F := F)) : option (Status * LogWriter) :=
  let? v := current vs in add_edit (snapshot_edit v (compactPointer vs)) log.

Definition sync_log (log : LogWriter (F := F)) : Status * LogWriter :=
  let '(s, f) := fsync (E := E) (G := G) (dest log) in (s, MkLogWriter f (blockoffset log)).

(** The edit with the counters that [LogAndApply] fills in. *)
Definition complete_edit (edit : VersionEdit) (vs : VersionSet) : option VersionEdit :=
  let? edit :=
    if haslognumber edit then
      if (vs_lognumber vs <=? lognumber edit) && (lognumber edit <? vs_nextfilenumber vs) then Some edit else None
    else Some (SetLogNumber edit (vs_lognumber vs)) in
  let edit := if hasprevlognumber edit then edit else SetPrevLogNumber edit (vs_prevlognumber vs) in
  let edit := SetNextFile edit (vs_nextfilenumber vs) in
  Some (SetLastSequence edit (vs_lastsequence vs)).

(** [LogAndApply]: the status, the edit as it was completed, the set and the environment. *)
Definition LogAndApply (edit : VersionEdit) (vs : VersionSet) (env : E)
    : option (Status * VersionEdit * VersionSet * E) :=
  let? edit := complete_edit edit vs in
  let? cur := current vs in
  let? (builder, cp) := Apply ucmp edit (Builder_make cur) (compactPointer vs) in
  let vs := set_pointers cp vs in
  let? v := SaveTo ucmp builder Version_make in
  let v := Finalize v in
  (* the first call creates the manifest *)
  let? (s, newManifestFile, log, env) :=
    match descriptorlog vs with
    | Some log => Some (OK, [], Some log, env)
    | None =>
        let? name := DescriptorFileName dbname (manifestfilenumber vs) in
        let '(s, file, env) := NewWritableFile (G := G) env name in
        if ok s then
          let? file := file in
          let? (s, log) := WriteSnapshot vs (LogWriter_make file 0) in
          Some (s, name, Some log, env)
        else Some (s, name, None, env)
    end in
  (* the record *)
  let? (s, log) :=
    if ok s then
      let? log := log in
      let? (s, log) := add_edit edit log in
      let '(s, log) := if ok s then sync_log log else (s, log) in
      Some (s, Some log)
    else Some (s, log) in
  let? (s, env) :=
    if ok s && negb (bool_decide (newManifestFile = []))
    then SetCurrentFile (F := F) (G := G) env dbname (manifestfilenumber vs) else Some (s, env) in
  let vs := set_log log vs in
  if ok s then Some (s, edit, set_logs (lognumber edit) (prevlognumber edit) (AppendVersion v vs), env)
  else if negb (bool_decide (newManifestFile = [])) then
    Some (s, edit, set_log None vs, snd (RemoveFile (F := F) (G := G) env newManifestFile))
  else Some (s, edit, vs, env).

(** [DB::NewDB]. *)
Definition NewDB (env : E) : option (Status * E) :=
  let newdb := SetLastSequence (SetNextFile (SetLogNumber VersionEdit_make 0) 2) 0 in
  let? manifest := DescriptorFileName dbname 1 in
  let '(s, file, env) := NewWritableFile (G := G) env manifest in
  if negb (ok s) then Some (s, env)
  else
    let? file := file in
    let? (s, log) := add_edit newdb (LogWriter_make file 0) in
    let s := if ok s then (fclose (E := E) (G := G) (dest log)).1 else s in
    if ok s then SetCurrentFile (F := F) (G := G) env dbname 1
    else Some (s, snd (RemoveFile (F := F) (G := G) env manifest)).

(** ** Reading the manifest *)

(** What [Recover] has read: the counters with their [have] flags. *)
Record Counters := MkCounters {
  r_lognumber : option Z;
  r_prevlognumber : option Z;
  r_nextfile : option Z;
  r_lastsequence : option Z
}.

Definition note (have : bool) (n : Z) (old : option Z) : option Z := if have then Some n else old.

Definition read_counters (edit : VersionEdit) (c : Counters) : Counters :=
  MkCounters (note (haslognumber edit) (lognumber edit) (r_lognumber c))
    (note (hasprevlognumber edit) (prevlognumber edit) (r_prevlognumber c))
    (note (hasnextfilenumber edit) (nextfilenumber edit) (r_nextfile c))
    (note (haslastsequence edit) (lastsequence edit) (r_lastsequence c)).

(** The [while] loop.  [LogReporter::Corruption] has an empty body, so what the reader
    drops does not reach [s]. *)
Fixpoint recover_loop (fuel : nat) (r : LogReader (G := G)) (s : Status) (builder : Builder) (cp : list bytes)
    (c : Counters) : option (Status * Builder * list bytes * Counters) :=
  match fuel with
  | O => None
  | S fuel' =>
      let? (more, record, r) := ReadRecord readaddr r in
      if more && ok s then
        let? (s, edit) := DecodeFrom VersionEdit_make record in
        let? (builder, cp) := if ok s then Apply ucmp edit builder cp else Some (builder, cp) in
        recover_loop fuel' r s builder cp (read_counters edit c)
      else Some (s, builder, cp, c)
  end.

(** [ReuseManifest]; the log continues at the end of the file. *)
Definition ReuseManifest (dscname dscbase : bytes) (vs : VersionSet) (env : E) : option (bool * VersionSet * E) :=
  if negb reuselogs then Some (false, vs, env)
  else
    match ParseFileName dscbase with
    | Some (manifestNumber, kDescriptorFile) =>
        let '(s, manifestSize) := GetFileSize (F := F) (G := G) env dscname in
        if negb (ok s) || (maxfilesize <=? manifestSize) then Some (false, vs, env)
        else
          match descriptorlog vs with
          | Some _ => None
          | None =>
              let '(r, file, env) := NewAppendableFile (G := G) env dscname in
              if negb (ok r) then Some (false, vs, env)
              else
                let? file := file in
                let vs := set_log (Some (LogWriter_make file manifestSize)) vs in
                Some (true, MkVersionSet (dummyversions vs) (vs_nextfilenumber vs) manifestNumber (vs_lastsequence vs)
                  (vs_lognumber vs) (vs_prevlognumber vs) (compactPointer vs) (descriptorlog vs), env)
          end
    | _ => Some (false, vs, env)
    end.

(** The checks after the loop. *)
Definition check_counters (s : Status) (c : Counters) (vs : VersionSet) : Status * VersionSet :=
  if ok s then
    let s :=
      match r_nextfile c, r_lognumber c, r_lastsequence c with
      | None, _, _ => Corruption (str "no meta-nextfile entry in descriptor") []
      | _, None, _ => Corruption (str "no meta-lognumber entry in descriptor") []
      | _, _, None => Corruption (str "no last-sequence-number entry in descriptor") []
      | _, _, _ => s
      end in
    let vs := MarkFileNumberUsed (default 0 (r_prevlognumber c)) vs in
    (s, MarkFileNumberUsed (default 0 (r_lognumber c)) vs)
  else (s, vs).

(** [Recover]: the status, [*manifest], the set and the environment. *)
Definition Recover (manifest : bool) (vs : VersionSet) (env : E) : option (Status * bool * VersionSet * E) :=
  let? (s, cur) := ReadFileToString (F := F) (G := G) env (CurrentFileName dbname) in
  if negb (ok s) then Some (s, manifest, vs, env)
  else
    match last cur with
    | Some x0a =>
        let cur := removelast cur in
        let dscname := dbname ++ str "/" ++ cur in
        let '(s, file) := NewSequentialFile (F := F) env dscname in
        if negb (ok s) then
          Some (if IsNotFound s then Corruption (str "CURRENT points to a non-existent file") (ToString s) else s,
            manifest, vs, env)
        else
          let? file := file in
          let? v := current vs in
          let? (s, builder, cp, c) :=
            recover_loop (S (length (remaining file))) (LogReader_make file true true 0) s (Builder_make v)
              (compactPointer vs) (MkCounters None None None None) in
          let vs := set_pointers cp vs in
          let '(s, vs) := check_counters s c vs in
          if negb (ok s) then Some (s, manifest, vs, env)
          else
            let? v := SaveTo ucmp builder Version_make in
            let vs := AppendVersion (Finalize v) vs in
            let nextFile := default 0 (r_nextfile c) in
            let vs := MkVersionSet (dummyversions vs) (u64 (nextFile + 1)) nextFile (default 0 (r_lastsequence c))
              (default 0 (r_lognumber c)) (default 0 (r_prevlognumber c)) (compactPointer vs) (descriptorlog vs) in
            let? (reused, vs, env) := ReuseManifest dscname cur vs env in
            Some (s, if reused : bool then manifest else true, vs, env)
    | _ => Some (Corruption (str "CURRENT file does not end with newline") [], manifest, vs, env)
    end.
End VersionSet.

(** ** The manifest is a log of edits *)

Section Manifest.
Context {ucmp : Comparator} {Hok : ComparatorOk ucmp (fun _ => True)}.
Context (taddr recordaddr readaddr : Z).
Context {E F G : Type} `{FileEnv E F G} `{AppendFileOk F} {HE : FileEnvOk E F G} {good : G -> Prop} `{ReadFileOk G good}.
Context (dbname : bytes) (maxfilesize : Z).

Definition record_of (e : VersionEdit) : bytes := fields_bytes (fields e).

Definition recordable (e : VersionEdit) : Prop := edit_ok e /\ keys_set e.

Abbreviation fragments := (list (list (RecordType * bytes))).

(** The log holds the records of [es], each in its fragments. *)
Definition manifest_holds (log : LogWriter (F := F)) (es : list VersionEdit) (fragss : fragments) : Prop :=
  Forall2 (pieces true) (map record_of es) fragss /\ frags_fit 0 (concat fragss) /\
  contents (dest log) = layout 0 (concat fragss) /\ healthy (dest log) /\
  blockoffset log = end_offset 0 (concat fragss) /\ 0 <= blockoffset log <= kBlockSize /\ Forall recordable es.

Lemma manifest_make f : healthy f -> contents f = [] -> manifest_holds (LogWriter_make f 0) [] [].
Proof.
  intros Hf Hc. split; [constructor|]. split; [done|]. split; [done|]. split; [done|].
  split; [done|]. split; [vm_compute; split; congruence|constructor].
Qed.

Lemma end_offset_app o a b : end_offset o (a ++ b) = end_offset (end_offset o a) b.
Proof. unfold end_offset. by rewrite fold_left_app. Qed.

Lemma add_edit_ok log es fragss e :
  manifest_holds log es fragss -> recordable e ->
  exists log' frags, add_edit taddr recordaddr e log = Some (OK, log') /\ manifest_holds log' (es ++ [e]) (fragss ++ [frags]).
Proof.
  intros (HF & Hfit & Hc & Hh & Ho & Hr & Hall) [He Hk]. unfold add_edit. rewrite EncodeTo_ok by done. cbn [app].
  destruct (AddRecord_ok taddr log recordaddr (fields_bytes (fields e)) Hh Hr)
    as (log' & frags & -> & Hh' & Hr' & Hc' & Ho' & Hfit' & Hp).
  exists log', frags. split; [done|]. unfold manifest_holds. rewrite concat_app. cbn [concat]. rewrite app_nil_r.
  split; [rewrite map_app; by apply Forall2_app; [|repeat constructor]|].
  rewrite Ho in Ho', Hc', Hfit'. split; [by apply frags_fit_app|]. split; [by rewrite Hc', Hc, layout_app|].
  split; [done|]. split; [by rewrite Ho', end_offset_app|]. split; [done|]. apply Forall_app. split; [done|]. constructor; [done|constructor].
Qed.

(** *** Reading the records back *)

Lemma Apply_read_back e b cp : Apply ucmp (read_back VersionEdit_make e) b cp = Apply ucmp e b cp.
Proof.
  unfold Apply. cbn [compactpointers read_back VersionEdit_make app deletedfiles newfiles].
  destruct (apply_pointers _ _) as [cp'|]; [|done]. f_equal. f_equal.
  generalize (fold_left (fun b p => delete_step p b) (deletedfiles e) b). intros b'. revert b'.
  induction (newfiles e) as [|[l f] fs IH]; intros b'; [done|]. cbn [map fold_left]. apply IH.
Qed.

Definition counters_of (e : VersionEdit) : Counters :=
  MkCounters (Some (lognumber e)) (Some (prevlognumber e)) (Some (nextfilenumber e)) (Some (lastsequence e)).

(** The edits that [LogAndApply] writes have all counters. *)
Definition complete (e : VersionEdit) : Prop :=
  haslognumber e = true /\ hasprevlognumber e = true /\ hasnextfilenumber e = true /\ haslastsequence e = true.

Lemma read_counters_complete e c : complete e -> read_counters (read_back VersionEdit_make e) c = counters_of e.
Proof. intros (Ha & Hb & Hc & Hd). unfold read_counters, counters_of. cbn. by rewrite Ha, Hb, Hc, Hd. Qed.

Definition all_counters (es : list VersionEdit) (c : Counters) : Counters :=
  fold_left (fun c e => read_counters (read_back VersionEdit_make e) c) es c.

Lemma recover_loop_ok es fuel : forall fuel' r r' b cp c b' cp',
  read_all fuel readaddr r = Some (map record_of es, r') -> Forall recordable es ->
  (length es < fuel')%nat -> apply_all (ucmp := ucmp) es b cp = Some (b', cp') ->
  recover_loop ucmp readaddr fuel' r OK b cp c = Some (OK, b', cp', all_counters es c).
Proof.
  revert fuel. induction es as [|e es IH]; intros fuel fuel' r r' b cp c b' cp' Hr Hall Hf Ha;
    (destruct fuel as [|fuel]; [done|]); (destruct fuel' as [|fuel']; [cbn in Hf; lia|]);
    rewrite read_all_S in Hr; cbn [recover_loop].
  - destruct (ReadRecord readaddr r) as [[[more record] r1]|]; [|done]. cbn in Hr |- *. destruct more.
    + by destruct (read_all fuel readaddr r1) as [[rs r2]|].
    + injection Ha as <- <-. done.
  - destruct (ReadRecord readaddr r) as [[[more record] r1]|]; [|done]. cbn in Hr |- *. destruct more; [|done].
    destruct (read_all fuel readaddr r1) as [[rs r2]|] eqn:Hr1; [|done]. cbn in Hr. injection Hr as Hrec Hrs Hr2.
    subst record rs r2. apply Forall_cons in Hall as [[He Hk] Hall].
    unfold record_of at 1. rewrite DecodeFrom_written by done. cbn [ok OK].
    rewrite Apply_read_back. cbn [apply_all] in Ha. destruct (Apply ucmp e b cp) as [[b1 cp1]|]; [|done]. cbn in Ha |- *.
    cbn in Hf. by apply (IH fuel fuel' r1 r' b1 cp1 _ b' cp'); [|..|lia|].
Qed.

(** A record takes at least a byte. *)
Lemma layout_records rs fragss : Forall2 (pieces true) rs fragss ->
  forall o, (length rs <= length (layout o (concat fragss)))%nat.
Proof.
  induction 1 as [|data frags rs fragss Hp HF IH]; intros o; [cbn; lia|]. cbn [concat length].
  rewrite layout_app, length_app. specialize (IH (end_offset o frags)).
  assert (0 < length (layout o frags))%nat; [|lia].
  destruct Hp; cbn [layout]; rewrite !length_app; pose proof (length_physical (fragment_type b true) p);
    pose proof (length_physical (fragment_type b false) p); unfold kHeaderSize in *; cbn [fst snd]; lia.
Qed.

(** What is left of the manifest after a crash are its first records. *)
Lemma manifest_read log es fragss g n :
  manifest_holds log es fragss -> good g -> remaining g = take n (contents (dest log)) ->
  exists k r', (k <= length es)%nat /\ (k <= length (remaining g))%nat /\
    read_all (S (length es)) readaddr (LogReader_make g true true 0) = Some (map record_of (take k es), r') /\
    forall j, (j <= length es)%nat -> (length (layout 0 (concat (take j fragss))) <= n)%nat -> (j <= k)%nat.
Proof.
  intros (HF & Hfit & Hc & Hh & Ho & Hr & Hall) Hg Hrem. rewrite Hc in Hrem.
  pose proof (LogReader_make_inv g true true Hg) as Hinv.
  pose proof (Forall2_length _ _ _ HF) as Hlen. rewrite length_map in Hlen.
  destruct (read_all_spec readaddr (map record_of es) fragss HF _ kBlockSize (remaining g) Hinv) as (k & r' & Hk & Hread & _ & Hj).
  - rewrite layout_block_end, Hrem. apply prefix_take.
  - by apply frags_fit_block_end.
  - rewrite length_map in *. exists k, r'. split; [done|]. split; [|split].
    + pose proof (layout_records _ _ (Forall2_take _ _ _ k HF) 0) as Hb.
      rewrite length_take, length_map, Nat.min_l in Hb by done.
      pose proof (proj2 (Hj k Hk) (Nat.le_refl k)) as Hle. rewrite layout_block_end in Hle. lia.
    + by rewrite Hread, firstn_map.
    + intros j Hjl Hn. apply (Hj j Hjl). rewrite layout_block_end, Hrem, length_take.
      assert (length (layout 0 (concat (take j fragss))) <= length (layout 0 (concat fragss)))%nat; [|lia].
      rewrite <- (take_drop j fragss) at 2. rewrite concat_app, layout_app, length_app. lia.
Qed.

(** *** The snapshot *)

Definition version_pairs (v : Version) : list (Z * Z) :=
  concat (map (fun L => map (fun f => (L, number f)) (level_files v L)) all_levels).

Definition bare (f : file) : file := FileMetaData_make (number f) (filesize f) (smallest f) (largest f).

Definition snapshot_files (v : Version) : list (Z * file) :=
  concat (map (fun L => map (fun f => (L, bare f)) (level_files v L)) all_levels).
Definition snapshot_pointers (cp : list bytes) : list (Z * InternalKey) :=
  concat (map (fun L => match cp !!! Z.to_nat L with [] => [] | key => [(L, key)] end) all_levels).

Definition with_files (e : VersionEdit) (l : list (Z * file)) : VersionEdit :=
  MkVersionEdit (comparator e) (lognumber e) (prevlognumber e) (nextfilenumber e) (lastsequence e)
    (hascomparator e) (haslognumber e) (hasprevlognumber e) (hasnextfilenumber e) (haslastsequence e)
    (compactpointers e) (deletedfiles e) (newfiles e ++ l).
Definition with_pointers (e : VersionEdit) (l : list (Z * InternalKey)) : VersionEdit :=
  MkVersionEdit (comparator e) (lognumber e) (prevlognumber e) (nextfilenumber e) (lastsequence e)
    (hascomparator e) (haslognumber e) (hasprevlognumber e) (hasnextfilenumber e) (haslastsequence e)
    (compactpointers e ++ l) (deletedfiles e) (newfiles e).

Lemma snapshot_level L l : forall e,
  fold_left (fun e f => AddFile e L (number f) (filesize f) (smallest f) (largest f)) l e =
    with_files e (map (fun f => (L, bare f)) l).
Proof.
  induction l as [|f l IH]; intros e; cbn [fold_left map]; [unfold with_files; rewrite app_nil_r; by destruct e|].
  rewrite IH. unfold with_files, AddFile, add_newfile. cbn. by rewrite <- app_assoc.
Qed.

Lemma snapshot_edit_eq v cp :
  snapshot_edit ucmp v cp =
    with_files (with_pointers (SetComparatorName VersionEdit_make (Name ucmp)) (snapshot_pointers cp)) (snapshot_files v).
Proof.
  unfold snapshot_edit, snapshot_files, snapshot_pointers.
  assert (forall ls e, fold_left (fun e L => match cp !!! Z.to_nat L with [] => e | key => SetCompactPointer e L key end) ls e =
    with_pointers e (concat (map (fun L => match cp !!! Z.to_nat L with [] => [] | key => [(L, key)] end) ls))) as Hp.
  { induction ls as [|L ls IH]; intros e; cbn [fold_left map concat]; [unfold with_pointers; rewrite app_nil_r; by destruct e|].
    rewrite IH. destruct (cp !!! Z.to_nat L); unfold with_pointers; cbn; [done|]. by rewrite <- app_assoc. }
  rewrite Hp. set (e := with_pointers _ _). clearbody e. revert e.
  induction all_levels as [|L ls IH]; intros e; cbn [fold_left map concat]; [unfold with_files; rewrite app_nil_r; by destruct e|].
  rewrite snapshot_level, IH. unfold with_files. cbn. by rewrite <- app_assoc.
Qed.

Lemma elem_of_snapshot v L f : (L, f) ∈ snapshot_files v <-> is_level L /\ exists g, g ∈ level_files v L /\ f = bare g.
Proof.
  unfold snapshot_files. rewrite list_elem_of_In, in_concat. split.
  - intros (l & (L' & <- & HL)%in_map_iff & Hl). apply list_elem_of_In, elem_of_all_levels in HL.
    apply in_map_iff in Hl as (g & [= <- <-] & Hg). split; [done|]. exists g. split; [by apply list_elem_of_In|done].
  - intros (HL & g & Hg & ->). exists (map (fun f => (L, bare f)) (level_files v L)). split.
    + apply in_map_iff. exists L. split; [done|]. by apply list_elem_of_In, elem_of_all_levels.
    + apply in_map_iff. exists g. split; [done|]. by apply list_elem_of_In.
Qed.

Lemma snapshot_pairs v : map (fun p => (p.1, number p.2)) (snapshot_files v) = version_pairs v.
Proof.
  unfold snapshot_files, version_pairs. rewrite concat_map, map_map. f_equal. apply map_ext. intros L. by rewrite map_map.
Qed.

(** What a version must satisfy to be written. *)
Record version_fits (v : Version) : Prop := {
  vf_wf : version_wf (ucmp := ucmp) v;
  vf_nodup : NoDup (version_pairs v);
  vf_files L f : is_level L -> f ∈ level_files v L -> file_fits f /\ smallest f <> [] /\ largest f <> []
}.

Lemma version_pairs_known v : known_of v (version_pairs v).
Proof.
  intros L f HL Hf. rewrite <- snapshot_pairs. apply list_elem_of_fmap. exists (L, bare f). split; [done|].
  apply elem_of_snapshot. eauto.
Qed.

Lemma snapshot_edit_levels v cp : version_fits v -> edit_levels (snapshot_edit ucmp v cp).
Proof.
  intros Hv. rewrite snapshot_edit_eq. split; cbn; [constructor| |].
  - apply Forall_forall. intros [L f] HL. by apply elem_of_snapshot in HL as [? _].
  - rewrite snapshot_pairs. apply Hv.
Qed.

Lemma snapshot_recordable v (cp : list bytes) :
  version_fits v -> key_fits (Name ucmp) -> Forall key_fits cp -> recordable (snapshot_edit ucmp v cp).
Proof.
  intros Hv Hn Hcp. rewrite snapshot_edit_eq.
  assert (forall p, p ∈ snapshot_pointers cp -> is_level p.1 /\ key_fits p.2 /\ p.2 <> []) as Hp.
  { intros p. unfold snapshot_pointers. rewrite list_elem_of_In, in_concat. intros (l & (L & <- & HL)%in_map_iff & Hl).
    apply list_elem_of_In, elem_of_all_levels in HL. destruct (cp !!! Z.to_nat L) as [|b k] eqn:Hk; [done|].
    destruct Hl as [<-|[]]. split; [done|]. split; [|done]. cbn [snd]. rewrite <- Hk.
    rewrite list_lookup_total_alt in Hk |- *. destruct (cp !! Z.to_nat L) as [x|] eqn:Hx; rewrite ?Hx in Hk; [|done].
    rewrite Forall_forall in Hcp. apply Hcp. by eapply list_elem_of_lookup_2. }
  assert (is_u64 0) as H0u by (vm_compute; split; congruence).
  assert (Forall (fun p => is_level p.1 /\ file_fits p.2 /\ smallest p.2 <> [] /\ largest p.2 <> []) (snapshot_files v)) as Hf.
  { apply Forall_forall. intros [L f] (HL & g & Hg & ->)%elem_of_snapshot. split; [done|]. exact (vf_files v Hv L g HL Hg). }
  assert (Forall (fun p => is_level p.1 /\ key_fits p.2 /\ p.2 <> []) (snapshot_pointers cp)) as Hc by (by apply Forall_forall).
  split; [constructor; [exact Hn|exact H0u|exact H0u|exact H0u|exact H0u| |constructor|constructor|]|split].
  - eapply Forall_impl; [exact Hc|]. by intros p (? & ? & ?).
  - eapply Forall_impl; [exact Hf|]. by intros p (? & ? & ?).
  - eapply Forall_impl; [exact Hc|]. by intros p (? & ? & ?).
  - eapply Forall_impl; [exact Hf|]. by intros p (? & ? & ?).
Qed.

(** Reading the pointers back. *)
Lemma snapshot_pointers_ok cp :
  length cp = Z.to_nat kNumLevels ->
  apply_pointers (snapshot_pointers cp) (replicate (Z.to_nat kNumLevels) []) = Some cp.
Proof.
  intros Hl. destruct cp as [|k0 [|k1 [|k2 [|k3 [|k4 [|k5 [|k6 [|]]]]]]]]; try discriminate Hl.
  destruct k0, k1, k2, k3, k4, k5, k6; reflexivity.
Qed.

(** A snapshot restores its version, up to the seeks. *)
Lemma install_snapshot v cp :
  version_fits v -> length cp = Z.to_nat kNumLevels ->
  install_all (ucmp := ucmp) [snapshot_edit ucmp v cp] Version_make (replicate (Z.to_nat kNumLevels) []) =
    Some (norm_version v, cp).
Proof.
  intros Hv Hcp. cbn [install_all]. set (snap := snapshot_edit ucmp v cp).
  destruct (Apply ucmp snap (Builder_make Version_make) (replicate (Z.to_nat kNumLevels) [])) as [[b cp']|] eqn:Ha.
  2:{ exfalso. unfold Apply in Ha. unfold snap in Ha. rewrite snapshot_edit_eq in Ha.
      cbn [compactpointers with_files with_pointers SetComparatorName VersionEdit_make app] in Ha.
      by rewrite (snapshot_pointers_ok cp Hcp) in Ha. }
  assert (cp' = cp) as ->.
  { pose proof (Apply_pointers (ucmp := ucmp) snap (Builder_make Version_make) (replicate (Z.to_nat kNumLevels) [])) as Hp.
    rewrite Ha in Hp. unfold snap in Hp. rewrite snapshot_edit_eq in Hp.
    cbn [compactpointers with_files with_pointers SetComparatorName VersionEdit_make app fmap option_fmap option_map snd] in Hp.
    rewrite (snapshot_pointers_ok cp Hcp) in Hp. by injection Hp. }
  destruct (Apply_spec (ucmp := ucmp) snap (Builder_make Version_make) (replicate (Z.to_nat kNumLevels) []) b cp)
    as (K1 & K2 & K3); [done|by apply snapshot_edit_levels|done| | |].
  { intros L f _. rewrite Builder_make_level. set_solver. }
  { intros L _. rewrite Builder_make_level. constructor. }
  assert (forall L, is_level L -> saved (ucmp := ucmp) b L = map norm (level_files v L)) as Hs.
  { intros L HL. destruct (K3 L HL) as (M1 & M2 & M3). rewrite Builder_make_level in M2, M3. cbn [addedFiles deletedset] in M2, M3.
    destruct (saved_ordered (ucmp := ucmp) b L M1) as [N1 N2].
    - rewrite K2. cbn [base Builder_make]. rewrite Version_make_level by done. constructor.
    - rewrite K2. cbn [base Builder_make]. rewrite Version_make_level by done. intros f g Hf. by apply not_elem_of_nil in Hf.
    - apply (set_ordered_unique (ucmp := ucmp)); [done|apply ordered_norm, (wf_ordered _ (vf_wf v Hv) L HL)|].
      intros f. rewrite N2, M2, M3, K2. cbn [base Builder_make]. rewrite Version_make_level by done.
      unfold snap. rewrite snapshot_edit_eq. cbn [newfiles deletedfiles with_files with_pointers SetComparatorName VersionEdit_make app].
      rewrite elem_of_adds, !elem_of_nil, (list_elem_of_fmap norm). split.
      + intros [[[]|[[]|(g & (_ & g' & Hg & ->)%elem_of_snapshot & ->)]] _]. by exists g'.
      + intros (g & -> & Hg). split; [right; right|tauto]. exists (bare g). split; [|done]. apply elem_of_snapshot. eauto. }
  cbn. assert (SaveTo ucmp b Version_make = Some (norm_version v)) as ->; [|done].
  apply SaveTo_iff. split.
  - unfold norm_version. f_equal. rewrite (vfiles_levels v) by apply (wf_levels _ (vf_wf v Hv)). rewrite map_map.
    apply list_fmap_ext. intros i L HL. symmetry. apply Hs, elem_of_all_levels. by apply (list_elem_of_lookup_2 _ i).
  - intros L HL. rewrite Hs by done. apply chained_norm. by apply (wf_chained _ (vf_wf v Hv)).
Qed.

(** *** Installing edits *)

Lemma install_app es1 es2 v cp :
  install_all (ucmp := ucmp) (es1 ++ es2) v cp =
    let? (v, cp) := install_all (ucmp := ucmp) es1 v cp in install_all (ucmp := ucmp) es2 v cp.
Proof.
  revert v cp. induction es1 as [|e es1 IH]; intros v cp; [done|]. cbn [app install_all].
  destruct (Apply _ _ _ _) as [[b cp1]|]; [|done]. cbn. destruct (SaveTo _ _ _) as [v1|]; [|done]. apply IH.
Qed.

(** The base matters only by its files. *)
Lemma apply_same_files e v v' b cp cp' :
  vfiles v = vfiles v' -> Apply ucmp e (Builder_make v) cp = Some (b, cp') ->
  Apply ucmp e (Builder_make v') cp = Some (MkBuilder v' (levels b), cp') /\
  SaveTo ucmp (MkBuilder v' (levels b)) Version_make = SaveTo ucmp (MkBuilder v (levels b)) Version_make.
Proof.
  intros Hv Ha. split; [by apply (Apply_base e v)|]. unfold SaveTo. f_equal.
  assert (forall ls, save_levels ucmp (MkBuilder v' (levels b)) ls = save_levels ucmp (MkBuilder v (levels b)) ls) as ->; [|done].
  induction ls as [|L ls IH]; [done|]. cbn [save_levels]. cbn [base]. unfold level_files. rewrite Hv.
  change (level_state (MkBuilder v' (levels b)) L) with (level_state (MkBuilder v (levels b)) L). by rewrite IH.
Qed.

Lemma Apply_keeps_base e v b cp cp' : Apply ucmp e (Builder_make v) cp = Some (b, cp') -> b = MkBuilder v (levels b).
Proof. intros Ha. pose proof (Apply_base e v v _ _ _ Ha) as Hb. rewrite Ha in Hb. by injection Hb. Qed.

Lemma apply_pointers_length l : forall cp r, apply_pointers l cp = Some r -> length r = length cp.
Proof.
  induction l as [|[L k] l IH]; intros cp r; cbn [apply_pointers]; [by intros [= <-]|].
  destruct (InternalKey_Encode k); [|done]. cbn. intros Hr. by rewrite (IH _ _ Hr), length_insert.
Qed.

(** Setting the same pointers twice. *)
Lemma apply_pointers_agree l : forall cp cp2 r r2,
  length cp = length cp2 -> apply_pointers l cp = Some r -> apply_pointers l cp2 = Some r2 ->
  length r = length r2 /\ forall i, (r !! i = cp !! i /\ r2 !! i = cp2 !! i) \/ r !! i = r2 !! i.
Proof.
  induction l as [|[L k] l IH]; intros cp cp2 r r2 Hl Hr Hr2; cbn [apply_pointers] in *.
  { injection Hr as <-. injection Hr2 as <-. split; [done|]. by left. }
  destruct (InternalKey_Encode k) as [view|]; [|done]. cbn in Hr, Hr2.
  assert (length (<[Z.to_nat L:=view]> cp) = length (<[Z.to_nat L:=view]> cp2)) as Hl' by (by rewrite !length_insert).
  destruct (IH _ _ _ _ Hl' Hr Hr2) as [Hlr Hi]. split; [done|]. intros i.
  destruct (Hi i) as [[H1' H2']|]; [|by right]. destruct (decide (i = Z.to_nat L)) as [->|Hne].
  - right. rewrite H1', H2'. destruct (decide (Z.to_nat L < length cp)%nat).
    + rewrite !list_lookup_insert_eq by lia. done.
    + rewrite !lookup_ge_None_2 by (rewrite length_insert; lia). done.
  - left. by rewrite H1', H2', !list_lookup_insert_ne by done.
Qed.

Lemma apply_pointers_twice l cp r : apply_pointers l cp = Some r -> apply_pointers l r = Some r.
Proof.
  intros Hr. assert (exists r2, apply_pointers l r = Some r2) as [r2 Hr2].
  { assert (forall cp cp2 r, apply_pointers l cp = Some r -> exists r2, apply_pointers l cp2 = Some r2) as Hex; [|by eapply Hex].
    clear. induction l as [|[L k] l IH]; intros cp cp2 r Hr; cbn [apply_pointers] in *; [by eexists|].
    destruct (InternalKey_Encode k); [|done]. cbn in *. by eapply IH. }
  pose proof (apply_pointers_length _ _ _ Hr) as Hl.
  destruct (apply_pointers_agree l cp r r r2 (eq_sym Hl) Hr Hr2) as [_ Hi]. rewrite Hr2. f_equal. apply list_eq.
  intros i. destruct (Hi i) as [[_ ->]| ->]; done.
Qed.

(** *** [LogAndApply] *)

Lemma sync_log_ok log es fragss :
  manifest_holds log es fragss ->
  exists log', sync_log (E := E) (G := G) log = (OK, log') /\ manifest_holds log' es fragss.
Proof.
  intros (HF & Hfit & Hc & Hh & Hrest). unfold sync_log.
  destruct (fsync_ok (dest log) Hh) as (f' & -> & Hh' & Hc'). eexists. split; [done|]. unfold manifest_holds.
  cbn [dest blockoffset]. by rewrite Hc'.
Qed.

(** The manifest of a version set: not created yet, or the log of these edits. *)
Definition manifest_state (vs : VersionSet (F := F)) (es : list VersionEdit) (fragss : fragments) : Prop :=
  match descriptorlog vs with None => es = [] /\ fragss = [] | Some log => manifest_holds log es fragss end.

Lemma complete_edit_spec edit vs e :
  complete_edit (F := F) edit vs = Some e ->
  complete e /\ newfiles e = newfiles edit /\ deletedfiles e = deletedfiles edit /\
  compactpointers e = compactpointers edit /\ comparator e = comparator edit /\
  nextfilenumber e = vs_nextfilenumber vs /\ lastsequence e = vs_lastsequence vs /\
  (lognumber e = lognumber edit \/ lognumber e = vs_lognumber vs) /\
  (prevlognumber e = prevlognumber edit \/ prevlognumber e = vs_prevlognumber vs).
Proof.
  unfold complete_edit, complete. destruct (haslognumber edit) eqn:Hl; [destruct (_ && _)|]; cbn; intros Heq; try done;
    injection Heq as <-; destruct (hasprevlognumber edit) eqn:Hp; cbn; rewrite ?Hl, ?Hp; tauto.
Qed.

Definition counters_fit (vs : VersionSet (F := F)) : Prop :=
  is_u64 (vs_nextfilenumber vs) /\ is_u64 (vs_lastsequence vs) /\ is_u64 (vs_lognumber vs) /\ is_u64 (vs_prevlognumber vs).

Lemma complete_edit_recordable edit vs e :
  complete_edit (F := F) edit vs = Some e -> recordable edit -> counters_fit vs -> recordable e.
Proof.
  intros Hc [[] [Hk1 Hk2]] (Hn & Hs & Hl & Hp).
  destruct (complete_edit_spec edit vs e Hc) as (_ & E1 & E2 & E3 & E4 & E5 & E6 & E7 & E8).
  split; [constructor|split]; rewrite ?E1, ?E2, ?E3, ?E4, ?E5, ?E6; try done.
  - by destruct E7 as [-> | ->].
  - by destruct E8 as [-> | ->].
Qed.

Lemma apply_pointers_Forall (P : bytes -> Prop) l : forall cp r,
  Forall P cp -> Forall (fun p => P p.2) l -> apply_pointers l cp = Some r -> Forall P r /\ length r = length cp.
Proof.
  induction l as [|[L k] l IH]; intros cp r Hcp Hl Hr; cbn [apply_pointers] in Hr; [by injection Hr as <-|].
  apply Forall_cons in Hl as [Hk Hl]. destruct k as [|b k]; [done|]. cbn in Hr.
  destruct (IH _ _ (Forall_insert _ _ (Z.to_nat L) _ Hcp Hk) Hl Hr) as [Hp Hlen]. by rewrite Hlen, length_insert.
Qed.

Lemma Apply_pointers_ok edit b b' cp cp' :
  recordable edit -> Forall key_fits cp -> Apply ucmp edit b cp = Some (b', cp') ->
  Forall key_fits cp' /\ length cp' = length cp.
Proof.
  intros [He _] Hcp Ha. pose proof (Apply_pointers (ucmp := ucmp) edit b cp) as Hp. rewrite Ha in Hp. cbn in Hp.
  apply (apply_pointers_Forall key_fits (compactpointers edit)); [done| |done].
  eapply Forall_impl; [apply (ok_pointers _ He)|]. by intros p [_ ?].
Qed.

(** A call that succeeds has written the completed edit, after a snapshot if it created
    the manifest, and has installed the version the builder saved. *)
Lemma LogAndApply_spec edit vs env s e vs' env' es fragss cur :
  current vs = Some cur -> (descriptorlog vs = None -> version_fits cur) -> Forall key_fits (compactPointer vs) -> key_fits (Name ucmp) ->
  recordable edit -> counters_fit vs -> manifest_state vs es fragss ->
  LogAndApply ucmp taddr recordaddr (G := G) dbname edit vs env = Some (s, e, vs', env') -> ok s = true ->
  exists b cp v log frs, complete_edit edit vs = Some e /\
    Apply ucmp e (Builder_make cur) (compactPointer vs) = Some (b, cp) /\ SaveTo ucmp b Version_make = Some v /\
    vs' = MkVersionSet (tail (dummyversions vs) ++ [Finalize v]) (vs_nextfilenumber vs) (manifestfilenumber vs)
      (vs_lastsequence vs) (lognumber e) (prevlognumber e) cp (Some log) /\
    length frs = match descriptorlog vs with None => 2%nat | Some _ => 1%nat end /\
    manifest_holds log (match descriptorlog vs with None => [snapshot_edit ucmp cur cp] | Some _ => es end ++ [e]) (fragss ++ frs).
Proof.
  intros Hcur Hfit Hcp Hname Hed Hcnt Hst Hla Hs. unfold LogAndApply in Hla.
  destruct (complete_edit edit vs) as [e1|] eqn:Hce; [|done]. cbn in Hla.
  pose proof (complete_edit_recordable edit vs e1 Hce Hed Hcnt) as He1.
  rewrite Hcur in Hla. cbn in Hla.
  destruct (Apply ucmp e1 (Builder_make cur) (compactPointer vs)) as [[b cp]|] eqn:Ha; [|done]. cbn in Hla.
  destruct (SaveTo ucmp b Version_make) as [v|] eqn:Hsv; [|done]. cbn in Hla.
  destruct (Apply_pointers_ok e1 _ b (compactPointer vs) cp He1 Hcp Ha) as [Hcp' _].
  destruct (descriptorlog vs) as [log0|] eqn:Hlog.
  - unfold manifest_state in Hst. rewrite Hlog in Hst. cbn in Hla.
    destruct (add_edit_ok log0 es fragss e1 Hst He1) as (log1 & fr1 & Hadd & Hm1). rewrite Hadd in Hla. cbn [ok OK] in Hla.
    destruct (sync_log_ok log1 _ _ Hm1) as (log2 & Hsync & Hm2). rewrite Hsync in Hla. cbn in Hla.
    injection Hla as <- <- <- <-. by exists b, cp, v, log2, [fr1].
  - destruct (DescriptorFileName _ _) as [name|]; [|done]. cbn in Hla.
    destruct (NewWritableFile env name) as [[s0 file] env1] eqn:Hnew. destruct (ok s0) eqn:Hs0.
    2:{ repeat (progress (cbn in Hla; rewrite ?Hs0 in Hla)). destruct (negb _); injection Hla as <- <- <- <-; congruence. }
    destruct file as [f|]; [|done]. cbn in Hla. destruct (new_file_ok _ _ _ _ _ Hnew Hs0) as [Hf Hfc].
    unfold manifest_state in Hst. rewrite Hlog in Hst. destruct Hst as [-> ->].
    unfold WriteSnapshot in Hla. change (current (set_pointers cp vs)) with (current vs) in Hla. rewrite Hcur in Hla. cbn in Hla.
    destruct (add_edit_ok (LogWriter_make f 0) [] [] (snapshot_edit ucmp cur cp) (manifest_make f Hf Hfc)) as (log0 & fr0 & Hadd0 & Hm0);
      [by apply snapshot_recordable; [apply Hfit|..]|].
    rewrite Hadd0 in Hla. cbn in Hla.
    destruct (add_edit_ok log0 _ _ e1 Hm0 He1) as (log1 & fr1 & Hadd & Hm1). rewrite Hadd in Hla. cbn in Hla.
    destruct (sync_log_ok log1 _ _ Hm1) as (log2 & Hsync & Hm2). rewrite Hsync in Hla. cbn in Hla.
    destruct (negb (bool_decide (name = []))).
    + destruct (SetCurrentFile env1 dbname (manifestfilenumber vs)) as [[s1 env2]|]; [|done]. cbn in Hla.
      destruct (ok s1) eqn:Hs1; [|injection Hla as <- <- <- <-; congruence].
      injection Hla as <- <- <- <-. by exists b, cp, v, log2, [fr0; fr1].
    + cbn in Hla. injection Hla as <- <- <- <-. by exists b, cp, v, log2, [fr0; fr1].
Qed.

(** The first call creates the manifest, with a snapshot before the edit. *)
Lemma LogAndApply_creates edit vs env cur e b cp v name f env1 env2 :
  current vs = Some cur -> descriptorlog vs = None -> version_fits cur -> Forall key_fits (compactPointer vs) -> key_fits (Name ucmp) ->
  complete_edit edit vs = Some e -> recordable e -> Apply ucmp e (Builder_make cur) (compactPointer vs) = Some (b, cp) ->
  SaveTo ucmp b Version_make = Some v -> DescriptorFileName dbname (manifestfilenumber vs) = Some name ->
  NewWritableFile (G := G) env name = (OK, Some f, env1) -> SetCurrentFile (F := F) (G := G) env1 dbname (manifestfilenumber vs) = Some (OK, env2) ->
  exists log frs, LogAndApply ucmp taddr recordaddr (G := G) dbname edit vs env =
      Some (OK, e, MkVersionSet (tail (dummyversions vs) ++ [Finalize v]) (vs_nextfilenumber vs) (manifestfilenumber vs)
        (vs_lastsequence vs) (lognumber e) (prevlognumber e) cp (Some log), env2) /\
    manifest_holds log [snapshot_edit ucmp cur cp; e] frs.
Proof.
  intros Hcur Hlog Hfit Hcp Hname Hce He Ha Hs Hdn Hnew Hset.
  destruct (Apply_pointers_ok e _ b (compactPointer vs) cp He Hcp Ha) as [Hcp' _].
  destruct (new_file_ok _ _ _ _ _ Hnew eq_refl) as [Hf Hfc].
  destruct (add_edit_ok (LogWriter_make f 0) [] [] (snapshot_edit ucmp cur cp) (manifest_make f Hf Hfc)) as (log0 & fr0 & Hadd0 & Hm0);
    [by apply snapshot_recordable|].
  destruct (add_edit_ok log0 _ _ e Hm0 He) as (log1 & fr1 & Hadd & Hm1).
  destruct (sync_log_ok log1 _ _ Hm1) as (log2 & Hsync & Hm2). exists log2, [fr0; fr1]. split; [|done].
  unfold LogAndApply. rewrite Hce. cbn [mbind option_bind]. rewrite Hcur. cbn [mbind option_bind]. rewrite Ha. cbn [mbind option_bind].
  rewrite Hs. cbn [mbind option_bind set_pointers descriptorlog manifestfilenumber]. rewrite Hlog, Hdn. cbn [mbind option_bind].
  rewrite Hnew. cbn [mbind option_bind ok OK]. unfold WriteSnapshot. change (current (set_pointers cp vs)) with (current vs). rewrite Hcur.
  cbn [mbind option_bind compactPointer set_pointers]. rewrite Hadd0. cbn [mbind option_bind ok OK]. rewrite Hadd. cbn [mbind option_bind ok OK].
  rewrite Hsync. cbn [mbind option_bind ok OK andb].
  assert (name <> []) as Hne.
  { unfold DescriptorFileName, numbered in Hdn. destruct (_ <? _); [|done]. injection Hdn as <-. by destruct dbname. }
  rewrite bool_decide_eq_false_2 by done. cbn [negb]. rewrite Hset. done.
Qed.

(** With a manifest, and a disk that does not fail, the edit is written and its version
    installed. *)
Lemma LogAndApply_appends edit vs env es fragss cur log e b cp v :
  current vs = Some cur -> descriptorlog vs = Some log -> manifest_holds log es fragss -> complete_edit edit vs = Some e ->
  recordable e -> Apply ucmp e (Builder_make cur) (compactPointer vs) = Some (b, cp) -> SaveTo ucmp b Version_make = Some v ->
  exists log' frags, LogAndApply ucmp taddr recordaddr (G := G) dbname edit vs env =
      Some (OK, e, MkVersionSet (tail (dummyversions vs) ++ [Finalize v]) (vs_nextfilenumber vs) (manifestfilenumber vs)
        (vs_lastsequence vs) (lognumber e) (prevlognumber e) cp (Some log'), env) /\
    manifest_holds log' (es ++ [e]) (fragss ++ [frags]).
Proof.
  intros Hcur Hlog Hm Hce He Ha Hs. unfold LogAndApply. rewrite Hce. cbn [mbind option_bind]. rewrite Hcur. cbn [mbind option_bind].
  rewrite Ha. cbn [mbind option_bind]. rewrite Hs. cbn [mbind option_bind set_pointers descriptorlog]. rewrite Hlog.
  cbn [mbind option_bind ok OK]. destruct (add_edit_ok log es fragss e Hm He) as (log1 & frags & -> & Hm1). cbn [mbind option_bind ok OK].
  destruct (sync_log_ok log1 _ _ Hm1) as (log2 & -> & Hm2). exists log2, frags. split; [|done].
  cbn [mbind option_bind ok OK]. rewrite bool_decide_eq_true_2 by done. done.
Qed.

(** *** Runs *)

(** What the store does to the version set between crashes. *)
Inductive op := OpLog (edit : VersionEdit) | OpSequence (s : Z) | OpFileNumber.

(** A run in which every [LogAndApply] succeeds; the states after each of them. *)
Fixpoint run (ops : list op) (vs : VersionSet (F := F)) (env : E) : option (list VersionSet * VersionSet * E) :=
  match ops with
  | [] => Some ([], vs, env)
  | OpLog edit :: ops =>
      let? (s, _, vs, env) := LogAndApply ucmp taddr recordaddr (G := G) dbname edit vs env in
      if ok s then let? (sts, vs', env) := run ops vs env in Some (vs :: sts, vs', env) else None
  | OpSequence s :: ops => let? vs := vs_SetLastSequence s vs in run ops vs env
  | OpFileNumber :: ops => run ops (snd (NewFileNumber vs)) env
  end.

Definition edits_of (ops : list op) : list VersionEdit :=
  concat (map (fun o => match o with OpLog e => [e] | _ => [] end) ops).

Definition op_ok (o : op) : Prop :=
  match o with
  | OpLog e => recordable e /\ NoDup (map (fun p => (p.1, number p.2)) (newfiles e))
  | OpSequence s => is_u64 s
  | OpFileNumber => True
  end.

(** The counters an edit records are those of the state. *)
Definition counters_match (st : VersionSet (F := F)) (e : VersionEdit) : Prop :=
  counters_of e = MkCounters (Some (vs_lognumber st)) (Some (vs_prevlognumber st)) (Some (vs_nextfilenumber st))
    (Some (vs_lastsequence st)).

Lemma install_length es : forall v cp r, install_all (ucmp := ucmp) es v cp = Some r -> length r.2 = length cp.
Proof.
  induction es as [|x es IH]; intros v cp r Hr; cbn [install_all] in Hr; [by injection Hr as <-|].
  destruct (Apply ucmp x (Builder_make v) cp) as [[b cp1]|] eqn:Hx; [|done]. cbn in Hr.
  destruct (SaveTo ucmp b Version_make) as [v1|]; [|done]. rewrite (IH _ _ _ Hr).
  pose proof (Apply_pointers (ucmp := ucmp) x (Builder_make v) cp) as Hp. rewrite Hx in Hp.
  symmetry in Hp. exact (apply_pointers_length _ _ _ Hp).
Qed.

Section Run.
Context (v0 : Version) (cp0 : list bytes).
Hypothesis Hv0 : version_fits v0.
Hypothesis Hcp0 : length cp0 = Z.to_nat kNumLevels.
Hypothesis Hname : key_fits (Name ucmp).

(** The files and pointers of [st] are those of the edits [es] installed on [v0]. *)
Definition installed (st : VersionSet (F := F)) (es : list VersionEdit) : Prop :=
  exists cur v, current st = Some cur /\ length (dummyversions st) = 1%nat /\ vfiles cur = vfiles v /\
    install_all (ucmp := ucmp) es v0 cp0 = Some (v, compactPointer st).

(** The manifest after the edits [es]: a snapshot of [v0], then [es]. *)
Definition manifest_of (st : VersionSet (F := F)) (es : list VersionEdit) (fragss : fragments) : Prop :=
  match es with
  | [] => descriptorlog st = None /\ fragss = [] /\ current st = Some v0
  | e1 :: _ => exists log cp1, descriptorlog st = Some log /\ apply_pointers (compactpointers e1) cp0 = Some cp1 /\
      length cp1 = Z.to_nat kNumLevels /\ manifest_holds log (snapshot_edit ucmp v0 cp1 :: es) fragss
  end.

Record run_inv (st : VersionSet (F := F)) (es : list VersionEdit) (fragss : fragments) : Prop := {
  ri_installed : installed st es;
  ri_manifest : manifest_of st es fragss;
  ri_pointers : Forall key_fits (compactPointer st);
  ri_counters : counters_fit st;
  ri_complete : Forall complete es
}.

Lemma SaveTo_fresh b v : SaveTo ucmp b Version_make = Some v -> v = set_files Version_make (vfiles v).
Proof. by intros [-> _]%SaveTo_iff. Qed.

Lemma run_inv_log st es fragss edit env s e st' env' :
  run_inv st es fragss -> recordable edit ->
  LogAndApply ucmp taddr recordaddr (G := G) dbname edit st env = Some (s, e, st', env') -> ok s = true ->
  newfiles e = newfiles edit /\ counters_match st' e /\
  exists frs, (fragss <> [] -> length frs = 1%nat) /\ (fragss = [] -> length frs = 2%nat) /\
    run_inv st' (es ++ [e]) (fragss ++ frs).
Proof.
  intros [Hin Hman Hptr Hcnt Hcomp] Hed Hla Hs. destruct Hin as (cur & v & Hcur & Hone & Hvf & Hinst).
  assert (exists es', manifest_state st es' fragss /\ (descriptorlog st = None -> es = [] /\ cur = v0) /\
    (descriptorlog st <> None -> exists e1 rest cp1, es = e1 :: rest /\ apply_pointers (compactpointers e1) cp0 = Some cp1 /\
      length cp1 = Z.to_nat kNumLevels /\ es' = snapshot_edit ucmp v0 cp1 :: es)) as (es' & Hst & Hnone & Hsome).
  { destruct es as [|e1 rest].
    - destruct Hman as (Hlog & -> & Hc0). exists []. unfold manifest_state. rewrite Hlog. split; [done|]. split; [|done].
      intros _. rewrite Hcur in Hc0. by injection Hc0.
    - destruct Hman as (log & cp1 & Hlog & Hp & Hl & Hm). eexists. unfold manifest_state. rewrite Hlog. split; [exact Hm|].
      split; [done|]. intros _. by exists e1, rest, cp1. }
  destruct (LogAndApply_spec edit st env s e st' env' es' fragss cur) as (b & cp & v' & log & frs & Hce & Ha & Hsv & -> & Hlen & Hm); try done.
  { intros Hn. destruct (Hnone Hn) as [_ ->]. done. }
  destruct (complete_edit_spec edit st e Hce) as (Hc & Hn & _ & _ & _ & Hnext & Hseq & _).
  pose proof (complete_edit_recordable edit st e Hce Hed Hcnt) as He.
  split; [done|]. split; [unfold counters_match, counters_of; cbn; by rewrite Hnext, Hseq|].
  assert (descriptorlog st = None <-> fragss = []) as Hiff.
  { unfold manifest_state in Hst. destruct (descriptorlog st) as [l|]; [|split; [by intros _; destruct Hst|done]].
    split; [done|]. intros ->. destruct Hst as (HF & _). apply Forall2_nil_inv_r in HF.
    destruct (Hsome ltac:(done)) as (e1 & rest & cp1 & _ & _ & _ & ->). done. }
  exists frs. split; [intros Hne; destruct (descriptorlog st); [done|by destruct Hne; apply Hiff]|].
  split; [intros ->; rewrite (proj2 Hiff eq_refl) in Hlen; done|].
  destruct (Apply_pointers_ok e _ b _ cp He Hptr Ha) as [Hptr' Hlcp].
  assert (length (compactPointer st) = Z.to_nat kNumLevels) as Hl7.
  { rewrite <- Hcp0. exact (install_length _ _ _ _ Hinst). }
  split.
  - exists (Finalize v'), v'. split; [unfold current; cbn [dummyversions]; by rewrite last_snoc|].
    destruct (dummyversions st) as [|? []]; try done. split; [done|]. split.
    { unfold Finalize. by destruct (fold_left _ _ _). }
    rewrite install_app, Hinst. cbn [install_all compactPointer].
    destruct (apply_same_files e cur v b _ cp Hvf Ha) as [-> Hsame]. cbn.
    rewrite <- (Apply_keeps_base e cur b _ cp Ha), Hsv in Hsame. by rewrite Hsame.
  - destruct (descriptorlog st) as [l|] eqn:Hlog.
    + destruct (Hsome ltac:(done)) as (e1 & rest & cp1 & -> & Hp1 & Hl1 & ->). cbn [app manifest_of descriptorlog]. by exists log, cp1.
    + destruct (Hnone eq_refl) as [-> ->]. cbn [app manifest_of descriptorlog]. exists log, cp. split; [done|].
      assert (apply_pointers (compactpointers e) cp0 = Some cp) as Hpe.
      { cbn [install_all] in Hinst. injection Hinst as _ Hc0. rewrite Hc0.
        pose proof (Apply_pointers (ucmp := ucmp) e (Builder_make v0) (compactPointer st)) as Hp. rewrite Ha in Hp. by symmetry. }
      split; [done|]. split; [by rewrite Hlcp|done].
  - done.
  - destruct Hcnt as (C1 & C2 & C3 & C4). destruct He as [He _]. exact (conj C1 (conj C2 (conj (ok_log _ He) (ok_prevlog _ He)))).
  - apply Forall_app. split; [done|]. by repeat constructor; apply Hc.
Qed.

Lemma run_spec ops : forall st env es fragss sts st' env',
  run_inv st es fragss -> Forall op_ok ops -> run ops st env = Some (sts, st', env') ->
  exists es' frs', map newfiles es' = map newfiles (edits_of ops) /\ length es' = length sts /\
    run_inv st' (es ++ es') (fragss ++ frs') /\
    forall i sti, sts !! i = Some sti -> exists frs_i e, run_inv sti (es ++ take (S i) es') frs_i /\
      frs_i `prefix_of` fragss ++ frs' /\ es' !! i = Some e /\ counters_match sti e.
Proof.
  induction ops as [|o ops IH]; intros st env es fragss sts st' env' Hinv Hops Hrun; cbn [run] in Hrun.
  { injection Hrun as <- <- <-. exists [], []. rewrite !app_nil_r. split; [done|]. split; [done|]. split; [done|].
    intros i sti. by rewrite lookup_nil. }
  apply Forall_cons in Hops as [Ho Hops]. destruct o as [edit|q|].
  - destruct (LogAndApply ucmp taddr recordaddr dbname edit st env) as [[[[s e] st1] env1]|] eqn:Hla; [|done]. cbn in Hrun.
    destruct (ok s) eqn:Hs; [|done]. destruct (run ops st1 env1) as [[[sts1 st2] env2]|] eqn:Hrun1; [|done].
    cbn in Hrun. injection Hrun as <- <- <-. destruct Ho as [Hed _].
    destruct (run_inv_log st es fragss edit env s e st1 env1 Hinv Hed Hla Hs) as (Hn & Hm & frs & _ & _ & Hinv1).
    destruct (IH st1 env1 _ _ _ _ _ Hinv1 Hops Hrun1) as (es' & frs' & Hmap & Hlen & Hinv2 & Hall).
    exists (e :: es'), (frs ++ frs'). rewrite <- !app_assoc in Hinv2. cbn [app] in Hinv2.
    split; [cbn; by rewrite Hn, Hmap|]. split; [cbn; by rewrite Hlen|]. split; [done|].
    intros [|i] sti Hi; cbn in Hi.
    + injection Hi as <-. exists (fragss ++ frs), e. cbn [take]. split; [by rewrite take_0|]. split; [|done].
      rewrite app_assoc. by eexists.
    + destruct (Hall i sti Hi) as (frs_i & e' & Hi1 & Hi2 & Hi3 & Hi4). exists frs_i, e'. rewrite <- !app_assoc in *.
      by cbn [app take lookup list_lookup] in *.
  - unfold vs_SetLastSequence in Hrun. destruct (q <? vs_lastsequence st); [done|]. cbn in Hrun.
    eapply IH; [|done|exact Hrun]. destruct Hinv as [H1' H2' H3' (C1 & C2 & C3 & C4) H5']. split; done.
  - eapply IH; [|done|exact Hrun]. destruct Hinv as [H1' H2' H3' (C1 & C2 & C3 & C4) H5']. split; try done.
    split; [apply u64_range|done].
Qed.

(** *** Recovery *)

Lemma all_counters_last es e c : Forall complete es -> last es = Some e -> all_counters es c = counters_of e.
Proof.
  intros Hc Hl. apply last_Some in Hl as [es' ->]. apply Forall_app in Hc as [_ [He _]%Forall_cons].
  unfold all_counters. rewrite fold_left_app. cbn [fold_left]. by apply read_counters_complete.
Qed.

Lemma MarkFileNumberUsed_eq n (vs : VersionSet (F := F)) : exists n', MarkFileNumberUsed n vs = set_next n' vs.
Proof. unfold MarkFileNumberUsed. destruct (_ <=? _); [by eexists|]. exists (vs_nextfilenumber vs). by destruct vs. Qed.

Lemma read_counters_snapshot v cp c : read_counters (read_back VersionEdit_make (snapshot_edit ucmp v cp)) c = c.
Proof. rewrite snapshot_edit_eq. by destruct c. Qed.

(** The names in the directory of the store. *)
Definition names_manifest (env : E) (m : Z) (g : G) : Prop :=
  0 < m /\ good g /\ NewSequentialFile (F := F) env (dbname ++ str "/" ++ str "MANIFEST-" ++ padded m) = (OK, Some g) /\
  exists gc, NewSequentialFile (F := F) env (CurrentFileName dbname) = (OK, Some gc) /\ good gc /\
    remaining gc = current_contents m.

Lemma Recover_eq env m g :
  names_manifest env m g ->
  Recover ucmp readaddr dbname false maxfilesize false VersionSet_make env =
    let? (s, builder, cp, c) :=
      recover_loop ucmp readaddr (S (length (remaining g))) (LogReader_make g true true 0) OK (Builder_make Version_make)
        (replicate (Z.to_nat kNumLevels) []) (MkCounters None None None None) in
    let '(s, vs) := check_counters s c (set_pointers (F := F) cp VersionSet_make) in
    if negb (ok s) then Some (s, false, vs, env)
    else
      let? v := SaveTo ucmp builder Version_make in
      let vs := AppendVersion (Finalize v) vs in
      let nextFile := default 0 (r_nextfile c) in
      Some (s, true, MkVersionSet (dummyversions vs) (u64 (nextFile + 1)) nextFile (default 0 (r_lastsequence c))
        (default 0 (r_lognumber c)) (default 0 (r_prevlognumber c)) (compactPointer vs) (descriptorlog vs), env).
Proof.
  intros (Hm & Hg & Ho & gc & Hc & Hgc & Hr). unfold Recover. rewrite (ReadFileToString_ok env _ gc Hc Hgc). cbn [ok OK negb].
  rewrite Hr. unfold current_contents. rewrite app_assoc, last_snoc, removelast_last. cbv zeta. rewrite Ho. cbn [ok OK negb].
  change (current VersionSet_make) with (Some Version_make). cbv beta iota.
  change (compactPointer VersionSet_make) with (replicate (Z.to_nat kNumLevels) (@nil byte)).
  destruct (recover_loop _ _ _ _ _ _ _ _) as [[[[s b] cp] c]|]; [|done]. cbn.
  destruct (check_counters s c _) as [s1 vs1]. destruct (negb (ok s1)); [done|].
  by destruct (SaveTo ucmp b Version_make).
Qed.

(** All records of a prefix with at least one edit: the version after the last edit. *)
Lemma Recover_edits env m g fuel r' es e cp1 v cp :
  names_manifest env m g ->
  read_all fuel readaddr (LogReader_make g true true 0) = Some (map record_of (snapshot_edit ucmp v0 cp1 :: es), r') ->
  Forall recordable (snapshot_edit ucmp v0 cp1 :: es) -> (S (length es) <= length (remaining g))%nat ->
  length cp1 = Z.to_nat kNumLevels -> Forall complete es -> last es = Some e ->
  Forall edit_levels es -> fresh (version_pairs v0) es -> install_all (ucmp := ucmp) es v0 cp1 = Some (v, cp) ->
  exists vr, vfiles vr = map (map norm) (vfiles v) /\
    Recover ucmp readaddr dbname false maxfilesize false (VersionSet_make (F := F)) env =
    Some (OK, true, MkVersionSet [vr] (u64 (nextfilenumber e + 1)) (nextfilenumber e) (lastsequence e) (lognumber e)
      (prevlognumber e) cp None, env).
Proof.
  intros Hnames Hread Hrec Hlen Hcp1 Hcomp Hlast Hlv Hfr Hinst.
  assert (install_all (ucmp := ucmp) (snapshot_edit ucmp v0 cp1 :: es) Version_make (replicate (Z.to_nat kNumLevels) []) =
    Some (norm_version v, cp)) as Hall.
  { change (snapshot_edit ucmp v0 cp1 :: es) with ([snapshot_edit ucmp v0 cp1] ++ es).
    rewrite install_app, install_snapshot by done. cbn. by apply install_norm. }
  destruct (replay_describes (ucmp := ucmp) (snapshot_edit ucmp v0 cp1 :: es) (Builder_make Version_make) Version_make []
    (replicate (Z.to_nat kNumLevels) []) (norm_version v) cp (describes_make _ _ Version_make_wf Version_make_known))
    as (b & known & Ha & Hd); [| |exact Hall|].
  { constructor; [by apply snapshot_edit_levels|done]. }
  { cbn [fresh]. split; [intros p _; apply not_elem_of_nil|]. rewrite snapshot_edit_eq at 1. cbn [newfiles with_files with_pointers SetComparatorName VersionEdit_make app].
    by rewrite snapshot_pairs. }
  rewrite (Recover_eq env m g Hnames).
  rewrite (recover_loop_ok _ fuel (S (length (remaining g))) _ r' _ _ _ b cp Hread Hrec) by (exact Ha || (cbn [length]; lia)).
  cbn [all_counters fold_left]. change (fold_left _ es ?c) with (all_counters es c).
  rewrite (all_counters_last es e _ Hcomp Hlast). cbn.
  rewrite (describes_saved b _ _ Hd). cbn.
  destruct (MarkFileNumberUsed_eq (prevlognumber e) (set_pointers cp VersionSet_make)) as [n1 ->].
  destruct (MarkFileNumberUsed_eq (lognumber e) (set_next n1 (set_pointers cp VersionSet_make))) as [n2 ->].
  eexists. split; [|done]. unfold Finalize. by destruct (fold_left _ _ _).
Qed.

(** Without a whole edit: an error, and nothing is installed. *)
Lemma Recover_none env m g fuel r' es cp1 :
  names_manifest env m g -> es = [] \/ es = [snapshot_edit ucmp v0 cp1] ->
  read_all fuel readaddr (LogReader_make g true true 0) = Some (map record_of es, r') ->
  Forall recordable es -> (length es <= length (remaining g))%nat -> length cp1 = Z.to_nat kNumLevels ->
  exists vsr, dummyversions vsr = [Version_make] /\
    Recover ucmp readaddr dbname false maxfilesize false (VersionSet_make (F := F)) env =
    Some (Corruption (str "no meta-nextfile entry in descriptor") [], false, vsr, env).
Proof.
  intros Hnames Hes Hread Hrec Hlen Hcp1. rewrite (Recover_eq env m g Hnames).
  assert (exists b cp, apply_all (ucmp := ucmp) es (Builder_make Version_make) (replicate (Z.to_nat kNumLevels) []) = Some (b, cp))
    as (b & cp & Ha).
  { destruct Hes as [-> | ->]; [by eexists _, _|]. pose proof (install_snapshot v0 cp1 Hv0 Hcp1) as Hi.
    cbn [install_all apply_all] in *. destruct (Apply _ _ _ _) as [[b cp]|]; [|done]. by eexists _, _. }
  rewrite (recover_loop_ok _ fuel (S (length (remaining g))) _ r' _ _ _ b cp Hread Hrec) by (exact Ha || lia).
  assert (all_counters es (MkCounters None None None None) = MkCounters None None None None) as ->.
  { destruct Hes as [-> | ->]; [done|]. unfold all_counters. cbn [fold_left]. apply read_counters_snapshot. }
  eexists. split; [|reflexivity]. reflexivity.
Qed.

(** What recovery found of the state [st]. *)
Definition recovers (st vsr : VersionSet (F := F)) : Prop :=
  exists vst vr, current st = Some vst /\ current vsr = Some vr /\
    vfiles vr = map (map norm) (vfiles vst) /\ compactPointer vsr = compactPointer st /\
    vs_lastsequence vsr = vs_lastsequence st /\ vs_lognumber vsr = vs_lognumber st /\
    vs_prevlognumber vsr = vs_prevlognumber st /\ manifestfilenumber vsr = vs_nextfilenumber st /\
    vs_nextfilenumber vsr = u64 (vs_nextfilenumber st + 1).

Lemma fresh_ext es : forall known es', map newfiles es = map newfiles es' -> fresh known es -> fresh known es'.
Proof.
  induction es as [|e es IH]; intros known [|e' es'] Hm Hf; try done. cbn in Hm. injection Hm as He Hm.
  cbn in *. rewrite <- He. destruct Hf as [H1' H2']. split; [done|]. by apply IH.
Qed.

Lemma fresh_take k : forall es known, fresh known es -> fresh known (take k es).
Proof.
  induction k as [|k IH]; intros [|e es] known Hf; try done. cbn in *. destruct Hf. split; [done|]. by apply IH.
Qed.

Lemma recordable_levels e : recordable e -> NoDup (map (fun p => (p.1, number p.2)) (newfiles e)) -> edit_levels e.
Proof.
  intros [He _] Hn. split; [| |done].
  - eapply Forall_impl; [apply (ok_deleted _ He)|]. by intros p [? _].
  - eapply Forall_impl; [apply (ok_new _ He)|]. by intros p [? _].
Qed.

Lemma edits_of_nodup ops : Forall op_ok ops -> Forall (fun l => NoDup (map (fun p : Z * file => (p.1, number p.2)) l)) (map newfiles (edits_of ops)).
Proof.
  induction 1 as [|o ops Ho Hops IH]; [constructor|]. destruct o as [e|s|]; [|done|done].
  unfold edits_of in *. cbn. constructor; [apply Ho|done].
Qed.

Lemma install_take es v cp r k :
  install_all (ucmp := ucmp) es v cp = Some r -> exists r', install_all (ucmp := ucmp) (take k es) v cp = Some r'.
Proof.
  intros Hi. rewrite <- (take_drop k es), install_app in Hi.
  destruct (install_all (take k es) v cp) as [r'|]; [by eexists|done].
Qed.

(** From the pointers after the first edit the same edits lead to the same place. *)
Lemma install_pointers e es v cp cp1 r :
  apply_pointers (compactpointers e) cp = Some cp1 ->
  install_all (ucmp := ucmp) (e :: es) v cp = Some r -> install_all (ucmp := ucmp) (e :: es) v cp1 = Some r.
Proof.
  intros Hp Hi. cbn [install_all] in *. unfold Apply in *. rewrite Hp in Hi. by rewrite (apply_pointers_twice _ _ _ Hp).
Qed.

Lemma run_inv_make vs0 :
  dummyversions vs0 = [v0] -> descriptorlog vs0 = None -> counters_fit vs0 -> compactPointer vs0 = cp0 ->
  Forall key_fits cp0 -> run_inv vs0 [] [].
Proof.
  intros Hd Hlog Hcnt Hcp Hptr. assert (current vs0 = Some v0) as Hc by (unfold current; by rewrite Hd).
  split; [|done|by rewrite Hcp|done|constructor].
  exists v0, v0. rewrite Hd, Hcp. done.
Qed.

(** The manifest of a state of the run is the first records of the final one. *)
Lemma state_log st es e1 rest i frs frs_i li :
  es = e1 :: rest -> (i < length es)%nat -> run_inv st (take (S i) es) frs_i -> frs_i `prefix_of` frs -> descriptorlog st = Some li ->
  contents (dest li) = layout 0 (concat (take (S (S i)) frs)).
Proof.
  intros -> Hi Hinv [more ->] Hli. destruct (ri_manifest _ _ _ Hinv) as (log & cp1 & Hlog & _ & _ & HF & _ & Hc & _).
  rewrite Hli in Hlog. injection Hlog as <-. rewrite Hc. do 2 f_equal.
  apply Forall2_length in HF. rewrite length_map in HF. cbn [length take] in HF, Hi. rewrite length_take in HF.
  rewrite take_app_le by lia. rewrite take_ge by lia. done.
Qed.

(** The state after the last whole edit is recovered. *)
Lemma state_recovered st es e1 rest k e frs_k cp1 env1 m g fuel r' :
  es = e1 :: rest -> run_inv st (take (S k) es) frs_k -> es !! k = Some e -> counters_match st e ->
  Forall edit_levels es -> fresh (version_pairs v0) es -> apply_pointers (compactpointers e1) cp0 = Some cp1 ->
  length cp1 = Z.to_nat kNumLevels -> Forall recordable (snapshot_edit ucmp v0 cp1 :: es) ->
  names_manifest env1 m g ->
  read_all fuel readaddr (LogReader_make g true true 0) = Some (map record_of (take (S (S k)) (snapshot_edit ucmp v0 cp1 :: es)), r') ->
  (S (S k) <= length (remaining g))%nat ->
  exists vsr, Recover ucmp readaddr dbname false maxfilesize false (VersionSet_make (F := F)) env1 = Some (OK, true, vsr, env1) /\
    recovers st vsr.
Proof.
  intros Hes Hinv He Hm Hlv Hfr Hp1 Hl1 Hrec Hnames Hread Hlen.
  destruct (ri_installed _ _ _ Hinv) as (cur & v & Hcur & _ & Hvf & Hinst).
  apply Forall_cons in Hrec as [Hsnap Hrec].
  assert (last (take (S k) es) = Some e) as Hlast by (rewrite (take_S_r _ _ e) by done; apply last_snoc).
  destruct (Recover_edits env1 m g fuel r' (take (S k) es) e cp1 v (compactPointer st)) as (vr & Hvr & Hrecov); try done.
  - constructor; [done|by apply Forall_take].
  - rewrite length_take. lia.
  - apply Hinv.
  - by apply Forall_take.
  - by apply fresh_take.
  - rewrite Hes in *. cbn [take] in *. by apply (install_pointers e1 _ v0 cp0).
  - eexists. split; [exact Hrecov|]. exists cur, vr. unfold counters_match, counters_of in Hm. injection Hm as M1 M2 M3 M4.
    rewrite <- M1, <- M2, <- M3, <- M4, Hvf. by split_and!.
Qed.
End Run.

(** C3: The manifest survives a crash at any byte.  Let the store log any number of edits,
    interleaved with new sequence numbers and file numbers, starting without a manifest
    from a version that fits, every [LogAndApply] succeeding.  Then for every prefix of
    the manifest file that a crash may leave: [Recover] of a new version set, through the
    file CURRENT, trips no assert; it returns an error, with nothing installed, if not
    one edit is whole in the prefix, and otherwise it returns [OK] with exactly the state
    after some [LogAndApply] of the run - the files of every level in order (their
    allowed seeks recomputed), the compaction pointers, the last sequence and the log
    numbers; and it is never a state older than one whose [LogAndApply] had completed
    with its bytes in the prefix. *)
Theorem manifest_recovery ops (vs0 vs' : VersionSet (F := F)) v0 sts env env' :
  dummyversions vs0 = [v0] -> descriptorlog vs0 = None -> version_fits v0 -> counters_fit vs0 ->
  length (compactPointer vs0) = Z.to_nat kNumLevels -> Forall key_fits (compactPointer vs0) -> key_fits (Name ucmp) ->
  Forall op_ok ops -> fresh (version_pairs v0) (edits_of ops) -> run ops vs0 env = Some (sts, vs', env') -> sts <> [] ->
  exists log, descriptorlog vs' = Some log /\
  forall n m g env1, names_manifest env1 m g -> remaining g = take n (contents (dest log)) ->
  exists s manifest vsr,
    Recover ucmp readaddr dbname false maxfilesize false (VersionSet_make (F := F)) env1 = Some (s, manifest, vsr, env1) /\
    ((ok s = false /\ dummyversions vsr = [Version_make] /\
      forall i st li, sts !! i = Some st -> descriptorlog st = Some li -> (n < length (contents (dest li)))%nat) \/
     (s = OK /\ exists k st, sts !! k = Some st /\ recovers st vsr /\
      forall i st' li, sts !! i = Some st' -> descriptorlog st' = Some li -> (length (contents (dest li)) <= n)%nat -> (i <= k)%nat)).
Proof.
  intros Hdv Hlog Hv0 Hcnt Hl7 Hptr Hname Hops Hfr Hrun Hne.
  pose proof (run_inv_make v0 (compactPointer vs0) vs0 Hdv Hlog Hcnt eq_refl Hptr) as Hinv0.
  destruct (run_spec v0 (compactPointer vs0) Hv0 Hl7 Hname ops vs0 env [] [] sts vs' env' Hinv0 Hops Hrun)
    as (es & frs & Hmap & Hlen & Hinv & Hall). cbn [app] in Hinv, Hall.
  destruct es as [|e1 rest] eqn:Hes; [by destruct sts|]. rewrite <- Hes in *.
  pose proof (ri_manifest _ _ _ _ _ Hinv) as Hman. rewrite Hes in Hman at 1. destruct Hman as (log & cp1 & Hlog' & Hp1 & Hl1 & Hm).
  rewrite <- Hes in Hm. exists log. split; [done|]. intros n m g env1 Hnames Hrem.
  pose proof Hm as (_ & _ & _ & _ & _ & _ & Hrec). pose proof Hnames as (_ & Hg & _).
  destruct (manifest_read log _ frs g n Hm Hg Hrem) as (k & r' & Hk & Hkr & Hread & Hj). cbn [length] in Hk.
  assert (fresh (version_pairs v0) es) as Hfr' by (by apply (fresh_ext (edits_of ops))).
  assert (Forall edit_levels es) as Hlv.
  { pose proof (edits_of_nodup ops Hops) as Hnd. rewrite <- Hmap, Forall_map in Hnd. apply Forall_cons in Hrec as [_ Hr].
    rewrite Forall_forall in Hnd, Hr |- *. intros x Hx. apply recordable_levels; [by apply Hr|by apply (Hnd x)]. }
  assert (forall i st li, sts !! i = Some st -> descriptorlog st = Some li -> (length (contents (dest li)) <= n)%nat ->
    (S (S i) <= k)%nat) as Hdur.
  { intros i st li Hi Hli Hn. destruct (Hall i st Hi) as (frs_i & e & Hi1 & Hi2 & Hi3 & _). apply lookup_lt_Some in Hi3.
    apply Hj; [cbn [length]; lia|]. by erewrite <- (state_log v0 (compactPointer vs0)). }
  destruct k as [|[|k]].
  1-2: match type of Hread with _ = Some (map record_of ?l, _) =>
      assert (exists vsr, dummyversions vsr = [Version_make] /\
        Recover ucmp readaddr dbname false maxfilesize false VersionSet_make env1 =
        Some (Corruption (str "no meta-nextfile entry in descriptor") [], false, vsr, env1)) as (vsr & Hvsr & Hr);
      [eapply (Recover_none v0) with (es := l); first [exact Hl7|exact Hnames|exact Hv0|exact Hread|by apply Forall_take|exact Hl1
        |rewrite length_take; lia|by (left + right)]|] end;
    eexists _, _, vsr; (split; [exact Hr|]); left; (split; [done|]); (split; [done|]);
    intros i st li Hi Hli; apply Nat.nle_gt; intros Hn; pose proof (Hdur i st li Hi Hli Hn); lia.
  destruct (lookup_lt_is_Some_2 sts k ltac:(lia)) as [st Hst].
  destruct (Hall k st Hst) as (frs_k & e & Hi1 & Hi2 & Hi3 & Hi4).
  edestruct (state_recovered v0 (compactPointer vs0)) with (k := k) (st := st) (m := m) (g := g) as (vsr & Hr & Hrecov); try done.
  eexists _, _, vsr. split; [exact Hr|]. right. split; [done|]. exists k, st. split; [done|]. split; [done|].
  intros i st' li Hi Hli Hn. pose proof (Hdur i st' li Hi Hli Hn). lia.
Qed.
End Manifest.

(** ** A concrete run *)

Definition demo_state : VersionSet (F := WritableFile) :=
  MkVersionSet [Version_make] 3 2 0 0 0 (replicate 7 []) None.

(** Two file numbers, a sequence number, and three edits. *)
Definition demo_ops : list op :=
  OpFileNumber :: OpFileNumber :: OpSequence 9 :: map OpLog demo_edits.

#[local] Instance demo_env : FileEnv MemDir WritableFile SequentialFile := MemDir_env demo_strerror.
#[local] Instance demo_append : AppendFile WritableFile := WritableFile_append demo_strerror.
#[local] Instance demo_append_ok : AppendFileOk WritableFile := WritableFile_ok demo_strerror.
#[local] Instance demo_env_ok : FileEnvOk MemDir WritableFile SequentialFile := MemDir_ok demo_strerror.
#[local] Instance demo_read : ReadFile SequentialFile := SequentialFile_read demo_strerror.
#[local] Instance demo_read_ok : ReadFileOk SequentialFile full_reads := SequentialFile_ok demo_strerror.

Definition demo_run : option (list (VersionSet (F := WritableFile)) * VersionSet (F := WritableFile) * MemDir) :=
  run (ucmp := BytewiseComparatorImpl) 0 0 (G := SequentialFile) (str "/db") demo_ops demo_state
    [(str "/db/000002.dbtmp", [])].
Strategy expand [demo_run].

Definition demo_manifest : bytes :=
  match demo_run with
  | Some (_, vs, _) => match descriptorlog vs with Some log => contents (dest log) | None => [] end
  | None => []
  end.

(** The directory after a crash that left the first [n] bytes of the manifest. *)
Definition demo_dir (n : nat) : MemDir :=
  [(str "/db/CURRENT", current_contents 2); (str "/db/MANIFEST-000002", take n demo_manifest)].

Lemma Version_make_fits : version_fits (ucmp := BytewiseComparatorImpl) Version_make.
Proof.
  split; [apply Version_make_wf|apply (bool_decide_unpack _); vm_compute; exact I|].
  intros L f HL Hf. rewrite Version_make_level in Hf by done. by apply not_elem_of_nil in Hf.
Qed.

Lemma demo_ops_ok : Forall op_ok demo_ops.
Proof.
  unfold demo_ops, demo_edits. cbn [map].
  repeat (apply Forall_cons; split); try apply Forall_nil; try exact I; try (vm_compute; split; congruence).
  all: split; [|apply (bool_decide_unpack _); vm_compute; exact I].
  all: split; cbn [comparator lognumber prevlognumber nextfilenumber lastsequence compactpointers deletedfiles newfiles];
    try (apply (bool_decide_unpack _); vm_compute; exact I); try (repeat constructor).
  all: vm_compute; congruence.
Qed.

Lemma manifest_recovery_witness :
  exists sts vs' env' s manifest vsr, demo_run = Some (sts, vs', env') /\
    Recover BytewiseComparatorImpl 0 (F := WritableFile) (G := SequentialFile) (str "/db") false 0 false VersionSet_make (demo_dir 300) =
      Some (s, manifest, vsr, demo_dir 300) /\
    (s, map (fun v => map (map number) (vfiles v)) (dummyversions vsr)) = (OK, [[[]; [10; 12]; []; []; []; []; []]]).
Proof.
  destruct demo_run as [[[sts vs'] env']|] eqn:Hrun; [|vm_compute in Hrun; discriminate].
  destruct (manifest_recovery (ucmp := BytewiseComparatorImpl) 0 0 0 (G := SequentialFile) (good := full_reads) (str "/db") 0
    demo_ops demo_state vs' Version_make sts [(str "/db/000002.dbtmp", [])] env') as (log & Hlog & Hrec).
  - reflexivity.
  - reflexivity.
  - exact Version_make_fits.
  - repeat split; vm_compute; congruence.
  - reflexivity.
  - apply (bool_decide_unpack _); vm_compute; exact I.
  - vm_compute. split; congruence.
  - exact demo_ops_ok.
  - exact demo_edits_fresh.
  - unfold demo_run in Hrun. exact Hrun.
  - intros ->. vm_compute in Hrun. discriminate.
  - destruct (Hrec 300%nat 2 (MkSequentialFile (take 300 demo_manifest) [] (str "/db/MANIFEST-000002")) (demo_dir 300))
      as (s & manifest & vsr & Hr & _).
    + split; [lia|]. split; [constructor|]. split; [reflexivity|].
      exists (MkSequentialFile (current_contents 2) [] (str "/db/CURRENT")). split; [reflexivity|]. split; [constructor|reflexivity].
    + unfold demo_manifest. rewrite Hrun, Hlog. reflexivity.
    + exists sts, vs', env', s, manifest, vsr. split; [reflexivity|]. split; [exact Hr|].
      vm_compute in Hr. injection Hr as <- _ <-. reflexivity.
Defined.
