(* ===== verification/Compaction.v ===== *)
(** Choosing what to compact (the class [Compaction] and the compaction half of [VersionSet]
    in redisdb/db/versionset.h and versionset.cc).

    A compaction at a level takes files of that level ([inputs0], the code's [inputs[0]])
    and files of the next ([inputs1]), and replaces them by files of the next level. *)
From Stdlib Require Import Sorted SpecFloat.
From stdpp Require Import sorting sets.
From S2P Require Import Prelude Coding Status Env LogFormat DbFormat Block Iterators VersionEdit FileIO Version VersionBuilder VersionSet.
Local Open Scope Z_scope.

(** [MaxFileSizeForLevel], the [maxoutputfilesize] of every compaction. *)
Definition MaxFileSizeForLevel (maxfilesize level : Z) : Z := u64 maxfilesize.

Record Compaction := MkCompaction {
  clevel : Z;
  maxoutputfilesize : Z;
  grandparentindex : nat;
  seenkey : bool;
  overlappedbytes : Z;
  levelptrs : list nat;
  cedit : VersionEdit;
  inputversion : option Version;
  inputs0 : list file;
  inputs1 : list file;
  grandparents : list file
}.

Definition Compaction_make (maxfilesize level : Z) : Compaction :=
  MkCompaction level (MaxFileSizeForLevel maxfilesize level) 0 false 0 (replicate (Z.to_nat kNumLevels) 0%nat)
    VersionEdit_make None [] [] [].

Definition set_inputs (c : Compaction) (v : Version) (in0 in1 gp : list file) (edit : VersionEdit) : Compaction :=
  MkCompaction (clevel c) (maxoutputfilesize c) (grandparentindex c) (seenkey c) (overlappedbytes c) (levelptrs c)
    edit (Some v) in0 in1 gp.
Definition set_edit (c : Compaction) (edit : VersionEdit) : Compaction :=
  MkCompaction (clevel c) (maxoutputfilesize c) (grandparentindex c) (seenkey c) (overlappedbytes c) (levelptrs c)
    edit (inputversion c) (inputs0 c) (inputs1 c) (grandparents c).
Definition set_levelptrs (c : Compaction) (ptrs : list nat) : Compaction :=
  MkCompaction (clevel c) (maxoutputfilesize c) (grandparentindex c) (seenkey c) (overlappedbytes c) ptrs
    (cedit c) (inputversion c) (inputs0 c) (inputs1 c) (grandparents c).
Definition set_progress (c : Compaction) (index : nat) (overlapped : Z) : Compaction :=
  MkCompaction (clevel c) (maxoutputfilesize c) index true overlapped (levelptrs c)
    (cedit c) (inputversion c) (inputs0 c) (inputs1 c) (grandparents c).

Definition numInputFiles (c : Compaction) (which : Z) : Z := len (if which =? 0 then inputs0 c else inputs1 c).
Definition input (c : Compaction) (which : Z) (i : nat) : option file := (if which =? 0 then inputs0 c else inputs1 c) !! i.

Section Compaction.
Context (ucmp : Comparator) (maxfilesize : Z).
Context {F : Type} `{AppendFile F}.

(** [InternalKeyComparator::Compare] on two keys, which must not be empty. *)
Definition icompare (a b : InternalKey) : option comparison :=
  let? a := InternalKey_Encode a in let? b := InternalKey_Encode b in Some (Internal_Compare ucmp a b).

(** ** Ranges *)

Fixpoint get_range (files : list file) (s l : InternalKey) : option (InternalKey * InternalKey) :=
  match files with
  | [] => Some (s, l)
  | f :: files =>
      let? cs := icompare (smallest f) s in
      let? cl := icompare (largest f) l in
      get_range files (if bool_decide (cs = Lt) then smallest f else s) (if bool_decide (cl = Gt) then largest f else l)
  end.

(** [GetRange]; the inputs must not be empty. *)
Definition GetRange (inputs : list file) : option (InternalKey * InternalKey) :=
  match inputs with
  | [] => None
  | f :: files => get_range files (smallest f) (largest f)
  end.

Definition GetRange2 (inputs1 inputs2 : list file) : option (InternalKey * InternalKey) := GetRange (inputs1 ++ inputs2).

Fixpoint largest_key (files : list file) (l : InternalKey) : option InternalKey :=
  match files with
  | [] => Some l
  | f :: files =>
      let? c := icompare (largest f) l in largest_key files (if bool_decide (c = Gt) then largest f else l)
  end.

(** [findLargestKey]: no key when there are no files. *)
Definition findLargestKey (files : list file) : option (option InternalKey) :=
  match files with
  | [] => Some None
  | f :: files => let? k := largest_key files (largest f) in Some (Some k)
  end.

Fixpoint boundary_scan (levelfiles : list file) (largestkey : InternalKey) (best : option file)
    : option (option file) :=
  match levelfiles with
  | [] => Some best
  | f :: levelfiles =>
      let? c := icompare (smallest f) largestkey in
      if bool_decide (c = Gt) &&
         bool_decide (Compare ucmp (FUserKey (smallest f)) (FUserKey largestkey) = Eq) then
        let? better :=
          match best with
          | None => Some true
          | Some g => let? c := icompare (smallest f) (smallest g) in Some (bool_decide (c = Lt))
          end in
        boundary_scan levelfiles largestkey (if better : bool then Some f else best)
      else boundary_scan levelfiles largestkey best
  end.

Definition findSmallestBoundaryFile (levelfiles : list file) (largestkey : InternalKey) : option (option file) :=
  boundary_scan levelfiles largestkey None.

(** The [while (continuesearching)] loop. *)
Fixpoint boundary_loop (fuel : nat) (levelfiles : list file) (largestkey : InternalKey) (compactionfiles : list file)
    : option (list file) :=
  match fuel with
  | O => None
  | S fuel' =>
      let? b := findSmallestBoundaryFile levelfiles largestkey in
      match b with
      | Some f => boundary_loop fuel' levelfiles (largest f) (compactionfiles ++ [f])
      | None => Some compactionfiles
      end
  end.

(** [addBoundaryInputs]: each round passes a file of the level. *)
Definition addBoundaryInputs (levelfiles compactionfiles : list file) : option (list file) :=
  let? k := findLargestKey compactionfiles in
  match k with
  | None => Some compactionfiles
  | Some k => boundary_loop (S (length levelfiles)) levelfiles k compactionfiles
  end.

(** ** Setting up a compaction *)

Definition over_range (v : Version) (level : Z) (r : InternalKey * InternalKey) : option (list file) :=
  GetOverlappingInputs ucmp v level (Some r.1) (Some r.2).

(** The attempt of [SetupOtherInputs] to grow the inputs of the level: the inputs and
    the largest key of the first. *)
Definition grow_inputs (v : Version) (level : Z) (in0 in1 : list file) (largest : InternalKey)
    : option (list file * list file * InternalKey) :=
  match in1 with
  | [] => Some (in0, in1, largest)
  | _ =>
      let? all := GetRange2 in0 in1 in
      let? expanded0 := over_range v level all in
      let? expanded0 := addBoundaryInputs (level_files v level) expanded0 in
      if (length in0 <? length expanded0)%nat &&
         (i64 (TotalFileSize in1 + TotalFileSize expanded0) <? ExpandedCompactionByteSizeLimit maxfilesize) then
        let? newrange := GetRange expanded0 in
        let? expanded1 := over_range v (level + 1) newrange in
        if (length expanded1 =? length in1)%nat then Some (expanded0, expanded1, newrange.2)
        else Some (in0, in1, largest)
      else Some (in0, in1, largest)
  end.

Definition SetupOtherInputs (c : Compaction) (vs : VersionSet (F := F)) : option (Compaction * VersionSet (F := F)) :=
  let level := clevel c in
  let? v := current vs in
  let? in0 := addBoundaryInputs (level_files v level) (inputs0 c) in
  let? range := GetRange in0 in
  let? in1 := over_range v (level + 1) range in
  let? (in0, in1, largest) := grow_inputs v level in0 in1 range.2 in
  let? all := GetRange2 in0 in1 in
  let? gp := if level + 2 <? kNumLevels then over_range v (level + 2) all else Some (grandparents c) in
  let? key := InternalKey_Encode largest in
  Some (set_inputs c v in0 in1 gp (SetCompactPointer (cedit c) level largest),
        set_pointers (<[Z.to_nat level := key]> (compactPointer vs)) vs).

(** The first file after [compact_pointer[level]]. *)
Fixpoint first_after (files : list file) (pointer : bytes) : option (option file) :=
  match files with
  | [] => Some None
  | f :: files =>
      match pointer with
      | [] => Some (Some f)
      | _ =>
          let? l := InternalKey_Encode (largest f) in
          if bool_decide (Internal_Compare ucmp l pointer = Gt) then Some (Some f) else first_after files pointer
      end
  end.

(** The level and the file [PickCompaction] starts from: no level when there is nothing
    to do. *)
Definition pick_start (v : Version) (vs : VersionSet (F := F)) : option (option (Z * file)) :=
  if dge (compactionscore v) (double_of 1) then
    let level := compactionlevel v in
    if (0 <=? level) && (level + 1 <? kNumLevels) then
      let files := level_files v level in
      let? f := first_after files (compactPointer vs !!! Z.to_nat level) in
      match f with
      | Some f => Some (Some (level, f))
      | None => let? f := head files in Some (Some (level, f))      (* wrap around *)
      end
    else None
  else
    match filetocompact v with
    | Some (l, i) => let? f := level_files v l !! i in Some (Some (filetocompactlevel v, f))
    | None => Some None
    end.

Definition PickCompaction (vs : VersionSet (F := F)) : option (option Compaction * VersionSet (F := F)) :=
  let? v := current vs in
  let? start := pick_start v vs in
  match start with
  | None => Some (None, vs)
  | Some (level, f) =>
      let c := Compaction_make maxfilesize level in
      let? in0 :=
        if level =? 0 then
          let? range := GetRange [f] in
          let? in0 := over_range v 0 range in
          match in0 with [] => None | _ => Some in0 end
        else Some [f] in
      let? (c, vs) := SetupOtherInputs (set_inputs c v in0 [] [] (cedit c)) vs in
      Some (Some c, vs)
  end.

(** The [for] loop of [CompactRange] that cuts the inputs at the size of one file. *)
Fixpoint cut_inputs (limit total : Z) (inputs : list file) : list file :=
  match inputs with
  | [] => []
  | f :: inputs =>
      let total := u64 (total + filesize f) in
      f :: if limit <=? total then [] else cut_inputs limit total inputs
  end.

Definition CompactRange (level : Z) (begin end_ : option InternalKey) (vs : VersionSet (F := F))
    : option (option Compaction * VersionSet (F := F)) :=
  let? v := current vs in
  let? inputs := GetOverlappingInputs ucmp v level begin end_ in
  match inputs with
  | [] => Some (None, vs)
  | _ =>
      let inputs := if 0 <? level then cut_inputs (MaxFileSizeForLevel maxfilesize level) 0 inputs else inputs in
      let c := Compaction_make maxfilesize level in
      let? (c, vs) := SetupOtherInputs (set_inputs c v inputs [] [] (cedit c)) vs in
      Some (Some c, vs)
  end.

(** [MaxNextLevelOverlappingBytes]. *)
Fixpoint max_overlap (v : Version) (level : Z) (files : list file) (result : Z) : option Z :=
  match files with
  | [] => Some result
  | f :: files =>
      let? overlaps := over_range v (level + 1) (smallest f, largest f) in
      let sum := TotalFileSize overlaps in
      max_overlap v level files (if result <? sum then sum else result)
  end.

Definition MaxNextLevelOverlappingBytes (vs : VersionSet (F := F)) : option Z :=
  let? v := current vs in
  fold_left (fun result level => let? result := result in max_overlap v level (level_files v level) result)
    (seqZ 1 (kNumLevels - 2)) (Some 0).

(** ** Running one *)

Definition isTrivialMove (c : Compaction) : bool :=
  (numInputFiles c 0 =? 1) && (numInputFiles c 1 =? 0) &&
  (TotalFileSize (grandparents c) <=? MaxGrandParentOverlapBytes maxfilesize).

Definition addInputDeletions (c : Compaction) (edit : VersionEdit) : VersionEdit :=
  let edit := fold_left (fun edit f => DeleteFile edit (clevel c) (number f)) (inputs0 c) edit in
  fold_left (fun edit f => DeleteFile edit (clevel c + 1) (number f)) (inputs1 c) edit.

(** The inner loop of [isBaseLevelForKey], from the files at the level's pointer: the
    pointer after it, and whether the key is in the range of the file there. *)
Fixpoint base_scan (files : list file) (ptr : nat) (userkey : bytes) : nat * bool :=
  match files with
  | [] => (ptr, false)
  | f :: files =>
      if bool_decide (Compare ucmp userkey (FUserKey (largest f)) <> Gt) then
        (ptr, bool_decide (Compare ucmp userkey (FUserKey (smallest f)) <> Lt))
      else base_scan files (S ptr) userkey
  end.

Fixpoint base_levels (v : Version) (levels : list Z) (ptrs : list nat) (userkey : bytes) : bool * list nat :=
  match levels with
  | [] => (true, ptrs)
  | lvl :: levels =>
      let ptr := ptrs !!! Z.to_nat lvl in
      let '(ptr, inside) := base_scan (drop ptr (level_files v lvl)) ptr userkey in
      let ptrs := <[Z.to_nat lvl := ptr]> ptrs in
      if inside : bool then (false, ptrs) else base_levels v levels ptrs userkey
  end.

Definition isBaseLevelForKey (c : Compaction) (userkey : bytes) : option (bool * Compaction) :=
  let? v := inputversion c in
  let '(base, ptrs) := base_levels v (seqZ (clevel c + 2) (kNumLevels - (clevel c + 2))) (levelptrs c) userkey in
  Some (base, set_levelptrs c ptrs).

(** The [while] loop of [shouldStopBefore], over the grandparents from [grandparentindex]. *)
Fixpoint pass_grandparents (files : list file) (index : nat) (seen : bool) (overlapped : Z) (internalKey : bytes)
    : option (nat * Z) :=
  match files with
  | [] => Some (index, overlapped)
  | f :: files =>
      let? l := InternalKey_Encode (largest f) in
      if bool_decide (Internal_Compare ucmp internalKey l = Gt) then
        pass_grandparents files (S index) seen (if seen then i64 (overlapped + filesize f) else overlapped) internalKey
      else Some (index, overlapped)
  end.

Definition shouldStopBefore (c : Compaction) (internalKey : bytes) : option (bool * Compaction) :=
  let? (index, overlapped) :=
    pass_grandparents (drop (grandparentindex c) (grandparents c)) (grandparentindex c) (seenkey c) (overlappedbytes c)
      internalKey in
  Some (if MaxGrandParentOverlapBytes maxfilesize <? overlapped then (true, set_progress c index 0)
        else (false, set_progress c index overlapped)).
End Compaction.

(** ** Ranges of files *)

Section Ranges.
Context {ucmp : Comparator} {Hok : ComparatorOk ucmp (fun _ => True)}.

Abbreviation ile a b := (Internal_Compare ucmp a b <> Gt).
Abbreviation ilt a b := (Internal_Compare ucmp a b = Lt).
Abbreviation su f := (FUserKey (smallest f)).
Abbreviation lu f := (FUserKey (largest f)).
Abbreviation file_ok := (file_ok (ucmp := ucmp)).
Abbreviation level_ok := (level_ok (ucmp := ucmp)).
Abbreviation disjoint := (disjoint (ucmp := ucmp)).
Abbreviation meets := (meets (ucmp := ucmp)).

Lemma igt_lt a b : Internal_Compare ucmp a b = Gt <-> ilt b a.
Proof. rewrite Internal_opp. by destruct (Internal_Compare ucmp b a). Qed.

Lemma ile_refl a : ile a a.
Proof. by rewrite Internal_refl. Qed.

Lemma ilt_le a b : ilt a b -> ile a b.
Proof. by intros ->. Qed.

Lemma ile_lt_trans a b d : ile a b -> ilt b d -> ilt a d.
Proof.
  intros H1 H2. destruct (Internal_Compare ucmp a b) eqn:E; [|by apply (Internal_lt_trans a b d)|done].
  by rewrite (Internal_eq_l a b d).
Qed.

Lemma ilt_le_trans a b d : ilt a b -> ile b d -> ilt a d.
Proof.
  intros H1 H2. destruct (Internal_Compare ucmp b d) eqn:E; [|by apply (Internal_lt_trans a b d)|done].
  apply igt_lt. rewrite <- (Internal_eq_l b d a) by done. by apply igt_lt.
Qed.

Lemma ile_trans a b d : ile a b -> ile b d -> ile a d.
Proof.
  intros H1 H2 H3%igt_lt. apply H1, igt_lt. by apply (ile_lt_trans b d a).
Qed.

Lemma ilt_not a b : ilt a b -> ile b a -> False.
Proof. intros H1 H2. apply H2. by apply igt_lt. Qed.

(** Internal order implies the order of user keys, and follows from a strict one. *)
Lemma ile_user a b : ile a b -> Compare ucmp (FUserKey a) (FUserKey b) <> Gt.
Proof. intros H Hgt. apply H. rewrite Internal_Compare_alt. unfold FUserKey in Hgt. by rewrite Hgt. Qed.

Lemma user_ilt a b : Compare ucmp (FUserKey a) (FUserKey b) = Lt -> ilt a b.
Proof. intros H. rewrite Internal_Compare_alt. unfold FUserKey in H. by rewrite H. Qed.

Lemma icompare_ok a b : ikey_ok a -> ikey_ok b -> icompare ucmp a b = Some (Internal_Compare ucmp a b).
Proof. intros Ha Hb. unfold icompare. by rewrite !ikey_ok_Encode. Qed.

(** The least range that covers the files. *)
Record range_of (files : list file) (s l : InternalKey) : Prop := {
  ro_s : exists f, f ∈ files /\ s = smallest f;
  ro_l : exists f, f ∈ files /\ l = largest f;
  ro_below f : f ∈ files -> ile s (smallest f);
  ro_above f : f ∈ files -> ile (largest f) l
}.

Lemma get_range_ok files : forall seen s l, Forall file_ok files -> Forall file_ok seen -> range_of seen s l ->
  exists s' l', get_range ucmp files s l = Some (s', l') /\ range_of (seen ++ files) s' l'.
Proof.
  induction files as [|f files IH]; intros seen s l Hf Hs Hr; cbn [get_range].
  { exists s, l. by rewrite app_nil_r. }
  apply Forall_cons in Hf as [Hf Hfs]. pose proof Hr as [(fs & Hfs1 & ->) (fl & Hfl & ->) Hb Ha].
  rewrite Forall_forall in Hs. rewrite !icompare_ok by (apply Hf || by apply Hs).
  rewrite (cons_middle f seen files), app_assoc. apply IH; [done|apply Forall_app; split; [by apply Forall_forall|by apply Forall_singleton]|].
  split.
  - case_bool_decide; [exists f; set_solver|exists fs; set_solver].
  - case_bool_decide; [exists f; set_solver|exists fl; set_solver].
  - intros g [Hg| ->%list_elem_of_singleton]%elem_of_app; case_bool_decide as Hc; try apply ile_refl.
    + by apply (ile_trans _ (smallest fs)); [apply ilt_le|apply Hb].
    + by apply Hb.
    + intros Hgt%igt_lt. done.
  - intros g [Hg| ->%list_elem_of_singleton]%elem_of_app; case_bool_decide as Hc; try apply ile_refl.
    + apply (ile_trans _ (largest fl)); [by apply Ha|]. by apply ilt_le, igt_lt.
    + by apply Ha.
    + done.
Qed.

Lemma GetRange_ok files : Forall file_ok files -> files <> [] ->
  exists s l, GetRange ucmp files = Some (s, l) /\ range_of files s l.
Proof.
  destruct files as [|f files]; [done|]. intros [Hf Hfs]%Forall_cons _. cbn [GetRange].
  apply (get_range_ok files [f]); [done|by apply Forall_singleton|].
  split; [exists f; set_solver|exists f; set_solver|..]; intros g ->%list_elem_of_singleton; apply ile_refl.
Qed.

Lemma range_ikey files s l : Forall file_ok files -> range_of files s l -> ikey_ok s /\ ikey_ok l.
Proof. rewrite Forall_forall. intros Hf [(f & H1 & ->) (g & H2 & ->) _ _]. split; by apply Hf. Qed.

(** [k] is the largest key of the files. *)
Definition is_largest (files : list file) (k : InternalKey) : Prop :=
  (exists f, f ∈ files /\ k = largest f) /\ forall f, f ∈ files -> ile (largest f) k.

Lemma largest_key_ok files : forall seen k, Forall file_ok files -> Forall file_ok seen -> is_largest seen k ->
  exists k', largest_key ucmp files k = Some k' /\ is_largest (seen ++ files) k'.
Proof.
  induction files as [|f files IH]; intros seen k Hf Hs Hk; cbn [largest_key].
  { exists k. by rewrite app_nil_r. }
  apply Forall_cons in Hf as [Hf Hfs]. pose proof Hk as [(g & Hg & ->) Hmax].
  rewrite Forall_forall in Hs. rewrite !icompare_ok by (apply Hf || by apply Hs).
  rewrite (cons_middle f seen files), app_assoc. apply IH; [done|apply Forall_app; split; [by apply Forall_forall|by apply Forall_singleton]|].
  split.
  - case_bool_decide; [exists f; set_solver|exists g; set_solver].
  - intros h [Hh| ->%list_elem_of_singleton]%elem_of_app; case_bool_decide as Hc; try apply ile_refl.
    + apply (ile_trans _ (largest g)); [by apply Hmax|]. by apply ilt_le, igt_lt.
    + by apply Hmax.
    + done.
Qed.

Lemma findLargestKey_ok files : Forall file_ok files -> files <> [] ->
  exists k, findLargestKey ucmp files = Some (Some k) /\ is_largest files k.
Proof.
  destruct files as [|f files]; [done|]. intros [Hf Hfs]%Forall_cons _. cbn [findLargestKey].
  destruct (largest_key_ok files [f] (largest f)) as (k & -> & Hk); [done|by apply Forall_singleton| |by exists k].
  split; [exists f; set_solver|]. intros g ->%list_elem_of_singleton. apply ile_refl.
Qed.

Lemma range_largest files s l : range_of files s l -> is_largest files l.
Proof. by intros []. Qed.

(** ** Boundary files *)

(** [g] begins after [k] with the user key of [k]. *)
Definition boundary (k : InternalKey) (g : file) : Prop :=
  ilt k (smallest g) /\ Compare ucmp (su g) (FUserKey k) = Eq.

Lemma boundary_scan_ok files k : forall best seen, Forall file_ok files -> ikey_ok k -> Forall file_ok seen ->
  match best with
  | None => forall f, f ∈ seen -> ~ boundary k f
  | Some g => g ∈ seen /\ boundary k g /\ forall f, f ∈ seen -> boundary k f -> ile (smallest g) (smallest f)
  end ->
  exists best', boundary_scan ucmp files k best = Some best' /\
  match best' with
  | None => forall f, f ∈ seen ++ files -> ~ boundary k f
  | Some g => g ∈ seen ++ files /\ boundary k g /\
      forall f, f ∈ seen ++ files -> boundary k f -> ile (smallest g) (smallest f)
  end.
Proof.
  induction files as [|f files IH]; intros best seen Hf Hk Hs Hb; cbn [boundary_scan].
  { exists best. by rewrite app_nil_r. }
  apply Forall_cons in Hf as [Hf Hfs]. rewrite icompare_ok by (done || apply Hf).
  rewrite (cons_middle f seen files), app_assoc.
  assert (Forall file_ok (seen ++ [f])) as Hs' by (apply Forall_app; split; [done|by apply Forall_singleton]).
  rewrite <- bool_decide_and. case_bool_decide as Hbd.
  2: { apply IH; [done..|]. destruct best as [g|].
       - destruct Hb as (Hg & Hbg & Hmin). split; [set_solver|]. split; [done|].
         intros h [Hh| ->%list_elem_of_singleton]%elem_of_app Hbh; [by apply Hmin|].
         destruct Hbd. by destruct Hbh as [?%igt_lt ?].
       - intros h [Hh| ->%list_elem_of_singleton]%elem_of_app; [by apply Hb|]. intros [?%igt_lt ?]. by apply Hbd. }
  destruct Hbd as [Hgt%igt_lt Heq]. destruct best as [g|].
  2: { apply IH; [done..|]. split; [set_solver|]. split; [done|].
       intros h [Hh| ->%list_elem_of_singleton]%elem_of_app Hbh; [by destruct (Hb h Hh)|apply ile_refl]. }
  destruct Hb as (Hg & Hbg & Hmin). rewrite Forall_forall in Hs. rewrite icompare_ok by (apply Hf || by apply Hs).
  apply IH; [done|done|done|]. case_bool_decide as Hc.
  - split; [set_solver|]. split; [done|]. intros h [Hh| ->%list_elem_of_singleton]%elem_of_app Hbh; [|apply ile_refl].
    apply (ile_trans _ (smallest g)); [by apply ilt_le|by apply Hmin].
  - split; [set_solver|]. split; [done|]. intros h [Hh| ->%list_elem_of_singleton]%elem_of_app Hbh; [by apply Hmin|].
    by intros ?%igt_lt.
Qed.

Lemma findSmallestBoundaryFile_ok files k : Forall file_ok files -> ikey_ok k ->
  exists best, findSmallestBoundaryFile ucmp files k = Some best /\
  match best with
  | None => forall f, f ∈ files -> ~ boundary k f
  | Some g => g ∈ files /\ boundary k g /\ forall f, f ∈ files -> boundary k f -> ile (smallest g) (smallest f)
  end.
Proof.
  intros Hf Hk. apply (boundary_scan_ok files k None []); [done|done|done|]. intros f Hn. by apply not_elem_of_nil in Hn.
Qed.

(** The files that begin after [k]; every round leaves fewer. *)
Definition after (k : InternalKey) (f : file) : bool := bool_decide (ilt k (smallest f)).

(** The search keeps any [P] that adding the first boundary file keeps. *)
Lemma boundary_loop_ok (P : list file -> Prop) files fuel : forall k cur,
  Forall file_ok files -> Forall file_ok cur -> is_largest cur k -> P cur ->
  (forall k cur g, is_largest cur k -> P cur -> g ∈ files -> boundary k g ->
     (forall f, f ∈ files -> boundary k f -> ile (smallest g) (smallest f)) -> P (cur ++ [g])) ->
  (length (List.filter (after k) files) < fuel)%nat ->
  exists added k', boundary_loop ucmp fuel files k cur = Some (cur ++ added) /\ P (cur ++ added) /\
    Forall (fun f => f ∈ files) added /\ is_largest (cur ++ added) k' /\ forall f, f ∈ files -> ~ boundary k' f.
Proof.
  induction fuel as [|fuel IH]; intros k cur Hf Hc Hk HP Hstep Hfuel; [lia|]. cbn [boundary_loop].
  assert (ikey_ok k) as Hik. { destruct Hk as [(f & Hin & ->) _]. rewrite Forall_forall in Hc. by apply Hc. }
  destruct (findSmallestBoundaryFile_ok files k Hf Hik) as ([g|] & -> & Hg).
  2: { exists [], k. rewrite app_nil_r. by repeat (split; [done|]). }
  destruct Hg as (Hin & Hbg & Hmin). pose proof (proj1 (Forall_forall _ _) Hf g Hin) as Hgo.
  assert (ilt k (largest g)) as Hlt by (apply (ilt_le_trans _ (smallest g)); [apply Hbg|apply Hgo]).
  destruct (IH (largest g) (cur ++ [g])) as (added & k' & Hl & HP' & Hadd & Hk' & Hno).
  - done.
  - apply Forall_app. split; [done|by apply Forall_singleton].
  - split; [exists g; set_solver|]. intros f [Hfc| ->%list_elem_of_singleton]%elem_of_app; [|apply ile_refl].
    by apply ilt_le, (ile_lt_trans _ k); [apply Hk|].
  - by apply (Hstep k).
  - done.
  - enough (length (List.filter (after (largest g)) files) < length (List.filter (after k) files))%nat by lia.
    apply (filter_length_lt _ _ _ g); [|done| |by apply bool_decide_eq_true; apply Hbg].
    + intros f _ Hfa%bool_decide_eq_true. apply bool_decide_eq_true. by apply (Internal_lt_trans _ (largest g)).
    + apply bool_decide_eq_false. intros Hbad. by apply (ilt_not _ _ Hbad), Hgo.
  - rewrite <- app_assoc in Hl, HP', Hk'. exists ([g] ++ added), k'. do 2 (split; [done|]). split; [|done].
    apply Forall_app. split; [by apply Forall_singleton|done].
Qed.

Lemma addBoundaryInputs_ok (P : list file -> Prop) files inputs :
  Forall file_ok files -> Forall file_ok inputs -> inputs <> [] -> P inputs ->
  (forall k cur g, is_largest cur k -> P cur -> g ∈ files -> boundary k g ->
     (forall f, f ∈ files -> boundary k f -> ile (smallest g) (smallest f)) -> P (cur ++ [g])) ->
  exists added k, addBoundaryInputs ucmp files inputs = Some (inputs ++ added) /\ P (inputs ++ added) /\
    Forall (fun f => f ∈ files) added /\ is_largest (inputs ++ added) k /\ forall f, f ∈ files -> ~ boundary k f.
Proof.
  intros Hf Hi Hne HP Hstep. unfold addBoundaryInputs. destruct (findLargestKey_ok inputs Hi Hne) as (k & -> & Hk).
  cbv beta iota. apply (boundary_loop_ok P); [done..|].
  pose proof (List.filter_length_le (after k) files). lia.
Qed.
End Ranges.

(** ** Inputs that may be compacted *)

Section Inputs.
Context {ucmp : Comparator} {Hok : ComparatorOk ucmp (fun _ => True)}.

Abbreviation ile a b := (Internal_Compare ucmp a b <> Gt).
Abbreviation ilt a b := (Internal_Compare ucmp a b = Lt).
Abbreviation su f := (FUserKey (smallest f)).
Abbreviation lu f := (FUserKey (largest f)).
Abbreviation file_ok := (file_ok (ucmp := ucmp)).
Abbreviation level_ok := (level_ok (ucmp := ucmp)).
Abbreviation meets := (meets (ucmp := ucmp)).
Abbreviation boundary := (boundary (ucmp := ucmp)).
Abbreviation is_largest := (is_largest (ucmp := ucmp)).
Abbreviation range_of := (range_of (ucmp := ucmp)).

(** The files of a level, disjoint and in order above level 0. *)
Record level_fine (level : Z) (files : list file) : Prop := {
  lf_files : Forall file_ok files;
  lf_level : 0 < level -> level_ok files
}.

(** Inputs without gaps: a stretch of the level or, in level 0, all files that meet a range
    closed under overlap. *)
Definition whole (level : Z) (files inputs : list file) : Prop :=
  if level =? 0 then exists b e, closed_range (ucmp := ucmp) files b e /\ inputs = filter (meets b e) files
  else exists pre post, files = pre ++ inputs ++ post.

(** Moving the inputs down a level leaves no older entry of a key they hold behind: each
    other file of the level ends before each input begins, or begins after its last user
    key. *)
Definition movable (files inputs : list file) : Prop :=
  forall f g, f ∈ inputs -> g ∈ files -> g ∉ inputs ->
    ilt (largest g) (smallest f) \/ Compare ucmp (lu f) (su g) = Lt.

Lemma whole_in level files inputs f : whole level files inputs -> f ∈ inputs -> f ∈ files.
Proof.
  unfold whole. destruct (level =? 0).
  - intros (b & e & _ & ->). by intros [_ ?]%list_elem_of_filter.
  - intros (pre & post & ->). set_solver.
Qed.

Lemma whole_ok level files inputs : level_fine level files -> whole level files inputs -> Forall file_ok inputs.
Proof.
  intros [Hf _] Hw. rewrite Forall_forall in Hf |- *. intros f Hin. by apply Hf, (whole_in level files inputs).
Qed.

Lemma ulu_mono files i j a b :
  level_ok files -> (i <= j)%nat -> files !! i = Some a -> files !! j = Some b -> Compare ucmp (lu a) (lu b) <> Gt.
Proof.
  intros [Hf Hd _] Hij Ha Hb. apply Nat.lt_eq_cases in Hij as [Hij| ->].
  - apply ile_user, ilt_le. by apply (disjoint_largest files i j).
  - simplify_eq. by rewrite (Compare_refl (dom := fun _ => True)).
Qed.

Lemma meets_stretch files b e : level_ok files -> exists pre post, files = pre ++ filter (meets b e) files ++ post.
Proof.
  intros Hl. apply filter_stretch. intros i j k f g h Hijk Hf Hg Hh [Hb _] [_ He]. split.
  - destruct b as [b|]; [|done]. intros Hlt. apply Hb.
    apply (Compare_le_lt_trans (dom := fun _ => True) _ (lu g)); try done. by apply (ulu_mono files i j); [|lia|..].
  - destruct e as [e|]; [|done]. intros Hgt. apply He. apply (Compare_gt_lt (dom := fun _ => True)); [done..|].
    apply (Compare_gt_lt (dom := fun _ => True)) in Hgt; [|done..].
    apply (Compare_lt_le_trans (dom := fun _ => True) _ (su g)); try done.
    by apply (smallest_users files j k); [apply Hl|apply Hl|lia|..].
Qed.

(** The files [GetOverlappingInputs] finds. *)
Lemma overlapping_whole v level b e :
  0 <= level < kNumLevels -> level_fine level (level_files v level) ->
  exists inputs, GetOverlappingInputs ucmp v level b e = Some inputs /\ whole level (level_files v level) inputs /\
    (forall f, f ∈ level_files v level -> meets (FUserKey <$> b) (FUserKey <$> e) f -> f ∈ inputs) /\
    (0 < level -> inputs = filter (meets (FUserKey <$> b) (FUserKey <$> e)) (level_files v level)).
Proof.
  intros Hl Hf. destruct (GetOverlappingInputs_ok v level b e Hl) as (b' & e' & -> & Hc).
  eexists. split; [done|]. unfold whole. destruct (Z.eqb_spec level 0) as [->|Hne].
  - destruct Hc as (Hcl & Hw & _). split; [by exists b', e'|]. split; [|lia].
    intros f Hin Hm. apply list_elem_of_filter. split; [|done]. by apply (meets_widens (FUserKey <$> b) (FUserKey <$> e)).
  - destruct Hc as [-> ->]. split; [apply meets_stretch, Hf; lia|]. split; [|done].
    intros f Hin Hm. by apply list_elem_of_filter.
Qed.

(** In level 0 a closed range leaves no boundary file out. *)
Lemma closed_boundary files b e k g :
  closed_range (ucmp := ucmp) files b e -> Forall file_ok files -> is_largest (filter (meets b e) files) k ->
  g ∈ files -> ~ boundary k g.
Proof.
  intros Hcl Hf [(f & Hin & ->) Hmax] Hg [Hlt Heq]. pose proof Hin as [Hmf Hff]%list_elem_of_filter.
  rewrite Forall_forall in Hf. destruct (Hcl f Hff Hmf) as [_ He].
  assert (meets b e g) as Hmg.
  { split.
    - destruct b as [b|]; [|done]. destruct Hmf as [Hb _]. intros Hbad. apply Hb.
      rewrite <- (Compare_eq_l (c := ucmp) (dom := fun _ => True) (su g) (lu f) b) by done.
      apply (Compare_le_lt_trans (dom := fun _ => True) _ (lu g)); try done. by apply su_lu, Hf.
    - destruct e as [e|]; [|done]. by rewrite (Compare_eq_l (c := ucmp) (dom := fun _ => True) (su g) (lu f) e). }
  apply (ilt_not (largest f) (smallest g)); [done|]. apply (ile_trans _ (largest g)); [apply Hf, Hg|].
  apply Hmax. by apply list_elem_of_filter.
Qed.

Lemma whole_boundary level files k cur g :
  level_fine level files -> 0 <= level -> is_largest cur k -> whole level files cur -> g ∈ files -> boundary k g ->
  (forall f, f ∈ files -> boundary k f -> ile (smallest g) (smallest f)) -> whole level files (cur ++ [g]).
Proof.
  intros [Hf Hlv] H0 Hk Hw Hg Hb Hmin. unfold whole in *. destruct (Z.eqb_spec level 0) as [->|Hne].
  { destruct Hw as (b & e & Hcl & ->). by destruct (closed_boundary files b e k g). }
  destruct Hw as (pre & post & Hfiles). destruct Hlv as [_ Hd _]; [lia|]. pose proof Hk as [(f & Hin & Hkf) Hmax].
  rewrite Forall_forall in Hf. unfold disjoint in Hd. rewrite Hfiles in Hd.
  assert (g ∉ cur) as Hnc.
  { intros Hgc. apply (ilt_not k (smallest g)); [apply Hb|]. apply (ile_trans _ (largest g)); [by apply Hf|by apply Hmax]. }
  assert (g ∈ post) as Hgp.
  { pose proof Hg as Hg'. rewrite Hfiles in Hg'. apply elem_of_app in Hg' as [Hgp|[Hgc|Hgp]%elem_of_app]; [|done|done].
    exfalso. apply (ilt_not k (smallest g)); [apply Hb|]. apply (ile_trans _ (largest g)); [by apply Hf|].
    apply ilt_le. subst k. apply (ilt_le_trans _ (smallest f)); [|apply Hf; rewrite Hfiles; set_solver].
    apply (StronglySorted_app_1_elem_of _ pre (cur ++ post) g f Hd); [done|set_solver]. }
  destruct post as [|h post]; [by apply not_elem_of_nil in Hgp|].
  apply elem_of_cons in Hgp as [->|Hgp]; [by exists pre, post; rewrite Hfiles, <- !app_assoc|].
  apply StronglySorted_app_1_r in Hd. pose proof (StronglySorted_app_1_elem_of _ cur (h :: post) f h Hd Hin ltac:(left)) as Hfh.
  apply StronglySorted_app_1_r, StronglySorted_cons in Hd as [Hall _]. rewrite Forall_forall in Hall.
  specialize (Hall g Hgp). cbn in Hfh, Hall. rewrite <- Hkf in Hfh.
  exfalso. apply (ilt_not (smallest h) (smallest g)).
  - apply (ile_lt_trans _ (largest h)); [apply Hf; rewrite Hfiles; set_solver|done].
  - apply Hmin; [rewrite Hfiles; set_solver|]. split; [done|]. destruct Hb as [_ Heq].
    pose proof (ile_user k (smallest h) (ilt_le _ _ Hfh)) as H1.
    pose proof (ile_user (largest h) (smallest g) (ilt_le _ _ Hall)) as H2.
    assert (file_ok h) as Hoh by (apply Hf; rewrite Hfiles; set_solver). pose proof (su_lu h Hoh) as H3.
    pose proof (user_le_trans _ _ _ H3 H2) as H4.
    rewrite (Compare_eq_r (c := ucmp) (dom := fun _ => True) (su g) (FUserKey k) (su h)) in H4 by done.
    apply (Compare_eq_sym (dom := fun _ => True)); [done..|].
    destruct (Compare ucmp (FUserKey k) (su h)) eqn:E; [done| |done].
    exfalso. apply H4. by apply (Compare_gt_lt (dom := fun _ => True)).
Qed.

(** Inputs without gaps and without a boundary file left can be moved. *)
Lemma whole_movable level files inputs k :
  level_fine level files -> 0 <= level -> whole level files inputs -> is_largest inputs k ->
  (forall g, g ∈ files -> ~ boundary k g) -> movable files inputs.
Proof.
  intros Hfine H0 Hw Hk Hno f g Hin Hg Hn. pose proof Hfine as [Hf Hlv]. rewrite Forall_forall in Hf.
  unfold whole in Hw. destruct (Z.eqb_spec level 0) as [->|Hne].
  - destruct Hw as (b & e & Hcl & ->). pose proof Hin as [Hmf Hff]%list_elem_of_filter. destruct (Hcl f Hff Hmf) as [H1 H2].
    assert (~ meets b e g) as Hm by (intros Hm; apply Hn; by apply list_elem_of_filter).
    assert ((match b with Some b => Compare ucmp (lu g) b <> Lt | None => True end) \/
            exists b0, b = Some b0 /\ Compare ucmp (lu g) b0 = Lt) as [Hb|(b0 & -> & E)].
    { destruct b as [b|]; [|by left]. destruct (decide (Compare ucmp (lu g) b = Lt)); [right; by exists b|by left]. }
    + right. destruct e as [e|]; [|exfalso; apply Hm; by split].
      assert (Compare ucmp e (su g) = Lt) as E.
      { apply (Compare_gt_lt (dom := fun _ => True)); [done..|]. destruct (Compare ucmp (su g) e) eqn:E; [..|done];
          exfalso; apply Hm; (split; [done|]); by rewrite E. }
      by apply (Compare_le_lt_trans (dom := fun _ => True) _ e).
    + left. apply user_ilt. apply (Compare_lt_le_trans (dom := fun _ => True) _ b0); try done.
      intros Hgt%(Compare_gt_lt (dom := fun _ => True)); done.
  - destruct Hw as (pre & post & Hfiles). destruct Hlv as [_ Hd _]; [lia|]. unfold disjoint in Hd. rewrite Hfiles in Hd.
    pose proof Hg as Hg'. rewrite Hfiles in Hg'. apply elem_of_app in Hg' as [Hgp|[Hgc|Hgp]%elem_of_app]; [|done|].
    + left. apply (StronglySorted_app_1_elem_of _ pre (inputs ++ post) g f Hd); [done|set_solver].
    + right. apply StronglySorted_app_1_r in Hd.
      assert (forall h, h ∈ inputs -> ilt (largest h) (smallest g)) as Hbef
        by (intros h Hh; apply (StronglySorted_app_1_elem_of _ inputs post h g Hd Hh Hgp)).
      destruct Hk as [(h & Hh & ->) Hmax]. destruct (Compare ucmp (lu f) (su g)) eqn:E; [|done|].
      * exfalso. apply (Hno g Hg). split; [by apply Hbef|].
        pose proof (ile_user _ _ (Hmax f Hin)) as H1. pose proof (ile_user _ _ (ilt_le _ _ (Hbef h Hh))) as H2.
        apply (Compare_eq_sym (dom := fun _ => True)); [done..|].
        rewrite (Compare_eq_l (c := ucmp) (dom := fun _ => True) (lu f) (su g) (lu h)) in H1 by done.
        destruct (Compare ucmp (lu h) (su g)) eqn:E2; [done| |done].
        exfalso. apply H1. by apply (Compare_gt_lt (dom := fun _ => True)).
      * exfalso. by apply (ile_user _ _ (ilt_le _ _ (Hbef f Hin))).
Qed.

Lemma addBoundaryInputs_whole level files inputs :
  level_fine level files -> 0 <= level -> whole level files inputs -> inputs <> [] ->
  exists inputs', addBoundaryInputs ucmp files inputs = Some inputs' /\ whole level files inputs' /\
    movable files inputs' /\ (forall f, f ∈ inputs -> f ∈ inputs') /\ inputs' <> [].
Proof.
  intros Hfine H0 Hw Hne. pose proof (whole_ok _ _ _ Hfine Hw) as Hi. pose proof Hfine as [Hf _].
  destruct (addBoundaryInputs_ok (whole level files) files inputs Hf Hi Hne Hw) as (added & k & -> & Hw' & _ & Hk & Hno).
  { intros k cur g. by apply whole_boundary. }
  exists (inputs ++ added). split; [done|]. split; [done|]. split; [by apply (whole_movable level files _ k)|].
  split; [set_solver|]. by destruct inputs.
Qed.

(** The files before a range, in it and after it. *)
Lemma meets_split files b e : level_ok files ->
  exists pre post, files = pre ++ filter (meets (Some b) (Some e)) files ++ post /\
    (forall g, g ∈ pre -> Compare ucmp (lu g) b = Lt) /\ (forall g, g ∈ post -> Compare ucmp e (su g) = Lt).
Proof.
  intros Hl. pose proof Hl as [Hf Hd _].
  destruct (filter_prefix (fun g => Compare ucmp (lu g) b = Lt) files) as (rest & Hr & Hnr).
  { intros i j x y Hij Hx Hy Hlt. apply (Compare_le_lt_trans (dom := fun _ => True) _ (lu y)); try done.
    apply (ulu_mono files i j); [done|lia|done..]. }
  set (pre := filter (fun g => Compare ucmp (lu g) b = Lt) files) in Hr.
  assert (Forall (fun g => Compare ucmp (lu g) b = Lt) pre) as Hpre
    by (apply Forall_forall; by intros g [Hg _]%list_elem_of_filter).
  clearbody pre. subst files.
  destruct (filter_prefix (fun g => Compare ucmp (su g) e <> Gt) rest) as (post & Hp & Hnp).
  { intros i j x y Hij Hx Hy Hle. apply (user_le_trans _ (su y)); [|done].
    apply (smallest_users (pre ++ rest) (length pre + i) (length pre + j)); [done|done|lia|..];
      rewrite lookup_app_r by lia; by rewrite Nat.add_comm, Nat.add_sub. }
  set (mid := filter (fun g => Compare ucmp (su g) e <> Gt) rest) in Hp.
  assert (Forall (fun g => Compare ucmp (su g) e <> Gt) mid) as Hmid
    by (apply Forall_forall; by intros g [Hg _]%list_elem_of_filter).
  clearbody mid. subst rest. apply Forall_app in Hnr as [Hnm Hno]. exists pre, post. split; [|split].
  - f_equal. f_equal. rewrite !filter_app, filter_none, filter_all, filter_none; [by rewrite app_nil_r|..].
    + eapply Forall_impl; [exact Hnp|]. intros g Hg [_ He]. by apply Hg.
    + apply Forall_forall. rewrite Forall_forall in Hnm, Hmid. intros g Hg. split; [by apply Hnm|by apply Hmid].
    + eapply Forall_impl; [exact Hpre|]. intros g Hg [Hb _]. by apply Hb.
  - rewrite Forall_forall in Hpre. apply Hpre.
  - rewrite Forall_forall in Hnp. intros g Hg. apply (Compare_gt_lt (dom := fun _ => True)); [done..|].
    specialize (Hnp g Hg). cbn in Hnp. destruct (Compare ucmp (su g) e); [by destruct Hnp|by destruct Hnp|done].
Qed.

(** ** [SetupOtherInputs] *)

Context (maxfilesize : Z) {F : Type} `{AppendFile F}.

Definition version_fine (v : Version) : Prop :=
  forall level, 0 <= level < kNumLevels -> level_fine level (level_files v level).

(** Inputs of the two levels, with the range of the first. *)
Record chosen (v : Version) (level : Z) (in0 in1 : list file) (s l : InternalKey) : Prop := {
  ch_some : in0 <> [];
  ch_whole : whole level (level_files v level) in0;
  ch_movable : movable (level_files v level) in0;
  ch_range : range_of in0 s l;
  ch_next : in1 = filter (meets (Some (FUserKey s)) (Some (FUserKey l))) (level_files v (level + 1))
}.

Lemma filter_meets_ok (level : Z) files b e : level_fine level files -> Forall file_ok (filter (meets b e) files).
Proof.
  intros [Hf _]. rewrite Forall_forall in Hf |- *. intros f [_ Hin]%list_elem_of_filter. by apply Hf.
Qed.

Lemma over_range_ok v level s l : version_fine v -> 0 < level < kNumLevels ->
  over_range ucmp v level (s, l) = Some (filter (meets (Some (FUserKey s)) (Some (FUserKey l))) (level_files v level)).
Proof.
  intros Hv Hl. unfold over_range. cbn [fst snd].
  destruct (overlapping_whole v level (Some s) (Some l)) as (inputs & -> & _ & _ & Hi); [lia|apply Hv; lia|].
  by rewrite Hi by lia.
Qed.

(** A file of the range meets it. *)
Lemma range_meets files s l f : Forall file_ok files -> range_of files s l -> f ∈ files ->
  meets (Some (FUserKey s)) (Some (FUserKey l)) f.
Proof.
  intros Hf Hr Hin. rewrite Forall_forall in Hf. pose proof (Hf f Hin) as Hok'. split.
  - intros Hlt. apply (ilt_not (largest f) s); [by apply user_ilt|].
    apply (ile_trans _ (smallest f)); [by apply Hr|apply Hok'].
  - intros Hgt%(Compare_gt_lt (dom := fun _ => True)); [|done..]. apply (ilt_not l (smallest f)); [by apply user_ilt|].
    apply (ile_trans _ (largest f)); [apply Hok'|by apply Hr].
Qed.

Lemma setup_start v level in0 : version_fine v -> 0 <= level -> level + 1 < kNumLevels ->
  whole level (level_files v level) in0 -> in0 <> [] ->
  exists in0' s l, addBoundaryInputs ucmp (level_files v level) in0 = Some in0' /\ GetRange ucmp in0' = Some (s, l) /\
    (forall f, f ∈ in0 -> f ∈ in0') /\
    over_range ucmp v (level + 1) (s, l) =
      Some (filter (meets (Some (FUserKey s)) (Some (FUserKey l))) (level_files v (level + 1))) /\
    chosen v level in0' (filter (meets (Some (FUserKey s)) (Some (FUserKey l))) (level_files v (level + 1))) s l.
Proof.
  intros Hv H0 H1 Hw Hne. pose proof (Hv level ltac:(lia)) as Hl.
  destruct (addBoundaryInputs_whole level _ in0 Hl H0 Hw Hne) as (in0' & Ha & Hw' & Hm & Hin & Hne').
  destruct (GetRange_ok in0') as (s & l & Hr & Hro); [by apply (whole_ok level (level_files v level))|done|].
  exists in0', s, l. do 3 (split; [done|]). split; [apply over_range_ok; [done|lia]|by split].
Qed.

Lemma grow_inputs_ok v level in0 in1 s l : version_fine v -> 0 <= level -> level + 1 < kNumLevels ->
  chosen v level in0 in1 s l ->
  exists in0' in1' s' l', grow_inputs ucmp maxfilesize v level in0 in1 l = Some (in0', in1', l') /\
    chosen v level in0' in1' s' l' /\ forall f, f ∈ in0 -> f ∈ in0'.
Proof.
  intros Hv H0 H1 Hc. unfold grow_inputs. destruct in1 as [|h in1'] eqn:Hin1; [by exists in0, [], s, l|].
  rewrite <- Hin1 in *. clear Hin1. pose proof (Hv level ltac:(lia)) as Hl.
  assert (Forall file_ok in0) as Hf0 by (by apply (whole_ok level (level_files v level)), Hc).
  assert (Forall file_ok (in0 ++ in1)) as Hfa.
  { apply Forall_app. split; [done|]. rewrite (ch_next _ _ _ _ _ _ Hc). apply (filter_meets_ok (level + 1)), Hv. lia. }
  assert (in0 ++ in1 <> []) as Hne by (pose proof (ch_some _ _ _ _ _ _ Hc); by destruct in0).
  destruct (GetRange_ok (in0 ++ in1) Hfa Hne) as (as_ & al & Hga & Hra). unfold GetRange2. rewrite Hga. cbv beta iota.
  destruct (overlapping_whole v level (Some as_) (Some al)) as (e0 & He0 & Hw & Hcov & _); [lia|done|].
  unfold over_range at 1. cbn [fst snd]. rewrite He0.
  assert (forall f, f ∈ in0 -> f ∈ e0) as Hsub.
  { intros f Hf. apply Hcov; [apply (whole_in level _ in0); [apply Hc|done]|].
    apply (range_meets (in0 ++ in1)); [done|done|set_solver]. }
  destruct (setup_start v level e0 Hv H0 H1 Hw) as (e0' & ns & nl & Ha & Hg & Hsub' & Ho & Hc').
  { intros ->. apply (ch_some _ _ _ _ _ _ Hc). destruct in0 as [|f in0]; [done|].
    specialize (Hsub f ltac:(left)). by apply not_elem_of_nil in Hsub. }
  rewrite Ha. destruct (_ && _); [|by exists in0, in1, s, l]. rewrite Hg. cbn [fst snd]. rewrite Ho.
  destruct (_ =? _)%nat; [|by exists in0, in1, s, l].
  eexists _, _, ns, nl. split; [done|]. split; [done|]. intros f Hf. by apply Hsub', Hsub.
Qed.

(** What a compaction that was set up in version [v] promises. *)
Record compaction_ok (v : Version) (c : Compaction) : Prop := {
  co_version : inputversion c = Some v;
  co_level : 0 <= clevel c /\ clevel c + 1 < kNumLevels;
  co_some : inputs0 c <> [];
  co_in0 f : f ∈ inputs0 c -> f ∈ level_files v (clevel c);
  co_movable : movable (level_files v (clevel c)) (inputs0 c);
  (* the other files of the next level have no user key in the range of the inputs *)
  co_next : exists pre post, level_files v (clevel c + 1) = pre ++ inputs1 c ++ post /\
    (forall f g, f ∈ inputs0 c -> g ∈ pre -> Compare ucmp (lu g) (su f) = Lt) /\
    (forall f g, f ∈ inputs0 c -> g ∈ post -> Compare ucmp (lu f) (su g) = Lt);
  (* the grandparents are the files two levels down that the inputs overlap *)
  co_grandparents : clevel c + 2 < kNumLevels -> exists s l, range_of (inputs0 c ++ inputs1 c) s l /\
    grandparents c = filter (meets (Some (FUserKey s)) (Some (FUserKey l))) (level_files v (clevel c + 2));
  (* the inputs have no gaps: a closed range of level 0, a segment of another level *)
  co_whole : whole (clevel c) (level_files v (clevel c)) (inputs0 c)
}.

Lemma chosen_next v level in0 in1 s l : version_fine v -> 0 <= level -> level + 1 < kNumLevels ->
  chosen v level in0 in1 s l ->
  exists pre post, level_files v (level + 1) = pre ++ in1 ++ post /\
    (forall f g, f ∈ in0 -> g ∈ pre -> Compare ucmp (lu g) (su f) = Lt) /\
    (forall f g, f ∈ in0 -> g ∈ post -> Compare ucmp (lu f) (su g) = Lt).
Proof.
  intros Hv H0 H1 [_ _ _ Hr ->].
  destruct (meets_split (level_files v (level + 1)) (FUserKey s) (FUserKey l)) as (pre & post & Hs & Hpre & Hpost).
  { apply Hv; lia. }
  exists pre, post. split; [done|]. split; intros f g Hf Hg.
  - apply (Compare_lt_le_trans (dom := fun _ => True) _ (FUserKey s)); try done; [by apply Hpre|]. by apply ile_user, Hr.
  - apply (Compare_le_lt_trans (dom := fun _ => True) _ (FUserKey l)); try done; [by apply ile_user, Hr|]. by apply Hpost.
Qed.

Lemma SetupOtherInputs_ok c (vs : VersionSet (F := F)) v :
  current vs = Some v -> version_fine v -> 0 <= clevel c -> clevel c + 1 < kNumLevels ->
  whole (clevel c) (level_files v (clevel c)) (inputs0 c) -> inputs0 c <> [] ->
  exists c' vs' l, SetupOtherInputs ucmp maxfilesize c vs = Some (c', vs') /\ compaction_ok v c' /\
    (forall f, f ∈ inputs0 c -> f ∈ inputs0 c') /\ clevel c' = clevel c /\ is_largest (inputs0 c') l /\
    cedit c' = SetCompactPointer (cedit c) (clevel c) l /\
    vs' = set_pointers (<[Z.to_nat (clevel c) := l]> (compactPointer vs)) vs.
Proof.
  intros Hcur Hv H0 H1 Hw Hne. unfold SetupOtherInputs. rewrite Hcur.
  destruct (setup_start v (clevel c) (inputs0 c) Hv H0 H1 Hw Hne) as (in0 & s & l & -> & -> & Hsub & -> & Hc).
  cbn [snd]. destruct (grow_inputs_ok v (clevel c) _ _ s l Hv H0 H1 Hc) as (in0' & in1 & s' & l' & -> & Hc' & Hsub').
  assert (Forall file_ok in0') as Hf0 by (apply (whole_ok (clevel c) (level_files v (clevel c))); [apply Hv; lia|apply Hc']).
  assert (Forall file_ok (in0' ++ in1)) as Hfa.
  { apply Forall_app. split; [done|]. rewrite (ch_next _ _ _ _ _ _ Hc'). apply (filter_meets_ok (clevel c + 1)), Hv. lia. }
  assert (in0' ++ in1 <> []) as Hnea by (pose proof (ch_some _ _ _ _ _ _ Hc'); by destruct in0').
  destruct (GetRange_ok (in0' ++ in1) Hfa Hnea) as (as_ & al & Hga & Hra). unfold GetRange2. rewrite Hga.
  assert (exists gp, (if clevel c + 2 <? kNumLevels then over_range ucmp v (clevel c + 2) (as_, al) else Some (grandparents c))
    = Some gp /\ (clevel c + 2 < kNumLevels ->
      gp = filter (meets (Some (FUserKey as_)) (Some (FUserKey al))) (level_files v (clevel c + 2)))) as (gp & -> & Hgp).
  { destruct (Z.ltb_spec (clevel c + 2) kNumLevels); [rewrite over_range_ok by (done || lia); by eexists|].
    eexists. split; [done|]. lia. }
  rewrite ikey_ok_Encode by (eapply range_ikey; [exact Hf0|apply Hc']).
  eexists _, _, l'. split; [done|]. split; [|split; [intros f Hf; by apply Hsub', Hsub|]].
  - split; cbn; [done|lia|apply Hc'| |apply Hc'|by apply (chosen_next v (clevel c) in0' in1 s' l')| |].
    + intros f Hf. apply (whole_in (clevel c) _ in0'); [apply Hc'|done].
    + intros Hlt. exists as_, al. split; [done|by apply Hgp].
    + apply Hc'.
  - split; [done|]. split; [eapply range_largest, Hc'|]. done.
Qed.
End Inputs.

(** ** When a compaction is picked *)

Section Picking.
Context {ucmp : Comparator} {Hok : ComparatorOk ucmp (fun _ => True)}.
Context (maxfilesize : Z) {F : Type} `{AppendFile F}.

(** A place of a version. *)
Definition place (v : Version) (p : Z * nat) : Prop := exists f, level_files v p.1 !! p.2 = Some f.

(** The fields [PickCompaction] goes by name a level and a file that exist. *)
Record pickable (v : Version) : Prop := {
  pk_score : dge (compactionscore v) (double_of 1) = true ->
    0 <= compactionlevel v /\ compactionlevel v + 1 < kNumLevels /\ level_files v (compactionlevel v) <> [];
  pk_seek p : filetocompact v = Some p -> filetocompactlevel v = p.1 /\ 0 <= p.1 /\ p.1 + 1 < kNumLevels /\ place v p
}.

(** An empty level never scores. *)
Lemma empty_score v level : 0 <= level < kNumLevels - 1 -> level_files v level = [] ->
  dge (level_score v level) (double_of 1) = false.
Proof.
  unfold kNumLevels, level_score. intros Hl ->.
  assert (level = 0 \/ level = 1 \/ level = 2 \/ level = 3 \/ level = 4 \/ level = 5) as Hc by lia.
  by destruct Hc as [->|[->|[->|[->|[-> | ->]]]]].
Qed.

Lemma Finalize_pickable v : filetocompact v = None -> pickable (Finalize v).
Proof.
  intros Hf. unfold Finalize.
  assert (forall ls best, (forall L, L ∈ ls -> 0 <= L < kNumLevels - 1) ->
    (dge best.2 (double_of 1) = true -> 0 <= best.1 < kNumLevels - 1 /\ best.2 = level_score v best.1) ->
    let r := fold_left (fun best level => let score := level_score v level in
      if dgt score best.2 then (level, score) else best) ls best in
    dge r.2 (double_of 1) = true -> 0 <= r.1 < kNumLevels - 1 /\ r.2 = level_score v r.1) as Hfold.
  { induction ls as [|L ls IH]; intros best Hls Hb; [done|]. cbn [fold_left].
    apply IH; [set_solver|]. cbv zeta. destruct (dgt _ _); [|done]. intros _. split; [|done]. apply Hls. left. }
  specialize (Hfold (seqZ 0 (kNumLevels - 1)) (-1, double_of (-1))). cbv zeta in Hfold.
  destruct (fold_left _ _ _) as [L score]. cbn [fst snd] in Hfold. split; cbn.
  - intros Hs. destruct Hfold as [HL ->]; [|intros Hbad; vm_compute in Hbad; discriminate|done|].
    + intros L' HL'. apply elem_of_seqZ in HL'. lia.
    + split; [lia|]. split; [lia|]. intros Hnil. by rewrite empty_score in Hs.
  - intros p Hp. by rewrite Hf in Hp.
Qed.

(** The file a lookup charges is one it read before another. *)
Definition charge_ok (v : Version) (stats : GetStats) : Prop :=
  forall p, seekFile stats = Some p -> seekFileLevel stats = p.1 /\ 0 <= p.1 /\ p.1 + 1 < kNumLevels /\ place v p.

Section Charged.
Context {T : Type} `{TableSource T}.

(** [last] is a file of a level before [bound]. *)
Definition last_ok (v : Version) (bound : Z) (last : option (Z * nat)) : Prop :=
  forall p, last = Some p -> 0 <= p.1 < bound /\ place v p.

Lemma search_files_charge v level ikey u fs : forall value stats last t r value' stats' last' t',
  0 <= level < kNumLevels -> (level = 0 \/ (length fs <= 1)%nat) ->
  (forall p, p ∈ fs -> level_files v level !! p.1 = Some p.2) ->
  last_ok v (if (length fs <=? 1)%nat then Z.max 1 level else 1) last -> charge_ok v stats ->
  search_files ucmp level ikey u fs value stats last t = Some (r, value', stats', last', t') ->
  charge_ok v stats' /\ last_ok v (level + 1) last'.
Proof.
  induction fs as [|[i f] fs IH]; intros value stats last t r value' stats' last' t' Hl Hone Hin Hlast Hst; cbn [search_files].
  { intros [= <- <- <- <- <-]. split; [done|]. intros p Hp. destruct (Hlast p Hp) as [Hp1 ?]. split; [|done].
    cbn [length Nat.leb] in Hp1. lia. }
  set (stats1 := match last with Some _ => _ | None => _ end).
  assert (charge_ok v stats1) as Hst1.
  { unfold stats1. destruct last as [[l j]|]; [|done]. destruct (seekFile stats) eqn:Hs; [done|].
    intros p [= <-]. destruct (Hlast (l, j) eq_refl) as [Hp1 Hp2]. cbn in Hp1 |- *. split; [done|]. split; [lia|].
    split; [|done]. unfold kNumLevels in *. destruct (length fs =? 0)%nat eqn:Hz; [|].
    - apply Nat.eqb_eq in Hz. rewrite Hz in Hp1. cbn in Hp1. lia.
    - apply Nat.eqb_neq in Hz. destruct Hone as [->|Hone]; [|cbn in Hone; lia]. destruct (length fs); cbn in Hp1; lia. }
  assert (last_ok v (level + 1) (Some (level, i))) as Hl1.
  { intros p [= <-]. split; [cbn; lia|]. exists f. apply (Hin (i, f)). left. }
  destruct (tget t (number f) (filesize f) ikey) as [[[s found] t1]|]; [|done].
  destruct (negb (ok s)); [by intros [= <- <- <- <- <-]|].
  destruct (match found with Some e => _ | None => _ end) as [state value1].
  destruct state; try by intros [= <- <- <- <- <-].
  intros Hs. destruct fs as [|q fs]; [by injection Hs as <- <- <- <- <-|].
  destruct Hone as [->|Hone]; [|cbn in Hone; lia].
  apply (IH value1 stats1 (Some (0, i)) t1 r value' stats' last' t'); [done|by left| |by destruct (_ <=? _)%nat|done|done].
  intros p Hp. apply Hin. by right.
Qed.

Lemma files_to_search_places v level ikey u fs : files_to_search ucmp v level ikey u = Some fs ->
  (level = 0 \/ (length fs <= 1)%nat) /\ forall p, p ∈ fs -> level_files v level !! p.1 = Some p.2.
Proof.
  unfold files_to_search. destruct (Z.eqb_spec level 0) as [->|Hne].
  - intros [= <-]. split; [by left|]. intros p Hp. rewrite (merge_sort_Permutation NewestFirst) in Hp.
    by apply list_elem_of_filter in Hp as [_ (i & f & -> & Hf)%elem_of_lookup_imap_1].
  - destruct (FindFile _ _ _) as [index|]; [|done]. destruct (_ !! Z.to_nat index) as [f|] eqn:Hf.
    + destruct (bool_decide _); intros [= <-]; (split; [right; cbn; lia|]); intros p Hp.
      * by apply not_elem_of_nil in Hp.
      * by apply list_elem_of_singleton in Hp as ->.
    + intros [= <-]. split; [right; cbn; lia|]. intros p Hp. by apply not_elem_of_nil in Hp.
Qed.

Lemma search_levels_charge v ikey u n : forall k value stats last t s value' stats' t',
  0 <= k -> k + Z.of_nat n <= kNumLevels -> last_ok v k last -> charge_ok v stats ->
  search_levels ucmp v (seqZ k (Z.of_nat n)) ikey u value stats last t = Some (s, value', stats', t') ->
  charge_ok v stats'.
Proof.
  induction n as [|n IH]; intros k value stats last t s value' stats' t' Hk Hn Hlast Hst.
  { by intros [= <- <- <- <-]. }
  rewrite seqZ_cons by lia. replace (Z.pred (Z.of_nat (S n))) with (Z.of_nat n) by lia. cbn [search_levels].
  assert (forall b, last_ok v k last -> k <= b -> last_ok v b last) as Hmono.
  { intros b Hb Hkb p Hp. destruct (Hb p Hp) as [Hp1 ?]. split; [lia|done]. }
  destruct (level_files v k) as [|f fs] eqn:Hfs; [apply IH; [lia|lia|apply Hmono; [done|lia]|done]|].
  destruct (files_to_search ucmp v k ikey u) as [fl|] eqn:Hfl; [|done].
  destruct (files_to_search_places v k ikey u fl Hfl) as [Hone Hpl].
  destruct (search_files ucmp k ikey u fl value stats last t) as [[[[[r value1] stats1] last1] t1]|] eqn:Hsf; [|done].
  destruct (search_files_charge v k ikey u fl value stats last t r value1 stats1 last1 t1) as [Hc Hl1]; [lia|done|done| |done|done|].
  { destruct (length fl <=? 1)%nat eqn:Hb; [apply Hmono; [done|lia]|]. apply Nat.leb_gt in Hb.
    destruct Hone as [->|]; [|lia]. intros p Hp. destruct (Hlast p Hp). lia. }
  destruct r as [s1|]; [by intros [= <- <- <- <-]|]. apply IH; [lia|lia|by replace (Z.succ k) with (k + 1) by lia|done].
Qed.

Lemma Version_Get_charge v key value t s value' stats' t' :
  Version_Get ucmp v key value t = Some (s, value', stats', t') -> charge_ok v stats'.
Proof.
  apply (search_levels_charge v _ _ (Z.to_nat kNumLevels)); [done|done|by intros ?|by intros ?].
Qed.
End Charged.

Lemma level_files_alter v L i f level :
  level_files (set_files v (alter <[i := f]> (Z.to_nat L) (vfiles v))) level =
  (if decide (Z.to_nat L = Z.to_nat level) then <[i := f]> (level_files v level) else level_files v level).
Proof.
  unfold level_files. cbn. rewrite !list_lookup_total_alt. case_decide as Hd.
  - rewrite Hd, list_lookup_alter_eq. by destruct (vfiles v !! Z.to_nat level).
  - by rewrite list_lookup_alter_ne.
Qed.

Lemma UpdateStats_pickable v stats : pickable v -> charge_ok v stats -> pickable (UpdateStats v stats).2.
Proof.
  intros Hp Hc. unfold UpdateStats. destruct (seekFile stats) as [[L i]|] eqn:Hs; [|done].
  destruct (level_files v L !! i) as [f|] eqn:Hf; [|done]. set (f' := set_allowedseeks _ _).
  set (v1 := set_files v _). specialize (Hc _ Hs) as (Hc1 & Hc2 & Hc3 & _). cbn in Hc1, Hc2, Hc3.
  assert (forall p, place v p -> place v1 p) as Hpl.
  { intros [l j] [g Hg]. cbn in Hg. unfold place. cbn [fst snd]. unfold v1. rewrite level_files_alter.
    case_decide; [|by exists g]. apply lookup_lt_is_Some_2. rewrite length_insert. by apply lookup_lt_Some in Hg. }
  assert (pickable v1) as Hp1.
  { split.
    - intros Hsc. destruct (pk_score v Hp Hsc) as (H0 & H1 & H2). split; [done|]. split; [done|].
      change (level_files v1 (compactionlevel v) <> []). unfold v1. rewrite level_files_alter. case_decide; [|done].
      intros Hn%(f_equal length). rewrite length_insert in Hn. by destruct (level_files v (compactionlevel v)).
    - intros p Hfc. destruct (pk_seek v Hp p Hfc) as (H0 & H1 & H2 & H3). by auto. }
  change (filetocompact v1) with (filetocompact v). destruct (filetocompact v) as [q|] eqn:Hq; [done|].
  destruct (_ <=? 0); [|done]. destruct Hp1 as [Hp1 _]. split; [done|].
  intros p [= <-]. cbn. split; [done|]. split; [done|]. split; [done|]. apply Hpl. by exists f.
Qed.

Lemma first_after_ok files pointer : Forall (file_ok (ucmp := ucmp)) files ->
  exists r, first_after ucmp files pointer = Some r /\ forall f, r = Some f -> f ∈ files.
Proof.
  induction 1 as [|f files Hf _ (r & IH & Hr)]; [by exists None|]. cbn [first_after].
  destruct pointer as [|b pointer]; [exists (Some f); split; [done|]; intros ? [= <-]; left|].
  rewrite ikey_ok_Encode by apply Hf. case_bool_decide; [exists (Some f); split; [done|]; intros ? [= <-]; left|].
  exists r. split; [done|]. intros g Hg. right. by apply Hr.
Qed.

Lemma pick_start_ok (vs : VersionSet (F := F)) v : current vs = Some v -> pickable v -> version_fine (ucmp := ucmp) v ->
  exists need start, NeedsCompaction vs = Some need /\ pick_start ucmp v vs = Some start /\
    if need : bool then exists level f, start = Some (level, f) /\ 0 <= level /\ level + 1 < kNumLevels /\ f ∈ level_files v level
    else start = None.
Proof.
  intros Hcur [Hscore Hseek] Hv. unfold NeedsCompaction, pick_start. rewrite Hcur.
  destruct (dge (compactionscore v) (double_of 1)) eqn:Hs.
  - destruct (Hscore eq_refl) as (H0 & H1 & Hne). exists true.
    rewrite (proj2 (andb_true_iff _ _)) by (split; [apply Z.leb_le|apply Z.ltb_lt]; lia).
    destruct (first_after_ok (level_files v (compactionlevel v)) (compactPointer vs !!! Z.to_nat (compactionlevel v)))
      as ([f|] & -> & Hr); [apply Hv; lia| |]; cbn [orb].
    + eexists. split; [done|]. split; [done|]. exists (compactionlevel v), f. split_and!; [done|done|done|by apply Hr].
    + destruct (level_files v (compactionlevel v)) as [|f fs] eqn:Hl; [done|]. eexists. split; [done|]. split; [done|].
      exists (compactionlevel v), f. split_and!; [done|done|done|rewrite Hl; left].
  - destruct (filetocompact v) as [[l i]|] eqn:Hf.
    + destruct (Hseek _ eq_refl) as (-> & H0 & H1 & f & Hi). cbn in H0, H1, Hi. rewrite Hi.
      exists true. eexists. split; [done|]. split; [done|]. exists l, f. split_and!; [done|done|done|by eapply list_elem_of_lookup_2].
    + by eexists _, _.
Qed.

(** The inputs of one picked file. *)
Lemma pick_inputs v level f : version_fine (ucmp := ucmp) v -> 0 <= level < kNumLevels -> f ∈ level_files v level ->
  exists in0, (if level =? 0 then
      let? range := GetRange ucmp [f] in
      let? in0 := over_range ucmp v 0 range in match in0 with [] => None | _ => Some in0 end
    else Some [f]) = Some in0 /\ whole (ucmp := ucmp) level (level_files v level) in0 /\ in0 <> [] /\ f ∈ in0.
Proof.
  intros Hv Hl Hf. pose proof (Hv level Hl) as Hfine. pose proof Hfine as [Hfo _]. rewrite Forall_forall in Hfo.
  destruct (Z.eqb_spec level 0) as [->|Hne].
  - cbn [GetRange get_range]. unfold over_range. cbn [fst snd].
    destruct (overlapping_whole v 0 (Some (smallest f)) (Some (largest f))) as (in0 & -> & Hw & Hcov & _); [done|done|].
    assert (f ∈ in0) as Hin.
    { apply Hcov; [done|]. split.
      - intros Hlt%(Compare_gt_lt (dom := fun _ => True)); [|done..]. by apply (su_lu f (Hfo f Hf)).
      - apply (su_lu f (Hfo f Hf)). }
    destruct in0 as [|g in0]; [by apply not_elem_of_nil in Hin|]. by exists (g :: in0).
  - exists [f]. split; [done|]. split; [|split; [done|by left]]. unfold whole.
    rewrite (proj2 (Z.eqb_neq _ _)) by done. apply list_elem_of_split in Hf as (pre & post & ->). by exists pre, post.
Qed.

Lemma cut_inputs_prefix limit inputs : forall total,
  exists rest, inputs = cut_inputs limit total inputs ++ rest /\ (inputs <> [] -> cut_inputs limit total inputs <> []).
Proof.
  induction inputs as [|f inputs IH]; intros total; [by exists []|]. cbn [cut_inputs].
  destruct (_ <=? _); [by exists inputs|]. destruct (IH (u64 (total + filesize f))) as (rest & Hr & _).
  exists rest. split; [cbn; by f_equal|done].
Qed.

(** Versions as the database uses them: scored when they are installed, then charged with
    the lookups they answer. *)
Inductive serving {T : Type} `{TableSource T} : Version -> Prop :=
  | serving_installed v : filetocompact v = None -> serving (Finalize v)
  | serving_read v key value t s value' stats t' : serving v ->
      Version_Get ucmp v key value t = Some (s, value', stats, t') -> serving (UpdateStats v stats).2.

Lemma serving_pickable {T : Type} `{TableSource T} v : serving (T := T) v -> pickable v.
Proof.
  induction 1 as [v Hf|v key value t s value' stats t' _ IH Hg]; [by apply Finalize_pickable|].
  apply UpdateStats_pickable; [done|]. by eapply Version_Get_charge.
Qed.

(** What choosing a compaction does to the version set. *)
Definition points_past (vs vs' : VersionSet (F := F)) (c : Compaction) : Prop :=
  exists l, is_largest (ucmp := ucmp) (inputs0 c) l /\ cedit c = SetCompactPointer VersionEdit_make (clevel c) l /\
    vs' = set_pointers (<[Z.to_nat (clevel c) := l]> (compactPointer vs)) vs.

(** C12: A needed compaction is always found, and is sound.  In every version that was
    installed and then charged with any sequence of lookups, when [NeedsCompaction] holds,
    [PickCompaction] returns a compaction (so the background thread makes progress), and
    otherwise it returns none.  The inputs of the compaction are files of its level, not
    empty; every other file of the level ends before them or begins after their last user
    key, so moving them down hides no newer entry; the files of the next level that are
    not inputs share no user key with them; and the next compaction of the level starts
    after the largest key of the inputs. *)
Theorem pick_compaction {T : Type} `{TableSource T} (vs : VersionSet (F := F)) v :
  current vs = Some v -> serving (T := T) v -> version_fine (ucmp := ucmp) v ->
  exists need, NeedsCompaction vs = Some need /\
    if need : bool then
      exists c vs', PickCompaction ucmp maxfilesize vs = Some (Some c, vs') /\ compaction_ok (ucmp := ucmp) v c /\
        points_past vs vs' c
    else PickCompaction ucmp maxfilesize vs = Some (None, vs).
Proof.
  intros Hcur Hs Hv. pose proof (serving_pickable v Hs) as Hp.
  destruct (pick_start_ok vs v Hcur Hp Hv) as (need & start & Hn & Hst & Hr). exists need. split; [done|].
  unfold PickCompaction. rewrite Hcur, Hst. destruct need; [|by rewrite Hr].
  destruct Hr as (level & f & -> & Hlo & Hhi & Hf). cbv beta iota.
  destruct (pick_inputs v level f Hv) as (in0 & -> & Hw & Hne & _); [lia|done|].
  destruct (SetupOtherInputs_ok maxfilesize (set_inputs (Compaction_make maxfilesize level) v in0 [] [] VersionEdit_make) vs v)
    as (c & vs' & l & Hset & Hc & _ & Hlv & Hl & He & Hvs'); [done..|].
  change (cedit (Compaction_make maxfilesize level)) with VersionEdit_make. rewrite Hset.
  exists c, vs'. split; [done|]. split; [done|]. exists l. rewrite Hlv. done.
Qed.

(** C32: A manual compaction of a range either finds no file of the level that meets the
    range, and changes nothing, or sets up a sound compaction; cutting the inputs at the
    size of one file, which is done above level 0 only, keeps it sound. *)
Theorem manual_compaction (vs : VersionSet (F := F)) v level b e :
  current vs = Some v -> version_fine (ucmp := ucmp) v -> 0 <= level -> level + 1 < kNumLevels ->
  exists r vs', CompactRange ucmp maxfilesize level b e vs = Some (r, vs') /\
    match r with
    | None => vs' = vs /\ forall f, f ∈ level_files v level -> ~ meets (ucmp := ucmp) (FUserKey <$> b) (FUserKey <$> e) f
    | Some c => compaction_ok (ucmp := ucmp) v c /\ clevel c = level /\ points_past vs vs' c
    end.
Proof.
  intros Hcur Hv H0 H1. unfold CompactRange. rewrite Hcur.
  destruct (overlapping_whole v level b e) as (inputs & -> & Hw & Hcov & _); [lia|apply Hv; lia|].
  destruct inputs as [|f inputs'] eqn:Hin.
  { eexists None, vs. split; [done|]. split; [done|]. intros f Hf Hm. by apply (Hcov f Hf), not_elem_of_nil in Hm. }
  rewrite <- Hin in *. assert (inputs <> []) as Hne by (by subst inputs). clear Hin.
  set (cut := if 0 <? level then _ else inputs).
  assert (whole (ucmp := ucmp) level (level_files v level) cut /\ cut <> []) as [Hwc Hnc].
  { unfold cut. destruct (Z.ltb_spec 0 level) as [Hpos|]; [|done].
    destruct (cut_inputs_prefix (MaxFileSizeForLevel maxfilesize level) inputs 0) as (rest & Hr & Hn).
    split; [|by apply Hn]. unfold whole in *. rewrite (proj2 (Z.eqb_neq _ _)) in * by lia.
    destruct Hw as (pre & post & ->). exists pre, (rest ++ post). f_equal. rewrite Hr at 1. by rewrite <- app_assoc. }
  destruct (SetupOtherInputs_ok maxfilesize (set_inputs (Compaction_make maxfilesize level) v cut [] [] VersionEdit_make) vs v)
    as (c & vs' & l & Hset & Hc & _ & Hlv & Hl & He & Hvs'); [done..|].
  change (cedit (Compaction_make maxfilesize level)) with VersionEdit_make. rewrite Hset.
  eexists (Some c), vs'. split; [done|]. split; [done|]. split; [done|]. exists l. rewrite Hlv. done.
Qed.
End Picking.

(** ** Keys below a compaction *)

Section BaseLevel.
Context {ucmp : Comparator} {Hok : ComparatorOk ucmp (fun _ => True)}.

Definition in_file (u : bytes) (f : file) : bool :=
  bool_decide (Compare ucmp u (FUserKey (largest f)) <> Gt) && bool_decide (Compare ucmp u (FUserKey (smallest f)) <> Lt).

(** Some file of [levels] has [u] in its range: what [isBaseLevelForKey] is for, read
    off the version without the pointers. *)
Definition deeper_has (v : Version) (levels : list Z) (u : bytes) : bool :=
  existsb (fun lvl => existsb (in_file u) (level_files v lvl)) levels.

Definition passed (files : list file) (n : nat) (u : bytes) : Prop :=
  forall i f, (i < n)%nat -> files !! i = Some f -> Compare ucmp u (FUserKey (largest f)) = Gt.

Lemma passed_in files n u f i : passed files n u -> files !! i = Some f -> (i < n)%nat -> in_file u f = false.
Proof. intros Hp Hf Hi. unfold in_file. by rewrite (Hp i f Hi Hf). Qed.

Lemma base_scan_ok files u n : level_ok (ucmp := ucmp) files -> passed files n u ->
  exists n', base_scan ucmp (drop n files) n u = (n', existsb (in_file u) files) /\ passed files n' u.
Proof.
  intros Hl. remember (drop n files) as rest eqn:Hr. revert n Hr. induction rest as [|f rest IH]; intros n Hr Hp; cbn [base_scan].
  - exists n. split; [|done]. f_equal. symmetry. apply not_true_iff_false. intros (f & Hin & Hf)%existsb_exists.
    apply list_elem_of_In, list_elem_of_lookup in Hin as [i Hi]. rewrite (passed_in files n u f i) in Hf; [done..|].
    apply lookup_lt_Some in Hi. apply (f_equal length) in Hr. rewrite length_drop in Hr. cbn in Hr. lia.
  - assert (files !! n = Some f) as Hn by (by rewrite <- (Nat.add_0_r n), <- lookup_drop, <- Hr).
    assert (rest = drop (S n) files) as Hr' by (rewrite (drop_S files f n Hn) in Hr; by injection Hr).
    case_bool_decide as Hle.
    + exists n. split; [|done]. f_equal. apply eq_bool_prop_intro. rewrite bool_decide_spec, Is_true_true, existsb_exists. split.
      * intros Hs. exists f. split; [apply list_elem_of_In; by eapply list_elem_of_lookup_2|]. unfold in_file.
        by rewrite !bool_decide_true.
      * intros (g & Hin & Hg). apply list_elem_of_In, list_elem_of_lookup in Hin as [i Hi].
        destruct (decide (i < n)%nat) as [Hlt|Hge]; [by rewrite (passed_in files n u g i) in Hg|].
        apply andb_true_iff in Hg as [_ Hg%bool_decide_eq_true]. intros Hlt. apply Hg.
        apply (Compare_lt_le_trans (dom := fun _ => True) _ (FUserKey (smallest f))); try done.
        apply (smallest_users files n i); [apply Hl|apply Hl|lia|done|done].
    + apply (IH (S n) Hr'). intros i g Hi Hg. destruct (decide (i = n)) as [->|]; [|apply (Hp i); [lia|done]].
      simplify_eq. by destruct (Compare ucmp u (FUserKey (largest f))); [destruct Hle|destruct Hle|].
Qed.

(** The pointers of a compaction never pass a file that reaches [u]. *)
Definition pointers_ok (v : Version) (levels : list Z) (ptrs : list nat) (u : bytes) : Prop :=
  length ptrs = Z.to_nat kNumLevels /\ forall lvl, lvl ∈ levels -> passed (level_files v lvl) (ptrs !!! Z.to_nat lvl) u.

Lemma base_levels_ok v u all levels : forall ptrs, version_fine (ucmp := ucmp) v ->
  (forall lvl, lvl ∈ all -> 0 < lvl < kNumLevels) -> (forall lvl, lvl ∈ levels -> lvl ∈ all) -> pointers_ok v all ptrs u ->
  exists ptrs', base_levels ucmp v levels ptrs u = (negb (deeper_has v levels u), ptrs') /\ pointers_ok v all ptrs' u.
Proof.
  induction levels as [|lvl levels IH]; intros ptrs Hv Hall Hin Hp; cbn [base_levels]; [by exists ptrs|].
  assert (lvl ∈ all) as Hlvl by (apply Hin; left). pose proof (Hall lvl Hlvl) as Hr. destruct Hp as [Hlen Hp].
  destruct (base_scan_ok (level_files v lvl) u (ptrs !!! Z.to_nat lvl)) as (n' & -> & Hn'); [apply Hv; lia|by apply Hp|].
  assert (pointers_ok v all (<[Z.to_nat lvl := n']> ptrs) u) as Hp'.
  { split; [by rewrite length_insert|]. intros l Hl. destruct (decide (l = lvl)) as [->|Hne].
    - rewrite list_lookup_total_insert_eq; [done|]. rewrite Hlen. unfold kNumLevels in *. lia.
    - rewrite list_lookup_total_insert_ne; [by apply Hp|]. specialize (Hall l Hl). lia. }
  unfold deeper_has. cbn [existsb]. destruct (existsb (in_file u) (level_files v lvl)); [by eexists|]. cbn [orb].
  apply IH; [done|done| |done]. intros l Hl. apply Hin. by right.
Qed.

Definition deeper_levels (c : Compaction) : list Z := seqZ (clevel c + 2) (kNumLevels - (clevel c + 2)).

Lemma deeper_levels_in c lvl : 0 <= clevel c -> lvl ∈ deeper_levels c -> 0 < lvl < kNumLevels.
Proof. intros H0 [H1 H2]%elem_of_seqZ. lia. Qed.

Lemma isBaseLevelForKey_ok v c u : inputversion c = Some v -> 0 <= clevel c -> version_fine (ucmp := ucmp) v ->
  pointers_ok v (deeper_levels c) (levelptrs c) u ->
  exists ptrs, isBaseLevelForKey ucmp c u = Some (negb (deeper_has v (deeper_levels c) u), set_levelptrs c ptrs) /\
    pointers_ok v (deeper_levels c) ptrs u.
Proof.
  intros Hi H0 Hv Hp. unfold isBaseLevelForKey. rewrite Hi.
  destruct (base_levels_ok v u (deeper_levels c) (deeper_levels c) (levelptrs c) Hv) as (ptrs & Hb & Hp').
  - intros lvl. by apply deeper_levels_in.
  - done.
  - done.
  - exists ptrs. unfold deeper_levels in Hb at 1. by rewrite Hb.
Qed.

Lemma pointers_later v levels ptrs u u' : Compare ucmp u u' <> Gt ->
  pointers_ok v levels ptrs u -> pointers_ok v levels ptrs u'.
Proof.
  intros Hle [Hlen Hp]. split; [done|]. intros lvl Hl i f Hi Hf. specialize (Hp lvl Hl i f Hi Hf).
  apply (Compare_gt_lt (dom := fun _ => True)) in Hp; [|done..]. apply (Compare_gt_lt (dom := fun _ => True)); [done..|].
  by apply (Compare_lt_le_trans (dom := fun _ => True) _ u).
Qed.

Lemma pointers_fresh v c u : levelptrs c = replicate (Z.to_nat kNumLevels) 0%nat -> 0 <= clevel c ->
  pointers_ok v (deeper_levels c) (levelptrs c) u.
Proof.
  intros -> H0. split; [done|]. intros lvl Hl%deeper_levels_in; [|done]. rewrite lookup_total_replicate_2; [|lia].
  intros i f Hi. lia.
Qed.

(** A run of questions. *)
Fixpoint base_run (c : Compaction) (us : list bytes) : option (list bool * Compaction) :=
  match us with
  | [] => Some ([], c)
  | u :: us =>
      let? (b, c) := isBaseLevelForKey ucmp c u in
      let? (bs, c) := base_run c us in Some (b :: bs, c)
  end.

(** The moving pointers of [isBaseLevelForKey] do not change its answers.  Asked for user
    keys in order, as a compaction does, it answers each time whether no file of the levels
    two or more below the compaction has the key in its range, as a search of all these
    files from the start would. *)
Theorem base_level v c us :
  inputversion c = Some v -> 0 <= clevel c -> version_fine (ucmp := ucmp) v ->
  levelptrs c = replicate (Z.to_nat kNumLevels) 0%nat -> Sorted (fun a b => Compare ucmp a b <> Gt) us ->
  exists c', base_run c us = Some (map (fun u => negb (deeper_has v (deeper_levels c) u)) us, c').
Proof.
  intros Hi H0 Hv Hf Hs.
  assert (forall u, HdRel (fun a b => Compare ucmp a b <> Gt) u us -> pointers_ok v (deeper_levels c) (levelptrs c) u ->
    exists c', base_run c us = Some (map (fun u => negb (deeper_has v (deeper_levels c) u)) us, c')) as Hgo.
  { clear Hf. revert c Hi H0. induction Hs as [|w us Hs IH Hhd]; intros c Hi H0 u Hu Hp; [by exists c|].
    inversion_clear Hu as [|? ? Hle]. cbn [base_run].
    destruct (isBaseLevelForKey_ok v c w Hi H0 Hv) as (ptrs & -> & Hp'); [by apply (pointers_later v _ _ u)|].
    destruct (IH (set_levelptrs c ptrs) Hi H0 w Hhd Hp') as (c' & Hb). exists c'.
    change (deeper_levels (set_levelptrs c ptrs)) with (deeper_levels c) in Hb. by rewrite Hb. }
  destruct us as [|u us]; [by exists c|]. apply (Hgo u); [|by apply pointers_fresh].
  constructor. by rewrite (Compare_refl (dom := fun _ => True)).
Qed.
End BaseLevel.

(** ** Concrete compactions *)

#[local] Instance pick_append : AppendFile WritableFile := WritableFile_append (fun _ => []).

(** Four files in level 0, which is enough for a compaction, over two deeper levels. *)
Definition picked_version : Version :=
  Finalize (set_files Version_make
    [[demo_meta 9 "a" "c"; demo_meta 8 "b" "f"; demo_meta 7 "k" "m"; demo_meta 6 "p" "q"];
     [demo_meta 5 "b" "d"; demo_meta 4 "e" "j"]; [demo_meta 3 "c" "z"]; []; []; []; []]).

Definition picked_set : VersionSet (F := WritableFile) := AppendVersion picked_version VersionSet_make.

Lemma demo_meta_ok num a b : Internal_Compare BytewiseComparatorImpl (AppendInternalKey [] (MkParsedInternalKey (str a) 9 kTypeValue))
    (AppendInternalKey [] (MkParsedInternalKey (str b) 3 kTypeValue)) <> Gt ->
  file_ok (ucmp := BytewiseComparatorImpl) (demo_meta num a b).
Proof.
  intros Hle. split; [eexists; split; [|reflexivity]; vm_compute; split; discriminate..|exact Hle].
Qed.

Ltac metas_ok :=
  repeat (apply Forall_cons; split); first [by apply Forall_nil|apply demo_meta_ok; vm_compute; discriminate].

Lemma picked_version_fine : version_fine (ucmp := BytewiseComparatorImpl) picked_version.
Proof.
  intros level Hl. unfold kNumLevels in Hl.
  assert (level = 0 \/ level = 1 \/ level = 2 \/ 3 <= level < 7) as [->|[->|[->|Hdeep]]] by lia.
  - change (level_files picked_version 0)
      with [demo_meta 9 "a" "c"; demo_meta 8 "b" "f"; demo_meta 7 "k" "m"; demo_meta 6 "p" "q"]. split; [metas_ok|lia].
  - change (level_files picked_version 1) with [demo_meta 5 "b" "d"; demo_meta 4 "e" "j"].
    split; [metas_ok|]. intros _. split; [metas_ok|by repeat constructor|done].
  - change (level_files picked_version 2) with [demo_meta 3 "c" "z"].
    split; [metas_ok|]. intros _. split; [metas_ok|by repeat constructor|done].
  - assert (level_files picked_version level = []) as ->.
    { assert (level = 3 \/ level = 4 \/ level = 5 \/ level = 6) as [->|[->|[->| ->]]] by lia; done. }
    split; [constructor|]. intros _. split; [constructor|constructor|done].
Qed.

(** The numbers of the files of a choice. *)
Definition chosen_numbers (r : option (option Compaction * VersionSet (F := WritableFile))) : option (list Z * list Z * list Z) :=
  match r with
  | Some (Some c, _) => Some (map number (inputs0 c), map number (inputs1 c), map number (grandparents c))
  | _ => None
  end.

#[local] Instance picked_source : TableSource unit := demo_source.

(** The compaction takes the first two files of level 0, which overlap, and both files of
    level 1; the file of level 2 is a grandparent. *)
Lemma pick_compaction_witness :
  exists c vs', PickCompaction BytewiseComparatorImpl 2097152 picked_set = Some (Some c, vs') /\
    map number (inputs0 c) = [9; 8] /\ map number (inputs1 c) = [5; 4] /\ map number (grandparents c) = [3] /\
    compaction_ok (ucmp := BytewiseComparatorImpl) picked_version c /\
    points_past (ucmp := BytewiseComparatorImpl) picked_set vs' c.
Proof.
  destruct (pick_compaction (ucmp := BytewiseComparatorImpl) 2097152 (T := unit) picked_set picked_version)
    as (need & Hn & Hp).
  - reflexivity.
  - apply serving_installed. reflexivity.
  - exact picked_version_fine.
  - assert (NeedsCompaction picked_set = Some true) as Hneed by (vm_compute; reflexivity).
    rewrite Hneed in Hn. injection Hn as <-. destruct Hp as (c & vs' & Hp & Hc & Hpast). exists c, vs'.
    assert (chosen_numbers (PickCompaction BytewiseComparatorImpl 2097152 picked_set) = Some ([9; 8], [5; 4], [3])) as Hnum
      by (vm_compute; reflexivity).
    rewrite Hp in Hnum. injection Hnum as H0 H1 H2.
    split; [exact Hp|]. split; [exact H0|]. split; [exact H1|]. split; [exact H2|]. split; [exact Hc|exact Hpast].
Defined.

(** Asked to compact everything of level 1 from "c", both files are taken. *)
Lemma manual_compaction_witness :
  exists c vs', CompactRange BytewiseComparatorImpl 2097152 1 (Some (InternalKey_make (str "c") 9 kTypeValue)) None picked_set =
      Some (Some c, vs') /\
    map number (inputs0 c) = [5; 4] /\ compaction_ok (ucmp := BytewiseComparatorImpl) picked_version c /\ clevel c = 1.
Proof.
  destruct (manual_compaction (ucmp := BytewiseComparatorImpl) 2097152 picked_set picked_version 1
    (Some (InternalKey_make (str "c") 9 kTypeValue)) None) as (r & vs' & Hr & Hok).
  - reflexivity.
  - exact picked_version_fine.
  - lia.
  - done.
  - assert (chosen_numbers (CompactRange BytewiseComparatorImpl 2097152 1 (Some (InternalKey_make (str "c") 9 kTypeValue)) None
      picked_set) = Some ([5; 4], [3], [])) as Hnum by (vm_compute; reflexivity).
    rewrite Hr in Hnum. destruct r as [c|]; [|discriminate Hnum]. injection Hnum as H0 _ _. destruct Hok as (Hc & Hl & _).
    exists c, vs'. split; [exact Hr|]. split; [exact H0|]. split; [exact Hc|exact Hl].
Defined.

(** The file of level 2 has "m" in its range, and not "a". *)
Lemma base_level_witness :
  exists c', base_run (ucmp := BytewiseComparatorImpl)
      (set_inputs (Compaction_make 2097152 0) picked_version [] [] [] VersionEdit_make) [str "a"; str "m"] =
    Some ([true; false], c').
Proof.
  assert (Sorted (fun a b => Compare BytewiseComparatorImpl a b <> Gt) [str "a"; str "m"]) as Hs
    by (repeat constructor; vm_compute; discriminate).
  exact (base_level (ucmp := BytewiseComparatorImpl) picked_version
    (set_inputs (Compaction_make 2097152 0) picked_version [] [] [] VersionEdit_make) [str "a"; str "m"]
    eq_refl (Z.le_refl 0) picked_version_fine eq_refl Hs).
Defined.
