(* ===== verification/CompactionWork.v ===== *)
(** What a compaction keeps (the loop of [DB::DoCompactionWork] in redisdb/db/db.cc).

    The loop reads the merged inputs in order and drops the entries no reader can see any
    more.  [drop_rule] is its decision on one entry; [kept] is the same decision on a list
    of parsed entries, with the answers of [isBaseLevelForKey] as a predicate. *)
From Stdlib Require Import Sorted.
From stdpp Require Import sorting sets.
From S2P Require Import Prelude Coding Status Env LogFormat DbFormat Block Iterators Table VersionEdit Version VersionBuilder VersionSet Compaction.
Local Open Scope Z_scope.

(** The loop's variables: [ikey] is the last key that [ParseInternalKey] filled in. *)
Record Scan := MkScan {
  currentuserkey : bytes;
  hascurrentuserkey : bool;
  lastsequenceforkey : Z;
  ikeyuser : bytes
}.

Definition Scan_make : Scan := MkScan [] false kMaxSequenceNumber [].

Section DropRule.
Context (ucmp : Comparator) (smallestsnapshot : Z).

(** [drop], the compaction (its level pointers move) and the variables. *)
Definition drop_rule (c : Compaction) (sc : Scan) (key : bytes) : option (bool * Compaction * Scan) :=
  match ParseInternalKey key with
  | None =>
      let u := if (length key <? 8)%nat then ikeyuser sc else ExtractUserKey key in
      Some (false, c, MkScan [] false kMaxSequenceNumber u)
  | Some ikey =>
      let first := negb (hascurrentuserkey sc) ||
        negb (bool_decide (Compare ucmp (userkey ikey) (currentuserkey sc) = Eq)) in
      let current := if first then userkey ikey else currentuserkey sc in
      let last := if first then kMaxSequenceNumber else lastsequenceforkey sc in
      let? (drop, c) :=
        if last <=? smallestsnapshot then Some (true, c)
        else if bool_decide (type ikey = kTypeDeletion) && (sequence ikey <=? smallestsnapshot) then
          isBaseLevelForKey ucmp c (userkey ikey)
        else Some (false, c) in
      Some (drop, c, MkScan current true (sequence ikey) (userkey ikey))
  end.

(** The line logged for each entry asks [isBaseLevelForKey] once more. *)
Definition drop_step (c : Compaction) (sc : Scan) (key : bytes) : option (bool * Compaction * Scan) :=
  let? (drop, c, sc) := drop_rule c sc key in
  let? (_, c) := isBaseLevelForKey ucmp c (ikeyuser sc) in
  Some (drop, c, sc).

(** An entry is hidden by the entry before it, when that has its user key and is old
    enough for every reader. *)
Definition hides (p e : ParsedInternalKey) : bool :=
  bool_decide (Compare ucmp (userkey e) (userkey p) = Eq) && (sequence p <=? smallestsnapshot).

Definition drops (base : bytes -> bool) (prev : option ParsedInternalKey) (e : ParsedInternalKey) : bool :=
  match prev with Some p => hides p e | None => false end ||
  (bool_decide (type e = kTypeDeletion) && (sequence e <=? smallestsnapshot) && base (userkey e)).

Fixpoint kept (base : bytes -> bool) (prev : option ParsedInternalKey) (es : list ientry) : list ientry :=
  match es with
  | [] => []
  | e :: es => (if drops base prev e.1 then [] else [e]) ++ kept base (Some e.1) es
  end.

(** [DoCompactionWork]'s decisions on the keys in order. *)
Fixpoint drop_run (c : Compaction) (sc : Scan) (es : list ientry) : option (list ientry * Compaction * Scan) :=
  match es with
  | [] => Some ([], c, sc)
  | e :: es =>
      let? (drop, c, sc) := drop_step c sc (AppendInternalKey [] e.1) in
      let? (rest, c, sc) := drop_run c sc es in
      Some ((if drop : bool then [] else [e]) ++ rest, c, sc)
  end.
End DropRule.

(** ** What is kept *)

Section Kept.
Context {ucmp : Comparator} {Hok : ComparatorOk ucmp (fun _ => True)} (smallest : Z).

(** By user key, newest first; sequence numbers are used once. *)
Definition fresher (a b : ientry) : Prop :=
  Compare ucmp (userkey a.1) (userkey b.1) = Lt \/
  (Compare ucmp (userkey a.1) (userkey b.1) = Eq /\ sequence b.1 < sequence a.1).

Lemma fresher_user a b : fresher a b -> Compare ucmp (userkey a.1) (userkey b.1) <> Gt.
Proof. by intros [-> | [-> _]]. Qed.

Lemma kept_in bs prev es e : e ∈ kept ucmp smallest bs prev es -> e ∈ es.
Proof.
  revert prev. induction es as [|e' es IH]; intros prev; cbn [kept]; [done|].
  destruct (drops _ _ _ _ _); cbn [app]; [intros Hin; right; by eapply IH|].
  intros [->|Hin]%elem_of_cons; [by left|right; by eapply IH].
Qed.

Lemma kept_sorted bs (R : ientry -> ientry -> Prop) prev es : StronglySorted R es -> StronglySorted R (kept ucmp smallest bs prev es).
Proof.
  intros Hs. revert prev. induction Hs as [|e es Hs IH Hall]; intros prev; cbn [kept]; [constructor|].
  destruct (drops _ _ _ _ _); [apply IH|]. cbn [app]. constructor; [apply IH|].
  rewrite Forall_forall in Hall |- *. intros x Hx. apply Hall. by eapply kept_in.
Qed.

(** After an entry that is old enough for every reader, its user key is gone. *)
Lemma kept_hidden bs es : forall (p : ientry) u, StronglySorted fresher (p :: es) -> sequence p.1 <= smallest ->
  Compare ucmp (userkey p.1) u = Eq ->
  forall e, e ∈ kept ucmp smallest bs (Some p.1) es -> Compare ucmp (userkey e.1) u <> Eq.
Proof.
  induction es as [|q es IH]; intros p u Hs Hp Hu e He Heq; [by apply not_elem_of_nil in He|].
  apply StronglySorted_cons in Hs as [Hall Hs]. pose proof Hs as [Hq Hs']%StronglySorted_cons. rewrite Forall_forall in Hall, Hq.
  cbn [kept] in He. destruct (Hall q ltac:(left)) as [Hlt|[Hpq Hlt]].
  - assert (Compare ucmp (userkey p.1) (userkey e.1) = Lt) as Hbad.
    { assert (e ∈ q :: es) as Hin.
      { destruct (drops _ _ _ _ _); cbn [app] in He; [right; by eapply kept_in|].
        apply elem_of_cons in He as [->|He]; [by left|right; by eapply kept_in]. }
      apply elem_of_cons in Hin as [->|Hin]; [done|].
      apply (Compare_lt_le_trans (dom := fun _ => True) _ (userkey q.1)); try done. by apply fresher_user, Hq. }
    rewrite (Compare_eq_r (dom := fun _ => True) (userkey e.1) u) in Hbad by done. by rewrite Hu in Hbad.
  - assert (hides ucmp smallest p.1 q.1 = true) as Hh.
    { unfold hides. rewrite bool_decide_true; [apply Z.leb_le; lia|]. by apply (Compare_eq_sym (dom := fun _ => True)). }
    unfold drops in He. rewrite Hh in He. cbn [orb app] in He. apply (IH q u) in He; [done|done|lia|].
    rewrite <- (Compare_eq_l (dom := fun _ => True) (userkey p.1) (userkey q.1) u) by done. done.
Qed.

(** The newest entry of [u] at or below [s]. *)
Definition first_visible (u : bytes) (s : Z) (es : list ientry) (e : ientry) : Prop :=
  e ∈ es /\ visible ucmp u s e /\ forall e', e' ∈ es -> visible ucmp u s e' -> e' = e \/ sequence e'.1 < sequence e.1.

(** A reader at or above the smallest snapshot finds the same newest entry of a key, or
    it was a deletion of a key that no deeper level has and the key is gone. *)
Lemma kept_newest bs u s es : forall prev, smallest <= s -> StronglySorted fresher es ->
  match prev with
  | Some p => (forall e, e ∈ es -> fresher (p, []) e) /\ ~ visible ucmp u s (p, [])
  | None => True
  end ->
  (forall e, e ∈ es -> ~ visible ucmp u s e) \/
  exists e, first_visible u s es e /\
    (e ∈ kept ucmp smallest bs prev es \/
     (type e.1 = kTypeDeletion /\ bs (userkey e.1) = true /\
      forall e', e' ∈ kept ucmp smallest bs prev es -> Compare ucmp (userkey e'.1) u = Eq -> ~ visible ucmp u s e')).
Proof.
  induction es as [|e es IH]; intros prev Hs Hsort Hprev; [left; intros e He; by apply not_elem_of_nil in He|].
  apply StronglySorted_cons in Hsort as Hsort'. destruct Hsort' as [Hall Hsort']. rewrite Forall_forall in Hall.
  cbn [kept]. destruct (decide (visible ucmp u s e)) as [Hvis|Hvis].
  - right. exists e. split.
    { split; [left|]. split; [done|]. intros e' [->|He']%elem_of_cons Hv'; [by left|]. right.
      destruct (Hall e' He') as [Hlt|[_ Hlt]]; [|done]. exfalso. destruct Hvis as [H1 _], Hv' as [H2 _].
      rewrite (Compare_eq_r (dom := fun _ => True) (userkey e'.1) u) in Hlt by done. by rewrite H1 in Hlt. }
    destruct (drops ucmp smallest bs prev e.1) eqn:Hd; [|left; left].
    right. unfold drops in Hd. apply orb_true_iff in Hd as [Hd|Hd].
    { exfalso. destruct prev as [p|]; [|done]. destruct Hprev as [_ Hn]. apply Hn.
      apply andb_true_iff in Hd as [Hc%bool_decide_eq_true Hle%Z.leb_le]. split; cbn; [|lia].
      rewrite <- (Compare_eq_l (dom := fun _ => True) (userkey e.1) (userkey p) u) by done. apply Hvis. }
    apply andb_true_iff in Hd as [[Ht%bool_decide_eq_true Hle%Z.leb_le]%andb_true_iff Hb].
    split; [done|]. split; [done|]. cbn [app]. intros e' He' Hc _.
    apply (kept_hidden bs es e u) in He'; [done|by constructor; [|apply Forall_forall]|done|apply Hvis].
  - destruct (IH (Some e.1) Hs Hsort') as [Hnone|(e0 & (Hin & Hv0 & Hmax) & Hk)].
    + split; [|by destruct e]. intros e' He'. by apply Hall.
    + left. intros e' [->|He']%elem_of_cons; [done|by apply Hnone].
    + right. exists e0. split.
      { split; [by right|]. split; [done|]. intros e' [->|He']%elem_of_cons Hv'; [done|by apply Hmax]. }
      destruct Hk as [Hk|(Ht & Hb & Hno)]; [left; set_solver|]. right. split; [done|]. split; [done|].
      intros e' [He'|He']%elem_of_app Hc Hv'; [|by apply (Hno e')].
      destruct (drops _ _ _ _ _); [by apply not_elem_of_nil in He'|]. by apply list_elem_of_singleton in He' as ->.
Qed.
End Kept.

(** ** The decisions do not depend on the loop's bookkeeping *)

Section Decisions.
Context {ucmp : Comparator} {Hok : ComparatorOk ucmp (fun _ => True)}.
Context (smallest : Z).
Hypothesis Hsmall : smallest < kMaxSequenceNumber.

(** The variables after the entry [prev]. *)
Definition scanned (prev : option ParsedInternalKey) (sc : Scan) : Prop :=
  match prev with
  | None => hascurrentuserkey sc = false
  | Some p => hascurrentuserkey sc = true /\ Compare ucmp (userkey p) (currentuserkey sc) = Eq /\
      lastsequenceforkey sc = sequence p
  end.

Context (v : Version) (c0 : Compaction).
Hypothesis Hv : version_fine (ucmp := ucmp) v.
Hypothesis Hlevel : 0 <= clevel c0.

Abbreviation base := (fun u => negb (deeper_has (ucmp := ucmp) v (deeper_levels c0) u)).

(** A compaction of [v] in progress, at the user key [u]. *)
Record working (c : Compaction) (u : bytes) : Prop := {
  wk_version : inputversion c = Some v;
  wk_level : clevel c = clevel c0;
  wk_pointers : pointers_ok (ucmp := ucmp) v (deeper_levels c0) (levelptrs c) u
}.

Lemma deeper_levels_eq c : clevel c = clevel c0 -> deeper_levels c = deeper_levels c0.
Proof. unfold deeper_levels. by intros ->. Qed.

Lemma working_base c u : working c u ->
  exists c', isBaseLevelForKey ucmp c u = Some (base u, c') /\ working c' u.
Proof.
  intros [H1 H2 H3]. destruct (isBaseLevelForKey_ok v c u) as (ptrs & Hb & Hp); [done|lia|done|by rewrite deeper_levels_eq|].
  rewrite deeper_levels_eq in Hb, Hp by done. by eexists; split; [exact Hb|].
Qed.

Lemma working_later c u u' : Compare ucmp u u' <> Gt -> working c u -> working c u'.
Proof. intros Hle [H1 H2 H3]. split; [done|done|by apply (pointers_later v _ _ u)]. Qed.

Lemma drop_step_ok c sc prev (e : ientry) : 0 <= sequence e.1 <= kMaxSequenceNumber -> scanned prev sc -> working c (userkey e.1) ->
  exists c' sc', drop_step ucmp smallest c sc (AppendInternalKey [] e.1) =
      Some (drops ucmp smallest base prev e.1, c', sc') /\
    scanned (Some e.1) sc' /\ working c' (userkey e.1).
Proof.
  intros He Hsc Hw. unfold drop_step, drop_rule. rewrite ParseInternalKey_Append by done.
  set (first := negb _ || negb _). set (last := if first then _ else _).
  assert ((last <=? smallest) = match prev with Some p => hides ucmp smallest p e.1 | None => false end) as Hlast.
  { unfold last, first, hides. destruct prev as [p|]; cbn in Hsc.
    - destruct Hsc as (-> & Hc & Hs). cbn [negb orb].
      rewrite <- (Compare_eq_r (dom := fun _ => True) (userkey p) (currentuserkey sc) (userkey e.1)) by done.
      case_bool_decide; cbn [negb andb]; [by rewrite Hs|]. apply Z.leb_gt. lia.
    - rewrite Hsc. cbn [negb orb]. apply Z.leb_gt. lia. }
  rewrite Hlast. clear Hlast. clear last.
  assert (exists c1, (if match prev with Some p => hides ucmp smallest p e.1 | None => false end then Some (true, c)
      else if bool_decide (type e.1 = kTypeDeletion) && (sequence e.1 <=? smallest)
           then isBaseLevelForKey ucmp c (userkey e.1) else Some (false, c)) =
      Some (drops ucmp smallest base prev e.1, c1) /\ working c1 (userkey e.1)) as (c1 & -> & Hw1).
  { unfold drops. destruct (match prev with Some p => _ | None => _ end); [by exists c|]. cbn [orb].
    destruct (_ && _); [|by exists c]. cbn [andb]. by apply working_base. }
  cbn [ikeyuser]. destruct (working_base c1 (userkey e.1) Hw1) as (c2 & -> & Hw2).
  eexists _, _. split; [done|]. split; [|done]. cbn. split; [done|]. split; [|done].
  destruct first eqn:Hf; [by apply (Compare_refl (dom := fun _ => True))|].
  apply orb_false_iff in Hf as [_ Hf]. by apply negb_false_iff, bool_decide_eq_true in Hf.
Qed.

Lemma drop_run_ok es : forall c sc prev,
  Forall (fun e : ientry => 0 <= sequence e.1 <= kMaxSequenceNumber) es -> StronglySorted (fresher (ucmp := ucmp)) es ->
  scanned prev sc -> (forall e, head es = Some e -> working c (userkey e.1)) ->
  exists c' sc', drop_run ucmp smallest c sc es = Some (kept ucmp smallest base prev es, c', sc').
Proof.
  induction es as [|e es IH]; intros c sc prev Hseq Hs Hsc Hw; cbn [drop_run kept]; [by eexists _, _|].
  apply Forall_cons in Hseq as [He Hseq]. apply StronglySorted_cons in Hs as [Hall Hs].
  destruct (drop_step_ok c sc prev e He Hsc (Hw e eq_refl)) as (c1 & sc1 & -> & Hsc1 & Hw1).
  destruct (IH c1 sc1 (Some e.1) Hseq Hs Hsc1) as (c' & sc' & ->); [|by eexists _, _].
  intros e' He'. apply (working_later _ (userkey e.1)); [|done]. apply fresher_user.
  rewrite Forall_forall in Hall. apply Hall. destruct es; [done|]. injection He' as ->. left.
Qed.

End Decisions.

(** ** Filters of sorted lists *)

Lemma StronglySorted_filter {A} (R : A -> A -> Prop) (P : A -> Prop) `{forall x, Decision (P x)} l :
  StronglySorted R l -> StronglySorted R (filter P l).
Proof.
  induction 1 as [|x l Hs IH Hall]; [constructor|]. rewrite filter_cons. case_decide; [|done]. constructor; [done|].
  rewrite Forall_forall in Hall |- *. intros y [_ Hy]%list_elem_of_filter. by apply Hall.
Qed.

Lemma NoDup_fmap_filter {A B} (g : A -> B) (P : A -> Prop) `{forall x, Decision (P x)} l :
  NoDup (g <$> l) -> NoDup (g <$> filter P l).
Proof.
  induction l as [|x l IH]; [done|]. rewrite fmap_cons, filter_cons. intros [Hx Hn]%NoDup_cons. case_decide; [|by apply IH].
  rewrite fmap_cons. apply NoDup_cons. split; [|by apply IH]. intros (y & Hy & [_ Hin]%list_elem_of_filter)%list_elem_of_fmap.
  apply Hx, list_elem_of_fmap. by exists y.
Qed.

Lemma sorted_head {A} (R : A -> A -> Prop) l a e : StronglySorted R l -> head l = Some a -> e ∈ l -> e = a \/ R a e.
Proof.
  destruct l as [|x l]; [done|]. intros [Hall _]%StronglySorted_cons [= <-] [->|He]%elem_of_cons; [by left|right].
  rewrite Forall_forall in Hall. by apply Hall.
Qed.

Lemma sorted_last {A} (R : A -> A -> Prop) l a e : StronglySorted R l -> last l = Some a -> e ∈ l -> e = a \/ R e a.
Proof.
  intros Hs Hl He. apply last_Some in Hl as [l' ->]. apply elem_of_app in He as [He|He%list_elem_of_singleton]; [right|by left].
  apply (StronglySorted_app_1_elem_of R l' [a]); [done|done|left].
Qed.

(** ** A version and the version after a compaction *)

Section Replaced.
Context {ucmp : Comparator} {Hok : ComparatorOk ucmp (fun _ => True)}.
Context {T : Type} `{TableSourceOk T ucmp good serves}.
Context (v v' : Version) (data : file -> list ientry) (c : Compaction) (oldest : Z) (es : list ientry) (outs : list file).

Abbreviation su f := (FUserKey (smallest f)).
Abbreviation lu f := (FUserKey (largest f)).
Abbreviation L0 := (clevel c).
Abbreviation keyof e := (AppendInternalKey [] (fst e)).

(** The file [f] of level [L] is an input. *)
Definition is_input (L : Z) (f : file) : Prop := (L = L0 /\ f ∈ inputs0 c) \/ (L = L0 + 1 /\ f ∈ inputs1 c).

(** An output holds the entries [data f], from its first to its last. *)
Record output_ok (f : file) : Prop := {
  oo_serves : serves (number f) (filesize f) (data f);
  oo_first : exists e, head (data f) = Some e /\ smallest f = keyof e;
  oo_last : exists e, last (data f) = Some e /\ largest f = keyof e
}.

(** [v'] is [v] with the inputs taken out and the outputs in their place. *)
Record replaced : Prop := {
  rp_from : level_files v' L0 = filter (fun f => f ∉ inputs0 c) (level_files v L0);
  rp_next : exists pre post, level_files v (L0 + 1) = pre ++ inputs1 c ++ post /\
    level_files v' (L0 + 1) = pre ++ outs ++ post /\
    (forall f g, f ∈ inputs0 c -> g ∈ pre -> Compare ucmp (lu g) (su f) = Lt) /\
    (forall f g, f ∈ inputs0 c -> g ∈ post -> Compare ucmp (lu f) (su g) = Lt);
  rp_other L : 0 <= L -> L <> L0 -> L <> L0 + 1 -> level_files v' L = level_files v L;
  rp_size : len (level_files v' (L0 + 1)) < 2 ^ 31
}.

(** The merged entries of the inputs. *)
Record merged_inputs : Prop := {
  mi_in e : e ∈ es <-> exists L f, is_input L f /\ e ∈ data f;
  mi_sorted : StronglySorted (fun a b => entry_compare ucmp a.1 b.1 = Lt) es
}.

(** Every write has a sequence number of its own. *)
Definition one_write_each : Prop :=
  forall e e', in_version v data e -> in_version v data e' -> sequence e.1 = sequence e'.1 -> e = e'.

(** No other file of the next level holds a user key of the inputs: the versions of a key
    are not split between an input and its neighbour. *)
Definition keys_not_split : Prop :=
  forall L f g e e', is_input L f -> g ∈ level_files v (L0 + 1) -> g ∉ inputs1 c ->
    e ∈ data f -> e' ∈ data g -> Compare ucmp (userkey e.1) (userkey e'.1) <> Eq.

Hypothesis Hvo : version_ok (ucmp := ucmp) (serves := serves) v data.
Hypothesis Hc : compaction_ok (ucmp := ucmp) v c.
Hypothesis Hrep : replaced.
Hypothesis Hes : merged_inputs.
Hypothesis Hone : one_write_each.
Hypothesis Hsplit : keys_not_split.
Hypothesis Hsmall : oldest < kMaxSequenceNumber.

Abbreviation base := (fun u => negb (deeper_has (ucmp := ucmp) v (deeper_levels c) u)).
Abbreviation keep := (kept ucmp oldest base None es).

Lemma compaction_levels : 0 <= L0 /\ L0 + 1 < kNumLevels.
Proof. apply Hc. Qed.

Lemma fine : version_fine (ucmp := ucmp) v.
Proof.
  intros L HL. split.
  - apply Forall_forall. intros f Hf. by apply (fh_ok (serves := serves) data f), (vo_file _ _ Hvo L).
  - intros Hpos. apply (vo_level _ _ Hvo). lia.
Qed.

Lemma input_level L f : is_input L f -> f ∈ level_files v L /\ 0 <= L < kNumLevels.
Proof.
  pose proof compaction_levels. intros [[-> Hf]|[-> Hf]].
  - split; [by apply (co_in0 v c Hc)|lia].
  - destruct (co_next v c Hc) as (pre & post & -> & _). split; [|lia]. apply elem_of_app; right; apply elem_of_app; by left.
Qed.

Lemma es_input e : e ∈ es -> exists L f, is_input L f /\ f ∈ level_files v L /\ 0 <= L < kNumLevels /\ e ∈ data f.
Proof.
  intros (L & f & Hi & He)%(mi_in Hes). destruct (input_level L f Hi). by exists L, f.
Qed.

Lemma es_version e : e ∈ es -> in_version v data e.
Proof. intros (L & f & _ & Hf & HL & He)%es_input. by exists L, f. Qed.

Lemma entry_range L f e : 0 <= L < kNumLevels -> f ∈ level_files v L -> e ∈ data f ->
  0 <= sequence e.1 <= kMaxSequenceNumber /\ Internal_Compare ucmp (smallest f) (keyof e) <> Gt /\
  Internal_Compare ucmp (keyof e) (largest f) <> Gt.
Proof. intros HL Hf He. by apply (fh_range data f (vo_file _ _ Hvo L f HL Hf)). Qed.

Lemma es_seq : Forall (fun e : ientry => 0 <= sequence e.1 <= kMaxSequenceNumber) es.
Proof. apply Forall_forall. intros e (L & f & _ & Hf & HL & He)%es_input. by apply (entry_range L f). Qed.

Lemma sorted_fresher l : (forall e, e ∈ l -> in_version v data e) ->
  StronglySorted (fun a b => entry_compare ucmp a.1 b.1 = Lt) l -> StronglySorted (fresher (ucmp := ucmp)) l.
Proof.
  intros Hin Hs. induction Hs as [|a l Hs IH Hall]; [constructor|].
  constructor; [apply IH; intros e He; apply Hin; by right|].
  rewrite Forall_forall in Hall |- *. intros b Hb. specialize (Hall b Hb). cbn in Hall. unfold entry_compare in Hall.
  unfold fresher. destruct (Compare ucmp (userkey a.1) (userkey b.1)) eqn:E; [right|by left|done]. split; [done|].
  destruct (Z.compare_spec (sequence b.1) (sequence a.1)) as [Heq|Hlt|Hgt]; [|done|done].
  assert (a = b) as -> by (apply Hone; [apply Hin; by left|apply Hin; by right|done]). by rewrite Z.compare_refl in Hall.
Qed.

Lemma es_fresher : StronglySorted (fresher (ucmp := ucmp)) es.
Proof. apply sorted_fresher; [apply es_version|apply Hes]. Qed.

(** ** The files left are above or below the inputs *)

Lemma input_range_eq e a L g : 0 <= L < kNumLevels -> g ∈ level_files v L -> a ∈ data g ->
  Compare ucmp (userkey a.1) (userkey e) = Eq -> in_file (ucmp := ucmp) (userkey e) g = true.
Proof.
  intros HL Hg Ha Heq. destruct (visible_in_range (serves := serves) data (userkey e) (sequence a.1) g a) as [H1 H2];
    [by apply (vo_file _ _ Hvo L)|done|by split|].
  unfold in_file. by rewrite !bool_decide_true.
Qed.

Lemma upper_newer L g : 0 <= L <= L0 -> g ∈ level_files v L -> ~ is_input L g -> newer (ucmp := ucmp) (data g) es.
Proof.
  intros HL Hg Hn a e Ha He Heq. apply es_input in He as (Lf & f & Hi & Hf & HLf & He). pose proof compaction_levels as [Hlo Hhi].
  destruct Hi as [[-> Hin]|[-> Hin]].
  2: { apply (vo_newer _ _ Hvo L (L0 + 1) g f); [lia|lia|done..]. }
  destruct (decide (L = L0)) as [->|Hne]; [|apply (vo_newer _ _ Hvo L L0 g f); [lia|lia|done..]].
  destruct (entry_range L0 g a) as (Hsa & _ & Hag); [lia|done|done|].
  destruct (entry_range L0 f e) as (Hse & Hfe & _); [lia|done|done|].
  destruct (co_movable v c Hc f g Hin Hg) as [Hlt|Hlt]; [intros Hbad; apply Hn; by left| |].
  - assert (Internal_Compare ucmp (keyof a) (keyof e) = Lt) as Hae
      by (apply (ile_lt_trans _ (largest g)); [done|by apply (ilt_le_trans _ (smallest f))]).
    rewrite Internal_Compare_Append in Hae by done. unfold entry_compare in Hae. rewrite Heq in Hae.
    destruct (Z.compare_spec (sequence e.1) (sequence a.1)) as [Hs|Hs|Hs]; [|done|done].
    assert (a = e) as -> by (apply Hone; [by exists L0, g|by exists L0, f|done]). by rewrite Z.compare_refl in Hae.
  - exfalso. assert (Compare ucmp (userkey e.1) (userkey a.1) = Lt) as Hbad.
    { assert (in_file (ucmp := ucmp) (userkey a.1) g = true) as [_ Hg2]%andb_true_iff
        by (apply (input_range_eq a.1 a L0); [lia|done|done|by apply (Compare_refl (dom := fun _ => True))]).
      assert (in_file (ucmp := ucmp) (userkey e.1) f = true) as [Hf1 _]%andb_true_iff
        by (apply (input_range_eq e.1 e L0); [lia|done|done|by apply (Compare_refl (dom := fun _ => True))]).
      apply bool_decide_eq_true in Hg2, Hf1.
      apply (Compare_le_lt_trans (dom := fun _ => True) _ (lu f)); try done.
      apply (Compare_lt_le_trans (dom := fun _ => True) _ (su g)); try done.
      intros Hgt%(Compare_gt_lt (dom := fun _ => True)); done. }
    rewrite (Compare_eq_r (dom := fun _ => True) (userkey a.1) (userkey e.1)) in Hbad by done.
    by rewrite (Compare_refl (dom := fun _ => True)) in Hbad.
Qed.

Lemma lower_older L g : L0 + 2 <= L < kNumLevels -> g ∈ level_files v L -> newer (ucmp := ucmp) es (data g).
Proof.
  intros HL Hg e a He Ha Heq. apply es_input in He as (Lf & f & Hi & Hf & HLf & He).
  apply (vo_newer _ _ Hvo Lf L f g); [|lia|done..]. destruct Hi as [[-> _]|[-> _]]; lia.
Qed.

(** A key that the drop rule takes for gone below. *)
Lemma nothing_below u L g : base u = true -> L0 + 2 <= L < kNumLevels -> g ∈ level_files v L -> in_file (ucmp := ucmp) u g = false.
Proof.
  intros Hb HL Hg. apply negb_true_iff in Hb. apply not_true_iff_false. intros Hin.
  assert (deeper_has (ucmp := ucmp) v (deeper_levels c) u = true) as Hbad; [|by rewrite Hb in Hbad].
  apply existsb_exists. exists L. split; [apply list_elem_of_In, elem_of_seqZ; lia|].
  apply existsb_exists. exists g. split; [by apply list_elem_of_In|done].
Qed.

(** ** Entries before and after *)

(** Entries of the files that stay. *)
Definition stays (e : ientry) : Prop :=
  exists L f, 0 <= L < kNumLevels /\ f ∈ level_files v L /\ ~ is_input L f /\ e ∈ data f.

Lemma next_level_split pre post g : level_files v (L0 + 1) = pre ++ inputs1 c ++ post -> g ∈ pre \/ g ∈ post -> g ∉ inputs1 c.
Proof.
  intros Hl Hg Hin. pose proof compaction_levels. destruct (vo_level _ _ Hvo (L0 + 1)) as [Hf Hd _]; [lia|].
  rewrite Forall_forall in Hf. unfold disjoint in Hd. rewrite Hl in Hd, Hf.
  assert (Internal_Compare ucmp (largest g) (smallest g) = Lt) as Hlt.
  { destruct Hg as [Hg|Hg].
    - apply (StronglySorted_app_1_elem_of _ pre (inputs1 c ++ post) g g Hd); [done|clear -Hin; set_solver].
    - apply StronglySorted_app_1_r in Hd. by apply (StronglySorted_app_1_elem_of _ (inputs1 c) post g g Hd). }
  apply (ilt_not _ _ Hlt), Hf. clear -Hin. set_solver.
Qed.

Lemma before_split e : in_version v data e <-> stays e \/ e ∈ es.
Proof.
  split.
  - intros (L & f & HL & Hf & He). destruct (decide (L = L0 /\ f ∈ inputs0 c)) as [Hi|Hi].
    { right. apply (mi_in Hes). exists L, f. split; [by left|done]. }
    destruct (decide (L = L0 + 1 /\ f ∈ inputs1 c)) as [Hi'|Hi'].
    { right. apply (mi_in Hes). exists L, f. split; [by right|done]. }
    left. exists L, f. do 2 (split; [done|]). split; [|done]. by intros [?|?].
  - intros [(L & f & HL & Hf & _ & He)|He]; [by exists L, f|by apply es_version].
Qed.

Hypothesis Houts : Forall output_ok outs.
Hypothesis Hdata : concat (map data outs) = keep.

Lemma outs_data e : e ∈ keep <-> exists f, f ∈ outs /\ e ∈ data f.
Proof.
  rewrite <- Hdata. rewrite list_elem_of_In, in_concat. split.
  - intros (l & (f & <- & Hf)%in_map_iff & He). exists f. by rewrite !list_elem_of_In.
  - intros (f & Hf & He). exists (data f). rewrite <- !list_elem_of_In. split; [|done].
    apply list_elem_of_fmap. by exists f.
Qed.

Lemma after_split e : in_version v' data e <-> stays e \/ e ∈ keep.
Proof.
  pose proof compaction_levels as [Hlo Hhi]. destruct (rp_next Hrep) as (pre & post & Hl & Hl' & _ & _). split.
  - intros (L & f & HL & Hf & He). destruct (decide (L = L0)) as [->|Hne].
    { rewrite (rp_from Hrep) in Hf. apply list_elem_of_filter in Hf as [Hn Hf]. left. exists L0, f.
      do 2 (split; [done|]). split; [|done]. intros [[_ ?]|[? _]]; [done|lia]. }
    destruct (decide (L = L0 + 1)) as [->|Hne'].
    { rewrite Hl' in Hf. apply elem_of_app in Hf as [Hf|[Hf|Hf]%elem_of_app].
      - left. exists (L0 + 1), f. split; [done|]. split; [rewrite Hl; set_solver|]. split; [|done].
        intros [[? _]|[_ Hi]]; [lia|]. by apply (next_level_split pre post f Hl) in Hi; [|left].
      - right. apply outs_data. by exists f.
      - left. exists (L0 + 1), f. split; [done|]. split; [rewrite Hl; set_solver|]. split; [|done].
        intros [[? _]|[_ Hi]]; [lia|]. by apply (next_level_split pre post f Hl) in Hi; [|right]. }
    left. rewrite (rp_other Hrep L (proj1 HL) Hne Hne') in Hf. exists L, f. do 2 (split; [done|]). split; [|done].
    intros [[? _]|[? _]]; done.
  - intros [(L & f & HL & Hf & Hn & He)|He].
    + exists L, f. split; [done|]. split; [|done]. destruct (decide (L = L0)) as [->|Hne].
      { rewrite (rp_from Hrep). apply list_elem_of_filter. split; [|done]. intros Hi. apply Hn. by left. }
      destruct (decide (L = L0 + 1)) as [->|Hne']; [|rewrite (rp_other Hrep); [done|lia|done|done]].
      rewrite Hl'. rewrite Hl in Hf. apply elem_of_app in Hf as [Hf|[Hf|Hf]%elem_of_app]; [set_solver| |set_solver].
      exfalso. apply Hn. by right.
    + apply outs_data in He as (f & Hf & He). exists (L0 + 1), f. split; [lia|]. split; [rewrite Hl'; set_solver|done].
Qed.

(** A file that stays and shows a key whose deletion was dropped is above the inputs. *)
Lemma stays_above u s e0 o : e0 ∈ es -> visible ucmp u s e0 -> base (userkey e0.1) = true -> stays o -> visible ucmp u s o ->
  sequence e0.1 < sequence o.1.
Proof.
  intros He0 [Hu0 _] Hb (L & g & HL & Hg & Hn & Ho) [Huo _].
  assert (Compare ucmp (userkey o.1) (userkey e0.1) = Eq) as Heq.
  { rewrite (Compare_eq_l (dom := fun _ => True) (userkey o.1) u) by done. by apply (Compare_eq_sym (dom := fun _ => True)). }
  destruct (decide (L <= L0)) as [Hle|Hgt]; [by apply (upper_newer L g); [lia|..]|].
  destruct (decide (L = L0 + 1)) as [->|Hne].
  - exfalso. pose proof He0 as (Lf & f & Hi & _ & _ & Hef)%es_input.
    apply (Hsplit Lf f g e0 o Hi Hg); [intros Hin; apply Hn; by right|done|done|].
    by apply (Compare_eq_sym (dom := fun _ => True)).
  - exfalso. pose proof (nothing_below (userkey e0.1) L g Hb ltac:(lia) Hg) as Hno.
    by rewrite (input_range_eq e0.1 o L g) in Hno.
Qed.

(** Readers at or above the smallest snapshot get the same answers. *)
Lemma same_answers u s value st value' : oldest <= s ->
  get_result (ucmp := ucmp) v' data u s value st value' <-> get_result (ucmp := ucmp) v data u s value st value'.
Proof.
  intros Hs. unfold get_result, newest_in_version.
  assert (forall e, e ∈ keep -> e ∈ es) as Hsub by (intros e; apply kept_in).
  destruct (kept_newest oldest base u s es None Hs es_fresher I) as [Hnone|(e0 & (He0 & Hv0 & Hmax) & Hk)].
  { assert (forall e, visible ucmp u s e -> in_version v' data e <-> in_version v data e) as Hsame.
    { intros e Hve. rewrite before_split, after_split. split; intros [?|He]; [by left|by right; apply Hsub|by left|].
      by apply Hnone in He. }
    split; (intros [(e & (He & Hve & Hm) & Ho)|(-> & -> & Hno)]; [left; exists e|right]).
    - split; [|done]. split; [by apply Hsame|]. split; [done|]. intros e' He' Hv'. apply Hm; [by apply Hsame|done].
    - split; [done|]. split; [done|]. intros e He Hve. by apply (Hno e); [apply Hsame|].
    - split; [|done]. split; [by apply Hsame|]. split; [done|]. intros e' He' Hv'. apply Hm; [by apply Hsame|done].
    - split; [done|]. split; [done|]. intros e He Hve. by apply (Hno e); [apply Hsame|]. }
  assert (forall e, e ∈ es -> visible ucmp u s e -> sequence e.1 <= sequence e0.1) as Hle
    by (intros e He Hve; destruct (Hmax e He Hve) as [->|]; lia).
  assert (in_version v data e0) as Hin0 by (apply before_split; by right).
  destruct Hk as [Hk|(Ht & Hb & Hgone)].
  - assert (in_version v' data e0) as Hin0' by (apply after_split; by right).
    split; (intros [(e & (He & Hve & Hm) & Ho)|(-> & -> & Hno)]; [left; exists e|exfalso; by apply (Hno e0)]); (split; [|done]).
    + split; [apply before_split; apply after_split in He as [?|?]; [by left|right; by apply Hsub]|]. split; [done|].
      intros e' [He'|He']%before_split Hv'; [apply Hm; [apply after_split; by left|done]|].
      pose proof (Hle e' He' Hv'). pose proof (Hm e0 Hin0' Hv0). lia.
    + split; [|split; [done|]].
      * apply before_split in He as [He|He]; apply after_split; [by left|]. destruct (Hmax e He Hve) as [->|Hlt]; [by right|].
        specialize (Hm e0 Hin0 Hv0). lia.
      * intros e' He' Hv'. apply Hm; [|done]. apply before_split. apply after_split in He' as [?|?]; [by left|right; by apply Hsub].
  - assert (forall o, stays o -> visible ucmp u s o -> sequence e0.1 < sequence o.1) as Habove
      by (intros o; by apply stays_above).
    assert (forall e, e ∈ keep -> ~ visible ucmp u s e) as Hno by (intros e He Hve; by apply (Hgone e He); [apply Hve|]).
    split; intros [(e & (He & Hve & Hm) & Ho)|(-> & -> & Hnov)].
    + left. exists e. split; [|done]. apply after_split in He as [He|He]; [|by apply Hno in He].
      split; [apply before_split; by left|]. split; [done|]. intros e' [He'|He']%before_split Hv'.
      * apply Hm; [apply after_split; by left|done].
      * pose proof (Hle e' He' Hv'). pose proof (Habove e He Hve). lia.
    + left. exists e0. split; [|by unfold outcome; rewrite Ht]. split; [done|]. split; [done|].
      intros e' [He'|He']%before_split Hv'; [|by apply Hle]. exfalso. by apply (Hnov e'); [apply after_split; left|].
    + apply before_split in He as [He|He].
      * left. exists e. split; [|done]. split; [apply after_split; by left|]. split; [done|].
        intros e' He' Hv'. apply Hm; [|done]. apply before_split. apply after_split in He' as [?|?]; [by left|right; by apply Hsub].
      * assert (e = e0) as -> by (destruct (Hmax e He Hve) as [|Hlt]; [done|specialize (Hm e0 Hin0 Hv0); lia]).
        right. unfold outcome in Ho. rewrite Ht in Ho. destruct Ho as [-> ->]. split; [done|]. split; [done|].
        intros o [Ho|Ho]%after_split Hvo'; [|by apply (Hno o)]. pose proof (Habove o Ho Hvo').
        assert (sequence o.1 <= sequence e0.1) by (apply Hm; [apply before_split; by left|done]). lia.
    + exfalso. by apply (Hnov e0).
Qed.

(** ** The new version is well formed *)

Abbreviation fresh_lt := (fresher (ucmp := ucmp)).

Lemma keep_es e : e ∈ keep -> e ∈ es.
Proof. apply kept_in. Qed.

Lemma fresher_ilt a b : fresh_lt a b -> 0 <= sequence a.1 <= kMaxSequenceNumber -> 0 <= sequence b.1 <= kMaxSequenceNumber ->
  Internal_Compare ucmp (keyof a) (keyof b) = Lt.
Proof.
  intros Hab Ha Hb. rewrite Internal_Compare_Append by done. unfold entry_compare.
  destruct Hab as [->|[-> Hlt]]; [done|]. by rewrite (proj2 (Z.compare_lt_iff _ _)).
Qed.

Lemma es_range e : e ∈ es -> 0 <= sequence e.1 <= kMaxSequenceNumber.
Proof. pose proof es_seq as Hs. rewrite Forall_forall in Hs. apply Hs. Qed.

Lemma outs_sorted : StronglySorted fresh_lt (concat (map data outs)).
Proof. rewrite Hdata. apply kept_sorted, es_fresher. Qed.

Lemma out_sorted f : f ∈ outs -> StronglySorted fresh_lt (data f).
Proof.
  intros Hf. pose proof outs_sorted as Hs. apply list_elem_of_split in Hf as (o1 & o2 & ->).
  rewrite map_app, concat_app in Hs. cbn in Hs. by apply StronglySorted_app_1_r, StronglySorted_app_1_l in Hs.
Qed.

Lemma out_entry f e : f ∈ outs -> e ∈ data f -> e ∈ es.
Proof. intros Hf He. apply keep_es, outs_data. by exists f. Qed.

(** Both ends of an output are keys of its entries, and the others lie between. *)
Lemma out_bounds f e : f ∈ outs -> e ∈ data f ->
  Internal_Compare ucmp (smallest f) (keyof e) <> Gt /\ Internal_Compare ucmp (keyof e) (largest f) <> Gt.
Proof.
  intros Hf He. destruct (proj1 (Forall_forall _ _) Houts f Hf) as [_ (a & Ha & ->) (b & Hb & ->)].
  assert (a ∈ data f) as Hina by (destruct (data f); [done|injection Ha as ->; left]).
  assert (b ∈ data f) as Hinb by (apply last_Some_elem_of in Hb; done).
  split.
  - destruct (sorted_head _ _ a e (out_sorted f Hf) Ha He) as [->|Hlt]; [apply ile_refl|].
    apply ilt_le, fresher_ilt; [done|by apply es_range, (out_entry f)..].
  - destruct (sorted_last _ _ b e (out_sorted f Hf) Hb He) as [->|Hlt]; [apply ile_refl|].
    apply ilt_le, fresher_ilt; [done|by apply es_range, (out_entry f)..].
Qed.

Lemma out_ends f : f ∈ outs -> exists a b, a ∈ data f /\ smallest f = keyof a /\ b ∈ data f /\ largest f = keyof b.
Proof.
  intros Hf. destruct (proj1 (Forall_forall _ _) Houts f Hf) as [_ (a & Ha & Hs) (b & Hb & Hl)].
  exists a, b. split; [destruct (data f); [done|injection Ha as ->; left]|]. split; [done|].
  split; [by apply last_Some_elem_of in Hb|done].
Qed.

Lemma out_holds f : f ∈ outs -> file_holds (ucmp := ucmp) (serves := serves) data f.
Proof.
  intros Hf. pose proof Houts as Ho. rewrite Forall_forall in Ho. destruct (out_ends f Hf) as (a & b & Ha & Hsa & Hb & Hlb).
  split.
  - split; [rewrite Hsa; exists a.1; split; [by apply es_range, (out_entry f)|done]
           |rewrite Hlb; exists b.1; split; [by apply es_range, (out_entry f)|done]|].
    rewrite Hlb. by apply out_bounds.
  - by apply Ho.
  - intros e He. split; [by apply es_range, (out_entry f)|by apply out_bounds].
  - by exists b.
Qed.

Lemma some_outs_disjoint l : (forall f, f ∈ l -> f ∈ outs) -> StronglySorted fresh_lt (concat (map data l)) ->
  disjoint (ucmp := ucmp) l.
Proof.
  induction l as [|f l IH]; intros Hin Hs; [constructor|]. cbn in Hs.
  constructor; [apply IH; [intros g Hg; apply Hin; by right|by apply StronglySorted_app_1_r in Hs]|].
  apply Forall_forall. intros g Hg. assert (f ∈ outs) as Hf by (apply Hin; by left).
  assert (g ∈ outs) as Hgo by (apply Hin; by right).
  destruct (out_ends f Hf) as (_ & b & _ & _ & Hb & ->). destruct (out_ends g Hgo) as (a & _ & Ha & -> & _). apply fresher_ilt.
  - apply (StronglySorted_app_1_elem_of _ (data f) (concat (map data l))); [done|done|].
    apply list_elem_of_In, in_concat. exists (data g). split; [by apply in_map, list_elem_of_In|by apply list_elem_of_In].
  - by apply es_range, (out_entry f).
  - by apply es_range, (out_entry g).
Qed.

Lemma outs_disjoint : disjoint (ucmp := ucmp) outs.
Proof. apply some_outs_disjoint; [done|apply outs_sorted]. Qed.

(** The outputs lie between the files of their level that stay. *)
Lemma stays_before pre post f g : level_files v (L0 + 1) = pre ++ inputs1 c ++ post ->
  (forall f g, f ∈ inputs0 c -> g ∈ pre -> Compare ucmp (lu g) (su f) = Lt) ->
  g ∈ pre -> f ∈ outs -> Internal_Compare ucmp (largest g) (smallest f) = Lt.
Proof.
  intros Hl Hpre Hg Hf. destruct (out_ends f Hf) as (a & _ & Ha & -> & _). pose proof compaction_levels.
  destruct (es_input a (out_entry f a Hf Ha)) as (L & h & Hi & Hh & HL & Hah).
  destruct (entry_range L h a HL Hh Hah) as (_ & Hsm & _). apply (ilt_le_trans _ (smallest h)); [|done].
  destruct Hi as [[-> Hi]|[-> Hi]]; [by apply user_ilt, Hpre|].
  destruct (vo_level _ _ Hvo (L0 + 1)) as [_ Hd _]; [lia|]. unfold disjoint in Hd. rewrite Hl in Hd.
  apply (StronglySorted_app_1_elem_of _ pre (inputs1 c ++ post) g h Hd); [done|set_solver].
Qed.

Lemma stays_after pre post f g : level_files v (L0 + 1) = pre ++ inputs1 c ++ post ->
  (forall f g, f ∈ inputs0 c -> g ∈ post -> Compare ucmp (lu f) (su g) = Lt) ->
  g ∈ post -> f ∈ outs -> Internal_Compare ucmp (largest f) (smallest g) = Lt.
Proof.
  intros Hl Hpost Hg Hf. destruct (out_ends f Hf) as (_ & a & _ & _ & Ha & ->). pose proof compaction_levels.
  destruct (es_input a (out_entry f a Hf Ha)) as (L & h & Hi & Hh & HL & Hah).
  destruct (entry_range L h a HL Hh Hah) as (_ & _ & Hla). apply (ile_lt_trans _ (largest h)); [done|].
  destruct Hi as [[-> Hi]|[-> Hi]]; [by apply user_ilt, Hpost|].
  destruct (vo_level _ _ Hvo (L0 + 1)) as [_ Hd _]; [lia|]. unfold disjoint in Hd. rewrite Hl in Hd.
  apply StronglySorted_app_1_r in Hd. by apply (StronglySorted_app_1_elem_of _ (inputs1 c) post h g Hd).
Qed.

(** Where a file of the new version comes from. *)
Lemma new_file L f : 0 <= L < kNumLevels -> f ∈ level_files v' L ->
  (f ∈ level_files v L /\ ~ is_input L f) \/ (L = L0 + 1 /\ f ∈ outs).
Proof.
  intros HL Hf. destruct (rp_next Hrep) as (pre & post & Hl & Hl' & _). unfold is_input.
  destruct (decide (L = L0)) as [->|Hne].
  { rewrite (rp_from Hrep) in Hf. apply list_elem_of_filter in Hf as [Hn Hf]. left. split; [done|].
    intros [[_ ?]|[? _]]; [done|lia]. }
  destruct (decide (L = L0 + 1)) as [->|Hne'].
  { rewrite Hl' in Hf. rewrite Hl. apply elem_of_app in Hf as [Hf|[Hf|Hf]%elem_of_app]; [left| by right|left];
      (split; [set_solver|]); (intros [[? _]|[_ Hi]]; [lia|]); by apply (next_level_split pre post f Hl) in Hi; [|left + right]. }
  left. rewrite (rp_other Hrep L (proj1 HL) Hne Hne') in Hf. split; [done|]. intros [[? _]|[? _]]; done.
Qed.

Lemma new_level L : 0 < L < kNumLevels -> level_ok (ucmp := ucmp) (level_files v' L).
Proof.
  intros HL. destruct (decide (L = L0)) as [->|Hne].
  { rewrite (rp_from Hrep). destruct (vo_level _ _ Hvo L0 HL) as [Hf Hd Hs]. split.
    - apply Forall_forall. intros f [_ Hin]%list_elem_of_filter. rewrite Forall_forall in Hf. by apply Hf.
    - by apply StronglySorted_filter.
    - pose proof (length_filter (fun f => f ∉ inputs0 c) (level_files v L0)). lia. }
  destruct (decide (L = L0 + 1)) as [->|Hne']; [|rewrite (rp_other Hrep) by (done || lia); by apply (vo_level _ _ Hvo)].
  destruct (vo_level _ _ Hvo _ HL) as [Hf Hd _]. pose proof (rp_size Hrep) as Hsz.
  destruct (rp_next Hrep) as (pre & post & Hl & Hl' & Hpre & Hpost). split; [|unfold disjoint in *|done].
  - apply Forall_forall. intros f Hin. rewrite Forall_forall in Hf. rewrite Hl in Hf. rewrite Hl' in Hin.
    apply elem_of_app in Hin as [Hin|[Hin|Hin]%elem_of_app]; [apply Hf; set_solver|by apply (fh_ok data f (out_holds f Hin))|apply Hf; set_solver].
  - rewrite Hl in Hd. rewrite Hl'. apply StronglySorted_app_2; [|by apply StronglySorted_app_1_l in Hd|apply StronglySorted_app_2].
    + intros g f Hg [Hin|Hin]%elem_of_app; [by apply (stays_before pre post f g)|].
      apply (StronglySorted_app_1_elem_of _ pre (inputs1 c ++ post) g f Hd); [done|set_solver].
    + intros f g Hin Hg. by apply (stays_after pre post f g).
    + apply outs_disjoint.
    + by apply StronglySorted_app_1_r, StronglySorted_app_1_r in Hd.
Qed.

Lemma newer_sub A B A' B' : newer (ucmp := ucmp) A B -> (forall e, e ∈ A' -> e ∈ A) -> (forall e, e ∈ B' -> e ∈ B) ->
  newer (ucmp := ucmp) A' B'.
Proof. intros Hn HA HB a b Ha Hb. by apply Hn; [apply HA|apply HB]. Qed.

Lemma new_version_ok : version_ok (ucmp := ucmp) (serves := serves) v' data.
Proof.
  pose proof compaction_levels as [Hlo Hhi].
  assert (forall L f, 0 <= L < kNumLevels -> f ∈ level_files v' L -> L = 0 -> f ∈ level_files v 0) as Hzero.
  { intros L f HL Hf ->. destruct (new_file 0 f HL Hf) as [[? _]|[? _]]; [done|lia]. }
  split.
  - intros L f HL Hf. destruct (new_file L f HL Hf) as [[Hf' _]|[_ Ho]]; [by apply (vo_file _ _ Hvo L)|by apply out_holds].
  - apply new_level.
  - pose proof (vo_numbers _ _ Hvo) as Hn. destruct (decide (L0 = 0)) as [H0'|Hne].
    + rewrite <- H0' in Hn |- *. rewrite (rp_from Hrep). by apply NoDup_fmap_filter.
    + rewrite (rp_other Hrep) by lia. done.
  - intros f g Hf Hg. apply (vo_newer0 _ _ Hvo); [by apply (Hzero 0 f)|by apply (Hzero 0 g)].
  - intros L L' f g HL HL' Hf Hg.
    destruct (new_file L f ltac:(lia) Hf) as [[Hf' Hnf]|[-> Hof]]; destruct (new_file L' g ltac:(lia) Hg) as [[Hg' Hng]|[-> Hog]].
    + by apply (vo_newer _ _ Hvo L L').
    + eapply newer_sub; [apply (upper_newer L f); [lia|done|done]|done|]. intros e He. by apply (out_entry g).
    + eapply newer_sub; [apply (lower_older L' g); [lia|done]| |done]. intros e He. by apply (out_entry f).
    + lia.
Qed.
End Replaced.

Section Answers.
Context {ucmp : Comparator} {Hok : ComparatorOk ucmp (fun _ => True)}.
Context {T : Type} `{TableSourceOk T ucmp good serves}.

(** C11: A compaction does not change what readers see.  Let a sound compaction of a
    well-formed version read the merged entries of its inputs, every write having a
    sequence number of its own and no user key being split between an input and a file of
    the next level that is not one.  Then the loop decides on every entry, and whatever way
    the kept entries are cut into output files, the version with the outputs in place of
    the inputs is well formed and gives every reader at or above the smallest snapshot
    the same result for every key.  The deletions that are dropped uncover nothing. *)
Theorem compaction_keeps_answers v data c oldest es :
  version_ok (ucmp := ucmp) (serves := serves) v data -> compaction_ok (ucmp := ucmp) v c ->
  levelptrs c = replicate (Z.to_nat kNumLevels) 0%nat -> oldest < kMaxSequenceNumber ->
  merged_inputs (ucmp := ucmp) data c es -> one_write_each v data -> keys_not_split (ucmp := ucmp) v data c ->
  exists kept c' sc', drop_run ucmp oldest c Scan_make es = Some (kept, c', sc') /\
    forall v' outs, concat (map data outs) = kept -> Forall (output_ok (serves := serves) data) outs ->
      replaced (ucmp := ucmp) v v' c outs ->
      version_ok (ucmp := ucmp) (serves := serves) v' data /\
      forall u s value st value', oldest <= s ->
        get_result (ucmp := ucmp) v' data u s value st value' <-> get_result (ucmp := ucmp) v data u s value st value'.
Proof.
  intros Hvo Hc Hp Hsm Hes Hone Hsplit. pose proof (fine v data Hvo) as Hfine.
  pose proof (es_fresher v data c es Hc Hes Hone) as Hfr.
  destruct (drop_run_ok (ucmp := ucmp) oldest Hsm v c Hfine (proj1 (co_level v c Hc)) es c Scan_make None) as (c' & sc' & Hrun).
  - by apply (es_seq (ucmp := ucmp) (serves := serves) v data c es).
  - done.
  - done.
  - intros e _. split; [by apply (co_version v c Hc)|done|apply pointers_fresh; [done|apply (co_level v c Hc)]].
  - eexists _, c', sc'. split; [exact Hrun|]. intros v' outs Hdata Houts Hrep. split.
    + by apply (new_version_ok v v' data c oldest es outs).
    + intros u s value st value' Hs. by apply (same_answers v v' data c oldest es outs).
Qed.
End Answers.

(** ** Concrete compactions *)

(** All of level 0 and the file of level 1 with the same key, of Version.v's example. *)
Definition demo_compaction : Compaction :=
  set_inputs (Compaction_make 2097152 0) demo_version [demo_file 4; demo_file 5] [demo_file 3] [] VersionEdit_make.

Definition demo_merged : list ientry :=
  [(MkParsedInternalKey (str "ant") 9 kTypeDeletion, str "");
   (MkParsedInternalKey (str "ant") 7 kTypeValue, str "new");
   (MkParsedInternalKey (str "ant") 2 kTypeValue, str "old")].

Definition demo_after : Version :=
  set_files Version_make [[]; [demo_file 5; demo_file 4; demo_file 2]; []; []; []; []; []].

Lemma demo_compaction_ok : compaction_ok (ucmp := BytewiseComparatorImpl) demo_version demo_compaction.
Proof.
  split.
  - done.
  - done.
  - done.
  - intros f Hf. exact Hf.
  - intros f g Hf Hg Hn. done.
  - exists [], [demo_file 2]. split; [done|]. split; [intros f g _ Hg; by apply not_elem_of_nil in Hg|].
    intros f g Hf ->%list_elem_of_singleton. change (f ∈ [demo_file 4; demo_file 5]) in Hf.
    apply elem_of_cons in Hf as [->|Hf]; [done|]. by apply list_elem_of_singleton in Hf as ->.
  - intros _. exists (smallest (demo_file 5)), (largest (demo_file 3)). split; [|done].
    assert (Forall (fun f => Internal_Compare BytewiseComparatorImpl (smallest (demo_file 5)) (smallest f) <> Gt /\
      Internal_Compare BytewiseComparatorImpl (largest f) (largest (demo_file 3)) <> Gt)
      [demo_file 4; demo_file 5; demo_file 3]) as Hall
      by (repeat constructor; vm_compute; discriminate).
    rewrite Forall_forall in Hall. split; [by exists (demo_file 5); split; [right; left|]|
      by exists (demo_file 3); split; [right; right; left|]|intros f Hf; by apply Hall..].
  - exists None, None. split; [by intros f _ _|done].
Qed.

Lemma demo_merged_ok : merged_inputs (ucmp := BytewiseComparatorImpl) demo_data demo_compaction demo_merged.
Proof.
  split; [|repeat constructor].
  intros e. split.
  - unfold demo_merged. rewrite !elem_of_cons. intros [->|[->|[->|He]]]; [| | |by apply not_elem_of_nil in He].
    + exists 0, (demo_file 5). split; [left; split; [done|right; left]|left].
    + exists 0, (demo_file 4). split; [left; split; [done|left]|left].
    + exists 1, (demo_file 3). split; [right; split; [done|left]|left].
  - intros (L & f & [[_ Hf]|[_ Hf]] & He).
    + change (f ∈ [demo_file 4; demo_file 5]) in Hf. apply elem_of_cons in Hf as [->|Hf].
      * apply list_elem_of_singleton in He as ->. right; left.
      * apply list_elem_of_singleton in Hf as ->. apply list_elem_of_singleton in He as ->. left.
    + change (f ∈ [demo_file 3]) in Hf. apply list_elem_of_singleton in Hf as ->. apply list_elem_of_singleton in He as ->.
      right; right; left.
Qed.

(** The entries of the example are those of its table cache. *)
Lemma demo_in_version e : in_version demo_version demo_data e -> exists num, (num, e) ∈ demo_entries.
Proof.
  intros (level & f & Hl & Hf & He).
  destruct (demo_level level f Hl Hf) as [[_ [-> | ->]]|[_ [-> | ->]]]; apply list_elem_of_singleton in He as ->; eexists;
    unfold demo_entries; [right; left|left|right; right; left|right; right; right; left].
Qed.

Lemma demo_one_write : one_write_each demo_version demo_data.
Proof.
  intros e e' [n He]%demo_in_version [n' He']%demo_in_version Hs. unfold demo_entries in He, He'.
  rewrite !elem_of_cons in He, He'.
  destruct He as [[= -> ->]|[[= -> ->]|[[= -> ->]|[[= -> ->]|He]]]]; try (by apply not_elem_of_nil in He);
    (destruct He' as [[= -> ->]|[[= -> ->]|[[= -> ->]|[[= -> ->]|He']]]]; try (by apply not_elem_of_nil in He'));
    (reflexivity || discriminate Hs).
Qed.

Lemma demo_not_split : keys_not_split (ucmp := BytewiseComparatorImpl) demo_version demo_data demo_compaction.
Proof.
  intros L f g e e' Hi Hg Hn He He'. change (g ∈ [demo_file 3; demo_file 2]) in Hg. change (g ∉ [demo_file 3]) in Hn.
  apply elem_of_cons in Hg as [->|Hg]; [by destruct Hn; left|]. apply list_elem_of_singleton in Hg as ->.
  apply list_elem_of_singleton in He' as ->.
  assert (e ∈ demo_merged) as Hm by (apply (mi_in _ _ _ demo_merged_ok); by exists L, f).
  unfold demo_merged in Hm. rewrite !elem_of_cons in Hm.
  destruct Hm as [->|[->|[->|Hm]]]; [discriminate..|by apply not_elem_of_nil in Hm].
Qed.

Lemma demo_replaced : replaced (ucmp := BytewiseComparatorImpl) demo_version demo_after demo_compaction [demo_file 5; demo_file 4].
Proof.
  split; [reflexivity| | |reflexivity].
  - exists [], [demo_file 2]. split; [reflexivity|]. split; [reflexivity|]. split; [intros f g _ Hg; by apply not_elem_of_nil in Hg|].
    intros f g Hf ->%list_elem_of_singleton. change (f ∈ [demo_file 4; demo_file 5]) in Hf.
    apply elem_of_cons in Hf as [->|Hf]; [done|]. by apply list_elem_of_singleton in Hf as ->.
  - intros L Hlo Hne Hne'. change (L <> 0) in Hne. change (L <> 1) in Hne'. unfold level_files.
    by destruct (Z.to_nat L) as [|[|n]] eqn:Hn; [lia|lia|].
Qed.

Lemma demo_outputs_ok : Forall (output_ok (serves := demo_serves) demo_data) [demo_file 5; demo_file 4].
Proof.
  repeat (apply Forall_cons; split); [| |by apply Forall_nil];
    (split; [eexists; split; [reflexivity|]; split; [reflexivity|]; vm_compute; split; discriminate|eexists; by split..]).
Qed.

(** With 8 as the smallest snapshot the deletion at 9 and the value at 7 are kept, and the
    value at 2, which no reader can see, is dropped.  A reader at 8 still finds the value
    at 7. *)
Lemma compaction_keeps_answers_witness :
  exists kept c' sc', drop_run BytewiseComparatorImpl 8 demo_compaction Scan_make demo_merged = Some (kept, c', sc') /\
    map (fun e : ientry => sequence e.1) kept = [9; 7] /\
    (version_ok (ucmp := BytewiseComparatorImpl) (serves := demo_serves) demo_after demo_data /\
     forall u s value st value', 8 <= s ->
       get_result (ucmp := BytewiseComparatorImpl) demo_after demo_data u s value st value' <->
       get_result (ucmp := BytewiseComparatorImpl) demo_version demo_data u s value st value').
Proof.
  destruct (compaction_keeps_answers (ucmp := BytewiseComparatorImpl) (good := fun _ : unit => True) (serves := demo_serves)
    demo_version demo_data demo_compaction 8 demo_merged) as (kept & c' & sc' & Hrun & Hall).
  - exact demo_version_ok.
  - exact demo_compaction_ok.
  - reflexivity.
  - reflexivity.
  - exact demo_merged_ok.
  - exact demo_one_write.
  - exact demo_not_split.
  - assert (fst <$> (fst <$> drop_run BytewiseComparatorImpl 8 demo_compaction Scan_make demo_merged) =
      Some (take 2 demo_merged)) as Hkept by (vm_compute; reflexivity).
    exists kept, c', sc'. rewrite Hrun in Hkept. injection Hkept as Hk. split; [exact Hrun|]. split; [by rewrite Hk|].
    apply (Hall demo_after [demo_file 5; demo_file 4]).
    + rewrite Hk. reflexivity.
    + exact demo_outputs_ok.
    + exact demo_replaced.
Defined.

(** ** A key split between two files *)

(** In level 2 the deletion of "k" ends one file and its older value begins the next. *)
Definition split_version : Version :=
  set_files Version_make
    [[]; [demo_meta 9 "a" "b"];
     [FileMetaData_make 8 40000 (InternalKey_make (str "b") 5 kTypeValue) (InternalKey_make (str "k") 7 kTypeDeletion);
      FileMetaData_make 7 40000 (InternalKey_make (str "k") 4 kTypeValue) (InternalKey_make (str "z") 3 kTypeValue)];
     []; []; []; []].

#[local] Instance split_append : AppendFile WritableFile := WritableFile_append (fun _ => []).

Definition split_compaction : option Compaction :=
  match CompactRange (F := WritableFile) BytewiseComparatorImpl 2097152 1 None None (AppendVersion split_version VersionSet_make) with
  | Some (Some c, _) => Some c
  | _ => None
  end.

(** Compacting level 1 takes the first file of level 2 and not the second, as
    [SetupOtherInputs] looks for boundary files in the first level only; the deletion of
    "k" is dropped as if nothing below had the key, and its value at 4 stays in level 2.
    So [keys_not_split] is needed in [compaction_keeps_answers]. *)
Example split_key_returns :
  exists c c' sc', split_compaction = Some c /\ map number (inputs0 c) = [9] /\ map number (inputs1 c) = [8] /\
    drop_run BytewiseComparatorImpl 10 c Scan_make
      [(MkParsedInternalKey (str "b") 5 kTypeValue, str "v"); (MkParsedInternalKey (str "k") 7 kTypeDeletion, [])] =
    Some ([(MkParsedInternalKey (str "b") 5 kTypeValue, str "v")], c', sc').
Proof. do 3 eexists. split; [vm_compute; reflexivity|]. split; [reflexivity|]. split; [reflexivity|vm_compute; reflexivity]. Qed.
