(* ===== verification/Database.v ===== *)
(** The database: its write queue, its memtables and its reads (the class [DB] of
    redisdb/db/db.h and db.cc).

    Calls of [DB] hold the mutex but for the waits; the functions below are the code
    between two waits.  A waiting writer is its place in the queue; the writer at the front
    does the work of the group that it makes, and nobody else touches the log or the
    memtable meanwhile. *)
From Stdlib Require Import Sorted Permutation.
From stdpp Require Import gmap sorting sets.
From S2P Require Import Prelude Coding Status Env DbFormat LogFormat SkipList MemTable WriteBatch VersionEdit FileIO FileName Iterators Table Version VersionBuilder VersionSet.
Local Open Scope Z_scope.

(** [DB::Writer]: a caller, its batch (null to wait for the earlier writes) and [sync]. *)
Record Writer := MkWriter { w_id : nat; w_batch : option WriteBatch; w_sync : bool }.

Definition kL0_SlowdownWritesTrigger : Z := 8.
Definition kL0_StopWritesTrigger : Z := 12.

Section Database.
Context (c : Comparator) (rnd : nat -> Z) (taddr dataaddr : Z).
Context {E F G T : Type} `{FileEnv E F G} `{AppendFile F} `{ReadFile G} `{TableSource T}.
(** [dbname] and the options. *)
Context (dbname : bytes) (writebuffersize : Z).

(** [db_tmpbatch] is the batch groups are put together in, [db_done] the statuses handed to
    writers that are done; [db_scheduled] is [bgcompactionscheduled], [db_manual] whether
    [manualcompaction] is set, [db_pending] the set [pendingoutputs]. *)
Record DB := MkDB {
  db_mem : MemTable;
  db_imm : option MemTable;
  db_vs : VersionSet (F := F);
  db_tables : T;
  db_env : E;
  db_log : LogWriter (F := F);
  db_logfilenumber : Z;
  db_bgerror : Status;
  db_writers : list Writer;
  db_tmpbatch : option WriteBatch;
  db_done : list (nat * Status);
  db_scheduled : bool;
  db_shuttingdown : bool;
  db_manual : bool;
  db_pending : list Z
}.

Definition set_memtables (mem : MemTable) (imm : option MemTable) (d : DB) : DB :=
  MkDB mem imm (db_vs d) (db_tables d) (db_env d) (db_log d) (db_logfilenumber d) (db_bgerror d) (db_writers d)
    (db_tmpbatch d) (db_done d) (db_scheduled d) (db_shuttingdown d) (db_manual d) (db_pending d).
Definition set_versions (vs : VersionSet (F := F)) (tables : T) (env : E) (d : DB) : DB :=
  MkDB (db_mem d) (db_imm d) vs tables env (db_log d) (db_logfilenumber d) (db_bgerror d) (db_writers d)
    (db_tmpbatch d) (db_done d) (db_scheduled d) (db_shuttingdown d) (db_manual d) (db_pending d).
Definition set_logfile (log : LogWriter (F := F)) (number : Z) (d : DB) : DB :=
  MkDB (db_mem d) (db_imm d) (db_vs d) (db_tables d) (db_env d) log number (db_bgerror d) (db_writers d)
    (db_tmpbatch d) (db_done d) (db_scheduled d) (db_shuttingdown d) (db_manual d) (db_pending d).
Definition set_queue (writers : list Writer) (tmp : option WriteBatch) (done_ : list (nat * Status)) (d : DB) : DB :=
  MkDB (db_mem d) (db_imm d) (db_vs d) (db_tables d) (db_env d) (db_log d) (db_logfilenumber d) (db_bgerror d) writers
    tmp done_ (db_scheduled d) (db_shuttingdown d) (db_manual d) (db_pending d).
Definition set_background (bgerror : Status) (scheduled : bool) (d : DB) : DB :=
  MkDB (db_mem d) (db_imm d) (db_vs d) (db_tables d) (db_env d) (db_log d) (db_logfilenumber d) bgerror (db_writers d)
    (db_tmpbatch d) (db_done d) scheduled (db_shuttingdown d) (db_manual d) (db_pending d).

(** ** Background work *)

Definition RecordBackgroundError (s : Status) (d : DB) : DB :=
  if ok (db_bgerror d) then set_background s (db_scheduled d) d else d.

Definition MaybeScheduleCompaction (d : DB) : option DB :=
  if db_scheduled d then Some d
  else if db_shuttingdown d then Some d
  else if negb (ok (db_bgerror d)) then Some d
  else
    let? needs := NeedsCompaction (db_vs d) in
    if bool_decide (db_imm d = None) && negb (db_manual d) && negb needs then Some d
    else Some (set_background (db_bgerror d) true d).

(** ** Writing *)

(** The loop of [BuildBatchGroup] over the writers behind the first: the batch, whether it
    is [tmpbatch], and how many of these writers are in the group. *)
Fixpoint group_loop (firstsync : bool) (first : WriteBatch) (maxsize : Z) (tmp : option WriteBatch)
    (rest : list Writer) (size : Z) (result : option WriteBatch) (last : nat) : option (WriteBatch * bool * nat) :=
  let stop := match result with Some r => (r, true, last) | None => (first, false, last) end in
  match rest with
  | [] => Some stop
  | w :: rest =>
      if w_sync w && negb firstsync then Some stop
      else
        match w_batch w with
        | None => group_loop firstsync first maxsize tmp rest size result (S last)
        | Some b =>
            let size := u64 (size + ByteSize b) in
            if maxsize <? size then Some stop
            else
              let? r :=
                match result with
                | Some r => Some r
                | None => let? t := tmp in if Count t =? 0 then Some (WriteBatch.append t first) else None
                end in
              group_loop firstsync first maxsize tmp rest size (Some (WriteBatch.append r b)) (S last)
        end
  end.

Definition BuildBatchGroup (tmp : option WriteBatch) (writers : list Writer) : option (WriteBatch * bool * nat) :=
  match writers with
  | w :: rest =>
      let? first := w_batch w in
      let size := ByteSize first in
      let maxsize := if size <=? 131072 then size + 131072 else 1048576 in
      group_loop (w_sync w) first maxsize tmp rest size None 0
  | [] => None
  end.

(** A turn of the loop of [MakeRoomForWrite]. *)
Inductive Room :=
  | RoomDone (s : Status) (d : DB)            (* break or return *)
  | RoomDelay (d : DB)                        (* sleep; no more delay *)
  | RoomWait (d : DB)                         (* wait for the background work *)
  | RoomSwitched (d : DB).                    (* a new memtable; [force] is off *)

Definition MakeRoomForWrite_turn (force allowdelay : bool) (d : DB) : option Room :=
  if negb (ok (db_bgerror d)) then Some (RoomDone (db_bgerror d) d)
  else
    let? level0 := NumLevelFiles (db_vs d) 0 in
    if allowdelay && (kL0_SlowdownWritesTrigger <=? level0) then Some (RoomDelay d)
    else if negb force && (GetMemoryUsage (db_mem d) <=? writebuffersize) then Some (RoomDone OK d)
    else if bool_decide (is_Some (db_imm d)) then Some (RoomWait d)
    else if kL0_StopWritesTrigger <=? level0 then Some (RoomWait d)
    else if GetMemoryUsage (db_mem d) =? 0 then Some (RoomDone OK d)
    else if negb (vs_prevlognumber (db_vs d) =? 0) then None
    else
      let '(number, vs) := NewFileNumber (db_vs d) in
      let? name := LogFileName dbname number in
      let '(s, lfile, env) := NewWritableFile (G := G) (db_env d) name in
      if negb (ok s) then Some (RoomDone s (set_versions (ReuseFileNumber number vs) (db_tables d) env d))
      else
        let? lfile := lfile in
        let d := set_versions vs (db_tables d) env d in
        let d := set_logfile (LogWriter_make lfile 0) number d in
        let d := set_memtables MemTable_make (Some (db_mem d)) d in
        let? d := MaybeScheduleCompaction d in Some (RoomSwitched d).

(** [MakeRoomForWrite]; other threads run while it sleeps and waits, and do what [others]
    allows. *)
Inductive MakeRoomForWrite (others : DB -> DB -> Prop) : bool -> bool -> DB -> Status -> DB -> Prop :=
  | room_done force delay d s d' :
      MakeRoomForWrite_turn force delay d = Some (RoomDone s d') -> MakeRoomForWrite others force delay d s d'
  | room_delay force delay d d1 d2 s d' :
      MakeRoomForWrite_turn force delay d = Some (RoomDelay d1) -> others d1 d2 ->
      MakeRoomForWrite others force false d2 s d' -> MakeRoomForWrite others force delay d s d'
  | room_wait force delay d d1 d2 s d' :
      MakeRoomForWrite_turn force delay d = Some (RoomWait d1) -> others d1 d2 ->
      MakeRoomForWrite others force delay d2 s d' -> MakeRoomForWrite others force delay d s d'
  | room_switched force delay d d1 s d' :
      MakeRoomForWrite_turn force delay d = Some (RoomSwitched d1) ->
      MakeRoomForWrite others false delay d1 s d' -> MakeRoomForWrite others force delay d s d'.

(** [DB::Write] up to its wait. *)
Definition Write_enqueue (w : Writer) (d : DB) : DB :=
  set_queue (db_writers d ++ [w]) (db_tmpbatch d) (db_done d) d.

(** Adding the group to the log and applying it to the memtable. *)
Definition Write_log (updates : WriteBatch) (sync : bool) (d : DB) : option (Status * DB) :=
  let? (status, log) := AddRecord taddr (db_log d) dataaddr (Contents updates) in
  let '(status, syncerror, log) :=
    if ok status && sync then
      let '(s, f) := fsync (E := E) (G := G) (dest log) in (s, negb (ok s), MkLogWriter f (blockoffset log))
    else (status, false, log) in
  let? (status, mem) := if ok status then InsertInto c rnd updates (db_mem d) else Some (status, db_mem d) in
  let d := set_memtables mem (db_imm d) (set_logfile log (db_logfilenumber d) d) in
  Some (status, if syncerror : bool then RecordBackgroundError status d else d).

(** [DB::Write] of the writer at the front after [MakeRoomForWrite] answered [status]. *)
Definition Write_commit (status : Status) (d : DB) : option DB :=
  match db_writers d with
  | [] => None
  | w :: _ =>
      let? (status, last, d) :=
        if ok status && bool_decide (is_Some (w_batch w)) then
          let? (updates, grouped, last) := BuildBatchGroup (db_tmpbatch d) (db_writers d) in
          let updates := SetSequence updates (u64 (GetLastSequence (db_vs d) + 1)) in
          let lastsequence := u64 (GetLastSequence (db_vs d) + Count updates) in
          let? (status, d) := Write_log updates (w_sync w) d in
          let tmp := if grouped : bool then Some WriteBatch.clear else db_tmpbatch d in
          let? vs := vs_SetLastSequence lastsequence (db_vs d) in
          Some (status, last, set_queue (db_writers d) tmp (db_done d) (set_versions vs (db_tables d) (db_env d) d))
        else Some (status, 0%nat, d) in
      let ready := take (S last) (db_writers d) in
      Some (set_queue (drop (S last) (db_writers d)) (db_tmpbatch d)
        (db_done d ++ map (fun w => (w_id w, status)) ready) d)
  end.

(** ** Reading *)

(** [DB::Get]; the version's statistics are kept in the current version. *)
Definition Get (snapshot : option Z) (key value : bytes) (d : DB) : option (Status * bytes * DB) :=
  let snapshot := match snapshot with Some s => s | None => GetLastSequence (db_vs d) end in
  let? current := current (db_vs d) in
  let lkey := LookupKey_make key snapshot in
  let? (found, value, s) := MemTable.Get c (db_mem d) lkey value OK in
  if found : bool then Some (s, value, d)
  else
    let? (found, value, s) :=
      match db_imm d with Some imm => MemTable.Get c imm lkey value s | None => Some (false, value, s) end in
    if found : bool then Some (s, value, d)
    else
      let? (s, value, stats, tables) := Version_Get c current lkey value (db_tables d) in
      let '(compact, current) := UpdateStats current stats in
      let vs := db_vs d in
      let vs := MkVersionSet (removelast (dummyversions vs) ++ [current]) (vs_nextfilenumber vs) (manifestfilenumber vs)
        (vs_lastsequence vs) (vs_lognumber vs) (vs_prevlognumber vs) (compactPointer vs) (descriptorlog vs) in
      let d := set_versions vs tables (db_env d) d in
      let? d := if compact : bool then MaybeScheduleCompaction d else Some d in
      Some (s, value, d).
End Database.


(** ** The groups of the write queue *)

Abbreviation len l := (Z.of_nat (length l)).

(** The operations of a writer. *)
Definition carries (w : Writer) (ops : list Op) : Prop :=
  match w_batch w with Some b => exists seq, batch b seq ops | None => ops = [] end.

Lemma group_loop_ok firstsync first maxsize tmp rest opss : Forall2 carries rest opss -> tmp = None \/ tmp = Some WriteBatch.clear ->
  forall size result last acc,
  (match result with
   | Some r => tmp = Some WriteBatch.clear /\ exists seq, batch r seq acc
   | None => exists seq, batch first seq acc
   end) -> len (acc ++ concat opss) < 2 ^ 31 ->
  (tmp = None /\ group_loop firstsync first maxsize tmp rest size result last = None) \/
  exists updates grouped n, group_loop firstsync first maxsize tmp rest size result last = Some (updates, grouped, (last + n)%nat) /\
    (n <= length rest)%nat /\ (grouped = true -> tmp = Some WriteBatch.clear) /\
    exists seq, batch updates seq (acc ++ concat (take n opss)).
Proof.
  intros Hrest Htmp. induction Hrest as [|w ops rest opss Hw Hrest IH]; intros size result last acc Hres Hlen.
  all: assert (exists updates grouped n,
    Some (match result with Some r => (r, true, last) | None => (first, false, last) end) = Some (updates, grouped, (last + n)%nat) /\
    n = 0%nat /\ (grouped = true -> tmp = Some WriteBatch.clear) /\ exists seq, batch updates seq acc) as Hstop
    by (destruct result as [r|]; [destruct Hres as [Ht Hr]|]; eexists _, _, 0%nat; by rewrite Nat.add_0_r).
  - right. destruct Hstop as (u & g & n & Hu & -> & Hg & Hb). exists u, g, 0%nat. cbn. by rewrite app_nil_r.
  - assert (forall (P : Prop) x, x = Some (match result with Some r => (r, true, last) | None => (first, false, last) end) ->
      (P \/ exists updates grouped n, x = Some (updates, grouped, (last + n)%nat) /\
       (n <= length (w :: rest))%nat /\ (grouped = true -> tmp = Some WriteBatch.clear) /\
       exists seq, batch updates seq (acc ++ concat (take n (ops :: opss))))) as Hend.
    { intros P x ->. right. destruct Hstop as (u & g & n & Hu & -> & Hg & Hb). exists u, g, 0%nat.
      split; [done|]. split; [lia|]. split; [done|]. by rewrite take_0, app_nil_r. }
    assert (forall size' result' acc', acc' = acc ++ ops ->
      (match result' with Some r => tmp = Some WriteBatch.clear /\ exists seq, batch r seq acc' | None => exists seq, batch first seq acc' end) ->
      (tmp = None /\ group_loop firstsync first maxsize tmp rest size' result' (S last) = None) \/
      exists updates grouped n, group_loop firstsync first maxsize tmp rest size' result' (S last) = Some (updates, grouped, (last + n)%nat) /\
       (n <= length (w :: rest))%nat /\ (grouped = true -> tmp = Some WriteBatch.clear) /\
       exists seq, batch updates seq (acc ++ concat (take n (ops :: opss)))) as Hgo.
    { intros size' result' acc' -> Hr. destruct (IH size' result' (S last) (acc ++ ops) Hr) as [Hn|(u & g & n & -> & Hn & Hg & Hb)].
      - cbn [concat] in Hlen. by rewrite <- app_assoc.
      - by left.
      - right. exists u, g, (S n). split; [do 2 f_equal; lia|]. cbn [length take concat]. split; [lia|]. split; [done|].
        by rewrite <- app_assoc in Hb. }
    cbn [group_loop]. destruct (w_sync w && negb firstsync); [by apply Hend|]. unfold carries in Hw.
    destruct (w_batch w) as [b|]; [|subst ops; apply (Hgo _ _ acc); [by rewrite app_nil_r|done]].
    destruct (maxsize <? _); [by apply Hend|]. destruct Hw as [sb Hb].
    assert (forall r sr, batch r sr acc -> batch (WriteBatch.append r b) sr (acc ++ ops)) as Happ.
    { intros r sr Hr. apply (batch_append r b sr sb); [done|done|]. cbn [concat] in Hlen. rewrite !length_app in *. lia. }
    destruct result as [r|].
    + destruct Hres as [Ht [sr Hr]]. apply (Hgo _ _ (acc ++ ops)); [done|]. split; [done|]. exists sr. by apply Happ.
    + destruct Htmp as [->| ->]; [by left|]. change (Count WriteBatch.clear =? 0) with true. cbv iota.
      destruct Hres as [sf Hf]. apply (Hgo _ _ (acc ++ ops)); [done|]. split; [done|]. exists 0. apply Happ.
      apply (batch_append WriteBatch.clear first 0 sf [] acc); [apply batch_clear|done|]. rewrite !length_app in *. cbn. lia.
Qed.

(** The group is a stretch of the queue that begins with its front, its batch their
    operations in the order of the queue. *)
Lemma BuildBatchGroup_ok tmp w rest ops opss : carries w ops -> is_Some (w_batch w) -> Forall2 carries rest opss ->
  tmp = None \/ tmp = Some WriteBatch.clear -> len (ops ++ concat opss) < 2 ^ 31 ->
  (tmp = None /\ rest <> [] /\ BuildBatchGroup tmp (w :: rest) = None) \/
  exists updates grouped n, BuildBatchGroup tmp (w :: rest) = Some (updates, grouped, n) /\ (n <= length rest)%nat /\
    (grouped = true -> tmp = Some WriteBatch.clear) /\ exists seq, batch updates seq (concat (take (S n) (ops :: opss))).
Proof.
  intros Hw [b Hb] Hrest Htmp Hl. unfold BuildBatchGroup. rewrite Hb. cbn [mbind option_bind].
  unfold carries in Hw. rewrite Hb in Hw.
  destruct (group_loop_ok (w_sync w) b (if ByteSize b <=? 131072 then ByteSize b + 131072 else 1048576) tmp rest opss Hrest Htmp
    (ByteSize b) None 0%nat ops Hw Hl) as [[Ht Hn]|(u & g & n & -> & Hn & Hg & Hu)]; [left|right; exists u, g, n; by split].
  split; [done|]. split; [by destruct rest|done].
Qed.

(** ** What the database holds *)

(** A batch as the log stores it: its sequence number and its operations. *)
Abbreviation group := (Z * list Op)%type.

Definition record_of_group (g : group) : bytes :=
  EncodeFixed64 g.1 ++ EncodeFixed32 (len g.2) ++ ops_bytes g.2.

Definition group_entries (gs : list group) : list MemEntry := concat (map (fun g => entries g.1 g.2) gs).

Definition mem_ientry (e : MemEntry) : ientry := (mkey e, mvalue e).

Abbreviation seq_lt := (fun a b : MemEntry => sequence (mkey a) < sequence (mkey b)).

Section Contents.
Context {c : Comparator} {Hok : ComparatorOk c (fun _ => True)}.
Context {E F G T : Type} `{FileEnv E F G} `{AppendFileOk F} {HE : FileEnvOk E F G} `{ReadFile G} `{TableSourceOk T c good serves}.

(** The log holds the records of the groups. *)
Definition log_holds (log : LogWriter (F := F)) (gs : list group) : Prop :=
  healthy (dest log) /\ 0 <= blockoffset log <= kBlockSize /\
  exists fragss, Forall2 (pieces true) (map record_of_group gs) fragss /\ frags_fit 0 (concat fragss) /\
    contents (dest log) = layout 0 (concat fragss) /\ blockoffset log = end_offset 0 (concat fragss).

Lemma log_holds_make (f : F) : healthy f -> contents f = [] -> log_holds (LogWriter_make f 0) [].
Proof. intros Hf Hc. split; [done|]. split; [done|]. exists []. by split; [constructor|]. Qed.

Lemma log_holds_add taddr ptr (log : LogWriter (F := F)) gs g : log_holds log gs ->
  exists log', AddRecord taddr log ptr (record_of_group g) = Some (OK, log') /\ log_holds log' (gs ++ [g]).
Proof.
  intros (Hh & Ho & fragss & HF & Hfit & Hc & He).
  destruct (AddRecord_ok taddr log ptr (record_of_group g) Hh Ho) as (log' & frags & HA & Hh' & Ho' & Hc' & He' & Hf' & Hp).
  exists log'. split; [done|]. split; [done|]. split; [done|]. exists (fragss ++ [frags]). rewrite map_app, concat_app.
  cbn [map concat]. rewrite app_nil_r. split_and!.
  - by apply Forall2_app; [|constructor].
  - apply frags_fit_app. by rewrite <- He.
  - by rewrite Hc', Hc, layout_app, <- He.
  - rewrite He', He. unfold end_offset. by rewrite fold_left_app.
Qed.

(** The state: memtable entries [es1], those of the immutable memtable [es2], both in the
    order of their sequence numbers and newer than all of the files'. *)
Record db_holds (dat : Z -> list ientry) (d : DB (E := E) (F := F) (T := T)) (es1 es2 : list MemEntry) : Prop := {
  dh_mem : holds c (db_mem d) es1;
  dh_imm : match db_imm d with Some m => holds c m es2 | None => es2 = [] end;
  dh_version : exists v, current (db_vs d) = Some v /\ version_ok (ucmp := c) (serves := serves) v (fun f => dat (number f)) /\
    forall e, in_version v (fun f => dat (number f)) e -> sequence e.1 <= GetLastSequence (db_vs d) /\
      forall a, a ∈ es2 ++ es1 -> sequence e.1 < sequence (mkey a);
  dh_tables : good (db_tables d);
  dh_sorted : StronglySorted seq_lt (es2 ++ es1);
  dh_seen a : a ∈ es2 ++ es1 -> sequence (mkey a) <= GetLastSequence (db_vs d);
  dh_last : 0 <= GetLastSequence (db_vs d) <= kMaxSequenceNumber
}.

(** Everything that was written and not yet dropped. *)
Definition in_db (dat : Z -> list ientry) (d : DB (E := E) (F := F) (T := T)) (es1 es2 : list MemEntry) (e : ientry) : Prop :=
  (exists a, a ∈ es2 ++ es1 /\ e = mem_ientry a) \/
  (exists v, current (db_vs d) = Some v /\ in_version v (fun f => dat (number f)) e).

Definition newest_in_db dat d es1 es2 (u : bytes) (s : Z) (e : ientry) : Prop :=
  in_db dat d es1 es2 e /\ visible c u s e /\ forall e', in_db dat d es1 es2 e' -> visible c u s e' -> sequence e'.1 <= sequence e.1.

(** A memtable in the order of its sequence numbers has a newest entry of a key, or none. *)
Lemma newest_or_none es u s : StronglySorted seq_lt es ->
  (exists e, newest c es u s e) \/ (forall e, e ∈ es -> Compare c (userkey (mkey e)) u = Eq -> s < sequence (mkey e)).
Proof.
  intros Hs. induction Hs as [|a es Hs IH Hall]; [right; intros e He; by apply not_elem_of_nil in He|].
  rewrite Forall_forall in Hall. destruct IH as [(e & He & Hc & Hle & Hmax)|Hno].
  - left. exists e. split; [by right|]. split; [done|]. split; [done|]. intros e' [->|He']%elem_of_cons Hc' Hle'; [|by apply Hmax].
    right. by apply Hall.
  - destruct (decide (Compare c (userkey (mkey a)) u = Eq /\ sequence (mkey a) <= s)) as [[Hc Hle]|Hn].
    + left. exists a. split; [by left|]. split; [done|]. split; [done|]. intros e' [->|He']%elem_of_cons Hc' Hle'; [by left|].
      by specialize (Hno e' He' Hc'); lia.
    + right. intros e' [->|He']%elem_of_cons Hc'; [|by apply Hno]. destruct (Z.le_gt_cases (sequence (mkey a)) s); [|lia]. by destruct Hn.
Qed.

(** *** The statistics of a read leave the version as it is *)

Definition same_file (f g : file) : Prop :=
  number f = number g /\ filesize f = filesize g /\ smallest f = smallest g /\ largest f = largest g.

Definition same_version (v v' : Version) : Prop := forall level, Forall2 same_file (level_files v level) (level_files v' level).

Lemma same_refl fs : Forall2 same_file fs fs.
Proof. induction fs as [|f fs IH]; constructor; [by split_and!|done]. Qed.

Lemma UpdateStats_same v stats : same_version v (UpdateStats v stats).2.
Proof.
  unfold UpdateStats. destruct (seekFile stats) as [[level i]|]; [|intros l; apply same_refl].
  destruct (level_files v level !! i) as [f|] eqn:Hf; [|intros l; apply same_refl].
  set (v' := set_files v _). assert (same_version v v') as Hs.
  { intros l. unfold v', level_files, set_files in *. cbn [vfiles]. destruct (decide (Z.to_nat l = Z.to_nat level)) as [->|Hne].
    - rewrite !list_lookup_total_alt, list_lookup_alter_eq in *. destruct (vfiles v !! Z.to_nat level) as [fs|] eqn:Hfs; [|apply same_refl].
      cbn in *. rewrite <- (list_insert_id fs i f Hf) at 1. apply Forall2_insert; [apply same_refl|by split_and!].
    - rewrite !list_lookup_total_alt, list_lookup_alter_ne by done. apply same_refl. }
  clearbody v'. destruct (filetocompact v'); [done|]. case_match; done.
Qed.

Lemma same_elem fs gs g : Forall2 same_file fs gs -> g ∈ gs -> exists f, f ∈ fs /\ same_file f g.
Proof. intros Hs Hg. apply list_elem_of_lookup in Hg as [i Hi]. destruct (Forall2_lookup_r _ _ _ _ _ Hs Hi) as (f & Hf & Hfg). exists f. split; [by eapply list_elem_of_lookup_2|done]. Qed.

Lemma same_sym fs gs : Forall2 same_file fs gs -> Forall2 same_file gs fs.
Proof. intros Hs. apply Forall2_flip. eapply Forall2_impl; [exact Hs|]. intros f g (?&?&?&?). by split_and!. Qed.

Lemma same_in_version dat v v' e : same_version v v' ->
  in_version v (fun f => dat (number f)) e -> in_version v' (fun f => dat (number f)) e.
Proof.
  intros Hs (level & f & Hl & Hf & He). destruct (same_elem _ _ f (same_sym _ _ (Hs level)) Hf) as (g & Hg & Hn & _).
  exists level, g. by rewrite Hn.
Qed.

Lemma same_holds dat f g : same_file f g -> file_holds (ucmp := c) (serves := serves) (fun f => dat (number f)) f ->
  file_holds (ucmp := c) (serves := serves) (fun f => dat (number f)) g.
Proof.
  intros (Hn & Hz & Hsm & Hla) [[K1 K2 K3] Hse Hra Hlast]. rewrite Hn, Hz, Hsm, Hla in *. by split; [split|..].
Qed.

Lemma same_level_ok fs gs : Forall2 same_file fs gs -> level_ok (ucmp := c) fs -> level_ok (ucmp := c) gs.
Proof.
  intros Hs [Hf Hd Hz]. split.
  - apply Forall_forall. intros g Hg. destruct (same_elem _ _ g Hs Hg) as (f & Hin & _ & _ & Hsm & Hla).
    rewrite Forall_forall in Hf. destruct (Hf f Hin) as [K1 K2 K3]. rewrite Hsm, Hla in *. by split.
  - clear Hf Hz. revert Hd. unfold disjoint. induction Hs as [|f g fs gs (_ & _ & _ & Hla) Hs IH]; [done|].
    intros [Hall Hd]%StronglySorted_cons. constructor; [by apply IH|]. rewrite Forall_forall in Hall |- *. intros g' Hg'.
    destruct (same_elem _ _ g' Hs Hg') as (f' & Hin & _ & _ & Hsm & _). rewrite <- Hla, <- Hsm. by apply Hall.
  - by rewrite <- (Forall2_length _ _ _ Hs).
Qed.

Lemma same_version_ok dat v v' : same_version v v' -> version_ok (ucmp := c) (serves := serves) v (fun f => dat (number f)) ->
  version_ok (ucmp := c) (serves := serves) v' (fun f => dat (number f)).
Proof.
  intros Hs [K1 K2 K3 K4 K5]. split.
  - intros level g Hl Hg. destruct (same_elem _ _ g (Hs level) Hg) as (f & Hf & Hfg). eapply same_holds; [done|by eapply K1].
  - intros level Hl. eapply same_level_ok; [apply Hs|by apply K2].
  - replace (number <$> level_files v' 0) with (number <$> level_files v 0); [done|].
    specialize (Hs 0). clear -Hs. induction Hs as [|f g fs gs (Hn & _) Hs IH]; [done|]. by rewrite !fmap_cons, Hn, IH.
  - intros f g Hf Hg Hlt. destruct (same_elem _ _ f (Hs 0) Hf) as (f' & Hf' & Hn & _), (same_elem _ _ g (Hs 0) Hg) as (g' & Hg' & Hm & _).
    cbn. rewrite <- Hn, <- Hm in *. by apply (K4 f' g').
  - intros l l' f g Hl Hl' Hf Hg. destruct (same_elem _ _ f (Hs l) Hf) as (f' & Hf' & Hn & _), (same_elem _ _ g (Hs l') Hg) as (g' & Hg' & Hm & _).
    cbn. rewrite <- Hn, <- Hm. by apply (K5 l l' f' g').
Qed.

(** *** Reads *)

(** The database after a read: the same but for statistics and the tables' caches. *)
Lemma db_holds_read dat d es1 es2 vs' tables' env sch v v' : db_holds dat d es1 es2 ->
  current (db_vs d) = Some v -> current vs' = Some v' -> same_version v v' -> good tables' ->
  GetLastSequence vs' = GetLastSequence (db_vs d) ->
  db_holds dat (set_background (db_bgerror d) sch (set_versions vs' tables' env d)) es1 es2.
Proof.
  intros [Hm Hi (v0 & Hv0 & Hvo & Hnew) Ht Hso Hse Hl] Hv Hv' Hs Ht' Hls. rewrite Hv in Hv0. injection Hv0 as <-.
  split; cbn [db_mem db_imm db_vs db_tables set_background set_versions]; [done|done| |done|done|by rewrite Hls|by rewrite Hls].
  exists v'. split; [done|]. split; [by apply (same_version_ok dat v)|]. intros e He. rewrite Hls. apply Hnew.
  apply (same_in_version dat v' v); [|done]. intros l. by apply same_sym.
Qed.

Lemma MaybeScheduleCompaction_ok (d : DB (E := E) (F := F) (T := T)) : is_Some (current (db_vs d)) ->
  exists b, MaybeScheduleCompaction d = Some (set_background (db_bgerror d) b d).
Proof.
  intros [v Hv]. assert (set_background (db_bgerror d) (db_scheduled d) d = d) as Hid by (by destruct d).
  unfold MaybeScheduleCompaction, NeedsCompaction. rewrite Hv. cbn [mbind option_bind].
  repeat case_match; eexists; try done; by rewrite Hid.
Qed.

(** What the newest entry says is what is read. *)
Lemma mem_newest_db dat d es1 es2 u s a : db_holds dat d es1 es2 ->
  (newest c es1 u s a \/
   ((forall e, e ∈ es1 -> Compare c (userkey (mkey e)) u = Eq -> s < sequence (mkey e)) /\ newest c es2 u s a)) ->
  newest_in_db dat d es1 es2 u s (mem_ientry a).
Proof.
  intros Hd Ha. assert (a ∈ es2 ++ es1 /\ Compare c (userkey (mkey a)) u = Eq /\ sequence (mkey a) <= s) as (Hin & Hc & Hle).
  { destruct Ha as [(Hin & Hc & Hle & _)|[_ (Hin & Hc & Hle & _)]]; (split; [apply elem_of_app; tauto|done]). }
  split; [left; by exists a|]. split; [done|]. intros e' [(a' & Ha' & ->)|(v & Hv & He')] [Hc' Hle']; cbn in *.
  - pose proof (dh_sorted _ _ _ _ Hd) as Hso. apply elem_of_app in Ha' as [Ha'|Ha'].
    + destruct Ha as [(Hin1 & _)|[_ (_ & _ & _ & Hmax)]].
      * apply StronglySorted_app in Hso as (Hall & _ & _). apply Z.lt_le_incl. by apply (Hall a' a).
      * destruct (Hmax a' Ha' Hc' Hle') as [->|]; lia.
    + destruct Ha as [(_ & _ & _ & Hmax)|[Hno _]]; [destruct (Hmax a' Ha' Hc' Hle') as [->|]; lia|].
      specialize (Hno a' Ha' Hc'). lia.
  - destruct (dh_version _ _ _ _ Hd) as (v0 & Hv0 & _ & Hnew). rewrite Hv in Hv0. injection Hv0 as ->.
    apply Z.lt_le_incl. by apply (Hnew e' He').
Qed.

(** What is read: the value of the newest entry, if it is not a deletion. *)
Definition read_result dat d es1 es2 (u : bytes) (s : Z) (value : bytes) (st : Status) (value' : bytes) : Prop :=
  (exists e, newest_in_db dat d es1 es2 u s e /\ outcome e value st value') \/
  (st = NotFound [] [] /\ value' = value /\ forall e, in_db dat d es1 es2 e -> ~ visible c u s e).

(** A read changes statistics, caches and whether a compaction is scheduled. *)
Definition after_read (d d' : DB (E := E) (F := F) (T := T)) : Prop :=
  exists vs tables b v v', d' = set_background (db_bgerror d) b (set_versions vs tables (db_env d) d) /\
    GetLastSequence vs = GetLastSequence (db_vs d) /\ vs_prevlognumber vs = vs_prevlognumber (db_vs d) /\
    current (db_vs d) = Some v /\ current vs = Some v' /\ same_version v v'.

Lemma after_read_refl (d : DB (E := E) (F := F) (T := T)) v : current (db_vs d) = Some v -> after_read d d.
Proof.
  intros Hv. exists (db_vs d), (db_tables d), (db_scheduled d), v, v. split; [by destruct d|]. do 4 (split; [done|]).
  intros l. apply same_refl.
Qed.

(** A memtable answers. *)
Lemma mem_read dat d es1 es2 u s a value v : db_holds dat d es1 es2 -> current (db_vs d) = Some v ->
  newest_in_db dat d es1 es2 u s (mem_ientry a) ->
  exists st value', (match type (mkey a) with kTypeValue => (true, mvalue a, OK) | kTypeDeletion => (true, value, NotFound [] []) end) =
    (true, value', st) /\ read_result dat d es1 es2 u s value st value' /\ db_holds dat d es1 es2 /\ after_read d d.
Proof.
  intros Hd Hv Ha. destruct (type (mkey a)) eqn:Ht; eexists _, _; (split; [done|]); (split; [|split; [done|by eapply after_read_refl]]);
    left; exists (mem_ientry a); (split; [done|]); unfold outcome; cbn; by rewrite Ht.
Qed.

Lemma last_snoc_removelast {A} (l : list A) x : last (removelast l ++ [x]) = Some x.
Proof. by rewrite last_snoc. Qed.

Lemma Get_ok dat d es1 es2 snapshot u value : db_holds dat d es1 es2 -> len u + 8 < 2 ^ 32 ->
  match snapshot with Some s => 0 <= s <= kMaxSequenceNumber | None => True end ->
  let s := match snapshot with Some s => s | None => GetLastSequence (db_vs d) end in
  exists st value' d', Get c snapshot u value d = Some (st, value', d') /\
    read_result dat d es1 es2 u s value st value' /\ db_holds dat d' es1 es2 /\ after_read d d'.
Proof.
  intros Hd Hu Hsn s. assert (0 <= s <= kMaxSequenceNumber) as Hs by (unfold s; destruct snapshot; [done|apply (dh_last _ _ _ _ Hd)]).
  destruct (dh_version _ _ _ _ Hd) as (v & Hv & Hvo & Hnew). unfold Get. fold s. rewrite Hv. cbn [mbind option_bind].
  pose proof (dh_sorted _ _ _ _ Hd) as Hso. apply StronglySorted_app in Hso as (_ & Hso2 & Hso1).
  destruct (newest_or_none es1 u s Hso1) as [[a Ha]|Hno1].
  { rewrite (Get_newest (db_mem d) es1 u s value OK (dh_mem _ _ _ _ Hd) Hu Hs a Ha).
    destruct (mem_read dat d es1 es2 u s a value v Hd Hv) as (st & value' & -> & Hr); [by apply mem_newest_db; [|left]|].
    by exists st, value', d. }
  rewrite (Get_absent (db_mem d) es1) by (done || apply (dh_mem _ _ _ _ Hd)). cbv iota beta.
  pose proof (dh_imm _ _ _ _ Hd) as Himm.
  destruct (newest_or_none es2 u s Hso2) as [[a Ha]|Hno2].
  { destruct (db_imm d) as [m|]; [|destruct Ha as [Hin _]; rewrite Himm in Hin; by apply not_elem_of_nil in Hin].
    rewrite (Get_newest m es2 u s value OK Himm Hu Hs a Ha).
    destruct (mem_read dat d es1 es2 u s a value v Hd Hv) as (st & value' & -> & Hr); [by apply mem_newest_db; [|right]|].
    by exists st, value', d. }
  assert (match db_imm d with Some imm => MemTable.Get c imm (LookupKey_make u s) value OK | None => Some (false, value, OK) end =
    Some (false, value, OK)) as ->.
  { destruct (db_imm d) as [m|]; [|done]. by rewrite (Get_absent m es2). }
  cbv iota beta. destruct (version_get (serves := serves) v (fun f => dat (number f)) Hvo u s Hs value (db_tables d))
    as (st & value' & stats & tables' & -> & Ht' & Hres); [lia|apply (dh_tables _ _ _ _ Hd)|].
  cbn [mbind option_bind]. pose proof (UpdateStats_same v stats) as Hsame. destruct (UpdateStats v stats) as [compact v'] eqn:Hus.
  cbn [snd] in Hsame. set (vs' := MkVersionSet _ _ _ _ _ _ _ _).
  assert (current vs' = Some v') as Hv' by apply last_snoc_removelast.
  assert (exists b, (if compact then MaybeScheduleCompaction (set_versions vs' tables' (db_env d) d) else Some (set_versions vs' tables' (db_env d) d)) =
    Some (set_background (db_bgerror d) b (set_versions vs' tables' (db_env d) d))) as [b ->].
  { destruct compact; [apply (MaybeScheduleCompaction_ok (set_versions vs' tables' (db_env d) d)); by exists v'|]. by exists (db_scheduled d). }
  cbn [mbind option_bind]. eexists _, _, _. split; [done|]. split; [|split].
  - destruct Hres as [(e & (He & Hvis & Hmax) & Ho)|(-> & -> & Hno)]; [left|right].
    + exists e. split; [|done]. split; [right; by exists v|]. split; [done|].
      intros e' [(a & Ha & ->)|(v0 & Hv0 & He')] Hvis'; [exfalso|rewrite Hv in Hv0; injection Hv0 as <-; by apply Hmax].
      destruct Hvis' as [Hc' Hle']. cbn in *. apply elem_of_app in Ha as [Ha|Ha]; [specialize (Hno2 a Ha Hc')|specialize (Hno1 a Ha Hc')]; lia.
    + split; [done|]. split; [done|]. intros e [(a & Ha & ->)|(v0 & Hv0 & He)]; [|rewrite Hv in Hv0; injection Hv0 as <-; by apply Hno].
      intros [Hc' Hle']. cbn in *. apply elem_of_app in Ha as [Ha|Ha]; [specialize (Hno2 a Ha Hc')|specialize (Hno1 a Ha Hc')]; lia.
  - by eapply db_holds_read.
  - by exists vs', tables', b, v, v'.
Qed.

(** *** Writes *)

Lemma log_holds_sync log gs : log_holds log gs ->
  exists f', fsync (E := E) (G := G) (dest log) = (OK, f') /\ log_holds (MkLogWriter f' (blockoffset log)) gs.
Proof.
  intros (Hh & Ho & fragss & HF & Hfit & Hc & He). destruct (fsync_ok (E := E) (G := G) (dest log) Hh) as (f' & Hf & Hh' & Hc').
  exists f'. split; [done|]. split; [done|]. split; [done|]. exists fragss. cbn. by rewrite Hc'.
Qed.

Lemma Write_log_ok rnd taddr dataaddr updates sync (d : DB (E := E) (F := F) (T := T)) gs es seq ops :
  log_holds (db_log d) gs -> holds c (db_mem d) es -> batch updates seq ops -> Forall op_fits ops -> len ops < 2 ^ 31 ->
  0 <= seq -> seq + len ops <= kMaxSequenceNumber + 1 -> older seq es ->
  exists mem' log', Write_log c rnd taddr dataaddr (G := G) updates sync d =
      Some (OK, set_memtables mem' (db_imm d) (set_logfile log' (db_logfilenumber d) d)) /\
    holds c mem' (es ++ entries seq ops) /\ log_holds log' (gs ++ [(seq, ops)]).
Proof.
  intros Hl Hm Hb Hf Hn Hs Hmax Hold. unfold Write_log.
  destruct (log_holds_add taddr dataaddr (db_log d) gs (seq, ops) Hl) as (log1 & HA & Hl1).
  change (Contents updates) with (rep updates). rewrite Hb. change (EncodeFixed64 seq ++ _) with (record_of_group (seq, ops)).
  rewrite HA. cbn [mbind option_bind].
  destruct (InsertInto_step rnd updates seq ops (db_mem d) es Hb Hf Hn Hs Hmax Hm Hold) as (mem' & HI & Hm').
  destruct (log_holds_sync log1 (gs ++ [(seq, ops)]) Hl1) as (f' & Hfs & Hl2).
  change (ok OK) with true. cbn [andb]. destruct sync.
  - rewrite Hfs. change (ok OK) with true. cbn [negb]. rewrite HI. cbn [mbind option_bind]. by eexists _, _.
  - change (ok OK) with true. cbv iota. rewrite HI. cbn [mbind option_bind]. by eexists _, _.
Qed.

Lemma entries_sorted ops : forall seq, StronglySorted seq_lt (entries seq ops).
Proof.
  induction ops as [|o ops IH]; intros seq; cbn; constructor; [apply IH|]. apply Forall_forall. intros e He.
  apply entries_sequence in He. rewrite sequence_op_entry. lia.
Qed.

(** The memtable's entries are those of the groups in the log. *)
Record logged (d : DB (E := E) (F := F) (T := T)) (es1 : list MemEntry) (gs : list group) : Prop := {
  lg_log : log_holds (db_log d) gs;
  lg_entries : es1 = group_entries gs;
  lg_fits : Forall (fun g => Forall op_fits g.2 /\ len g.2 < 2 ^ 31 /\ 0 <= g.1 /\ g.1 + len g.2 <= kMaxSequenceNumber + 1) gs
}.

Lemma db_holds_write dat d es1 es2 mem' log' vs' ops tmp dn ws b :
  db_holds dat d es1 es2 -> let seq := GetLastSequence (db_vs d) + 1 in
  holds c mem' (es1 ++ entries seq ops) -> seq + len ops <= kMaxSequenceNumber + 1 ->
  current vs' = current (db_vs d) -> GetLastSequence vs' = GetLastSequence (db_vs d) + len ops ->
  db_holds dat (set_queue ws tmp dn (set_versions vs' (db_tables d) (db_env d)
    (set_memtables mem' (db_imm d) (set_logfile log' (db_logfilenumber d) (set_background b (db_scheduled d) d)))))
    (es1 ++ entries seq ops) es2.
Proof.
  intros [Hm Hi (v & Hv & Hvo & Hnew) Ht Hso Hse Hla] seq Hm' Hmax Hcv Hsq.
  assert (forall a, a ∈ entries seq ops -> forall a', a' ∈ es2 ++ es1 -> seq_lt a' a) as Hafter.
  { intros a Ha a' Ha'. apply entries_sequence in Ha. specialize (Hse a' Ha'). unfold seq in *. lia. }
  split; cbn [db_mem db_imm db_vs db_tables set_queue set_versions set_memtables set_logfile set_background]; [done|done| |done| | |].
  - exists v. rewrite Hcv. split; [done|]. split; [done|]. intros e He. destruct (Hnew e He) as [Hle Hlt]. split; [rewrite Hsq; lia|].
    intros a Ha. rewrite app_assoc in Ha. apply elem_of_app in Ha as [Ha|Ha]; [by apply Hlt|]. apply entries_sequence in Ha.
    unfold seq in *. lia.
  - rewrite app_assoc. apply StronglySorted_app. split; [|split; [done|apply entries_sorted]].
    intros a a' Ha Ha'. by apply (Hafter a').
  - intros a Ha. rewrite app_assoc in Ha. rewrite Hsq. apply elem_of_app in Ha as [Ha|Ha]; [specialize (Hse a Ha); lia|].
    apply entries_sequence in Ha. unfold seq in *. lia.
  - rewrite Hsq. unfold seq in *. lia.
Qed.

(** What the queue does: the first [S n] writers are done. *)
Definition popped (d d' : DB (E := E) (F := F) (T := T)) (n : nat) (st : Status) : Prop :=
  db_writers d' = drop (S n) (db_writers d) /\
  db_done d' = db_done d ++ map (fun w => (w_id w, st)) (take (S n) (db_writers d)) /\
  db_tmpbatch d' = db_tmpbatch d /\ db_imm d' = db_imm d /\ current (db_vs d') = current (db_vs d).

Lemma concat_take_le {A} n (ls : list (list A)) : (length (concat (take n ls)) <= length (concat ls))%nat.
Proof. rewrite <- (take_drop n ls) at 2. rewrite concat_app, length_app. lia. Qed.

Lemma Forall_concat_take {A} (P : A -> Prop) n (ls : list (list A)) : Forall (Forall P) ls -> Forall P (concat (take n ls)).
Proof. intros Hl. apply Forall_concat. by apply Forall_take. Qed.

Lemma Write_commit_ok rnd taddr dataaddr dat d es1 es2 gs w rest opss :
  db_holds dat d es1 es2 -> logged d es1 gs -> db_writers d = w :: rest -> Forall2 carries (w :: rest) opss ->
  is_Some (w_batch w) -> Forall (Forall op_fits) opss -> len (concat opss) < 2 ^ 31 ->
  GetLastSequence (db_vs d) + len (concat opss) <= kMaxSequenceNumber ->
  db_tmpbatch d = None \/ db_tmpbatch d = Some WriteBatch.clear ->
  (db_tmpbatch d = None /\ rest <> [] /\ Write_commit c rnd taddr dataaddr (G := G) OK d = None) \/
  exists d' n, Write_commit c rnd taddr dataaddr (G := G) OK d = Some d' /\ (n <= length rest)%nat /\ popped d d' n OK /\
    let ops := concat (take (S n) opss) in let seq := GetLastSequence (db_vs d) + 1 in
    db_holds dat d' (es1 ++ entries seq ops) es2 /\ logged d' (es1 ++ entries seq ops) (gs ++ [(seq, ops)]) /\
    GetLastSequence (db_vs d') = GetLastSequence (db_vs d) + len ops.
Proof.
  intros Hd Hlg Hw Hcar Hb Hfit Hlen Hmax Htmp. unfold Write_commit. rewrite Hw. change (ok OK) with true.
  rewrite bool_decide_eq_true_2 by done. cbn [andb]. destruct opss as [|ops0 opss]; [by apply Forall2_nil_inv_r in Hcar|].
  apply Forall2_cons in Hcar as [Hcw Hcr]. cbn [concat] in Hlen.
  destruct (BuildBatchGroup_ok (db_tmpbatch d) w rest ops0 opss Hcw Hb Hcr Htmp Hlen)
    as [(Ht & Hne & ->)|(updates & grouped & n & -> & Hn & Hg & seq0 & Hu)]; [by left|right].
  cbn [mbind option_bind]. set (ops := concat (take (S n) (ops0 :: opss))) in *.
  set (seq := GetLastSequence (db_vs d) + 1). pose proof (dh_last _ _ _ _ Hd) as Hlast.
  assert (len ops <= len (concat (ops0 :: opss))) as Hle by (pose proof (concat_take_le (S n) (ops0 :: opss)); unfold ops; lia).
  cbn [concat] in Hle. assert (len ops < 2 ^ 31) as Hlo by lia.
  assert (GetLastSequence (db_vs d) + len ops <= kMaxSequenceNumber) as Hmo by (cbn [concat] in Hmax; lia).
  rewrite (u64_small seq) by (unfold seq, kMaxSequenceNumber in *; lia).
  pose proof (batch_SetSequence _ _ _ seq Hu) as Hbs. rewrite (batch_Count _ _ _ Hbs Hlo).
  rewrite (u64_small (_ + len ops)) by (unfold kMaxSequenceNumber in *; lia).
  assert (Forall op_fits ops) as Hfo by by (unfold ops; apply Forall_concat_take).
  assert (older seq es1) as Hold.
  { apply Forall_forall. intros e He. pose proof (dh_seen _ _ _ _ Hd e ltac:(apply elem_of_app; by right)). unfold seq. lia. }
  destruct (Write_log_ok rnd taddr dataaddr (SetSequence updates seq) (w_sync w) d gs es1 seq ops (lg_log _ _ _ Hlg) (dh_mem _ _ _ _ Hd)
    Hbs Hfo Hlo ltac:(unfold seq; lia) ltac:(unfold seq; lia) Hold) as (mem' & log' & -> & Hm' & Hl').
  cbn [mbind option_bind db_vs set_memtables set_logfile]. unfold vs_SetLastSequence.
  rewrite (proj2 (Z.ltb_ge _ _)) by (unfold GetLastSequence; lia). cbn [mbind option_bind db_tmpbatch set_memtables set_logfile].
  assert ((if grouped then Some WriteBatch.clear else db_tmpbatch d) = db_tmpbatch d) as -> by (destruct grouped; [by rewrite Hg|done]).
  assert (GetLastSequence (db_vs d) + 1 + len ops <= kMaxSequenceNumber + 1) as Hsm by lia.
  eexists _, n. split; [done|]. split; [done|]. split; [|split; [|split]].
  - unfold popped. cbn. by rewrite Hw.
  - pose proof (db_holds_write dat d es1 es2 mem' log'
      (MkVersionSet (dummyversions (db_vs d)) (vs_nextfilenumber (db_vs d)) (manifestfilenumber (db_vs d)) (GetLastSequence (db_vs d) + len ops)
        (vs_lognumber (db_vs d)) (vs_prevlognumber (db_vs d)) (compactPointer (db_vs d)) (descriptorlog (db_vs d)))
      ops (db_tmpbatch d) (db_done d ++ map (fun w => (w_id w, OK)) (take (S n) (w :: rest))) (drop (S n) (w :: rest)) (db_bgerror d)
      Hd Hm' Hsm eq_refl eq_refl) as Hres.
    cbn in *. rewrite Hw. exact Hres.
  - split; [exact Hl'| |].
    + unfold group_entries. rewrite map_app, concat_app. cbn [map concat]. rewrite app_nil_r. f_equal. apply (lg_entries _ _ _ Hlg).
    + apply Forall_app. split; [apply (lg_fits _ _ _ Hlg)|]. apply Forall_singleton. cbn [fst snd]. unfold seq. split_and!; [exact Hfo|exact Hlo|lia|exact Hsm].
  - done.
Qed.

(** ** Runs of the write queue *)

(** The number of operations that wait. *)
Definition queue_count (ws : list Writer) : Z := foldr (fun w n => match w_batch w with Some b => Count b + n | None => n end) 0 ws.

(** Callers enter the queue, readers read, the writer at the front makes room and commits:
    the history is the writers that entered, in order, with their operations. *)
Inductive run (rnd : nat -> Z) (taddr dataaddr : Z) (dbname : bytes) (writebuffersize : Z) (d0 : DB (E := E) (F := F) (T := T))
    : list (Writer * list Op) -> DB (E := E) (F := F) (T := T) -> Prop :=
  | run_start : run rnd taddr dataaddr dbname writebuffersize d0 [] d0
  | run_enqueue h d w ops : run rnd taddr dataaddr dbname writebuffersize d0 h d -> carries w ops -> Forall op_fits ops -> len ops < 2 ^ 31 ->
      run rnd taddr dataaddr dbname writebuffersize d0 (h ++ [(w, ops)]) (Write_enqueue w d)
  | run_read h d snapshot u value st value' d' : run rnd taddr dataaddr dbname writebuffersize d0 h d -> len u + 8 < 2 ^ 32 ->
      match snapshot with Some s => 0 <= s <= kMaxSequenceNumber | None => True end ->
      Get c snapshot u value d = Some (st, value', d') -> run rnd taddr dataaddr dbname writebuffersize d0 h d'
  | run_switch h d force delay d' : run rnd taddr dataaddr dbname writebuffersize d0 h d ->
      MakeRoomForWrite_turn (G := G) dbname writebuffersize force delay d = Some (RoomSwitched d') ->
      run rnd taddr dataaddr dbname writebuffersize d0 h d'
  | run_commit h d d' : run rnd taddr dataaddr dbname writebuffersize d0 h d -> queue_count (db_writers d) < 2 ^ 31 ->
      Write_commit c rnd taddr dataaddr (G := G) OK d = Some d' ->
      run rnd taddr dataaddr dbname writebuffersize d0 h d'.

Abbreviation hops h := (concat (map snd h : list (list Op))).

(** The first [k] writers of the history are done, the others wait. *)
Record queue_state dat (d0 d : DB (E := E) (F := F) (T := T)) (es1 es2 : list MemEntry) (h : list (Writer * list Op)) (k : nat)
    (es1' es2' : list MemEntry) (gs : list group) : Prop := {
  qs_le : (k <= length h)%nat;
  qs_done : db_done d = map (fun x => (w_id x.1, OK)) (take k h);
  qs_writers : db_writers d = map fst (drop k h);
  qs_holds : db_holds dat d es1' es2';
  qs_logged : logged d es1' gs;
  qs_entries : es2' ++ es1' = (es2 ++ es1) ++ entries (GetLastSequence (db_vs d0) + 1) (hops (take k h));
  qs_last : GetLastSequence (db_vs d) = GetLastSequence (db_vs d0) + len (hops (take k h));
  qs_version : exists v v', current (db_vs d0) = Some v /\ current (db_vs d) = Some v' /\ same_version v v';
  qs_tmp : db_tmpbatch d = db_tmpbatch d0;
  qs_carries : Forall (fun x => carries x.1 x.2 /\ Forall op_fits x.2 /\ len x.2 < 2 ^ 31) h
}.

Lemma entries_app ops ops' : forall seq, entries seq (ops ++ ops') = entries seq ops ++ entries (seq + len ops) ops'.
Proof.
  induction ops as [|o ops IH]; intros seq; cbn [app entries length]; [by rewrite Z.add_0_r|]. rewrite IH.
  do 3 f_equal. lia.
Qed.

Lemma same_trans v1 v2 v3 : same_version v1 v2 -> same_version v2 v3 -> same_version v1 v3.
Proof.
  intros H12 H23 l. specialize (H12 l). specialize (H23 l). revert H12 H23. generalize (level_files v1 l), (level_files v2 l), (level_files v3 l).
  intros fs gs hs Hfg. revert hs. induction Hfg as [|f g fs gs (?&?&?&?) Hfg IH]; intros hs Hgh; inversion Hgh as [|? h ? hs' (?&?&?&?) Hgh']; subst;
    constructor; [split_and!; congruence|by apply IH].
Qed.

Lemma queue_switch (dbname : bytes) writebuffersize dat d0 d es1 es2 h k es1' es2' gs force delay d' :
  queue_state dat d0 d es1 es2 h k es1' es2' gs ->
  MakeRoomForWrite_turn (G := G) dbname writebuffersize force delay d = Some (RoomSwitched d') ->
  queue_state dat d0 d' es1 es2 h k [] es1' [].
Proof.
  intros [Hk Hdn Hws Hd Hlg He Hl (v & v' & Hv & Hv' & Hs) Ht Hcar] Hturn. unfold MakeRoomForWrite_turn in Hturn.
  destruct (ok (db_bgerror d)) eqn:Hbg; [|done]. cbn [negb] in Hturn.
  destruct (NumLevelFiles _ _) as [level0|]; [|done]. cbn [mbind option_bind] in Hturn.
  destruct (delay && _); [done|]. destruct (negb force && _); [done|]. case_bool_decide as Himm; [done|].
  destruct (_ <=? level0); [done|]. destruct (_ =? 0); [done|]. destruct (negb _); [done|].
  unfold NewFileNumber in Hturn. destruct (LogFileName _ _) as [name|]; [|done]. cbn [mbind option_bind] in Hturn.
  destruct (NewWritableFile (db_env d) name) as [[s [lfile|]] env] eqn:Hnew; destruct (ok s) eqn:Hos; try done. cbn [negb mbind option_bind] in Hturn.
  destruct (new_file_ok (G := G) (db_env d) name s lfile env Hnew Hos) as [Hh Hc].
  match type of Hturn with context [MaybeScheduleCompaction ?x] => destruct (MaybeScheduleCompaction_ok x) as [b Hb]; [by exists v'|]; rewrite Hb in Hturn end.
  cbn [mbind option_bind] in Hturn. injection Hturn as <-. pose proof (dh_imm _ _ _ _ Hd) as Hi.
  destruct (db_imm d) as [m|]; [by destruct Himm|]. subst es2'. cbn [app] in He.
  destruct Hd as [Hm _ Hver Htb Hso Hse Hla]. split; cbn; try done.
  - split; cbn; try done; [apply holds_make|by rewrite app_nil_r..].
  - by split; [apply log_holds_make| |].
  - by rewrite app_nil_r.
  - by exists v, v'.
Qed.

Lemma queue_count_ops (l : list (Writer * list Op)) : Forall (fun x => carries x.1 x.2 /\ Forall op_fits x.2 /\ len x.2 < 2 ^ 31) l ->
  queue_count (map fst l) = len (hops l).
Proof.
  intros Hl. induction Hl as [|[w ops] l (Hc & _ & Hn) Hl IH]; [done|]. cbn [queue_count map fst snd foldr concat]. fold (queue_count (map fst l)).
  rewrite IH, length_app. unfold carries in Hc. cbn [fst snd] in *. destruct (w_batch w) as [b|]; [|subst ops; cbn; lia].
  destruct Hc as [seq Hb]. rewrite (batch_Count b seq ops Hb Hn). lia.
Qed.

Lemma carries_list (l : list (Writer * list Op)) : Forall (fun x => carries x.1 x.2 /\ Forall op_fits x.2 /\ len x.2 < 2 ^ 31) l ->
  Forall2 carries (map fst l) (map snd l) /\ Forall (Forall op_fits) (map snd l).
Proof. intros Hl. induction Hl as [|[w ops] l (Hc & Hf & _) Hl [IH1 IH2]]; cbn; split; by constructor. Qed.

Lemma hops_take k n (h : list (Writer * list Op)) : hops (take (k + n) h) = hops (take k h) ++ concat (take n (map snd (drop k h))).
Proof. rewrite <- (take_take_drop h k n), map_app, concat_app. by rewrite <- fmap_take. Qed.

Lemma hops_le k (h : list (Writer * list Op)) : (length (hops (take k h)) + length (hops (drop k h)) = length (hops h))%nat.
Proof. by rewrite <- length_app, <- concat_app, <- map_app, take_drop. Qed.

(** A null batch is only waited for. *)
Lemma Write_commit_null rnd taddr dataaddr (d : DB (E := E) (F := F) (T := T)) w rest :
  db_writers d = w :: rest -> w_batch w = None ->
  Write_commit c rnd taddr dataaddr (G := G) OK d = Some (set_queue rest (db_tmpbatch d) (db_done d ++ [(w_id w, OK)]) d).
Proof. intros Hw Hb. unfold Write_commit. rewrite Hw, Hb. cbn. by rewrite Hw. Qed.

Lemma queue_commit rnd taddr dataaddr dat d0 d es1 es2 h k es1' es2' gs d' :
  queue_state dat d0 d es1 es2 h k es1' es2' gs -> db_tmpbatch d0 = None \/ db_tmpbatch d0 = Some WriteBatch.clear ->
  queue_count (db_writers d) < 2 ^ 31 -> GetLastSequence (db_vs d0) + len (hops h) <= kMaxSequenceNumber ->
  Write_commit c rnd taddr dataaddr (G := G) OK d = Some d' ->
  exists k' es1'' gs', queue_state dat d0 d' es1 es2 h k' es1'' es2' gs'.
Proof.
  intros [Hk Hdn Hws Hd Hlg He Hl Hver Ht Hcar] Htmp Hq Hmax Hcommit.
  pose proof (Forall_drop _ k _ Hcar) as Hcd. rewrite Hws, (queue_count_ops _ Hcd) in Hq.
  destruct (carries_list _ Hcd) as [Hc2 Hfit]. pose proof (hops_le k h) as Hle.
  destruct (drop k h) as [|[w ops] tl] eqn:Hdr; [unfold Write_commit in Hcommit; by rewrite Hws in Hcommit|].
  assert (k + S (length tl) = length h)%nat as Hkl by (pose proof (length_drop h k) as Hx; rewrite Hdr in Hx; cbn in Hx; lia).
  cbn [map fst snd] in *. destruct (w_batch w) as [b|] eqn:Hb.
  - destruct (Write_commit_ok rnd taddr dataaddr dat d es1' es2' gs w (map fst tl) (ops :: map snd tl) Hd Hlg Hws Hc2 ltac:(by eexists) Hfit Hq)
      as [(_ & _ & Hn)|(d1 & n & Hc & Hn & (Hw1 & Hd1 & Ht1 & _ & Hcur) & Hd2 & Hlg2 & Hl2)].
    + rewrite Hl. lia.
    + by rewrite Ht.
    + by rewrite Hn in Hcommit.
    + rewrite Hc in Hcommit. injection Hcommit as <-. rewrite length_map in Hn.
      set (ops' := concat (take (S n) (ops :: map snd tl))) in *.
      assert (hops (take (k + S n) h) = hops (take k h) ++ ops') as Hh by (rewrite hops_take, Hdr; done).
      assert (exists v v', current (db_vs d0) = Some v /\ current (db_vs d1) = Some v' /\ same_version v v') as Hver'.
      { by rewrite Hcur. }
      exists (k + S n)%nat, (es1' ++ entries (GetLastSequence (db_vs d) + 1) ops'), (gs ++ [(GetLastSequence (db_vs d) + 1, ops')]). split.
      * lia.
      * rewrite Hd1, Hdn, Hws, <- (take_take_drop h k (S n)), map_app, Hdr. f_equal. cbn [take map fst]. f_equal.
        rewrite <- fmap_take. unfold fmap. by rewrite <- (list_fmap_compose _ _ (take n tl)).
      * rewrite Hw1, Hws. cbn [drop]. rewrite <- drop_drop, Hdr. cbn [drop]. by rewrite <- fmap_drop.
      * done.
      * done.
      * rewrite Hh, entries_app, !(app_assoc es2'), He, <- (app_assoc (es2 ++ es1)). do 3 f_equal. lia.
      * rewrite Hl2, Hl, Hh, length_app. lia.
      * done.
      * by rewrite Ht1.
      * done.
  - rewrite (Write_commit_null rnd taddr dataaddr d w (map fst tl) Hws Hb) in Hcommit. injection Hcommit as <-.
    apply Forall2_cons in Hc2 as [Hcw _]. unfold carries in Hcw. rewrite Hb in Hcw. subst ops.
    assert (hops (take (k + 1) h) = hops (take k h)) as Hh by (rewrite hops_take, Hdr; cbn; by rewrite app_nil_r).
    exists (k + 1)%nat, es1', gs. split; cbn [db_done db_writers db_vs db_tmpbatch set_queue]; rewrite ?Hh; try done.
    + lia.
    + rewrite Hdn, <- (take_take_drop h k 1), map_app, Hdr. done.
    + rewrite <- drop_drop, Hdr. done.
    + by destruct Hd; split.
    + by destruct Hlg; split.
Qed.

Lemma queue_read dat d0 d es1 es2 h k es1' es2' gs snapshot u value st value' d' :
  queue_state dat d0 d es1 es2 h k es1' es2' gs -> len u + 8 < 2 ^ 32 ->
  match snapshot with Some s => 0 <= s <= kMaxSequenceNumber | None => True end ->
  Get c snapshot u value d = Some (st, value', d') -> queue_state dat d0 d' es1 es2 h k es1' es2' gs.
Proof.
  intros [Hk Hdn Hws Hd Hlg He Hl (v & v1 & Hv & Hv1 & Hs) Ht Hcar] Hu Hsn Hget.
  destruct (Get_ok dat d es1' es2' snapshot u value Hd Hu Hsn) as (st2 & value2 & d2 & Hget2 & _ & Hd2 & (vs & tables & b & v2 & v3 & -> & Hls & _ & Hc2 & Hc3 & Hs2)).
  rewrite Hget in Hget2. injection Hget2 as -> -> ->. rewrite Hv1 in Hc2. injection Hc2 as <-.
  split; cbn; try done.
  - by destruct Hlg; split.
  - by rewrite Hls.
  - exists v, v3. split; [done|]. split; [done|]. by apply (same_trans v v1).
Qed.

Lemma queue_enqueue dat d0 d es1 es2 h k es1' es2' gs w ops :
  queue_state dat d0 d es1 es2 h k es1' es2' gs -> carries w ops -> Forall op_fits ops -> len ops < 2 ^ 31 ->
  queue_state dat d0 (Write_enqueue w d) es1 es2 (h ++ [(w, ops)]) k es1' es2' gs.
Proof.
  intros [Hk Hdn Hws Hd Hlg He Hl Hver Ht Hcar] Hc Hf Hn.
  assert (take k (h ++ [(w, ops)]) = take k h) as Htk by (by rewrite take_app_le).
  split; cbn; rewrite ?Htk; try done.
  - rewrite length_app. lia.
  - by rewrite drop_app_le, map_app, Hws.
  - by destruct Hd; split.
  - by destruct Hlg; split.
  - apply Forall_app. split; [done|]. by apply Forall_singleton.
Qed.

Lemma run_state rnd taddr dataaddr dbname writebuffersize dat d0 es1 es2 gs0 h d :
  db_holds dat d0 es1 es2 -> logged d0 es1 gs0 -> db_writers d0 = [] -> db_done d0 = [] ->
  db_tmpbatch d0 = None \/ db_tmpbatch d0 = Some WriteBatch.clear ->
  run rnd taddr dataaddr dbname writebuffersize d0 h d -> GetLastSequence (db_vs d0) + len (hops h) <= kMaxSequenceNumber ->
  exists k es1' es2' gs, queue_state dat d0 d es1 es2 h k es1' es2' gs.
Proof.
  intros Hd Hlg Hw Hdn Ht Hrun. induction Hrun as [|h d w ops Hrun IH Hc Hf Hn|h d sn u value st value' d' Hrun IH Hu Hsn Hget
    |h d force delay d' Hrun IH Hturn|h d d' Hrun IH Hq Hcommit]; intros Hmax.
  - exists 0%nat, es1, es2, gs0. split; try done; [by rewrite app_nil_r|by rewrite Z.add_0_r|].
    destruct (dh_version _ _ _ _ Hd) as (v & Hv & _). exists v, v. split; [done|]. split; [done|]. intros l. apply same_refl.
  - destruct IH as (k & e1 & e2 & gs & Hs).
    { rewrite map_app, concat_app, length_app in Hmax. lia. }
    exists k, e1, e2, gs. by apply queue_enqueue.
  - destruct (IH Hmax) as (k & e1 & e2 & gs & Hs). exists k, e1, e2, gs. by eapply queue_read.
  - destruct (IH Hmax) as (k & e1 & e2 & gs & Hs). exists k, [], e1, []. by eapply queue_switch.
  - destruct (IH Hmax) as (k & e1 & e2 & gs & Hs). destruct (queue_commit rnd taddr dataaddr dat d0 d es1 es2 h k e1 e2 gs d' Hs Ht Hq Hmax Hcommit)
      as (k' & e1' & gs' & Hs'). by exists k', e1', e2, gs'.
Qed.

(** What is read in a state of the queue: the last operation that was committed, or what
    was there before. *)
Lemma queue_get dat d0 d es1 es2 h k es1' es2' gs u value : db_holds dat d0 es1 es2 ->
  queue_state dat d0 d es1 es2 h k es1' es2' gs -> len u + 8 < 2 ^ 32 ->
  exists st value' d', Get c None u value d = Some (st, value', d') /\
    match last_op (c := c) u (hops (take k h)) with
    | Some (OpPut _ v) => st = OK /\ value' = v
    | Some (OpDelete _) => st = NotFound [] [] /\ value' = value
    | None => read_result dat d0 es1 es2 u (GetLastSequence (db_vs d0)) value st value'
    end.
Proof.
  intros Hd0 [Hk Hdn Hws Hd Hlg He Hl (v & v1 & Hv & Hv1 & Hs) Ht Hcar] Hu.
  destruct (Get_ok dat d es1' es2' None u value Hd Hu I) as (st & value' & d' & Hget & Hres & _). exists st, value', d'. split; [done|].
  set (seq := GetLastSequence (db_vs d0) + 1) in *. set (ops := hops (take k h)) in *.
  assert (forall e, in_db dat d es1' es2' e <-> in_db dat d0 es1 es2 e \/ exists a, a ∈ entries seq ops /\ e = mem_ientry a) as Hin.
  { intros e. unfold in_db. rewrite He. split.
    - intros [(a & Ha & ->)|(v' & Hv' & He')].
      + apply elem_of_app in Ha as [Ha|Ha]; [left; left|right]; by exists a.
      + left. right. exists v. split; [done|]. rewrite Hv1 in Hv'. injection Hv' as <-.
        apply (same_in_version dat v1 v); [|done]. intros l. by apply same_sym.
    - intros [[(a & Ha & ->)|(v' & Hv' & He')]|(a & Ha & ->)].
      + left. exists a. split; [apply elem_of_app; by left|done].
      + right. exists v1. split; [done|]. rewrite Hv in Hv'. injection Hv' as <-. by apply (same_in_version dat v v1).
      + left. exists a. split; [apply elem_of_app; by right|done]. }
  assert (forall e, in_db dat d0 es1 es2 e -> sequence e.1 < seq) as Hold.
  { intros e [(a & Ha & ->)|(v' & Hv' & He')].
    - pose proof (dh_seen _ _ _ _ Hd0 a Ha). unfold seq. cbn. lia.
    - destruct (dh_version _ _ _ _ Hd0) as (v2 & Hv2 & _ & Hnew). rewrite Hv' in Hv2. injection Hv2 as <-.
      destruct (Hnew e He') as [Hle _]. unfold seq. lia. }
  cbn in Hres. destruct (last_op u ops) as [o|] eqn:Hlast.
  - destruct (last_op_Some u seq ops o Hlast) as (q & Hq & Hc & Hmaxq). pose proof (entries_sequence _ _ _ Hq) as Hqs.
    rewrite sequence_op_entry in Hqs.
    assert (visible c u (GetLastSequence (db_vs d)) (mem_ientry (op_entry q o))) as Hvis.
    { split; cbn; [by rewrite userkey_op_entry|]. rewrite sequence_op_entry, Hl. unfold seq in *. fold ops. lia. }
    assert (in_db dat d es1' es2' (mem_ientry (op_entry q o))) as Hino by (apply Hin; right; by eexists).
    destruct Hres as [(e & (Hine & Hvise & Hmaxe) & Hout)|(_ & _ & Hno)]; [|by destruct (Hno _ Hino)].
    specialize (Hmaxe _ Hino Hvis). cbn in Hmaxe. rewrite sequence_op_entry in Hmaxe.
    apply Hin in Hine as [Hine|(a & Ha & ->)]; [specialize (Hold e Hine); lia|].
    destruct (Hmaxq a Ha ltac:(apply Hvise)) as [->|Hlt]; [|cbn in Hmaxe; lia]. by destruct o.
  - assert (forall e, visible c u (GetLastSequence (db_vs d)) e -> in_db dat d es1' es2' e ->
      in_db dat d0 es1 es2 e /\ visible c u (GetLastSequence (db_vs d0)) e) as Hback.
    { intros e [Hce Hle] He'. apply Hin in He' as [He'|(a & Ha & ->)]; [|by destruct (last_op_None u seq ops a Hlast Ha)].
      split; [done|]. split; [done|]. specialize (Hold e He'). unfold seq in Hold. lia. }
    assert (forall e, visible c u (GetLastSequence (db_vs d0)) e -> visible c u (GetLastSequence (db_vs d)) e) as Hfwd.
    { intros e [Hce Hle]. split; [done|]. rewrite Hl. lia. }
    destruct Hres as [(e & (Hine & Hvise & Hmaxe) & Hout)|(Hst & Hva & Hno)].
    + destruct (Hback e Hvise Hine) as [Hi0 Hv0]. left. exists e. split; [|done]. split; [done|]. split; [done|].
      intros e' He' Hvis'. apply Hmaxe; [apply Hin; by left|by apply Hfwd].
    + right. split; [done|]. split; [done|]. intros e He' Hvis'. apply (Hno e); [apply Hin; by left|by apply Hfwd].
Qed.

End Contents.

(** ** Theorems *)


(** ** A concrete database, without tables *)

#[local] Instance no_tables : TableSource unit := { tget t _ _ _ := Some (OK, None, t) }.

Definition no_serves (num size : Z) (es : list ientry) : Prop := es = [].

#[local] Instance no_tables_ok : TableSourceOk unit BytewiseComparatorImpl (fun _ => True) no_serves.
Proof.
  split. intros [] num size es u s _ -> _. exists None, tt. split; [done|]. split; [done|]. right. split; [|done].
  intros e He. by apply not_elem_of_nil in He.
Qed.

#[local] Instance db_append : AppendFile WritableFile := WritableFile_append demo_strerror.
#[local] Instance db_append_ok : AppendFileOk WritableFile := WritableFile_ok demo_strerror.
#[local] Instance db_read : ReadFile SequentialFile := SequentialFile_read demo_strerror.
#[local] Instance db_env_ : FileEnv MemDir WritableFile SequentialFile := MemDir_env demo_strerror.
#[local] Instance db_env_ok : FileEnvOk MemDir WritableFile SequentialFile := MemDir_ok demo_strerror.

Abbreviation demo_DB := (DB (E := MemDir) (F := WritableFile) (T := unit)).

Definition demo_db (tmp : option WriteBatch) : demo_DB :=
  MkDB MemTable_make None VersionSet_make tt [] (LogWriter_make (MkWritableFile [] [] [] (str "db/000003.log")) 0) 3 OK [] tmp [] false false false [].

Definition put_writer (id : nat) (k v : bytes) : Writer := MkWriter id (Some (Put WriteBatch.clear k v)) false.

Definition demo_commit (d : demo_DB) : option demo_DB := Write_commit BytewiseComparatorImpl demo_rnd 1 2 (G := SequentialFile) OK d.

(** A version without files. *)
Lemma Version_make_no_files level : level_files Version_make level = [].
Proof.
  unfold level_files, Version_make. cbn [vfiles]. rewrite list_lookup_total_alt.
  destruct (_ !! _) as [fs|] eqn:Hf; [|done]. by apply lookup_replicate in Hf as [-> _].
Qed.

Lemma Version_make_ok {ucmp : Comparator} {serves} data : version_ok (ucmp := ucmp) (serves := serves) Version_make data.
Proof.
  split; intros *; rewrite ?Version_make_no_files; try (intros; by match goal with H : _ ∈ [] |- _ => apply not_elem_of_nil in H end); [|constructor].
  intros _. split; [constructor|constructor|done].
Qed.

Lemma Version_make_empty data e : ~ in_version Version_make data e.
Proof. intros (level & f & _ & Hf & _). rewrite Version_make_no_files in Hf. by apply not_elem_of_nil in Hf. Qed.

Lemma demo_db_holds tmp : db_holds (c := BytewiseComparatorImpl) (good := fun _ => True) (serves := no_serves) (fun _ => []) (demo_db tmp) [] [].
Proof.
  split; cbn; try done; [apply holds_make| |constructor|].
  - exists (Version_make). split; [done|]. split; [apply Version_make_ok|]. intros e He. by apply Version_make_empty in He.
  - intros a Ha. by apply not_elem_of_nil in Ha.
Qed.

Lemma demo_logged tmp : logged (demo_db tmp) [] [].
Proof. split; [|done|constructor]. apply log_holds_make; [constructor|done]. Qed.

Definition ran : option demo_DB -> demo_DB := default (demo_db None).
Definition demo_written : demo_DB := ran (demo_commit (Write_enqueue (put_writer 1 (str "a") (str "1")) (demo_db None))).

Lemma demo_carries id k v : carries (put_writer id k v) [OpPut k v].
Proof. exists 0. apply (batch_op WriteBatch.clear 0 [] (OpPut k v)); [apply batch_clear|done]. Qed.

Lemma demo_run : run (c := BytewiseComparatorImpl) (G := SequentialFile) demo_rnd 1 2 (str "db") 4096 (demo_db None)
  ([] ++ [(put_writer 1 (str "a") (str "1"), [OpPut (str "a") (str "1")])]) demo_written.
Proof.
  eapply run_commit; [eapply run_enqueue; [apply run_start|apply demo_carries| |]|..].
  - constructor; [|constructor]. by vm_compute.
  - done.
  - done.
  - unfold demo_written, ran, demo_commit. destruct (Write_commit _ _ _ _ _ _) eqn:Hc; [done|]. exfalso. revert Hc. by vm_compute.
Qed.


(** A group of two batches is put together in [tmpbatch], which the constructor leaves null. *)
Example group_needs_tmpbatch : let queue d := Write_enqueue (put_writer 2 (str "b") (str "2")) (Write_enqueue (put_writer 1 (str "a") (str "1")) d) in
  demo_commit (queue (demo_db None)) = None /\ db_done (ran (demo_commit (queue (demo_db (Some WriteBatch.clear))))) = [(1%nat, OK); (2%nat, OK)].
Proof. split; by vm_compute. Qed.
