(* ===== verification/Flush.v ===== *)
(** Flushing a memtable: building its table, adding it to the version, and deleting the
    files that nothing needs any more (redisdb/db/db.cc: [BuildTable], [WriteLevel0Table],
    [CompactMemTable], [DeleteObsoleteFiles]).

    The mutex is released while the table is built.  What the other threads do meanwhile is
    a parameter, [others]: the database they leave behind. *)
From Stdlib Require Import Sorted Permutation.
From stdpp Require Import gmap sorting sets.
From S2P Require Import Prelude Coding Status Env DbFormat Block TableFormat LogFormat LruCache Iterators SkipList MemTable WriteBatch VersionEdit FileIO FileName Table Version TableCache VersionBuilder VersionSet Database.
Local Open Scope Z_scope.

(** What the table cache is used for besides lookups: opening a table, for its status, and
    forgetting a file. *)
Class TableOpener (T : Type) := {
  topen : T -> Z -> Z -> option (Status * T);      (* the status of [NewIterator(number, size)] *)
  tevict : T -> Z -> option T;
}.

Section Flush.
Context (c : Comparator) (taddr recordaddr : Z).
Context {E F G T : Type} `{FileEnv E F G} `{AppendFile F} `{ReadFile G} `{TableOpener T}.
Context (compress : bytes -> option bytes) (interval blocksize : Z) (compression : CompressionType) (addr : Z).
(** [dbname] and the options. *)
Context (dbname : bytes) (maxfilesize : Z).

Abbreviation icmp := (InternalKeyComparator c).
Abbreviation DBState := (DB (E := E) (F := F) (T := T)).

Definition set_pendingoutputs (pending : list Z) (d : DBState) : DBState :=
  MkDB (db_mem d) (db_imm d) (db_vs d) (db_tables d) (db_env d) (db_log d) (db_logfilenumber d) (db_bgerror d) (db_writers d)
    (db_tmpbatch d) (db_done d) (db_scheduled d) (db_shuttingdown d) (db_manual d) pending.

(** ** Building the table of a memtable *)

(** The loop over the memtable: the builder and [meta->largest]. *)
Fixpoint build_loop (fuel : nat) (m : MemTable) (iter : option nat) (builder : TableBuilder (F := F)) (largest : InternalKey)
    : option (TableBuilder (F := F) * InternalKey) :=
  match fuel with
  | O => None
  | S fuel =>
      if Valid iter then
        let? key := mem_key m iter in
        let? value := mem_value m iter in
        let? builder := TableBuilder_Add compress icmp interval blocksize compression addr builder key value in
        build_loop fuel m (mem_Next m iter) builder key
      else Some (builder, largest)
  end.

(** [BuildTable] up to the closing of the file: its status, [meta] and the file. *)
Definition BuildTable_file (m : MemTable) (num : Z) (env : E) : option (Status * FileMetaData * option F * E) :=
  let meta := FileMetaData_make num 0 [] [] in
  let iter := mem_SeekToFirst m in
  let? fname := TableFileName dbname num in
  let '(s, file, env) := NewWritableFile (F := F) (G := G) env fname in
  if negb (ok s) then Some (s, meta, None, env)
  else
    let? file := file in
    let? smallest := mem_key m iter in
    let? (builder, largest) := build_loop (stdpp.base.size (heap (table m))) m iter (TableBuilder_make file) [] in
    let? builder := TableBuilder_Finish compress icmp compression addr builder in
    let s := status builder in
    let? filesize :=
      if ok s then (if 0 <? TableFormat.filesize builder then Some (TableFormat.filesize builder) else None) else Some 0 in
    let meta := FileMetaData_make num filesize smallest largest in
    let '(s, file) := if ok s then fsync (E := E) (G := G) (tfile builder) else (s, tfile builder) in
    let '(s, file) := if ok s then fclose (E := E) (G := G) file else (s, file) in
    Some (s, meta, Some file, env).

Definition BuildTable (m : MemTable) (num : Z) (env : E) (tables : T) : option (Status * FileMetaData * E * T) :=
  let? (s, meta, file, env) := BuildTable_file m num env in
  match file with
  | None => Some (s, meta, env, tables)      (* the file could not be created *)
  | Some _ =>
      let? (s, tables) := if ok s then topen tables num (filesize meta) else Some (s, tables) in
      if ok s && (0 <? filesize meta) then Some (s, meta, env, tables)
      else
        let? fname := TableFileName dbname num in
        Some (s, meta, (RemoveFile (F := F) (G := G) env fname).2, tables)
  end.

(** [WriteLevel0Table].  The status of [BuildTable] goes to a variable of the inner block,
    and what is returned is the outer one. *)
Definition WriteLevel0Table (others : DBState -> DBState) (m : MemTable) (edit : VersionEdit) (base : option Version) (d : DBState)
    : option (Status * VersionEdit * DBState) :=
  let '(num, vs) := NewFileNumber (db_vs d) in
  let d := set_versions vs (db_tables d) (db_env d) d in
  let d := set_pendingoutputs (set_insert Z.ltb num (db_pending d)) d in
  let s := OK in
  let d := others d in
  let? (_, meta, env, tables) := BuildTable m num (db_env d) (db_tables d) in
  let d := set_versions (db_vs d) tables env d in
  if bool_decide (num ∉ db_pending d) then None
  else
    let d := set_pendingoutputs (filter (fun n => n <> num) (db_pending d)) d in
    let? edit :=
      if ok s && (0 <? filesize meta) then
        let minUserKey := ExtractUserKey (smallest meta) in
        let maxUserKey := ExtractUserKey (largest meta) in
        let? level :=
          match base with
          | Some base => PickLevelForMemTableOutput c base maxfilesize minUserKey maxUserKey
          | None => Some 0
          end in
        Some (AddFile edit level (number meta) (filesize meta) (smallest meta) (largest meta))
      else Some edit in
    Some (s, edit, d).

(** ** Deleting obsolete files *)

Definition keep_file (d : DBState) (live : list Z) (number : Z) (type : FileType) : bool :=
  match type with
  | kLogFile => (vs_lognumber (db_vs d) <=? number) || (number =? vs_prevlognumber (db_vs d))
  | kDescriptorFile => manifestfilenumber (db_vs d) <=? number
  | kTableFile => bool_decide (number ∈ live)
  | kTempFile => bool_decide (number ∈ live)
  | kCurrentFile | kDBLockFile | kInfoLogFile => true
  end.

Fixpoint delete_loop (live : list Z) (filenames : list bytes) (d : DBState) : option DBState :=
  match filenames with
  | [] => Some d
  | name :: filenames =>
      match ParseFileName name with
      | Some (number, type) =>
          if keep_file d live number type then delete_loop live filenames d
          else
            let? tables := if decide (type = kTableFile) then tevict (db_tables d) number else Some (db_tables d) in
            let '(_, env) := RemoveFile (F := F) (G := G) (db_env d) (dbname ++ str "/" ++ name) in
            delete_loop live filenames (set_versions (db_vs d) tables env d)
      | None => delete_loop live filenames d
      end
  end.

Definition DeleteObsoleteFiles (d : DBState) : option DBState :=
  let live := AddLiveFiles (db_vs d) (db_pending d) in
  let '(_, filenames) := GetChildren (F := F) (G := G) (db_env d) dbname in
  delete_loop live filenames d.

(** ** Flushing *)

Definition CompactMemTable (others : DBState -> DBState) (d : DBState) : option DBState :=
  let? m := db_imm d in
  let? base := current (db_vs d) in
  let? (s, edit, d) := WriteLevel0Table others m VersionEdit_make (Some base) d in
  let s := if ok s && db_shuttingdown d then IOError (str "Deleting DB during memtable compaction" ++ [x0a]) [] else s in
  let? (s, d) :=
    if ok s then
      let edit := SetLogNumber (SetPrevLogNumber edit 0) (db_logfilenumber d) in
      let? (s, _, vs, env) := LogAndApply c taddr recordaddr (G := G) dbname edit (db_vs d) (db_env d) in
      Some (s, set_versions vs (db_tables d) env d)
    else Some (s, d) in
  if ok s then DeleteObsoleteFiles (set_memtables (db_mem d) None d)
  else Some (RecordBackgroundError s d).
End Flush.

(** ** The contract of the opener *)

(** [finished es data]: [data] is a finished table of [es].  [opens_to num data]: the
    environment opens the table file [num] to [data]. *)
Class TableOpenerOk (T : Type) `{TableOpener T} (c : Comparator) (good : T -> Prop) (serves : Z -> Z -> list ientry -> Prop)
    (finished : list ientry -> bytes -> Prop) (opens_to : Z -> bytes -> Prop) : Prop := {
  topen_ok t num es data : good t -> 0 < num < 2 ^ 64 -> opens_to num data -> finished es data ->
    StronglySorted (key_lt (c := InternalKeyComparator c)) (map entry_of es) ->
    Forall (fun e => 0 <= sequence e.1 <= kMaxSequenceNumber) es ->
    serves num (Z.of_nat (length data)) es /\
    exists t', topen t num (Z.of_nat (length data)) = Some (OK, t') /\ good t';
  tevict_ok t num : good t -> exists t', tevict t num = Some t' /\ good t'
}.

Lemma StronglySorted_map_in {A B} (R : A -> A -> Prop) (R2 : B -> B -> Prop) (f : A -> B) l :
  (forall x y, x ∈ l -> y ∈ l -> R x y -> R2 (f x) (f y)) -> StronglySorted R l -> StronglySorted R2 (map f l).
Proof.
  intros Hf Hs. induction Hs as [|a l Hs IH Ha]; cbn [map]; constructor.
  - apply IH. intros x y Hx Hy. apply Hf; by right.
  - apply Forall_forall. intros y (x & -> & Hx)%list_elem_of_fmap. apply Hf; [by left|by right|by apply (proj1 (Forall_forall _ _) Ha)].
Qed.

Lemma NoDup_fmap_inj {A B} (f : A -> B) l x y : NoDup (f <$> l) -> x ∈ l -> y ∈ l -> f x = f y -> x = y.
Proof.
  intros Hn. induction l as [|a l IH]; [by intros ?%not_elem_of_nil|]. rewrite fmap_cons in Hn. apply NoDup_cons in Hn as [Ha Hn].
  assert (forall z, z ∈ l -> f z <> f a) as Hne by (intros z Hz Heq; apply Ha; rewrite <- Heq; by apply list_elem_of_fmap_2).
  intros [->|Hx]%elem_of_cons [->|Hy]%elem_of_cons Heq; [done|by destruct (Hne y Hy)|by destruct (Hne x Hx)|by apply IH].
Qed.

Section Building.
Context {c : Comparator} {Hok : ComparatorOk c (fun _ => True)} {Hshort : ComparatorShort (InternalKeyComparator c) internal_dom}.
Context {E F G : Type} `{FileEnv E F G} `{AppendFileOk F} {HE : FileEnvOk E F G} `{ReadFile G}.
Context {compress : bytes -> option bytes} {length_of : bytes -> option Z} {uncompress : bytes -> option bytes}.
Context {Hsnappy : SnappyOk compress length_of uncompress}.
Context (interval blocksize : Z) (compression : CompressionType) (addr : Z) (dbname : bytes).
Hypothesis Hinterval : 1 <= interval.

Abbreviation icmp := (InternalKeyComparator c).

Definition finished (es : list ientry) (data : bytes) : Prop :=
  exists blocks idx meta ih, table_file (c := icmp) (length_of := length_of) (uncompress := uncompress)
    (map entry_of es) data blocks idx meta ih.

Abbreviation mem_entry e := (entry_of (mem_ientry e)).

Lemma VarintLength_loop_ge fuel : forall v n, n <= VarintLength_loop fuel v n.
Proof. induction fuel as [|fuel IH]; intros v n; cbn [VarintLength_loop]; [lia|]. case_match; [|lia]. specialize (IH (Z.shiftr v 7) (n + 1)). lia. Qed.

Lemma encodedlen_ge k v : 10 + Z.of_nat (length k) + Z.of_nat (length v) <= encodedlen k v.
Proof.
  unfold encodedlen, VarintLength. pose proof (VarintLength_loop_ge 9 (Z.of_nat (length k) + 8) 1).
  pose proof (VarintLength_loop_ge 9 (Z.of_nat (length v)) 1). lia.
Qed.

(** A memtable's table is not much larger than the memtable. *)
Lemma mem_weight es : weight (map entry_of (map mem_ientry es)) <= 5 * usage es.
Proof.
  unfold weight, usage. induction es as [|e es IH]; cbn [map foldr]; [lia|]. unfold entry_of at 1 2. cbn [mem_ientry fst snd].
  rewrite length_AppendInternalKey. pose proof (encodedlen_ge (userkey (mkey e)) (mvalue e)). lia.
Qed.

Lemma usage_perm es es' : es ≡ₚ es' -> usage es = usage es'.
Proof. unfold usage. induction 1; cbn [foldr]; lia. Qed.

(** The keys and values of a memtable in order, and the loop over them. *)
Definition last_key (largest : InternalKey) (es : list MemEntry) : InternalKey :=
  match last es with Some e => AppendInternalKey [] (mkey e) | None => largest end.

Lemma last_key_cons largest e es : last_key largest (e :: es) = last_key (AppendInternalKey [] (mkey e)) es.
Proof. unfold last_key. rewrite last_cons. by destruct (last es). Qed.

Lemma build_loop_eq m (sorted : list MemEntry) pos :
  (forall i, Valid (pos i) = (i <? length sorted)%nat) ->
  (forall i e, sorted !! i = Some e -> mem_key m (pos i) = Some (AppendInternalKey [] (mkey e)) /\
     mem_value m (pos i) = Some (mvalue e) /\ mem_Next m (pos i) = pos (S i)) ->
  forall fuel i (b : TableBuilder (F := F)) largest, (i <= length sorted < i + fuel)%nat ->
  build_loop c compress interval blocksize compression addr fuel m (pos i) b largest =
    let? b := Add_all (c := icmp) (compress := compress) interval blocksize compression addr b (map entry_of (map mem_ientry (drop i sorted))) in
    Some (b, last_key largest (drop i sorted)).
Proof.
  intros Hv He fuel. induction fuel as [|fuel IH]; intros i b largest Hf.
  - lia.
  - cbn [build_loop]. rewrite Hv. destruct (Nat.ltb_spec i (length sorted)) as [Hi|Hi].
    2:{ by rewrite drop_ge by lia. }
    destruct (lookup_lt_is_Some_2 sorted i Hi) as [e Hie]. destruct (He i e Hie) as (-> & -> & ->). cbn [mbind option_bind].
    rewrite (drop_S _ e i Hie). cbn [map Add_all]. change (entry_of (mem_ientry e)) with (AppendInternalKey [] (mkey e), mvalue e). cbv iota beta.
    destruct (TableBuilder_Add _ _ _ _ _ _ _ _ _) as [b1|]; [|done]. cbn [mbind option_bind].
    rewrite IH by lia. by rewrite last_key_cons.
Qed.

(** The table of a sorted list of entries that begins with [first]. *)
Definition build_sorted (first : MemEntry) (sorted : list MemEntry) (num : Z) (env : E) : option (Status * FileMetaData * option F * E) :=
  let? fname := TableFileName dbname num in
  let '(s, file, env) := NewWritableFile (F := F) (G := G) env fname in
  if negb (ok s) then Some (s, FileMetaData_make num 0 [] [], None, env)
  else
    let? file := file in
    let? builder := Add_all (c := icmp) (compress := compress) interval blocksize compression addr (TableBuilder_make file) (map entry_of (map mem_ientry sorted)) in
    let? builder := TableBuilder_Finish compress icmp compression addr builder in
    let s := status builder in
    let? filesize :=
      if ok s then (if 0 <? TableFormat.filesize builder then Some (TableFormat.filesize builder) else None) else Some 0 in
    let meta := FileMetaData_make num filesize (AppendInternalKey [] (mkey first)) (last_key [] sorted) in
    let '(s, file) := if ok s then fsync (E := E) (G := G) (tfile builder) else (s, tfile builder) in
    let '(s, file) := if ok s then fclose (E := E) (G := G) file else (s, file) in
    Some (s, meta, Some file, env).

(** A memtable's table is that of its entries in order. *)
Lemma BuildTable_file_eq m es num env : holds c m es -> es <> [] ->
  exists sorted first, sorted ≡ₚ es /\ StronglySorted (fun a b => entry_compare c (mkey a) (mkey b) = Lt) sorted /\ sorted !! 0%nat = Some first /\
    BuildTable_file c (G := G) compress interval blocksize compression addr dbname m num env = build_sorted first sorted num env.
Proof.
  intros Hm Hne. destruct (mem_walk m es Hm) as (sorted & pos & Hp & Hs & Hfirst & _ & Hv & He & _ & Hsize & _).
  destruct (sorted !! 0%nat) as [first|] eqn:H0'; [|destruct sorted; [by apply Permutation_nil_l in Hp|done]].
  exists sorted, first. split; [done|]. split; [done|]. split; [done|]. unfold BuildTable_file, build_sorted.
  destruct (TableFileName dbname num) as [fname|]; [|done]. cbn [mbind option_bind]. destruct (NewWritableFile env fname) as [[s [file|]] env1]; [|done].
  destruct (ok s); [|done]. cbn [negb mbind option_bind]. rewrite Hfirst, (proj1 (He _ _ H0')). cbn [mbind option_bind].
  rewrite (build_loop_eq m sorted pos Hv) by (try (intros i e Hie; destruct (He i e Hie) as (? & ? & ? & _); done); lia).
  rewrite drop_0. by destruct (Add_all _ _ _ _ _ _).
Qed.

(** The file of a memtable's table. *)
Lemma BuildTable_file_ok m es num env f env' : holds c m es -> es <> [] -> 5 * GetMemoryUsage m + 300 < 2 ^ 32 -> 0 < num ->
  (forall name, TableFileName dbname num = Some name -> NewWritableFile (G := G) env name = (OK, Some f, env')) ->
  exists sorted first f', sorted ≡ₚ es /\ StronglySorted (key_lt (c := icmp)) (map entry_of (map mem_ientry sorted)) /\
    sorted !! 0%nat = Some first /\ finished (map mem_ientry sorted) (contents f') /\
    BuildTable_file c (G := G) compress interval blocksize compression addr dbname m num env =
      Some (OK, FileMetaData_make num (Z.of_nat (length (contents f'))) (AppendInternalKey [] (mkey first)) (last_key [] sorted),
        Some f', env').
Proof.
  intros Hm Hne Hu Hnum Hnew. destruct (BuildTable_file_eq m es num env Hm Hne) as (sorted & first & Hp & Hs & H0' & ->).
  destruct Hm as (Hfit & Husage & _). assert (Forall fits sorted) as Hfs by (by rewrite Hp). rewrite Forall_forall in Hfs.
  assert (StronglySorted (key_lt (c := icmp)) (map entry_of (map mem_ientry sorted))) as Hss.
  { rewrite map_map. apply (StronglySorted_map_in (fun a b => entry_compare c (mkey a) (mkey b) = Lt)); [|done].
    intros a b Ha Hb Hab. unfold key_lt, entry_of. cbn [fst snd mem_ientry Compare InternalKeyComparator]. rewrite Internal_Compare_Append; [done|by apply Hfs..]. }
  pose proof (usage_perm _ _ Hp) as Hus.
  unfold build_sorted. rewrite TableFileName_Some by done. cbn [mbind option_bind].
  rewrite (Hnew _ (TableFileName_Some dbname num Hnum)). cbn [ok OK negb mbind option_bind].
  destruct (new_file_ok _ _ _ _ _ (Hnew _ (TableFileName_Some dbname num Hnum)) eq_refl) as [Hh Hc].
  destruct (table_built (c := icmp) (dom := internal_dom) (compress := compress) (length_of := length_of) (uncompress := uncompress)
    interval blocksize compression addr Hinterval f (map entry_of (map mem_ientry sorted)) Hh Hc) as
    (b & b' & blocks & idx & meta & ih & Hadd & Hfin & Hst & Hcl & Hhe & Hsz & Htf).
  { split; [done|]. apply Forall_forall. intros x (e & -> & _)%list_elem_of_fmap. unfold entry_of. cbn [fst].
    rewrite length_AppendInternalKey. lia. }
  { pose proof (mem_weight sorted). unfold GetMemoryUsage in Hu. lia. }
  rewrite Hadd. cbn [mbind option_bind]. rewrite Hfin. cbn [mbind option_bind].
  unfold status. rewrite Hst. cbn [ok OK].
  assert (0 < TableFormat.filesize b') as Hpos.
  { rewrite Hsz. destruct (tf_footer _ _ _ _ _ _ Htf) as [body ->]. rewrite length_app, length_footer_bytes. lia. }
  rewrite (proj2 (Z.ltb_lt _ _) Hpos). cbn [mbind option_bind].
  destruct (fsync_ok (tfile b') Hhe) as (f1 & -> & Hh1 & Hc1). cbn [ok OK]. destruct (fclose_ok f1 Hh1) as (f2 & -> & Hc2).
  exists sorted, first, f2. rewrite Hc2, Hc1, <- Hsz. split_and!; try done. exists blocks, idx, meta, ih. done.
Qed.
End Building.

(** ** A version with one more file *)

Section Adding.
Context {c : Comparator} {Hok : ComparatorOk c (fun _ => True)}.
Context {T : Type} `{TableSource T} {good : T -> Prop} {serves : Z -> Z -> list ientry -> Prop} {HT : TableSourceOk T c good serves}.
Context (dat : Z -> list ientry) (v v' : Version) (L : Z) (f : file) (added : list ientry).

Definition dat_add (num m : Z) : list ientry := if m =? num then added else dat m.

Abbreviation data := (fun g : file => dat (number g)).
Abbreviation data' := (fun g : file => dat_add (number f) (number g)).
Abbreviation su f := (FUserKey (smallest f)).
Abbreviation lu f := (FUserKey (largest f)).

Hypothesis Hvo : version_ok (ucmp := c) (serves := serves) v data.
Hypothesis Hwf : version_wf (ucmp := c) v'.
Hypothesis HL : is_level L.
Hypothesis Hlevels : forall K g, is_level K -> g ∈ level_files v' K <-> g ∈ level_files v K \/ (K = L /\ g = norm f).
Hypothesis Hnum : forall K g, is_level K -> g ∈ level_files v K -> number g < number f.
Hypothesis Hno : 0 < L -> forall K g, 0 <= K <= L -> g ∈ level_files v K -> ~ overlaps (ucmp := c) (Some (su f)) (Some (lu f)) g.
Hypothesis Hfile : file_holds (ucmp := c) (serves := serves) data' f.
Hypothesis Hnewer : forall e e', e ∈ added -> in_version v data e' -> sequence e'.1 < sequence e.1.
Hypothesis Hsize : Z.of_nat (length (level_files v L)) + 1 < 2 ^ 31.

Lemma dat_add_new : dat_add (number f) (number f) = added.
Proof. unfold dat_add. by rewrite Z.eqb_refl. Qed.

Lemma dat_add_old K g : is_level K -> g ∈ level_files v K -> dat_add (number f) (number g) = dat (number g).
Proof. intros HK Hg. unfold dat_add. rewrite (proj2 (Z.eqb_neq _ _)); [done|]. specialize (Hnum K g HK Hg). lia. Qed.

Lemma norm_holds (dt : Z -> list ientry) g : file_holds (ucmp := c) (serves := serves) (fun g => dt (number g)) g ->
  file_holds (ucmp := c) (serves := serves) (fun g => dt (number g)) (norm g).
Proof. apply same_holds. by split_and!. Qed.

Lemma old_holds K g : is_level K -> g ∈ level_files v K -> file_holds (ucmp := c) (serves := serves) data' g.
Proof.
  intros HK Hg. destruct (vo_file _ _ Hvo K g HK Hg) as [K1 K2 K3 K4]. cbn beta in *.
  split; cbn beta; rewrite ?(dat_add_old K g HK Hg) in *; done.
Qed.

Lemma files_hold K g : is_level K -> g ∈ level_files v' K -> file_holds (ucmp := c) (serves := serves) data' g.
Proof. intros HK [Hg|[_ ->]]%Hlevels; [by apply (old_holds K)|by apply norm_holds|done]. Qed.

(** Files that do not overlap share no user key. *)
Lemma no_common_key g e e' : file_holds (ucmp := c) (serves := serves) data' g -> ~ overlaps (ucmp := c) (Some (su f)) (Some (lu f)) g ->
  e ∈ data' g -> e' ∈ added -> Compare c (userkey e.1) (userkey e'.1) <> Eq.
Proof.
  intros Hg Hov He He' Heq. rewrite <- dat_add_new in He'.
  assert (Compare c (userkey e'.1) (userkey e.1) = Eq) as Heq' by (by apply (Compare_eq_sym (dom := fun _ => True))).
  destruct (visible_in_range (ucmp := c) (serves := serves) data' (userkey e.1) (sequence e'.1) f e' Hfile He') as [K1 K2]; [done|].
  destruct (visible_in_range (ucmp := c) (serves := serves) data' (userkey e.1) (sequence e.1) g e Hg He) as [K3 K4];
    [split; [by apply (Compare_refl (dom := fun _ => True))|done]|].
  apply Hov. unfold overlaps, AfterFile, BeforeFile. split; apply bool_decide_eq_false; intros Hc.
  - apply K4. assert (Compare c (su f) (userkey e.1) <> Gt) as Hle by (intros Hgt; apply K1; by apply (Compare_gt_lt (dom := fun _ => True))).
    apply (Compare_gt_lt (dom := fun _ => True)); [done..|]. apply (Compare_gt_lt (dom := fun _ => True)) in Hc; [|done..].
    by apply (Compare_lt_le_trans (dom := fun _ => True) _ (su f)).
  - apply K3. by apply (Compare_le_lt_trans (dom := fun _ => True) _ (lu f)).
Qed.

Lemma newer_added (A B : list ientry) : (forall a b, a ∈ A -> b ∈ B -> Compare c (userkey a.1) (userkey b.1) <> Eq) -> newer (ucmp := c) A B.
Proof. intros Hc a b Ha Hb Heq. by destruct (Hc a b Ha Hb). Qed.

Lemma level_disjoint K : 0 < K < kNumLevels -> disjoint (ucmp := c) (level_files v' K).
Proof.
  intros HK. apply StronglySorted_pairs. assert (is_level K) as HKl by (unfold is_level; lia).
  intros i j a b Hij Ha. revert b. induction Hij as [|j Hij IH]; intros b Hb.
  - by apply (wf_chained _ Hwf K HKl i); [..|lia].
  - destruct (lookup_lt_is_Some_2 (level_files v' K) j) as [d Hd]; [apply lookup_lt_Some in Hb; lia|].
    specialize (IH d Hd). pose proof (wf_chained _ Hwf K HKl j d b Hd Hb ltac:(lia)) as Hdb.
    destruct (fh_ok (serves := serves) data' d (files_hold K d HKl (list_elem_of_lookup_2 _ _ _ Hd))) as [Ks Kl Ko].
    apply (Internal_lt_trans _ (smallest d)); [done|].
    apply (icmp_le_lt_trans _ (largest d)); [done|done|by apply ikey_ok_dom..|].
    apply ikey_ok_dom, (fh_ok (serves := serves) data' b (files_hold K b HKl (list_elem_of_lookup_2 _ _ _ Hb))).
Qed.

Lemma level_nodup K : is_level K -> NoDup (level_files v' K).
Proof.
  intros HK. pose proof (wf_ordered _ Hwf K HK) as Hs. clear -Hs Hok. induction Hs as [|a l Hs IH Ha]; constructor; [|done].
  intros Hin. rewrite Forall_forall in Ha. by apply (lt_neq a a (Ha a Hin)).
Qed.

Lemma level_size K : 0 < K < kNumLevels -> Z.of_nat (length (level_files v' K)) < 2 ^ 31.
Proof.
  intros HK. assert (is_level K) as HKl by (unfold is_level; lia).
  pose proof (level_nodup K HKl) as Hnd.
  destruct (decide (K = L)) as [->|Hne].
  - assert (level_files v' L ⊆+ norm f :: level_files v L) as Hsub%submseteq_length.
    { apply NoDup_submseteq; [done|]. intros g [Hg|[_ ->]]%Hlevels; [by right|by left|done]. }
    cbn in Hsub. lia.
  - assert (level_files v' K ⊆+ level_files v K) as Hsub%submseteq_length.
    { apply NoDup_submseteq; [done|]. by intros g [Hg|[? _]]%Hlevels. }
    pose proof (lv_size _ (vo_level _ _ Hvo K HK)). lia.
Qed.

Lemma added_version_ok : version_ok (ucmp := c) (serves := serves) v' data'.
Proof.
  assert (forall e, e ∈ data' (norm f) <-> e ∈ added) as Hnew by (intros e; cbn; by rewrite dat_add_new).
  assert (forall K g e, is_level K -> g ∈ level_files v K -> e ∈ data' g -> in_version v data e) as Hin.
  { intros K g e HK Hg He. cbn beta in He. rewrite (dat_add_old K g HK Hg) in He. by exists K, g. }
  split.
  - intros K g HK. by apply files_hold.
  - intros K HK. split; [|by apply level_disjoint|by apply level_size].
    apply Forall_forall. intros g Hg. apply (fh_ok (serves := serves) data' g), (files_hold K); [unfold is_level; lia|done].
  - apply NoDup_fmap_2_strong; [|by apply level_nodup].
    intros g h [Hg|[H0 ->]]%Hlevels [Hh|[H0' ->]]%Hlevels Heq; try done.
    + pose proof (vo_numbers _ _ Hvo) as Hn. by apply (NoDup_fmap_inj number (level_files v 0)).
    + pose proof (Hnum 0 g ltac:(done) Hg). cbn in Heq. lia.
    + pose proof (Hnum 0 h ltac:(done) Hh). cbn in Heq. lia.
  - intros g h [Hg|[H0 ->]]%Hlevels [Hh|[H0' ->]]%Hlevels Hlt; try done.
    + cbn beta. rewrite (dat_add_old 0 g), (dat_add_old 0 h) by done. by apply (vo_newer0 _ _ Hvo).
    + pose proof (Hnum 0 g ltac:(done) Hg). cbn in Hlt. lia.
    + intros a b Ha%Hnew Hb _. apply Hnewer; [done|]. by apply (Hin 0 h).
    + cbn in Hlt. lia.
  - intros K K' g h HK HK' Hg Hh. assert (is_level K /\ is_level K') as [HKl HKl'] by (unfold is_level; lia).
    apply Hlevels in Hg as [Hg|[-> ->]]; [| |done]; (apply Hlevels in Hh as [Hh|[-> ->]]; [| |done]).
    + cbn beta. rewrite (dat_add_old K g), (dat_add_old K' h) by done. by apply (vo_newer _ _ Hvo K K').
    + apply newer_added. intros a b Ha Hb%Hnew. apply (no_common_key g a b); [by apply (old_holds K)|apply (Hno ltac:(lia) K g); [lia|done]|done|done].
    + intros a b Ha%Hnew Hb _. apply Hnewer; [done|]. by apply (Hin K' h).
    + lia.
Qed.

Lemma in_added e : in_version v' data' e <-> in_version v data e \/ e ∈ added.
Proof.
  split.
  - intros (K & g & HK & Hg & He). apply Hlevels in Hg as [Hg|[-> ->]]; [| |done].
    + left. exists K, g. cbn beta in He. by rewrite (dat_add_old K g) in He.
    + right. cbn in He. by rewrite dat_add_new in He.
  - intros [(K & g & HK & Hg & He)|He].
    + exists K, g. cbn beta. rewrite (dat_add_old K g HK Hg). split; [done|]. split; [|done]. apply Hlevels; [done|by left].
    + exists L, (norm f). split; [done|]. split; [apply Hlevels; [done|by right]|]. cbn. by rewrite dat_add_new.
Qed.

(** Above level 0 the files of the level are apart, the new one included. *)
Lemma levels_apart K g h : 0 < K -> is_level K -> (g ∈ level_files v K \/ (K = L /\ g = norm f)) ->
  (h ∈ level_files v K \/ (K = L /\ h = norm f)) -> g <> h -> apart (ucmp := c) g h.
Proof.
  intros Hpos HK. assert (forall x, x ∈ level_files v L -> 0 < L -> apart (ucmp := c) x (norm f)) as Hnew.
  { intros x Hx HLp. destruct (decide (overlaps (ucmp := c) (Some (su f)) (Some (lu f)) x)) as [Ho|Ho].
    { exfalso. apply (Hno HLp L x); [unfold is_level in HL; lia|done|done]. }
    unfold overlaps, AfterFile, BeforeFile in Ho. unfold apart. cbn [norm set_allowedseeks smallest largest].
    rewrite !Internal_Compare_alt. fold (su f) (lu f) (su x) (lu x).
    destruct (decide (Compare c (su f) (lu x) = Gt)) as [Hgt|Hn]; [left|right].
    - apply (Compare_gt_lt (dom := fun _ => True)) in Hgt; [|done..]. by rewrite Hgt.
    - destruct (decide (Compare c (lu f) (su x) = Lt)) as [Hlt|Hn']; [by rewrite Hlt|].
      exfalso. apply Ho. split; by apply bool_decide_eq_false. }
  assert (forall x y, x ∈ level_files v K -> y ∈ level_files v K -> x <> y -> apart (ucmp := c) x y) as Hold.
  { intros x y Hx Hy Hne. apply list_elem_of_lookup in Hx as [i Hi], Hy as [j Hj].
    pose proof (lv_disjoint _ (vo_level _ _ Hvo K ltac:(unfold is_level in HK; lia))) as Hd.
    destruct (Nat.lt_trichotomy i j) as [Hij|[->|Hij]].
    - left. by apply (sorted_lookup _ _ i j x y Hd).
    - rewrite Hi in Hj. by injection Hj as ->.
    - right. by apply (sorted_lookup _ _ j i y x Hd). }
  intros [Hg|[-> ->]] [Hh|[HhL ->]] Hne; [by apply Hold| | |done].
  - subst K. by apply Hnew.
  - destruct (Hnew h Hh Hpos) as [?|?]; [by right|by left].
Qed.
End Adding.

(** ** Flushing keeps what the database holds *)

Section Flushing.
Context {c : Comparator} {Hok : ComparatorOk c (fun _ => True)} {Hshort : ComparatorShort (InternalKeyComparator c) internal_dom}.
Context {E F G : Type} `{FileEnv E F G} `{AppendFileOk F} {HE : FileEnvOk E F G} `{ReadFile G}.
Context {compress : bytes -> option bytes} {length_of : bytes -> option Z} {uncompress : bytes -> option bytes}.
Context {Hsnappy : SnappyOk compress length_of uncompress}.
Context {T : Type} `{TableSource T} {good : T -> Prop} {serves : Z -> Z -> list ientry -> Prop} {HT : TableSourceOk T c good serves}.
Context `{TableOpener T} {opens_to : Z -> bytes -> Prop}
  {HO : TableOpenerOk T c good serves (finished (c := c) (length_of := length_of) (uncompress := uncompress)) opens_to}.
Context (taddr recordaddr interval blocksize : Z) (compression : CompressionType) (addr : Z) (dbname : bytes) (maxfilesize : Z).
Hypothesis Hinterval : 1 <= interval.

Abbreviation DBState := (DB (E := E) (F := F) (T := T)).
Abbreviation holds_db := (db_holds (c := c) (good := good) (serves := serves)).

(** The files of the database: a well-formed version whose numbers are below the next one,
    and the manifest, which holds the edits [es]. *)
Record db_files (d : DBState) (es : list VersionEdit) (fragss : list (list (RecordType * bytes))) : Prop := {
  df_version : exists v, current (db_vs d) = Some v /\ version_wf (ucmp := c) v /\
    forall L g, is_level L -> g ∈ level_files v L -> 0 < number g < vs_nextfilenumber (db_vs d);
  df_manifest : exists log, descriptorlog (db_vs d) = Some log /\ manifest_holds log es fragss;
  df_counters : counters_fit (db_vs d);
  df_logs : vs_lognumber (db_vs d) <= db_logfilenumber d < vs_nextfilenumber (db_vs d);
}.

(** *** Deleting files changes nothing of this *)

Lemma delete_loop_ok live names : forall d : DBState, good (db_tables d) ->
  exists tables env, delete_loop (F := F) (G := G) dbname live names d = Some (set_versions (db_vs d) tables env d) /\ good tables.
Proof.
  assert (forall d : DBState, d = set_versions (db_vs d) (db_tables d) (db_env d) d) as Hid by (by intros []).
  induction names as [|name names IH]; intros d Hg; cbn [delete_loop].
  { eexists _, _. split; [f_equal; apply Hid|done]. }
  destruct (ParseFileName name) as [[n type]|]; [|by apply IH]. destruct (keep_file d live n type); [by apply IH|].
  assert (exists t, (if decide (type = kTableFile) then tevict (db_tables d) n else Some (db_tables d)) = Some t /\ good t) as (t & -> & Ht).
  { case_decide; [by apply tevict_ok|by eexists]. }
  cbn [mbind option_bind]. destruct (RemoveFile _ _) as [s1 env1].
  destruct (IH (set_versions (db_vs d) t env1 d) Ht) as (t2 & env2 & -> & Ht2). by exists t2, env2.
Qed.

Lemma DeleteObsoleteFiles_ok (d : DBState) : good (db_tables d) ->
  exists tables env, DeleteObsoleteFiles (F := F) (G := G) dbname d = Some (set_versions (db_vs d) tables env d) /\ good tables.
Proof. intros Hg. unfold DeleteObsoleteFiles. destruct (GetChildren _ _) as [s names]. by apply delete_loop_ok. Qed.

(** *** The new file *)

Lemma sorted_ends (sorted : list MemEntry) first e : StronglySorted (key_lt (c := InternalKeyComparator c)) (map entry_of (map mem_ientry sorted)) ->
  sorted !! 0%nat = Some first -> e ∈ sorted ->
  Internal_Compare c (AppendInternalKey [] (mkey first)) (AppendInternalKey [] (mkey e)) <> Gt /\
  Internal_Compare c (AppendInternalKey [] (mkey e)) (last_key [] sorted) <> Gt.
Proof.
  intros Hs Hf [i Hi]%list_elem_of_lookup.
  assert (forall j a, sorted !! j = Some a -> map entry_of (map mem_ientry sorted) !! j = Some (entry_of (mem_ientry a))) as Hl
    by (intros j a Ha; by rewrite !list_lookup_fmap, Ha).
  assert (forall j k a b, (j <= k)%nat -> sorted !! j = Some a -> sorted !! k = Some b ->
    Internal_Compare c (AppendInternalKey [] (mkey a)) (AppendInternalKey [] (mkey b)) <> Gt) as Hle.
  { intros j k a b Hjk Ha Hb. destruct (decide (j = k)) as [->|Hne].
    - rewrite Ha in Hb. injection Hb as <-. by rewrite Internal_refl.
    - pose proof (sorted_lookup _ _ j k _ _ Hs ltac:(lia) (Hl _ _ Ha) (Hl _ _ Hb)) as Hlt. unfold key_lt, entry_of in Hlt. cbn [fst Compare InternalKeyComparator mem_ientry] in Hlt. by rewrite Hlt. }
  split; [by apply (Hle 0%nat i); [lia|..]|]. unfold last_key. rewrite last_lookup.
  destruct (sorted !! pred (length sorted)) as [l|] eqn:Hlast.
  - apply (Hle i (pred (length sorted))); [apply lookup_lt_Some in Hi; lia|done..].
  - apply lookup_ge_None in Hlast. apply lookup_lt_Some in Hi. lia.
Qed.

Lemma sorted_file_holds dat num sz (sorted : list MemEntry) first :
  StronglySorted (key_lt (c := InternalKeyComparator c)) (map entry_of (map mem_ientry sorted)) ->
  sorted !! 0%nat = Some first -> Forall fits sorted -> serves num sz (map mem_ientry sorted) ->
  file_holds (ucmp := c) (serves := serves) (fun g => dat_add dat (map mem_ientry sorted) num (number g))
    (FileMetaData_make num sz (AppendInternalKey [] (mkey first)) (last_key [] sorted)).
Proof.
  intros Hs Hf Hfit Hse. rewrite Forall_forall in Hfit.
  assert (exists l, last sorted = Some l /\ l ∈ sorted) as (l & Hl & Hlin).
  { destruct (last sorted) as [l|] eqn:Hl; [exists l; split; [done|by apply last_Some_elem_of]|]. by apply last_None in Hl as ->. }
  assert (last_key [] sorted = AppendInternalKey [] (mkey l)) as Hlk by (unfold last_key; by rewrite Hl).
  pose proof (list_elem_of_lookup_2 _ _ _ Hf) as Hfin.
  split; cbn [number VersionEdit.filesize FileMetaData_make smallest largest]; unfold dat_add; rewrite ?Z.eqb_refl; try done.
  - split; cbn [smallest largest FileMetaData_make].
    + exists (mkey first). split; [apply Hfit; done|done].
    + rewrite Hlk. exists (mkey l). split; [apply Hfit; done|done].
    + by apply (sorted_ends sorted first first).
  - intros e (a & -> & Ha)%list_elem_of_fmap. split; [by apply Hfit|]. by apply sorted_ends.
  - exists (mem_ientry l). split; [by apply list_elem_of_fmap_2|done].
Qed.

Lemma BuildTable_ok m es num env f env' t : holds c m es -> es <> [] -> 5 * GetMemoryUsage m + 300 < 2 ^ 32 -> 0 < num < 2 ^ 64 ->
  good t -> (forall name, TableFileName dbname num = Some name -> NewWritableFile (G := G) env name = (OK, Some f, env')) ->
  (forall s meta f env2, BuildTable_file c (G := G) compress interval blocksize compression addr dbname m num env = Some (s, meta, Some f, env2) ->
     opens_to num (contents f)) ->
  exists sorted first sz t', sorted ≡ₚ es /\ StronglySorted (key_lt (c := InternalKeyComparator c)) (map entry_of (map mem_ientry sorted)) /\
    sorted !! 0%nat = Some first /\ serves num sz (map mem_ientry sorted) /\ good t' /\ 0 < sz < 2 ^ 33 /\
    BuildTable c (G := G) compress interval blocksize compression addr dbname m num env t =
      Some (OK, FileMetaData_make num sz (AppendInternalKey [] (mkey first)) (last_key [] sorted), env', t').
Proof.
  intros Hm Hne Hu Hnum Ht Hnew Hopen.
  destruct (BuildTable_file_ok (length_of := length_of) (uncompress := uncompress) interval blocksize compression addr dbname Hinterval
    m es num env f env' Hm Hne Hu ltac:(lia) Hnew) as (sorted & first & f' & Hp & Hs & Hf & Hfin & Hb).
  set (sz := Z.of_nat (length (contents f'))) in *. assert (0 < sz < 2 ^ 33) as Hsz.
  { destruct Hfin as (blocks & idx & meta & ih & Htf). split; [|apply Htf].
    destruct (tf_footer _ _ _ _ _ _ Htf) as [body Hbody]. unfold sz. rewrite Hbody, length_app, length_footer_bytes. lia. }
  destruct (topen_ok t num (map mem_ientry sorted) (contents f') Ht Hnum (Hopen _ _ _ _ Hb) Hfin Hs) as (Hse & t' & Ho & Ht').
  { apply Forall_forall. intros x (e & -> & He)%list_elem_of_fmap. rewrite Hp in He. destruct Hm as [Hfit _].
    rewrite Forall_forall in Hfit. by apply Hfit. }
  exists sorted, first, sz, t'. split_and!; try done; try lia. unfold BuildTable. rewrite Hb. cbn [mbind option_bind ok OK].
  cbn [VersionEdit.filesize FileMetaData_make]. fold sz in Ho. rewrite Ho. cbn [mbind option_bind ok OK andb].
  by rewrite (proj2 (Z.ltb_lt _ _)) by lia.
Qed.

(** What the other threads leave as it is while the mutex is released: there is one
    background thread, so the files of the version and the immutable memtable stay. *)
Record meanwhile (num : Z) (d d1 : DBState) : Prop := {
  mw_imm : db_imm d1 = db_imm d;
  mw_version : exists v v1, current (db_vs d) = Some v /\ current (db_vs d1) = Some v1 /\ same_version v v1;
  mw_pending : num ∈ db_pending d1;
  mw_next : num < vs_nextfilenumber (db_vs d1);
  mw_running : db_shuttingdown d1 = false
}.

Abbreviation allocate d := (set_pendingoutputs (set_insert Z.ltb (NewFileNumber (db_vs d)).1 (db_pending d))
  (set_versions (NewFileNumber (db_vs d)).2 (db_tables d) (db_env d) d)).

(** [meta] describes a table of the entries [es] of a memtable, as file [num]. *)
Definition table_of (num : Z) (es : list MemEntry) (meta : file) : Prop :=
  exists sorted first sz, sorted ≡ₚ es /\ StronglySorted (key_lt (c := InternalKeyComparator c)) (map entry_of (map mem_ientry sorted)) /\
    sorted !! 0%nat = Some first /\ Forall fits sorted /\ serves num sz (map mem_ientry sorted) /\ 0 < sz < 2 ^ 33 /\
    meta = FileMetaData_make num sz (AppendInternalKey [] (mkey first)) (last_key [] sorted).

Lemma table_of_holds num es meta : table_of num es meta ->
  number meta = num /\ exists sorted, sorted ≡ₚ es /\ forall dat,
    file_holds (ucmp := c) (serves := serves) (fun g => dat_add dat (map mem_ientry sorted) num (number g)) meta.
Proof.
  intros (sorted & first & sz & Hp & Hs & Hf & Hfit & Hse & _ & ->). split; [done|]. exists sorted. split; [done|].
  intros dat. by apply sorted_file_holds.
Qed.

Lemma table_of_fits num es meta : table_of num es meta -> 0 < num < 2 ^ 64 -> file_fits meta.
Proof.
  intros (sorted & first & sz & Hp & Hs & Hf & Hfit & Hse & Hsz & ->) Hnum. rewrite Forall_forall in Hfit.
  assert (exists l, last sorted = Some l /\ l ∈ sorted) as (l & Hl & Hlin).
  { destruct (last sorted) as [l|] eqn:Hl; [exists l; split; [done|by apply last_Some_elem_of]|]. by apply last_None in Hl as ->. }
  assert (forall a, a ∈ sorted -> key_fits (AppendInternalKey [] (mkey a))) as Hk.
  { intros a Ha. destruct (Hfit a Ha) as (_ & Hu' & _). unfold key_fits. rewrite length_AppendInternalKey. lia. }
  unfold file_fits, last_key. cbn [number VersionEdit.filesize smallest largest FileMetaData_make]. rewrite Hl.
  split_and!; try lia; apply Hk; [by eapply list_elem_of_lookup_2|done].
Qed.

(** The status is [OK] whatever became of the table; here it is in the edit. *)
Lemma WriteLevel0Table_ok others (d d1 : DBState) m es edit base f env' : let num := vs_nextfilenumber (db_vs d) in
  d1 = others (allocate d) -> holds c m es -> good (db_tables d1) -> num ∈ db_pending d1 -> es <> [] ->
  5 * GetMemoryUsage m + 300 < 2 ^ 32 -> 0 < num < 2 ^ 64 - 1 ->
  (match base with Some b => forall j, 0 < j < kNumLevels -> level_ok (ucmp := c) (level_files b j) | None => True end) ->
  (forall name, TableFileName dbname num = Some name -> NewWritableFile (G := G) (db_env d1) name = (OK, Some f, env')) ->
  (forall s meta f env2, BuildTable_file c (G := G) compress interval blocksize compression addr dbname m num (db_env d1)
     = Some (s, meta, Some f, env2) -> opens_to num (contents f)) ->
  exists meta L t', table_of num es meta /\ is_level L /\ good t' /\ (base = None -> L = 0) /\
    (forall b, base = Some b -> 0 < L -> forall j g, 0 <= j <= L -> g ∈ level_files b j ->
       ~ overlaps (ucmp := c) (Some (FUserKey (smallest meta))) (Some (FUserKey (largest meta))) g) /\
    WriteLevel0Table c (G := G) compress interval blocksize compression addr dbname maxfilesize others m edit base d =
      Some (OK, AddFile edit L (number meta) (VersionEdit.filesize meta) (smallest meta) (largest meta),
        set_pendingoutputs (filter (fun n => n <> num) (db_pending d1)) (set_versions (db_vs d1) t' env' d1)).
Proof.
  intros num Hd1 Hm Ht Hpend Hne Hu Hnum Hbase Hnew Hopen.
  destruct (BuildTable_ok m es num (db_env d1) f env' (db_tables d1) Hm Hne Hu ltac:(lia) Ht Hnew Hopen)
    as (sorted & first & sz & t' & Hp & Hs & Hf & Hse & Ht' & Hsz & Hb).
  set (meta := FileMetaData_make num sz (AppendInternalKey [] (mkey first)) (last_key [] sorted)) in *.
  assert (table_of num es meta) as Hmeta.
  { exists sorted, first, sz. split_and!; try done; try lia. rewrite Hp. apply Hm. }
  assert (exists L, is_level L /\ (match base with Some b => PickLevelForMemTableOutput c b maxfilesize (ExtractUserKey (smallest meta)) (ExtractUserKey (largest meta))
      | None => Some 0 end) = Some L /\ (base = None -> L = 0) /\
    (forall b, base = Some b -> 0 < L -> forall j g, 0 <= j <= L -> g ∈ level_files b j ->
       ~ overlaps (ucmp := c) (Some (FUserKey (smallest meta))) (Some (FUserKey (largest meta))) g)) as (L & HL & HpickL & HL0 & Hno).
  { destruct base as [b|]; [|by exists 0].
    destruct (PickLevel_ok b maxfilesize (ExtractUserKey (smallest meta)) (ExtractUserKey (largest meta)) Hbase) as (L & HL & Hr & Hno).
    exists L. split; [unfold is_level, kNumLevels, kMaxMemCompactLevel in *; lia|]. split; [done|]. split; [done|].
    intros b' [= <-] Hpos j g Hj Hg Hov. apply (Hno Hpos j Hj). apply Exists_exists. by exists g. }
  exists meta, L, t'. split_and!; try done.
  unfold WriteLevel0Table. change (NewFileNumber (db_vs d)) with (num, set_next (u64 (num + 1)) (db_vs d)) in *.
  cbn [fst snd] in Hd1. cbv beta iota zeta.
  match goal with |- context [others ?x] => replace (others x) with d1 by exact Hd1 end. rewrite Hb. cbn [mbind option_bind].
  rewrite bool_decide_eq_false_2 by (cbn; intros Hn; by apply Hn).
  cbn [ok OK andb]. change (VersionEdit.filesize meta) with sz. rewrite (proj2 (Z.ltb_lt 0 sz)) by lia.
  destruct base as [b|]; cbn [mbind option_bind]; [by rewrite HpickL|by injection HpickL as <-].
Qed.

(** *** Installing it *)

(** The edit of [CompactMemTable]. *)
Definition flush_edit (L : Z) (meta : file) (log : Z) : VersionEdit :=
  SetLogNumber (SetPrevLogNumber (AddFile VersionEdit_make L (number meta) (VersionEdit.filesize meta) (smallest meta) (largest meta)) 0) log.

Lemma LogAndApply_one (vs : VersionSet (F := F)) (env : E) v L num sz sm la logno es fragss log :
  let meta := FileMetaData_make num sz sm la in
  current vs = Some v -> version_wf (ucmp := c) v ->
  (forall K g, is_level K -> g ∈ level_files v K -> number g < num) ->
  descriptorlog vs = Some log -> manifest_holds log es fragss -> counters_fit vs -> vs_lognumber vs <= logno < vs_nextfilenumber vs ->
  is_level L -> file_fits meta -> sm <> [] -> la <> [] ->
  (forall K g, 0 < K -> is_level K -> g ∈ level_files v K \/ (K = L /\ g = norm meta) -> Internal_Compare c (smallest g) (largest g) <> Gt) ->
  (forall K g h, 0 < K -> is_level K -> g ∈ level_files v K \/ (K = L /\ g = norm meta) -> h ∈ level_files v K \/ (K = L /\ h = norm meta) ->
     g <> h -> apart (ucmp := c) g h) ->
  exists e v' log' frags, LogAndApply c taddr recordaddr (G := G) dbname (flush_edit L meta logno) vs env =
      Some (OK, e, MkVersionSet (tail (dummyversions vs) ++ [Finalize v']) (vs_nextfilenumber vs) (manifestfilenumber vs)
        (vs_lastsequence vs) logno 0 (compactPointer vs) (Some log'), env) /\
    manifest_holds log' (es ++ [e]) (fragss ++ [frags]) /\ version_wf (ucmp := c) v' /\
    forall K g, is_level K -> g ∈ level_files v' K <-> g ∈ level_files v K \/ (K = L /\ g = norm meta).
Proof.
  intros meta Hcur Hwf Hnum Hlog Hm Hcnt Hlogs HL Hfits Hsm Hla Hord Hap. pose proof Hcnt as (Hn & Hs & Hl & _).
  set (e := SetLastSequence (SetNextFile (flush_edit L meta logno) (vs_nextfilenumber vs)) (vs_lastsequence vs)).
  assert (complete_edit (flush_edit L meta logno) vs = Some e) as Hce.
  { unfold complete_edit, e, flush_edit. cbn [SetLogNumber SetPrevLogNumber haslognumber lognumber hasprevlognumber AddFile add_newfile].
    rewrite (proj2 (Z.leb_le _ _)), (proj2 (Z.ltb_lt _ _)) by lia. done. }
  assert (newfiles e = [(L, meta)] /\ deletedfiles e = [] /\ compactpointers e = []) as (Hnew & Hdel & Hcp) by done.
  assert (exists b, Apply c e (Builder_make v) (compactPointer vs) = Some (b, compactPointer vs)) as [b Ha].
  { unfold Apply. rewrite Hcp. cbn. by eexists. }
  assert (edit_levels e) as Hel.
  { split; rewrite ?Hdel, ?Hnew; [by apply Forall_nil|by apply Forall_singleton|]. cbn. apply NoDup_singleton. }
  assert (forall K g, is_level K -> g ∈ level_files v K -> (K, number g) ∉ map (fun p => (p.1, number p.2)) (newfiles e)) as Hfr.
  { intros K g HK Hg. rewrite Hnew. cbn. intros Heq%list_elem_of_singleton. injection Heq as -> Heq.
    specialize (Hnum L g HL Hg). lia. }
  assert (forall K g, is_level K -> g ∈ adds K (newfiles e) <-> K = L /\ g = norm meta) as Hadds.
  { intros K g HK. rewrite elem_of_adds, Hnew. split.
    - intros (g' & Hg'%list_elem_of_singleton & ->). by injection Hg' as -> ->.
    - intros [-> ->]. exists meta. split; [by apply list_elem_of_singleton|done]. }
  pose proof (saved_levels v e _ b _ Hwf Hel Hfr Ha) as Hsv.
  assert (forall K g, is_level K -> g ∈ saved (ucmp := c) b K -> g ∈ level_files v K \/ (K = L /\ g = norm meta)) as Hsave.
  { intros K g HK Hg. apply (Hsv K HK) in Hg as [[Hg _]|Hg]; [by left|right; by apply Hadds]. }
  destruct (edit_installs v e _ b _ Hwf Hel Hfr Ha) as (v' & Hsave' & Hwf' & Hlev).
  { intros K g HK0 HK Hg. apply (Hord K g HK0 HK). by apply Hsave. }
  { intros K g h HK0 HK Hg Hh. apply (Hap K g h HK0 HK); by apply Hsave. }
  assert (recordable e) as Hrec.
  { unfold file_fits in Hfits. split; [|split; [by rewrite Hcp; apply Forall_nil|rewrite Hnew; by apply Forall_singleton]].
    split; rewrite ?Hcp, ?Hdel, ?Hnew; try (by apply Forall_nil); try (by constructor); try (by apply Forall_singleton); cbn; lia. }
  destruct (LogAndApply_appends taddr recordaddr dbname _ vs env es fragss v log e b _ v' Hcur Hlog Hm Hce Hrec Ha Hsave')
    as (log' & frags & Hla' & Hm').
  exists e, v', log', frags. split; [exact Hla'|]. split; [done|]. split; [done|].
  intros K g HK. rewrite (Hlev K g HK), (Hadds K g HK), Hdel. split; [by intros [[? _]|?]; [left|right]|].
  intros [?|?]; [left; split; [done|by intros ?%not_elem_of_nil]|by right].
Qed.

Lemma vfiles_Finalize v : vfiles (Finalize v) = vfiles v.
Proof. unfold Finalize. by destruct (fold_left _ _ _). Qed.

Lemma level_files_Finalize v K : level_files (Finalize v) K = level_files v K.
Proof. unfold level_files. by rewrite vfiles_Finalize. Qed.

Lemma same_version_file v v1 K g : same_version v v1 -> g ∈ level_files v1 K -> exists h, h ∈ level_files v K /\ same_file h g.
Proof. intros Hs Hg. by apply (same_elem _ _ g (Hs K)). Qed.

Lemma file_keys_set f : file_ok (ucmp := c) f -> smallest f <> [] /\ largest f <> [].
Proof. intros [Hs%ikey_ok_dom Hl%ikey_ok_dom _]. split; intros Heq; rewrite Heq in *; cbn in *; lia. Qed.

(** C6: Flushing the immutable memtable keeps what the database holds.  When the disk does not fail, [CompactMemTable] writes
    the memtable's entries to a table, installs it with the manifest record and drops the memtable: every entry that was in the
    database still is, and none else; the versions and the manifest keep their invariants, so lookups keep their answers (the
    new table is at a level whose deeper files are older and whose neighbours it does not overlap); the logs before the current
    one are no longer needed; no assert fails, whatever the other threads did to the queue and the active memtable while the
    mutex was released. *)
Theorem flush_keeps_contents others dat (d d1 : DBState) m es1 es2 es fragss f env' :
  db_imm d = Some m -> d1 = others (allocate d) -> es2 <> [] -> meanwhile (vs_nextfilenumber (db_vs d)) d d1 ->
  db_files d es fragss -> holds_db dat d1 es1 es2 -> db_files d1 es fragss ->
  (forall v L, current (db_vs d1) = Some v -> Z.of_nat (length (level_files v L)) + 1 < 2 ^ 31) ->
  5 * GetMemoryUsage m + 300 < 2 ^ 32 -> 0 < vs_nextfilenumber (db_vs d) < 2 ^ 64 - 1 ->
  (forall name, TableFileName dbname (vs_nextfilenumber (db_vs d)) = Some name -> NewWritableFile (G := G) (db_env d1) name = (OK, Some f, env')) ->
  (forall s meta f env2, BuildTable_file c (G := G) compress interval blocksize compression addr dbname m (vs_nextfilenumber (db_vs d)) (db_env d1)
     = Some (s, meta, Some f, env2) -> opens_to (vs_nextfilenumber (db_vs d)) (contents f)) ->
  exists d' dat' e fr, CompactMemTable c taddr recordaddr (G := G) compress interval blocksize compression addr dbname maxfilesize others d = Some d' /\
    db_imm d' = None /\ holds_db dat' d' es1 [] /\ (forall e, in_db dat' d' es1 [] e <-> in_db dat d1 es1 es2 e) /\
    db_files d' (es ++ [e]) (fragss ++ [fr]) /\ vs_lognumber (db_vs d') = db_logfilenumber d' /\
    vs_nextfilenumber (db_vs d) ∉ db_pending d' /\ db_mem d' = db_mem d1 /\ db_bgerror d' = db_bgerror d1.
Proof.
  intros Him Hd1 Hne Hmw Hfd Hd Hfd1 Hsmall Hu Hnum Hnew Hopen. destruct (mw_version _ _ _ Hmw) as (v & v1 & Hv & Hv1 & Hsame).
  destruct (dh_version _ _ _ _ Hd) as (v1' & Hv1' & Hvo & Hnewer). rewrite Hv1 in Hv1'. injection Hv1' as <-.
  destruct (df_version _ _ _ Hfd) as (v' & Hv' & _ & Hnums). rewrite Hv in Hv'. injection Hv' as <-.
  destruct (df_version _ _ _ Hfd1) as (v' & Hv' & Hwf & Hnums1). rewrite Hv1 in Hv'. injection Hv' as <-.
  assert (version_ok (ucmp := c) (serves := serves) v (fun f => dat (number f))) as Hvo0.
  { apply (same_version_ok dat v1); [|done]. intros l. by apply same_sym. }
  set (num := vs_nextfilenumber (db_vs d)) in *.
  assert (holds c m es2) as Hm by (pose proof (dh_imm _ _ _ _ Hd) as Hi; by rewrite (mw_imm _ _ _ Hmw), Him in Hi).
  destruct (WriteLevel0Table_ok others d d1 m es2 VersionEdit_make (Some v) f env' Hd1 Hm (dh_tables _ _ _ _ Hd) (mw_pending _ _ _ Hmw) Hne Hu Hnum) as
    (meta & L & t' & Htab & HL & Ht' & _ & Hno & HW); [by apply (vo_level _ _ Hvo0)|done|done|].
  fold num in Htab, HW. pose proof (table_of_fits num es2 meta Htab ltac:(lia)) as Hfits.
  destruct (table_of_holds num es2 meta Htab) as (Hnm & sorted & Hp & Hfh). specialize (Hfh dat).
  assert (exists sz sm la, meta = FileMetaData_make num sz sm la) as (sz & sm & la & Hmeta) by (destruct Htab as (? & ? & ? & _ & _ & _ & _ & _ & _ & ->); by eexists _, _, _).
  subst meta. set (meta := FileMetaData_make num sz sm la) in *.
  assert (forall K g, is_level K -> g ∈ level_files v1 K -> number g < number meta) as Hlt.
  { intros K g HK Hg. destruct (same_version_file v v1 K g Hsame Hg) as (h & Hh & Hn & _). rewrite <- Hn. cbn. by apply (Hnums K h). }
  assert (0 < L -> forall K g, 0 <= K <= L -> g ∈ level_files v1 K ->
    ~ overlaps (ucmp := c) (Some (FUserKey (smallest meta))) (Some (FUserKey (largest meta))) g) as Hno1.
  { intros HLp K g HK Hg Hov. destruct (same_version_file v v1 K g Hsame Hg) as (h & Hh & _ & _ & Hsm & Hla).
    apply (Hno v eq_refl HLp K h HK Hh). unfold overlaps, AfterFile, BeforeFile in *. by rewrite Hsm, Hla. }
  assert (forall e e', e ∈ map mem_ientry sorted -> in_version v1 (fun f => dat (number f)) e' -> sequence e'.1 < sequence e.1) as Hseq.
  { intros e e' (a & -> & Ha)%list_elem_of_fmap He'. rewrite Hp in Ha. apply (Hnewer e' He'). apply elem_of_app. by left. }
  pose proof (fh_ok _ _ Hfh) as Hmok. destruct (file_keys_set meta Hmok) as [Hsm0 Hla0].
  destruct (df_manifest _ _ _ Hfd1) as (log & Hlog & Hmh).
  pose proof (levels_apart dat v1 L meta Hvo HL Hno1) as Hap.
  assert (forall K g, 0 < K -> is_level K -> g ∈ level_files v1 K \/ (K = L /\ g = norm meta) ->
    Internal_Compare c (smallest g) (largest g) <> Gt) as Hord.
  { intros K g _ HK [Hg|[_ ->]]; [apply (fh_ok _ _ (vo_file _ _ Hvo K g HK Hg))|apply Hmok]. }
  destruct (LogAndApply_one (db_vs d1) env' v1 L num sz sm la (db_logfilenumber d1) es fragss log Hv1 Hwf Hlt Hlog Hmh
    (df_counters _ _ _ Hfd1) (df_logs _ _ _ Hfd1) HL Hfits Hsm0 Hla0 Hord Hap) as (e & v' & log' & frags & HLA & Hm' & Hwf' & Hlev).
  set (vs' := MkVersionSet _ _ _ _ _ _ _ _) in HLA.
  set (d2 := set_memtables (db_mem d1) None (set_versions vs' t' env' (set_pendingoutputs (filter (fun n => n <> num) (db_pending d1)) (set_versions (db_vs d1) t' env' d1)))).
  destruct (DeleteObsoleteFiles_ok d2 Ht') as (t2 & env2 & Hdel & Ht2).
  exists (set_versions vs' t2 env2 d2), (dat_add dat (map mem_ientry sorted) num), e, frags. split.
  { unfold CompactMemTable. rewrite Him. cbn [mbind option_bind]. rewrite Hv. cbn [mbind option_bind]. rewrite HW.
    cbn [mbind option_bind ok OK]. cbn [db_shuttingdown set_pendingoutputs set_versions]. rewrite (mw_running _ _ _ Hmw). cbn [andb ok OK].
    cbn [db_vs db_env db_logfilenumber set_pendingoutputs set_versions].
    change (SetLogNumber _ _) with (flush_edit L meta (db_logfilenumber d1)).
    fold meta in HLA. rewrite HLA. cbn [mbind option_bind ok OK]. exact Hdel. }
  assert (current vs' = Some (Finalize v')) as Hcur' by (unfold current, vs'; cbn [dummyversions]; by rewrite last_snoc).
  assert (forall K g, is_level K -> g ∈ level_files (Finalize v') K <-> g ∈ level_files v1 K \/ (K = L /\ g = norm meta)) as Hlev'.
  { intros K g. rewrite level_files_Finalize. exact (Hlev K g). }
  assert (version_wf (ucmp := c) (Finalize v')) as Hwf2.
  { destruct Hwf' as [W1 W2 W3]. split; [by rewrite vfiles_Finalize|intros K; rewrite level_files_Finalize; auto..]. }
  assert (Z.of_nat (length (level_files v1 L)) + 1 < 2 ^ 31) as Hsm by by apply Hsmall.
  pose proof (in_added dat v1 (Finalize v') L meta (map mem_ientry sorted) HL Hlev' Hlt) as Hin.
  pose proof (added_version_ok dat v1 (Finalize v') L meta (map mem_ientry sorted) Hvo Hwf2 Hlev' Hlt Hno1 Hfh Hseq Hsm) as Hvo'.
  split; [done|]. split; [|split; [|split; [|split; [done|split; [|done]]]]].
  - pose proof Hd as [D1 _ _ _ D5 D6 D7]. apply StronglySorted_app in D5 as (D5 & _ & D5s).
    split; cbn [db_mem db_imm db_vs db_tables set_memtables set_versions]; try done.
    + exists (Finalize v'). split; [done|]. split; [done|]. intros x [Hx|Hx]%Hin.
      * destruct (Hnewer x Hx) as [Hle Hall]. split; [exact Hle|]. intros a Ha. apply Hall, elem_of_app. by right.
      * apply list_elem_of_fmap in Hx as (a & -> & Ha). rewrite Hp in Ha. split; [apply D6, elem_of_app; by left|].
        intros a' Ha'. by apply D5.
    + intros a Ha. apply D6, elem_of_app. by right.
  - intros x. unfold in_db. cbn [db_vs set_versions set_memtables]. rewrite Hcur', Hv1. split.
    + intros [(a & Ha & ->)|(w & [= <-] & [Hw|Hw]%Hin)].
      * left. exists a. split; [apply elem_of_app; by right|done].
      * right. by exists v1.
      * apply list_elem_of_fmap in Hw as (a & -> & Ha). rewrite Hp in Ha. left. exists a. split; [apply elem_of_app; by left|done].
    + intros [(a & [Ha|Ha]%elem_of_app & ->)|(w & [= <-] & Hw)].
      * right. exists (Finalize v'). split; [done|]. apply Hin. right. apply list_elem_of_fmap_2. by rewrite Hp.
      * left. by exists a.
      * right. exists (Finalize v'). split; [done|]. apply Hin. by left.
  - split; cbn [db_vs set_versions set_memtables].
    + exists (Finalize v'). split; [done|]. split; [done|]. intros K g HK [Hg|[_ ->]]%Hlev'; [by apply (Hnums1 K)| |done].
      cbn. pose proof (mw_next _ _ _ Hmw). fold num in H5. lia.
    + by exists log'.
    + destruct (df_counters _ _ _ Hfd1) as (C1 & C2 & C3 & C4). unfold counters_fit, vs'. cbn.
      destruct (df_logs _ _ _ Hfd1). split_and!; lia.
    + cbn. destruct (df_logs _ _ _ Hfd1). lia.
  - cbn. intros [Hn _]%list_elem_of_filter. done.
Qed.
(** *** What is deleted *)

(** The files that may still be needed: the logs that the version does not cover, the
    manifest and newer ones, the tables of the versions and those being written. *)
Definition needed (d : DBState) (n : Z) (type : FileType) : Prop :=
  match type with
  | kLogFile => vs_lognumber (db_vs d) <= n \/ n = vs_prevlognumber (db_vs d)
  | kDescriptorFile => manifestfilenumber (db_vs d) <= n
  | kTableFile | kTempFile => n ∈ db_pending d \/
      exists v L g, v ∈ dummyversions (db_vs d) /\ L ∈ all_levels /\ g ∈ level_files v L /\ number g = n
  | kCurrentFile | kDBLockFile | kInfoLogFile => True
  end.

Lemma fold_insert {A} (f : A -> Z) l live n :
  n ∈ fold_left (fun live x => set_insert Z.ltb (f x) live) l live <-> n ∈ live \/ exists x, x ∈ l /\ f x = n.
Proof.
  revert live. induction l as [|x l IH]; intros live; cbn [fold_left].
  - split; [by left|]. intros [?|(x & Hx & _)]; [done|by apply not_elem_of_nil in Hx].
  - rewrite IH, set_insert_Z. split.
    + intros [[->|?]|(y & Hy & Hf)]; [right; exists x; split; [by left|done]|by left|right; exists y; split; [by right|done]].
    + intros [?|(y & [->|Hy]%elem_of_cons & Hf)]; [by left; right|by left; left|right; by exists y].
Qed.

Lemma elem_of_AddLiveFiles (vs : VersionSet (F := F)) live n :
  n ∈ AddLiveFiles vs live <-> n ∈ live \/ exists v L g, v ∈ dummyversions vs /\ L ∈ all_levels /\ g ∈ level_files v L /\ number g = n.
Proof.
  assert (forall v ls live, n ∈ fold_left (fun live level => fold_left (fun live f => set_insert Z.ltb (number f) live) (level_files v level) live) ls live
    <-> n ∈ live \/ exists L g, L ∈ ls /\ g ∈ level_files v L /\ number g = n) as Hls.
  { intros v ls. induction ls as [|L ls IH]; intros lv; cbn [fold_left].
    - split; [by left|]. intros [?|(L & g & HL & _)]; [done|by apply not_elem_of_nil in HL].
    - rewrite IH, fold_insert. split.
      + intros [[?|(g & Hg & Hn)]|(K & g & HK & Hg)]; [by left|right; exists L, g; split; [by left|done]|right; exists K, g; split; [by right|done]].
      + intros [?|(K & g & [->|HK]%elem_of_cons & Hg)]; [by left; left|left; right; by exists g|right; by exists K, g]. }
  unfold AddLiveFiles. generalize (dummyversions vs) live. clear live.
  intros l. induction l as [|v l IH]; intros live; cbn [fold_left].
  - split; [by left|]. intros [?|(v & L & g & Hv & _)]; [done|by apply not_elem_of_nil in Hv].
  - rewrite IH, Hls. split.
    + intros [[?|(L & g & Hg)]|(w & L & g & Hw & Hg)]; [by left|right; exists v, L, g; split; [by left|done]|right; exists w, L, g; split; [by right|done]].
    + intros [?|(w & L & g & [->|Hw]%elem_of_cons & Hg)]; [by left; left|left; right; by exists L, g|right; by exists w, L, g].
Qed.

Lemma keep_needed (d : DBState) n type : keep_file d (AddLiveFiles (db_vs d) (db_pending d)) n type = true <-> needed d n type.
Proof. unfold keep_file, needed. destruct type; rewrite ?bool_decide_eq_true, ?elem_of_AddLiveFiles; try done; [rewrite orb_true_iff; lia|lia]. Qed.

(** Removing files of the directory one after the other. *)
Definition remove_all (env : E) (names : list bytes) : E :=
  fold_left (fun env name => (RemoveFile (F := F) (G := G) env (dbname ++ str "/" ++ name)).2) names env.

Lemma delete_loop_gone live names : forall d : DBState, good (db_tables d) ->
  exists tables gone, delete_loop (F := F) (G := G) dbname live names d = Some (set_versions (db_vs d) tables (remove_all (db_env d) gone) d) /\
    forall name, name ∈ gone <-> name ∈ names /\ exists n type, ParseFileName name = Some (n, type) /\ keep_file d live n type = false.
Proof.
  assert (forall d : DBState, d = set_versions (db_vs d) (db_tables d) (db_env d) d) as Hid by (by intros []).
  induction names as [|name names IH]; intros d Hg; cbn [delete_loop].
  { exists (db_tables d), []. split; [f_equal; apply Hid|]. intros name. split; [by intros ?%not_elem_of_nil|by intros [?%not_elem_of_nil _]]. }
  destruct (ParseFileName name) as [[n type]|] eqn:Hname; [destruct (keep_file d live n type) eqn:Hkeep|].
  - destruct (IH d Hg) as (t & gone & -> & Hgone). exists t, gone. split; [done|]. intros x. rewrite Hgone, elem_of_cons. split.
    + intros [Hx Hp]. split; [by right|done].
    + intros [[->|Hx] Hp]; [|done]. destruct Hp as (n' & type' & Hp & Hk). rewrite Hname in Hp. injection Hp as <- <-. by rewrite Hkeep in Hk.
  - assert (exists t, (if decide (type = kTableFile) then tevict (db_tables d) n else Some (db_tables d)) = Some t /\ good t) as (t & -> & Ht).
    { case_decide; [by apply tevict_ok|by eexists]. }
    cbn [mbind option_bind]. destruct (RemoveFile _ _) as [s1 env1] eqn:Hrm.
    destruct (IH (set_versions (db_vs d) t env1 d) Ht) as (t2 & gone & -> & Hgone). exists t2, (name :: gone). split.
    + unfold remove_all. cbn [fold_left]. by rewrite Hrm.
    + intros x. rewrite !elem_of_cons, Hgone. split.
      * intros [->|[Hx Hp]]; [split; [by left|by exists n, type]|split; [by right|done]].
      * intros [[->|Hx] Hp]; [by left|by right].
  - destruct (IH d Hg) as (t & gone & -> & Hgone). exists t, gone. split; [done|]. intros x. rewrite Hgone, elem_of_cons. split.
    + intros [Hx Hp]. split; [by right|done].
    + intros [[->|Hx] Hp]; [|done]. destruct Hp as (n' & type' & Hp & Hk). by rewrite Hname in Hp.
Qed.

End Flushing.

(** *** The opener of the table cache keeps its contract *)

(** The table cache as an opener. *)
#[export] Instance cache_opener {G C K : Type} `{RandomFile G} `{Cache C (Table G)} `{Cache K Block}
    length_of uncompress addr c paranoid dbname open_file fuel (options : ReadOptions) : TableOpener (TableCache C K) := {|
  topen tc num size :=
    let? (it, tc) := cache_NewIterator length_of uncompress addr c paranoid dbname open_file num size tc in
    match it with
    | inl (it, table, key) =>
        let s := @iterstatus _ (Table_iter length_of uncompress addr c table options fuel) it in
        let? bc := forget_data run_cleanup it in
        let? tc := UnrefEntry (G := G) key (MkTableCache (tcache tc) bc) in Some (s, tc)
    | inr s => Some (s, tc)
    end;
  tevict tc num := evict (G := G) num tc
|}.


Section CacheOpener.
Context {length_of : bytes -> option Z} {uncompress : bytes -> option bytes}.
Context {G : Type} `{RandomFileOk G} (addr : Z) (paranoid : bool) (dbname : bytes).
Context (open_file : bytes -> Status * option G).
Context {C : Type} `{CacheOk C (Table G) cvalid} {K : Type} `{CacheOk K Block kvalid}.
Context (fuel : nat) (options : ReadOptions).

Definition opens_file (num : Z) (data : bytes) : Prop :=
  exists g, (forall name, TableFileName dbname num = Some name -> open_file name = (OK, Some g)) /\ rcontents g = data.

#[local] Instance opener_here : TableOpener (TableCache C K) :=
  cache_opener length_of uncompress addr (InternalKeyComparator BytewiseComparatorImpl) paranoid dbname open_file fuel options.

#[export] Instance cache_opener_ok : TableOpenerOk (TableCache C K) BytewiseComparatorImpl
  (cache_good (length_of := length_of) (uncompress := uncompress) (cvalid := cvalid) (kvalid := kvalid) addr paranoid dbname open_file)
  (serves (length_of := length_of) (uncompress := uncompress) dbname open_file)
  (finished (c := BytewiseComparatorImpl) (length_of := length_of) (uncompress := uncompress)) opens_file.
Proof.
  split.
  - intros t num es data Ht Hnum (g & Hopen & Hg) (blocks & idx & meta & ih & Htf) Hs Hseq. rewrite <- Hg in Htf |- *.
    assert (file_of (length_of := length_of) (uncompress := uncompress) dbname open_file num es g blocks idx meta ih) as Hf by by split.
    split; [by exists g, blocks, idx, meta, ih|]. cbn [topen opener_here cache_opener]. unfold cache_NewIterator.
    destruct (FindTable_ok (cvalid := cvalid) (kvalid := kvalid) addr paranoid dbname open_file _ _ _ _ _ _ _ t Ht Hf) as (tb & tc1 & -> & Hg1 & _ & Htb).
    cbn [mbind option_bind ok OK negb].
    destruct (table_iter_agrees (c := InternalKeyComparator BytewiseComparatorImpl) (dom := internal_dom) (valid := kvalid) addr options (map entry_of es) g blocks idx meta ih
      Htf (entry_of_sorted _ _ _ _ _ _ _ _ _ Hf) tb (length idx + length es + 2) (blockcache tc1) Htb) as (ti & at_ & Hni & Hat & Hir & _);
      [lia|by eapply (cg_blocks _ _ _ _ _ Hg1)|].
    rewrite Hni. cbn [mbind option_bind]. rewrite (new_iterator_forgets _ _ _ _ Hni). cbn [mbind option_bind].
    pose proof (ir_status _ _ _ _ Hir _ _ Hat) as Hst.
    destruct (forget_ok addr paranoid dbname open_file tc1 num crelease crelease_ok Hg1) as (c' & Hr & Hg2 & _).
    unfold UnrefEntry. cbn [tcache]. rewrite Hr. cbn [mbind option_bind]. exists (MkTableCache c' (blockcache tc1)). split; [|done].
    do 2 f_equal. exact Hst.
  - intros t num Ht. destruct (forget_ok addr paranoid dbname open_file t num cerase cerase_ok Ht) as (c' & Hr & Hg' & _).
    exists (MkTableCache c' (blockcache t)). split; [|done]. cbn [tevict opener_here cache_opener]. unfold evict. by rewrite Hr.
Qed.
End CacheOpener.

(** ** A concrete flush, through the table cache *)

#[local] Instance flush_append : AppendFile WritableFile := WritableFile_append (fun _ => []).
#[local] Instance flush_append_ok : AppendFileOk WritableFile := WritableFile_ok (fun _ => []).
#[local] Instance flush_read : ReadFile SequentialFile := SequentialFile_read (fun _ => []).
#[local] Instance flush_env : FileEnv MemDir WritableFile SequentialFile := MemDir_env (fun _ => []).
#[local] Instance flush_env_ok : FileEnvOk MemDir WritableFile SequentialFile := MemDir_ok (fun _ => []).
#[local] Instance flush_random : RandomFile MmapFile := MmapFile_random (fun _ => []).
#[local] Instance flush_random_ok : RandomFileOk MmapFile := MmapFile_ok (fun _ => []).
#[local] Instance flush_tables : Cache (ShardedLRUCache (V := Table MmapFile)) (Table MmapFile) := Sharded_cache (fun _ => 0).
#[local] Instance flush_tables_ok : CacheOk _ (Table MmapFile) (cache_ok (fun _ => 0)) := Sharded_ok (fun _ => 0).
#[local] Instance flush_block_cache : Cache (ShardedLRUCache (V := Block)) Block := Sharded_cache (fun _ => 0).
#[local] Instance flush_blocks_ok : CacheOk _ Block (cache_ok (fun _ => 0)) := Sharded_ok (fun _ => 0).

Definition flush_entry : MemEntry := MkMemEntry (MkParsedInternalKey (str "ant") 1 kTypeValue) (str "old").
Definition flush_mem : MemTable :=
  default MemTable_make (Add BytewiseComparatorImpl demo_rnd MemTable_make 1 kTypeValue (str "ant") (str "old")).

Abbreviation demo_build env := (BuildTable_file BytewiseComparatorImpl (G := SequentialFile) run_compress 2 16 kNoCompression 0 (str "/db") flush_mem 4 env).

(** What the table file will hold, and what opening it gives. *)
Definition flush_data : bytes :=
  match demo_build ([] : MemDir) with Some (_, _, Some f, _) => contents f | _ => [] end.
Abbreviation flush_open := (demo_fs flush_data).

#[local] Instance flush_source : TableSource DemoCache :=
  cache_source (length_of := run_length) (uncompress := run_uncompress) 0 true (str "/db") flush_open ReadOptions_make.
#[local] Instance flush_opener : TableOpener DemoCache :=
  opener_here (length_of := run_length) (uncompress := run_uncompress) 0 true (str "/db") flush_open 10 ReadOptions_make.

Definition flush_db (immutable : option MemTable) : DB (E := MemDir) (F := WritableFile) (T := DemoCache) :=
  MkDB MemTable_make immutable
    (MkVersionSet [Version_make] 4 2 1 0 0 (replicate (Z.to_nat kNumLevels) []) (Some (LogWriter_make (MkWritableFile [] [] [] (str "/db/MANIFEST-000002")) 0)))
    demo_cache [] (LogWriter_make (MkWritableFile [] [] [] (str "/db/000003.log")) 0) 3 OK [] None [] true false false [].

Abbreviation flush_good := (cache_good (length_of := run_length) (uncompress := run_uncompress) (cvalid := cache_ok (fun _ => 0))
  (kvalid := cache_ok (fun _ => 0)) 0 true (str "/db") flush_open).
Abbreviation flush_serves := (serves (length_of := run_length) (uncompress := run_uncompress) (str "/db") flush_open).

(** A new cache is good whatever the disk holds. *)
Lemma fresh_cache_good open_file : cache_good (length_of := run_length) (uncompress := run_uncompress) (cvalid := cache_ok (fun _ => 0))
  (kvalid := cache_ok (fun _ => 0)) 0 true (str "/db") open_file demo_cache.
Proof.
  destruct (no_blocks_good (length_of := run_length) (uncompress := run_uncompress) (kvalid := cache_ok (fun _ => 0)) 0 (str "/db") open_file
    (blockcache demo_cache) demo_no_blocks) as [Hv Hag].
  split; [apply Sharded_make_ok| |exact Hv|exact Hag].
  intros num t _ Hl. unfold demo_cache, flush_tables, Sharded_cache in Hl. cbn [clookup tcache] in Hl. by rewrite Sharded_make_empty in Hl.
Qed.

Lemma flush_cache_good : flush_good demo_cache.
Proof. apply fresh_cache_good. Qed.

Lemma flush_mem_holds : holds BytewiseComparatorImpl flush_mem [flush_entry].
Proof.
  destruct (Add_step (c := BytewiseComparatorImpl) demo_rnd MemTable_make [] flush_entry) as (m' & Hm & Hh).
  - apply holds_make.
  - unfold fits. vm_compute. intuition discriminate.
  - constructor.
  - unfold flush_mem. unfold flush_entry in Hm. cbn [mkey mvalue sequence type userkey] in Hm. by rewrite Hm.
Qed.

Lemma flush_db_holds d : db_imm d = Some flush_mem -> db_mem d = MemTable_make -> current (db_vs d) = Some Version_make ->
  vs_lastsequence (db_vs d) = 1 -> db_tables d = demo_cache ->
  db_holds (c := BytewiseComparatorImpl) (good := flush_good) (serves := flush_serves) (E := MemDir) (F := WritableFile) (fun _ => []) d [] [flush_entry].
Proof.
  intros Hi Hm Hc Hl Ht. split; rewrite ?Hi, ?Hm, ?Ht; unfold GetLastSequence; rewrite ?Hl; try done.
  - apply holds_make.
  - apply flush_mem_holds.
  - exists Version_make. split; [done|]. split.
    + apply Version_make_ok.
    + intros e He. by apply Version_make_empty in He.
  - apply flush_cache_good.
  - repeat constructor.
  - intros a ->%list_elem_of_singleton. by vm_compute.
Qed.

Abbreviation demo_flush := (CompactMemTable BytewiseComparatorImpl 0 0 (G := SequentialFile) run_compress 2 16 kNoCompression 0 (str "/db") 2097152 (fun d => d)).
Abbreviation flush_started := (flush_db (Some flush_mem)).
Abbreviation flush_allocated := (set_pendingoutputs [4] (set_versions (set_next 5 (db_vs flush_started)) demo_cache [] flush_started)).

Lemma flush_files d : vs_nextfilenumber (db_vs d) = 4 \/ vs_nextfilenumber (db_vs d) = 5 ->
  (vs_lastsequence (db_vs d), vs_lognumber (db_vs d), vs_prevlognumber (db_vs d), db_logfilenumber d) = (1, 0, 0, 3) ->
  current (db_vs d) = Some Version_make -> descriptorlog (db_vs d) = descriptorlog (db_vs flush_started) ->
  db_files (c := BytewiseComparatorImpl) (E := MemDir) (T := DemoCache) d [] [].
Proof.
  intros Hn [= Hl Hlg Hp Hlf] Hc Hd. split.
  - exists Version_make. split; [done|]. split; [apply Version_make_wf|]. intros L g HL Hg. rewrite Version_make_no_files in Hg. by apply not_elem_of_nil in Hg.
  - eexists. rewrite Hd. split; [done|]. apply manifest_make; [constructor|done].
  - unfold counters_fit. rewrite Hl, Hlg, Hp. lia.
  - rewrite Hlg, Hlf. lia.
Qed.

Lemma flush_keeps_contents_witness : exists d' dat', demo_flush flush_started = Some d' /\ db_imm d' = None /\
  vs_lognumber (db_vs d') = 3 /\ in_db dat' d' [] [] (mem_ientry flush_entry).
Proof.
  destruct (flush_keeps_contents (c := BytewiseComparatorImpl) (length_of := run_length) (uncompress := run_uncompress)
    (HO := cache_opener_ok (cvalid := cache_ok (fun _ => 0)) (kvalid := cache_ok (fun _ => 0)) 0 true (str "/db") flush_open 10 ReadOptions_make)
    0 0 2 16 kNoCompression 0 (str "/db") 2097152 ltac:(lia) (fun d => d) (fun _ => []) flush_started flush_allocated flush_mem [] [flush_entry] [] []
    (MkWritableFile [] [] [] (str "/db/000004.ldb")) [])
    as (d' & dat' & e & fr & Hc & Hi & _ & Hin & _ & Hlog & _).
  - reflexivity.
  - reflexivity.
  - discriminate.
  - split; [done| |by left|done|done]. exists Version_make, Version_make. split; [done|]. split; [done|]. intros l. apply same_refl.
  - by apply flush_files; [left|..].
  - by apply flush_db_holds.
  - by apply flush_files; [right|..].
  - intros v L [= <-]. rewrite Version_make_no_files. done.
  - by vm_compute.
  - by vm_compute.
  - intros name Hn. vm_compute in Hn. by injection Hn as <-.
  - intros s meta f env2 Hb. exists (MkMmapFile (str "/db/000004.ldb") flush_data). split.
    + intros name Hn. unfold flush_open, demo_fs. vm_compute in Hn. by injection Hn as <-.
    + unfold flush_data. change (db_env flush_allocated) with ([] : MemDir) in Hb. change (vs_nextfilenumber (db_vs flush_started)) with 4 in Hb. by rewrite Hb.
  - exists d', dat'. split; [exact Hc|]. split; [exact Hi|]. split.
    + rewrite Hlog. enough (Some (db_logfilenumber d') = Some 3) as Hl by by injection Hl.
      transitivity (option_map db_logfilenumber (demo_flush flush_started)); [|by vm_compute].
      exact (eq_sym (f_equal (option_map db_logfilenumber) Hc)).
    + apply Hin. left. exists flush_entry. split; [by apply list_elem_of_singleton|done].
Defined.

(** A log that is no longer needed goes, CURRENT stays. *)
Definition flush_old : DB (E := MemDir) (F := WritableFile) (T := DemoCache) :=
  set_versions (set_logs 3 0 (db_vs flush_started)) demo_cache [(str "/db/000001.log", []); (str "/db/CURRENT", [])] flush_started.


(** When the table cannot be created the status of [BuildTable] is lost: the memtable is
    dropped all the same, no file takes its place, and its log is given up. *)
#[local] Instance full_disk : FileEnv MemDir WritableFile SequentialFile := {|
  NewWritableFile d name := (IOError name (str "No space left on device"), None, d);
  NewAppendableFile d name := (IOError name (str "No space left on device"), None, d);
  NewSequentialFile := NewSequentialFile (FileEnv := flush_env) (F := WritableFile);
  GetFileSize := GetFileSize (FileEnv := flush_env) (F := WritableFile) (G := SequentialFile);
  FileExists := FileExists (FileEnv := flush_env) (F := WritableFile) (G := SequentialFile);
  RenameFile := RenameFile (FileEnv := flush_env) (F := WritableFile) (G := SequentialFile);
  RemoveFile := RemoveFile (FileEnv := flush_env) (F := WritableFile) (G := SequentialFile);
  GetChildren := GetChildren (FileEnv := flush_env) (F := WritableFile) (G := SequentialFile);
  CreateDir := CreateDir (FileEnv := flush_env) (F := WritableFile) (G := SequentialFile);
  LockFile := LockFile (FileEnv := flush_env) (F := WritableFile) (G := SequentialFile);
  fsync := fsync (E := MemDir) (FileEnv := flush_env) (G := SequentialFile);
  fclose := fclose (E := MemDir) (FileEnv := flush_env) (G := SequentialFile)
|}.

Example failed_flush_loses_memtable :
  (let? d := CompactMemTable (H := full_disk) BytewiseComparatorImpl 0 0 run_compress 2 16 kNoCompression 0 (str "/db") 2097152 (fun d => d) flush_started in
   let? v := current (db_vs d) in
   Some (bool_decide (db_imm d = None), concat (map (level_files v) all_levels), vs_lognumber (db_vs d), db_bgerror d)) =
  Some (true, [], 3, OK).
Proof. by vm_compute. Qed.
