(* ===== verification/Recovery.v ===== *)
(** Opening a database: recovering the files, replaying the logs (redisdb/db/db.cc:
    [MaybeIgnoreError], [RecoverLogFile], [Recover], [Open]).

    [DB::mem] is null until the database is open; here it is a value of its own, of type
    [option MemTable], beside the database. *)
From Stdlib Require Import Sorted Permutation.
From stdpp Require Import gmap sorting sets relations.
From S2P Require Import Prelude Coding Status Env DbFormat Block TableFormat LogFormat LruCache Iterators SkipList MemTable WriteBatch VersionEdit FileIO FileName Table TableCache Version VersionBuilder VersionSet Database Flush.
Local Open Scope Z_scope.

Section Recovery.
Context (c : Comparator) (rnd : nat -> Z) (taddr recordaddr readaddr : Z).
Context {E F G T : Type} `{FileEnv E F G} `{AppendFile F} `{ReadFile G} `{TableOpener T}.
Context (compress : bytes -> option bytes) (interval blocksize : Z) (compression : CompressionType) (addr : Z).
(** [dbname] and the options. *)
Context (dbname : bytes) (maxfilesize writebuffersize : Z) (paranoidchecks reuselogs createifmissing errorifexists : bool).

Abbreviation DBState := (DB (E := E) (F := F) (T := T)).

Definition MaybeIgnoreError (s : Status) : Status := if ok s || paranoidchecks then s else OK.

(** What the loop of [RecoverLogFile] keeps. *)
Record Replay := MkReplay {
  rp_db : DBState;
  rp_mem : option MemTable;
  rp_savemanifest : bool;
  rp_edit : VersionEdit;
  rp_maxsequence : Z;
  rp_compactions : Z
}.

(** [WriteLevel0Table(mem, edit, nullptr)], with the manifest to be saved; the memtable is
    given up. *)
Definition replay_flush (mem : MemTable) (st : Replay) : option (Status * Replay) :=
  let? (s, edit, d) := WriteLevel0Table c (G := G) compress interval blocksize compression addr dbname maxfilesize (fun d => d) mem
    (rp_edit st) None (rp_db st) in
  Some (s, MkReplay d None true edit (rp_maxsequence st) (rp_compactions st)).

(** A record of the log that is no smaller than a header. *)
Definition replay_record (record : bytes) (st : Replay) : option (Status * Replay) :=
  let mem := default MemTable_make (rp_mem st) in
  let batch := SetContents record in
  let? (status, mem) := InsertInto c rnd batch mem in
  let status := MaybeIgnoreError status in
  if negb (ok status) then
    Some (status, MkReplay (rp_db st) (Some mem) (rp_savemanifest st) (rp_edit st) (rp_maxsequence st) (rp_compactions st))
  else
    let lastseq := u64 (GetSequence batch + Count batch - 1) in
    let max := if rp_maxsequence st <? lastseq then lastseq else rp_maxsequence st in
    let st := MkReplay (rp_db st) (Some mem) (rp_savemanifest st) (rp_edit st) max (rp_compactions st) in
    if writebuffersize <? GetMemoryUsage mem then
      replay_flush mem (MkReplay (rp_db st) (rp_mem st) (rp_savemanifest st) (rp_edit st) max (i32 (rp_compactions st + 1)))
    else Some (status, st).

(** The [while] loop; each turn but the last takes a byte from the file. *)
Fixpoint replay_loop (fuel : nat) (r : LogReader (G := G)) (status : Status) (st : Replay) : option (Status * Replay) :=
  match fuel with
  | O => None
  | S fuel =>
      let? (more, record, r) := ReadRecord readaddr r in
      if more && ok status then
        if Z.of_nat (length record) <? 12 then replay_loop fuel r status st
        else
          let? (status, st) := replay_record record st in
          if negb (ok status) then Some (status, st) else replay_loop fuel r status st
      else Some (status, st)
  end.

(** [thismem] is [this->mem]. *)
Definition RecoverLogFile (number : Z) (lastLog savemanifest : bool) (edit : VersionEdit) (maxsequence : Z)
    (thismem : option MemTable) (d : DBState) : option (Status * option MemTable * Replay) :=
  let? fname := LogFileName dbname number in
  let '(status, file) := NewSequentialFile (F := F) (db_env d) fname in
  let st := MkReplay d None savemanifest edit maxsequence 0 in
  if negb (ok status) then Some (MaybeIgnoreError status, thismem, st)
  else
    let? file := file in
    let? (status, st) := replay_loop (S (length (remaining file))) (LogReader_make file true true 0) status st in
    (* see if we should keep reusing the last log file *)
    let? (thismem, st) :=
      if ok status && reuselogs && lastLog && (rp_compactions st =? 0) then
        let d := rp_db st in
        let '(s, size) := GetFileSize (F := F) (G := G) (db_env d) fname in
        if negb (ok s) then Some (thismem, st)
        else
          let '(s, logfile, env) := NewAppendableFile (F := F) (G := G) (db_env d) fname in
          let d := set_versions (db_vs d) (db_tables d) env d in
          if negb (ok s) then
            Some (thismem, MkReplay d (rp_mem st) (rp_savemanifest st) (rp_edit st) (rp_maxsequence st) (rp_compactions st))
          else
            let? logfile := logfile in
            let d := set_logfile (LogWriter_make logfile size) number d in
            Some (Some (default MemTable_make (rp_mem st)),
              MkReplay d None (rp_savemanifest st) (rp_edit st) (rp_maxsequence st) (rp_compactions st))
      else Some (thismem, st) in
    match rp_mem st with
    | Some mem =>
        (* [mem] did not get reused; compact it *)
        if ok status then let? (status, st) := replay_flush mem st in Some (status, thismem, st)
        else Some (status, thismem, st)
    | None => Some (status, thismem, st)
    end.

(** The logs that [Recover] replays: those at or after the version's log number, sorted. *)
Definition log_numbers (minLog prevLog : Z) (filenames : list bytes) : list Z :=
  merge_sort Z.le (omap (fun name =>
    match ParseFileName name with
    | Some (number, kLogFile) => if (minLog <=? number) || (number =? prevLog) then Some number else None
    | _ => None
    end) filenames).

Definition mark_used (n : Z) (d : DBState) : DBState := set_versions (MarkFileNumberUsed n (db_vs d)) (db_tables d) (db_env d) d.

Fixpoint recover_logs (logs : list Z) (savemanifest : bool) (edit : VersionEdit) (maxsequence : Z) (thismem : option MemTable) (d : DBState)
    : option (Status * option MemTable * Replay) :=
  match logs with
  | [] => Some (OK, thismem, MkReplay d None savemanifest edit maxsequence 0)
  | n :: logs =>
      let? (s, thismem, st) := RecoverLogFile n (bool_decide (logs = [])) savemanifest edit maxsequence thismem d in
      if negb (ok s) then Some (s, thismem, st)
      else recover_logs logs (rp_savemanifest st) (rp_edit st) (rp_maxsequence st) thismem (mark_used n (rp_db st))
  end.

Definition set_env (env : E) (d : DBState) : DBState := set_versions (db_vs d) (db_tables d) env d.

(** [DB::Recover]: the status, [this->mem], [*savemanifest], the edit and the database. *)
Definition Recover_ (edit : VersionEdit) (savemanifest : bool) (thismem : option MemTable) (d : DBState)
    : option (Status * option MemTable * bool * VersionEdit * DBState) :=
  let '(_, env) := CreateDir (F := F) (G := G) (db_env d) dbname in
  let '(s, env) := LockFile (F := F) (G := G) env (LockFileName dbname) in
  let d := set_env env d in
  if negb (ok s) then Some (s, thismem, savemanifest, edit, d)
  else
    let? (s, env) :=
      if negb (FileExists (F := F) (G := G) env (CurrentFileName dbname)) then
        if createifmissing then NewDB taddr recordaddr (F := F) (G := G) dbname env
        else Some (InvalidArgument dbname (str "does not exist (create_if_missing is false)"), env)
      else if errorifexists then Some (InvalidArgument dbname (str "exists (error_if_exists is true)"), env)
      else Some (s, env) in
    let d := set_env env d in
    if negb (ok s) then Some (s, thismem, savemanifest, edit, d)
    else
      let? (s, savemanifest, vs, env) := Recover c readaddr dbname reuselogs maxfilesize savemanifest (db_vs d) env in
      let d := set_versions vs (db_tables d) env d in
      if negb (ok s) then Some (s, thismem, savemanifest, edit, d)
      else
        let '(s, filenames) := GetChildren (F := F) (G := G) env dbname in
        if negb (ok s) then Some (s, thismem, savemanifest, edit, d)
        else
          let logs := log_numbers (vs_lognumber vs) (vs_prevlognumber vs) filenames in
          let? (s, thismem, st) := recover_logs logs savemanifest edit 0 thismem d in
          let d := rp_db st in
          if negb (ok s) then Some (s, thismem, rp_savemanifest st, rp_edit st, d)
          else
            let? d :=
              if GetLastSequence (db_vs d) <? rp_maxsequence st then
                let? vs := vs_SetLastSequence (rp_maxsequence st) (db_vs d) in Some (set_versions vs (db_tables d) (db_env d) d)
              else Some d in
            Some (s, thismem, rp_savemanifest st, rp_edit st, d).

(** [Open]; the database is open when the status is [OK]. *)
Definition Open (d : DBState) : option (Status * DBState) :=
  let? (s, thismem, savemanifest, edit, d) := Recover_ VersionEdit_make false None d in
  let? (s, d) :=
    if ok s then
      match thismem with
      | Some mem => Some (s, set_memtables mem (db_imm d) d)
      | None =>
          let '(number, vs) := NewFileNumber (db_vs d) in
          let? name := LogFileName dbname number in
          let '(s, logfile, env) := NewWritableFile (F := F) (G := G) (db_env d) name in
          let d := set_versions vs (db_tables d) env d in
          if ok s then
            let? logfile := logfile in
            Some (s, set_memtables MemTable_make (db_imm d) (set_logfile (LogWriter_make logfile 0) number d))
          else Some (s, d)
      end
    else Some (s, d) in
  let? (s, d) :=
    if ok s && savemanifest then
      let edit := SetLogNumber (SetPrevLogNumber edit 0) (db_logfilenumber d) in
      let? (s, _, vs, env) := LogAndApply c taddr recordaddr (G := G) dbname edit (db_vs d) (db_env d) in
      Some (s, set_versions vs (db_tables d) env d)
    else Some (s, d) in
  if ok s then
    let? d := DeleteObsoleteFiles (F := F) (G := G) dbname d in
    let? d := MaybeScheduleCompaction d in Some (s, d)
  else Some (s, d).
End Recovery.

(** ** Replaying a log *)

(** Creating a table's file leads from [env] to [env']. *)
Definition created {E F G : Type} `{FileEnv E F G} (dbname : bytes) (env env' : E) : Prop :=
  exists num name s f, TableFileName dbname num = Some name /\ NewWritableFile (F := F) (G := G) env name = (s, f, env').

Section Replaying.
Context {c : Comparator} {Hok : ComparatorOk c (fun _ => True)} {Hshort : ComparatorShort (InternalKeyComparator c) internal_dom}.
Context {E F G : Type} `{FileEnv E F G} `{AppendFileOk F} {HE : FileEnvOk E F G} {goodfile : G -> Prop} `{ReadFileOk G goodfile}.
Context {compress : bytes -> option bytes} {length_of : bytes -> option Z} {uncompress : bytes -> option bytes}.
Context {Hsnappy : SnappyOk compress length_of uncompress}.
Context {T : Type} `{TableSource T} {good : T -> Prop} {serves : Z -> Z -> list ientry -> Prop} {HT : TableSourceOk T c good serves}.
Context `{TableOpener T} {opens_to : Z -> bytes -> Prop}
  {HO : TableOpenerOk T c good serves (finished (c := c) (length_of := length_of) (uncompress := uncompress)) opens_to}.
Context (rnd : nat -> Z) (taddr recordaddr readaddr interval blocksize : Z) (compression : CompressionType) (addr : Z) (dbname : bytes)
  (maxfilesize writebuffersize : Z) (paranoidchecks : bool) (env0 : E).
Hypothesis Hinterval : 1 <= interval.

Abbreviation DBState := (DB (E := E) (F := F) (T := T)).
Abbreviation tableof := (table_of (c := c) (serves := serves)).

(** The memtables that the loop fills one after the other: those it writes as tables
    because they have grown too large, and the last one. *)
Fixpoint replay_chunks (gs : list group) (acc : list MemEntry) : list (list MemEntry) * list MemEntry :=
  match gs with
  | [] => ([], acc)
  | g :: gs =>
      let acc := acc ++ entries g.1 g.2 in
      if writebuffersize <? usage acc then let '(cs, l) := replay_chunks gs [] in (acc :: cs, l) else replay_chunks gs acc
  end.

Lemma replay_chunks_all gs : forall acc, concat (replay_chunks gs acc).1 ++ (replay_chunks gs acc).2 = acc ++ group_entries gs.
Proof.
  induction gs as [|g gs IH]; intros acc; cbn [replay_chunks]; [unfold group_entries; cbn; by rewrite app_nil_r|].
  unfold group_entries. cbn [map concat]. fold (group_entries gs). rewrite app_assoc. case_match.
  - specialize (IH []). destruct (replay_chunks gs []) as [cs l]. cbn in *. by rewrite <- app_assoc, IH.
  - apply IH.
Qed.

(** What the disk has to do for a table of [es] as file [num]. *)
Definition tabled (num : Z) (es : list MemEntry) : Prop :=
  5 * usage es + 300 < 2 ^ 32 /\ 0 < num < 2 ^ 64 - 1 /\
  forall m env s meta f env2, holds c m es -> rtc (created (F := F) (G := G) dbname) env0 env ->
    BuildTable_file c (G := G) compress interval blocksize compression addr dbname m num env = Some (s, meta, Some f, env2) ->
    opens_to num (contents f).

(** The tables get their numbers from [next] on. *)
Fixpoint number_tables (next : Z) (chunks : list (list MemEntry)) : list (Z * list MemEntry) :=
  match chunks with [] => [] | es :: chunks => (next, es) :: number_tables (next + 1) chunks end.

Abbreviation all_tabled := (fun next chunks => Forall (fun p => tabled p.1 p.2) (number_tables next chunks)).
Abbreviation tables_at := (fun next chunks metas => Forall2 (fun p meta => tableof p.1 p.2 meta) (number_tables next chunks) metas).

Lemma number_tables_app a : forall next b, number_tables next (a ++ b) = number_tables next a ++ number_tables (next + len a) b.
Proof.
  induction a as [|x a IH]; intros next b; cbn [number_tables app length]; [by rewrite Z.add_0_r|]. rewrite IH. do 3 f_equal. lia.
Qed.

Lemma length_number_tables a : forall next, length (number_tables next a) = length a.
Proof. induction a as [|x a IH]; intros next; [done|]. cbn. by rewrite IH. Qed.

Definition add_table (e : VersionEdit) (meta : file) : VersionEdit := AddFile e 0 (number meta) (VersionEdit.filesize meta) (smallest meta) (largest meta).

(** The disk takes new files. *)
Hypothesis Hnew : forall env num name, rtc (created (F := F) (G := G) dbname) env0 env -> TableFileName dbname num = Some name ->
  exists f env', NewWritableFile (G := G) env name = (OK, Some f, env').

Lemma replay_flush_ok m es st (next := vs_nextfilenumber (db_vs (rp_db st))) :
  db_pending (rp_db st) = [] -> good (db_tables (rp_db st)) -> rtc (created (F := F) (G := G) dbname) env0 (db_env (rp_db st)) ->
  holds c m es -> es <> [] -> tabled next es ->
  exists meta t' env', tableof next es meta /\ good t' /\ rtc (created (F := F) (G := G) dbname) env0 env' /\
    replay_flush c (E := E) (F := F) (G := G) compress interval blocksize compression addr dbname maxfilesize m st =
      Some (OK, MkReplay (set_versions (set_next (next + 1) (db_vs (rp_db st))) t' env' (rp_db st)) None true (add_table (rp_edit st) meta)
        (rp_maxsequence st) (rp_compactions st)).
Proof.
  intros Hpend Ht Hr Hm Hne (Hu & Hnum & Hopen). unfold replay_flush. set (d := rp_db st) in *.
  destruct (Hnew (db_env d) next _ Hr (TableFileName_Some dbname next ltac:(lia))) as (f & env' & Hf).
  destruct (WriteLevel0Table_ok (opens_to := opens_to) interval blocksize compression addr dbname maxfilesize Hinterval (fun d => d) d _ m es (rp_edit st) None f env' eq_refl Hm)
    as (meta & L & t' & Hmeta & _ & Ht' & HL & _ & HW).
  - done.
  - cbn. apply set_insert_Z. by left.
  - done.
  - unfold GetMemoryUsage. destruct Hm as (_ & -> & _). done.
  - done.
  - done.
  - intros name. rewrite TableFileName_Some by lia. by intros [= <-].
  - intros s meta f' env2 Hb. by apply (Hopen m (db_env d) s meta f' env2).
  - rewrite HW, HL by done. exists meta, t', env'. split; [done|]. split; [done|]. split.
    { eapply rtc_r; [exact Hr|]. eexists next, _, _, _. split; [by apply TableFileName_Some; lia|exact Hf]. }
    cbn [mbind option_bind]. do 2 f_equal. f_equal. cbn. rewrite u64_small by lia. rewrite Hpend. cbn.
    rewrite decide_False by (intros Hn; by apply Hn). cbn. by destruct d; cbn in *; subst.
Qed.

(** What the format asks of a group. *)
Definition group_fits (g : group) : Prop :=
  Forall op_fits g.2 /\ len g.2 < 2 ^ 31 /\ 0 <= g.1 /\ g.1 + len g.2 <= kMaxSequenceNumber + 1.

Definition group_last (g : group) : Z := g.1 + len g.2 - 1.

Definition last_sequence (gs : list group) (max : Z) : Z := fold_left (fun m g => Z.max m (group_last g)) gs max.

(** The memtable being filled has the entries [acc]; there is none before the first. *)
Definition filling (mem : option MemTable) (acc : list MemEntry) : Prop :=
  match mem with Some m => holds c m acc /\ acc <> [] | None => acc = [] end.

Lemma group_read g : group_fits g -> 
  GetSequence (SetContents (record_of_group g)) = g.1 /\ Count (SetContents (record_of_group g)) = len g.2.
Proof.
  intros (_ & Hn & Hz & Hmax). assert (batch (SetContents (record_of_group g)) g.1 g.2) as Hb by done. split.
  - apply (batch_header _ _ _ Hb). lia.
  - by apply (batch_Count _ _ _ Hb).
Qed.

Lemma entries_older g acc : g.2 <> [] -> StronglySorted seq_lt (acc ++ entries g.1 g.2) -> older g.1 acc.
Proof.
  intros Hne Hs. apply Forall_forall. intros e He. destruct (g.2) as [|o ops]; [done|].
  apply StronglySorted_app in Hs as (Hlt & _). rewrite <- (sequence_op_entry g.1 o). apply Hlt; [done|by left].
Qed.

(** A record puts its operations into the memtable, which is written as a table when it
    has grown too large. *)
Lemma replay_record_ok g acc st (acc' := acc ++ entries g.1 g.2) (d := rp_db st) (next := vs_nextfilenumber (db_vs d)) :
  group_fits g -> g.2 <> [] -> filling (rp_mem st) acc -> StronglySorted seq_lt acc' -> 0 <= rp_maxsequence st ->
  db_pending d = [] -> good (db_tables d) -> rtc (created (F := F) (G := G) dbname) env0 (db_env d) ->
  (writebuffersize < usage acc' -> tabled next acc') ->
  let max := Z.max (rp_maxsequence st) (group_last g) in
  let replay := replay_record c rnd (E := E) (F := F) (G := G) compress interval blocksize compression addr dbname maxfilesize writebuffersize paranoidchecks
    (record_of_group g) st in
  if writebuffersize <? usage acc' then
    exists meta t' env', tableof next acc' meta /\ good t' /\ rtc (created (F := F) (G := G) dbname) env0 env' /\
      replay = Some (OK, MkReplay (set_versions (set_next (next + 1) (db_vs d)) t' env' d) None true (add_table (rp_edit st) meta) max (i32 (rp_compactions st + 1)))
  else exists m, holds c m acc' /\ acc' <> [] /\
    replay = Some (OK, MkReplay d (Some m) (rp_savemanifest st) (rp_edit st) max (rp_compactions st)).
Proof.
  intros Hg Hne Hmem Hs Hmax Hpend Ht Hr Htab max replay. destruct (group_read g Hg) as [Hseq Hcnt]. pose proof Hg as (Hfit & Hn & Hz & Hgm).
  assert (acc' <> []) as Hacc by (unfold acc'; destruct g.2; [done|by destruct acc]).
  assert (holds c (default MemTable_make (rp_mem st)) acc) as Hm.
  { unfold filling in Hmem. destruct (rp_mem st); [by apply Hmem|subst acc; apply holds_make]. }
  destruct (InsertInto_step rnd (SetContents (record_of_group g)) g.1 g.2 _ acc eq_refl Hfit Hn Hz Hgm Hm (entries_older g acc Hne Hs)) as (m' & HI & Hm').
  assert (replay = (let st := MkReplay d (Some m') (rp_savemanifest st) (rp_edit st) max (rp_compactions st) in
    if writebuffersize <? GetMemoryUsage m' then
      replay_flush c (E := E) (F := F) (G := G) compress interval blocksize compression addr dbname maxfilesize m'
        (MkReplay d (rp_mem st) (rp_savemanifest st) (rp_edit st) max (i32 (rp_compactions st + 1)))
    else Some (OK, st))) as ->.
  { unfold replay, replay_record. rewrite HI. cbn [mbind option_bind]. unfold MaybeIgnoreError. cbn [ok OK orb negb].
    rewrite Hseq, Hcnt. rewrite (u64_small (g.1 + len g.2 - 1)) by (unfold kMaxSequenceNumber in *; destruct g.2; [done|cbn [length] in *; lia]).
    fold (group_last g). replace (if rp_maxsequence st <? group_last g then _ else _) with max; [done|]. unfold max. case_match; lia. }
  cbv zeta. unfold GetMemoryUsage. replace (memoryusage m') with (usage acc') by (symmetry; apply Hm'). case_match.
  - destruct (replay_flush_ok m' acc' (MkReplay d (rp_mem st) (rp_savemanifest st) (rp_edit st) max (i32 (rp_compactions st + 1)))) as (meta & t' & env' & P1 & P2 & P3 & P4);
      [done..|by apply Htab; lia|]. by exists meta, t', env'.
  - by exists m'.
Qed.

Lemma set_next_same (vs : VersionSet (F := F)) : set_next (vs_nextfilenumber vs) vs = vs.
Proof. by destruct vs. Qed.

(** The whole log: a table for every memtable that was full, and the memtable that is left. *)
Lemma replay_loop_ok gs : forall fuel n r r' st acc (d := rp_db st) (next := vs_nextfilenumber (db_vs d)),
  read_all n readaddr r = Some (map record_of_group gs, r') -> (length gs < fuel)%nat ->
  Forall (fun g => group_fits g /\ g.2 <> []) gs -> filling (rp_mem st) acc -> StronglySorted seq_lt (acc ++ group_entries gs) -> 0 <= rp_maxsequence st ->
  db_pending d = [] -> good (db_tables d) -> rtc (created (F := F) (G := G) dbname) env0 (db_env d) ->
  all_tabled next (replay_chunks gs acc).1 ->
  exists metas t' env' mem k, tables_at next (replay_chunks gs acc).1 metas /\ filling mem (replay_chunks gs acc).2 /\ good t' /\
    rtc (created (F := F) (G := G) dbname) env0 env' /\
    replay_loop c rnd readaddr (E := E) (F := F) (G := G) compress interval blocksize compression addr dbname maxfilesize writebuffersize paranoidchecks fuel r OK st =
      Some (OK, MkReplay (set_versions (set_next (next + len metas) (db_vs d)) t' env' d) mem
        (rp_savemanifest st || bool_decide (metas <> [])) (fold_left add_table metas (rp_edit st)) (last_sequence gs (rp_maxsequence st)) k).
Proof.
  induction gs as [|g gs IH]; intros fuel n r r' st acc d next Hr Hf Hgs Hmem Hs Hmax Hpend Ht Hdisk Htab;
    (destruct n as [|n]; [done|]); (destruct fuel as [|fuel]; [lia|]); cbn [read_all replay_loop] in Hr |- *;
    (destruct (ReadRecord readaddr r) as [[[more record] r1]|]; [|done]); cbn [mbind option_bind] in Hr |- *.
  - exists [], (db_tables d), (db_env d), (rp_mem st), (rp_compactions st). cbn [replay_chunks fst snd number_tables]. split_and!; [by constructor|done..|].
    destruct more; [destruct (read_all n readaddr r1) as [[rs r2]|]; by cbn in Hr|]. cbn [andb].
    cbn [length fold_left last_sequence]. rewrite bool_decide_eq_false_2, orb_false_r by (by intros Hn).
    unfold next, d. rewrite Z.add_0_r, set_next_same. by destruct st as [[] ? ? ? ? ?].
  - destruct more; [|done]. destruct (read_all n readaddr r1) as [[rs r2]|] eqn:Hr1; [|done]. cbn [mbind option_bind] in Hr.
    injection Hr as Hrec Hrs Hr2. subst record rs r2. cbn [andb ok OK].
    rewrite (proj2 (Z.ltb_ge _ _)) by (unfold record_of_group; rewrite !length_app, length_EncodeFixed64, length_EncodeFixed32; lia).
    apply Forall_cons in Hgs as [[Hg Hne] Hgs]. unfold group_entries in Hs. cbn [map concat] in Hs. fold (group_entries gs) in Hs. rewrite app_assoc in Hs.
    pose proof Hs as (_ & Hs1 & Hs2)%StronglySorted_app. cbn [replay_chunks] in Htab |- *.
    assert (0 <= Z.max (rp_maxsequence st) (group_last g)) as Hmax' by lia.
    pose proof (replay_record_ok g acc st Hg Hne Hmem Hs1 Hmax Hpend Ht Hdisk) as Hrec. cbv zeta in Hrec. fold d next in Hrec.
    destruct (writebuffersize <? usage (acc ++ entries g.1 g.2)) eqn:Hw.
    + destruct (replay_chunks gs []) as [cs l] eqn:Hc. cbn [fst snd number_tables] in Htab |- *. apply Forall_cons in Htab as [Htab Htabs].
      destruct (Hrec (fun _ => Htab)) as (meta & t1 & env1 & Hmeta & Ht1 & Hd1 & ->). cbn [mbind option_bind ok OK negb].
      match goal with |- context [replay_loop _ _ _ _ _ _ _ _ _ _ _ _ fuel r1 OK ?x] => set (st1 := x) end.
      destruct (IH fuel n r1 r' st1 []) as (metas & t' & env' & mem & k & Hms & Hmem' & Ht' & Hd' & Hl);
        [exact Hr1|cbn in Hf; lia|done|done|done|done|done|done|done|by rewrite Hc|].
      rewrite Hl. exists (meta :: metas), t', env', mem, k. rewrite Hc in Hms, Hmem'. split_and!; [by constructor|done..|].
      rewrite (bool_decide_eq_true_2 (meta :: metas <> [])), orb_true_r by done. replace (next + len (meta :: metas)) with (next + 1 + len metas) by (cbn [length]; lia). done.
    + destruct (Hrec ltac:(intros ?; lia)) as (m & Hm & Hne' & ->). cbn [mbind option_bind ok OK negb].
      match goal with |- context [replay_loop _ _ _ _ _ _ _ _ _ _ _ _ fuel r1 OK ?x] => set (st1 := x) end.
      destruct (IH fuel n r1 r' st1 (acc ++ entries g.1 g.2)) as (metas & t' & env' & mem & k & Hms & Hmem' & Ht' & Hd' & Hl);
        [exact Hr1|cbn in Hf; lia|done|done|done|done|done|done|done|done|].
      rewrite Hl. by exists metas, t', env', mem, k.
Qed.

(** The tables that replaying the groups of a log leaves: one for each full memtable and
    one for the rest. *)
Definition log_tables (gs : list group) : list (list MemEntry) :=
  let '(cs, l) := replay_chunks gs [] in match l with [] => cs | _ => cs ++ [l] end.

Lemma log_tables_all gs : concat (log_tables gs) = group_entries gs.
Proof.
  pose proof (replay_chunks_all gs []) as Hall. unfold log_tables. destruct (replay_chunks gs []) as [cs [|a l]]; cbn [fst snd app] in Hall.
  - by rewrite app_nil_r in Hall.
  - by rewrite concat_app; cbn [concat]; rewrite app_nil_r.
Qed.

(** The log [n] can be read as the records of [gs], whatever tables are written meanwhile. *)
Definition reads_as (n : Z) (gs : list group) : Prop :=
  0 < n /\ exists g k r', goodfile g /\ read_all k readaddr (LogReader_make g true true 0) = Some (map record_of_group gs, r') /\
    (length gs <= length (remaining g))%nat /\
    forall env fname, rtc (created (F := F) (G := G) dbname) env0 env -> LogFileName dbname n = Some fname -> NewSequentialFile (F := F) env fname = (OK, Some g).

(** A log that was written and then lost its end reads as its first groups, and as all
    of them when it lost nothing. *)
Lemma cut_log_reads (log : LogWriter (F := F)) gs n g num : log_holds log gs -> goodfile g -> remaining g = take n (contents (dest log)) -> 0 < num ->
  (forall env fname, rtc (created (F := F) (G := G) dbname) env0 env -> LogFileName dbname num = Some fname -> NewSequentialFile (F := F) env fname = (OK, Some g)) ->
  exists k, (k <= length gs)%nat /\ reads_as num (take k gs) /\ ((length (contents (dest log)) <= n)%nat -> k = length gs).
Proof.
  intros (Hh & Ho & fragss & HF & Hfit & Hc & He) Hg Hrem Hnum Hopen. rewrite Hc in Hrem. 
  pose proof (Forall2_length _ _ _ HF) as Hlen. rewrite length_map in Hlen.
  destruct (read_all_spec readaddr (map record_of_group gs) fragss HF _ kBlockSize (remaining g) (LogReader_make_inv g true true Hg))
    as (k & r' & Hk & Hread & _ & Hj).
  - rewrite layout_block_end, Hrem. apply prefix_take.
  - by apply frags_fit_block_end.
  - rewrite length_map in *. exists k. split; [done|]. split.
    + split; [done|]. exists g, (S (length gs)), r'. rewrite <- firstn_map. split; [done|]. split; [done|]. split; [|done].
      pose proof (layout_records _ _ (Forall2_take _ _ _ k HF) 0) as Hb. rewrite firstn_map, length_map in Hb.
      pose proof (proj2 (Hj k Hk) (Nat.le_refl k)) as Hle. rewrite layout_block_end in Hle. lia.
    + intros Hn. rewrite Hc in Hn. apply Nat.le_antisymm; [done|]. apply (Hj (length gs) (Nat.le_refl _)).
      rewrite layout_block_end, Hrem, take_ge by lia. rewrite take_ge by lia. done.
Qed.

Definition replayable (gs : list group) : Prop := Forall (fun g => group_fits g /\ g.2 <> []) gs /\ StronglySorted seq_lt (group_entries gs).

Abbreviation recoverlog := (RecoverLogFile c rnd readaddr (E := E) (F := F) (G := G) compress interval blocksize compression addr dbname maxfilesize
  writebuffersize paranoidchecks false).

Lemma LogFileName_Some n : 0 < n -> exists fname, LogFileName dbname n = Some fname.
Proof. intros Hn. unfold LogFileName, numbered. rewrite (proj2 (Z.ltb_lt _ _)) by done. by eexists. Qed.

Lemma RecoverLogFile_ok n gs last save edit max thismem d (next := vs_nextfilenumber (db_vs d)) :
  reads_as n gs -> replayable gs -> 0 <= max ->
  db_pending d = [] -> good (db_tables d) -> rtc (created (F := F) (G := G) dbname) env0 (db_env d) -> all_tabled next (log_tables gs) ->
  exists metas t' env' k, tables_at next (log_tables gs) metas /\ good t' /\ rtc (created (F := F) (G := G) dbname) env0 env' /\
    recoverlog n last save edit max thismem d =
      Some (OK, thismem, MkReplay (set_versions (set_next (next + len metas) (db_vs d)) t' env' d) None
        (save || bool_decide (metas <> [])) (fold_left add_table metas edit) (last_sequence gs max) k).
Proof.
  intros (Hn & g & k & r' & Hg & Hread & Hlen & Hopen) (Hgs & Hs) Hmax Hpend Ht Hdisk Htab.
  unfold RecoverLogFile. destruct (LogFileName_Some n Hn) as [fname Hname]. rewrite Hname. cbn [mbind option_bind].
  rewrite (Hopen _ _ Hdisk Hname). cbn [ok OK negb mbind option_bind]. unfold log_tables in *.
  destruct (replay_loop_ok gs (S (length (remaining g))) k _ r' (MkReplay d None save edit max 0) [] Hread) as
    (metas & t' & env' & mem & kk & Hms & Hmem & Ht' & Hd' & ->); try done; [lia| |].
  { destruct (replay_chunks gs []) as [cs [|a l]]; [done|]. cbn [fst]. rewrite number_tables_app in Htab. by apply Forall_app in Htab as [? _]. }
  cbn [mbind option_bind ok OK andb]. cbn [rp_mem rp_savemanifest rp_edit rp_maxsequence rp_db].
  destruct (replay_chunks gs []) as [cs l] eqn:Hc. cbn [fst snd] in Hms, Hmem. destruct mem as [m|]; cbn [filling] in Hmem.
  - destruct Hmem as [Hm Hne]. destruct l as [|a l]; [done|]. rewrite number_tables_app in Htab. apply Forall_app in Htab as [_ Htab].
    cbn [number_tables] in Htab. apply Forall_cons in Htab as [Htab _]. cbn [fst snd] in Htab.
    pose proof (Forall2_length _ _ _ Hms) as Hl. rewrite length_number_tables in Hl. rewrite Hl in Htab.
    match goal with |- context [replay_flush _ _ _ _ _ _ _ _ m ?x] => set (st1 := x) end.
    destruct (replay_flush_ok m (a :: l) st1) as (meta & t2 & env2 & Hmeta & Ht2 & Hd2 & ->); [done..|exact Htab|].
    cbn [mbind option_bind]. exists (metas ++ [meta]), t2, env2, kk. split_and!; try done.
    + rewrite number_tables_app. apply Forall2_app; [done|]. cbn [number_tables]. rewrite Hl. by repeat constructor.
    + rewrite fold_left_app, length_app. cbn [length fold_left]. rewrite (bool_decide_eq_true_2 (metas ++ [meta] <> [])), orb_true_r by (by destruct metas).
      subst st1. cbn [rp_db rp_edit rp_maxsequence rp_compactions db_vs set_versions set_next vs_nextfilenumber].
      replace (next + Z.of_nat (length metas + 1)) with (next + len metas + 1) by lia. done.
  - subst l. by exists metas, t', env', kk.
Qed.

(** *** All the logs *)

Definition next_used (n next : Z) : Z := if next <=? n then n + 1 else next.

(** The numbers of the tables, log after log. *)
Fixpoint logs_tables (next : Z) (logs : list (Z * list group)) : list (Z * list MemEntry) :=
  match logs with
  | [] => []
  | (n, gs) :: logs => number_tables next (log_tables gs) ++ logs_tables (next_used n (next + len (log_tables gs))) logs
  end.

Definition next_after (next : Z) (logs : list (Z * list group)) : Z :=
  fold_left (fun next x => next_used x.1 (next + len (log_tables x.2))) logs next.

Lemma number_tables_snd cs : forall next, map snd (number_tables next cs) = cs.
Proof. induction cs as [|es cs IH]; intros next; [done|]. cbn. by rewrite IH. Qed.

Lemma logs_tables_all logs : forall next, concat (map snd (logs_tables next logs)) = group_entries (concat (map snd logs)).
Proof.
  induction logs as [|[n gs] logs IH]; intros next; [done|]. cbn [logs_tables map concat snd].
  rewrite map_app, concat_app, IH, number_tables_snd, log_tables_all. unfold group_entries. by rewrite map_app, concat_app.
Qed.

Lemma mark_used_next n vs t env (d : DBState) : 0 <= n < 2 ^ 64 - 1 ->
  mark_used n (set_versions vs t env d) = set_versions (set_next (next_used n (vs_nextfilenumber vs)) vs) t env d.
Proof.
  intros Hn. unfold mark_used, MarkFileNumberUsed, next_used. cbn [db_vs set_versions db_tables db_env].
  destruct (_ <=? _); [by rewrite u64_small by lia|by rewrite set_next_same].
Qed.

Lemma last_sequence_ge gs : forall max, max <= last_sequence gs max.
Proof. unfold last_sequence. induction gs as [|g gs IH]; intros max; cbn [fold_left]; [lia|]. specialize (IH (Z.max max (group_last g))). lia. Qed.

Lemma last_sequence_app a b max : last_sequence (a ++ b) max = last_sequence b (last_sequence a max).
Proof. apply fold_left_app. Qed.

Lemma recover_logs_ok logs : forall save edit max thismem d (next := vs_nextfilenumber (db_vs d)),
  Forall (fun x => x.1 < 2 ^ 64 - 1 /\ reads_as x.1 x.2 /\ replayable x.2) logs -> 0 <= max ->
  db_pending d = [] -> good (db_tables d) -> rtc (created (F := F) (G := G) dbname) env0 (db_env d) ->
  Forall (fun p => tabled p.1 p.2) (logs_tables next logs) ->
  exists metas t' env' k, Forall2 (fun p meta => tableof p.1 p.2 meta) (logs_tables next logs) metas /\ good t' /\
    rtc (created (F := F) (G := G) dbname) env0 env' /\
    recover_logs c rnd readaddr (E := E) (F := F) (G := G) compress interval blocksize compression addr dbname maxfilesize
        writebuffersize paranoidchecks false (map fst logs) save edit max thismem d =
      Some (OK, thismem, MkReplay (set_versions (set_next (next_after next logs) (db_vs d)) t' env' d) None
        (save || bool_decide (metas <> [])) (fold_left add_table metas edit) (last_sequence (concat (map snd logs)) max) k).
Proof.
  induction logs as [|[n gs] logs IH]; intros save edit max thismem d next Hlogs Hmax Hpend Ht Hdisk Htab; cbn [map fst recover_logs logs_tables] in *.
  - exists [], (db_tables d), (db_env d), 0. split_and!; [by constructor|done..|].
    rewrite bool_decide_eq_false_2, orb_false_r by (by intros Hn). cbn [concat last_sequence fold_left next_after snd map]. unfold next. rewrite set_next_same. by destruct d.
  - apply Forall_cons in Hlogs as [(Hn & Hreads & Hrep) Hlogs]. cbn [fst snd] in Hn, Hreads, Hrep. apply Forall_app in Htab as [Htab Htabs].
    destruct (RecoverLogFile_ok n gs (bool_decide (map fst logs = [])) save edit max thismem d Hreads Hrep Hmax Hpend Ht Hdisk Htab) as
      (metas & t1 & env1 & k & Hms & Ht1 & Hd1 & ->).
    cbn [mbind option_bind ok OK negb]. cbn [rp_savemanifest rp_edit rp_maxsequence rp_db].
    pose proof Hreads as [Hn0 _]. rewrite mark_used_next by lia. set (d1 := set_versions _ t1 env1 d).
    pose proof (Forall2_length _ _ _ Hms) as Hl. rewrite length_number_tables in Hl.
    destruct (IH (save || bool_decide (metas <> [])) (fold_left add_table metas edit) (last_sequence gs max) thismem d1 Hlogs) as
      (metas2 & t2 & env2 & k2 & Hms2 & Ht2 & Hd2 & ->); try done.
    { pose proof (last_sequence_ge gs max). lia. }
    { rewrite Hl in Htabs. exact Htabs. }
    exists (metas ++ metas2), t2, env2, k2. split_and!; [|done|done|].
    + apply Forall2_app; [done|]. rewrite Hl. exact Hms2.
    + cbn [concat map snd]. rewrite fold_left_app, last_sequence_app.
      replace (save || bool_decide (metas ++ metas2 <> [])) with (save || bool_decide (metas <> []) || bool_decide (metas2 <> []));
        [|rewrite <- orb_assoc; f_equal; by destruct metas, metas2].
      unfold next_after. cbn [fold_left fst snd]. rewrite Hl. done.
Qed.
End Replaying.

(** ** The tables in the version *)

Section Installing.
Context {c : Comparator} {Hok : ComparatorOk c (fun _ => True)}.
Context {T : Type} `{TableSource T} {good : T -> Prop} {serves : Z -> Z -> list ientry -> Prop} {HT : TableSourceOk T c good serves}.

Abbreviation vok v dat := (version_ok (ucmp := c) (serves := serves) v (fun f => dat (number f))).
Abbreviation tableof := (table_of (c := c) (serves := serves)).

(** The files of a level above 0 are in order and apart. *)
Lemma version_ordered dat v K g : vok v dat -> is_level K -> g ∈ level_files v K -> Internal_Compare c (smallest g) (largest g) <> Gt.
Proof. intros Hvo HK Hg. apply (fh_ok _ _ (vo_file _ _ Hvo K g HK Hg)). Qed.

Lemma version_apart dat v K f g : vok v dat -> 0 < K -> is_level K -> f ∈ level_files v K -> g ∈ level_files v K -> f <> g -> apart (ucmp := c) f g.
Proof.
  intros Hvo HK0 HK [i Hi]%list_elem_of_lookup [j Hj]%list_elem_of_lookup Hne.
  pose proof (lv_disjoint _ (vo_level _ _ Hvo K ltac:(unfold is_level in HK; lia))) as Hd.
  destruct (Nat.lt_trichotomy i j) as [Hij|[->|Hij]].
  - left. by apply (sorted_lookup _ _ i j f g Hd).
  - rewrite Hi in Hj. by injection Hj as ->.
  - right. by apply (sorted_lookup _ _ j i g f Hd).
Qed.

(** An edit that adds files to level 0. *)
Lemma level0_installs dat v e b cp cp' : vok v dat -> version_wf (ucmp := c) v -> Forall (fun p => p.1 = 0) (newfiles e) -> deletedfiles e = [] ->
  NoDup (map (fun p => (p.1, number p.2)) (newfiles e)) -> (forall g p, g ∈ level_files v 0 -> p ∈ newfiles e -> number g < number p.2) ->
  Apply c e (Builder_make v) cp = Some (b, cp') ->
  exists v', SaveTo c b Version_make = Some v' /\ version_wf (ucmp := c) v' /\ forall K g, is_level K -> g ∈ level_files v' K <->
    g ∈ level_files v K \/ (K = 0 /\ exists p, p ∈ newfiles e /\ g = norm p.2).
Proof.
  intros Hvo Hwf Hnew Hdel Hnd Hnum Ha. rewrite Forall_forall in Hnew.
  assert (edit_levels e) as Hel.
  { split; [by rewrite Hdel; apply Forall_nil|apply Forall_forall; intros p Hp; by rewrite (Hnew p Hp)|done]. }
  assert (forall K g, is_level K -> g ∈ level_files v K -> (K, number g) ∉ map (fun p => (p.1, number p.2)) (newfiles e)) as Hfr.
  { intros K g HK Hg (p & Heq & Hp)%list_elem_of_fmap. injection Heq as -> Hn. rewrite (Hnew p Hp) in Hg. specialize (Hnum g p Hg Hp). lia. }
  assert (forall K g, g ∈ adds K (newfiles e) <-> K = 0 /\ exists p, p ∈ newfiles e /\ g = norm p.2) as Hadds.
  { intros K g. rewrite elem_of_adds. split.
    - intros (g' & Hg & ->). split; [by rewrite <- (Hnew _ Hg)|by exists (K, g')].
    - intros [-> ([K' g'] & Hp & ->)]. pose proof (Hnew _ Hp) as Hz. cbn in Hz. subst K'. by exists g'. }
  pose proof (saved_levels v e _ b _ Hwf Hel Hfr Ha) as Hsv.
  assert (forall K g, 0 < K -> is_level K -> g ∈ saved (ucmp := c) b K -> g ∈ level_files v K) as Hsave.
  { intros K g HK0 HK Hg. apply (Hsv K HK) in Hg as [[Hg _]|[-> _]%Hadds]; [done|lia]. }
  destruct (edit_installs v e _ b _ Hwf Hel Hfr Ha) as (v' & Hs & Hwf' & Hlev).
  { intros K g HK0 HK Hg. apply (version_ordered dat v K g Hvo HK). by apply Hsave. }
  { intros K g h HK0 HK Hg Hh. apply (version_apart dat v K g h Hvo HK0 HK); by apply Hsave. }
  exists v'. split; [done|]. split; [done|]. intros K g HK. rewrite (Hlev K g HK), Hadds, Hdel. split.
  - by intros [[? _]|?]; [left|right].
  - intros [?|?]; [left; split; [done|apply not_elem_of_nil]|by right].
Qed.

Lemma version_ok_ext dat v v' : (forall K, is_level K -> level_files v K = level_files v' K) -> vok v dat -> vok v' dat.
Proof.
  intros He [V1 V2 V3 V4 V5]. unfold is_level in *. split.
  - intros K f HK. rewrite <- He by done. by apply V1.
  - intros K HK. rewrite <- He by lia. by apply V2.
  - by rewrite <- He by done.
  - intros f g. rewrite <- He by done. apply V4.
  - intros K K' f g HK HK'. rewrite <- !He by lia. by apply V5.
Qed.

Lemma version_levels_eq v v' : version_wf (ucmp := c) v -> version_wf (ucmp := c) v' ->
  (forall K g, is_level K -> g ∈ level_files v K <-> g ∈ level_files v' K) -> forall K, is_level K -> level_files v K = level_files v' K.
Proof. intros Hwf Hwf' He K HK. apply (set_ordered_unique (ucmp := c)); [by apply wf_ordered..|]. intros g. by apply He. Qed.

Lemma sequence_in_ientries es e : e ∈ map mem_ientry es -> exists a, a ∈ es /\ e = mem_ientry a.
Proof. intros (a & -> & Ha)%list_elem_of_fmap. by exists a. Qed.

(** A table of newer entries under a larger number, at level 0. *)
Lemma add_table_ok dat v num es meta : vok v dat -> version_wf (ucmp := c) v -> tableof num es meta ->
  (forall K g, is_level K -> g ∈ level_files v K -> number g < num) ->
  (forall a e, a ∈ es -> in_version v (fun f => dat (number f)) e -> sequence e.1 < sequence (mkey a)) ->
  Z.of_nat (length (level_files v 0)) + 1 < 2 ^ 31 ->
  exists dat' v', vok v' dat' /\ version_wf (ucmp := c) v' /\
    (forall K g, is_level K -> g ∈ level_files v' K <-> g ∈ level_files v K \/ (K = 0 /\ g = norm meta)) /\
    (forall e, in_version v' (fun f => dat' (number f)) e <-> in_version v (fun f => dat (number f)) e \/ e ∈ map mem_ientry es).
Proof.
  intros Hvo Hwf Hmeta Hnum Hnewer Hsize. destruct (table_of_holds num es meta Hmeta) as (Hn & sorted & Hp & Hh). specialize (Hh dat).
  set (e := AddFile VersionEdit_make 0 (number meta) (VersionEdit.filesize meta) (smallest meta) (largest meta)).
  assert (newfiles e = [(0, meta)]) as Hne.
  { assert (exists sz sm la, meta = FileMetaData_make num sz sm la) as (sz & sm & la & ->) by (destruct Hmeta as (? & ? & ? & _ & _ & _ & _ & _ & _ & ->); by eexists _, _, _). done. }
  destruct (Apply c e (Builder_make v) []) as [[b cp']|] eqn:Ha; [|done].
  destruct (level0_installs dat v e b [] cp' Hvo Hwf) as (v' & _ & Hwf' & Hlev); rewrite ?Hne; try done.
  { by apply Forall_singleton. }
  { apply NoDup_singleton. }
  { intros g p Hg ->%list_elem_of_singleton. cbn. rewrite Hn. by apply (Hnum 0). }
  assert (forall K g, is_level K -> g ∈ level_files v' K <-> g ∈ level_files v K \/ (K = 0 /\ g = norm meta)) as Hlev'.
  { intros K g HK. rewrite (Hlev K g HK), Hne. split; (intros [?|[-> Hm]]; [by left|right; split; [done|]]).
    - by destruct Hm as (p & ->%list_elem_of_singleton & ->).
    - exists (0, meta). split; [by apply list_elem_of_singleton|done]. }
  assert (forall K g, is_level K -> g ∈ level_files v K -> number g < number meta) as Hlt by (rewrite Hn; done).
  exists (dat_add dat (map mem_ientry sorted) (number meta)), v'. split; [|split; [done|split; [done|]]].
  - apply (added_version_ok dat v v' 0 meta (map mem_ientry sorted) Hvo Hwf' Hlev' Hlt); try done.
    + rewrite Hn. exact Hh.
    + intros x y (a & Ha' & ->)%sequence_in_ientries Hy. apply Hnewer; [by rewrite <- Hp|done].
  - intros x. rewrite (in_added dat v v' 0 meta (map mem_ientry sorted)) by done. rewrite !list_elem_of_fmap. 
    split; (intros [?|(a & -> & Ha')]; [by left|right; exists a; split; [done|]]); [by rewrite <- Hp|by rewrite Hp].
Qed.

(** Several, in the order of their numbers and of the sequence numbers. *)
Lemma add_tables_ok ps metas : Forall2 (fun p meta => tableof p.1 p.2 meta) ps metas -> forall dat v,
  vok v dat -> version_wf (ucmp := c) v -> StronglySorted Z.lt (map fst ps) ->
  (forall K g p, is_level K -> g ∈ level_files v K -> p ∈ ps -> number g < p.1) ->
  StronglySorted seq_lt (concat (map snd ps)) ->
  (forall a e, a ∈ concat (map snd ps) -> in_version v (fun f => dat (number f)) e -> sequence e.1 < sequence (mkey a)) ->
  Z.of_nat (length (level_files v 0)) + len metas < 2 ^ 31 ->
  exists dat' v', vok v' dat' /\ version_wf (ucmp := c) v' /\
    (forall K g, is_level K -> g ∈ level_files v' K <-> g ∈ level_files v K \/ (K = 0 /\ exists meta, meta ∈ metas /\ g = norm meta)) /\
    (forall e, in_version v' (fun f => dat' (number f)) e <-> in_version v (fun f => dat (number f)) e \/ e ∈ map mem_ientry (concat (map snd ps))).
Proof.
  induction 1 as [|[num es] meta ps metas Hmeta Hms IH]; intros dat v Hvo Hwf Hnums Hlt Hseqs Hnewer Hsize; cbn [map concat fst snd length] in *.
  { exists dat, v. split; [done|]. split; [done|]. split.
    - intros K g HK. split; [by left|]. intros [?|[_ (m & Hm & _)]]; [done|by apply not_elem_of_nil in Hm].
    - intros e. split; [by left|]. intros [?|He]; [done|by apply not_elem_of_nil in He]. }
  apply StronglySorted_app in Hseqs as (Hsplit & Hs1 & Hs2). apply StronglySorted_inv in Hnums as [Hnums Hnum].
  rewrite Forall_forall in Hnum.
  destruct (add_table_ok dat v num es meta Hvo Hwf Hmeta) as (dat1 & v1 & Hvo1 & Hwf1 & Hlev1 & Hin1).
  { intros K g HK Hg. apply (Hlt K g (num, es) HK Hg). by left. }
  { intros a e Ha. apply Hnewer, elem_of_app. by left. }
  { lia. }
  destruct (table_of_holds num es meta Hmeta) as [Hn _].
  destruct (IH dat1 v1 Hvo1 Hwf1 Hnums) as (dat' & v' & Hvo' & Hwf' & Hlev' & Hin').
  - intros K g p HK [Hg|[-> ->]]%Hlev1 Hp; [|cbn; rewrite Hn|done].
    + apply (Hlt K g p HK Hg). by right.
    + apply Hnum. by apply list_elem_of_fmap_2.
  - done.
  - intros a e Ha [He|(x & Hx & ->)%sequence_in_ientries]%Hin1.
    + apply Hnewer; [apply elem_of_app; by right|done].
    + by apply Hsplit.
  - assert (level_files v1 0 ⊆+ norm meta :: level_files v 0) as Hsub%submseteq_length; [|cbn in Hsub; lia].
    apply NoDup_submseteq; [by apply (level_nodup v1)|]. intros g [Hg|[_ ->]]%Hlev1; [by right|by left|done].
  - exists dat', v'. split; [done|]. split; [done|]. split.
    + intros K g HK. rewrite (Hlev' K g HK), (Hlev1 K g HK). split.
      * intros [[?|[-> ->]]|[-> (m & Hm & ->)]]; [by left|right; split; [done|exists meta; split; [by left|done]]|right; split; [done|exists m; split; [by right|done]]].
      * intros [?|[-> (m & [->|Hm]%elem_of_cons & ->)]]; [by left; left|by left; right|right; split; [done|by exists m]].
    + intros e. rewrite Hin', Hin1, map_app, elem_of_app. tauto.
Qed.
End Installing.

(** ** Opening *)

Section Opening.
Context {c : Comparator} {Hok : ComparatorOk c (fun _ => True)} {Hshort : ComparatorShort (InternalKeyComparator c) internal_dom}.
Context {E F G : Type} `{FileEnv E F G} `{AppendFileOk F} {HE : FileEnvOk E F G} {goodfile : G -> Prop} `{ReadFileOk G goodfile}.
Context {compress : bytes -> option bytes} {length_of : bytes -> option Z} {uncompress : bytes -> option bytes}.
Context {Hsnappy : SnappyOk compress length_of uncompress}.
Context {T : Type} `{TableSource T} {good : T -> Prop} {serves : Z -> Z -> list ientry -> Prop} {HT : TableSourceOk T c good serves}.
Context `{TableOpener T} {opens_to : Z -> bytes -> Prop}
  {HO : TableOpenerOk T c good serves (finished (c := c) (length_of := length_of) (uncompress := uncompress)) opens_to}.
Context (rnd : nat -> Z) (taddr recordaddr readaddr interval blocksize : Z) (compression : CompressionType) (addr : Z) (dbname : bytes)
  (maxfilesize writebuffersize : Z) (paranoidchecks : bool) (env0 : E).
Hypothesis Hinterval : 1 <= interval.

Abbreviation DBState := (DB (E := E) (F := F) (T := T)).
Abbreviation vok v dat := (version_ok (ucmp := c) (serves := serves) v (fun f => dat (number f))).
Abbreviation tableof := (table_of (c := c) (serves := serves)).

(** The files as the manifest describes them, before it is written anew. *)
Record at_rest (dat : Z -> list ientry) (vs : VersionSet (F := F)) (v : Version) : Prop := {
  ar_current : current vs = Some v;
  ar_ok : vok v dat;
  ar_fits : version_fits (ucmp := c) v;
  ar_numbers L g : is_level L -> g ∈ level_files v L -> 0 < number g < vs_nextfilenumber vs;
  ar_manifest : descriptorlog vs = None /\ 0 < manifestfilenumber vs;
  ar_pointers : Forall key_fits (compactPointer vs) /\ key_fits (Name c);
  ar_counters : 0 <= vs_lognumber vs <= vs_nextfilenumber vs /\ 0 <= vs_prevlognumber vs < 2 ^ 64 /\ 0 <= vs_lastsequence vs <= kMaxSequenceNumber;
  ar_seen e : in_version v (fun f => dat (number f)) e -> sequence e.1 <= vs_lastsequence vs
}.

(** The edit that [RecoverLogFile] fills and [Open] completes. *)
Definition recovery_edit (metas : list file) (log : Z) : VersionEdit := SetLogNumber (SetPrevLogNumber (fold_left add_table metas VersionEdit_make) 0) log.

Lemma fold_add_table metas : forall e, fold_left add_table metas e =
  MkVersionEdit (comparator e) (lognumber e) (prevlognumber e) (nextfilenumber e) (lastsequence e) (hascomparator e) (haslognumber e)
    (hasprevlognumber e) (hasnextfilenumber e) (haslastsequence e) (compactpointers e) (deletedfiles e) (newfiles e ++ map (fun m => (0, bare m)) metas).
Proof.
  induction metas as [|m metas IH]; intros e; cbn [fold_left map]; [rewrite app_nil_r; by destruct e|].
  rewrite IH. unfold add_table, AddFile, add_newfile. cbn. by rewrite <- app_assoc.
Qed.

Lemma table_bare num es meta : tableof num es meta -> bare meta = meta.
Proof. by intros (? & ? & ? & _ & _ & _ & _ & _ & _ & ->). Qed.

Lemma tables_bare ps metas : Forall2 (fun p meta => tableof p.1 p.2 meta) ps metas -> map (fun m => (0, bare m)) metas = map (pair 0) metas.
Proof. induction 1 as [|p m ps metas Hm Hms IH]; [done|]. cbn. by rewrite IH, (table_bare _ _ _ Hm). Qed.

Lemma tables_numbers ps metas : Forall2 (fun p meta => tableof p.1 p.2 meta) ps metas -> map number metas = map fst ps.
Proof. induction 1 as [|p m ps metas Hm Hms IH]; [done|]. cbn. rewrite IH. f_equal. by apply (table_of_holds _ _ _ Hm). Qed.

Lemma tables_fit ps metas : Forall2 (fun p meta => tableof p.1 p.2 meta) ps metas -> Forall (fun p => 0 < p.1 < 2 ^ 64) ps ->
  Forall (fun m => file_fits m /\ smallest m <> [] /\ largest m <> []) metas.
Proof.
  induction 1 as [|p m ps metas Hm Hms IH]; intros Hps; [constructor|]. apply Forall_cons in Hps as [Hp Hps]. constructor; [|by apply IH].
  split; [by apply (table_of_fits _ _ _ Hm)|]. destruct (table_of_holds _ _ _ Hm) as (_ & sorted & _ & Hh).
  apply (file_keys_set m (fh_ok _ _ (Hh (fun _ => [])))).
Qed.

Lemma recovery_edit_ok ps metas log next seq : Forall2 (fun p meta => tableof p.1 p.2 meta) ps metas -> Forall (fun p => 0 < p.1 < 2 ^ 64) ps ->
  0 <= log < 2 ^ 64 -> 0 <= next < 2 ^ 64 -> 0 <= seq < 2 ^ 64 ->
  let e := SetLastSequence (SetNextFile (recovery_edit metas log) next) seq in
  recordable e /\ newfiles e = map (pair 0) metas /\ deletedfiles e = [] /\ compactpointers e = [].
Proof.
  intros Hms Hps Hlog Hnext Hseq e. pose proof (tables_fit ps metas Hms Hps) as Hfits.
  assert (newfiles e = map (pair 0) metas /\ deletedfiles e = [] /\ compactpointers e = []) as (Hn & Hd & Hc).
  { unfold e, recovery_edit. rewrite fold_add_table, (tables_bare ps metas Hms). done. }
  split; [|done]. split; [|split; [by rewrite Hc; apply Forall_nil|]].
  - split; rewrite ?Hn, ?Hd, ?Hc; try (by apply Forall_nil); try (by constructor); try (unfold e, recovery_edit, key_fits; rewrite fold_add_table; cbn; lia).
    apply Forall_map. eapply Forall_impl; [exact Hfits|]. intros m [? _]. by split.
  - rewrite Hn. apply Forall_map. eapply Forall_impl; [exact Hfits|]. intros m [_ ?]. done.
Qed.

(** The manifest is written anew, with a snapshot and the recovered tables. *)
Lemma LogAndApply_recovered dat vs v env ps metas logno mname f env1 env2 :
  at_rest dat vs v -> vs_nextfilenumber vs < 2 ^ 64 -> Forall2 (fun p meta => tableof p.1 p.2 meta) ps metas ->
  StronglySorted Z.lt (map fst ps) -> (forall p, p ∈ ps -> 0 < p.1 < 2 ^ 64 /\ forall K g, is_level K -> g ∈ level_files v K -> number g < p.1) ->
  StronglySorted seq_lt (concat (map snd ps)) ->
  (forall a e, a ∈ concat (map snd ps) -> in_version v (fun f => dat (number f)) e -> sequence e.1 < sequence (mkey a)) ->
  Z.of_nat (length (level_files v 0)) + len metas < 2 ^ 31 -> vs_lognumber vs <= logno < vs_nextfilenumber vs ->
  DescriptorFileName dbname (manifestfilenumber vs) = Some mname -> NewWritableFile (G := G) env mname = (OK, Some f, env1) ->
  SetCurrentFile (F := F) (G := G) env1 dbname (manifestfilenumber vs) = Some (OK, env2) ->
  exists e e0 v' dat' log frs, LogAndApply c taddr recordaddr (G := G) dbname (recovery_edit metas logno) vs env =
      Some (OK, e, MkVersionSet (tail (dummyversions vs) ++ [Finalize v']) (vs_nextfilenumber vs) (manifestfilenumber vs)
        (vs_lastsequence vs) logno 0 (compactPointer vs) (Some log), env2) /\
    manifest_holds log [e0; e] frs /\ vok (Finalize v') dat' /\ version_wf (ucmp := c) (Finalize v') /\
    (forall K g, is_level K -> g ∈ level_files (Finalize v') K <-> g ∈ level_files v K \/ (K = 0 /\ exists m, m ∈ metas /\ g = norm m)) /\
    (forall x, in_version (Finalize v') (fun f => dat' (number f)) x <-> in_version v (fun f => dat (number f)) x \/ x ∈ map mem_ientry (concat (map snd ps))).
Proof.
  intros [Hcur Hvo Hfit _ [Hlog Hmn] [Hptr Hname] (Hln & Hpl & Hls) Hseen] Hnext Hms Hsort Hps Hseqs Hnewer Hsize Hlogno Hmname Hnew Hset.
  pose proof (vf_wf _ Hfit) as Hwf. set (e := SetLastSequence (SetNextFile (recovery_edit metas logno) (vs_nextfilenumber vs)) (vs_lastsequence vs)).
  destruct (add_tables_ok ps metas Hms dat v Hvo Hwf Hsort) as (dat' & v1 & Hvo1 & Hwf1 & Hlev1 & Hin1); try done.
  { intros K g p HK Hg Hp. by apply (proj2 (Hps p Hp) K). }
  assert (Forall (fun p => 0 < p.1 < 2 ^ 64) ps) as Hps' by (apply Forall_forall; intros p Hp; by apply Hps).
  destruct (recovery_edit_ok ps metas logno (vs_nextfilenumber vs) (vs_lastsequence vs) Hms Hps') as (Hrec & Hne & Hde & Hce);
    [lia|lia|unfold kMaxSequenceNumber in Hls; lia|]. fold e in Hrec, Hne, Hde, Hce.
  assert (complete_edit (recovery_edit metas logno) vs = Some e) as Hcomp.
  { unfold complete_edit, recovery_edit. cbn [SetLogNumber SetPrevLogNumber haslognumber lognumber].
    rewrite (proj2 (Z.leb_le _ _)), (proj2 (Z.ltb_lt _ _)) by lia. done. }
  assert (exists b, Apply c e (Builder_make v) (compactPointer vs) = Some (b, compactPointer vs)) as [b Ha].
  { unfold Apply. rewrite Hce. cbn. by eexists. }
  assert (forall p, p ∈ newfiles e <-> p.1 = 0 /\ p.2 ∈ metas) as Hpn.
  { intros [K m]. rewrite Hne, list_elem_of_fmap. cbn. split; [by intros (m' & [= -> ->] & Hm)|]. intros [-> Hm]. by exists m. }
  destruct (level0_installs dat v e b (compactPointer vs) (compactPointer vs) Hvo Hwf) as (v' & Hsave & Hwf' & Hlev); try done.
  { apply Forall_forall. intros p Hp. by apply Hpn in Hp as [? _]. }
  { rewrite Hne, map_map. cbn [fst snd]. pose proof (tables_numbers ps metas Hms) as Hnums.
    apply (NoDup_fmap_1 snd). change (NoDup (map snd (map (fun m => (0, number m)) metas))). rewrite map_map. cbn [snd].
    change (map (fun x => number x) metas) with (map number metas). rewrite Hnums. clear -Hsort.
    induction Hsort as [|a l Hs IH Ha]; constructor; [|done]. intros Hin. rewrite Forall_forall in Ha. specialize (Ha a Hin). lia. }
  { intros g p Hg [_ Hm]%Hpn. assert (number p.2 ∈ map fst ps) as (q & -> & Hq)%list_elem_of_fmap.
    { rewrite <- (tables_numbers ps metas Hms). by apply list_elem_of_fmap_2. }
    by apply (proj2 (Hps q Hq) 0). }
  destruct (LogAndApply_creates (ucmp := c) taddr recordaddr dbname (recovery_edit metas logno) vs env v e b (compactPointer vs) v' mname f env1 env2)
    as (log & frs & Hla & Hm); try done.
  assert (forall K g, is_level K -> g ∈ level_files (Finalize v') K <-> g ∈ level_files v K \/ (K = 0 /\ exists m, m ∈ metas /\ g = norm m)) as Hlev'.
  { intros K g HK. rewrite level_files_Finalize, (Hlev K g HK). split; (intros [?|[-> Hx]]; [by left|right; split; [done|]]).
    - destruct Hx as (p & [_ Hp]%Hpn & ->). by exists p.2.
    - destruct Hx as (m & Hm' & ->). exists (0, m). split; [by apply Hpn|done]. }
  assert (version_wf (ucmp := c) (Finalize v')) as Hwf2.
  { destruct Hwf' as [W1 W2 W3]. split; [by rewrite vfiles_Finalize|intros K; rewrite level_files_Finalize; auto..]. }
  assert (forall K, is_level K -> level_files v1 K = level_files (Finalize v') K) as Heq.
  { apply version_levels_eq; [done..|]. intros K g HK. by rewrite (Hlev1 K g HK), (Hlev' K g HK). }
  eexists e, _, v', dat', log, frs. split; [exact Hla|]. split; [exact Hm|]. split; [by apply (version_ok_ext dat' v1)|]. split; [done|]. split; [done|].
  intros x. rewrite <- Hin1. unfold in_version. split; intros (K & g & HK & Hg & Hx); exists K, g; (split; [done|]); (split; [|done]); by rewrite ?Heq in * by done.
Qed.

Lemma number_tables_bounds cs : forall next, Forall (fun p => next <= p.1 < next + len cs) (number_tables next cs) /\
  StronglySorted Z.lt (map fst (number_tables next cs)).
Proof.
  induction cs as [|es cs IH]; intros next; cbn [number_tables map fst]; [split; constructor|].
  destruct (IH (next + 1)) as [Hb Hs]. split; constructor; try done.
  - cbn [fst length]. lia.
  - eapply Forall_impl; [exact Hb|]. cbn [length]. intros p Hp. lia.
  - apply Forall_map. eapply Forall_impl; [exact Hb|]. cbn beta. intros p Hp. lia.
Qed.

Lemma logs_tables_bounds logs : forall next, next <= next_after writebuffersize next logs /\
  Forall (fun p => next <= p.1 < next_after writebuffersize next logs) (logs_tables writebuffersize next logs) /\
  StronglySorted Z.lt (map fst (logs_tables writebuffersize next logs)).
Proof.
  induction logs as [|[n gs] logs IH]; intros next; [split; [done|split; constructor]|].
  unfold next_after. cbn [logs_tables fold_left fst snd]. set (cs := log_tables writebuffersize gs).
  fold (next_after writebuffersize (next_used n (next + len cs)) logs).
  destruct (IH (next_used n (next + len cs))) as (Hle & Hb & Hs). destruct (number_tables_bounds cs next) as [Hb1 Hs1].
  assert (next + len cs <= next_used n (next + len cs)) as Hu by (unfold next_used; case_match; lia).
  split; [lia|]. split.
  - apply Forall_app. split; (eapply Forall_impl; [eassumption|]); cbn beta; intros p Hp; lia.
  - rewrite map_app. apply StronglySorted_app. split; [|done]. intros a b (p & -> & Hp)%list_elem_of_fmap (q & -> & Hq)%list_elem_of_fmap.
    pose proof (proj1 (Forall_forall _ _) Hb1 p Hp). pose proof (proj1 (Forall_forall _ _) Hb q Hq). cbn beta in *. lia.
Qed.

Lemma last_sequence_seen gs : forall max, Forall group_fits gs -> max <= kMaxSequenceNumber ->
  last_sequence gs max <= kMaxSequenceNumber /\ forall a, a ∈ group_entries gs -> sequence (mkey a) <= last_sequence gs max.
Proof.
  induction gs as [|g gs IH]; intros max Hgs Hmax; [split; [done|by intros a ?%not_elem_of_nil]|].
  apply Forall_cons in Hgs as [(_ & _ & H0g & Hg) Hgs]. unfold last_sequence. cbn [fold_left]. fold (last_sequence gs (Z.max max (group_last g))).
  destruct (IH (Z.max max (group_last g)) Hgs) as [Hle Hall]; [unfold group_last; lia|]. split; [done|].
  intros a. unfold group_entries. cbn [map concat]. rewrite elem_of_app. intros [Ha|Ha]; [|by apply Hall].
  apply entries_sequence in Ha. pose proof (last_sequence_ge gs (Z.max max (group_last g))). unfold group_last in *. lia.
Qed.

(** The disk takes the tables, then the new log, the new manifest and CURRENT. *)
Record disk_ready (lognumber mnumber : Z) : Prop := {
  dr_table env num name : rtc (created (F := F) (G := G) dbname) env0 env -> TableFileName dbname num = Some name ->
    exists f env', NewWritableFile (G := G) env name = (OK, Some f, env');
  dr_rest env : rtc (created (F := F) (G := G) dbname) env0 env -> exists lname lf env1 mname mf env2 env3,
    LogFileName dbname lognumber = Some lname /\ NewWritableFile (G := G) env lname = (OK, Some lf, env1) /\
    DescriptorFileName dbname mnumber = Some mname /\ NewWritableFile (G := G) env1 mname = (OK, Some mf, env2) /\
    SetCurrentFile (F := F) (G := G) env2 dbname mnumber = Some (OK, env3)
}.

Abbreviation reads := (reads_as (goodfile := goodfile) readaddr dbname env0).
Abbreviation tables_from := (logs_tables writebuffersize).
Abbreviation tables_fit_disk := (Forall (fun p => tabled (c := c) (compress := compress) (opens_to := opens_to) interval blocksize compression addr dbname env0 p.1 p.2)).

Lemma logs_replayable logs : Forall (fun x => Forall (fun g => group_fits g /\ g.2 <> []) x.2) logs -> 
  StronglySorted seq_lt (group_entries (concat (map snd logs))) -> Forall (fun x : Z * list group => replayable x.2) logs.
Proof.
  induction 1 as [|x logs Hx Hl IH]; intros Hs; [constructor|]. cbn [map concat] in Hs. unfold group_entries in Hs. rewrite map_app, concat_app in Hs.
  apply StronglySorted_app in Hs as (_ & Hs1 & Hs2). constructor; [by split|by apply IH].
Qed.

Abbreviation open createifmissing d := (Open c rnd taddr recordaddr readaddr (E := E) (F := F) (G := G) compress interval blocksize compression addr dbname
  maxfilesize writebuffersize paranoidchecks false createifmissing false d).

(** [DB::Recover] up to the logs, then the logs. *)
Lemma Recover_ok createifmissing (d : DBState) s1 env1 env2 vs names logs (next := vs_nextfilenumber vs) (groups := concat (map snd logs)) :
  db_pending d = [] -> good (db_tables d) ->
  CreateDir (F := F) (G := G) (db_env d) dbname = (s1, env1) -> LockFile (F := F) (G := G) env1 (LockFileName dbname) = (OK, env2) ->
  FileExists (F := F) (G := G) env2 (CurrentFileName dbname) = true ->
  Recover c readaddr dbname false maxfilesize false (db_vs d) env2 = Some (OK, true, vs, env0) ->
  GetChildren (F := F) (G := G) env0 dbname = (OK, names) -> log_numbers (vs_lognumber vs) (vs_prevlognumber vs) names = map fst logs ->
  Forall (fun x => x.1 < 2 ^ 64 - 1 /\ reads x.1 x.2) logs -> Forall (fun x => Forall (fun g => group_fits g /\ g.2 <> []) x.2) logs ->
  StronglySorted seq_lt (group_entries groups) -> tables_fit_disk (tables_from next logs) ->
  (forall env num name, rtc (created (F := F) (G := G) dbname) env0 env -> TableFileName dbname num = Some name ->
    exists f env', NewWritableFile (G := G) env name = (OK, Some f, env')) ->
  exists metas t' env', Forall2 (fun p meta => tableof p.1 p.2 meta) (tables_from next logs) metas /\ good t' /\
    rtc (created (F := F) (G := G) dbname) env0 env' /\
    Recover_ c rnd taddr recordaddr readaddr (E := E) (F := F) (G := G) compress interval blocksize compression addr dbname
        maxfilesize writebuffersize paranoidchecks false createifmissing false VersionEdit_make false None d =
      Some (OK, None, true, fold_left add_table metas VersionEdit_make,
        set_versions (MkVersionSet (dummyversions vs) (next_after writebuffersize next logs) (manifestfilenumber vs)
          (Z.max (vs_lastsequence vs) (last_sequence groups 0)) (vs_lognumber vs) (vs_prevlognumber vs) (compactPointer vs) (descriptorlog vs)) t' env' d).
Proof.
  intros Hpend Ht Hcd Hlk Hex Hrec Hch Hlogs Hreads Hgs Hsorted Htab Hnew. unfold Recover_. rewrite Hcd, Hlk. cbn [ok OK negb]. rewrite Hex.
  cbn [negb mbind option_bind ok OK db_env set_env set_versions db_vs db_tables]. rewrite Hrec. cbn [mbind option_bind ok OK negb]. rewrite Hch. cbn [ok OK negb]. rewrite Hlogs.
  set (d1 := set_versions vs (db_tables _) env0 _).
  assert (Forall (fun x => x.1 < 2 ^ 64 - 1 /\ reads x.1 x.2 /\ replayable x.2) logs) as Hall.
  { pose proof (logs_replayable logs Hgs Hsorted) as Hrep. rewrite Forall_forall in Hreads, Hrep |- *. intros x Hx. destruct (Hreads x Hx). split; [done|]. split; [done|by apply Hrep]. }
  destruct (recover_logs_ok rnd readaddr interval blocksize compression addr dbname maxfilesize writebuffersize paranoidchecks env0 Hinterval Hnew logs
    true VersionEdit_make 0 None d1 Hall ltac:(done) Hpend Ht) as (metas & t' & env' & k & Hms & Ht' & Hd' & ->); [by apply rtc_refl|done|].
  cbn [mbind option_bind ok OK negb rp_db rp_maxsequence rp_savemanifest rp_edit]. exists metas, t', env'. split; [done|]. split; [done|]. split; [done|].
  unfold GetLastSequence, vs_SetLastSequence. cbn [db_vs set_versions set_next vs_lastsequence]. change (db_vs d1) with vs. fold groups.
  cbn [orb]. destruct (vs_lastsequence vs <? last_sequence groups 0) eqn:Hlt.
  - rewrite (proj2 (Z.ltb_ge _ _)) by (unfold GetLastSequence; cbn; lia). cbn [mbind option_bind]. 
    replace (Z.max _ _) with (last_sequence groups 0) by lia. done.
  - cbn [mbind option_bind]. replace (Z.max _ _) with (vs_lastsequence vs) by lia. done.
Qed.

Lemma at_rest_later dat vs v next last : at_rest dat vs v -> vs_nextfilenumber vs <= next -> vs_lastsequence vs <= last <= kMaxSequenceNumber ->
  at_rest dat (MkVersionSet (dummyversions vs) next (manifestfilenumber vs) last (vs_lognumber vs) (vs_prevlognumber vs) (compactPointer vs) (descriptorlog vs)) v.
Proof.
  intros [Hcur Hvo Hfit Hnum Hm Hp Hc Hseen] Hn Hl. split; cbn; try done.
  - intros L g HL Hg. specialize (Hnum L g HL Hg). lia.
  - lia.
  - intros e He. specialize (Hseen e He). lia.
Qed.

End Opening.

(** ** A concrete recovery, after a crash *)

#[local] Existing Instances flush_append flush_append_ok flush_read flush_env flush_env_ok flush_random flush_random_ok flush_tables flush_tables_ok
  flush_block_cache flush_blocks_ok flush_source flush_opener.

(** The files: a manifest as [NewDB] writes it and a log with one batch. *)
Definition crash_group : group := (1, [OpPut (str "ant") (str "old")]).

Definition crash_log : bytes :=
  match AddRecord 0 (LogWriter_make (MkWritableFile [] [] [] (str "/db/000003.log")) 0) 0 (record_of_group crash_group) with
  | Some (_, log) => contents (dest log) | None => [] end.

Definition crash_manifest : bytes :=
  match AddRecord 0 (LogWriter_make (MkWritableFile [] [] [] (str "/db/MANIFEST-000001")) 0) 0
    (record_of (SetLastSequence (SetNextFile (SetLogNumber VersionEdit_make 0) 2) 0)) with
  | Some (_, log) => contents (dest log) | None => [] end.

Definition crash_files (log : bytes) : MemDir :=
  [(str "/db/CURRENT", str "MANIFEST-000001" ++ [Byte.x0a]); (str "/db/MANIFEST-000001", crash_manifest); (str "/db/000003.log", log);
   (str "/db/000002.dbtmp", str "MANIFEST-000002" ++ [Byte.x0a])].
Definition crash_dir : MemDir := crash_files crash_log.

Definition crash_db : DB (E := MemDir) (F := WritableFile) (T := DemoCache) :=
  MkDB MemTable_make None (VersionSet_make) demo_cache crash_dir (LogWriter_make (MkWritableFile [] [] [] []) 0) 0 OK [] (Some WriteBatch.clear) [] false false false [].

Definition crash_recovered : VersionSet (F := WritableFile) :=
  match Recover BytewiseComparatorImpl 0 (str "/db") false 2097152 false (db_vs crash_db) crash_dir with
  | Some (_, _, vs, _) => vs | None => VersionSet_make end.

Definition crash_version : Version := default Version_make (current crash_recovered).

Abbreviation crash_open := (Open BytewiseComparatorImpl demo_rnd 0 0 0 (E := MemDir) (F := WritableFile) (G := SequentialFile) run_compress 2 16 kNoCompression 0
  (str "/db") 2097152 4194304 true false true false).

Lemma crash_created env : rtc (created (F := WritableFile) (G := SequentialFile) (str "/db")) crash_dir env -> env = crash_dir.
Proof. intros Hr. induction Hr as [|x y z (num & name & s & f & _ & Hn) Hr IH]; [done|]. cbn in Hn. injection Hn as _ _ <-. by apply IH. Qed.

Lemma crash_levels L : is_level L -> level_files crash_version L = level_files Version_make L.
Proof. intros HL%elem_of_all_levels. revert L HL. apply Forall_forall. repeat constructor. Qed.

Lemma crash_empty data e : ~ in_version crash_version data e.
Proof. intros (L & f & HL & Hf & _). rewrite crash_levels, Version_make_no_files in Hf by done. by apply not_elem_of_nil in Hf. Qed.

Lemma crash_at_rest : at_rest (c := BytewiseComparatorImpl) (serves := flush_serves) (fun _ => []) crash_recovered crash_version.
Proof.
  assert (forall L f, is_level L -> ~ f ∈ level_files crash_version L) as Hno.
  { intros L f HL Hf. rewrite crash_levels, Version_make_no_files in Hf by done. by apply not_elem_of_nil in Hf. }
  assert (version_wf (ucmp := BytewiseComparatorImpl) crash_version) as Hwf.
  { destruct (Version_make_wf (ucmp := BytewiseComparatorImpl)) as [W1 W2 W3]. split; [done|intros L HL; rewrite crash_levels by done; auto..]. }
  split.
  - by vm_compute.
  - apply (version_ok_ext (fun _ => []) Version_make); [intros K HK; symmetry; by apply crash_levels|apply Version_make_ok].
  - split; [done|constructor|]. intros L f HL Hf. by destruct (Hno L f HL).
  - intros L f HL Hf. by destruct (Hno L f HL).
  - by vm_compute.
  - split; [by repeat constructor|by vm_compute].
  - vm_compute. intuition discriminate.
  - intros e He. by destruct (crash_empty _ e He).
Qed.

Lemma crash_reads : reads_as (goodfile := full_reads) 0 (str "/db") crash_dir 3 [crash_group].
Proof.
  split; [done|]. exists (MkSequentialFile crash_log [] (str "/db/000003.log")), 2%nat. eexists. split; [constructor|]. split; [vm_compute; reflexivity|]. split; [vm_compute; lia|].
  intros env fname ->%crash_created Hf. vm_compute in Hf. injection Hf as <-. by vm_compute.
Qed.

Lemma crash_tabled : tabled (c := BytewiseComparatorImpl) (compress := run_compress) (opens_to := opens_file (str "/db") flush_open)
  (E := MemDir) (F := WritableFile) (G := SequentialFile) 2 16 kNoCompression 0 (str "/db") crash_dir 3 [flush_entry].
Proof.
  split; [by vm_compute|]. split; [done|]. intros m env s meta f env2 Hm ->%crash_created Hb. exists (MkMmapFile (str "/db/000003.ldb") flush_data). split.
  - intros name Hn. vm_compute in Hn. by injection Hn as <-.
  - destruct (BuildTable_file_eq (E := MemDir) (F := WritableFile) (G := SequentialFile) (compress := run_compress) 2 16 kNoCompression 0 (str "/db") m [flush_entry] 3 crash_dir Hm) as (sorted & first & Hp & _ & H0 & Heq); [done|].
    apply Permutation_singleton_r in Hp as ->. injection H0 as <-. rewrite Hb in Heq.
    assert (option_map (fun r => option_map contents r.1.2) (build_sorted (E := MemDir) (F := WritableFile) (G := SequentialFile) (c := BytewiseComparatorImpl)
      (compress := run_compress) 2 16 kNoCompression 0 (str "/db") flush_entry [flush_entry] 3 crash_dir) = Some (Some flush_data)) as Hc by by vm_compute.
    rewrite <- Heq in Hc. revert Hc. cbn [rcontents]. generalize flush_data. intros data Hc. cbn [option_map fst snd] in Hc. by injection Hc.
Qed.


(** An empty batch in the log: the table of an empty memtable trips an assert, and the
    database cannot be opened. *)
Example empty_batch_blocks_open :
  let log := match AddRecord 0 (LogWriter_make (MkWritableFile [] [] [] (str "/db/000003.log")) 0) 0 (record_of_group (1, [])) with
    | Some (_, log) => contents (dest log) | None => [] end in
  crash_open (set_env (crash_files log) crash_db) = None.
Proof. by vm_compute. Qed.
