(* ===== verification/Serialize.v ===== *)
(** The values and keys the Redis types keep in the database (redisdb/db/serialize.h and
    the list comparator of redisdb/db/comparator.h).

    A value of the database is a user value followed by its version and expiry time; a key
    of an element is the length-prefixed key of its container, the container's version and
    the element.  The [Parsed...] classes point into the string they parse ([..._value],
    which they change through the pointer when [..._owned]); writes and reads outside it
    are [None].  [now] is the clock, read once per operation. *)
From stdpp Require Import list.
From S2P Require Import Prelude Coding DbFormat.
Local Open Scope Z_scope.

Abbreviation len l := (Z.of_nat (length l)).

(** A store of [bs] at [pos], a load of a fixed-width integer at [pos]. *)
Definition poke (s : bytes) (pos : Z) (bs : bytes) : option bytes :=
  if (0 <=? pos) && (pos + len bs <=? len s)
  then Some (take (Z.to_nat pos) s ++ bs ++ drop (Z.to_nat pos + length bs) s) else None.
Definition peek32 (s : bytes) (pos : Z) : option Z :=
  if (0 <=? pos) && (pos + 4 <=? len s) then Some (DecodeFixed32 (drop (Z.to_nat pos) s)) else None.
Definition peek64 (s : bytes) (pos : Z) : option Z :=
  if (0 <=? pos) && (pos + 8 <=? len s) then Some (DecodeFixed64 (drop (Z.to_nat pos) s)) else None.
Definition view (s : bytes) (pos n : Z) : option bytes :=
  if (0 <=? pos) && (0 <=? n) && (pos + n <=? len s) then Some (take (Z.to_nat n) (drop (Z.to_nat pos) s)) else None.

(** ** Strings *)

Record StringsMetaValue := MkStringsMetaValue { sm_value : bytes; sm_version : Z; sm_timestamp : Z }.

Definition StringsMetaValue_make (value : bytes) : StringsMetaValue := MkStringsMetaValue value 0 0.
Definition Strings_SetTimestamp (t : Z) (v : StringsMetaValue) : StringsMetaValue :=
  MkStringsMetaValue (sm_value v) (sm_version v) t.
Definition Strings_SetRelativeTimestamp (now ttl : Z) (v : StringsMetaValue) : StringsMetaValue :=
  Strings_SetTimestamp (i32 (now + ttl)) v.
Definition Strings_Encode (v : StringsMetaValue) : bytes := sm_value v ++ EncodeFixed32 (u32 (sm_timestamp v)).

Definition kStringsValueSuffixLength : Z := 4.

Record ParsedStringsMetaValue := MkParsedStrings {
  ps_value : bytes;
  ps_owned : bool;
  ps_uservalue : bytes;
  ps_timestamp : Z
}.

Definition ParsedStringsMetaValue_make (owned : bool) (s : bytes) : ParsedStringsMetaValue :=
  if kStringsValueSuffixLength <=? len s then
    let n := Z.to_nat (len s - kStringsValueSuffixLength) in
    MkParsedStrings s owned (take n s) (i32 (DecodeFixed32 (drop n s)))
  else MkParsedStrings s owned [] 0.

Definition Strings_StripSuffix (p : ParsedStringsMetaValue) : option ParsedStringsMetaValue :=
  if ps_owned p then
    (* erase throws when the position is past the end *)
    if len (ps_value p) <? kStringsValueSuffixLength then None
    else Some (MkParsedStrings (take (Z.to_nat (len (ps_value p) - kStringsValueSuffixLength)) (ps_value p)) true
      (ps_uservalue p) (ps_timestamp p))
  else Some p.

Definition Strings_SetTimestampToValue (p : ParsedStringsMetaValue) : option ParsedStringsMetaValue :=
  if ps_owned p then
    let? s := poke (ps_value p) (len (ps_value p) - kStringsValueSuffixLength) (EncodeFixed32 (u32 (ps_timestamp p))) in
    Some (MkParsedStrings s true (ps_uservalue p) (ps_timestamp p))
  else Some p.

Definition ParsedStrings_SetTimestamp (t : Z) (p : ParsedStringsMetaValue) : option ParsedStringsMetaValue :=
  Strings_SetTimestampToValue (MkParsedStrings (ps_value p) (ps_owned p) (ps_uservalue p) t).
Definition ParsedStrings_SetRelativeTimestamp (now ttl : Z) (p : ParsedStringsMetaValue) : option ParsedStringsMetaValue :=
  ParsedStrings_SetTimestamp (i32 (now + ttl)) p.

(** [IsStale] of every class, from the timestamp. *)
Definition IsStale (now timestamp : Z) : bool := if timestamp =? 0 then false else timestamp <? now.
Definition IsPermanentSurvival (timestamp : Z) : bool := timestamp =? 0.

(** ** Hashes, sets and sorted sets *)

Record BaseMetaValue := MkBaseMetaValue { bm_value : bytes; bm_version : Z; bm_timestamp : Z }.

Definition BaseMetaValue_make (value : bytes) : BaseMetaValue := MkBaseMetaValue value 0 0.

(** [UpdateVersion] on the version: the clock, or one more. *)
Definition next_version (now version : Z) : Z := if now <=? version then i32 (version + 1) else i32 now.

Definition Base_UpdateVersion (now : Z) (v : BaseMetaValue) : Z * BaseMetaValue :=
  let version := next_version now (bm_version v) in
  (version, MkBaseMetaValue (bm_value v) version (bm_timestamp v)).
Definition Base_Encode (v : BaseMetaValue) : bytes :=
  bm_value v ++ EncodeFixed32 (u32 (bm_version v)) ++ EncodeFixed32 (u32 (bm_timestamp v)).

Definition kBaseMetaValueSuffixLength : Z := 8.

Record ParsedBaseMetaValue := MkParsedBase {
  pb_value : bytes;
  pb_owned : bool;
  pb_version : Z;
  pb_timestamp : Z;
  pb_count : Z
}.

(** The count is read before the size is known to cover it. *)
Definition ParsedBaseMetaValue_make (owned : bool) (s : bytes) : option ParsedBaseMetaValue :=
  let? count := peek32 s 0 in
  if kBaseMetaValueSuffixLength <=? len s then
    let? version := peek32 s (len s - kBaseMetaValueSuffixLength) in
    let? timestamp := peek32 s (len s - 4) in
    Some (MkParsedBase s owned (i32 version) (i32 timestamp) (i32 count))
  else Some (MkParsedBase s owned 0 0 (i32 count)).

Definition Base_poke (p : ParsedBaseMetaValue) (pos : Z) (v : Z) : option ParsedBaseMetaValue :=
  if pb_owned p then
    let? s := poke (pb_value p) pos (EncodeFixed32 (u32 v)) in
    Some (MkParsedBase s true (pb_version p) (pb_timestamp p) (pb_count p))
  else Some p.

Definition Base_SetVersionToValue (p : ParsedBaseMetaValue) : option ParsedBaseMetaValue :=
  Base_poke p (len (pb_value p) - kBaseMetaValueSuffixLength) (pb_version p).
Definition Base_SetTimestampToValue (p : ParsedBaseMetaValue) : option ParsedBaseMetaValue :=
  Base_poke p (len (pb_value p) - 4) (pb_timestamp p).
Definition Base_SetCount (count : Z) (p : ParsedBaseMetaValue) : option ParsedBaseMetaValue :=
  Base_poke (MkParsedBase (pb_value p) (pb_owned p) (pb_version p) (pb_timestamp p) count) 0 count.
Definition Base_ModifyCount (delta : Z) (p : ParsedBaseMetaValue) : option ParsedBaseMetaValue :=
  Base_SetCount (i32 (pb_count p + delta)) p.
Definition ParsedBase_SetTimestamp (t : Z) (p : ParsedBaseMetaValue) : option ParsedBaseMetaValue :=
  Base_SetTimestampToValue (MkParsedBase (pb_value p) (pb_owned p) (pb_version p) t (pb_count p)).
Definition ParsedBase_UpdateVersion (now : Z) (p : ParsedBaseMetaValue) : option (Z * ParsedBaseMetaValue) :=
  let version := next_version now (pb_version p) in
  let? p := Base_SetVersionToValue (MkParsedBase (pb_value p) (pb_owned p) version (pb_timestamp p) (pb_count p)) in
  Some (version, p).
Definition Base_InitialMetaValue (now : Z) (p : ParsedBaseMetaValue) : option (Z * ParsedBaseMetaValue) :=
  let? p := Base_SetCount 0 p in
  let? p := ParsedBase_SetTimestamp 0 p in
  ParsedBase_UpdateVersion now p.

(** ** Lists *)

Definition InitalLeftIndex : Z := 9223372036854775807.
Definition InitalRightIndex : Z := 9223372036854775808.

Record ListsMetaValue := MkListsMetaValue {
  lm_value : bytes; lm_leftindex : Z; lm_rightindex : Z; lm_version : Z; lm_timestamp : Z
}.

Definition ListsMetaValue_make (value : bytes) : ListsMetaValue :=
  MkListsMetaValue value InitalLeftIndex InitalRightIndex 0 0.

(** Here the clock is cut to 32 bits before the comparison. *)
Definition lists_next_version (now version : Z) : Z := if i32 now <=? version then i32 (version + 1) else i32 now.

Definition Lists_UpdateVersion (now : Z) (v : ListsMetaValue) : Z * ListsMetaValue :=
  let version := lists_next_version now (lm_version v) in
  (version, MkListsMetaValue (lm_value v) (lm_leftindex v) (lm_rightindex v) version (lm_timestamp v)).
Definition Lists_ModifyLeftIndex (index : Z) (v : ListsMetaValue) : ListsMetaValue :=
  MkListsMetaValue (lm_value v) (u64 (lm_leftindex v - index)) (lm_rightindex v) (lm_version v) (lm_timestamp v).

(** [AppendIndex] writes the left index in the place of the right one too. *)
Definition Lists_AppendIndex (v : ListsMetaValue) : bytes :=
  EncodeFixed64 (lm_leftindex v) ++ EncodeFixed64 (lm_leftindex v).
Definition Lists_Encode (v : ListsMetaValue) : bytes :=
  lm_value v ++ EncodeFixed32 (u32 (lm_version v)) ++ EncodeFixed32 (u32 (lm_timestamp v)) ++ Lists_AppendIndex v.

Definition kListsMetaValueSuffixLength : Z := 24.

Record ParsedListsMetaValue := MkParsedLists {
  pl_value : bytes;
  pl_owned : bool;
  pl_version : Z;
  pl_timestamp : Z;
  pl_count : Z;
  pl_leftindex : Z;
  pl_rightindex : Z
}.

Definition ParsedListsMetaValue_make (owned : bool) (s : bytes) : option ParsedListsMetaValue :=
  if kListsMetaValueSuffixLength <=? len s then
    let? version := peek32 s (len s - 24) in
    let? timestamp := peek32 s (len s - 20) in
    let? leftindex := peek64 s (len s - 16) in
    let? rightindex := peek64 s (len s - 8) in
    let? count := peek64 s 0 in
    Some (MkParsedLists s owned (i32 version) (i32 timestamp) count leftindex rightindex)
  else None.

Definition Lists_poke32 (p : ParsedListsMetaValue) (pos v : Z) : option ParsedListsMetaValue :=
  if pl_owned p then
    let? s := poke (pl_value p) pos (EncodeFixed32 (u32 v)) in
    Some (MkParsedLists s true (pl_version p) (pl_timestamp p) (pl_count p) (pl_leftindex p) (pl_rightindex p))
  else Some p.
Definition Lists_poke64 (p : ParsedListsMetaValue) (pos v : Z) : option ParsedListsMetaValue :=
  if pl_owned p then
    let? s := poke (pl_value p) pos (EncodeFixed64 v) in
    Some (MkParsedLists s true (pl_version p) (pl_timestamp p) (pl_count p) (pl_leftindex p) (pl_rightindex p))
  else Some p.

Definition Lists_SetVersionToValue (p : ParsedListsMetaValue) : option ParsedListsMetaValue :=
  Lists_poke32 p (len (pl_value p) - kListsMetaValueSuffixLength) (pl_version p).
Definition Lists_SetTimestampToValue (p : ParsedListsMetaValue) : option ParsedListsMetaValue :=
  Lists_poke32 p (len (pl_value p) - 20) (pl_timestamp p).
Definition Lists_SetCount (count : Z) (p : ParsedListsMetaValue) : option ParsedListsMetaValue :=
  Lists_poke64 (MkParsedLists (pl_value p) (pl_owned p) (pl_version p) (pl_timestamp p) count (pl_leftindex p) (pl_rightindex p))
    0 count.
Definition Lists_ModifyCount (delta : Z) (p : ParsedListsMetaValue) : option ParsedListsMetaValue :=
  Lists_SetCount (u64 (pl_count p + delta)) p.
Definition Lists_SetLeftIndex (index : Z) (p : ParsedListsMetaValue) : option ParsedListsMetaValue :=
  Lists_poke64 (MkParsedLists (pl_value p) (pl_owned p) (pl_version p) (pl_timestamp p) (pl_count p) index (pl_rightindex p))
    (len (pl_value p) - 16) index.
Definition ParsedLists_ModifyLeftIndex (index : Z) (p : ParsedListsMetaValue) : option ParsedListsMetaValue :=
  Lists_SetLeftIndex (u64 (pl_leftindex p - index)) p.
Definition Lists_SetRightIndex (index : Z) (p : ParsedListsMetaValue) : option ParsedListsMetaValue :=
  Lists_poke64 (MkParsedLists (pl_value p) (pl_owned p) (pl_version p) (pl_timestamp p) (pl_count p) (pl_leftindex p) index)
    (len (pl_value p) - 8) index.
Definition Lists_ModifyRightIndex (index : Z) (p : ParsedListsMetaValue) : option ParsedListsMetaValue :=
  Lists_SetRightIndex (u64 (pl_rightindex p + index)) p.
Definition ParsedLists_SetTimestamp (t : Z) (p : ParsedListsMetaValue) : option ParsedListsMetaValue :=
  Lists_SetTimestampToValue
    (MkParsedLists (pl_value p) (pl_owned p) (pl_version p) t (pl_count p) (pl_leftindex p) (pl_rightindex p)).
Definition ParsedLists_UpdateVersion (now : Z) (p : ParsedListsMetaValue) : option (Z * ParsedListsMetaValue) :=
  let version := lists_next_version now (pl_version p) in
  let? p := Lists_SetVersionToValue
    (MkParsedLists (pl_value p) (pl_owned p) version (pl_timestamp p) (pl_count p) (pl_leftindex p) (pl_rightindex p)) in
  Some (version, p).
Definition Lists_InitialMetaValue (now : Z) (p : ParsedListsMetaValue) : option (Z * ParsedListsMetaValue) :=
  let? p := Lists_SetCount 0 p in
  let? p := Lists_SetLeftIndex InitalLeftIndex p in
  let? p := Lists_SetRightIndex InitalRightIndex p in
  let? p := ParsedLists_SetTimestamp 0 p in
  ParsedLists_UpdateVersion now p.

(** ** Keys of elements *)

(** [BaseDataKey::Encode]. *)
Definition BaseDataKey_Encode (key : bytes) (version : Z) (data : bytes) : bytes :=
  EncodeFixed32 (u32 (len key)) ++ key ++ EncodeFixed32 (u32 version) ++ data.

Record ParsedDataKey := MkParsedDataKey { pd_key : bytes; pd_version : Z; pd_data : bytes }.

(** The key of the constructor from a [std::string*] begins at the length; the one from a
    view begins after it. *)
Definition ParsedDataKey_from (skip : Z) (k : bytes) : option ParsedDataKey :=
  let? keylen := peek32 k 0 in
  let keylen := i32 keylen in
  let? key := view k skip keylen in
  let? version := peek32 k (4 + keylen) in
  let? data := view k (4 + keylen + 4) (len k - keylen - 8) in
  Some (MkParsedDataKey key (i32 version) data).
Definition ParsedDataKey_string : bytes -> option ParsedDataKey := ParsedDataKey_from 0.
Definition ParsedDataKey_view : bytes -> option ParsedDataKey := ParsedDataKey_from 4.

(** [ListsDataKey::Encode]. *)
Definition ListsDataKey_Encode (key : bytes) (version index : Z) : bytes :=
  EncodeFixed32 (u32 (len key)) ++ key ++ EncodeFixed32 (u32 version) ++ EncodeFixed64 index.

Record ParsedListsDataKey := MkParsedListsDataKey { pk_key : bytes; pk_version : Z; pk_index : Z }.

Definition ParsedListsDataKey_make (k : bytes) : option ParsedListsDataKey :=
  let? keylen := peek32 k 0 in
  let keylen := i32 keylen in
  let? key := view k 4 keylen in
  let? version := peek32 k (4 + keylen) in
  let? index := peek64 k (4 + keylen + 4) in
  Some (MkParsedListsDataKey key (i32 version) index).

(** ** The order of list keys *)

(** What is left of the keys: both ended, or one. *)
Definition ends_compare (a b : Z) : option comparison :=
  if (a =? 0) && (b =? 0) then Some Eq else if a =? 0 then Some Lt else if b =? 0 then Some Gt else None.

Definition Lists_Compare (a b : bytes) : option comparison :=
  if (len a =? 0) || (len b =? 0) then None       (* assert *)
  else
    let asize := i32 (len a) in
    let bsize := i32 (len b) in
    let? keyalen := peek32 a 0 in
    let? keyblen := peek32 b 0 in
    let? setskeya := view a 4 (i32 keyalen) in
    let? setskeyb := view b 4 (i32 keyblen) in
    let ptra := 4 + i32 keyalen in
    let ptrb := 4 + i32 keyblen in
    match compare setskeya setskeyb with
    | Eq =>
        match ends_compare (asize - ptra) (bsize - ptrb) with
        | Some c => Some c
        | None =>
            let? versiona := peek32 a ptra in
            let? versionb := peek32 b ptrb in
            match i32 versiona ?= i32 versionb with
            | Eq =>
                match ends_compare (asize - (ptra + 4)) (bsize - (ptrb + 4)) with
                | Some c => Some c
                | None =>
                    let? indexa := peek64 a (ptra + 4) in
                    let? indexb := peek64 b (ptrb + 4) in
                    Some (indexa ?= indexb)
                end
            | c => Some c
            end
        end
    | c => Some c
    end.

(** The comparator; REQUIRES: keys that [Lists_Compare] can read. *)
Definition ListsDataKeyComparatorImpl : Comparator :=
  MkComparator (str "redisdb.ListsDataKeyComparator") (fun a b => default Eq (Lists_Compare a b))
    (fun start _ => start) (fun key => key).

(** ** Loads and stores *)

Definition is_i32 (z : Z) : Prop := - 2 ^ 31 <= z < 2 ^ 31.

Lemma i32_u32 z : is_i32 z -> i32 (u32 (u32 z)) = z.
Proof. unfold is_i32, i32, u32. intros H. rewrite Z.mod_mod, Z.add_mod_idemp_l, Z.mod_small by lia. lia. Qed.

Lemma i32_range z : is_i32 (i32 z).
Proof. unfold is_i32, i32. pose proof (Z.mod_pos_bound (z + 2 ^ 31) (2 ^ 32)). lia. Qed.

(** The bounds test of a load or store that is in bounds. *)
Ltac in_bounds :=
  match goal with
  | |- context [if ?c then _ else _] => replace c with true by (symmetry; rewrite ?andb_true_iff, ?Z.leb_le; lia)
  end.

Lemma peek32_at a v b pos : pos = len a -> peek32 (a ++ EncodeFixed32 v ++ b) pos = Some (u32 v).
Proof.
  intros ->. unfold peek32. rewrite !length_app, length_EncodeFixed32.
  in_bounds.
  by rewrite drop_app_exact, DecodeFixed32_app by lia.
Qed.

Lemma peek64_at a v b pos : pos = len a -> peek64 (a ++ EncodeFixed64 v ++ b) pos = Some (u64 v).
Proof.
  intros ->. unfold peek64. rewrite !length_app, length_EncodeFixed64.
  in_bounds.
  by rewrite drop_app_exact, DecodeFixed64_app by lia.
Qed.

Lemma view_slice a m b pos n : pos = len a -> n = len m -> view (a ++ m ++ b) pos n = Some m.
Proof.
  intros -> ->. unfold view. rewrite !length_app.
  in_bounds.
  by rewrite drop_app_exact, take_app_exact by lia.
Qed.

Lemma poke_at a m b m' pos : pos = len a -> length m = length m' -> poke (a ++ m ++ b) pos m' = Some (a ++ m' ++ b).
Proof.
  intros -> Hm. unfold poke. rewrite !length_app.
  in_bounds.
  rewrite take_app_exact by lia. replace (Z.to_nat (len a) + length m')%nat with (length (a ++ m)) by (rewrite length_app; lia).
  by rewrite (app_assoc a m b), drop_app_exact.
Qed.

(** ** Strings *)

Definition string_raw (v : bytes) (t : Z) : bytes := v ++ EncodeFixed32 (u32 t).

Lemma length_string_raw v t : len (string_raw v t) = len v + 4.
Proof. unfold string_raw. rewrite length_app, length_EncodeFixed32. lia. Qed.

Lemma Strings_parse o v t : is_i32 t -> ParsedStringsMetaValue_make o (string_raw v t) = MkParsedStrings (string_raw v t) o v t.
Proof.
  intros Ht. unfold ParsedStringsMetaValue_make, kStringsValueSuffixLength. rewrite length_string_raw. in_bounds.
  unfold string_raw. rewrite take_app_exact, drop_app_exact by lia.
  pose proof (DecodeFixed32_app (u32 t) []) as Hd. rewrite app_nil_r in Hd. by rewrite Hd, i32_u32.
Qed.

Lemma Strings_strip v t u s : Strings_StripSuffix (MkParsedStrings (string_raw v t) true u s) = Some (MkParsedStrings v true u s).
Proof.
  unfold Strings_StripSuffix, kStringsValueSuffixLength. cbn. rewrite length_string_raw.
  rewrite (proj2 (Z.ltb_ge _ _)) by lia. unfold string_raw. by rewrite take_app_exact by lia.
Qed.

Lemma Strings_set_time v t t' u s : ParsedStrings_SetTimestamp t' (MkParsedStrings (string_raw v t) true u s) =
  Some (MkParsedStrings (string_raw v t') true u t').
Proof.
  unfold ParsedStrings_SetTimestamp, Strings_SetTimestampToValue, kStringsValueSuffixLength. cbn [ps_owned ps_value ps_timestamp ps_uservalue].
  rewrite length_string_raw. unfold string_raw. rewrite <- (app_nil_r (v ++ EncodeFixed32 (u32 t))), <- app_assoc, (poke_at v _ []) by
    (rewrite ?length_EncodeFixed32; lia). by rewrite app_nil_r.
Qed.

(** ** Hashes and sets *)

Definition base_raw (c v t : Z) : bytes := EncodeFixed32 (u32 c) ++ EncodeFixed32 (u32 v) ++ EncodeFixed32 (u32 t).
Definition base_parsed (o : bool) (c v t : Z) : ParsedBaseMetaValue := MkParsedBase (base_raw c v t) o v t c.

Lemma length_base_raw c v t : length (base_raw c v t) = 12%nat.
Proof. unfold base_raw. by rewrite !length_app, !length_EncodeFixed32. Qed.

Lemma Base_Encode_raw c v t : Base_Encode (MkBaseMetaValue (EncodeFixed32 (u32 c)) v t) = base_raw c v t.
Proof. done. Qed.

Lemma base_raw_split c v t :
  base_raw c v t = [] ++ EncodeFixed32 (u32 c) ++ EncodeFixed32 (u32 v) ++ EncodeFixed32 (u32 t) /\
  base_raw c v t = EncodeFixed32 (u32 c) ++ EncodeFixed32 (u32 v) ++ EncodeFixed32 (u32 t) /\
  base_raw c v t = (EncodeFixed32 (u32 c) ++ EncodeFixed32 (u32 v)) ++ EncodeFixed32 (u32 t) ++ [].
Proof. unfold base_raw. by rewrite app_nil_r, <- !app_assoc. Qed.

Ltac lens_fixed := rewrite ?length_app, ?length_EncodeFixed32, ?length_EncodeFixed64; lia.

Lemma Base_parse o c v t : is_i32 c -> is_i32 v -> is_i32 t ->
  ParsedBaseMetaValue_make o (base_raw c v t) = Some (base_parsed o c v t).
Proof.
  intros Hc Hv Ht. unfold ParsedBaseMetaValue_make, kBaseMetaValueSuffixLength. rewrite length_base_raw.
  destruct (base_raw_split c v t) as (E1 & E2 & E3).
  rewrite E1 at 1. rewrite peek32_at by done. in_bounds. rewrite E2 at 1. rewrite peek32_at by lens_fixed.
  rewrite E3 at 1. rewrite peek32_at by lens_fixed. by rewrite !i32_u32.
Qed.

Lemma Base_set_count c v t n m : Base_SetCount n (MkParsedBase (base_raw c v t) true v t m) = Some (base_parsed true n v t).
Proof.
  unfold Base_SetCount, Base_poke. cbn [pb_owned pb_value pb_version pb_timestamp pb_count]. 
  destruct (base_raw_split c v t) as (-> & _). by rewrite (poke_at [] _ _ (EncodeFixed32 (u32 n))) by done.
Qed.

Lemma Base_modify_count c v t d : is_i32 (c + d) -> Base_ModifyCount d (base_parsed true c v t) = Some (base_parsed true (c + d) v t).
Proof. intros H. unfold Base_ModifyCount. cbn [pb_count base_parsed]. rewrite i32_small by done. apply Base_set_count. Qed.

Lemma Base_set_time c v t t' : ParsedBase_SetTimestamp t' (base_parsed true c v t) = Some (base_parsed true c v t').
Proof.
  unfold ParsedBase_SetTimestamp, Base_SetTimestampToValue, Base_poke, base_parsed.
  cbn [pb_owned pb_value pb_version pb_timestamp pb_count]. rewrite length_base_raw.
  destruct (base_raw_split c v t) as (_ & _ & ->). rewrite (poke_at _ _ _ (EncodeFixed32 (u32 t'))) by lens_fixed.
  unfold base_raw. by rewrite app_nil_r, <- app_assoc.
Qed.

Lemma Base_initial now c v t : Base_InitialMetaValue now (base_parsed true c v t) =
  Some (next_version now v, base_parsed true 0 (next_version now v) 0).
Proof.
  unfold Base_InitialMetaValue. unfold base_parsed at 1. rewrite Base_set_count, Base_set_time.
  unfold ParsedBase_UpdateVersion, Base_SetVersionToValue, Base_poke, base_parsed, kBaseMetaValueSuffixLength.
  cbn [pb_owned pb_value pb_version pb_timestamp pb_count]. rewrite length_base_raw.
  destruct (base_raw_split 0 v 0) as (_ & -> & _). by rewrite (poke_at _ _ _ (EncodeFixed32 (u32 (next_version now v)))) by lens_fixed.
Qed.

(** Versions grow: the new one is after the old one. *)
Lemma next_version_after now v : 0 <= now < 2 ^ 31 -> is_i32 v -> v < 2 ^ 31 - 1 ->
  is_i32 (next_version now v) /\ v < next_version now v /\ 0 <= next_version now v.
Proof.
  unfold next_version, is_i32. intros Hn Hv Hm. destruct (Z.leb_spec now v); rewrite i32_small by lia; lia.
Qed.

(** ** Lists *)

Definition lists_raw (c v t l r : Z) : bytes :=
  EncodeFixed64 c ++ EncodeFixed32 (u32 v) ++ EncodeFixed32 (u32 t) ++ EncodeFixed64 l ++ EncodeFixed64 r.
Definition lists_parsed (o : bool) (c v t l r : Z) : ParsedListsMetaValue := MkParsedLists (lists_raw c v t l r) o v t c l r.

Lemma length_lists_raw c v t l r : length (lists_raw c v t l r) = 32%nat.
Proof. unfold lists_raw. by rewrite !length_app, !length_EncodeFixed32, !length_EncodeFixed64. Qed.

Lemma lists_raw_split c v t l r :
  lists_raw c v t l r =
    [] ++ EncodeFixed64 c ++ EncodeFixed32 (u32 v) ++ EncodeFixed32 (u32 t) ++ EncodeFixed64 l ++ EncodeFixed64 r /\
  lists_raw c v t l r =
    EncodeFixed64 c ++ EncodeFixed32 (u32 v) ++ EncodeFixed32 (u32 t) ++ EncodeFixed64 l ++ EncodeFixed64 r /\
  lists_raw c v t l r = (EncodeFixed64 c ++ EncodeFixed32 (u32 v)) ++ EncodeFixed32 (u32 t) ++ EncodeFixed64 l ++ EncodeFixed64 r /\
  lists_raw c v t l r = (EncodeFixed64 c ++ EncodeFixed32 (u32 v) ++ EncodeFixed32 (u32 t)) ++ EncodeFixed64 l ++ EncodeFixed64 r /\
  lists_raw c v t l r = (EncodeFixed64 c ++ EncodeFixed32 (u32 v) ++ EncodeFixed32 (u32 t) ++ EncodeFixed64 l) ++ EncodeFixed64 r ++ [].
Proof. unfold lists_raw. rewrite app_nil_r, <- !app_assoc. done. Qed.

Lemma Lists_parse o c v t l r : is_u64 c -> is_i32 v -> is_i32 t -> is_u64 l -> is_u64 r ->
  ParsedListsMetaValue_make o (lists_raw c v t l r) = Some (lists_parsed o c v t l r).
Proof.
  intros Hc Hv Ht Hl Hr. unfold ParsedListsMetaValue_make, kListsMetaValueSuffixLength. rewrite length_lists_raw. in_bounds.
  destruct (lists_raw_split c v t l r) as (E0 & E0' & E1 & E2 & E3).
  rewrite E0' at 1. rewrite peek32_at by lens_fixed.
  rewrite E1 at 1. rewrite peek32_at by lens_fixed. rewrite E2 at 1. rewrite peek64_at by lens_fixed.
  rewrite E3 at 1. rewrite peek64_at by lens_fixed. rewrite E0 at 1. rewrite peek64_at by done.
  by rewrite !i32_u32, !u64_small by done.
Qed.

Lemma Lists_set_count c v t l r n : Lists_SetCount n (lists_parsed true c v t l r) = Some (lists_parsed true n v t l r).
Proof.
  unfold Lists_SetCount, Lists_poke64, lists_parsed. cbn [pl_owned pl_value pl_version pl_timestamp pl_count pl_leftindex pl_rightindex].
  destruct (lists_raw_split c v t l r) as (-> & _). by rewrite (poke_at [] _ _ (EncodeFixed64 n)) by done.
Qed.

Lemma Lists_set_left c v t l r n : Lists_SetLeftIndex n (lists_parsed true c v t l r) = Some (lists_parsed true c v t n r).
Proof.
  unfold Lists_SetLeftIndex, Lists_poke64, lists_parsed. cbn [pl_owned pl_value pl_version pl_timestamp pl_count pl_leftindex pl_rightindex].
  rewrite length_lists_raw. destruct (lists_raw_split c v t l r) as (_ & _ & _ & -> & _).
  rewrite (poke_at _ _ _ (EncodeFixed64 n)) by lens_fixed. unfold lists_raw. by rewrite <- !app_assoc.
Qed.

Lemma Lists_set_right c v t l r n : Lists_SetRightIndex n (lists_parsed true c v t l r) = Some (lists_parsed true c v t l n).
Proof.
  unfold Lists_SetRightIndex, Lists_poke64, lists_parsed. cbn [pl_owned pl_value pl_version pl_timestamp pl_count pl_leftindex pl_rightindex].
  rewrite length_lists_raw. destruct (lists_raw_split c v t l r) as (_ & _ & _ & _ & ->).
  rewrite (poke_at _ _ _ (EncodeFixed64 n)) by lens_fixed. unfold lists_raw. by rewrite app_nil_r, <- !app_assoc.
Qed.

Lemma Lists_set_time c v t l r n : ParsedLists_SetTimestamp n (lists_parsed true c v t l r) = Some (lists_parsed true c v n l r).
Proof.
  unfold ParsedLists_SetTimestamp, Lists_SetTimestampToValue, Lists_poke32, lists_parsed.
  cbn [pl_owned pl_value pl_version pl_timestamp pl_count pl_leftindex pl_rightindex].
  rewrite length_lists_raw. destruct (lists_raw_split c v t l r) as (_ & _ & -> & _).
  rewrite (poke_at _ _ _ (EncodeFixed32 (u32 n))) by lens_fixed. unfold lists_raw. by rewrite <- !app_assoc.
Qed.

Lemma Lists_update now c v t l r : ParsedLists_UpdateVersion now (lists_parsed true c v t l r) =
  Some (lists_next_version now v, lists_parsed true c (lists_next_version now v) t l r).
Proof.
  unfold ParsedLists_UpdateVersion, Lists_SetVersionToValue, Lists_poke32, lists_parsed, kListsMetaValueSuffixLength.
  cbn [pl_owned pl_value pl_version pl_timestamp pl_count pl_leftindex pl_rightindex].
  rewrite length_lists_raw. destruct (lists_raw_split c v t l r) as (_ & -> & _).
  by rewrite (poke_at _ _ _ (EncodeFixed32 (u32 (lists_next_version now v)))) by lens_fixed.
Qed.

Lemma Lists_initial now c v t l r : Lists_InitialMetaValue now (lists_parsed true c v t l r) =
  Some (lists_next_version now v,
        lists_parsed true 0 (lists_next_version now v) 0 InitalLeftIndex InitalRightIndex).
Proof.
  unfold Lists_InitialMetaValue. by rewrite Lists_set_count, Lists_set_left, Lists_set_right, Lists_set_time, Lists_update.
Qed.

(** ** Keys *)

Lemma length_BaseDataKey key v data : len (BaseDataKey_Encode key v data) = len key + len data + 8.
Proof. unfold BaseDataKey_Encode. lens_fixed. Qed.

Lemma BaseDataKey_split key v data :
  BaseDataKey_Encode key v data = [] ++ EncodeFixed32 (u32 (len key)) ++ key ++ EncodeFixed32 (u32 v) ++ data /\
  BaseDataKey_Encode key v data = EncodeFixed32 (u32 (len key)) ++ key ++ EncodeFixed32 (u32 v) ++ data /\
  BaseDataKey_Encode key v data = (EncodeFixed32 (u32 (len key)) ++ key) ++ EncodeFixed32 (u32 v) ++ data /\
  BaseDataKey_Encode key v data = (EncodeFixed32 (u32 (len key)) ++ key ++ EncodeFixed32 (u32 v)) ++ data ++ [].
Proof. unfold BaseDataKey_Encode. by rewrite app_nil_r, <- !app_assoc. Qed.

Lemma ParsedDataKey_Encode key v data : len key < 2 ^ 31 -> is_i32 v ->
  ParsedDataKey_view (BaseDataKey_Encode key v data) = Some (MkParsedDataKey key v data).
Proof.
  intros Hk Hv. unfold ParsedDataKey_view, ParsedDataKey_from. rewrite length_BaseDataKey.
  destruct (BaseDataKey_split key v data) as (E0 & E1 & E2 & E3).
  rewrite E0 at 1. rewrite peek32_at by done. rewrite i32_u32 by (unfold is_i32; lia).
  rewrite E1 at 1. rewrite view_slice by lens_fixed. rewrite E2 at 1. rewrite peek32_at by lens_fixed.
  rewrite E3 at 1. rewrite view_slice by lens_fixed. by rewrite i32_u32.
Qed.

Lemma BaseDataKey_inj k v d k' v' d' : len k < 2 ^ 31 -> len k' < 2 ^ 31 -> is_i32 v -> is_i32 v' ->
  BaseDataKey_Encode k v d = BaseDataKey_Encode k' v' d' -> k = k' /\ v = v' /\ d = d'.
Proof.
  intros Hk Hk' Hv Hv' He. pose proof (ParsedDataKey_Encode k v d Hk Hv) as Hp.
  rewrite He, ParsedDataKey_Encode in Hp by done. by injection Hp as -> -> ->.
Qed.

Lemma BaseDataKey_prefix k v d : BaseDataKey_Encode k v d = BaseDataKey_Encode k v [] ++ d.
Proof. unfold BaseDataKey_Encode. by rewrite app_nil_r, <- !app_assoc. Qed.

(** [StartsWith]. *)
Definition StartsWith (x y : bytes) : bool := bool_decide (take (length y) x = y).

Lemma StartsWith_spec x y : StartsWith x y = true <-> exists d, x = y ++ d.
Proof.
  unfold StartsWith. rewrite bool_decide_eq_true. split.
  - intros Ht. exists (drop (length y) x). by rewrite <- Ht at 1; rewrite take_drop.
  - intros [d ->]. by rewrite take_app_exact.
Qed.

Lemma ListsDataKey_split key v i :
  ListsDataKey_Encode key v i = [] ++ EncodeFixed32 (u32 (len key)) ++ key ++ EncodeFixed32 (u32 v) ++ EncodeFixed64 i /\
  ListsDataKey_Encode key v i = EncodeFixed32 (u32 (len key)) ++ key ++ EncodeFixed32 (u32 v) ++ EncodeFixed64 i /\
  ListsDataKey_Encode key v i = (EncodeFixed32 (u32 (len key)) ++ key) ++ EncodeFixed32 (u32 v) ++ EncodeFixed64 i /\
  ListsDataKey_Encode key v i = (EncodeFixed32 (u32 (len key)) ++ key ++ EncodeFixed32 (u32 v)) ++ EncodeFixed64 i ++ [].
Proof. unfold ListsDataKey_Encode. by rewrite app_nil_r, <- !app_assoc. Qed.

Lemma length_ListsDataKey key v i : len (ListsDataKey_Encode key v i) = len key + 16.
Proof. unfold ListsDataKey_Encode. lens_fixed. Qed.

(** The parts of a list key that is read back. *)
Definition list_key_ok (key : bytes) (v i : Z) : Prop := len key < 2 ^ 31 - 16 /\ is_i32 v /\ is_u64 i.

Lemma ParsedListsDataKey_Encode key v i : list_key_ok key v i ->
  ParsedListsDataKey_make (ListsDataKey_Encode key v i) = Some (MkParsedListsDataKey key v i).
Proof.
  intros (Hk & Hv & Hi). unfold ParsedListsDataKey_make. destruct (ListsDataKey_split key v i) as (E0 & E1 & E2 & E3).
  rewrite E0 at 1. rewrite peek32_at by done. rewrite i32_u32 by (unfold is_i32; lia).
  rewrite E1 at 1. rewrite view_slice by lens_fixed. rewrite E2 at 1. rewrite peek32_at by lens_fixed.
  rewrite E3 at 1. rewrite peek64_at by lens_fixed. by rewrite i32_u32, u64_small.
Qed.

Lemma ListsDataKey_inj k v i k' v' i' : list_key_ok k v i -> list_key_ok k' v' i' ->
  ListsDataKey_Encode k v i = ListsDataKey_Encode k' v' i' -> k = k' /\ v = v' /\ i = i'.
Proof.
  intros Hk Hk' He. pose proof (ParsedListsDataKey_Encode k v i Hk) as Hp.
  rewrite He, ParsedListsDataKey_Encode in Hp by done. by injection Hp as -> -> ->.
Qed.

(** A comparison of parts, in order of importance. *)
Definition lex (a b : comparison) : comparison := match a with Eq => b | Lt => Lt | Gt => Gt end.

Definition list_key_compare (k : bytes) (v i : Z) (k' : bytes) (v' i' : Z) : comparison :=
  lex (compare k k') (lex (v ?= v') (i ?= i')).

Lemma Lists_Compare_Encode k v i k' v' i' : list_key_ok k v i -> list_key_ok k' v' i' ->
  Lists_Compare (ListsDataKey_Encode k v i) (ListsDataKey_Encode k' v' i') = Some (list_key_compare k v i k' v' i').
Proof.
  intros (Hk & Hv & Hi) (Hk' & Hv' & Hi'). unfold Lists_Compare. rewrite !length_ListsDataKey.
  rewrite !(proj2 (Z.eqb_neq _ _)) by lia. cbn [orb].
  destruct (ListsDataKey_split k v i) as (A0 & A1 & A2 & A3). destruct (ListsDataKey_split k' v' i') as (B0 & B1 & B2 & B3).
  rewrite A0 at 1. rewrite peek32_at by done. rewrite B0 at 1. rewrite peek32_at by done.
  rewrite !(i32_u32 (len _)) by (unfold is_i32; lia). rewrite !i32_small by lia.
  rewrite A1 at 1. rewrite view_slice by lens_fixed. rewrite B1 at 1. rewrite view_slice by lens_fixed.
  unfold list_key_compare. destruct (compare k k'); [|done|done].
  unfold ends_compare. rewrite !(proj2 (Z.eqb_neq _ _)) by lia. cbn [andb].
  rewrite A2 at 1. rewrite peek32_at by lens_fixed. rewrite B2 at 1. rewrite peek32_at by lens_fixed.
  rewrite !i32_u32 by done. destruct (v ?= v'); [|done|done].
  rewrite A3 at 1. rewrite peek64_at by lens_fixed. rewrite B3 at 1. rewrite peek64_at by lens_fixed.
  by rewrite !u64_small.
Qed.

Definition list_dom (x : bytes) : Prop := exists k v i, list_key_ok k v i /\ x = ListsDataKey_Encode k v i.

Lemma lex_trans (a b d : comparison) (a' b' d' : comparison) :
  (a = Lt -> b = Lt -> d = Lt) -> (a = Eq -> d = b) -> (b = Eq -> d = a) ->
  (a = Eq -> b = Eq -> a' = Lt -> b' = Lt -> d' = Lt) ->
  lex a a' = Lt -> lex b b' = Lt -> lex d d' = Lt.
Proof.
  intros H1 H2 H3 H4. destruct a, b; try done; intros Ha Hb.
  - rewrite (H2 eq_refl). by apply H4.
  - by rewrite (H2 eq_refl).
  - by rewrite (H3 eq_refl).
  - by rewrite H1.
Qed.

Lemma list_key_compare_opp k v i k' v' i' : list_key_compare k v i k' v' i' = CompOpp (list_key_compare k' v' i' k v i).
Proof.
  unfold list_key_compare. rewrite (compare_opp k k'). destruct (compare k' k); try done. cbn.
  rewrite (Z.compare_antisym v' v). destruct (v' ?= v); try done. cbn. by rewrite (Z.compare_antisym i' i).
Qed.

Lemma Zcompare_lt_trans a b d : (a ?= b) = Lt -> (b ?= d) = Lt -> (a ?= d) = Lt.
Proof. rewrite !Z.compare_lt_iff. lia. Qed.

Lemma list_key_compare_trans k v i k' v' i' k'' v'' i'' :
  list_key_compare k v i k' v' i' = Lt -> list_key_compare k' v' i' k'' v'' i'' = Lt -> list_key_compare k v i k'' v'' i'' = Lt.
Proof.
  apply (lex_trans (compare k k') (compare k' k'') (compare k k'')); [apply compare_lt_trans|by intros ->%compare_eq|by intros ->%compare_eq|].
  intros _ _. apply (lex_trans (v ?= v') (v' ?= v'') (v ?= v'')); [apply Zcompare_lt_trans|by intros ->%Z.compare_eq|by intros ->%Z.compare_eq|].
  intros _ _. apply Zcompare_lt_trans.
Qed.

Lemma list_key_compare_eq k v i k' v' i' : list_key_compare k v i k' v' i' = Eq -> k = k' /\ v = v' /\ i = i'.
Proof.
  unfold list_key_compare. destruct (compare k k') eqn:Hk; try done. destruct (v ?= v') eqn:Hv; try done.
  intros Hi. by apply compare_eq in Hk; apply Z.compare_eq in Hv, Hi.
Qed.

#[export] Instance ListsDataKeyComparator_ok : ComparatorOk ListsDataKeyComparatorImpl list_dom.
Proof.
  split; cbn [Compare FindShortestSeparator FindShortSuccessor ListsDataKeyComparatorImpl].
  - intros a b (k & v & i & Hk & ->) (k' & v' & i' & Hk' & ->). rewrite !Lists_Compare_Encode by done. apply list_key_compare_opp.
  - intros a b d (k & v & i & Hk & ->) (k' & v' & i' & Hk' & ->) (k'' & v'' & i'' & Hk'' & ->).
    rewrite !Lists_Compare_Encode by done. apply list_key_compare_trans.
  - intros a b d (k & v & i & Hk & ->) (k' & v' & i' & Hk' & ->) _. rewrite Lists_Compare_Encode by done.
    by intros (-> & -> & ->)%list_key_compare_eq.
  - intros s l Hs Hl Hlt. split; [done|]. split; [|done]. destruct Hs as (k & v & i & Hk & ->).
    rewrite Lists_Compare_Encode by done. unfold list_key_compare. cbn. by rewrite compare_refl, !Z.compare_refl.
  - done.
  - intros key (k & v & i & Hk & ->). split; [by exists k, v, i|]. rewrite Lists_Compare_Encode by done.
    unfold list_key_compare. cbn. by rewrite compare_refl, !Z.compare_refl.
Qed.

#[global] Arguments BaseDataKey_Encode : simpl never.
#[global] Arguments ListsDataKey_Encode : simpl never.
#[global] Arguments base_raw : simpl never.
#[global] Arguments lists_raw : simpl never.
#[global] Arguments string_raw : simpl never.
