(* ===== verification/Glob.v ===== *)
(** Glob-style patterns ([StringMatchLen] and [IsTailWildcard] of redisdb/db/util.cc).

    The matcher walks two C strings.  The pattern is the bytes that are left of it, and its
    terminator is there to be read; the string is the bytes that are left of it, or [None]
    once the walk is past its terminator, where [stringlen] is negative and a read is
    undefined.  The result is [None] where the code reads there. *)
From Stdlib Require Import Ascii.
From stdpp Require Import list.
From S2P Require Import Prelude.
Local Open Scope Z_scope.

(** ** Characters *)

(** A [char] as an [int]: it is signed. *)
Definition char_int (b : byte) : Z := if b2z b <? 128 then b2z b else b2z b - 256.

(** [tolower] of the "C" locale. *)
Definition tolower (c : Z) : Z := if (65 <=? c) && (c <=? 90) then c + 32 else c.

Definition is_char (b : byte) (c : ascii) : bool := bool_decide (b = byte_of_ascii c).
Definition is_backslash (b : byte) : bool := bool_decide (b = Byte.x5c).

(** The comparison of two characters with [nocase]. *)
Definition same_char (nocase : bool) (a b : byte) : bool :=
  if nocase then tolower (char_int a) =? tolower (char_int b) else bool_decide (a = b).

Definition in_range (nocase : bool) (start end_ c : byte) : bool :=
  let lower z := if nocase then tolower z else z in
  let lo := Z.min (char_int start) (char_int end_) in
  let hi := Z.max (char_int start) (char_int end_) in
  (lower lo <=? lower (char_int c)) && (lower (char_int c) <=? lower hi).

(** ** [StringMatchLen] *)

(** [string[0]]: the terminator is there to be read. *)
Definition char_at (s : option bytes) : option byte :=
  match s with Some (c :: _) => Some c | Some [] => Some Byte.x00 | None => None end.

(** [string++] and [stringlen--]. *)
Definition advance (s : option bytes) : option bytes :=
  match s with Some (_ :: s) => Some s | _ => None end.

(** The loop over a class: whether the character is in it, and what follows the class.  A
    class that is not closed ends with the pattern. *)
Fixpoint class_loop (nocase : bool) (s : option bytes) (p : bytes) (match_ : bool) : option (bool * bytes) :=
  match p with
  | [] => Some (match_, [])
  | a :: p1 =>
      match p1 with
      | b :: p2 =>
          if is_backslash a then
            let? c := char_at s in class_loop nocase s p2 (match_ || bool_decide (b = c))
          else if is_char a "]" then Some (match_, p1)
          else
            match p2 with
            | d :: p3 =>
                if is_char b "-" then
                  let? c := char_at s in class_loop nocase s p3 (match_ || in_range nocase a d c)
                else let? c := char_at s in class_loop nocase s p1 (match_ || same_char nocase a c)
            | [] => let? c := char_at s in class_loop nocase s p1 (match_ || same_char nocase a c)
            end
      | [] =>
          if is_char a "]" then Some (match_, p1)
          else let? c := char_at s in class_loop nocase s p1 (match_ || same_char nocase a c)
      end
  end.

(** [while ( *pattern == '*' )]. *)
Fixpoint skip_stars (p : bytes) : bytes :=
  match p with
  | a :: p' => if is_char a "*" then skip_stars p' else p
  | [] => []
  end.

(** The loop of a star: the rest of the pattern against every rest of the string but the
    empty one. *)
Fixpoint star_loop (matches : bytes -> option bool) (s : bytes) : option bool :=
  match s with
  | [] => Some false
  | _ :: s' => let? m := matches s in if m : bool then Some true else star_loop matches s'
  end.

(** What a turn of the loop does with a pattern that does not begin with a star: no match,
    or what is left of the pattern and of the string. *)
Definition match_turn (nocase : bool) (a : byte) (p : bytes) (s : option bytes) : option (option (bytes * option bytes)) :=
  if is_char a "?" then
    Some (if bool_decide (s = Some []) then None else Some (p, advance s))
  else if is_char a "[" then
    let '(no, p) := match p with b :: p' => if is_char b "^" then (true, p') else (false, p) | [] => (false, p) end in
    let? (m, p) := class_loop nocase s p false in
    Some (if eqb m no then None else Some (p, advance s))
  else
    let '(a, p) := if is_backslash a then match p with b :: p' => (b, p') | [] => (a, p) end else (a, p) in
    let? c := char_at s in Some (if same_char nocase a c then Some (p, advance s) else None).

(** A star past the end of the string counts [stringlen] down for ever. *)
Fixpoint StringMatch_loop (nocase : bool) (fuel : nat) (p : bytes) (s : option bytes) : option bool :=
  match fuel, p with
  | O, _ => None
  | S _, [] => Some (bool_decide (s = Some []))
  | S fuel, a :: p =>
      if is_char a "*" then
        match skip_stars p with
        | [] => Some true
        | p' => let? s := s in star_loop (fun s => StringMatch_loop nocase fuel p' (Some s)) s
        end
      else
        let? r := match_turn nocase a p s in
        match r with
        | None => Some false
        | Some (p, s) =>
            if bool_decide (s = Some []) then Some (bool_decide (skip_stars p = []))
            else StringMatch_loop nocase fuel p s
        end
  end.

(** Every turn uses up a character of the pattern. *)
Definition StringMatchLen (pattern string : bytes) (nocase : bool) : option bool :=
  StringMatch_loop nocase (S (length pattern)) pattern (Some string).

(** ** The meaning of a pattern *)

(** The members of a class, and what a pattern is made of. *)
Inductive Item := ItChar (a : byte) | ItEscaped (a : byte) | ItRange (a b : byte).
Inductive Token := TkStar | TkAny | TkChar (a : byte) | TkClass (no : bool) (items : list Item).

Definition item_ok (nocase : bool) (c : byte) (i : Item) : bool :=
  match i with
  | ItChar a => same_char nocase a c
  | ItEscaped a => bool_decide (a = c)
  | ItRange a b => in_range nocase a b c
  end.

Definition token_ok (nocase : bool) (t : Token) (c : byte) : bool :=
  match t with
  | TkStar => false
  | TkAny => true
  | TkChar a => same_char nocase a c
  | TkClass no items => negb (eqb (existsb (item_ok nocase c) items) no)
  end.

(** The strings of a pattern: a star stands for any string, the others for one character. *)
Inductive glob (nocase : bool) : list Token -> bytes -> Prop :=
  | glob_nil : glob nocase [] []
  | glob_star_end p s : glob nocase p s -> glob nocase (TkStar :: p) s
  | glob_star c p s : glob nocase (TkStar :: p) s -> glob nocase (TkStar :: p) (c :: s)
  | glob_char t c p s : token_ok nocase t c = true -> glob nocase p s -> glob nocase (t :: p) (c :: s).

(** Reading a class, and a pattern. *)
Fixpoint class_items (p : bytes) : list Item * bytes :=
  match p with
  | [] => ([], [])
  | a :: p1 =>
      match p1 with
      | b :: p2 =>
          if is_backslash a then (ItEscaped b :: (class_items p2).1, (class_items p2).2)
          else if is_char a "]" then ([], p1)
          else
            match p2 with
            | d :: p3 =>
                if is_char b "-" then (ItRange a d :: (class_items p3).1, (class_items p3).2)
                else (ItChar a :: (class_items p1).1, (class_items p1).2)
            | [] => (ItChar a :: (class_items p1).1, (class_items p1).2)
            end
      | [] => if is_char a "]" then ([], p1) else ([ItChar a], [])
      end
  end.

Definition token_of (a : byte) (p : bytes) : Token * bytes :=
  if is_char a "*" then (TkStar, p)
  else if is_char a "?" then (TkAny, p)
  else if is_char a "[" then
    let '(no, p) := match p with b :: p' => if is_char b "^" then (true, p') else (false, p) | [] => (false, p) end in
    (TkClass no (class_items p).1, (class_items p).2)
  else if is_backslash a then match p with b :: p' => (TkChar b, p') | [] => (TkChar a, p) end
  else (TkChar a, p).

Fixpoint tokens_loop (fuel : nat) (p : bytes) : list Token :=
  match fuel, p with
  | S fuel, a :: p => let '(t, p) := token_of a p in t :: tokens_loop fuel p
  | _, _ => []
  end.

Definition tokens (pattern : bytes) : list Token := tokens_loop (length pattern) pattern.

(** ** The matcher decides the meaning *)

(** A step of reading a class: it ends, or an item is read. *)
Definition class_step (p : bytes) : option (Item * bytes) :=
  match p with
  | a :: b :: p2 =>
      if is_backslash a then Some (ItEscaped b, p2)
      else if is_char a "]" then None
      else match p2 with d :: p3 => if is_char b "-" then Some (ItRange a d, p3) else Some (ItChar a, b :: p2) | [] => Some (ItChar a, b :: p2) end
  | [a] => if is_char a "]" then None else Some (ItChar a, [])
  | [] => None
  end.

Lemma class_step_length p i q : class_step p = Some (i, q) -> (length q < length p)%nat.
Proof. destruct p as [|a [|b [|d p]]]; cbn; intros Hs; repeat case_match; simplify_eq; cbn; lia. Qed.

Lemma class_items_step p : class_items p =
  match class_step p with Some (i, q) => (i :: (class_items q).1, (class_items q).2) | None => ([], tail p) end.
Proof.
  destruct p as [|a [|b [|d p]]]; [done|..]; unfold class_step.
  - cbn. by destruct (is_char a _).
  - change (class_items [a; b]) with (if is_backslash a then (ItEscaped b :: (class_items []).1, (class_items []).2)
      else if is_char a "]" then ([], [b]) else (ItChar a :: (class_items [b]).1, (class_items [b]).2)).
    destruct (is_backslash a); [done|]. by destruct (is_char a _).
  - change (class_items (a :: b :: d :: p)) with (if is_backslash a then (ItEscaped b :: (class_items (d :: p)).1, (class_items (d :: p)).2)
      else if is_char a "]" then ([], b :: d :: p) else if is_char b "-" then (ItRange a d :: (class_items p).1, (class_items p).2)
      else (ItChar a :: (class_items (b :: d :: p)).1, (class_items (b :: d :: p)).2)).
    destruct (is_backslash a); [done|]. destruct (is_char a _); [done|]. by destruct (is_char b _).
Qed.

Lemma class_loop_step nocase s p m : class_loop nocase s p m =
  match class_step p with Some (i, q) => let? c := char_at s in class_loop nocase s q (m || item_ok nocase c i) | None => Some (m, tail p) end.
Proof.
  destruct p as [|a [|b [|d p]]]; [done|..]; unfold class_step.
  - cbn. by destruct (is_char a _).
  - change (class_loop nocase s [a; b] m) with (if is_backslash a then let? c := char_at s in class_loop nocase s [] (m || bool_decide (b = c))
      else if is_char a "]" then Some (m, [b]) else let? c := char_at s in class_loop nocase s [b] (m || same_char nocase a c)).
    destruct (is_backslash a); [done|]. by destruct (is_char a _).
  - change (class_loop nocase s (a :: b :: d :: p) m) with (if is_backslash a then let? c := char_at s in class_loop nocase s (d :: p) (m || bool_decide (b = c))
      else if is_char a "]" then Some (m, b :: d :: p) else if is_char b "-" then let? c := char_at s in class_loop nocase s p (m || in_range nocase a d c)
      else let? c := char_at s in class_loop nocase s (b :: d :: p) (m || same_char nocase a c)).
    destruct (is_backslash a); [done|]. destruct (is_char a _); [done|]. by destruct (is_char b _).
Qed.

Lemma class_items_length p : (length (class_items p).2 <= length p)%nat.
Proof.
  induction p as [p IH] using (induction_ltof1 _ (@length byte)). unfold ltof in IH. rewrite class_items_step.
  destruct (class_step p) as [[i q]|] eqn:Hs; cbn [snd].
  - apply class_step_length in Hs. specialize (IH q Hs). lia.
  - destruct p; cbn; lia.
Qed.

Lemma class_loop_items nocase s c p : char_at s = Some c -> forall m,
  class_loop nocase s p m = Some (m || existsb (item_ok nocase c) (class_items p).1, (class_items p).2).
Proof.
  intros Hc. induction p as [p IH] using (induction_ltof1 _ (@length byte)). unfold ltof in IH. intros m.
  rewrite class_loop_step, class_items_step. destruct (class_step p) as [[i q]|] eqn:Hs; cbn [fst snd existsb]; [|by rewrite orb_false_r].
  rewrite Hc. cbn [mbind option_bind]. rewrite IH by (by eapply class_step_length). by rewrite orb_assoc.
Qed.

Lemma token_of_length a p : (length (token_of a p).2 <= length p)%nat.
Proof.
  unfold token_of. destruct (is_char a _); [done|]. destruct (is_char a _); [done|]. destruct (is_char a _).
  - destruct p as [|b p]; [done|]. destruct (is_char b _); cbn [snd]; (etransitivity; [apply class_items_length|cbn; lia]).
  - destruct (is_backslash a); [destruct p; cbn; lia|done].
Qed.

Lemma tokens_loop_fuel p : forall n m, (length p <= n)%nat -> (length p <= m)%nat -> tokens_loop n p = tokens_loop m p.
Proof.
  induction p as [p IH] using (induction_ltof1 _ (@length byte)). unfold ltof in IH. intros n m Hn Hm.
  destruct p as [|a p]; [by destruct n, m|]. cbn [length] in Hn, Hm. destruct n as [|n], m as [|m]; [lia..|]. cbn [tokens_loop].
  pose proof (token_of_length a p) as Hl. destruct (token_of a p) as [t q]. cbn [snd] in Hl. f_equal. apply IH; cbn; lia.
Qed.

Lemma tokens_cons a p : tokens (a :: p) = (token_of a p).1 :: tokens (token_of a p).2.
Proof.
  unfold tokens. cbn [length tokens_loop]. pose proof (token_of_length a p) as Hl. destruct (token_of a p) as [t q]. cbn [fst snd] in *.
  f_equal. by apply tokens_loop_fuel.
Qed.

Lemma glob_star_spec nocase p s : glob nocase (TkStar :: p) s <-> exists s1 s2, s = s1 ++ s2 /\ glob nocase p s2.
Proof.
  split.
  - intros Hg. remember (TkStar :: p) as q eqn:Hq. revert Hq. induction Hg as [|p' s Hg _|c p' s _ IH|t c p' s Ht]; intros Hq; try done.
    + injection Hq as ->. by exists [], s.
    + destruct (IH Hq) as (s1 & s2 & -> & Hs). by exists (c :: s1), s2.
    + injection Hq as -> ->. done.
  - intros (s1 & s2 & -> & Hg). induction s1 as [|c s1 IH]; [by apply glob_star_end|by apply glob_star].
Qed.

Lemma glob_char_spec nocase t p c s : t <> TkStar -> glob nocase (t :: p) (c :: s) <-> token_ok nocase t c = true /\ glob nocase p s.
Proof.
  intros Ht. split; [|by intros [? ?]; apply glob_char]. intros Hg. inversion Hg; subst; done.
Qed.

Lemma glob_char_nil nocase t p : t <> TkStar -> ~ glob nocase (t :: p) [].
Proof. intros Ht Hg. inversion Hg; by subst. Qed.

Lemma skip_stars_length p : (length (skip_stars p) <= length p)%nat.
Proof. induction p as [|a p IH]; [done|]. cbn [skip_stars]. destruct (is_char a _); cbn [length]; lia. Qed.

Lemma tokens_star a p : is_char a "*" = true -> tokens (a :: p) = TkStar :: tokens p.
Proof. intros Ha. rewrite tokens_cons. unfold token_of. by rewrite Ha. Qed.

Lemma token_not_star a p : is_char a "*" = false -> (token_of a p).1 <> TkStar.
Proof.
  intros Ha. unfold token_of. rewrite Ha. repeat case_match; by simplify_eq/=.
Qed.

Lemma skip_stars_glob nocase p s : glob nocase (TkStar :: tokens p) s <-> glob nocase (TkStar :: tokens (skip_stars p)) s.
Proof.
  induction p as [|a p IH]; [done|]. cbn [skip_stars]. destruct (is_char a _) eqn:Ha; [|done]. rewrite <- IH, (tokens_star a p Ha), !glob_star_spec.
  setoid_rewrite glob_star_spec. split.
  - intros (s1 & s2 & -> & s3 & s4 & -> & Hg). exists (s1 ++ s3), s4. by rewrite app_assoc.
  - intros (s1 & s2 & -> & Hg). exists s1, s2. split; [done|]. by exists [], s2.
Qed.

(** What is left after the string matches the empty string when it is only stars. *)
Lemma skip_stars_nil nocase p : skip_stars p = [] <-> glob nocase (tokens p) [].
Proof.
  induction p as [|a p IH]; [split; [intros _; apply glob_nil|done]|]. cbn [skip_stars]. destruct (is_char a _) eqn:Ha.
  - rewrite IH, (tokens_star a p Ha), glob_star_spec. split; [intros Hg; by exists [], []|]. by intros (s1 & s2 & [-> ->]%eq_sym%app_nil & Hg).
  - split; [done|]. rewrite tokens_cons. intros Hg%glob_char_nil; [done|]. by apply token_not_star.
Qed.

Lemma skip_stars_head p a q : skip_stars p = a :: q -> is_char a "*" = false.
Proof. induction p as [|b p IH]; [done|]. cbn [skip_stars]. destruct (is_char b _) eqn:Hb; [done|]. by intros [= <- _]. Qed.

Lemma star_loop_ok (P : bytes -> Prop) f s :
  (forall s1 c s2, s = s1 ++ c :: s2 -> exists b, f (c :: s2) = Some b /\ (b = true <-> P (c :: s2))) ->
  exists b, star_loop f s = Some b /\ (b = true <-> exists s1 s2, s = s1 ++ s2 /\ s2 <> [] /\ P s2).
Proof.
  induction s as [|c s IH]; intros Hf; cbn [star_loop].
  - exists false. split; [done|]. split; [done|]. by intros (s1 & s2 & [-> ->]%eq_sym%app_nil & Hn & _).
  - destruct (Hf [] c s eq_refl) as (b & -> & Hb). cbn [mbind option_bind]. destruct b.
    + exists true. split; [done|]. split; [|done]. intros _. exists [], (c :: s). split; [done|]. split; [done|]. by apply Hb.
    + destruct IH as (b & -> & Hb'); [intros s1 d s2 ->; by apply (Hf (c :: s1))|]. exists b. split; [done|]. rewrite Hb'. split.
      * intros (s1 & s2 & -> & Hs). by exists (c :: s1), s2.
      * intros ([|d s1] & s2 & Hs & Hn & Hp); [cbn in Hs; subst s2; by apply Hb in Hp|]. injection Hs as <- ->. by exists s1, s2.
Qed.

(** Patterns that do not read the terminator of an empty string as a character of it. *)
Definition reads_no_terminator (p : bytes) : Prop :=
  match p with a :: _ => is_char a "[" = false /\ is_backslash a = false /\ a <> Byte.x00 | [] => True end.

Lemma char_int_zero a : char_int a = 0 -> a = Byte.x00.
Proof. unfold char_int. destruct (Z.ltb_spec (b2z a) 128) as [Hlt|Hge]; intros Hz; pose proof (b2z_range a); [|lia]. apply b2z_inj. by rewrite Hz. Qed.

Lemma same_char_terminator nocase a : a <> Byte.x00 -> same_char nocase a Byte.x00 = false.
Proof.
  intros Ha. unfold same_char. destruct nocase; [|by apply bool_decide_eq_false]. apply Z.eqb_neq. change (tolower (char_int Byte.x00)) with 0.
  intros Hz. apply Ha, char_int_zero. unfold tolower in Hz. destruct (_ && _) eqn:Hr; lia.
Qed.

(** A turn takes a token and a character. *)
Lemma match_turn_ok nocase a p c s : is_char a "*" = false ->
  match_turn nocase a p (Some (c :: s)) = Some (if token_ok nocase (token_of a p).1 c then Some ((token_of a p).2, Some s) else None).
Proof.
  intros Ha. unfold match_turn, token_of. rewrite Ha. destruct (is_char a "?"); [done|]. destruct (is_char a "[").
  - destruct p as [|b p]; [by rewrite (class_loop_items _ _ c)|]. destruct (is_char b "^"); rewrite (class_loop_items _ _ c) by done;
      cbn [mbind option_bind fst snd token_ok orb advance]; by destruct (eqb _ _).
  - destruct (is_backslash a); [destruct p|]; done.
Qed.

Lemma match_turn_nil nocase a p : is_char a "*" = false -> reads_no_terminator (a :: p) -> match_turn nocase a p (Some []) = Some None.
Proof.
  intros Ha (Hb & Hs & Hz). unfold match_turn. rewrite Hb, Hs. destruct (is_char a "?"); [done|]. cbn [char_at mbind option_bind].
  by rewrite same_char_terminator.
Qed.

Lemma StringMatch_loop_ok nocase fuel : forall p s, (length p < fuel)%nat -> s <> [] \/ reads_no_terminator p ->
  exists b, StringMatch_loop nocase fuel p (Some s) = Some b /\ (b = true <-> glob nocase (tokens p) s).
Proof.
  induction fuel as [|fuel IH]; intros p s Hf Hs; [lia|]. destruct p as [|a p]; cbn [StringMatch_loop].
  { eexists. split; [done|]. rewrite bool_decide_eq_true. split; [intros [= ->]; apply glob_nil|]. intros Hg. by inversion Hg. }
  cbn [length] in Hf. destruct (is_char a "*") eqn:Ha.
  - rewrite (tokens_star a p Ha). setoid_rewrite skip_stars_glob. pose proof (skip_stars_length p) as Hl.
    destruct (skip_stars p) as [|d q] eqn:Hq.
    { exists true. split; [done|]. split; [|done]. intros _. apply glob_star_spec. exists s, []. split; [by rewrite app_nil_r|apply glob_nil]. }
    cbn [mbind option_bind]. destruct (star_loop_ok (glob nocase (tokens (d :: q))) (fun s => StringMatch_loop nocase fuel (d :: q) (Some s)) s) as (b & Hb & Hiff).
    { intros s1 c s2 _. apply IH; [lia|by left]. }
    exists b. split; [exact Hb|]. rewrite Hiff, glob_star_spec. split; [intros (s1 & s2 & -> & _ & Hg); by exists s1, s2|].
    intros (s1 & s2 & -> & Hg). exists s1, s2. split; [done|]. split; [|done]. intros ->. revert Hg. rewrite tokens_cons.
    apply glob_char_nil, token_not_star. by eapply skip_stars_head.
  - destruct s as [|c s].
    { destruct Hs as [Hs|Hs]; [done|]. rewrite match_turn_nil by done. exists false. split; [done|]. split; [done|].
      rewrite tokens_cons. intros Hg%glob_char_nil; [done|by apply token_not_star]. }
    rewrite match_turn_ok by done. cbn [mbind option_bind]. setoid_rewrite tokens_cons. setoid_rewrite glob_char_spec; [|by apply token_not_star].
    pose proof (token_of_length a p) as Hl. destruct (token_of a p) as [t q]. cbn [fst snd] in *. destruct (token_ok nocase t c); [|exists false; by split; [|split; [|intros [? _]]]].
    case_bool_decide as Hn.
    + injection Hn as ->. eexists. split; [done|]. rewrite bool_decide_eq_true, (skip_stars_nil nocase). tauto.
    + destruct (IH q s) as (b & -> & Hb); [lia|left; by intros ->|]. exists b. split; [done|]. rewrite Hb. tauto.
Qed.

(** C23: the matcher decides the meaning of the pattern: it returns, and answers whether the string is one of those that the
    tokens of the pattern stand for - a star for any string, a question mark for any character, a class for one of its members or, after
    a caret, for any other character, a backslash for the next character itself.  The string is not empty, or the pattern does not begin by
    comparing a character with its terminator ([match_past_end]). *)
Theorem glob_match nocase pattern string : string <> [] \/ reads_no_terminator pattern ->
  exists b, StringMatchLen pattern string nocase = Some b /\ (b = true <-> glob nocase (tokens pattern) string).
Proof. apply StringMatch_loop_ok. lia. Qed.

Lemma glob_match_witness : StringMatchLen (str "h[^a-d]l*o\?") (str "hello wo?") false = Some true /\
  glob false (tokens (str "h[^a-d]l*o\?")) (str "hello wo?").
Proof.
  destruct (glob_match false (str "h[^a-d]l*o\?") (str "hello wo?")) as (b & Hm & Hb); [by left|].
  assert (StringMatchLen (str "h[^a-d]l*o\?") (str "hello wo?") false = Some true) as Ht by (vm_compute; reflexivity).
  rewrite Ht in Hm. injection Hm as <-. split; [reflexivity|]. by apply Hb.
Defined.

(** With an empty string, a class is looked up with the terminator; the next character is read behind it. *)
Example match_past_end : StringMatchLen (str "[^a]b") [] false = None /\ StringMatchLen (str "[^a]*b") [] false = None.
Proof. split; vm_compute; reflexivity. Qed.

(** ** [IsTailWildcard] *)

Definition IsTailWildcard (pattern : bytes) : bool :=
  if Z.of_nat (length pattern) <? 2 then false
  else
    match last pattern with
    | Some a => is_char a "*" && forallb (fun b => negb (is_char b "*" || is_char b "?" || is_char b "[" || is_char b "]")) (removelast pattern)
    | None => false
    end.

(** Without a backslash such a pattern stands for the strings with a prefix. *)
Lemma tail_wildcard pattern : IsTailWildcard pattern = true -> Forall (fun b => is_backslash b = false) pattern ->
  tokens pattern = map TkChar (removelast pattern) ++ [TkStar].
Proof.
  unfold IsTailWildcard. destruct (_ <? 2); [done|]. destruct (last pattern) as [z|] eqn:Hl; [|done].
  assert (pattern = removelast pattern ++ [z]) as Hp.
  { apply last_Some in Hl as [l ->]. by rewrite removelast_last. }
  rewrite andb_true_iff. intros [Hz Hall]. rewrite Hp at 1. intros Hb. rewrite Hp at 1. clear Hp Hl. revert Hall Hb.
  generalize (removelast pattern) as l. induction l as [|a l IH]; intros Hall Hb.
  - cbn [app map]. by rewrite (tokens_star z []).
  - cbn [app] in Hb |- *. apply Forall_cons in Hb as [Ha Hb]. cbn [forallb] in Hall. apply andb_true_iff in Hall as [Hn Hall].
    rewrite tokens_cons. unfold token_of. rewrite Ha.
    destruct (is_char a "*"), (is_char a "?"), (is_char a "["); try done. cbn [fst snd map app]. by rewrite IH.
Qed.

Lemma glob_prefix l s : glob false (map TkChar l ++ [TkStar]) s -> exists d, s = l ++ d.
Proof.
  revert s. induction l as [|a l IH]; intros s; cbn [map app]; [by exists s|]. intros Hg.
  destruct s as [|c s]; [by apply glob_char_nil in Hg|]. apply glob_char_spec in Hg as [Hc Hg]; [|done].
  destruct (IH s Hg) as [d ->]. cbn [token_ok] in Hc. unfold same_char in Hc. apply bool_decide_eq_true in Hc as ->. by exists d.
Qed.
