(* ===== verification/KvStore.v ===== *)
(** What the Redis types ask of the database (the class [DB] as redisdb/db/redis*.cc use it).

    [KVStore] is the interface: [kget] is [DB::Get], [kwrite] is [DB::Write] of the batch that
    performs the operations, [kentries] is what an iterator shows from where it is set to the
    last entry, and its status then.  [KVStoreOk] is the contract: the store holds a map, a
    read finds what the map has or fails, a write is applied to it or fails and changes
    nothing, an iterator shows the map in the order of the comparator or its status says that it
    failed, and then it left out entries.  [KVStoreSteady] is a store whose iterators do not fail.
    The store may ask for something before a write can be done ([holds]: room in a memtable,
    say) that it need not have afterwards ([held]).

    [DeadMemory] is what the bytes of a string read as after its destruction, which some commands
    do: nothing is known of it in general. *)
From Stdlib Require Import Sorted.
From stdpp Require Import gmap sorting sets.
From S2P Require Import Prelude Coding Status DbFormat WriteBatch Serialize.
Local Open Scope Z_scope.

#[export] Instance byte_countable : Countable Byte.byte.
Proof. apply (inj_countable' b2z z2b), z2b_b2z. Defined.

Abbreviation kvmap := (gmap bytes bytes).

Definition op_on (m : kvmap) (o : Op) : kvmap :=
  match o with OpPut k v => <[k := v]> m | OpDelete k => delete k m end.

Definition ops_on (ops : list Op) (m : kvmap) : kvmap := fold_left op_on ops m.

Lemma ops_on_app ops ops' m : ops_on (ops ++ ops') m = ops_on ops' (ops_on ops m).
Proof. apply fold_left_app. Qed.

(** [DB::Get] may fail otherwise than with [NotFound]. *)
Definition failed (s : Status) : Prop := ok s = false /\ IsNotFound s = false.

Class KVStore (D : Type) := {
  kget : D -> bytes -> bytes -> option (Status * bytes * D);
  kwrite : D -> list Op -> option (Status * D);
  kentries : D -> option bytes -> option (list (bytes * bytes) * Status)   (* set by [Seek], or by [SeekToFirst] *)
}.

(** What a [string_view] of a destroyed string of these bytes shows: as many bytes. *)
Class DeadMemory := {
  dead : bytes -> bytes;
  dead_length s : length (dead s) = length s
}.

(** The memory still holds the string, which C++ does not promise. *)
Class DeadMemoryKept `{DeadMemory} : Prop := dead_kept s : dead s = s.
Arguments DeadMemoryKept : clear implicits.

Definition memory_kept : DeadMemory := {| dead s := s; dead_length _ := eq_refl |}.

Lemma memory_kept_ok : DeadMemoryKept memory_kept.
Proof. done. Qed.

(** [Seek], and the rest of the walk from there. *)
Fixpoint seek_from (c : Comparator) (target : bytes) (es : list (bytes * bytes)) : list (bytes * bytes) :=
  match es with
  | [] => []
  | e :: es' => if bool_decide (Compare c e.1 target = Lt) then seek_from c target es' else es
  end.

Definition rows_from (c : Comparator) (target : option bytes) (es : list (bytes * bytes)) : list (bytes * bytes) :=
  match target with Some t => seek_from c t es | None => es end.

(** The entries of a map in the order of the comparator. *)
Definition in_order_of (c : Comparator) (m : kvmap) (es : list (bytes * bytes)) : Prop :=
  (forall k v, (k, v) ∈ es <-> m !! k = Some v) /\ StronglySorted (fun a b => Compare c a.1 b.1 = Lt) es.

(** Sizes a batch can hold. *)
Definition batch_fits (ops : list Op) : Prop := Forall op_fits ops /\ len ops < 2 ^ 31.

Class KVStoreOk (D : Type) `{KVStore D} (c : Comparator) (dom : bytes -> Prop) (holds held : D -> kvmap -> Prop) := {
  kholds_held d m : holds d m -> held d m;
  kholds_dom d m k v : holds d m -> m !! k = Some v -> dom k;
  kget_ok d m k value : holds d m -> dom k ->
    exists st value' d', kget d k value = Some (st, value', d') /\ holds d' m /\
      (failed st \/
       match m !! k with Some v => st = OK /\ value' = v | None => st = NotFound [] [] /\ value' = value end);
  kwrite_ok d m ops : holds d m -> batch_fits ops -> Forall (fun o => dom (op_key o)) ops ->
    exists st d', kwrite d ops = Some (st, d') /\
      ((st = OK /\ held d' (ops_on ops m)) \/ (failed st /\ held d' m));
  kentries_ok d m target : holds d m -> (forall t, target = Some t -> dom t) ->
    exists all es st, in_order_of c m all /\ kentries d target = Some (es, st) /\
      es `sublist_of` rows_from c target all /\ (ok st = true -> es = rows_from c target all)
}.

(** A store whose iterators do not fail. *)
Class KVStoreSteady (D : Type) `{KVStore D} (c : Comparator) (dom : bytes -> Prop) (holds held : D -> kvmap -> Prop) := {
  steady_store :: KVStoreOk D c dom holds held;
  kentries_steady d m target es st : holds d m -> (forall t, target = Some t -> dom t) -> kentries d target = Some (es, st) -> ok st = true
}.

(** Keys that a lookup key can be made of. *)
Definition short_key (k : bytes) : Prop := len k + 8 < 2 ^ 32.

(** [DB::Put] and [DB::Delete]. *)
Definition kput {D} `{KVStore D} (d : D) (k v : bytes) : option (Status * D) := kwrite d [OpPut k v].
Definition kdelete {D} `{KVStore D} (d : D) (k : bytes) : option (Status * D) := kwrite d [OpDelete k].

(** The loop [for (iter->Seek(prefix); iter->Valid() && StartsWith(iter->key(), prefix); iter->Next())]. *)
Fixpoint while_prefix (prefix : bytes) (es : list (bytes * bytes)) : list (bytes * bytes) :=
  match es with
  | [] => []
  | e :: es => if StartsWith e.1 prefix then e :: while_prefix prefix es else []
  end.

Definition kprefix {D} `{KVStore D} (d : D) (prefix : bytes) : option (list (bytes * bytes)) :=
  let? (es, _) := kentries d (Some prefix) in Some (while_prefix prefix es).

(** The iterator that is set to [target] fails on its way. *)
Definition walk_fails {D} `{KVStore D} (d : D) (target : option bytes) : Prop :=
  exists es st, kentries d target = Some (es, st) /\ ok st = false.

(** ** Parts of a list *)

Lemma sublist_map_inv {A B} (f : A -> B) l k : l `sublist_of` map f k -> exists l', l = map f l' /\ l' `sublist_of` k.
Proof.
  intros Hs. remember (map f k) as fk eqn:Hk. revert k Hk. induction Hs as [|x l fk Hs IH|x l fk Hs IH]; intros [|y k] Hk; try done.
  - by exists [].
  - injection Hk as -> ->. destruct (IH k eq_refl) as (l' & -> & Hl). exists (y :: l'). by split; [|constructor].
  - injection Hk as -> ->. destruct (IH k eq_refl) as (l' & -> & Hl). exists l'. by split; [|constructor].
Qed.

Lemma sublist_full {A} (l k : list A) : l `sublist_of` k -> (length k <= length l)%nat -> l = k.
Proof.
  induction 1 as [|x l k Hs IH|x l k Hs IH]; cbn [length]; intros Hl; [done|f_equal; apply IH; lia|].
  apply sublist_length in Hs. lia.
Qed.

(** ** Keys with a prefix are one stretch *)

Lemma compare_app_ge p d : compare (p ++ d) p <> Lt.
Proof. induction p as [|b p IH]; cbn; [by destruct d|]. by rewrite Z.compare_refl. Qed.

Lemma between_prefix p k d : compare k p <> Lt -> compare k (p ++ d) = Lt -> exists d', k = p ++ d'.
Proof.
  revert k. induction p as [|b p IH]; intros [|x k]; cbn; [by exists []|by exists (x :: k)|done|].
  destruct (b2z x ?= b2z b) eqn:Hc; [|done|done]. apply Z.compare_eq, b2z_inj in Hc as ->. intros Hge Hlt.
  destruct (IH k Hge Hlt) as [d' ->]. by exists d'.
Qed.

Abbreviation entry_lt := (fun a b : bytes * bytes => Compare BytewiseComparatorImpl a.1 b.1 = Lt).
Abbreviation starts p := (fun e : bytes * bytes => StartsWith e.1 p = true).

Lemma while_prefix_filter p es : Forall (fun e => compare e.1 p <> Lt) es -> StronglySorted entry_lt es ->
  while_prefix p es = filter (starts p) es.
Proof.
  intros Hge Hs. induction Hs as [|e es Hs IH Hall]; [done|]. apply Forall_cons in Hge as [He Hge]. cbn [while_prefix].
  destruct (StartsWith e.1 p) eqn:Hp; [rewrite filter_cons_True by done; f_equal; by apply IH|].
  rewrite filter_cons_False by (by rewrite Hp). symmetry. apply filter_none. rewrite Forall_forall in Hall |- *.
  intros x Hx (d & Hd)%StartsWith_spec. specialize (Hall x Hx). cbn in Hall. rewrite Hd in Hall.
  apply between_prefix in Hall as Hd'; [|done]. apply StartsWith_spec in Hd'. by rewrite Hp in Hd'.
Qed.

Lemma seek_prefix p es : StronglySorted entry_lt es ->
  while_prefix p (seek_from BytewiseComparatorImpl p es) = filter (starts p) es.
Proof.
  intros Hs. induction Hs as [|e es Hs IH Hall]; [done|]. cbn [seek_from]. case_bool_decide as Hlt.
  - rewrite IH, filter_cons_False; [done|]. intros (d & Hd)%StartsWith_spec. rewrite Hd in Hlt. by apply compare_app_ge in Hlt.
  - apply while_prefix_filter; [|by constructor]. apply Forall_cons. split; [done|]. rewrite Forall_forall in Hall |- *.
    intros x Hx Hxp. apply Hlt, (compare_lt_trans _ x.1); [by apply Hall|done].
Qed.

(** ** A store of the bytewise comparator *)

Section Bytewise.
Context {D : Type} {dom : bytes -> Prop} `{KVStoreOk D BytewiseComparatorImpl dom holds held}.

Lemma sorted_sublist (l k : list (bytes * bytes)) : l `sublist_of` k -> StronglySorted entry_lt k -> StronglySorted entry_lt l.
Proof.
  induction 1 as [|x l k Hs IH|x l k Hs IH]; [done|..]; intros [Hall Hk]%StronglySorted_cons; [|by apply IH].
  constructor; [by apply IH|]. rewrite Forall_forall in Hall |- *. intros y Hy. apply Hall. by eapply sublist_subseteq.
Qed.

Lemma seek_ge p es : StronglySorted entry_lt es -> Forall (fun e => compare e.1 p <> Lt) (seek_from BytewiseComparatorImpl p es).
Proof.
  intros Hs. induction Hs as [|e es Hs IH Hall]; [constructor|]. cbn [seek_from]. case_bool_decide as Hlt; [done|].
  apply Forall_cons. split; [done|]. rewrite Forall_forall in Hall |- *.
  intros x Hx Hxp. apply Hlt, (compare_lt_trans _ x.1); [by apply Hall|done].
Qed.

Lemma filter_sublist (l k : list (bytes * bytes)) p : l `sublist_of` k -> filter (starts p) l `sublist_of` filter (starts p) k.
Proof.
  induction 1 as [|x l k Hs IH|x l k Hs IH]; [constructor|..]; rewrite ?filter_cons; case_decide; try done; by constructor.
Qed.

(** The entries that a prefix scan shows: [all] of those with the prefix, or some when the iterator fails. *)
Lemma kprefix_ok d m p : holds d m -> dom p ->
  exists es all, kprefix d p = Some es /\ StronglySorted entry_lt all /\
    (forall k v, (k, v) ∈ all <-> m !! k = Some v /\ StartsWith k p = true) /\
    es `sublist_of` all /\ (es = all \/ walk_fails d (Some p)).
Proof.
  intros Hh Hp. unfold kprefix. destruct (kentries_ok d m (Some p) Hh) as (all & es & st & [Hall Hs] & He & Hsub & Hok); [by intros t [= <-]|].
  rewrite He. cbn [mbind option_bind rows_from] in *. pose proof (sorted_sublist _ _ (filter_sublist _ _ p Hsub)) as Hss.
  exists (while_prefix p es), (filter (starts p) all). split; [done|].
  assert (StronglySorted entry_lt (filter (starts p) all)) as Hsf.
  { clear - Hs. induction Hs as [|e es Hs IH Hall]; [constructor|]. rewrite filter_cons. case_decide; [|done]. constructor; [done|].
    rewrite Forall_forall in Hall |- *. intros y [_ Hy]%list_elem_of_filter. by apply Hall. }
  split; [done|]. split; [intros k v; rewrite list_elem_of_filter, Hall; cbn; tauto|].
  assert (StronglySorted entry_lt (seek_from BytewiseComparatorImpl p all)) as Hsk.
  { clear - Hs. induction Hs as [|e es Hs IH Hall]; [constructor|]. cbn. case_bool_decide; [done|by constructor]. }
  pose proof (seek_ge p all Hs) as Hge. pose proof (seek_prefix p all Hs) as Hseek.
  rewrite while_prefix_filter in Hseek by done. split.
  - rewrite while_prefix_filter; [|rewrite Forall_forall in Hge |- *; intros x Hx; apply Hge; by eapply sublist_subseteq|by eapply sorted_sublist].
    rewrite <- Hseek. by apply filter_sublist.
  - destruct (ok st) eqn:Hst; [left; rewrite (Hok eq_refl); by apply seek_prefix|right; by exists es, st].
Qed.

Lemma in_order_unique m es es' : in_order_of BytewiseComparatorImpl m es -> in_order_of BytewiseComparatorImpl m es' -> es = es'.
Proof.
  intros [Hin Hs] [Hin' Hs'].
  assert (forall l : list (bytes * bytes), StronglySorted entry_lt l -> NoDup l) as Hnd.
  { intros l Hl. induction Hl as [|a l Hl IH Hall]; [constructor|]. constructor; [|done]. intros Ha. rewrite Forall_forall in Hall.
    specialize (Hall a Ha). cbn in Hall. by rewrite compare_refl in Hall. }
  assert (es ≡ₚ es') as Hp by (apply NoDup_Permutation; [by apply Hnd..|]; intros [k v]; by rewrite Hin, Hin').
  apply (StronglySorted_unique_strong entry_lt); [|done..].
  intros a b _ _ Hab Hba. cbn in Hab, Hba. rewrite compare_opp, Hab in Hba. done.
Qed.
End Bytewise.

(** The walks of a store whose iterators do not fail. *)
Lemma steady_walks {D} {dom : bytes -> Prop} `{KVStoreSteady D BytewiseComparatorImpl dom holds held} d m : holds d m ->
  exists all, in_order_of BytewiseComparatorImpl m all /\
    forall target, (forall t, target = Some t -> dom t) ->
      exists st, kentries d target = Some (rows_from BytewiseComparatorImpl target all, st) /\ ok st = true.
Proof.
  intros Hh. destruct (kentries_ok d m None Hh) as (all & _ & _ & Hall & _); [done|]. exists all. split; [done|].
  intros target Ht. destruct (kentries_ok d m target Hh Ht) as (all' & es & st & Hall' & He & _ & Hok).
  rewrite (in_order_unique m all all' Hall Hall'). exists st. pose proof (kentries_steady d m target es st Hh Ht He) as Hst.
  by rewrite <- (Hok Hst).
Qed.

(** ** A store in memory *)

(** Entries in the order of their keys. *)
Fixpoint place (c : Comparator) (e : bytes * bytes) (es : list (bytes * bytes)) : list (bytes * bytes) :=
  match es with
  | [] => [e]
  | x :: es' => if bool_decide (Compare c x.1 e.1 = Lt) then x :: place c e es' else e :: es
  end.

Definition in_order (c : Comparator) (es : list (bytes * bytes)) : list (bytes * bytes) := foldr (place c) [] es.

Lemma place_elem c e es x : x ∈ place c e es <-> x = e \/ x ∈ es.
Proof.
  induction es as [|y es IH]; cbn; [rewrite list_elem_of_singleton, elem_of_nil; tauto|].
  case_bool_decide; rewrite !elem_of_cons, ?IH, ?elem_of_cons; tauto.
Qed.

Lemma in_order_elem c es x : x ∈ in_order c es <-> x ∈ es.
Proof. induction es as [|y es IH]; [done|]. cbn. by rewrite place_elem, elem_of_cons, IH. Qed.

Lemma place_sorted c dom e es `{ComparatorOk c dom} : dom e.1 -> Forall (fun x => dom x.1 /\ Compare c x.1 e.1 <> Eq) es ->
  StronglySorted (fun a b => Compare c a.1 b.1 = Lt) es -> StronglySorted (fun a b => Compare c a.1 b.1 = Lt) (place c e es).
Proof.
  intros He Hes Hs. induction Hs as [|x es Hs IH Hall]; [by repeat constructor|]. apply Forall_cons in Hes as [[Hx Hne] Hes].
  rewrite Forall_forall in Hes. cbn. case_bool_decide as Hlt.
  - constructor; [apply IH; by apply Forall_forall|]. rewrite Forall_forall in Hall |- *. intros y [->|Hy]%place_elem; [done|by apply Hall].
  - constructor; [by constructor|]. assert (Compare c e.1 x.1 = Lt) as Hex.
    { apply (Compare_gt_lt (dom := dom)); [done|done|]. destruct (Compare c x.1 e.1) eqn:Hc; [done|done|done]. }
    apply Forall_cons. split; [done|]. rewrite Forall_forall in Hall |- *. intros y Hy.
    apply (Compare_lt_trans (dom := dom) _ x.1); [done|done|by apply Hes|done|by apply Hall].
Qed.

(** A map never fails. *)
Definition map_store (c : Comparator) : KVStore kvmap := {|
  kget m k value := Some (match m !! k with Some v => (OK, v, m) | None => (NotFound [] [], value, m) end);
  kwrite m ops := Some (OK, ops_on ops m);
  kentries m target := Some (rows_from c target (in_order c (map_to_list m)), OK)
|}.

Definition map_holds (dom : bytes -> Prop) (d m : kvmap) : Prop := d = m /\ map_Forall (fun k _ => dom k) m.

Lemma ops_on_dom dom ops : forall m, map_Forall (fun k (_ : bytes) => dom k) m -> Forall (fun o => dom (op_key o)) ops ->
  map_Forall (fun k _ => dom k) (ops_on ops m).
Proof.
  induction ops as [|o ops IH]; intros m Hm Ho; [done|]. apply Forall_cons in Ho as [Ho Hos]. apply IH; [|done].
  destruct o as [k v|k]; cbn in *; [by apply map_Forall_insert_2|by apply map_Forall_delete].
Qed.

Lemma map_store_ok c (all dom : bytes -> Prop) `{ComparatorOk c all} : (forall k, dom k -> all k) ->
  (forall a b, dom a -> dom b -> Compare c a b = Eq -> a = b) ->
  KVStoreSteady (H := map_store c) kvmap c dom (map_holds dom) (map_holds dom).
Proof.
  intros Hall Heq. split; [split|]; cbn.
  - done.
  - intros d m k v [-> Hm] Hk. by apply (Hm k v).
  - intros d m k value [-> Hm] Hk. destruct (m !! k); eexists _, _, _; split; [done| |done|]; (split; [done|by right]).
  - intros d m ops [-> Hm] _ Ho. eexists _, _. split; [done|]. left. split; [done|]. split; [done|]. by apply ops_on_dom.
  - intros d m target [-> Hm] _. exists (in_order c (map_to_list m)). eexists _, _. split; [|by split].
    split; [intros k v; by rewrite in_order_elem, elem_of_map_to_list|].
    assert (forall k v, (k, v) ∈ map_to_list m -> dom k) as Hd by (intros k v Hk%elem_of_map_to_list; by apply (Hm k v)).
    pose proof (NoDup_fst_map_to_list m) as Hn. revert Hd Hn. generalize (map_to_list m) as l.
    induction l as [|[k v] l IH]; intros Hd Hn; [constructor|]. rewrite fmap_cons in Hn. apply NoDup_cons in Hn as [Hk Hn].
    cbn. apply (place_sorted c all _ _); [apply Hall, (Hd k v); left| |apply IH; [|done]; intros k' v' Hin; apply (Hd k' v'); by right].
    apply Forall_forall. intros [k' v'] Hin%in_order_elem. cbn. split; [apply Hall, (Hd k' v'); by right|].
    intros Hc%Heq; [|apply (Hd k' v'); by right|apply (Hd k v); left]. subst k'. apply Hk, list_elem_of_fmap. by exists (k, v').
  - by intros d m target es st _ _ [= _ <-].
Qed.
