(* ===== verification/RedisHash.v ===== *)
(** Hashes (redisdb/db/redishash.cc).

    A hash [key] is one entry [key] with the number of fields and the version, and one
    entry per field, whose key holds [key], the version and the field.  An operation is a
    function of the clock [now] and the store; out-parameters are passed in and returned.
    The lock on the key is held throughout, so an operation is one step. *)
From Stdlib Require Import Sorted.
From stdpp Require Import gmap sorting sets.
From S2P Require Import Prelude Coding Status DbFormat WriteBatch Serialize KvStore.
Local Open Scope Z_scope.

Abbreviation FieldValue := (bytes * bytes)%type.
Abbreviation ValueStatus := (bytes * Status)%type.

Section Hash.
Context {D : Type} `{KVStore D} `{DeadMemory} (now : Z).

Abbreviation data_key := BaseDataKey_Encode.

(** [HSet]; the metadata of a new hash is made from a temporary string and read after the
    end of its life. *)
Definition HSet (d : D) (key field value : bytes) (res : Z) : option (Status * Z * D) :=
  let? (s, metavalue, d) := kget d key [] in
  if ok s then
    let? p := ParsedBaseMetaValue_make true metavalue in
    if IsStale now (pb_timestamp p) || (pb_count p =? 0) then
      let? (version, p) := Base_InitialMetaValue now p in
      let? p := Base_SetCount 1 p in
      let? (s, d) := kwrite d [OpPut key (pb_value p); OpPut (data_key key version field) value] in
      Some (s, 1, d)
    else
      let hashdatakey := data_key key (pb_version p) field in
      let? (s, datavalue, d) := kget d hashdatakey [] in
      if ok s then
        if bool_decide (datavalue = value) then Some (OK, 0, d)
        else let? (s, d) := kwrite d [OpPut hashdatakey value] in Some (s, 0, d)
      else if IsNotFound s then
        let? p := Base_ModifyCount 1 p in
        let? (s, d) := kwrite d [OpPut key (pb_value p); OpPut hashdatakey value] in
        Some (s, 1, d)
      else Some (s, res, d)
  else if IsNotFound s then
    let '(version, meta) := Base_UpdateVersion now (BaseMetaValue_make (dead (EncodeFixed32 1))) in
    let? (s, d) := kwrite d [OpPut key (Base_Encode meta); OpPut (data_key key version field) value] in
    Some (s, 1, d)
  else Some (s, res, d).

Definition HGet (d : D) (key field value : bytes) : option (Status * bytes * D) :=
  let? (s, metavalue, d) := kget d key [] in
  if ok s then
    let? p := ParsedBaseMetaValue_make true metavalue in
    if IsStale now (pb_timestamp p) then Some (NotFound (str "Stale") [], value, d)
    else if pb_count p =? 0 then Some (NotFound [] [], value, d)
    else kget d (data_key key (pb_version p) field) value
  else Some (s, value, d).

Definition HExists (d : D) (key field : bytes) : option (Status * D) :=
  let? (s, _, d) := HGet d key field [] in Some (s, d).

(** The last value given for each field, from the last field back. *)
Fixpoint last_fields (seen : list bytes) (rfvs : list FieldValue) : list FieldValue :=
  match rfvs with
  | [] => []
  | fv :: rfvs =>
      if bool_decide (fv.1 ∈ seen) then last_fields seen rfvs
      else fv :: last_fields (fv.1 :: seen) rfvs
  end.

Definition put_fields (key : bytes) (version : Z) (fvs : list FieldValue) : list Op :=
  map (fun fv => OpPut (data_key key version fv.1) fv.2) fvs.

(** The loop of [HMSet] over a live hash: the status of a failed read, or the operations
    and the number of new fields. *)
Fixpoint HMSet_loop (d : D) (key : bytes) (version : Z) (fvs : list FieldValue) (datavalue : bytes)
    (batch : list Op) (count : Z) : option ((Status + list Op * Z) * D) :=
  match fvs with
  | [] => Some (inr (batch, count), d)
  | fv :: fvs =>
      let k := data_key key version fv.1 in
      let? (s, datavalue, d) := kget d k datavalue in
      if ok s then HMSet_loop d key version fvs datavalue (batch ++ [OpPut k fv.2]) count
      else if IsNotFound s then HMSet_loop d key version fvs datavalue (batch ++ [OpPut k fv.2]) (i32 (count + 1))
      else Some (inl s, d)
  end.

(** When the read of the metadata fails the empty batch is written. *)
Definition HMSet (d : D) (key : bytes) (fvs : list FieldValue) : option (Status * D) :=
  let filteredfvs := last_fields [] (rev fvs) in
  let? (s, metavalue, d) := kget d key [] in
  if ok s then
    let? p := ParsedBaseMetaValue_make true metavalue in
    if IsStale now (pb_timestamp p) || (pb_count p =? 0) then
      let? (version, p) := Base_InitialMetaValue now p in
      let? p := Base_SetCount (i32 (len filteredfvs)) p in
      kwrite d (OpPut key (pb_value p) :: put_fields key version filteredfvs)
    else
      let? (r, d) := HMSet_loop d key (pb_version p) filteredfvs [] [] 0 in
      match r with
      | inl s => Some (s, d)
      | inr (batch, count) =>
          let? p := Base_ModifyCount count p in
          kwrite d (batch ++ [OpPut key (pb_value p)])
      end
  else if IsNotFound s then
    let '(version, meta) := Base_UpdateVersion now (BaseMetaValue_make (dead (EncodeFixed32 (u32 (len filteredfvs))))) in
    kwrite d (OpPut key (Base_Encode meta) :: put_fields key version filteredfvs)
  else kwrite d [].

Fixpoint HMGet_loop (d : D) (key : bytes) (version : Z) (fields : list bytes) (value : bytes) (vss : list ValueStatus)
    : option (Status * list ValueStatus * D) :=
  match fields with
  | [] => Some (OK, vss, d)
  | field :: fields =>
      let? (s, value, d) := kget d (data_key key version field) value in
      if ok s then HMGet_loop d key version fields value (vss ++ [(value, OK)])
      else if IsNotFound s then HMGet_loop d key version fields value (vss ++ [([], NotFound [] [])])
      else Some (s, [], d)
  end.

(** [isstable] is set by either reason. *)
Definition HMGet (d : D) (key : bytes) (fields : list bytes) : option (Status * list ValueStatus * D) :=
  let missing := map (fun _ => ([], NotFound [] []) : ValueStatus) fields in
  let? (s, metavalue, d) := kget d key [] in
  if ok s then
    let? p := ParsedBaseMetaValue_make true metavalue in
    if IsStale now (pb_timestamp p) || (pb_count p =? 0) then Some (NotFound (str "Stale") [], missing, d)
    else HMGet_loop d key (pb_version p) fields [] []
  else if IsNotFound s then Some (s, missing, d)
  else Some (s, [], d).

Fixpoint parse_fields (es : list (bytes * bytes)) : option (list FieldValue) :=
  match es with
  | [] => Some []
  | e :: es =>
      let? k := ParsedDataKey_view e.1 in
      let? fvs := parse_fields es in Some ((pd_data k, e.2) :: fvs)
  end.

(** A hash without fields is recognised by its version. *)
Definition HGetall (d : D) (key : bytes) (fvs : list FieldValue) : option (Status * list FieldValue * D) :=
  let? (s, metavalue, d) := kget d key [] in
  if ok s then
    let? p := ParsedBaseMetaValue_make true metavalue in
    if IsStale now (pb_timestamp p) then Some (NotFound (str "Stale") [], fvs, d)
    else if pb_version p =? 0 then Some (NotFound [] [], fvs, d)
    else
      let? es := kprefix d (data_key key (pb_version p) []) in
      let? found := parse_fields es in
      Some (s, fvs ++ found, d)
  else Some (s, fvs, d).

Fixpoint first_fields (seen : list bytes) (fields : list bytes) : list bytes :=
  match fields with
  | [] => []
  | f :: fields =>
      if bool_decide (f ∈ seen) then first_fields seen fields else f :: first_fields (f :: seen) fields
  end.

Fixpoint HDel_loop (d : D) (key : bytes) (version : Z) (fields : list bytes) (datavalue : bytes)
    (batch : list Op) (delcnt : Z) : option ((Status + list Op * Z) * D) :=
  match fields with
  | [] => Some (inr (batch, delcnt), d)
  | field :: fields =>
      let k := data_key key version field in
      let? (s, datavalue, d) := kget d k datavalue in
      if ok s then HDel_loop d key version fields datavalue (batch ++ [OpDelete k]) (i32 (delcnt + 1))
      else if IsNotFound s then HDel_loop d key version fields datavalue batch delcnt
      else Some (inl s, d)
  end.

(** [HDel] takes no lock; here it is one step too. *)
Definition HDel (d : D) (key : bytes) (fields : list bytes) (ret : Z) : option (Status * Z * D) :=
  let filteredfields := first_fields [] fields in
  let? (s, metavalue, d) := kget d key [] in
  if ok s then
    let? p := ParsedBaseMetaValue_make true metavalue in
    if IsStale now (pb_timestamp p) || (pb_count p =? 0) then Some (OK, 0, d)
    else
      let? (r, d) := HDel_loop d key (pb_version p) filteredfields [] [] 0 in
      match r with
      | inl s => Some (s, ret, d)
      | inr (batch, delcnt) =>
          let? p := Base_ModifyCount (i32 (- delcnt)) p in
          let? (s, d) := kwrite d (batch ++ [OpPut key (pb_value p)]) in
          Some (s, delcnt, d)
      end
  else if IsNotFound s then Some (OK, 0, d)
  else Some (s, ret, d).

(** When the hash is missing, or reading it failed, the empty batch is written. *)
Definition Del (d : D) (key : bytes) : option (Status * D) :=
  let? (s, metavalue, d) := kget d key [] in
  if ok s then
    let? p := ParsedBaseMetaValue_make true metavalue in
    if IsStale now (pb_timestamp p) then Some (NotFound (str "Stale") [], d)
    else if pb_count p =? 0 then Some (NotFound [] [], d)
    else
      let? es := kprefix d (data_key key (pb_version p) []) in
      kwrite d (OpDelete key :: map (fun e => OpDelete e.1) es)
  else kwrite d [].
End Hash.

(** ** What the store holds *)

(** A name of a hash that cannot be mistaken for the key of a field: the two kinds of keys
    share one database. *)
Definition plain (k : bytes) : Prop := len k < 2 ^ 31 /\ ParsedDataKey_view k = None.

Lemma plain_short k : plain k -> short_key k.
Proof. intros [Hk _]. unfold short_key. lia. Qed.

Lemma plain_data k k' v f : plain k -> len k' < 2 ^ 31 -> is_i32 v -> k <> BaseDataKey_Encode k' v f.
Proof. intros [_ Hp] Hk Hv ->. by rewrite ParsedDataKey_Encode in Hp. Qed.

(** Fields that fit the key of an entry. *)
Definition field_short (k f : bytes) : Prop := len k + len f + 16 < 2 ^ 32.

Lemma data_short k v f : field_short k f -> short_key (BaseDataKey_Encode k v f).
Proof. unfold field_short, short_key. rewrite length_BaseDataKey. lia. Qed.

(** The hashes, each with its version. *)
Abbreviation hashes := (gmap bytes (Z * gmap bytes bytes)).

Abbreviation key_of := BaseDataKey_Encode.
Abbreviation sizeZ m := (Z.of_nat (size m)).

Record hash_ok (k : bytes) (v : Z) (fs : gmap bytes bytes) : Prop := {
  ho_plain : plain k;
  ho_version : is_i32 v;
  ho_nonzero : v <> 0;
  ho_size : sizeZ fs < 2 ^ 31 - 1;
  ho_fits f x : fs !! f = Some x -> len k + len f + 16 < 2 ^ 32
}.

(** [m] holds exactly [hs]. *)
Record rep (m : kvmap) (hs : hashes) : Prop := {
  rp_ok k v fs : hs !! k = Some (v, fs) -> hash_ok k v fs;
  rp_meta k v fs : hs !! k = Some (v, fs) -> m !! k = Some (base_raw (sizeZ fs) v 0);
  rp_data k v fs f : hs !! k = Some (v, fs) -> m !! key_of k v f = fs !! f;
  rp_only key x : m !! key = Some x ->
    (exists v fs, hs !! key = Some (v, fs)) \/
    (exists k v fs f, hs !! k = Some (v, fs) /\ key = key_of k v f /\ fs !! f = Some x)
}.

Lemma rep_empty : rep ∅ ∅.
Proof. split; intros *; by rewrite lookup_empty. Qed.

Lemma rep_missing m hs k : rep m hs -> plain k -> hs !! k = None -> m !! k = None.
Proof.
  intros Hr Hk Hn. destruct (m !! k) as [x|] eqn:Hm; [|done].
  destruct (rp_only m hs Hr k x Hm) as [(v & fs & Hs)|(k' & v & fs & f & Hs & -> & _)]; [by rewrite Hn in Hs|].
  destruct (rp_ok m hs Hr k' v fs Hs) as [[Hl _] Hv _ _ _]. by apply (plain_data _ k' v f Hk) in Hl.
Qed.

(** The fields of a hash have its version. *)
Lemma rep_field m hs k v f x : rep m hs -> plain k -> is_i32 v -> m !! key_of k v f = Some x ->
  exists fs, hs !! k = Some (v, fs) /\ fs !! f = Some x.
Proof.
  intros Hr Hk Hv Hm. destruct (rp_only m hs Hr _ x Hm) as [(v' & fs & Hs)|(k' & v' & fs & f' & Hs & He & Hf)].
  - destruct (rp_ok m hs Hr _ _ _ Hs) as [Hp _ _ _ _]. exfalso. by apply (plain_data _ k v f Hp); [apply Hk|..].
  - destruct (rp_ok m hs Hr _ _ _ Hs) as [[Hl _] Hv' _ _ _].
    apply BaseDataKey_inj in He as (-> & -> & ->); [|apply Hk|done..]. by exists fs.
Qed.

(** [key] is neither the hash [k] nor a field of it. *)
Definition apart (k key : bytes) : Prop := key <> k /\ forall v f, is_i32 v -> key <> key_of k v f.

Lemma apart_cases k key : plain k -> key = k \/ apart k key \/ exists v f, is_i32 v /\ key = key_of k v f.
Proof.
  intros Hk. destruct (decide (key = k)) as [->|Hne]; [by left|right].
  destruct (ParsedDataKey_view key) as [p|] eqn:Hp.
  - destruct (decide (pd_key p = k /\ is_i32 (pd_version p) /\ key = key_of k (pd_version p) (pd_data p))) as [(_ & Hv & ->)|Hn];
      [right; by eexists _, _|]. left. split; [done|]. intros v f Hv ->. rewrite ParsedDataKey_Encode in Hp by (done || apply Hk).
    injection Hp as <-. by apply Hn.
  - left. split; [done|]. intros v f Hv ->. by rewrite ParsedDataKey_Encode in Hp by (done || apply Hk).
Qed.

Lemma apart_other m hs k k' v fs : rep m hs -> plain k -> k' <> k -> hs !! k' = Some (v, fs) ->
  apart k k' /\ forall f, apart k (key_of k' v f).
Proof.
  intros Hr Hk Hne Hs. destruct (rp_ok m hs Hr _ _ _ Hs) as [Hp Hv _ _ _]. split.
  - split; [done|]. intros v2 f2 Hv2. apply plain_data; [done|apply Hk|done].
  - intros f. split; [intros He; by apply (plain_data k k' v f Hk); [apply Hp|..]|].
    intros v2 f2 Hv2 (-> & _)%BaseDataKey_inj; [done|apply Hp|apply Hk|done|done].
Qed.

(** The keys apart from [k] hold what they held for the other hashes. *)
Lemma apart_only m hs k key x : rep m hs -> plain k -> apart k key -> m !! key = Some x ->
  (key <> k /\ exists v fs, hs !! key = Some (v, fs)) \/
  (exists k' v fs f, k' <> k /\ hs !! k' = Some (v, fs) /\ key = key_of k' v f /\ fs !! f = Some x).
Proof.
  intros Hr Hk [Hne Ha] Hx. destruct (rp_only m hs Hr _ _ Hx) as [(v & fs & Hs)|(k' & v & fs & f & Hs & -> & Hf)].
  - left. split; [done|]. by exists v, fs.
  - right. exists k', v, fs, f. split; [|done]. intros ->. by apply (Ha v f); [apply (rp_ok m hs Hr k v fs Hs)|].
Qed.

Lemma rep_insert m hs m' k v fs : rep m hs -> hash_ok k v fs ->
  m' !! k = Some (base_raw (sizeZ fs) v 0) -> (forall f, m' !! key_of k v f = fs !! f) ->
  (forall v' f, is_i32 v' -> v' <> v -> m' !! key_of k v' f = None) ->
  (forall key, apart k key -> m' !! key = m !! key) -> rep m' (<[k := (v, fs)]> hs).
Proof.
  intros Hr Hok Hmeta Hdata Hother Hapart. pose proof (ho_plain _ _ _ Hok) as Hk. split.
  - intros k' v' fs' [[<- [= <- <-]]|[Hne Hs]]%lookup_insert_Some; [done|by apply (rp_ok m hs Hr)].
  - intros k' v' fs' [[<- [= <- <-]]|[Hne Hs]]%lookup_insert_Some; [done|].
    rewrite Hapart by (by eapply (apart_other m hs)). by apply (rp_meta m hs Hr).
  - intros k' v' fs' f [[<- [= <- <-]]|[Hne Hs]]%lookup_insert_Some; [done|].
    rewrite Hapart by (by eapply (apart_other m hs)). by apply (rp_data m hs Hr).
  - intros key x Hx. destruct (apart_cases k key Hk) as [->|[Ha|(v' & f & Hv' & ->)]].
    + left. exists v, fs. apply lookup_insert_eq.
    + rewrite Hapart in Hx by done.
      destruct (apart_only m hs k key x Hr Hk Ha Hx) as [(Hne & v' & fs' & Hs)|(k' & v' & fs' & f & Hne & Hs & -> & Hf)].
      * left. exists v', fs'. by rewrite lookup_insert_ne.
      * right. exists k', v', fs', f. by rewrite lookup_insert_ne.
    + right. destruct (decide (v' = v)) as [->|Hv]; [|by rewrite Hother in Hx].
      rewrite Hdata in Hx. exists k, v, fs, f. by rewrite lookup_insert_eq.
Qed.

Lemma rep_delete m hs m' k : rep m hs -> plain k -> m' !! k = None ->
  (forall v f, is_i32 v -> m' !! key_of k v f = None) ->
  (forall key, apart k key -> m' !! key = m !! key) -> rep m' (delete k hs).
Proof.
  intros Hr Hk Hmeta Hdata Hapart. split.
  - intros k' v fs [Hne Hs]%lookup_delete_Some. by apply (rp_ok m hs Hr).
  - intros k' v fs [Hne Hs]%lookup_delete_Some. rewrite Hapart by (by eapply (apart_other m hs)). by apply (rp_meta m hs Hr).
  - intros k' v fs f [Hne Hs]%lookup_delete_Some. rewrite Hapart by (by eapply (apart_other m hs)). by apply (rp_data m hs Hr).
  - intros key x Hx. destruct (apart_cases k key Hk) as [->|[Ha|(v' & f & Hv' & ->)]];
      [by rewrite Hmeta in Hx| |by rewrite Hdata in Hx].
    rewrite Hapart in Hx by done.
    destruct (apart_only m hs k key x Hr Hk Ha Hx) as [(Hne & v' & fs' & Hs)|(k' & v' & fs' & f & Hne & Hs & -> & Hf)].
    + left. exists v', fs'. by rewrite lookup_delete_ne.
    + right. exists k', v', fs', f. by rewrite lookup_delete_ne.
Qed.

(** ** Batches on one hash *)

(** The operations of a batch on [k] at version [v]: its metadata or its fields. *)
Definition own_key (k : bytes) (v : Z) (key : bytes) : Prop := key = k \/ exists f, key = key_of k v f.

(** What a batch leaves at the keys of a hash: [fs] at version [v] and nothing else. *)
Record batched (m m' : kvmap) (k : bytes) (v : Z) (fs : gmap bytes bytes) : Prop := {
  bt_data f : m' !! key_of k v f = fs !! f;
  bt_rest key : (forall f, key <> key_of k v f) -> key <> k -> m' !! key = m !! key
}.

Lemma batched_start m k v fs : (forall f, m !! key_of k v f = fs !! f) -> batched m m k v fs.
Proof. by split. Qed.

Lemma batched_put m m' k v fs f x : plain k -> is_i32 v -> batched m m' k v fs ->
  batched m (op_on m' (OpPut (key_of k v f) x)) k v (<[f := x]> fs).
Proof.
  intros Hk Hv [Hd Hrest]. split; cbn.
  - intros f'. destruct (decide (f = f')) as [->|Hne]; [by rewrite !lookup_insert_eq|].
    rewrite !lookup_insert_ne; [done|done|]. by intros (_ & _ & ?)%BaseDataKey_inj; [|apply Hk|apply Hk|done|done].
  - intros key Hkey Hne. rewrite lookup_insert_ne by (intros He; by apply (Hkey f)). by apply Hrest.
Qed.

Lemma batched_delete m m' k v fs f : plain k -> is_i32 v -> batched m m' k v fs ->
  batched m (op_on m' (OpDelete (key_of k v f))) k v (delete f fs).
Proof.
  intros Hk Hv [Hd Hrest]. split; cbn.
  - intros f'. destruct (decide (f = f')) as [->|Hne]; [by rewrite !lookup_delete_eq|].
    rewrite !lookup_delete_ne; [done|done|]. by intros (_ & _ & ?)%BaseDataKey_inj; [|apply Hk|apply Hk|done|done].
  - intros key Hkey Hne. rewrite lookup_delete_ne by (intros He; by apply (Hkey f)). by apply Hrest.
Qed.

Lemma batched_meta m m' k v fs x : plain k -> is_i32 v -> batched m m' k v fs ->
  batched m (op_on m' (OpPut k x)) k v fs.
Proof.
  intros Hk Hv [Hd Hrest]. split; cbn.
  - intros f'. rewrite lookup_insert_ne; [done|]. apply plain_data; [done|apply Hk|done].
  - intros key Hkey Hne. rewrite lookup_insert_ne by done. by apply Hrest.
Qed.

Definition fields_on (fvs : list FieldValue) (fs : gmap bytes bytes) : gmap bytes bytes :=
  fold_left (fun fs fv => <[fv.1 := fv.2]> fs) fvs fs.

Lemma batched_puts m k v fvs : plain k -> is_i32 v -> forall m' fs, batched m m' k v fs ->
  batched m (ops_on (put_fields k v fvs) m') k v (fields_on fvs fs).
Proof.
  intros Hk Hv. induction fvs as [|fv fvs IH]; intros m' fs Hb; [done|]. apply IH. by apply batched_put.
Qed.

(** The old version of the hash is this one, or it has no fields. *)
Definition replaceable (hs : hashes) (k : bytes) (v : Z) : Prop :=
  forall v' fs, hs !! k = Some (v', fs) -> v' = v \/ fs = ∅.

Lemma rep_commit m hs m' k v fs : rep m hs -> hash_ok k v fs -> replaceable hs k v ->
  batched m m' k v fs -> m' !! k = Some (base_raw (sizeZ fs) v 0) -> rep m' (<[k := (v, fs)]> hs).
Proof.
  intros Hr Hok Hv [Hd Hrest] Hmeta. apply (rep_insert m hs m'); [done|done|done|done| |].
  - intros v' f Hv' Hne. rewrite Hrest.
    + destruct (m !! key_of k v' f) as [x|] eqn:Hx; [exfalso|done].
      destruct (rep_field m hs k v' f x Hr (ho_plain _ _ _ Hok) Hv' Hx) as (fs' & Hs & Hf).
      destruct (Hv _ _ Hs) as [->| ->]; [done|by rewrite lookup_empty in Hf].
    + intros f'. intros (_ & -> & _)%BaseDataKey_inj; [done|apply (ho_plain _ _ _ Hok)..|done|apply (ho_version _ _ _ Hok)].
    + intros He. by apply (plain_data k k v' f (ho_plain _ _ _ Hok)); [apply (ho_plain _ _ _ Hok)|..].
  - intros key [Hne Ha]. apply Hrest; [|done]. intros f. apply Ha, (ho_version _ _ _ Hok).
Qed.

Lemma start_live m hs k v fs : rep m hs -> hs !! k = Some (v, fs) -> batched m m k v fs.
Proof. intros Hr Hs. apply batched_start. intros f. by apply (rp_data m hs Hr). Qed.

Lemma start_fresh m hs k v : rep m hs -> plain k -> is_i32 v -> (forall v' fs, hs !! k = Some (v', fs) -> fs = ∅) ->
  batched m m k v ∅.
Proof.
  intros Hr Hk Hv He. apply batched_start. intros f. rewrite lookup_empty. destruct (m !! key_of k v f) as [x|] eqn:Hx; [exfalso|done].
  destruct (rep_field m hs k v f x Hr Hk Hv Hx) as (fs & Hs & Hf). by rewrite (He _ _ Hs), lookup_empty in Hf.
Qed.

Lemma next_version_ok now v : 0 < now < 2 ^ 31 -> is_i32 v -> is_i32 (next_version now v) /\ next_version now v <> 0.
Proof.
  intros Hn Hv. split; [unfold next_version; destruct (now <=? v); apply i32_range|].
  unfold next_version, is_i32 in *. destruct (Z.leb_spec now v); [|rewrite i32_small by lia; lia].
  destruct (decide (v = 2 ^ 31 - 1)) as [->|Hne]; [by vm_compute|rewrite i32_small by lia; lia].
Qed.

Section Steps.
Context {D : Type} `{KVStoreOk D BytewiseComparatorImpl short_key holds held} {M : DeadMemory} {Hkept : DeadMemoryKept M}.
#[local] Hint Extern 0 (held _ _) => (eapply kholds_held; eassumption) : core.
Context (now : Z) (Hnow : 0 < now < 2 ^ 31).

Lemma failed_ok s : failed s -> ok s = false.
Proof. by intros [? _]. Qed.
Lemma failed_found s : failed s -> IsNotFound s = false.
Proof. by intros [_ ?]. Qed.

(** Decides the branches on the status of a read that succeeded or found nothing. *)
Ltac status :=
  change (ok OK) with true; change (ok (NotFound [] [])) with false; change (IsNotFound (NotFound [] [])) with true;
  cbv beta iota.

(** Reading the metadata. *)
Lemma read_meta d m hs k : holds d m -> rep m hs -> plain k ->
  exists st raw d', kget d k [] = Some (st, raw, d') /\ holds d' m /\
    (failed st \/
     match hs !! k with
     | Some (v, fs) => st = OK /\ raw = base_raw (sizeZ fs) v 0
     | None => st = NotFound [] []
     end).
Proof.
  intros Hh Hr Hk. destruct (kget_ok d m k [] Hh (plain_short k Hk)) as (st & raw & d' & -> & Hh' & [Hf|Hm]).
  - exists st, raw, d'. by repeat split; auto; left.
  - exists st, raw, d'. split; [done|]. split; [done|]. right. destruct (hs !! k) as [[v fs]|] eqn:Hs.
    + by rewrite (rp_meta m hs Hr k v fs Hs) in Hm.
    + rewrite (rep_missing m hs k Hr Hk Hs) in Hm. apply Hm.
Qed.

Lemma read_field d m hs k v fs f value : holds d m -> rep m hs -> hs !! k = Some (v, fs) -> field_short k f ->
  exists st x d', kget d (key_of k v f) value = Some (st, x, d') /\ holds d' m /\
    (failed st \/ match fs !! f with Some y => st = OK /\ x = y | None => st = NotFound [] [] /\ x = value end).
Proof.
  intros Hh Hr Hs Hf. destruct (kget_ok d m (key_of k v f) value Hh (data_short k v f Hf)) as (st & x & d' & -> & Hh' & Hm).
  exists st, x, d'. split; [done|]. split; [done|]. by rewrite (rp_data m hs Hr k v fs f Hs) in Hm.
Qed.

Lemma parse_meta hs m k v fs : rep m hs -> hs !! k = Some (v, fs) ->
  ParsedBaseMetaValue_make true (base_raw (sizeZ fs) v 0) = Some (base_parsed true (sizeZ fs) v 0).
Proof.
  intros Hr Hs. destruct (rp_ok m hs Hr k v fs Hs) as [_ Hv _ Hz _]. apply Base_parse; [unfold is_i32; lia|done|done].
Qed.

(** The hash has no fields when its count says so. *)
Lemma count_zero (fs : gmap bytes bytes) : (sizeZ fs =? 0) = bool_decide (fs = ∅).
Proof.
  case_bool_decide as He; [by rewrite He|]. apply Z.eqb_neq. intros Hz. apply He, map_size_empty_iff. lia.
Qed.

(** A write ends an operation: it is done, or nothing changes. *)
Lemma write_ok d m ops : holds d m -> batch_fits ops ->
  exists st d', kwrite d ops = Some (st, d') /\ ((st = OK /\ held d' (ops_on ops m)) \/ (failed st /\ held d' m)).
Proof. intros Hh Hf. apply kwrite_ok; [done|done|]. eapply Forall_impl; [apply Hf|]. intros o [Ho _]. exact Ho. Qed.

Lemma meta_fits k c v t : plain k -> op_fits (OpPut k (base_raw c v t)).
Proof. intros [Hk _]. split; [cbn; lia|]. rewrite length_base_raw. lia. Qed.

Lemma field_fits k v f x : len k + len f + 16 < 2 ^ 32 -> len x < 2 ^ 32 -> op_fits (OpPut (key_of k v f) x).
Proof. intros Hk Hx. split; [|done]. cbn [op_key]. rewrite length_BaseDataKey. lia. Qed.

Definition fields (hs : hashes) (k : bytes) : gmap bytes bytes := match hs !! k with Some (_, fs) => fs | None => ∅ end.

(** What is known after an operation: it is done and the hashes are [hs'], or it failed and
    nothing changed. *)
Definition outcome (st : Status) (d' : D) (m : kvmap) (hs' : hashes) : Prop :=
  (st = OK /\ exists m', held d' m' /\ rep m' hs') \/ (failed st /\ held d' m).

Lemma commit_write d m hs k v fs ops : holds d m -> rep m hs -> hash_ok k v fs -> replaceable hs k v ->
  batch_fits ops -> batched m (ops_on ops m) k v fs -> ops_on ops m !! k = Some (base_raw (sizeZ fs) v 0) ->
  exists st d', kwrite d ops = Some (st, d') /\ outcome st d' m (<[k := (v, fs)]> hs).
Proof.
  intros Hh Hr Hok Hv Hf Hb Hm. destruct (write_ok d m ops Hh Hf) as (st & d' & -> & [[-> Hh']|[Hfl Hh']]).
  - exists OK, d'. split; [done|]. left. split; [done|]. eexists. split; [done|]. by apply (rep_commit m hs).
  - exists st, d'. split; [done|]. by right.
Qed.

Lemma fields_on_elem fvs : forall fs f x, fields_on fvs fs !! f = Some x -> fs !! f = Some x \/ (f, x) ∈ fvs.
Proof.
  induction fvs as [|[f' x'] fvs IH]; intros fs f x Hf; [by left|]. apply IH in Hf as [Hf|Hf]; [|right; by right].
  cbn in Hf. apply lookup_insert_Some in Hf as [[<- <-]|[_ Hf]]; [right; left|by left].
Qed.

(** Sizes of the fields that are set. *)
Definition fv_fits (k : bytes) (fv : FieldValue) : Prop := len k + len fv.1 + 16 < 2 ^ 32 /\ len fv.2 < 2 ^ 32.

Lemma hash_ok_sets k v fs fvs : plain k -> is_i32 v -> v <> 0 -> Forall (fv_fits k) fvs ->
  (forall f x, fs !! f = Some x -> len k + len f + 16 < 2 ^ 32) ->
  sizeZ (fields_on fvs fs) < 2 ^ 31 - 1 -> hash_ok k v (fields_on fvs fs).
Proof.
  intros Hk Hv Hne Hfv Hfs Hz. split; try done. intros f x [Hf|Hf]%fields_on_elem; [by apply (Hfs f x)|].
  rewrite Forall_forall in Hfv. apply (Hfv _ Hf).
Qed.

Lemma put_fields_fit k v fvs : Forall (fv_fits k) fvs -> Forall op_fits (put_fields k v fvs).
Proof. intros Hf. apply Forall_map. eapply Forall_impl; [exact Hf|]. intros fv [H1 H2]. by apply field_fits. Qed.

Lemma length_put_fields k v fvs : length (put_fields k v fvs) = length fvs.
Proof. apply length_map. Qed.

(** The last key written wins, and the metadata is not the key of a field. *)
Lemma put_fields_meta k v fvs : plain k -> is_i32 v -> forall m, ops_on (put_fields k v fvs) m !! k = m !! k.
Proof.
  intros Hk Hv. induction fvs as [|fv fvs IH]; intros m; [done|]. cbn. rewrite IH. apply lookup_insert_ne.
  intros He. by apply (plain_data k k v fv.1 Hk); [apply Hk|..].
Qed.

(** A hash that is created, or was empty. *)
Lemma fresh_write d m hs k v fvs : holds d m -> rep m hs -> plain k -> is_i32 v -> v <> 0 ->
  (forall v' fs, hs !! k = Some (v', fs) -> fs = ∅) -> Forall (fv_fits k) fvs -> len fvs + 1 < 2 ^ 31 ->
  sizeZ (fields_on fvs ∅) < 2 ^ 31 - 1 ->
  exists st d', kwrite d (OpPut k (base_raw (sizeZ (fields_on fvs ∅)) v 0) :: put_fields k v fvs) = Some (st, d') /\
    outcome st d' m (<[k := (v, fields_on fvs ∅)]> hs).
Proof.
  intros Hh Hr Hk Hv Hne He Hf Hl Hz. apply commit_write; [done|done| | | | |].
  - by apply hash_ok_sets.
  - intros v' fs Hs. right. by apply (He v').
  - split; [|cbn; rewrite length_put_fields; lia]. apply Forall_cons. split; [by apply meta_fits|by apply put_fields_fit].
  - apply (batched_puts m k v fvs Hk Hv). apply batched_meta; [done|done|by apply (start_fresh m hs)].
  - change (ops_on (put_fields k v fvs) (<[k := base_raw (sizeZ (fields_on fvs ∅)) v 0]> m) !! k = Some (base_raw (sizeZ (fields_on fvs ∅)) v 0)).
    rewrite put_fields_meta by done. apply lookup_insert_eq.
Qed.

Lemma fields_live (hs : hashes) k v fs : hs !! k = Some (v, fs) -> fields hs k = fs.
Proof. unfold fields. by intros ->. Qed.

Lemma fresh_one d m hs k v f x : holds d m -> rep m hs -> plain k -> is_i32 v -> v <> 0 ->
  (forall v' fs, hs !! k = Some (v', fs) -> fs = ∅) -> fv_fits k (f, x) ->
  exists st d', kwrite d [OpPut k (base_raw 1 v 0); OpPut (key_of k v f) x] = Some (st, d') /\
    outcome st d' m (<[k := (v, <[f := x]> ∅)]> hs).
Proof.
  intros Hh Hr Hk Hv Hne He Hf. destruct (fresh_write d m hs k v [(f, x)] Hh Hr Hk Hv Hne He) as (st & d' & Hw & Ho).
  - by apply Forall_singleton.
  - cbn; lia.
  - cbn. rewrite insert_empty, map_size_singleton. lia.
  - exists st, d'. split; [|done]. rewrite <- Hw. cbn. by rewrite insert_empty, map_size_singleton.
Qed.

(** A write to a hash that has fields. *)
Lemma live_write d m hs k v fs fvs ops : holds d m -> rep m hs -> hs !! k = Some (v, fs) -> Forall (fv_fits k) fvs ->
  sizeZ (fields_on fvs fs) < 2 ^ 31 - 1 -> batch_fits ops -> batched m (ops_on ops m) k v (fields_on fvs fs) ->
  ops_on ops m !! k = Some (base_raw (sizeZ (fields_on fvs fs)) v 0) ->
  exists st d', kwrite d ops = Some (st, d') /\ outcome st d' m (<[k := (v, fields_on fvs fs)]> hs).
Proof.
  intros Hh Hr Hs Hf Hz Hfit Hb Hm. destruct (rp_ok m hs Hr k v fs Hs) as [Hk Hv Hne _ Hfits].
  apply commit_write; [done|done|by apply hash_ok_sets| |done..]. intros v' fs' Hs'. rewrite Hs in Hs'. injection Hs' as <- _. by left.
Qed.

Lemma not_meta k v f : plain k -> is_i32 v -> key_of k v f <> k.
Proof. intros Hk Hv He. by apply (plain_data k k v f Hk); [apply Hk|..]. Qed.

(** ** [HSet] *)

Definition HSet_done (st : Status) (n : Z) (d' : D) (m : kvmap) (hs : hashes) (k f x : bytes) : Prop :=
  exists v, outcome st d' m (<[k := (v, <[f := x]> (fields hs k))]> hs) /\
    (st = OK -> n = if decide (is_Some (fields hs k !! f)) then 0 else 1).

Lemma HSet_failed st n d' m hs k f x : failed st -> held d' m -> HSet_done st n d' m hs k f x.
Proof. intros Hf Hh. exists 0. split; [by right|]. intros ->. by destruct Hf. Qed.

(** The part of [HSet] on a hash with fields. *)
Lemma HSet_live d m hs k v fs f x res : holds d m -> rep m hs -> hs !! k = Some (v, fs) -> fv_fits k (f, x) ->
  sizeZ fs + 1 < 2 ^ 31 - 1 ->
  exists st n d', (let hashdatakey := key_of k v f in
      let? (s, datavalue, d) := kget d hashdatakey [] in
      if ok s then
        if bool_decide (datavalue = x) then Some (OK, 0, d)
        else let? (s, d) := kwrite d [OpPut hashdatakey x] in Some (s, 0, d)
      else if IsNotFound s then
        let? p := Base_ModifyCount 1 (base_parsed true (sizeZ fs) v 0) in
        let? (s, d) := kwrite d [OpPut k (pb_value p); OpPut hashdatakey x] in
        Some (s, 1, d)
      else Some (s, res, d)) = Some (st, n, d') /\ HSet_done st n d' m hs k f x.
Proof.
  intros Hh Hr Hs Hfit Hz. cbv zeta. destruct (rp_ok m hs Hr k v fs Hs) as [Hk Hv Hne _ _].
  destruct (read_field d m hs k v fs f [] Hh Hr Hs (proj1 Hfit)) as (st & y & d2 & -> & Hh2 & [Hf|Hy]).
  { rewrite failed_ok, failed_found by done. exists st, res, d2. split; [done|]. by apply HSet_failed. }
  unfold HSet_done. rewrite (fields_live hs k v fs) by done.
  pose proof (live_write d2 m hs k v fs [(f, x)]) as Hlive. cbn [fields_on fold_left fst snd] in Hlive.
  destruct (fs !! f) as [z|] eqn:Hf; destruct Hy as [-> ->]; status.
  - case_bool_decide as Heq.
    { subst z. exists OK, 0, d2. split; [done|]. exists v. rewrite (insert_id fs) by done. rewrite insert_id by done.
      split; [left; split; [done|]; by exists m|]. intros _. by rewrite decide_True by (by exists x). }
    rewrite map_size_insert_Some in Hlive by done.
    destruct (Hlive [OpPut (key_of k v f) x]) as (st & d' & -> & Ho); [done..|by apply Forall_singleton|lia| | | |].
    + split; [|cbn; lia]. apply Forall_singleton, field_fits; apply Hfit.
    + apply batched_put; [done|done|]. by apply (start_live m hs).
    + cbn. rewrite lookup_insert_ne; [by apply (rp_meta m hs Hr)|by apply not_meta].
    + exists st, 0, d'. split; [done|]. exists v. split; [done|]. intros _. by rewrite decide_True by (by exists z).
  - rewrite Base_modify_count by (unfold is_i32; lia). rewrite map_size_insert_None in Hlive by done.
    replace (sizeZ fs + 1) with (Z.of_nat (S (size fs))) in * by lia.
    destruct (Hlive [OpPut k (base_raw (Z.of_nat (S (size fs))) v 0); OpPut (key_of k v f) x]) as (st & d' & Hw & Ho);
      [done..|by apply Forall_singleton|lia| | | |].
    + split; [|cbn; lia]. apply Forall_cons. split; [by apply meta_fits|]. apply Forall_singleton, field_fits; apply Hfit.
    + apply (batched_put m); [done|done|]. apply batched_meta; [done|done|]. by apply (start_live m hs).
    + cbn. rewrite lookup_insert_ne; [apply lookup_insert_eq|by apply not_meta].
    + cbn [pb_value base_parsed]. rewrite Hw. exists st, 1, d'. split; [done|]. exists v. split; [done|].
      intros _. by rewrite decide_False by (by intros [? ?]).
Qed.

Lemma HSet_ok d m hs k f x res : holds d m -> rep m hs -> plain k -> fv_fits k (f, x) ->
  sizeZ (fields hs k) + 1 < 2 ^ 31 - 1 ->
  exists st n d', HSet now d k f x res = Some (st, n, d') /\ HSet_done st n d' m hs k f x.
Proof.
  intros Hh Hr Hk Hfit Hz. unfold HSet. destruct (read_meta d m hs k Hh Hr Hk) as (st & raw & d1 & -> & Hh1 & [Hf|Hm]).
  { rewrite failed_ok, failed_found by done. exists st, res, d1. split; [done|]. by apply HSet_failed. }
  assert (forall v, (forall v' fs, hs !! k = Some (v', fs) -> fs = ∅) -> is_i32 v -> v <> 0 ->
    exists st n d', (let? (s, d) := kwrite d1 [OpPut k (base_raw 1 v 0); OpPut (key_of k v f) x] in Some (s, 1, d)) = Some (st, n, d') /\
      HSet_done st n d' m hs k f x) as Hnew.
  { intros v He Hv Hne. destruct (fresh_one d1 m hs k v f x Hh1 Hr Hk Hv Hne He Hfit) as (st' & d' & -> & Ho).
    exists st', 1, d'. split; [done|]. exists v. assert (fields hs k = ∅) as ->
      by (unfold fields; destruct (hs !! k) as [[v' fs]|]; [by apply (He v')|done]).
    split; [done|]. intros _. by rewrite lookup_empty, decide_False by (by intros [? ?]). }
  destruct (hs !! k) as [[v fs]|] eqn:Hs.
  - destruct Hm as [-> ->]. status. rewrite (parse_meta hs m k v fs) by done. rewrite (fields_live hs k v fs) in Hz by done.
    cbn [pb_timestamp pb_count base_parsed IsStale Z.eqb orb]. rewrite count_zero. case_bool_decide as He.
    + subst fs. change (sizeZ (∅ : gmap bytes bytes)) with 0. rewrite Base_initial. unfold base_parsed. rewrite Base_set_count.
      destruct (next_version_ok now v Hnow) as [Hnv Hnz]; [by apply (rp_ok m hs Hr k v ∅)|].
      apply Hnew; [|done|done]. by intros v' fs' [= _ <-].
    + by apply HSet_live.
  - rewrite Hm. status. rewrite dead_kept. destruct (next_version_ok now 0 Hnow) as [Hnv Hnz]; [done|]. by apply Hnew.
Qed.

(** ** Reading *)

(** The status of a key or field that is not there. *)
Definition missing (s : Status) : Prop := ok s = false /\ IsNotFound s = true.

Lemma missing_stale : missing (NotFound (str "Stale") []).
Proof. done. Qed.
Lemma missing_found : missing (NotFound [] []).
Proof. done. Qed.

Lemma HGet_ok d m hs k f value : holds d m -> rep m hs -> plain k -> field_short k f ->
  exists st y d', HGet now d k f value = Some (st, y, d') /\ holds d' m /\
    (failed st \/ match fields hs k !! f with Some x => st = OK /\ y = x | None => missing st /\ y = value end).
Proof.
  intros Hh Hr Hk Hshort. unfold HGet. destruct (read_meta d m hs k Hh Hr Hk) as (st & raw & d1 & -> & Hh1 & [Hf|Hm]).
  { rewrite failed_ok by done. exists st, value, d1. split; [done|]. split; [done|by left]. }
  unfold fields. destruct (hs !! k) as [[v fs]|] eqn:Hs.
  - destruct Hm as [-> ->]. status. rewrite (parse_meta hs m k v fs) by done.
    cbn [pb_timestamp pb_count pb_version base_parsed IsStale Z.eqb]. rewrite count_zero. case_bool_decide as He.
    + subst fs. eexists _, _, d1. split; [done|]. split; [done|]. right. rewrite lookup_empty. by split.
    + destruct (read_field d1 m hs k v fs f value Hh1 Hr Hs Hshort) as (st & y & d2 & -> & Hh2 & [Hf|Hy]).
      { exists st, y, d2. split; [done|]. split; [done|by left]. }
      exists st, y, d2. split; [done|]. split; [done|]. right. destruct (fs !! f); [done|]. by destruct Hy as [-> ->].
  - rewrite Hm. status. eexists _, _, d1. split; [done|]. split; [done|]. right. rewrite lookup_empty. by split.
Qed.

(** What [HMGet] reports of a field. *)
Definition field_status (fs : gmap bytes bytes) (f : bytes) : ValueStatus :=
  match fs !! f with Some x => (x, OK) | None => ([], NotFound [] []) end.

Lemma HMGet_loop_ok m hs k v fs fields : rep m hs -> hs !! k = Some (v, fs) -> Forall (field_short k) fields -> forall d value vss, holds d m ->
  exists st l d', HMGet_loop d k v fields value vss = Some (st, l, d') /\ holds d' m /\
    (failed st \/ (st = OK /\ l = vss ++ map (field_status fs) fields)).
Proof.
  intros Hr Hs Hfields. induction Hfields as [|f fields Hshort _ IH]; intros d value vss Hh; cbn [HMGet_loop].
  { eexists _, _, d. split; [done|]. split; [done|]. right. by rewrite app_nil_r. }
  destruct (read_field d m hs k v fs f value Hh Hr Hs Hshort) as (st & y & d2 & -> & Hh2 & [Hf|Hy]).
  { rewrite failed_ok, failed_found by done. eexists _, _, d2. split; [done|]. split; [done|by left]. }
  assert (exists st' l d', HMGet_loop d2 k v fields y (vss ++ [field_status fs f]) = Some (st', l, d') /\ holds d' m /\
    (failed st' \/ (st' = OK /\ l = vss ++ map (field_status fs) (f :: fields)))) as Hgo.
  { destruct (IH d2 y (vss ++ [field_status fs f]) Hh2) as (st' & l & d' & -> & Hh' & Hl). eexists _, _, d'. split; [done|].
    split; [done|]. destruct Hl as [?|[-> ->]]; [by left|right]. by rewrite <- app_assoc. }
  unfold field_status in Hgo at 1. destruct (fs !! f) as [x|]; destruct Hy as [-> ->]; status; exact Hgo.
Qed.

Lemma HMGet_ok d m hs k fs : holds d m -> rep m hs -> plain k -> Forall (field_short k) fs ->
  exists st l d', HMGet now d k fs = Some (st, l, d') /\ holds d' m /\
    (failed st \/ (l = map (field_status (fields hs k)) fs /\ (st = OK \/ (missing st /\ fields hs k = ∅)))).
Proof.
  intros Hh Hr Hk Hshort. unfold HMGet. destruct (read_meta d m hs k Hh Hr Hk) as (st & raw & d1 & -> & Hh1 & [Hf|Hm]).
  { rewrite failed_ok, failed_found by done. eexists st, _, d1. split; [done|]. split; [done|by left]. }
  assert (forall fs', fs' = ∅ -> map (fun _ => ([], NotFound [] []) : ValueStatus) fs = map (field_status fs') fs) as Hnone.
  { intros fs' ->. apply map_ext. intros f. unfold field_status. by rewrite lookup_empty. }
  unfold fields. destruct (hs !! k) as [[v fs']|] eqn:Hs.
  - destruct Hm as [-> ->]. status. rewrite (parse_meta hs m k v fs') by done.
    cbn [pb_timestamp pb_count pb_version base_parsed IsStale Z.eqb orb]. rewrite count_zero. case_bool_decide as He.
    + eexists _, _, d1. split; [done|]. split; [done|]. right. split; [by apply Hnone|right; by split].
    + destruct (HMGet_loop_ok m hs k v fs' fs Hr Hs Hshort d1 [] [] Hh1) as (st & l & d' & -> & Hh' & Hl).
      exists st, l, d'. split; [done|]. split; [done|]. destruct Hl as [?|[-> ->]]; [by left|right]. split; [done|by left].
  - rewrite Hm. status. eexists _, _, d1. split; [done|]. split; [done|]. right. split; [by apply Hnone|right; by split].
Qed.

(** The fields of a hash in order, with their values. *)
Definition lists_fields (l : list FieldValue) (fs : gmap bytes bytes) : Prop :=
  (forall f x, (f, x) ∈ l <-> fs !! f = Some x) /\ StronglySorted (fun a b => compare a.1 b.1 = Lt) l.

Lemma data_key_compare k v a b : compare (key_of k v a) (key_of k v b) = compare a b.
Proof. rewrite (BaseDataKey_prefix k v a), (BaseDataKey_prefix k v b). apply compare_prefix. Qed.

(** Some of the fields of a hash, in order. *)
Definition some_fields (l : list FieldValue) (fs : gmap bytes bytes) : Prop := exists all, lists_fields all fs /\ l `sublist_of` all.

(** The entries with the prefix of a version of a hash are its fields; a failing iterator leaves some out. *)
Lemma scan_at d m k v fs : holds d m -> len k < 2 ^ 31 -> is_i32 v -> (forall f, m !! key_of k v f = fs !! f) ->
  exists l, kprefix d (key_of k v []) = Some (map (fun fv => (key_of k v fv.1, fv.2)) l) /\
    parse_fields (map (fun fv => (key_of k v fv.1, fv.2)) l) = Some l /\
    (lists_fields l fs \/ (walk_fails d (Some (key_of k v [])) /\ some_fields l fs)).
Proof.
  intros Hh Hl Hv Hdata.
  destruct (kprefix_ok d m (key_of k v []) Hh) as (shown & es & -> & Hsort & Hes & Hsub & Hall).
  { apply data_short. unfold field_short. cbn. lia. }
  assert (Forall (fun e => exists f, e.1 = key_of k v f) es) as Hkeys.
  { apply Forall_forall. intros [key x] [_ Hp]%Hes. apply StartsWith_spec in Hp as [f Hf]. exists f. cbn. by rewrite BaseDataKey_prefix. }
  assert (exists l, es = map (fun fv => (key_of k v fv.1, fv.2)) l) as [l ->].
  { clear Hsort Hes Hsub Hall. induction Hkeys as [|[key x] es [f Hf] _ [l ->]]; [by exists []|]. exists ((f, x) :: l). cbn in *. by rewrite Hf. }
  assert (lists_fields l fs) as Hlist.
  { split.
    - intros f x. rewrite <- Hdata. pose proof (Hes (key_of k v f) x) as Hk.
      rewrite list_elem_of_fmap in Hk. split.
      + intros Hin. apply Hk. by exists (f, x).
      + intros Hx. destruct (proj2 Hk) as ([f' x'] & He & Hin).
        { split; [done|]. apply StartsWith_spec. exists f. by rewrite BaseDataKey_prefix. }
        pose proof (f_equal fst He) as He1. pose proof (f_equal snd He) as He2. cbn [fst snd] in He1, He2. subst x'.
        by apply BaseDataKey_inj in He1 as (_ & _ & ->).
    - clear - Hsort. remember (map _ l) as es eqn:He. revert l He. induction Hsort as [|e es Hs IH Hall]; intros [|[f x] l] He; try done;
        [constructor|]. cbn in He. injection He as -> ->. constructor; [by apply IH|]. rewrite Forall_map in Hall.
      eapply Forall_impl; [exact Hall|]. intros [f' x'] Hlt. cbn in *. by rewrite data_key_compare in Hlt. }
  apply sublist_map_inv in Hsub as (l0 & -> & Hsub). exists l0. split; [done|]. split.
  - clear - Hl Hv. induction l0 as [|[f x] l0 IH]; [done|]. cbn [map parse_fields fst snd]. rewrite ParsedDataKey_Encode by done.
    by rewrite IH.
  - destruct Hall as [Heq|Hw]; [left|right; split; [done|by exists l]].
    assert (l0 = l) as ->; [|done]. clear - Hsub Heq. apply (f_equal length) in Heq. rewrite !length_map in Heq.
    apply sublist_full; [done|by rewrite Heq].
Qed.

Lemma scan_fields d m hs k v fs : holds d m -> rep m hs -> hs !! k = Some (v, fs) ->
  exists l, kprefix d (key_of k v []) = Some (map (fun fv => (key_of k v fv.1, fv.2)) l) /\
    parse_fields (map (fun fv => (key_of k v fv.1, fv.2)) l) = Some l /\
    (lists_fields l fs \/ (walk_fails d (Some (key_of k v [])) /\ some_fields l fs)).
Proof.
  intros Hh Hr Hs. destruct (rp_ok m hs Hr k v fs Hs) as [[Hl _] Hv _ _ _].
  apply (scan_at d m); [done|done|done|]. intros f. by apply (rp_data m hs Hr).
Qed.

(** The iterator over the fields of [k] fails. *)
Definition scan_failed (d : D) (k : bytes) : Prop :=
  exists s raw d' v, kget d k [] = Some (s, raw, d') /\ walk_fails d' (Some (key_of k v [])).

Lemma HGetall_ok d m hs k fvs : holds d m -> rep m hs -> plain k ->
  exists st l d', HGetall now d k fvs = Some (st, fvs ++ l, d') /\ holds d' m /\
    (failed st \/ (lists_fields l (fields hs k) /\ (st = OK \/ (missing st /\ fields hs k = ∅))) \/
     (st = OK /\ scan_failed d k /\ some_fields l (fields hs k))).
Proof.
  intros Hh Hr Hk. unfold HGetall. assert (lists_fields [] ∅) as Hnone.
  { split; [intros f x; rewrite lookup_empty; by split; [intros ?%not_elem_of_nil|]|constructor]. }
  destruct (read_meta d m hs k Hh Hr Hk) as (st & raw & d1 & Hget & Hh1 & [Hf|Hm]); rewrite Hget.
  { rewrite failed_ok by done. exists st, [], d1. rewrite app_nil_r. split; [done|]. split; [done|by left]. }
  unfold fields. destruct (hs !! k) as [[v fs]|] eqn:Hs.
  - destruct Hm as [-> ->]. status. rewrite (parse_meta hs m k v fs) by done.
    cbn [pb_timestamp pb_count pb_version base_parsed IsStale Z.eqb].
    rewrite (proj2 (Z.eqb_neq _ _)) by apply (rp_ok m hs Hr k v fs Hs).
    destruct (scan_fields d1 m hs k v fs Hh1 Hr Hs) as (l & -> & -> & Hl). exists OK, l, d1. split; [done|]. split; [done|].
    right. destruct Hl as [Hl|[Hw Hl]]; [left; split; [done|by left]|right]. split; [done|]. split; [|done]. by eexists _, _, d1, v.
  - rewrite Hm. status. exists (NotFound [] []), [], d1. rewrite app_nil_r. split; [done|]. split; [done|]. right. left.
    split; [done|right; by split].
Qed.

(** The read of the metadata that begins an operation fails. *)
Definition read_failed (d : D) (k : bytes) : Prop := exists s raw d', kget d k [] = Some (s, raw, d') /\ failed s.

(** ** Several fields *)

Lemma fields_on_lookup fvs fs f : fields_on fvs fs !! f =
  match find (fun fv => bool_decide (fv.1 = f)) (rev fvs) with Some fv => Some fv.2 | None => fs !! f end.
Proof.
  induction fvs as [|fv fvs IH] using rev_ind; [done|]. unfold fields_on in *. rewrite fold_left_app, rev_app_distr. cbn.
  case_bool_decide as He; [subst f; apply lookup_insert_eq|]. by rewrite lookup_insert_ne.
Qed.

(** Of a list of fields the last value of each is kept, once. *)
Lemma last_fields_lookup r : forall seen fs f, fields_on (last_fields seen r) fs !! f =
  if decide (f ∈ seen) then fs !! f
  else match find (fun fv => bool_decide (fv.1 = f)) r with Some fv => Some fv.2 | None => fs !! f end.
Proof.
  induction r as [|fv r IH]; intros seen fs f; cbn [last_fields find]; [by destruct (decide _)|].
  case_bool_decide as Hs.
  - rewrite IH. destruct (decide (f ∈ seen)) as [|Hn]; [done|]. rewrite bool_decide_false; [done|]. by intros <-.
  - cbn [fields_on fold_left]. change (fold_left _ ?l ?x) with (fields_on l x). rewrite IH.
    destruct (decide (f ∈ fv.1 :: seen)) as [Hin|Hn].
    + apply elem_of_cons in Hin as [->|Hin]; [rewrite lookup_insert_eq, decide_False by done; by rewrite bool_decide_true|].
      rewrite decide_True, lookup_insert_ne; [done| |done]. by intros <-.
    + apply not_elem_of_cons in Hn as [Hne Hn]. rewrite decide_False, bool_decide_false, lookup_insert_ne by done. done.
Qed.

Lemma last_fields_on fvs fs : fields_on (last_fields [] (rev fvs)) fs = fields_on fvs fs.
Proof. apply map_eq. intros f. by rewrite last_fields_lookup, fields_on_lookup. Qed.

Lemma last_fields_elem r : forall seen fv, fv ∈ last_fields seen r -> fv ∈ r /\ fv.1 ∉ seen.
Proof.
  induction r as [|fv r IH]; intros seen fv'; cbn [last_fields]; [by intros ?%not_elem_of_nil|]. case_bool_decide as Hs.
  - intros [Hr Hn]%IH. split; [by right|done].
  - intros [->|Hin]%elem_of_cons; [by split; [left|]|]. apply IH in Hin as [Hr Hn]. split; [by right|].
    intros Hin. apply Hn. by right.
Qed.

Lemma last_fields_NoDup r : forall seen, NoDup (last_fields seen r).*1.
Proof.
  induction r as [|fv r IH]; intros seen; cbn [last_fields]; [constructor|]. case_bool_decide; [apply IH|].
  rewrite fmap_cons. constructor; [|apply IH]. intros (fv' & He & [_ Hn]%last_fields_elem)%list_elem_of_fmap.
  apply Hn. rewrite He. left.
Qed.

Lemma length_last_fields r : forall seen, (length (last_fields seen r) <= length r)%nat.
Proof.
  induction r as [|fv r IH]; intros seen; cbn [last_fields length]; [lia|]. case_bool_decide; [specialize (IH seen); lia|].
  cbn [length]. specialize (IH (fv.1 :: seen)). lia.
Qed.

(** Fields that are not there yet. *)
Definition news (fs : gmap bytes bytes) (fvs : list FieldValue) : list FieldValue := filter (fun fv => fs !! fv.1 = None) fvs.

Lemma size_fields_on fvs : forall fs, NoDup fvs.*1 -> size (fields_on fvs fs) = (size fs + length (news fs fvs))%nat.
Proof.
  induction fvs as [|fv fvs IH]; intros fs Hn; [cbn; lia|]. rewrite fmap_cons in Hn. apply NoDup_cons in Hn as [Hfv Hn].
  change (fields_on (fv :: fvs) fs) with (fields_on fvs (<[fv.1 := fv.2]> fs)). rewrite IH by done.
  assert (news (<[fv.1 := fv.2]> fs) fvs = news fs fvs) as ->.
  { clear - Hfv. induction fvs as [|fv' fvs IH]; [done|]. rewrite fmap_cons in Hfv. apply not_elem_of_cons in Hfv as [Hne Hfv].
    unfold news in *. rewrite !filter_cons, IH, lookup_insert_ne by done. done. }
  unfold news. rewrite filter_cons. case_decide as Hd.
  - rewrite map_size_insert_None by done. cbn [length]. lia.
  - apply not_eq_None_Some in Hd. by rewrite map_size_insert_Some.
Qed.

(** ** [HMSet] *)

Lemma HMSet_loop_ok m hs k v fs fvs : rep m hs -> hs !! k = Some (v, fs) -> Forall (fv_fits k) fvs -> forall d value batch cnt, holds d m ->
  0 <= cnt -> cnt + len fvs < 2 ^ 31 ->
  exists r d', HMSet_loop d k v fvs value batch cnt = Some (r, d') /\ holds d' m /\
    ((exists s, failed s /\ r = inl s) \/ r = inr (batch ++ put_fields k v fvs, cnt + len (news fs fvs))).
Proof.
  intros Hr Hs Hfits. induction Hfits as [|[f x] fvs [Hshort _] _ IH]; intros d value batch cnt Hh H1 H2; cbn [HMSet_loop put_fields map length fst snd] in *.
  { eexists _, d. split; [done|]. split; [done|]. right. rewrite app_nil_r. cbn. by rewrite Z.add_0_r. }
  destruct (read_field d m hs k v fs f value Hh Hr Hs Hshort) as (st & y & d2 & -> & Hh2 & [Hf|Hy]).
  { rewrite failed_ok, failed_found by done. eexists _, d2. split; [done|]. split; [done|]. left. by exists st. }
  unfold news. rewrite filter_cons. cbn [fst]. destruct (fs !! f) as [z|] eqn:Hfs; destruct Hy as [-> ->]; status.
  - rewrite decide_False by done. destruct (IH d2 z (batch ++ [OpPut (key_of k v f) x]) cnt Hh2) as (r & d' & -> & Hh' & Hr'); [lia|lia|].
    exists r, d'. split; [done|]. split; [done|]. destruct Hr' as [?| ->]; [by left|right]. by rewrite <- app_assoc.
  - rewrite decide_True by done. rewrite i32_small by lia.
    destruct (IH d2 value (batch ++ [OpPut (key_of k v f) x]) (cnt + 1) Hh2) as (r & d' & -> & Hh' & Hr'); [lia|lia|].
    exists r, d'. split; [done|]. split; [done|]. destruct Hr' as [?| ->]; [by left|right]. rewrite <- app_assoc. cbn [length].
    do 2 f_equal. unfold news. lia.
Qed.

(** When the metadata cannot be read, [HMSet] writes nothing and may still return [OK]. *)
Lemma HMSet_ok d m hs k fvs : holds d m -> rep m hs -> plain k -> Forall (fv_fits k) fvs -> len fvs + 1 < 2 ^ 31 ->
  sizeZ (fields hs k) + len fvs < 2 ^ 31 - 1 ->
  exists st d', HMSet now d k fvs = Some (st, d') /\
    ((exists v, outcome st d' m (<[k := (v, fields_on fvs (fields hs k))]> hs)) \/ (st = OK /\ held d' m /\ read_failed d k)).
Proof.
  intros Hh Hr Hk Hfit Hl Hz. unfold HMSet. set (l := last_fields [] (rev fvs)).
  assert (forall fs, fields_on l fs = fields_on fvs fs) as Hl1 by apply last_fields_on.
  assert (NoDup l.*1) as Hl2 by apply last_fields_NoDup.
  assert (len l <= len fvs) as Hl3 by (unfold l; pose proof (length_last_fields (rev fvs) []) as Hq; rewrite length_rev in Hq; lia).
  assert (Forall (fv_fits k) l) as Hl4.
  { apply Forall_forall. intros fv [Hin _]%last_fields_elem. rewrite Forall_forall in Hfit. apply Hfit.
    apply list_elem_of_In. apply list_elem_of_In in Hin. by apply in_rev. }
  assert (forall fs, size (fields_on l fs) = (size fs + length (news fs l))%nat) as Hl5 by (intros fs; by apply size_fields_on).
  assert (forall fs, len (news fs l) <= len l) as Hl6 by (intros fs; apply inj_le, length_filter).
  assert (news ∅ l = l) as Hl7 by (apply filter_all, Forall_forall; intros fv _; apply lookup_empty).
  clearbody l. destruct (read_meta d m hs k Hh Hr Hk) as (st & raw & d1 & Hget & Hh1 & [Hf|Hm]); rewrite Hget.
  { rewrite failed_ok, failed_found by done. destruct (write_ok d1 m [] Hh1) as (st' & d' & -> & Ho); [by split|].
    exists st', d'. split; [done|]. destruct Ho as [[-> Ho]|[Hf' Ho]]; [right; split; [done|]; split; [done|]; by exists st, raw, d1|].
    left. exists 0. by right. }
  assert (forall v, (forall v' fs, hs !! k = Some (v', fs) -> fs = ∅) -> is_i32 v -> v <> 0 ->
    exists st d', kwrite d1 (OpPut k (base_raw (len l) v 0) :: put_fields k v l) = Some (st, d') /\
      ((exists v, outcome st d' m (<[k := (v, fields_on fvs (fields hs k))]> hs)) \/ (st = OK /\ held d' m /\ read_failed d k))) as Hnew.
  { intros v He Hv Hne. assert (fields hs k = ∅) as -> by (unfold fields; destruct (hs !! k) as [[v' fs]|]; [by apply (He v')|done]).
    assert (sizeZ (fields_on l ∅) = len l) as Hsz by (rewrite Hl5, Hl7, map_size_empty; lia).
    destruct (fresh_write d1 m hs k v l Hh1 Hr Hk Hv Hne He) as (st' & d' & Hw & Ho); [done|lia|lia|].
    rewrite Hsz in Hw. exists st', d'. split; [done|]. left. exists v. by rewrite <- Hl1. }
  destruct (hs !! k) as [[v fs]|] eqn:Hs.
  - destruct Hm as [-> ->]. status. rewrite (parse_meta hs m k v fs) by done. rewrite (fields_live hs k v fs) in * by done.
    cbn [pb_timestamp pb_count pb_version base_parsed IsStale Z.eqb orb]. rewrite count_zero. case_bool_decide as He.
    + subst fs. change (sizeZ (∅ : gmap bytes bytes)) with 0. rewrite Base_initial. unfold base_parsed. rewrite Base_set_count.
      rewrite i32_small by lia. destruct (next_version_ok now v Hnow) as [Hnv Hnz]; [by apply (rp_ok m hs Hr k v ∅)|].
      apply Hnew; [|done|done]. by intros v' fs' [= _ <-].
    + destruct (HMSet_loop_ok m hs k v fs l Hr Hs Hl4 d1 [] [] 0 Hh1) as (r & d2 & -> & Hh2 & Hr'); [lia|lia|].
      destruct Hr' as [(s & Hf & ->)| ->]; [exists s, d2; split; [done|]; left; exists 0; by right|].
      rewrite Z.add_0_l. rewrite Base_modify_count by (specialize (Hl6 fs); unfold is_i32; lia). cbn [app pb_value base_parsed].
      replace (sizeZ fs + len (news fs l)) with (sizeZ (fields_on l fs)) by (rewrite Hl5; lia).
      destruct (rp_ok m hs Hr k v fs Hs) as [_ Hv _ _ _]. specialize (Hl5 fs). specialize (Hl6 fs).
      destruct (live_write d2 m hs k v fs l (put_fields k v l ++ [OpPut k (base_raw (sizeZ (fields_on l fs)) v 0)]))
        as (st & d' & -> & Ho); [done..|lia| | | |].
      * split; [|rewrite length_app, length_put_fields; cbn; lia]. apply Forall_app. split; [by apply put_fields_fit|].
        by apply Forall_singleton, meta_fits.
      * rewrite ops_on_app. apply batched_meta; [done|done|]. apply batched_puts; [done|done|]. by apply (start_live m hs).
      * rewrite ops_on_app. apply lookup_insert_eq.
      * exists st, d'. split; [done|]. left. exists v. by rewrite <- Hl1.
  - rewrite Hm. status. rewrite dead_kept. destruct (next_version_ok now 0 Hnow) as [Hnv Hnz]; [done|]. by apply Hnew.
Qed.

(** ** [HDel] *)

Definition without (l : list bytes) (fs : gmap bytes bytes) : gmap bytes bytes := fold_left (fun fs f => delete f fs) l fs.

Lemma without_lookup l : forall fs f, without l fs !! f = if decide (f ∈ l) then None else fs !! f.
Proof.
  induction l as [|g l IH]; intros fs f; [done|]. cbn [without fold_left]. change (fold_left _ ?l ?x) with (without l x). rewrite IH.
  destruct (decide (f ∈ l)) as [Hin|Hn]; [by rewrite decide_True by by right|]. destruct (decide (f = g)) as [->|Hne].
  - by rewrite decide_True, lookup_delete_eq by left.
  - rewrite decide_False, lookup_delete_ne by (done || by intros [?|?]%elem_of_cons). done.
Qed.

(** The fields of the list that are there. *)
Definition present (fs : gmap bytes bytes) (l : list bytes) : list bytes := filter (fun f => is_Some (fs !! f)) l.

Lemma without_present l fs : without (present fs l) fs = without l fs.
Proof.
  apply map_eq. intros f. rewrite !without_lookup. unfold present. destruct (decide (f ∈ l)) as [Hin|Hn].
  - destruct (fs !! f) as [x|] eqn:Hf; [rewrite decide_True; [done|]|by case_decide].
    apply list_elem_of_filter. split; [|done]. by exists x.
  - rewrite decide_False; [done|]. by intros [_ ?]%list_elem_of_filter.
Qed.

Lemma size_without l : forall fs, NoDup l -> Forall (fun f => is_Some (fs !! f)) l -> (size (without l fs) + length l = size fs)%nat.
Proof.
  induction l as [|f l IH]; intros fs Hn Hf; [cbn; lia|]. apply NoDup_cons in Hn as [Hin Hn]. apply Forall_cons in Hf as [Hf Hfs].
  change (without (f :: l) fs) with (without l (delete f fs)). cbn [length].
  assert (size fs = S (size (delete f fs))) as Hsz.
  { rewrite map_size_delete_Some by done. destruct (size fs) eqn:Hz; [|done]. apply map_size_empty_inv in Hz as ->.
    rewrite lookup_empty in Hf. by destruct Hf. }
  specialize (IH (delete f fs) Hn). rewrite Hsz, <- IH; [lia|]. rewrite Forall_forall in Hfs |- *. intros g Hg.
  rewrite lookup_delete_ne; [by apply Hfs|]. by intros ->.
Qed.

Lemma first_fields_elem l : forall seen f, f ∈ first_fields seen l <-> f ∈ l /\ f ∉ seen.
Proof.
  clear Hnow.
  induction l as [|g l IH]; intros seen f; cbn [first_fields]; [split; [by intros ?%not_elem_of_nil|by intros [?%not_elem_of_nil _]]|].
  case_bool_decide as Hs; rewrite ?elem_of_cons, IH, ?elem_of_cons; [|destruct (decide (f = g)); naive_solver].
  split; [naive_solver|]. intros [[->|?] ?]; [done|by split].
Qed.

Lemma first_fields_NoDup l : forall seen, NoDup (first_fields seen l).
Proof.
  induction l as [|g l IH]; intros seen; cbn [first_fields]; [constructor|]. case_bool_decide; [apply IH|].
  constructor; [|apply IH]. intros [_ Hn]%first_fields_elem. apply Hn. left.
Qed.

Definition delete_fields (k : bytes) (v : Z) (l : list bytes) : list Op := map (fun f => OpDelete (key_of k v f)) l.

Lemma batched_deletes m k v l : plain k -> is_i32 v -> forall m' fs, batched m m' k v fs ->
  batched m (ops_on (delete_fields k v l) m') k v (without l fs).
Proof. intros Hk Hv. induction l as [|f l IH]; intros m' fs Hb; [done|]. apply IH. by apply batched_delete. Qed.

Lemma HDel_loop_ok m hs k v fs l : rep m hs -> hs !! k = Some (v, fs) -> Forall (field_short k) l -> forall d value batch cnt, holds d m ->
  0 <= cnt -> cnt + len l < 2 ^ 31 ->
  exists r d', HDel_loop d k v l value batch cnt = Some (r, d') /\ holds d' m /\
    ((exists s, failed s /\ r = inl s) \/ r = inr (batch ++ delete_fields k v (present fs l), cnt + len (present fs l))).
Proof.
  intros Hr Hs Hshorts. induction Hshorts as [|f l Hshort _ IH]; intros d value batch cnt Hh H1 H2; cbn [HDel_loop length] in *.
  { eexists _, d. split; [done|]. split; [done|]. right. cbn. by rewrite app_nil_r, Z.add_0_r. }
  destruct (read_field d m hs k v fs f value Hh Hr Hs Hshort) as (st & y & d2 & -> & Hh2 & [Hf|Hy]).
  { rewrite failed_ok, failed_found by done. eexists _, d2. split; [done|]. split; [done|]. left. by exists st. }
  unfold present. rewrite filter_cons. destruct (fs !! f) as [z|] eqn:Hfs; destruct Hy as [-> ->]; status.
  - rewrite decide_True by (by exists z). rewrite i32_small by lia.
    destruct (IH d2 z (batch ++ [OpDelete (key_of k v f)]) (cnt + 1) Hh2) as (r & d' & -> & Hh' & Hr'); [lia|lia|].
    exists r, d'. split; [done|]. split; [done|]. destruct Hr' as [?| ->]; [by left|right]. rewrite <- app_assoc. cbn [length].
    do 2 f_equal. unfold present. lia.
  - rewrite decide_False by (by intros [? ?]). destruct (IH d2 value batch cnt Hh2) as (r & d' & -> & Hh' & Hr'); [lia|lia|].
    exists r, d'. by split.
Qed.

Lemma delete_fits k v f : len k + len f + 16 < 2 ^ 32 -> op_fits (OpDelete (key_of k v f)).
Proof. intros Hk. split; [|done]. cbn [op_key]. rewrite length_BaseDataKey. lia. Qed.

Lemma length_first_fields l : forall seen, (length (first_fields seen l) <= length l)%nat.
Proof.
  induction l as [|f l IH]; intros seen; cbn [first_fields length]; [lia|]. case_bool_decide; [specialize (IH seen); lia|].
  cbn [length]. specialize (IH (f :: seen)). lia.
Qed.

(** A hash that was missing or empty stays as it is. *)
Lemma HDel_ok d m hs k l ret : holds d m -> rep m hs -> plain k -> Forall (field_short k) l -> len l + 1 < 2 ^ 31 ->
  exists st n d', HDel now d k l ret = Some (st, n, d') /\
    ((failed st /\ held d' m) \/
     (st = OK /\ n = sizeZ (fields hs k) - sizeZ (without l (fields hs k)) /\
      exists m' hs', held d' m' /\ rep m' hs' /\
        ((hs' = hs /\ fields hs k = ∅) \/ exists v, hs' = <[k := (v, without l (fields hs k))]> hs))).
Proof.
  intros Hh Hr Hk Hshort Hl. unfold HDel. set (l' := first_fields [] l).
  assert (forall fs, without l' fs = without l fs) as Hl1.
  { intros fs. apply map_eq. intros f. rewrite !without_lookup. apply decide_ext. unfold l'. rewrite first_fields_elem.
    split; [by intros [? _]|]. intros ?. split; [done|]. apply not_elem_of_nil. }
  assert (NoDup l') as Hl2 by apply first_fields_NoDup.
  assert (Forall (field_short k) l') as Hl4.
  { rewrite Forall_forall in Hshort |- *. intros f [Hin _]%first_fields_elem. by apply Hshort. }
  assert (len l' <= len l) as Hl3 by (apply inj_le, length_first_fields). clearbody l'.
  assert (forall d1, holds d1 m -> fields hs k = ∅ -> exists st n d', Some (OK, 0, d1) = Some (st, n, d') /\
    ((failed st /\ held d' m) \/
     (st = OK /\ n = sizeZ (fields hs k) - sizeZ (without l (fields hs k)) /\
      exists m' hs', held d' m' /\ rep m' hs' /\
        ((hs' = hs /\ fields hs k = ∅) \/ exists v, hs' = <[k := (v, without l (fields hs k))]> hs)))) as Hnone.
  { intros d1 Hh1 He. exists OK, 0, d1. split; [done|]. right. split; [done|]. split; [|exists m, hs; split; [done|]; split; [done|]; left; by split].
    rewrite He. assert (without l ∅ = ∅) as ->; [|done]. apply map_eq. intros f. rewrite without_lookup. by case_decide. }
  destruct (read_meta d m hs k Hh Hr Hk) as (st & raw & d1 & -> & Hh1 & [Hf|Hm]).
  { rewrite failed_ok, failed_found by done. exists st, ret, d1. split; [done|by left]. }
  destruct (hs !! k) as [[v fs]|] eqn:Hs.
  - destruct Hm as [-> ->]. status. rewrite (parse_meta hs m k v fs) by done.
    cbn [pb_timestamp pb_count pb_version base_parsed IsStale Z.eqb orb]. rewrite count_zero. case_bool_decide as He.
    { apply Hnone; [done|]. by rewrite (fields_live hs k v fs). }
    rewrite (fields_live hs k v fs) by done. clear Hnone.
    destruct (HDel_loop_ok m hs k v fs l' Hr Hs Hl4 d1 [] [] 0 Hh1) as (r & d2 & -> & Hh2 & Hr'); [lia|lia|].
    destruct Hr' as [(s & Hf & ->)| ->]; [exists s, ret, d2; split; [done|by left]|].
    destruct (rp_ok m hs Hr k v fs Hs) as [_ Hv Hne Hz Hfits].
    assert (len (present fs l') <= len l') as Hp by (apply inj_le, length_filter).
    assert (sizeZ fs - len (present fs l') = sizeZ (without l fs)) as Hsz.
    { rewrite <- (Hl1 fs), <- without_present. rewrite <- (size_without (present fs l') fs); [lia|by apply NoDup_filter|].
      apply Forall_forall. by intros f [Hf _]%list_elem_of_filter. }
    rewrite Z.add_0_l, i32_small by lia. rewrite Base_modify_count by (unfold is_i32; lia).
    rewrite Z.add_opp_r, Hsz. cbn [app pb_value base_parsed].
    destruct (commit_write d2 m hs k v (without l fs) (delete_fields k v (present fs l') ++ [OpPut k (base_raw (sizeZ (without l fs)) v 0)]))
      as (st & d' & -> & Ho); [done|done| | | | | |].
    + split; [done|done|done|lia|]. intros f x. rewrite without_lookup. case_decide; [done|]. apply Hfits.
    + intros v' fs' Hs'. rewrite Hs in Hs'. injection Hs' as <- _. by left.
    + split; [|unfold delete_fields; rewrite length_app, length_map; cbn; lia]. apply Forall_app.
      split; [|by apply Forall_singleton, meta_fits]. apply Forall_map, Forall_forall. intros f [[x Hx] _]%list_elem_of_filter.
      apply delete_fits. by apply (Hfits f x).
    + rewrite ops_on_app. apply batched_meta; [done|done|]. rewrite <- (Hl1 fs), <- without_present.
      apply batched_deletes; [done|done|]. by apply (start_live m hs).
    + rewrite ops_on_app. apply lookup_insert_eq.
    + exists st, (len (present fs l')), d'. split; [done|]. destruct Ho as [(-> & m' & Hh' & Hr')|?]; [right|by left].
      split; [done|]. split; [lia|]. exists m', (<[k := (v, without l fs)]> hs). split; [done|]. split; [done|]. right. by exists v.
  - rewrite Hm. status. apply Hnone; [done|]. unfold fields. by rewrite Hs.
Qed.

(** ** [Del] *)

Lemma deletes_lookup l : forall m key, ops_on (map OpDelete l) m !! key = if decide (key ∈ l) then None else m !! key.
Proof.
  induction l as [|x l IH]; intros m key; [done|]. cbn [map ops_on fold_left]. change (fold_left _ ?l ?x) with (ops_on l x). rewrite IH.
  cbn [op_on]. destruct (decide (key ∈ l)) as [Hin|Hn]; [by rewrite decide_True by by right|]. destruct (decide (key = x)) as [->|Hne].
  - by rewrite decide_True, lookup_delete_eq by left.
  - rewrite decide_False, lookup_delete_ne by (done || by intros [?|?]%elem_of_cons). done.
Qed.

Lemma lists_fields_size l fs : lists_fields l fs -> length l = size fs.
Proof.
  intros [Hl Hs]. rewrite <- length_map_to_list. apply Permutation_length, NoDup_Permutation; [|apply NoDup_map_to_list|].
  - clear Hl. induction Hs as [|a l Hs IH Hall]; [constructor|]. constructor; [|done]. intros Hin. rewrite Forall_forall in Hall.
    specialize (Hall a Hin). cbn in Hall. by rewrite compare_refl in Hall.
  - intros [f x]. rewrite elem_of_map_to_list. apply Hl.
Qed.

Lemma some_fields_in l fs f x : some_fields l fs -> (f, x) ∈ l -> fs !! f = Some x.
Proof. intros (all & [Hall _] & Hsub) Hin. apply Hall. by eapply sublist_subseteq. Qed.

Lemma some_fields_size l fs : some_fields l fs -> (length l <= size fs)%nat.
Proof. intros (all & Hall & Hsub). rewrite <- (lists_fields_size all fs Hall). by apply sublist_length. Qed.

(** The batch of [Del] over the fields [l]. *)
Definition del_ops (k : bytes) (v : Z) (l : list FieldValue) : list Op :=
  OpDelete k :: map (fun fv => OpDelete (key_of k v fv.1)) l.

Lemma del_fits k v fs l : hash_ok k v fs -> some_fields l fs -> batch_fits (del_ops k v l).
Proof.
  intros [Hk Hv _ Hz Hfits] Hl. split; [|pose proof (some_fields_size l fs Hl); cbn; rewrite length_map; lia].
  apply Forall_cons. split; [destruct Hk; split; [cbn; lia|done]|]. apply Forall_map, Forall_forall. intros [f x] Hin.
  apply delete_fits, (Hfits f x). by apply (some_fields_in l).
Qed.

Lemma del_rep m hs k v fs l : rep m hs -> plain k -> hs !! k = Some (v, fs) -> lists_fields l fs ->
  rep (ops_on (del_ops k v l) m) (delete k hs).
Proof.
  intros Hr Hk Hs Hl. destruct (rp_ok m hs Hr k v fs Hs) as [_ Hv _ _ _]. set (keys := map (fun fv => key_of k v fv.1) l).
  assert (del_ops k v l = OpDelete k :: map OpDelete keys) as -> by (unfold del_ops, keys; by rewrite map_map).
  assert (forall key, key ∈ keys <-> exists f x, key = key_of k v f /\ fs !! f = Some x) as Hkeys.
  { intros key. unfold keys. rewrite list_elem_of_fmap. split.
    - intros ([f x] & -> & Hin). exists f, x. split; [done|]. by apply (proj1 Hl).
    - intros (f & x & -> & Hf). exists (f, x). split; [done|]. by apply (proj1 Hl). }
  change (ops_on (OpDelete k :: map OpDelete keys) m) with (ops_on (map OpDelete keys) (delete k m)).
  apply (rep_delete m hs); [done|done| | |].
  - rewrite deletes_lookup, lookup_delete_eq. by case_decide.
  - intros v' f Hv'. rewrite deletes_lookup. case_decide as Hin; [done|]. rewrite lookup_delete_ne by (apply not_eq_sym, not_meta; done).
    destruct (m !! key_of k v' f) as [x|] eqn:Hx; [|done]. destruct (rep_field m hs k v' f x Hr Hk Hv' Hx) as (fs' & Hs' & Hf).
    rewrite Hs in Hs'. injection Hs' as -> ->. destruct Hin. apply Hkeys. by exists f, x.
  - intros key [Hne Ha]. rewrite deletes_lookup, decide_False, lookup_delete_ne; [done|done|].
    intros (f & x & -> & _)%Hkeys. by apply (Ha v f).
Qed.

(** When the hash is missing, or could not be read, nothing is deleted and the result may
    still be [OK]; so it is when the iterator failed and fields were left behind. *)
Lemma Del_ok d m hs k : holds d m -> rep m hs -> plain k ->
  exists st d', Del now d k = Some (st, d') /\
    ((st = OK /\ exists m', held d' m' /\ rep m' (delete k hs)) \/
     (held d' m /\ (failed st \/ (missing st /\ fields hs k = ∅) \/ (st = OK /\ (read_failed d k \/ fields hs k = ∅)))) \/
     (st = OK /\ scan_failed d k /\ exists v l, some_fields l (fields hs k) /\ held d' (ops_on (del_ops k v l) m))).
Proof.
  intros Hh Hr Hk. unfold Del. destruct (read_meta d m hs k Hh Hr Hk) as (st & raw & d1 & Hget & Hh1 & Hm). rewrite Hget.
  assert (read_failed d k \/ fields hs k = ∅ -> exists st d', kwrite d1 [] = Some (st, d') /\
    ((st = OK /\ exists m', held d' m' /\ rep m' (delete k hs)) \/
     (held d' m /\ (failed st \/ (missing st /\ fields hs k = ∅) \/ (st = OK /\ (read_failed d k \/ fields hs k = ∅)))) \/
     (st = OK /\ scan_failed d k /\ exists v l, some_fields l (fields hs k) /\ held d' (ops_on (del_ops k v l) m)))) as Hskip.
  { intros Hwhy. destruct (write_ok d1 m [] Hh1) as (s2 & d' & -> & Ho); [by split|]. exists s2, d'. split; [done|]. right. left.
    destruct Ho as [[-> ?]|[? ?]]; (split; [done|]); [by right; right|by left]. }
  destruct Hm as [Hf|Hm]; [rewrite failed_ok by done; apply Hskip; left; by exists st, raw, d1|].
  destruct (hs !! k) as [[v fs]|] eqn:Hs; [|rewrite Hm; status; apply Hskip; right; unfold fields; by rewrite Hs].
  destruct Hm as [-> ->]. status. clear Hskip. rewrite (parse_meta hs m k v fs) by done. rewrite (fields_live hs k v fs) by done.
  cbn [pb_timestamp pb_count pb_version base_parsed IsStale Z.eqb]. rewrite count_zero. case_bool_decide as He.
  { subst fs. eexists _, d1. split; [done|]. right. left. split; [done|right; left; by split]. }
  destruct (scan_fields d1 m hs k v fs Hh1 Hr Hs) as (l & -> & _ & Hl). rewrite map_map. cbn [fst].
  assert (some_fields l fs) as Hsome by (destruct Hl as [Hl|[_ Hl]]; [by exists l|done]).
  destruct (write_ok d1 m _ Hh1 (del_fits k v fs l (rp_ok m hs Hr k v fs Hs) Hsome)) as (st & d' & Hw & Ho).
  unfold del_ops in Hw at 1. rewrite Hw. exists st, d'. split; [done|].
  destruct Ho as [[-> Ho]|[Hf Ho]]; [|right; left; split; [done|by left]]. destruct Hl as [Hl|[Hwf _]].
  - left. split; [done|]. eexists. split; [exact Ho|]. by apply (del_rep m hs k v fs).
  - right. right. split; [done|]. split; [by eexists _, _, d1, v|]. by exists v, l.
Qed.
End Steps.

(** ** The commands of a hash and what they mean *)

Inductive HashCmd :=
  | CSet (k f x : bytes) | CGet (k f : bytes) | CExists (k f : bytes)
  | CMSet (k : bytes) (fvs : list FieldValue) | CMGet (k : bytes) (fs : list bytes) | CGetall (k : bytes)
  | CRemove (k : bytes) (fs : list bytes) | CDel (k : bytes).

Inductive HashReply :=
  | RStatus (s : Status) | RInt (s : Status) (n : Z) | RValue (s : Status) (x : bytes)
  | RValues (s : Status) (vss : list ValueStatus) | RFields (s : Status) (fvs : list FieldValue).

Definition reply_status (r : HashReply) : Status :=
  match r with RStatus s | RInt s _ | RValue s _ | RValues s _ | RFields s _ => s end.

Definition run_hash {D} `{KVStore D} `{DeadMemory} (now : Z) (d : D) (c : HashCmd) : option (HashReply * D) :=
  match c with
  | CSet k f x => let? (s, n, d) := HSet now d k f x 0 in Some (RInt s n, d)
  | CGet k f => let? (s, x, d) := HGet now d k f [] in Some (RValue s x, d)
  | CExists k f => let? (s, d) := HExists now d k f in Some (RStatus s, d)
  | CMSet k fvs => let? (s, d) := HMSet now d k fvs in Some (RStatus s, d)
  | CMGet k fs => let? (s, vss, d) := HMGet now d k fs in Some (RValues s vss, d)
  | CGetall k => let? (s, fvs, d) := HGetall now d k [] in Some (RFields s fvs, d)
  | CRemove k fs => let? (s, n, d) := HDel now d k fs 0 in Some (RInt s n, d)
  | CDel k => let? (s, d) := Del now d k in Some (RStatus s, d)
  end.

Definition hash_key (c : HashCmd) : bytes :=
  match c with
  | CSet k _ _ | CGet k _ | CExists k _ | CMSet k _ | CMGet k _ | CGetall k | CRemove k _ | CDel k => k
  end.

(** Sizes the encoding can hold. *)
Definition cmd_fits (c : HashCmd) (h : gmap bytes bytes) : Prop :=
  match c with
  | CSet k f x => fv_fits k (f, x) /\ sizeZ h + 1 < 2 ^ 31 - 1
  | CMSet k fvs => Forall (fv_fits k) fvs /\ len fvs + 1 < 2 ^ 31 /\ sizeZ h + len fvs < 2 ^ 31 - 1
  | CRemove k fs => Forall (field_short k) fs /\ len fs + 1 < 2 ^ 31
  | CGet k f | CExists k f => field_short k f
  | CMGet k fs => Forall (field_short k) fs
  | CGetall _ | CDel _ => True
  end.

(** The fields of the hash after a command. *)
Definition hash_after (c : HashCmd) (h : gmap bytes bytes) : gmap bytes bytes :=
  match c with
  | CSet _ f x => <[f := x]> h
  | CMSet _ fvs => fields_on fvs h
  | CRemove _ fs => without fs h
  | CDel _ => ∅
  | _ => h
  end.

(** The reply to a command that is carried out. *)
Definition hash_reply (c : HashCmd) (h : gmap bytes bytes) (r : HashReply) : Prop :=
  match c with
  | CSet _ f _ => r = RInt OK (if decide (is_Some (h !! f)) then 0 else 1)
  | CGet _ f => match h !! f with Some x => r = RValue OK x | None => exists s, missing s /\ r = RValue s [] end
  | CExists _ f => match h !! f with Some _ => r = RStatus OK | None => exists s, missing s /\ r = RStatus s end
  | CMSet _ _ => r = RStatus OK
  | CMGet _ fs => exists s, (s = OK \/ (missing s /\ h = ∅)) /\ r = RValues s (map (field_status h) fs)
  | CGetall _ => exists s l, (s = OK \/ (missing s /\ h = ∅)) /\ r = RFields s l /\ lists_fields l h
  | CRemove _ fs => r = RInt OK (sizeZ h - sizeZ (without fs h))
  | CDel _ => exists s, (s = OK \/ (missing s /\ h = ∅)) /\ r = RStatus s
  end.

(** Commands that go on after their first read failed, with a batch of nothing. *)
Definition goes_on (c : HashCmd) : Prop := match c with CMSet _ _ | CDel _ => True | _ => False end.

Section Commands.
Context {D : Type} `{KVStoreOk D BytewiseComparatorImpl short_key holds held} {M : DeadMemory} {Hkept : DeadMemoryKept M}.
#[local] Hint Extern 0 (held _ _) => (eapply kholds_held; eassumption) : core.

(** The hashes after an operation that sets or removes one. *)
Definition becomes (hs hs' : hashes) (k : bytes) (fs : gmap bytes bytes) : Prop :=
  fields hs' k = fs /\ forall k', k' <> k -> fields hs' k' = fields hs k'.

Lemma becomes_insert hs k v fs : becomes hs (<[k := (v, fs)]> hs) k fs.
Proof. unfold becomes, fields. rewrite lookup_insert_eq. split; [done|]. intros k' Hne. by rewrite lookup_insert_ne. Qed.

Lemma becomes_delete hs k : becomes hs (delete k hs) k ∅.
Proof. unfold becomes, fields. rewrite lookup_delete_eq. split; [done|]. intros k' Hne. by rewrite lookup_delete_ne. Qed.

Lemma becomes_same hs k : becomes hs hs k (fields hs k).
Proof. done. Qed.

Lemma outcome_cases st d' m hs k v fs : rep m hs -> outcome (held := held) st d' m (<[k := (v, fs)]> hs) ->
  (st = OK /\ exists m' hs', held d' m' /\ rep m' hs' /\ becomes hs hs' k fs) \/ (failed st /\ held d' m).
Proof.
  intros Hr [(-> & m' & Hh & Hr')|?]; [left|by right]. split; [done|]. eexists m', _. split; [done|]. split; [done|].
  apply becomes_insert.
Qed.

(** An iterator failed, which the command did not see: [HGetall] shows only some of the
    fields, [Del] deletes the metadata and only some of the fields; both answer [OK]. *)
Definition hash_missed (c : HashCmd) (h : gmap bytes bytes) (r : HashReply) (m m' : kvmap) : Prop :=
  match c with
  | CGetall _ => exists l, some_fields l h /\ r = RFields OK l /\ m' = m
  | CDel k => exists v l, some_fields l h /\ r = RStatus OK /\ m' = ops_on (del_ops k v l) m
  | _ => False
  end.

(** C15: A hash is a map of its fields.  For the commands [HSet], [HGet], [HExists], [HMSet],
    [HMGet], [HGetall], [HDel] and [Del] on a hash whose name is not itself the key of a field (the
    two kinds of keys share one database), with sizes that the encoding can hold, over a store that
    keeps the contract and holds hashes without expiry times: the command returns, and either
    - it is carried out: the reply and the new fields of its hash are those of the map ([HSet]
      says whether the field is new, [HGet], [HExists] and [HMGet] find the fields that are there,
      [HMSet] sets every field to its last value, [HDel] counts the fields it removes, [HGetall]
      lists the map in order), the other hashes are as before, and the store again holds exactly
      the hashes with their counts and versions, so no field of an older version can return; or
    - the database failed and nothing changed, which the status says, except that [HMSet] and
      [Del] may return [OK] when their first read failed; or
    - the iterator of [HGetall] or [Del] failed, which they do not look at, and the command
      answers [OK] having listed, or deleted, only some of the fields.
    The metadata of a new hash is made from the bytes of a destroyed string; the theorem is for
    the case that the memory still holds them. *)
Theorem redis_hash now d m hs c :
  0 < now < 2 ^ 31 -> holds d m -> rep m hs -> plain (hash_key c) -> cmd_fits c (fields hs (hash_key c)) ->
  exists r d' m', run_hash now d c = Some (r, d') /\ held d' m' /\
    ((exists hs', rep m' hs' /\
       ((hash_reply c (fields hs (hash_key c)) r /\ fields hs' (hash_key c) = hash_after c (fields hs (hash_key c)) /\
         (forall k, k <> hash_key c -> fields hs' k = fields hs k)) \/
        (hs' = hs /\ (failed (reply_status r) \/ (reply_status r = OK /\ goes_on c /\ read_failed d (hash_key c)))))) \/
     (scan_failed d (hash_key c) /\ hash_missed c (fields hs (hash_key c)) r m m')).
Proof.
  intros Hn Hh Hr Hk Hf. destruct c as [k f x|k f|k f|k fvs|k l|k|k l|k]; cbn [hash_key cmd_fits run_hash hash_reply hash_after goes_on reply_status] in *.
  - destruct Hf as [Hf Hz]. destruct (HSet_ok now Hn d m hs k f x 0 Hh Hr Hk Hf Hz) as (st & n & d' & -> & v & Ho & Hret).
    destruct (outcome_cases st d' m hs k v _ Hr Ho) as [(-> & m' & hs' & Hh' & Hr' & Hb)|[Hfl Hh']]; eexists _, d'.
    + exists m'. do 2 (split; [done|]). left. exists hs'. split; [done|]. left. rewrite (Hret eq_refl). split; [done|exact Hb].
    + exists m. do 2 (split; [done|]). left. exists hs. split; [done|]. right. split; [done|by left].
  - destruct (HGet_ok now d m hs k f [] Hh Hr Hk Hf) as (st & y & d' & -> & Hh' & Ho). eexists _, d', m. do 2 (split; [done|]).
    left. exists hs. split; [done|]. destruct Ho as [Hfl|Ho]; [right; split; [done|by left]|left]. split; [|done].
    destruct (fields hs k !! f); [by destruct Ho as [-> ->]|]. destruct Ho as [Hm ->]. by exists st.
  - unfold HExists. destruct (HGet_ok now d m hs k f [] Hh Hr Hk Hf) as (st & y & d' & -> & Hh' & Ho). eexists _, d', m.
    do 2 (split; [done|]). left. exists hs. split; [done|]. destruct Ho as [Hfl|Ho]; [right; split; [done|by left]|left]. split; [|done].
    destruct (fields hs k !! f); [by destruct Ho as [-> _]|]. destruct Ho as [Hm _]. by exists st.
  - destruct Hf as (Hf & Hl & Hz). destruct (HMSet_ok now Hn d m hs k fvs Hh Hr Hk Hf Hl Hz) as (st & d' & -> & [[v Ho]|(-> & Hh' & Hrf)]).
    + destruct (outcome_cases st d' m hs k v _ Hr Ho) as [(-> & m' & hs' & Hh' & Hr' & Hb)|[Hfl Hh']]; eexists _, d'.
      * exists m'. do 2 (split; [done|]). left. exists hs'. split; [done|]. left. split; [done|exact Hb].
      * exists m. do 2 (split; [done|]). left. exists hs. split; [done|]. right. split; [done|by left].
    + eexists _, d', m. do 2 (split; [done|]). left. exists hs. split; [done|]. right. split; [done|by right].
  - destruct (HMGet_ok now d m hs k l Hh Hr Hk Hf) as (st & vss & d' & -> & Hh' & Ho). eexists _, d', m. do 2 (split; [done|]).
    left. exists hs. split; [done|]. destruct Ho as [Hfl|[-> Ho]]; [right; split; [done|by left]|left]. split; [|done]. by exists st.
  - destruct (HGetall_ok now d m hs k [] Hh Hr Hk) as (st & l & d' & -> & Hh' & Ho). eexists _, d', m. do 2 (split; [done|]).
    destruct Ho as [Hfl|[[Hl Ho]|(-> & Hsf & Hl)]].
    + left. exists hs. split; [done|]. right. split; [done|by left].
    + left. exists hs. split; [done|]. left. split; [|done]. by exists st, l.
    + right. split; [done|]. by exists l.
  - destruct (HDel_ok now d m hs k l 0 Hh Hr Hk (proj1 Hf) (proj2 Hf)) as (st & n & d' & -> & [[Hfl Hh']|(-> & -> & m' & hs' & Hh' & Hr' & Hb)]).
    + eexists _, d', m. do 2 (split; [done|]). left. exists hs. split; [done|]. right. split; [done|by left].
    + eexists _, d', m'. do 2 (split; [done|]). left. exists hs'. split; [done|]. left. split; [done|]. destruct Hb as [[-> He]|[v ->]]; [|apply becomes_insert].
      split; [|done]. rewrite He. apply map_eq. intros f. rewrite without_lookup, lookup_empty. by case_decide.
  - destruct (Del_ok now d m hs k Hh Hr Hk) as (st & d' & -> & [(-> & m' & Hh' & Hr')|[[Hh' Ho]|(-> & Hsf & v & l & Hl & Hh')]]).
    + eexists _, d', m'. do 2 (split; [done|]). left. eexists. split; [done|]. left. split; [exists OK; split; [by left|done]|apply becomes_delete].
    + eexists _, d', m. do 2 (split; [done|]). left. exists hs. split; [done|]. destruct Ho as [Hfl|[[Hm He]|[-> [Hrf|He]]]].
      * right. split; [done|by left].
      * left. split; [exists st; split; [by right|done]|by split].
      * right. split; [done|by right].
      * left. split; [exists OK; split; [by left|done]|by split].
    + eexists _, d', _. split; [done|]. split; [exact Hh'|]. right. split; [done|]. by exists v, l.
Qed.
End Commands.

(** ** Concrete hashes *)

#[local] Instance demo_store : KVStore kvmap := map_store BytewiseComparatorImpl.

Lemma bytewise_eq a b : Compare BytewiseComparatorImpl a b = Eq -> a = b.
Proof. apply compare_eq. Qed.

#[local] Existing Instances memory_kept memory_kept_ok.

#[local] Instance demo_store_ok : KVStoreSteady kvmap BytewiseComparatorImpl short_key (map_holds short_key) (map_holds short_key).
Proof. apply (map_store_ok BytewiseComparatorImpl (fun _ => True) short_key); [by intros|]. intros a b _ _. apply bytewise_eq. Qed.

Definition demo_fields : list FieldValue := [(str "a", str "1"); (str "b", str "2"); (str "a", str "3")].

Definition demo_reply (r : option (HashReply * kvmap)) : option HashReply := fst <$> r.

Lemma redis_hash_witness :
  exists d' m' hs', run_hash 1700000000 ∅ (CMSet (str "user:1") demo_fields) = Some (RStatus OK, d') /\
    map_holds short_key d' m' /\ rep m' hs' /\ fields hs' (str "user:1") = fields_on demo_fields ∅ /\
    demo_reply (run_hash 1700000000 d' (CGetall (str "user:1"))) = Some (RFields OK [(str "a", str "3"); (str "b", str "2")]).
Proof.
  destruct (redis_hash (holds := map_holds short_key) (held := map_holds short_key) 1700000000 ∅ ∅ ∅ (CMSet (str "user:1") demo_fields))
    as (r & d' & m' & Hrun & Hh & Hcase).
  - lia.
  - split; [reflexivity|]. apply map_Forall_empty.
  - exact rep_empty.
  - split; [vm_compute; reflexivity|vm_compute; reflexivity].
  - split; [|split; vm_compute; reflexivity]. apply (bool_decide_unpack _). vm_compute. exact I.
  - assert (demo_reply (run_hash 1700000000 ∅ (CMSet (str "user:1") demo_fields)) = Some (RStatus OK)) as Hok by (vm_compute; reflexivity).
    assert (demo_reply (let? (r, d) := run_hash 1700000000 ∅ (CMSet (str "user:1") demo_fields) in
      run_hash 1700000000 d (CGetall (str "user:1"))) = Some (RFields OK [(str "a", str "3"); (str "b", str "2")])) as Hall
      by (vm_compute; reflexivity).
    rewrite Hrun in Hok, Hall. injection Hok as ->. destruct Hcase as [(hs' & Hr & Hcase)|[_ []]].
    exists d', m', hs'. split; [exact Hrun|]. split; [exact Hh|]. split; [exact Hr|].
    destruct Hcase as [(_ & Hf & _)|(_ & [Hf|(_ & _ & s & raw & d1 & Hg & Hf)])].
    + split; [exact Hf|exact Hall].
    + destruct Hf as [Hf _]. discriminate Hf.
    + assert (fst <$> (fst <$> kget (∅ : kvmap) (str "user:1") []) = Some (NotFound [] [])) as Hn by (vm_compute; reflexivity).
      change (hash_key (CMSet (str "user:1") demo_fields)) with (str "user:1") in Hg. rewrite Hg in Hn. injection Hn as ->.
      exfalso. by destruct Hf.
Defined.

(** A store whose iterators fail at once when the flag is set. *)
#[local] Instance blind_store : KVStore (kvmap * bool) := {|
  kget (d : kvmap * bool) k value := let? (s, v, m) := kget d.1 k value in Some (s, v, (m, d.2));
  kwrite (d : kvmap * bool) ops := let? (s, m) := kwrite d.1 ops in Some (s, (m, d.2));
  kentries (d : kvmap * bool) target := if d.2 then Some ([], IOError (str "read") []) else kentries d.1 target
|}.

(** [Del] does not see that its iterator failed; a hash made again in the same second has the same version, and
    shows the fields that were left behind, while its count is that of the new ones. *)
Example del_leaves_fields :
  (let? (_, d) := run_hash 1700000000 (∅ : kvmap, false) (CMSet (str "a") [(str "f", str "1"); (str "g", str "2")]) in
   let? (r1, d) := run_hash 1700000000 (d.1, true) (CDel (str "a")) in
   let? (r2, d) := run_hash 1700000000 (d.1, false) (CSet (str "a") (str "h") (str "3")) in
   let? (r3, d) := run_hash 1700000000 d (CGetall (str "a")) in Some (r1, r2, r3)) =
  Some (RStatus OK, RInt OK 1, RFields OK [(str "f", str "1"); (str "g", str "2"); (str "h", str "3")]).
Proof. vm_compute. reflexivity. Qed.

(** The name of a hash can be the key of a field of another: its entry, here the one byte
    "1", is then read as metadata, past its end. *)
Example hash_name_collides :
  let name := BaseDataKey_Encode (str "a") 1700000000 (str "f") in
  (let? (_, d) := run_hash 1700000000 (∅ : kvmap) (CSet (str "a") (str "f") (str "1")) in
   run_hash 1700000000 d (CGet name (str "g"))) = None.
Proof. vm_compute. reflexivity. Qed.
