(* ===== verification/RedisString.v ===== *)
(** Strings (redisdb/db/redistring.cc): one entry per key, the value followed by its expiry
    time.  As in RedisHash.v an operation is a function of the clock and the store, and
    out-parameters are passed in and returned. *)
From stdpp Require Import gmap sorting sets.
From S2P Require Import Prelude Coding Status DbFormat WriteBatch Serialize KvStore.
Local Open Scope Z_scope.

(** ** The C library's conversions *)

Definition LLONG_MAX : Z := 2 ^ 63 - 1.
Definition LLONG_MIN : Z := - 2 ^ 63.

Abbreviation is_i64 z := (- 2 ^ 63 <= z < 2 ^ 63).

(** A string as [strtoll] and [append(const char* )] read it, up to the first NUL; a view's
    bytes are taken to be followed by one. *)
Fixpoint c_str (s : bytes) : bytes :=
  match s with
  | [] => []
  | b :: s => if bool_decide (b = x00) then [] else b :: c_str s
  end.

(** [isspace] in the C locale. *)
Definition is_space (b : byte) : bool := (b2z b =? 32) || ((9 <=? b2z b) && (b2z b <=? 13)).
Definition is_digit (b : byte) : bool := (48 <=? b2z b) && (b2z b <=? 57).

Fixpoint skip_space (s : bytes) : bytes :=
  match s with b :: s' => if is_space b then skip_space s' else s | [] => [] end.

Fixpoint read_digits (s : bytes) (acc : Z) : Z * bytes :=
  match s with
  | b :: s' => if is_digit b then read_digits s' (10 * acc + (b2z b - 48)) else (acc, s)
  | [] => (acc, [])
  end.

(** [strtoll(s, &end, 10)]: the number, clamped, and the rest at [end]. *)
Definition strtoll (s : bytes) : Z * bytes :=
  let p := skip_space s in
  let '(neg, p) :=
    match p with
    | b :: p' => if b2z b =? 45 then (true, p') else if b2z b =? 43 then (false, p') else (false, p)
    | [] => (false, [])
    end in
  match p with
  | b :: _ =>
      if is_digit b then
        let '(n, rest) := read_digits p 0 in
        let n := if neg : bool then - n else n in
        (if n <? LLONG_MIN then LLONG_MIN else if LLONG_MAX <? n then LLONG_MAX else n, rest)
      else (0, s)
  | [] => (0, s)
  end.

(** [std::to_string(int64_t)]. *)
Definition to_string (n : Z) : bytes := if n <? 0 then z2b 45 :: decimal (- n) else decimal n.

Section Strings.
Context {D : Type} `{KVStore D} (now : Z).

Abbreviation parse := (ParsedStringsMetaValue_make true).
Abbreviation stale p := (IsStale now (ps_timestamp p)).

(** [db->Put(key, stringsvalue.Encode())] of a new value. *)
Definition put_string (d : D) (key value : bytes) (timestamp : Z) : option (Status * D) :=
  kput d key (Strings_Encode (Strings_SetTimestamp timestamp (StringsMetaValue_make value))).

(** [SetRelativeTimestamp(ttl)] when [ttl] is positive. *)
Definition ttl_time (ttl : Z) : Z := if 0 <? ttl then i32 (now + ttl) else 0.

Definition Set_ (d : D) (key value : bytes) : option (Status * D) := put_string d key value 0.

Definition Get (d : D) (key : bytes) : option (Status * bytes * D) :=
  let? (s, value, d) := kget d key [] in
  if ok s then
    let p := parse value in
    if stale p then Some (NotFound (str "Stale") [], [], d)
    else let? p := Strings_StripSuffix p in Some (s, ps_value p, d)
  else Some (s, value, d).

Definition Setxx (d : D) (key value : bytes) (ttl : Z) (ret : Z) : option (Status * Z * D) :=
  let? (s, oldvalue, d) := kget d key [] in
  let notfound := negb (ok s) || stale (ParsedStringsMetaValue_make false oldvalue) in
  if negb (ok s) && negb (IsNotFound s) then Some (s, ret, d)
  else if notfound then Some (s, 0, d)
  else let? (s, d) := put_string d key value (ttl_time ttl) in Some (s, 1, d).

Definition GetSet (d : D) (key value oldvalue : bytes) : option (Status * bytes * D) :=
  let? (s, oldvalue, d) := kget d key oldvalue in
  if ok s then
    let p := parse oldvalue in
    let? oldvalue := if stale p then Some [] else let? p := Strings_StripSuffix p in Some (ps_value p) in
    let? (s, d) := put_string d key value 0 in Some (s, oldvalue, d)
  else if IsNotFound s then let? (s, d) := put_string d key value 0 in Some (s, oldvalue, d)
  else Some (s, oldvalue, d).

(** ** Bits *)

Definition bit_byte (offset : Z) : nat := Z.to_nat (Z.shiftr offset 3).
Definition bit_bit (offset : Z) : Z := 7 - Z.land offset 7.

(** The bit of a value, zero past its end; [byte + 1] wraps around for an offset just below
    zero, which then reads before the value. *)
Definition value_bit (v : bytes) (offset : Z) : option Z :=
  let byte := u64 (Z.shiftr offset 3) in
  if len v <? u64 (byte + 1) then Some 0
  else if byte <? len v then
    Some (Z.shiftr (Z.land (byte_at v (Z.to_nat byte)) (Z.shiftl 1 (bit_bit offset))) (bit_bit offset))
  else None.

(** The value with a bit written, extended with zeros when it is too short. *)
Definition write_bit (v : bytes) (offset value : Z) : bytes :=
  let byte := bit_byte offset in
  let bit := bit_bit offset in
  let old := if (length v <? byte + 1)%nat then 0 else byte_at v byte in
  let byteVal := z2b (Z.lor (Z.land old (Z.lnot (Z.shiftl 1 bit))) (Z.shiftl (Z.land value 1) bit)) in
  if (byte + 1 <=? length v)%nat then take byte v ++ [byteVal] ++ drop (byte + 1) v
  else v ++ replicate (byte - length v) x00 ++ [byteVal].

Definition SetBit (d : D) (key : bytes) (offset value ret : Z) : option (Status * Z * D) :=
  if offset <? 0 then Some (InvalidArgument (str "offset< 0") [], ret, d)
  else
    let? (s, metavalue, d) := kget d key [] in
    if ok s || IsNotFound s then
      let datavalue := if ok s then let p := parse metavalue in if stale p then [] else ps_uservalue p else [] in
      let? ret := value_bit datavalue offset in
      if ret =? value then Some (OK, ret, d)
      else let? (s, d) := put_string d key (write_bit datavalue offset value) 0 in Some (s, ret, d)
    else Some (s, ret, d).

Definition GetBit (d : D) (key : bytes) (offset ret : Z) : option (Status * Z * D) :=
  let? (s, metavalue, d) := kget d key [] in
  if ok s || IsNotFound s then
    let p := parse metavalue in
    if ok s && stale p then Some (OK, 0, d)
    else
      let datavalue := if ok s then ps_uservalue p else [] in
      let? bit := value_bit datavalue offset in Some (OK, bit, d)
  else Some (s, ret, d).

(** ** Several keys *)

Definition MSet (d : D) (kvs : list (bytes * bytes)) : option (Status * D) :=
  kwrite d (map (fun kv => OpPut kv.1 (Strings_Encode (StringsMetaValue_make kv.2))) kvs).

Fixpoint MGet_loop (d : D) (keys : list bytes) (value : bytes) (vss : list (bytes * Status))
    : option (Status * list (bytes * Status) * D) :=
  match keys with
  | [] => Some (OK, vss, d)
  | key :: keys =>
      let? (s, value, d) := kget d key value in
      if ok s then
        let p := parse value in
        MGet_loop d keys value (vss ++ [if stale p then ([], NotFound (str "Stale") []) else (ps_uservalue p, OK)])
      else if IsNotFound s then MGet_loop d keys value (vss ++ [([], NotFound (str " ") [])])
      else Some (s, [], d)
  end.
Definition MGet (d : D) (keys : list bytes) : option (Status * list (bytes * Status) * D) := MGet_loop d keys [] [].

Definition Setnx (d : D) (key value : bytes) (ttl : Z) : option (Status * Z * D) :=
  let? (s, oldvalue, d) := kget d key [] in
  if ok s && negb (stale (parse oldvalue)) then Some (s, 0, d)
  else if ok s || IsNotFound s then
    let? (s, d) := put_string d key value (ttl_time ttl) in
    Some (s, if ok s then 1 else 0, d)
  else Some (s, 0, d).

(** Whether a key of the list is live; the status is that of the last read. *)
Fixpoint MSetnx_loop (d : D) (kvs : list (bytes * bytes)) (s : Status) (value : bytes) : option (bool * Status * D) :=
  match kvs with
  | [] => Some (false, s, d)
  | kv :: kvs =>
      let? (s, value, d) := kget d kv.1 value in
      if ok s && negb (stale (parse value)) then Some (true, s, d) else MSetnx_loop d kvs s value
  end.

(** A read that fails counts as a key that is not there. *)
Definition MSetnx (d : D) (kvs : list (bytes * bytes)) : option (Status * Z * D) :=
  let? (exists_, s, d) := MSetnx_loop d kvs OK [] in
  if exists_ : bool then Some (s, 0, d)
  else let? (s, d) := MSet d kvs in Some (s, if ok s then 1 else 0, d).

(** ** Conditional writes *)

Definition Setvx (d : D) (key value newvalue : bytes) (ttl : Z) : option (Status * Z * D) :=
  let? (s, oldvalue, d) := kget d key [] in
  if ok s then
    let p := parse oldvalue in
    if stale p then Some (OK, 0, d)
    else if bool_decide (compare value (ps_uservalue p) = Eq) then
      let? (s, d) := put_string d key newvalue (ttl_time ttl) in
      if ok s then Some (OK, 1, d) else Some (s, 0, d)
    else Some (OK, -1, d)
  else if IsNotFound s then Some (OK, 0, d)
  else Some (s, 0, d).

Definition Del (d : D) (key : bytes) : option (Status * D) :=
  let? (s, value, d) := kget d key [] in
  if ok s then
    if stale (parse value) then Some (NotFound (str "Stale") [], d) else kdelete d key
  else Some (s, d).

Definition Delvx (d : D) (key value : bytes) : option (Status * Z * D) :=
  let? (s, oldvalue, d) := kget d key [] in
  if ok s then
    let p := parse oldvalue in
    if stale p then Some (NotFound (str "Stale") [], 0, d)
    else if bool_decide (compare value (ps_uservalue p) = Eq) then
      let? (s, d) := kdelete d key in Some (s, 1, d)
    else Some (s, -1, d)
  else Some (s, 0, d).

(** ** Parts of a value *)

(** The new value of [Setrange] on a value that is there; [substr] throws when it begins
    past the end. *)
Definition range_written (old : bytes) (startoffset : Z) (value : bytes) : option bytes :=
  if len old <? startoffset then
    Some (old ++ replicate (Z.to_nat startoffset - length old) x00 ++ c_str value)
  else
    let head := take (Z.to_nat startoffset) old in
    let? tail :=
      if u64 (startoffset + len value - 1) <? u64 (len old - 1) then
        if len old <? startoffset + len value then None else Some (drop (Z.to_nat (startoffset + len value)) old)
      else Some [] in
    Some (head ++ c_str value ++ tail).

Definition Setrange (d : D) (key : bytes) (startoffset : Z) (value : bytes) (ret : Z) : option (Status * Z * D) :=
  if startoffset <? 0 then Some (InvalidArgument (str "offset< 0") [], ret, d)
  else
    let fresh := replicate (Z.to_nat startoffset) x00 ++ c_str value in
    let? (s, oldvalue, d) := kget d key [] in
    if ok s then
      let? p := Strings_StripSuffix (parse oldvalue) in
      let? newvalue := if stale p then Some fresh else range_written (ps_value p) startoffset value in
      let? (s, d) := put_string d key newvalue 0 in Some (s, i32 (len newvalue), d)
    else if IsNotFound s then
      let? (s, d) := put_string d key fresh 0 in Some (s, i32 (len fresh), d)
    else Some (s, ret, d).

(** The part of a value that [Getrange] returns. *)
Definition range_of_value (v : bytes) (startoffset endoffset : Z) : bytes :=
  let size := len v in
  let start := if 0 <=? startoffset then startoffset else size + startoffset in
  let endt := if 0 <=? endoffset then endoffset else size + endoffset in
  if (size - 1 <? start) || (negb (start =? 0) && (endt <? start)) || (negb (start =? 0) && (endt <? 0)) then []
  else
    let start := if start <? 0 then 0 else start in
    let endt := if size <=? endt then size - 1 else endt in
    let endt := if (start =? 0) && (endt <? 0) then 0 else endt in
    take (Z.to_nat (endt - start + 1)) (drop (Z.to_nat start) v).

Definition Getrange (d : D) (key : bytes) (startoffset endoffset : Z) : option (Status * bytes * D) :=
  let? (s, value, d) := kget d key [] in
  if ok s then
    let p := parse value in
    if stale p then Some (NotFound (str "Stale") [], [], d)
    else let? p := Strings_StripSuffix p in Some (OK, range_of_value (ps_value p) startoffset endoffset, d)
  else Some (s, [], d).

Definition Strlen (d : D) (key : bytes) : option (Status * Z * D) :=
  let? (s, value, d) := Get d key in
  Some (s, if ok s then i32 (len value) else 0, d).

(** ** Expiry *)

Definition Expire (d : D) (key : bytes) (ttl : Z) : option (Status * D) :=
  let? (s, value, d) := kget d key [] in
  if ok s then
    let p := parse value in
    if stale p then Some (NotFound (str "Stale") [], d)
    else if 0 <? ttl then let? p := ParsedStrings_SetRelativeTimestamp now ttl p in kput d key (ps_value p)
    else kdelete d key
  else Some (s, d).

Definition Expireat (d : D) (key : bytes) (timestamp : Z) : option (Status * D) :=
  let? (s, value, d) := kget d key [] in
  if ok s then
    let p := parse value in
    if stale p then Some (NotFound (str "Stale") [], d)
    else if 0 <? timestamp then let? p := ParsedStrings_SetTimestamp timestamp p in kput d key (ps_value p)
    else kdelete d key
  else Some (s, d).

Definition Persist (d : D) (key : bytes) : option (Status * D) :=
  let? (s, value, d) := kget d key [] in
  if ok s then
    let p := parse value in
    if stale p then Some (NotFound (str "Stale") [], d)
    else if ps_timestamp p =? 0 then Some (NotFound (str "Not have an associated timeout") [], d)
    else let? p := ParsedStrings_SetTimestamp 0 p in kput d key (ps_value p)
  else Some (s, d).

Definition TTL (d : D) (key : bytes) (timestamp : Z) : option (Status * Z * D) :=
  let? (s, value, d) := kget d key [] in
  if ok s then
    let p := parse value in
    if stale p then Some (NotFound (str "Stale") [], -2, d)
    else if ps_timestamp p =? 0 then Some (s, -1, d)
    else Some (s, if 0 <=? ps_timestamp p - now then ps_timestamp p - now else -2, d)
  else Some (s, if IsNotFound s then -2 else timestamp, d).

(** ** Numbers *)

Definition add_overflows (ival value : Z) : bool :=
  ((0 <=? value) && (LLONG_MAX - value <? ival)) || ((value <? 0) && (ival <? LLONG_MIN - value)).

Definition Incrby (d : D) (key : bytes) (value ret : Z) : option (Status * Z * D) :=
  let? (s, oldvalue, d) := kget d key [] in
  if ok s then
    let p := parse oldvalue in
    if stale p then let? (s, d) := put_string d key (to_string value) 0 in Some (s, value, d)
    else
      let '(ival, end_) := strtoll (c_str (ps_uservalue p)) in
      match end_ with
      | _ :: _ => Some (Corruption (str "Value is not a integer") [], ret, d)
      | [] =>
          if add_overflows ival value then Some (InvalidArgument (str "Overflow") [], ret, d)
          else
            let? (s, d) := put_string d key (to_string (ival + value)) (ps_timestamp p) in
            Some (s, ival + value, d)
      end
  else if IsNotFound s then let? (s, d) := put_string d key (to_string value) 0 in Some (s, value, d)
  else Some (s, ret, d).

(** The overflow test is that of the sum, and a new key gets the value that was to be
    subtracted; the subtraction wraps around. *)
Definition Decrby (d : D) (key : bytes) (value ret : Z) : option (Status * Z * D) :=
  let? (s, oldvalue, d) := kget d key [] in
  if ok s then
    let p := parse oldvalue in
    if stale p then let? (s, d) := put_string d key (to_string value) 0 in Some (s, i64 (- value), d)
    else
      let '(ival, end_) := strtoll (c_str (ps_uservalue p)) in
      match end_ with
      | _ :: _ => Some (Corruption (str "Value is not a integer") [], ret, d)
      | [] =>
          if add_overflows ival value then Some (InvalidArgument (str "Overflow") [], ret, d)
          else
            let? (s, d) := put_string d key (to_string (i64 (ival - value))) (ps_timestamp p) in
            Some (s, i64 (ival - value), d)
      end
  else if IsNotFound s then let? (s, d) := put_string d key (to_string value) 0 in Some (s, i64 (- value), d)
  else Some (s, ret, d).

Definition Append (d : D) (key value : bytes) : option (Status * Z * D) :=
  let? (s, oldvalue, d) := kget d key [] in
  if ok s then
    let p := parse oldvalue in
    if stale p then let? (s, d) := put_string d key value 0 in Some (s, i32 (len value), d)
    else
      let newvalue := ps_uservalue p ++ value in
      let? (s, d) := put_string d key newvalue (ps_timestamp p) in Some (s, i32 (len newvalue), d)
  else if IsNotFound s then let? (s, d) := put_string d key value 0 in Some (s, i32 (len value), d)
  else Some (s, 0, d).

(** ** Counting bits *)

Definition bitsinbyte : list Z :=
  [0; 1; 1; 2; 1; 2; 2; 3; 1; 2; 2; 3; 2; 3; 3; 4;
   1; 2; 2; 3; 2; 3; 3; 4; 2; 3; 3; 4; 3; 4; 4; 5;
   1; 2; 2; 3; 2; 3; 3; 4; 2; 3; 3; 4; 3; 4; 4; 5;
   2; 3; 3; 4; 3; 4; 4; 5; 3; 4; 4; 5; 4; 5; 5; 6;
   1; 2; 2; 3; 2; 3; 3; 4; 2; 3; 3; 4; 3; 4; 4; 5;
   2; 3; 3; 4; 3; 4; 4; 5; 3; 4; 4; 5; 4; 5; 5; 6;
   2; 3; 3; 4; 3; 4; 4; 5; 3; 4; 4; 5; 4; 5; 5; 6;
   3; 4; 4; 5; 4; 5; 5; 6; 4; 5; 5; 6; 5; 6; 6; 7;
   1; 2; 2; 3; 2; 3; 3; 4; 2; 3; 3; 4; 3; 4; 4; 5;
   2; 3; 3; 4; 3; 4; 4; 5; 3; 4; 4; 5; 4; 5; 5; 6;
   2; 3; 3; 4; 3; 4; 4; 5; 3; 4; 4; 5; 4; 5; 5; 6;
   3; 4; 4; 5; 4; 5; 5; 6; 4; 5; 5; 6; 5; 6; 6; 7;
   2; 3; 3; 4; 3; 4; 4; 5; 3; 4; 4; 5; 4; 5; 5; 6;
   3; 4; 4; 5; 4; 5; 5; 6; 4; 5; 5; 6; 5; 6; 6; 7;
   3; 4; 4; 5; 4; 5; 5; 6; 4; 5; 5; 6; 5; 6; 6; 7;
   4; 5; 5; 6; 5; 6; 6; 7; 5; 6; 6; 7; 6; 7; 7; 8].

(** [GetBitCount] of the bytes it is given. *)
Fixpoint GetBitCount (value : bytes) (bitnum : Z) : Z :=
  match value with
  | [] => bitnum
  | b :: value => GetBitCount value (bitnum + nth (Z.to_nat (b2z b)) bitsinbyte 0)
  end.

(** The bytes counted: a value is followed by a NUL, which the whole of an empty value
    includes. *)
Definition counted (v : bytes) (startoffset endoffset : Z) (haverange : bool) : bytes :=
  let valuelength := len v in
  if haverange then
    let start := if startoffset <? 0 then startoffset + valuelength else startoffset in
    let endt := if endoffset <? 0 then endoffset + valuelength else endoffset in
    let start := if start <? 0 then 0 else start in
    let endt := if endt <? 0 then 0 else endt in
    let endt := if valuelength <=? endt then valuelength - 1 else endt in
    if endt <? start then [] else take (Z.to_nat (endt - start + 1)) (drop (Z.to_nat start) v)
  else take (Z.to_nat (Z.max (valuelength - 1) 0 + 1)) (v ++ [x00]).

Definition BitCount (d : D) (key : bytes) (startoffset endoffset : Z) (haverange : bool) : option (Status * Z * D) :=
  let? (s, value, d) := kget d key [] in
  if ok s then
    let p := parse value in
    if stale p then Some (NotFound (str "Stale") [], 0, d)
    else
      let? p := Strings_StripSuffix p in
      Some (OK, i32 (GetBitCount (counted (ps_value p) startoffset endoffset haverange) 0), d)
  else Some (s, 0, d).
End Strings.

(** ** What the store holds *)

(** Every key with its value and expiry time. *)
Abbreviation strings := (gmap bytes (bytes * Z)).

Definition string_fits (v : bytes) (t : Z) : Prop := len v + 4 < 2 ^ 32 /\ is_i32 t.

Definition rep (m : kvmap) (hs : strings) : Prop :=
  m = (fun e => string_raw e.1 e.2) <$> hs /\ map_Forall (fun _ e => string_fits e.1 e.2) hs.

Lemma srep_lookup m hs k : rep m hs -> m !! k = (fun e => string_raw e.1 e.2) <$> (hs !! k).
Proof. intros [-> _]. apply lookup_fmap. Qed.

Lemma srep_insert m hs k v t : rep m hs -> string_fits v t -> rep (<[k := string_raw v t]> m) (<[k := (v, t)]> hs).
Proof. intros [-> Hf] Hv. split; [by rewrite fmap_insert|]. by apply map_Forall_insert_2. Qed.

Lemma srep_delete m hs k : rep m hs -> rep (delete k m) (delete k hs).
Proof. intros [-> Hf]. split; [by rewrite fmap_delete|]. by apply map_Forall_delete. Qed.

(** ** The meaning of a command *)

Inductive StrCmd :=
  | SSet (k v : bytes) | SGet (k : bytes) | SSetxx (k v : bytes) (ttl : Z) | SGetSet (k v : bytes)
  | SSetBit (k : bytes) (offset bit : Z) | SGetBit (k : bytes) (offset : Z)
  | SSetnx (k v : bytes) (ttl : Z) | SSetvx (k v v' : bytes) (ttl : Z) | SDel (k : bytes) | SDelvx (k v : bytes)
  | SSetrange (k : bytes) (offset : Z) (v : bytes) | SGetrange (k : bytes) (first last : Z) | SStrlen (k : bytes)
  | SExpire (k : bytes) (ttl : Z) | SExpireat (k : bytes) (timestamp : Z) | SPersist (k : bytes) | STTL (k : bytes)
  | SIncrby (k : bytes) (n : Z) | SDecrby (k : bytes) (n : Z) | SAppend (k v : bytes)
  | SBitCount (k : bytes) (first last : Z) (haverange : bool).

Inductive StrReply := RS (s : Status) | RZ (s : Status) (n : Z) | RB (s : Status) (v : bytes).
Definition str_status (r : StrReply) : Status := match r with RS s | RZ s _ | RB s _ => s end.

(** What a command does to its key. *)
Inductive Change := Keep | Write (v : bytes) (t : Z) | Remove.

Definition string_key (c : StrCmd) : bytes :=
  match c with
  | SSet k _ | SGet k | SSetxx k _ _ | SGetSet k _ | SSetBit k _ _ | SGetBit k _ | SSetnx k _ _ | SSetvx k _ _ _
  | SDel k | SDelvx k _ | SSetrange k _ _ | SGetrange k _ _ | SStrlen k | SExpire k _ | SExpireat k _ | SPersist k
  | STTL k | SIncrby k _ | SDecrby k _ | SAppend k _ | SBitCount k _ _ _ => k
  end.

Section Meaning.
Context (now : Z).

(** A key is live until its expiry time has passed. *)
Definition live (e : option (bytes * Z)) : option (bytes * Z) :=
  match e with Some (v, t) => if IsStale now t then None else Some (v, t) | None => None end.

Definition gone (e : option (bytes * Z)) : Status :=
  match e with Some _ => NotFound (str "Stale") [] | None => NotFound [] [] end.

Definition number (v : bytes) : option Z :=
  match strtoll (c_str v) with (n, []) => Some n | (_, _ :: _) => None end.

Definition string_sem (c : StrCmd) (e : option (bytes * Z)) : option (StrReply * Change) :=
  let absent := gone e in
  let value := match live e with Some (v, _) => v | None => [] end in
  match c with
  | SSet _ v => Some (RS OK, Write v 0)
  | SGet _ => Some (match live e with Some (v, _) => RB OK v | None => RB absent [] end, Keep)
  | SSetxx _ v ttl =>
      Some (match live e with
            | Some _ => (RZ OK 1, Write v (ttl_time now ttl))
            | None => (RZ (match e with Some _ => OK | None => absent end) 0, Keep)
            end)
  | SGetSet _ v => Some (RB OK value, Write v 0)
  | SSetBit _ offset bit =>
      if offset <? 0 then Some (RZ (InvalidArgument (str "offset< 0") []) 0, Keep)
      else let? old := value_bit value offset in
           Some (RZ OK old, if old =? bit then Keep else Write (write_bit value offset bit) 0)
  | SGetBit _ offset =>
      let? n := match live e, e with Some (v, _), _ => value_bit v offset | None, Some _ => Some 0 | None, None => value_bit [] offset end in
      Some (RZ OK n, Keep)
  | SSetnx _ v ttl => Some (match live e with Some _ => (RZ OK 0, Keep) | None => (RZ OK 1, Write v (ttl_time now ttl)) end)
  | SSetvx _ v v' ttl =>
      Some (match live e with
            | Some (w, _) => if bool_decide (v = w) then (RZ OK 1, Write v' (ttl_time now ttl)) else (RZ OK (-1), Keep)
            | None => (RZ OK 0, Keep)
            end)
  | SDel _ => Some (match live e with Some _ => (RS OK, Remove) | None => (RS absent, Keep) end)
  | SDelvx _ v =>
      Some (match live e with
            | Some (w, _) => if bool_decide (v = w) then (RZ OK 1, Remove) else (RZ OK (-1), Keep)
            | None => (RZ absent 0, Keep)
            end)
  | SSetrange _ offset v =>
      if offset <? 0 then Some (RZ (InvalidArgument (str "offset< 0") []) 0, Keep)
      else
        let? w := match live e with
                  | Some (w, _) => range_written w offset v
                  | None => Some (replicate (Z.to_nat offset) x00 ++ c_str v)
                  end in
        Some (RZ OK (i32 (len w)), Write w 0)
  | SGetrange _ first last => Some (match live e with Some (v, _) => RB OK (range_of_value v first last) | None => RB absent [] end, Keep)
  | SStrlen _ => Some (match live e with Some (v, _) => RZ OK (i32 (len v)) | None => RZ absent 0 end, Keep)
  | SExpire _ ttl =>
      Some (match live e with
            | Some (v, _) => (RS OK, if 0 <? ttl then Write v (i32 (now + ttl)) else Remove)
            | None => (RS absent, Keep)
            end)
  | SExpireat _ t =>
      Some (match live e with
            | Some (v, _) => (RS OK, if 0 <? t then Write v t else Remove)
            | None => (RS absent, Keep)
            end)
  | SPersist _ =>
      Some (match live e with
            | Some (v, t) => if t =? 0 then (RS (NotFound (str "Not have an associated timeout") []), Keep) else (RS OK, Write v 0)
            | None => (RS absent, Keep)
            end)
  | STTL _ => Some (match live e with Some (_, t) => RZ OK (if t =? 0 then -1 else t - now) | None => RZ absent (-2) end, Keep)
  | SIncrby _ n =>
      Some (match live e with
            | Some (v, t) =>
                match number v with
                | None => (RZ (Corruption (str "Value is not a integer") []) 0, Keep)
                | Some i =>
                    if (LLONG_MIN <=? i + n) && (i + n <=? LLONG_MAX) then (RZ OK (i + n), Write (to_string (i + n)) t)
                    else (RZ (InvalidArgument (str "Overflow") []) 0, Keep)
                end
            | None => (RZ OK n, Write (to_string n) 0)
            end)
  | SDecrby _ n =>
      Some (match live e with
            | Some (v, t) =>
                match number v with
                | None => (RZ (Corruption (str "Value is not a integer") []) 0, Keep)
                | Some i =>
                    if (LLONG_MIN <=? i + n) && (i + n <=? LLONG_MAX) then (RZ OK (i64 (i - n)), Write (to_string (i64 (i - n))) t)
                    else (RZ (InvalidArgument (str "Overflow") []) 0, Keep)
                end
            | None => (RZ OK (i64 (- n)), Write (to_string n) 0)
            end)
  | SAppend _ v =>
      Some (match live e with
            | Some (w, t) => (RZ OK (i32 (len (w ++ v))), Write (w ++ v) t)
            | None => (RZ OK (i32 (len v)), Write v 0)
            end)
  | SBitCount _ first last r => Some (match live e with Some (v, _) => RZ OK (i32 (GetBitCount (counted v first last r) 0)) | None => RZ absent 0 end, Keep)
  end.
End Meaning.

Definition change_on (ch : Change) (k : bytes) (hs : strings) : strings :=
  match ch with Keep => hs | Write v t => <[k := (v, t)]> hs | Remove => delete k hs end.

Definition run_string {D} `{KVStore D} (now : Z) (d : D) (c : StrCmd) : option (StrReply * D) :=
  let z r := let? (s, n, d) := r : option (Status * Z * D) in Some (RZ s n, d) in
  let b r := let? (s, v, d) := r : option (Status * bytes * D) in Some (RB s v, d) in
  let st r := let? (s, d) := r : option (Status * D) in Some (RS s, d) in
  match c with
  | SSet k v => st (Set_ d k v)
  | SGet k => b (Get now d k)
  | SSetxx k v ttl => z (Setxx now d k v ttl 0)
  | SGetSet k v => b (GetSet now d k v [])
  | SSetBit k offset bit => z (SetBit now d k offset bit 0)
  | SGetBit k offset => z (GetBit now d k offset 0)
  | SSetnx k v ttl => z (Setnx now d k v ttl)
  | SSetvx k v v' ttl => z (Setvx now d k v v' ttl)
  | SDel k => st (Del now d k)
  | SDelvx k v => z (Delvx now d k v)
  | SSetrange k offset v => z (Setrange now d k offset v 0)
  | SGetrange k first last => b (Getrange now d k first last)
  | SStrlen k => z (Strlen now d k)
  | SExpire k ttl => st (Expire now d k ttl)
  | SExpireat k t => st (Expireat now d k t)
  | SPersist k => st (Persist now d k)
  | STTL k => z (TTL now d k (-2))
  | SIncrby k n => z (Incrby now d k n 0)
  | SDecrby k n => z (Decrby now d k n 0)
  | SAppend k v => z (Append now d k v)
  | SBitCount k first last r => z (BitCount now d k first last r)
  end.

(** ** Reading and writing one key *)

Lemma Strings_Encode_raw v t : Strings_Encode (Strings_SetTimestamp t (StringsMetaValue_make v)) = string_raw v t.
Proof. done. Qed.

Lemma ttl_time_i32 now ttl : is_i32 (ttl_time now ttl).
Proof. unfold ttl_time. destruct (0 <? ttl); [apply i32_range|]. unfold is_i32. lia. Qed.

Section Access.
Context {D : Type} `{KVStoreOk D c short_key holds held}.
#[local] Hint Extern 0 (held _ _) => (eapply kholds_held; eassumption) : core.

(** What is known after a write: it is done, or nothing changed. *)
Definition wrote (st : Status) (d : D) (hs hs' : strings) : Prop :=
  exists m, held d m /\ ((st = OK /\ rep m hs') \/ (failed st /\ rep m hs)).

Lemma read_string d m hs k value : holds d m -> rep m hs -> short_key k ->
  exists st raw d', kget d k value = Some (st, raw, d') /\ holds d' m /\
    (failed st \/
     match hs !! k with
     | Some (v, t) => st = OK /\ raw = string_raw v t /\ is_i32 t
     | None => st = NotFound [] [] /\ raw = value
     end).
Proof.
  intros Hh Hr Hk0. destruct (kget_ok d m k value Hh Hk0) as (st & raw & d' & -> & Hh' & Hm). eexists _, _, _.
  split; [done|]. split; [done|]. destruct Hm as [Hf|Hm]; [by left|right]. rewrite (srep_lookup m hs k Hr) in Hm.
  destruct (hs !! k) as [[v t]|] eqn:Hk; [|done]. destruct Hm as [-> ->]. split; [done|]. split; [done|].
  destruct Hr as [_ Hf]. by apply (Hf k (v, t) Hk).
Qed.

Lemma put_raw d m hs k v t : holds d m -> rep m hs -> short_key k -> string_fits v t ->
  exists st d', kput d k (string_raw v t) = Some (st, d') /\ wrote st d' hs (<[k := (v, t)]> hs).
Proof.
  intros Hh Hr Hk Hv. pose proof Hk as Hk0. unfold short_key in Hk0. destruct (kwrite_ok d m [OpPut k (string_raw v t)] Hh) as (st & d' & Hw & Hm).
  - split; [|cbn; lia]. apply Forall_singleton. destruct Hv. split; [cbn; lia|]. rewrite length_string_raw. lia.
  - by apply Forall_singleton.
  - exists st, d'. split; [done|]. destruct Hm as [[-> Hm]|[Hf Hm]]; eexists; (split; [done|]); [left|by right].
    split; [done|]. by apply srep_insert.
Qed.

Lemma delete_string d m hs k : holds d m -> rep m hs -> short_key k ->
  exists st d', kdelete d k = Some (st, d') /\ wrote st d' hs (delete k hs).
Proof.
  intros Hh Hr Hk. pose proof Hk as Hk0. unfold short_key in Hk0. destruct (kwrite_ok d m [OpDelete k] Hh) as (st & d' & Hw & Hm).
  - split; [|cbn; lia]. by apply Forall_singleton.
  - by apply Forall_singleton.
  - exists st, d'. split; [done|]. destruct Hm as [[-> Hm]|[Hf Hm]]; eexists; (split; [done|]); [left|by right].
    split; [done|]. by apply srep_delete.
Qed.
End Access.

(** ** A command does what it means *)

Section Refine.
Context {D : Type} `{KVStoreOk D c short_key holds held} (now : Z).
#[local] Hint Extern 0 (held _ _) => (eapply kholds_held; eassumption) : core.

(** The command is done and returned [r], or it reports a failure of the database and
    nothing changed. *)
Definition answered (res : option (StrReply * D)) (hs : strings) (k : bytes) (r : StrReply) (ch : Change) : Prop :=
  exists r' d' m' hs', res = Some (r', d') /\ held d' m' /\ rep m' hs' /\
    ((r' = r /\ hs' = change_on ch k hs) \/ (failed (str_status r') /\ hs' = hs)).

Definition change_fits (ch : Change) : Prop := match ch with Write v t => string_fits v t | _ => True end.

Lemma answered_keep d m hs k r : held d m -> rep m hs -> answered (Some (r, d)) hs k r Keep.
Proof. intros Hh Hr. eexists _, _, _, _. do 3 (split; [done|]). by left. Qed.

Lemma answered_fail d m hs k r r' ch : held d m -> rep m hs -> failed (str_status r') -> answered (Some (r', d)) hs k r ch.
Proof. intros Hh Hr Hf. eexists _, _, _, _. do 3 (split; [done|]). by right. Qed.

Lemma answered_done d m hs k r ch : held d m -> rep m (change_on ch k hs) -> answered (Some (r, d)) hs k r ch.
Proof. intros Hh Hr. eexists _, _, _, _. do 3 (split; [done|]). by left. Qed.

Lemma strtoll_range s : is_i64 (strtoll s).1.
Proof.
  unfold strtoll. repeat case_match; simplify_eq; cbn; unfold LLONG_MIN, LLONG_MAX in *; try lia.
Qed.

Lemma compare_eq_decide a b : bool_decide (compare a b = Eq) = bool_decide (a = b).
Proof. apply bool_decide_ext, compare_eq. Qed.

Lemma add_overflows_spec i n : is_i64 i -> is_i64 n ->
  add_overflows i n = negb ((LLONG_MIN <=? i + n) && (i + n <=? LLONG_MAX)).
Proof.
  unfold add_overflows, LLONG_MIN, LLONG_MAX. intros Hi Hn.
  destruct (Z.leb_spec 0 n), (Z.ltb_spec n 0); try lia; cbn [andb orb];
    repeat match goal with |- context [?a <? ?b] => destruct (Z.ltb_spec a b) | |- context [?a <=? ?b] => destruct (Z.leb_spec a b) end;
    try done; lia.
Qed.


Lemma put_value d m hs k v t : holds d m -> rep m hs -> short_key k -> string_fits v t ->
  exists st d', put_string d k v t = Some (st, d') /\ wrote (held := held) st d' hs (<[k := (v, t)]> hs).
Proof. exact (put_raw d m hs k v t). Qed.

(** The branches on the status of the read, and on the conditions of both sides. *)
Ltac branch :=
  change (ok OK) with true in *; change (ok (NotFound [] [])) with false in *;
  change (IsNotFound (NotFound [] [])) with true in *; cbn [andb orb negb ps_value ps_timestamp ps_uservalue] in *;
  cbv beta iota in *.
Ltac failure Hf := destruct Hf as [Hfo Hfn]; rewrite ?Hfo, ?Hfn; cbn [andb orb negb]; eapply answered_fail; [done..|by split].

Ltac change_with lem :=
  let st := fresh "st" in let Hw := fresh "Hw" in
  destruct lem as (st & ? & -> & Hw); [done..|];
  destruct Hw as (? & ? & [[-> ?]|[[Hfo Hfn] ?]]); rewrite ?Hfo; branch;
  [eapply answered_done; done|eapply answered_fail; [done..|by split]].

Ltac settle d m hs Hsem :=
  branch;
  match type of Hsem with Some (_, _) = Some (_, _) => injection Hsem as <- <- | _ => idtac end;
  match goal with
  | |- answered (Some (_, _)) _ _ _ _ => apply (answered_keep _ m); done
  | |- answered _ _ ?k _ (Write ?v ?t) =>
      first [change_with (put_value d m hs k v t)|change_with (put_raw d m hs k v t)]
  | |- answered _ _ ?k _ Remove => change_with (delete_string d m hs k)
  end.

Ltac split_if :=
  match goal with |- context [if ?b then _ else _] => lazymatch type of b with bool => destruct b eqn:? end end.

Definition arg_ok (cmd : StrCmd) : Prop := match cmd with SIncrby _ n | SDecrby _ n => is_i64 n | _ => True end.

Lemma string_cmd_ok d m hs cmd r ch : holds d m -> rep m hs -> short_key (string_key cmd) -> arg_ok cmd -> change_fits ch ->
  string_sem now cmd (hs !! string_key cmd) = Some (r, ch) -> answered (run_string now d cmd) hs (string_key cmd) r ch.
Proof.
  intros Hh Hr Hk Harg Hfit Hsem. destruct cmd; cbn [string_key run_string string_sem arg_ok] in *;
   unfold Set_, Get, Setxx, GetSet, SetBit, GetBit, Setnx, Setvx, Del, Delvx, Setrange, Getrange, Strlen, Get, Expire, Expireat, Persist,
     TTL, Incrby, Decrby, Append, BitCount, ParsedStrings_SetRelativeTimestamp.
  1: settle d m hs Hsem.
  all: try (match type of Hsem with (if ?b then _ else _) = _ => destruct b eqn:? end; [settle d m hs Hsem|]).
  all: destruct (read_string d m hs k [] Hh Hr Hk) as (st & raw & d' & Hg & Hh' & [Hf|Hst]); rewrite ?Hg.
  all: match goal with Hf : failed _ |- _ => try (failure Hf) | _ => idtac end.
  all: destruct (hs !! k) as [[v0 t0]|] eqn:Hs; unfold live, gone, number in Hsem;
    [destruct Hst as (-> & -> & Ht); rewrite ?Strings_parse by done|destruct Hst as [-> ->]].
  all: branch.
  all: try destruct (IsStale now t0) eqn:Hst0; branch.
  all: rewrite ?Strings_strip, ?Strings_set_time, ?compare_eq_decide; branch; rewrite ?Hst0.
  all: try (settle d' m hs Hsem).
  all: try (match type of Hsem with (let? _ := ?x in _) = _ => destruct x as [x'|] eqn:Hx; [|done] end; branch).
  all: try (match type of Hsem with context [if ?b then _ else _] => destruct b eqn:Hb end).
  all: try (settle d' m hs Hsem).
  - rewrite (proj2 (Z.leb_le 0 (t0 - now))); [settle d' m hs Hsem|]. unfold IsStale in Hst0. rewrite Hb in Hst0. lia.
  - pose proof (strtoll_range (c_str v0)) as Hi. destruct (strtoll (c_str v0)) as [i [|b rest]]; [|settle d' m hs Hsem].
    rewrite add_overflows_spec by done. destruct (_ && _); settle d' m hs Hsem.
  - pose proof (strtoll_range (c_str v0)) as Hi. destruct (strtoll (c_str v0)) as [i [|b rest]]; [|settle d' m hs Hsem].
    rewrite add_overflows_spec by done. destruct (_ && _); settle d' m hs Hsem.
Qed.


(** ** Several keys *)

Definition strings_on (kvs : list (bytes * bytes)) (hs : strings) : strings :=
  fold_left (fun hs kv => <[kv.1 := (kv.2, 0)]> hs) kvs hs.

Definition kv_fits (kv : bytes * bytes) : Prop := short_key kv.1 /\ len kv.2 + 4 < 2 ^ 32.

(** What [MGet] says of a key. *)
Definition value_of (e : option (bytes * Z)) : bytes * Status :=
  match live now e, e with
  | Some (v, _), _ => (v, OK)
  | None, Some _ => ([], NotFound (str "Stale") [])
  | None, None => ([], NotFound (str " ") [])
  end.

Lemma rep_strings_on kvs : Forall kv_fits kvs -> forall m hs, rep m hs ->
  rep (ops_on (map (fun kv => OpPut kv.1 (Strings_Encode (StringsMetaValue_make kv.2))) kvs) m) (strings_on kvs hs).
Proof.
  intros Hf. induction Hf as [|kv kvs [_ Hv] Hf IH]; intros m hs Hr; [done|]. apply IH, srep_insert; [done|].
  split; [done|]. unfold is_i32. lia.
Qed.

Lemma MSet_ok d m hs kvs : holds d m -> rep m hs -> Forall kv_fits kvs -> len kvs < 2 ^ 31 ->
  exists st d', MSet d kvs = Some (st, d') /\ wrote (held := held) st d' hs (strings_on kvs hs).
Proof.
  intros Hh Hr Hf Hl.
  destruct (kwrite_ok d m (map (fun kv => OpPut kv.1 (Strings_Encode (StringsMetaValue_make kv.2))) kvs) Hh) as (st & d' & Hw & Hm).
  - split; [|by rewrite length_map]. apply Forall_map. eapply Forall_impl; [exact Hf|]. intros kv [Hk Hv]. unfold short_key in Hk. split; [cbn; lia|].
    change (len (string_raw kv.2 0) < 2 ^ 32). rewrite length_string_raw. lia.
  - apply Forall_map. eapply Forall_impl; [exact Hf|]. intros kv [Hk _]. exact Hk.
  - exists st, d'. split; [done|]. destruct Hm as [[-> Hm]|[Hfl Hm]]; eexists; (split; [done|]); [left|by right].
    split; [done|]. by apply rep_strings_on.
Qed.

Lemma MGet_loop_ok m hs keys : rep m hs -> Forall short_key keys -> forall d value vss, holds d m ->
  exists st res d', MGet_loop now d keys value vss = Some (st, res, d') /\ holds d' m /\
    ((st = OK /\ res = vss ++ map (fun k => value_of (hs !! k)) keys) \/ (failed st /\ res = [])).
Proof.
  intros Hr Hks. induction Hks as [|k keys Hk _ IH]; intros d value vss Hh.
  - eexists _, _, _. split; [done|]. split; [done|]. left. by rewrite app_nil_r.
  - cbn [MGet_loop map]. destruct (read_string d m hs k value Hh Hr Hk) as (st & raw & d' & -> & Hh' & [[Hfo Hfn]|Hst]); [rewrite Hfo, Hfn|].
    { eexists _, _, _. split; [done|]. split; [done|]. by right. }
    destruct (hs !! k) as [[v t]|] eqn:Hs; [destruct Hst as (-> & -> & Ht); rewrite Strings_parse by done|destruct Hst as [-> ->]]; branch;
      unfold value_of, live; [destruct (IsStale now t)|]; rewrite (cons_middle _ vss) || idtac;
      match goal with |- context [MGet_loop _ _ _ ?x (vss ++ ?y)] => destruct (IH d' x (vss ++ y) Hh') as (st & res & d2 & -> & Hh2 & Ho) end;
      eexists _, _, _; (split; [done|]); (split; [done|]); by rewrite <- app_assoc in Ho.
Qed.

(** Whether one of the keys is live. *)
Definition some_live (hs : strings) (kvs : list (bytes * bytes)) : bool := existsb (fun kv => bool_decide (is_Some (live now (hs !! kv.1)))) kvs.

Lemma MSetnx_loop_ok m hs kvs : rep m hs -> Forall kv_fits kvs -> forall d st value, holds d m ->
  exists b st' d', MSetnx_loop now d kvs st value = Some (b, st', d') /\ holds d' m /\
    (b = some_live hs kvs \/ exists kv d1 st1 raw d2 value', kv ∈ kvs /\ kget d1 kv.1 value' = Some (st1, raw, d2) /\ failed st1).
Proof.
  intros Hr Hks. induction Hks as [|kv kvs [Hk _] _ IH]; intros d st value Hh.
  - eexists _, _, _. split; [done|]. split; [done|]. by left.
  - cbn [MSetnx_loop some_live existsb]. destruct (read_string d m hs kv.1 value Hh Hr Hk) as (st' & raw & d' & Hg & Hh' & Hst). rewrite Hg.
    destruct (IH d' st' raw Hh') as (b & st2 & d2 & Hrun & Hh2 & Ho). fold (some_live hs kvs).
    assert (b = some_live hs kvs \/ exists kv' d1 st1 raw d2 value', kv' ∈ kv :: kvs /\ kget d1 kv'.1 value' = Some (st1, raw, d2) /\ failed st1) as Ho'.
    { destruct Ho as [Ho|(kv' & d1 & st1 & raw1 & d3 & v1 & Hin & Hx)]; [by left|right]. exists kv', d1, st1, raw1, d3, v1. split; [by right|done]. }
    destruct Hst as [[Hfo Hfn]|Hst].
    { rewrite Hfo. cbn [andb]. rewrite Hrun. eexists _, _, _. split; [done|]. split; [done|]. right.
      exists kv, d, st', raw, d', value. split; [by left|]. by split. }
    destruct (hs !! kv.1) as [[v t]|] eqn:Hs; [destruct Hst as (-> & -> & Ht); rewrite Strings_parse by done|destruct Hst as [-> ->]];
      branch; unfold live; [destruct (IsStale now t)|]; branch; rewrite ?Hrun;
      eexists _, _, _; (split; [done|]); (split; [done|]); try done. by left.
Qed.

(** the commands on several keys: [MSet] writes all the values in one batch, so all or none of them; [MGet] answers
    each key as [Get] would, in order, or reports the failed read and gives nothing; [MSetnx] writes all the values
    when none of its keys is live, and nothing otherwise, unless one of its reads failed. *)
Theorem redis_strings_together d m hs kvs keys : holds d m -> rep m hs -> Forall kv_fits kvs -> len kvs < 2 ^ 31 -> Forall short_key keys ->
  (exists st d', MSet d kvs = Some (st, d') /\ wrote (held := held) st d' hs (strings_on kvs hs)) /\
  (exists st res d', MGet now d keys = Some (st, res, d') /\ holds d' m /\
    ((st = OK /\ res = map (fun k => value_of (hs !! k)) keys) \/ (failed st /\ res = []))) /\
  (exists st n d', MSetnx now d kvs = Some (st, n, d') /\
    ((n = 0 /\ some_live hs kvs = true /\ holds d' m) \/
     (some_live hs kvs = false /\ wrote (held := held) st d' hs (strings_on kvs hs) /\ n = if ok st then 1 else 0) \/
     exists kv d1 st1 raw d2 value, kv ∈ kvs /\ kget d1 kv.1 value = Some (st1, raw, d2) /\ failed st1)).
Proof.
  intros Hh Hr Hf Hl Hks. split; [by apply (MSet_ok d m)|]. split; [by apply (MGet_loop_ok m hs keys Hr Hks d [] [])|].
  unfold MSetnx. destruct (MSetnx_loop_ok m hs kvs Hr Hf d OK [] Hh) as (b & st & d' & -> & Hh' & Ho). destruct b.
  - eexists _, _, _. split; [done|]. destruct Ho as [Ho|Ho]; [left|by right; right]. by symmetry in Ho.
  - destruct (MSet_ok d' m hs kvs Hh' Hr Hf Hl) as (st' & d2 & -> & Hw). eexists _, _, _. split; [done|].
    right. destruct Ho as [Ho|Ho]; [left|by right]. by symmetry in Ho.
Qed.
End Refine.

(** ** Concrete strings *)

#[local] Instance string_store : KVStore kvmap := map_store BytewiseComparatorImpl.

#[local] Instance string_store_ok : KVStoreOk kvmap BytewiseComparatorImpl short_key (map_holds short_key) (map_holds short_key).
Proof. apply (map_store_ok BytewiseComparatorImpl (fun _ => True) short_key); [by intros|]. intros a b _ _. apply compare_eq. Qed.

Definition demo_map : kvmap := {[ str "n" := string_raw (str "41") 0 ]}.
Definition demo_strings : strings := {[ str "n" := (str "41", 0) ]}.

Lemma demo_rep : map_holds short_key demo_map demo_map /\ rep demo_map demo_strings.
Proof.
  split; [split; [done|]; unfold demo_map; apply map_Forall_singleton; by vm_compute|]. split; [unfold demo_map, demo_strings; by rewrite map_fmap_singleton|].
  intros k [v t] Hk. unfold demo_strings in Hk. apply lookup_singleton_Some in Hk as [_ [= <- <-]]. split; [by vm_compute|]. cbn. unfold is_i32. lia.
Qed.


Lemma redis_strings_together_witness : exists d', MSet demo_map [(str "n", str "1"); (str "k", str "2")] = Some (OK, d') /\
  exists m', map_holds short_key d' m' /\ rep m' (strings_on [(str "n", str "1"); (str "k", str "2")] demo_strings).
Proof.
  destruct (redis_strings_together (holds := map_holds short_key) (held := map_holds short_key) 1700000000 demo_map demo_map demo_strings
    [(str "n", str "1"); (str "k", str "2")] []) as [(st & d' & Hrun & m' & Hh & Hw) _].
  - apply demo_rep.
  - apply demo_rep.
  - repeat constructor; vm_compute; reflexivity.
  - vm_compute. reflexivity.
  - constructor.
  - exists d'. assert (fst <$> MSet demo_map [(str "n", str "1"); (str "k", str "2")] = Some OK) as Hc by (vm_compute; reflexivity).
    rewrite Hrun in Hc. injection Hc as ->. split; [exact Hrun|]. exists m'. split; [exact Hh|].
    destruct Hw as [[_ Hw]|[[Hf _] _]]; [exact Hw|discriminate Hf].
Defined.
