(* ===== verification/RedisKeys.v ===== *)
(** The keys of the database of strings: [ScanKeys], [ScanKeyNum] and the incremental
    [Scan] of redisdb/db/redistring.cc, whose cursor is the next key.

    A scan holds a snapshot, so it is one walk over the entries as they are. *)
From Stdlib Require Import Sorted.
From stdpp Require Import gmap sorting sets.
From S2P Require Import Prelude Coding Status DbFormat WriteBatch Serialize Glob KvStore RedisString.
Local Open Scope Z_scope.

(** [KeyInfo] (redisdb/db/redis.h). *)
Record KeyInfo := MkKeyInfo { ki_keys : Z; ki_expires : Z; ki_avgttl : Z; ki_invaildkeys : Z }.

Section Keys.
Context {D : Type} `{KVStore D} (now : Z).

Definition entry_time (e : bytes * bytes) : Z := ps_timestamp (ParsedStringsMetaValue_make false e.2).

(** The counts of the loop: live keys with an expiry time, the sum of their times to live,
    stale keys. *)
Definition key_num_step (n : Z * Z * Z) (e : bytes * bytes) : Z * Z * Z :=
  let '(expires, ttlsum, invaildkeys) := n in
  if IsStale now (entry_time e) then (expires, ttlsum, u64 (invaildkeys + 1))
  else if IsPermanentSurvival (entry_time e) then n
  else (u64 (expires + 1), u64 (ttlsum + (entry_time e - now)), invaildkeys).

(** [keys] is never counted. *)
Definition ScanKeyNum (d : D) : option (Status * KeyInfo) :=
  let? (es, _) := kentries d None in
  let '(expires, ttlsum, invaildkeys) := fold_left key_num_step es (0, 0, 0) in
  Some (OK, MkKeyInfo 0 expires (if expires =? 0 then 0 else ttlsum / expires) invaildkeys).

Fixpoint scan_keys_loop (pattern : bytes) (es : list (bytes * bytes)) (keys : list bytes) : option (list bytes) :=
  match es with
  | [] => Some keys
  | e :: es =>
      if IsStale now (entry_time e) then scan_keys_loop pattern es keys
      else
        let? m := StringMatchLen pattern e.1 false in
        scan_keys_loop pattern es (if m : bool then keys ++ [e.1] else keys)
  end.

Definition ScanKeys (d : D) (pattern : bytes) (keys : list bytes) : option (Status * list bytes) :=
  let? (es, _) := kentries d None in
  let? keys := scan_keys_loop pattern es keys in Some (OK, keys).

(** The loop of [Scan]: the entries that are left, the keys found and the rest of [*count]. *)
Fixpoint scan_loop (pattern : bytes) (es : list (bytes * bytes)) (keys : list bytes) (count : Z)
    : option (list (bytes * bytes) * list bytes * Z) :=
  match es with
  | [] => Some ([], keys, count)
  | e :: es' =>
      if 0 <? count then
        if IsStale now (entry_time e) then scan_loop pattern es' keys count
        else
          let? m := StringMatchLen pattern e.1 false in
          scan_loop pattern es' (if m : bool then keys ++ [e.1] else keys) (count - 1)
      else Some (es, keys, count)
  end.

(** Whether the scan is finished, the keys, the rest of [*count] and the next key. *)
Definition Scan (d : D) (startkey pattern : bytes) (keys : list bytes) (count : Z) : option (bool * list bytes * Z * bytes) :=
  let? (es, _) := kentries d (Some startkey) in
  let? (rest, keys, count) := scan_loop pattern es keys count in
  let prefix := if IsTailWildcard pattern then removelast pattern else [] in
  match rest with
  | e :: _ =>
      if negb (bool_decide (compare e.1 prefix = Gt)) || StartsWith e.1 prefix then Some (false, keys, count, e.1)
      else Some (true, keys, count, [])
  | [] => Some (true, keys, count, [])
  end.

(** A client that scans [count] keys at a time until it is told that there are no more. *)
Fixpoint scan_all (fuel : nat) (d : D) (startkey pattern : bytes) (count : Z) : option (list bytes) :=
  match fuel with
  | O => None
  | S fuel =>
      let? (finished, keys, _, nextkey) := Scan d startkey pattern [] count in
      if finished : bool then Some keys
      else let? more := scan_all fuel d nextkey pattern count in Some (keys ++ more)
  end.

(** ** What a scan finds *)

Definition picks (pattern : bytes) (e : bytes * bytes) : Prop :=
  IsStale now (entry_time e) = false /\ StringMatchLen pattern e.1 false = Some true.

#[export] Instance picks_dec pattern e : Decision (picks pattern e).
Proof. unfold picks. apply _. Defined.

Abbreviation found pattern es := (map fst (filter (picks pattern) es)).

(** The matcher answers for every key. *)
Definition answered (pattern : bytes) (es : list (bytes * bytes)) : Prop := Forall (fun e => is_Some (StringMatchLen pattern e.1 false)) es.

Lemma scan_keys_loop_ok pattern es : answered pattern es -> forall keys, scan_keys_loop pattern es keys = Some (keys ++ found pattern es).
Proof.
  induction 1 as [|e es [m Hm] _ IH]; intros keys; cbn [scan_keys_loop]; [by rewrite app_nil_r|].
  destruct (IsStale now (entry_time e)) eqn:Hs; [by rewrite filter_cons_False by (intros [Hf _]; by rewrite Hs in Hf)|].
  rewrite Hm. cbn [mbind option_bind]. rewrite IH. destruct m.
  - rewrite filter_cons_True by done. cbn [map]. by rewrite <- app_assoc.
  - rewrite filter_cons_False; [done|]. intros [_ Hf]. by rewrite Hm in Hf.
Qed.

Lemma scan_loop_ok pattern es : answered pattern es -> forall keys count,
  exists taken rest count', scan_loop pattern es keys count = Some (rest, keys ++ found pattern taken, count') /\ es = taken ++ rest /\
    (0 < count -> es <> [] -> taken <> []).
Proof.
  induction 1 as [|e es [m Hm] _ IH]; intros keys count; cbn [scan_loop].
  { exists [], [], count. by rewrite app_nil_r. }
  destruct (Z.ltb_spec 0 count) as [Hc|Hc].
  - destruct (IsStale now (entry_time e)) eqn:Hs.
    + destruct (IH keys count) as (taken & rest & count' & -> & -> & _). exists (e :: taken), rest, count'. rewrite filter_cons_False by (intros [Hf _]; by rewrite Hs in Hf).
      by split_and!.
    + rewrite Hm. cbn [mbind option_bind]. destruct (IH (if m then keys ++ [e.1] else keys) (count - 1)) as (taken & rest & count' & -> & -> & _).
      exists (e :: taken), rest, count'. split; [|by split]. do 3 f_equal. destruct m.
      * rewrite filter_cons_True by done. cbn [map]. by rewrite <- app_assoc.
      * rewrite filter_cons_False; [done|]. intros [_ Hf]. by rewrite Hm in Hf.
  - exists [], (e :: es), count. rewrite app_nil_r. split_and!; [done..|lia].
Qed.

Lemma seek_there es1 e es2 : StronglySorted entry_lt (es1 ++ e :: es2) -> seek_from BytewiseComparatorImpl e.1 (es1 ++ e :: es2) = e :: es2.
Proof.
  induction es1 as [|x es1 IH]; cbn [app seek_from]; intros Hs.
  - rewrite bool_decide_eq_false_2; [done|]. change (compare e.1 e.1 <> Lt). by rewrite compare_refl.
  - apply StronglySorted_cons in Hs as [Hx Hs]. rewrite bool_decide_eq_true_2; [by apply IH|]. rewrite Forall_forall in Hx. apply Hx.
    apply elem_of_app. right. left.
Qed.

Lemma seek_all es : seek_from BytewiseComparatorImpl [] es = es.
Proof. destruct es as [|e es]; [done|]. cbn [seek_from]. rewrite bool_decide_eq_false_2; [done|]. exact (compare_app_ge [] e.1). Qed.

Abbreviation prefix_of pattern := (if IsTailWildcard pattern then removelast pattern else []).

Lemma compare_nil_gt k : compare k [] = Gt <-> k <> [].
Proof. by destruct k. Qed.

(** Past the prefix of a tail wildcard there are no more matches. *)
Lemma past_prefix pattern e es x : (IsTailWildcard pattern = true -> Forall (fun b => is_backslash b = false) pattern) ->
  StronglySorted entry_lt (e :: es) -> compare e.1 (prefix_of pattern) = Gt -> StartsWith e.1 (prefix_of pattern) = false ->
  x ∈ e :: es -> StringMatchLen pattern x.1 false <> Some true.
Proof.
  intros Hb Hs Hgt Hst Hx Hm. assert (forall d, e.1 <> prefix_of pattern ++ d) as Hno.
  { intros d Hd. assert (StartsWith e.1 (prefix_of pattern) = true) as Ht by (apply StartsWith_spec; by exists d). by rewrite Ht in Hst. }
  assert (e = x \/ compare e.1 x.1 = Lt) as Hex.
  { apply elem_of_cons in Hx as [->|Hx]; [by left|right]. apply StronglySorted_cons in Hs as [Hall _]. rewrite Forall_forall in Hall. by apply Hall. }
  assert (exists d, x.1 = prefix_of pattern ++ d) as [d Hd].
  { destruct (IsTailWildcard pattern) eqn:Ht; [|by exists x.1]. destruct (glob_match false pattern x.1) as (b & Hm' & Hg).
    - left. intros Hn. rewrite Hn in Hex. destruct Hex as [->|Hlt]; [rewrite Hn in Hgt; by destruct (removelast pattern)|by destruct e.1].
    - rewrite Hm in Hm'. injection Hm' as <-. rewrite tail_wildcard in Hg by auto. by apply glob_prefix, Hg. }
  destruct Hex as [->|Hlt]; [by apply (Hno d)|]. rewrite Hd in Hlt. apply between_prefix in Hlt as [d' Hd']; [|by rewrite Hgt]. by apply (Hno d').
Qed.

Lemma scan_all_ok pattern d es count : (forall start, start = [] \/ (exists v, (start, v) ∈ es) ->
    exists st, kentries d (Some start) = Some (seek_from BytewiseComparatorImpl start es, st)) -> StronglySorted entry_lt es -> answered pattern es -> 0 < count ->
  (IsTailWildcard pattern = true -> Forall (fun b => is_backslash b = false) pattern) ->
  forall fuel es1 es2 start, (start = [] \/ exists v, (start, v) ∈ es) -> es = es1 ++ es2 -> seek_from BytewiseComparatorImpl start es = es2 -> (length es2 < fuel)%nat ->
  scan_all fuel d start pattern count = Some (found pattern es2).
Proof.
  intros Hes Hs Ha Hc Hb fuel. induction fuel as [|fuel IH]; intros es1 es2 start Hst0 Heq Hseek Hf; [lia|]. cbn [scan_all]. unfold Scan.
  destruct (Hes start Hst0) as [st0 ->]. rewrite Hseek.
  cbn [mbind option_bind]. assert (answered pattern es2) as Ha2 by (rewrite Heq in Ha; by apply Forall_app in Ha as [_ ?]).
  destruct (scan_loop_ok pattern es2 Ha2 [] count) as (taken & rest & count' & -> & Hsplit & Hprog). cbn [mbind option_bind app].
  destruct rest as [|e rest]; [by rewrite Hsplit, app_nil_r|]. rewrite Hsplit, filter_app, map_app.
  assert (StronglySorted entry_lt (e :: rest)) as Hse by (rewrite Heq, Hsplit, app_assoc in Hs; by apply StronglySorted_app_1_r in Hs).
  destruct (negb _ || _) eqn:Hgo; cbn [mbind option_bind].
  - rewrite (IH (es1 ++ taken) (e :: rest) e.1); [done| |by rewrite Heq, Hsplit, app_assoc| |].
    + right. exists e.2. rewrite Heq, Hsplit, !elem_of_app. right. right. destruct e. by left.
    + rewrite Heq, Hsplit, app_assoc. apply seek_there. by rewrite <- app_assoc, <- Hsplit, <- Heq.
    + assert (taken <> []) as Hne by (apply Hprog; [done|]; rewrite Hsplit; by destruct taken).
      rewrite Hsplit, length_app in Hf. destruct taken; [done|]. cbn [length] in *. lia.
  - apply orb_false_iff in Hgo as [Hgt%negb_false_iff%bool_decide_eq_true Hst]. rewrite (filter_none _ (e :: rest)); [by rewrite app_nil_r|].
    apply Forall_forall. intros x Hx [_ Hm]. by apply (past_prefix pattern e rest x).
Qed.
End Keys.

(** ** The keys of the strings *)

Section Strings.
Context {D : Type} `{KVStoreSteady D BytewiseComparatorImpl short_key holds held} (now : Z).

(** The key is there and its expiry time has not passed. *)
Definition live_key (hs : strings) (k : bytes) : Prop := is_Some (live now (hs !! k)).

Lemma shown_live m hs (es : list (bytes * bytes)) : rep m hs -> (forall k v, (k, v) ∈ es <-> m !! k = Some v) ->
  forall k, live_key hs k <-> exists v, (k, v) ∈ es /\ IsStale now (entry_time (k, v)) = false.
Proof.
  intros Hr Hes k. unfold live_key. setoid_rewrite Hes. setoid_rewrite (srep_lookup m hs k Hr). destruct (hs !! k) as [[v t]|] eqn:Hk; cbn [live fmap option_fmap option_map].
  - destruct Hr as [_ Hf]. destruct (Hf k (v, t) Hk) as [_ Ht]. unfold entry_time. split.
    + intros [x Hl]. exists (string_raw v t). split; [done|]. cbn [snd]. rewrite Strings_parse by done. cbn. by destruct (IsStale now t).
    + intros (x & [= <-] & Hx). cbn [snd fst] in Hx. rewrite Strings_parse in Hx by done. cbn in Hx. rewrite Hx. by eexists.
  - split; [by intros [? [=]]|by intros (? & [=] & _)].
Qed.

(** C19: finding keys, in a store whose iterators do not fail (what a failing one leaves out, the code does not notice) and that
  does not change meanwhile.  [ScanKeys] gives exactly the live keys that the pattern stands for, in order; keys whose expiry time has passed are
    left out.  A client that calls [Scan] with the cursor it is given until it is told that there are no more gets the same keys, however
    few it asks for at a time: none twice and none left out, though the scan may stop at the prefix of the pattern.  The pattern is one that the matcher
    answers for every key, and one that ends in its only wildcard, a star, has no backslash ([scan_stops_early]). *)
Theorem redis_keys d m hs pattern : holds d m -> rep m hs ->
  hs !! [] = None \/ reads_no_terminator pattern ->
  exists keys, ScanKeys now d pattern [] = Some (OK, keys) /\
    StronglySorted (fun a b => compare a b = Lt) keys /\
    (forall k, k ∈ keys <-> live_key hs k /\ glob false (tokens pattern) k) /\
    forall count, 0 < count -> (IsTailWildcard pattern = true -> Forall (fun b => is_backslash b = false) pattern) ->
      exists calls, scan_all now calls d [] pattern count = Some keys.
Proof.
  intros Hh Hr Hsafe. destruct (steady_walks d m Hh) as (es & [Hin Hs] & Hes).
  assert (forall e, e ∈ es -> e.1 <> [] \/ reads_no_terminator pattern) as Hone.
  { intros [k v] Hk%Hin. destruct Hsafe as [Hn|?]; [left; cbn; intros ->|by right]. by rewrite (srep_lookup m hs [] Hr), Hn in Hk. }
  assert (answered pattern es) as Ha.
  { apply Forall_forall. intros e He. destruct (glob_match false pattern e.1 (Hone e He)) as (b & -> & _). by exists b. }
  exists (map fst (filter (picks now pattern) es)). split; [|split; [|split]].
  - unfold ScanKeys. destruct (Hes None) as (st & -> & _); [done|]. cbn [mbind option_bind rows_from]. by rewrite scan_keys_loop_ok.
  - clear Hin Ha Hone Hes. induction Hs as [|e es Hs IH Hall]; [constructor|]. rewrite filter_cons. case_decide; [|done]. cbn [map]. constructor; [done|].
    apply Forall_map. rewrite Forall_forall in Hall |- *. intros x [_ Hx]%list_elem_of_filter. by apply Hall.
  - intros k. rewrite (shown_live m hs es Hr Hin), list_elem_of_fmap. split.
    + intros ([k' v] & -> & [[Hst Hm] He]%list_elem_of_filter). destruct (glob_match false pattern k' (Hone _ He)) as (b & Hm' & Hg).
      cbn [fst] in *. rewrite Hm in Hm'. injection Hm' as <-. split; [by exists v|by apply Hg].
    + intros [(v & He & Hst) Hg]. exists (k, v). split; [done|]. apply list_elem_of_filter. split; [|done]. split; [done|].
      cbn [fst]. destruct (glob_match false pattern k (Hone _ He)) as (b & -> & Hb). f_equal. by apply Hb.
  - intros count Hc Hb. exists (S (length es)). apply (scan_all_ok now pattern d es count) with (es1 := []); try done; [|by left|apply seek_all|lia].
    intros start Hstart. destruct (Hes (Some start)) as (st & He & _); [|by exists st]. intros t [= <-]. destruct Hstart as [->|[v Hv]]; [done|].
    apply Hin in Hv. by apply (kholds_dom d m start v).
Qed.

(** What the loop of [ScanKeyNum] counts. *)
Lemma key_num_ok es : forall n t i, len es + n < 2 ^ 64 -> 0 <= n -> len es + i < 2 ^ 64 -> 0 <= i ->
  let stale := len (filter (fun e => IsStale now (entry_time e) = true) es) in
  let expiring := len (filter (fun e => IsStale now (entry_time e) = false /\ entry_time e <> 0) es) in
  exists t', fold_left (key_num_step now) es (n, t, i) = (n + expiring, t', i + stale).
Proof.
  induction es as [|e es IH]; intros n t i Hn Hn0 Hi Hi0; cbn [fold_left length]; [exists t; cbn; by rewrite !Z.add_0_r|].
  cbn [length] in Hn, Hi. rewrite !filter_cons. unfold key_num_step at 2. destruct (IsStale now (entry_time e)) eqn:Hs.
  - rewrite decide_False by by intros [? _]. rewrite decide_True by done. rewrite u64_small by lia.
    destruct (IH n t (i + 1)) as (t' & ->); [lia..|]. exists t'. cbn [length]. f_equal. lia.
  - rewrite (decide_False (P := false = true)) by done. unfold IsPermanentSurvival. destruct (Z.eqb_spec (entry_time e) 0) as [Hz|Hz].
    + rewrite decide_False by by intros [_ ?]. apply IH; lia.
    + rewrite decide_True by done. rewrite u64_small by lia. destruct (IH (n + 1) (u64 (t + (entry_time e - now))) i) as (t' & ->); [lia..|].
      exists t'. cbn [length]. do 2 f_equal. lia.
Qed.

(** [ScanKeyNum] says that there are no keys, whatever there is; it does count the stale ones. *)
Lemma ScanKeyNum_ok d m : holds d m -> Z.of_nat (size m) < 2 ^ 64 -> exists info es, ScanKeyNum now d = Some (OK, info) /\
  in_order_of BytewiseComparatorImpl m es /\ ki_keys info = 0 /\ ki_invaildkeys info = len (filter (fun e => IsStale now (entry_time e) = true) es).
Proof.
  intros Hh Hm. destruct (steady_walks d m Hh) as (es & [Hin Hs] & Hes). unfold ScanKeyNum.
  destruct (Hes None) as (st & -> & _); [done|]. cbn [mbind option_bind rows_from].
  assert (length es = size m) as Hl.
  { rewrite <- length_map_to_list. apply Permutation_length, NoDup_Permutation; [|apply NoDup_map_to_list|].
    - clear -Hs. induction Hs as [|a l Hs IH Hall]; [constructor|]. constructor; [|done]. intros Ha. rewrite Forall_forall in Hall.
      specialize (Hall a Ha). cbn in Hall. by rewrite compare_refl in Hall.
    - intros [k v]. rewrite elem_of_map_to_list. apply Hin. }
  destruct (key_num_ok es 0 0 0) as (t & ->); [lia..|]. eexists _, es. split; [done|]. split; [done|]. by split.
Qed.
End Strings.

(** ** The keys of the hashes and of the sets *)

Section BaseKeys.
Context {D : Type} `{KVStore D} (now : Z).

(** Every entry of the database is read as metadata. *)
Fixpoint base_keys_loop (pattern : bytes) (es : list (bytes * bytes)) (keys : list bytes) : option (list bytes) :=
  match es with
  | [] => Some keys
  | e :: es =>
      let? p := ParsedBaseMetaValue_make false e.2 in
      if negb (IsStale now (pb_timestamp p)) && negb (pb_count p =? 0) then
        let? m := StringMatchLen pattern e.1 false in
        base_keys_loop pattern es (if m : bool then keys ++ [e.1] else keys)
      else base_keys_loop pattern es keys
  end.

Definition Hash_ScanKeys (d : D) (pattern : bytes) (keys : list bytes) : option (Status * list bytes) :=
  let? (es, _) := kentries d None in
  let? keys := base_keys_loop pattern es keys in Some (OK, keys).

Definition Set_ScanKeys (d : D) (pattern : bytes) (keys : list bytes) : option (Status * list bytes) :=
  let? (es, _) := kentries d None in
  let? keys := base_keys_loop pattern es keys in Some (OK, keys).

Fixpoint base_num_loop (es : list (bytes * bytes)) (n : Z * Z * Z) : option (Z * Z * Z) :=
  match es with
  | [] => Some n
  | e :: es =>
      let? p := ParsedBaseMetaValue_make false e.2 in
      let '(expires, ttlsum, invaildkeys) := n in
      base_num_loop es
        (if IsStale now (pb_timestamp p) then (expires, ttlsum, u64 (invaildkeys + 1))
         else if IsPermanentSurvival (pb_timestamp p) then n
         else (u64 (expires + 1), u64 (ttlsum + (pb_timestamp p - now)), invaildkeys))
  end.

Definition Hash_ScanKeyNum (d : D) : option (Status * KeyInfo) :=
  let? (es, _) := kentries d None in
  let? (expires, ttlsum, invaildkeys) := base_num_loop es (0, 0, 0) in
  Some (OK, MkKeyInfo 0 expires (if expires =? 0 then 0 else ttlsum / expires) invaildkeys).

Definition Set_ScanKeyNum (d : D) : option (Status * KeyInfo) :=
  let? (es, _) := kentries d None in
  let? (expires, ttlsum, invaildkeys) := base_num_loop es (0, 0, 0) in
  Some (OK, MkKeyInfo 0 expires (if expires =? 0 then 0 else ttlsum / expires) invaildkeys).

(** A value that is shorter than a count is read past its end. *)
Lemma base_parse_short v : len v < 4 -> ParsedBaseMetaValue_make false v = None.
Proof.
  intros Hl. unfold ParsedBaseMetaValue_make, peek32. by rewrite (proj2 (Z.leb_gt (0 + 4) (len v))) by lia.
Qed.

Lemma base_keys_short pattern es e : e ∈ es -> len e.2 < 4 -> forall keys, base_keys_loop pattern es keys = None.
Proof.
  intros He Hl. induction es as [|x es IH]; intros keys; [by apply not_elem_of_nil in He|]. cbn [base_keys_loop].
  apply elem_of_cons in He as [->|He]; [by rewrite base_parse_short|]. destruct (ParsedBaseMetaValue_make _ _); [|done]. cbn [mbind option_bind].
  destruct (_ && _); [|by apply IH]. destruct (StringMatchLen _ _ _); [|done]. by apply IH.
Qed.

Lemma base_num_short es e : e ∈ es -> len e.2 < 4 -> forall n, base_num_loop es n = None.
Proof.
  intros He Hl. induction es as [|x es IH]; intros n; [by apply not_elem_of_nil in He|]. cbn [base_num_loop].
  apply elem_of_cons in He as [->|He]; [by rewrite base_parse_short|]. destruct (ParsedBaseMetaValue_make _ _); [|done]. cbn [mbind option_bind].
  destruct n as [[a b] i]. by apply IH.
Qed.
End BaseKeys.

Section Members.
Context {D : Type} `{KVStoreSteady D BytewiseComparatorImpl short_key holds held} (now : Z).

(** The entries of members and of short fields are entries too: with one of them in the database the scans read
    past its end. *)
Lemma scans_read_past d m key v pattern keys : holds d m -> m !! key = Some v -> len v < 4 ->
  Hash_ScanKeys now d pattern keys = None /\ Set_ScanKeys now d pattern keys = None /\ Hash_ScanKeyNum now d = None /\ Set_ScanKeyNum now d = None.
Proof.
  intros Hh Hm Hl. destruct (steady_walks d m Hh) as (es & [Hin _] & Hes). assert ((key, v) ∈ es) as He by by apply Hin.
  unfold Hash_ScanKeys, Set_ScanKeys, Hash_ScanKeyNum, Set_ScanKeyNum. destruct (Hes None) as (st & -> & _); [done|]. cbn [mbind option_bind rows_from].
  by rewrite (base_keys_short now pattern es _ He Hl), (base_num_short now es _ He Hl).
Qed.
End Members.

(** ** Concrete keys *)

#[local] Instance keys_store : KVStore kvmap := map_store BytewiseComparatorImpl.

#[local] Instance keys_store_ok : KVStoreSteady kvmap BytewiseComparatorImpl short_key (map_holds short_key) (map_holds short_key).
Proof. apply (map_store_ok BytewiseComparatorImpl (fun _ => True) short_key); [by intros|]. intros a b _ _. apply compare_eq. Qed.

(** One of the keys has expired. *)
Definition keys_demo : strings := {[ str "a1" := (str "x", 0); str "b1" := (str "y", 0); str "b2" := (str "z", 1); str "b3" := (str "w", 2000000000) ]}.
Definition keys_map : kvmap := (fun e => string_raw e.1 e.2) <$> keys_demo.

Lemma keys_rep : map_holds short_key keys_map keys_map /\ rep keys_map keys_demo.
Proof.
  assert (bool_decide (map_Forall (fun k _ => short_key k) keys_map) = true /\ bool_decide (map_Forall (fun _ e => len e.1 + 4 < 2 ^ 32 /\ - 2 ^ 31 <= e.2 < 2 ^ 31) keys_demo) = true)
    as [H1%bool_decide_eq_true H2%bool_decide_eq_true] by (split; vm_compute; reflexivity).
  split; [by split|]. by split.
Qed.

Lemma redis_keys_witness : exists calls, ScanKeys 1700000000 keys_map (str "b*") [] = Some (OK, [str "b1"; str "b3"]) /\
  scan_all 1700000000 calls keys_map [] (str "b*") 1 = Some [str "b1"; str "b3"].
Proof.
  destruct (redis_keys (holds := map_holds short_key) (held := map_holds short_key) 1700000000 keys_map keys_map keys_demo (str "b*"))
    as (keys & Hkeys & _ & _ & Hscan).
  - apply keys_rep.
  - apply keys_rep.
  - left. vm_compute. reflexivity.
  - assert (ScanKeys 1700000000 keys_map (str "b*") [] = Some (OK, [str "b1"; str "b3"])) as Hc by (vm_compute; reflexivity).
    rewrite Hc in Hkeys. injection Hkeys as <-. destruct (Hscan 1) as (calls & Hcalls); [reflexivity| |exists calls; split; [exact Hc|exact Hcalls]].
    intros _. by repeat constructor.
Defined.

(** A backslash in the prefix is looked for as a character of the keys: the scan is told too
    early that there are no more. *)
Example scan_stops_early : let pattern := Byte.x5c :: str "b*" in
  ScanKeys 1700000000 keys_map pattern [] = Some (OK, [str "b1"; str "b3"]) /\
  scan_all 1700000000 10 keys_map [] pattern 1 = Some [].
Proof. split; vm_compute; reflexivity. Qed.
