(* ===== verification/RedisValue.v ===== *)
(** What the operations on one string value compute: numbers are read back as they were
    written, bits and ranges are those of the bytes (redisdb/db/redistring.cc). *)
From stdpp Require Import gmap sorting sets.
From S2P Require Import Prelude Coding Status DbFormat WriteBatch FileName Serialize KvStore RedisString.
Local Open Scope Z_scope.

(** ** Numbers *)

Definition no_nul (s : bytes) : Prop := Forall (fun b => b <> x00) s.

Lemma c_str_id s : no_nul s -> c_str s = s.
Proof. intros Hs. induction Hs as [|b s Hb Hs IH]; [done|]. cbn. rewrite bool_decide_eq_false_2 by done. by rewrite IH. Qed.

Lemma digit_char b : FileName.is_digit b -> RedisString.is_digit b = true /\ is_space b = false /\ b <> x00 /\ b2z b <> 45 /\ b2z b <> 43.
Proof.
  unfold FileName.is_digit, RedisString.is_digit, is_space. intros Hb.
  split_and!; [lia|lia| |lia|lia]. intros ->. change (b2z x00) with 0 in Hb. lia.
Qed.

Lemma read_digits_all s acc : Forall FileName.is_digit s ->
  read_digits s acc = (fold_left (fun v b => v * 10 + (b2z b - 48)) s acc, []).
Proof.
  intros Hs. revert acc. induction Hs as [|b s Hb Hs IH]; intros acc; [done|]. cbn [read_digits fold_left].
  destruct (digit_char b Hb) as (-> & _). rewrite IH. do 2 f_equal. lia.
Qed.

Lemma digits_no_nul s : Forall FileName.is_digit s -> no_nul s.
Proof. intros Hs. eapply Forall_impl; [exact Hs|]. intros b Hb. by apply digit_char. Qed.

Lemma strtoll_digits s : Forall FileName.is_digit s -> s <> [] -> digits_value s <= LLONG_MAX -> 0 <= digits_value s ->
  strtoll s = (digits_value s, []).
Proof.
  intros Hs Hne Hmax Hmin. destruct s as [|b s]; [done|]. pose proof Hs as Hs'. apply Forall_cons in Hs' as [Hb _].
  destruct (digit_char b Hb) as (Hd & Hsp & _ & Hm & Hp). unfold strtoll. cbn [skip_space]. rewrite Hsp.
  rewrite (proj2 (Z.eqb_neq _ _) Hm), (proj2 (Z.eqb_neq _ _) Hp), Hd, read_digits_all by done.
  change (fold_left _ (b :: s) 0) with (digits_value (b :: s)).
  unfold LLONG_MIN in *. rewrite (proj2 (Z.ltb_ge _ _)), (proj2 (Z.ltb_ge LLONG_MAX _)) by lia. done.
Qed.

Lemma strtoll_minus s : Forall FileName.is_digit s -> s <> [] -> digits_value s <= - LLONG_MIN -> 0 <= digits_value s ->
  strtoll (z2b 45 :: s) = (- digits_value s, []).
Proof.
  intros Hs Hne Hmax Hmin. destruct s as [|b s]; [done|]. pose proof Hs as Hs'. apply Forall_cons in Hs' as [Hb _].
  destruct (digit_char b Hb) as (Hd & _). unfold strtoll. cbn [skip_space].
  change (is_space (z2b 45)) with false. cbv iota. change (b2z (z2b 45) =? 45) with true. cbv iota.
  rewrite Hd, read_digits_all by done. change (fold_left _ (b :: s) 0) with (digits_value (b :: s)).
  unfold LLONG_MAX, LLONG_MIN in *. rewrite (proj2 (Z.ltb_ge _ _)), (proj2 (Z.ltb_ge _ _)) by lia. done.
Qed.

(** What [std::to_string] prints is what [strtoll] reads, with nothing left over. *)
Lemma number_to_string n : is_i64 n -> number (to_string n) = Some n.
Proof.
  intros Hn. unfold number, to_string. destruct (Z.ltb_spec n 0) as [Hneg|Hpos].
  - destruct (decimal_ok (- n)) as (Hd & Hv & Hne); [lia|]. rewrite c_str_id.
    + rewrite strtoll_minus; [|done|done|unfold LLONG_MIN; lia|lia]. rewrite Hv. by rewrite Z.opp_involutive.
    + apply Forall_cons. split; [by vm_compute|by apply digits_no_nul].
  - destruct (decimal_ok n) as (Hd & Hv & Hne); [lia|]. rewrite c_str_id by by apply digits_no_nul.
    rewrite strtoll_digits; [|done|done|unfold LLONG_MAX; lia|lia]. by rewrite Hv.
Qed.

(** What a change leaves at its key, and a sequence of increments of one key. *)
Definition change_entry (ch : Change) (e : option (bytes * Z)) : option (bytes * Z) :=
  match ch with Keep => e | Write v t => Some (v, t) | Remove => None end.

Fixpoint increments (now : Z) (k : bytes) (e : option (bytes * Z)) (ns : list Z) : option (list StrReply * option (bytes * Z)) :=
  match ns with
  | [] => Some ([], e)
  | n :: ns =>
      let? (r, ch) := string_sem now (SIncrby k n) e in
      let? (rs, e) := increments now k (change_entry ch e) ns in Some (r :: rs, e)
  end.

(** The sums on the way. *)
Fixpoint sums (i : Z) (ns : list Z) : list Z := match ns with [] => [] | n :: ns => (i + n) :: sums (i + n) ns end.

Lemma increments_step now k i t n : is_i64 i -> is_i64 (i + n) -> IsStale now t = false ->
  string_sem now (SIncrby k n) (Some (to_string i, t)) = Some (RZ OK (i + n), Write (to_string (i + n)) t).
Proof.
  intros Hi Hn Ht. cbn [string_sem live]. rewrite Ht, number_to_string by done. unfold LLONG_MIN, LLONG_MAX.
  rewrite (proj2 (Z.leb_le _ (i + n))), (proj2 (Z.leb_le (i + n) _)) by lia. done.
Qed.

(** [Incrby] adds: a sequence of increments of a live counter whose sums stay within 64 bits answers each sum, and
    leaves the decimal digits of the last one with the expiry time it had; what one call stores is read back exactly by the
    next, negative numbers and the limits of the type included. *)
Theorem increments_add now k t ns : IsStale now t = false -> forall i, is_i64 i -> Forall (fun s => is_i64 s) (sums i ns) ->
  increments now k (Some (to_string i, t)) ns = Some (map (RZ OK) (sums i ns), Some (to_string (i + foldr Z.add 0 ns), t)).
Proof.
  intros Ht. induction ns as [|n ns IH]; intros i Hi Hs; [cbn; by rewrite Z.add_0_r|].
  cbn [sums] in Hs. apply Forall_cons in Hs as [Hn Hs]. cbn [increments]. rewrite increments_step by done. cbn [change_entry].
  rewrite IH by done. cbn [map sums foldr]. by rewrite Z.add_assoc.
Qed.

Lemma increments_add_witness :
  increments 1700000000 (str "n") (Some (to_string (2 ^ 63 - 2), 0)) [1; -2 ^ 63; 7] =
  Some ([RZ OK (2 ^ 63 - 1); RZ OK (-1); RZ OK 6], Some (str "6", 0)).
Proof.
  rewrite (increments_add 1700000000 (str "n") 0 [1; -2 ^ 63; 7] eq_refl (2 ^ 63 - 2)).
  - vm_compute. reflexivity.
  - lia.
  - cbn [sums]. repeat constructor; vm_compute; congruence.
Defined.

(** ** Bits *)

(** Bit [o] of a value, from the most significant bit of its first byte. *)
Definition bit_at (v : bytes) (o : Z) : Z := Z.b2z (Z.testbit (byte_at v (Z.to_nat (o / 8))) (7 - o mod 8)).

Lemma land_low o : Z.land o 7 = o mod 8.
Proof. change 7 with (Z.ones 3). by rewrite Z.land_ones by lia. Qed.

Lemma byte_at_past v i : (length v <= i)%nat -> byte_at v i = 0.
Proof. intros Hi. unfold byte_at. by rewrite (proj2 (lookup_ge_None v i)). Qed.

Lemma one_bit x i : 0 <= i -> Z.shiftr (Z.land x (Z.shiftl 1 i)) i = Z.b2z (Z.testbit x i).
Proof.
  intros Hi. rewrite Z.shiftr_land, Z.shiftr_shiftl_l, Z.sub_diag by lia. change (Z.shiftl 1 0) with (Z.ones 1).
  rewrite Z.land_ones, Z.testbit_odd by lia. change (2 ^ 1) with 2. by rewrite Zmod_odd.
Qed.

Lemma shiftr_byte o : 0 <= o < 2 ^ 63 -> 0 <= Z.shiftr o 3 < 2 ^ 60 /\ Z.shiftr o 3 = o / 8.
Proof. intros Ho. rewrite Z.shiftr_div_pow2 by lia. change (2 ^ 3) with 8. split; [split; [apply Z.div_pos; lia|apply Z.div_lt_upper_bound; lia]|done]. Qed.

Lemma value_bit_at v o : 0 <= o < 2 ^ 63 -> value_bit v o = Some (bit_at v o).
Proof.
  intros Ho. destruct (shiftr_byte o Ho) as [Hb He]. unfold value_bit, bit_at, bit_bit. rewrite !u64_small by (rewrite ?u64_small; lia).
  rewrite He in *. destruct (Z.ltb_spec (len v) (o / 8 + 1)).
  - rewrite byte_at_past by lia. by rewrite Z.testbit_0_l.
  - rewrite (proj2 (Z.ltb_lt _ _)) by lia. rewrite land_low, one_bit by (pose proof (Z.mod_pos_bound o 8); lia). done.
Qed.

(** The byte that [write_bit] stores. *)
Lemma stored_bit x b i j : 0 <= x < 256 -> 0 <= i < 8 -> 0 <= j < 8 ->
  Z.testbit (b2z (z2b (Z.lor (Z.land x (Z.lnot (Z.shiftl 1 i))) (Z.shiftl (Z.land b 1) i)))) j =
  if i =? j then Z.testbit b 0 else Z.testbit x j.
Proof.
  intros Hx Hi Hj. rewrite b2z_z2b. change 256 with (2 ^ 8). rewrite Z.mod_pow2_bits_low by lia.
  rewrite Z.lor_spec, Z.land_spec, Z.lnot_spec, !Z.shiftl_spec, Z.land_spec by lia.
  destruct (Z.eqb_spec i j) as [->|Hne].
  - replace (j - j) with 0 by lia. change (Z.testbit 1 0) with true. cbn [negb]. by rewrite andb_false_r, andb_true_r.
  - replace (Z.testbit 1 (j - i)) with false; [by rewrite andb_true_r, andb_false_r, orb_false_r|].
    symmetry. destruct (Z.ltb_spec (j - i) 0); [by apply Z.testbit_neg_r|]. destruct (j - i) eqn:He; [lia| |lia]. by destruct p.
Qed.

Lemma write_bit_byte v o b i : byte_at (write_bit v o b) i =
  if decide (i = bit_byte o) then
    b2z (z2b (Z.lor (Z.land (byte_at v i) (Z.lnot (Z.shiftl 1 (bit_bit o)))) (Z.shiftl (Z.land b 1) (bit_bit o))))
  else byte_at v i.
Proof.
  unfold write_bit. destruct (length v <? bit_byte o + 1)%nat eqn:Hl.
  - apply Nat.ltb_lt in Hl. rewrite (proj2 (Nat.leb_gt _ _)) by lia. case_decide as Hi.
    + subst i. rewrite (byte_at_past v) by lia. unfold byte_at. rewrite app_assoc, list_lookup_middle by
        (rewrite length_app, length_replicate; lia). done.
    + destruct (decide (i < length v)%nat); [unfold byte_at; by rewrite lookup_app_l by lia|]. rewrite (byte_at_past v) by lia.
      unfold byte_at. rewrite lookup_app_r by lia. destruct (decide (i < bit_byte o)%nat).
      * rewrite lookup_app_l by (rewrite length_replicate; lia). rewrite (proj2 (lookup_replicate _ _ _ _)) by (split; [done|lia]). done.
      * by rewrite lookup_ge_None_2 by (rewrite length_app, length_replicate; cbn; lia).
  - apply Nat.ltb_ge in Hl. rewrite (proj2 (Nat.leb_le _ _)) by lia. cbn [app]. case_decide as Hi.
    + subst i. unfold byte_at at 1. by rewrite list_lookup_middle by (rewrite length_take; lia).
    + unfold byte_at. destruct (decide (i < bit_byte o)%nat).
      * by rewrite lookup_app_l, lookup_take_lt by (rewrite ?length_take; lia).
      * rewrite lookup_app_r by (rewrite length_take; lia). rewrite length_take, Nat.min_l by lia.
        rewrite lookup_cons_ne_0, lookup_drop by lia. do 3 f_equal. lia.
Qed.

Lemma write_bit_at v o b o' : 0 <= o -> 0 <= o' -> bit_at (write_bit v o b) o' = if o' =? o then Z.b2z (Z.testbit b 0) else bit_at v o'.
Proof.
  intros Ho Ho'. unfold bit_at. rewrite write_bit_byte. unfold bit_byte, bit_bit. rewrite Z.shiftr_div_pow2, land_low by lia.
  change (2 ^ 3) with 8. pose proof (Z.mod_pos_bound o 8). pose proof (Z.mod_pos_bound o' 8).
  pose proof (Z.div_pos o 8). pose proof (Z.div_pos o' 8). pose proof (Z.div_mod o 8). pose proof (Z.div_mod o' 8).
  case_decide as He.
  - rewrite stored_bit by (try apply byte_at_range; lia). destruct (Z.eqb_spec o' o) as [->|Hne]; [by rewrite Z.eqb_refl|].
    by rewrite (proj2 (Z.eqb_neq _ _)) by lia.
  - rewrite (proj2 (Z.eqb_neq _ _)); [done|]. intros ->. by apply He.
Qed.

Lemma length_write_bit v o b : 0 <= o -> len (write_bit v o b) = Z.max (len v) (o / 8 + 1).
Proof.
  intros Ho. assert (Z.of_nat (bit_byte o) = o / 8) as He.
  { unfold bit_byte. rewrite Z.shiftr_div_pow2 by lia. change (2 ^ 3) with 8. pose proof (Z.div_pos o 8). lia. }
  unfold write_bit. destruct (bit_byte o + 1 <=? length v)%nat eqn:Hl; [apply Nat.leb_le in Hl|apply Nat.leb_gt in Hl];
    rewrite !length_app, ?length_take, ?length_drop, ?length_replicate; cbn [length]; lia.
Qed.

(** [SetBit] and [GetBit] work on an array of bits: a bit that is written is read back, every other bit is as it
    was, bits past the end read as zero, and the value only grows, to hold the bit. *)
Theorem bits_of_string v o b : 0 <= o < 2 ^ 63 -> b = 0 \/ b = 1 ->
  (forall o', 0 <= o' < 2 ^ 63 -> value_bit v o' = Some (bit_at v o')) /\
  value_bit (write_bit v o b) o = Some b /\
  (forall o', 0 <= o' < 2 ^ 63 -> o' <> o -> value_bit (write_bit v o b) o' = value_bit v o') /\
  (forall o', 8 * len v <= o' < 2 ^ 63 -> value_bit v o' = Some 0) /\
  len (write_bit v o b) = Z.max (len v) (o / 8 + 1).
Proof.
  intros Ho Hb. split_and!.
  - apply value_bit_at.
  - rewrite value_bit_at, write_bit_at by lia. rewrite Z.eqb_refl. by destruct Hb as [-> | ->].
  - intros o' Ho' Hne. rewrite !value_bit_at, write_bit_at by lia. by rewrite (proj2 (Z.eqb_neq _ _)) by done.
  - intros o' Ho'. rewrite value_bit_at by lia. unfold bit_at. rewrite byte_at_past; [by rewrite Z.testbit_0_l|].
    assert (len v <= o' / 8) by (apply Z.div_le_lower_bound; lia). lia.
  - apply length_write_bit. lia.
Qed.

Lemma bits_of_string_witness : value_bit (write_bit (str "a") 20 1) 20 = Some 1 /\ len (write_bit (str "a") 20 1) = 3.
Proof.
  destruct (bits_of_string (str "a") 20 1) as (_ & H1 & _ & _ & H2); [lia|by right|]. split; [exact H1|]. rewrite H2. vm_compute. reflexivity.
Defined.

(** ** Counting bits *)

(** The bits that are set. *)
Definition ones (v : bytes) : Z := foldr Z.add 0 (bit_at v <$> seqZ 0 (8 * len v)).

Lemma byte_ones b : nth (Z.to_nat (b2z b)) bitsinbyte 0 = foldr Z.add 0 (bit_at [b] <$> seqZ 0 8).
Proof. destruct b; vm_compute; reflexivity. Qed.

Lemma sum_app (a b : list Z) : foldr Z.add 0 (a ++ b) = foldr Z.add 0 a + foldr Z.add 0 b.
Proof. induction a as [|x a IH]; [done|]. cbn. lia. Qed.

Lemma ones_cons b v : ones (b :: v) = nth (Z.to_nat (b2z b)) bitsinbyte 0 + ones v.
Proof.
  unfold ones. replace (8 * len (b :: v)) with (8 + 8 * len v) by (cbn [length]; lia). rewrite seqZ_app, fmap_app, sum_app by lia.
  rewrite byte_ones. f_equal; f_equal.
  replace (seqZ (0 + 8) (8 * len v)) with (Z.add 8 <$> seqZ 0 (8 * len v)) by (rewrite fmap_add_seqZ; done).
  rewrite <- list_fmap_compose. apply list_fmap_ext. intros i o Ho%list_elem_of_lookup_2.
  apply elem_of_seqZ in Ho. unfold bit_at, compose. replace (8 + o) with (o + 1 * 8) by lia.
  rewrite Z.mod_add, Z.div_add by lia. rewrite Z2Nat.inj_add, Nat.add_comm by (try apply Z.div_pos; lia). done.
Qed.

(** the table [bitsinbyte] counts: [GetBitCount] adds the number of bits that [GetBit] shows as set. *)
Theorem bitcount_counts v n : GetBitCount v n = n + ones v.
Proof.
  revert n. induction v as [|b v IH]; intros n; [change (ones []) with 0; cbn; lia|]. cbn [GetBitCount]. rewrite IH, ones_cons. lia.
Qed.

(** ** Ranges *)

(** The byte at an offset, zero past the end. *)
Abbreviation byte_of v i := (byte_at v (Z.to_nat i)).

Lemma range_inside v a b : 0 <= a <= b -> b < len v ->
  range_of_value v a b = take (Z.to_nat (b - a + 1)) (drop (Z.to_nat a) v) /\ range_of_value v (a - len v) (b - len v) = range_of_value v a b.
Proof.
  intros Ha Hb.
  assert (range_of_value v a b = take (Z.to_nat (b - a + 1)) (drop (Z.to_nat a) v)) as Hr.
  { unfold range_of_value. rewrite !(proj2 (Z.leb_le 0 _)) by lia. rewrite (proj2 (Z.ltb_ge (len v - 1) a)), (proj2 (Z.ltb_ge b a)),
      (proj2 (Z.ltb_ge b 0)), (proj2 (Z.ltb_ge a 0)), (proj2 (Z.leb_gt (len v) b)) by lia.
    rewrite (proj2 (Z.ltb_ge b 0)) by lia. by rewrite !andb_false_r. }
  split; [done|]. unfold range_of_value at 1. rewrite (proj2 (Z.leb_gt 0 (a - len v))), (proj2 (Z.leb_gt 0 (b - len v))) by lia.
  replace (len v + (a - len v)) with a by lia. replace (len v + (b - len v)) with b by lia.
  unfold range_of_value. by rewrite !(proj2 (Z.leb_le 0 _)) by lia.
Qed.

Lemma range_written_eq old o v : 0 <= o -> no_nul v -> v <> [] -> old <> [] \/ 0 < o -> o + len v < 2 ^ 63 -> len old < 2 ^ 63 ->
  range_written old o v =
  Some ((take (Z.to_nat o) old ++ replicate (Z.to_nat o - length old) x00) ++ v ++ drop (Z.to_nat (o + len v)) old).
Proof.
  intros Ho Hv Hne Hold Hl1 Hl2. unfold range_written. rewrite c_str_id by done.
  assert (0 < len v) by (destruct v; cbn; [done|lia]). destruct (Z.ltb_spec (len old) o).
  - rewrite take_ge, drop_ge by lia. by rewrite app_nil_r, <- app_assoc.
  - assert (0 < len old) by (destruct old; cbn in *; [destruct Hold; [done|lia]|lia]). rewrite !u64_small by lia.
    replace (Z.to_nat o - length old)%nat with 0%nat by lia. cbn [replicate]. rewrite app_nil_r.
    destruct (Z.ltb_spec (o + len v - 1) (len old - 1)); [by rewrite (proj2 (Z.ltb_ge _ _)) by lia|].
    by rewrite (drop_ge old) by lia.
Qed.

Lemma head_byte old o i : (i < o)%nat ->
  default 0 (b2z <$> (take o old ++ replicate (o - length old) x00) !! i) = default 0 (b2z <$> old !! i).
Proof.
  intros Hi. destruct (decide (i < length old)%nat).
  - by rewrite lookup_app_l, lookup_take_lt by (rewrite ?length_take; lia).
  - rewrite lookup_app_r by (rewrite length_take; lia). rewrite (lookup_ge_None_2 old) by lia.
    rewrite (lookup_replicate_2 _ x00); [done|]. rewrite length_take. lia.
Qed.

(** [Setrange] writes a stretch of the value and nothing else: [Getrange] then gives back the bytes that were
    written, every byte outside is as it was, a gap is filled with zeros, and the value grows just to hold the stretch.
    The value written has no NUL and is not empty, and it does not begin an empty value (see [setrange_throws]). *)
Theorem setrange_getrange old o v : 0 <= o -> no_nul v -> v <> [] -> old <> [] \/ 0 < o -> o + len v < 2 ^ 63 -> len old < 2 ^ 63 ->
  exists w, range_written old o v = Some w /\ range_of_value w o (o + len v - 1) = v /\
    (forall i, 0 <= i < o \/ o + len v <= i -> byte_of w i = byte_of old i) /\ len w = Z.max (len old) (o + len v).
Proof.
  intros Ho Hv Hne Hold Hl1 Hl2. eexists. split; [by apply range_written_eq|].
  assert (0 < len v) as Hv0 by (destruct v; cbn; [done|lia]).
  set (head := take _ old ++ _). assert (length head = Z.to_nat o) as Hh.
  { unfold head. rewrite length_app, length_take, length_replicate. lia. }
  assert (len (head ++ v ++ drop (Z.to_nat (o + len v)) old) = Z.max (len old) (o + len v)) as Hlen.
  { rewrite !length_app, length_drop. lia. }
  split_and!; [| |done].
  - destruct (range_inside (head ++ v ++ drop (Z.to_nat (o + len v)) old) o (o + len v - 1)) as [-> _]; [lia..|].
    rewrite drop_app_exact by done. by rewrite take_app_exact by lia.
  - intros i Hi. destruct Hi as [Hi|Hi]; unfold byte_at.
    + rewrite lookup_app_l by lia. apply head_byte. lia.
    + rewrite !lookup_app_r by lia. rewrite lookup_drop. do 3 f_equal. lia.
Qed.

Lemma setrange_getrange_witness : exists w, range_written (str "hello world") 6 (str "redis") = Some w /\ w = str "hello redis" /\
  range_of_value w 6 10 = str "redis".
Proof.
  destruct (setrange_getrange (str "hello world") 6 (str "redis")) as (w & Hw & Hr & _).
  - lia.
  - apply (bool_decide_unpack _). vm_compute. exact I.
  - discriminate.
  - right. lia.
  - vm_compute. reflexivity.
  - vm_compute. reflexivity.
  - exists w. split; [exact Hw|]. split; [|exact Hr].
    assert (range_written (str "hello world") 6 (str "redis") = Some (str "hello redis")) as Hc by (vm_compute; reflexivity).
    rewrite Hw in Hc. injection Hc as ->. reflexivity.
Defined.

(** An empty value that is there: the end of the stretch is compared with the last index, which wraps around, and
    [substr] throws.  With an empty stretch at the start the comparison wraps the other way and the value is lost. *)
Example setrange_throws : range_written [] 0 (str "a") = None /\ range_written (str "abc") 0 [] = Some [].
Proof. split; vm_compute; reflexivity. Qed.
