(* ===== verification/RedisSet.v ===== *)
(** Sets (redisdb/db/redisset.cc).

    A set [key] is one entry [key] with the number of members and the version, and one
    entry with an empty value per member, whose key holds [key], the version and the member: the
    encoding is that of a hash.  As in RedisHash.v an operation is a function of the clock and the
    store, and one step.

    [Del] only raises the version and leaves the entries of the members behind; [SAdd] to a
    set that was emptied so writes its members at version 0, where nothing looks for them.
    The abstract set therefore keeps the stored count beside the members that are found. *)
From Stdlib Require Import Sorted.
From stdpp Require Import gmap sorting sets.
From S2P Require Import Prelude Coding Status DbFormat WriteBatch Serialize KvStore RedisHash.
Local Open Scope Z_scope.

Section Set_.
Context {D : Type} `{KVStore D} (now : Z).

Abbreviation member_key := BaseDataKey_Encode.

Definition put_members (key : bytes) (version : Z) (members : list bytes) : list Op :=
  map (fun member => OpPut (member_key key version member) []) members.

(** The loop of [SAdd] over a set with members: the status of a failed read, or the
    operations and the number of new members. *)
Fixpoint SAdd_loop (d : D) (key : bytes) (version : Z) (members : list bytes) (membervalue : bytes)
    (batch : list Op) (cnt : Z) : option ((Status + list Op * Z) * D) :=
  match members with
  | [] => Some (inr (batch, cnt), d)
  | member :: members =>
      let k := member_key key version member in
      let? (s, membervalue, d) := kget d k membervalue in
      if ok s then SAdd_loop d key version members membervalue batch cnt
      else if IsNotFound s then SAdd_loop d key version members membervalue (batch ++ [OpPut k []]) (i32 (cnt + 1))
      else Some (inl s, d)
  end.

(** In the first branch [version] is still 0. *)
Definition SAdd (d : D) (key : bytes) (members : list bytes) (ret : Z) : option (Status * Z * D) :=
  let filteredmembers := first_fields [] members in
  let version := 0 in
  let? (s, metavalue, d) := kget d key [] in
  if ok s then
    let? p := ParsedBaseMetaValue_make true metavalue in
    if IsStale now (pb_timestamp p) || (pb_count p =? 0) then
      let? p := Base_SetCount (i32 (len filteredmembers)) p in
      let? (s, d) := kwrite d (OpPut key (pb_value p) :: put_members key version filteredmembers) in
      Some (s, i32 (len filteredmembers), d)
    else
      let? (r, d) := SAdd_loop d key (pb_version p) filteredmembers [] [] 0 in
      match r with
      | inl s => Some (s, ret, d)
      | inr (batch, cnt) =>
          if cnt =? 0 then Some (OK, cnt, d)
          else
            let? p := Base_ModifyCount cnt p in
            let? (s, d) := kwrite d (batch ++ [OpPut key (pb_value p)]) in
            Some (s, cnt, d)
      end
  else if IsNotFound s then
    let '(version, meta) := Base_UpdateVersion now (BaseMetaValue_make (EncodeFixed32 (u32 (len filteredmembers)))) in
    let? (s, d) := kwrite d (OpPut key (Base_Encode meta) :: put_members key version filteredmembers) in
    Some (s, i32 (len filteredmembers), d)
  else Some (s, ret, d).

Definition SCard (d : D) (key : bytes) : option (Status * Z * D) :=
  let? (s, metavalue, d) := kget d key [] in
  if ok s then
    let? p := ParsedBaseMetaValue_make true metavalue in
    if IsStale now (pb_timestamp p) then Some (NotFound (str "Stale") [], 0, d)
    else if pb_count p =? 0 then Some (NotFound (str "Deleted") [], pb_count p, d)
    else Some (s, pb_count p, d)
  else Some (s, 0, d).

Definition SMembers (d : D) (key : bytes) (members : list bytes) : option (Status * list bytes * D) :=
  let? (s, metavalue, d) := kget d key [] in
  if ok s then
    let? p := ParsedBaseMetaValue_make true metavalue in
    if IsStale now (pb_timestamp p) then Some (NotFound (str "Stale") [], members, d)
    else if pb_count p =? 0 then Some (NotFound [] [], members, d)
    else
      let? es := kprefix d (member_key key (pb_version p) []) in
      let? found := parse_fields es in
      Some (s, members ++ map fst found, d)
  else Some (s, members, d).

(** The entries of the members stay. *)
Definition SDel (d : D) (key : bytes) : option (Status * D) :=
  let? (s, metavalue, d) := kget d key [] in
  if ok s then
    let? p := ParsedBaseMetaValue_make true metavalue in
    if IsStale now (pb_timestamp p) then Some (NotFound (str "Stale") [], d)
    else if pb_count p =? 0 then Some (NotFound [] [], d)
    else
      let? (_, p) := Base_InitialMetaValue now p in
      kput d key (pb_value p)
  else Some (s, d).

(** [Expire] does nothing. *)
Definition SExpire (d : D) (key : bytes) (ttl : Z) : Status * D := (OK, d).
End Set_.

(** ** What the store holds *)

(** A set: its version, the count that is stored, and the members that are found. *)
Record SetState := MkSet { s_version : Z; s_count : Z; s_members : gset bytes }.

Abbreviation sets := (gmap bytes SetState).

Record set_ok (k : bytes) (x : SetState) : Prop := {
  so_plain : plain k;
  so_version : 0 < s_version x < 2 ^ 31;
  so_count : 0 <= s_count x < 2 ^ 31
}.

(** The entries of older versions are not described. *)
Record srep (m : kvmap) (ss : sets) : Prop := {
  sr_ok k x : ss !! k = Some x -> set_ok k x;
  sr_meta k x : ss !! k = Some x -> m !! k = Some (base_raw (s_count x) (s_version x) 0);
  sr_data k x f : ss !! k = Some x -> m !! key_of k (s_version x) f = gset_to_gmap [] (s_members x) !! f;
  sr_later k x v f : ss !! k = Some x -> s_version x < v < 2 ^ 31 -> m !! key_of k v f = None;
  sr_none k : plain k -> ss !! k = None -> m !! k = None /\ forall v f, is_i32 v -> m !! key_of k v f = None
}.

Lemma srep_empty : srep ∅ ∅.
Proof. split; intros *; rewrite ?lookup_empty; by try (intros _ _; split; [done|]; intros v f _; rewrite lookup_empty). Qed.

Lemma version_i32 v : 0 <= v < 2 ^ 31 -> is_i32 v.
Proof. unfold is_i32. lia. Qed.

Lemma plain_apart k k' : plain k -> plain k' -> k' <> k -> apart k k' /\ forall v f, is_i32 v -> apart k (key_of k' v f).
Proof.
  intros Hk Hk' Hne. split.
  - split; [done|]. intros v2 f2 Hv2. apply plain_data; [done|apply Hk|done].
  - intros v f Hv. split; [intros He; by apply (plain_data k k' v f Hk); [apply Hk'|..]|].
    intros v2 f2 Hv2 (-> & _)%BaseDataKey_inj; [done|apply Hk'|apply Hk|done|done].
Qed.

Lemma sets_insert m ss m' k x : srep m ss -> set_ok k x ->
  m' !! k = Some (base_raw (s_count x) (s_version x) 0) ->
  (forall f, m' !! key_of k (s_version x) f = gset_to_gmap [] (s_members x) !! f) ->
  (forall v f, s_version x < v < 2 ^ 31 -> m' !! key_of k v f = None) ->
  (forall key, apart k key -> m' !! key = m !! key) -> srep m' (<[k := x]> ss).
Proof.
  intros Hr Hok Hmeta Hdata Hlater Hapart. pose proof (so_plain _ _ Hok) as Hk.
  assert (forall k' y, k <> k' -> ss !! k' = Some y -> apart k k' /\ forall v f, is_i32 v -> apart k (key_of k' v f)) as Hother
    by (intros k' y Hne Hy; apply plain_apart; [done|apply (so_plain k' y), (sr_ok m ss Hr), Hy|done]).
  split.
  - intros k' y [[<- <-]|[Hne Hy]]%lookup_insert_Some; [done|by apply (sr_ok m ss Hr)].
  - intros k' y [[<- <-]|[Hne Hy]]%lookup_insert_Some; [done|]. rewrite Hapart by (by eapply Hother). by apply (sr_meta m ss Hr).
  - intros k' y f [[<- <-]|[Hne Hy]]%lookup_insert_Some; [done|]. destruct (so_version _ _ (sr_ok m ss Hr k' y Hy)) as [Hv Hv'].
    rewrite Hapart by (eapply Hother; [done|done|]; apply version_i32; lia). by apply (sr_data m ss Hr).
  - intros k' y v f [[<- <-]|[Hne Hy]]%lookup_insert_Some Hv; [by apply Hlater|]. destruct (so_version _ _ (sr_ok m ss Hr k' y Hy)) as [Hv1 Hv'].
    rewrite Hapart by (eapply Hother; [done|done|]; apply version_i32; lia). by apply (sr_later m ss Hr k' y).
  - intros k' Hk' [Hy Hne]%lookup_insert_None. destruct (plain_apart k k' Hk Hk') as [Ha Had]; [done|].
    destruct (sr_none m ss Hr k' Hk' Hy) as [Hn Hnd]. split; [by rewrite Hapart|]. intros v f Hv. by rewrite Hapart; [apply Hnd|apply Had].
Qed.

(** ** Members as the fields of a hash *)

Abbreviation as_fields l := (map (fun f : bytes => (f, [] : bytes)) l).
Abbreviation found s := (gset_to_gmap ([] : bytes) s).

Lemma put_members_fields k v l : put_members k v l = put_fields k v (as_fields l).
Proof. unfold put_members, put_fields. by rewrite map_map. Qed.

Lemma fields_on_members l : forall s, fields_on (as_fields l) (found s) = found (s ∪ list_to_set l).
Proof.
  induction l as [|f l IH]; intros s; [cbn; f_equal; set_solver|]. cbn [map list_to_set].
  change (fields_on ((f, []) :: as_fields l) (found s)) with (fields_on (as_fields l) (<[f := []]> (found s))).
  rewrite <- gset_to_gmap_union_singleton, IH. f_equal. set_solver.
Qed.

(** Each member once. *)
Lemma filtered_set l : list_to_set (first_fields [] l) = (list_to_set l : gset bytes).
Proof.
  apply set_eq. intros f. rewrite !elem_of_list_to_set, first_fields_elem.
  split; [by intros [? _]|]. intros ?. split; [done|by intros ?%not_elem_of_nil].
Qed.

Lemma filtered_size l : len (first_fields [] l) = Z.of_nat (size (list_to_set l : gset bytes)).
Proof. rewrite <- filtered_set, size_list_to_set by apply first_fields_NoDup. done. Qed.

Lemma puts_other k v fvs key : (forall f, key <> key_of k v f) -> forall m, ops_on (put_fields k v fvs) m !! key = m !! key.
Proof.
  intros Hkey. induction fvs as [|fv fvs IH]; intros m; [done|]. cbn. rewrite IH. apply lookup_insert_ne. by apply not_eq_sym.
Qed.

(** The members of a list that are not there. *)
Definition absent (s : gset bytes) (l : list bytes) : list bytes := filter (fun f => f ∉ s) l.

Lemma absent_union s l : s ∪ list_to_set (absent s l) = s ∪ list_to_set l.
Proof. apply set_eq. intros f. unfold absent. rewrite !elem_of_union, !elem_of_list_to_set, list_elem_of_filter. destruct (decide (f ∈ s)); naive_solver. Qed.

Lemma absent_size s l : len (absent s (first_fields [] l)) = Z.of_nat (size ((list_to_set l : gset bytes) ∖ s)).
Proof.
  rewrite <- (size_list_to_set (C := gset bytes) (absent s (first_fields [] l))) by apply NoDup_filter, first_fields_NoDup.
  do 2 f_equal. apply set_eq. intros f. unfold absent. rewrite elem_of_list_to_set, list_elem_of_filter, first_fields_elem, elem_of_difference, elem_of_list_to_set.
  split; [tauto|]. intros [? ?]. split; [done|]. split; [done|by intros ?%not_elem_of_nil].
Qed.

Abbreviation member_fits := field_short.

Section Steps.
Context {D : Type} `{KVStoreOk D BytewiseComparatorImpl short_key holds held}.
#[local] Hint Extern 0 (held _ _) => (eapply kholds_held; eassumption) : core.
Context (now : Z) (Hnow : 0 < now < 2 ^ 31).

Ltac status :=
  change (ok OK) with true; change (ok (NotFound [] [])) with false; change (IsNotFound (NotFound [] [])) with true;
  cbv beta iota.

Lemma set_read d m ss k : holds d m -> srep m ss -> plain k ->
  exists st raw d', kget d k [] = Some (st, raw, d') /\ holds d' m /\
    (failed st \/
     match ss !! k with
     | Some x => st = OK /\ ParsedBaseMetaValue_make true raw = Some (base_parsed true (s_count x) (s_version x) 0)
     | None => st = NotFound [] []
     end).
Proof.
  intros Hh Hr Hk. destruct (kget_ok d m k [] Hh (plain_short k Hk)) as (st & raw & d' & -> & Hh' & [Hf|Hm]); exists st, raw, d'; (split; [done|]); (split; [done|]);
    [by left|right]. destruct (ss !! k) as [x|] eqn:Hs.
  - rewrite (sr_meta m ss Hr k x Hs) in Hm. destruct Hm as [-> ->]. split; [done|]. destruct (sr_ok m ss Hr k x Hs) as [_ Hv Hc].
    apply Base_parse; [apply version_i32..|done]; lia.
  - rewrite (proj1 (sr_none m ss Hr k Hk Hs)) in Hm. apply Hm.
Qed.

(** What is known after an operation on [k]. *)
Definition set_outcome (st : Status) (d' : D) (m : kvmap) (ss : sets) (k : bytes) (x : SetState) : Prop :=
  (st = OK /\ exists m', held d' m' /\ srep m' (<[k := x]> ss)) \/ (failed st /\ held d' m).

Lemma set_write d m ss k x ops : holds d m -> srep m ss -> set_ok k x -> batch_fits ops ->
  ops_on ops m !! k = Some (base_raw (s_count x) (s_version x) 0) ->
  (forall f, ops_on ops m !! key_of k (s_version x) f = found (s_members x) !! f) ->
  (forall v f, s_version x < v < 2 ^ 31 -> ops_on ops m !! key_of k v f = None) ->
  (forall key, apart k key -> ops_on ops m !! key = m !! key) ->
  exists st d', kwrite d ops = Some (st, d') /\ set_outcome st d' m ss k x.
Proof.
  intros Hh Hr Hok Hf H1 H2 H3 H4. destruct (write_ok d m ops Hh Hf) as (st & d' & -> & [[-> Hh']|[Hfl Hh']]).
  - exists OK, d'. split; [done|]. left. split; [done|]. eexists. split; [done|]. by apply (sets_insert m ss).
  - exists st, d'. split; [done|]. by right.
Qed.

(** A batch on version [v] of [k] that leaves the members [s] there. *)
Lemma batched_write d m ss k x ops : holds d m -> srep m ss -> set_ok k x -> batch_fits ops ->
  ops_on ops m !! k = Some (base_raw (s_count x) (s_version x) 0) -> batched m (ops_on ops m) k (s_version x) (found (s_members x)) ->
  (forall v f, s_version x < v < 2 ^ 31 -> m !! key_of k v f = None) ->
  exists st d', kwrite d ops = Some (st, d') /\ set_outcome st d' m ss k x.
Proof.
  intros Hh Hr Hok Hf Hm [Hd Hrest] Hl. destruct (so_version _ _ Hok) as [Hv Hv']. pose proof (so_plain _ _ Hok) as Hk.
  apply set_write; [done..| |].
  - intros v f Hlt. rewrite Hrest; [by apply Hl| |apply not_meta; [done|apply version_i32; lia]].
    intros f' (_ & He & _)%BaseDataKey_inj; [lia|apply Hk..|apply version_i32; lia|apply version_i32; lia].
  - intros key [Hne Ha]. apply Hrest; [|done]. intros f. apply Ha, version_i32. lia.
Qed.

Lemma members_fit k v l : Forall (member_fits k) l -> Forall op_fits (put_fields k v (as_fields l)).
Proof. intros Hf. apply put_fields_fit, Forall_map. eapply Forall_impl; [exact Hf|]. intros f Hm. by split. Qed.

Lemma filtered_fits k l : Forall (member_fits k) l -> Forall (member_fits k) (first_fields [] l).
Proof. rewrite !Forall_forall. intros Hf f [Hin _]%first_fields_elem. by apply Hf. Qed.

(** ** [SAdd] *)

Lemma SAdd_loop_ok m ss k x l : srep m ss -> ss !! k = Some x -> Forall (member_fits k) l -> forall d value batch cnt, holds d m ->
  0 <= cnt -> cnt + len l < 2 ^ 31 ->
  exists r d', SAdd_loop d k (s_version x) l value batch cnt = Some (r, d') /\ holds d' m /\
    ((exists s, failed s /\ r = inl s) \/
     r = inr (batch ++ put_members k (s_version x) (absent (s_members x) l), cnt + len (absent (s_members x) l))).
Proof.
  intros Hr Hs Hfits. induction Hfits as [|f l Hshort _ IH]; intros d value batch cnt Hh H1 H2; cbn [SAdd_loop length] in *.
  { eexists _, d. split; [done|]. split; [done|]. right. cbn. by rewrite app_nil_r, Z.add_0_r. }
  destruct (kget_ok d m (key_of k (s_version x) f) value Hh (data_short k (s_version x) f Hshort)) as (st & y & d2 & -> & Hh2 & [Hf|Hy]).
  { rewrite failed_ok, failed_found by done. eexists _, d2. split; [done|]. split; [done|]. left. by exists st. }
  rewrite (sr_data m ss Hr k x f Hs) in Hy. unfold absent. rewrite filter_cons. rewrite lookup_gset_to_gmap in Hy.
  destruct (decide (f ∈ s_members x)) as [Hin|Hn].
  - rewrite option_guard_True in Hy by done. destruct Hy as [-> ->]. status. rewrite decide_False by tauto.
    destruct (IH d2 [] batch cnt Hh2) as (r & d' & -> & Hh' & Hr'); [lia|lia|]. exists r, d'. by split.
  - rewrite option_guard_False in Hy by done. destruct Hy as [-> ->]. status. rewrite decide_True by done. rewrite i32_small by lia.
    destruct (IH d2 value (batch ++ [OpPut (key_of k (s_version x) f) []]) (cnt + 1) Hh2) as (r & d' & -> & Hh' & Hr'); [lia|lia|].
    exists r, d'. split; [done|]. split; [done|]. destruct Hr' as [?| ->]; [by left|right]. rewrite <- app_assoc. cbn [length].
    do 2 f_equal. unfold absent. lia.
Qed.

(** The set after [SAdd]. *)
Definition added (x : option SetState) (u : gset bytes) : SetState :=
  match x with
  | None => MkSet (next_version now 0) (sizeZ u) u
  | Some x => if s_count x =? 0 then MkSet (s_version x) (sizeZ u) (s_members x)
              else MkSet (s_version x) (s_count x + sizeZ (u ∖ s_members x)) (s_members x ∪ u)
  end.

(** How many members [SAdd] says it added. *)
Definition added_count (x : option SetState) (u : gset bytes) : Z :=
  match x with
  | Some x => if s_count x =? 0 then sizeZ u else sizeZ (u ∖ s_members x)
  | None => sizeZ u
  end.

Abbreviation members_of l := (list_to_set l : gset bytes).

Lemma new_set_write d m ss k x l v : holds d m -> srep m ss -> plain k -> set_ok k x -> Forall (member_fits k) l -> len l + 1 < 2 ^ 31 ->
  s_count x = sizeZ (members_of l) -> s_version x = v -> s_members x = members_of l -> ss !! k = None ->
  exists st d', kwrite d (OpPut k (base_raw (sizeZ (members_of l)) v 0) :: put_members k v (first_fields [] l)) = Some (st, d') /\
    set_outcome st d' m ss k x.
Proof.
  intros Hh Hr Hk Hok Hf Hl Hc <- Hm Hs. destruct (sr_none m ss Hr k Hk Hs) as [_ Hnone]. destruct (so_version _ _ Hok) as [Hv Hv'].
  assert (is_i32 (s_version x)) as Hi by (apply version_i32; lia). pose proof (length_first_fields l []) as Hlen.
  rewrite put_members_fields. apply batched_write; [done|done|done| | | |].
  - split; [|cbn; unfold put_fields; rewrite !length_map; lia]. apply Forall_cons. split; [by apply meta_fits|by apply members_fit, filtered_fits].
  - change (ops_on (put_fields k (s_version x) (as_fields (first_fields [] l))) (<[k := base_raw (sizeZ (members_of l)) (s_version x) 0]> m) !! k =
      Some (base_raw (s_count x) (s_version x) 0)). rewrite put_fields_meta by done. rewrite Hc. apply lookup_insert_eq.
  - rewrite Hm. replace (found (members_of l)) with (fields_on (as_fields (first_fields [] l)) (found ∅))
      by (rewrite fields_on_members, filtered_set; f_equal; set_solver).
    apply (batched_puts m k (s_version x)); [done|done|]. apply batched_meta; [done|done|]. apply batched_start. intros f.
    rewrite Hnone by done. by rewrite gset_to_gmap_empty, lookup_empty.
  - intros v f Hlt. apply Hnone, version_i32. lia.
Qed.

(** The members of an emptied set are written where they are not found. *)
Lemma emptied_set_write d m ss k x l : holds d m -> srep m ss -> ss !! k = Some x -> Forall (member_fits k) l -> len l + 1 < 2 ^ 31 ->
  exists st d', kwrite d (OpPut k (base_raw (sizeZ (members_of l)) (s_version x) 0) :: put_members k 0 (first_fields [] l)) = Some (st, d') /\
    set_outcome st d' m ss k (MkSet (s_version x) (sizeZ (members_of l)) (s_members x)).
Proof.
  intros Hh Hr Hs Hf Hl. pose proof (sr_ok m ss Hr k x Hs) as Hok. destruct (so_version _ _ Hok) as [Hv Hv']. pose proof (so_plain _ _ Hok) as Hk.
  pose proof (length_first_fields l []) as Hlen. pose proof (filtered_size l) as Hsz.
  assert (forall v f, 0 < v < 2 ^ 31 -> ops_on (OpPut k (base_raw (sizeZ (members_of l)) (s_version x) 0) :: put_members k 0 (first_fields [] l)) m !! key_of k v f =
    m !! key_of k v f) as Hother.
  { intros v f Hv1. rewrite put_members_fields. cbn [ops_on fold_left op_on]. change (fold_left _ ?l ?x) with (ops_on l x). rewrite puts_other.
    - apply lookup_insert_ne, not_eq_sym, not_meta; [done|apply version_i32; lia].
    - intros f' (_ & He & _)%BaseDataKey_inj; [lia|apply Hk..|apply version_i32; lia|done]. }
  apply set_write; [done|done| | | | | |].
  - split; [done|done|cbn; lia].
  - split; [|cbn; unfold put_members; rewrite length_map; lia]. apply Forall_cons. split; [by apply meta_fits|].
    rewrite put_members_fields. by apply members_fit, filtered_fits.
  - rewrite put_members_fields. cbn [ops_on fold_left op_on]. change (fold_left _ ?l ?x) with (ops_on l x). rewrite put_fields_meta by done. apply lookup_insert_eq.
  - intros f. cbn [s_version s_members]. rewrite Hother by lia. by apply (sr_data m ss Hr).
  - intros v f Hlt. cbn [s_version] in Hlt. rewrite Hother by lia. by apply (sr_later m ss Hr k x).
  - intros key [Hne Ha]. rewrite put_members_fields. cbn [ops_on fold_left op_on]. change (fold_left _ ?l ?x) with (ops_on l x). rewrite puts_other.
    + by apply lookup_insert_ne.
    + intros f. by apply Ha.
Qed.

Lemma live_set_write d m ss k x l : holds d m -> srep m ss -> ss !! k = Some x -> Forall (member_fits k) l -> len l + 1 < 2 ^ 31 ->
  s_count x + len l < 2 ^ 31 ->
  exists st d', kwrite d (put_members k (s_version x) (absent (s_members x) (first_fields [] l)) ++
      [OpPut k (base_raw (s_count x + sizeZ (members_of l ∖ s_members x)) (s_version x) 0)]) = Some (st, d') /\
    set_outcome st d' m ss k (MkSet (s_version x) (s_count x + sizeZ (members_of l ∖ s_members x)) (s_members x ∪ members_of l)).
Proof.
  intros Hh Hr Hs Hf Hl Hc. pose proof (sr_ok m ss Hr k x Hs) as Hok. destruct (so_version _ _ Hok) as [Hv Hv']. pose proof (so_plain _ _ Hok) as Hk.
  pose proof (length_first_fields l []) as Hlen. pose proof (absent_size (s_members x) l) as Hsz.
  assert (len (absent (s_members x) (first_fields [] l)) <= len (first_fields [] l)) as Hle by (apply inj_le, length_filter).
  pose proof (so_count _ _ Hok) as [Hc0 _]. assert (is_i32 (s_version x)) as Hi by (apply version_i32; lia).
  rewrite put_members_fields. apply batched_write; [done|done| | | | |].
  - split; [done|done|]. cbn [s_count]. lia.
  - split; [|rewrite length_app; unfold put_fields; rewrite !length_map; cbn; lia]. apply Forall_app. split; [|by apply Forall_singleton, meta_fits].
    apply members_fit. apply filtered_fits in Hf. rewrite Forall_forall in Hf |- *. intros f [_ Hin]%list_elem_of_filter. by apply Hf.
  - rewrite ops_on_app. apply lookup_insert_eq.
  - rewrite ops_on_app. cbn [s_version s_members]. apply batched_meta; [done|done|].
    replace (s_members x ∪ members_of l) with (s_members x ∪ list_to_set (absent (s_members x) (first_fields [] l))) by (by rewrite absent_union, filtered_set).
    rewrite <- fields_on_members. apply batched_puts; [done|done|]. apply batched_start. intros f. by apply (sr_data m ss Hr).
  - intros v f Hlt. by apply (sr_later m ss Hr k x).
Qed.

Lemma SAdd_ok d m ss k l ret : holds d m -> srep m ss -> plain k -> Forall (member_fits k) l -> len l + 1 < 2 ^ 31 ->
  (forall x, ss !! k = Some x -> s_count x + len l < 2 ^ 31) ->
  exists st n d', SAdd now d k l ret = Some (st, n, d') /\ set_outcome st d' m ss k (added (ss !! k) (members_of l)) /\
    (st = OK -> n = added_count (ss !! k) (members_of l)).
Proof.
  intros Hh Hr Hk Hf Hl Hc. unfold SAdd. pose proof (filtered_size l) as Hsz. pose proof (length_first_fields l []) as Hlen.
  destruct (set_read d m ss k Hh Hr Hk) as (st & raw & d1 & -> & Hh1 & [Hfl|Hm]).
  { rewrite failed_ok, failed_found by done. exists st, ret, d1. split; [done|]. split; [by right|]. intros ->. by destruct Hfl. }
  destruct (ss !! k) as [x|] eqn:Hs.
  - destruct Hm as [-> Hp]. status. rewrite Hp. cbn [pb_timestamp pb_count pb_version base_parsed IsStale Z.eqb orb mbind option_bind]. cbn [added added_count].
    specialize (Hc x eq_refl). pose proof (so_count _ _ (sr_ok m ss Hr k x Hs)) as Hc0. destruct (Z.eqb_spec (s_count x) 0) as [Hz|Hz].
    + unfold base_parsed. rewrite i32_small by lia. rewrite Base_set_count. cbn [mbind option_bind pb_value base_parsed]. rewrite Hsz.
      destruct (emptied_set_write d1 m ss k x l Hh1 Hr Hs Hf Hl) as (st & d' & -> & Ho). by eexists _, _, _.
    + destruct (SAdd_loop_ok m ss k x (first_fields [] l) Hr Hs (filtered_fits k l Hf) d1 [] [] 0 Hh1) as (r & d2 & -> & Hh2 & [(s & Hfl & ->)| ->]); [lia|lia|..].
      { cbn [mbind option_bind]. exists s, ret, d2. split; [done|]. split; [by right|]. intros ->. by destruct Hfl. }
      cbn [mbind option_bind app]. rewrite Z.add_0_l, absent_size.
      destruct (live_set_write d2 m ss k x l Hh2 Hr Hs Hf Hl Hc) as (st & d' & Hw & Ho).
      pose proof (absent_size (s_members x) l) as Hab. assert (len (absent (s_members x) (first_fields [] l)) <= len (first_fields [] l)) as Hle by (apply inj_le, length_filter).
      destruct (Z.eqb_spec (sizeZ (members_of l ∖ s_members x)) 0) as [Hnone|Hsome].
      { exists OK, (sizeZ (members_of l ∖ s_members x)), d2. split; [done|]. split; [left; split; [done|]; exists m; split; [done|]|done].
        rewrite Hnone, Z.add_0_r. assert (members_of l ∖ s_members x ≡ ∅) as He by (apply size_empty_iff; lia).
        assert (s_members x ∪ members_of l = s_members x) as -> by (clear -He; apply set_eq; intros f; specialize (He f); rewrite elem_of_difference, elem_of_empty in He; rewrite elem_of_union; destruct (decide (f ∈ s_members x)); tauto). assert (MkSet (s_version x) (s_count x) (s_members x) = x) as -> by (by destruct x).
        by rewrite insert_id. }
      rewrite Base_modify_count by (unfold is_i32; lia). cbn [mbind option_bind pb_value base_parsed]. rewrite Hw. by eexists _, _, _.
  - rewrite Hm. status. cbn [added added_count]. rewrite i32_small, Hsz by lia.
    assert (set_ok k (MkSet (next_version now 0) (sizeZ (members_of l)) (members_of l))) as Hok.
    { split; [done| |cbn; lia]. cbn. unfold next_version. destruct (Z.leb_spec now 0); [lia|]. rewrite i32_small; lia. }
    destruct (new_set_write d1 m ss k _ l (next_version now 0) Hh1 Hr Hk Hok Hf Hl eq_refl eq_refl eq_refl Hs) as (st2 & d' & Hw & Ho).
    unfold Base_UpdateVersion, BaseMetaValue_make. cbn [bm_value bm_version bm_timestamp]. rewrite Base_Encode_raw, Hw. by eexists _, _, _.
Qed.

(** ** Reading and deleting *)

Lemma SCard_ok d m ss k : holds d m -> srep m ss -> plain k ->
  exists st n d', SCard now d k = Some (st, n, d') /\ holds d' m /\
    (failed st \/
     match ss !! k with
     | Some x => n = s_count x /\ (st = OK /\ n <> 0 \/ missing st /\ n = 0)
     | None => missing st /\ n = 0
     end).
Proof.
  intros Hh Hr Hk. unfold SCard. destruct (set_read d m ss k Hh Hr Hk) as (st & raw & d1 & -> & Hh1 & [Hfl|Hm]).
  { rewrite failed_ok by done. exists st, 0, d1. split; [done|]. split; [done|by left]. }
  destruct (ss !! k) as [x|] eqn:Hs.
  - destruct Hm as [-> Hp]. status. rewrite Hp. cbn [pb_timestamp pb_count base_parsed IsStale Z.eqb mbind option_bind].
    destruct (Z.eqb_spec (s_count x) 0) as [Hz|Hz]; eexists _, _, d1; (split; [done|]); (split; [done|]); right; (split; [done|]); [right|left]; by split.
  - rewrite Hm. status. eexists _, _, d1. split; [done|]. split; [done|]. right. by split.
Qed.

(** The members of a set, in order. *)
Definition lists_members (l : list bytes) (s : gset bytes) : Prop :=
  (forall f, f ∈ l <-> f ∈ s) /\ StronglySorted (fun a b => compare a b = Lt) l.

Lemma lists_fields_members l s : lists_fields l (found s) -> lists_members (map fst l) s.
Proof.
  intros [Hl Hs]. split.
  - intros f. rewrite list_elem_of_fmap. split.
    + intros ([f' x] & -> & Hin%Hl). apply lookup_gset_to_gmap_Some in Hin. apply Hin.
    + intros Hf. exists (f, []). split; [done|]. apply Hl. by apply lookup_gset_to_gmap_Some.
  - clear Hl. induction Hs as [|a l Hs IH Hall]; [constructor|]. cbn [map]. constructor; [done|]. by apply Forall_map.
Qed.

(** Some of the members, in order. *)
Definition some_members (l : list bytes) (s : gset bytes) : Prop := exists all, lists_members all s /\ l `sublist_of` all.

Lemma some_fields_members l s : some_fields l (found s) -> some_members (map fst l) s.
Proof. intros (all & Hall & Hsub). exists (map fst all). split; [by apply lists_fields_members|]. by apply (fmap_sublist fst). Qed.

Lemma SMembers_ok d m ss k members : holds d m -> srep m ss -> plain k ->
  exists st l d', SMembers now d k members = Some (st, members ++ l, d') /\ holds d' m /\
    (failed st \/
     match ss !! k with
     | Some x => if s_count x =? 0 then missing st /\ l = []
                 else st = OK /\ (lists_members l (s_members x) \/ (scan_failed d k /\ some_members l (s_members x)))
     | None => missing st /\ l = []
     end).
Proof.
  intros Hh Hr Hk. unfold SMembers. destruct (set_read d m ss k Hh Hr Hk) as (st & raw & d1 & Hget & Hh1 & [Hfl|Hm]); rewrite Hget.
  { rewrite failed_ok by done. exists st, [], d1. rewrite app_nil_r. split; [done|]. split; [done|by left]. }
  destruct (ss !! k) as [x|] eqn:Hs.
  - destruct Hm as [-> Hp]. status. rewrite Hp. cbn [pb_timestamp pb_count pb_version base_parsed IsStale Z.eqb mbind option_bind].
    destruct (Z.eqb_spec (s_count x) 0) as [Hz|Hz].
    + eexists _, [], d1. rewrite app_nil_r. split; [done|]. split; [done|]. right. by split.
    + destruct (so_version _ _ (sr_ok m ss Hr k x Hs)) as [Hv Hv'].
      destruct (scan_at d1 m k (s_version x) (found (s_members x)) Hh1 (proj1 Hk)) as (l & -> & Hl & Hf); [apply version_i32; lia|by intros f; apply (sr_data m ss Hr)|].
      cbn [mbind option_bind]. rewrite Hl. cbn [mbind option_bind]. eexists _, (map fst l), d1. split; [done|]. split; [done|]. right. split; [done|].
      destruct Hf as [Hf|[Hw Hf]]; [left; by apply lists_fields_members|right]. split; [by eexists _, _, d1, (s_version x)|by apply some_fields_members].
  - rewrite Hm. status. eexists _, [], d1. rewrite app_nil_r. split; [done|]. split; [done|]. right. by split.
Qed.

Lemma SDel_ok d m ss k : holds d m -> srep m ss -> plain k -> (forall x, ss !! k = Some x -> s_version x < 2 ^ 31 - 1) ->
  exists st d', SDel now d k = Some (st, d') /\
    match ss !! k with
    | Some x => if s_count x =? 0 then held d' m /\ (failed st \/ missing st)
                else set_outcome st d' m ss k (MkSet (next_version now (s_version x)) 0 ∅)
    | None => held d' m /\ (failed st \/ missing st)
    end.
Proof.
  intros Hh Hr Hk Hmax. unfold SDel. destruct (set_read d m ss k Hh Hr Hk) as (st & raw & d1 & -> & Hh1 & [Hfl|Hm]).
  { rewrite failed_ok by done. exists st, d1. split; [done|]. destruct (ss !! k) as [x|]; [|by split; [|left]]. destruct (s_count x =? 0); [by split; [|left]|by right]. }
  destruct (ss !! k) as [x|] eqn:Hs.
  - destruct Hm as [-> Hp]. status. rewrite Hp. cbn [pb_timestamp pb_count base_parsed IsStale Z.eqb mbind option_bind].
    specialize (Hmax x eq_refl). destruct (so_version _ _ (sr_ok m ss Hr k x Hs)) as [Hv Hv'].
    destruct (Z.eqb_spec (s_count x) 0) as [Hz|Hz]; [by eexists _, d1; split; [done|]; split; [done|right]|].
    change (MkParsedBase (base_raw (s_count x) (s_version x) 0) true (s_version x) 0 (s_count x)) with (base_parsed true (s_count x) (s_version x) 0).
    rewrite Base_initial. cbn [mbind option_bind pb_value base_parsed]. unfold kput.
    destruct (next_version_after now (s_version x)) as (Hi & Hlt & Hge); [lia|apply version_i32; lia|done|].
    apply set_write; [done|done| | | | | |]; cbn [s_version s_count s_members].
    + split; [done| |cbn; lia]. cbn. unfold is_i32 in Hi. lia.
    + split; [|cbn; lia]. by apply Forall_singleton, meta_fits.
    + apply lookup_insert_eq.
    + intros f. cbn. rewrite lookup_insert_ne by (apply not_eq_sym, not_meta; done). rewrite gset_to_gmap_empty, lookup_empty.
      apply (sr_later m ss Hr k x); [done|]. unfold is_i32 in Hi. lia.
    + intros v f Hl. cbn. rewrite lookup_insert_ne by (apply not_eq_sym, not_meta; [done|apply version_i32; lia]). apply (sr_later m ss Hr k x); [done|lia].
    + intros key [Hne _]. by apply lookup_insert_ne.
  - rewrite Hm. status. eexists _, d1. split; [done|]. split; [done|by right].
Qed.
End Steps.

(** ** The commands of a set and what they mean *)

Inductive SetCmd := SCAdd (k : bytes) (l : list bytes) | SCCard (k : bytes) | SCMembers (k : bytes) | SCDel (k : bytes).
Inductive SetReply := SRInt (s : Status) (n : Z) | SRMembers (s : Status) (l : list bytes) | SRStatus (s : Status).

Definition set_status (r : SetReply) : Status := match r with SRInt s _ | SRMembers s _ | SRStatus s => s end.

Definition run_set {D} `{KVStore D} (now : Z) (d : D) (c : SetCmd) : option (SetReply * D) :=
  match c with
  | SCAdd k l => let? (s, n, d) := SAdd now d k l 0 in Some (SRInt s n, d)
  | SCCard k => let? (s, n, d) := SCard now d k in Some (SRInt s n, d)
  | SCMembers k => let? (s, l, d) := SMembers now d k [] in Some (SRMembers s l, d)
  | SCDel k => let? (s, d) := SDel now d k in Some (SRStatus s, d)
  end.

Definition set_key (c : SetCmd) : bytes := match c with SCAdd k _ | SCCard k | SCMembers k | SCDel k => k end.

(** Sizes the encoding can hold, and versions below the last one. *)
Definition set_fits (c : SetCmd) (x : option SetState) : Prop :=
  match c with
  | SCAdd k l => Forall (member_fits k) l /\ len l + 1 < 2 ^ 31 /\ forall y, x = Some y -> s_count y + len l < 2 ^ 31
  | SCDel _ => forall y, x = Some y -> s_version y < 2 ^ 31 - 1
  | _ => True
  end.

(** The set after a command. *)
Definition set_after (now : Z) (c : SetCmd) (x : option SetState) : option SetState :=
  match c, x with
  | SCAdd _ l, _ => Some (added now x (list_to_set l))
  | SCDel _, Some y => if s_count y =? 0 then x else Some (MkSet (next_version now (s_version y)) 0 ∅)
  | _, _ => x
  end.

(** The reply to a command that is carried out. *)
Definition set_reply (c : SetCmd) (x : option SetState) (r : SetReply) : Prop :=
  let count := match x with Some y => s_count y | None => 0 end in
  match c with
  | SCAdd _ l => r = SRInt OK (added_count x (list_to_set l))
  | SCCard _ => exists s, (if count =? 0 then missing s else s = OK) /\ r = SRInt s count
  | SCMembers _ => exists s l, r = SRMembers s l /\
      if count =? 0 then missing s /\ l = [] else s = OK /\ lists_members l (match x with Some y => s_members y | None => ∅ end)
  | SCDel _ => exists s, (if count =? 0 then missing s else s = OK) /\ r = SRStatus s
  end.

(** The members of a set as a reader finds them, and whether the stored count is theirs. *)
Definition members (x : option SetState) : gset bytes := match x with Some y => s_members y | None => ∅ end.
Definition counted (x : option SetState) : Prop := match x with Some y => s_count y = sizeZ (s_members y) | None => True end.

(** [SAdd] to a set that was emptied. *)
Definition re_adds (c : SetCmd) (x : option SetState) : Prop :=
  match c, x with SCAdd _ _, Some y => s_count y = 0 | _, _ => False end.

(** What the commands should do. *)
Definition members_after (c : SetCmd) (s : gset bytes) : gset bytes :=
  match c with SCAdd _ l => s ∪ list_to_set l | SCDel _ => ∅ | _ => s end.

Lemma counted_after now c x : counted x -> ~ re_adds c x -> counted (set_after now c x) /\ members (set_after now c x) = members_after c (members x).
Proof.
  intros Hc Hn. destruct c as [k l|k|k|k]; [|done|done|].
  - cbn. destruct x as [y|]; cbn in *; [|split; [done|set_solver]]. rewrite (proj2 (Z.eqb_neq _ _) Hn). cbn. split; [|done].
    assert (s_members y ∪ list_to_set l = s_members y ∪ (list_to_set l ∖ s_members y)) as ->
      by (apply set_eq; intros f; rewrite !elem_of_union, elem_of_difference; destruct (decide (f ∈ s_members y)); tauto).
    pose proof (size_union (C := gset bytes) (s_members y) (list_to_set l ∖ s_members y)) as Hu. rewrite Hu by (intros f; rewrite elem_of_difference; tauto). lia.
  - cbn. destruct x as [y|]; [|done]. cbn in *. destruct (Z.eqb_spec (s_count y) 0) as [Hz|Hz]; [|done]. split; [done|]. cbn.
    apply leibniz_equiv, size_empty_iff. lia.
Qed.

Section Commands.
Context {D : Type} `{KVStoreOk D BytewiseComparatorImpl short_key holds held}.
#[local] Hint Extern 0 (held _ _) => (eapply kholds_held; eassumption) : core.

(** The command is carried out. *)
Definition set_done (now : Z) (c : SetCmd) (ss : sets) (r : SetReply) (ss' : sets) : Prop :=
  let x := ss !! set_key c in let y := ss' !! set_key c in
  set_reply c x r /\ y = set_after now c x /\ (forall k, k <> set_key c -> ss' !! k = ss !! k) /\
  (counted x -> ~ re_adds c x -> counted y /\ members y = members_after c (members x)) /\
  (re_adds c x -> members y = members x).

(** [SMembers] did not see that its iterator failed: it lists only some of the members. *)
Definition set_missed (c : SetCmd) (x : option SetState) (r : SetReply) : Prop :=
  match c with SCMembers _ => exists l, some_members l (members x) /\ r = SRMembers OK l | _ => False end.

(** C18: A set is the set of its members, until it is emptied and filled again.  For the commands [SAdd], [SCard], [SMembers] and
    [Del] ([SIsmember] has no return statement and is not a command here) on a set whose name is not itself the key of a
    member (the two kinds of keys share one database), with sizes and versions that the encoding can hold, over a store that keeps
    the contract and holds sets without expiry times: the command returns, and either it is carried
    out: the reply and the new set are those of [set_reply] and [set_after] - [SAdd] counts the members that are new, [SCard] tells
    the count, [SMembers] lists the members in order, [Del] empties the set - and the other sets are as before;
    or the database failed and nothing changed, which the status says; or the iterator of [SMembers] failed, which it does not
    look at, and it answers [OK] having listed only some of the members.  While the stored count is the number of members,
    every command but one keeps it so and does to the members what its name says; the one is [SAdd] to a set that was emptied,
    which counts the new members and leaves the set without any. *)
Theorem redis_set now d m ss c :
  0 < now < 2 ^ 31 -> holds d m -> srep m ss -> plain (set_key c) -> set_fits c (ss !! set_key c) ->
  exists r d' m' ss', run_set now d c = Some (r, d') /\ held d' m' /\ srep m' ss' /\
    (set_done now c ss r ss' \/ (ss' = ss /\ failed (set_status r)) \/
     (ss' = ss /\ scan_failed d (set_key c) /\ set_missed c (ss !! set_key c) r)).
Proof.
  intros Hn Hh Hr Hk Hf.
  set (goal := exists r d' m' ss', run_set now d c = Some (r, d') /\ held d' m' /\ srep m' ss' /\
    (set_done now c ss r ss' \/ (ss' = ss /\ failed (set_status r)) \/
     (ss' = ss /\ scan_failed d (set_key c) /\ set_missed c (ss !! set_key c) r))).
  assert (forall r d' m' ss', held d' m' -> srep m' ss' -> set_reply c (ss !! set_key c) r -> ss' !! set_key c = set_after now c (ss !! set_key c) ->
    (forall k, k <> set_key c -> ss' !! k = ss !! k) -> run_set now d c = Some (r, d') -> goal) as Hdone.
  { intros r d' m' ss' Hh' Hr' Hrep Haft Hoth Hrun. exists r, d', m', ss'. do 3 (split; [done|]). left. do 3 (split; [done|]). rewrite Haft.
    split; [by apply counted_after|]. destruct c as [k l|k|k|k]; cbn; try done. destruct (ss !! k) as [y|]; cbn; [|done].
    intros ->. done. }
  assert (forall r d', held d' m -> run_set now d c = Some (r, d') -> failed (set_status r) -> goal) as Hfail.
  { intros r d' Hh' Hrun Hfl. exists r, d', m, ss. do 3 (split; [done|]). right. by left. }
  assert (forall r d', held d' m -> run_set now d c = Some (r, d') -> scan_failed d (set_key c) -> set_missed c (ss !! set_key c) r -> goal) as Hmiss.
  { intros r d' Hh' Hrun Hsf Hm. exists r, d', m, ss. do 3 (split; [done|]). right. by right. }
  clearbody goal. destruct c as [k l|k|k|k]; cbn [set_key set_fits run_set set_reply set_after set_status set_missed] in *.
  - destruct Hf as (Hfl & Hl & Hc). destruct (SAdd_ok now Hn d m ss k l 0 Hh Hr Hk Hfl Hl Hc) as (st & n & d' & Hrun & Ho & Hret). rewrite Hrun in *.
    destruct Ho as [(-> & m' & Hh' & Hr')|[Hbad Hh']]; [|by apply (Hfail (SRInt st n) d')]. apply (Hdone (SRInt OK n) d' m' _ Hh' Hr'); [|apply lookup_insert_eq| |done].
    + by rewrite (Hret eq_refl).
    + intros k' Hne. by apply lookup_insert_ne.
  - destruct (SCard_ok now d m ss k Hh Hr Hk) as (st & n & d' & Hrun & Hh' & Ho). rewrite Hrun in *.
    destruct Ho as [Hbad|Ho]; [by apply (Hfail (SRInt st n) d')|]. apply (Hdone (SRInt st n) d' m ss (kholds_held _ _ Hh') Hr); [|done..]. exists st.
    destruct (ss !! k) as [y|]; [|by destruct Ho as [? ->]]. destruct Ho as [-> [[-> Hz]|[Hm ->]]]; [by rewrite (proj2 (Z.eqb_neq _ _) Hz)|done].
  - destruct (SMembers_ok now d m ss k [] Hh Hr Hk) as (st & l & d' & Hrun & Hh' & Ho). rewrite Hrun in *.
    destruct Ho as [Hbad|Ho]; [by apply (Hfail (SRMembers st l) d')|].
    assert ((scan_failed d k /\ st = OK /\ some_members l (members (ss !! k))) \/
      (if (match ss !! k with Some y => s_count y | None => 0 end) =? 0 then missing st /\ l = []
       else st = OK /\ lists_members l (match ss !! k with Some y => s_members y | None => ∅ end))) as [(Hsf & -> & Hl)|Hl].
    { destruct (ss !! k) as [y|]; [|by right]. destruct (s_count y =? 0); [by right|]. destruct Ho as [-> [Hl|[Hsf Hl]]]; [by right|by left]. }
    + apply (Hmiss (SRMembers OK l) d'); [by apply kholds_held|done|done|]. by exists l.
    + apply (Hdone (SRMembers st l) d' m ss (kholds_held _ _ Hh') Hr); [|done..]. by exists st, l.
  - destruct (SDel_ok now Hn d m ss k Hh Hr Hk Hf) as (st & d' & Hrun & Ho). rewrite Hrun in *.
    assert (held d' m /\ (failed st \/ missing st) /\ set_after now (SCDel k) (ss !! k) = ss !! k /\ (match ss !! k with Some y => s_count y | None => 0 end) = 0 \/
      exists y, ss !! k = Some y /\ s_count y <> 0 /\ set_outcome (held := held) st d' m ss k (MkSet (next_version now (s_version y)) 0 ∅))
      as [(Hh' & [Hbad|Hm] & Haft & Hz)|(y & Hy & Hz & Hout)].
    { cbn. destruct (ss !! k) as [y|]; [|left; split; [apply Ho|]; by split; [apply Ho|]]. destruct (Z.eqb_spec (s_count y) 0); [left; split; [apply Ho|]; by split; [apply Ho|]|].
      right. by exists y. }
    + by apply (Hfail (SRStatus st) d').
    + apply (Hdone (SRStatus st) d' m ss Hh' Hr); [|done..]. exists st. by rewrite Hz.
    + rewrite Hy in *. cbn in Hdone. rewrite (proj2 (Z.eqb_neq _ _) Hz) in Hdone. destruct Hout as [(-> & m' & Hh' & Hr')|[Hbad Hh']]; [|by apply (Hfail (SRStatus st) d')].
      apply (Hdone (SRStatus OK) d' m' _ Hh' Hr'); [by exists OK|apply lookup_insert_eq| |done]. intros k' Hne. by apply lookup_insert_ne.
Qed.
End Commands.

(** ** Concrete sets *)

#[local] Instance set_store : KVStore kvmap := map_store BytewiseComparatorImpl.

#[local] Instance set_store_ok : KVStoreSteady kvmap BytewiseComparatorImpl short_key (map_holds short_key) (map_holds short_key).
Proof. apply (map_store_ok BytewiseComparatorImpl (fun _ => True) short_key); [by intros|]. intros a b _ _. apply bytewise_eq. Qed.

Fixpoint run_sets (now : Z) (d : kvmap) (cs : list SetCmd) : option (list SetReply) :=
  match cs with
  | [] => Some []
  | c :: cs => let? (r, d) := run_set now d c in let? rs := run_sets now d cs in Some (r :: rs)
  end.

Lemma redis_set_witness :
  exists d' m' ss', run_set 1700000000 ∅ (SCAdd (str "s") [str "b"; str "a"; str "b"]) = Some (SRInt OK 2, d') /\
    map_holds short_key d' m' /\ srep m' ss' /\ counted (ss' !! str "s") /\ members (ss' !! str "s") = list_to_set [str "b"; str "a"; str "b"].
Proof.
  destruct (redis_set (holds := map_holds short_key) (held := map_holds short_key) 1700000000 ∅ ∅ ∅ (SCAdd (str "s") [str "b"; str "a"; str "b"]))
    as (r & d' & m' & ss' & Hrun & Hh & Hr & Hcase).
  - lia.
  - split; [reflexivity|]. apply map_Forall_empty.
  - exact srep_empty.
  - split; vm_compute; reflexivity.
  - split; [repeat constructor|]. split; [vm_compute; reflexivity|]. intros y. by rewrite lookup_empty.
  - assert (fst <$> run_set 1700000000 ∅ (SCAdd (str "s") [str "b"; str "a"; str "b"]) = Some (SRInt OK 2)) as Hok by (vm_compute; reflexivity).
    rewrite Hrun in Hok. injection Hok as ->. exists d', m', ss'. split; [exact Hrun|]. split; [exact Hh|]. split; [exact Hr|].
    destruct Hcase as [(_ & _ & _ & Hc & _)|[(_ & Hf & _)|(_ & _ & [])]]; [|discriminate Hf]. cbn [set_key] in Hc. rewrite lookup_empty in Hc.
    destruct (Hc I (fun H => H)) as [H1 H2]. split; [exact H1|]. rewrite H2. cbn [members members_after]. apply union_empty_l_L.
Defined.

(** A set that is emptied and filled again tells its count and lists no members. *)
Example set_filled_again : run_sets 1700000000 ∅ [SCAdd (str "s") [str "a"]; SCDel (str "s"); SCAdd (str "s") [str "a"; str "b"]; SCCard (str "s"); SCMembers (str "s")] =
  Some [SRInt OK 1; SRStatus OK; SRInt OK 2; SRInt OK 2; SRMembers OK []].
Proof. vm_compute. reflexivity. Qed.
