(* ===== verification/RedisList.v ===== *)
(** Lists (redisdb/db/redislist.cc).

    A list [key] is one entry under [ListsDataKey(key, 0, 0)] with the number of elements,
    the version and the indices left and right of the elements, and one entry per element
    under its version and index.  As in RedisHash.v an operation is a function of the clock
    and the store, and one step. *)
From Stdlib Require Import Sorted.
From stdpp Require Import gmap sorting sets.
From S2P Require Import Prelude Coding Status DbFormat WriteBatch Serialize KvStore.
Local Open Scope Z_scope.

Section List_.
Context {D : Type} `{KVStore D} (now : Z).

Abbreviation node_key := ListsDataKey_Encode.
Abbreviation meta_key key := (ListsDataKey_Encode key 0 0).

(** The loop of [LPush] over the parsed metadata of a list that is there. *)
Fixpoint LPush_loop (key : bytes) (version : Z) (values : list bytes) (p : ParsedListsMetaValue) (batch : list Op)
    : option (list Op * ParsedListsMetaValue) :=
  match values with
  | [] => Some (batch, p)
  | value :: values =>
      let index := pl_leftindex p in
      let? p := ParsedLists_ModifyLeftIndex 1 p in
      let? p := Lists_ModifyCount 1 p in
      LPush_loop key version values p (batch ++ [OpPut (node_key key version index) value])
  end.

(** The same over the metadata of a new list. *)
Fixpoint LPush_new_loop (key : bytes) (version : Z) (values : list bytes) (v : ListsMetaValue) (batch : list Op)
    : list Op * ListsMetaValue :=
  match values with
  | [] => (batch, v)
  | value :: values =>
      let index := lm_leftindex v in
      LPush_new_loop key version values (Lists_ModifyLeftIndex 1 v) (batch ++ [OpPut (node_key key version index) value])
  end.

Definition LPush (d : D) (key : bytes) (values : list bytes) : option (Status * Z * D) :=
  let? (s, metavalue, d) := kget d (meta_key key) [] in
  if ok s then
    let? p := ParsedListsMetaValue_make true metavalue in
    let? (version, p) :=
      if IsStale now (pl_timestamp p) || (pl_count p =? 0) then Lists_InitialMetaValue now p else Some (pl_version p, p) in
    let? (batch, p) := LPush_loop key version values p [] in
    let? (s, d) := kwrite d (batch ++ [OpPut (meta_key key) (pl_value p)]) in
    Some (s, pl_count p, d)
  else if IsNotFound s then
    let '(version, v) := Lists_UpdateVersion now (ListsMetaValue_make (EncodeFixed64 (len values))) in
    let '(batch, v) := LPush_new_loop key version values v [] in
    let? (s, d) := kwrite d (batch ++ [OpPut (meta_key key) (Lists_Encode v)]) in
    Some (s, u64 (lm_rightindex v - lm_leftindex v - 1), d)
  else Some (s, 0, d).

(** [LPop] reads the metadata under [key] itself, where no list has it. *)
Definition LPop (d : D) (key element : bytes) : option (Status * bytes * D) :=
  let? (s, metavalue, d) := kget d key [] in
  if ok s then
    let? p := ParsedListsMetaValue_make true metavalue in
    if IsStale now (pl_timestamp p) then Some (NotFound (str "Stale") [], element, d)
    else if pl_count p =? 0 then Some (NotFound [] [], element, d)
    else
      let version := pl_version p in
      let k := node_key key version (u64 (pl_leftindex p + 1)) in
      let? (s, element, d) := kget d k element in
      if ok s then
        let? p := Lists_ModifyCount (-1) p in
        let? p := ParsedLists_ModifyLeftIndex (-1) p in
        let? (s, d) := kwrite d [OpDelete k; OpPut (meta_key key) (pl_value p)] in
        Some (s, element, d)
      else Some (s, element, d)
  else Some (s, element, d).

(** An iterator set to an element: what it shows from there on. *)
Definition from_node (d : D) (key : bytes) (version index : Z) : option (list (bytes * bytes)) :=
  let? (es, _) := kentries d (Some (node_key key version index)) in Some es.

(** [for (...; iter->Valid() && currentindex <= last; iter->Next(), currentindex++)]. *)
Fixpoint values_until (es : list (bytes * bytes)) (currentindex last : Z) : list bytes :=
  match es with
  | [] => []
  | e :: es => if currentindex <=? last then e.2 :: values_until es (u64 (currentindex + 1)) last else []
  end.

Definition LRange (d : D) (key : bytes) (start stop : Z) (ret : list bytes) : option (Status * list bytes * D) :=
  let? (s, metavalue, d) := kget d (meta_key key) [] in
  if ok s then
    let? p := ParsedListsMetaValue_make true metavalue in
    if IsStale now (pl_timestamp p) then Some (NotFound (str "Stale") [], ret, d)
    else if pl_count p =? 0 then Some (NotFound [] [], ret, d)
    else
      let version := pl_version p in
      let originleft := u64 (pl_leftindex p + 1) in
      let originright := u64 (pl_rightindex p - 1) in
      let subleft := if 0 <=? start then u64 (originleft + start) else u64 (originright + start + 1) in
      let subright := if 0 <=? stop then u64 (originleft + stop) else u64 (originright + stop + 1) in
      if (subright <? subleft) || (originright <? subleft) || (subright <? originleft) then Some (OK, ret, d)
      else
        let subleft := if subleft <? originleft then originleft else subleft in
        let subright := if originright <? subright then originright else subright in
        let? es := from_node d key version subleft in
        Some (OK, ret ++ values_until es subleft subright, d)
  else Some (s, ret, d).

Definition LLen (d : D) (key : bytes) : option (Status * Z * D) :=
  let? (s, metavalue, d) := kget d (meta_key key) [] in
  if ok s then
    let? p := ParsedListsMetaValue_make true metavalue in
    if IsStale now (pl_timestamp p) then Some (NotFound (str "Stale") [], 0, d)
    else if pl_count p =? 0 then Some (NotFound [] [], 0, d)
    else Some (s, pl_count p, d)
  else Some (s, 0, d).

Definition Del (d : D) (key : bytes) : option (Status * D) :=
  let? (s, metavalue, d) := kget d (meta_key key) [] in
  if ok s then
    let? p := ParsedListsMetaValue_make true metavalue in
    if IsStale now (pl_timestamp p) then Some (NotFound (str "Stale") [], d)
    else if pl_count p =? 0 then Some (NotFound [] [], d)
    else
      let? (version, p) := Lists_InitialMetaValue now p in
      kwrite d [OpPut (meta_key key) (pl_value p)]
  else Some (s, d).
End List_.

(** ** The contract: a list of values *)

(** What [LRange] selects: the elements from [start] to [stop], counted from the end when
    negative. *)
Definition slice (vs : list bytes) (start stop : Z) : list bytes :=
  let n := len vs in
  let a := if 0 <=? start then start else n + start in
  let b := if 0 <=? stop then stop else n + stop in
  if (b <? a) || (n <=? a) || (b <? 0) then []
  else take (Z.to_nat (Z.min b (n - 1) - Z.max a 0 + 1)) (drop (Z.to_nat (Z.max a 0)) vs).

(** A list: its version, the index left of its first element, its elements, and how many
    of them lie left of its right index ([-1] when that is the left index). *)
Record AList := MkAList { al_version : Z; al_left : Z; al_values : list bytes; al_seen : Z }.

Abbreviation lists := (gmap bytes AList).
Abbreviation node_key := ListsDataKey_Encode.
Abbreviation meta_key key := (ListsDataKey_Encode key 0 0).

Record list_ok (k : bytes) (l : AList) : Prop := {
  lo_key : len k < 2 ^ 31 - 16;
  lo_version : 0 < al_version l < 2 ^ 31;
  lo_left : 2 ^ 62 <= al_left l /\ al_left l + len (al_values l) < 2 ^ 63 + 2 ^ 62;
  lo_seen : -1 <= al_seen l <= len (al_values l)
}.

Definition meta_of (l : AList) : bytes :=
  lists_raw (len (al_values l)) (al_version l) 0 (al_left l) (al_left l + 1 + al_seen l).

Definition node_of (l : AList) (i : Z) : option bytes :=
  if al_left l <? i then al_values l !! Z.to_nat (i - al_left l - 1) else None.

(** [m] holds exactly [ls], and elements of older versions. *)
Record rep (m : kvmap) (ls : lists) : Prop := {
  rp_ok k l : ls !! k = Some l -> list_ok k l;
  rp_meta k l : ls !! k = Some l -> m !! meta_key k = Some (meta_of l);
  rp_node k l i : ls !! k = Some l -> is_u64 i -> m !! node_key k (al_version l) i = node_of l i;
  rp_only k v i x : list_key_ok k v i -> m !! node_key k v i = Some x ->
    exists l, ls !! k = Some l /\ ((v = 0 /\ i = 0) \/ 0 < v <= al_version l)
}.

Lemma list_rep_empty : rep ∅ ∅.
Proof. split; intros *; by rewrite lookup_empty. Qed.

Lemma meta_key_ok k : len k < 2 ^ 31 - 16 -> list_key_ok k 0 0.
Proof. intros Hk. split; [done|]. unfold is_i32. lia. Qed.

Lemma node_key_ok k l i : list_ok k l -> is_u64 i -> list_key_ok k (al_version l) i.
Proof. intros [Hk Hv _ _] Hi. split; [done|]. split; [unfold is_i32; lia|done]. Qed.

Lemma node_key_eq k v i k' v' i' : list_key_ok k v i -> list_key_ok k' v' i' -> node_key k v i = node_key k' v' i' <-> k = k' /\ v = v' /\ i = i'.
Proof. intros Hk Hk'. split; [by apply ListsDataKey_inj|by intros (-> & -> & ->)]. Qed.

(** A list is replaced. *)
Lemma list_rep_insert m ls m' k l : rep m ls -> list_ok k l ->
  (forall l0, ls !! k = Some l0 -> al_version l0 <= al_version l) ->
  m' !! meta_key k = Some (meta_of l) ->
  (forall i, is_u64 i -> m' !! node_key k (al_version l) i = node_of l i) ->
  (forall k' v i, list_key_ok k' v i -> k' <> k \/ (v <> al_version l /\ ~ (v = 0 /\ i = 0)) -> m' !! node_key k' v i = m !! node_key k' v i) ->
  rep m' (<[k := l]> ls).
Proof.
  intros Hr Hok Hver Hmeta Hnode Hrest. split.
  - intros k' l' [[<- <-]|[Hne Hs]]%lookup_insert_Some; [done|by apply (rp_ok m ls Hr)].
  - intros k' l' [[<- <-]|[Hne Hs]]%lookup_insert_Some; [done|].
    rewrite Hrest; [by apply (rp_meta m ls Hr)|apply meta_key_ok, (rp_ok m ls Hr k' l' Hs)|by left].
  - intros k' l' i [[<- <-]|[Hne Hs]]%lookup_insert_Some Hi; [by apply Hnode|].
    rewrite Hrest; [by apply (rp_node m ls Hr)|by apply node_key_ok; [apply (rp_ok m ls Hr)|]|by left].
  - intros k' v i x Hk Hx. destruct (decide (k' = k)) as [->|Hne].
    + exists l. rewrite lookup_insert_eq. split; [done|]. destruct (decide (v = 0 /\ i = 0)) as [?|Hn0]; [by left|right].
      destruct (decide (v = al_version l)) as [->|Hv]; [split; [apply Hok|done]|].
      rewrite Hrest in Hx by (done || by right). destruct (rp_only m ls Hr k v i x Hk Hx) as (l0 & Hl0 & [?|Hle]); [done|].
      specialize (Hver l0 Hl0). lia.
    + rewrite Hrest in Hx by (done || by left). rewrite lookup_insert_ne by done. by apply (rp_only m ls Hr k' v i x).
Qed.

(** Nothing is stored under a version that is yet to come. *)
Lemma rep_fresh m ls k v i : rep m ls -> list_key_ok k v i -> 0 < v -> (forall l, ls !! k = Some l -> al_version l < v) -> m !! node_key k v i = None.
Proof.
  intros Hr Hk Hv Hl. destruct (m !! node_key k v i) as [x|] eqn:Hx; [|done].
  destruct (rp_only m ls Hr k v i x Hk Hx) as (l & Hs & [[? _]|Hle]); [lia|]. specialize (Hl l Hs). lia.
Qed.

(** *** Pushing *)

Fixpoint node_ops (k : bytes) (v left : Z) (values : list bytes) : list Op :=
  match values with
  | [] => []
  | x :: values => OpPut (node_key k v left) x :: node_ops k v (left - 1) values
  end.

Lemma node_ops_lookup k v values : forall left m k' v' i', len k < 2 ^ 31 - 16 -> is_i32 v -> is_u64 left -> len values <= left ->
  list_key_ok k' v' i' ->
  ops_on (node_ops k v left values) m !! node_key k' v' i' =
    if bool_decide (k' = k /\ v' = v /\ left - len values < i' <= left) then values !! Z.to_nat (left - i') else m !! node_key k' v' i'.
Proof.
  induction values as [|x values IH]; intros left m k' v' i' Hk Hv Hl Hn Hk'; cbn [node_ops length] in *.
  { rewrite bool_decide_eq_false_2; [done|]. intros (_ & _ & ?). lia. }
  unfold ops_on. cbn [fold_left]. fold (ops_on (node_ops k v (left - 1) values)).
  rewrite IH by (done || lia). cbn [op_on].
  case_bool_decide as H1.
  - destruct H1 as (-> & -> & Hi). rewrite bool_decide_eq_true_2 by (split_and!; try done; lia). by replace (Z.to_nat (left - i')) with (S (Z.to_nat (left - 1 - i'))) by lia.
  - rewrite lookup_insert. case_decide as Hd.
    + apply node_key_eq in Hd as (-> & -> & ->); [|done..]. rewrite bool_decide_eq_true_2 by (split_and!; try done; lia). by rewrite Z.sub_diag.
    + rewrite bool_decide_eq_false_2; [done|]. intros (-> & -> & ?). destruct (decide (i' = left)) as [->|]; [by apply Hd|]. apply H1. split_and!; try done; lia.
Qed.

Lemma LPush_loop_ok key version values : forall c v t l r batch, len values <= l < 2 ^ 64 -> 0 <= c /\ c + len values < 2 ^ 64 ->
  LPush_loop key version values (lists_parsed true c v t l r) batch =
    Some (batch ++ node_ops key version l values, lists_parsed true (c + len values) v t (l - len values) r).
Proof.
  induction values as [|x values IH]; intros c v t l r batch Hl Hc; cbn [LPush_loop node_ops length] in *.
  { by rewrite app_nil_r, Z.add_0_r, Z.sub_0_r. }
  change (pl_leftindex (lists_parsed true c v t l r)) with l. unfold ParsedLists_ModifyLeftIndex, Lists_ModifyCount.
  change (pl_leftindex (lists_parsed true c v t l r)) with l. rewrite u64_small, Lists_set_left by lia. cbn [mbind option_bind].
  change (pl_count (lists_parsed true c v t (l - 1) r)) with c. rewrite u64_small, Lists_set_count by lia. cbn [mbind option_bind].
  rewrite IH, <- app_assoc by lia. cbn [app].
  replace (c + 1 + len values) with (c + Z.of_nat (S (length values))) by lia. by replace (l - 1 - len values) with (l - Z.of_nat (S (length values))) by lia.
Qed.

Lemma LPush_new_loop_ok key version values : forall x l r v t batch, len values <= l < 2 ^ 64 ->
  LPush_new_loop key version values (MkListsMetaValue x l r v t) batch =
    (batch ++ node_ops key version l values, MkListsMetaValue x (l - len values) r v t).
Proof.
  induction values as [|y values IH]; intros x l r v t batch Hl; cbn [LPush_new_loop node_ops length] in *.
  { by rewrite app_nil_r, Z.sub_0_r. }
  unfold Lists_ModifyLeftIndex. cbn [lm_leftindex lm_value lm_rightindex lm_version lm_timestamp]. rewrite u64_small, IH, <- app_assoc by lia.
  cbn [app]. by replace (l - 1 - len values) with (l - Z.of_nat (S (length values))) by lia.
Qed.

(** The list with [vs] pushed one after the other. *)
Definition pushed (vs : list bytes) (seen : Z) (l : AList) : AList :=
  MkAList (al_version l) (al_left l - len vs) (rev vs ++ al_values l) seen.

Lemma rep_pushed m ls k l vs seen : rep m ls -> list_ok k (pushed vs seen l) ->
  (forall l0, ls !! k = Some l0 -> al_version l0 <= al_version l) ->
  (forall i, is_u64 i -> m !! node_key k (al_version l) i = node_of l i) ->
  al_left l < 2 ^ 64 ->
  rep (ops_on (node_ops k (al_version l) (al_left l) vs ++ [OpPut (meta_key k) (meta_of (pushed vs seen l))]) m) (<[k := pushed vs seen l]> ls).
Proof.
  intros Hr Hok Hver Hnode Hleft. pose proof Hok as [Hk Hv Hl Hs]. cbn [pushed al_version al_left al_values al_seen] in Hv, Hl, Hs.
  rewrite length_app, length_rev in Hl. rewrite ops_on_app.
  assert (forall k' v' i', list_key_ok k' v' i' -> node_key k' v' i' <> meta_key k ->
    (ops_on [OpPut (meta_key k) (meta_of (pushed vs seen l))] (ops_on (node_ops k (al_version l) (al_left l) vs) m)) !! node_key k' v' i' =
      if bool_decide (k' = k /\ v' = al_version l /\ al_left l - len vs < i' <= al_left l) then vs !! Z.to_nat (al_left l - i') else m !! node_key k' v' i') as Hat.
  { intros k' v' i' Hk' Hne. cbn [ops_on fold_left op_on]. rewrite lookup_insert_ne by done. apply node_ops_lookup; try done; [unfold is_i32; lia|lia|lia]. }
  apply (list_rep_insert m); [done|done|done| | |].
  - cbn [ops_on fold_left op_on]. apply lookup_insert_eq.
  - intros i Hi. cbn [pushed al_version]. rewrite Hat.
    2:{ split; [done|]. split; [unfold is_i32; lia|done]. }
    2:{ intros (_ & Hz & _)%node_key_eq; [lia|split; [done|split; [unfold is_i32; lia|done]]|by apply meta_key_ok]. }
    unfold node_of. cbn [pushed al_left al_values]. case_bool_decide as Hd.
    + destruct Hd as (_ & _ & Hd). rewrite (proj2 (Z.ltb_lt _ _)) by lia. rewrite lookup_app_l by (rewrite length_rev; lia).
      replace (rev vs) with (reverse vs) by (symmetry; apply rev_alt). rewrite reverse_lookup by lia. f_equal. lia.
    + rewrite Hnode by done. unfold node_of. destruct (Z.ltb_spec (al_left l) i).
      * rewrite (proj2 (Z.ltb_lt _ _)) by lia. rewrite lookup_app_r by (rewrite length_rev; lia). rewrite length_rev. f_equal. lia.
      * rewrite (proj2 (Z.ltb_ge _ _)); [done|]. destruct (decide (i <= al_left l - len vs)); [done|]. exfalso. apply Hd. split_and!; try done; lia.
  - intros k' v' i' Hk' Hne. rewrite Hat; [|done|].
    + rewrite bool_decide_eq_false_2; [done|]. intros (-> & -> & _). cbn in Hne. by destruct Hne as [?|[? _]].
    + intros (-> & -> & ->)%node_key_eq; [|done|by apply meta_key_ok]. destruct Hne as [?|[_ Hn]]; [done|by apply Hn].
Qed.

Lemma next_version_fresh now v : 0 < now < 2 ^ 31 -> 0 <= v < 2 ^ 31 - 1 -> v < lists_next_version now v < 2 ^ 31.
Proof. intros Hn Hv. unfold lists_next_version. rewrite !i32_small by lia. destruct (Z.leb_spec now v); lia. Qed.

(** *** Walking over the elements *)

Abbreviation lcmp := (Compare ListsDataKeyComparatorImpl).
Abbreviation in_list_order := (StronglySorted (fun a b : bytes * bytes => lcmp a.1 b.1 = Lt)).

Lemma lcmp_nodes k v i k' v' i' : list_key_ok k v i -> list_key_ok k' v' i' -> lcmp (node_key k v i) (node_key k' v' i') = list_key_compare k v i k' v' i'.
Proof. intros Hk Hk'. cbn [Compare ListsDataKeyComparatorImpl]. by rewrite Lists_Compare_Encode. Qed.

(** Nothing lies between an index and the next. *)
Lemma node_next k v i key : list_key_ok k v i -> list_key_ok k v (i + 1) -> list_dom key ->
  lcmp (node_key k v i) key = Lt -> lcmp key (node_key k v (i + 1)) <> Lt.
Proof.
  intros Hk Hk1 (k' & v' & i' & Hk' & ->). rewrite !lcmp_nodes by done. unfold list_key_compare.
  rewrite (compare_opp k' k). destruct (compare k k'); cbn; [|done|done].
  rewrite (Z.compare_antisym v v'). destruct (v ?= v') eqn:Hv; cbn; [|done|done]. rewrite !Z.compare_lt_iff. lia.
Qed.

Lemma seek_node es k v i x : in_list_order es -> Forall (fun e => list_dom e.1) es -> list_key_ok k v i -> list_key_ok k v (i + 1) ->
  (node_key k v i, x) ∈ es ->
  seek_from ListsDataKeyComparatorImpl (node_key k v i) es = (node_key k v i, x) :: seek_from ListsDataKeyComparatorImpl (node_key k v (i + 1)) es.
Proof.
  intros Hs. induction Hs as [|e es Hs IH Hall]; intros Hdom Hk Hk1 Hin; [by apply not_elem_of_nil in Hin|].
  apply Forall_cons in Hdom as [He Hdom]. rewrite Forall_forall in Hall, Hdom.
  assert (list_dom (node_key k v i)) as Hd by (by exists k, v, i). assert (list_dom (node_key k v (i + 1))) as Hd1 by (by exists k, v, (i + 1)).
  assert (lcmp (node_key k v i) (node_key k v (i + 1)) = Lt) as Hlt.
  { rewrite lcmp_nodes by done. unfold list_key_compare. rewrite compare_refl, Z.compare_refl. cbn. apply Z.compare_lt_iff. lia. }
  cbn [seek_from]. apply elem_of_cons in Hin as [<-|Hin].
  - cbn [fst]. rewrite bool_decide_eq_false_2 by (rewrite (Compare_refl (dom := list_dom)) by done; done).
    rewrite (bool_decide_eq_true_2 _ Hlt). f_equal. destruct es as [|e' es']; [done|]. cbn [seek_from].
    rewrite bool_decide_eq_false_2; [done|]. apply (node_next k v i); [done|done|apply Hdom; by left|apply (Hall e'); by left].
  - assert (lcmp e.1 (node_key k v i) = Lt) as Hlt0 by (by apply (Hall (node_key k v i, x))).
    rewrite (bool_decide_eq_true_2 _ Hlt0). rewrite bool_decide_eq_true_2; [by apply IH; [apply Forall_forall|..]|].
    by apply (Compare_lt_trans (dom := list_dom) _ (node_key k v i)).
Qed.

Lemma values_until_ok es k v values : in_list_order es -> Forall (fun e => list_dom e.1) es -> len k < 2 ^ 31 - 16 -> is_i32 v ->
  forall i last, 0 <= i -> last < 2 ^ 64 - 1 -> last - i + 1 = len values ->
  (forall j x, values !! j = Some x -> (node_key k v (i + Z.of_nat j), x) ∈ es) ->
  values_until (seek_from ListsDataKeyComparatorImpl (node_key k v i) es) i last = values.
Proof.
  intros Hs Hdom Hk Hv. induction values as [|x values IH]; intros i last Hi Hlast Hn Hin; cbn [length] in Hn.
  - destruct (seek_from _ _ es); [done|]. cbn [values_until]. by rewrite (proj2 (Z.leb_gt _ _)) by lia.
  - assert (forall j, 0 <= j < 2 ^ 64 -> list_key_ok k v j) as Hok by (intros j Hj; by split).
    rewrite (seek_node es k v i x); [|done|done|apply Hok; lia|apply Hok; lia|rewrite <- (Z.add_0_r i); by apply (Hin 0%nat)].
    cbn [values_until snd]. rewrite (proj2 (Z.leb_le _ _)), u64_small by lia. f_equal. apply IH; [lia|lia|lia|].
    intros j y Hj. replace (i + 1 + Z.of_nat j) with (i + Z.of_nat (S j)) by lia. by apply Hin.
Qed.

(** *** The commands *)

Inductive ListCmd :=
  | CLPush (key : bytes) (values : list bytes)
  | CLRange (key : bytes) (start stop : Z)
  | CLLen (key : bytes)
  | CDel (key : bytes).

Inductive ListReply := RLength (s : Status) (n : Z) | RValues (s : Status) (vs : list bytes) | RStatus (s : Status).

Definition run_list {D} `{KVStore D} (now : Z) (d : D) (c : ListCmd) : option (ListReply * D) :=
  match c with
  | CLPush key values => let? (s, n, d) := LPush now d key values in Some (RLength s n, d)
  | CLRange key start stop => let? (s, vs, d) := LRange now d key start stop [] in Some (RValues s vs, d)
  | CLLen key => let? (s, n, d) := LLen now d key in Some (RLength s n, d)
  | CDel key => let? (s, d) := Del now d key in Some (RStatus s, d)
  end.

Definition list_key (c : ListCmd) : bytes :=
  match c with CLPush key _ | CLRange key _ _ | CLLen key | CDel key => key end.

Definition reply_status (r : ListReply) : Status := match r with RLength s _ | RValues s _ | RStatus s => s end.

(** A list without elements is not there. *)
Definition live (o : option AList) : option AList :=
  match o with Some l => if bool_decide (al_values l = []) then None else Some l | None => None end.

(** A list that begins anew, under a version of its own. *)
Definition begun (now v : Z) : AList := MkAList (lists_next_version now v) InitalLeftIndex [] 0.

(** The elements that a range can show. *)
Definition shown (l : AList) : list bytes := take (Z.to_nat (al_seen l)) (al_values l).

(** The right index of a list that was never there before is lost: of its elements a range
    shows none, and of those pushed later all but the last. *)
Definition list_after (now : Z) (c : ListCmd) (o : option AList) : option AList :=
  match c with
  | CLPush _ vs =>
      Some match o with
      | None => pushed vs (-1) (begun now 0)
      | Some l => if bool_decide (al_values l = []) then pushed vs (len vs) (begun now (al_version l)) else pushed vs (al_seen l + len vs) l
      end
  | CDel _ => match live o with Some l => Some (begun now (al_version l)) | None => o end
  | _ => o
  end.

Definition missing (s : Status) : Prop := IsNotFound s = true.

Definition list_reply (now : Z) (c : ListCmd) (o : option AList) (r : ListReply) : Prop :=
  match c with
  | CLPush _ vs => exists l, list_after now c o = Some l /\ r = RLength OK (len (al_values l))
  | CLRange _ a b =>
      match live o with
      | Some l => r = RValues OK (slice (shown l) a b)
      | None => exists s, missing s /\ r = RValues s []
      end
  | CLLen _ =>
      match live o with
      | Some l => r = RLength OK (len (al_values l))
      | None => exists s, missing s /\ r = RLength s 0
      end
  | CDel _ => match live o with Some l => r = RStatus OK | None => exists s, missing s /\ r = RStatus s end
  end.

(** What the format asks: the sizes, room for the indices and a version that is left. *)
Definition cmd_fits (c : ListCmd) (o : option AList) : Prop :=
  match c with
  | CLPush _ vs => Forall (fun x => len x < 2 ^ 32) vs /\ len vs < 2 ^ 31 - 1 /\
      (forall l, o = Some l -> 2 ^ 62 <= al_left l - len vs /\ al_version l < 2 ^ 31 - 1)
  | CLRange _ a b => - 2 ^ 61 <= a < 2 ^ 61 /\ - 2 ^ 61 <= b < 2 ^ 61
  | CLLen _ => True
  | CDel _ => forall l, o = Some l -> al_version l < 2 ^ 31 - 1
  end.

Section Commands.
Context {D : Type} `{KVStoreOk D ListsDataKeyComparatorImpl list_dom holds held} (now : Z).
#[local] Hint Extern 0 (held _ _) => (eapply kholds_held; eassumption) : core.
Hypothesis Hnow : 0 < now < 2 ^ 31.

Lemma meta_of_parse k l : list_ok k l -> ParsedListsMetaValue_make true (meta_of l) =
  Some (lists_parsed true (len (al_values l)) (al_version l) 0 (al_left l) (al_left l + 1 + al_seen l)).
Proof. intros [Hk Hv Hl Hs]. unfold meta_of. apply Lists_parse; try done; unfold is_i32; lia. Qed.

(** Reading the metadata. *)
Lemma list_read_meta d m ls k : holds d m -> rep m ls -> len k < 2 ^ 31 - 16 ->
  exists s raw d', kget d (meta_key k) [] = Some (s, raw, d') /\ holds d' m /\
    (failed s \/ match ls !! k with Some l => s = OK /\ raw = meta_of l | None => s = NotFound [] [] end).
Proof.
  intros Hh Hr Hk. destruct (kget_ok d m (meta_key k) [] Hh) as (s & raw & d' & -> & Hh' & Hc).
  { exists k, 0, 0. split; [by apply meta_key_ok|done]. }
  eexists _, _, _. split; [done|]. split; [done|]. destruct Hc as [?|Hc]; [by left|right]. destruct (ls !! k) as [l|] eqn:Hl.
  - by rewrite (rp_meta m ls Hr k l Hl) in Hc.
  - destruct (m !! meta_key k) as [x|] eqn:Hx; [|by destruct Hc].
    destruct (rp_only m ls Hr k 0 0 x (meta_key_ok k Hk) Hx) as (l & Hl' & _). by rewrite Hl in Hl'.
Qed.

(** The batch of a push. *)
Lemma write_push d m ls k l vs seen : holds d m -> rep m ls -> list_ok k (pushed vs seen l) ->
  (forall l0, ls !! k = Some l0 -> al_version l0 <= al_version l) ->
  (forall i, is_u64 i -> m !! node_key k (al_version l) i = node_of l i) ->
  al_left l < 2 ^ 64 -> Forall (fun x => len x < 2 ^ 32) vs -> len vs < 2 ^ 31 - 1 ->
  exists st d', kwrite d (node_ops k (al_version l) (al_left l) vs ++ [OpPut (meta_key k) (meta_of (pushed vs seen l))]) = Some (st, d') /\
    ((st = OK /\ exists m', held d' m' /\ rep m' (<[k := pushed vs seen l]> ls)) \/ (failed st /\ held d' m)).
Proof.
  intros Hh Hr Hok Hver Hnode Hleft Hvs Hn. pose proof Hok as [Hk Hv Hl Hs]. cbn [pushed al_version al_left al_values al_seen] in Hv, Hl, Hs.
  rewrite length_app, length_rev in Hl.
  assert (forall xs left, Forall (fun x => len x < 2 ^ 32) xs -> is_u64 left -> len xs <= left ->
    Forall op_fits (node_ops k (al_version l) left xs) /\ Forall (fun o => list_dom (op_key o)) (node_ops k (al_version l) left xs) /\
    len (node_ops k (al_version l) left xs) = len xs) as Hops.
  { induction xs as [|x xs IH]; intros left Hxs Hu Hle; cbn [node_ops]; [by repeat constructor|]. apply Forall_cons in Hxs as [Hx Hxs].
    cbn [length] in Hle. destruct (IH (left - 1) Hxs) as (I1 & I2 & I3); [lia|lia|]. split; [|split].
    - constructor; [|done]. unfold op_fits. cbn [op_key]. rewrite length_ListsDataKey. lia.
    - constructor; [|done]. exists k, (al_version l), left. split; [|done]. split; [done|]. unfold is_i32. lia.
    - cbn [length] in *. lia. }
  destruct (Hops vs (al_left l) Hvs) as (F1 & F2 & F3); [lia|lia|].
  assert (op_fits (OpPut (meta_key k) (meta_of (pushed vs seen l)))) as Fm.
  { unfold op_fits. cbn [op_key]. unfold meta_of. rewrite length_ListsDataKey, length_lists_raw. lia. }
  destruct (kwrite_ok d m (node_ops k (al_version l) (al_left l) vs ++ [OpPut (meta_key k) (meta_of (pushed vs seen l))]) Hh) as (st & d' & -> & Hc).
  - split; [apply Forall_app; split; [done|by apply Forall_singleton]|]. rewrite length_app. cbn [length]. lia.
  - apply Forall_app. split; [done|]. apply Forall_singleton. exists k, 0, 0. split; [by apply meta_key_ok|done].
  - eexists _, _. split; [done|]. destruct Hc as [[-> Hh']|[? ?]]; [left|by right]. split; [done|]. eexists. split; [exact Hh'|]. by apply rep_pushed.
Qed.

Lemma meta_of_pushed vs seen l c left right : c = len vs + len (al_values l) -> left = al_left l - len vs -> right = left + 1 + seen ->
  lists_raw c (al_version l) 0 left right = meta_of (pushed vs seen l).
Proof.
  intros -> -> ->. unfold meta_of. cbn [pushed al_version al_left al_values al_seen]. rewrite length_app, length_rev. do 2 f_equal. lia.
Qed.

Lemma begun_empty v i : node_of (begun now v) i = None.
Proof. unfold node_of. cbn. by case_match. Qed.

Lemma LPush_ok d m ls k vs : holds d m -> rep m ls -> len k < 2 ^ 31 - 16 -> cmd_fits (CLPush k vs) (ls !! k) ->
  exists st n d', LPush now d k vs = Some (st, n, d') /\
    ((st = OK /\ exists l m', list_after now (CLPush k vs) (ls !! k) = Some l /\ n = len (al_values l) /\ held d' m' /\ rep m' (<[k := l]> ls)) \/
     (failed st /\ held d' m)).
Proof.
  intros Hh Hr Hk (Hvs & Hn & Hroom). unfold LPush. destruct (list_read_meta d m ls k Hh Hr Hk) as (s & raw & d1 & -> & Hh1 & Hc).
  cbn [mbind option_bind]. destruct Hc as [[Hf1 Hf2]|Hc].
  { rewrite Hf1, Hf2. eexists _, _, _. split; [done|]. by right. }
  assert (forall v, 0 <= v < 2 ^ 31 - 1 -> list_ok k (pushed vs (len vs) (begun now v)) /\ list_ok k (pushed vs (-1) (begun now v))) as Hbegun.
  { intros v Hv. pose proof (next_version_fresh now v Hnow Hv). unfold begun, pushed, InitalLeftIndex.
    split; split; cbn [al_version al_left al_values al_seen]; rewrite ?length_app, ?length_rev; cbn [length]; lia. }
  assert (forall v i, 0 <= v < 2 ^ 31 - 1 -> is_u64 i -> (forall l, ls !! k = Some l -> al_version l <= v) ->
    m !! node_key k (al_version (begun now v)) i = node_of (begun now v) i) as Hfresh.
  { intros v i Hv Hi Hle. pose proof (next_version_fresh now v Hnow Hv). rewrite begun_empty. cbn [begun al_version].
    apply (rep_fresh m ls); [done|split; [done|split; [unfold is_i32; lia|done]]|lia|]. intros l Hl. specialize (Hle l Hl). lia. }
  destruct (ls !! k) as [l|] eqn:Hl.
  - destruct Hc as [-> ->]. destruct (Hroom l eq_refl) as [Hleft Hver]. pose proof (rp_ok m ls Hr k l Hl) as Hok. pose proof Hok as [_ Hv Hlf Hs].
    cbn [ok OK]. rewrite (meta_of_parse k l Hok). cbn [mbind option_bind]. change (pl_timestamp (lists_parsed _ _ _ 0 _ _)) with 0.
    change (pl_count (lists_parsed true (len (al_values l)) _ _ _ _)) with (len (al_values l)). cbn [IsStale Z.eqb orb list_after].
    case_bool_decide as Hempty.
    + rewrite Hempty. cbn [length]. change (Z.of_nat 0 =? 0) with true. cbv iota. rewrite Lists_initial. cbn [mbind option_bind].
      rewrite LPush_loop_ok by (unfold InitalLeftIndex; lia). cbn [mbind option_bind app].
      pose proof (next_version_fresh now (al_version l) Hnow ltac:(lia)) as Hnext.
      change (pl_value (lists_parsed true ?a ?b ?c ?e ?f)) with (lists_raw a b c e f).
      rewrite (meta_of_pushed vs (len vs) (begun now (al_version l))) by (cbn; unfold InitalLeftIndex, InitalRightIndex; lia).
      destruct (write_push d1 m ls k (begun now (al_version l)) vs (len vs) Hh1 Hr) as (st & d2 & Hw & Hc); try done.
      { by apply Hbegun; lia. }
      { intros l0 Hl0; rewrite ?Hl in Hl0; injection Hl0 as <-. cbn. lia. }
      { intros i Hi. apply Hfresh; [lia|done|]. by intros l0 Hl0; rewrite ?Hl in Hl0; injection Hl0 as <-. }
      cbn [begun al_version al_left] in Hw. rewrite Hw. cbn [mbind option_bind]. eexists _, _, _. split; [done|].
      destruct Hc as [(-> & m' & Hm & Hr')|?]; [left|by right]. split; [done|]. eexists _, m'. split; [done|].
      split; [|by split]. cbn. rewrite length_app, length_rev. cbn. lia.
    + rewrite (proj2 (Z.eqb_neq _ _)) by (destruct (al_values l); cbn; [done|lia]). cbn [mbind option_bind].
      change (pl_version (lists_parsed true ?a ?b ?c ?e ?f)) with b.
      rewrite LPush_loop_ok by lia. cbn [mbind option_bind app].
      change (pl_value (lists_parsed true ?a ?b ?c ?e ?f)) with (lists_raw a b c e f).
      rewrite (meta_of_pushed vs (al_seen l + len vs) l) by lia.
      destruct (write_push d1 m ls k l vs (al_seen l + len vs) Hh1 Hr) as (st & d2 & -> & Hc); try done.
      { split; cbn [pushed al_version al_left al_values al_seen]; rewrite ?length_app, ?length_rev; lia. }
      { by intros l0 Hl0; rewrite ?Hl in Hl0; injection Hl0 as <-. }
      { intros i Hi. by apply (rp_node m ls Hr). }
      { lia. }
      cbn [mbind option_bind]. eexists _, _, _. split; [done|].
      destruct Hc as [(-> & m' & Hm & Hr')|?]; [left|by right]. split; [done|]. eexists _, m'. split; [done|].
      split; [|by split]. cbn. rewrite length_app, length_rev. lia.
  - subst s. cbn [ok NotFound IsNotFound list_after]. unfold Lists_UpdateVersion, ListsMetaValue_make. cbn [lm_version lm_value lm_leftindex lm_rightindex lm_timestamp].
    pose proof (next_version_fresh now 0 Hnow ltac:(lia)) as Hnext.
    rewrite LPush_new_loop_ok by (unfold InitalLeftIndex; lia). cbn [app]. unfold Lists_Encode, Lists_AppendIndex. cbn [lm_version lm_value lm_leftindex lm_rightindex lm_timestamp].
    change (EncodeFixed64 ?a ++ EncodeFixed32 (u32 ?b) ++ EncodeFixed32 (u32 ?c) ++ EncodeFixed64 ?e ++ EncodeFixed64 ?f) with (lists_raw a b c e f).
    rewrite (meta_of_pushed vs (-1) (begun now 0)) by (cbn; unfold InitalLeftIndex; lia).
    destruct (write_push d1 m ls k (begun now 0) vs (-1) Hh1 Hr) as (st & d2 & Hw & Hc); try done.
    { by apply Hbegun; lia. }
    { intros l0 Hl0. by rewrite ?Hl in Hl0. }
    { intros i Hi. apply Hfresh; [lia|done|]. intros l0 Hl0. by rewrite ?Hl in Hl0. }
    cbn [begun al_version al_left] in Hw. rewrite Hw. cbn [mbind option_bind]. eexists _, _, _. split; [done|].
    destruct Hc as [(-> & m' & Hm & Hr')|?]; [left|by right]. split; [done|]. eexists _, m'. split; [done|].
    split; [|by split]. cbn. rewrite length_app, length_rev. cbn. unfold InitalLeftIndex, InitalRightIndex. rewrite u64_small by lia. lia.
Qed.

Lemma values_until_some es : forall i last, 0 <= i -> last < 2 ^ 64 - 1 ->
  exists shown, shown `sublist_of` es /\ len shown <= Z.max 0 (last - i + 1) /\ values_until es i last = map snd shown.
Proof.
  induction es as [|e es IH]; intros i last Hi Hl; cbn [values_until]; [exists []; cbn; split_and!; [done|lia|done]|].
  destruct (Z.leb_spec i last) as [Hle|Hgt]; [|exists []; cbn; split_and!; [apply sublist_nil_l|lia|done]].
  rewrite u64_small by lia. destruct (IH (i + 1) last) as (shown & Hs & Hn & ->); [lia|lia|].
  exists (e :: shown). split; [by constructor|]. split; [cbn [length]; lia|done].
Qed.

(** Some of the entries of the database from one on, as many as [n] at most: what a failing iterator shows. *)
Definition some_entries (m : kvmap) (n : nat) (vs : list bytes) : Prop :=
  exists all es, in_order_of ListsDataKeyComparatorImpl m all /\ es `sublist_of` all /\ (length es <= n)%nat /\ vs = map snd es.

Lemma seek_sublist c target es : seek_from c target es `sublist_of` es.
Proof. induction es as [|e es IH]; cbn [seek_from]; [constructor|]. case_bool_decide; [by constructor|done]. Qed.

(** The elements from one index to another. *)
Lemma from_node_ok d m ls k l i last vs : holds d m -> rep m ls -> ls !! k = Some l -> al_left l < i < 2 ^ 64 -> last <= al_left l + len (al_values l) ->
  vs = take (Z.to_nat (last - i + 1)) (drop (Z.to_nat (i - al_left l - 1)) (al_values l)) ->
  exists es, from_node d k (al_version l) i = Some es /\
    (values_until es i last = vs \/
     (walk_fails d (Some (node_key k (al_version l) i)) /\ some_entries m (length vs) (values_until es i last))).
Proof.
  intros Hh Hr Hl Hi Hlast ->. pose proof (rp_ok m ls Hr k l Hl) as [Hk Hv Hlf _]. unfold from_node.
  assert (list_dom (node_key k (al_version l) i)) as Hdt.
  { exists k, (al_version l), i. split; [|done]. split; [done|]. split; [unfold is_i32; lia|lia]. }
  destruct (kentries_ok d m (Some (node_key k (al_version l) i)) Hh) as (all & es & st & [Hes Hs] & He & Hsub & Hfull); [by intros t [= <-]|].
  rewrite He. cbn [mbind option_bind rows_from] in *. eexists. split; [done|].
  destruct (ok st) eqn:Hst.
  2:{ right. split; [by exists es, st|]. destruct (values_until_some es i last) as (shown & Hsh & Hn & ->); [lia|lia|].
      exists all, shown. split; [done|]. split; [by rewrite Hsh, Hsub, seek_sublist|]. split; [|done].
      rewrite length_take, length_drop. lia. }
  left. rewrite (Hfull eq_refl). assert (Forall (fun e => list_dom e.1) all) as Hdom.
  { apply Forall_forall. intros [key x] Hx%Hes. by apply (kholds_dom d m key x). }
  destruct (decide (last < i)) as [Hlt|Hge].
  - replace (Z.to_nat (last - i + 1)) with 0%nat by lia. rewrite take_0. destruct (seek_from _ _ all); [done|].
    cbn [values_until]. by rewrite (proj2 (Z.leb_gt _ _)) by lia.
  - apply (values_until_ok all k (al_version l)); [done|done|done|unfold is_i32; lia|lia|lia|rewrite length_take, length_drop; lia|].
    intros j x [Hj Hjl]%lookup_take_Some. rewrite lookup_drop in Hj. apply Hes. rewrite (rp_node m ls Hr k l) by (done || lia).
    unfold node_of. rewrite (proj2 (Z.ltb_lt _ _)) by lia. rewrite <- Hj. f_equal. lia.
Qed.

(** The iterator over the elements of [k] fails. *)
Definition range_failed (d : D) (k : bytes) : Prop :=
  exists s raw d' v i, kget d (meta_key k) [] = Some (s, raw, d') /\ walk_fails d' (Some (node_key k v i)).

Lemma live_Some o l : live o = Some l -> o = Some l /\ al_values l <> [].
Proof. unfold live. destruct o as [l'|]; [|done]. case_bool_decide; [done|]. by intros [= ->]. Qed.

(** What the read-only commands and [Del] see. *)
Lemma read_live d m ls k : holds d m -> rep m ls -> len k < 2 ^ 31 - 16 ->
  exists s raw d', kget d (meta_key k) [] = Some (s, raw, d') /\ holds d' m /\
    (failed s \/ (s = NotFound [] [] /\ live (ls !! k) = None) \/
     exists l, s = OK /\ raw = meta_of l /\ ls !! k = Some l /\ list_ok k l /\ (len (al_values l) =? 0) = bool_decide (al_values l = [])).
Proof.
  intros Hh Hr Hk. destruct (list_read_meta d m ls k Hh Hr Hk) as (s & raw & d1 & Hg & Hh1 & Hc). exists s, raw, d1. split; [done|]. split; [done|].
  destruct Hc as [?|Hc]; [by left|right]. destruct (ls !! k) as [l|] eqn:Hl; [right|by left]. destruct Hc as [-> ->].
  exists l. split; [done|]. split; [done|]. split; [done|]. split; [by apply (rp_ok m ls Hr)|]. by destruct (al_values l).
Qed.

Lemma LRange_ok d m ls k a b : holds d m -> rep m ls -> len k < 2 ^ 31 - 16 -> cmd_fits (CLRange k a b) (ls !! k) ->
  exists st vs d', LRange now d k a b [] = Some (st, vs, d') /\ holds d' m /\
    (failed st \/ list_reply now (CLRange k a b) (ls !! k) (RValues st vs) \/
     (st = OK /\ range_failed d k /\ exists l, live (ls !! k) = Some l /\ some_entries m (length (slice (shown l) a b)) vs)).
Proof.
  intros Hh Hr Hk [Ha Hb]. unfold LRange, list_reply. destruct (read_live d m ls k Hh Hr Hk) as (s & raw & d1 & Hget & Hh1 & Hc). rewrite Hget. cbn [mbind option_bind].
  destruct Hc as [[Hf1 Hf2]|[[-> ->]|(l & -> & -> & Hl & Hok & Hz)]].
  - rewrite Hf1. eexists _, _, _. split; [done|]. split; [done|]. by left.
  - cbn [ok NotFound]. eexists _, _, _. split; [done|]. split; [done|]. right. left. by exists (NotFound [] []).
  - cbn [ok OK]. rewrite (meta_of_parse k l Hok), Hl. pose proof Hok as [_ Hv Hlf Hs]. cbn [mbind option_bind lists_parsed pl_timestamp pl_count pl_version pl_leftindex pl_rightindex].
    cbn [IsStale Z.eqb live]. rewrite Hz. case_bool_decide as Hne; [eexists _, _, _; split; [done|]; split; [done|]; right; left; by exists (NotFound [] [])|].
    rewrite !(u64_small (al_left l + 1 + al_seen l - 1)), !(u64_small (al_left l + 1)) by lia.
    set (ol := al_left l + 1). set (or := ol + al_seen l - 1). set (A := if 0 <=? a then a else al_seen l + a). set (B := if 0 <=? b then b else al_seen l + b).
    replace (if 0 <=? a then u64 (ol + a) else u64 (or + a + 1)) with (ol + A) by (unfold A, or, ol; destruct (Z.leb_spec 0 a); rewrite u64_small; lia).
    replace (if 0 <=? b then u64 (ol + b) else u64 (or + b + 1)) with (ol + B) by (unfold B, or, ol; destruct (Z.leb_spec 0 b); rewrite u64_small; lia).
    assert (len (shown l) = Z.max 0 (al_seen l)) as Hshown by (unfold shown; rewrite length_take; lia).
    assert (al_seen l = -1 -> slice (shown l) a b = []) as Hnone.
    { intros He. assert (shown l = []) as -> by (by rewrite <- length_zero_iff_nil; lia). unfold slice. case_match; [done|]. by rewrite drop_nil, take_nil. }
    destruct ((ol + B <? ol + A) || (or <? ol + A) || (ol + B <? ol)) eqn:Hcond.
    + eexists _, _, _. split; [done|]. split; [done|]. right. left. destruct (decide (al_seen l = -1)) as [He|He]; [by rewrite Hnone|].
      unfold slice. rewrite Hshown, Z.max_r by lia. fold A B. replace ((B <? A) || (al_seen l <=? A) || (B <? 0)) with true; [done|]. unfold or in Hcond. lia.
    + replace (if ol + A <? ol then ol else ol + A) with (ol + Z.max A 0) by (case_match; lia).
      replace (if or <? ol + B then or else ol + B) with (ol + Z.min B (al_seen l - 1)) by (unfold or; case_match; lia).
      set (vs := take (Z.to_nat (ol + Z.min B (al_seen l - 1) - (ol + Z.max A 0) + 1)) (drop (Z.to_nat (ol + Z.max A 0 - al_left l - 1)) (al_values l))).
      assert (vs = slice (shown l) a b) as Hvs.
      { unfold vs. replace (ol + Z.max A 0 - al_left l - 1) with (Z.max A 0) by lia.
        replace (ol + Z.min B (al_seen l - 1) - (ol + Z.max A 0) + 1) with (Z.min B (al_seen l - 1) - Z.max A 0 + 1) by lia.
        destruct (decide (al_seen l = -1)) as [He|He]; [rewrite Hnone by done; by replace (Z.to_nat _) with 0%nat by lia|].
        assert (0 <= al_seen l) as Hs0 by (clear -Hs He; lia). unfold slice. rewrite Hshown, (Z.max_r _ _ Hs0). fold A B. replace ((B <? A) || (al_seen l <=? A) || (B <? 0)) with false by (unfold or in Hcond; lia).
        unfold shown. rewrite skipn_firstn_comm, take_take. f_equal. lia. }
      destruct (from_node_ok d1 m ls k l (ol + Z.max A 0) (ol + Z.min B (al_seen l - 1)) vs Hh1 Hr Hl) as (es & -> & Hes); [unfold or in Hcond; lia|lia|done|].
      cbn [mbind option_bind]. eexists _, _, _. split; [done|]. split; [done|]. right. cbn [app]. rewrite <- Hvs. destruct Hes as [->|[Hw Hes]]; [by left|right].
      split; [done|]. split; [by eexists _, _, d1, (al_version l), _|]. exists l. split; [done|]. by rewrite <- Hvs.
Qed.

Lemma LLen_ok d m ls k : holds d m -> rep m ls -> len k < 2 ^ 31 - 16 ->
  exists st n d', LLen now d k = Some (st, n, d') /\ holds d' m /\ (failed st \/ list_reply now (CLLen k) (ls !! k) (RLength st n)).
Proof.
  intros Hh Hr Hk. unfold LLen, list_reply. destruct (read_live d m ls k Hh Hr Hk) as (s & raw & d1 & -> & Hh1 & Hc). cbn [mbind option_bind].
  destruct Hc as [[Hf1 Hf2]|[[-> ->]|(l & -> & -> & Hl & Hok & Hz)]].
  - rewrite Hf1. eexists _, _, _. split; [done|]. split; [done|]. by left.
  - cbn [ok NotFound]. eexists _, _, _. split; [done|]. split; [done|]. right. by exists (NotFound [] []).
  - cbn [ok OK]. rewrite (meta_of_parse k l Hok), Hl. cbn [mbind option_bind lists_parsed pl_timestamp pl_count]. cbn [IsStale Z.eqb live]. rewrite Hz.
    case_bool_decide; (eexists _, _, _; split; [done|]; split; [done|]; right); [by exists (NotFound [] [])|done].
Qed.

Lemma list_Del_ok d m ls k : holds d m -> rep m ls -> len k < 2 ^ 31 - 16 -> cmd_fits (CDel k) (ls !! k) ->
  exists st d', Del now d k = Some (st, d') /\
    ((exists l m', live (ls !! k) = Some l /\ st = OK /\ held d' m' /\ rep m' (<[k := begun now (al_version l)]> ls)) \/
     (held d' m /\ (failed st \/ (live (ls !! k) = None /\ missing st)))).
Proof.
  intros Hh Hr Hk Hver. unfold Del. destruct (read_live d m ls k Hh Hr Hk) as (s & raw & d1 & -> & Hh1 & Hc). cbn [mbind option_bind].
  destruct Hc as [[Hf1 Hf2]|[[-> ->]|(l & -> & -> & Hl & Hok & Hz)]].
  - rewrite Hf1. eexists _, _. split; [done|]. right. split; [done|]. by left.
  - cbn [ok NotFound]. eexists _, _. split; [done|]. right. split; [done|]. by right.
  - cbn [ok OK]. rewrite (meta_of_parse k l Hok), Hl. cbn [mbind option_bind]. change (pl_timestamp (lists_parsed _ _ _ 0 _ _)) with 0.
    change (pl_count (lists_parsed true ?x _ _ _ _)) with x. cbn [IsStale Z.eqb live]. rewrite Hz.
    case_bool_decide as He; [eexists _, _; split; [done|]; right; split; [done|]; by right|].
    rewrite Lists_initial. cbn [mbind option_bind]. change (pl_value (lists_parsed true ?a ?b ?c ?e ?f)) with (lists_raw a b c e f).
    specialize (Hver l Hl). pose proof Hok as [_ Hv _ _]. pose proof (next_version_fresh now (al_version l) Hnow ltac:(lia)) as Hnext.
    change (lists_raw 0 (lists_next_version now (al_version l)) 0 InitalLeftIndex InitalRightIndex) with (meta_of (begun now (al_version l))).
    assert (list_ok k (begun now (al_version l))) as Hb.
    { unfold begun, InitalLeftIndex. split; cbn [al_version al_left al_values al_seen length]; lia. }
    destruct (kwrite_ok d1 m [OpPut (meta_key k) (meta_of (begun now (al_version l)))] Hh1) as (st & d' & -> & Hc).
    { split; [|done]. apply Forall_singleton. unfold op_fits. cbn [op_key]. unfold meta_of. rewrite length_ListsDataKey, length_lists_raw. lia. }
    { apply Forall_singleton. exists k, 0, 0. split; [by apply meta_key_ok|done]. }
    eexists _, _. split; [done|]. destruct Hc as [[-> Hh']|[? ?]]; [left|right; split; [done|by left]].
    exists l. eexists. split; [done|]. split; [done|]. split; [exact Hh'|]. cbn [ops_on fold_left op_on]. apply (list_rep_insert m); [done|done| | | |].
    + intros l0 Hl0. rewrite Hl in Hl0. injection Hl0 as <-. cbn. lia.
    + apply lookup_insert_eq.
    + intros i Hi. assert (list_key_ok k (al_version (begun now (al_version l))) i) as Hki by by apply node_key_ok. rewrite begun_empty, lookup_insert_ne.
      * apply (rep_fresh m ls); [done|done|cbn; lia|]. intros l0 Hl0. rewrite Hl in Hl0. injection Hl0 as <-. cbn. lia.
      * intros (_ & Hz0 & _)%node_key_eq; [cbn in Hz0; lia|by apply meta_key_ok|done].
    + intros k' v i Hk' Hne. apply lookup_insert_ne. intros (<- & <- & <-)%node_key_eq; [|by apply meta_key_ok|done]. destruct Hne as [?|[_ Hn]]; [done|by apply Hn].
Qed.

(** [LRange] did not see that its iterator failed: it shows values of some entries of the database, no more than asked for. *)
Definition list_missed (m : kvmap) (c : ListCmd) (o : option AList) (r : ListReply) : Prop :=
  match c with
  | CLRange _ a b => exists l vs, live o = Some l /\ r = RValues OK vs /\ some_entries m (length (slice (shown l) a b)) vs
  | _ => False
  end.

(** C17: Lists.  For the commands [LPush], [LRange], [LLen] and [Del], with sizes, indices and versions that the encoding can hold, over a
    store in the order of the list keys that keeps the contract and holds lists without expiry times, the command returns (of the
    others [LPop] looks for the list under its bare name and finds none, [LInsert] is not modelled, and [LRem] has no return
    statement).  Either it is carried out: [LPush] puts its values before the first element, the
    last one first, and answers the number of elements; [LLen] counts them; [LRange] shows the range of the elements left of
    the right index, which are all of them when the list has been emptied before, but none of those that made the list (the
    right index of a new list is lost); [Del] empties the list; the other lists are as before, and elements of an older version
    never return.  Or the database failed and nothing changed, which the status says.  Or the iterator of [LRange] failed, which it
    does not look at: it answers [OK] with values of some entries, at most as many as the range has, and which, as it
    counts and does not read the keys, may be entries behind those of the range. *)
Theorem redis_list d m ls c : holds d m -> rep m ls -> len (list_key c) < 2 ^ 31 - 16 -> cmd_fits c (ls !! list_key c) ->
  exists r d' m' ls', run_list now d c = Some (r, d') /\ held d' m' /\ rep m' ls' /\
    ((list_reply now c (ls !! list_key c) r /\ ls' !! list_key c = list_after now c (ls !! list_key c) /\
      (forall k, k <> list_key c -> ls' !! k = ls !! k)) \/
     (ls' = ls /\ failed (reply_status r)) \/
     (ls' = ls /\ range_failed d (list_key c) /\ list_missed m c (ls !! list_key c) r)).
Proof.
  intros Hh Hr Hk Hf. destruct c as [k vs|k a b|k|k]; cbn [list_key run_list reply_status] in *.
  - destruct (LPush_ok d m ls k vs Hh Hr Hk Hf) as (st & n & d' & -> & [(-> & l & m' & Hl & -> & Hh' & Hr')|[Hfl Hh']]).
    + eexists _, d', m', _. split; [done|]. split; [done|]. split; [exact Hr'|]. left. split; [by exists l|]. 
      split; [by rewrite lookup_insert_eq|]. intros k' Hne. by rewrite lookup_insert_ne.
    + eexists _, d', m, ls. split; [done|]. split; [done|]. split; [done|]. right. by left.
  - destruct (LRange_ok d m ls k a b Hh Hr Hk Hf) as (st & vs & d' & -> & Hh' & Hc). eexists _, d', m, ls.
    split; [done|]. split; [by apply kholds_held|]. split; [done|]. destruct Hc as [?|[Hc|(-> & Hrf & l & Hl & Hs)]]; [right; by left|by left|].
    right. right. split; [done|]. split; [done|]. by exists l, vs.
  - destruct (LLen_ok d m ls k Hh Hr Hk) as (st & n & d' & -> & Hh' & Hc). eexists _, d', m, ls.
    split; [done|]. split; [done|]. split; [done|]. destruct Hc as [?|Hc]; [right; by left|by left].
  - destruct (list_Del_ok d m ls k Hh Hr Hk Hf) as (st & d' & -> & [(l & m' & Hl & -> & Hh' & Hr')|[Hh' Hc]]).
    + eexists _, d', m', _. split; [done|]. split; [done|]. split; [exact Hr'|]. left. cbn [list_reply list_after]. rewrite Hl.
      split; [done|]. split; [by rewrite lookup_insert_eq|]. intros k' Hne. by rewrite lookup_insert_ne.
    + eexists _, d', m, ls. split; [done|]. split; [done|]. split; [done|]. destruct Hc as [?|[Hl Hm]]; [right; by left|left].
      cbn [list_reply list_after]. rewrite Hl. split; [by exists st|done].
Qed.
End Commands.

(** ** Concrete lists *)

#[local] Instance demo_lists : KVStore kvmap := map_store ListsDataKeyComparatorImpl.

#[local] Instance demo_lists_ok : KVStoreSteady kvmap ListsDataKeyComparatorImpl list_dom (map_holds list_dom) (map_holds list_dom).
Proof.
  apply (map_store_ok ListsDataKeyComparatorImpl list_dom list_dom); [done|]. intros a b (k & v & i & Hk & ->) (k' & v' & i' & Hk' & ->).
  rewrite lcmp_nodes by done. by intros (-> & -> & ->)%list_key_compare_eq.
Qed.

Fixpoint run_lists (now : Z) (d : kvmap) (cs : list ListCmd) : option (list ListReply) :=
  match cs with
  | [] => Some []
  | c :: cs => let? (r, d) := run_list now d c in let? rs := run_lists now d cs in Some (r :: rs)
  end.

Abbreviation demo_key := (str "queue").
Abbreviation push_abc := (CLPush demo_key [str "a"; str "b"; str "c"]).

Lemma redis_list_witness : exists d' m' ls', run_list 1700000000 (∅ : kvmap) push_abc = Some (RLength OK 3, d') /\
  rep m' ls' /\ al_values <$> (ls' !! demo_key) = Some [str "c"; str "b"; str "a"].
Proof.
  destruct (redis_list (holds := map_holds list_dom) (held := map_holds list_dom) 1700000000 ltac:(lia) ∅ ∅ ∅ push_abc) as (r & d' & m' & ls' & Hrun & Hh & Hr & Hc).
  - split; [done|]. apply map_Forall_empty.
  - exact list_rep_empty.
  - vm_compute. done.
  - split; [repeat constructor|]. split; [done|]. intros l Hl. by rewrite lookup_empty in Hl.
  - assert (fst <$> run_list 1700000000 (∅ : kvmap) push_abc = Some (RLength OK 3)) as Hok by by vm_compute.
    rewrite Hrun in Hok. injection Hok as ->. exists d', m', ls'. split; [exact Hrun|]. split; [exact Hr|].
    destruct Hc as [(_ & Ha & _)|[(_ & [Hf _])|(_ & _ & [])]]; [|discriminate]. cbn [list_key] in Ha. rewrite Ha. reflexivity.
Defined.

(** The elements that made a new list are not shown; after [Del] they are. *)
Example new_list_not_shown : run_lists 1700000000 ∅
    [push_abc; CLRange demo_key 0 (-1); CLLen demo_key; CDel demo_key; push_abc; CLRange demo_key 0 (-1); CLRange demo_key (-2) 5] =
  Some [RLength OK 3; RValues OK []; RLength OK 3; RStatus OK; RLength OK 3; RValues OK [str "c"; str "b"; str "a"]; RValues OK [str "b"; str "a"]].
Proof. by vm_compute. Qed.

(** [LPop] does not find the list that [LPush] made. *)
Example LPop_finds_nothing :
  (let? (_, d) := run_list 1700000000 (∅ : kvmap) push_abc in
   let? (s, x, _) := LPop 1700000000 d demo_key [] in Some (IsNotFound s, x)) = Some (true, []).
Proof. by vm_compute. Qed.
