(* ===== verification/DbIterators.v ===== *)
(** The iterators over a whole database: [NewMergingIterator] (redisdb/db/merger.cc),
    [Version::NewConcatenatingIterator], [Version::AddIterators] and
    [VersionSet::MakeInputIterator] (redisdb/db/versionset.cc), [DB::NewInternalIterator]
    and [DB::NewIterator] (redisdb/db/db.cc).

    The iterators that these functions put together are of several classes; [Child] and
    [Merged] are their sums.  The iterators over the files come from an interface,
    [FileIterators], whose contract [FileIteratorsOk] says that the iterator of a file walks
    over the file's entries whatever the others do.

    The iterators of the table cache ([CacheIterators]) read every block through the shared
    block cache ([BlockReader], Table.v).  They keep the contract under two conditions, which
    [cache_iterators_ok] states: the block cache holds no blocks when they are made, and no
    block of the files that are read goes in ([kept_out]).  [mapped_not_kept] and [not_filled]
    (Table.v) give the second for uncompressed files that are mapped into memory, which the
    first 1000 open files of a 64-bit process are in a build without Snappy, and for reads with
    [fillcache] off.  Without them the contract can fail: the key of a block in the cache names
    its offset but not its file (table.cc:95), and [shared_cache_collision] (Table.v) is a
    table that is shown the block of another one. *)
From Stdlib Require Import Sorted Permutation.
From stdpp Require Import gmap sorting sets.
From S2P Require Import Prelude Coding Status Env DbFormat Block TableFormat LogFormat LruCache Iterators Table SkipList MemTable WriteBatch VersionEdit FileIO FileName Version TableCache VersionBuilder VersionSet DbIter Database Compaction CompactionWork Flush.
Local Open Scope Z_scope.

(** ** The greatest relation between places and iterators *)

Section Walks.
Context {I : Type} `{Iter I}.

(** [it] is at place [i] of a walk over [es]. *)
Definition walks (c : Comparator) (dom : bytes -> Prop) (es : list Iterators.entry) (i : nat) (it : I) : Prop :=
  exists at_ : nat -> I -> Prop, iter_refines c dom es at_ /\ at_ i it.

Lemma walks_refines c dom es : iter_refines c dom es (walks c dom es).
Proof.
  constructor.
  - intros i it (at_ & Hr & Ha). by apply (ir_le _ _ _ _ Hr i it).
  - intros i it (at_ & Hr & Ha). by apply (ir_valid _ _ _ _ Hr).
  - intros i it (at_ & Hr & Ha). by apply (ir_status _ _ _ _ Hr i).
  - intros i it e (at_ & Hr & Ha) He. by apply (ir_entry _ _ _ _ Hr i).
  - intros i it (at_ & Hr & Ha). destruct (ir_first _ _ _ _ Hr i it Ha) as (it' & Hs & Ha'). exists it'. split; [done|by exists at_].
  - intros i it (at_ & Hr & Ha). destruct (ir_last _ _ _ _ Hr i it Ha) as (it' & Hs & Ha'). exists it'. split; [done|by exists at_].
  - intros i it (at_ & Hr & Ha) Hi. destruct (ir_next _ _ _ _ Hr i it Ha Hi) as (it' & Hs & Ha'). exists it'. split; [done|by exists at_].
  - intros i it (at_ & Hr & Ha) Hi. destruct (ir_prev _ _ _ _ Hr i it Ha Hi) as (it' & Hs & Ha'). exists it'. split; [done|by exists at_].
  - intros i it target (at_ & Hr & Ha) Ht. destruct (ir_seek _ _ _ _ Hr i it target Ha Ht) as (it' & j & Hs & Ha' & Hb).
    exists it', j. split; [done|]. split; [by exists at_|done].
Qed.

(** Fewer targets may be sought. *)
Lemma refines_fewer c (dom dom' : bytes -> Prop) es at_ : (forall k, dom' k -> dom k) ->
  iter_refines c dom es at_ -> iter_refines c dom' es at_.
Proof.
  intros Hd Hr. constructor; try apply Hr. intros i it target Ha Ht. apply (ir_seek _ _ _ _ Hr i it target Ha). by apply Hd.
Qed.

Lemma walks_fewer c (dom dom' : bytes -> Prop) es i it : (forall k, dom' k -> dom k) -> walks c dom es i it -> walks c dom' es i it.
Proof. intros Hd (at_ & Hr & Ha). exists at_. split; [by apply (refines_fewer c dom)|done]. Qed.
End Walks.

(** An iterator behaves as another one that it stands for. *)
Section Stands.
Context {I J : Type} `{Iter I} `{Iter J} (f : I -> J).

(** [f it] answers and moves as [it] does. *)
Class Stands : Prop := {
  st_valid it : iterValid (f it) = iterValid it;
  st_key it : iterkey (f it) = iterkey it;
  st_value it : itervalue (f it) = itervalue it;
  st_status it : iterstatus (f it) = iterstatus it;
  st_first it : iterSeekToFirst (f it) = f <$> iterSeekToFirst it;
  st_last it : iterSeekToLast (f it) = f <$> iterSeekToLast it;
  st_next it : iterNext (f it) = f <$> iterNext it;
  st_prev it : iterPrev (f it) = f <$> iterPrev it;
  st_seek it target : iterSeek (f it) target = f <$> iterSeek it target
}.

Lemma walks_stands `{!Stands} c dom es i it : walks c dom es i it -> walks c dom es i (f it).
Proof.
  intros (at_ & Hr & Ha). exists (fun i x => exists it, x = f it /\ at_ i it). split; [|by exists it]. clear it Ha i. constructor.
  - intros i x (it & -> & Ha). by apply (ir_le _ _ _ _ Hr i it).
  - intros i x (it & -> & Ha). rewrite st_valid. by apply (ir_valid _ _ _ _ Hr).
  - intros i x (it & -> & Ha). rewrite st_status. by apply (ir_status _ _ _ _ Hr i).
  - intros i x e (it & -> & Ha) He. rewrite st_key, st_value. by apply (ir_entry _ _ _ _ Hr i).
  - intros i x (it & -> & Ha). rewrite st_first. destruct (ir_first _ _ _ _ Hr i it Ha) as (it' & -> & Ha'). by eexists; split; [|eexists].
  - intros i x (it & -> & Ha). rewrite st_last. destruct (ir_last _ _ _ _ Hr i it Ha) as (it' & -> & Ha'). by eexists; split; [|eexists].
  - intros i x (it & -> & Ha) Hi. rewrite st_next. destruct (ir_next _ _ _ _ Hr i it Ha Hi) as (it' & -> & Ha'). by eexists; split; [|eexists].
  - intros i x (it & -> & Ha) Hi. rewrite st_prev. destruct (ir_prev _ _ _ _ Hr i it Ha Hi) as (it' & -> & Ha'). by eexists; split; [|eexists].
  - intros i x target (it & -> & Ha) Ht. rewrite st_seek. destruct (ir_seek _ _ _ _ Hr i it target Ha Ht) as (it' & j & -> & Ha' & Hb).
    exists (f it'), j. split; [done|]. split; [by exists it'|done].
Qed.
End Stands.
Arguments Stands {I J} {_ _} f.

(** ** [NewMergingIterator] *)

Section Merger.
Context (c : Comparator) {I : Type} `{Iter I}.

(** An empty iterator, the only child, or a merging iterator. *)
Inductive Merged :=
  | MgEmpty (it : BIter)
  | MgOne (it : I)
  | MgMany (it : MergingIterator (I := I)).

Definition NewMergingIterator (list : list I) : option Merged :=
  match list with
  | [] => Some (MgEmpty NewEmptyIterator)
  | [it] => Some (MgOne it)
  | _ => MgMany <$> MergingIterator_make list
  end.

#[local] Existing Instance Merging_iter.

#[export] Instance Merged_iter : Iter Merged := {
  iterValid m := match m with MgEmpty it => iterValid it | MgOne it => iterValid it | MgMany it => m_Valid it end;
  iterSeekToFirst m := match m with
    | MgEmpty it => MgEmpty <$> iterSeekToFirst it | MgOne it => MgOne <$> iterSeekToFirst it | MgMany it => MgMany <$> m_SeekToFirst c it end;
  iterSeekToLast m := match m with
    | MgEmpty it => MgEmpty <$> iterSeekToLast it | MgOne it => MgOne <$> iterSeekToLast it | MgMany it => MgMany <$> m_SeekToLast c it end;
  iterSeek m target := match m with
    | MgEmpty it => MgEmpty <$> iterSeek it target | MgOne it => MgOne <$> iterSeek it target | MgMany it => MgMany <$> m_Seek c it target end;
  iterNext m := match m with MgEmpty it => MgEmpty <$> iterNext it | MgOne it => MgOne <$> iterNext it | MgMany it => MgMany <$> m_Next c it end;
  iterPrev m := match m with MgEmpty it => MgEmpty <$> iterPrev it | MgOne it => MgOne <$> iterPrev it | MgMany it => MgMany <$> m_Prev c it end;
  iterkey m := match m with MgEmpty it => iterkey it | MgOne it => iterkey it | MgMany it => m_key it end;
  itervalue m := match m with MgEmpty it => itervalue it | MgOne it => itervalue it | MgMany it => m_value it end;
  iterstatus m := match m with MgEmpty it => iterstatus it | MgOne it => iterstatus it | MgMany it => m_status_loop (children it) OK end;
}.

#[export] Instance MgEmpty_stands : Stands MgEmpty.
Proof. by split. Qed.

#[export] Instance MgOne_stands : Stands MgOne.
Proof. by split. Qed.

#[export] Instance MgMany_stands : Stands (H := Merging_iter c) MgMany.
Proof. by split. Qed.

Lemma empty_walks dom : walks c dom [] 0 NewEmptyIterator.
Proof.
  exists (fun i it => i = O /\ it = NewEmptyIterator). split; [|done]. constructor; try (by intros i it [-> ->]).
  - by intros i it e [-> ->].
  - intros i it [-> ->]. by exists NewEmptyIterator.
  - intros i it [-> ->]. by exists NewEmptyIterator.
  - cbn. intros i it [-> ->] Hi. lia.
  - cbn. intros i it [-> ->] Hi. lia.
  - intros i it target [-> ->] _. exists NewEmptyIterator, O. split; [done|]. split; [done|]. split; [lia|done].
Qed.

Lemma sorted_unique dom (l1 l2 : list Iterators.entry) : ComparatorOk c dom -> Forall (fun e => dom e.1) l1 ->
  StronglySorted (key_lt (c := c)) l1 -> StronglySorted (key_lt (c := c)) l2 -> l1 ≡ₚ l2 -> l1 = l2.
Proof.
  intros Hok Hd H1 H2 Hp. apply (StronglySorted_unique_strong (key_lt (c := c))); [|done|done|done].
  intros x y Hx Hy Hxy Hyx. exfalso. unfold key_lt in Hxy, Hyx. rewrite Forall_forall in Hd. rewrite <- Hp in Hy.
  pose proof (Compare_lt_trans (dom := dom) _ _ _ (Hd x Hx) (Hd y Hy) (Hd x Hx) Hxy Hyx) as Hbad.
  by rewrite (Compare_refl (dom := dom)) in Hbad by auto.
Qed.

(** The iterator made of children that walk sorted lists walks the sorted list of all
    their entries. *)
Lemma NewMergingIterator_walks dom ls child es : ComparatorOk c dom ->
  Forall2 (fun l it => walks c dom l (length l) it) ls child ->
  Forall (StronglySorted (key_lt (c := c))) ls -> StronglySorted (key_lt (c := c)) es ->
  es ≡ₚ concat ls -> Forall (fun e => dom e.1) es ->
  exists m, NewMergingIterator child = Some m /\ walks c dom es (length es) m.
Proof.
  intros Hok Hw Hsl Hs Hp Hd. destruct child as [|it [|it2 child]].
  - apply Forall2_nil_inv_r in Hw as ->. apply Permutation_nil_r in Hp as ->. eexists. split; [done|].
    apply (walks_stands MgEmpty), empty_walks.
  - apply Forall2_cons_inv_r in Hw as (l & ls' & Hl & Hnil & ->). apply Forall2_nil_inv_r in Hnil as ->.
    cbn [concat] in Hp. rewrite app_nil_r in Hp. apply Forall_inv in Hsl.
    rewrite (sorted_unique dom es l Hok Hd Hs Hsl Hp). eexists. split; [done|]. by apply (walks_stands MgOne).
  - set (l := it :: it2 :: child) in *. unfold NewMergingIterator. change (match l with [] => _ | [x] => _ | _ => _ end) with (MgMany <$> MergingIterator_make l).
    destruct (merging_make ls (fun k => walks c dom (ls !!! k)) es l) as (m & -> & Hm).
    + symmetry. by eapply Forall2_length.
    + intros k x Hk. destruct (Forall2_lookup_r _ _ _ _ _ Hw Hk) as (y & Hy & Hx). exists (length y).
      by rewrite (list_lookup_total_correct _ _ _ Hy).
    + eexists. split; [done|]. apply (walks_stands (H := Merging_iter c) MgMany). eexists. split; [|exact Hm].
      apply merging_iter with (dom := dom); try done. intros k y Hy. rewrite (list_lookup_total_correct _ _ _ Hy). apply walks_refines.
Qed.
End Merger.

(** ** Sorted lists of entries, merged *)

Section Sorting.
Context {c : Comparator} {Hok : ComparatorOk c (fun _ => True)}.

Abbreviation keyof e := (AppendInternalKey [] (fst e)).

(** The order of the internal keys, and entries with different keys. *)
Definition klt (a b : ientry) : Prop := Internal_Compare c (keyof a) (keyof b) = Lt.
Definition kle (a b : ientry) : Prop := Internal_Compare c (keyof a) (keyof b) <> Gt.
Definition apart (a b : ientry) : Prop := Internal_Compare c (keyof a) (keyof b) <> Eq.

#[local] Instance kle_dec : RelDecision kle.
Proof. unfold kle. intros a b. apply _. Defined.

#[local] Instance kle_trans : Transitive kle.
Proof. intros a b d. unfold kle. apply ile_trans. Qed.

#[local] Instance kle_total : Total kle.
Proof.
  intros a b. unfold kle. destruct (Internal_Compare c (keyof a) (keyof b)) eqn:E; [by left|by left|right].
  apply igt_lt in E. by rewrite E.
Qed.

Lemma apart_sym a b : apart a b -> apart b a.
Proof.
  unfold apart. intros Hab Hba. apply Hab. apply (Compare_eq_sym (c := InternalKeyComparator c) (dom := internal_dom)); try done;
    rewrite length_AppendInternalKey; lia.
Qed.

Lemma pairwise_perm {A} (R : A -> A -> Prop) l1 l2 : (forall x y, R x y -> R y x) -> l1 ≡ₚ l2 -> StronglySorted R l1 -> StronglySorted R l2.
Proof.
  intros Hsym. induction 1 as [|x l1 l2 Hp IH|x y l|l1 l2 l3 _ IH1 _ IH2]; [done| | |by auto].
  - intros [Hx Hl]%StronglySorted_cons. apply StronglySorted_cons. split; [by rewrite <- Hp|by apply IH].
  - intros [Hy [Hx Hl]%StronglySorted_cons]%StronglySorted_cons. apply Forall_cons in Hy as [Hyx Hy].
    apply StronglySorted_cons. split; [apply Forall_cons; split; [by apply Hsym|done]|]. by apply StronglySorted_cons.
Qed.

Lemma sorted_and {A} (R S Q : A -> A -> Prop) l : (forall x y, R x y -> S x y -> Q x y) ->
  StronglySorted R l -> StronglySorted S l -> StronglySorted Q l.
Proof.
  intros Hq. induction l as [|x l IH]; [constructor|]. intros [Hr HR]%StronglySorted_cons [Hs HS]%StronglySorted_cons.
  apply StronglySorted_cons. split; [|by apply IH]. rewrite Forall_forall in *. auto.
Qed.

(** Lists whose entries all differ. *)
Definition lists_apart (l1 l2 : list ientry) : Prop := forall a b, a ∈ l1 -> b ∈ l2 -> apart a b.

Lemma apart_concat ls : Forall (StronglySorted klt) ls -> StronglySorted lists_apart ls -> StronglySorted apart (concat ls).
Proof.
  induction ls as [|l ls IH]; [constructor|]. intros [Hl Hls]%Forall_cons [Ha Has]%StronglySorted_cons. cbn [concat].
  apply StronglySorted_app. split; [|split; [|by apply IH]].
  - intros x y Hx (l' & Hl' & Hy)%list_elem_of_In%in_concat. rewrite Forall_forall in Ha. apply (Ha l'); [|done|]; by apply list_elem_of_In.
  - apply (sorted_and klt klt apart l); [|done|done]. unfold klt, apart. intros x y Hxy _. by rewrite Hxy.
Qed.

Lemma merge_lists ls : Forall (StronglySorted klt) ls -> StronglySorted lists_apart ls ->
  exists es, es ≡ₚ concat ls /\ StronglySorted klt es.
Proof.
  intros Hs Ha. exists (merge_sort kle (concat ls)). split; [apply merge_sort_Permutation|].
  apply (sorted_and kle apart).
  - unfold klt, kle, apart. intros x y H1 H2. by destruct (Internal_Compare c (keyof x) (keyof y)).
  - apply StronglySorted_merge_sort; apply _.
  - apply (pairwise_perm apart (concat ls)); [apply apart_sym|by rewrite merge_sort_Permutation|by apply apart_concat].
Qed.

Lemma apart_NoDup es : StronglySorted apart es -> NoDup es.
Proof.
  induction 1 as [|e es Hs IH Hall]; [constructor|]. constructor; [|done]. intros Hin. rewrite Forall_forall in Hall.
  specialize (Hall e Hin). unfold apart in Hall. by rewrite Internal_refl in Hall.
Qed.

Lemma sorted_NoDup es : StronglySorted klt es -> NoDup es.
Proof.
  induction 1 as [|e es Hs IH Hall]; [constructor|]. constructor; [|done]. intros Hin. rewrite Forall_forall in Hall.
  specialize (Hall e Hin). unfold klt in Hall. by rewrite Internal_refl in Hall.
Qed.

Lemma sorted_entries es : StronglySorted klt es <-> StronglySorted (key_lt (c := InternalKeyComparator c)) (map entry_of es).
Proof.
  induction es as [|e es IH]; [by split; constructor|]. cbn [map]. rewrite !StronglySorted_cons, IH, Forall_map. done.
Qed.

Lemma entries_all_sorted es : StronglySorted (key_lt (c := InternalKeyComparator c)) (map entry_of es) ->
  all_sorted (c := InternalKeyComparator c) (dom := internal_dom) (map entry_of es).
Proof.
  intros Hs. split; [done|]. apply Forall_forall. intros x (e & -> & _)%list_elem_of_fmap. unfold entry_of. cbn [fst].
  rewrite length_AppendInternalKey. lia.
Qed.

Lemma sorted_compare es : Forall (fun e : ientry => 0 <= sequence e.1 <= kMaxSequenceNumber) es ->
  StronglySorted klt es <-> StronglySorted (fun a b => entry_compare c a.1 b.1 = Lt) es.
Proof.
  induction 1 as [|e es He Hes IH]; [by split; constructor|]. rewrite !StronglySorted_cons, IH. 
  enough (Forall (klt e) es <-> Forall (fun b => entry_compare c e.1 b.1 = Lt) es) as -> by done.
  rewrite !Forall_forall in *. unfold klt. split; intros Ha x Hx; specialize (Ha x Hx); rewrite Internal_Compare_Append in * by auto; done.
Qed.
End Sorting.

(** ** The iterators of the files *)

(** [TableCache::NewIterator] and [TableCache::GetFileIterator] with their options. *)
Class FileIterators (I : Type) := {
  NewFileIterator : Z -> Z -> I;       (* of a number and a size *)
  FileValueIterator : bytes -> I       (* of the value of a [LevelFileNumIterator] *)
}.

(** What they promise: the iterator of a table that is served walks its entries. *)
Class FileIteratorsOk (I : Type) `{Iter I} `{FileIterators I} (c : Comparator) (serves : Z -> Z -> list ientry -> Prop) : Prop := {
  fi_number num size es : serves num size es -> is_u64 num /\ is_u64 size;
  fi_sorted num size es : serves num size es -> StronglySorted (key_lt (c := InternalKeyComparator c)) (map entry_of es);
  fi_new num size es : serves num size es ->
    walks (InternalKeyComparator c) internal_dom (map entry_of es) (length es) (NewFileIterator num size);
  fi_value num size es : serves num size es ->
    walks (InternalKeyComparator c) internal_dom (map entry_of es) (length es) (FileValueIterator (EncodeFixed64 num ++ EncodeFixed64 size))
}.

Section Assembly.
Context (c : Comparator) {I : Type} `{Iter I} `{FileIterators I}.
(** A bound on the files of a level that a two-level iterator may skip. *)
Context (fuel : nat).

Abbreviation LevelIterator := (TwoLevelIterator (I1 := LevelFileNumIterator) (I2 := I) (W := unit)).
#[local] Instance level_file_iter : Iter LevelFileNumIterator := Level_iter c.
(** The file iterators are of an interface and share nothing that is modelled here. *)
#[local] Instance level_iter : Iter LevelIterator :=
  TwoLevel_iter (fun shared v => Some (FileValueIterator v, shared)) (fun shared _ => Some shared) fuel.

(** [MemTableIterator]. *)
Record MemTableIterator := MkMemIter { mi_table : MemTable; mi_node : option nat }.

Definition MemTable_NewIterator (m : MemTable) : MemTableIterator := MkMemIter m None.

#[export] Instance MemTable_iter : Iter MemTableIterator := {
  iterValid it := Valid (mi_node it);
  iterSeekToFirst it := Some (MkMemIter (mi_table it) (mem_SeekToFirst (mi_table it)));
  iterSeekToLast it := MkMemIter (mi_table it) <$> mem_SeekToLast (mi_table it);
  iterSeek it target := MkMemIter (mi_table it) <$> mem_Seek c (mi_table it) target;
  iterNext it := if Valid (mi_node it) then Some (MkMemIter (mi_table it) (mem_Next (mi_table it) (mi_node it))) else None;
  iterPrev it := if Valid (mi_node it) then MkMemIter (mi_table it) <$> mem_Prev c (mi_table it) (mi_node it) else None;
  iterkey it := default [] (mem_key (mi_table it) (mi_node it));
  itervalue it := default [] (mem_value (mi_table it) (mi_node it));
  iterstatus _ := OK
}.

(** The iterators that are merged: of a memtable, of a file, of a level. *)
Inductive Child :=
  | ChMem (it : MemTableIterator)
  | ChFile (it : I)
  | ChLevel (it : LevelIterator).

#[export] Instance Child_iter : Iter Child := {
  iterValid x := match x with ChMem it => iterValid it | ChFile it => iterValid it | ChLevel it => iterValid it end;
  iterSeekToFirst x := match x with
    | ChMem it => ChMem <$> iterSeekToFirst it | ChFile it => ChFile <$> iterSeekToFirst it | ChLevel it => ChLevel <$> iterSeekToFirst it end;
  iterSeekToLast x := match x with
    | ChMem it => ChMem <$> iterSeekToLast it | ChFile it => ChFile <$> iterSeekToLast it | ChLevel it => ChLevel <$> iterSeekToLast it end;
  iterSeek x target := match x with
    | ChMem it => ChMem <$> iterSeek it target | ChFile it => ChFile <$> iterSeek it target | ChLevel it => ChLevel <$> iterSeek it target end;
  iterNext x := match x with ChMem it => ChMem <$> iterNext it | ChFile it => ChFile <$> iterNext it | ChLevel it => ChLevel <$> iterNext it end;
  iterPrev x := match x with ChMem it => ChMem <$> iterPrev it | ChFile it => ChFile <$> iterPrev it | ChLevel it => ChLevel <$> iterPrev it end;
  iterkey x := match x with ChMem it => iterkey it | ChFile it => iterkey it | ChLevel it => iterkey it end;
  itervalue x := match x with ChMem it => itervalue it | ChFile it => itervalue it | ChLevel it => itervalue it end;
  iterstatus x := match x with ChMem it => iterstatus it | ChFile it => iterstatus it | ChLevel it => iterstatus it end
}.

(** *** Putting them together *)

Definition NewConcatenatingIterator (files : list file) : option LevelIterator :=
  TwoLevelIterator_make (LevelIter_make files) tt.

Definition file_iterators (files : list file) : list Child :=
  map (fun f => ChFile (NewFileIterator (number f) (filesize f))) files.

Fixpoint level_iterators (v : Version) (levels : list Z) : option (list Child) :=
  match levels with
  | [] => Some []
  | level :: levels =>
      match level_files v level with
      | [] => level_iterators v levels
      | files =>
          let? it := NewConcatenatingIterator files in
          let? iters := level_iterators v levels in
          Some (ChLevel it :: iters)
      end
  end.

Definition AddIterators (v : Version) (iters : list Child) : option (list Child) :=
  let? levels := level_iterators v (seqZ 1 (kNumLevels - 1)) in
  Some (iters ++ file_iterators (level_files v 0) ++ levels).

(** The iterators over the inputs of one of the levels of a compaction. *)
Definition input_iterators (level : Z) (files : list file) : option (list Child) :=
  match files with
  | [] => Some []
  | _ => if level =? 0 then Some (file_iterators files)
         else let? it := NewConcatenatingIterator files in Some [ChLevel it]
  end.

(** The places of the vector past [num] stay null, and no loop of the merging iterator
    looks at them. *)
Definition MakeInputIterator (comp : Compaction) : option (Merged (I := Child)) :=
  let space := if clevel comp =? 0 then len (inputs0 comp) + 1 else 2 in
  let? list0 := input_iterators (clevel comp) (inputs0 comp) in
  let? list1 := input_iterators (clevel comp + 1) (inputs1 comp) in
  if len (list0 ++ list1) <=? space then NewMergingIterator (list0 ++ list1) else None.

Context {E F T : Type}.

(** The iterator over everything in the database, and the last sequence number. *)
Definition NewInternalIterator (d : DB (E := E) (F := F) (T := T)) : option (Merged (I := Child) * Z) :=
  let latestsnapshot := GetLastSequence (db_vs d) in
  let list := [ChMem (MemTable_NewIterator (db_mem d))] in
  let list := match db_imm d with Some m => list ++ [ChMem (MemTable_NewIterator m)] | None => list end in
  let? v := current (db_vs d) in
  let? list := AddIterators v list in
  let? iter := NewMergingIterator list in
  Some (iter, latestsnapshot).

(** [DB::NewIterator]; [snapshot] is the sequence number of [options.snapshot]. *)
Definition DB_NewIterator (snapshot : option Z) (d : DB (E := E) (F := F) (T := T)) : option (DBIter (Merged (I := Child))) :=
  let? (iter, latestsnapshot) := NewInternalIterator d in
  Some (DBIter_make iter (match snapshot with Some s => s | None => latestsnapshot end)).
End Assembly.

(** ** The children walk what they stand for *)

Section Children.
Context {c : Comparator} {Hok : ComparatorOk c (fun _ => True)} {Hshort : ComparatorShort (InternalKeyComparator c) internal_dom}.
Context {I : Type} `{Iter I} `{FileIterators I} {serves : Z -> Z -> list ientry -> Prop} {HF : FileIteratorsOk I c serves}.
Context (fuel : nat).

Abbreviation icmp := (InternalKeyComparator c).
Abbreviation keyof e := (AppendInternalKey [] (fst e)).
#[local] Existing Instances level_file_iter level_iter.
#[local] Instance child_iter : Iter (Child (I := I)) := Child_iter c fuel.

(** The targets that can be encoded for a memtable. *)
Definition seekable (k : bytes) : Prop := internal_dom k /\ len k < 2 ^ 32.

#[export] Instance seekable_ok : ComparatorOk icmp seekable.
Proof.
  pose proof (InternalKeyComparator_ok (c := c)) as Hi. split.
  - intros a b [Ha _] [Hb _]. by apply (Compare_opp (dom := internal_dom)).
  - intros a b d [Ha _] [Hb _] [Hd _]. by apply (Compare_lt_trans (dom := internal_dom)).
  - intros a b d [Ha _] [Hb _] [Hd _]. by apply (Compare_eq_l (dom := internal_dom)).
  - intros a b [Ha Hla] [Hb _] Hlt. destruct (separator_ok (dom := internal_dom) a b Ha Hb Hlt) as (Hs & H1 & H2).
    pose proof (separator_short (dom := internal_dom) a b Ha Hb Hlt). split_and!; [split; [done|lia]|done|done].
  - intros a b [Ha _] [Hb _]. by apply (separator_same (dom := internal_dom)).
  - intros a [Ha Hla]. destruct (successor_ok (dom := internal_dom) a Ha) as [Hs H1].
    pose proof (successor_short (dom := internal_dom) a Ha). split; [split; [done|lia]|done].
Qed.

#[export] Instance ChMem_stands : Stands (I := MemTableIterator) (H := MemTable_iter c) (H0 := Child_iter c fuel) (ChMem (I := I)).
Proof. by split. Qed.

#[export] Instance ChFile_stands : Stands (H0 := Child_iter c fuel) (ChFile (I := I)).
Proof. by split. Qed.

#[export] Instance ChLevel_stands : Stands (H := level_iter c fuel) (H0 := Child_iter c fuel) (ChLevel (I := I)).
Proof. by split. Qed.

Lemma mem_walks m es : holds c m es ->
  exists sorted, sorted ≡ₚ es /\ StronglySorted (fun a b => entry_compare c (mkey a) (mkey b) = Lt) sorted /\
    walks (H := MemTable_iter c) icmp seekable (map entry_of (map mem_ientry sorted)) (length sorted) (MemTable_NewIterator m).
Proof.
  intros Hm. destruct (mem_walk m es Hm) as (sorted & pos & Hp & Hs & Hfirst & Hlast & Hv & He & _ & _ & Hend & Hseek).
  exists sorted. split; [done|]. split; [done|].
  exists (fun i it => mi_table it = m /\ mi_node it = pos i /\ (i <= length sorted)%nat). split; [|by rewrite Hend].
  assert (forall i x, map entry_of (map mem_ientry sorted) !! i = Some x -> exists e, sorted !! i = Some e /\ x = (AppendInternalKey [] (mkey e), mvalue e)) as Hlk.
  { intros i x. rewrite !list_lookup_fmap. destruct (sorted !! i) as [e|]; [|done]. intros [= <-]. by exists e. }
  constructor; cbn [iterValid iterSeekToFirst iterSeekToLast iterSeek iterNext iterPrev iterkey itervalue iterstatus MemTable_iter]; rewrite ?length_map.
  - by intros i it (_ & _ & Hi).
  - intros i it (_ & -> & _). by rewrite Hv.
  - done.
  - intros i it x (-> & -> & _) (e & Hie & ->)%Hlk. by destruct (He i e Hie) as (-> & -> & _).
  - intros i it (-> & _ & _). rewrite Hfirst. eexists. split; [done|]. split; [done|]. split; [done|cbn; lia].
  - intros i it (-> & _ & _). rewrite Hlast. eexists. split; [done|]. split; [done|]. cbn [mi_node]. split; [|lia].
    destruct (length sorted) as [|k]; [by symmetry|]. by rewrite Nat.sub_1_r.
  - intros i it (-> & -> & _) Hi. rewrite Hv, (proj2 (Nat.ltb_lt _ _)) by done.
    destruct (lookup_lt_is_Some_2 sorted i Hi) as [e Hie]. destruct (He i e Hie) as (_ & _ & -> & _). eexists. split; [done|].
    split; [done|]. split; [done|lia].
  - intros i it (-> & -> & _) Hi. rewrite Hv, (proj2 (Nat.ltb_lt _ _)) by done.
    destruct (lookup_lt_is_Some_2 sorted i Hi) as [e Hie]. destruct (He i e Hie) as (_ & _ & _ & ->). eexists. split; [done|].
    split; [done|]. cbn [mi_node]. destruct i as [|i]; [by rewrite Hend|]. split; [done|lia].
  - intros i it target (-> & _ & _) [_ Ht]. destruct (Hseek target Ht) as (j & -> & Hj & Hb). eexists _, j. split; [done|].
    split; [done|]. split.
    + intros k x Hk (e & Hke & ->)%Hlk. by apply (Hb k e).
    + intros x (e & Hje & ->)%Hlk Hlt. apply (Hb j e Hje) in Hlt. lia.
Qed.

(** The entries of the files, by number. *)
Context (dat : Z -> list ientry).
Abbreviation data := (fun f : file => dat (number f)).
Abbreviation contents_of f := (map entry_of (data f)).

Lemma file_sorted f : file_holds (ucmp := c) (serves := serves) data f -> StronglySorted (key_lt (c := icmp)) (contents_of f).
Proof. intros Hf. eapply fi_sorted, Hf. Qed.

Lemma entries_dom (es : list ientry) x : x ∈ map entry_of es -> internal_dom x.1.
Proof. intros (e & -> & _)%list_elem_of_fmap. unfold entry_of. cbn [fst]. rewrite length_AppendInternalKey. lia. Qed.

(** The iterator over the files of a level walks their entries one file after another. *)
Lemma NewConcatenatingIterator_ok files : level_ok (ucmp := c) files ->
  (forall f, f ∈ files -> file_holds (ucmp := c) (serves := serves) data f) -> (length files + 2 <= fuel)%nat ->
  exists it, NewConcatenatingIterator c (I := I) files = Some it /\
    walks (H := level_iter c fuel) icmp internal_dom (concat (map (fun f => contents_of f) files)) (length (concat (map (fun f => contents_of f) files))) it.
Proof.
  intros Hl Hf Hfuel. pose proof Hl as [Hfo Hdis Hlen].
  set (dl := fun v : bytes => map entry_of (dat (DecodeFixed64 v))).
  assert (forall f, f ∈ files -> dl (file_value f) = contents_of f) as Hdl.
  { intros f Hin. unfold dl, file_value. rewrite DecodeFixed64_app, u64_small; [done|]. apply (fi_number _ (filesize f) (data f)), Hf, Hin. }
  assert (concatenated (map level_entry files) dl = concat (map (fun f => contents_of f) files)) as Hcat.
  { unfold concatenated. rewrite map_map. f_equal. apply map_ext_in. intros f Hin%list_elem_of_In. by apply Hdl. }
  destruct (two_level_make (H := Level_iter c) (I2 := I) (map level_entry files) (level_at files) dl (fun v => walks icmp internal_dom (dl v)) (fun _ => True) (LevelIter_make files) (length files) tt Logic.I)
    as (it & Hm & Ha).
  { split; [done|]. split; [|done]. cbn [findex LevelIter_make]. rewrite u32_small by lia. done. }
  exists it. split; [exact Hm|]. rewrite <- Hcat. eexists. split; [|exact Ha].
  assert (forall i x, map level_entry files !! i = Some x -> exists f, files !! i = Some f /\ f ∈ files /\ x = level_entry f) as Hlk.
  { intros i x. rewrite list_lookup_fmap. destruct (files !! i) as [f|] eqn:Hi; [|done]. intros [= <-]. exists f.
    split; [done|]. split; [by eapply list_elem_of_lookup_2|done]. }
  apply two_level_iter with (dom := internal_dom) (c := icmp).
  - apply InternalKeyComparator_ok.
  - by apply level_iter_refines.
  - intros i x (f & _ & Hin & ->)%Hlk. cbn [snd level_entry]. rewrite (Hdl f Hin). apply walks_refines.
  - intros i x w (f & _ & Hin & ->)%Hlk _. cbn [snd level_entry]. rewrite (Hdl f Hin). eexists _, w, (length (contents_of f)).
    split; [done|]. split; [done|]. rewrite length_map. unfold file_value. apply (fi_value _ _ (data f)), Hf, Hin.
  - intros i x o it' w _ _ _. by exists w.
  - apply Forall_forall. intros x (f & -> & Hin)%list_elem_of_fmap. cbn. apply ikey_ok_dom, (fk_largest _ (fh_ok _ _ (Hf f Hin))).
  - intros i x y (f & _ & Hin & ->)%Hlk. cbn [snd level_entry]. rewrite (Hdl f Hin). apply entries_dom.
  - intros i x y (f & _ & Hin & ->)%Hlk. cbn [fst snd level_entry]. rewrite (Hdl f Hin). intros (e & -> & He)%list_elem_of_fmap.
    unfold entry_of. cbn [fst]. by apply (fh_range _ _ (Hf f Hin)).
  - intros i j x x' y Hij (f & Hfi & Hin & ->)%Hlk (g & Hgj & Hin' & ->)%Hlk. cbn [fst snd level_entry]. rewrite (Hdl g Hin').
    intros (e & -> & He)%list_elem_of_fmap. unfold entry_of. cbn [fst]. destruct (fh_range _ _ (Hf g Hin') e He) as (Hse & Hlo & _).
    apply (ilt_le_trans _ (smallest g)); [|exact Hlo].
    by apply (sorted_lookup _ files i j f g Hdis Hij).
  - rewrite length_map. exact Hfuel.
Qed.

(** *** The entries behind the children *)

Context {T : Type} `{TableSourceOk T c good serves}.
Context (v : Version).
Hypothesis Hvo : version_ok (ucmp := c) (serves := serves) v data.
Hypothesis Hfuel : forall level, (length (level_files v level) + 2 <= fuel)%nat.

Lemma version_holds level f : 0 <= level < kNumLevels -> f ∈ level_files v level -> file_holds (ucmp := c) (serves := serves) data f.
Proof. apply (vo_file _ _ Hvo). Qed.

Lemma data_range level f e : 0 <= level < kNumLevels -> f ∈ level_files v level -> e ∈ data f -> 0 <= sequence e.1 <= kMaxSequenceNumber.
Proof. intros Hl Hf He. by apply (fh_range _ _ (version_holds level f Hl Hf)). Qed.

Lemma newer_apart A B : (forall a, a ∈ A -> 0 <= sequence a.1 <= kMaxSequenceNumber) -> (forall b, b ∈ B -> 0 <= sequence b.1 <= kMaxSequenceNumber) ->
  newer (ucmp := c) A B -> lists_apart (c := c) A B.
Proof.
  intros HA HB Hn a b Ha Hb. unfold apart. rewrite Internal_Compare_Append by auto. unfold entry_compare.
  destruct (Compare c (userkey a.1) (userkey b.1)) eqn:E; [|done|done]. specialize (Hn a b Ha Hb E).
  by destruct (Z.compare_spec (sequence b.1) (sequence a.1)); [lia|..].
Qed.

Lemma lists_apart_sym A B : lists_apart (c := c) A B -> lists_apart (c := c) B A.
Proof. intros Hab a b Ha Hb. by apply apart_sym, Hab. Qed.

Lemma level0_apart files : NoDup (map number files) -> (forall f, f ∈ files -> f ∈ level_files v 0) ->
  StronglySorted (lists_apart (c := c)) (map (fun f => data f) files).
Proof.
  induction files as [|f files IH]; intros Hn Hin; [constructor|]. cbn [map] in *. apply NoDup_cons in Hn as [Hnf Hn].
  apply StronglySorted_cons. split; [|apply IH; [done|]; intros g Hg; apply Hin; by right].
  apply Forall_forall. intros l (g & -> & Hg)%list_elem_of_fmap.
  assert (f ∈ level_files v 0 /\ g ∈ level_files v 0) as [Hf0 Hg0] by (split; apply Hin; [left|by right]).
  assert (number f <> number g) as Hne by (intros Heq; apply Hnf; rewrite Heq; by apply list_elem_of_fmap_2).
  assert (0 <= 0 < kNumLevels) as H0' by (unfold kNumLevels; lia).
  pose proof (fun e => data_range 0 f e H0' Hf0) as Hrf. pose proof (fun e => data_range 0 g e H0' Hg0) as Hrg.
  destruct (Z.lt_total (number g) (number f)) as [Hlt|[Heq|Hlt]]; [|by destruct Hne|apply lists_apart_sym];
    (apply newer_apart; [done|done|by apply (vo_newer0 _ _ Hvo)]).
Qed.

Lemma level_concat_sorted files : level_ok (ucmp := c) files ->
  (forall f, f ∈ files -> file_holds (ucmp := c) (serves := serves) data f) -> StronglySorted (klt (c := c)) (concat (map (fun f => data f) files)).
Proof.
  intros [_ Hd _] Hf. unfold disjoint in Hd. induction Hd as [|f files Hd IH Hall]; [constructor|]. cbn [map concat].
  rewrite Forall_forall in Hall. apply StronglySorted_app. split; [|split].
  - intros a b Ha (l & (g & <- & Hg)%in_map_iff & Hb)%list_elem_of_In%in_concat. apply list_elem_of_In in Hg, Hb.
    destruct (fh_range _ _ (Hf f ltac:(left)) a Ha) as (_ & _ & Hle). destruct (fh_range _ _ (Hf g ltac:(by right)) b Hb) as (_ & Hge & _).
    unfold klt. apply (ile_lt_trans _ (largest f)); [done|]. apply (ilt_le_trans _ (smallest g)); [by apply Hall|done].
  - apply sorted_entries, file_sorted, Hf. left.
  - apply IH. intros g Hg. apply Hf. by right.
Qed.

(** The lists behind the iterators over the files of one level. *)
Definition level_lists (level : Z) (files : list file) : list (list ientry) :=
  match files with
  | [] => []
  | _ => if level =? 0 then map (fun f => data f) files else [concat (map (fun f => data f) files)]
  end.

Abbreviation walked := (Forall2 (fun (l : list ientry) (it : Child) => walks (H := Child_iter c fuel) icmp seekable (map entry_of l) (length (map entry_of l)) it)).

Lemma walks_seekable {X} `{Iter X} es i (it : X) : walks icmp internal_dom es i it -> walks icmp seekable es i it.
Proof. apply walks_fewer. by intros k [Hk _]. Qed.

Lemma file_iterators_walk files : (forall f, f ∈ files -> file_holds (ucmp := c) (serves := serves) data f) ->
  walked (map (fun f => data f) files) (file_iterators (I := I) files).
Proof.
  intros Hf. unfold file_iterators. induction files as [|f files IH]; [constructor|]. cbn [map]. constructor; [|apply IH; intros g Hg; apply Hf; by right].
  rewrite length_map. apply (walks_stands ChFile), walks_seekable, fi_new, Hf. left.
Qed.

Lemma map_concat_entries files : map entry_of (concat (map (fun f => data f) files)) = concat (map (fun f => contents_of f) files).
Proof. rewrite concat_map, map_map. done. Qed.

Lemma level_iterator_walks files : level_ok (ucmp := c) files ->
  (forall f, f ∈ files -> file_holds (ucmp := c) (serves := serves) data f) -> (length files + 2 <= fuel)%nat ->
  exists it, NewConcatenatingIterator c (I := I) files = Some it /\ walked [concat (map (fun f => data f) files)] [ChLevel it].
Proof.
  intros Hl Hf Hfu. destruct (NewConcatenatingIterator_ok files Hl Hf Hfu) as (it & Hm & Hw). exists it. split; [done|].
  constructor; [|constructor]. rewrite map_concat_entries. by apply (walks_stands (H := level_iter c fuel) ChLevel), walks_seekable.
Qed.

Lemma input_iterators_ok level files : 0 <= level < kNumLevels -> (forall f, f ∈ files -> f ∈ level_files v level) ->
  (level <> 0 -> level_ok (ucmp := c) files) -> (length files + 2 <= fuel)%nat ->
  exists l, input_iterators c (I := I) level files = Some l /\ walked (level_lists level files) l /\
    (length l <= (if (level =? 0)%Z then length files else 1))%nat.
Proof.
  intros Hl Hin Hok' Hfu. destruct (decide (files = [])) as [->|Hne]; [exists []; split; [done|split; [constructor|cbn; lia]]|].
  assert (forall f, f ∈ files -> file_holds (ucmp := c) (serves := serves) data f) as Hf by (intros f Hf; by apply (version_holds level), Hin).
  replace (input_iterators c (I := I) level files) with
    (if level =? 0 then Some (file_iterators (I := I) files) else let? it := NewConcatenatingIterator c (I := I) files in Some [ChLevel it]) by by destruct files.
  replace (level_lists level files) with (if level =? 0 then map (fun f => data f) files else [concat (map (fun f => data f) files)]) by by destruct files.
  destruct (Z.eqb_spec level 0) as [->|Hne0].
  - eexists. split; [done|]. split; [by apply file_iterators_walk|]. unfold file_iterators. by rewrite length_map.
  - destruct (level_iterator_walks files) as (it & -> & Hw); [by auto..|]. eexists. split; [done|]. split; [done|cbn; lia].
Qed.

Lemma elem_of_concat {A} (x : A) ls : x ∈ concat ls <-> exists l, l ∈ ls /\ x ∈ l.
Proof. rewrite list_elem_of_In, in_concat. by setoid_rewrite list_elem_of_In. Qed.

Lemma level_lists_in level files l e : l ∈ level_lists level files -> e ∈ l -> exists f, f ∈ files /\ e ∈ data f.
Proof.
  intros Hl He. assert (l ∈ map (fun f => data f) files \/ l = concat (map (fun f => data f) files)) as [Hm| ->].
  { unfold level_lists in Hl. destruct files; [by apply not_elem_of_nil in Hl|]. destruct (level =? 0); [by left|].
    apply list_elem_of_singleton in Hl. by right. }
  - apply list_elem_of_fmap in Hm as (f & -> & Hf). by exists f.
  - apply elem_of_concat in He as (l & (f & -> & Hf)%list_elem_of_fmap & He). by exists f.
Qed.

Lemma level_lists_all level files e : e ∈ concat (level_lists level files) <-> exists f, f ∈ files /\ e ∈ data f.
Proof.
  split; [intros (l & Hl & He)%elem_of_concat; by apply (level_lists_in level files l)|]. intros (f & Hf & He).
  assert (e ∈ concat (map (fun f => data f) files)) as Hin by (apply elem_of_concat; exists (data f); split; [by apply (list_elem_of_fmap_2 (fun f => data f))|done]).
  unfold level_lists. destruct files; [by apply not_elem_of_nil in Hf|]. destruct (level =? 0); [done|]. cbn [concat]. by rewrite app_nil_r.
Qed.

Lemma level_lists_sorted level files : 0 <= level < kNumLevels -> (forall f, f ∈ files -> f ∈ level_files v level) ->
  (level <> 0 -> level_ok (ucmp := c) files) -> Forall (StronglySorted (klt (c := c))) (level_lists level files).
Proof.
  intros Hl Hin Hok'. assert (forall f, f ∈ files -> file_holds (ucmp := c) (serves := serves) data f) as Hf by (intros f Hf; by apply (version_holds level), Hin).
  unfold level_lists. destruct files as [|f files]; [constructor|]. destruct (Z.eqb_spec level 0) as [->|Hne].
  - apply Forall_forall. intros l (g & -> & Hg)%list_elem_of_fmap. apply sorted_entries, file_sorted. by apply Hf.
  - apply Forall_singleton. apply level_concat_sorted; [by apply Hok'|done].
Qed.

Lemma level_lists_apart level files : (level = 0 -> NoDup (map number files)) -> (forall f, f ∈ files -> f ∈ level_files v level) ->
  StronglySorted (lists_apart (c := c)) (level_lists level files).
Proof.
  intros Hn Hin. unfold level_lists. destruct files as [|f files]; [constructor|]. destruct (Z.eqb_spec level 0) as [->|Hne].
  - by apply level0_apart; [apply Hn|].
  - repeat constructor.
Qed.

(** Lists of an upper level and of a deeper one. *)
Lemma level_lists_differ L L' files files' l l' : 0 <= L < L' -> L' < kNumLevels ->
  (forall f, f ∈ files -> f ∈ level_files v L) -> (forall f, f ∈ files' -> f ∈ level_files v L') ->
  l ∈ level_lists L files -> l' ∈ level_lists L' files' -> lists_apart (c := c) l l'.
Proof.
  intros HL HL' Hin Hin' Hl Hl' a b Ha Hb. destruct (level_lists_in _ _ _ _ Hl Ha) as (f & Hf & Haf).
  destruct (level_lists_in _ _ _ _ Hl' Hb) as (g & Hg & Hbg).
  apply (newer_apart (data f) (data g)); [..|done|done].
  - intros e He. by apply (data_range L f); [lia|by apply Hin|].
  - intros e He. by apply (data_range L' g); [lia|by apply Hin'|].
  - by apply (vo_newer _ _ Hvo L L'); [lia|done|by apply Hin|by apply Hin'].
Qed.

Lemma level_ok_segment files pre inputs post : level_ok (ucmp := c) files -> files = pre ++ inputs ++ post -> level_ok (ucmp := c) inputs.
Proof.
  intros [Hf Hd Hl] ->. apply Forall_app in Hf as [_ Hf]. apply Forall_app in Hf as [Hf _].
  unfold disjoint in Hd. split; [done| |rewrite !length_app in Hl; lia].
  by apply StronglySorted_app_1_r, StronglySorted_app_1_l in Hd.
Qed.

(** The merging iterator over children that walk lists that differ everywhere. *)
Lemma merged_walk ls child es : walked ls child -> Forall (StronglySorted (klt (c := c))) ls ->
  StronglySorted (klt (c := c)) es -> es ≡ₚ concat ls -> Forall (fun e : ientry => len (keyof e) < 2 ^ 32) es ->
  exists m : Merged (I := Child (I := I)), NewMergingIterator child = Some m /\
    walks (H := Merged_iter icmp) icmp seekable (map entry_of es) (length es) m.
Proof.
  intros Hw Hs Hes Hp Hlen. rewrite <- (length_map entry_of es).
  apply (NewMergingIterator_walks (H := Child_iter c fuel) icmp seekable (map (map entry_of) ls)).
  - apply _.
  - by apply Forall2_fmap_l.
  - apply Forall_map. eapply Forall_impl; [exact Hs|]. intros l. apply sorted_entries.
  - by apply sorted_entries.
  - rewrite <- concat_map. by apply Permutation_map.
  - apply Forall_map. eapply Forall_impl; [exact Hlen|]. intros e He. unfold entry_of. cbn [fst]. split; [|done].
    rewrite length_AppendInternalKey. lia.
Qed.

(** *** The inputs of a compaction *)

Lemma inputs_fit comp : compaction_ok (ucmp := c) v comp ->
  (forall f, f ∈ inputs1 comp -> f ∈ level_files v (clevel comp + 1)) /\
  (clevel comp = 0 -> NoDup (map number (inputs0 comp))) /\ (clevel comp <> 0 -> level_ok (ucmp := c) (inputs0 comp)) /\
  level_ok (ucmp := c) (inputs1 comp) /\ (length (inputs0 comp) + 2 <= fuel)%nat /\ (length (inputs1 comp) + 2 <= fuel)%nat.
Proof.
  intros Hc. destruct (co_level _ _ Hc) as [Hlo Hhi]. destruct (co_next _ _ Hc) as (pre & post & Hnext & _ & _).
  pose proof (co_whole _ _ Hc) as Hw. unfold whole in Hw. pose proof (Hfuel (clevel comp)) as Hf0. pose proof (Hfuel (clevel comp + 1)) as Hf1.
  split; [intros f Hf; rewrite Hnext; set_solver|]. split; [|split; [|split; [|split]]].
  - intros Hz. rewrite Hz in *. cbn in Hw. destruct Hw as (b & e & _ & ->).
    apply (sublist_NoDup _ (map number (level_files v 0))); [apply (vo_numbers _ _ Hvo)|exact (fmap_sublist number _ _ (sublist_filter _ _))].
  - intros Hz. rewrite (proj2 (Z.eqb_neq _ _) Hz) in Hw. destruct Hw as (pre' & post' & Hw).
    apply (level_ok_segment (level_files v (clevel comp)) pre' _ post'); [apply (vo_level _ _ Hvo); lia|done].
  - apply (level_ok_segment (level_files v (clevel comp + 1)) pre _ post); [apply (vo_level _ _ Hvo); lia|done].
  - destruct (Z.eqb_spec (clevel comp) 0) as [Hz|Hz].
    + destruct Hw as (b & e & _ & ->). pose proof (length_filter (meets (ucmp := c) b e) (level_files v (clevel comp))). lia.
    + destruct Hw as (pre' & post' & Hw). rewrite Hw, !length_app in Hf0. lia.
  - rewrite Hnext, !length_app in Hf1. lia.
Qed.

(** The iterator of a compaction walks its inputs.  [MakeInputIterator] trips no assert, and the iterator it makes - over each
    file of level 0, and over the files of a deeper level one after another - walks the merged entries of all the input files. *)
Lemma MakeInputIterator_ok comp es : compaction_ok (ucmp := c) v comp -> merged_inputs (ucmp := c) data comp es ->
  Forall (fun e : ientry => len (keyof e) < 2 ^ 32) es ->
  exists it, MakeInputIterator c (I := I) fuel comp = Some it /\
    walks (H := Merged_iter icmp) icmp seekable (map entry_of es) (length es) it.
Proof.
  intros Hc Hes Hlen. destruct (inputs_fit comp Hc) as (Hin1 & Hn0 & Hok0 & Hok1 & Hf0 & Hf1). destruct (co_level _ _ Hc) as [Hlo Hhi].
  pose proof (co_in0 _ _ Hc) as Hin0. set (L := clevel comp) in *. unfold MakeInputIterator. fold L.
  destruct (input_iterators_ok L (inputs0 comp) ltac:(lia) Hin0 Hok0 Hf0) as (l0 & -> & Hw0 & Hl0).
  destruct (input_iterators_ok (L + 1) (inputs1 comp) ltac:(lia) Hin1 (fun _ => Hok1) Hf1) as (l1 & -> & Hw1 & Hl1).
  rewrite (proj2 (Z.eqb_neq (L + 1) 0)) in Hl1 by lia.
  rewrite (proj2 (Z.leb_le _ _)) by (rewrite length_app; destruct (L =? 0); lia).
  set (ls := level_lists L (inputs0 comp) ++ level_lists (L + 1) (inputs1 comp)).
  assert (Forall (StronglySorted (klt (c := c))) ls) as Hs.
  { apply Forall_app. split; (apply level_lists_sorted; [lia|done|done]). }
  assert (Forall (fun e : ientry => 0 <= sequence e.1 <= kMaxSequenceNumber) es) as Hseq.
  { apply Forall_forall. intros e (L' & f & Hf & He)%(mi_in _ _ _ Hes). destruct Hf as [[-> Hf]|[-> Hf]].
    - apply (data_range (clevel comp) f); [fold L; lia|by apply Hin0|done].
    - apply (data_range (clevel comp + 1) f); [fold L; lia|by apply Hin1|done]. }
  apply (merged_walk ls).
  - by apply Forall2_app.
  - done.
  - apply sorted_compare; [done|apply Hes].
  - apply NoDup_Permutation.
    + apply (sorted_NoDup (c := c)), sorted_compare; [done|apply Hes].
    + apply (apart_NoDup (c := c)), apart_concat; [done|]. apply StronglySorted_app. split; [|split; apply level_lists_apart; (done || lia)].
      intros x y Hx Hy. by apply (level_lists_differ L (L + 1) (inputs0 comp) (inputs1 comp)); [lia|lia|..].
    + intros e. rewrite (mi_in _ _ _ Hes). unfold ls. rewrite concat_app, elem_of_app, !level_lists_all. unfold is_input. fold L. split.
      * intros (L' & f & [[_ Hf]|[_ Hf]] & He); [left|right]; by exists f.
      * intros [(f & Hf & He)|(f & Hf & He)]; [exists L, f|exists (L + 1), f]; (split; [tauto|done]).
  - done.
Qed.

(** *** Everything in the database *)

(** The lists behind the iterators over a version. *)
Definition version_lists (levels : list Z) : list (list ientry) := concat (map (fun L => level_lists L (level_files v L)) levels).

Lemma level_iterators_ok levels : Forall (fun L => 0 < L < kNumLevels) levels ->
  exists l, level_iterators c (I := I) v levels = Some l /\ walked (version_lists levels) l.
Proof.
  induction 1 as [|L levels HL _ (l & IH & Hw)]; [by exists []|]. unfold version_lists in *. cbn [level_iterators map concat].
  destruct (decide (level_files v L = [])) as [-> |Hne]; [by exists l|].
  destruct (level_iterator_walks (level_files v L)) as (it & Hm & Hwi); [by apply (vo_level _ _ Hvo)|intros f; apply version_holds; lia|done|].
  exists (ChLevel it :: l). split.
  - destruct (level_files v L) as [|f fs]; [done|]. by rewrite Hm, IH.
  - change (ChLevel it :: l) with ([ChLevel it] ++ l). apply Forall2_app; [|done].
    unfold level_lists. destruct (level_files v L) as [|f fs]; [done|]. by rewrite (proj2 (Z.eqb_neq _ _)) by lia.
Qed.

Lemma AddIterators_ok iters ls : walked ls iters ->
  exists l, AddIterators c (I := I) v iters = Some l /\ walked (ls ++ version_lists all_levels) l.
Proof.
  intros Hw. destruct (level_iterators_ok (seqZ 1 (kNumLevels - 1))) as (l & Hl & Hwl).
  { apply Forall_forall. intros L HL%elem_of_seqZ. lia. }
  unfold AddIterators. rewrite Hl. eexists. split; [done|]. apply Forall2_app; [done|].
  change (version_lists all_levels) with (level_lists 0 (level_files v 0) ++ version_lists (seqZ 1 (kNumLevels - 1))).
  apply Forall2_app; [|done]. replace (level_lists 0 (level_files v 0)) with (map (fun f => data f) (level_files v 0))
    by (unfold level_lists; by destruct (level_files v 0)).
  apply file_iterators_walk. intros f. apply version_holds. unfold kNumLevels. lia.
Qed.

Lemma version_lists_in levels e : Forall (fun L => 0 <= L < kNumLevels) levels ->
  e ∈ concat (version_lists levels) -> in_version v data e.
Proof.
  intros HL (l & (ls & (L & -> & HLin)%list_elem_of_fmap & Hl)%elem_of_concat & He)%elem_of_concat. rewrite Forall_forall in HL.
  destruct (level_lists_in _ _ _ _ Hl He) as (f & Hf & Hef). exists L, f. split; [by apply HL|done].
Qed.

Lemma version_lists_all e : in_version v data e <-> e ∈ concat (version_lists all_levels).
Proof.
  split.
  - intros (L & f & HL & Hf & He).
    assert (e ∈ concat (level_lists L (level_files v L))) as (l & Hl & Hel)%elem_of_concat by (apply level_lists_all; by exists f).
    apply elem_of_concat. exists l. split; [|done]. apply elem_of_concat. exists (level_lists L (level_files v L)). split; [|done].
    apply (list_elem_of_fmap_2 (fun L => level_lists L (level_files v L))). apply elem_of_seqZ. lia.
  - apply version_lists_in. apply Forall_forall. intros L HL%elem_of_seqZ. lia.
Qed.

Lemma version_lists_sorted levels : Forall (fun L => 0 <= L < kNumLevels) levels -> Forall (StronglySorted (klt (c := c))) (version_lists levels).
Proof.
  induction 1 as [|L levels HL _ IH]; [constructor|]. unfold version_lists in *. cbn [map concat]. apply Forall_app. split; [|done].
  apply level_lists_sorted; [done|done|]. intros Hne. apply (vo_level _ _ Hvo). lia.
Qed.

Lemma version_lists_apart levels : StronglySorted Z.lt levels -> Forall (fun L => 0 <= L < kNumLevels) levels ->
  StronglySorted (lists_apart (c := c)) (version_lists levels).
Proof.
  induction 1 as [|L levels Hs IH Hlt]; [constructor|]. intros [HL HLs]%Forall_cons. unfold version_lists in *. cbn [map concat].
  apply StronglySorted_app. split; [|split; [|by apply IH]].
  - intros x y Hx (ls & (L' & -> & HL')%list_elem_of_fmap & Hy)%elem_of_concat. rewrite Forall_forall in Hlt, HLs.
    specialize (Hlt L' HL'). specialize (HLs L' HL'). by apply (level_lists_differ L L' (level_files v L) (level_files v L')); [lia|lia|..].
  - apply level_lists_apart; [|done]. intros ->. apply (vo_numbers _ _ Hvo).
Qed.
End Children.

Section Database.
Context {c : Comparator} {Hok : ComparatorOk c (fun _ => True)} {Hshort : ComparatorShort (InternalKeyComparator c) internal_dom}.
Context {I : Type} `{Iter I} `{FileIterators I} {serves : Z -> Z -> list ientry -> Prop} {HF : FileIteratorsOk I c serves}.
Context {E F T : Type} `{TableSourceOk T c good serves}.
Context (fuel : nat).

Abbreviation icmp := (InternalKeyComparator c).
#[local] Existing Instances level_file_iter level_iter.
#[local] Instance child_iter_here : Iter (Child (I := I)) := Child_iter c fuel.
#[local] Instance merged_iter_here : Iter (Merged (I := Child (I := I))) := Merged_iter icmp.

Lemma mem_walked m es : holds c m es ->
  exists l, l ≡ₚ map mem_ientry es /\ StronglySorted (klt (c := c)) l /\
    walks icmp seekable (map entry_of l) (length (map entry_of l)) (ChMem (I := I) (MemTable_NewIterator m)).
Proof.
  intros Hm. destruct (mem_walks m es Hm) as (sorted & Hp & Hs & Hw). exists (map mem_ientry sorted). split; [by apply Permutation_map|].
  split; [|rewrite !length_map; by apply (walks_stands (H := MemTable_iter c) ChMem)].
  destruct Hm as (Hf & _). assert (Forall fits sorted) as Hfs by (by rewrite Hp). apply sorted_compare.
  - apply Forall_map. eapply Forall_impl; [exact Hfs|]. intros e He. apply He.
  - clear -Hs. induction Hs as [|e l Hs IH Hall]; [constructor|]. cbn [map]. constructor; [done|]. by apply Forall_map.
Qed.

(** Entries with different sequence numbers are apart. *)
Lemma seq_apart (A B : list ientry) : (forall a, a ∈ A -> 0 <= sequence a.1 <= kMaxSequenceNumber) -> (forall b, b ∈ B -> 0 <= sequence b.1 <= kMaxSequenceNumber) ->
  (forall a b, a ∈ A -> b ∈ B -> sequence a.1 <> sequence b.1) -> lists_apart (c := c) A B.
Proof.
  intros HA HB Hn a b Ha Hb. unfold apart. rewrite Internal_Compare_Append by auto. unfold entry_compare.
  destruct (Compare c (userkey a.1) (userkey b.1)); [|done|done]. specialize (Hn a b Ha Hb).
  by destruct (Z.compare_spec (sequence b.1) (sequence a.1)); [lia|..].
Qed.

(** The lists behind everything in the database. *)
Lemma internal_children dat (d : DB (E := E) (F := F) (T := T)) es1 es2 : db_holds (c := c) (good := good) (serves := serves) dat d es1 es2 ->
  (forall v level, current (db_vs d) = Some v -> (length (level_files v level) + 2 <= fuel)%nat) ->
  (forall e, in_db dat d es1 es2 e -> len (userkey e.1) + 8 < 2 ^ 32) ->
  exists es it, NewInternalIterator c (I := I) fuel d = Some (it, GetLastSequence (db_vs d)) /\
    (forall e, e ∈ es <-> in_db dat d es1 es2 e) /\ StronglySorted (klt (c := c)) es /\
    Forall (fun e : ientry => 0 <= sequence e.1 <= kMaxSequenceNumber) es /\ walks icmp seekable (map entry_of es) (length es) it.
Proof.
  intros Hd Hfuel Hlen. destruct (dh_version _ _ _ _ Hd) as (v & Hv & Hvo & Hold).
  destruct (mem_walked _ _ (dh_mem _ _ _ _ Hd)) as (l1 & Hp1 & Hs1 & Hw1).
  assert (forall a, a ∈ es2 ++ es1 -> fits a) as Hfit.
  { intros a [Ha|Ha]%elem_of_app; [|by apply (proj1 (Forall_forall _ _) (proj1 (dh_mem _ _ _ _ Hd)))].
    pose proof (dh_imm _ _ _ _ Hd) as Hi. destruct (db_imm d); [by apply (proj1 (Forall_forall _ _) (proj1 Hi))|subst es2; by apply not_elem_of_nil in Ha]. }
  assert (exists ls2 iters, (match db_imm d with Some m => [ChMem (MemTable_NewIterator (db_mem d))] ++ [ChMem (MemTable_NewIterator m)]
      | None => [ChMem (MemTable_NewIterator (db_mem d))] end) = ChMem (I := I) (MemTable_NewIterator (db_mem d)) :: iters /\
    Forall2 (fun (l : list ientry) it => walks icmp seekable (map entry_of l) (length (map entry_of l)) it) ls2 iters /\
    Forall (StronglySorted (klt (c := c))) ls2 /\ concat ls2 ≡ₚ map mem_ientry es2 /\ StronglySorted (lists_apart (c := c)) ls2)
    as (ls2 & iters & Hiters & Hw2 & Hs2 & Hp2 & Ha2).
  { pose proof (dh_imm _ _ _ _ Hd) as Hi. destruct (db_imm d) as [m|].
    - destruct (mem_walked m es2 Hi) as (l2 & Hp2 & Hs2 & Hw2). exists [l2], [ChMem (MemTable_NewIterator m)]. split; [done|].
      split; [by constructor|]. split; [by constructor|]. split; [cbn; by rewrite app_nil_r|repeat constructor].
    - subst es2. exists [], []. split; [done|]. repeat constructor. }
  destruct (AddIterators_ok fuel dat v Hvo (fun level => Hfuel v level Hv) (ChMem (I := I) (MemTable_NewIterator (db_mem d)) :: iters) (l1 :: ls2))
    as (children & Hadd & Hw); [by constructor|].
  set (ls := (l1 :: ls2) ++ version_lists dat v all_levels) in *.
  assert (Forall (fun L => 0 <= L < kNumLevels) all_levels) as Hall by (apply Forall_forall; intros L HL%elem_of_seqZ; lia).
  assert (forall e, e ∈ concat ls <-> in_db dat d es1 es2 e) as Hin.
  { intros e. unfold ls. cbn [app concat]. rewrite elem_of_app, Hp1, concat_app, elem_of_app, Hp2, <- (version_lists_all dat v e).
    unfold in_db. setoid_rewrite elem_of_app. rewrite !list_elem_of_fmap. split.
    - intros [(a & -> & Ha)|[(a & -> & Ha)|He]]; [left; exists a; tauto|left; exists a; tauto|right; by exists v].
    - intros [(a & [Ha|Ha] & ->)|(v' & Hv' & He)]; [right; left; by exists a|left; by exists a|]. rewrite Hv in Hv'. injection Hv' as <-. tauto. }
  assert (forall e, in_db dat d es1 es2 e -> 0 <= sequence e.1 <= kMaxSequenceNumber) as Hrange.
  { intros e [(a & Ha & ->)|(v' & Hv' & L & f & HL & Hf & He)]; [by apply (Hfit a)|]. rewrite Hv in Hv'. injection Hv' as <-.
    by apply (data_range dat v Hvo L f). }
  destruct (merge_lists (c := c) ls) as (es & Hp & Hs).
  { unfold ls. cbn [app]. constructor; [done|]. apply Forall_app. split; [done|by apply version_lists_sorted]. }
  { unfold ls. apply StronglySorted_app. split; [|split].
    - assert (forall x a, x ∈ l1 :: ls2 -> a ∈ x -> exists m, m ∈ es2 ++ es1 /\ a = mem_ientry m) as Hmem.
      { intros x a [->|Hx]%elem_of_cons Ha.
        - rewrite Hp1 in Ha. apply list_elem_of_fmap in Ha as (m & -> & Hm). exists m. split; [apply elem_of_app; by right|done].
        - assert (a ∈ concat ls2) as Hc by (apply elem_of_concat; by exists x). rewrite Hp2 in Hc.
          apply list_elem_of_fmap in Hc as (m & -> & Hm). exists m. split; [apply elem_of_app; by left|done]. }
      assert (forall y b, y ∈ version_lists dat v all_levels -> b ∈ y -> in_version v (fun f => dat (number f)) b) as Hver.
      { intros y b Hy Hb. apply (version_lists_all dat v), elem_of_concat. by exists y. }
      intros x y Hx Hy. apply seq_apart.
      + intros a (m & Hm & ->)%(Hmem x); [|done]. apply (Hfit m Hm).
      + intros b Hb. apply Hrange. right. exists v. split; [done|]. by apply (Hver y).
      + intros a b (m & Hm & ->)%(Hmem x) Hb%(Hver y); [|done|done]. apply Hold in Hb as [_ Hb]. specialize (Hb m Hm). cbn. lia.
    - apply StronglySorted_cons. split; [|done]. apply Forall_forall. intros l2 Hl2. apply seq_apart.
      + intros a Ha. rewrite Hp1 in Ha. apply list_elem_of_fmap in Ha as (m & -> & Hm). apply (Hfit m), elem_of_app. by right.
      + intros b Hb. assert (b ∈ concat ls2) as Hc by (apply elem_of_concat; by exists l2). rewrite Hp2 in Hc.
        apply list_elem_of_fmap in Hc as (m & -> & Hm). apply (Hfit m), elem_of_app. by left.
      + intros a b Ha Hb. rewrite Hp1 in Ha. apply list_elem_of_fmap in Ha as (m1 & -> & Hm1).
        assert (b ∈ concat ls2) as Hc by (apply elem_of_concat; by exists l2). rewrite Hp2 in Hc.
        apply list_elem_of_fmap in Hc as (m2 & -> & Hm2). pose proof (dh_sorted _ _ _ _ Hd) as Hso.
        pose proof (StronglySorted_app_1_elem_of _ _ _ _ _ Hso Hm2 Hm1) as Hlt. cbn in Hlt |- *. lia.
    - apply (version_lists_apart dat v Hvo); [|done]. vm_compute. repeat constructor. }
  assert (forall e, e ∈ es -> in_db dat d es1 es2 e) as Hes by (intros e He; apply Hin; by rewrite <- Hp).
  destruct (merged_walk fuel ls children es) as (it & Hm & Hwalk); [done| |done|done| |].
  { unfold ls. cbn [app]. constructor; [done|]. apply Forall_app. split; [done|by apply version_lists_sorted]. }
  { apply Forall_forall. intros e He%Hes. rewrite length_AppendInternalKey. cbn. specialize (Hlen e He). lia. }
  exists es, it. split; [|split; [|split; [|split]]].
  - unfold NewInternalIterator. rewrite Hiters, Hv. cbn [mbind option_bind]. rewrite Hadd. unfold child_iter in Hm. by rewrite Hm.
  - intros e. by rewrite <- Hin, Hp.
  - done.
  - apply Forall_forall. intros e He%Hes. by apply Hrange.
  - done.
Qed.

(** The keys that a user may seek: their internal keys fit a memtable's encoding. *)
Definition seekable_key (u : bytes) : Prop := len u + 8 < 2 ^ 32.

Lemma length_view s es : (length (view c s es) <= length es)%nat.
Proof.
  unfold view. generalize (@nil ientry) as pre. induction es as [|e es IH]; intros pre; [done|]. cbn [view_from length]. rewrite length_app.
  specialize (IH (pre ++ [e])). destruct (is_live c s pre e); cbn [length]; lia.
Qed.

(** The rows of a snapshot and the iterator that walks them, given as many rounds as there are entries. *)
Lemma database_rows dat (d : DB (E := E) (F := F) (T := T)) es1 es2 snapshot :
  db_holds (c := c) (good := good) (serves := serves) dat d es1 es2 ->
  (forall v level, current (db_vs d) = Some v -> (length (level_files v level) + 2 <= fuel)%nat) ->
  (forall e, in_db dat d es1 es2 e -> seekable_key (userkey e.1)) ->
  let s := match snapshot with Some s => s | None => GetLastSequence (db_vs d) end in
  0 <= s <= kMaxSequenceNumber ->
  exists es rows it, DB_NewIterator c (I := I) fuel snapshot d = Some it /\ NoDup es /\ (forall e, e ∈ es <-> in_db dat d es1 es2 e) /\ (length rows <= length es)%nat /\ StronglySorted (key_lt (c := c)) rows /\
    (forall u x, (u, x) ∈ rows <->
      exists e, newest_in_db (c := c) dat d es1 es2 u s e /\ userkey e.1 = u /\ type e.1 = kTypeValue /\ e.2 = x) /\
    forall rounds, (length es <= rounds)%nat -> walks (H := DB_iter c rounds) c seekable_key rows (length rows) it.
Proof.
  intros Hd Hfuel Hlen s Hs. destruct (internal_children dat d es1 es2 Hd Hfuel Hlen) as (es & it & Hnew & Hin & Hso & Hseq & (at_ & Hr & Ha)).
  assert (StronglySorted (fun a b => entry_compare c a.1 b.1 = Lt) es) as Hes by (by apply (sorted_compare (c := c))).
  exists es, (view c s es), (DBIter_make it s). split; [|split; [by apply (sorted_NoDup (c := c))|split; [done|split; [apply length_view|split; [|split]]]]].
  - unfold DB_NewIterator. unfold child_iter_here in Hnew. rewrite Hnew. done.
  - by apply view_sorted.
  - intros u x. rewrite view_elem by done. split.
    + intros (e & He & Hu & Hx & Ht & Hse & Hmax). exists e. split; [|done]. apply Hin in He. split; [done|]. split.
      * split; [rewrite Hu; by apply (Compare_refl (dom := fun _ => True))|done].
      * intros e' He' [Hc Hle]. apply Hmax; [by apply Hin|done|done].
    + intros (e & (He & [_ Hse] & Hmax) & Hu & Ht & Hx). exists e. split; [by apply Hin|]. split_and!; try done.
      intros e' He' Hc Hle. apply Hmax; [by apply Hin|by split].
  - intros rounds Hrounds. exists (db_at (c := c) s es at_). split.
    + apply (db_iter_refines seekable); try done. intros u Hu. unfold seekable_key in Hu. unfold Table.seek_key. split; rewrite length_AppendInternalKey; cbn; lia.
    + by apply (db_iter_make s es at_ it (length es)).
Qed.

(** C10: The iterator of the database shows a snapshot of it.  With the memtables and the version in agreement with what was
    written, [DB::NewIterator] trips no assert, and the iterator it makes walks, with [SeekToFirst], [SeekToLast], [Seek], [Next]
    and [Prev] in any order, exactly the rows of the snapshot: the keys in strictly increasing order, each with the value of its
    newest entry - of the memtable, of the immutable memtable or of any file of any level - that the snapshot sees, and none of the
    keys whose newest such entry is a deletion.  Without a snapshot it shows what was written before it was made.  The iterators
    over the files keep their contract: each walks over its file's entries whatever the others do.  Those of the table cache, which
    read through the shared block cache, do so while that cache holds no blocks and the files that are read put none in (uncompressed
    files that are mapped into memory, or [fillcache] off); otherwise they may not, for a block is cached under its offset alone. *)
Theorem database_iterator dat (d : DB (E := E) (F := F) (T := T)) es1 es2 snapshot :
  db_holds (c := c) (good := good) (serves := serves) dat d es1 es2 ->
  (forall v level, current (db_vs d) = Some v -> (length (level_files v level) + 2 <= fuel)%nat) ->
  (forall e, in_db dat d es1 es2 e -> seekable_key (userkey e.1)) ->
  let s := match snapshot with Some s => s | None => GetLastSequence (db_vs d) end in
  0 <= s <= kMaxSequenceNumber ->
  exists rows it, DB_NewIterator c (I := I) fuel snapshot d = Some it /\
    StronglySorted (key_lt (c := c)) rows /\
    (forall u x, (u, x) ∈ rows <->
      exists e, newest_in_db (c := c) dat d es1 es2 u s e /\ userkey e.1 = u /\ type e.1 = kTypeValue /\ e.2 = x) /\
    exists n, forall rounds, (n <= rounds)%nat ->
      walks (H := DB_iter c rounds) c seekable_key rows (length rows) it.
Proof.
  intros Hd Hfuel Hlen s Hs. destruct (database_rows dat d es1 es2 snapshot Hd Hfuel Hlen Hs) as (es & rows & it & Hnew & _ & _ & _ & Hso & Hrows & Hwalk).
  exists rows, it. do 3 (split; [done|]). by exists (length es).
Qed.
End Database.

(** ** The iterators of the table cache *)

Section CacheIterators.
Context {length_of : bytes -> option Z} {uncompress : bytes -> option bytes}.
Context {G : Type} `{RandomFileOk G} (addr : Z) (paranoid : bool) (dbname : bytes).
Context (open_file : bytes -> Status * option G).
Context {C : Type} `{CacheOk C (Table G) cvalid} {K : Type} `{CacheOk K Block kvalid}.
Context (options : ReadOptions) (tc : TableCache C K).

Abbreviation icmp := (InternalKeyComparator BytewiseComparatorImpl).

(** The iterator of a table, over the block cache, with the key its cleanup gives back, an
    error iterator, or none where an assert failed. *)
Inductive FileIterator :=
  | FiTable (it : TwoLevelIterator (I1 := BIter) (I2 := BlockIter) (W := option K)) (table : Table G) (key : bytes)
  | FiError (it : BIter)
  | FiNone.

Definition file_iterator (r : option ((TwoLevelIterator (I1 := BIter) (I2 := BlockIter) (W := option K) * Table G * bytes + Status) * TableCache C K)) : FileIterator :=
  match r with
  | Some (inl (it, table, key), _) => FiTable it table key
  | Some (inr s, _) => FiError (NewErrorIterator s)
  | None => FiNone
  end.

(** A table has no more data blocks than its index has bytes. *)
Definition table_rounds (t : Table G) : nat := length (data (tblindex t)) + 2.

Definition table_iter (t : Table G) : Iter (TwoLevelIterator (I1 := BIter) (I2 := BlockIter) (W := option K)) :=
  Table_iter length_of uncompress addr icmp t options (table_rounds t).

#[export] Instance FileIterator_iter : Iter FileIterator := {
  iterValid x := match x with FiTable it t _ => iterValid (Iter := table_iter t) it | FiError it => iterValid it | FiNone => false end;
  iterSeekToFirst x := match x with
    | FiTable it t key => (fun it => FiTable it t key) <$> iterSeekToFirst (Iter := table_iter t) it
    | FiError it => FiError <$> iterSeekToFirst it | FiNone => None end;
  iterSeekToLast x := match x with
    | FiTable it t key => (fun it => FiTable it t key) <$> iterSeekToLast (Iter := table_iter t) it
    | FiError it => FiError <$> iterSeekToLast it | FiNone => None end;
  iterSeek x target := match x with
    | FiTable it t key => (fun it => FiTable it t key) <$> iterSeek (Iter := table_iter t) it target
    | FiError it => FiError <$> iterSeek it target | FiNone => None end;
  iterNext x := match x with
    | FiTable it t key => (fun it => FiTable it t key) <$> iterNext (Iter := table_iter t) it
    | FiError it => FiError <$> iterNext it | FiNone => None end;
  iterPrev x := match x with
    | FiTable it t key => (fun it => FiTable it t key) <$> iterPrev (Iter := table_iter t) it
    | FiError it => FiError <$> iterPrev it | FiNone => None end;
  iterkey x := match x with FiTable it t _ => iterkey (Iter := table_iter t) it | FiError it => iterkey it | FiNone => [] end;
  itervalue x := match x with FiTable it t _ => itervalue (Iter := table_iter t) it | FiError it => itervalue it | FiNone => [] end;
  iterstatus x := match x with FiTable it t _ => iterstatus (Iter := table_iter t) it | FiError it => iterstatus it | FiNone => OK end
}.

Lemma FiTable_stands t key : Stands (H := table_iter t) (H0 := FileIterator_iter) (fun it => FiTable it t key).
Proof. by split. Qed.

#[export] Instance cache_iterators : FileIterators FileIterator := {
  NewFileIterator num size := file_iterator (cache_NewIterator length_of uncompress addr icmp paranoid dbname open_file num size tc);
  FileValueIterator v := file_iterator (GetFileIterator length_of uncompress addr icmp paranoid dbname open_file v tc)
}.

Lemma block_holds_length idx raw : block_holds idx raw -> (length idx <= length raw)%nat.
Proof.
  intros (its & rs & <- & Hb & _). rewrite (bo_data _ _ _ Hb), length_map, !length_app.
  enough (length its <= length (encs its))%nat by lia. clear Hb. unfold encs. induction its as [|e its IH]; [done|].
  cbn [map concat length]. rewrite length_app. unfold enc at 1. rewrite length_app. pose proof (length_header e). lia.
Qed.

Abbreviation cached := (cache_good (length_of := length_of) (uncompress := uncompress) (cvalid := cvalid) (kvalid := kvalid) addr paranoid dbname open_file).

(** Every iterator reads through the block cache.  It is empty and stays so, since no block
    of the files that are read goes in; so the iterators, each of which is given the cache
    as it is when it is made, do not depend on one another. *)
Hypothesis Hempty : no_blocks (valid := kvalid) (blockcache tc).
Hypothesis Hout : forall num es, kept_out (length_of := length_of) (uncompress := uncompress) addr dbname open_file options num es.

Lemma cache_NewIterator_walks num size es : cached tc -> serves (length_of := length_of) (uncompress := uncompress) dbname open_file num size es ->
  exists ti t key tc' (at_ : nat -> _ -> Prop),
    cache_NewIterator length_of uncompress addr icmp paranoid dbname open_file num size tc = Some (inl (ti, t, key), tc') /\
    blockcache tc' = blockcache tc /\ at_ (length es) ti /\ iter_refines (H := table_iter t) icmp internal_dom (map entry_of es) at_ /\
    forall i x, at_ i x -> world x = blockcache tc /\ forget_data run_cleanup x = Some (blockcache tc).
Proof.
  intros Hg (g & blocks & idx & meta & ih & Hf & ->). unfold cache_NewIterator.
  destruct (FindTable_ok (cvalid := cvalid) (kvalid := kvalid) addr paranoid dbname open_file _ _ _ _ _ _ _ tc Hg Hf) as (t & tc1 & -> & _ & Hb1 & Ht).
  cbn [mbind option_bind ok OK negb].
  pose proof (fo_table _ _ _ _ _ _ _ _ _ Hf) as Htf. pose proof Ht as (_ & _ & raw & Hti & Hraw). pose proof (block_holds_length _ _ Hraw) as Hlen.
  assert (length (data (tblindex t)) = length raw) as Hraw_len by (rewrite Hti; unfold Block_make; by repeat case_match).
  destruct (table_iter_apart (c := icmp) (dom := internal_dom) (valid := kvalid) addr options (map entry_of es) g blocks idx meta ih
    Htf (entry_of_sorted _ _ _ _ _ _ _ _ _ Hf) t (table_rounds t) (blockcache tc1) Ht) as (ti & at_ & -> & Hat & Hir & Hw);
    [unfold table_rounds; lia|by rewrite Hb1|by apply (Hout num es g blocks idx meta ih)|].
  rewrite length_map in Hat. cbn [mbind option_bind]. rewrite Hb1 in Hw. by exists ti, t, (EncodeFixed64 num), tc1, at_.
Qed.

Lemma file_iterator_walks num size es : cached tc -> serves (length_of := length_of) (uncompress := uncompress) dbname open_file num size es ->
  walks icmp internal_dom (map entry_of es) (length es)
    (file_iterator (cache_NewIterator length_of uncompress addr icmp paranoid dbname open_file num size tc)).
Proof.
  intros Hg Hs. destruct (cache_NewIterator_walks num size es Hg Hs) as (ti & t & key & tc' & at_ & -> & _ & Hat & Hir & _).
  cbn [file_iterator]. pose proof (FiTable_stands t key).
  apply (walks_stands (H := table_iter t) (fun it => FiTable it t key)). by exists at_.
Qed.

#[export] Instance cache_iterators_ok (Hg : cached tc) : FileIteratorsOk FileIterator BytewiseComparatorImpl
  (serves (length_of := length_of) (uncompress := uncompress) dbname open_file).
Proof.
  assert (forall num size es, serves (length_of := length_of) (uncompress := uncompress) dbname open_file num size es ->
    (0 < num < 2 ^ 64 /\ 0 <= size < 2 ^ 33) /\ StronglySorted (key_lt (c := icmp)) (map entry_of es)) as Hnum.
  { intros num size es (g & blocks & idx & meta & ih & Hf & ->). split; [|apply Hf].
    pose proof (fo_number _ _ _ _ _ _ _ _ _ Hf). pose proof (tf_size _ _ _ _ _ _ (fo_table _ _ _ _ _ _ _ _ _ Hf)). lia. }
  split; intros num size es Hs; destruct (Hnum num size es Hs) as [[Hn Hsz] Hso].
  - lia.
  - done.
  - by apply file_iterator_walks.
  - cbn [FileValueIterator cache_iterators]. unfold GetFileIterator.
    rewrite length_app, !length_EncodeFixed64. cbn [Nat.add Nat.eqb negb].
    rewrite DecodeFixed64_app, drop_app_length' by (by rewrite length_EncodeFixed64).
    rewrite <- (app_nil_r (EncodeFixed64 size)), DecodeFixed64_app, !u64_small by lia. by apply file_iterator_walks.
Qed.
End CacheIterators.

(** ** A concrete database, through the table cache *)

#[local] Existing Instances flush_append flush_append_ok flush_read flush_env flush_env_ok flush_random flush_random_ok flush_tables flush_tables_ok
  flush_block_cache flush_blocks_ok.

Definition work_new : ientry := (MkParsedInternalKey (str "ant") 9 kTypeValue, str "new").
Definition work_old : ientry := (MkParsedInternalKey (str "ant") 2 kTypeValue, str "old").

(** The file of a table with one entry. *)
Definition work_table (e : ientry) : bytes :=
  default [] (let? b := Add_all (c := InternalKeyComparator BytewiseComparatorImpl) (compress := run_compress) 2 16 kNoCompression 0
                          (TableBuilder_make empty_file) [entry_of e] in
              let? b := TableBuilder_Finish run_compress (InternalKeyComparator BytewiseComparatorImpl) kNoCompression 0 b in
              Some (contents (tfile b))).

(** File 3 holds the old entry, any other the new one. *)
Definition work_disk (name : bytes) : Status * option MmapFile :=
  (OK, Some (MkMmapFile name (work_table (if bool_decide (name = str "/db/000003.ldb") then work_old else work_new)))).

Definition work_file (num : Z) (e : ientry) : file :=
  MkFileMetaData 100 num (len (work_table e)) (AppendInternalKey [] e.1) (AppendInternalKey [] e.1).
Definition work_dat (num : Z) : list ientry := if num =? 5 then [work_new] else if num =? 3 then [work_old] else [].
Definition work_version : Version := set_files Version_make [[work_file 5 work_new]; [work_file 3 work_old]; []; []; []; []; []].
Definition work_compaction : Compaction :=
  set_inputs (Compaction_make 2097152 0) work_version [work_file 5 work_new] [work_file 3 work_old] [] VersionEdit_make.

#[local] Instance work_source : TableSource DemoCache :=
  cache_source (length_of := run_length) (uncompress := run_uncompress) 0 true (str "/db") work_disk ReadOptions_make.
#[local] Instance work_opener : TableOpener DemoCache :=
  opener_here (length_of := run_length) (uncompress := run_uncompress) 0 true (str "/db") work_disk 10 ReadOptions_make.

(** The iterators read without filling the block cache. *)
Definition work_reads : ReadOptions := MkReadOptions true false.
#[local] Instance work_iterators : FileIterators (FileIterator (G := MmapFile)) :=
  cache_iterators (length_of := run_length) (uncompress := run_uncompress) 0 true (str "/db") work_disk demo_cache.
#[local] Instance work_iter : Iter (FileIterator (G := MmapFile)) :=
  FileIterator_iter (length_of := run_length) (uncompress := run_uncompress) 0 work_reads.

Abbreviation work_good := (cache_good (length_of := run_length) (uncompress := run_uncompress) (cvalid := cache_ok (fun _ => 0))
  (kvalid := cache_ok (fun _ => 0)) 0 true (str "/db") work_disk).
Abbreviation work_serves := (serves (length_of := run_length) (uncompress := run_uncompress) (str "/db") work_disk).

Definition work_db : DB (E := MemDir) (F := WritableFile) (T := DemoCache) :=
  MkDB MemTable_make None
    (MkVersionSet [work_version] 6 2 9 0 0 (replicate (Z.to_nat kNumLevels) []) (Some (LogWriter_make (MkWritableFile [] [] [] (str "/db/MANIFEST-000002")) 0)))
    demo_cache [] (LogWriter_make (MkWritableFile [] [] [] (str "/db/000004.log")) 0) 4 OK [] None [] true false false [].

(** The merged inputs. *)
Definition work_merged : list ientry := [work_new; work_old].

Lemma work_table_held e : StronglySorted (key_lt (c := InternalKeyComparator BytewiseComparatorImpl)) (map entry_of [e]) /\
    weight (map entry_of [e]) + 300 < 2 ^ 32 ->
  finished (c := BytewiseComparatorImpl) (length_of := run_length) (uncompress := run_uncompress) [e] (work_table e).
Proof.
  intros Hfit. destruct (table_built (c := InternalKeyComparator BytewiseComparatorImpl) (dom := internal_dom) (F := WritableFile)
    (compress := run_compress) (length_of := run_length) (uncompress := run_uncompress)
    2 16 kNoCompression 0 ltac:(lia) empty_file (map entry_of [e])) as (b & b' & blocks & idx & meta & ih & Hadd & Hfin & _ & _ & _ & _ & Htf).
  - constructor.
  - reflexivity.
  - apply entries_all_sorted, Hfit.
  - apply Hfit.
  - change (map entry_of [e]) with [entry_of e] in Hadd. exists blocks, idx, meta, ih. unfold work_table. rewrite Hadd. cbn [mbind option_bind]. by rewrite Hfin.
Qed.

(** A table is read in its full length only: no other size ends with the magic number. *)
Lemma work_full name e size s t : e ∈ work_merged ->
  Table_Open run_length run_uncompress 0 true (MkMmapFile name (work_table e)) size = (s, Some t) -> size = len (work_table e).
Proof.
  intros He Ho. assert (len (work_table e) < 2 ^ 10) as Hshort.
  { unfold work_merged in He. rewrite !elem_of_cons in He. destruct He as [->|[->|He]]; [vm_compute; reflexivity..|by apply not_elem_of_nil in He]. }
  destruct (decide (size < 48)) as [Hlo|Hlo].
  { unfold Table_Open in Ho. by rewrite (proj2 (Z.ltb_lt _ _)) in Ho. }
  destruct (decide (len (work_table e) < size)) as [Hhi|Hhi].
  { unfold Table_Open in Ho. rewrite (proj2 (Z.ltb_ge _ _)) in Ho by (unfold kEncodedLength; lia).
    unfold flush_random, MmapFile_random in Ho. cbn [rread mmname mmbase] in Ho. unfold mmap_read in Ho.
    replace (size - Z.of_nat kEncodedLength + Z.of_nat kEncodedLength) with size in Ho by lia.
    destruct (decide (size < 2 ^ 64)) as [Hs|Hs]; [by rewrite u64_small, (proj2 (Z.ltb_lt _ _)) in Ho by lia|].
    destruct (_ <? u64 _); [done|]. rewrite drop_ge in Ho by (unfold kEncodedLength; lia). by vm_compute in Ho. }
  assert (forallb (fun size => match Table_Open run_length run_uncompress 0 true (MkMmapFile name (work_table e)) size with
    | (_, Some _) => size =? len (work_table e) | (_, None) => true end) (seqZ 48 (len (work_table e) - 47)) = true) as Hall.
  { unfold work_merged in He. rewrite !elem_of_cons in He. destruct He as [->|[->|He]]; [vm_compute; reflexivity..|by apply not_elem_of_nil in He]. }
  rewrite forallb_forall in Hall. specialize (Hall size). rewrite Ho in Hall. apply Z.eqb_eq, Hall. apply list_elem_of_In, elem_of_seqZ. lia.
Qed.

Lemma work_fit e : e ∈ work_merged -> StronglySorted (key_lt (c := InternalKeyComparator BytewiseComparatorImpl)) (map entry_of [e]) /\
  weight (map entry_of [e]) + 300 < 2 ^ 32 /\ 0 <= sequence e.1 <= kMaxSequenceNumber.
Proof.
  unfold work_merged. rewrite !elem_of_cons. intros [->|[->|He]]; [| |by apply not_elem_of_nil in He];
    (split; [repeat constructor|]; split; [vm_compute; reflexivity|vm_compute; split; discriminate]).
Qed.

(** What a file of the disk holds. *)
Lemma work_served num e : 0 < num < 2 ^ 64 -> e = (if num =? 3 then work_old else work_new) ->
  bool_decide (TableFileName (str "/db") num = Some (str "/db/000003.ldb")) = (num =? 3) ->
  work_serves num (len (work_table e)) [e] /\ file_ok (ucmp := BytewiseComparatorImpl) (work_file num e).
Proof.
  intros Hn -> Hname. set (e := if num =? 3 then work_old else work_new).
  assert (e ∈ work_merged) as He by (unfold e; destruct (num =? 3); [right; left|left]).
  destruct (work_fit e He) as (Hs & Hw & Hseq). split.
  - destruct (work_table_held e (conj Hs Hw)) as (blocks & idx & meta & ih & Htf).
    exists (MkMmapFile (default [] (TableFileName (str "/db") num)) (work_table e)), blocks, idx, meta, ih. split; [|done].
    split; [done| |exact Htf|exact Hs|by apply Forall_singleton]. intros name Heq. rewrite Heq. cbn [default].
    unfold work_disk. rewrite Heq in Hname. replace (bool_decide (name = str "/db/000003.ldb")) with (num =? 3); [done|].
    rewrite <- Hname. apply bool_decide_ext. split; [by intros [=]|by intros ->].
  - assert (ikey_ok (AppendInternalKey [] e.1)) as Hk by (by exists e.1). split; [exact Hk..|by rewrite Internal_refl].
Qed.

Lemma work_level level f : 0 <= level < kNumLevels -> f ∈ level_files work_version level ->
  (level = 0 /\ f = work_file 5 work_new) \/ (level = 1 /\ f = work_file 3 work_old).
Proof.
  unfold kNumLevels. intros Hl Hf.
  assert (level = 0 \/ level = 1 \/ level = 2 \/ level = 3 \/ level = 4 \/ level = 5 \/ level = 6) as [->|[->|[->|[->|[->|[->| ->]]]]]] by lia;
    [left|right|by apply not_elem_of_nil in Hf..]; (split; [done|]); by apply list_elem_of_singleton in Hf.
Qed.

Abbreviation work_data := (fun f : file => work_dat (number f)).

Lemma work_holds num e : (num, e) = (5, work_new) \/ (num, e) = (3, work_old) ->
  file_holds (ucmp := BytewiseComparatorImpl) (serves := work_serves) work_data (work_file num e).
Proof.
  intros Hc. assert (work_dat num = [e] /\ e ∈ work_merged) as [Hd He] by (destruct Hc as [[= -> ->]|[= -> ->]]; (split; [done|]); [left|right; left]).
  destruct (work_served num e) as [Hserves Hok]; [by destruct Hc as [[= -> ->]|[= -> ->]]..|destruct Hc as [[= -> ->]|[= -> ->]]; by vm_compute|].
  pose proof (fk_smallest _ Hok) as Hk. split; cbn [number work_file filesize VersionEdit.filesize smallest largest]; rewrite ?Hd.
  - exact Hok.
  - exact Hserves.
  - intros e' ->%list_elem_of_singleton. split; [by apply work_fit|]. rewrite Internal_refl by apply ikey_ok_dom, Hk. done.
  - exists e. split; [left|done].
Qed.

Lemma work_version_ok : version_ok (ucmp := BytewiseComparatorImpl) (serves := work_serves) work_version work_data.
Proof.
  split.
  - intros level f Hl [[-> ->]|[-> ->]]%work_level; [..|done]; apply work_holds; ((by left) || (by right)).
  - intros level Hl. assert (level = 1 \/ level_files work_version level = []) as [->| ->].
    { unfold kNumLevels in Hl. assert (level = 1 \/ level = 2 \/ level = 3 \/ level = 4 \/ level = 5 \/ level = 6) as [->|[->|[->|[->|[->| ->]]]]] by lia;
        [by left|by right..]. }
    + change (level_files work_version 1) with [work_file 3 work_old]. split; [repeat constructor; apply (fh_ok _ _ (work_holds 3 work_old ltac:(by right)))|by repeat constructor|done].
    + split; [constructor|constructor|done].
  - apply NoDup_singleton.
  - intros f g ->%list_elem_of_singleton ->%list_elem_of_singleton Hn. lia.
  - intros level level' f g Hlt Hl' [[-> ->]|[-> ->]]%work_level [[-> ->]|[-> ->]]%work_level; try lia.
    intros a b ->%list_elem_of_singleton ->%list_elem_of_singleton _. by vm_compute.
Qed.

Lemma work_compaction_ok : compaction_ok (ucmp := BytewiseComparatorImpl) work_version work_compaction.
Proof.
  split.
  - done.
  - done.
  - done.
  - intros f Hf. exact Hf.
  - intros f g Hf Hg Hn. done.
  - exists [], []. split; [done|]. split; intros f g _ Hg; by apply not_elem_of_nil in Hg.
  - intros _. exists (smallest (work_file 5 work_new)), (largest (work_file 3 work_old)). split; [|done].
    assert (Forall (fun f => Internal_Compare BytewiseComparatorImpl (smallest (work_file 5 work_new)) (smallest f) <> Gt /\
      Internal_Compare BytewiseComparatorImpl (largest f) (largest (work_file 3 work_old)) <> Gt)
      [work_file 5 work_new; work_file 3 work_old]) as Hall
      by (repeat constructor; vm_compute; discriminate).
    rewrite Forall_forall in Hall. split; [by exists (work_file 5 work_new); split; [left|]|
      by exists (work_file 3 work_old); split; [right; left|]|intros f Hf; by apply Hall..].
  - exists None, None. split; [by intros f _ _|done].
Qed.

Lemma work_merged_ok : merged_inputs (ucmp := BytewiseComparatorImpl) work_data work_compaction work_merged.
Proof.
  split; [|repeat constructor].
  intros e. split.
  - unfold work_merged. rewrite !elem_of_cons. intros [->|[->|He]]; [| |by apply not_elem_of_nil in He].
    + exists 0, (work_file 5 work_new). split; [left; split; [done|left]|left].
    + exists 1, (work_file 3 work_old). split; [right; split; [done|left]|left].
  - intros (L & f & [[_ ->%list_elem_of_singleton]|[_ ->%list_elem_of_singleton]] & ->%list_elem_of_singleton); [left|right; left].
Qed.


Lemma work_levels level : (length (level_files work_version level) + 2 <= 3)%nat.
Proof.
  unfold level_files, work_version. cbn [vfiles set_files]. rewrite list_lookup_total_alt.
  destruct (Z.to_nat level) as [|[|[|[|[|[|[|n]]]]]]]; vm_compute; repeat constructor.
Qed.

Lemma work_iterators_ok : FileIteratorsOk (FileIterator (G := MmapFile)) BytewiseComparatorImpl work_serves.
Proof.
  apply (cache_iterators_ok (cvalid := cache_ok (fun _ => 0)) (kvalid := cache_ok (fun _ => 0)) 0 true (str "/db") work_disk work_reads demo_cache).
  - apply demo_no_blocks.
  - intros num es g blocks idx meta ih _. by apply not_filled.
  - apply fresh_cache_good.
Qed.

Lemma work_in_version e : in_version work_version work_data e <-> e = work_new \/ e = work_old.
Proof.
  split.
  - intros (level & f & Hl & Hf & He). apply work_level in Hf as [[-> ->]|[-> ->]]; [..|done]; apply list_elem_of_singleton in He as ->; [by left|by right].
  - intros [->| ->]; [exists 0, (work_file 5 work_new)|exists 1, (work_file 3 work_old)]; (split; [done|]); split; left.
Qed.

Lemma work_db_holds : db_holds (c := BytewiseComparatorImpl) (good := work_good) (serves := work_serves) work_dat work_db [] [].
Proof.
  split; try done.
  - apply holds_make.
  - exists work_version. split; [done|]. split; [exact work_version_ok|]. intros e He%work_in_version.
    split; [by destruct He as [->| ->]; vm_compute|]. intros a Ha. by apply not_elem_of_nil in Ha.
  - apply fresh_cache_good.
  - constructor.
  - intros a Ha. by apply not_elem_of_nil in Ha.
Qed.

Abbreviation work_rows snapshot := (let? it := DB_NewIterator BytewiseComparatorImpl (I := FileIterator (G := MmapFile)) 3 snapshot work_db in
  let H := DB_iter (H := Merged_iter (H := Child_iter BytewiseComparatorImpl 3) (InternalKeyComparator BytewiseComparatorImpl)) BytewiseComparatorImpl 2 in
  let? it := iterSeekToFirst (Iter := H) it in
  let? last := iterNext (Iter := H) it in
  Some (iterkey (Iter := H) it, itervalue (Iter := H) it, iterValid (Iter := H) last)).

Example work_shows : work_rows None = Some (str "ant", str "new", false) /\ work_rows (Some 5) = Some (str "ant", str "old", false).
Proof. split; vm_compute; reflexivity. Qed.

(** A snapshot from before the newer file sees the older one. *)
Lemma database_iterator_witness : exists rows it,
  DB_NewIterator BytewiseComparatorImpl (I := FileIterator (G := MmapFile)) 3 (Some 5) work_db = Some it /\ (str "ant", str "old") ∈ rows /\
  exists n, forall rounds, (n <= rounds)%nat ->
    walks (H := DB_iter (H := Merged_iter (H := Child_iter BytewiseComparatorImpl 3) (InternalKeyComparator BytewiseComparatorImpl)) BytewiseComparatorImpl rounds)
      BytewiseComparatorImpl seekable_key rows (length rows) it.
Proof.
  assert (forall e, in_db work_dat work_db [] [] e <-> e = work_new \/ e = work_old) as Hin.
  { intros e. rewrite <- work_in_version. split.
    - intros [(a & Ha & _)|(v & Hv & He)]; [by apply not_elem_of_nil in Ha|]. by injection Hv as <-.
    - intros He. right. by exists work_version. }
  destruct (database_iterator (HF := work_iterators_ok) (good := work_good) 3 work_dat work_db [] [] (Some 5))
    as (rows & it & Hnew & _ & Hrows & Hwalk).
  - exact work_db_holds.
  - intros v level Hv. injection Hv as <-. apply work_levels.
  - intros e [->| ->]%Hin; by vm_compute.
  - by vm_compute.
  - exists rows, it. split; [exact Hnew|]. split; [|exact Hwalk]. apply Hrows. exists work_old. split; [|done]. split; [apply Hin; by right|].
    split; [by vm_compute|]. intros e' [->| ->]%Hin [_ Hle]; [by vm_compute in Hle|done].
Defined.
