(* ===== verification/DbStore.v ===== *)
(** The database as the store of the Redis types: [DB::Write], [DB::Put] and [DB::Delete] of a
    caller that finds the queue empty (redisdb/db/db.cc), the walk of an iterator from where it is
    set to its last row, and the proof that they keep the contract [KVStoreSteady]. *)
From Stdlib Require Import Sorted.
From stdpp Require Import gmap sorting sets.
From S2P Require Import Prelude Coding Status Env DbFormat Serialize KvStore RedisHash Block TableFormat LogFormat LruCache Iterators Table SkipList MemTable WriteBatch VersionEdit FileIO FileName Version TableCache VersionBuilder VersionSet DbIter Database Compaction CompactionWork Flush DbIterators.
Local Open Scope Z_scope.

(** ** Walking an iterator *)

(** The loop [for (; it->Valid(); it->Next())]: the rows, and the status at the end. *)
Fixpoint walk_rows {I} `{Iter I} (fuel : nat) (it : I) : option (list Iterators.entry * Status) :=
  if iterValid it then
    match fuel with
    | O => None
    | S fuel =>
        let? it' := iterNext it in
        let? (rows, st) := walk_rows fuel it' in Some ((iterkey it, itervalue it) :: rows, st)
    end
  else Some ([], iterstatus it).

Lemma walk_rows_at {I} `{Iter I} c dom es (at_ : nat -> I -> Prop) : iter_refines c dom es at_ ->
  forall fuel i it, at_ i it -> (length es - i <= fuel)%nat -> walk_rows fuel it = Some (drop i es, OK).
Proof.
  intros Hr fuel. induction fuel as [|fuel IH]; intros i it Ha Hf; cbn [walk_rows]; rewrite (ir_valid _ _ _ _ Hr i it Ha);
    destruct (Nat.ltb_spec i (length es)) as [Hlt|Hge]; try lia; try by rewrite drop_ge, (ir_status _ _ _ _ Hr i it Ha).
  destruct (ir_next _ _ _ _ Hr i it Ha Hlt) as (it' & -> & Ha'). cbn [mbind option_bind].
  rewrite (IH (S i) it' Ha') by lia. cbn [mbind option_bind]. destruct (lookup_lt_is_Some_2 es i Hlt) as [e He].
  destruct (ir_entry _ _ _ _ Hr i it e Ha He) as [-> ->]. rewrite (drop_S es e i He). by destruct e.
Qed.

(** [SeekToFirst], or [Seek], and the rows from there. *)
Definition set_iter {I} `{Iter I} (target : option bytes) (it : I) : option I :=
  match target with Some t => iterSeek it t | None => iterSeekToFirst it end.

Lemma lower_bound_drop c es t : forall j, lower_bound c es t j -> drop j es = seek_from c t es.
Proof.
  induction es as [|e es IH]; intros [|j] [Hlt Hge]; try done; cbn [seek_from drop].
  - by rewrite bool_decide_eq_false_2 by by apply Hge.
  - rewrite bool_decide_eq_true_2 by (by apply (Hlt 0%nat); [lia|]). apply IH. split.
    + intros n e' Hn He'. apply (Hlt (S n)); [lia|done].
    + done.
Qed.

Lemma walk_rows_ok {I} `{Iter I} c (dom : bytes -> Prop) es i (it : I) fuel target : walks c dom es i it -> (length es <= fuel)%nat ->
  (forall t, target = Some t -> dom t) ->
  exists it', set_iter target it = Some it' /\ walk_rows fuel it' = Some (rows_from c target es, OK).
Proof.
  intros (at_ & Hr & Ha) Hf Ht. destruct target as [t|]; cbn [set_iter rows_from].
  - destruct (ir_seek _ _ _ _ Hr i it t Ha (Ht t eq_refl)) as (it' & j & -> & Ha' & Hb). exists it'. split; [done|].
    rewrite (walk_rows_at c dom es at_ Hr fuel j it' Ha') by lia. by rewrite (lower_bound_drop c es t j Hb).
  - destruct (ir_first _ _ _ _ Hr i it Ha) as (it' & -> & Ha'). exists it'. split; [done|].
    by rewrite (walk_rows_at c dom es at_ Hr fuel 0%nat it' Ha') by lia.
Qed.

(** ** Writing alone *)

Section Store.
Context (rnd : nat -> Z) (taddr dataaddr : Z).
Context {E F G T I : Type} `{FileEnv E F G} `{AppendFile F} `{ReadFile G} `{TableSource T} `{Iter I} `{FileIterators I}.
Context (dbname : bytes) (writebuffersize : Z).
(** Bounds on the files of a level and on the entries an iterator passes. *)
Context (fuel rounds : nat).

Abbreviation c := BytewiseComparatorImpl.
Abbreviation Db := (DB (E := E) (F := F) (T := T)).

(** [MakeRoomForWrite] of a writer that is never made to wait: at most one turn makes a new
    memtable, and the next one finds room in it. *)
Fixpoint make_room (turns : nat) (force allowdelay : bool) (d : Db) : option (Status * Db) :=
  match turns with
  | O => None
  | S turns =>
      let? r := MakeRoomForWrite_turn (G := G) dbname writebuffersize force allowdelay d in
      match r with
      | RoomDone s d => Some (s, d)
      | RoomSwitched d => make_room turns false allowdelay d
      | RoomDelay _ | RoomWait _ => None
      end
  end.

(** [DB::Write] of a caller that finds the queue empty and does not have to wait for room;
    the status is the one its writer is handed. *)
Definition DB_Write (updates : option WriteBatch) (sync : bool) (d : Db) : option (Status * Db) :=
  let d := Write_enqueue (MkWriter 0 updates sync) d in
  let? (s, d) := make_room 2 (match updates with None => true | Some _ => false end) true d in
  let? d := Write_commit c rnd taddr dataaddr (G := G) s d in
  let? answer := last (db_done d) in Some (answer.2, d).

Definition DB_Put (key value : bytes) (d : Db) : option (Status * Db) := DB_Write (Some (Put WriteBatch.clear key value)) false d.
Definition DB_Delete (key : bytes) (d : Db) : option (Status * Db) := DB_Write (Some (Delete WriteBatch.clear key)) false d.

(** Everything a new iterator shows from where it is set. *)
Definition DB_entries (d : Db) (target : option bytes) : option (list Iterators.entry * Status) :=
  let Hit := DB_iter (H := Merged_iter (H := Child_iter c fuel) (InternalKeyComparator c)) c rounds in
  let? it := DB_NewIterator c (I := I) fuel None d in
  let? it := set_iter (H := Hit) target it in walk_rows (H := Hit) rounds it.

(** The batch that performs [ops]. *)
Definition batch_of (ops : list Op) : WriteBatch := fold_left apply_op ops WriteBatch.clear.

#[export] Instance db_store : KVStore Db := {
  kget d key value := Get c None key value d;
  kwrite d ops := DB_Write (Some (batch_of ops)) false d;
  kentries d target := DB_entries d target
}.

Lemma kput_is_Put (d : Db) k v : kput d k v = DB_Put k v d.
Proof. done. Qed.
Lemma kdelete_is_Delete (d : Db) k : kdelete d k = DB_Delete k d.
Proof. done. Qed.

(** The function is one run of the loop. *)
Lemma make_room_run others turns : forall force delay d s d', make_room turns force delay d = Some (s, d') ->
  MakeRoomForWrite (G := G) dbname writebuffersize others force delay d s d'.
Proof.
  induction turns as [|turns IH]; intros force delay d s d' Hm; [done|]. cbn [make_room] in Hm.
  destruct (MakeRoomForWrite_turn _ _ _ _ _) as [[s1 d1|d1|d1|d1]|] eqn:Ht; try done; cbn [mbind option_bind] in Hm.
  - injection Hm as <- <-. by apply room_done.
  - by eapply room_switched; [|apply IH].
Qed.
End Store.

(** ** The map a database holds *)

Section Holds.
Context {E F G T I : Type} `{FileEnv E F G} `{AppendFileOk F} {HE : FileEnvOk E F G} `{ReadFile G}.
Context {good : T -> Prop} {serves : Z -> Z -> list ientry -> Prop} `{TableSourceOk T BytewiseComparatorImpl good serves} `{Iter I} `{FileIterators I} {HF : FileIteratorsOk I BytewiseComparatorImpl serves}.
Context (rnd : nat -> Z) (taddr dataaddr : Z) (dbname : bytes) (writebuffersize : Z) (fuel rounds : nat).

Abbreviation c := BytewiseComparatorImpl.
Abbreviation Db := (DB (E := E) (F := F) (T := T)).
Abbreviation holding := (db_holds (c := c) (good := good) (serves := serves)).
Abbreviation newest_entry dat d es1 es2 u := (newest_in_db (c := c) dat d es1 es2 u (GetLastSequence (db_vs d))).

Lemma same_key u u' : Compare c u u' = Eq -> u = u'.
Proof. apply compare_eq. Qed.

(** The newest entries of the keys are the values of [m], or deletions. *)
Definition shows (dat : Z -> list ientry) (d : Db) (es1 es2 : list MemEntry) (m : kvmap) : Prop := forall u v,
  m !! u = Some v <-> exists e, newest_entry dat d es1 es2 u e /\ userkey e.1 = u /\ type e.1 = kTypeValue /\ e.2 = v.

(** No writer waits, and what was written - in the memtables, the log of which is [gs], and in the files - is [m]. *)
Record store_state (dat : Z -> list ientry) (es1 es2 : list MemEntry) (gs : list group) (d : Db) (m : kvmap) : Prop := {
  ss_holds : holding dat d es1 es2;
  ss_logged : logged d es1 gs;
  ss_writers : db_writers d = [];
  ss_tmp : db_tmpbatch d = None \/ db_tmpbatch d = Some WriteBatch.clear;
  ss_short e : in_db dat d es1 es2 e -> short_key (userkey e.1);
  ss_unique e e' : in_db dat d es1 es2 e -> in_db dat d es1 es2 e' -> userkey e.1 = userkey e'.1 -> sequence e.1 = sequence e'.1 -> e = e';
  ss_shows : shows dat d es1 es2 m
}.

(** Writes fail, or there is room in the memtable and few files of level 0. *)
Definition has_room (d : Db) : Prop :=
  failed (db_bgerror d) \/
  (db_bgerror d = OK /\ GetMemoryUsage (db_mem d) <= writebuffersize /\
   exists v, current (db_vs d) = Some v /\ len (level_files v 0) < kL0_SlowdownWritesTrigger).

(** What a command asks for before it starts: room, sequence numbers for a batch, and files
    and entries within the bounds of the walks. *)
Record store_ready (dat : Z -> list ientry) (es1 es2 : list MemEntry) (d : Db) : Prop := {
  sr_room : has_room d;
  sr_numbers : GetLastSequence (db_vs d) + 2 ^ 31 <= kMaxSequenceNumber;
  sr_levels v level : current (db_vs d) = Some v -> (length (level_files v level) + 2 <= fuel)%nat;
  sr_entries es : NoDup es -> (forall e, e ∈ es -> in_db dat d es1 es2 e) -> (length es <= rounds)%nat
}.

Definition store_held (d : Db) (m : kvmap) : Prop := exists dat es1 es2 gs, store_state dat es1 es2 gs d m.
Definition store_holds (d : Db) (m : kvmap) : Prop :=
  exists dat es1 es2 gs, store_state dat es1 es2 gs d m /\ store_ready dat es1 es2 d.

(** *** Reads *)

Lemma in_db_read dat (d d' : Db) es1 es2 e : after_read d d' -> in_db dat d' es1 es2 e <-> in_db dat d es1 es2 e.
Proof.
  intros (vs & tables & b & v & v' & -> & _ & _ & Hv & Hv' & Hs). unfold in_db. cbn [db_vs set_background set_versions]. split.
  - intros [Ha|(v2 & Hv2 & He)]; [by left|right]. rewrite Hv' in Hv2. injection Hv2 as <-. exists v. split; [done|].
    apply (same_in_version dat v' v); [|done]. intros l. by apply same_sym.
  - intros [Ha|(v2 & Hv2 & He)]; [by left|right]. rewrite Hv in Hv2. injection Hv2 as <-. exists v'. split; [done|]. by apply (same_in_version dat v v').
Qed.

Lemma shows_ext dat (d d' : Db) es1 es2 es1' es2' m : (forall e, in_db dat d' es1' es2' e <-> in_db dat d es1 es2 e) ->
  GetLastSequence (db_vs d') = GetLastSequence (db_vs d) -> shows dat d es1 es2 m -> shows dat d' es1' es2' m.
Proof.
  intros Hin Hl Hm u v. rewrite (Hm u v). unfold newest_in_db. setoid_rewrite Hin. by rewrite Hl.
Qed.

Lemma state_read dat es1 es2 gs (d d' : Db) m : after_read d d' -> holding dat d' es1 es2 -> store_state dat es1 es2 gs d m ->
  store_state dat es1 es2 gs d' m.
Proof.
  intros Hread Hd' [Hd Hlg Hw Ht Hsh Hu Hm]. pose proof (in_db_read dat d d' es1 es2) as Hin.
  assert (GetLastSequence (db_vs d') = GetLastSequence (db_vs d)) as Hl by (by destruct Hread as (vs & tables & b & v & v' & -> & Hl & _)).
  split; try (destruct Hread as (vs & tables & b & v & v' & -> & _); done).
  - destruct Hread as (vs & tables & b & v & v' & -> & _). by destruct Hlg; split.
  - intros e He. apply Hsh. by apply Hin.
  - intros e e' He He'. apply Hu; by apply Hin.
  - by apply (shows_ext dat d d' es1 es2); [intros e; apply Hin|..].
Qed.

Lemma ready_read dat es1 es2 (d d' : Db) : after_read d d' -> store_ready dat es1 es2 d -> store_ready dat es1 es2 d'.
Proof.
  intros Hread [Hr Hn Hl He]. pose proof (fun e => in_db_read dat d d' es1 es2 e Hread) as Hin.
  destruct Hread as (vs & tables & b & v & v' & -> & Hls & _ & Hv & Hv' & Hs). split.
  - destruct Hr as [Hf|(Hb & Hm & v2 & Hv2 & Hlen)]; [by left|right]. split; [done|]. split; [done|]. exists v'. split; [done|].
    rewrite Hv in Hv2. injection Hv2 as <-. by rewrite <- (Forall2_length _ _ _ (Hs 0)).
  - cbn. by rewrite Hls.
  - intros v2 level Hv2. cbn in Hv2. rewrite Hv' in Hv2. injection Hv2 as <-. rewrite <- (Forall2_length _ _ _ (Hs level)). by apply Hl.
  - intros es Hnd Hes. apply He; [done|]. intros e Hine. by apply Hin, Hes.
Qed.

(** What a read finds is what the map has. *)
Lemma read_shows dat es1 es2 gs (d : Db) m u value st value' : store_state dat es1 es2 gs d m ->
  read_result (c := c) dat d es1 es2 u (GetLastSequence (db_vs d)) value st value' ->
  match m !! u with Some v => st = OK /\ value' = v | None => st = NotFound [] [] /\ value' = value end.
Proof.
  intros Hs Hres. pose proof (ss_shows _ _ _ _ _ _ Hs u) as Hm. destruct Hres as [(e & Hnew & Hout)|(-> & -> & Hno)].
  - pose proof Hnew as (Hin & [Hk Hle] & Hmax). apply same_key in Hk. unfold Version.outcome in Hout. destruct (type e.1) eqn:Ht.
    + assert (m !! u = None) as ->; [|done]. destruct (m !! u) as [v|] eqn:Hmu; [|done].
      destruct (proj1 (Hm v) eq_refl) as (e' & (Hin' & Hvis' & Hmax') & Hk' & Ht' & _).
      enough (e = e') as Heq by (subst e'; congruence). apply (ss_unique _ _ _ _ _ _ Hs); [done..|congruence|].
      specialize (Hmax e' Hin' Hvis'). assert (visible c u (GetLastSequence (db_vs d)) e) as Hvis by (split; [by apply compare_eq|done]). specialize (Hmax' e Hin Hvis). lia.
    + assert (m !! u = Some e.2) as ->; [|done]. apply Hm. by exists e.
  - destruct (m !! u) as [v|] eqn:Hmu; [|done]. destruct (proj1 (Hm v) eq_refl) as (e & (Hin & Hvis & _) & _). by destruct (Hno e Hin).
Qed.

(** *** Writes *)

Lemma batch_of_ok ops : len ops < 2 ^ 31 -> batch (batch_of ops) 0 ops.
Proof.
  unfold batch_of. induction ops as [|o ops IH] using rev_ind; intros Hl; [apply batch_clear|].
  rewrite length_app in Hl. cbn [length] in Hl. rewrite fold_left_app. apply batch_op; [apply IH|]; lia.
Qed.

Lemma ops_on_lookup ops u : forall m, ops_on ops m !! u =
  match last_op (c := c) u ops with Some (OpPut _ v) => Some v | Some (OpDelete _) => None | None => m !! u end.
Proof.
  induction ops as [|o ops IH]; intros m; [done|]. cbn [ops_on fold_left last_op]. change (fold_left _ ?l ?x) with (ops_on l x). rewrite IH.
  destruct (last_op u ops) as [o'|]; [done|]. case_bool_decide as Hc.
  - apply same_key in Hc. destruct o as [k v|k]; cbn in Hc; subst k; cbn; [by rewrite lookup_insert_eq|by rewrite lookup_delete_eq].
  - assert (op_key o <> u) as Hne by (intros <-; apply Hc; by apply compare_eq).
    destruct o as [k v|k]; cbn in Hne |- *; [by rewrite lookup_insert_ne|by rewrite lookup_delete_ne].
Qed.

Lemma in_db_write dat (d d' : Db) es1 es2 new e : current (db_vs d') = current (db_vs d) ->
  in_db dat d' (es1 ++ new) es2 e <-> in_db dat d es1 es2 e \/ exists a, a ∈ new /\ e = mem_ientry a.
Proof.
  intros Hv. unfold in_db. rewrite Hv, app_assoc. setoid_rewrite elem_of_app at 1. split.
  - intros [(a & [Ha|Ha] & ->)|Hf]; [left; left; by exists a|right; by exists a|left; by right].
  - intros [[(a & Ha & ->)|Hf]|(a & Ha & ->)]; [left; exists a; split; [by left|done]|by right|left; exists a; split; [by right|done]].
Qed.

Lemma in_db_seen dat (d : Db) es1 es2 e : holding dat d es1 es2 -> in_db dat d es1 es2 e -> sequence e.1 <= GetLastSequence (db_vs d).
Proof.
  intros Hd [(a & Ha & ->)|(v & Hv & He)]; [by apply (dh_seen _ _ _ _ Hd)|].
  destruct (dh_version _ _ _ _ Hd) as (v2 & Hv2 & _ & Hnew). rewrite Hv in Hv2. injection Hv2 as <-. by apply Hnew.
Qed.

Lemma entries_elem s ops a : a ∈ entries s ops -> exists o q, o ∈ ops /\ a = op_entry q o.
Proof.
  revert s. induction ops as [|o ops IH]; intros s; cbn [entries]; [by intros ?%not_elem_of_nil|].
  intros [->|Ha]%elem_of_cons; [exists o, s; split; [by left|done]|]. destruct (IH _ Ha) as (o' & q & Ho & ->). exists o', q. split; [by right|done].
Qed.

Lemma entries_unique s ops a a' : a ∈ entries s ops -> a' ∈ entries s ops -> sequence (mkey a) = sequence (mkey a') -> a = a'.
Proof.
  revert s. induction ops as [|o ops IH]; intros s; cbn [entries]; [by intros ?%not_elem_of_nil|].
  intros [->|Ha]%elem_of_cons [->|Ha']%elem_of_cons Hq; [done|..|by eapply IH]; exfalso;
    [apply entries_sequence in Ha'|apply entries_sequence in Ha]; rewrite sequence_op_entry in Hq; lia.
Qed.

Section Written.
Context (dat : Z -> list ientry) (d d' : Db) (es1 es2 : list MemEntry) (m : kvmap) (ops : list Op).
Abbreviation seq := (GetLastSequence (db_vs d) + 1).
Hypothesis Hd : holding dat d es1 es2.
Hypothesis Hcur : current (db_vs d') = current (db_vs d).
Hypothesis Hlast : GetLastSequence (db_vs d') = GetLastSequence (db_vs d) + len ops.

Abbreviation after := (in_db dat d' (es1 ++ entries seq ops) es2).

(** The last operation on a key is its newest entry. *)
Lemma newest_written u o : last_op (c := c) u ops = Some o ->
  exists q, newest_entry dat d' (es1 ++ entries seq ops) es2 u (mem_ientry (op_entry q o)) /\ op_key o = u /\
    forall e, newest_entry dat d' (es1 ++ entries seq ops) es2 u e -> e = mem_ientry (op_entry q o).
Proof.
  intros Ho. destruct (last_op_Some u seq ops o Ho) as (q & Hq & Hc & Hmax). pose proof (entries_sequence _ _ _ Hq) as Hqs.
  rewrite sequence_op_entry in Hqs. exists q.
  assert (after (mem_ientry (op_entry q o))) as Hin by (apply (in_db_write dat d d' es1 es2 _ _ Hcur); right; by eexists).
  assert (visible c u (GetLastSequence (db_vs d')) (mem_ientry (op_entry q o))) as Hvis.
  { split; cbn; [by rewrite userkey_op_entry|]. rewrite sequence_op_entry. lia. }
  assert (forall e, after e -> visible c u (GetLastSequence (db_vs d')) e -> e = mem_ientry (op_entry q o) \/ sequence e.1 < q) as Hbest.
  { intros e [He|(a & Ha & ->)]%(in_db_write dat d d' es1 es2 _ e Hcur) [Hce _].
    - right. pose proof (in_db_seen _ _ _ _ _ Hd He). lia.
    - destruct (Hmax a Ha Hce) as [->|Hlt]; [by left|by right]. }
  split; [|split; [by apply same_key|]].
  - split; [done|]. split; [done|]. intros e He Hv. cbn. rewrite sequence_op_entry. destruct (Hbest e He Hv) as [->|Hlt]; [cbn; by rewrite sequence_op_entry|lia].
  - intros e (He & Hv & Hm). destruct (Hbest e He Hv) as [->|Hlt]; [done|]. specialize (Hm _ Hin Hvis). cbn in Hm. rewrite sequence_op_entry in Hm. lia.
Qed.

(** The other keys keep theirs. *)
Lemma newest_unwritten u e : last_op (c := c) u ops = None ->
  newest_entry dat d' (es1 ++ entries seq ops) es2 u e <-> newest_entry dat d es1 es2 u e.
Proof.
  intros Ho. assert (forall e, after e /\ visible c u (GetLastSequence (db_vs d')) e <-> in_db dat d es1 es2 e /\ visible c u (GetLastSequence (db_vs d)) e) as Hsame.
  { intros e'. split.
    - intros [[He|(a & Ha & ->)]%(in_db_write dat d d' es1 es2 _ _ Hcur) [Hc Hle]]; [|by destruct (last_op_None u seq ops a Ho Ha)].
      pose proof (in_db_seen _ _ _ _ _ Hd He). done.
    - intros [He [Hc Hle]]. split; [apply (in_db_write dat d d' es1 es2 _ _ Hcur); by left|]. split; [done|]. lia. }
  unfold newest_in_db. split; intros (He & Hv & Hmax); apply and_assoc; (split; [by apply Hsame|]); intros e' He' Hv'; apply Hmax; apply Hsame; by split.
Qed.

Lemma shows_write : shows dat d es1 es2 m -> shows dat d' (es1 ++ entries seq ops) es2 (ops_on ops m).
Proof.
  intros Hm u v. rewrite ops_on_lookup. destruct (last_op (c := c) u ops) as [o|] eqn:Ho.
  - destruct (newest_written u o Ho) as (q & Hnew & Hk & Huniq). split.
    + intros Hv. exists (mem_ientry (op_entry q o)). split; [done|]. destruct o as [k x|k]; [|done]. injection Hv as ->. done.
    + intros (e & He & _ & Ht & Hx). rewrite (Huniq e He) in Ht, Hx. destruct o as [k x|k]; [|done]. by rewrite <- Hx.
  - rewrite (Hm u v). split; intros (e & He & Hrest); exists e; (split; [by apply newest_unwritten|done]).
Qed.
End Written.

Abbreviation write updates d := (DB_Write (G := G) rnd taddr dataaddr dbname writebuffersize updates false d).

(** The queue has only the writer, which finds room, or is told why not. *)
Lemma room_alone (d : Db) w : has_room d ->
  make_room (G := G) dbname writebuffersize 2 false true (Write_enqueue w d) = Some (db_bgerror d, Write_enqueue w d).
Proof.
  intros Hr. change (make_room (G := G) dbname writebuffersize 2 false true (Write_enqueue w d)) with
    (let? r := MakeRoomForWrite_turn (G := G) dbname writebuffersize false true (Write_enqueue w d) in
     match r with RoomDone s d => Some (s, d) | RoomSwitched d => make_room (G := G) dbname writebuffersize 1 false true d | _ => None end).
  unfold MakeRoomForWrite_turn. cbn [db_bgerror db_vs db_mem Write_enqueue set_queue].
  destruct Hr as [[Hf _]|(Hb & Hm & v & Hv & Hl)]; [by rewrite Hf|]. rewrite Hb. change (ok OK) with true. cbn [negb].
  unfold NumLevelFiles. rewrite Hv. cbn [Z.leb Z.ltb Z.compare andb mbind option_bind kNumLevels].
  rewrite (proj2 (Z.leb_gt _ _)) by done. by rewrite (proj2 (Z.leb_le _ _)).
Qed.

(** A turn that makes a new memtable. *)
Lemma switch_turn force (d d' : Db) : MakeRoomForWrite_turn (G := G) dbname writebuffersize force true d = Some (RoomSwitched d') ->
  ok (db_bgerror d) = true /\ db_bgerror d' = db_bgerror d /\ GetMemoryUsage (db_mem d') = 0 /\
  exists level0, NumLevelFiles (db_vs d') 0 = Some level0 /\ level0 < kL0_SlowdownWritesTrigger.
Proof.
  unfold MakeRoomForWrite_turn. intros Ht. destruct (ok (db_bgerror d)) eqn:Hb; [|done]. cbn [negb] in Ht.
  destruct (NumLevelFiles (db_vs d) 0) as [level0|] eqn:Hl; [|done]. cbn [mbind option_bind andb] in Ht.
  destruct (Z.leb_spec kL0_SlowdownWritesTrigger level0); [done|]. destruct (negb force && _); [done|].
  case_bool_decide; [done|]. destruct (_ <=? level0); [done|].
  match type of Ht with (if ?b then _ else _) = _ => destruct b; [done|] end. destruct (negb _); [done|].
  unfold NewFileNumber in Ht. destruct (LogFileName _ _) as [name|]; [|done]. cbn [mbind option_bind] in Ht.
  destruct (NewWritableFile (db_env d) name) as [[s [lfile|]] env]; destruct (ok s); try done. cbn [negb mbind option_bind] in Ht.
  assert (exists v, current (db_vs d) = Some v) as [v Hv].
  { unfold NumLevelFiles in Hl. destruct (current (db_vs d)) as [v|]; [by exists v|by destruct (_ && _)]. }
  match type of Ht with context [MaybeScheduleCompaction ?x] => destruct (MaybeScheduleCompaction_ok x) as [b Hd1]; [by exists v|]; rewrite Hd1 in Ht end.
  cbn [mbind option_bind] in Ht. injection Ht as <-. split_and!; [done..|]. by exists level0.
Qed.

(** A new memtable has room: two turns are enough. *)
Lemma room_after_switch force (d d' : Db) : 0 <= writebuffersize ->
  MakeRoomForWrite_turn (G := G) dbname writebuffersize force true d = Some (RoomSwitched d') ->
  make_room (G := G) dbname writebuffersize 2 force true d = Some (OK, d').
Proof.
  intros Hw Ht. destruct (switch_turn force d d' Ht) as (Hok & Hb & Hm & level0 & Hl & Hlt). cbn [make_room]. rewrite Ht. cbn [mbind option_bind].
  unfold MakeRoomForWrite_turn. rewrite Hb, Hok, Hl, Hm. cbn [negb mbind option_bind]. rewrite (proj2 (Z.leb_gt _ _)) by done.
  by rewrite (proj2 (Z.leb_le _ _)).
Qed.

Lemma state_queue dat es1 es2 gs (d : Db) m dn : store_state dat es1 es2 gs d m ->
  store_state dat es1 es2 gs (set_queue [] (db_tmpbatch d) dn d) m.
Proof. intros [Hd Hlg Hw Ht Hsh Hu Hm]. split; try done; [by destruct Hd|by destruct Hlg]. Qed.

(** A write that is told why there is no room. *)
Lemma write_refused (d : Db) updates : failed (db_bgerror d) -> db_writers d = [] ->
  write (Some updates) d = Some (db_bgerror d, set_queue [] (db_tmpbatch d) (db_done d ++ [(0%nat, db_bgerror d)]) d).
Proof.
  intros Hf Hw. unfold DB_Write. rewrite room_alone by by left. cbn [mbind option_bind]. unfold Write_commit, Write_enqueue.
  cbn [db_writers set_queue]. rewrite Hw. destruct Hf as [Hf _]. rewrite Hf. cbn [app andb mbind option_bind db_writers set_queue take drop map w_id db_done db_tmpbatch].
  by rewrite last_snoc.
Qed.

(** A write that is done. *)
Lemma write_done dat es1 es2 gs (d : Db) m ops : store_state dat es1 es2 gs d m -> has_room d -> db_bgerror d = OK ->
  GetLastSequence (db_vs d) + len ops <= kMaxSequenceNumber -> batch_fits ops -> Forall (fun o => short_key (op_key o)) ops ->
  exists d', write (Some (batch_of ops)) d = Some (OK, d') /\ store_held d' (ops_on ops m).
Proof.
  intros [Hd Hlg Hw Ht Hsh Hu Hm] Hr Hb Hmax [Hfit Hlen] Hkeys. unfold DB_Write. rewrite room_alone by done. cbn [mbind option_bind]. rewrite Hb.
  set (w := MkWriter 0 (Some (batch_of ops)) false). set (d0 := Write_enqueue w d).
  assert (holding dat d0 es1 es2) as Hd0 by by destruct Hd. assert (logged d0 es1 gs) as Hlg0 by by destruct Hlg.
  assert (db_writers d0 = [w]) as Hw0 by (unfold d0; cbn; by rewrite Hw).
  destruct (Write_commit_ok rnd taddr dataaddr dat d0 es1 es2 gs w [] [ops] Hd0 Hlg0 Hw0) as [(_ & Hne & _)|(d' & n & -> & Hn & Hpop & Hd' & Hlg' & Hl')].
  - constructor; [|constructor]. exists 0. by apply batch_of_ok.
  - by eexists.
  - by apply Forall_singleton.
  - cbn [concat]. by rewrite app_nil_r.
  - cbn [concat]. by rewrite app_nil_r.
  - done.
  - done.
  - cbn [length] in Hn. assert (n = 0%nat) as -> by lia. cbn [take concat] in Hd', Hlg', Hl'. rewrite app_nil_r in Hd', Hlg', Hl'.
    destruct Hpop as (Hw' & Hdn & Htmp & _ & Hcur). rewrite Hw0 in Hw', Hdn. cbn [drop take map] in Hw', Hdn.
    cbn [mbind option_bind]. rewrite Hdn, last_snoc. cbn [mbind option_bind snd]. exists d'. split; [done|].
    exists dat, (es1 ++ entries (GetLastSequence (db_vs d) + 1) ops), es2, (gs ++ [(GetLastSequence (db_vs d) + 1, ops)]).
    pose proof (fun e => in_db_write dat d d' es1 es2 (entries (GetLastSequence (db_vs d) + 1) ops) e Hcur) as Hin.
    split; [exact Hd'|exact Hlg'|done|by rewrite Htmp| | |by apply shows_write].
    + intros e [He|(a & Ha & ->)]%Hin; [by apply Hsh|]. rewrite Forall_forall in Hkeys. cbn [mem_ientry fst].
      destruct (entries_elem _ _ _ Ha) as (o & q & Ho & ->). rewrite userkey_op_entry. by apply Hkeys.
    + intros e e' [He|(a & Ha & ->)]%Hin [He'|(a' & Ha' & ->)]%Hin Hk Hq.
      * by apply Hu.
      * apply (in_db_seen _ _ _ _ _ Hd) in He. apply entries_sequence in Ha'. cbn in Hq. lia.
      * apply (in_db_seen _ _ _ _ _ Hd) in He'. apply entries_sequence in Ha. cbn in Hq. lia.
      * by rewrite (entries_unique _ _ _ _ Ha Ha' Hq).
Qed.

(** *** Everything an iterator shows *)

Lemma entries_shown dat es1 es2 gs (d : Db) m target : store_state dat es1 es2 gs d m -> store_ready dat es1 es2 d ->
  (forall t, target = Some t -> short_key t) ->
  exists all, in_order_of c m all /\ DB_entries (I := I) fuel rounds d target = Some (rows_from c target all, OK).
Proof.
  intros Hs [_ _ Hl He] Ht. destruct (database_rows (I := I) fuel dat d es1 es2 None (ss_holds _ _ _ _ _ _ Hs) Hl (ss_short _ _ _ _ _ _ Hs)
    (dh_last _ _ _ _ (ss_holds _ _ _ _ _ _ Hs))) as (es & rows & it & Hnew & Hnd & Hin & Hle & Hso & Hrows & Hwalk).
  assert (length es <= rounds)%nat as Hr by (apply He; [done|]; intros e Hine; by apply Hin).
  destruct (walk_rows_ok _ _ _ _ it rounds target (Hwalk rounds Hr)) as (it' & Hf & Hw); [lia|done|].
  exists rows. split; [split; [|exact Hso]|].
  - intros k v. rewrite Hrows. symmetry. apply (ss_shows _ _ _ _ _ _ Hs).
  - unfold merged_iter_here, child_iter_here in Hf, Hw. unfold DB_entries. rewrite Hnew. cbn [mbind option_bind]. rewrite Hf. exact Hw.
Qed.

(** C14: The database, on a healthy disk, is the store that the Redis types ask for.  While it holds a map - in its memtables
    and its files, every key with its newest entry - a read finds what the map has, a batch is written whole or refused whole,
    the iterator, set to the first entry or sought to a key, shows the map from there in the order of the keys and its status
    is then [OK], and the database then holds the map with the operations of the batch done in order.  Before a write there must
    be room in the memtable, few files of level 0 and sequence numbers left, or writes fail already and the status says so;
    afterwards there need not be.  The disk does not fail and the files hold what was written to them.  The iterators over the
    files keep their contract, which those of the table cache do while the block cache holds no blocks and the files that are
    read put none in: uncompressed files that are mapped into memory, or [fillcache] off. *)
Theorem database_is_store :
  KVStoreSteady (H := db_store (G := G) (I := I) rnd taddr dataaddr dbname writebuffersize fuel rounds)
    Db BytewiseComparatorImpl short_key store_holds store_held.
Proof.
  split; [split|].
  - intros d m (dat & es1 & es2 & gs & Hs & _). by exists dat, es1, es2, gs.
  - intros d m k v (dat & es1 & es2 & gs & Hs & _) Hk. apply (ss_shows _ _ _ _ _ _ Hs) in Hk as (e & [He _] & <- & _). by apply (ss_short _ _ _ _ _ _ Hs).
  - intros d m k value (dat & es1 & es2 & gs & Hs & Hr) Hk.
    destruct (Get_ok dat d es1 es2 None k value (ss_holds _ _ _ _ _ _ Hs) Hk Logic.I) as (st & value' & d' & Hget & Hres & Hd' & Hread).
    exists st, value', d'. split; [exact Hget|]. split; [|right; by apply (read_shows dat es1 es2 gs d)].
    exists dat, es1, es2, gs. split; [by apply (state_read dat es1 es2 gs d)|by apply (ready_read dat es1 es2 d)].
  - intros d m ops (dat & es1 & es2 & gs & Hs & [Hr Hn _ _]) Hf Hk. pose proof (ss_writers _ _ _ _ _ _ Hs) as Hw.
    destruct Hr as [Hbad|Hroom].
    + eexists _, _. split; [by apply write_refused|]. right. split; [done|]. exists dat, es1, es2, gs. by apply state_queue.
    + destruct (write_done dat es1 es2 gs d m ops Hs (or_intror Hroom) (proj1 Hroom)) as (d' & Hwr & Hh); [destruct Hf; lia|done|done|].
      exists OK, d'. split; [exact Hwr|by left].
  - intros d m target (dat & es1 & es2 & gs & Hs & Hr) Ht. destruct (entries_shown dat es1 es2 gs d m target Hs Hr Ht) as (all & Hall & He).
    exists all, (rows_from c target all), OK. by split.
  - intros d m target es st (dat & es1 & es2 & gs & Hs & Hr) Ht He.
    destruct (entries_shown dat es1 es2 gs d m target Hs Hr Ht) as (all & _ & He'). cbn [kentries db_store] in He. rewrite He' in He. by injection He as _ <-.
Qed.
End Holds.

(** ** A concrete database: two files with versions of one key *)

#[local] Existing Instances flush_append flush_append_ok flush_read flush_env flush_env_ok flush_random flush_random_ok flush_tables flush_tables_ok
  flush_block_cache flush_blocks_ok work_source work_iterators work_iter memory_kept.

#[local] Instance work_store : KVStore (DB (E := MemDir) (F := WritableFile) (T := DemoCache)) :=
  db_store (G := SequentialFile) (I := FileIterator (G := MmapFile)) demo_rnd 1 2 (str "/db") 4096 3 8.

Definition work_map : kvmap := {[ str "ant" := str "new" ]}.

Abbreviation work_in := (in_db work_dat work_db [] []).

Lemma work_in_db e : work_in e <-> e = work_new \/ e = work_old.
Proof.
  rewrite <- work_in_version. split.
  - intros [(a & Ha & _)|(v & Hv & He)]; [by apply not_elem_of_nil in Ha|]. by injection Hv as <-.
  - intros He. right. by exists work_version.
Qed.

Lemma work_newest e u : newest_in_db (c := BytewiseComparatorImpl) work_dat work_db [] [] u 9 e <-> u = str "ant" /\ e = work_new.
Proof.
  split.
  - intros (He & [Hk _] & Hmax). apply same_key in Hk. assert (work_in work_new) as Hnew by (apply work_in_db; by left).
    apply work_in_db in He as [->| ->]; [by subst u|]. subst u. exfalso.
    assert (visible BytewiseComparatorImpl (str "ant") 9 work_new) as Hv by by vm_compute. specialize (Hmax _ Hnew Hv). by vm_compute in Hmax.
  - intros [-> ->]. split; [apply work_in_db; by left|]. split; [by vm_compute|]. intros e' [->| ->]%work_in_db _; by vm_compute.
Qed.

Lemma work_held : store_state (good := work_good) (serves := work_serves) work_dat [] [] [] work_db work_map.
Proof.
  split.
  - exact work_db_holds.
  - split; [|done|constructor]. apply log_holds_make; [constructor|done].
  - done.
  - by left.
  - intros e [->| ->]%work_in_db; by vm_compute.
  - intros e e' [->| ->]%work_in_db [->| ->]%work_in_db _; done.
  - intros u v. unfold work_map. rewrite lookup_singleton_Some. setoid_rewrite work_newest. split.
    + intros [<- <-]. by exists work_new.
    + by intros (e & [-> ->] & _ & _ & <-).
Qed.

Lemma work_ready : store_ready 4096 3 8 work_dat [] [] work_db.
Proof.
  split.
  - right. split; [done|]. split; [by vm_compute|]. exists work_version. split; [done|by vm_compute].
  - by vm_compute.
  - intros v level Hv. injection Hv as <-. apply work_levels.
  - intros es Hn Hes. transitivity (length [work_new; work_old]); [|cbn; lia]. apply submseteq_length, NoDup_submseteq; [done|].
    intros e [->| ->]%Hes%work_in_db; [left|right; left].
Qed.

(** A batch on top of the files: the key of the files is deleted, another is set. *)
Lemma database_is_store_witness : exists d', kwrite work_db [OpPut (str "bee") (str "1"); OpDelete (str "ant")] = Some (OK, d') /\
  store_held (good := work_good) (serves := work_serves) d' {[ str "bee" := str "1" ]}.
Proof.
  pose proof (database_is_store (good := work_good) (HF := work_iterators_ok) demo_rnd 1 2 (str "/db") 4096 3 8) as Hstore.
  destruct (kwrite_ok (KVStoreOk := steady_store (KVStoreSteady := Hstore)) work_db work_map [OpPut (str "bee") (str "1"); OpDelete (str "ant")])
    as (st & d' & Hw & Ho).
  - exists work_dat, [], [], []. split; [exact work_held|exact work_ready].
  - split; [|done]. by repeat constructor.
  - by repeat constructor.
  - exists d'. assert (fst <$> kwrite work_db [OpPut (str "bee") (str "1"); OpDelete (str "ant")] = Some OK) as Hok by (vm_compute; reflexivity).
    change (kwrite (KVStore := work_store) work_db [OpPut (str "bee") (str "1"); OpDelete (str "ant")] = Some (st, d')) in Hw.
    rewrite Hw in Hok. injection Hok as ->. split; [exact Hw|]. destruct Ho as [[_ Ho]|[[Hf _] _]]; [|discriminate Hf]. exact Ho.
Defined.

(** The commands of a hash, on this database. *)
Example hash_on_database :
  let key := str "user:1" in
  let run := (let? (r1, d) := run_hash 1700000000 work_db (CMSet key [(str "b", str "2"); (str "a", str "1")]) in
    let? (r2, d) := run_hash 1700000000 d (CRemove key [str "b"; str "c"]) in
    let? (r3, d) := run_hash 1700000000 d (CSet key (str "d") (str "4")) in
    let? (r4, d) := run_hash 1700000000 d (CGetall key) in Some [r1; r2; r3; r4]) in
  run = Some [RStatus OK; RInt OK 1; RInt OK 1; RFields OK [(str "a", str "1"); (str "d", str "4")]].
Proof. vm_compute. reflexivity. Qed.
