(* ===== verification/CompactionInstall.v ===== *)
(** Installing the outputs of a compaction (the edit of [DB::InstallCompactionResults] in
    redisdb/db/db.cc, through [VersionSet::LogAndApply]): the version that is saved has the
    outputs in the place of the inputs. *)
From Stdlib Require Import Sorted.
From stdpp Require Import sorting sets.
From S2P Require Import Prelude Coding Status Env DbFormat LogFormat Block MemTable VersionEdit FileIO FileName Iterators Table Version VersionBuilder VersionSet Database Compaction CompactionWork.
Local Open Scope Z_scope.

(** The deletions of the inputs and the additions of the outputs. *)
Definition replace_edit (comp : Compaction) (outs : list file) : VersionEdit :=
  fold_left (fun edit f => AddFile edit (clevel comp + 1) (number f) (filesize f) (smallest f) (largest f))
    outs (addInputDeletions comp (cedit comp)).

(** An edit that sets compaction pointers only, as [SetupOtherInputs] leaves it. *)
Record pointers_only (e : VersionEdit) : Prop := {
  po_new : newfiles e = [];
  po_deleted : deletedfiles e = [];
  po_log : haslognumber e = false;
  po_prevlog : hasprevlognumber e = false;
  po_ok : edit_ok e;
  po_keys : Forall (fun p => p.2 <> []) (compactpointers e)
}.

(** ** The edit *)

(** Everything but the files of an edit. *)
Definition same_header (e e' : VersionEdit) : Prop :=
  (comparator e', lognumber e', prevlognumber e', nextfilenumber e', lastsequence e', hascomparator e', haslognumber e',
    hasprevlognumber e', hasnextfilenumber e', haslastsequence e', compactpointers e') =
  (comparator e, lognumber e, prevlognumber e, nextfilenumber e, lastsequence e, hascomparator e, haslognumber e,
    hasprevlognumber e, hasnextfilenumber e, haslastsequence e, compactpointers e).

Lemma delete_fold level fs : forall e, let e' := fold_left (fun edit f => DeleteFile edit level (number f)) fs e in
  same_header e e' /\ newfiles e' = newfiles e /\
  (forall p, p ∈ deletedfiles e' <-> p ∈ deletedfiles e \/ exists f, f ∈ fs /\ p = (level, number f)) /\
  (StronglySorted (fun a b => pair_lt a b = true) (deletedfiles e) -> StronglySorted (fun a b => pair_lt a b = true) (deletedfiles e')).
Proof.
  induction fs as [|f fs IH]; intros e; cbn [fold_left].
  - split; [done|]. split; [done|]. split; [|done]. intros p. split; [by left|]. intros [?|(f & Hf & _)]; [done|by apply not_elem_of_nil in Hf].
  - destruct (IH (DeleteFile e level (number f))) as (K1 & K2 & K3 & K4). split; [exact K1|]. split; [exact K2|]. split.
    + intros p. rewrite K3. cbn [DeleteFile deletedfiles]. split.
      * intros [[->|Hp]%set_insert_elem|(g & Hg & ->)]; [right; exists f; split; [left|done]|by left|right; exists g; split; [by right|done]].
      * intros [Hp|(g & [->|Hg]%elem_of_cons & ->)]; [left; by apply set_insert_old| |right; by exists g].
        left. clear. generalize (deletedfiles e) as l. induction l as [|x l IH]; cbn; [by apply list_elem_of_singleton|].
        destruct (pair_lt (level, number f) x) eqn:E1; [left|]. destruct (pair_lt x (level, number f)) eqn:E2; [by right|].
        assert (x = (level, number f)) as -> by (destruct x; unfold pair_lt in *; cbn in *; f_equal; lia). left.
    + intros Hs. apply K4. cbn [DeleteFile deletedfiles]. by apply set_insert_sorted.
Qed.

Lemma add_fold level outs : Forall (fun f => FileMetaData_make (number f) (filesize f) (smallest f) (largest f) = f) outs ->
  forall e, let e' := fold_left (fun edit f => AddFile edit level (number f) (filesize f) (smallest f) (largest f)) outs e in
  same_header e e' /\ deletedfiles e' = deletedfiles e /\ newfiles e' = newfiles e ++ map (pair level) outs.
Proof.
  intros Ho. induction Ho as [|f outs Hf Ho IH]; intros e; cbn [fold_left map]; [by rewrite app_nil_r|].
  destruct (IH (AddFile e level (number f) (filesize f) (smallest f) (largest f))) as (K1 & K2 & K3). split; [exact K1|]. split; [exact K2|].
  rewrite K3. unfold AddFile. cbn [add_newfile newfiles]. by rewrite Hf, <- app_assoc.
Qed.

(** What the edit of a compaction says. *)
Lemma replace_edit_says comp outs : pointers_only (cedit comp) ->
  Forall (fun f => FileMetaData_make (number f) (filesize f) (smallest f) (largest f) = f) outs ->
  let e := replace_edit comp outs in
  same_header (cedit comp) e /\ newfiles e = map (pair (clevel comp + 1)) outs /\
  (forall L n, (L, n) ∈ deletedfiles e <-> (L = clevel comp /\ n ∈ map number (inputs0 comp)) \/ (L = clevel comp + 1 /\ n ∈ map number (inputs1 comp))) /\
  StronglySorted (fun a b => pair_lt a b = true) (deletedfiles e).
Proof.
  intros Hp Ho e. unfold e, replace_edit.
  destruct (add_fold (clevel comp + 1) outs Ho (addInputDeletions comp (cedit comp))) as (K1 & K2 & K3).
  unfold addInputDeletions in *.
  destruct (delete_fold (clevel comp) (inputs0 comp) (cedit comp)) as (D1 & D2 & D3 & D4).
  set (e0 := fold_left _ (inputs0 comp) (cedit comp)) in *.
  destruct (delete_fold (clevel comp + 1) (inputs1 comp) e0) as (D5 & D6 & D7 & D8).
  set (e1 := fold_left _ (inputs1 comp) e0) in *. split; [exact (eq_trans K1 (eq_trans D5 D1))|]. split; [by rewrite K3, D6, D2, (po_new _ Hp)|]. split.
  - intros L n. rewrite K2, D7, D3, (po_deleted _ Hp). split.
    + intros [[Hn|(f & Hf & [= -> ->])]|(f & Hf & [= -> ->])]; [by apply not_elem_of_nil in Hn|left|right]; (split; [done|]); by apply list_elem_of_fmap_2.
    + intros [[-> (f & -> & Hf)%list_elem_of_fmap]|[-> (f & -> & Hf)%list_elem_of_fmap]]; [left; right|right]; by exists f.
  - rewrite K2. apply D8, D4. rewrite (po_deleted _ Hp). constructor.
Qed.

(** ** Versions with the same files *)

Section Same.
Context {ucmp : Comparator} {Hok : ComparatorOk ucmp (fun _ => True)}.

Abbreviation lt := (BySmallestKey ucmp).
Abbreviation set_ordered := (StronglySorted (fun a b => lt a b = true)).

Lemma same_lt f f' g g' : same_file f f' -> same_file g g' -> lt f g = lt f' g'.
Proof. intros (Hn & _ & Hs & _) (Hn' & _ & Hs' & _). unfold BySmallestKey. by rewrite Hn, Hs, Hn', Hs'. Qed.

Lemma same_file_refl f : same_file f f.
Proof. by split_and!. Qed.

Lemma same_file_sym f g : same_file f g -> same_file g f.
Proof. intros (? & ? & ? & ?). by split_and!. Qed.

Lemma same_file_trans f g h : same_file f g -> same_file g h -> same_file f h.
Proof. intros (? & ? & ? & ?) (? & ? & ? & ?). split_and!; congruence. Qed.

(** Two lists in strict order with the same files, but for their allowed seeks. *)
Lemma sorted_same l1 : forall l2, set_ordered l1 -> set_ordered l2 -> (forall f, f ∈ l1 -> exists g, g ∈ l2 /\ same_file f g) ->
  (forall g, g ∈ l2 -> exists f, f ∈ l1 /\ same_file f g) -> Forall2 same_file l1 l2.
Proof.
  induction l1 as [|a l1 IH]; intros [|b l2] H1 H2 K1 K2; [done| | |].
  - destruct (K2 b ltac:(left)) as (f & Hf & _). by apply not_elem_of_nil in Hf.
  - destruct (K1 a ltac:(left)) as (g & Hg & _). by apply not_elem_of_nil in Hg.
  - apply StronglySorted_cons in H1 as [Ha H1], H2 as [Hb H2]. rewrite Forall_forall in Ha, Hb.
    assert (same_file a b) as Hab.
    { destruct (K1 a ltac:(left)) as (g & [->|Hg]%elem_of_cons & Hag); [done|].
      destruct (K2 b ltac:(left)) as (f & [->|Hf]%elem_of_cons & Hfb); [done|].
      pose proof (Ha f Hf) as Hlt. rewrite (same_lt a a f b (same_file_refl a) Hfb) in Hlt.
      pose proof (Hb g Hg) as Hlt'. rewrite (same_lt b b g a (same_file_refl b) (same_file_sym _ _ Hag)) in Hlt'.
      pose proof (lt_trans _ _ _ Hlt Hlt') as Hx. by rewrite lt_irrefl in Hx. }
    constructor; [done|]. apply IH; [done|done| |].
    + intros f Hf. destruct (K1 f ltac:(by right)) as (g & [->|Hg]%elem_of_cons & Hfg); [|by exists g].
      pose proof (Ha f Hf) as Hlt. rewrite (same_lt a b f b Hab Hfg) in Hlt. by rewrite lt_irrefl in Hlt.
    + intros g Hg. destruct (K2 g ltac:(by right)) as (f & [->|Hf]%elem_of_cons & Hfg); [|by exists f].
      pose proof (Hb g Hg) as Hlt. rewrite (same_lt b a g a (same_file_sym _ _ Hab) (same_file_sym _ _ Hfg)) in Hlt. by rewrite lt_irrefl in Hlt.
Qed.

Lemma same_ordered l1 l2 : Forall2 same_file l1 l2 -> set_ordered l1 -> set_ordered l2.
Proof.
  induction 1 as [|f g l1 l2 Hfg Hs IH]; intros Ho; [constructor|]. apply StronglySorted_cons in Ho as [Ha Ho]. constructor; [by apply IH|].
  rewrite Forall_forall in Ha |- *. intros h Hh. destruct (same_elem _ _ h Hs Hh) as (k & Hk & Hkh).
  rewrite <- (same_lt f g k h Hfg Hkh). by apply Ha.
Qed.

(** Files apart in order are in strict order. *)
Lemma disjoint_ordered fs : Forall (file_ok (ucmp := ucmp)) fs -> disjoint (ucmp := ucmp) fs -> set_ordered fs.
Proof.
  unfold disjoint. intros Hf Hd. induction Hd as [|f fs Hd IH Ha]; [constructor|]. apply Forall_cons in Hf as [Hff Hf]. constructor; [by apply IH|].
  rewrite Forall_forall in Ha, Hf |- *. intros g Hg. apply lt_spec. left. destruct Hff as [Hs Hl Ho].
  apply (icmp_le_lt_trans _ (largest f)); [done|by apply Ha|by apply ikey_ok_dom..|]. by apply ikey_ok_dom, Hf.
Qed.

Lemma get_result_same dat v v' u s value st value' : same_version v v' ->
  get_result (ucmp := ucmp) v (fun f => dat (number f)) u s value st value' ->
  get_result (ucmp := ucmp) v' (fun f => dat (number f)) u s value st value'.
Proof.
  intros Hs. assert (same_version v' v) as Hs' by (intros l; by apply same_sym).
  intros [(e & (He & Hv & Hm) & Ho)|(-> & -> & Hn)]; [left; exists e; split; [|done]|right].
  - split; [by apply (same_in_version dat v)|]. split; [done|]. intros e' He'. apply Hm. by apply (same_in_version dat v').
  - split; [done|]. split; [done|]. intros e He. apply Hn. by apply (same_in_version dat v').
Qed.
End Same.

Lemma no_level (w : Version) L : length (vfiles w) = Z.to_nat kNumLevels -> kNumLevels <= L -> level_files w L = [].
Proof. intros Hw HL. unfold level_files. rewrite list_lookup_total_alt, lookup_ge_None_2 by (rewrite Hw; lia). done. Qed.

(** ** The version with the outputs in place *)

Section Install.
Context {ucmp : Comparator} {Hok : ComparatorOk ucmp (fun _ => True)}.
Context (v : Version) (comp : Compaction) (outs : list file).

Abbreviation lt := (BySmallestKey ucmp).
Abbreviation set_ordered := (StronglySorted (fun a b => lt a b = true)).
Abbreviation L0 := (clevel comp).

(** [v] with the files of the two levels replaced. *)
Definition with_outputs (next : list file) : Version :=
  set_files v (map (fun L => if L =? L0 then filter (fun f => f ∉ inputs0 comp) (level_files v L0)
    else if L =? L0 + 1 then next else level_files v L) all_levels).

Hypothesis Hc : compaction_ok (ucmp := ucmp) v comp.
Hypothesis Hlen : forall L, kNumLevels <= L -> level_files v L = [].
Hypothesis Hroom : len (level_files v (L0 + 1)) + len outs < 2 ^ 31.

Lemma with_outputs_replaces : exists v2, replaced (ucmp := ucmp) v v2 comp outs /\ length (vfiles v2) = Z.to_nat kNumLevels.
Proof.
  destruct (co_next v comp Hc) as (pre & post & Hl & Hpre & Hpost). destruct (co_level v comp Hc) as [Hlo Hhi].
  exists (with_outputs (pre ++ outs ++ post)).
  assert (forall L, is_level L -> level_files (with_outputs (pre ++ outs ++ post)) L =
    if L =? L0 then filter (fun f => f ∉ inputs0 comp) (level_files v L0) else if L =? L0 + 1 then pre ++ outs ++ post else level_files v L) as Hlev
    by (intros L HL; unfold with_outputs; by rewrite level_files_map).
  assert (length (vfiles (with_outputs (pre ++ outs ++ post))) = Z.to_nat kNumLevels) as Hn.
  { unfold with_outputs, set_files, all_levels. cbn [vfiles]. by rewrite length_map, length_seqZ. }
  split; [|done]. split.
  - rewrite Hlev by (unfold is_level; lia). by rewrite Z.eqb_refl.
  - exists pre, post. split; [done|]. split; [|done]. rewrite Hlev by (unfold is_level; lia). by rewrite (proj2 (Z.eqb_neq _ _)), Z.eqb_refl by lia.
  - intros L HL Hne Hne'. destruct (decide (L < kNumLevels)) as [Hlt|Hge].
    + rewrite Hlev by (unfold is_level; lia). by rewrite !(proj2 (Z.eqb_neq _ _)) by lia.
    + rewrite Hlen by lia. apply no_level; [done|lia].
  - rewrite Hlev by (unfold is_level; lia). rewrite (proj2 (Z.eqb_neq _ _)), Z.eqb_refl by lia.
    rewrite Hl in Hroom. rewrite !length_app in *. lia.
Qed.

Context (v2 v1 : Version) (dat : Z -> list ientry) {serves : Z -> Z -> list ientry -> Prop}.
Abbreviation data := (fun f : file => dat (number f)).
Hypothesis Hrep : replaced (ucmp := ucmp) v v2 comp outs.
Hypothesis Hvo : version_ok (ucmp := ucmp) (serves := serves) v data.
Hypothesis Hvo2 : version_ok (ucmp := ucmp) (serves := serves) v2 data.
Hypothesis Hwf1 : version_wf (ucmp := ucmp) v1.
Hypothesis Hsame : same_version v v1.
Hypothesis Hfresh : forall L f o, is_level L -> f ∈ level_files v L -> o ∈ outs -> number f <> number o.

Lemma level_numbers L f g : is_level L -> f ∈ level_files v L -> g ∈ level_files v L -> number f = number g -> f = g.
Proof.
  intros HL Hf Hg Hn. destruct (decide (L = 0)) as [->|Hne].
  { pose proof (vo_numbers _ _ Hvo) as Hnd. apply list_elem_of_lookup in Hf as [i Hi], Hg as [j Hj].
    assert (i = j) as ->; [|rewrite Hi in Hj; by injection Hj].
    apply (NoDup_lookup _ i j (number f) Hnd); rewrite list_lookup_fmap; [by rewrite Hi|by rewrite Hj, Hn]. }
  assert (0 < L < kNumLevels) as HLp by (unfold is_level in HL; lia).
  destruct (vo_level _ _ Hvo L HLp) as [Hfs Hd _]. pose proof Hf as [i Hi]%list_elem_of_lookup. pose proof Hg as [j Hj]%list_elem_of_lookup.
  assert (forall k m a b, (k < m)%nat -> level_files v L !! k = Some a -> level_files v L !! m = Some b -> number a = number b -> False) as Hx.
  { intros k m a b Hkm Ha Hb Hab. pose proof (sorted_lookup _ _ k m a b Hd Hkm Ha Hb) as Hlt. cbn in Hlt.
    destruct (vo_file _ _ Hvo L a HL (list_elem_of_lookup_2 _ _ _ Ha)) as [_ _ Ra (e & He & _)].
    destruct (vo_file _ _ Hvo L b HL (list_elem_of_lookup_2 _ _ _ Hb)) as [_ _ Rb _].
    destruct (Ra e He) as (Hse & _ & Hea). assert (e ∈ data b) as Heb by (cbn; by rewrite <- Hab). destruct (Rb e Heb) as (_ & Hbe & _).
    apply (ilt_not _ _ (ile_lt_trans _ _ _ Hea Hlt)). done. }
  destruct (Nat.lt_trichotomy i j) as [Hij|[->|Hij]]; [by destruct (Hx i j f g)|rewrite Hi in Hj; by injection Hj|by destruct (Hx j i g f)].
Qed.

(** The files of the new version are those that are not inputs, and the outputs. *)
Lemma new_level_files L g : is_level L -> g ∈ level_files v2 L <->
  (g ∈ level_files v L /\ ~ is_input comp L g) \/ (L = L0 + 1 /\ g ∈ outs).
Proof.
  intros HL. destruct (co_level v comp Hc) as [Hlo Hhi]. destruct (rp_next _ _ _ _ Hrep) as (pre & post & Hl & Hl' & _). unfold is_input.
  destruct (decide (L = L0)) as [->|Hne].
  { rewrite (rp_from _ _ _ _ Hrep), list_elem_of_filter. split.
    - intros [Hn Hg]. left. split; [done|]. by intros [[_ ?]|[? _]]; [|lia].
    - intros [[Hg Hn]|[? _]]; [|lia]. split; [|done]. intros Hin. apply Hn. by left. }
  destruct (decide (L = L0 + 1)) as [->|Hne'].
  { rewrite Hl', Hl, !elem_of_app. split.
    - intros [Hg|[Hg|Hg]]; [left|by right|left]; (split; [tauto|]); (intros [[? _]|[_ Hi]]; [lia|]);
        by apply (next_level_split (serves := serves) v data comp Hvo Hc pre post g Hl) in Hi; [|tauto].
    - intros [[[Hg|[Hg|Hg]] Hn]|[_ Hg]]; try tauto. }
  rewrite (rp_other _ _ _ _ Hrep) by (unfold is_level in HL; lia). split; [|by intros [[? _]|[? _]]].
  intros Hg. left. split; [done|]. by intros [[? _]|[? _]].
Qed.

Lemma new_ordered L : is_level L -> set_ordered (level_files v2 L).
Proof.
  intros HL. destruct (decide (L = 0)) as [->|Hne].
  - destruct (co_level v comp Hc) as [Hlo Hhi]. assert (set_ordered (level_files v 0)) as Hs.
    { apply (same_ordered (level_files v1 0)); [apply same_sym, Hsame|]. by apply (wf_ordered _ Hwf1). }
    destruct (decide (L0 = 0)) as [Heq|Hne'].
    + rewrite <- Heq in Hs |- *. rewrite (rp_from _ _ _ _ Hrep). by apply StronglySorted_filter.
    + by rewrite (rp_other _ _ _ _ Hrep) by lia.
  - destruct (vo_level _ _ Hvo2 L) as [Hf Hd _]; [unfold is_level in HL; lia|]. by apply disjoint_ordered.
Qed.

(** The outputs have numbers that the version does not have. *)
Lemma outputs_new e : newfiles e = map (pair (L0 + 1)) outs ->
  forall L f, is_level L -> f ∈ level_files v1 L -> (L, number f) ∉ map (fun p => (p.1, number p.2)) (newfiles e).
Proof.
  intros Hnew L f HL Hf. rewrite Hnew, map_map. intros (o & Heq & Ho)%list_elem_of_fmap. cbn in Heq. injection Heq as -> Heq.
  destruct (same_elem _ _ f (Hsame (L0 + 1)) Hf) as (g & Hg & Hn & _). apply (Hfresh (L0 + 1) g o HL Hg Ho). by rewrite Hn.
Qed.

(** The file of the new version that a file saved by the builder is. *)
Lemma saved_in_new e cp b cp' : Apply ucmp e (Builder_make v1) cp = Some (b, cp') ->
  edit_levels e -> newfiles e = map (pair (L0 + 1)) outs ->
  (forall L n, (L, n) ∈ deletedfiles e <-> (L = L0 /\ n ∈ map number (inputs0 comp)) \/ (L = L0 + 1 /\ n ∈ map number (inputs1 comp))) ->
  forall L, is_level L -> set_ordered (saved (ucmp := ucmp) b L) /\
    (forall f, f ∈ saved (ucmp := ucmp) b L -> exists g, g ∈ level_files v2 L /\ same_file g f) /\
    (forall g, g ∈ level_files v2 L -> exists f, f ∈ saved (ucmp := ucmp) b L /\ same_file g f).
Proof.
  intros Ha Hel Hnew Hdel. destruct (co_level v comp Hc) as [Hlo Hhi].
  pose proof (outputs_new e Hnew) as Hfr.
  assert (forall L f, f ∈ adds L (newfiles e) <-> L = L0 + 1 /\ exists o, o ∈ outs /\ f = norm o) as Hadds.
  { intros L f. rewrite elem_of_adds, Hnew. split.
    - intros (g & (o & [= -> ->] & Ho)%list_elem_of_fmap & ->). split; [done|]. by exists o.
    - intros (-> & o & Ho & ->). exists o. split; [by apply list_elem_of_fmap_2|done]. }
  assert (forall L f g, is_level L -> g ∈ level_files v L -> same_file g f -> (L, number f) ∈ deletedfiles e <-> is_input comp L g) as Hin.
  { intros L f g HL Hg (Hn & _). rewrite Hdel, <- Hn. unfold is_input.
    assert (forall fs, (forall x, x ∈ fs -> x ∈ level_files v L) -> number g ∈ map number fs <-> g ∈ fs) as Hnum.
    { intros fs Hfs. split; [|by apply list_elem_of_fmap_2]. intros (x & Hx & Hxin)%list_elem_of_fmap.
      by rewrite (level_numbers L g x HL Hg (Hfs x Hxin) Hx). }
    assert (forall x, x ∈ inputs1 comp -> x ∈ level_files v (L0 + 1)) as Hin1.
    { intros x Hx. destruct (co_next v comp Hc) as (pre & post & -> & _). rewrite !elem_of_app. tauto. }
    split; (intros [[-> Hi]|[-> Hi]]; [left|right]); (split; [done|]).
    - apply Hnum in Hi; [done|apply (co_in0 v comp Hc)].
    - by apply Hnum in Hi.
    - apply Hnum; [apply (co_in0 v comp Hc)|done].
    - by apply Hnum. }
  intros L HL. destruct (saved_levels v1 e cp b cp' Hwf1 Hel Hfr Ha L HL) as [Hs Hm]. split; [done|]. split.
  - intros f [[Hf Hnd]|(-> & o & Ho & ->)%Hadds]%Hm.
    + destruct (same_elem _ _ f (Hsame L) Hf) as (g & Hg & Hgf). exists g. split; [|done]. apply new_level_files; [done|]. left. split; [done|].
      intros Hi. apply Hnd. by apply (Hin L f g).
    + exists o. split; [|done]. apply new_level_files; [done|]. by right.
  - intros g [[Hg Hni]|[-> Ho]]%new_level_files; [| |done].
    + destruct (same_elem _ _ g (same_sym _ _ (Hsame L)) Hg) as (f & Hf & Hfg). apply same_file_sym in Hfg. exists f. split; [|done].
      apply Hm. left. split; [done|]. intros Hd. apply Hni. by apply (Hin L f g).
    + exists (norm g). split; [|by split_and!]. apply Hm. right. apply Hadds. split; [done|]. by exists g.
Qed.

Lemma outs_levels e : newfiles e = map (pair (L0 + 1)) outs -> NoDup (map number outs) ->
  (forall L n, (L, n) ∈ deletedfiles e -> is_level L) -> edit_levels e.
Proof.
  intros Hnew Hnd Hdel. destruct (co_level v comp Hc) as [Hlo Hhi]. split.
  - apply Forall_forall. intros [L n] Hp. by eapply Hdel.
  - rewrite Hnew. apply Forall_forall. intros p (o & -> & _)%list_elem_of_fmap. cbn. unfold is_level. lia.
  - rewrite Hnew, map_map. cbn. clear -Hnd. induction outs as [|o l IH]; [constructor|]. apply NoDup_cons in Hnd as [Hn Hnd]. constructor; [|by apply IH].
    intros (x & Heq & Hx)%list_elem_of_fmap. injection Heq as Heq. apply Hn. rewrite Heq. by apply list_elem_of_fmap_2.
Qed.

(** The edit is saved, and the version saved has the files of [v2]. *)
Lemma outputs_saved e cp b cp' : Apply ucmp e (Builder_make v1) cp = Some (b, cp') ->
  edit_levels e -> newfiles e = map (pair (L0 + 1)) outs ->
  (forall L n, (L, n) ∈ deletedfiles e <-> (L = L0 /\ n ∈ map number (inputs0 comp)) \/ (L = L0 + 1 /\ n ∈ map number (inputs1 comp))) ->
  length (vfiles v2) = Z.to_nat kNumLevels ->
  exists v', SaveTo ucmp b Version_make = Some v' /\ version_wf (ucmp := ucmp) v' /\ same_version v2 v'.
Proof.
  intros Ha Hel Hnew Hdel Hlen2. pose proof (saved_in_new e cp b cp' Ha Hel Hnew Hdel) as Hsv.
  pose proof (outputs_new e Hnew) as Hfr.
  destruct (edit_installs v1 e cp b cp' Hwf1 Hel Hfr Ha) as (v' & Hsave & Hwf' & Hlev).
  { intros L f Hpos HL Hf. destruct (Hsv L HL) as (_ & Hto & _). destruct (Hto f Hf) as (g & Hg & (_ & _ & <- & <-)).
    apply (fh_ok _ _ (vo_file _ _ Hvo2 L g HL Hg)). }
  { intros L f f' Hpos HL Hf Hf' Hne. destruct (Hsv L HL) as (Hord & Hto & _). destruct (Hto f Hf) as (g & Hg & Hgf), (Hto f' Hf') as (g' & Hg' & Hgf').
    assert (g <> g') as Hgg.
    { intros <-. apply Hne. pose proof (same_file_trans _ _ _ (same_file_sym _ _ Hgf) Hgf') as Hff.
      apply list_elem_of_lookup in Hf as [i Hi], Hf' as [j Hj].
      assert (forall k m x y, (k < m)%nat -> saved (ucmp := ucmp) b L !! k = Some x -> saved (ucmp := ucmp) b L !! m = Some y -> same_file x y -> False) as Hno.
      { intros k m x y Hkm Hx Hy Hxy. pose proof (sorted_lookup _ _ k m x y Hord Hkm Hx Hy) as Hlt. cbn in Hlt.
        rewrite (same_lt x y y y Hxy (same_file_refl y)), lt_irrefl in Hlt. done. }
      destruct (Nat.lt_trichotomy i j) as [Hij|[->|Hij]]; [by destruct (Hno i j f f')|rewrite Hi in Hj; by injection Hj|].
      destruct (Hno j i f' f); [done..|by apply same_file_sym]. }
    destruct Hgf as (_ & _ & Hs1 & Hl1), Hgf' as (_ & _ & Hs2 & Hl2). unfold apart. rewrite <- Hs1, <- Hl1, <- Hs2, <- Hl2.
    assert (0 < L < kNumLevels) as HLp by (unfold is_level in HL; lia). pose proof (lv_disjoint _ (vo_level _ _ Hvo2 L HLp)) as Hd.
    apply list_elem_of_lookup in Hg as [i Hi], Hg' as [j Hj]. destruct (Nat.lt_trichotomy i j) as [Hij|[->|Hij]].
    - left. by apply (sorted_lookup _ _ i j g g' Hd).
    - rewrite Hi in Hj. by injection Hj as ->.
    - right. by apply (sorted_lookup _ _ j i g' g Hd). }
  exists v'. split; [done|]. split; [done|].
  assert (forall L, is_level L -> Forall2 same_file (level_files v2 L) (level_files v' L)) as Hall.
  { intros L HL. destruct (Hsv L HL) as (_ & Hto & Hfrom). pose proof (saved_levels v1 e cp b cp' Hwf1 Hel Hfr Ha L HL) as [_ Hm].
    assert (forall f, f ∈ level_files v' L <-> f ∈ saved (ucmp := ucmp) b L) as Heq by (intros f; rewrite (Hlev L f HL), Hm; done).
    apply (sorted_same (ucmp := ucmp)); [by apply new_ordered|by apply (wf_ordered _ Hwf')| |].
    - intros g Hg. destruct (Hfrom g Hg) as (f & Hf & Hgf). exists f. split; [by apply Heq|done].
    - intros f Hf%Heq. destruct (Hto f Hf) as (g & Hg & Hgf). by exists g. }
  intros L. destruct (decide (is_level L)) as [HL|HL]; [by apply Hall|]. destruct (decide (kNumLevels <= L)) as [Hge|Hneg].
  - rewrite !no_level by (done || apply Hwf'). constructor.
  - specialize (Hall 0 ltac:(done)). unfold level_files in *. replace (Z.to_nat L) with (Z.to_nat 0) by (unfold is_level in HL; lia). done.
Qed.

Context {E F G : Type} `{FileEnv E F G} `{AppendFileOk F} {HE : FileEnvOk E F G} `{ReadFile G}.
Context (taddr recordaddr : Z) (dbname : bytes).

Lemma apply_pointers_total l : Forall (fun p : Z * InternalKey => p.2 <> []) l -> forall cp, exists cp', apply_pointers l cp = Some cp'.
Proof.
  induction 1 as [|[L k] l Hk Hl IH]; intros cp; cbn [apply_pointers]; [by eexists|]. cbn in Hk. unfold InternalKey_Encode.
  destruct k; [done|]. cbn [mbind option_bind]. apply IH.
Qed.

(** [LogAndApply] of the edit: the record is written and the version installed. *)
Lemma install_outputs (vs : VersionSet (F := F)) (env : E) es fragss log :
  current vs = Some v1 -> descriptorlog vs = Some log -> manifest_holds log es fragss -> counters_fit vs ->
  pointers_only (cedit comp) -> Forall (fun f => FileMetaData_make (number f) (filesize f) (smallest f) (largest f) = f) outs ->
  Forall (fun f => file_fits f /\ smallest f <> [] /\ largest f <> []) outs -> NoDup (map number outs) ->
  (forall L f, is_level L -> f ∈ level_files v L -> is_u64 (number f)) -> length (vfiles v2) = Z.to_nat kNumLevels ->
  exists e v' log' frags cp, LogAndApply ucmp taddr recordaddr (G := G) dbname (replace_edit comp outs) vs env =
      Some (OK, e, MkVersionSet (tail (dummyversions vs) ++ [Finalize v']) (vs_nextfilenumber vs) (manifestfilenumber vs)
        (vs_lastsequence vs) (vs_lognumber vs) (vs_prevlognumber vs) cp (Some log'), env) /\
    manifest_holds log' (es ++ [e]) (fragss ++ [frags]) /\ version_wf (ucmp := ucmp) v' /\ same_version v2 v'.
Proof.
  intros Hcur Hlog Hm (Cn & Cs & Cl & Cp) Hp Hmade Hfits Hnd Hu Hlen2. destruct (co_level v comp Hc) as [Hlo Hhi].
  destruct (replace_edit_says comp outs Hp Hmade) as (Hhead & Hnew & Hdel & Hsorted). set (edit := replace_edit comp outs) in *.
  assert (comparator edit = comparator (cedit comp) /\ haslognumber edit = false /\ hasprevlognumber edit = false /\
    compactpointers edit = compactpointers (cedit comp)) as (E1 & E2 & E3 & E4).
  { injection Hhead as K1 K2 K3 K4 K5 K6 K7 K8 K9 K10 K11. by rewrite K1, K7, K8, K11, (po_log _ Hp), (po_prevlog _ Hp). }
  set (e := SetLastSequence (SetNextFile (SetPrevLogNumber (SetLogNumber edit (vs_lognumber vs)) (vs_prevlognumber vs)) (vs_nextfilenumber vs)) (vs_lastsequence vs)).
  assert (complete_edit edit vs = Some e) as Hce.
  { unfold complete_edit, e. rewrite E2. cbn [mbind option_bind]. cbn [SetLogNumber hasprevlognumber]. by rewrite E3. }
  destruct (apply_pointers_total (compactpointers e) ltac:(change (compactpointers e) with (compactpointers edit); rewrite E4; apply Hp) (compactPointer vs)) as [cp Hcp].
  assert (exists b, Apply ucmp e (Builder_make v1) (compactPointer vs) = Some (b, cp)) as [b Ha].
  { unfold Apply. rewrite Hcp. cbn [mbind option_bind]. by eexists. }
  assert (forall L n, (L, n) ∈ deletedfiles e -> is_level L /\ is_u64 n) as Hdf.
  { intros L n Hin. change (deletedfiles e) with (deletedfiles edit) in Hin. apply Hdel in Hin. unfold is_level.
    destruct Hin as [[-> (f & -> & Hf)%list_elem_of_fmap]|[-> (f & -> & Hf)%list_elem_of_fmap]].
    - split; [lia|]. apply (Hu L0); [unfold is_level; lia|by apply (co_in0 v comp Hc)].
    - split; [lia|]. apply (Hu (L0 + 1)); [unfold is_level; lia|]. destruct (co_next v comp Hc) as (pre & post & -> & _). rewrite !elem_of_app. tauto. }
  assert (edit_levels e) as Hel by (apply outs_levels; [done|done|]; intros L n Hin; by destruct (Hdf L n Hin)).
  destruct (outputs_saved e _ b cp Ha Hel Hnew Hdel Hlen2) as (v' & Hsave & Hwf' & Hsame').
  assert (recordable e) as Hrec.
  { rewrite Forall_forall in Hfits. destruct (po_ok _ Hp) as [O1 O2 O3 O4 O5 O6 O7 O8 O9]. split; [split|split].
    - change (comparator e) with (comparator edit). by rewrite E1.
    - done.
    - done.
    - done.
    - done.
    - change (compactpointers e) with (compactpointers edit). by rewrite E4.
    - apply Forall_forall. intros [L n] Hin. by apply Hdf.
    - exact Hsorted.
    - change (newfiles e) with (newfiles edit). rewrite Hnew. apply Forall_forall. intros x (o & -> & Ho)%list_elem_of_fmap. cbn [fst snd].
      split; [unfold is_level; lia|by apply Hfits].
    - change (compactpointers e) with (compactpointers edit). rewrite E4. apply Hp.
    - change (newfiles e) with (newfiles edit). rewrite Hnew. apply Forall_forall. intros x (o & -> & Ho)%list_elem_of_fmap. by apply Hfits. }
  destruct (LogAndApply_appends taddr recordaddr dbname edit vs env es fragss v1 log e b cp v' Hcur Hlog Hm Hce Hrec Ha Hsave)
    as (log' & frags & Hla & Hm').
  exists e, v', log', frags, cp. split; [exact Hla|]. done.
Qed.
End Install.
