(* ===== verification/DoCompaction.v ===== *)
(** Running a compaction: writing its output files and installing them, and the background
    work that does it (redisdb/db/db.cc: [DoCompactionWork], [OpenCompactionOutputFile],
    [FinishCompactionOutputFile], [InstallCompactionResults], [CleanupCompaction],
    [BackgroundCompaction], [BackgroundCallback]; redisdb/db/snapshot.h).

    The mutex is released while the inputs are read and the outputs written.  As in Flush.v
    [others] is what the other threads make of the database; it acts wherever the loop is
    about to look at what it shares with them.  How the iterator over the inputs is made is
    an argument of the definitions; [make_input] is [MakeInputIterator]. *)
From Stdlib Require Import Sorted Permutation.
From stdpp Require Import gmap sorting sets.
From S2P Require Import Prelude Coding Status Env DbFormat Block TableFormat LogFormat LruCache Iterators SkipList MemTable WriteBatch VersionEdit FileIO FileName Table Version TableCache VersionBuilder VersionSet Database Compaction CompactionWork Flush DbIterators CompactionInstall.
Local Open Scope Z_scope.

(** ** Snapshots *)

(** The sequence numbers of a [SnapshotList]. *)
Definition SnapshotList := list Z.

Definition snapshots_empty (l : SnapshotList) : bool := bool_decide (l = []).
Definition oldest (l : SnapshotList) : option Z := hd_error l.
Definition newest (l : SnapshotList) : option Z := last l.

(** The snapshot is made; the list is left as it is. *)
Definition NewSnapshot (sequencenumber : Z) (l : SnapshotList) : option (Z * SnapshotList) :=
  if snapshots_empty l then Some (sequencenumber, l)
  else let? n := newest l in if n <=? sequencenumber then Some (sequencenumber, l) else None.

Fixpoint DeleteSnapshot (sequencenumber : Z) (l : SnapshotList) : SnapshotList :=
  match l with
  | [] => []
  | n :: l => if n =? sequencenumber then l else n :: DeleteSnapshot sequencenumber l
  end.

Section Work.
Context (c : Comparator) (taddr recordaddr : Z).
Context {E F G T : Type} `{FileEnv E F G} `{AppendFile F} `{ReadFile G} `{TableOpener T}.
Context (compress : bytes -> option bytes) (interval blocksize : Z) (compression : CompressionType) (addr : Z).
(** [dbname] and the options. *)
Context (dbname : bytes) (maxfilesize : Z).

Abbreviation icmp := (InternalKeyComparator c).
Abbreviation DBState := (DB (E := E) (F := F) (T := T)).

(** [CompactionState::Output].  [ofile] is the file as it was closed, which the code does
    not keep. *)
Record Output := MkOutput {
  onumber : Z;
  ofilesize : Z;
  osmallest : InternalKey;
  olargest : InternalKey;
  ofile : option F
}.

(** [DB::CompactionState].  The file being written, [outfile], is the builder's. *)
Record CompactionState := MkCompactionState {
  compaction : Compaction;
  smallestsnapshot : Z;
  outputs : list Output;
  builder : option (TableBuilder (F := F));
  totalbytes : Z
}.

Definition CompactionState_make (comp : Compaction) : CompactionState := MkCompactionState comp 0 [] None 0.

Definition set_compaction (comp : Compaction) (cs : CompactionState) : CompactionState :=
  MkCompactionState comp (smallestsnapshot cs) (outputs cs) (builder cs) (totalbytes cs).
Definition set_smallestsnapshot (s : Z) (cs : CompactionState) : CompactionState :=
  MkCompactionState (compaction cs) s (outputs cs) (builder cs) (totalbytes cs).
Definition set_outputs (outs : list Output) (b : option (TableBuilder (F := F))) (bytes : Z) (cs : CompactionState) : CompactionState :=
  MkCompactionState (compaction cs) (smallestsnapshot cs) outs b bytes.

(** [currentOutput()] and an assignment to it. *)
Definition currentOutput (cs : CompactionState) : option Output := last (outputs cs).
Definition set_current (o : Output) (cs : CompactionState) : list Output := removelast (outputs cs) ++ [o].

(** *** The outputs *)

Definition OpenCompactionOutputFile (cs : CompactionState) (d : DBState) : option (Status * CompactionState * DBState) :=
  match builder cs with
  | Some _ => None
  | None =>
      let '(number, vs) := NewFileNumber (db_vs d) in
      let d := set_pendingoutputs (set_insert Z.ltb number (db_pending d)) (set_versions vs (db_tables d) (db_env d) d) in
      let outs := outputs cs ++ [MkOutput number 0 [] [] None] in
      let? fname := TableFileName dbname number in
      let '(s, outfile, env) := NewWritableFile (F := F) (G := G) (db_env d) fname in
      let d := set_versions (db_vs d) (db_tables d) env d in
      if ok s then
        let? outfile := outfile in
        Some (s, set_outputs outs (Some (TableBuilder_make outfile)) (totalbytes cs) cs, d)
      else Some (s, set_outputs outs None (totalbytes cs) cs, d)
  end.

(** The current output is finished, synced, closed and opened again; [input] is the status
    of the iterator over the inputs. *)
Definition FinishCompactionOutputFile (cs : CompactionState) (input : Status) (d : DBState)
    : option (Status * CompactionState * DBState) :=
  let? b := builder cs in
  let? out := currentOutput cs in
  if onumber out =? 0 then None
  else
    let s := input in
    let currentEntries := pendinghandle b in
    let? (s, b) :=
      if ok s then let? b := TableBuilder_Finish compress icmp compression addr b in Some (status b, b)
      else let? b := Abandon b in Some (s, b) in
    let currentBytes := TableFormat.filesize b in
    let '(s, outfile) := if ok s then fsync (E := E) (G := G) (tfile b) else (s, tfile b) in
    let '(s, outfile) := if ok s then fclose (E := E) (G := G) outfile else (s, outfile) in
    let out := MkOutput (onumber out) currentBytes (osmallest out) (olargest out) (Some outfile) in
    let cs := set_outputs (set_current out cs) None (u64 (totalbytes cs + currentBytes)) cs in
    if ok s && (0 <? currentEntries) then
      let? (s, tables) := topen (db_tables d) (onumber out) currentBytes in
      Some (s, cs, set_versions (db_vs d) tables (db_env d) d)
    else Some (s, cs, d).

(** An entry is added to the current output. *)
Definition add_output (cs : CompactionState) (key value : bytes) : option CompactionState :=
  let? b := builder cs in
  let? out := currentOutput cs in
  let small := if pendinghandle b =? 0 then key else osmallest out in
  let out := MkOutput (onumber out) (ofilesize out) small key (ofile out) in
  let? b := TableBuilder_Add compress icmp interval blocksize compression addr b key value in
  Some (set_outputs (set_current out cs) (Some b) (totalbytes cs) cs).

Section Loop.
Context {I : Type} `{Iter I} (others : DBState -> DBState).

(** A memtable that is full goes first. *)
Definition flush_first (d : DBState) : option DBState :=
  match db_imm d with
  | Some _ => CompactMemTable c taddr recordaddr (G := G) compress interval blocksize compression addr dbname maxfilesize others d
  | None => Some d
  end.

(** A turn of the loop of [DoCompactionWork]: it goes on, or breaks with a status. *)
Inductive Turn :=
  | TurnNext (cs : CompactionState) (sc : Scan) (it : I) (d : DBState)
  | TurnBreak (s : Status) (cs : CompactionState) (d : DBState).

(** The end of a turn, for an entry that is kept. *)
Definition keep_entry (cs : CompactionState) (sc : Scan) (it : I) (d : DBState) : option Turn :=
  let? (s, cs, d) :=
    match builder cs with
    | Some _ => Some (OK, cs, d)
    | None => OpenCompactionOutputFile cs (others d)
    end in
  if negb (ok s) then Some (TurnBreak s cs d)
  else
    let? cs := add_output cs (iterkey it) (itervalue it) in
    let? b := builder cs in
    let? (s, cs, d) :=
      if maxoutputfilesize (compaction cs) <=? TableFormat.filesize b then FinishCompactionOutputFile cs (iterstatus it) d
      else Some (OK, cs, d) in
    if negb (ok s) then Some (TurnBreak s cs d)
    else let? it := iterNext it in Some (TurnNext cs sc it d).

Definition compact_turn (cs : CompactionState) (sc : Scan) (it : I) (d : DBState) : option Turn :=
  let? d := flush_first d in
  let key := iterkey it in
  let? (stop, comp) := shouldStopBefore c maxfilesize (compaction cs) key in
  let cs := set_compaction comp cs in
  let? (s, cs, d) :=
    match builder cs with
    | Some _ => if stop then FinishCompactionOutputFile cs (iterstatus it) d else Some (OK, cs, d)
    | None => Some (OK, cs, d)
    end in
  if negb (ok s) then Some (TurnBreak s cs d)
  else
    let? (drop, comp, sc) := drop_step c (smallestsnapshot cs) (compaction cs) sc key in
    let cs := set_compaction comp cs in
    if drop then let? it := iterNext it in Some (TurnNext cs sc it d)
    else keep_entry cs sc it d.

Fixpoint compact_loop (fuel : nat) (cs : CompactionState) (sc : Scan) (it : I) (d : DBState)
    : option (Status * CompactionState * I * DBState) :=
  match fuel with
  | O => None
  | S fuel =>
      let d := others d in
      if iterValid it && negb (db_shuttingdown d) then
        let? turn := compact_turn cs sc it d in
        match turn with
        | TurnNext cs sc it d => compact_loop fuel cs sc it d
        | TurnBreak s cs d => Some (s, cs, it, d)
        end
      else Some (OK, cs, it, d)
  end.

(** *** Installing the outputs *)

Definition install_edit (cs : CompactionState) : VersionEdit :=
  let comp := compaction cs in
  fold_left (fun edit out => AddFile edit (clevel comp + 1) (onumber out) (ofilesize out) (osmallest out) (olargest out))
    (outputs cs) (addInputDeletions comp (cedit comp)).

Definition InstallCompactionResults (cs : CompactionState) (d : DBState) : option (Status * CompactionState * DBState) :=
  let? (s, edit, vs, env) := LogAndApply c taddr recordaddr (G := G) dbname (install_edit cs) (db_vs d) (db_env d) in
  Some (s, set_compaction (set_edit (compaction cs) edit) cs, set_versions vs (db_tables d) env d).

(** [DoCompactionWork]; [make_input] stands for [MakeInputIterator], and [fuel] bounds the loop. *)
Definition DoCompactionWork (snapshots : SnapshotList) (make_input : Compaction -> DBState -> option I) (fuel : nat)
    (cs : CompactionState) (d : DBState) : option (Status * CompactionState * DBState) :=
  let? files := NumLevelFiles (db_vs d) (clevel (compaction cs)) in
  if negb (0 <? files) || bool_decide (is_Some (builder cs)) then None
  else
    let? smallest := if snapshots_empty snapshots then Some (GetLastSequence (db_vs d)) else oldest snapshots in
    let cs := set_smallestsnapshot smallest cs in
    let? it := make_input (compaction cs) d in
    let? it := iterSeekToFirst it in
    let? (s, cs, it, d) := compact_loop fuel cs Scan_make it d in
    let s := if ok s && db_shuttingdown d then IOError (str "Deleting DB during compaction" ++ [x0a]) [] else s in
    let? (s, cs, d) :=
      match builder cs with
      | Some _ => if ok s then FinishCompactionOutputFile cs (iterstatus it) d else Some (s, cs, d)
      | None => Some (s, cs, d)
      end in
    let s := if ok s then iterstatus it else s in
    let d := others d in
    let? (s, cs, d) := if ok s then InstallCompactionResults cs d else Some (s, cs, d) in
    Some (s, cs, if ok s then d else RecordBackgroundError s d).

(** *** Background work *)

(** The numbers of the outputs are no longer pending; each of them was. *)
Fixpoint erase_outputs (outs : list Output) (d : DBState) : option DBState :=
  match outs with
  | [] => Some d
  | out :: outs =>
      if bool_decide (onumber out ∈ db_pending d) then
        erase_outputs outs (set_pendingoutputs (filter (fun n => n <> onumber out) (db_pending d)) d)
      else None
  end.

Definition CleanupCompaction (cs : CompactionState) (d : DBState) : option DBState :=
  match builder cs with
  | Some b => let? _ := Abandon b in erase_outputs (outputs cs) d
  | None => erase_outputs (outputs cs) d
  end.

(** [DB::ManualCompaction]. *)
Record ManualCompaction := MkManual {
  m_level : Z;
  m_done : bool;
  m_begin : option InternalKey;
  m_end : option InternalKey
}.

(** The request of [TESTCompactRange]. *)
Definition manual_request (level : Z) (begin end_ : option bytes) : option ManualCompaction :=
  if (0 <=? level) && (level + 1 <? kNumLevels) then
    Some (MkManual level false
      ((fun u => InternalKey_make u kMaxSequenceNumber kValueTypeForSeek) <$> begin)
      ((fun u => InternalKey_make u 0 kTypeDeletion) <$> end_))
  else None.

(** The levels that [CompactRange] compacts, from 0 up to this one. *)
Definition compact_levels (v : Version) (begin end_ : option bytes) : option Z :=
  fold_left (fun files level =>
      let? files := files in
      let? overlaps := OverlapInLevel c v level begin end_ in
      Some (if overlaps then level else files))
    (seqZ 1 (kNumLevels - 1)) (Some 1).

Definition set_manual (b : bool) (d : DBState) : DBState :=
  MkDB (db_mem d) (db_imm d) (db_vs d) (db_tables d) (db_env d) (db_log d) (db_logfilenumber d) (db_bgerror d) (db_writers d)
    (db_tmpbatch d) (db_done d) (db_scheduled d) (db_shuttingdown d) b (db_pending d).

(** The edit that moves the input to the next level. *)
Definition move_edit (comp : Compaction) (f : file) : VersionEdit :=
  AddFile (DeleteFile (cedit comp) (clevel comp) (number f)) (clevel comp + 1) (number f) (VersionEdit.filesize f) (smallest f) (largest f).

(** What [BackgroundCompaction] does with the compaction that was chosen. *)
Definition run_compaction (snapshots : SnapshotList) (make_input : Compaction -> DBState -> option I) (fuel : nat)
    (ismanual : bool) (comp : option Compaction) (d : DBState) : option (Status * DBState) :=
  match comp with
  | None => Some (OK, d)
  | Some comp =>
      if negb ismanual && isTrivialMove maxfilesize comp then
        let? f := input comp 0 0 in
        let? (s, edit, vs, env) := LogAndApply c taddr recordaddr (G := G) dbname (move_edit comp f) (db_vs d) (db_env d) in
        if ok s then Some (s, set_versions vs (db_tables d) env d) else None
      else
        let? (s, cs, d) := DoCompactionWork snapshots make_input fuel (CompactionState_make comp) d in
        let d := if ok s then d else RecordBackgroundError s d in
        let? d := CleanupCompaction cs d in
        let? d := DeleteObsoleteFiles (F := F) (G := G) dbname d in
        Some (s, d)
  end.

(** [BackgroundCompaction]; [m] is what [manualcompaction] points to. *)
Definition BackgroundCompaction (snapshots : SnapshotList) (make_input : Compaction -> DBState -> option I) (fuel : nat)
    (m : option ManualCompaction) (d : DBState) : option (option ManualCompaction * DBState) :=
  match db_imm d with
  | Some _ =>
      let? d := CompactMemTable c taddr recordaddr (G := G) compress interval blocksize compression addr dbname maxfilesize others d in
      Some (m, d)
  | None =>
      match m with
      | Some m =>
          let? (comp, vs) := CompactRange c maxfilesize (m_level m) (m_begin m) (m_end m) (db_vs d) in
          let d := set_versions vs (db_tables d) (db_env d) d in
          let done := bool_decide (comp = None) in
          let? manualend :=
            match comp with
            | Some comp => let? f := input comp 0 (length (inputs0 comp) - 1) in Some (largest f)
            | None => Some []
            end in
          let? (s, d) := run_compaction snapshots make_input fuel true comp d in
          let done := done || negb (ok s) in
          Some (Some (if done then MkManual (m_level m) true (m_begin m) (m_end m)
                      else MkManual (m_level m) false (Some manualend) (m_end m)), set_manual false d)
      | None =>
          let? (comp, vs) := PickCompaction c maxfilesize (db_vs d) in
          let d := set_versions vs (db_tables d) (db_env d) d in
          let? (s, d) := run_compaction snapshots make_input fuel false comp d in
          Some (None, d)
      end
  end.

Definition BackgroundCallback (snapshots : SnapshotList) (make_input : Compaction -> DBState -> option I) (fuel : nat)
    (m : option ManualCompaction) (d : DBState) : option (option ManualCompaction * DBState) :=
  if negb (db_scheduled d) then None
  else
    let? (m, d) :=
      if db_shuttingdown d then Some (m, d)
      else if negb (ok (db_bgerror d)) then Some (m, d)
      else BackgroundCompaction snapshots make_input fuel m d in
    let? d := MaybeScheduleCompaction (set_background (db_bgerror d) false d) in
    Some (m, d).
End Loop.
End Work.

(** What opening a file does in any case. *)
Class TableOpenerTotal (T : Type) `{TableOpener T} (good : T -> Prop) : Prop := {
  topen_total t num size : good t -> 0 < num < 2 ^ 64 -> exists s t', topen t num size = Some (s, t') /\ good t'
}.

(** ** The decisions along the inputs *)

(** The entry before the rest of the inputs. *)
Definition prev_of (es : list ientry) : option ParsedInternalKey := fst <$> last es.

Lemma kept_snoc ucmp smallest base es e : kept ucmp smallest base None (es ++ [e]) =
  kept ucmp smallest base None es ++ (if drops ucmp smallest base (prev_of es) e.1 then [] else [e]).
Proof.
  assert (forall prev, kept ucmp smallest base prev (es ++ [e]) = kept ucmp smallest base prev es ++
    (if drops ucmp smallest base (match last es with Some p => Some p.1 | None => prev end) e.1 then [] else [e])) as Hk.
  { induction es as [|x es IH]; intros prev; cbn [app kept]; [by rewrite app_nil_r|].
    rewrite IH, last_cons, app_assoc. by destruct (last es). }
  rewrite Hk. unfold prev_of. by destruct (last es).
Qed.

(** The compaction but for its level pointers and its place among the grandparents. *)
Record same_work (c0 c : Compaction) : Prop := {
  sw_level : clevel c = clevel c0;
  sw_size : maxoutputfilesize c = maxoutputfilesize c0;
  sw_edit : cedit c = cedit c0;
  sw_version : inputversion c = inputversion c0;
  sw_inputs0 : inputs0 c = inputs0 c0;
  sw_inputs1 : inputs1 c = inputs1 c0;
  sw_grandparents : grandparents c = grandparents c0
}.

Lemma same_work_refl c : same_work c c.
Proof. by split. Qed.

Lemma same_work_trans c0 c1 c2 : same_work c0 c1 -> same_work c1 c2 -> same_work c0 c2.
Proof. intros [] []. split; congruence. Qed.

Lemma isBaseLevelForKey_same ucmp c u b c' : isBaseLevelForKey ucmp c u = Some (b, c') -> same_work c c'.
Proof.
  unfold isBaseLevelForKey. destruct (inputversion c); [|done]. cbn [mbind option_bind].
  destruct (base_levels _ _ _ _ _) as [r ptrs]. intros [= <- <-]. by split.
Qed.

Lemma drop_step_same ucmp smallest c sc key drop c' sc' : drop_step ucmp smallest c sc key = Some (drop, c', sc') -> same_work c c'.
Proof.
  unfold drop_step. destruct (drop_rule ucmp smallest c sc key) as [[[b c1] sc1]|] eqn:Hd; [|done]. cbn [mbind option_bind].
  destruct (isBaseLevelForKey ucmp c1 (ikeyuser sc1)) as [[b2 c2]|] eqn:Hb; [|done]. intros [= <- <- <-].
  apply isBaseLevelForKey_same in Hb. apply (same_work_trans _ c1); [|done]. clear Hb. unfold drop_rule in Hd.
  destruct (ParseInternalKey key) as [ikey|]; [|injection Hd as <- <- <-; apply same_work_refl].
  repeat case_match; simplify_eq/=; try apply same_work_refl;
    (destruct (isBaseLevelForKey ucmp c (userkey ikey)) as [[b3 c3]|] eqn:Hb; [|done]; simplify_eq/=; by eapply isBaseLevelForKey_same).
Qed.

Lemma pass_grandparents_total ucmp files index seen overlapped key : Forall (fun f => largest f <> []) files ->
  exists r, pass_grandparents ucmp files index seen overlapped key = Some r.
Proof.
  intros Hf. revert index overlapped. induction Hf as [|f files Hl Hf IH]; intros index overlapped; cbn [pass_grandparents]; [by eexists|].
  unfold InternalKey_Encode. destruct (largest f); [done|]. cbn [mbind option_bind]. case_bool_decide; [apply IH|by eexists].
Qed.

Lemma shouldStopBefore_total ucmp maxfilesize c key : Forall (fun f => largest f <> []) (grandparents c) ->
  exists stop c', shouldStopBefore ucmp maxfilesize c key = Some (stop, c') /\ same_work c c' /\ levelptrs c' = levelptrs c.
Proof.
  intros Hf. unfold shouldStopBefore.
  destruct (pass_grandparents_total ucmp (drop (grandparentindex c) (grandparents c)) (grandparentindex c) (seenkey c) (overlappedbytes c) key) as [[i o] ->].
  { by apply Forall_drop. }
  cbn [mbind option_bind]. case_match; eexists _, _; (split; [done|]); by split.
Qed.

(** ** The outputs being written *)

Section Running.
Context {c : Comparator} {Hok : ComparatorOk c (fun _ => True)} {Hshort : ComparatorShort (InternalKeyComparator c) internal_dom}.
Context {E F G : Type} `{FileEnv E F G} `{AppendFileOk F} {HE : FileEnvOk E F G} `{ReadFile G}.
Context {compress : bytes -> option bytes} {length_of : bytes -> option Z} {uncompress : bytes -> option bytes}.
Context {Hsnappy : SnappyOk compress length_of uncompress}.
Context {T : Type} `{TableOpenerTotal T good}.
Context (taddr recordaddr interval blocksize : Z) (compression : CompressionType) (addr : Z) (dbname : bytes) (maxfilesize : Z).
Hypothesis Hinterval : 1 <= interval.
Hypothesis Hcreate : forall env name s env', NewWritableFile (F := F) (G := G) env name = (s, None, env') -> ok s = false.

Abbreviation icmp := (InternalKeyComparator c).
Abbreviation DBState := (DB (E := E) (F := F) (T := T)).
Abbreviation State := (CompactionState (F := F)).
Abbreviation finished := (finished (c := c) (length_of := length_of) (uncompress := uncompress)).
Abbreviation keyof e := (AppendInternalKey [] (fst e)).
Abbreviation add_all := (Add_all (c := icmp) (compress := compress) interval blocksize compression addr).

(** Entries that fit one table. *)
Definition table_fit (es : list ientry) : Prop :=
  StronglySorted (key_lt (c := icmp)) (map entry_of es) /\ weight (map entry_of es) + 300 < 2 ^ 32.

Lemma add_all_snoc es key value : forall b, add_all b (es ++ [(key, value)]) =
  (let? b := add_all b es in TableBuilder_Add compress icmp interval blocksize compression addr b key value).
Proof.
  induction es as [|[k v] es IH]; intros b; cbn [app Add_all].
  - cbn [mbind option_bind]. by destruct (TableBuilder_Add _ _ _ _ _ _ _ _ _).
  - destruct (TableBuilder_Add _ _ _ _ _ _ b k v); [apply IH|done].
Qed.

(** The builder of a new file after some entries. *)
Lemma builder_after f es : healthy f -> contents f = [] -> table_fit es ->
  exists b, add_all (TableBuilder_make f) (map entry_of es) = Some b /\ closed b = false /\ pendinghandle b = len es.
Proof.
  intros Hh Hc [Hs Hw]. destruct (Add_all_tb (c := icmp) (dom := internal_dom) (compress := compress) (length_of := length_of) (uncompress := uncompress)
    interval blocksize compression addr Hinterval (map entry_of es) (TableBuilder_make f) [] [] []) as (b & blocks & idx & cur & Ha & Hinv & Hcat).
  - by apply tb_inv_make.
  - by apply entries_all_sorted.
  - done.
  - exists b. split; [exact Ha|]. split; [apply Hinv|]. rewrite (ti_entries _ _ _ _ _ Hinv), Hcat. cbn. by rewrite length_map.
Qed.

(** A closed output holds a table of [seg]. *)
Definition closed_as (o : Output (F := F)) (seg : list ientry) : Prop :=
  0 < onumber o < 2 ^ 64 /\ exists f a b, ofile o = Some f /\ finished seg (contents f) /\ ofilesize o = len (contents f) /\
    hd_error seg = Some a /\ osmallest o = keyof a /\ last seg = Some b /\ olargest o = keyof b.

(** The outputs closed hold [segs]; [cur] has been given to the builder, if there is one. *)
Definition writing (cs : State) (segs : list (list ientry)) (cur : option (list ientry)) : Prop :=
  exists outs, Forall2 closed_as outs segs /\
    match cur with
    | None => builder cs = None /\ outputs cs = outs
    | Some l => exists o b f, builder cs = Some b /\ outputs cs = outs ++ [o] /\ 0 < onumber o < 2 ^ 64 /\ healthy f /\ contents f = [] /\
        add_all (TableBuilder_make f) (map entry_of l) = Some b /\
        (forall x, hd_error l = Some x -> osmallest o = keyof x) /\ (forall x, last l = Some x -> olargest o = keyof x)
    end.

Lemma sublist_fit es l : table_fit es -> sublist l es -> table_fit l.
Proof.
  intros [Hs Hw] Hl. assert (sublist (map entry_of l) (map entry_of es)) as Hm by (exact (fmap_sublist entry_of _ _ Hl)).
  split.
  - clear Hw Hl. revert Hs. induction Hm as [|x l1 l2 Hm IH|x l1 l2 Hm IH]; intros Hs; [constructor| |].
    + apply StronglySorted_cons in Hs as [Hall Hs]. constructor; [by apply IH|]. rewrite Forall_forall in Hall |- *.
      intros y Hy. apply Hall. by apply (elem_of_sublist l1).
    + apply StronglySorted_cons in Hs as [_ Hs]. by apply IH.
  - enough (weight (map entry_of l) <= weight (map entry_of es)) by lia. clear -Hm. unfold weight.
    induction Hm as [|x l1 l2 Hm IH|x l1 l2 Hm IH]; cbn [foldr]; lia.
Qed.

Lemma last_removelast {A} (l : list A) x : removelast (l ++ [x]) = l.
Proof. apply removelast_last. Qed.

(** *** Adding an entry *)

Lemma add_output_ok cs segs l e : writing cs segs (Some l) -> table_fit (l ++ [e]) ->
  exists cs' b', add_output c compress interval blocksize compression addr cs (keyof e) e.2 = Some cs' /\
    writing cs' segs (Some (l ++ [e])) /\ builder cs' = Some b' /\ compaction cs' = compaction cs /\
    smallestsnapshot cs' = smallestsnapshot cs /\ map onumber (outputs cs') = map onumber (outputs cs).
Proof.
  intros (outs & Houts & o & b & f & Hb & Ho & Hn & Hh & Hc & Ha & Hsm & Hla) Hfit.
  destruct (builder_after f (l ++ [e]) Hh Hc Hfit) as (b' & Ha' & _ & _).
  destruct (builder_after f l Hh Hc) as (b0 & Ha0 & _ & Hp).
  { apply (sublist_fit (l ++ [e])); [done|]. by apply sublist_inserts_r. }
  rewrite Ha in Ha0. injection Ha0 as <-.
  pose proof Ha' as Hadd. rewrite map_app in Hadd. change (map entry_of [e]) with [(keyof e, e.2)] in Hadd.
  rewrite add_all_snoc, Ha in Hadd. cbn [mbind option_bind] in Hadd.
  unfold add_output. rewrite Hb. cbn [mbind option_bind]. unfold currentOutput. rewrite Ho, last_snoc. cbn [mbind option_bind]. rewrite Hadd. cbn [mbind option_bind].
  eexists _, b'. split; [done|]. unfold set_current. cbn [set_outputs builder compaction smallestsnapshot outputs]. rewrite Ho, last_removelast.
  split; [|split; [done|split; [done|split; [done|by rewrite !map_app]]]].
  exists outs. split; [done|]. eexists _, b', f. split; [done|]. split; [done|]. cbn [onumber osmallest olargest].
  do 3 (split; [done|]). split; [exact Ha'|]. split.
  - intros x Hx. rewrite Hp. destruct l as [|y l]; cbn in Hx |- *; [by injection Hx as ->|]. injection Hx as ->. by apply Hsm.
  - intros x Hx. rewrite last_snoc in Hx. by injection Hx as ->.
Qed.

(** *** The database meanwhile *)

Context (v : Version) (mes : list VersionEdit) (fragss : list (list (RecordType * bytes))).

(** What the background thread relies on while it does not hold the mutex: no memtable
    waits to be flushed, the version has the files of [v], the manifest is as it was. *)
Record quiet (d : DBState) : Prop := {
  qu_imm : db_imm d = None;
  qu_tables : good (db_tables d);
  qu_version : exists v1, current (db_vs d) = Some v1 /\ same_version v v1;
  qu_files : db_files (c := c) d mes fragss;
  qu_pending n : n ∈ db_pending d -> 0 < n < vs_nextfilenumber (db_vs d)
}.

(** The outputs have numbers of their own, from [n0], which are pending besides [pend]. *)
Record numbered (n0 : Z) (pend : list Z) (bound : Z) (cs : State) (d : DBState) : Prop := {
  nu_nodup : NoDup (map onumber (outputs cs));
  nu_from o : o ∈ outputs cs -> n0 <= onumber o < vs_nextfilenumber (db_vs d);
  nu_pending n : n ∈ db_pending d <-> n ∈ pend \/ n ∈ map onumber (outputs cs);
  nu_bound : n0 <= vs_nextfilenumber (db_vs d) <= bound + len (outputs cs)
}.

Lemma numbered_map n0 pend bound cs cs' d d' : numbered n0 pend bound cs d -> map onumber (outputs cs') = map onumber (outputs cs) ->
  db_pending d' = db_pending d -> vs_nextfilenumber (db_vs d') = vs_nextfilenumber (db_vs d) -> numbered n0 pend bound cs' d'.
Proof.
  intros [K1 K2 K3 K4] Hm Hp Hn. assert (length (outputs cs') = length (outputs cs)) as Hl by (by rewrite <- (length_map onumber), Hm, length_map).
  split; rewrite ?Hm, ?Hp, ?Hn, ?Hl; try done. intros o Ho.
  assert (onumber o ∈ map onumber (outputs cs)) as (o' & -> & Ho')%list_elem_of_fmap by (rewrite <- Hm; by apply list_elem_of_fmap_2). by apply K2.
Qed.

Lemma db_files_next (d : DBState) n tables env : db_files (c := c) d mes fragss ->
  vs_nextfilenumber (db_vs d) <= n < 2 ^ 64 -> db_files (c := c) (set_versions (set_next n (db_vs d)) tables env d) mes fragss.
Proof.
  intros [(w & K1 & K2 & K3) K4 (C1 & C2 & C3 & C4) K6] Hn. split; cbn [db_vs set_versions set_next db_logfilenumber].
  - exists w. split; [done|]. split; [done|]. intros L g HL Hg. specialize (K3 L g HL Hg). cbn. lia.
  - done.
  - split_and!; cbn; try done; lia.
  - cbn. lia.
Qed.

Lemma quiet_pending d pending : quiet d -> (forall n, n ∈ pending -> 0 < n < vs_nextfilenumber (db_vs d)) -> quiet (set_pendingoutputs pending d).
Proof. intros [K1 K2 K3 [F1 F2 F3 F4] K5] Hp. by split. Qed.

Lemma quiet_env d tables env : quiet d -> good tables -> quiet (set_versions (db_vs d) tables env d).
Proof. intros [K1 K2 K3 [F1 F2 F3 F4] K5] Ht. by split. Qed.

(** *** Opening and closing an output *)

Lemma OpenCompactionOutputFile_ok n0 pend bound cs segs d : writing cs segs None -> quiet d -> numbered n0 pend bound cs d ->
  0 < n0 -> bound + len (outputs cs) < 2 ^ 64 - 1 -> (forall n, n ∈ pend -> n < n0) ->
  exists s cs' d', OpenCompactionOutputFile (G := G) dbname cs d = Some (s, cs', d') /\ quiet d' /\ numbered n0 pend bound cs' d' /\
    compaction cs' = compaction cs /\ smallestsnapshot cs' = smallestsnapshot cs /\ length (outputs cs') = S (length (outputs cs)) /\
    ((ok s = false /\ builder cs' = None) \/ (ok s = true /\ writing cs' segs (Some []))).
Proof.
  intros (outs & Houts & Hb & Ho) Hq [N1 N2 N3 N4] H0' Hbd Hpend. unfold OpenCompactionOutputFile. rewrite Hb.
  set (n := vs_nextfilenumber (db_vs d)) in *.
  change (NewFileNumber (db_vs d)) with (n, set_next (u64 (n + 1)) (db_vs d)). rewrite u64_small by lia. cbv beta iota zeta.
  rewrite TableFileName_Some by lia. cbn [mbind option_bind].
  set (d1 := set_pendingoutputs (set_insert Z.ltb n (db_pending d)) (set_versions (set_next (n + 1) (db_vs d)) (db_tables d) (db_env d) d)).
  assert (forall env, quiet (set_versions (db_vs d1) (db_tables d1) env d1)) as Hq1.
  { intros env. pose proof Hq as [K1 K2 K3 K4 K5]. unfold d1. split; cbn [db_imm db_tables db_vs db_pending set_versions set_pendingoutputs]; try done.
    - pose proof (db_files_next d (n + 1) (db_tables d) env K4 ltac:(lia)) as [F1 F2 F3 F4]. by split.
    - intros k [->|Hk]%set_insert_Z; cbn; [lia|]. specialize (K5 k Hk). fold n in K5. lia. }
  assert (forall env b, numbered n0 pend bound (set_outputs (outputs cs ++ [MkOutput n 0 [] [] None]) b (totalbytes cs) cs)
    (set_versions (db_vs d1) (db_tables d1) env d1)) as Hn1.
  { intros env b. unfold d1. split; cbn [outputs set_outputs db_vs db_pending set_versions set_pendingoutputs vs_nextfilenumber set_next].
    - rewrite map_app. apply NoDup_app. split; [done|]. split; [|apply NoDup_singleton].
      intros k (o & -> & Hk)%list_elem_of_fmap Hin%list_elem_of_singleton. specialize (N2 o Hk). cbn in Hin. lia.
    - intros o [Hin| ->%list_elem_of_singleton]%elem_of_app; cbn; [specialize (N2 o Hin); lia|lia].
    - intros k. rewrite set_insert_Z, N3, map_app, elem_of_app. cbn. rewrite list_elem_of_singleton. tauto.
    - rewrite length_app. cbn. lia. }
  change (db_env d1) with (db_env d). destruct (NewWritableFile (db_env d) _) as [[s [f|]] env] eqn:Hnew.
  - destruct (ok s) eqn:Hs; cbn [mbind option_bind].
    + eexists _, _, _. split; [done|]. split; [apply Hq1|]. split; [apply Hn1|]. split; [done|]. split; [done|].
      split; [by cbn; rewrite length_app, Nat.add_1_r|]. right. split; [done|]. exists outs. split; [done|].
      destruct (new_file_ok _ _ _ _ _ Hnew Hs) as [Hh Hc]. eexists _, _, f. split; [done|]. split; [cbn; by rewrite Ho|]. cbn. split; [lia|]. done.
    + eexists _, _, _. split; [done|]. split; [apply Hq1|]. split; [apply Hn1|]. split; [done|]. split; [done|].
      split; [by cbn; rewrite length_app, Nat.add_1_r|]. by left.
  - pose proof (Hcreate _ _ _ _ Hnew) as Hs. rewrite Hs.
    eexists _, _, _. split; [done|]. split; [apply Hq1|]. split; [apply Hn1|]. split; [done|]. split; [done|].
    split; [by cbn; rewrite length_app, Nat.add_1_r|]. by left.
Qed.

Lemma FinishCompactionOutputFile_ok n0 pend bound cs segs l d : writing cs segs (Some l) -> l <> [] -> table_fit l -> quiet d -> numbered n0 pend bound cs d ->
  exists s cs' d', FinishCompactionOutputFile (G := G) c compress compression addr cs OK d = Some (s, cs', d') /\ quiet d' /\ numbered n0 pend bound cs' d' /\
    compaction cs' = compaction cs /\ smallestsnapshot cs' = smallestsnapshot cs /\ length (outputs cs') = length (outputs cs) /\
    db_shuttingdown d' = db_shuttingdown d /\ db_bgerror d' = db_bgerror d /\ writing cs' (segs ++ [l]) None.
Proof.
  intros (outs & Houts & o & b & f & Hb & Ho & Hn & Hh & Hc & Ha & Hsm & Hla) Hne [Hs Hw] Hq Hnum.
  unfold FinishCompactionOutputFile. rewrite Hb. cbn [mbind option_bind]. unfold currentOutput. rewrite Ho, last_snoc. cbn [mbind option_bind].
  rewrite (proj2 (Z.eqb_neq _ _)) by lia. cbn [ok OK].
  destruct (table_built (c := icmp) (dom := internal_dom) (compress := compress) (length_of := length_of) (uncompress := uncompress)
    interval blocksize compression addr Hinterval f (map entry_of l) Hh Hc (entries_all_sorted l Hs) Hw) as
    (b1 & b' & blocks & idx & meta & ih & Hadd & Hfin & Hst & Hcl & Hhe & Hsz & Htf).
  rewrite Ha in Hadd. injection Hadd as <-. rewrite Hfin. cbn [mbind option_bind]. unfold status. rewrite Hst. cbn [ok OK].
  destruct (fsync_ok (tfile b') Hhe) as (f1 & -> & Hh1 & Hc1). cbn [ok OK]. destruct (fclose_ok f1 Hh1) as (f2 & -> & Hc2). cbn [ok OK].
  destruct (builder_after f l Hh Hc (conj Hs Hw)) as (b0 & Ha0 & _ & Hp). rewrite Ha in Ha0. injection Ha0 as <-.
  assert (exists x, hd_error l = Some x) as [x Hx] by (destruct l; [done|by eexists]).
  rewrite Hp, (proj2 (Z.ltb_lt _ _)) by (destruct l; [done|cbn; lia]). cbn [andb].
  set (cs' := set_outputs _ _ _ _). assert (writing cs' (segs ++ [l]) None) as Hwr.
  { exists (outs ++ [MkOutput (onumber o) (TableFormat.filesize b') (osmallest o) (olargest o) (Some f2)]). split.
    - apply Forall2_app; [done|]. constructor; [|done]. split; [done|].
      destruct (last l) as [y|] eqn:Hy; [|by apply last_None in Hy].
      exists f2, x, y. split; [done|]. split; [by exists blocks, idx, meta, ih; rewrite Hc2, Hc1|]. split; [cbn; by rewrite Hsz, Hc2, Hc1|].
      split; [done|]. split; [by apply Hsm|]. split; [done|by apply Hla].
    - unfold cs'. cbn [builder set_outputs outputs]. unfold set_current. by rewrite Ho, last_removelast. }
  assert (map onumber (outputs cs') = map onumber (outputs cs)) as Hm.
  { unfold cs'. cbn [outputs set_outputs]. unfold set_current. by rewrite Ho, last_removelast, !map_app. }
  assert (length (outputs cs') = length (outputs cs)) as Hlen by (by rewrite <- (length_map onumber), Hm, length_map).
  destruct (topen_total (db_tables d) (onumber o) (TableFormat.filesize b') (qu_tables _ Hq) Hn) as (s & t' & Ht & Hg). cbn [onumber]. rewrite Ht. cbn [mbind option_bind].
  eexists s, cs', _. split; [done|]. split; [by apply quiet_env|]. split; [by apply (numbered_map _ _ _ cs _ d)|]. split_and!; try done. by rewrite <- Ho.
Qed.

(** *** The loop *)

Context (comp : Compaction) (oldestseq : Z) (es : list ientry) (n0 bound : Z) (pend : list Z).
Hypothesis Hsmall : oldestseq < kMaxSequenceNumber.
Hypothesis Hfine : version_fine (ucmp := c) v.
Hypothesis Hlevel : 0 <= clevel comp.
Hypothesis Hgp : Forall (fun f => largest f <> []) (grandparents comp).
Hypothesis Hseq : Forall (fun e : ientry => 0 <= sequence e.1 <= kMaxSequenceNumber) es.
Hypothesis Hfresh : StronglySorted (fresher (ucmp := c)) es.
Hypothesis Hfit : table_fit es.
Hypothesis Hn0 : 0 < n0.
Hypothesis Hbound : bound + len es < 2 ^ 64 - 1.
Hypothesis Hpend : forall n, n ∈ pend -> n < n0.

Context {I : Type} `{HI : Iter I} {at_ : nat -> I -> Prop} {dom : bytes -> Prop}.
Hypothesis Hit : iter_refines icmp dom (map entry_of es) at_.

(** The other threads leave what the background thread relies on, and take file numbers
    only up to [bound]. *)
Context (others : DBState -> DBState).
Hypothesis Hothers : forall d, quiet d -> quiet (others d) /\ db_pending (others d) = db_pending d /\
  vs_nextfilenumber (db_vs d) <= vs_nextfilenumber (db_vs (others d)) <= Z.max bound (vs_nextfilenumber (db_vs d)).

Abbreviation base := (fun u => negb (deeper_has (ucmp := c) v (deeper_levels comp) u)).
Abbreviation keep := (kept c oldestseq base None).

Lemma others_numbered cs d : quiet d -> numbered n0 pend bound cs d -> numbered n0 pend bound cs (others d).
Proof.
  intros Hq [K1 K2 K3 K4]. destruct (Hothers d Hq) as (_ & Hp & Hn). split; rewrite ?Hp; try done; [|lia].
  intros o Ho. specialize (K2 o Ho). lia.
Qed.

Lemma kept_sublist bs l : forall prev, sublist (kept c oldestseq bs prev l) l.
Proof.
  induction l as [|e l IH]; intros prev; cbn [kept]; [constructor|].
  destruct (drops _ _ _ _ _); cbn [app]; [by apply sublist_cons|by apply sublist_skip].
Qed.

(** A stretch of what is kept fits a table. *)
Lemma segment_fit i a l : keep (take i es) = a ++ l -> table_fit l.
Proof.
  intros Hk. apply (sublist_fit es); [done|]. etrans; [apply (sublist_inserts_l a), reflexivity|].
  rewrite <- Hk. etrans; [apply kept_sublist|]. rewrite <- (take_drop i es) at 2. by apply sublist_inserts_r.
Qed.

(** At the top of a turn, [i] inputs have been read. *)
Record at_turn (i : nat) (cs : State) (sc : Scan) (it : I) (d : DBState) : Prop := {
  tn_iter : at_ i it;
  tn_quiet : quiet d;
  tn_numbered : numbered n0 pend bound cs d;
  tn_few : (length (outputs cs) <= i)%nat;
  tn_work : same_work comp (compaction cs);
  tn_smallest : smallestsnapshot cs = oldestseq;
  tn_scan : scanned (ucmp := c) (prev_of (take i es)) sc;
  tn_base e : es !! i = Some e -> working (ucmp := c) v comp (compaction cs) (userkey e.1);
  tn_written : exists segs cur, writing cs segs cur /\ cur <> Some [] /\ keep (take i es) = concat segs ++ default [] cur
}.

(** The loop has stopped, and no builder is open. *)
Record stopped (cs : State) (d : DBState) : Prop := {
  sp_quiet : quiet d;
  sp_numbered : numbered n0 pend bound cs d;
  sp_builder : builder cs = None
}.

Lemma input_entry i it e : at_ i it -> es !! i = Some e -> iterkey it = keyof e /\ itervalue it = e.2.
Proof. intros Hat He. apply (ir_entry _ _ _ _ Hit i it (keyof e, e.2) Hat). by rewrite list_lookup_fmap, He. Qed.

Lemma input_next i it e : at_ i it -> es !! i = Some e -> exists it', iterNext it = Some it' /\ at_ (S i) it'.
Proof. intros Hat He. apply (ir_next _ _ _ _ Hit i it Hat). rewrite length_map. by eapply lookup_lt_Some. Qed.

Abbreviation turn_ok i r := (exists turn, r = Some turn /\
  match turn with
  | TurnNext cs sc it d => at_turn (S i) cs sc it d
  | TurnBreak s cs d => ok s = false /\ stopped cs d
  end).

(** Where an entry is added, and what comes of it. *)
Lemma keep_entry_ok i cs sc it d e segs cur : at_ i it -> es !! i = Some e -> quiet d -> numbered n0 pend bound cs d ->
  (length (outputs cs) <= i)%nat -> same_work comp (compaction cs) -> smallestsnapshot cs = oldestseq ->
  scanned (ucmp := c) (Some e.1) sc -> (forall e', es !! S i = Some e' -> working (ucmp := c) v comp (compaction cs) (userkey e'.1)) ->
  writing cs segs cur -> cur <> Some [] -> keep (take (S i) es) = (concat segs ++ default [] cur) ++ [e] ->
  turn_ok i (keep_entry (G := G) c compress interval blocksize compression addr dbname others cs sc it d).
Proof.
  intros Hat He Hq Hnum Hfew Hwork Hsm Hsc Hbase Hwr Hcur Hkeep.
  assert (exists s cs1 d1, match builder cs with Some _ => Some (OK, cs, d) | None => OpenCompactionOutputFile (G := G) dbname cs (others d) end = Some (s, cs1, d1) /\
    quiet d1 /\ numbered n0 pend bound cs1 d1 /\ compaction cs1 = compaction cs /\ smallestsnapshot cs1 = smallestsnapshot cs /\
    (length (outputs cs1) <= S i)%nat /\ ((ok s = false /\ builder cs1 = None) \/ (ok s = true /\ writing cs1 segs (Some (default [] cur)))))
    as (s & cs1 & d1 & Hopen & Hq1 & Hn1 & Hc1 & Hs1 & Hf1 & Hr).
  { destruct cur as [l|].
    - pose proof Hwr as (outs & _ & o & b & f & Hb & _). rewrite Hb. eexists _, _, _. split; [done|]. split_and!; try done; [lia|by right].
    - pose proof Hwr as (outs & _ & Hb & _). destruct (Hothers d Hq) as (Hqo & _).
      destruct (OpenCompactionOutputFile_ok n0 pend bound cs segs (others d) Hwr Hqo (others_numbered cs d Hq Hnum) Hn0) as
        (s & cs1 & d1 & Ho & Hq1 & Hn1 & Hc1 & Hs1 & Hl1 & Hr); [apply lookup_lt_Some in He; lia|done|].
      rewrite Hb. exists s, cs1, d1. split_and!; try done. lia. }
  unfold keep_entry. rewrite Hopen. cbn [mbind option_bind]. destruct Hr as [[Hs Hb]|[Hs Hw1]]; rewrite Hs; cbn [negb].
  { eexists. split; [done|]. split; [done|]. by split. }
  destruct (input_entry i it e Hat He) as [-> ->].
  assert (table_fit (default [] cur ++ [e])) as Hfit1 by (apply (segment_fit (S i) (concat segs)); by rewrite Hkeep, app_assoc).
  destruct (add_output_ok cs1 segs (default [] cur) e Hw1 Hfit1) as (cs2 & b & -> & Hw2 & Hb2 & Hc2 & Hs2 & Hm2). cbn [mbind option_bind].
  rewrite Hb2. cbn [mbind option_bind]. rewrite (ir_status _ _ _ _ Hit i it Hat).
  assert (numbered n0 pend bound cs2 d1) as Hn2 by (by apply (numbered_map _ _ _ cs1 _ d1)).
  assert (length (outputs cs2) = length (outputs cs1)) as Hl2 by (by rewrite <- (length_map onumber), Hm2, length_map).
  assert (default [] cur ++ [e] <> []) as Hne by (by destruct (default [] cur)).
  destruct (input_next i it e Hat He) as (it' & Hnext & Hat').
  assert (take (S i) es = take i es ++ [e]) as Htake by by apply take_S_r.
  assert (prev_of (take (S i) es) = Some e.1) as Hprev by (unfold prev_of; by rewrite Htake, last_snoc).
  destruct (maxoutputfilesize (compaction cs2) <=? TableFormat.filesize b).
  - destruct (FinishCompactionOutputFile_ok n0 pend bound cs2 segs _ d1 Hw2 Hne Hfit1 Hq1 Hn2) as
      (s3 & cs3 & d3 & -> & Hq3 & Hn3 & Hc3 & Hs3 & Hl3 & _ & _ & Hw3). cbn [mbind option_bind].
    destruct (ok s3) eqn:Hs3'; cbn [negb].
    + rewrite Hnext. cbn [mbind option_bind]. eexists. split; [done|]. split; try done; [lia|by rewrite Hc3, Hc2, Hc1|congruence|by rewrite Hprev|by rewrite Hc3, Hc2, Hc1|].
      exists (segs ++ [default [] cur ++ [e]]), None. split; [done|]. split; [done|].
      rewrite Hkeep, concat_app. cbn. by rewrite !app_nil_r, app_assoc.
    + eexists. split; [done|]. split; [done|]. split; try done. by destruct Hw3 as (? & _ & ? & _).
  - cbn [mbind option_bind ok OK negb]. rewrite Hnext. cbn [mbind option_bind]. eexists. split; [done|].
    split; try done; [lia|by rewrite Hc2, Hc1|congruence|by rewrite Hprev|by rewrite Hc2, Hc1|].
    exists segs, (Some (default [] cur ++ [e])). split; [done|]. split; [by intros [=]|]. cbn. by rewrite Hkeep, app_assoc.
Qed.

Lemma compact_turn_ok i cs sc it d e : at_turn i cs sc it d -> es !! i = Some e ->
  turn_ok i (compact_turn c taddr recordaddr (G := G) compress interval blocksize compression addr dbname maxfilesize others cs sc it d).
Proof.
  intros [Hat Hq Hnum Hfew Hwork Hsm Hsc Hbase (segs & cur & Hwr & Hcur & Hkeep)] He.
  unfold compact_turn, flush_first. rewrite (qu_imm _ Hq). cbn [mbind option_bind]. destruct (input_entry i it e Hat He) as [Hkey _]. rewrite Hkey.
  destruct (shouldStopBefore_total c maxfilesize (compaction cs) (keyof e)) as (stop & c1 & -> & Hc1 & Hptr).
  { by rewrite (sw_grandparents _ _ Hwork). }
  cbn [mbind option_bind]. set (cs1 := set_compaction c1 cs).
  assert (working (ucmp := c) v comp c1 (userkey e.1)) as Hw1.
  { destruct (Hbase e He) as [K1 K2 K3]. split; [by rewrite (sw_version _ _ Hc1)|by rewrite (sw_level _ _ Hc1)|by rewrite Hptr]. }
  assert (exists s cs2 d2, match builder cs1 with
      | Some _ => if stop then FinishCompactionOutputFile (G := G) c compress compression addr cs1 (iterstatus it) d else Some (OK, cs1, d)
      | None => Some (OK, cs1, d) end = Some (s, cs2, d2) /\ quiet d2 /\ numbered n0 pend bound cs2 d2 /\ compaction cs2 = c1 /\
      smallestsnapshot cs2 = oldestseq /\ length (outputs cs2) = length (outputs cs) /\
      ((ok s = false /\ builder cs2 = None) \/ (ok s = true /\ exists segs2 cur2, writing cs2 segs2 cur2 /\ cur2 <> Some [] /\
        keep (take i es) = concat segs2 ++ default [] cur2))) as (s & cs2 & d2 & -> & Hq2 & Hn2 & Hc2 & Hs2 & Hl2 & Hr).
  { assert (numbered n0 pend bound cs1 d) as Hn1 by by apply (numbered_map _ _ _ cs _ d).
    assert (exists s cs2 d2, Some (OK, cs1, d) = Some (s, cs2, d2) /\ quiet d2 /\ numbered n0 pend bound cs2 d2 /\ compaction cs2 = c1 /\
      smallestsnapshot cs2 = oldestseq /\ length (outputs cs2) = length (outputs cs) /\
      ((ok s = false /\ builder cs2 = None) \/ (ok s = true /\ exists segs2 cur2, writing cs2 segs2 cur2 /\ cur2 <> Some [] /\
        keep (take i es) = concat segs2 ++ default [] cur2))) as Hgo.
    { eexists _, _, _. split; [done|]. split_and!; try done. right. split; [done|]. by exists segs, cur. }
    destruct cur as [l|]; [|destruct Hwr as (outs & _ & Hb & _); change (builder cs1) with (builder cs); by rewrite Hb].
    pose proof Hwr as (outs & _ & o & b & f & Hb & _). change (builder cs1) with (builder cs). rewrite Hb. destruct stop; [|done]. clear Hgo.
    rewrite (ir_status _ _ _ _ Hit i it Hat).
    assert (l <> []) as Hne by (intros ->; by apply Hcur).
    destruct (FinishCompactionOutputFile_ok n0 pend bound cs1 segs l d Hwr Hne (segment_fit i (concat segs) l Hkeep) Hq Hn1) as
      (s & cs2 & d2 & -> & Hq2 & Hn2 & Hc2 & Hs2 & Hl2 & _ & _ & Hw2).
    exists s, cs2, d2. split; [done|]. do 2 (split; [done|]). split; [done|]. split; [by rewrite Hs2|]. split; [done|].
    destruct (ok s); [right; split; [done|]|left; split; [done|by destruct Hw2 as (? & _ & ? & _)]].
    exists (segs ++ [l]), None. split; [done|]. split; [done|]. rewrite Hkeep, concat_app. cbn. by rewrite !app_nil_r. }
  cbn [mbind option_bind]. destruct Hr as [[Hs Hb]|(Hs & segs2 & cur2 & Hwr2 & Hcur2 & Hkeep2)]; rewrite Hs; cbn [negb].
  { eexists. split; [done|]. split; [done|]. by split. }
  rewrite Hc2, Hs2. assert (0 <= sequence e.1 <= kMaxSequenceNumber) as Hse.
  { rewrite Forall_forall in Hseq. apply Hseq. by eapply list_elem_of_lookup_2. }
  destruct (drop_step_ok (ucmp := c) oldestseq Hsmall v comp Hfine Hlevel c1 sc (prev_of (take i es)) e Hse Hsc Hw1) as (c3 & sc3 & Hd & Hsc3 & Hw3).
  rewrite Hd. cbn [mbind option_bind].
  assert (same_work comp c3) as Hwork3 by (eapply same_work_trans; [exact Hwork|]; eapply same_work_trans; [exact Hc1|]; by eapply drop_step_same).
  assert (forall e', es !! S i = Some e' -> working (ucmp := c) v comp c3 (userkey e'.1)) as Hbase3.
  { intros e' He'. apply (working_later _ _ _ (userkey e.1)); [|done]. apply fresher_user. by apply (sorted_lookup _ _ i (S i) e e' Hfresh); [lia|..]. }
  assert (take (S i) es = take i es ++ [e]) as Htake by by apply take_S_r.
  pose proof (kept_snoc c oldestseq base (take i es) e) as Hsnoc. rewrite <- Htake, Hkeep2 in Hsnoc.
  destruct (drops _ _ _ _ _) eqn:Hdrop.
  - destruct (input_next i it e Hat He) as (it' & -> & Hat'). cbn [mbind option_bind]. eexists. split; [done|].
    split; try done; [by apply (numbered_map _ _ _ cs2 _ d2)|cbn; lia| |].
    + unfold prev_of. by rewrite Htake, last_snoc.
    + exists segs2, cur2. split; [done|]. split; [done|]. by rewrite Hsnoc, app_nil_r.
  - apply (keep_entry_ok i (set_compaction c3 cs2) sc3 it d2 e segs2 cur2); try done; [by apply (numbered_map _ _ _ cs2 _ d2)|cbn; lia].
Qed.

(** The loop ends: with a status that is not [OK], or all inputs read, or shutting down. *)
Lemma compact_loop_ok fuel : forall i cs sc it d, at_turn i cs sc it d -> (length es < fuel + i)%nat ->
  exists s cs' it' d', compact_loop c taddr recordaddr (G := G) compress interval blocksize compression addr dbname maxfilesize others fuel cs sc it d =
      Some (s, cs', it', d') /\
    ((ok s = false /\ stopped cs' d') \/
     (s = OK /\ exists i' sc', at_turn i' cs' sc' it' d' /\ (i' = length es \/ db_shuttingdown d' = true))).
Proof.
  induction fuel as [|fuel IH]; intros i cs sc it d Ht Hf.
  { pose proof (ir_le _ _ _ _ Hit i it (tn_iter _ _ _ _ _ Ht)) as Hle. rewrite length_map in Hle. lia. }
  cbn [compact_loop]. assert (at_turn i cs sc it (others d)) as Ht'.
  { destruct Ht as [K1 K2 K3 K4 K5 K6 K7 K8 K9]. destruct (Hothers d K2) as (Hq & _). split; try done. by apply others_numbered. }
  clear Ht. rewrite (ir_valid _ _ _ _ Hit i it (tn_iter _ _ _ _ _ Ht')), length_map.
  destruct (Nat.ltb_spec i (length es)) as [Hi|Hi].
  2:{ cbn [andb]. eexists _, _, _, _. split; [done|]. right. split; [done|]. exists i, sc. split; [done|]. left.
      pose proof (ir_le _ _ _ _ Hit i it (tn_iter _ _ _ _ _ Ht')) as Hle. rewrite length_map in Hle. lia. }
  cbn [andb]. destruct (db_shuttingdown (others d)) eqn:Hsd; cbn [negb].
  { eexists _, _, _, _. split; [done|]. right. split; [done|]. exists i, sc. split; [done|by right]. }
  destruct (lookup_lt_is_Some_2 es i Hi) as [e He]. destruct (compact_turn_ok i cs sc it (others d) e Ht' He) as (turn & -> & Hr).
  cbn [mbind option_bind]. destruct turn as [cs1 sc1 it1 d1|s cs1 d1].
  - apply (IH (S i)); [done|lia].
  - destruct Hr as [Hs Hst]. eexists _, _, _, _. split; [done|]. left. done.
Qed.

(** *** The whole of the work *)

Context {serves : Z -> Z -> list ientry -> Prop} (dat : Z -> list ientry).
Abbreviation data := (fun f : file => dat (number f)).
Hypothesis Hvo : version_ok (ucmp := c) (serves := serves) v data.
Hypothesis Hc : compaction_ok (ucmp := c) v comp.
Hypothesis Hpo : pointers_only (cedit comp).
Hypothesis Hptr : levelptrs comp = replicate (Z.to_nat kNumLevels) 0%nat.
Hypothesis Hes : merged_inputs (ucmp := c) data comp es.
Hypothesis Hone : one_write_each v data.
Hypothesis Hsplit : keys_not_split (ucmp := c) v data comp.
Hypothesis Hroom : len (level_files v (clevel comp + 1)) + len es < 2 ^ 31.
Hypothesis Hold : forall L f, is_level L -> f ∈ level_files v L -> 0 < number f < n0.
Hypothesis Hlevels : forall L, kNumLevels <= L -> level_files v L = [].

(** The file that an output becomes. *)
Definition file_of_output (o : Output (F := F)) : file := FileMetaData_make (onumber o) (ofilesize o) (osmallest o) (olargest o).

Abbreviation files cs := (map file_of_output (outputs cs)).

(** The contents of the files, those of the outputs first. *)
Definition dat_outputs (outs : list (Output (F := F))) (segs : list (list ientry)) : Z -> list ientry :=
  foldr (fun p dat => dat_add dat p.2 (onumber p.1)) dat (zip outs segs).

Lemma dat_outputs_old outs segs n : n ∉ map onumber outs -> dat_outputs outs segs n = dat n.
Proof.
  unfold dat_outputs. revert segs. induction outs as [|o outs IH]; intros [|seg segs] Hn; cbn; try done. cbn in Hn. apply not_elem_of_cons in Hn as [Hne Hn].
  unfold dat_add at 1. rewrite (proj2 (Z.eqb_neq _ _)) by done. by apply IH.
Qed.

Lemma dat_outputs_new outs segs : NoDup (map onumber outs) -> length segs = length outs ->
  map (fun f => dat_outputs outs segs (number f)) (map file_of_output outs) = segs.
Proof.
  revert segs. induction outs as [|o outs IH]; intros [|seg segs] Hnd Hl; try done. cbn [map] in Hnd. apply NoDup_cons in Hnd as [Hn Hnd].
  cbn [map]. f_equal; [by unfold dat_outputs; cbn; unfold dat_add; rewrite Z.eqb_refl|].
  transitivity (map (fun f => dat_outputs outs segs (number f)) (map file_of_output outs)); [|apply IH; [done|by injection Hl]]. apply map_ext_in. intros f (o' & <- & Ho')%in_map_iff.
  unfold dat_outputs. cbn. unfold dat_add at 1. rewrite (proj2 (Z.eqb_neq _ _)); [done|]. intros Heq. apply Hn. rewrite <- Heq.
  apply list_elem_of_fmap_2. by apply list_elem_of_In.
Qed.

Section Extended.
Context (dat' : Z -> list ientry).
Abbreviation data' := (fun f : file => dat' (number f)).
Hypothesis Hagree : forall L f, is_level L -> f ∈ level_files v L -> dat' (number f) = dat (number f).

Lemma extended_ok : version_ok (ucmp := c) (serves := serves) v data'.
Proof.
  destruct Hvo as [K1 K2 K3 K4 K5]. split; [|done|done| |].
  - intros L f HL Hf. destruct (K1 L f HL Hf) as [M1 M2 M3 M4]. pose proof (Hagree L f HL Hf) as Ha. by split; cbn in *; rewrite ?Ha.
  - intros f g Hf Hg Hlt. pose proof (Hagree 0 f ltac:(done) Hf) as Ha. pose proof (Hagree 0 g ltac:(done) Hg) as Hb. cbn. rewrite Ha, Hb. by apply K4.
  - intros L L' f g HL HL' Hf Hg. pose proof (Hagree L f ltac:(unfold is_level; lia) Hf) as Ha. pose proof (Hagree L' g ltac:(unfold is_level; lia) Hg) as Hb.
    cbn. rewrite Ha, Hb. by apply (K5 L L').
Qed.

Lemma extended_in e : in_version v data' e <-> in_version v data e.
Proof. split; intros (L & f & HL & Hf & He); exists L, f; (do 2 (split; [done|])); cbn in *; [by rewrite <- (Hagree L f HL Hf)|by rewrite (Hagree L f HL Hf)]. Qed.

Lemma extended_input L f : is_input comp L f -> dat' (number f) = dat (number f).
Proof. intros Hi. destruct (input_level v comp Hc L f Hi) as [Hf HL]. by apply (Hagree L). Qed.

Lemma extended_merged : merged_inputs (ucmp := c) data' comp es.
Proof.
  destruct Hes as [K1 K2]. split; [|done]. intros e. rewrite K1. split; intros (L & f & Hi & He); exists L, f; (split; [done|]); cbn in *;
    [by rewrite (extended_input L f Hi)|by rewrite <- (extended_input L f Hi)].
Qed.

Lemma extended_one : one_write_each v data'.
Proof. intros e e' He%extended_in He'%extended_in. by apply Hone. Qed.

Lemma extended_split : keys_not_split (ucmp := c) v data' comp.
Proof.
  intros L f g e e' Hi Hg Hn He He'. destruct (co_level v comp Hc) as [Hlo Hhi]. cbn in He, He'. rewrite (extended_input L f Hi) in He.
  rewrite (Hagree (clevel comp + 1) g ltac:(unfold is_level; lia) Hg) in He'. by apply (Hsplit L f g e e').
Qed.

Lemma extended_result u s value st value' : get_result (ucmp := c) v data' u s value st value' <-> get_result (ucmp := c) v data u s value st value'.
Proof.
  unfold get_result, newest_in_version. split; (intros [(e & (He & Hv & Hm) & Ho)|(-> & -> & Hn)]; [left; exists e; split; [|done]|right]).
  - split; [by apply extended_in|]. split; [done|]. intros e' He'. apply Hm. by apply extended_in.
  - split; [done|]. split; [done|]. intros e He. apply Hn. by apply extended_in.
  - split; [by apply extended_in|]. split; [done|]. intros e' He'. apply Hm. by apply extended_in.
  - split; [done|]. split; [done|]. intros e He. apply Hn. by apply extended_in.
Qed.
End Extended.

(** No tables are read here: the order of the files is all that matters. *)
Definition any_table (num size : Z) (entries : list ientry) : Prop := True.
Definition no_source : TableSource unit := {| tget _ _ _ _ := None |}.

Lemma no_source_ok : TableSourceOk (H := no_source) unit c (fun _ => False) any_table.
Proof. by split. Qed.

Lemma any_version_ok dt : version_ok (ucmp := c) (serves := serves) v dt -> version_ok (ucmp := c) (serves := any_table) v dt.
Proof. intros [K1 K2 K3 K4 K5]. split; try done. intros L f HL Hf. by destruct (K1 L f HL Hf). Qed.

Lemma install_edit_files cs : install_edit cs = replace_edit (compaction cs) (files cs).
Proof.
  unfold install_edit, replace_edit. generalize (addInputDeletions (compaction cs) (cedit (compaction cs))) as e.
  generalize (clevel (compaction cs)) as L. intros L. induction (outputs cs) as [|o outs IH]; intros e; [done|]. cbn [fold_left map]. by rewrite IH.
Qed.

Lemma replace_edit_same c1 outs : same_work comp c1 -> replace_edit c1 outs = replace_edit comp outs.
Proof. intros [K1 _ K3 _ K5 K6 _]. unfold replace_edit, addInputDeletions. by rewrite K1, K3, K5, K6. Qed.

Lemma segs_of_outputs outs segs : Forall2 closed_as outs segs -> length outs = length segs.
Proof. apply Forall2_length. Qed.

(** A closed output as a file of the contents [dt]. *)
Lemma closed_output_ok (sv : Z -> Z -> list ientry -> Prop) dt o seg : closed_as o seg -> dt (onumber o) = seg -> sv (onumber o) (ofilesize o) seg ->
  output_ok (serves := sv) (fun f => dt (number f)) (file_of_output o).
Proof.
  intros (_ & f & a & b & _ & _ & _ & Ha & Hsa & Hb & Hlb) Hdt Hsv. split; cbn [number VersionEdit.filesize smallest largest file_of_output FileMetaData_make].
  - by rewrite Hdt.
  - exists a. by rewrite Hdt.
  - exists b. by rewrite Hdt.
Qed.

Lemma closed_outputs_ok (sv : Z -> Z -> list ientry -> Prop) outs segs : Forall2 closed_as outs segs -> NoDup (map onumber outs) ->
  (forall i o seg, outs !! i = Some o -> segs !! i = Some seg -> closed_as o seg -> sv (onumber o) (ofilesize o) seg) ->
  Forall (output_ok (serves := sv) (fun f => dat_outputs outs segs (number f))) (map file_of_output outs).
Proof.
  intros Ho Hnd Hsv. apply Forall_forall. intros f (o & -> & Hin)%list_elem_of_fmap. pose proof Hin as [i Hi]%list_elem_of_lookup.
  destruct (Forall2_lookup_l _ _ _ _ _ Ho Hi) as (seg & Hseg & Hcl).
  apply (closed_output_ok sv (dat_outputs outs segs) o seg Hcl); [|by apply (Hsv i)].
  pose proof (dat_outputs_new outs segs Hnd (eq_sym (segs_of_outputs _ _ Ho))) as Hm.
  apply (f_equal (lookup i)) in Hm. rewrite !list_lookup_fmap, Hi, Hseg in Hm. by injection Hm.
Qed.

Lemma closed_fits o seg : closed_as o seg -> table_fit seg ->
  file_fits (file_of_output o) /\ smallest (file_of_output o) <> [] /\ largest (file_of_output o) <> [].
Proof.
  intros (Hn & f & a & b & _ & (blocks & idx & meta & ih & Htf) & Hsz & Ha & Hsa & Hb & Hlb) [_ Hw].
  assert (forall e, e ∈ seg -> len (keyof e) < 2 ^ 32 /\ keyof e <> []) as Hk.
  { intros e He. pose proof (weight_elem (map entry_of seg) (entry_of e) ltac:(by apply list_elem_of_fmap_2)) as Hle. cbn [entry_of fst snd] in Hle.
    pose proof (length_AppendInternalKey e.1) as Hl. split; [lia|]. intros Hnil. rewrite Hnil in Hl. cbn in Hl. lia. }
  assert (a ∈ seg) as Hain by (destruct seg; [done|injection Ha as ->; left]).
  pose proof (last_Some_elem_of _ _ Hb) as Hbin. destruct (Hk a Hain), (Hk b Hbin). pose proof (tf_size _ _ _ _ _ _ Htf) as Hts.
  unfold file_fits, key_fits, file_of_output. cbn [number VersionEdit.filesize smallest largest FileMetaData_make]. rewrite Hsa, Hlb, Hsz. split_and!; try done; lia.
Qed.

Lemma segs_fit segs seg : concat segs = keep es -> seg ∈ segs -> table_fit seg.
Proof.
  intros Hk (s1 & s2 & ->)%list_elem_of_split. rewrite concat_app in Hk. cbn in Hk.
  apply (sublist_fit (seg ++ concat s2)); [|by apply sublist_inserts_r].
  apply (segment_fit (length es) (concat s1)). by rewrite take_ge.
Qed.

Lemma outputs_count cs segs : Forall2 closed_as (outputs cs) segs -> concat segs = keep es -> len (outputs cs) <= len es.
Proof.
  intros Ho Hk. pose proof (sublist_length _ _ (kept_sublist base es None)) as Hle. rewrite <- Hk in Hle.
  enough (length (outputs cs) <= length (concat segs))%nat by lia. clear -Ho.
  induction Ho as [|o seg outs segs (_ & f & a & _ & _ & _ & _ & Ha & _) Ho IH]; cbn; [lia|]. rewrite length_app. destruct seg; [done|cbn; lia].
Qed.

(** The version after the compaction: well formed, whatever the tables are. *)
Lemma outputs_version_ok (sv : Z -> Z -> list ientry -> Prop) {U : Type} {HS : TableSource U} {gd : U -> Prop} {HU : TableSourceOk U c gd sv} (v2 : Version) outs segs :
  version_ok (ucmp := c) (serves := sv) v (fun f => dat_outputs outs segs (number f)) ->
  Forall2 closed_as outs segs -> NoDup (map onumber outs) -> (forall o, o ∈ outs -> n0 <= onumber o) -> concat segs = keep es ->
  (forall i o seg, outs !! i = Some o -> segs !! i = Some seg -> closed_as o seg -> sv (onumber o) (ofilesize o) seg) ->
  replaced (ucmp := c) v v2 comp (map file_of_output outs) ->
  version_ok (ucmp := c) (serves := sv) v2 (fun f => dat_outputs outs segs (number f)) /\
  forall u s value st value', oldestseq <= s ->
    get_result (ucmp := c) v2 (fun f => dat_outputs outs segs (number f)) u s value st value' <-> get_result (ucmp := c) v data u s value st value'.
Proof.
  intros Hv' Ho Hnd Hfrom Hk Hsv Hrep.
  assert (forall L f, is_level L -> f ∈ level_files v L -> dat_outputs outs segs (number f) = dat (number f)) as Hagree.
  { intros L f HL Hf. apply dat_outputs_old. intros (o & Heq & Hin)%list_elem_of_fmap. specialize (Hold L f HL Hf). specialize (Hfrom o Hin). lia. }
  pose proof (dat_outputs_new outs segs Hnd (eq_sym (segs_of_outputs _ _ Ho))) as Hm.
  assert (concat (map (fun f => dat_outputs outs segs (number f)) (map file_of_output outs)) = keep es) as Hdata by (by rewrite Hm).
  pose proof (closed_outputs_ok sv outs segs Ho Hnd Hsv) as Houts. split.
  - by apply (new_version_ok v v2 _ comp oldestseq es _ Hv' Hc Hrep (extended_merged _ Hagree) (extended_one _ Hagree) (extended_split _ Hagree) Hsmall Houts Hdata).
  - intros u s value st value' Hs. rewrite <- (extended_result _ Hagree).
    by apply (same_answers v v2 _ comp oldestseq es _ Hv' Hc Hrep (extended_merged _ Hagree) (extended_one _ Hagree) (extended_split _ Hagree) Hsmall Houts Hdata).
Qed.

(** The outputs [outs] hold what is kept, and [d'] is [d] with the version that has them in
    the place of the inputs. *)
Record installed (outs : list (Output (F := F))) (d d' : DBState) : Prop := {
  in_state : exists vs, d' = set_versions vs (db_tables d) (db_env d) d;
  in_segs : exists segs, Forall2 closed_as outs segs /\ concat segs = keep es;
  in_version' : exists v2 v', replaced (ucmp := c) v v2 comp (map file_of_output outs) /\ current (db_vs d') = Some v' /\ same_version v2 v';
  in_files : exists e fr, db_files (c := c) d' (mes ++ [e]) (fragss ++ [fr]);
  in_next : vs_nextfilenumber (db_vs d') = vs_nextfilenumber (db_vs d);
  in_pointers : vs_lastsequence (db_vs d') = vs_lastsequence (db_vs d)
}.

Lemma InstallCompactionResults_ok cs d segs : quiet d -> numbered n0 pend bound cs d -> same_work comp (compaction cs) ->
  builder cs = None -> Forall2 closed_as (outputs cs) segs -> concat segs = keep es ->
  exists cs' d', InstallCompactionResults c taddr recordaddr (G := G) dbname cs d = Some (OK, cs', d') /\ outputs cs' = outputs cs /\ builder cs' = None /\
    installed (outputs cs) d d'.
Proof.
  intros Hq Hnum Hwork Hb Ho Hk. destruct (qu_version _ Hq) as (v1 & Hv1 & Hsame). pose proof (qu_files _ Hq) as [(w & Hw & Hwf & Hnums) (log & Hlog & Hmh) Hcnt Hlogs].
  rewrite Hv1 in Hw. injection Hw as <-. pose proof (nu_nodup _ _ _ _ _ Hnum) as Hnd. pose proof (nu_from _ _ _ _ _ Hnum) as Hfrom.
  assert (length (files cs) = length (outputs cs)) as Hfl by apply length_map.
  pose proof (outputs_count cs segs Ho Hk) as Hcount.
  destruct (with_outputs_replaces v comp (files cs) Hc Hlevels ltac:(lia)) as (v2 & Hrep & Hlen2).
  assert (forall L f, is_level L -> f ∈ level_files v L -> dat_outputs (outputs cs) segs (number f) = dat (number f)) as Hagree.
  { intros L f HL Hf. apply dat_outputs_old. intros (o & Heq & Hin)%list_elem_of_fmap. specialize (Hold L f HL Hf). specialize (Hfrom o Hin). lia. }
  pose proof (any_version_ok _ (extended_ok _ Hagree)) as Hvo'.
  destruct (outputs_version_ok any_table (HS := no_source) (HU := no_source_ok) v2 (outputs cs) segs Hvo' Ho Hnd) as [Hvo2 _];
    [intros o Hin; by apply Hfrom|done|done|done|].
  assert (forall L f o, is_level L -> f ∈ level_files v L -> o ∈ files cs -> number f <> number o) as Hfresh'.
  { intros L f o HL Hf (o' & -> & Hin)%list_elem_of_fmap Heq. specialize (Hold L f HL Hf). specialize (Hfrom o' Hin). cbn in Heq. lia. }
  destruct (install_outputs (E := E) (G := G) v comp (files cs) Hc v2 v1 (dat_outputs (outputs cs) segs) Hrep Hvo' Hvo2 Hwf Hsame Hfresh'
    taddr recordaddr dbname (db_vs d) (db_env d) mes fragss log)
    as (e & v' & log' & frags & cp & Hla & Hm' & Hwf' & Hsame'); try done.
  - apply Forall_forall. by intros f (o & -> & _)%list_elem_of_fmap.
  - apply Forall_forall. intros f (o & -> & Hin)%list_elem_of_fmap. pose proof Hin as [i Hi]%list_elem_of_lookup.
    destruct (Forall2_lookup_l _ _ _ _ _ Ho Hi) as (seg & Hseg & Hcl). apply (closed_fits o seg Hcl). apply (segs_fit segs); [done|by eapply list_elem_of_lookup_2].
  - rewrite map_map. exact Hnd.
  - intros L f HL Hf. specialize (Hold L f HL Hf). pose proof (nu_bound _ _ _ _ _ Hnum). destruct Hcnt as (Hcn & _). lia.
  - unfold InstallCompactionResults. rewrite install_edit_files, (replace_edit_same _ _ Hwork), Hla. cbn [mbind option_bind].
    eexists _, _. split; [done|]. split; [done|]. split; [done|]. split.
    + by eexists.
    + by exists segs.
    + exists v2, (Finalize v'). split; [done|]. cbn [db_vs set_versions]. unfold current. cbn [dummyversions]. rewrite last_snoc. split; [done|].
      intros L. rewrite level_files_Finalize. apply Hsame'.
    + exists e, frags. split; cbn [db_vs set_versions db_logfilenumber].
      * exists (Finalize v'). unfold current. cbn [dummyversions]. rewrite last_snoc. split; [done|]. split.
        { destruct Hwf' as [W1 W2 W3]. split; [by rewrite vfiles_Finalize|intros K; rewrite level_files_Finalize; auto..]. }
        intros L g HL Hg. rewrite level_files_Finalize in Hg. cbn. destruct (same_elem _ _ g (Hsame' L) Hg) as (h & Hh & Hn & _). rewrite <- Hn.
        apply (new_level_files v comp (files cs) Hc v2 (dat_outputs (outputs cs) segs) Hrep Hvo') in Hh; [|done]. destruct Hh as [[Hh _]|[_ (o & -> & Hin)%list_elem_of_fmap]].
        -- specialize (Hold L h HL Hh). pose proof (nu_bound _ _ _ _ _ Hnum). lia.
        -- specialize (Hfrom o Hin). cbn. lia.
      * by exists log'.
      * destruct Hcnt as (C1 & C2 & C3 & C4). unfold counters_fit. cbn. split_and!; lia.
      * cbn. exact Hlogs.
    + done.
    + done.
Qed.

(** No builder is left, or one that can be abandoned. *)
Definition leftover (cs : State) : Prop := match builder cs with Some b => closed b = false | None => True end.

Lemma writing_leftover cs segs cur i : writing cs segs cur -> keep (take i es) = concat segs ++ default [] cur -> leftover cs.
Proof.
  intros (outs & _ & Hw) Hk. unfold leftover. destruct cur as [l|]; [|by destruct Hw as [-> _]].
  destruct Hw as (o & b & f & -> & _ & _ & Hh & Hcn & Ha & _). destruct (builder_after f l Hh Hcn (segment_fit i (concat segs) l Hk)) as (b' & Ha' & Hcl & _).
  rewrite Ha in Ha'. by injection Ha' as <-.
Qed.

Lemma RecordBackgroundError_quiet s d : quiet d -> ok s = false -> quiet (RecordBackgroundError s d) /\ ok (db_bgerror (RecordBackgroundError s d)) = false /\
  db_pending (RecordBackgroundError s d) = db_pending d /\ db_vs (RecordBackgroundError s d) = db_vs d.
Proof.
  intros [K1 K2 K3 [F1 F2 F3 F4] K5] Hs. unfold RecordBackgroundError. destruct (ok (db_bgerror d)) eqn:Hb; [by split; [by split|]|].
  split; [by split|]. done.
Qed.

(** What [DoCompactionWork] leaves: nothing changed but the background error, or the
    outputs installed. *)
Definition work_done (s : Status) (cs : State) (d' : DBState) : Prop :=
  numbered n0 pend bound cs d' /\ leftover cs /\
  ((ok s = false /\ quiet d' /\ ok (db_bgerror d') = false) \/
   (s = OK /\ exists d1, quiet d1 /\ installed (outputs cs) d1 d')).

Lemma DoCompactionWork_ok snapshots (make_input : Compaction -> DBState -> option I) fuel d it0 j : quiet d -> vs_nextfilenumber (db_vs d) = n0 ->
  db_pending d = pend -> n0 <= bound ->
  (if snapshots_empty snapshots then Some (GetLastSequence (db_vs d)) else oldest snapshots) = Some oldestseq ->
  make_input comp d = Some it0 -> at_ j it0 -> (length es < fuel)%nat ->
  exists s cs d', DoCompactionWork c taddr recordaddr (G := G) compress interval blocksize compression addr dbname maxfilesize others snapshots make_input fuel
      (CompactionState_make comp) d = Some (s, cs, d') /\ work_done s cs d'.
Proof.
  intros Hq Hn Hp Hb Hsn Hmake Hj Hfuel. destruct (co_level v comp Hc) as [Hlo Hhi]. destruct (qu_version _ Hq) as (v1 & Hv1 & Hsame).
  unfold DoCompactionWork, NumLevelFiles. cbn [compaction CompactionState_make].
  rewrite (proj2 (andb_true_iff _ _)), Hv1 by (split; [apply Z.leb_le|apply Z.ltb_lt]; lia). cbn [mbind option_bind].
  assert (0 < len (level_files v1 (clevel comp))) as Hpos.
  { rewrite <- (Forall2_length _ _ _ (Hsame (clevel comp))). destruct (inputs0 comp) as [|f fs] eqn:Hi; [by destruct (co_some v comp Hc)|].
    pose proof (co_in0 v comp Hc f ltac:(rewrite Hi; left)) as Hf. destruct (level_files v (clevel comp)); [by apply not_elem_of_nil in Hf|cbn; lia]. }
  rewrite (proj2 (Z.ltb_lt _ _) Hpos). cbn [negb orb builder CompactionState_make]. rewrite bool_decide_eq_false_2 by (by intros [? ?]).
  rewrite Hsn. cbn [mbind option_bind].
  set (cs0 := set_smallestsnapshot oldestseq (CompactionState_make comp)). change (compaction cs0) with comp. rewrite Hmake.
  destruct (ir_first _ _ _ _ Hit j _ Hj) as (it & -> & Hat). cbn [mbind option_bind].
  assert (at_turn 0 cs0 Scan_make it d) as Ht0.
  { split; try done.
    - split; cbn; try (by intros ? ?%not_elem_of_nil); [constructor|intros k; rewrite Hp; split; [by left|by intros [?|?%not_elem_of_nil]]|lia].
    - intros e _. split; [by apply (co_version v comp Hc)|done|by apply pointers_fresh].
    - exists [], None. split; [|done]. exists []. done. }
  destruct (compact_loop_ok fuel 0 cs0 Scan_make it d Ht0 ltac:(lia)) as (s & cs1 & it1 & d1 & -> & Hr). cbn [mbind option_bind].
  assert (forall s2 cs2 d2, ok s2 = false -> quiet d2 -> numbered n0 pend bound cs2 d2 -> leftover cs2 -> work_done s2 cs2 (RecordBackgroundError s2 (others d2))) as Hfail.
  { intros s2 cs2 d2 Hs2 Hq2 Hn2 Hl2. destruct (Hothers d2 Hq2) as (Hqo & _). pose proof (others_numbered cs2 d2 Hq2 Hn2) as Hno.
    destruct (RecordBackgroundError_quiet s2 (others d2) Hqo Hs2) as (Hqr & Hbe & Hpe & Hvs). split; [|split; [done|by left]].
    by apply (numbered_map _ _ _ cs2 _ (others d2)); rewrite ?Hvs. }
  assert (forall cs2 d2, builder cs2 = None -> quiet d2 -> numbered n0 pend bound cs2 d2 -> same_work comp (compaction cs2) ->
    (exists segs, Forall2 closed_as (outputs cs2) segs /\ concat segs = keep es) ->
    exists s3 cs3 d3, (let? (s, cs, d) := InstallCompactionResults c taddr recordaddr (G := G) dbname cs2 (others d2) in Some (s, cs, if ok s then d else RecordBackgroundError s d)) =
      Some (s3, cs3, d3) /\ work_done s3 cs3 d3) as Hinstall.
  { intros cs2 d2 Hb2 Hq2 Hn2 Hw2 (segs & Ho & Hk). destruct (Hothers d2 Hq2) as (Hqo & _). pose proof (others_numbered cs2 d2 Hq2 Hn2) as Hno.
    destruct (InstallCompactionResults_ok cs2 (others d2) segs Hqo Hno Hw2 Hb2 Ho Hk) as (cs3 & d3 & -> & Ho3 & Hb3 & Hin). cbn [mbind option_bind ok OK].
    eexists _, _, _. split; [done|]. split; [|split; [unfold leftover; by rewrite Hb3|right; split; [done|]; exists (others d2); split; [done|by rewrite Ho3]]].
    pose proof (in_state _ _ _ Hin) as [vs ->]. pose proof (in_next _ _ _ Hin) as Hnx. by apply (numbered_map _ _ _ cs2 _ (others d2)); rewrite ?Ho3. }
  destruct Hr as [(Hs & [Hq1 Hn1 Hb1])|(-> & i & sc & [Hat1 Hq1 Hn1 Hf1 Hw1 Hs1 _ _ (segs & cur & Hwr & Hcur & Hk)] & Hend)].
  { rewrite Hs, Hb1. cbn [andb mbind option_bind]. rewrite Hs. cbn [mbind option_bind]. rewrite Hs. eexists _, _, _. split; [done|].
    rewrite ?Hs. apply Hfail; try done. unfold leftover. by rewrite Hb1. }
  cbn [ok OK andb]. pose proof (writing_leftover cs1 segs cur i Hwr Hk) as Hleft. destruct (db_shuttingdown d1) eqn:Hsd.
  { change (ok (IOError _ _)) with false. cbn [andb]. 
    replace (match builder cs1 with Some _ => _ | None => _ end) with (Some (IOError (str "Deleting DB during compaction" ++ [x0a]) [], cs1, d1)) by (by destruct (builder cs1)).
    cbn [mbind option_bind]. eexists _, _, _. split; [done|]. by apply Hfail. }
  destruct Hend as [->|?]; [|done]. rewrite take_ge in Hk by done. cbn [ok OK].
  assert (iterstatus it1 = OK) as Hst by by apply (ir_status _ _ _ _ Hit (length es)).
  destruct cur as [l|].
  - pose proof Hwr as (outs & _ & o & b & f & Hbb & _). rewrite ?Hsd. cbn [andb]. rewrite Hbb, Hst.
    assert (l <> []) as Hne by (intros ->; by apply Hcur).
    assert (table_fit l) as Hlf by (apply (segment_fit (length es) (concat segs)); by rewrite take_ge).
    destruct (FinishCompactionOutputFile_ok n0 pend bound cs1 segs l d1 Hwr Hne Hlf Hq1 Hn1) as (s2 & cs2 & d2 & -> & Hq2 & Hn2 & Hc2 & _ & _ & _ & _ & Hw2).
    cbn [mbind option_bind]. destruct Hw2 as (outs2 & Ho2 & Hb2 & Hou2). destruct (ok s2) eqn:Hs2.
    + cbn [ok OK]. apply Hinstall; [done|done|done|by rewrite Hc2|]. exists (segs ++ [l]). split; [by rewrite Hou2|]. rewrite Hk, concat_app. cbn. by rewrite app_nil_r.
    + cbn [mbind option_bind]. rewrite Hs2. cbn [mbind option_bind]. rewrite ?Hs2. eexists _, _, _. split; [done|]. rewrite ?Hs2. apply Hfail; try done. unfold leftover. by rewrite Hb2.
  - destruct Hwr as (outs & Ho & Hbb & Hou). rewrite ?Hsd. cbn [andb]. rewrite Hbb. cbn [mbind option_bind ok OK]. rewrite Hst. cbn [ok OK].
    apply Hinstall; [done|done|done|done|]. exists segs. split; [by rewrite Hou|]. by rewrite Hk, app_nil_r.
Qed.

(** *** Cleaning up *)

Lemma erase_outputs_ok outs : forall d : DBState, NoDup (map onumber outs) -> (forall o, o ∈ outs -> onumber o ∈ db_pending d) ->
  exists pending, erase_outputs outs d = Some (set_pendingoutputs pending d) /\
    forall n, n ∈ pending <-> n ∈ db_pending d /\ n ∉ map onumber outs.
Proof.
  induction outs as [|o outs IH]; intros d Hnd Hin; cbn [erase_outputs map].
  { exists (db_pending d). split; [by destruct d|]. intros n. split; [intros ?; split; [done|by intros ?%not_elem_of_nil]|by intros [? _]]. }
  cbn [map] in Hnd. apply NoDup_cons in Hnd as [Ho Hnd]. rewrite bool_decide_eq_true_2 by (apply Hin; left).
  destruct (IH (set_pendingoutputs (filter (fun n => n <> onumber o) (db_pending d)) d) Hnd) as (pending & -> & Hp).
  - intros o' Ho'. apply list_elem_of_filter. split; [|apply Hin; by right]. intros Heq. apply Ho. rewrite <- Heq. by apply list_elem_of_fmap_2.
  - exists pending. split; [by destruct d|]. intros n. rewrite Hp. cbn [db_pending set_pendingoutputs]. rewrite list_elem_of_filter, not_elem_of_cons. tauto.
Qed.

Lemma CleanupCompaction_ok cs d : leftover cs -> numbered n0 pend bound cs d ->
  exists pending, CleanupCompaction cs d = Some (set_pendingoutputs pending d) /\ forall n, n ∈ pending <-> n ∈ pend.
Proof.
  intros Hl [N1 N2 N3 N4]. destruct (erase_outputs_ok (outputs cs) d N1) as (pending & He & Hp).
  { intros o Ho. apply N3. right. by apply list_elem_of_fmap_2. }
  exists pending. split.
  - unfold CleanupCompaction, leftover in *. destruct (builder cs) as [b|]; [|done]. unfold Abandon. rewrite Hl. done.
  - intros n. rewrite Hp, N3. split; [by intros [[?|?] ?]|]. intros Hn. split; [by left|]. intros (o & -> & Ho)%list_elem_of_fmap.
    specialize (N2 o Ho). specialize (Hpend _ Hn). lia.
Qed.

(** The answers of the version installed, when every table that was closed can be opened to
    what was written. *)
Lemma installed_answers {HTs : TableSource T} {HT : TableSourceOk T c good serves} {opens_to : Z -> bytes -> Prop}
    {HO : TableOpenerOk T c good serves finished opens_to} cs d d' :
  installed (outputs cs) d d' -> good (db_tables d) -> numbered n0 pend bound cs d' ->
  (forall o f, o ∈ outputs cs -> ofile o = Some f -> opens_to (onumber o) (contents f)) ->
  exists dat' v', current (db_vs d') = Some v' /\ version_ok (ucmp := c) (serves := serves) v' (fun f => dat' (number f)) /\
    forall u s value st value', oldestseq <= s ->
      get_result (ucmp := c) v' (fun f => dat' (number f)) u s value st value' <-> get_result (ucmp := c) v data u s value st value'.
Proof.
  intros [_ (segs & Ho & Hk) (v2 & v' & Hrep & Hcur & Hsame) _ _ _] Hg Hnum Hopen. pose proof (nu_from _ _ _ _ _ Hnum) as Hfrom.
  assert (forall L f, is_level L -> f ∈ level_files v L -> dat_outputs (outputs cs) segs (number f) = dat (number f)) as Hagree.
  { intros L f HL Hf. apply dat_outputs_old. intros (o & Heq & Hin)%list_elem_of_fmap. specialize (Hold L f HL Hf). specialize (Hfrom o Hin). lia. }
  assert (forall i o seg, outputs cs !! i = Some o -> segs !! i = Some seg -> closed_as o seg -> serves (onumber o) (ofilesize o) seg) as Hserves.
  { intros i o seg Hi Hseg%list_elem_of_lookup_2 (Hn & f & a & b & Hf & Hfin & Hsz & _). rewrite Hsz.
    pose proof (segs_fit segs seg Hk Hseg) as [Hs _]. apply list_elem_of_lookup_2 in Hi.
    destruct (topen_ok (TableOpenerOk := HO) (db_tables d) (onumber o) seg (contents f) Hg Hn (Hopen o f Hi Hf) Hfin Hs) as [Hse _]; [|done].
    apply Forall_forall. intros e He. rewrite Forall_forall in Hseq. apply Hseq. apply (kept_in (ucmp := c) oldestseq base None).
    rewrite <- Hk. apply list_elem_of_In, in_concat. exists seg. by rewrite <- !list_elem_of_In. }
  exists (dat_outputs (outputs cs) segs), v'. split; [done|].
  destruct (outputs_version_ok serves v2 (outputs cs) segs (extended_ok _ Hagree) Ho (nu_nodup _ _ _ _ _ Hnum)) as [Hv2 Hans];
    [intros o Hin; by apply Hfrom|done|done|done|].
  split; [by apply (same_version_ok _ v2)|]. intros u s value st value' Hs. rewrite <- (Hans u s value st value' Hs).
  split; apply get_result_same; [intros l; by apply same_sym|done].
Qed.
End Running.

(** ** A compaction from beginning to end *)

Section Compacting.
Context {c : Comparator} {Hok : ComparatorOk c (fun _ => True)} {Hshort : ComparatorShort (InternalKeyComparator c) internal_dom}.
Context {E F G : Type} `{FileEnv E F G} `{AppendFileOk F} {HE : FileEnvOk E F G} `{ReadFile G}.
Context {compress : bytes -> option bytes} {length_of : bytes -> option Z} {uncompress : bytes -> option bytes}.
Context {Hsnappy : SnappyOk compress length_of uncompress}.
Context {T : Type} `{TableSource T} {good : T -> Prop} {serves : Z -> Z -> list ientry -> Prop} {HT : TableSourceOk T c good serves}.
Context `{TableOpener T} {opens_to : Z -> bytes -> Prop} {Htotal : TableOpenerTotal T good}
  {HO : TableOpenerOk T c good serves (finished (c := c) (length_of := length_of) (uncompress := uncompress)) opens_to}.
Context (taddr recordaddr interval blocksize : Z) (compression : CompressionType) (addr : Z) (dbname : bytes) (maxfilesize : Z).
Hypothesis Hinterval : 1 <= interval.
Hypothesis Hcreate : forall env name s env', NewWritableFile (F := F) (G := G) env name = (s, None, env') -> ok s = false.

Context {I : Type} `{HI : Iter I} `{FileIterators I} {HF : FileIteratorsOk I c serves} (levelfuel : nat).

Abbreviation DBState := (DB (E := E) (F := F) (T := T)).
#[local] Instance input_iter : Iter (Merged (I := Child (I := I))) :=
  Merged_iter (H := Child_iter c levelfuel) (InternalKeyComparator c).

(** A compaction of [v] as [PickCompaction] or [CompactRange] makes it, and the merged
    entries [es] of its inputs. *)
Record compactable (dat : Z -> list ientry) (v : Version) (comp : Compaction) (es : list ientry) : Prop := {
  cp_version : version_ok (ucmp := c) (serves := serves) v (fun f => dat (number f));
  cp_sound : compaction_ok (ucmp := c) v comp;
  cp_edit : pointers_only (cedit comp);
  cp_pointers : levelptrs comp = replicate (Z.to_nat kNumLevels) 0%nat;
  cp_grandparents : Forall (fun f => largest f <> []) (grandparents comp);
  cp_inputs : merged_inputs (ucmp := c) (fun f => dat (number f)) comp es;
  cp_one : one_write_each v (fun f => dat (number f));
  cp_split : keys_not_split (ucmp := c) v (fun f => dat (number f)) comp;
  cp_size : weight (map entry_of es) + 300 < 2 ^ 32;
  cp_room : len (level_files v (clevel comp + 1)) + len es < 2 ^ 31
}.

(** The other threads leave what the background thread relies on, and take file numbers
    only up to [bound]. *)
Definition unobtrusive v mes fragss (bound : Z) (others : DBState -> DBState) : Prop :=
  forall d, quiet (c := c) (good := good) v mes fragss d ->
    quiet (c := c) (good := good) v mes fragss (others d) /\ db_pending (others d) = db_pending d /\
    vs_nextfilenumber (db_vs d) <= vs_nextfilenumber (db_vs (others d)) <= Z.max bound (vs_nextfilenumber (db_vs d)).

Lemma compactable_fit dat v comp es : compactable dat v comp es -> table_fit (c := c) es.
Proof.
  intros Hcp. split; [|apply Hcp]. pose proof (es_seq (ucmp := c) v (fun f => dat (number f)) comp es (cp_version _ _ _ _ Hcp) (cp_sound _ _ _ _ Hcp) (cp_inputs _ _ _ _ Hcp)) as Hseq.
  pose proof (mi_sorted _ _ _ (cp_inputs _ _ _ _ Hcp)) as Hs. rewrite Forall_forall in Hseq.
  apply (StronglySorted_map_in (fun a b : ientry => entry_compare c a.1 b.1 = Lt)); [|done].
  intros a b Ha Hb Hab. unfold key_lt, entry_of. cbn [fst Compare InternalKeyComparator]. rewrite Internal_Compare_Append; [done|by apply Hseq..].
Qed.

Lemma quiet_old v mes fragss (d : DBState) : quiet (c := c) (good := good) v mes fragss d ->
  (forall L f, is_level L -> f ∈ level_files v L -> 0 < number f < vs_nextfilenumber (db_vs d)) /\ (forall L, kNumLevels <= L -> level_files v L = []).
Proof.
  intros Hq. destruct (qu_version _ _ _ _ Hq) as (v1 & Hv1 & Hsame). destruct (df_version _ _ _ (qu_files _ _ _ _ Hq)) as (w & Hw & Hwf & Hn).
  rewrite Hv1 in Hw. injection Hw as <-. split.
  - intros L f HL Hf. destruct (same_elem _ _ f (same_sym _ _ (Hsame L)) Hf) as (g & Hg & <- & _). by apply (Hn L g).
  - intros L HL. pose proof (no_level v1 L (wf_levels _ Hwf) HL) as Hnil. pose proof (Hsame L) as Hs. rewrite Hnil in Hs. by apply Forall2_nil_inv_r in Hs.
Qed.

(** The input of a compaction. *)
Definition make_input (comp : Compaction) (d : DBState) : option (Merged (I := Child (I := I))) :=
  MakeInputIterator c levelfuel comp.

Lemma made_input dat v comp es : compactable dat v comp es -> (forall level, (length (level_files v level) + 2 <= levelfuel)%nat) ->
  exists it, (forall d, make_input comp d = Some it) /\
    walks (InternalKeyComparator c) seekable (map entry_of es) (length es) it.
Proof.
  intros Hcp Hlevel. unfold make_input.
  destruct (MakeInputIterator_ok levelfuel dat v (cp_version _ _ _ _ Hcp) Hlevel comp es (cp_sound _ _ _ _ Hcp) (cp_inputs _ _ _ _ Hcp)) as (it & Hm & Hw); [|by exists it].
  pose proof (cp_size _ _ _ _ Hcp) as Hw. clear -Hw. induction es as [|e es IH]; [constructor|].
  cbn [map weight foldr] in Hw. pose proof (weight_nonneg (map entry_of es)) as Hn. unfold weight in Hn, Hw. constructor; [|apply IH; unfold weight; lia].
  unfold entry_of in Hw at 1 2. cbn [fst] in Hw. lia.
Qed.

End Compacting.

(** ** The table cache can be asked to open any file *)

Section CacheTotal.
Context {length_of : bytes -> option Z} {uncompress : bytes -> option bytes}.
Context {G : Type} `{RandomFileOk G} (addr : Z) (paranoid : bool) (dbname : bytes).
Context (open_file : bytes -> Status * option G).
Context {C : Type} `{CacheOk C (Table G) cvalid} {K : Type} `{CacheOk K Block kvalid}.
Context (fuel : nat) (options : ReadOptions).

(** The disk gives a file or says why not, and a file is a table in its full length only. *)
Hypothesis Hopens : forall name s, open_file name = (s, None) -> ok s = false.
Hypothesis Hlength : forall name g size s t, open_file name = (OK, Some g) ->
  Table_Open length_of uncompress addr paranoid g size = (s, Some t) -> size = len (rcontents g).

Abbreviation cgood := (cache_good (length_of := length_of) (uncompress := uncompress) (cvalid := cvalid) (kvalid := kvalid) addr paranoid dbname open_file).

Lemma Table_Open_status (g : G) size s t : Table_Open length_of uncompress addr paranoid g size = (s, t) ->
  (ok s = true /\ exists t', t = Some t') \/ (ok s = false /\ t = None).
Proof.
  unfold Table_Open. intros Ho. repeat case_match; simplify_eq; (try (left; split; [done|by eexists])); right; (split; [|done]);
    try done; by apply negb_true_iff.
Qed.

Lemma FindTable_total num size tc : cgood tc -> 0 < num < 2 ^ 64 ->
  exists s t tc', FindTable length_of uncompress addr paranoid dbname open_file num size tc = Some (s, t, tc') /\ cgood tc' /\
    (ok s = true -> is_Some t).
Proof.
  intros Hg Hn. unfold FindTable. destruct (clookup (tcache tc) (EncodeFixed64 num)) as [t|] eqn:Hl.
  { by exists OK, (Some t), tc. }
  pose proof (TableFileName_Some dbname num ltac:(lia)) as Hname. rewrite Hname. cbn [mbind option_bind].
  destruct (open_file _) as [s og] eqn:Ho. destruct (ok s) eqn:Hs; [|cbn [mbind option_bind]; rewrite Hs; exists s, None, tc; by rewrite Hs].
  destruct og as [g|]; [|by rewrite (Hopens _ _ Ho) in Hs]. cbn [mbind option_bind].
  assert (s = OK) as -> by (by destruct s).
  destruct (Table_Open _ _ _ _ g size) as [s2 ot] eqn:Ht. destruct (Table_Open_status _ _ _ _ Ht) as [[Hs2 (t & ->)]|[Hs2 ->]]; rewrite Hs2; cbn [negb mbind option_bind].
  - destruct (cinsert_ok (tcache tc) (EncodeFixed64 num) t 1 (cg_valid _ _ _ _ _ Hg) (length_EncodeFixed64 _) ltac:(lia) Hl) as (c' & -> & Hv & Hnew).
    eexists _, _, _. split; [done|]. split; [|done]. split; [done| |apply Hg..]. intros num' t' Hnum' Hl'.
    destruct (Hnew _ _ (length_EncodeFixed64 _) Hl') as [[He ->]|Hold]; [|by apply (cg_tables _ _ _ _ _ Hg)].
    apply EncodeFixed64_inj in He as ->; [|lia..]. assert (s2 = OK) as -> by (by destruct s2).
    eexists _, g. split; [exact Hname|]. split; [done|]. by rewrite <- (Hlength _ _ _ _ _ Ho Ht).
  - exists s2, None, tc. split; [done|]. split; [done|]. by rewrite Hs2.
Qed.

#[export] Instance cache_opener_total :
  TableOpenerTotal (H := opener_here (length_of := length_of) (uncompress := uncompress) addr paranoid dbname open_file fuel options)
    (TableCache C K) cgood.
Proof.
  split. intros tc num size Hg Hn. cbn [topen opener_here cache_opener]. unfold cache_NewIterator.
  destruct (FindTable_total num size tc Hg Hn) as (s & t & tc1 & -> & Hg1 & Hs). cbn [mbind option_bind].
  destruct (ok s); [|by exists s, tc1]. destruct (Hs eq_refl) as [tb ->]. cbn [negb mbind option_bind].
  destruct (Table_NewIterator _ tb _) as [ti|] eqn:Hni; [|by unfold Table_NewIterator, TwoLevelIterator_make, Set_iter, Update in Hni].
  cbn [mbind option_bind]. rewrite (new_iterator_forgets _ _ _ _ Hni). cbn [mbind option_bind].
  destruct (forget_ok addr paranoid dbname open_file tc1 num crelease crelease_ok Hg1) as (c' & Hr & Hg2 & _).
  unfold UnrefEntry. cbn [tcache]. rewrite Hr. cbn [mbind option_bind]. by eexists _, (MkTableCache c' (blockcache tc1)).
Qed.
End CacheTotal.

(** ** A concrete compaction, through the table cache *)

#[local] Existing Instances flush_append flush_append_ok flush_read flush_env flush_env_ok flush_random flush_random_ok flush_tables flush_tables_ok
  flush_block_cache flush_blocks_ok work_source work_opener work_iterators work_iter.
#[local] Instance work_input_iter : Iter (Merged (I := Child (I := FileIterator (G := MmapFile)))) := input_iter (c := BytewiseComparatorImpl) 3.

Abbreviation work_run := (DoCompactionWork BytewiseComparatorImpl 0 0 (G := SequentialFile) run_compress 2 16 kNoCompression 0 (str "/db") 2097152
  (fun d => d) [] (make_input (c := BytewiseComparatorImpl) (I := FileIterator (G := MmapFile)) 3) 3 (CompactionState_make work_compaction) work_db).

Example work_runs : (let? (s, cs, d) := work_run in
   let? v := current (db_vs d) in
   Some (s, map (fun o => (onumber o, ofilesize o =? len (work_table work_new))) (outputs cs), map (map number) (vfiles v))) =
  Some (OK, [(6, true)], [[]; [6]; []; []; []; []; []]).
Proof. vm_compute. reflexivity. Qed.

Lemma work_compactable : compactable (serves := work_serves) (c := BytewiseComparatorImpl) work_dat work_version work_compaction work_merged.
Proof.
  split.
  - exact work_version_ok.
  - exact work_compaction_ok.
  - split; [done..| |by constructor]. repeat constructor; by vm_compute.
  - done.
  - constructor.
  - exact work_merged_ok.
  - intros e e' (level & f & Hl & Hf & He) (level' & f' & Hl' & Hf' & He') Hs.
    apply work_level in Hf as [[-> ->]|[-> ->]]; [..|done]; apply work_level in Hf' as [[-> ->]|[-> ->]]; try done;
      apply list_elem_of_singleton in He as ->; apply list_elem_of_singleton in He' as ->; done.
  - intros L f g e e' _ ->%list_elem_of_singleton []. left.
  - by vm_compute.
  - by vm_compute.
Qed.

Lemma work_single L : is_level L -> level_files work_version L = [] \/ exists f, level_files work_version L = [f].
Proof.
  intros HL. assert (L = 0 \/ L = 1 \/ L = 2 \/ L = 3 \/ L = 4 \/ L = 5 \/ L = 6) as [->|[->|[->|[->|[->|[->| ->]]]]]]
    by (unfold is_level, kNumLevels in HL; lia); ((by left) || (right; by eexists)).
Qed.

Lemma work_quiet : quiet (c := BytewiseComparatorImpl) (good := work_good) work_version [] [] work_db.
Proof.
  split.
  - done.
  - apply fresh_cache_good.
  - exists work_version. split; [done|]. intros l. apply same_refl.
  - split.
    + exists work_version. split; [done|]. split; [|intros L g HL [[_ ->]|[_ ->]]%work_level; by try vm_compute]. split; [done|intros L HL..].
      * destruct (work_single L HL) as [-> |[f ->]]; repeat constructor.
      * destruct (work_single L HL) as [-> |[f ->]]; by intros [|i] a b.
    + eexists. split; [done|]. apply manifest_make; [constructor|done].
    + vm_compute. intuition discriminate.
    + by vm_compute.
  - intros n Hn. by apply not_elem_of_nil in Hn.
Qed.

Lemma work_opens name s : work_disk name = (s, None) -> ok s = false.
Proof. done. Qed.

Lemma work_length name g size s t : work_disk name = (OK, Some g) -> Table_Open run_length run_uncompress 0 true g size = (s, Some t) ->
  size = len (rcontents g).
Proof. intros [= <-] Ho. eapply work_full; [|exact Ho]. case_bool_decide; [right; left|left]. Qed.

Lemma work_creates env name s env' : NewWritableFile (FileEnv := flush_env) (F := WritableFile) (G := SequentialFile) env name = (s, None, env') -> ok s = false.
Proof. done. Qed.

(** The number and the bytes of an output. *)
Definition work_closed (o : Output (F := WritableFile)) : Z * option bytes := (onumber o, contents <$> ofile o).

Lemma work_answer : get_result (ucmp := BytewiseComparatorImpl) work_version work_data (str "ant") 9 [] OK (str "new").
Proof.
  left. exists work_new. split; [|done]. split; [exists 0, (work_file 5 work_new); split; [done|split; left]|]. split; [done|].
  intros e' (level & f & Hl & Hf & He) _. apply work_level in Hf as [[-> ->]|[-> ->]]; [..|done]; apply list_elem_of_singleton in He as ->; by vm_compute.
Qed.

